(* ===== verification/_CoqProject ===== *)
-Q . S2P
Prelude.v
CLib.v
Double.v
JsonValue.v
JsonText.v
JsonReader.v
JsonWriter.v
Schema.v
Runs.v
RunIterator.v
MergeRuns.v
MSort.v
BSort.v
Coding.v
DbFormat.v
Crc32c.v
Status.v
Filename.v
Log.v
Random.v
SkipList.v
MemTable.v
WriteBatch.v
Bloom.v
Cache.v
FilterBlock.v
KeyOrder.v
Iterator.v
BlockBuilder.v
Block.v
Merger.v
TwoLevel.v
TableFormat.v
TableBuilder.v
Table.v
DBIter.v
Env.v
MemEnv.v
MemIterator.v
DbWrite.v
VersionEdit.v
Version.v
TableLookup.v
TableCache.v
BuildTable.v
VersionBuilder.v
VersionSet.v
Descriptor.v
Compaction.v
CompactionView.v
DbImpl.v
DbFlush.v
DbRecover.v
