(* ===== verification/Prelude.v ===== *)
(** * Verification of the record sorters (csc443-a2) and of the libraries they use

    The repository holds two programs that sort a file of fixed-length text
    records by attributes a JSON schema names: [msort], an external merge sort
    over temporary files, and [bsort], which writes the records into a LevelDB
    database under keys made of their sort fields and reads them back in key
    order.  Both use src/library.cc for schemas, comparison, runs and merging,
    src/jsoncpp.cpp for the schema file, and bsort uses src/leveldb-1.15.0.

    ** How the parts interact

    [main] of msort.cc (MSort.v) reads a schema (Schema.v, through the reader of
    JsonReader.v and the values of JsonValue.v), makes sorted runs in a
    temporary file ([mk_runs], Runs.v) and merges them in passes: each pass
    makes one buffered reader per run (RunIterator.v) and [merge_runs]
    (MergeRuns.v) writes the smallest record of all readers until none is left.
    [main] of bsort.cc (BSort.v) puts each line under a key in a store and scans
    it; the class [OrderedStore] of BSort.v is what it expects of the database.

    In LevelDB a write goes through a write batch (WriteBatch.v), is queued
    (DbWrite.v), logged (Log.v, with the checksums of Crc32c.v) and added to the
    memtable (MemTable.v), a skip list (SkipList.v, with the generator of
    Random.v) of entries in the codec of Coding.v whose keys are the internal
    keys of DbFormat.v.  A full memtable is written to a table file
    (DbFlush.v, by BuildTable.v) of blocks (BlockBuilder.v, TableBuilder.v),
    with filters (FilterBlock.v, Bloom.v), and an edit (VersionEdit.v) that adds
    the file is logged and applied to the current version (VersionBuilder.v,
    VersionSet.v).  A read asks the memtables and then the tables of the current
    version (DbImpl.v, Version.v), which are opened and kept in a cache
    (TableCache.v, Cache.v) and searched (Table.v, Block.v, TableLookup.v).
    Iterators are composed (TwoLevel.v over blocks, Merger.v over children,
    DBIter.v on top).  Compactions pick files (Compaction.v) and drop entries
    that no snapshot sees (CompactionView.v).  When a database is opened, the
    descriptor is recovered and the logs are replayed into tables (DbRecover.v).
    Files are reached through an environment (Env.v), of which MemEnv.v is one.

    ** Files

    The programs and what both share:
    - Prelude.v: bytes ([char] as [Byte.byte]), machine integers as [Z] with
      [u32], [u64], [i32] and [i64] for the wrap-around, the outcomes [res] of
      C++ code, comparison functions as total orders ([CmpOrder]), and list
      lemmas.
    - CLib.v: the C and C++ library calls the programs make: files as byte
      strings with a position ([FILE], [filesystem]), [fread], [fwrite],
      [fgets], [strncpy], [strncmp], [atoi], [printf] of a decimal number,
      [malloc] with unknown contents ([Heap]) and [qsort] as an interface
      ([QSort]) whose law is the C standard's contract.
    - Double.v: IEEE doubles and their conversion to integers.
    - JsonValue.v: [Json::Value] (jsoncpp.cpp 1457-2677, json.h); JsonText.v:
      numbers and strings as text; JsonReader.v: [Json::Reader]; JsonWriter.v:
      [Json::FastWriter] and the round trip.
    - Schema.v: [Attribute], [Schema], [Record], [read_schema],
      [init_sort_attrs], [record_comparator] (library.h, library.cc 1-88).
    - Runs.v: [mk_runs] (library.cc 90-137).
    - RunIterator.v: class [RunIterator] (library.h 59-104, library.cc 141-227).
    - MergeRuns.v: [merge_runs] and its helpers (library.cc 229-298).
    - MSort.v, BSort.v: the two programs.

    LevelDB, by directory of src/leveldb-1.15.0:
    - util/: Coding.v (coding, slices), DbFormat.v (comparator.cc, and
      db/dbformat), KeyOrder.v (the orders that tables and iterators sort by),
      Crc32c.v, Status.v, Random.v, Bloom.v (hash.cc, bloom.cc), Cache.v.
    - db/, writing: Filename.v (with util/logging.cc), Log.v (log_format.h,
      log_writer, log_reader), SkipList.v, MemTable.v, WriteBatch.v, DbWrite.v
      (DBImpl::Write in db_impl.cc).
    - table/: Iterator.v (iterator.cc, iterator_wrapper.h), BlockBuilder.v,
      Block.v, FilterBlock.v, Merger.v, TwoLevel.v, TableFormat.v (format.cc),
      TableBuilder.v, Table.v.
    - db/, iterators: MemIterator.v (memtable.cc), DBIter.v (db_iter.cc).
    - db/, versions: VersionEdit.v, Version.v, VersionBuilder.v, VersionSet.v,
      Compaction.v (version_edit.cc, version_set.h and version_set.cc), with the
      proofs about the descriptor in Descriptor.v, and CompactionView.v for the
      rule of DoCompactionWork in db_impl.cc.
    - tables in files: TableLookup.v (gets in a table of internal keys),
      TableCache.v (table_cache.cc), BuildTable.v (builder.cc).
    - the open database: DbImpl.v (db_impl.h, snapshot.h, and reads, snapshots
      and obsolete files in db_impl.cc), DbFlush.v (WriteLevel0Table and
      CompactMemTable), DbRecover.v (RecoverLogFile, Recover and DB::Open).
    - environments: Env.v (env.h, env.cc), MemEnv.v (helpers/memenv).

    ** How code is modelled

    A function of the source is a Rocq function of the same name; a method
    takes the object's fields as a record and returns the changed record.
    Pointers into a buffer are offsets or the bytes from there on; the nodes of
    the skip list and the handles of the cache, which several links share, live
    in a store and are named by their index.  A computation returns [res]: a
    value, an exception or failed assertion that ends the program ([Throw]),
    behaviour the language leaves undefined ([Undef]), or [NoFuel].  The negation
    of the least 64-bit integer, which the JSON reader computes for every
    negative number, is undefined ([cpp_negation], as in [read_schema]) or
    wraps around ([wrapping_negation]); the theorems of JsonReader.v and
    JsonWriter.v say what holds in which case.  [Slice::compare] takes the
    shorter length as an [int]; slices of 2 GB and more are not considered.  Assertions
    of LevelDB are compiled out by its Makefile ([-DNDEBUG]) and are not
    modelled as checks; those of jsoncpp are compiled in.

    Loops that are not structural take fuel.  [merge_runs] and the passes of
    [msort] take the fuel of the caller, and the theorems ask for more than
    twice the number of records; [merge_runs_diverges] shows the one case in
    which no fuel is enough.  [mk_runs], the log reader, the batch replay, the
    decoder of version edits and the copying loops of MemEnv.v are given the
    length of their input, of which each round uses a part; the JSON reader
    three rounds for each byte and four more; the searches of the skip list the
    number of nodes plus the height; varints ten rounds, enough for 64 bits; the
    loops of a block the number of its bytes or restart points; the searches of
    sorted lists of files their length, and the restarts of
    [GetOverlappingInputs] (n+1)(2n+1) rounds for n files; the cache's growth 33
    doublings and its eviction the length of the list.  A two-level iterator
    skips empty blocks and a database iterator hidden entries as long as there
    are some, [Recover], [BuildTable] and [Open] take the caller's fuel, and the
    theorems say how much is enough (for [BuildTable] a round for each entry and
    one) or that some amount and all larger ones are.  The theorems prove that results are returned, so none of them is
    vacuous for want of fuel.

    Code outside the repository is a parameter: the contents of fresh memory,
    [qsort], the addresses of buffers (on which the checksum loop splits its
    work), Snappy, and files.  The memory a memtable uses, which is counted by
    its arena, is any function of it in DbRecover.v and any number in DbWrite.v.  Interfaces between components are type classes:
    [OrderedStore] (the database, for bsort), [Comparator] and [ComparatorName]
    (user keys; the bytewise one is an instance), [KeyOrder] (the order of a
    table's keys), [Compares] (the skip list's comparator; the memtable's is an
    instance), [Iterator] with [IteratorSpec] (a cursor over a list of entries,
    which blocks, memtables, merging and two-level iterators are shown to be),
    [WritableFile], [SequentialFile] and [RandomAccessFile], [Env] with
    [EnvSpec] and [RandomEnv] (environments; [mem_env] is an instance),
    [Handler] (batch replay; the memtable inserter is an instance),
    [FilterPolicy] (the Bloom filter and the policy of internal keys are
    instances), [TableCache] with [TableCacheSpec] (what a version asks of its
    tables) and [Tables] (what builders ask of the table cache).

    ** What the theorems show

    - The programs: [main_sorts] and [bsort_main_sorts] (the output is the
      input sorted, other files untouched), from [mk_runs_sorted_runs],
      [merge_runs_merges], [run_iterator_refines_list] and
      [record_comparator_orders].  msort sorts only when its passes follow a
      schedule without the faults that the other theorems of MSort.v and
      [merge_runs_diverges] prove: an input that fits in memory and one with
      exactly k runs are not written, a pass may write the output too early, an
      iterator may run into the next run, float arithmetic may lose a run.
    - JSON: conversions to integers and their undefined cases; the reader ends
      on every text, undefined at negative integers unless negation wraps
      around, and reads back what the compact writer wrote.
    - What a database holds: the skip list is a sorted set, the memtable answers
      for a history of writes, whatever the interleaving of writers and flushes
      that history is what the tables, the immutable memtable and the memtable
      hold in turn, a version and the whole database answer with
      the newest write that a snapshot sees, whatever the table cache holds; a
      flush of the memtable leaves these answers as they were, and so do the
      entries that a compaction drops when its inputs split no user key, which
      the picking of inputs does not ensure ([boundary_hides_newest]); files
      that a version uses are not deleted; what was logged in the descriptor is
      what a recovery finds, and a database that is opened again holds what its
      tables and logs held.
    - Formats: logs, tables, blocks and version edits are read as they were
      written, the reader of blocks ends on any bytes, the table-driven checksum
      is CRC-32C, Bloom filters and filter blocks have no false negatives.
    - Iterators of every kind are cursors over one list, in both directions, and
      the database's iterator is one over what the snapshot sees.
    - Caches and environments: the cache hands out what was inserted and deletes
      it once, and not while it is in use; the environment in memory keeps the
      promises of env.h.

    ** What is not modelled

    The styled writers of jsoncpp, comments and the offsets of values in their
    text.  Reference counts of memtables, files and versions: the list of
    versions in use is a field of DbImpl.v, and each version has its own
    counters of seeks, which the code shares.  The background thread and its
    scheduling, the loop of DoCompactionWork around the rule of
    CompactionView.v with the files that it writes, the iterator over the whole database (its parts are
    modelled), the repair of databases and the bindings for C.  Arenas,
    statistics and the info log, the environment of the operating system,
    mutexes and atomic pointers; threads are the interleaving of DbWrite.v
    only.  The block cache, which holds what reads return anyway.  Log appends
    that fail are in the operations but not in the theorems of DbWrite.v, and
    crashes between two steps of [LogAndApply] in none.  The lookups of one get
    run from one state of the table cache (TableCache.v): every state that can
    be reached answers alike.  Memory is not freed in
    the models but for the cache's handles, and the skip list is that of a
    single thread: its barriers are not modelled. *)

From Stdlib Require Import Strings.Byte.
From Stdlib Require Export ZArith Lia.
From stdpp Require Export base list list_numbers gmap strings sorting option.

#[export] Set Default Goal Selector "!".
Open Scope Z_scope.

(** ** Bytes

    A [char] of the program is a byte; [bz] is its value as an [unsigned char]
    and [zb] the truncation of an integer to one. *)

Abbreviation byte := Byte.byte.
Abbreviation bytes := (list Byte.byte).

Definition bz (b : byte) : Z := Z.of_N (Byte.to_N b).

Definition zb (z : Z) : byte :=
  match Byte.of_N (Z.to_N (z mod 256)) with Some b => b | None => Byte.x00 end.

#[export] Instance byte_eq_dec : EqDecision byte := Byte.byte_eq_dec.

Lemma bz_range b : 0 <= bz b < 256.
Proof. unfold bz. pose proof (Byte.to_N_bounded b). lia. Qed.

Lemma zb_bz b : zb (bz b) = b.
Proof. by destruct b. Qed.

Lemma bz_zb z : bz (zb z) = z mod 256.
Proof.
  unfold bz, zb. pose proof (Z.mod_pos_bound z 256 ltac:(lia)).
  destruct (Byte.of_N _) eqn:E.
  - apply Byte.to_of_N in E. lia.
  - apply Byte.of_N_None_iff in E. lia.
Qed.

Lemma bz_zb_small z : 0 <= z < 256 -> bz (zb z) = z.
Proof. intros. by rewrite bz_zb, Z.mod_small. Qed.

#[export] Instance bz_inj : Inj (=) (=) bz.
Proof. intros x y E. by rewrite <- (zb_bz x), <- (zb_bz y), E. Qed.

#[export] Program Instance byte_countable : Countable byte :=
  inj_countable bz (fun z => Some (zb z)) _.
Next Obligation. intros b. cbn. by rewrite zb_bz. Qed.

Definition NUL : byte := Byte.x00.

Lemma bz_NUL b : bz b = 0 <-> b = NUL.
Proof. split; [intros E; by apply (inj bz)|by intros ->]. Qed.

(** The value of a [char], which is signed. *)
Definition schar (b : byte) : Z := if bz b <? 128 then bz b else bz b - 256.

(** A string literal as the bytes of its characters. *)
Definition lit (s : string) : bytes := String.list_byte_of_string s.

(** ** Machine integers, as [Z] with the wrap-around written out *)

Definition u8 (z : Z) : Z := z mod 2^8.
Definition u32 (z : Z) : Z := z mod 2^32.
Definition u64 (z : Z) : Z := z mod 2^64.
Definition i32 (z : Z) : Z := (z + 2^31) mod 2^32 - 2^31.
Definition i64 (z : Z) : Z := (z + 2^63) mod 2^64 - 2^63.

Lemma u32_small z : 0 <= z < 2^32 -> u32 z = z.
Proof. apply Z.mod_small. Qed.
Lemma u64_small z : 0 <= z < 2^64 -> u64 z = z.
Proof. apply Z.mod_small. Qed.
Lemma i32_small z : -2^31 <= z < 2^31 -> i32 z = z.
Proof. unfold i32. intros. rewrite Z.mod_small; lia. Qed.
Lemma i64_small z : -2^63 <= z < 2^63 -> i64 z = z.
Proof. unfold i64. intros. rewrite Z.mod_small; lia. Qed.
Lemma u32_range z : 0 <= u32 z < 2^32.
Proof. apply Z.mod_pos_bound. lia. Qed.
Lemma u64_range z : 0 <= u64 z < 2^64.
Proof. apply Z.mod_pos_bound. lia. Qed.
Lemma i32_range z : -2^31 <= i32 z < 2^31.
Proof. unfold i32. pose proof (Z.mod_pos_bound (z + 2^31) (2^32)). lia. Qed.

Lemma i64_range z : -2^63 <= i64 z < 2^63.
Proof. unfold i64. pose proof (Z.mod_pos_bound (z + 2^63) (2^64)). lia. Qed.

(** Or-ing bits above [n] into a number of [n] bits adds them. *)
Lemma lor_shiftl_add a b n : 0 <= n -> 0 <= a < 2^n -> Z.lor a (Z.shiftl b n) = a + b * 2^n.
Proof.
  intros Hn Ha. rewrite <- Z.shiftl_mul_pow2 by done.
  rewrite <- (Z.add_lor_land a (Z.shiftl b n)).
  assert (Z.land a (Z.shiftl b n) = 0) as ->; [|lia].
  apply Z.bits_inj'. intros i Hi. rewrite Z.land_spec, Z.bits_0.
  destruct (decide (i < n)).
  - rewrite Z.shiftl_spec_low by done. apply andb_false_r.
  - rewrite <- (Z.mod_small a (2^n)) by done. by rewrite Z.mod_pow2_bits_high by lia.
Qed.

Lemma lxor_range a b n : 0 <= n -> 0 <= a < 2^n -> 0 <= b < 2^n -> 0 <= Z.lxor a b < 2^n.
Proof.
  intros Hn Ha Hb. assert (Z.lxor a b = Z.lxor a b mod 2^n) as ->; [|apply Z.mod_pos_bound; lia].
  apply Z.bits_inj'. intros i Hi. destruct (decide (i < n)).
  - by rewrite Z.mod_pow2_bits_low.
  - rewrite Z.mod_pow2_bits_high, Z.lxor_spec by lia.
    rewrite <- (Z.mod_small a (2^n)), <- (Z.mod_small b (2^n)) by done.
    by rewrite !Z.mod_pow2_bits_high by lia.
Qed.

Lemma lor_range a b n : 0 <= n -> 0 <= a < 2^n -> 0 <= b < 2^n -> 0 <= Z.lor a b < 2^n.
Proof.
  intros Hn Ha Hb. split; [apply Z.lor_nonneg; lia|].
  rewrite <- (Z.mod_small a (2^n)), <- (Z.mod_small b (2^n)), <- !Z.land_ones by done.
  rewrite <- Z.land_lor_distr_l, Z.land_ones by done. apply Z.mod_pos_bound. lia.
Qed.

Lemma shiftr_range a m n : 0 <= m -> 0 <= n -> 0 <= a < 2^(n + m) -> 0 <= Z.shiftr a m < 2^n.
Proof.
  intros Hm Hn Ha. rewrite Z.shiftr_div_pow2 by done. rewrite Z.pow_add_r in Ha by done.
  assert (0 < 2^m) by (apply Z.pow_pos_nonneg; lia).
  split; [apply Z.div_pos; lia|apply Z.div_lt_upper_bound; lia].
Qed.

Lemma land_255 n : Z.land n 255 = n mod 256.
Proof. change 255 with (Z.ones 8). by apply Z.land_ones. Qed.

#[global] Create Rewrite HintDb width.
#[export] Hint Rewrite u32_small u64_small i32_small i64_small
  using solve [lia] : width.

(** ** Outcomes

    A run of C++ code returns a value, throws an exception no caller of the
    program catches (or fails an [assert], where these are compiled in), does something the language leaves undefined (an
    out-of-range access, a null dereference, a division by zero), or has not
    finished within the fuel of the model's loops.  The last is a bound of the
    model only: the termination theorems exclude it. *)

Inductive res (A : Type) : Type :=
  | Ret (a : A)
  | Throw
  | Undef
  | NoFuel.
Arguments Ret {A} a.
Arguments Throw {A}.
Arguments Undef {A}.
Arguments NoFuel {A}.

#[export] Instance res_ret : MRet res := @Ret.
#[export] Instance res_bind : MBind res := fun A B f m =>
  match m with Ret a => f a | Throw => Throw | Undef => Undef | NoFuel => NoFuel end.

Definition of_option {A} (o : option A) : res A :=
  match o with Some a => Ret a | None => Undef end.

(** Rewriting with it keeps the kernel from unfolding the first computation. *)
Lemma bind_Ret {A B} (x : A) (f : A -> res B) : Ret x ≫= f = f x.
Proof. done. Qed.

Lemma res_bind_Ret {A B} (m : res A) (f : A -> res B) b :
  (m ≫= f) = Ret b <-> exists a, m = Ret a /\ f a = Ret b.
Proof. destruct m; cbn; naive_solver. Qed.

(** Case analysis of a computation that returned. *)
Ltac inv_res :=
  repeat match goal with
  | H : (_ ≫= _) = Ret _ |- _ =>
      apply res_bind_Ret in H;
      let E := fresh "Hr" in destruct H as (? & E & H)
  | H : Ret _ = Ret _ |- _ => injection H as H; subst
  end.

(** A computation that ends, whatever its outcome, and meets [P] when it
    returns: what is proved of code run on arbitrary input. *)
Definition finishes {A} (P : A -> Prop) (m : res A) : Prop :=
  match m with Ret a => P a | NoFuel => False | Throw | Undef => True end.

Lemma finishes_bind {A B} (Q : A -> Prop) (P : B -> Prop) (m : res A) (f : A -> res B) :
  finishes Q m -> (forall a, Q a -> finishes P (f a)) -> finishes P (m ≫= f).
Proof. destruct m; cbn; auto. Qed.
Lemma finishes_mono {A} (Q P : A -> Prop) (m : res A) :
  finishes Q m -> (forall a, Q a -> P a) -> finishes P m.
Proof. destruct m; cbn; auto. Qed.
Lemma finishes_Ret {A} (P : A -> Prop) (m : res A) a : finishes P m -> m = Ret a -> P a.
Proof. intros H E. by rewrite E in H. Qed.

(** A computation with defined behaviour: it returns and meets [P], or it
    throws. *)
Definition defined {A} (P : A -> Prop) (m : res A) : Prop :=
  match m with Ret a => P a | Throw => True | Undef | NoFuel => False end.

Lemma defined_bind {A B} (Q : A -> Prop) (P : B -> Prop) (m : res A) (f : A -> res B) :
  defined Q m -> (forall a, Q a -> defined P (f a)) -> defined P (m ≫= f).
Proof. destruct m; cbn; auto. Qed.

(** ** Comparison functions *)

(** A three-way comparison that is a total order up to the equality it
    defines; [cmp_eq] says when that equality is the identity. *)
Class CmpOrder {A} (cmp : A -> A -> comparison) : Prop := {
  cmp_refl x : cmp x x = Eq;
  cmp_antisym x y : cmp y x = CompOpp (cmp x y);
  cmp_trans x y z c : cmp x y = c -> cmp y z = c -> cmp x z = c;
  cmp_eq_l x y z : cmp x y = Eq -> cmp x z = cmp y z;
}.
#[export] Hint Mode CmpOrder ! ! : typeclass_instances.
Class CmpEq {A} (cmp : A -> A -> comparison) : Prop :=
  cmp_eq x y : cmp x y = Eq -> x = y.

Definition cmp_le {A} (cmp : A -> A -> comparison) (x y : A) : Prop := cmp x y <> Gt.
Definition cmp_lt {A} (cmp : A -> A -> comparison) (x y : A) : Prop := cmp x y = Lt.

Section cmp_order.
Context {A} (cmp : A -> A -> comparison) `{!CmpOrder cmp}.

Lemma cmp_eq_r x y z : cmp y z = Eq -> cmp x y = cmp x z.
Proof.
  intros E. rewrite (cmp_antisym (cmp:=cmp) y x), (cmp_antisym (cmp:=cmp) z x). f_equal.
  by apply cmp_eq_l.
Qed.

#[export] Instance cmp_le_preorder : PreOrder (cmp_le cmp).
Proof.
  split.
  - intros x. unfold cmp_le. by rewrite cmp_refl.
  - intros x y z. unfold cmp_le. intros H1 H2 H3.
    destruct (cmp x y) eqn:E1; [|destruct (cmp y z) eqn:E2|done].
    + by rewrite (cmp_eq_l _ y) in H3.
    + rewrite <- (cmp_eq_r _ y) in H3; [congruence|done].
    + by rewrite (cmp_trans _ y _ Lt) in H3.
    + done.
Qed.

Lemma cmp_le_total x y : cmp_le cmp x y \/ cmp_le cmp y x.
Proof.
  unfold cmp_le. rewrite (cmp_antisym (cmp:=cmp) x y).
  destruct (cmp x y); cbn; auto.
Qed.

#[export] Instance cmp_le_Total : Total (cmp_le cmp).
Proof. exact cmp_le_total. Qed.

#[export] Instance cmp_le_dec x y : Decision (cmp_le cmp x y).
Proof. unfold cmp_le. apply _. Defined.

#[export] Instance cmp_lt_dec x y : Decision (cmp_lt cmp x y).
Proof. unfold cmp_lt. apply _. Defined.

Lemma cmp_lt_le x y : cmp_lt cmp x y -> cmp_le cmp x y.
Proof. unfold cmp_lt, cmp_le. by intros ->. Qed.

Lemma cmp_lt_not_ge x y : cmp_lt cmp x y <-> ~ cmp_le cmp y x.
Proof.
  unfold cmp_lt, cmp_le. rewrite (cmp_antisym (cmp:=cmp) x y).
  destruct (cmp x y); cbn; intuition congruence.
Qed.

#[export] Instance cmp_lt_trans : Transitive (cmp_lt cmp).
Proof. intros x y z. unfold cmp_lt. apply cmp_trans. Qed.

#[export] Instance cmp_lt_irrefl : Irreflexive (cmp_lt cmp).
Proof. intros x. unfold complement, cmp_lt. by rewrite cmp_refl. Qed.

Lemma cmp_le_lt_trans x y z : cmp_le cmp x y -> cmp_lt cmp y z -> cmp_lt cmp x z.
Proof.
  rewrite !cmp_lt_not_ge. intros Hxy Hyz Hzx. apply Hyz.
  by transitivity x.
Qed.
Lemma cmp_lt_le_trans x y z : cmp_lt cmp x y -> cmp_le cmp y z -> cmp_lt cmp x z.
Proof.
  rewrite !cmp_lt_not_ge. intros Hxy Hyz Hzx. apply Hxy.
  by transitivity z.
Qed.
End cmp_order.

#[export] Instance Zcmp_order : CmpOrder Z.compare.
Proof.
  split.
  - apply Z.compare_refl.
  - intros. apply Z.compare_antisym.
  - intros x y z c. destruct c; rewrite ?Z.compare_eq_iff, ?Z.compare_lt_iff, ?Z.compare_gt_iff; lia.
  - intros x y z. rewrite Z.compare_eq_iff. by intros ->.
Qed.
#[export] Instance Zcmp_eq : CmpEq Z.compare.
Proof. intros x y. by apply Z.compare_eq_iff. Qed.

(** Comparison of the images under a key function. *)
Definition cmp_on {A B} (f : A -> B) (cmp : B -> B -> comparison) : A -> A -> comparison :=
  fun x y => cmp (f x) (f y).

#[export] Instance cmp_on_order {A B} (f : A -> B) cmp `{!CmpOrder cmp} :
  CmpOrder (cmp_on f cmp).
Proof.
  split; unfold cmp_on; intros.
  - apply cmp_refl.
  - apply cmp_antisym.
  - by eapply cmp_trans.
  - by apply cmp_eq_l.
Qed.

(** First by one comparison, then by another; and the opposite order. *)
Definition cmp_then {A} (c1 c2 : A -> A -> comparison) : A -> A -> comparison :=
  fun x y => match c1 x y with Eq => c2 x y | c => c end.
Definition cmp_flip {A} (c : A -> A -> comparison) : A -> A -> comparison := fun x y => c y x.

#[global] Typeclasses Opaque cmp_then cmp_flip.

#[export] Instance cmp_then_order {A} (c1 c2 : A -> A -> comparison)
  `{!CmpOrder c1} `{!CmpOrder c2} : CmpOrder (cmp_then c1 c2).
Proof.
  split; unfold cmp_then.
  - intros x. by rewrite !cmp_refl.
  - intros x y. rewrite (cmp_antisym (cmp:=c1) x y). destruct (c1 x y); cbn; auto. apply cmp_antisym.
  - intros x y z c. destruct (c1 x y) eqn:E1.
    + rewrite (cmp_eq_l (cmp:=c1) _ _ z E1). destruct (c1 y z); [apply cmp_trans|done..].
    + intros <-. destruct (c1 y z) eqn:E2; [|by rewrite (cmp_trans _ y _ Lt)|done].
      intros _. by rewrite <- (cmp_eq_r c1 x y z E2), E1.
    + intros <-. destruct (c1 y z) eqn:E2; [|done|by rewrite (cmp_trans _ y _ Gt)].
      intros _. by rewrite <- (cmp_eq_r c1 x y z E2), E1.
  - intros x y z. destruct (c1 x y) eqn:E1; try done. intros E2.
    rewrite (cmp_eq_l (cmp:=c1) _ _ z E1). destruct (c1 y z); [by apply cmp_eq_l|done..].
Qed.

#[export] Instance cmp_flip_order {A} (c : A -> A -> comparison) `{!CmpOrder c} : CmpOrder (cmp_flip c).
Proof.
  split; unfold cmp_flip.
  - intros. apply cmp_refl.
  - intros. apply cmp_antisym.
  - intros x y z r H1 H2. by eapply cmp_trans.
  - intros x y z E. symmetry. by apply (cmp_eq_r c).
Qed.

Definition byte_cmp : byte -> byte -> comparison := cmp_on bz Z.compare.

#[export] Instance byte_cmp_order : CmpOrder byte_cmp := _.
#[export] Instance byte_cmp_eq : CmpEq byte_cmp.
Proof. intros x y E. apply (inj bz). by apply Z.compare_eq_iff. Qed.

(** Lexicographic comparison of lists; a proper prefix comes first. *)
Fixpoint lex {A} (cmp : A -> A -> comparison) (l k : list A) : comparison :=
  match l, k with
  | [], [] => Eq
  | [], _ :: _ => Lt
  | _ :: _, [] => Gt
  | x :: l, y :: k => match cmp x y with Eq => lex cmp l k | c => c end
  end.

#[export] Instance lex_order {A} (cmp : A -> A -> comparison) `{!CmpOrder cmp} :
  CmpOrder (lex cmp).
Proof.
  split.
  - intros l. induction l as [|x l IH]; cbn; [done|]. by rewrite cmp_refl.
  - intros l. induction l as [|x l IH]; intros [|y k]; cbn; [done..|].
    rewrite (cmp_antisym (cmp:=cmp) x y). destruct (cmp x y); cbn; auto.
  - intros l. induction l as [|x l IH]; intros [|y k] [|z m] c; cbn; try congruence.
    destruct (cmp x y) eqn:E1.
    + rewrite (cmp_eq_l (cmp:=cmp) _ _ z E1). destruct (cmp y z); [apply IH|done..].
    + intros <-. destruct (cmp y z) eqn:E2; [|by rewrite (cmp_trans _ y _ Lt)|done].
      intros _. by rewrite <- (cmp_eq_r _ x y z E2), E1.
    + intros <-. destruct (cmp y z) eqn:E2; [|done|by rewrite (cmp_trans _ y _ Gt)].
      intros _. by rewrite <- (cmp_eq_r _ x y z E2), E1.
  - intros l. induction l as [|x l IH]; intros [|y k] m; cbn; try done.
    destruct (cmp x y) eqn:E1; try done. intros E2.
    destruct m as [|z m]; [done|]. cbn.
    rewrite (cmp_eq_l (cmp:=cmp) _ _ z E1). destruct (cmp y z); auto.
Qed.

#[export] Instance lex_eq {A} (cmp : A -> A -> comparison) `{!CmpEq cmp} :
  CmpEq (lex cmp).
Proof.
  intros l. induction l as [|x l IH]; intros [|y k]; cbn; try done.
  destruct (cmp x y) eqn:E; [|done..]. intros ?. f_equal; [by apply cmp_eq|auto].
Qed.

(** Byte strings in [memcmp] order: the order of [Slice::compare], and of
    [strcmp] on the parts before the terminators. *)
Definition bytes_cmp : bytes -> bytes -> comparison := lex byte_cmp.

#[export] Instance bytes_cmp_order : CmpOrder bytes_cmp := _.
#[export] Instance bytes_cmp_eq : CmpEq bytes_cmp := _.

Lemma lex_app_same {A} (cmp : A -> A -> comparison) `{!CmpOrder cmp} p l k :
  lex cmp (p ++ l) (p ++ k) = lex cmp l k.
Proof. induction p as [|x p IH]; cbn; [done|]. by rewrite cmp_refl. Qed.

Lemma lex_app_length {A} (cmp : A -> A -> comparison) p q l k :
  length p = length q ->
  lex cmp (p ++ l) (q ++ k) =
    match lex cmp p q with Eq => lex cmp l k | c => c end.
Proof.
  revert q. induction p as [|x p IH]; intros [|y q] [=]; cbn; [done|].
  destruct (cmp x y); auto.
Qed.

(** ** Lists *)

Lemma take_app_drop {A} n (l : list A) : take n l ++ drop n l = l.
Proof. apply take_drop. Qed.

(** [splice l n k]: [l] with the elements from offset [n] on overwritten by
    [k], extended when [k] runs past the end. *)
Definition splice {A} (l : list A) (n : nat) (k : list A) : list A :=
  take n l ++ k ++ drop (n + length k) l.

Lemma length_splice {A} (l : list A) n k :
  (n + length k <= length l)%nat -> length (splice l n k) = length l.
Proof. intros. unfold splice. rewrite !length_app, length_take, length_drop. lia. Qed.

Lemma splice_end {A} (l k : list A) n : n = length l -> splice l n k = l ++ k.
Proof.
  intros ->. unfold splice. rewrite firstn_all, drop_ge, app_nil_r; [done|lia].
Qed.

Lemma splice_0 {A} (l k : list A) : splice l 0 k = k ++ drop (length k) l.
Proof. done. Qed.

Lemma filter_all {A} (P : A -> Prop) `{forall x, Decision (P x)} (l : list A) : (forall x, x ∈ l -> P x) -> filter P l = l.
Proof.
  induction l as [|x l IH]; intros Hl; [done|]. rewrite filter_cons, decide_True by (apply Hl; left).
  f_equal. apply IH. intros. apply Hl. by right.
Qed.

Lemma StronglySorted_NoDup {A} (R : relation A) `{!Irreflexive R} l :
  StronglySorted R l -> NoDup l.
Proof.
  induction 1 as [|x l _ IH Hx]; constructor; [|done].
  rewrite Forall_forall in Hx. intros Hin. apply (irreflexivity R x), Hx. by apply list_elem_of_In.
Qed.

Lemma StronglySorted_at {A} (R : relation A) l i j x y :
  StronglySorted R l -> (i < j)%nat -> l !! i = Some x -> l !! j = Some y -> R x y.
Proof.
  intros HS. revert i j. induction HS as [|z l HS IH Hz]; intros i j Hij Hi Hj; [done|].
  destruct j as [|j]; [lia|]. cbn in Hj. destruct i as [|i].
  - injection Hi as <-. by apply (Forall_lookup_1 _ _ _ _ Hz Hj).
  - apply (IH i j); [lia|done..].
Qed.

Lemma StronglySorted_from {A} (R : relation A) l :
  (forall i j x y, (i < j)%nat -> l !! i = Some x -> l !! j = Some y -> R x y) -> StronglySorted R l.
Proof.
  induction l as [|z l IH]; intros H; constructor.
  - apply IH. intros i j x y Hij. apply (H (S i) (S j)). lia.
  - apply Forall_forall. intros y Hy%list_elem_of_In. apply list_elem_of_lookup in Hy as [j Hj].
    apply (H 0%nat (S j)); [lia|done|done].
Qed.

(** ** Chunks of equal size *)

(** [chop n l]: [l] cut into pieces of [n] elements, the last possibly shorter. *)
Fixpoint chop_fuel {A} (fuel n : nat) (l : list A) : list (list A) :=
  match fuel, l with
  | S fuel, _ :: _ => take n l :: chop_fuel fuel n (drop n l)
  | _, _ => []
  end.
Definition chop {A} (n : nat) (l : list A) : list (list A) := chop_fuel (length l) n l.

Section chop.
Context {A : Type} (n : nat) (Hn : (0 < n)%nat).

Lemma chop_fuel_enough f (l : list A) :
  (length l <= f)%nat -> chop_fuel f n l = chop n l.
Proof.
  unfold chop. revert l. induction f as [f IH] using lt_wf_ind. intros l Hl.
  destruct l as [|x l]; [by destruct f|].
  destruct f as [|f]; [cbn in Hl; lia|]. cbn -[take drop]. f_equal.
  assert (length (drop n (x :: l)) <= length l)%nat.
  { rewrite length_drop. cbn. lia. }
  cbn in Hl. etrans; [apply IH; lia|]. symmetry. apply IH; lia.
Qed.

Lemma chop_nil : chop n ([] : list A) = [].
Proof. done. Qed.

Lemma chop_cons (l : list A) : l ≠ [] -> chop n l = take n l :: chop n (drop n l).
Proof.
  destruct l as [|x l]; [done|]. intros _. unfold chop at 1. cbn -[take drop].
  f_equal. apply chop_fuel_enough. rewrite length_drop. cbn. lia.
Qed.

Lemma chop_ind (P : list A -> Prop) :
  P [] -> (forall l, l ≠ [] -> P (drop n l) -> P l) -> forall l, P l.
Proof.
  intros H0 Hs l. induction l as [l IH] using (induction_ltof1 _ length).
  unfold ltof in IH. destruct l as [|x l]; [done|].
  apply Hs; [done|]. apply IH. rewrite length_drop. cbn. lia.
Qed.

Lemma concat_chop (l : list A) : concat (chop n l) = l.
Proof.
  induction l as [|l Hl IH] using chop_ind; [done|].
  rewrite chop_cons by done. cbn. by rewrite IH, take_drop.
Qed.

Lemma lookup_chop (l : list A) i :
  (n * i < length l)%nat -> chop n l !! i = Some (take n (drop (n * i) l)).
Proof.
  revert i. induction l as [|l Hl IH] using chop_ind; cbn; [lia|].
  intros i Hi. rewrite chop_cons by done. destruct i as [|i]; cbn.
  - by rewrite Nat.mul_0_r.
  - rewrite IH by (rewrite length_drop; lia). rewrite drop_drop.
    do 3 f_equal. lia.
Qed.

Lemma length_chop (l : list A) :
  length (chop n l) = ((length l + n - 1) / n)%nat.
Proof.
  induction l as [|l Hl IH] using chop_ind.
  - cbn. symmetry. apply Nat.div_small. lia.
  - rewrite chop_cons by done. cbn [length]. rewrite IH, length_drop.
    assert (0 < length l)%nat by (destruct l; [done|cbn; lia]).
    destruct (decide (n <= length l)%nat).
    + replace (length l + n - 1)%nat with (length l - n + n - 1 + 1 * n)%nat by lia.
      rewrite Nat.div_add by lia. lia.
    + replace (length l - n + n - 1)%nat with (n - 1)%nat by lia.
      rewrite Nat.div_small by lia.
      replace (length l + n - 1)%nat with (length l - 1 + 1 * n)%nat by lia.
      rewrite Nat.div_add, Nat.div_small by lia. done.
Qed.

Lemma chop_map (l : list A) :
  chop n l = map (fun j => take n (drop (n * j) l)) (seq 0 (length (chop n l))).
Proof.
  apply list_eq. intros i. rewrite list_lookup_fmap.
  destruct (decide (i < length (chop n l))%nat) as [Hi|Hi].
  - rewrite lookup_seq_lt by done. cbn. apply lookup_chop.
    rewrite length_chop in Hi.
    assert (n * S i <= length l + n - 1)%nat; [|lia].
    transitivity (n * ((length l + n - 1) / n))%nat; [nia|]. apply Nat.Div0.mul_div_le.
  - rewrite lookup_ge_None_2, lookup_seq_ge by lia. done.
Qed.

(** Replacing each piece by another of the same length. *)
Lemma chop_concat_Forall2 (l : list A) (ll : list (list A)) :
  Forall2 (fun a b : list A => length a = length b) (chop n l) ll -> chop n (concat ll) = ll.
Proof.
  revert ll. induction l as [|l Hl IH] using chop_ind; intros ll; cbn.
  - by inversion 1.
  - rewrite chop_cons by done. inversion 1 as [|? b ? ll' Hb Hll]; subst.
    change (concat (b :: ll')) with (b ++ concat ll').
    rewrite length_take in Hb.
    assert (0 < length l)%nat by (destruct l; [done|cbn; lia]).
    rewrite chop_cons by (intros E; apply (f_equal length) in E; rewrite length_app in E; cbn in E; lia).
    destruct (decide (n <= length l)%nat).
    + rewrite take_app_length', drop_app_length' by lia. by rewrite IH.
    + rewrite drop_ge in Hll by lia. inversion Hll; subst. cbn. rewrite app_nil_r.
      by rewrite take_ge, drop_ge by lia.
Qed.

Lemma Forall_chop (P : A -> Prop) (l : list A) : Forall P l -> Forall (Forall P) (chop n l).
Proof.
  induction l as [|l Hl IH] using chop_ind; intros H; [constructor|].
  rewrite chop_cons by done. constructor; [by apply Forall_take|by apply IH, Forall_drop].
Qed.

Lemma chop_sorted (R : relation A) (l : list A) :
  StronglySorted R l -> Forall (StronglySorted R) (chop n l).
Proof.
  induction l as [|l Hl IH] using chop_ind; intros H; [constructor|].
  rewrite chop_cons by done. rewrite <- (take_drop n l) in H.
  apply StronglySorted_app in H as (_ & H1 & H2). constructor; auto.
Qed.
End chop.

(** Concatenations of equally long pieces. *)
Section uniform.
Context {A : Type} (n : nat).

Definition uniform (ll : list (list A)) : Prop := Forall (fun l => length l = n) ll.

Lemma length_concat_uniform ll : uniform ll -> length (concat ll) = (n * length ll)%nat.
Proof. induction 1 as [|l ll Hl _ IH]; cbn; [lia|]. rewrite length_app, IH, Hl. lia. Qed.

Lemma drop_concat_uniform ll i : uniform ll -> drop (n * i) (concat ll) = concat (drop i ll).
Proof.
  intros H. revert i. induction H as [|l ll Hl H IH]; intros i; cbn.
  - by rewrite !drop_nil.
  - destruct i as [|i]; cbn; [by rewrite Nat.mul_0_r|].
    rewrite <- IH, drop_app_ge by lia. f_equal. lia.
Qed.

Lemma take_concat_uniform ll i : uniform ll -> take (n * i) (concat ll) = concat (take i ll).
Proof.
  intros H. revert i. induction H as [|l ll Hl H IH]; intros i; cbn.
  - by rewrite !take_nil.
  - destruct i as [|i]; cbn; [by rewrite Nat.mul_0_r|].
    rewrite <- IH, take_app_ge by lia. do 2 f_equal. lia.
Qed.

Lemma uniform_take ll i : uniform ll -> uniform (take i ll).
Proof. apply Forall_take. Qed.
Lemma uniform_drop ll i : uniform ll -> uniform (drop i ll).
Proof. apply Forall_drop. Qed.
Lemma uniform_app ll kk : uniform (ll ++ kk) <-> uniform ll /\ uniform kk.
Proof. apply Forall_app. Qed.

Lemma uniform_perm ll kk : ll ≡ₚ kk -> uniform ll -> uniform kk.
Proof. unfold uniform. by intros ->. Qed.
End uniform.
