(* ===== verification/CLib.v ===== *)
(** * CLib: the C library the program calls

    [<string.h>], [<stdlib.h>] and [<stdio.h>] as the sort programs use them.
    Nothing here is code of the repository; the sources under src/ call it.
    A buffer is the list of its bytes, so an access outside it is [Undef]. *)

From S2P Require Import Prelude.

(** ** Strings *)

(** The C string at the start of a buffer: the bytes before the first NUL. *)
Fixpoint cstr (b : bytes) : bytes :=
  match b with
  | [] => []
  | c :: b => if decide (c = NUL) then [] else c :: cstr b
  end.

(** [strlen] runs off a buffer that holds no terminator. *)
Fixpoint strlen (b : bytes) : res nat :=
  match b with
  | [] => Undef
  | c :: b => if decide (c = NUL) then Ret 0%nat else n ← strlen b; Ret (S n)
  end.

(** [strncmp(a, b, n)]: the difference of the first two bytes that differ.
    The standard fixes only the sign, and the program uses only the sign. *)
Fixpoint strncmp (a b : bytes) (n : nat) {struct n} : res Z :=
  match n with
  | O => Ret 0
  | S n =>
      match a, b with
      | x :: a, y :: b =>
          if decide (x = y) then
            if decide (x = NUL) then Ret 0 else strncmp a b n
          else Ret (bz x - bz y)
      | _, _ => Undef
      end
  end.

Fixpoint strcmp (a b : bytes) : res Z :=
  match a, b with
  | x :: a, y :: b =>
      if decide (x = y) then
        if decide (x = NUL) then Ret 0 else strcmp a b
      else Ret (bz x - bz y)
  | _, _ => Undef
  end.

(** The [n] bytes [strncpy(dst, src, n)] stores at [dst]. *)
Fixpoint strncpy (src : bytes) (n : nat) {struct n} : res bytes :=
  match n with
  | O => Ret []
  | S n' =>
      match src with
      | [] => Undef
      | c :: src =>
          if decide (c = NUL) then Ret (replicate n NUL)
          else k ← strncpy src n'; Ret (c :: k)
      end
  end.

(** [strncat(dst, src, n)]: the string of [dst] afterwards; at most [n] bytes
    of [src] are appended, then the terminator.  [cap] is the size of [dst]. *)
Fixpoint strn_prefix (src : bytes) (n : nat) {struct n} : res bytes :=
  match n with
  | O => Ret []
  | S n =>
      match src with
      | [] => Undef
      | c :: src =>
          if decide (c = NUL) then Ret []
          else k ← strn_prefix src n; Ret (c :: k)
      end
  end.
Definition strncat (cap : nat) (dst src : bytes) (n : nat) : res bytes :=
  k ← strn_prefix src n;
  if decide (length (dst ++ k) < cap)%nat then Ret (dst ++ k) else Undef.
(** [strcat] of a string already known to end. *)
Definition strcat (cap : nat) (dst src : bytes) : res bytes :=
  if decide (length (dst ++ src) < cap)%nat then Ret (dst ++ src) else Undef.

(** [std::string::resize(n)]: cuts, or pads with NULs. *)
Definition string_resize (n : nat) (s : bytes) : bytes := take n s ++ replicate (n - length s) NUL.

Lemma string_resize_le n s : (n <= length s)%nat -> string_resize n s = take n s.
Proof. intros Hn. unfold string_resize. replace (n - length s)%nat with 0%nat by lia. apply app_nil_r. Qed.

(** The decimal digits of [0 <= n < 10^20], which covers 64-bit integers. *)
Fixpoint dec_go (fuel : nat) (n : Z) (acc : bytes) : bytes :=
  match fuel with
  | O => acc
  | S fuel =>
      let acc := zb (48 + n mod 10) :: acc in
      if n <? 10 then acc else dec_go fuel (n / 10) acc
  end.
Definition decimal (n : Z) : bytes := dec_go 20 n [].

(** [sprintf(_, "%d", z)]. *)
Definition sprintf_d (z : Z) : bytes :=
  if z <? 0 then zb 45 :: decimal (- z) else decimal z.

Definition is_space (c : byte) : bool :=
  let z := bz c in (z =? 32) || ((9 <=? z) && (z <=? 13)).
Definition is_digit (c : byte) : bool :=
  let z := bz c in (48 <=? z) && (z <=? 57).

Fixpoint skip_spaces (s : bytes) : bytes :=
  match s with
  | c :: s' => if is_space c then skip_spaces s' else s
  | [] => []
  end.
Fixpoint digits (acc : Z) (s : bytes) : Z :=
  match s with
  | c :: s => if is_digit c then digits (10 * acc + (bz c - 48)) s else acc
  | [] => acc
  end.
(** [atoi]; a value no [int] holds is undefined. *)
Definition atoi (s : bytes) : res Z :=
  let s := skip_spaces s in
  let v :=
    match s with
    | c :: s' =>
        if decide (bz c = 45) then - digits 0 s'
        else if decide (bz c = 43) then digits 0 s'
        else digits 0 s
    | [] => 0
    end in
  if decide (-2^31 <= v < 2^31) then Ret v else Undef.

(** Signed [int] addition: an overflow is undefined. *)
Definition int_add (a b : Z) : res Z :=
  if decide (-2^31 <= a + b < 2^31) then Ret (a + b) else Undef.

(** [p + off] for a pointer [p] to the start of a buffer. *)
Definition ptr_at (buf : bytes) (off : Z) : res bytes :=
  if decide (0 <= off <= Z.of_nat (length buf)) then Ret (drop (Z.to_nat off) buf)
  else Undef.

(** [a[i]] of an array. *)
Definition nth_res {A} (l : list A) (i : Z) : res A :=
  if decide (0 <= i) then of_option (l !! Z.to_nat i) else Undef.

(** ** Streams

    The file system maps names to contents; a stream holds its name, position
    and end-of-file indicator.  Writes go to the file at once: the programs
    flush after each batch and close before reopening. *)

Abbreviation filesystem := (gmap bytes bytes).

Record FILE := mkFILE { fname : bytes; fpos : nat; feof : bool }.

(** [fopen(name, "r")]: null when there is no such file. *)
Definition fopen_r (fs : filesystem) (name : bytes) : option FILE :=
  match fs !! name with Some _ => Some (mkFILE name 0 false) | None => None end.
(** [fopen(name, "w")] creates or truncates. *)
Definition fopen_w (fs : filesystem) (name : bytes) : filesystem * FILE :=
  (<[name := []]> fs, mkFILE name 0 false).
Definition remove (fs : filesystem) (name : bytes) : filesystem := delete name fs.

Definition fseek_set (f : FILE) (p : Z) : res FILE :=
  if decide (0 <= p) then Ret (mkFILE (fname f) (Z.to_nat p) false) else Undef.
Definition rewind (f : FILE) : FILE := mkFILE (fname f) 0 false.
Definition contents (fs : filesystem) (f : FILE) : res bytes := of_option (fs !! fname f).

(** [fread(_, size, n, f)]: the bytes stored, the number of whole items, and
    the stream.  The bytes of a last partial item are stored and consumed, as
    the C library does, though they do not count. *)
Definition fread (fs : filesystem) (f : FILE) (size n : nat) : res (bytes * nat * FILE) :=
  c ← contents fs f;
  let got := take (size * n) (drop (fpos f) c) in
  Ret (got, (length got / size)%nat,
       mkFILE (fname f) (fpos f + length got) (bool_decide (length got < size * n)%nat)).

(** [fwrite(data, 1, length data, f)]; a position past the end leaves zeros. *)
Definition fwrite (fs : filesystem) (f : FILE) (data : bytes) : res (filesystem * FILE) :=
  c ← contents fs f;
  let c := c ++ replicate (fpos f - length c) NUL in
  Ret (<[fname f := splice c (fpos f) data]> fs,
       mkFILE (fname f) (fpos f + length data) (feof f)).

(** The line [fgets] reads from [c]: at most [n] bytes, through the newline. *)
Fixpoint fgets_bytes (c : bytes) (n : nat) {struct n} : bytes :=
  match n, c with
  | S n, x :: c => if decide (bz x = 10) then [x] else x :: fgets_bytes c n
  | _, _ => []
  end.
(** [fgets(buf, n + 1, f)]: the end-of-file indicator is set when the read ran
    into the end; at the end with nothing read the result is null ([None])
    and the buffer keeps its content. *)
Definition fgets (fs : filesystem) (f : FILE) (n : nat) : res (option bytes * FILE) :=
  c ← contents fs f;
  let rest := drop (fpos f) c in
  let got := fgets_bytes rest n in
  let hit := bool_decide (length got < n)%nat && negb (bool_decide (option_map bz (list.last got) = Some 10)) in
  Ret (if decide (got = []) then None else Some got,
       mkFILE (fname f) (fpos f + length got) (feof f || hit)).

(** ** Memory and sorting

    What [malloc] returns is uninitialised: any bytes of the requested number. *)
Class Heap := {
  malloc_bytes : nat -> bytes;
  length_malloc n : length (malloc_bytes n) = n;
}.

(** [qsort] permutes the array; when the comparison is consistent (a total
    preorder of the elements) the array ends in order.  The order of equal
    elements is the library's choice, so it is left open. *)
Class QSort := {
  qsort : forall {A}, (A -> A -> Z) -> list A -> list A;
  qsort_perm {A} (c : A -> A -> Z) l : qsort c l ≡ₚ l;
  qsort_sorted {A} (c : A -> A -> Z) (key : A -> A -> comparison) l :
    CmpOrder key ->
    (forall x y, x ∈ l -> y ∈ l -> (c x y ?= 0) = key x y) ->
    StronglySorted (cmp_le key) (qsort c l);
}.

(** [qsort] with a comparison that may be undefined: the library may compare
    any two elements, so all the comparisons must be defined. *)
Definition qsort_res `{QSort} {A} (c : A -> A -> res Z) (l : list A) : res (list A) :=
  let c' x y := match c x y with Ret z => z | _ => 0 end in
  if forallb (fun x => forallb (fun y =>
       match c x y with Ret _ => true | _ => false end) l) l
  then Ret (qsort c' l) else Undef.

(** ** The string functions in terms of [cstr] *)

Definition no_nul (b : bytes) : Prop := NUL ∉ b.

(** [no_nul] of a concrete string, by computation. *)
Lemma no_nul_b b : forallb (fun c => negb (bool_decide (c = NUL))) b = true -> no_nul b.
Proof.
  unfold no_nul. rewrite forallb_forall. intros H Hin%list_elem_of_In.
  specialize (H _ Hin). by rewrite bool_decide_true in H.
Qed.

Lemma cstr_no_nul b : no_nul b -> cstr b = b.
Proof.
  unfold no_nul. induction b as [|c b IH]; cbn; [done|].
  rewrite not_elem_of_cons. intros [H ?]. rewrite decide_False; [|done].
  by rewrite IH.
Qed.

Lemma cstr_is_no_nul b : no_nul (cstr b).
Proof.
  unfold no_nul. induction b as [|c b IH]; cbn; [apply not_elem_of_nil|].
  destruct (decide (c = NUL)); [apply not_elem_of_nil|].
  rewrite not_elem_of_cons. naive_solver.
Qed.

Lemma no_nul_app a b : no_nul (a ++ b) <-> no_nul a /\ no_nul b.
Proof. unfold no_nul. rewrite elem_of_app. tauto. Qed.

Lemma no_nul_take n b : no_nul b -> no_nul (take n b).
Proof. unfold no_nul. intros H ?. apply H. by eapply elem_of_take in H0 as (?&?%list_elem_of_lookup_2&?). Qed.

Lemma no_nul_drop n b : no_nul b -> no_nul (drop n b).
Proof. rewrite <- (take_drop n b) at 1. rewrite no_nul_app. tauto. Qed.

Lemma byte_cmp_diff x y : x ≠ y -> (bz x - bz y ?= 0) = byte_cmp x y /\ byte_cmp x y ≠ Eq.
Proof.
  intros Hne. unfold byte_cmp, cmp_on. split.
  - rewrite <- (Z.compare_sub (bz x)). done.
  - intros E%Z.compare_eq_iff%(inj bz). done.
Qed.

Lemma byte_cmp_NUL x : x ≠ NUL -> byte_cmp NUL x = Lt /\ byte_cmp x NUL = Gt.
Proof.
  intros Hx. pose proof (bz_range x). assert (bz x <> 0) by (rewrite bz_NUL; done).
  assert (bz NUL = 0) by done. unfold byte_cmp, cmp_on.
  split; [apply Z.compare_lt_iff|apply Z.compare_gt_iff]; lia.
Qed.

(** [strncmp] orders two fields as their C strings, in [bytes_cmp] order. *)
Lemma strncmp_spec a b n :
  (n <= length a)%nat -> (n <= length b)%nat ->
  exists z, strncmp a b n = Ret z /\
    (z ?= 0) = bytes_cmp (cstr (take n a)) (cstr (take n b)).
Proof.
  revert a b. induction n as [|n IH]; intros a b Ha Hb; cbn; [exists 0; split; reflexivity|].
  destruct a as [|x a]; [cbn in Ha; lia|]. destruct b as [|y b]; [cbn in Hb; lia|].
  cbn in Ha, Hb. cbn. destruct (decide (x = y)) as [->|Hne].
  - destruct (decide (y = NUL)) as [->|]; [by exists 0|].
    destruct (IH a b) as (z & Hz & Hc); [lia..|].
    exists z. split; [done|]. rewrite Hc. unfold bytes_cmp. cbn.
    by rewrite (cmp_refl (cmp:=byte_cmp)).
  - exists (bz x - bz y). split; [done|].
    destruct (byte_cmp_diff x y Hne) as [-> Hneq].
    destruct (decide (x = NUL)) as [->|Hx]; destruct (decide (y = NUL)) as [->|Hy];
      [done|apply byte_cmp_NUL; done|apply (byte_cmp_NUL x Hx)|].
    unfold bytes_cmp. cbn. by destruct (byte_cmp x y).
Qed.

Lemma strncpy_spec src n : (n <= length src)%nat ->
  strncpy src n = Ret (cstr (take n src) ++ replicate (n - length (cstr (take n src))) NUL).
Proof.
  revert src. induction n as [|n IH]; intros [|c src] H; cbn in *; try done; try lia.
  destruct (decide (c = NUL)); [done|].
  rewrite IH; [|lia]. done.
Qed.

Lemma strncpy_no_nul src n : (n <= length src)%nat -> no_nul (take n src) ->
  strncpy src n = Ret (take n src).
Proof.
  intros H H0. rewrite strncpy_spec; [|done]. rewrite cstr_no_nul; [|done].
  rewrite length_take. by rewrite Nat.min_l, Nat.sub_diag, app_nil_r by lia.
Qed.

Lemma strn_prefix_no_nul src n : (n <= length src)%nat -> no_nul (take n src) ->
  strn_prefix src n = Ret (take n src).
Proof.
  revert src. induction n as [|n IH]; intros [|c src] H; cbn in *; try done; try lia.
  unfold no_nul. rewrite not_elem_of_cons. intros [Hc ?].
  rewrite decide_False by done. by rewrite IH by (done || lia).
Qed.

Lemma strlen_spec a b : no_nul a -> strlen (a ++ NUL :: b) = Ret (length a).
Proof.
  unfold no_nul. induction a as [|c a IH]; cbn; [by rewrite decide_True|].
  rewrite not_elem_of_cons. intros [Hc ?]. rewrite decide_False by done. by rewrite IH.
Qed.

(** Printing and reading back a decimal number. *)
Lemma dec_go_spec f n acc : 0 <= n < 10 ^ Z.of_nat f ->
  (0 < f)%nat ->
  exists l, dec_go f n acc = l ++ acc /\ Forall (fun c => is_digit c = true) l /\
    (length l <= f)%nat /\ l ≠ [] /\
    forall a k, digits a (l ++ k) = digits (a * 10 ^ Z.of_nat (length l) + n) k.
Proof.
  revert n acc. induction f as [|f IH]; intros n acc Hn Hf; [lia|]. cbn [dec_go].
  pose proof (Z.mod_pos_bound n 10 ltac:(lia)) as Hm.
  assert (bz (zb (48 + n mod 10)) = 48 + n mod 10) as Hd by (apply bz_zb_small; lia).
  assert (is_digit (zb (48 + n mod 10)) = true) as Hdig.
  { unfold is_digit. rewrite Hd. lia. }
  destruct (Z.ltb_spec n 10) as [Hlt|Hge].
  - exists [zb (48 + n mod 10)]. split; [done|]. split; [by constructor|].
    split; [cbn; lia|]. split; [done|]. intros a k. cbn [app digits length].
    rewrite Hdig, Hd, Z.mod_small by lia. f_equal. lia.
  - destruct f as [|f]; [cbn in Hn; lia|].
    assert (0 <= n / 10 < 10 ^ Z.of_nat (S f)) as Hq.
    { split; [apply Z.div_pos; lia|]. apply Z.div_lt_upper_bound; [lia|].
      rewrite (Nat2Z.inj_succ (S f)), Z.pow_succ_r in Hn by lia. lia. }
    destruct (IH (n / 10) (zb (48 + n mod 10) :: acc) Hq ltac:(lia))
      as (l & -> & Hl & Hlen & Hne & Hv).
    exists (l ++ [zb (48 + n mod 10)]). rewrite <- app_assoc. split; [done|].
    split; [apply Forall_app; split; [done|by constructor]|].
    rewrite length_app. cbn [length]. split; [lia|]. split; [by destruct l|].
    intros a k. rewrite <- app_assoc, Hv. cbn [app digits]. rewrite Hdig, Hd.
    f_equal. rewrite Nat2Z.inj_add, Z.pow_add_r by lia.
    pose proof (Z.div_mod n 10 ltac:(lia)). change (10 ^ Z.of_nat 1) with 10. lia.
Qed.

Lemma decimal_spec n : 0 <= n < 10^20 ->
  Forall (fun c => is_digit c = true) (decimal n) /\ (length (decimal n) <= 20)%nat /\
  decimal n ≠ [] /\ forall a k,
    digits a (decimal n ++ k) = digits (a * 10 ^ Z.of_nat (length (decimal n)) + n) k.
Proof.
  intros Hn. destruct (dec_go_spec 20 n [] Hn ltac:(lia)) as (l & E & Hl & Hlen & Hne & Hv).
  unfold decimal. rewrite app_nil_r in E. by rewrite E.
Qed.

Lemma digits_decimal n : 0 <= n < 10^20 -> digits 0 (decimal n) = n.
Proof.
  intros Hn. destruct (decimal_spec n Hn) as (_ & _ & _ & Hv).
  specialize (Hv 0 []). rewrite app_nil_r in Hv. rewrite Hv. cbn. lia.
Qed.

Lemma decimal_inj n m : 0 <= n < 10^20 -> 0 <= m < 10^20 -> decimal n = decimal m -> n = m.
Proof. intros Hn Hm E. by rewrite <- (digits_decimal n Hn), E, digits_decimal. Qed.

Lemma digits_no_nul l : Forall (fun c => is_digit c = true) l -> no_nul l.
Proof.
  unfold no_nul. intros H Hin. rewrite Forall_forall in H.
  by specialize (H NUL ltac:(by apply list_elem_of_In)).
Qed.

Lemma bz_sub_0 x y : bz x - bz y = 0 -> x = y.
Proof. intros. apply (inj bz). lia. Qed.

Lemma strcmp_spec a b a' b' :
  no_nul a -> no_nul b ->
  exists z, strcmp (a ++ NUL :: a') (b ++ NUL :: b') = Ret z /\ (z = 0 <-> a = b).
Proof.
  unfold no_nul. revert b. induction a as [|x a IH]; intros [|y b]; cbn -[bz].
  - intros _ _. exists 0. by rewrite decide_True.
  - rewrite not_elem_of_cons. intros _ [? _]. rewrite decide_False by done.
    eexists. split; [done|]. split; [|done]. by intros ?%bz_sub_0.
  - rewrite not_elem_of_cons. intros [? _] _. rewrite decide_False by done.
    eexists. split; [done|]. split; [|done]. intros ?%bz_sub_0. done.
  - rewrite !not_elem_of_cons. intros [? Ha] [? Hb].
    destruct (decide (x = y)) as [->|].
    + rewrite decide_False by done. destruct (IH b) as (z & -> & Hz); [done..|].
      exists z. split; [done|]. rewrite Hz. naive_solver.
    + eexists. split; [done|]. split; [|naive_solver]. by intros ?%bz_sub_0.
Qed.

Lemma forallb2_spec {A} (f : A -> A -> bool) l :
  forallb (fun x => forallb (f x) l) l = true <-> (forall x y, x ∈ l -> y ∈ l -> f x y = true).
Proof.
  rewrite forallb_forall. split.
  - intros H x y Hx%list_elem_of_In Hy%list_elem_of_In.
    specialize (H x Hx). by rewrite forallb_forall in H; apply H.
  - intros H x Hx. rewrite forallb_forall. intros y Hy.
    apply H; by apply list_elem_of_In.
Qed.

(** What [qsort] gives for a comparison that follows a total preorder. *)
Lemma qsort_res_spec `{QSort} {A} (c : A -> A -> res Z) key `{!CmpOrder key} l :
  (forall x y, x ∈ l -> y ∈ l -> exists z, c x y = Ret z /\ (z ?= 0) = key x y) ->
  exists k, qsort_res c l = Ret k /\ k ≡ₚ l /\ StronglySorted (cmp_le key) k.
Proof.
  intros Hc. unfold qsort_res.
  assert (forallb (fun x => forallb (fun y =>
       match c x y with Ret _ => true | _ => false end) l) l = true) as ->.
  { apply forallb2_spec. intros x y Hx Hy.
    by destruct (Hc x y Hx Hy) as (z & -> & _). }
  eexists. split; [done|]. split; [apply qsort_perm|].
  eapply qsort_sorted; [done|]. intros x y Hx Hy.
  by destruct (Hc x y Hx Hy) as (z & -> & ?).
Qed.

(** ** A conforming instance, for the concrete runs: stable insertion sort *)

Fixpoint insert_by {A} (c : A -> A -> Z) (x : A) (l : list A) : list A :=
  match l with
  | [] => [x]
  | y :: k => if 0 <? c x y then y :: insert_by c x k else x :: l
  end.
Definition insertion_sort {A} (c : A -> A -> Z) (l : list A) : list A :=
  foldr (insert_by c) [] l.

Lemma insert_by_perm {A} (c : A -> A -> Z) x l : insert_by c x l ≡ₚ x :: l.
Proof.
  induction l as [|y l IH]; cbn; [done|]. case_match; [|done].
  rewrite IH. constructor.
Qed.
Lemma insertion_sort_perm {A} (c : A -> A -> Z) l : insertion_sort c l ≡ₚ l.
Proof. induction l as [|x l IH]; cbn; [done|]. by rewrite insert_by_perm, IH. Qed.

Lemma insert_by_sorted {A} (c : A -> A -> Z) key `{!CmpOrder key} x l :
  (forall y, y ∈ l -> (c x y ?= 0) = key x y) ->
  StronglySorted (cmp_le key) l -> StronglySorted (cmp_le key) (insert_by c x l).
Proof.
  intros Hc Hs. induction Hs as [|y l Hs IH Hy]; cbn; [repeat constructor|].
  pose proof (Hc y ltac:(left)) as E. destruct (Z.ltb_spec 0 (c x y)) as [Hlt|Hge].
  - constructor.
    + apply IH. intros. apply Hc. by right.
    + rewrite insert_by_perm. constructor; [|done].
      unfold cmp_le. rewrite (cmp_antisym (cmp:=key) x y), <- E.
      rewrite (proj2 (Z.compare_gt_iff _ _)) by lia. done.
  - assert (cmp_le key x y) as Hxy.
    { unfold cmp_le. rewrite <- E, Z.compare_gt_iff. lia. }
    constructor; [by constructor|]. constructor; [done|].
    eapply list.Forall_impl; [done|]. intros z Hz. by transitivity y.
Qed.

Lemma insertion_sort_sorted {A} (c : A -> A -> Z) key `{!CmpOrder key} l :
  (forall x y, x ∈ l -> y ∈ l -> (c x y ?= 0) = key x y) ->
  StronglySorted (cmp_le key) (insertion_sort c l).
Proof.
  induction l as [|x l IH]; cbn; intros Hc; [constructor|].
  apply insert_by_sorted; [done| |].
  - intros y Hy. 
    fold (insertion_sort c l) in Hy. rewrite (insertion_sort_perm c l) in Hy. apply Hc; [left|by right].
  - apply IH. intros. apply Hc; by right.
Qed.

Definition insertion_qsort : QSort := {|
  qsort A := @insertion_sort A;
  qsort_perm A := @insertion_sort_perm A;
  qsort_sorted A c key l H := @insertion_sort_sorted A c key H l;
|}.

(** A heap that hands out zeroed memory. *)
Definition zero_heap : Heap := {|
  malloc_bytes n := replicate n NUL;
  length_malloc n := length_replicate n NUL;
|}.
