(* ===== verification/Double.v ===== *)
(** * Double: IEEE binary64 numbers

    The [double] of the program is Rocq's [spec_float] at 53 bits of precision;
    what the sources do with doubles is to convert integers to them, compare,
    multiply, divide and cut them to integers. *)

From Stdlib Require Import SpecFloat.
From S2P Require Import Prelude.

Definition double := spec_float.
Definition double_of_Z (z : Z) : double := binary_normalize 53 1024 z 0 false.
Definition double_mul : double -> double -> double := SFmul 53 1024.
Definition double_div : double -> double -> double := SFdiv 53 1024.
Definition double_lt : double -> double -> bool := SFltb.
Definition double_le : double -> double -> bool := SFleb.

(** The magnitude of a finite number, cut to an integer. *)
Definition magnitude (m : positive) (e : Z) : Z :=
  if 0 <=? e then Zpos m * 2 ^ e else Zpos m / 2 ^ (- e).

(** The integer part, for conversions to integer types. *)
Definition trunc (d : double) : option Z :=
  match d with
  | S754_zero _ => Some 0
  | S754_finite s m e => Some (if s then - magnitude m e else magnitude m e)
  | _ => None
  end.

(** Conversion to an integer type with bounds [lo], [hi]. *)
Definition to_int (d : double) (lo hi : Z) : res Z :=
  match trunc d with
  | Some z => if decide (lo <= z <= hi) then Ret z else Undef
  | None => Undef
  end.

(** A number of the format has at most 53 bits of mantissa. *)
Definition in_format (d : double) : Prop :=
  match d with S754_finite _ m _ => Zpos m < 2^53 | _ => True end.

Lemma magnitude_nonneg m e : 0 <= magnitude m e.
Proof.
  unfold magnitude. destruct (Z.leb_spec 0 e); [lia|]. apply Z.div_pos; [lia|]. apply Z.pow_pos_nonneg; lia.
Qed.

(** Smaller exponents make smaller numbers. *)
Lemma magnitude_le m e m' e' : Zpos m' < 2^53 -> 2^52 <= Zpos m ->
  (e' < e \/ (e' = e /\ Zpos m' <= Zpos m)) -> magnitude m' e' <= magnitude m e.
Proof.
  intros Hm' Hm He. unfold magnitude. destruct He as [He|[-> He]].
  2:{ destruct (Z.leb_spec 0 e); [apply Z.mul_le_mono_nonneg_r; lia|].
      apply Z.div_le_mono; [apply Z.pow_pos_nonneg; lia|lia]. }
  destruct (Z.leb_spec 0 e), (Z.leb_spec 0 e'); try lia.
  - replace e with (e' + 1 + (e - e' - 1)) by lia. rewrite !Z.pow_add_r by lia. change (2^1) with 2.
    assert (0 < 2^e') by (apply Z.pow_pos_nonneg; lia). assert (0 < 2^(e - e' - 1)) by (apply Z.pow_pos_nonneg; lia).
    transitivity (2^53 * 2^e'); [apply Z.mul_le_mono_nonneg_r; lia|].
    transitivity (2^52 * (2^e' * 2 * 2^(e - e' - 1))); [|apply Z.mul_le_mono_nonneg_r; nia].
    replace (2^53 * 2^e') with (2^52 * (2^e' * 2 * 1)) by lia. apply Z.mul_le_mono_nonneg_l; [lia|].
    apply Z.mul_le_mono_nonneg_l; lia.
  - assert (Zpos m' / 2 ^ (- e') <= 2^52).
    { apply Z.lt_le_incl, Z.div_lt_upper_bound; [apply Z.pow_pos_nonneg; lia|].
      replace (- e') with (1 + (- e' - 1)) by lia. rewrite Z.pow_add_r by lia.
      assert (0 < 2^(- e' - 1)) by (apply Z.pow_pos_nonneg; lia). change (2^1) with 2. lia. }
    assert (0 < 2^e) by (apply Z.pow_pos_nonneg; lia). nia.
  - replace (- e') with (1 + (- e) + (e - e' - 1)) by lia. rewrite !Z.pow_add_r by lia.
    assert (0 < 2^(- e)) by (apply Z.pow_pos_nonneg; lia). assert (0 < 2^(e - e' - 1)) by (apply Z.pow_pos_nonneg; lia).
    change (2^1) with 2. rewrite <- !Z.div_div by lia.
    transitivity (Zpos m' / 2 / 2 ^ (- e)).
    + apply Z.div_le_upper_bound; [lia|].
      assert (0 <= Zpos m' / 2 / 2 ^ (- e)) by (apply Z.div_pos; [apply Z.div_pos; lia|lia]). nia.
    + apply Z.div_le_mono; [lia|]. assert (Zpos m' / 2 < 2^52) by (apply Z.div_lt_upper_bound; lia). lia.
Qed.

Lemma pos_compare_le m m' : Pos.compare_cont Eq m m' <> Gt -> Zpos m <= Zpos m'.
Proof. change (Pos.compare_cont Eq m m') with (m ?= m')%positive. intros. by apply Pos.compare_le_iff. Qed.

(** Comparison with a finite bound orders the integer parts. *)
Lemma SFleb_trunc_hi d m e : in_format d -> 2^52 <= Zpos m -> SFleb d (S754_finite false m e) = true ->
  (exists s, d = S754_infinity s /\ s = true) \/ exists z, trunc d = Some z /\ z <= magnitude m e.
Proof.
  intros Hd Hm. pose proof (magnitude_nonneg m e). unfold SFleb. destruct d as [s|[]| |[] m' e']; cbn; try done.
  - intros _. right. eexists. split; [done|lia].
  - intros _. left. eauto.
  - intros _. right. eexists. split; [done|]. pose proof (magnitude_nonneg m' e'). lia.
  - intros Hc. right. eexists. split; [done|]. cbn in Hd. apply magnitude_le; [done..|].
    destruct (Z.compare_spec e' e) as [->|Hlt|]; [|auto|done]. right. split; [done|].
    apply pos_compare_le. by destruct (Pos.compare_cont Eq m' m).
Qed.

Lemma SFleb_trunc_lo d m e : in_format d -> 2^52 <= Zpos m -> SFleb (S754_finite true m e) d = true ->
  (exists s, d = S754_infinity s /\ s = false) \/ exists z, trunc d = Some z /\ - magnitude m e <= z.
Proof.
  intros Hd Hm. pose proof (magnitude_nonneg m e). unfold SFleb. destruct d as [s|[]| |[] m' e']; cbn; try done.
  - intros _. right. eexists. split; [done|lia].
  - intros _. left. eauto.
  - intros Hc. right. eexists. split; [done|]. cbn in Hd. apply Z.opp_le_mono. rewrite !Z.opp_involutive.
    apply magnitude_le; [done..|].
    destruct (Z.compare_spec e e') as [->|Hlt|]; [|done|auto]. right. split; [done|].
    change (Pos.compare_cont Eq m m') with (m ?= m')%positive in Hc.
    apply Pos.compare_ge_iff. by destruct (m ?= m')%positive.
  - intros _. right. eexists. split; [done|]. pose proof (magnitude_nonneg m' e'). lia.
Qed.

Lemma SFleb_trunc_0 d : in_format d -> SFleb (S754_zero false) d = true ->
  (exists s, d = S754_infinity s /\ s = false) \/ exists z, trunc d = Some z /\ 0 <= z.
Proof.
  intros Hd. unfold SFleb. destruct d as [s|[]| |[] m' e']; cbn; try done; intros _; [|by eauto|];
    right; eexists; (split; [done|]); [lia|apply magnitude_nonneg].
Qed.

(** ** Rounding stays in the format *)

Lemma shr_1_bound r k : 0 <= k -> 0 <= shr_m r < 2 ^ (k + 1) -> 0 <= shr_m (shr_1 r) < 2 ^ k.
Proof.
  intros Hk Hr. rewrite Z.pow_add_r in Hr by lia. pose proof (Z.pow_pos_nonneg 2 k ltac:(lia) Hk).
  destruct r as [[|[p|p|]|p] b s]; cbn in *; lia.
Qed.

Lemma iter_shr_bound p : forall r k, 0 <= k -> 0 <= shr_m r < 2 ^ (k + Zpos p) -> 0 <= shr_m (SpecFloat.iter_pos shr_1 p r) < 2 ^ k.
Proof.
  induction p as [p IH|p IH|]; intros r k Hk Hr; cbn [SpecFloat.iter_pos].
  - apply IH; [done|]. apply IH; [lia|]. apply shr_1_bound; [lia|].
    replace (k + Zpos p + Zpos p + 1) with (k + Zpos p~1) by lia. exact Hr.
  - apply IH; [done|]. apply IH; [lia|]. by replace (k + Zpos p + Zpos p) with (k + Zpos p~0) by lia.
  - by apply shr_1_bound.
Qed.

Lemma digits2_bound m : Zpos m < 2 ^ Zpos (digits2_pos m).
Proof.
  induction m as [m IH|m IH|]; cbn [digits2_pos]; [..|done];
    rewrite Pos2Z.inj_succ, Z.pow_succ_r by lia; lia.
Qed.

(** Whatever is shifted to the exponent of the format has at most 53 bits. *)
Lemma shr_fexp_bound m e l : 0 <= m -> 0 <= shr_m (shr_fexp 53 1024 m e l).1 < 2 ^ 53.
Proof.
  intros Hm. unfold shr_fexp. set (r := shr_record_of_loc m l).
  assert (shr_m r = m) as Er by (unfold r, shr_record_of_loc; repeat case_match; done).
  assert (m < 2 ^ Zdigits2 m) as Hd by (destruct m; [done|apply digits2_bound|lia]).
  set (n := fexp 53 1024 (Zdigits2 m + e) - e).
  assert (Zdigits2 m - 53 <= n) as Hn by (unfold n, fexp; lia).
  assert (2 ^ Zdigits2 m <= 2 ^ (53 + n)) as Hp by (apply Z.pow_le_mono_r; lia).
  destruct n as [|p|p]; cbn [shr fst].
  - rewrite Er. lia.
  - apply iter_shr_bound; [lia|]. rewrite Er. lia.
  - rewrite Er. assert (2 ^ Zdigits2 m <= 2 ^ 53) by (apply Z.pow_le_mono_r; lia). lia.
Qed.

Lemma round_in_format sx m e l : in_format (binary_round_aux 53 1024 sx m e l).
Proof.
  unfold binary_round_aux. destruct (shr_fexp 53 1024 m e l) as [r1 e1].
  set (m1 := round_nearest_even _ _). destruct (Z.le_gt_cases 0 m1) as [H|H].
  - pose proof (shr_fexp_bound m1 e1 loc_Exact H) as Hb. destruct (shr_fexp 53 1024 m1 e1 loc_Exact) as [r2 e2].
    cbn [fst] in Hb. destruct (shr_m r2) as [|p|p]; [done| |done]. destruct (_ <=? _); [exact (proj2 Hb)|done].
  - assert (forall p r, shr_m r <= 0 -> shr_m (SpecFloat.iter_pos shr_1 p r) <= 0) as Hneg.
    { assert (forall r, shr_m r <= 0 -> shr_m (shr_1 r) <= 0) as H1
        by (intros [[|[p|p|]|[p|p|]] b s]; cbn; lia).
      induction p as [p IH|p IH|]; intros r Hr; cbn [SpecFloat.iter_pos]; auto. }
    assert (shr_m (shr_fexp 53 1024 m1 e1 loc_Exact).1 <= 0) as Hr2.
    { unfold shr_fexp. destruct (_ - _) as [|p|p]; cbn [shr fst]; [cbn; lia|apply Hneg; cbn; lia|cbn; lia]. }
    destruct (shr_fexp 53 1024 m1 e1 loc_Exact) as [r2 e2]. cbn [fst] in Hr2.
    destruct (shr_m r2) as [|p|p]; [done|lia|done].
Qed.

Lemma normalize_in_format m e szero : in_format (binary_normalize 53 1024 m e szero).
Proof.
  destruct m; cbn [binary_normalize]; [done|..]; unfold binary_round;
    destruct (shl_align _ _ _); apply round_in_format.
Qed.
