(* ===== verification/JsonValue.v ===== *)
(** * JsonValue: [Json::Value] of jsoncpp.cpp

    The variant type, its accessors and conversions, and the [std::map] it
    keeps for arrays (keyed by index) and objects (keyed by C string).
    [JSON_ASSERT_MESSAGE] and [JSON_FAIL_MESSAGE] throw: json.h defines
    [JSON_USE_EXCEPTION] as 1. *)

From Stdlib Require Import SpecFloat.
From S2P Require Import Prelude CLib Double.

(** ** [std::map] as a list of entries in key order *)

Section std_map.
Context {K V : Type} (cmp : K -> K -> comparison).

Fixpoint map_find (k : K) (m : list (K * V)) : option V :=
  match m with
  | [] => None
  | (k', v) :: m =>
      match cmp k k' with Eq => Some v | Lt => None | Gt => map_find k m end
  end.

(** Insert or overwrite at the place [lower_bound] finds. *)
Fixpoint map_put (k : K) (v : V) (m : list (K * V)) : list (K * V) :=
  match m with
  | [] => [(k, v)]
  | (k', v') :: m' =>
      match cmp k k' with
      | Eq => (k', v) :: m'
      | Lt => (k, v) :: m
      | Gt => (k', v') :: map_put k v m'
      end
  end.

Fixpoint map_erase (k : K) (m : list (K * V)) : list (K * V) :=
  match m with
  | [] => []
  | (k', v') :: m' =>
      match cmp k k' with
      | Eq => m' | Lt => m | Gt => (k', v') :: map_erase k m'
      end
  end.

Definition map_wf (m : list (K * V)) : Prop := StronglySorted (cmp_lt cmp) m.*1.

Context `{!CmpOrder cmp}.

Lemma map_put_keys k v m k' : k' ∈ (map_put k v m).*1 -> k' = k \/ k' ∈ m.*1.
Proof.
  induction m as [|[k1 v1] m IH]; cbn; [rewrite list_elem_of_singleton; auto|].
  destruct (cmp k k1); cbn; rewrite !elem_of_cons; naive_solver.
Qed.

Lemma map_put_wf k v m : map_wf m -> map_wf (map_put k v m).
Proof.
  unfold map_wf. induction m as [|[k1 v1] m IH]; cbn; [repeat constructor|].
  intros Hs. inversion_clear Hs as [|? ? Hs' Hall].
  destruct (cmp k k1) eqn:E; cbn.
  - by constructor.
  - constructor; [by constructor|]. constructor; [done|].
    eapply list.Forall_impl; [done|]. intros x Hx. by transitivity k1.
  - constructor; [by apply IH|]. apply Forall_forall. intros x Hx.
    apply list_elem_of_In in Hx.
    destruct (map_put_keys _ _ _ _ Hx) as [->|Hx'].
    + unfold cmp_lt. by rewrite (cmp_antisym (cmp:=cmp) k k1), E.
    + rewrite Forall_forall in Hall. by apply Hall, list_elem_of_In.
Qed.

Lemma map_find_put k v m : map_find k (map_put k v m) = Some v.
Proof.
  induction m as [|[k1 v1] m IH]; cbn; [by rewrite cmp_refl|].
  destruct (cmp k k1) eqn:E; cbn; by rewrite ?E, ?cmp_refl.
Qed.

Lemma map_find_below k m :
  Forall (cmp_lt cmp k) m.*1 -> map_find k m = None.
Proof.
  destruct m as [|[k1 v1] m]; cbn; [done|].
  inversion_clear 1 as [|? ? E ?]. by rewrite E.
Qed.

Lemma map_find_put_ne k v m k' :
  map_wf m -> cmp k' k ≠ Eq -> map_find k' (map_put k v m) = map_find k' m.
Proof.
  unfold map_wf. intros Hs Hne. induction m as [|[k1 v1] m IH]; cbn.
  - by destruct (cmp k' k).
  - cbn in Hs. inversion_clear Hs as [|? ? Hs' Hall].
    destruct (cmp k k1) eqn:E; cbn.
    + rewrite (cmp_eq_r cmp k' k k1 E) in Hne. by destruct (cmp k' k1).
    + destruct (cmp k' k) eqn:E'; [done| |done].
      by rewrite (cmp_trans (cmp:=cmp) k' k k1 Lt E' E).
    + destruct (cmp k' k1); auto.
Qed.

Lemma map_erase_keys k m k' : k' ∈ (map_erase k m).*1 -> k' ∈ m.*1.
Proof.
  induction m as [|[k1 v1] m IH]; cbn; [done|].
  destruct (cmp k k1); cbn; rewrite ?elem_of_cons; naive_solver.
Qed.

Lemma map_erase_wf k m : map_wf m -> map_wf (map_erase k m).
Proof.
  unfold map_wf. induction m as [|[k1 v1] m IH]; cbn; [done|]. intros Hs.
  pose proof Hs as Hs0. apply StronglySorted_inv in Hs as [Hs Hall]. destruct (cmp k k1); cbn; [done|done|].
  constructor; [by apply IH|]. rewrite Forall_forall in Hall |- *. intros x Hx%list_elem_of_In%map_erase_keys.
  by apply Hall, list_elem_of_In.
Qed.

Lemma map_find_erase k m : map_wf m -> map_find k (map_erase k m) = None.
Proof.
  unfold map_wf. induction m as [|[k1 v1] m IH]; cbn; [done|]. intros [Hs Hall]%StronglySorted_inv.
  destruct (cmp k k1) eqn:E; cbn; rewrite ?E; [|done|by apply IH].
  apply map_find_below. eapply list.Forall_impl; [exact Hall|]. intros x Hx. unfold cmp_lt in *.
  by rewrite (cmp_eq_l (cmp:=cmp) k k1 x E).
Qed.

Lemma map_find_erase_ne k m k' : map_wf m -> cmp k' k <> Eq -> map_find k' (map_erase k m) = map_find k' m.
Proof.
  unfold map_wf. intros Hwf Hne. induction m as [|[k1 v1] m IH]; cbn; [done|].
  cbn in Hwf. apply StronglySorted_inv in Hwf as [Hs Hall].
  destruct (cmp k k1) eqn:E; cbn; [|done|].
  - rewrite (cmp_eq_r cmp k' k k1 E) in Hne. destruct (cmp k' k1) eqn:E'; [done| |done].
    apply map_find_below. eapply list.Forall_impl; [exact Hall|]. intros x Hx.
    unfold cmp_lt in *. by apply (cmp_trans _ k1).
  - destruct (cmp k' k1); auto.
Qed.

Lemma map_erase_middle k v m1 m2 : Forall (fun x => cmp k x = Gt) m1.*1 ->
  map_erase k (m1 ++ (k, v) :: m2) = m1 ++ m2.
Proof.
  induction m1 as [|[k1 v1] m1 IH]; cbn; [by rewrite cmp_refl|]. intros [H1 H2]%list.Forall_cons.
  rewrite H1. by rewrite IH.
Qed.

(** A key between two entries. *)
Lemma map_find_gap k m1 m2 : Forall (fun x => cmp k x = Gt) m1.*1 -> Forall (cmp_lt cmp k) m2.*1 ->
  map_find k (m1 ++ m2) = None.
Proof.
  induction m1 as [|[k1 v1] m1 IH]; cbn; [intros _; apply map_find_below|]. intros [H1 H2]%list.Forall_cons.
  rewrite H1. by apply IH.
Qed.
Lemma map_erase_gap k m1 m2 : Forall (fun x => cmp k x = Gt) m1.*1 -> Forall (cmp_lt cmp k) m2.*1 ->
  map_erase k (m1 ++ m2) = m1 ++ m2.
Proof.
  induction m1 as [|[k1 v1] m1 IH]; cbn.
  - destruct m2 as [|[k2 v2] m2]; cbn; [done|]. intros _ [H1 _]%list.Forall_cons. unfold cmp_lt in H1. by rewrite H1.
  - intros [H1 H2]%list.Forall_cons H3. rewrite H1. by rewrite IH.
Qed.
Lemma map_put_end k v m : Forall (fun x => cmp k x = Gt) m.*1 -> map_put k v m = m ++ [(k, v)].
Proof. induction m as [|[k1 v1] m IH]; cbn; [done|]. intros [-> H]%list.Forall_cons. by rewrite IH. Qed.
End std_map.

(** ** The value *)

Module Json.

Inductive Value : Type :=
  | nullValue
  | intValue (z : Z)
  | uintValue (z : Z)
  | realValue (d : double)
  | stringValue (s : option bytes)
  | booleanValue (b : bool)
  | arrayValue (m : list (Z * Value))
  | objectValue (m : list (bytes * Value)).

(** [type_], in the order of [enum ValueType]. *)
Definition type_ (v : Value) : Z :=
  match v with
  | nullValue => 0 | intValue _ => 1 | uintValue _ => 2 | realValue _ => 3
  | stringValue _ => 4 | booleanValue _ => 5 | arrayValue _ => 6 | objectValue _ => 7
  end.

Definition minInt : Z := -2^31.
Definition maxInt : Z := 2^31 - 1.
Definition maxUInt : Z := 2^32 - 1.
Definition minInt64 : Z := -2^63.
Definition maxInt64 : Z := 2^63 - 1.
Definition maxUInt64 : Z := 2^64 - 1.
Definition maxUInt64AsDouble : double := double_of_Z maxUInt64.

(** [InRange(d, min, max)]: the bounds are converted to double first. *)
Definition InRange (d : double) (lo hi : Z) : bool :=
  SFleb (double_of_Z lo) d && SFleb d (double_of_Z hi).

(** [IsIntegral(d)]: [modf] leaves no fraction. *)
Definition IsIntegral (d : double) : bool :=
  match d with
  | S754_zero _ | S754_infinity _ => true
  | S754_nan => false
  | S754_finite _ m e => (0 <=? e) || (Zpos m mod 2 ^ (- e) =? 0)
  end.

Definition isNull (v : Value) : bool := type_ v =? 0.
Definition isBool (v : Value) : bool := type_ v =? 5.
Definition isString (v : Value) : bool := type_ v =? 4.
Definition isArray (v : Value) : bool := type_ v =? 6.
Definition isObject (v : Value) : bool := type_ v =? 7.

Definition isInt (v : Value) : bool :=
  match v with
  | intValue z => (minInt <=? z) && (z <=? maxInt)
  | uintValue z => z <=? maxInt
  | realValue d =>
      SFleb (double_of_Z minInt) d && SFleb d (double_of_Z maxInt) && IsIntegral d
  | _ => false
  end.

Definition isUInt (v : Value) : bool :=
  match v with
  | intValue z => (0 <=? z) && (z <=? maxUInt)
  | uintValue z => z <=? maxUInt
  | realValue d =>
      SFleb (double_of_Z 0) d && SFleb d (double_of_Z maxUInt) && IsIntegral d
  | _ => false
  end.

Definition isInt64 (v : Value) : bool :=
  match v with
  | intValue _ => true
  | uintValue z => z <=? maxInt64
  | realValue d =>
      SFleb (double_of_Z minInt64) d && SFltb d (double_of_Z maxInt64) && IsIntegral d
  | _ => false
  end.

Definition isUInt64 (v : Value) : bool :=
  match v with
  | intValue z => 0 <=? z
  | uintValue _ => true
  | realValue d =>
      SFleb (double_of_Z 0) d && SFltb d maxUInt64AsDouble && IsIntegral d
  | _ => false
  end.

Definition isIntegral (v : Value) : bool := isInt64 v || isUInt64 v.
Definition isDouble (v : Value) : bool := (type_ v =? 3) || isIntegral v.
Definition isNumeric (v : Value) : bool := isIntegral v || isDouble v.

(** [asCString]: the pointer to the stored string, null when there is none. *)
Definition asCString (v : Value) : res (option bytes) :=
  match v with stringValue s => Ret s | _ => Throw end.

Definition asInt (v : Value) : res Z :=
  match v with
  | intValue z => if isInt v then Ret (i32 z) else Throw
  | uintValue z => if isInt v then Ret (i32 z) else Throw
  | realValue d => if InRange d minInt maxInt then to_int d minInt maxInt else Throw
  | nullValue => Ret 0
  | booleanValue b => Ret (if b then 1 else 0)
  | _ => Throw
  end.

Definition asUInt (v : Value) : res Z :=
  match v with
  | intValue z => if isUInt v then Ret (u32 z) else Throw
  | uintValue z => if isUInt v then Ret (u32 z) else Throw
  | realValue d => if InRange d 0 maxUInt then to_int d 0 maxUInt else Throw
  | nullValue => Ret 0
  | booleanValue b => Ret (if b then 1 else 0)
  | _ => Throw
  end.

Definition asInt64 (v : Value) : res Z :=
  match v with
  | intValue z => Ret z
  | uintValue z => if isInt64 v then Ret z else Throw
  | realValue d => if InRange d minInt64 maxInt64 then to_int d minInt64 maxInt64 else Throw
  | nullValue => Ret 0
  | booleanValue b => Ret (if b then 1 else 0)
  | _ => Throw
  end.

Definition asUInt64 (v : Value) : res Z :=
  match v with
  | intValue z => if isUInt64 v then Ret z else Throw
  | uintValue z => Ret z
  | realValue d => if InRange d 0 maxUInt64 then to_int d 0 maxUInt64 else Throw
  | nullValue => Ret 0
  | booleanValue b => Ret (if b then 1 else 0)
  | _ => Throw
  end.

Definition asLargestInt : Value -> res Z := asInt64.
Definition asLargestUInt : Value -> res Z := asUInt64.

(** [asDouble].  json.h defines [JSON_USE_INT64_DOUBLE_CONVERSION] only for one
    old compiler, so the plain conversions are the ones compiled. *)
Definition asDouble (v : Value) : res double :=
  match v with
  | intValue z => Ret (double_of_Z z)
  | uintValue z => Ret (double_of_Z z)
  | realValue d => Ret d
  | nullValue => Ret (double_of_Z 0)
  | booleanValue b => Ret (double_of_Z (if b then 1 else 0))
  | _ => Throw
  end.

Definition asBool (v : Value) : res bool :=
  match v with
  | booleanValue b => Ret b
  | nullValue => Ret false
  | intValue z => Ret (negb (z =? 0))
  | uintValue z => Ret (negb (z =? 0))
  | realValue d => Ret (negb (SFeqb d (S754_zero false)))
  | _ => Throw
  end.

(** [size()]: for an array, the highest index plus one. *)
Definition size (v : Value) : Z :=
  match v with
  | arrayValue m => match list.last m with Some (i, _) => u32 (i + 1) | None => 0 end
  | objectValue m => u32 (Z.of_nat (length m))
  | _ => 0
  end.

Definition empty (v : Value) : bool :=
  if isNull v || isArray v || isObject v then size v =? 0 else false.

Definition clear (v : Value) : res Value :=
  match v with
  | nullValue => Ret nullValue
  | arrayValue _ => Ret (arrayValue [])
  | objectValue _ => Ret (objectValue [])
  | _ => Throw
  end.

(** [operator[](ArrayIndex) const]; [None] is the reference to [Value::null]. *)
Definition at_index (v : Value) (i : Z) : res (option Value) :=
  match v with
  | nullValue => Ret None
  | arrayValue m => Ret (map_find Z.compare i m)
  | _ => Throw
  end.

(** [operator[](const char* ) const]. *)
Definition at_key (v : Value) (k : bytes) : res (option Value) :=
  match v with
  | nullValue => Ret None
  | objectValue m => Ret (map_find bytes_cmp k m)
  | _ => Throw
  end.

(** [get(index, default)] and [get(key, default)]. *)
Definition get_index (v : Value) (i : Z) (dflt : Value) : res Value :=
  o ← at_index v i; Ret (default dflt o).
Definition get_key (v : Value) (k : bytes) (dflt : Value) : res Value :=
  o ← at_key v k; Ret (default dflt o).

Definition isValidIndex (v : Value) (i : Z) : bool := i <? size v.
Definition isMember (v : Value) (k : bytes) : res bool :=
  o ← at_key v k; Ret (bool_decide (is_Some o)).

(** [v[index] = w] and [v[key] = w]: the non-const subscripts make
    a null value an array or object and insert the missing entry. *)
Definition set_index (v : Value) (i : Z) (w : Value) : res Value :=
  match v with
  | nullValue => Ret (arrayValue [(i, w)])
  | arrayValue m => Ret (arrayValue (map_put Z.compare i w m))
  | _ => Throw
  end.
Definition set_key (v : Value) (k : bytes) (w : Value) : res Value :=
  match v with
  | nullValue => Ret (objectValue [(k, w)])
  | objectValue m => Ret (objectValue (map_put bytes_cmp k w m))
  | _ => Throw
  end.

Definition append (v w : Value) : res Value := set_index v (size v) w.

(** [resize(newSize)]: growing inserts a null at the last index only; the
    [assert] on the size stays on, since the Makefile does not set [NDEBUG]. *)
Fixpoint erase_from (m : list (Z * Value)) (i : Z) (n : nat) : list (Z * Value) :=
  match n with
  | O => m
  | S n => erase_from (map_erase Z.compare i m) (i + 1) n
  end.
Definition resize (v : Value) (newSize : Z) : res Value :=
  match v with
  | nullValue | arrayValue _ =>
      let v := match v with nullValue => arrayValue [] | _ => v end in
      let oldSize := size v in
      if decide (newSize = 0) then clear v
      else if decide (oldSize < newSize) then
        o ← at_index v (newSize - 1);
        match o with Some _ => Ret v | None => set_index v (newSize - 1) nullValue end
      else
        match v with
        | arrayValue m =>
            let v := arrayValue (erase_from m newSize (Z.to_nat (oldSize - newSize))) in
            if decide (size v = newSize) then Ret v else Throw
        | _ => Undef
        end
  | _ => Throw
  end.

(** [removeMember(key)]: the removed value and the object without it. *)
Definition removeMember (v : Value) (k : bytes) : res (Value * Value) :=
  match v with
  | nullValue => Ret (nullValue, v)
  | objectValue m =>
      match map_find bytes_cmp k m with
      | None => Ret (nullValue, v)
      | Some old => Ret (old, objectValue (map_erase bytes_cmp k m))
      end
  | _ => Throw
  end.

Definition getMemberNames (v : Value) : res (list bytes) :=
  match v with
  | nullValue => Ret []
  | objectValue m => Ret m.*1
  | _ => Throw
  end.

(** [operator==]; an element of a map is compared with its key. *)
Fixpoint value_eq (v w : Value) {struct v} : bool :=
  match v, w with
  | nullValue, nullValue => true
  | intValue a, intValue b => a =? b
  | uintValue a, uintValue b => a =? b
  | realValue a, realValue b => SFeqb a b
  | booleanValue a, booleanValue b => Bool.eqb a b
  | stringValue a, stringValue b => bool_decide (a = b)
  | arrayValue m, arrayValue m' =>
      (length m =? length m')%nat &&
      (fix go m m' {struct m} :=
        match m, m' with
        | [], [] => true
        | (i, a) :: m, (j, b) :: m' => (i =? j) && value_eq a b && go m m'
        | _, _ => false
        end) m m'
  | objectValue m, objectValue m' =>
      (length m =? length m')%nat &&
      (fix go m m' {struct m} :=
        match m, m' with
        | [], [] => true
        | (i, a) :: m, (j, b) :: m' => bool_decide (i = j) && value_eq a b && go m m'
        | _, _ => false
        end) m m'
  | _, _ => false
  end.

(** [isConvertibleTo(other)], [other] by its number in [ValueType]. *)
Definition isConvertibleTo (v : Value) (other : Z) : bool :=
  if other =? 0 then
    (isNumeric v && match asDouble v with Ret d => SFeqb d (S754_zero false) | _ => false end)
    || match v with
       | booleanValue b => negb b
       | stringValue s => bool_decide (default [] s = [])
       | arrayValue m => (length m =? 0)%nat
       | objectValue m => (length m =? 0)%nat
       | nullValue => true
       | _ => false
       end
  else if other =? 1 then
    isInt v || match v with realValue d => InRange d minInt maxInt | _ => false end || isBool v || isNull v
  else if other =? 2 then
    isUInt v || match v with realValue d => InRange d 0 maxUInt | _ => false end || isBool v || isNull v
  else if other =? 3 then isNumeric v || isBool v || isNull v
  else if other =? 5 then isNumeric v || isBool v || isNull v
  else if other =? 4 then isNumeric v || isBool v || isString v || isNull v
  else if other =? 6 then isArray v || isNull v
  else if other =? 7 then isObject v || isNull v
  else false.

(** ** Conversions to integers *)

(** What the constructors and the parser put in a value. *)
Definition value_ok (v : Value) : Prop :=
  match v with
  | intValue z => minInt64 <= z <= maxInt64
  | uintValue z => 0 <= z <= maxUInt64
  | realValue d => in_format d
  | _ => True
  end.

(** The integer part of a number. *)
Definition number (v : Value) : option Z :=
  match v with
  | intValue z | uintValue z => Some z
  | realValue d => trunc d
  | _ => None
  end.

Lemma double_minInt : double_of_Z minInt = S754_finite true 4503599627370496 (-21).
Proof. reflexivity. Qed.
Lemma double_maxInt : double_of_Z maxInt = S754_finite false 9007199250546688 (-22).
Proof. reflexivity. Qed.
Lemma double_maxUInt : double_of_Z maxUInt = S754_finite false 9007199252643840 (-21).
Proof. reflexivity. Qed.
Lemma double_minInt64 : double_of_Z minInt64 = S754_finite true 4503599627370496 11.
Proof. reflexivity. Qed.
Lemma double_maxInt64 : double_of_Z maxInt64 = S754_finite false 4503599627370496 11.
Proof. reflexivity. Qed.
Lemma double_maxUInt64 : double_of_Z maxUInt64 = S754_finite false 4503599627370496 12.
Proof. reflexivity. Qed.

Lemma int_range d : in_format d -> InRange d minInt maxInt = true ->
  exists z, trunc d = Some z /\ minInt <= z <= maxInt.
Proof.
  unfold InRange. rewrite double_minInt, double_maxInt. intros Hd [H1 H2]%andb_true_iff.
  apply SFleb_trunc_lo in H1; [|done|lia]. apply SFleb_trunc_hi in H2; [|done|lia].
  destruct H1 as [(? & -> & ->)|(z & E & H1)], H2 as [(? & E' & ?)|(z' & E' & H2)]; subst; try (cbn in *; congruence).
  exists z. split; [done|]. rewrite E in E'. injection E' as <-. split; [exact H1|exact H2].
Qed.

Lemma uint_range d : in_format d -> InRange d 0 maxUInt = true ->
  exists z, trunc d = Some z /\ 0 <= z <= maxUInt.
Proof.
  unfold InRange. rewrite double_maxUInt. intros Hd [H1 H2]%andb_true_iff.
  apply SFleb_trunc_0 in H1; [|done]. apply SFleb_trunc_hi in H2; [|done|lia].
  destruct H1 as [(? & -> & ->)|(z & E & H1)], H2 as [(? & E' & ?)|(z' & E' & H2)]; subst; try (cbn in *; congruence).
  exists z. split; [done|]. rewrite E in E'. injection E' as <-. split; [exact H1|exact H2].
Qed.

Lemma int64_range d : in_format d -> InRange d minInt64 maxInt64 = true ->
  exists z, trunc d = Some z /\ minInt64 <= z <= 2^63.
Proof.
  unfold InRange. rewrite double_minInt64, double_maxInt64. intros Hd [H1 H2]%andb_true_iff.
  apply SFleb_trunc_lo in H1; [|done|lia]. apply SFleb_trunc_hi in H2; [|done|lia].
  destruct H1 as [(? & -> & ->)|(z & E & H1)], H2 as [(? & E' & ?)|(z' & E' & H2)]; subst; try (cbn in *; congruence).
  exists z. split; [done|]. rewrite E in E'. injection E' as <-. split; [exact H1|exact H2].
Qed.

Lemma uint64_range d : in_format d -> InRange d 0 maxUInt64 = true ->
  exists z, trunc d = Some z /\ 0 <= z <= 2^64.
Proof.
  unfold InRange. rewrite double_maxUInt64. intros Hd [H1 H2]%andb_true_iff.
  apply SFleb_trunc_0 in H1; [|done]. apply SFleb_trunc_hi in H2; [|done|lia].
  destruct H1 as [(? & -> & ->)|(z & E & H1)], H2 as [(? & E' & ?)|(z' & E' & H2)]; subst; try (cbn in *; congruence).
  exists z. split; [done|]. rewrite E in E'. injection E' as <-. split; [exact H1|exact H2].
Qed.

Lemma to_int_ok d lo hi z : trunc d = Some z -> lo <= z <= hi -> to_int d lo hi = Ret z.
Proof. intros E Hz. unfold to_int. rewrite E. by rewrite decide_True. Qed.

Ltac between := repeat match goal with
  | H : _ && _ = true |- _ => apply andb_true_iff in H as [? ?]
  | H : (_ <=? _) = true |- _ => apply Z.leb_le in H
  end.

Lemma asInt_safe v : value_ok v -> asInt v = Throw \/ exists z, asInt v = Ret z /\ minInt <= z <= maxInt
  /\ forall n, number v = Some n -> z = n.
Proof.
  destruct v as [|z|z|d|s|b|m|m]; cbn [value_ok asInt number]; intros Hv; try (by left).
  - right. exists 0. done.
  - cbn [isInt]. destruct (_ && _) eqn:E; [|by left]. between. right. exists z.
    rewrite i32_small by (unfold minInt, maxInt in *; lia). naive_solver.
  - cbn [isInt]. destruct (_ <=? _) eqn:E; [|by left]. between. right. exists z.
    rewrite i32_small by (unfold maxInt in *; lia). unfold minInt. naive_solver lia.
  - destruct (InRange d minInt maxInt) eqn:E; [|by left].
    destruct (int_range d Hv E) as (z & Et & Hz). right. exists z. rewrite (to_int_ok d _ _ z) by done. naive_solver.
  - right. exists (if b then 1 else 0). by destruct b.
Qed.

Lemma asUInt_safe v : value_ok v -> asUInt v = Throw \/ exists z, asUInt v = Ret z /\ 0 <= z <= maxUInt
  /\ forall n, number v = Some n -> z = n.
Proof.
  destruct v as [|z|z|d|s|b|m|m]; cbn [value_ok asUInt number]; intros Hv; try (by left).
  - right. exists 0. done.
  - cbn [isUInt]. destruct (_ && _) eqn:E; [|by left]. between. right. exists z.
    rewrite u32_small by (unfold maxUInt in *; lia). naive_solver.
  - cbn [isUInt]. destruct (_ <=? _) eqn:E; [|by left]. between. right. exists z.
    rewrite u32_small by (unfold maxUInt in *; lia). naive_solver lia.
  - destruct (InRange d 0 maxUInt) eqn:E; [|by left].
    destruct (uint_range d Hv E) as (z & Et & Hz). right. exists z. rewrite (to_int_ok d _ _ z) by done. naive_solver.
  - right. exists (if b then 1 else 0). by destruct b.
Qed.

Lemma asInt64_undef v : value_ok v ->
  asInt64 v = Undef <-> exists d, v = realValue d /\ InRange d minInt64 maxInt64 = true /\ trunc d = Some (2^63).
Proof.
  destruct v as [|z|z|d|s|b|m|m]; cbn [value_ok asInt64]; intros Hv; try (split; [done|by intros (? & [= ->] & ? & _)]).
  - cbn [isInt64]. destruct (_ <=? _); (split; [done|by intros (? & [= ->] & ? & _)]).
  - destruct (InRange d minInt64 maxInt64) eqn:E; [|split; [done|intros (? & [= <-] & ? & _); congruence]].
    destruct (int64_range d Hv E) as (z & Et & Hz). unfold to_int. rewrite Et. case_decide as Hb.
    + split; [done|]. intros (d' & [= <-] & _ & Et'). rewrite Et in Et'. injection Et' as ->. unfold maxInt64 in Hb. lia.
    + split; [|done]. intros _. exists d. split; [done|]. split; [done|]. rewrite Et. f_equal. unfold maxInt64 in Hb. lia.
Qed.

Lemma asUInt64_undef v : value_ok v ->
  asUInt64 v = Undef <-> exists d, v = realValue d /\ InRange d 0 maxUInt64 = true /\ trunc d = Some (2^64).
Proof.
  destruct v as [|z|z|d|s|b|m|m]; cbn [value_ok asUInt64]; intros Hv; try (split; [done|by intros (? & [= ->] & ? & _)]).
  - cbn [isUInt64]. destruct (_ <=? _); (split; [done|by intros (? & [= ->] & ? & _)]).
  - destruct (InRange d 0 maxUInt64) eqn:E; [|split; [done|intros (? & [= <-] & ? & _); congruence]].
    destruct (uint64_range d Hv E) as (z & Et & Hz). unfold to_int. rewrite Et. case_decide as Hb.
    + split; [done|]. intros (d' & [= <-] & _ & Et'). rewrite Et in Et'. injection Et' as ->. unfold maxUInt64 in Hb. lia.
    + split; [|done]. intros _. exists d. split; [done|]. split; [done|]. rewrite Et. f_equal. unfold maxUInt64 in Hb. lia.
Qed.

(** ** Arrays without holes *)

(** Elements [0] to [n - 1], as [append] makes them. *)
Fixpoint dense (i : Z) (l : list Value) : list (Z * Value) :=
  match l with [] => [] | v :: l => (i, v) :: dense (i + 1) l end.

Lemma dense_app i l k : dense i (l ++ k) = dense i l ++ dense (i + Z.of_nat (length l)) k.
Proof.
  revert i. induction l as [|v l IH]; intros i; cbn [dense app length].
  - by rewrite Z.add_0_r.
  - rewrite IH. do 3 f_equal. lia.
Qed.

Lemma dense_keys i l x : x ∈ (dense i l).*1 -> i <= x < i + Z.of_nat (length l).
Proof.
  revert i. induction l as [|v l IH]; intros i; cbn [dense fmap list_fmap fst length]; [by intros ?%elem_of_nil|].
  intros [->|Hx]%elem_of_cons; [lia|]. apply IH in Hx. lia.
Qed.

Lemma size_dense l : Z.of_nat (length l) < 2^32 -> size (arrayValue (dense 0 l)) = Z.of_nat (length l).
Proof.
  intros Hl. cbn [size]. destruct l as [|v l] using rev_ind; [done|]. clear IHl.
  rewrite dense_app, length_app in *. cbn [dense length] in *. rewrite list.last_snoc, u32_small by lia. lia.
Qed.

Lemma erase_dense i l k j n : (forall x, x ∈ (dense i l).*1 -> x < j) -> n = length k ->
  erase_from (dense i l ++ dense j k) j n = dense i l.
Proof.
  intros Hl ->. revert j Hl. induction k as [|v k IH]; intros j Hl; cbn [dense length erase_from].
  - by rewrite app_nil_r.
  - rewrite (map_erase_middle Z.compare).
    + apply IH. intros x Hx. apply Hl in Hx. lia.
    + apply Forall_forall. intros x Hx%list_elem_of_In. apply Hl in Hx. apply Z.compare_gt_iff. lia.
Qed.

Lemma dense_below i l j : i + Z.of_nat (length l) <= j -> Forall (fun x => Z.compare j x = Gt) (dense i l).*1.
Proof.
  intros Hj. apply Forall_forall. intros x Hx%list_elem_of_In%dense_keys. apply Z.compare_gt_iff. lia.
Qed.

Lemma resize_cut l n : (n <= length l)%nat -> Z.of_nat (length l) < 2^32 ->
  resize (arrayValue (dense 0 l)) (Z.of_nat n) = Ret (arrayValue (dense 0 (take n l))).
Proof.
  intros Hn Hl. unfold resize. rewrite size_dense by done. case_decide as E0.
  { assert (n = 0%nat) as -> by lia. done. }
  rewrite decide_False by lia.
  assert (Hlt : length (take n l) = n) by (rewrite length_take; lia).
  assert (erase_from (dense 0 l) (Z.of_nat n) (Z.to_nat (Z.of_nat (length l) - Z.of_nat n)) = dense 0 (take n l)) as ->.
  { rewrite <- (take_drop n l) at 1. rewrite dense_app, Hlt, Z.add_0_l. apply erase_dense.
    - intros x Hx%dense_keys. lia.
    - rewrite length_drop. lia. }
  rewrite size_dense, Hlt by lia. by rewrite decide_True.
Qed.

Lemma resize_grow l d : 0 < d -> Z.of_nat (length l) + d < 2^32 ->
  resize (arrayValue (dense 0 l)) (Z.of_nat (length l) + d)
  = Ret (arrayValue (dense 0 l ++ [(Z.of_nat (length l) + d - 1, nullValue)])).
Proof.
  intros Hd Hl. unfold resize. rewrite size_dense by lia. rewrite decide_False, decide_True by lia.
  cbn [at_index]. set (j := Z.of_nat (length l) + d - 1).
  assert (Hj : Forall (fun x => Z.compare j x = Gt) (dense 0 l).*1) by (apply dense_below; lia).
  rewrite <- (app_nil_r (dense 0 l)) at 1. rewrite map_find_gap by (done || constructor). cbn [mbind res_bind set_index].
  by rewrite map_put_end.
Qed.

Lemma resize_below_hole l d d' : 0 < d' < d -> Z.of_nat (length l) + d < 2^32 ->
  resize (arrayValue (dense 0 l ++ [(Z.of_nat (length l) + d - 1, nullValue)])) (Z.of_nat (length l) + d') = Throw.
Proof.
  intros Hd Hl. unfold resize.
  assert (size (arrayValue (dense 0 l ++ [(Z.of_nat (length l) + d - 1, nullValue)])) = Z.of_nat (length l) + d) as ->.
  { cbn [size]. rewrite list.last_snoc, u32_small by lia. lia. }
  rewrite !decide_False by lia.
  assert (Hgap : forall k j, (0 < k)%nat -> Z.of_nat (length l) <= j -> j + Z.of_nat k = Z.of_nat (length l) + d ->
    erase_from (dense 0 l ++ [(Z.of_nat (length l) + d - 1, nullValue)]) j k = dense 0 l).
  { induction k as [|k IH]; intros j Hk Hj Ej; [lia|]. cbn [erase_from].
    pose proof (dense_below 0 l j ltac:(lia)) as HF. destruct (decide (k = 0%nat)) as [->|].
    - assert (Z.of_nat (length l) + d - 1 = j) as -> by lia. rewrite (map_erase_middle Z.compare) by done. apply app_nil_r.
    - rewrite (map_erase_gap Z.compare); [apply IH; lia|done|]. constructor; [|constructor]. apply Z.compare_lt_iff. cbn [fst]. lia. }
  rewrite Hgap by lia. rewrite size_dense by lia. by rewrite decide_False by lia.
Qed.
End Json.

(** ** Properties *)

(** C39: [asInt] and [asUInt] never leave the language's bounds: on any value a
    constructor or the parser makes they throw or return an integer of their
    type, which is the integer part of the number held; but [asInt64] and
    [asUInt64] convert out of range, undefined in C++, on exactly the doubles
    2^63 and 2^64, which [InRange] lets through since it compares with the
    bounds rounded to double. *)
Theorem integer_conversions v : Json.value_ok v ->
  (Json.asInt v = Throw \/ exists z, Json.asInt v = Ret z /\ Json.minInt <= z <= Json.maxInt
     /\ forall n, Json.number v = Some n -> z = n)
  /\ (Json.asUInt v = Throw \/ exists z, Json.asUInt v = Ret z /\ 0 <= z <= Json.maxUInt
     /\ forall n, Json.number v = Some n -> z = n)
  /\ (Json.asInt64 v = Undef <-> exists d, v = Json.realValue d
     /\ Json.InRange d Json.minInt64 Json.maxInt64 = true /\ trunc d = Some (2^63))
  /\ (Json.asUInt64 v = Undef <-> exists d, v = Json.realValue d
     /\ Json.InRange d 0 Json.maxUInt64 = true /\ trunc d = Some (2^64)).
Proof.
  intros Hv. split; [by apply Json.asInt_safe|]. split; [by apply Json.asUInt_safe|].
  split; [by apply Json.asInt64_undef|by apply Json.asUInt64_undef].
Qed.

Lemma integer_conversions_witness :
  Json.asInt64 (Json.realValue (double_of_Z (2^63))) = Undef
  /\ Json.asUInt64 (Json.realValue (double_of_Z (2^64))) = Undef.
Proof.
  split.
  - apply (integer_conversions (Json.realValue (double_of_Z (2^63)))); [vm_compute; reflexivity|].
    exists (double_of_Z (2^63)). split; [reflexivity|]. split; vm_compute; reflexivity.
  - apply (integer_conversions (Json.realValue (double_of_Z (2^64)))); [vm_compute; reflexivity|].
    exists (double_of_Z (2^64)). split; [reflexivity|]. split; vm_compute; reflexivity.
Defined.

(** An object, or null, takes a member: it is then found under its key and
    listed, the other members are as before, and removing it gives it back
    and leaves an object without it; the members stay in strict key order. *)
Theorem object_members m k w : map_wf bytes_cmp m ->
  exists m' m'', Json.set_key (Json.objectValue m) k w = Ret (Json.objectValue m')
  /\ map_wf bytes_cmp m' /\ map_wf bytes_cmp m''
  /\ Json.at_key (Json.objectValue m') k = Ret (Some w)
  /\ Json.isMember (Json.objectValue m') k = Ret true
  /\ Json.removeMember (Json.objectValue m') k = Ret (w, Json.objectValue m'')
  /\ Json.isMember (Json.objectValue m'') k = Ret false
  /\ forall k', k' <> k ->
       Json.at_key (Json.objectValue m') k' = Json.at_key (Json.objectValue m) k'
       /\ Json.at_key (Json.objectValue m'') k' = Json.at_key (Json.objectValue m) k'.
Proof.
  intros Hm. exists (map_put bytes_cmp k w m), (map_erase bytes_cmp k (map_put bytes_cmp k w m)).
  assert (Hp : map_wf bytes_cmp (map_put bytes_cmp k w m)) by exact (map_put_wf bytes_cmp k w m Hm).
  cbn [Json.set_key Json.at_key Json.isMember Json.removeMember]. unfold Json.isMember. cbn [Json.at_key].
  rewrite (map_find_put bytes_cmp), (map_find_erase bytes_cmp k _ Hp). split; [done|]. split; [done|].
  split; [exact (map_erase_wf bytes_cmp k _ Hp)|]. do 4 (split; [done|]). intros k' Hne.
  assert (bytes_cmp k' k <> Eq) by (intros E; apply Hne; exact (bytes_cmp_eq k' k E)).
  rewrite (map_find_erase_ne bytes_cmp k _ k'), !(map_find_put_ne bytes_cmp k w m k') by done. done.
Qed.

Lemma object_members_witness : exists m' m'' : list (bytes * Json.Value),
  Json.set_key (Json.objectValue []) (lit "name") (Json.intValue 1) = Ret (Json.objectValue m')
  /\ map_wf bytes_cmp m' /\ map_wf bytes_cmp m''
  /\ Json.at_key (Json.objectValue m') (lit "name") = Ret (Some (Json.intValue 1)).
Proof.
  destruct (object_members [] (lit "name") (Json.intValue 1)) as (m' & m'' & E & H1 & H2 & H3 & _); [constructor|].
  exists m', m''. split; [exact E|]. split; [exact H1|]. split; [exact H2|exact H3].
Defined.

(** [resize] cuts an array without holes to its first elements; an array
    it has itself grown has a hole, and cutting that one to a length in the
    hole fails the [assert] at its end. *)
Theorem resize_array l n d d' : (n <= length l)%nat -> 0 < d' < d -> Z.of_nat (length l) + d < 2^32 ->
  Json.resize (Json.arrayValue (Json.dense 0 l)) (Z.of_nat n) = Ret (Json.arrayValue (Json.dense 0 (take n l)))
  /\ exists v, Json.resize (Json.arrayValue (Json.dense 0 l)) (Z.of_nat (length l) + d) = Ret v
     /\ Json.size v = Z.of_nat (length l) + d
     /\ Json.resize v (Z.of_nat (length l) + d') = Throw.
Proof.
  intros Hn Hd Hl. split; [apply Json.resize_cut; lia|].
  eexists. split; [apply Json.resize_grow; lia|]. split; [|by apply Json.resize_below_hole].
  cbn [Json.size]. rewrite list.last_snoc, u32_small by lia. lia.
Qed.

Lemma resize_array_witness :
  exists v, Json.resize (Json.arrayValue []) 10 = Ret v /\ Json.size v = 10 /\ Json.resize v 5 = Throw.
Proof. apply (resize_array [] 0 10 5); cbn; lia. Defined.
