(* ===== verification/JsonText.v ===== *)
(** * JsonText: numbers and strings as text, in jsoncpp.cpp

    json_tool.h, the [valueToString] functions and [Value::asString], with what
    they use of the C library: [sscanf("%lf")] and [snprintf("%.16g")], which
    round correctly, half to even. *)

From Stdlib Require Import SpecFloat.
From S2P Require Import Prelude CLib Double JsonValue.

(** ** The C library *)

Fixpoint span (P : byte -> bool) (s : bytes) : bytes * bytes :=
  match s with
  | c :: s' => if P c then let '(a, b) := span P s' in (c :: a, b) else ([], s)
  | [] => ([], [])
  end.

(** [m * 10^e], correctly rounded. *)
Definition decimal_double (neg : bool) (m e : Z) : double :=
  match m with
  | Zpos p =>
      if 0 <=? e then binary_normalize 53 1024 (if neg then - (m * 10 ^ e) else m * 10 ^ e) 0 neg
      else
        let '(mz, ez, lz) := SFdiv_core_binary 53 1024 m 0 (10 ^ (- e)) 0 in
        binary_round_aux 53 1024 neg mz ez lz
  | _ => S754_zero neg
  end.

Definition read_sign (s : bytes) : bool * bytes :=
  match s with
  | c :: s' => if bz c =? 45 then (true, s') else if bz c =? 43 then (false, s') else (false, s)
  | [] => (false, [])
  end.

(** [sscanf(s, "%lf", &value)] for decimal numbers: [None] when it does not
    return 1.  The input item is the longest prefix that could become a number,
    so an exponent without digits does not match. *)
Definition sscanf_lf (s : bytes) : option double :=
  let '(neg, s) := read_sign (skip_spaces s) in
  let '(ds, s) := span is_digit s in
  let '(fs, s) := match s with c :: s' => if bz c =? 46 then span is_digit s' else ([], s) | [] => ([], s) end in
  if decide (ds ++ fs = []) then None
  else
    let exponent :=
      match s with
      | c :: s' =>
          if (bz c =? 101) || (bz c =? 69) then
            let '(eneg, s') := read_sign s' in
            let '(es, _) := span is_digit s' in
            if decide (es = []) then None else Some (if eneg then - digits 0 es else digits 0 es)
          else Some 0
      | [] => Some 0
      end in
    match exponent with
    | Some e => Some (decimal_double neg (digits 0 (ds ++ fs)) (e - Z.of_nat (length fs)))
    | None => None
    end.

(** A quotient rounded to the nearest integer, half to even. *)
Definition div_round (num den : Z) : Z :=
  let q := num / den in
  let r := num mod den in
  if 2 * r <? den then q else if den <? 2 * r then q + 1 else if Z.even q then q else q + 1.

(** The exponent of the first digit of [num / den], within that of a [double]. *)
Fixpoint count_down (fuel : nat) (num den x : Z) : Z :=
  match fuel with O => x | S fuel => if num <? den then count_down fuel (10 * num) den (x - 1) else x end.
Fixpoint count_up (fuel : nat) (num den x : Z) : Z :=
  match fuel with O => x | S fuel => if 10 * den <=? num then count_up fuel num (10 * den) (x + 1) else x end.
Definition first_digit (num den : Z) : Z := count_up 400 num den (count_down 400 num den 0).

Definition strip_zeros (ds : bytes) : bytes :=
  reverse ((fix strip (l : bytes) := match l with c :: l' => if bz c =? 48 then strip l' else l | [] => [] end) (reverse ds)).

Definition with_fraction (a b : bytes) : bytes := if decide (b = []) then a else a ++ lit "." ++ b.

(** ["%.16g"] of a positive number: 16 digits, without trailing zeros. *)
Definition format_g16 (num den : Z) : bytes :=
  let x := first_digit num den in
  let scale := 15 - x in
  let n := if 0 <=? scale then div_round (num * 10 ^ scale) den else div_round num (den * 10 ^ (- scale)) in
  let '(n, x) := if n =? 10 ^ 16 then (10 ^ 15, x + 1) else (n, x) in
  let ds := decimal n in
  if (x <? -4) || (16 <=? x) then
    let e := decimal (Z.abs x) in
    with_fraction (take 1 ds) (strip_zeros (drop 1 ds)) ++ lit "e" ++ lit (if x <? 0 then "-" else "+")
      ++ (if decide (length e < 2)%nat then lit "0" ++ e else e)
  else if x <? 0 then lit "0." ++ replicate (Z.to_nat (- x - 1)) (zb 48) ++ strip_zeros ds
  else with_fraction (take (Z.to_nat (x + 1)) ds) (strip_zeros (drop (Z.to_nat (x + 1)) ds)).

(** [snprintf(_, _, "%.16g", value)] of a finite number. *)
Definition sprintf_g16 (d : double) : bytes :=
  match d with
  | S754_finite s m e =>
      (if s then lit "-" else []) ++ (if 0 <=? e then format_g16 (Zpos m * 2 ^ e) 1 else format_g16 (Zpos m) (2 ^ (- e)))
  | S754_zero true => lit "-0"
  | _ => lit "0"
  end.

Example g16_tenth : option_map sprintf_g16 (sscanf_lf (lit "0.1")) = Some (lit "0.1").
Proof. vm_compute. reflexivity. Qed.
Example g16_large : option_map sprintf_g16 (sscanf_lf (lit "-123456789e15")) = Some (lit "-1.23456789e+23").
Proof. vm_compute. reflexivity. Qed.
Example g16_small : option_map sprintf_g16 (sscanf_lf (lit "5e-324")) = Some (lit "4.940656458412465e-324").
Proof. vm_compute. reflexivity. Qed.
Example g16_third : option_map sprintf_g16 (sscanf_lf (lit "0.33333333333333333")) = Some (lit "0.3333333333333333").
Proof. vm_compute. reflexivity. Qed.
Example no_exponent : sscanf_lf (lit "1e+") = None.
Proof. reflexivity. Qed.

(** ** json_tool.h *)

Definition codePointToUTF8 (cp : Z) : bytes :=
  if cp <=? 127 then [zb cp]
  else if cp <=? 2047 then [zb (Z.lor 192 (Z.land 31 (Z.shiftr cp 6))); zb (Z.lor 128 (Z.land 63 cp))]
  else if cp <=? 65535 then
    [zb (Z.lor 224 (Z.land 15 (Z.shiftr cp 12))); zb (Z.lor 128 (Z.land 63 (Z.shiftr cp 6))); zb (Z.lor 128 (Z.land 63 cp))]
  else if cp <=? 1114111 then
    [zb (Z.lor 240 (Z.land 7 (Z.shiftr cp 18))); zb (Z.lor 128 (Z.land 63 (Z.shiftr cp 12)));
     zb (Z.lor 128 (Z.land 63 (Z.shiftr cp 6))); zb (Z.lor 128 (Z.land 63 cp))]
  else [].

Definition isControlCharacter (ch : byte) : bool := (0 <? schar ch) && (schar ch <=? 31).

(** The digits that [uintToString] writes before [current]; the buffer's 25
    bytes hold those of any [LargestUInt], its sign and its end. *)
Definition uintToString (value : Z) : bytes := decimal value.

Definition fixNumericLocale (buffer : bytes) : bytes := map (fun c => if bz c =? 44 then zb 46 else c) buffer.

(** ** [valueToString] *)

Fixpoint containsControlCharacter (str : bytes) : bool :=
  match str with [] => false | c :: str => if isControlCharacter c then true else containsControlCharacter str end.

(** The negation of the least integer, whose behaviour is undefined in C++, is
    taken to wrap around. *)
Definition valueToString_int (value : Z) : bytes :=
  if value <? 0 then lit "-" ++ uintToString (u64 (i64 (- value))) else uintToString (u64 value).
Definition valueToString_uint (value : Z) : bytes := uintToString value.

Definition valueToString_double (value : double) : bytes :=
  fixNumericLocale
    match value with
    | S754_nan => lit "null"
    | S754_infinity true => lit "-1e+9999"
    | S754_infinity false => lit "1e+9999"
    | _ => sprintf_g16 value
    end.

Definition valueToString_bool (value : bool) : bytes := if value then lit "true" else lit "false".

Definition quote : byte := zb 34.
Definition backslash : byte := zb 92.

Definition hex_upper (z : Z) : byte := if z <? 10 then zb (48 + z) else zb (55 + z).

(** One round of the loop over the characters. *)
Definition quote_char (c : byte) : bytes :=
  let z := bz c in
  if z =? 34 then [backslash; quote]
  else if z =? 92 then [backslash; backslash]
  else if z =? 8 then [backslash; zb 98]
  else if z =? 12 then [backslash; zb 102]
  else if z =? 10 then [backslash; zb 110]
  else if z =? 13 then [backslash; zb 114]
  else if z =? 9 then [backslash; zb 116]
  else if isControlCharacter c then [backslash; zb 117; zb 48; zb 48; hex_upper (z / 16); hex_upper (z mod 16)]
  else [c].

Definition needs_escape (c : byte) : bool :=
  let z := bz c in (z =? 34) || (z =? 92) || (z =? 8) || (z =? 12) || (z =? 10) || (z =? 13) || (z =? 9).

(** The argument is a C string, or null. *)
Definition valueToQuotedString (value : option bytes) : bytes :=
  match value with
  | None => []
  | Some value =>
      let value := cstr value in
      if negb (existsb needs_escape value) && negb (containsControlCharacter value) then [quote] ++ value ++ [quote]
      else [quote] ++ concat (map quote_char value) ++ [quote]
  end.

(** ** [Value::asString] *)

Definition asString (v : Json.Value) : res bytes :=
  match v with
  | Json.nullValue => Ret []
  | Json.stringValue s => Ret (match s with Some s => cstr s | None => [] end)
  | Json.booleanValue b => Ret (valueToString_bool b)
  | Json.intValue z => Ret (valueToString_int z)
  | Json.uintValue z => Ret (valueToString_uint z)
  | Json.realValue d => Ret (valueToString_double d)
  | _ => Throw
  end.

(** The shortcut writes the same. *)
Lemma valueToQuotedString_eq s : valueToQuotedString (Some s) = [quote] ++ concat (map quote_char (cstr s)) ++ [quote].
Proof.
  unfold valueToQuotedString. destruct (negb _ && negb _) eqn:E; [|done]. do 2 f_equal.
  apply andb_true_iff in E as [E1%negb_true_iff E2%negb_true_iff]. revert E1 E2.
  induction (cstr s) as [|c t IH]; [done|]. cbn [existsb containsControlCharacter map concat]. intros [Hn Hr]%orb_false_iff Hc.
  destruct (isControlCharacter c) eqn:Ec; [done|]. rewrite <- IH by done. unfold quote_char. rewrite Ec. unfold needs_escape in Hn.
  rewrite !orb_false_iff in Hn. destruct Hn as ((((((-> & ->) & ->) & ->) & ->) & ->) & ->). done.
Qed.

(** ** What [sscanf] reads is in the format *)

Lemma decimal_in_format neg m e : in_format (decimal_double neg m e).
Proof.
  unfold decimal_double. destruct m; [done| |done]. destruct (0 <=? e); [apply normalize_in_format|].
  destruct (SFdiv_core_binary _ _ _ _ _ _) as [[mz ez] lz]. apply round_in_format.
Qed.

Lemma sscanf_in_format s d : sscanf_lf s = Some d -> in_format d.
Proof. unfold sscanf_lf. repeat case_match; try done; intros [= <-]; apply decimal_in_format. Qed.
