(* ===== verification/JsonReader.v ===== *)
(** * JsonReader: [Json::Reader] of jsoncpp.cpp

    The tokenizer, the recursive parser and its error messages, for
    [collectComments] false, as [read_schema] calls it: comments are skipped.
    The offsets that values keep of their text are not modelled.

    A [Location] is the bytes from there to [end_]; the byte at [end_] is the
    NUL that [document_] ends with. *)

From Stdlib Require Import SpecFloat.
From S2P Require Import Prelude CLib Double JsonValue JsonText.

(** ** Data *)

Record Features := mkFeatures {
  allowComments_ : bool;
  strictRoot_ : bool;
  allowDroppedNullPlaceholders_ : bool;
  allowNumericKeys_ : bool;
}.
Definition Features_all : Features := mkFeatures true false false false.
Definition Features_strictMode : Features := mkFeatures false true false false.

Inductive TokenType :=
  | tokenEndOfStream | tokenObjectBegin | tokenObjectEnd | tokenArrayBegin | tokenArrayEnd | tokenString
  | tokenNumber | tokenTrue | tokenFalse | tokenNull | tokenArraySeparator | tokenMemberSeparator
  | tokenComment | tokenError.
#[export] Instance TokenType_eq_dec : EqDecision TokenType.
Proof. solve_decision. Defined.

Abbreviation Location := bytes.

Record Token := mkToken { tok_type : TokenType; tok_start : Location; tok_end : Location }.

(** [std::string(token.start_, token.end_)]. *)
Definition between (a b : Location) : bytes := take (length a - length b) a.
Definition tok_text (t : Token) : bytes := between (tok_start t) (tok_end t).

Record ErrorInfo := mkErrorInfo { token_ : Token; message_ : bytes; extra_ : option Location }.

(** What is left to read, and the errors. *)
Record Reader := mkReader { current_ : Location; errors_ : list ErrorInfo }.
Definition with_current (r : Reader) (c : Location) : Reader := mkReader c (errors_ r).

(** ** Tokens *)

Definition getNextChar (current : Location) : byte * Location :=
  match current with [] => (NUL, []) | c :: current => (c, current) end.

Definition is_blank (c : byte) : bool := let z := bz c in (z =? 32) || (z =? 9) || (z =? 13) || (z =? 10).

Fixpoint skipSpaces (current : Location) : Location :=
  match current with c :: current' => if is_blank c then skipSpaces current' else current | [] => [] end.

Definition match_ (pattern : bytes) (current : Location) : bool * Location :=
  if decide (length current < length pattern)%nat then (false, current)
  else if decide (take (length pattern) current = pattern) then (true, drop (length pattern) current)
  else (false, current).

(** The loop of [readCStyleComment]; it stops before the slash. *)
Fixpoint c_comment_loop (current : Location) : Location :=
  match current with
  | [] => []
  | c :: current' => if (bz c =? 42) && (bz (default NUL (head current')) =? 47) then current' else c_comment_loop current'
  end.
Definition readCStyleComment (current : Location) : bool * Location :=
  let '(c, current) := getNextChar (c_comment_loop current) in (bz c =? 47, current).

Fixpoint cpp_comment_loop (current : Location) : Location :=
  match current with
  | [] => []
  | c :: current' => if (bz c =? 13) || (bz c =? 10) then current' else cpp_comment_loop current'
  end.
Definition readCppStyleComment (current : Location) : bool * Location := (true, cpp_comment_loop current).

Definition readComment (current : Location) : bool * Location :=
  let '(c, current) := getNextChar current in
  if bz c =? 42 then readCStyleComment current
  else if bz c =? 47 then readCppStyleComment current
  else (false, current).

(** [in(c, '.', 'e', 'E', '+', '-')], and the one without ['-']. *)
Definition in_number (c : byte) : bool :=
  let z := bz c in (z =? 46) || (z =? 101) || (z =? 69) || (z =? 43) || (z =? 45).
Definition in_double (c : byte) : bool := let z := bz c in (z =? 46) || (z =? 101) || (z =? 69) || (z =? 43).

Fixpoint readNumber (current : Location) : Location :=
  match current with
  | c :: current' => if is_digit c || in_number c then readNumber current' else current
  | [] => []
  end.

(** The loop with the last character read in [c]. *)
Fixpoint string_loop (c : byte) (current : Location) : bool * Location :=
  match current with
  | [] => (bz c =? 34, [])
  | c :: current =>
      if bz c =? 92 then
        match current with
        | [] => (bz c =? 34, [])
        | _ :: current => string_loop c current
        end
      else if bz c =? 34 then (true, current)
      else string_loop c current
  end.
Definition readString (current : Location) : bool * Location := string_loop NUL current.

Definition readToken (current : Location) : Token * Location :=
  let start := skipSpaces current in
  let '(c, current) := getNextChar start in
  let z := bz c in
  let '(type, (ok, current)) :=
    if z =? 123 then (tokenObjectBegin, (true, current))
    else if z =? 125 then (tokenObjectEnd, (true, current))
    else if z =? 91 then (tokenArrayBegin, (true, current))
    else if z =? 93 then (tokenArrayEnd, (true, current))
    else if z =? 34 then (tokenString, readString current)
    else if z =? 47 then (tokenComment, readComment current)
    else if is_digit c || (z =? 45) then (tokenNumber, (true, readNumber current))
    else if z =? 116 then (tokenTrue, match_ (lit "rue") current)
    else if z =? 102 then (tokenFalse, match_ (lit "alse") current)
    else if z =? 110 then (tokenNull, match_ (lit "ull") current)
    else if z =? 44 then (tokenArraySeparator, (true, current))
    else if z =? 58 then (tokenMemberSeparator, (true, current))
    else if z =? 0 then (tokenEndOfStream, (true, current))
    else (tokenError, (false, current)) in
  (mkToken (if ok then type else tokenError) start current, current).

(** [readToken] while the token is a comment; every round consumes one. *)
Fixpoint comment_loop (fuel : nat) (token : Token) (current : Location) : res (Token * Location) :=
  match fuel with
  | O => NoFuel
  | S fuel =>
      if decide (tok_type token = tokenComment) then let '(token, current) := readToken current in comment_loop fuel token current
      else Ret (token, current)
  end.
Definition skip_comments (token : Token) (current : Location) : res (Token * Location) :=
  comment_loop (S (S (length current))) token current.

Definition skipCommentTokens (f : Features) (current : Location) : res (Token * Location) :=
  let '(token, current) := readToken current in
  if allowComments_ f then skip_comments token current else Ret (token, current).

(** ** Errors *)

Definition addError (r : Reader) (message : bytes) (token : Token) (extra : option Location) : Reader :=
  mkReader (current_ r) (errors_ r ++ [mkErrorInfo token message extra]).

(** Reading tokens adds no errors, so none are discarded. *)
Fixpoint recover_loop (fuel : nat) (skipUntilToken : TokenType) (current : Location) : res Location :=
  match fuel with
  | O => NoFuel
  | S fuel =>
      let '(skip, current) := readToken current in
      if decide (tok_type skip = skipUntilToken \/ tok_type skip = tokenEndOfStream) then Ret current
      else recover_loop fuel skipUntilToken current
  end.
Definition recoverFromError (r : Reader) (skipUntilToken : TokenType) : res Reader :=
  c ← recover_loop (S (length (current_ r))) skipUntilToken (current_ r); Ret (with_current r c).

Definition addErrorAndRecover (r : Reader) (message : bytes) (token : Token) (skipUntilToken : TokenType) : res Reader :=
  recoverFromError (addError r message token None) skipUntilToken.

(** ** Decoding

    A decoder returns its value or the error it adds. *)

Definition outcome (A : Type) : Type := (A + (bytes * option Location))%type.

Definition hex_value (c : byte) : option Z :=
  let z := bz c in
  if (48 <=? z) && (z <=? 57) then Some (z - 48)
  else if (97 <=? z) && (z <=? 102) then Some (z - 97 + 10)
  else if (65 <=? z) && (z <=? 70) then Some (z - 65 + 10)
  else None.

(** The loop over the four digits; [tail] is what follows the string. *)
Fixpoint hex_loop (n : nat) (unicode : Z) (current tail : bytes) : res (outcome (Z * bytes)) :=
  match n with
  | O => Ret (inl (unicode, current))
  | S n =>
      match current with
      | [] => Undef
      | c :: current =>
          match hex_value c with
          | Some v => hex_loop n (unicode * 16 + v) current tail
          | None => Ret (inr (lit "Bad unicode escape sequence in string: hexadecimal digit expected.", Some (current ++ tail)))
          end
      end
  end.

Definition decodeUnicodeEscapeSequence (current tail : bytes) : res (outcome (Z * bytes)) :=
  if decide (length current < 4)%nat then
    Ret (inr (lit "Bad unicode escape sequence in string: four digits expected.", Some (current ++ tail)))
  else hex_loop 4 0 current tail.

Definition decodeUnicodeCodePoint (current tail : bytes) : res (outcome (Z * bytes)) :=
  d ← decodeUnicodeEscapeSequence current tail;
  match d with
  | inr e => Ret (inr e)
  | inl (unicode, current) =>
      if (55296 <=? unicode) && (unicode <=? 56319) then
        if decide (length current < 6)%nat then
          Ret (inr (lit "additional six characters expected to parse unicode surrogate pair.", Some (current ++ tail)))
        else
          let expecting := lit "expecting another \u token to begin the second half of a unicode surrogate pair" in
          let '(c1, current) := getNextChar current in
          if bz c1 =? 92 then
            let '(c2, current) := getNextChar current in
            if bz c2 =? 117 then
              d ← decodeUnicodeEscapeSequence current tail;
              match d with
              | inl (surrogatePair, current) =>
                  Ret (inl (65536 + Z.shiftl (Z.land unicode 1023) 10 + Z.land surrogatePair 1023, current))
              | inr e => Ret (inr e)
              end
            else Ret (inr (expecting, Some (current ++ tail)))
          else Ret (inr (expecting, Some (current ++ tail)))
      else Ret (inl (unicode, current))
  end.

Definition simple_escape (c : byte) : option byte :=
  let z := bz c in
  if z =? 34 then Some c else if z =? 47 then Some c else if z =? 92 then Some c
  else if z =? 98 then Some (zb 8) else if z =? 102 then Some (zb 12) else if z =? 110 then Some (zb 10)
  else if z =? 114 then Some (zb 13) else if z =? 116 then Some (zb 9) else None.

(** The loop over the characters up to the closing quote; every round consumes one. *)
Fixpoint decode_string_loop (fuel : nat) (decoded current tail : bytes) : res (outcome bytes) :=
  match fuel with
  | O => NoFuel
  | S fuel =>
      match current with
      | [] => Ret (inl decoded)
      | c :: current =>
          if bz c =? 34 then Ret (inl decoded)
          else if bz c =? 92 then
            match current with
            | [] => Ret (inr (lit "Empty escape sequence in string", Some tail))
            | escape :: current =>
                match simple_escape escape with
                | Some x => decode_string_loop fuel (decoded ++ [x]) current tail
                | None =>
                    if bz escape =? 117 then
                      d ← decodeUnicodeCodePoint current tail;
                      match d with
                      | inl (unicode, current) => decode_string_loop fuel (decoded ++ codePointToUTF8 unicode) current tail
                      | inr e => Ret (inr e)
                      end
                    else Ret (inr (lit "Bad escape sequence in string", Some (current ++ tail)))
                end
            end
          else decode_string_loop fuel (decoded ++ [c]) current tail
      end
  end.

Definition decodeString (token : Token) : res (outcome bytes) :=
  let n := (length (tok_text token) - 2)%nat in
  let current := take n (drop 1 (tok_start token)) in
  decode_string_loop (S n) [] current (drop (S n) (tok_start token)).

(** What the negation of the least [long long] does: in C++ the behaviour is
    undefined, and a compiler may be told to make it wrap around. *)
Definition cpp_negation : res Z := Undef.
Definition wrapping_negation : res Z := Ret Json.minInt64.
Definition negate64 (negate_least : res Z) (z : Z) : res Z :=
  if decide (z = Json.minInt64) then negate_least else Ret (- z).

Inductive int_result := IntValue (value : Z) | IntTooLarge | IntBad.

(** The loop over the digits. *)
Fixpoint int_loop (s : bytes) (maxIntegerValue value : Z) : int_result :=
  match s with
  | [] => IntValue value
  | c :: s =>
      if negb (is_digit c) then IntBad
      else
        let digit := bz c - 48 in
        let threshold := maxIntegerValue / 10 in
        if (threshold <=? value) && ((threshold <? value) || negb (bool_decide (s = [])) || (maxIntegerValue mod 10 <? digit))
        then IntTooLarge
        else int_loop s maxIntegerValue (u64 (value * 10 + digit))
  end.

Definition not_a_number (token : Token) : bytes := lit "'" ++ tok_text token ++ lit "' is not a number.".

Definition decodeDouble (token : Token) : outcome Json.Value :=
  match sscanf_lf (tok_text token) with
  | Some value => inl (Json.realValue value)
  | None => inr (not_a_number token, None)
  end.

Definition is_double_text (s : bytes) : bool :=
  existsb in_double s || existsb (fun c => bz c =? 45) (drop 1 s).

(** [-Value::minLargestInt] is the limit of the negative numbers. *)
Definition decodeNumber (negate_least : res Z) (token : Token) : res (outcome Json.Value) :=
  let text := tok_text token in
  if is_double_text text then Ret (decodeDouble token)
  else
    let isNegative := match text with c :: _ => bz c =? 45 | [] => false end in
    let current := if isNegative then drop 1 text else text in
    maxIntegerValue ← (if isNegative then z ← negate64 negate_least Json.minInt64; Ret (u64 z) else Ret Json.maxUInt64);
    match int_loop current maxIntegerValue 0 with
    | IntBad => Ret (inr (not_a_number token, None))
    | IntTooLarge => Ret (decodeDouble token)
    | IntValue value =>
        if isNegative then z ← negate64 negate_least (i64 value); Ret (inl (Json.intValue z))
        else if value <=? Json.maxInt then Ret (inl (Json.intValue (i64 value)))
        else Ret (inl (Json.uintValue value))
    end.

(** [Value(const std::string&)]: what the C string is, of the copy that
    [duplicateStringValue] makes. *)
Definition duplicateStringValue (value : bytes) (length : Z) : bytes :=
  let length := if Json.maxInt <=? length then Json.maxInt - 1 else length in take (Z.to_nat length) value.
Definition Value_string (value : bytes) : Json.Value :=
  Json.stringValue (Some (cstr (duplicateStringValue value (u32 (Z.of_nat (length value)))))).

(** ** Parsing

    Each function takes the current value, the one on the top of [nodes_], and
    returns whether it was successful and the value. *)

Section parser.
Context (features_ : Features) (negate_least : res Z).

Abbreviation Parsed := (bool * Json.Value * Reader)%type.

(** A failed call: an error, and recovery. *)
Definition fail (v : Json.Value) (r : res Reader) : res Parsed := r ← r; Ret (false, v, r).

(** The name of the next member; [None] when the token is none. *)
Definition member_name (tokenName : Token) : res (option (outcome bytes)) :=
  match tok_type tokenName with
  | tokenString => d ← decodeString tokenName; Ret (Some d)
  | tokenNumber =>
      if allowNumericKeys_ features_ then
        d ← decodeNumber negate_least tokenName;
        match d with
        | inl numberName => name ← asString numberName; Ret (Some (inl name))
        | inr e => Ret (Some (inr e))
        end
      else Ret None
  | _ => Ret None
  end.

Fixpoint readValue (fuel : nat) (v : Json.Value) (r : Reader) {struct fuel} : res Parsed :=
  match fuel with
  | O => NoFuel
  | S fuel =>
      '(token, c) ← skipCommentTokens features_ (current_ r);
      let r := with_current r c in
      let syntax_error := Ret (false, v, addError r (lit "Syntax error: value, object or array expected.") token None) in
      match tok_type token with
      | tokenObjectBegin => object_loop fuel [] (Json.objectValue []) r
      | tokenArrayBegin => readArray fuel (Json.arrayValue []) r
      | tokenNumber =>
          d ← decodeNumber negate_least token;
          match d with
          | inl d => Ret (true, d, r)
          | inr (message, extra) => Ret (false, v, addError r message token extra)
          end
      | tokenString =>
          d ← decodeString token;
          match d with
          | inl s => Ret (true, Value_string s, r)
          | inr (message, extra) => Ret (false, v, addError r message token extra)
          end
      | tokenTrue => Ret (true, Json.booleanValue true, r)
      | tokenFalse => Ret (true, Json.booleanValue false, r)
      | tokenNull => Ret (true, Json.nullValue, r)
      | tokenArraySeparator =>
          if allowDroppedNullPlaceholders_ features_ then Ret (true, Json.nullValue, with_current r (tok_start token))
          else syntax_error
      | _ => syntax_error
      end
  end

(** The loop of [readObject]; [name] is the last member's. *)
with object_loop (fuel : nat) (name : bytes) (v : Json.Value) (r : Reader) {struct fuel} : res Parsed :=
  match fuel with
  | O => NoFuel
  | S fuel =>
      let '(tokenName, c) := readToken (current_ r) in
      '(tokenName, c) ← skip_comments tokenName c;
      let r := with_current r c in
      if decide (tok_type tokenName = tokenObjectEnd /\ name = []) then Ret (true, v, r)
      else
        o ← member_name tokenName;
        match o with
        | None => fail v (addErrorAndRecover r (lit "Missing '}' or object member name") tokenName tokenObjectEnd)
        | Some (inr (message, extra)) => fail v (recoverFromError (addError r message tokenName extra) tokenObjectEnd)
        | Some (inl name) =>
            let '(colon, c) := readToken (current_ r) in
            let r := with_current r c in
            if decide (tok_type colon <> tokenMemberSeparator) then
              fail v (addErrorAndRecover r (lit "Missing ':' after object member name") colon tokenObjectEnd)
            else
              value ← Json.get_key v (cstr name) Json.nullValue;
              '(ok, value, r) ← readValue fuel value r;
              v ← Json.set_key v (cstr name) value;
              if negb ok then fail v (recoverFromError r tokenObjectEnd)
              else
                let '(comma, c) := readToken (current_ r) in
                let r := with_current r c in
                if decide (tok_type comma <> tokenObjectEnd /\ tok_type comma <> tokenArraySeparator /\ tok_type comma <> tokenComment)
                then fail v (addErrorAndRecover r (lit "Missing ',' or '}' in object declaration") comma tokenObjectEnd)
                else
                  '(comma, c) ← skip_comments comma c;
                  let r := with_current r c in
                  if decide (tok_type comma = tokenObjectEnd) then Ret (true, v, r) else object_loop fuel name v r
        end
  end

with readArray (fuel : nat) (v : Json.Value) (r : Reader) {struct fuel} : res Parsed :=
  match fuel with
  | O => NoFuel
  | S fuel =>
      let r := with_current r (skipSpaces (current_ r)) in
      if bz (default NUL (head (current_ r))) =? 93 then
        let '(_, c) := readToken (current_ r) in Ret (true, v, with_current r c)
      else array_loop fuel 0 v r
  end

(** The loop of [readArray]. *)
with array_loop (fuel : nat) (index : Z) (v : Json.Value) (r : Reader) {struct fuel} : res Parsed :=
  match fuel with
  | O => NoFuel
  | S fuel =>
      next ← int_add index 1;
      value ← Json.get_index v index Json.nullValue;
      '(ok, value, r) ← readValue fuel value r;
      v ← Json.set_index v index value;
      if negb ok then fail v (recoverFromError r tokenArrayEnd)
      else
        let '(token, c) := readToken (current_ r) in
        '(token, c) ← skip_comments token c;
        let r := with_current r c in
        if decide (tok_type token <> tokenArraySeparator /\ tok_type token <> tokenArrayEnd) then
          fail v (addErrorAndRecover r (lit "Missing ',' or ']' in array declaration") token tokenArrayEnd)
        else if decide (tok_type token = tokenArrayEnd) then Ret (true, v, r)
        else array_loop fuel next v r
  end.

(** [parse(beginDoc, endDoc, root, false)]; three calls for every character
    are enough for the recursion. *)
Definition parse_fuel (document : bytes) : nat := 3 * length document + 4.

Definition parse (document : bytes) (root : Json.Value) : res Parsed :=
  '(successful, root, r) ← readValue (parse_fuel document) root (mkReader document []);
  '(token, c) ← skipCommentTokens features_ (current_ r);
  let r := with_current r c in
  if strictRoot_ features_ && negb (Json.isArray root) && negb (Json.isObject root) then
    Ret (false, root, addError r (lit "A valid JSON document must be either an array or an object value.")
      (mkToken tokenError document []) None)
  else Ret (successful, root, r).

(** [std::getline(sin, doc, (char)EOF)]: up to the first byte 255. *)
Fixpoint getline_eof (contents : bytes) : bytes :=
  match contents with c :: contents => if bz c =? 255 then [] else c :: getline_eof contents | [] => [] end.

Definition parse_stream (contents : bytes) (root : Json.Value) : res Parsed := parse (getline_eof contents) root.

(** ** Messages *)

Fixpoint line_loop (current location lastLineStart : Location) (line : Z) : Location * Z :=
  match current with
  | [] => (lastLineStart, line)
  | c :: next =>
      if decide (length location < length current)%nat then
        if bz c =? 13 then
          match next with
          | c2 :: next2 =>
              if bz c2 =? 10 then line_loop next2 location next2 (line + 1) else line_loop next location next (line + 1)
          | [] => line_loop next location next (line + 1)
          end
        else if bz c =? 10 then line_loop next location next (line + 1)
        else line_loop next location lastLineStart line
      else (lastLineStart, line)
  end.

Definition getLocationLineAndColumn (document location : Location) : Z * Z :=
  let '(lastLineStart, line) := line_loop document location document 0 in
  (line + 1, Z.of_nat (length lastLineStart) - Z.of_nat (length location) + 1).

Definition location_text (document location : Location) : bytes :=
  let '(line, column) := getLocationLineAndColumn document location in
  lit "Line " ++ sprintf_d line ++ lit ", Column " ++ sprintf_d column.

Definition error_text (document : bytes) (error : ErrorInfo) : bytes :=
  lit "* " ++ location_text document (tok_start (token_ error)) ++ [zb 10]
    ++ lit "  " ++ message_ error ++ [zb 10]
    ++ (match extra_ error with
        | Some extra => lit "See " ++ location_text document extra ++ lit " for detail." ++ [zb 10]
        | None => []
        end).

Definition getFormattedErrorMessages (document : bytes) (r : Reader) : bytes :=
  concat (map (error_text document) (errors_ r)).

Record StructuredError := mkStructuredError { offset_start : Z; offset_limit : Z; message : bytes }.
Definition getStructuredErrors (document : bytes) (r : Reader) : list StructuredError :=
  map (fun error => mkStructuredError
    (Z.of_nat (length document) - Z.of_nat (length (tok_start (token_ error))))
    (Z.of_nat (length document) - Z.of_nat (length (tok_end (token_ error)))) (message_ error)) (errors_ r).
End parser.

(** ** Reading tokens *)

Lemma skipSpaces_shorter c : (length (skipSpaces c) <= length c)%nat.
Proof. induction c as [|x c IH]; cbn; [lia|]. destruct (is_blank x); cbn; lia. Qed.

Lemma match_shorter p c : (length (match_ p c).2 <= length c)%nat.
Proof. unfold match_. repeat case_decide; cbn; rewrite ?length_drop; lia. Qed.

Lemma c_comment_shorter c : (length (c_comment_loop c) <= length c)%nat.
Proof. induction c as [|x c IH]; cbn; [lia|]. destruct (_ && _); lia. Qed.

Lemma cpp_comment_shorter c : (length (cpp_comment_loop c) <= length c)%nat.
Proof. induction c as [|x c IH]; cbn; [lia|]. destruct (_ || _); lia. Qed.

Lemma readComment_shorter c : (length (readComment c).2 <= length c)%nat.
Proof.
  unfold readComment. destruct c as [|x c]; [done|]. cbn [getNextChar]. destruct (_ =? 42).
  - unfold readCStyleComment. pose proof (c_comment_shorter c). destruct (c_comment_loop c); cbn in *; lia.
  - destruct (_ =? 47); [|cbn; lia]. unfold readCppStyleComment. pose proof (cpp_comment_shorter c). cbn. lia.
Qed.

Lemma readNumber_shorter c : (length (readNumber c) <= length c)%nat.
Proof. induction c as [|x c IH]; cbn; [lia|]. destruct (_ || _); cbn; lia. Qed.

Lemma string_loop_shorter n c x : (length c <= n)%nat -> (length (string_loop x c).2 <= length c)%nat.
Proof.
  revert c x. induction n as [|n IH]; intros [|y c] x Hn; cbn in *; try lia.
  destruct (_ =? 92); [destruct c as [|z c]; cbn in *; [lia|specialize (IH c y); lia]|].
  destruct (_ =? 34); [cbn; lia|]. specialize (IH c y). lia.
Qed.

(** A token is read; only at the end nothing is. *)
Lemma readToken_shorter c t c' : readToken c = (t, c') ->
  (length c' <= length c)%nat /\ (tok_type t <> tokenEndOfStream -> (length c' < length c)%nat)
  /\ (length (tok_start t) <= length c)%nat.
Proof.
  unfold readToken. pose proof (skipSpaces_shorter c) as Hs. destruct (skipSpaces c) as [|x s]; cbn [getNextChar].
  { cbn. intros [= <- <-]. cbn in *. split; [lia|]. split; [done|lia]. }
  set (r := if bz x =? 123 then _ else _).
  assert (length r.2.2 <= length s)%nat as Hr.
  { unfold r, readString. repeat case_match; cbn [fst snd]; try lia.
    - by apply (string_loop_shorter (length s)).
    - apply readComment_shorter.
    - apply readNumber_shorter.
    - apply match_shorter.
    - apply match_shorter.
    - apply match_shorter. }
  destruct r as [ty [ok s']]. intros [= <- <-]. cbn in *. split; [lia|]. split; [intros _; lia|lia].
Qed.

Lemma comment_loop_ret fuel t c : (S (length c) < fuel)%nat -> exists t' c', comment_loop fuel t c = Ret (t', c')
  /\ tok_type t' <> tokenComment
  /\ ((t' = t /\ c' = c) \/ ((length c' <= length c)%nat /\ (tok_type t' <> tokenEndOfStream -> (length c' < length c)%nat)
      /\ (length (tok_start t') <= length c)%nat)).
Proof.
  revert t c. induction fuel as [|fuel IH]; intros t c Hf; [lia|]. cbn [comment_loop].
  case_decide as Ht; [|exists t, c; split; [done|]; split; [done|by left]].
  destruct (readToken c) as [t1 c1] eqn:E. pose proof (readToken_shorter _ _ _ E) as (H1 & H2 & H3).
  destruct (decide (tok_type t1 = tokenComment)) as [Ec|Ec].
  - specialize (H2 ltac:(congruence)). destruct (IH t1 c1) as (t' & c' & E' & Hn & HR); [lia|].
    exists t', c'. rewrite E'. split; [done|]. split; [done|]. right. destruct HR as [[-> ->]|(? & ? & ?)]; [done|].
    split; [lia|]. split; [intros; lia|lia].
  - destruct fuel as [|fuel]; [lia|]. cbn [comment_loop]. rewrite decide_False by done. exists t1, c1.
    split; [done|]. split; [done|by right].
Qed.

(** A token that is not a comment, after any comments. *)
Definition next_token (c0 : Location) (t : Token) (c : Location) : Prop :=
  (length c <= length c0)%nat /\ (tok_type t <> tokenEndOfStream -> (length c < length c0)%nat)
  /\ (length (tok_start t) <= length c0)%nat.

Lemma skip_comments_ret c0 t c : readToken c0 = (t, c) -> exists t' c', skip_comments t c = Ret (t', c')
  /\ next_token c0 t' c' /\ tok_type t' <> tokenComment.
Proof.
  intros E. pose proof (readToken_shorter _ _ _ E) as (H1 & H2 & H3).
  destruct (comment_loop_ret (S (S (length c))) t c ltac:(lia)) as (t' & c' & E' & Hn & HR).
  exists t', c'. split; [done|]. split; [|done]. destruct HR as [[-> ->]|(? & Hc & ?)]; [done|].
  split; [lia|]. split; [|lia]. intros Ht. specialize (Hc Ht). lia.
Qed.

Lemma skipCommentTokens_ret f c0 : exists t c, skipCommentTokens f c0 = Ret (t, c) /\ next_token c0 t c.
Proof.
  unfold skipCommentTokens. destruct (readToken c0) as [t c] eqn:E. destruct (allowComments_ f).
  - destruct (skip_comments_ret _ _ _ E) as (t' & c' & -> & Hn & _). by exists t', c'.
  - exists t, c. split; [done|]. by apply readToken_shorter.
Qed.

Lemma recover_loop_ret fuel k c : (length c < fuel)%nat -> exists c', recover_loop fuel k c = Ret c' /\ (length c' <= length c)%nat.
Proof.
  revert c. induction fuel as [|fuel IH]; intros c Hf; [lia|]. cbn [recover_loop]. destruct (readToken c) as [t c1] eqn:E.
  pose proof (readToken_shorter _ _ _ E) as (H1 & H2 & _). case_decide as Hk; [by exists c1|].
  specialize (H2 ltac:(tauto)). destruct (IH c1) as (c' & -> & ?); [lia|]. exists c'. split; [done|lia].
Qed.

Lemma recover_ret r k : exists r', recoverFromError r k = Ret r' /\ (length (current_ r') <= length (current_ r))%nat
  /\ errors_ r' = errors_ r.
Proof.
  unfold recoverFromError. destruct (recover_loop_ret (S (length (current_ r))) k (current_ r) ltac:(lia)) as (c & -> & Hl).
  by eexists.
Qed.

(** ** Decoding strings *)

Lemma hex_loop_ret n u s tail : (n <= length s)%nat -> exists d, hex_loop n u s tail = Ret d
  /\ forall v s', d = inl (v, s') -> (length s' <= length s)%nat.
Proof.
  revert u s. induction n as [|n IH]; intros u s Hn; cbn [hex_loop].
  { eexists. split; [done|]. by intros v s' [= _ <-]. }
  destruct s as [|c s]; cbn in Hn; [lia|]. destruct (hex_value c) as [v|]; [|by eexists].
  destruct (IH (u * 16 + v) s ltac:(lia)) as (d & -> & Hd). eexists. split; [done|]. intros v' s' E. specialize (Hd _ _ E). cbn. lia.
Qed.

Lemma decodeUnicodeEscapeSequence_ret s tail : exists d, decodeUnicodeEscapeSequence s tail = Ret d
  /\ forall v s', d = inl (v, s') -> (length s' <= length s)%nat.
Proof. unfold decodeUnicodeEscapeSequence. case_decide; [by eexists|]. apply hex_loop_ret. lia. Qed.

Lemma decodeUnicodeCodePoint_ret s tail : exists d, decodeUnicodeCodePoint s tail = Ret d
  /\ forall v s', d = inl (v, s') -> (length s' <= length s)%nat.
Proof.
  unfold decodeUnicodeCodePoint. destruct (decodeUnicodeEscapeSequence_ret s tail) as (d & -> & Hd). cbn [mbind res_bind].
  destruct d as [[u s1]|e]; [|by eexists]. specialize (Hd _ _ eq_refl).
  destruct (_ && _); [|eexists; split; [done|]; by intros v s' [= _ <-]]. case_decide as H6; [by eexists|].
  destruct s1 as [|c1 s2]; [cbn in H6; lia|]. cbn [getNextChar]. destruct (_ =? 92); [|by eexists].
  destruct s2 as [|c2 s3]; [cbn in H6; lia|]. cbn [getNextChar]. destruct (_ =? 117); [|by eexists].
  destruct (decodeUnicodeEscapeSequence_ret s3 tail) as (d & -> & Hd2). cbn [mbind res_bind].
  destruct d as [[u2 s4]|e]; [|by eexists]. eexists. split; [done|]. intros v s' [= _ <-].
  specialize (Hd2 _ _ eq_refl). cbn in *. lia.
Qed.

Lemma decode_string_loop_ret fuel dec s tail : (length s < fuel)%nat -> exists d, decode_string_loop fuel dec s tail = Ret d.
Proof.
  revert dec s. induction fuel as [|fuel IH]; intros dec s Hf; [lia|]. cbn [decode_string_loop].
  destruct s as [|c s]; [by eexists|]. cbn in Hf. destruct (_ =? 34); [by eexists|].
  destruct (_ =? 92); [|apply IH; lia]. destruct s as [|e s]; [by eexists|]. cbn in Hf.
  destruct (simple_escape e); [apply IH; lia|]. destruct (_ =? 117); [|by eexists].
  destruct (decodeUnicodeCodePoint_ret s tail) as (d & -> & Hd). cbn [mbind res_bind].
  destruct d as [[u s']|e']; [|by eexists]. specialize (Hd _ _ eq_refl). apply IH. lia.
Qed.

Lemma decodeString_ret t : exists d, decodeString t = Ret d.
Proof. unfold decodeString. apply decode_string_loop_ret. rewrite length_take. lia. Qed.

(** ** Well-typed values *)

Inductive well_typed : Json.Value -> Prop :=
  | wt_null : well_typed Json.nullValue
  | wt_int z : Json.minInt64 <= z <= Json.maxInt64 -> well_typed (Json.intValue z)
  | wt_uint z : 0 <= z <= Json.maxUInt64 -> well_typed (Json.uintValue z)
  | wt_real d : in_format d -> well_typed (Json.realValue d)
  | wt_string s : no_nul s -> well_typed (Json.stringValue (Some s))
  | wt_bool b : well_typed (Json.booleanValue b)
  | wt_array l : Forall well_typed l -> well_typed (Json.arrayValue (Json.dense 0 l))
  | wt_object m : map_wf bytes_cmp m -> Forall (fun kv => no_nul kv.1 /\ well_typed kv.2) m -> well_typed (Json.objectValue m).

(** The range in the reader's own names. *)
Lemma largest_int_range z : Json.minInt64 <= i64 z <= Json.maxInt64.
Proof. unfold Json.minInt64, Json.maxInt64. pose proof (i64_range z). lia. Qed.

Lemma int_loop_range s m v z : 0 <= v <= Json.maxUInt64 -> int_loop s m v = IntValue z -> 0 <= z <= Json.maxUInt64.
Proof.
  revert v. induction s as [|c s IH]; intros v Hv; cbn [int_loop]; [by intros [= <-]|].
  destruct (negb _); [done|]. destruct (_ && _); [done|]. apply IH. unfold u64, Json.maxUInt64.
  pose proof (Z.mod_pos_bound (v * 10 + (bz c - 48)) (2^64) ltac:(lia)). lia.
Qed.

Lemma decodeDouble_typed t v : decodeDouble t = inl v -> well_typed v /\ exists s, asString v = Ret s.
Proof.
  unfold decodeDouble. destruct (sscanf_lf _) as [d|] eqn:E; [|done]. intros [= <-]. split; [|by eexists].
  constructor. by apply sscanf_in_format in E.
Qed.

Lemma wrapping_negates z : Json.minInt64 <= z <= Json.maxInt64 -> exists z', negate64 wrapping_negation z = Ret z' /\ Json.minInt64 <= z' <= Json.maxInt64.
Proof. unfold negate64, Json.minInt64, Json.maxInt64. intros Hz. case_decide; eexists; (split; [done|]); unfold Json.minInt64; lia. Qed.

Lemma decodeNumber_ret t : exists d, decodeNumber wrapping_negation t = Ret d
  /\ forall v, d = inl v -> well_typed v /\ exists s, asString v = Ret s.
Proof.
  unfold decodeNumber. destruct (is_double_text _); [eexists; split; [done|apply decodeDouble_typed]|].
  set (neg := match tok_text t with [] => false | _ => _ end).
  assert (exists m, (if neg then z ← negate64 wrapping_negation Json.minInt64; Ret (u64 z) else Ret Json.maxUInt64) = Ret m) as [m ->]
    by (destruct neg; by eexists).
  cbn [mbind res_bind]. destruct (int_loop _ _ _) as [z| |] eqn:E; [|eexists; split; [done|apply decodeDouble_typed]|by eexists].
  apply int_loop_range in E; [|done]. destruct neg.
  - destruct (wrapping_negates (i64 z) (largest_int_range z)) as (z' & -> & Hz). cbn [mbind res_bind]. eexists. split; [done|].
    intros v [= <-]. split; [by constructor|by eexists].
  - destruct (z <=? Json.maxInt); eexists; (split; [done|]); intros v [= <-]; (split; [constructor; (done || apply largest_int_range)|by eexists]).
Qed.

Lemma Value_string_typed s : well_typed (Value_string s).
Proof. constructor. apply cstr_is_no_nul. Qed.

Lemma dense_get l : Json.get_index (Json.arrayValue (Json.dense 0 l)) (Z.of_nat (length l)) Json.nullValue = Ret Json.nullValue.
Proof.
  unfold Json.get_index. cbn [Json.at_index mbind res_bind].
  pose proof (map_find_gap Z.compare (Z.of_nat (length l)) (Json.dense 0 l) []) as E. rewrite app_nil_r in E.
  rewrite E; [done| |constructor]. apply Json.dense_below. lia.
Qed.

Lemma dense_set l w : Json.set_index (Json.arrayValue (Json.dense 0 l)) (Z.of_nat (length l)) w = Ret (Json.arrayValue (Json.dense 0 (l ++ [w]))).
Proof.
  cbn [Json.set_index]. rewrite map_put_end by (apply Json.dense_below; lia). by rewrite Json.dense_app.
Qed.

Lemma map_put_Forall {V} (P : bytes * V -> Prop) k v m : Forall P m -> P (k, v) ->
  (forall k' v', bytes_cmp k k' = Eq -> P (k', v') -> P (k', v)) -> Forall P (map_put bytes_cmp k v m).
Proof.
  intros Hm Hk Heq. induction Hm as [|[k' v'] m Hkv Hm IH]; cbn; [by repeat constructor|].
  destruct (bytes_cmp k k') eqn:E; constructor; try done; [by eapply Heq|by constructor].
Qed.

Lemma object_get_typed m k : Forall (fun kv => no_nul kv.1 /\ well_typed kv.2) m ->
  exists w, Json.get_key (Json.objectValue m) k Json.nullValue = Ret w /\ well_typed w.
Proof.
  intros Hm. unfold Json.get_key. cbn [Json.at_key mbind res_bind]. eexists. split; [done|].
  induction Hm as [|[k' v'] m [_ Hv] Hm IH]; cbn; [constructor|]. by destruct (bytes_cmp k k'); [|constructor|].
Qed.

Lemma object_set_typed m k w : well_typed (Json.objectValue m) -> well_typed w ->
  exists m', Json.set_key (Json.objectValue m) (cstr k) w = Ret (Json.objectValue m') /\ well_typed (Json.objectValue m').
Proof.
  intros Hm Hw. inversion Hm as [| | | | | | |m0 Hwf Hall E]. subst m0. eexists. split; [done|]. constructor.
  { apply (map_put_wf bytes_cmp). exact Hwf. }
  apply map_put_Forall; [done|split; [apply cstr_is_no_nul|done]|]. intros k' v' _ [? _]. by split.
Qed.

(** ** The parser ends *)

Section total.
Context (f : Features) (negate_least : res Z) (Hneg : negate_least = wrapping_negation).

Definition len (r : Reader) : Z := Z.of_nat (length (current_ r)).

(** A call that has returned: it was successful unless it has added errors. *)
Definition returns (r : Reader) (p : res (bool * Json.Value * Reader)) : Prop :=
  exists ok v r' es, p = Ret (ok, v, r') /\ len r' <= len r /\ well_typed v
    /\ errors_ r' = errors_ r ++ es /\ (ok = true <-> es = []).

Lemma returns_true r v r' : len r' <= len r -> errors_ r' = errors_ r -> well_typed v -> returns r (Ret (true, v, r')).
Proof. intros Hl He Hv. exists true, v, r', []. rewrite app_nil_r. by split_and!. Qed.

Lemma returns_false r v r' es : len r' <= len r -> errors_ r' = errors_ r ++ es -> es <> [] -> well_typed v ->
  returns r (Ret (false, v, r')).
Proof. intros Hl He Hne Hv. by exists false, v, r', es. Qed.

Lemma returns_error r r1 v m t e : len r1 <= len r -> errors_ r1 = errors_ r -> well_typed v ->
  returns r (Ret (false, v, addError r1 m t e)).
Proof. intros Hl He Hv. eapply returns_false; [exact Hl|cbn; by rewrite He|done|done]. Qed.

Lemma returns_mono r0 r p : returns r p -> len r <= len r0 -> errors_ r = errors_ r0 -> returns r0 p.
Proof. intros (ok & v & r' & es & -> & Hl & Hv & He & Hok) Hr Hr'. exists ok, v, r', es. rewrite <- Hr'. split_and!; (done || lia). Qed.

Lemma fail_returns r0 r v k es : len r <= len r0 -> errors_ r = errors_ r0 ++ es -> es <> [] -> well_typed v ->
  returns r0 (fail v (recoverFromError r k)).
Proof.
  intros Hr He Hne Hv. unfold fail. destruct (recover_ret r k) as (r' & -> & Hl & He'). cbn [mbind res_bind].
  apply (returns_false _ _ _ es); [unfold len in *; lia|congruence|done|done].
Qed.

Lemma fail_error_returns r0 r v m t k e : len r <= len r0 -> errors_ r = errors_ r0 -> well_typed v ->
  returns r0 (fail v (recoverFromError (addError r m t e) k)).
Proof. intros Hr He Hv. eapply fail_returns; [exact Hr|cbn; by rewrite He|done|done]. Qed.

Lemma token_step r c t t' c' : readToken (current_ r) = (t, c) -> skip_comments t c = Ret (t', c') ->
  len (with_current r c') <= len r /\ (tok_type t' <> tokenEndOfStream -> len (with_current r c') < len r).
Proof.
  intros E E'. destruct (skip_comments_ret _ _ _ E) as (t1 & c1 & E1 & (H1 & H2 & _) & _). rewrite E' in E1. injection E1 as <- <-.
  unfold len. cbn. split; [lia|]. intros Ht. specialize (H2 Ht). lia.
Qed.

Lemma member_name_ret t : exists o, member_name f negate_least t = Ret o /\ forall x, o = Some x -> tok_type t <> tokenEndOfStream.
Proof.
  unfold member_name. destruct (tok_type t); try (by eexists).
  - destruct (decodeString_ret t) as [d ->]. by eexists.
  - destruct (allowNumericKeys_ f); [|by eexists]. destruct (decodeNumber_ret t) as (d & Ed & Hd); rewrite <- Hneg in Ed; rewrite Ed. cbn [mbind res_bind].
    destruct d as [v|e]; [|by eexists]. destruct (Hd v eq_refl) as (_ & s & ->). by eexists.
Qed.

Definition value_total (fuel : nat) : Prop :=
  forall v r, 3 * len r + 1 <= Z.of_nat fuel -> len r < 2^31 - 1 -> well_typed v -> returns r (readValue f negate_least fuel v r).
Definition object_total (fuel : nat) : Prop :=
  forall name m r, 3 * len r + 2 <= Z.of_nat fuel -> len r < 2^31 - 1 -> well_typed (Json.objectValue m) ->
    returns r (object_loop f negate_least fuel name (Json.objectValue m) r).
Definition array_total (fuel : nat) : Prop :=
  forall l r, 3 * len r + 2 <= Z.of_nat fuel -> Z.of_nat (length l) + len r < 2^31 - 1 -> Forall well_typed l ->
    returns r (array_loop f negate_least fuel (Z.of_nat (length l)) (Json.arrayValue (Json.dense 0 l)) r).

Lemma read_array_total fuel : array_total fuel -> forall r, 3 * len r + 3 <= Z.of_nat (S fuel) -> len r < 2^31 - 1 ->
  returns r (readArray f negate_least (S fuel) (Json.arrayValue []) r).
Proof.
  intros HA r Hf Hl. cbn [readArray]. set (r1 := with_current r (skipSpaces (current_ r))).
  assert (len r1 <= len r) as H1 by (unfold len; cbn; pose proof (skipSpaces_shorter (current_ r)); lia).
  destruct (_ =? 93).
  - destruct (readToken (current_ r1)) as [t c] eqn:E. apply readToken_shorter in E as (? & _ & _).
    apply returns_true; [unfold len in *; cbn in *; lia|done|apply (wt_array []); constructor].
  - eapply returns_mono; [|exact H1|done]. apply (HA [] r1); [lia|cbn; lia|constructor].
Qed.

Lemma value_step fuel : object_total fuel -> array_total (pred fuel) -> (1 <= fuel)%nat -> value_total (S fuel).
Proof.
  intros HO HA H1 v r Hf Hl Hv. cbn [readValue].
  destruct (skipCommentTokens_ret f (current_ r)) as (t & c & -> & Hc1 & Hc2 & Hc3). cbn [mbind res_bind].
  set (r1 := with_current r c). assert (len r1 <= len r) as Hr1 by (unfold len; cbn; lia).
  assert (tok_type t <> tokenEndOfStream -> len r1 + 1 <= len r) as Hr2 by (intros Ht; specialize (Hc2 Ht); unfold len; cbn; lia).
  destruct (tok_type t) eqn:Et; try (by apply returns_error).
  - specialize (Hr2 ltac:(done)). eapply returns_mono; [apply HO; [lia|lia|by repeat constructor]|lia|done].
  - specialize (Hr2 ltac:(done)). destruct fuel as [|fuel]; [lia|].
    eapply returns_mono; [apply read_array_total; [exact HA|lia|lia]|lia|done].
  - destruct (decodeString_ret t) as [[s|[m e]] ->]; cbn [mbind res_bind]; [apply returns_true; [done|done|apply Value_string_typed]|by apply returns_error].
  - destruct (decodeNumber_ret t) as (d & Ed & Hd); rewrite <- Hneg in Ed; rewrite Ed. cbn [mbind res_bind].
    destruct d as [d|[m e]]; [apply returns_true; [done|done|by apply Hd]|by apply returns_error].
  - apply returns_true; [done|done|constructor].
  - apply returns_true; [done|done|constructor].
  - apply returns_true; [done|done|constructor].
  - destruct (allowDroppedNullPlaceholders_ f); [|by apply returns_error].
    apply returns_true; [unfold len; cbn; lia|done|constructor].
Qed.

Lemma array_step fuel : value_total fuel -> array_total fuel -> array_total (S fuel).
Proof.
  intros HV HA l r Hf Hl Hall. cbn [array_loop]. fold (readValue f negate_least). unfold int_add.
  assert (0 <= len r) as H0 by (unfold len; lia).
  rewrite decide_True by lia. cbn [mbind res_bind]. rewrite dense_get. cbn [mbind res_bind].
  destruct (HV Json.nullValue r) as (ok & w & r1 & es & -> & Hr1 & Hw & He & Hok); [lia|lia|constructor|]. cbn [mbind res_bind].
  rewrite dense_set. cbn [mbind res_bind].
  assert (well_typed (Json.arrayValue (Json.dense 0 (l ++ [w])))) as Hlw by (constructor; apply Forall_app; by repeat constructor).
  destruct ok; cbn [negb]; [|eapply fail_returns; [exact Hr1|exact He|by intros ->; destruct Hok as [_ Hok]; specialize (Hok eq_refl)|done]].
  rewrite (proj1 Hok eq_refl), app_nil_r in He. destruct (readToken (current_ r1)) as [t c] eqn:E.
  destruct (skip_comments_ret _ _ _ E) as (t' & c' & Es & _). rewrite Es. cbn [mbind res_bind].
  destruct (token_step _ _ _ _ _ E Es) as [Ht1 Ht2]. set (r2 := with_current r1 c') in *.
  case_decide as Hbad; [by apply fail_error_returns; [lia|..]|]. case_decide as Hend; [by apply returns_true; [lia|..]|].
  assert (tok_type t' = tokenArraySeparator) as Hsep by (destruct (decide (tok_type t' = tokenArraySeparator)); tauto).
  specialize (Ht2 ltac:(congruence)). apply (returns_mono _ r2); [|lia|done].
  replace (Z.of_nat (length l) + 1) with (Z.of_nat (length (l ++ [w]))) by (rewrite length_app; cbn; lia).
  apply HA; [lia|rewrite length_app; cbn; lia|apply Forall_app; by repeat constructor].
Qed.

Lemma object_step fuel : value_total fuel -> object_total fuel -> object_total (S fuel).
Proof.
  intros HV HO name m r Hf Hl Hm. cbn [object_loop]. fold (readValue f negate_least). destruct (readToken (current_ r)) as [t c] eqn:E.
  destruct (skip_comments_ret _ _ _ E) as (t' & c' & Es & _). rewrite Es. cbn [mbind res_bind].
  destruct (token_step _ _ _ _ _ E Es) as [Ht1 Ht2]. set (r1 := with_current r c') in *.
  case_decide as Hend; [by apply returns_true|].
  destruct (member_name_ret t') as (o & -> & Ho). cbn [mbind res_bind].
  destruct o as [[k|[msg e]]|]; [|by apply fail_error_returns|by apply fail_error_returns].
  specialize (Ht2 (Ho _ eq_refl)). destruct (readToken (current_ r1)) as [t2 c2] eqn:E2.
  apply readToken_shorter in E2 as (Hc2 & _ & _). set (r2 := with_current r1 c2).
  assert (len r2 <= len r1) as Hr2 by (unfold len, r2; cbn [current_ with_current]; lia).
  case_decide as Hcolon; [apply fail_error_returns; [lia|done|done]|].
  inversion Hm as [| | | | | | |m0 Hwf Hall Em]. subst m0. destruct (object_get_typed m (cstr k) Hall) as (w0 & -> & Hw0).
  cbn [mbind res_bind]. destruct (HV w0 r2) as (ok & w & r3 & es & -> & Hr3 & Hw & He & Hok); [lia|lia|done|]. cbn [mbind res_bind].
  destruct (object_set_typed m k w Hm Hw) as (m' & -> & Hm'). cbn [mbind res_bind].
  change (errors_ r2) with (errors_ r) in He.
  destruct ok; cbn [negb]; [|apply (fail_returns _ _ _ _ es); [lia|exact He|by intros ->; destruct Hok as [_ Hok]; specialize (Hok eq_refl)|done]].
  rewrite (proj1 Hok eq_refl), app_nil_r in He. destruct (readToken (current_ r3)) as [t4 c4] eqn:E4.
  set (r4 := with_current r3 c4). assert (len r4 <= len r3) as Hr4.
  { apply readToken_shorter in E4 as (? & _ & _). unfold len, r4. cbn [current_ with_current]. lia. }
  case_decide as Hbad; [apply fail_error_returns; [lia|done|done]|].
  destruct (skip_comments_ret _ _ _ E4) as (t5 & c5 & Es5 & _). rewrite Es5. cbn [mbind res_bind].
  destruct (token_step _ _ _ _ _ E4 Es5) as [Ht5 _]. change (with_current r4 c5) with (with_current r3 c5).
  case_decide as Hobj; [apply returns_true; [lia|done|done]|].
  eapply returns_mono; [apply HO; [lia|lia|done]|lia|done].
Qed.

Lemma parser_total fuel : value_total fuel /\ object_total fuel /\ array_total fuel.
Proof.
  induction fuel as [fuel IH] using lt_wf_ind. assert (forall r, 0 <= len r) as H0 by (intros r; unfold len; lia).
  destruct fuel as [|fuel].
  { split; [|split]; [intros v r Hf|intros n m r Hf|intros l r Hf]; specialize (H0 r); lia. }
  destruct (IH fuel ltac:(lia)) as (HV & HO & HA). split; [|split; [by apply object_step|by apply array_step]].
  destruct fuel as [|fuel]; [|apply value_step; [done|apply (IH fuel); lia|lia]].
  intros v r Hf Hl Hv. pose proof (H0 r) as Hr. assert (len r = 0) as Hz by lia. unfold len in Hz.
  destruct r as [[|x c] es]; [|cbn in Hz; lia]. cbn [readValue current_]. unfold skipCommentTokens, skip_comments.
  destruct (allowComments_ f); cbn; by apply returns_error.
Qed.
End total.

Lemma getline_shorter s : (length (getline_eof s) <= length s)%nat.
Proof. induction s as [|c s IH]; cbn; [lia|]. destruct (_ =? 255); cbn; lia. Qed.

Lemma parse_returns f document root : Z.of_nat (length document) < 2^31 - 1 -> well_typed root ->
  exists ok v r, parse f wrapping_negation document root = Ret (ok, v, r) /\ well_typed v /\ (ok = true <-> errors_ r = []).
Proof.
  intros Hl Hv. unfold parse. destruct (parser_total f _ eq_refl (parse_fuel document)) as (HV & _ & _).
  destruct (HV root (mkReader document [])) as (ok & v & r & es & -> & Hr & Hw & He & Hok);
    [unfold len, parse_fuel; cbn; lia|done|done|]. cbn [mbind res_bind].
  destruct (skipCommentTokens_ret f (current_ r)) as (t & c & -> & _). cbn [mbind res_bind]. cbn in He.
  destruct (_ && _).
  - eexists _, _, _. split; [done|]. split; [done|]. cbn. split; [done|]. by intros []%app_nil.
  - exists ok, v, (with_current r c). split; [done|]. split; [done|]. cbn. by rewrite He.
Qed.

(** ** What the undefined negation leaves undefined *)

(** *** What is left to read is a suffix of the document *)

Lemma skipSpaces_suffix c : skipSpaces c `suffix_of` c.
Proof. induction c as [|x c IH]; cbn; [done|]. destruct (is_blank x); [by apply suffix_cons_r|done]. Qed.
Lemma drop_suffix {A} n (c : list A) : drop n c `suffix_of` c.
Proof. exists (take n c). by rewrite take_drop. Qed.
Lemma match_suffix p c : (match_ p c).2 `suffix_of` c.
Proof. unfold match_. repeat case_decide; [done|apply drop_suffix|done]. Qed.
Lemma c_comment_suffix c : c_comment_loop c `suffix_of` c.
Proof. induction c as [|x c IH]; cbn; [done|]. destruct (_ && _); by apply suffix_cons_r. Qed.
Lemma cpp_comment_suffix c : cpp_comment_loop c `suffix_of` c.
Proof. induction c as [|x c IH]; cbn; [done|]. destruct (_ || _); by apply suffix_cons_r. Qed.
Lemma getNextChar_suffix c : (getNextChar c).2 `suffix_of` c.
Proof. destruct c; [done|]. by apply suffix_cons_r. Qed.
Lemma readComment_suffix c : (readComment c).2 `suffix_of` c.
Proof.
  unfold readComment. pose proof (getNextChar_suffix c) as Hc. destruct (getNextChar c) as [x s]. cbn in Hc. repeat case_match; cbn; [| |done].
  - unfold readCStyleComment. pose proof (getNextChar_suffix (c_comment_loop s)) as Hs. destruct (getNextChar _) as [y s']. cbn in *.
    etrans; [exact Hs|]. etrans; [apply c_comment_suffix|exact Hc].
  - etrans; [apply cpp_comment_suffix|done].
Qed.
Lemma readNumber_suffix c : readNumber c `suffix_of` c.
Proof. induction c as [|x c IH]; cbn; [done|]. destruct (_ || _); [by apply suffix_cons_r|done]. Qed.
Lemma string_loop_suffix n c x : (length c <= n)%nat -> (string_loop x c).2 `suffix_of` c.
Proof.
  revert c x. induction n as [|n IH]; intros [|y c] x Hn; cbn in *; try done; try lia.
  destruct (_ =? 92); [destruct c as [|z c]; cbn in *; [by apply suffix_nil|do 2 apply suffix_cons_r; apply IH; lia]|].
  apply suffix_cons_r. destruct (_ =? 34); [done|]. apply IH. lia.
Qed.

Lemma readToken_suffix c t c' : readToken c = (t, c') -> c' `suffix_of` c /\ tok_start t `suffix_of` c.
Proof.
  unfold readToken. pose proof (skipSpaces_suffix c) as Hs. pose proof (getNextChar_suffix (skipSpaces c)) as Hn.
  destruct (getNextChar (skipSpaces c)) as [x s]. cbn in Hn. set (r := if bz x =? 123 then _ else _).
  assert (r.2.2 `suffix_of` s) as Hr.
  { unfold r, readString. repeat case_match; cbn [fst snd]; try done.
    - by apply (string_loop_suffix (length s)).
    - apply readComment_suffix.
    - apply readNumber_suffix.
    - apply match_suffix.
    - apply match_suffix.
    - apply match_suffix. }
  destruct r as [ty [ok s']]. intros [= <- <-]. cbn in *. split; [|done]. etrans; [exact Hr|]. by etrans.
Qed.

Lemma comment_loop_suffix fuel t c t' c' : comment_loop fuel t c = Ret (t', c') ->
  c' `suffix_of` c /\ (t' = t \/ tok_start t' `suffix_of` c).
Proof.
  revert t c. induction fuel as [|fuel IH]; intros t c E; [done|]. cbn [comment_loop] in E. case_decide; [|injection E as <- <-; by split; [|left]].
  destruct (readToken c) as [t1 c1] eqn:E1. destruct (readToken_suffix _ _ _ E1) as [H1 H2]. destruct (IH _ _ E) as [H3 H4].
  split; [by etrans|]. right. destruct H4 as [->|H4]; [done|by etrans].
Qed.

(** The next token, after any comments. *)
Lemma next_token_suffix c0 t c t' c' : readToken c0 = (t, c) -> skip_comments t c = Ret (t', c') ->
  c' `suffix_of` c0 /\ tok_start t' `suffix_of` c0.
Proof.
  intros E E'. destruct (readToken_suffix _ _ _ E) as [H1 H2]. destruct (comment_loop_suffix _ _ _ _ _ E') as [H3 H4].
  split; [by etrans|]. destruct H4 as [->|H4]; [done|by etrans].
Qed.
Lemma skipCommentTokens_suffix f c0 t c : skipCommentTokens f c0 = Ret (t, c) -> c `suffix_of` c0 /\ tok_start t `suffix_of` c0.
Proof.
  unfold skipCommentTokens. destruct (readToken c0) as [t1 c1] eqn:E. destruct (allowComments_ f); [by apply next_token_suffix|].
  intros [= <- <-]. by eapply readToken_suffix.
Qed.

Lemma recover_suffix r k r' : recoverFromError r k = Ret r' -> current_ r' `suffix_of` current_ r.
Proof.
  unfold recoverFromError. generalize (S (length (current_ r))). intros fuel E. apply res_bind_Ret in E as (c & E & [= <-]). cbn.
  revert E. generalize (current_ r) as c0. induction fuel as [|fuel IH]; intros c0 E; [done|]. cbn [recover_loop] in E.
  destruct (readToken c0) as [t c1] eqn:E1. destruct (readToken_suffix _ _ _ E1) as [H1 _]. case_decide; [by injection E as <-|].
  etrans; [by apply IH|done].
Qed.

(** *** The two readings of a document *)

(** A token that is decoded as a negative integer. *)
Definition negative_integer (t : Token) : bool :=
  negb (is_double_text (tok_text t)) && match tok_text t with c :: _ => bz c =? 45 | [] => false end.

Lemma decodeNumber_cpp t : decodeNumber cpp_negation t = if negative_integer t then Undef else decodeNumber wrapping_negation t.
Proof.
  unfold decodeNumber, negative_integer. destruct (is_double_text _); [done|]. cbn [negb andb].
  by destruct (match tok_text t with [] => false | _ => _ end).
Qed.

Lemma negative_has_minus t c : negative_integer t = true -> tok_start t `suffix_of` c -> zb 45 ∈ c.
Proof.
  unfold negative_integer. intros [_ Ht]%andb_true_iff [k ->]. apply elem_of_app. right.
  destruct (tok_text t) as [|x s] eqn:E; [done|]. apply Z.eqb_eq in Ht.
  assert (x ∈ tok_text t) as Hx by (rewrite E; left). unfold tok_text, between in Hx. apply (sublist_subseteq _ _ (sublist_take _ _)) in Hx.
  by rewrite <- Ht, zb_bz.
Qed.

Section agree.
Context (f : Features).

(** A call from [c] on in C++ is the one with a negation that wraps around, or
    its behaviour is undefined and there is a minus sign. *)
Definition agree (c : Location) (p q : res (bool * Json.Value * Reader)) : Prop :=
  (p = q \/ (p = Undef /\ zb 45 ∈ c)) /\ forall ok v r', q = Ret (ok, v, r') -> current_ r' `suffix_of` c.

Lemma agree_same c p : (forall ok v r', p = Ret (ok, v, r') -> current_ r' `suffix_of` c) -> agree c p p.
Proof. split; [by left|done]. Qed.
Lemma agree_ret c ok v r : current_ r `suffix_of` c -> agree c (Ret (ok, v, r)) (Ret (ok, v, r)).
Proof. intros Hc. apply agree_same. by intros ? ? ? [= _ _ <-]. Qed.

Lemma agree_mono c c' p q : agree c' p q -> c' `suffix_of` c -> agree c p q.
Proof.
  intros [H1 H2] Hs. split; [|intros ok v r' E; etrans; [by eapply H2|done]]. destruct H1 as [->|[-> Hm]]; [by left|right; split; [done|]].
  destruct Hs as [k ->]. apply elem_of_app. by right.
Qed.

Lemma agree_bind c p q k k' : agree c p q ->
  (forall ok v r', current_ r' `suffix_of` c -> agree c (k (ok, v, r')) (k' (ok, v, r'))) -> agree c (x ← p; k x) (x ← q; k' x).
Proof.
  intros [Hp Hq] Hk. assert (forall x, q = Ret x -> agree c (k x) (k' x)) as Hk'.
  { intros [[ok v] r'] E. by apply Hk, (Hq ok v). }
  destruct Hp as [->|[-> Hm]].
  - destruct q as [x| | |]; [by apply Hk'|by apply agree_same..].
  - split; [right; by split|]. intros ok v r' E. apply res_bind_Ret in E as (x & E & E'). destruct (Hk' x E) as [_ Hs]. by eapply Hs.
Qed.

(** What comes before. *)
Lemma agree_after {A} c (m m' : res A) k k' : m = m' \/ (m = Undef /\ zb 45 ∈ c) -> (forall x, m' = Ret x -> agree c (k x) (k' x)) ->
  agree c (x ← m; k x) (x ← m'; k' x).
Proof.
  intros [->|[-> Hm]] Hk; [destruct m' as [x| | |]; [by apply Hk|by apply agree_same..]|]. split; [right; by split|].
  intros ok v r' E. apply res_bind_Ret in E as (x & E & E'). destruct (Hk x E) as [_ Hs]. by eapply Hs.
Qed.
Lemma agree_common {A} c (m : res A) k k' : (forall x, m = Ret x -> agree c (k x) (k' x)) -> agree c (x ← m; k x) (x ← m; k' x).
Proof. apply agree_after. by left. Qed.

Lemma agree_fail c v r k : current_ r `suffix_of` c -> agree c (fail v (recoverFromError r k)) (fail v (recoverFromError r k)).
Proof.
  intros Hc. apply agree_same. intros ok v' r' E. apply res_bind_Ret in E as (r1 & E%recover_suffix & [= _ _ <-]). by etrans.
Qed.

Lemma decodeNumber_agree c t : tok_start t `suffix_of` c ->
  decodeNumber cpp_negation t = decodeNumber wrapping_negation t \/ (decodeNumber cpp_negation t = Undef /\ zb 45 ∈ c).
Proof.
  intros Ht. rewrite decodeNumber_cpp. destruct (negative_integer t) eqn:En; [|by left]. right. split; [done|]. by eapply negative_has_minus.
Qed.

Lemma member_name_agree c t : tok_start t `suffix_of` c ->
  member_name f cpp_negation t = member_name f wrapping_negation t \/ (member_name f cpp_negation t = Undef /\ zb 45 ∈ c).
Proof.
  intros Ht. unfold member_name. destruct (tok_type t); try by left. destruct (allowNumericKeys_ f); [|by left].
  destruct (decodeNumber_agree c t Ht) as [->|[-> Hm]]; [by left|by right].
Qed.

Context (cpp wrapping : res Z) (Hcpp : cpp = cpp_negation) (Hwrap : wrapping = wrapping_negation).

Definition values_agree (fuel : nat) : Prop := forall v r, agree (current_ r) (readValue f cpp fuel v r) (readValue f wrapping fuel v r).
Definition objects_agree (fuel : nat) : Prop := forall name v r,
  agree (current_ r) (object_loop f cpp fuel name v r) (object_loop f wrapping fuel name v r).
Definition reads_agree (fuel : nat) : Prop := forall v r, agree (current_ r) (readArray f cpp fuel v r) (readArray f wrapping fuel v r).
Definition arrays_agree (fuel : nat) : Prop := forall i v r,
  agree (current_ r) (array_loop f cpp fuel i v r) (array_loop f wrapping fuel i v r).

Lemma value_agree fuel : objects_agree fuel -> reads_agree fuel -> values_agree (S fuel).
Proof.
  intros HO HA v r. cbn [readValue]. fold (object_loop f cpp) (object_loop f wrapping) (readArray f cpp) (readArray f wrapping).
  apply agree_common. intros [t c] E. destruct (skipCommentTokens_suffix _ _ _ _ E) as [Hc Ht]. cbv zeta.
  destruct (tok_type t); try by apply agree_ret.
  - by eapply agree_mono; [apply HO|].
  - by eapply agree_mono; [apply HA|].
  - apply agree_common. intros [s|[m e]] _; by apply agree_ret.
  - rewrite Hcpp, Hwrap. apply agree_after; [by apply decodeNumber_agree|]. intros [s|[m e]] _; by apply agree_ret.
  - destruct (allowDroppedNullPlaceholders_ f); by apply agree_ret.
Qed.

Lemma array_agree fuel : values_agree fuel -> arrays_agree fuel -> arrays_agree (S fuel).
Proof.
  intros HV HA i v r. cbn [array_loop]. fold (readValue f cpp) (readValue f wrapping).
  apply agree_common. intros next _. apply agree_common. intros v0 _. apply agree_bind; [apply HV|]. intros ok v1 r1 H1.
  apply agree_common. intros v2 _. destruct ok; cbn [negb]; [|by apply agree_fail].
  destruct (readToken (current_ r1)) as [t c] eqn:E. apply agree_common. intros [t' c'] E'.
  destruct (next_token_suffix _ _ _ _ _ E E') as [Hc _]. assert (c' `suffix_of` current_ r) as Hc' by by etrans.
  case_decide; [by apply agree_fail|]. case_decide; [by apply agree_ret|]. by eapply agree_mono; [apply HA|].
Qed.

Lemma read_array_agree fuel : arrays_agree fuel -> reads_agree (S fuel).
Proof.
  intros HA v r. cbn [readArray]. fold (array_loop f cpp) (array_loop f wrapping).
  assert (current_ (with_current r (skipSpaces (current_ r))) `suffix_of` current_ r) as H1 by apply skipSpaces_suffix.
  destruct (_ =? 93).
  - destruct (readToken _) as [t c] eqn:E. apply agree_ret. destruct (readToken_suffix _ _ _ E) as [Hc _]. by etrans.
  - by eapply agree_mono; [apply HA|].
Qed.

Lemma object_agree fuel : values_agree fuel -> objects_agree fuel -> objects_agree (S fuel).
Proof.
  intros HV HO name v r. cbn [object_loop]. fold (readValue f cpp) (readValue f wrapping).
  destruct (readToken (current_ r)) as [t c] eqn:E. apply agree_common. intros [t' c'] E'.
  destruct (next_token_suffix _ _ _ _ _ E E') as [Hc Ht]. case_decide; [by apply agree_ret|].
  rewrite Hcpp, Hwrap. apply agree_after; [by apply member_name_agree|]. rewrite <- Hcpp, <- Hwrap.
  intros [[k|[m e]]|] _; [|by apply agree_fail|by apply agree_fail]. cbn [current_ with_current].
  destruct (readToken c') as [t2 c2] eqn:E2. destruct (readToken_suffix _ _ _ E2) as [H2 _].
  assert (c2 `suffix_of` current_ r) as Hc2 by by etrans. case_decide; [by apply agree_fail|].
  apply agree_common. intros v0 _. apply agree_bind; [by eapply agree_mono; [apply HV|]|]. intros ok v1 r1 H1.
  apply agree_common. intros v2 _. destruct ok; cbn [negb]; [|by apply agree_fail].
  destruct (readToken (current_ r1)) as [t3 c3] eqn:E3. destruct (readToken_suffix _ _ _ E3) as [H3 _].
  case_decide; [apply agree_fail; by etrans|]. apply agree_common. intros [t4 c4] E4.
  destruct (next_token_suffix _ _ _ _ _ E3 E4) as [Hs4 _]. assert (c4 `suffix_of` current_ r) as Hc4 by by etrans.
  case_decide; [by apply agree_ret|]. by eapply agree_mono; [apply HO|].
Qed.

Lemma parser_agrees fuel : values_agree fuel /\ objects_agree fuel /\ reads_agree fuel /\ arrays_agree fuel.
Proof.
  induction fuel as [|fuel (HV & HO & HR & HA)].
  { split; [|split; [|split]]; repeat intro; apply agree_same; intros ? ? ?; cbn; discriminate. }
  split; [by apply value_agree|]. split; [by apply object_agree|]. split; [by apply read_array_agree|by apply array_agree].
Qed.
End agree.

Lemma parse_agrees f document root : parse f cpp_negation document root = parse f wrapping_negation document root
  \/ (parse f cpp_negation document root = Undef /\ zb 45 ∈ document).
Proof.
  unfold parse. destruct (parser_agrees f _ _ eq_refl eq_refl (parse_fuel document)) as [HV _].
  destruct (HV root (mkReader document [])) as [[->|[-> Hm]] _]; [by left|by right].
Qed.

Lemma getline_incl s c : c ∈ getline_eof s -> c ∈ s.
Proof.
  induction s as [|x s IH]; cbn; [done|]. destruct (_ =? 255); [intros Hc; by apply elem_of_nil in Hc|].
  rewrite !elem_of_cons. tauto.
Qed.

(** ** Properties *)

(** C26: on any document of less than 2 GB, even one with NULs or broken off
    anywhere, the parser ends, in a C++ whose negation wraps around, without a
    reading past the end, an exception or any other overflow; the value it
    leaves in the root is well-typed, with dense arrays, sorted members and
    integers in range; and it returns true exactly when it has reported no
    error.  In standard C++ it does the same, or its behaviour is undefined: it
    is undefined at every number that is decoded as a negative integer, whose
    limit is computed as [-minLargestInt], and never if there is no minus sign
    in the document. *)
Theorem parse_stream_total f contents root : Z.of_nat (length contents) < 2^31 - 1 -> well_typed root ->
  exists ok v r, parse_stream f wrapping_negation contents root = Ret (ok, v, r) /\ well_typed v /\ (ok = true <-> errors_ r = [])
  /\ (parse_stream f cpp_negation contents root = Ret (ok, v, r)
      \/ (parse_stream f cpp_negation contents root = Undef /\ zb 45 ∈ contents))
  /\ forall t, negative_integer t = true -> decodeNumber cpp_negation t = Undef.
Proof.
  intros Hl Hv. unfold parse_stream. pose proof (getline_shorter contents).
  destruct (parse_returns f (getline_eof contents) root) as (ok & v & r & E & Hw & Hok); [lia|done|]. exists ok, v, r.
  split; [done|]. split; [done|]. split; [done|]. split; [|intros t Ht; by rewrite decodeNumber_cpp, Ht].
  destruct (parse_agrees f (getline_eof contents) root) as [->|[-> Hm]]; [by left|right]. split; [done|by apply getline_incl].
Qed.

(** A document that ends within an escape. *)
Definition broken_document : bytes := lit "[1, {" ++ [quote] ++ lit "a\u12".

Lemma parse_stream_total_witness : exists v r, parse_stream Features_all cpp_negation broken_document Json.nullValue = Ret (false, v, r)
  /\ well_typed v /\ length (errors_ r) = 1%nat.
Proof.
  destruct (parse_stream_total Features_all broken_document Json.nullValue) as (ok & v & r & E & Hv & Hok & [Ec|[_ Hm]] & _);
    [vm_compute; reflexivity|constructor| |].
  2:{ exfalso. revert Hm. apply (bool_decide_unpack (zb 45 ∉ broken_document)). vm_compute. exact I. }
  assert (ok = false /\ length (errors_ r) = 1%nat) as [-> He] by (revert E; vm_compute; by intros [= <- <- <-]).
  exists v, r. split; [exact Ec|]. split; [exact Hv|exact He].
Defined.
