(* ===== verification/JsonWriter.v ===== *)
(** * JsonWriter: [Json::FastWriter] of jsoncpp.cpp, and the round trip

    The compact writer, and what the reader makes of the text it writes. *)

From S2P Require Import Prelude CLib Double JsonValue JsonText JsonReader.

(** ** [FastWriter] *)

Record FastWriter := mkFastWriter {
  yamlCompatiblityEnabled_ : bool;
  dropNullPlaceholders_ : bool;
  omitEndingLineFeed_ : bool;
}.
Definition new_FastWriter : FastWriter := mkFastWriter false false false.
Definition enableYAMLCompatibility (w : FastWriter) : FastWriter :=
  mkFastWriter true (dropNullPlaceholders_ w) (omitEndingLineFeed_ w).
Definition dropNullPlaceholders (w : FastWriter) : FastWriter :=
  mkFastWriter (yamlCompatiblityEnabled_ w) true (omitEndingLineFeed_ w).
Definition omitEndingLineFeed (w : FastWriter) : FastWriter :=
  mkFastWriter (yamlCompatiblityEnabled_ w) (dropNullPlaceholders_ w) true.

(** Texts with commas between them. *)
Definition commas (l : list bytes) : bytes :=
  match l with [] => [] | x :: l => x ++ concat (map (fun y => lit "," ++ y) l) end.

Section writer.
Context (w : FastWriter).

Definition null_text : bytes := if dropNullPlaceholders_ w then [] else lit "null".

(** What [writeValue] appends.  A missing element is the null value. *)
Fixpoint writeValue (v : Json.Value) : bytes :=
  match v with
  | Json.nullValue => null_text
  | Json.intValue z => valueToString_int z
  | Json.uintValue z => valueToString_uint z
  | Json.realValue d => valueToString_double d
  | Json.stringValue s => valueToQuotedString s
  | Json.booleanValue b => valueToString_bool b
  | Json.arrayValue m =>
      let texts := (fix go m := match m with [] => [] | (i, v) :: m => (i, writeValue v) :: go m end) m in
      let size := i32 (Json.size v) in
      lit "[" ++ commas (map (fun index => default null_text (map_find Z.compare (Z.of_nat index) texts)) (seq 0 (Z.to_nat size)))
        ++ lit "]"
  | Json.objectValue m =>
      let texts := (fix go m := match m with [] => [] | (k, v) :: m => (k, writeValue v) :: go m end) m in
      lit "{" ++ commas (map (fun name => valueToQuotedString (Some name)
          ++ (if yamlCompatiblityEnabled_ w then lit ": " else lit ":")
          ++ default null_text (map_find bytes_cmp name texts)) m.*1)
        ++ lit "}"
  end.

Definition write (root : Json.Value) : bytes :=
  writeValue root ++ (if omitEndingLineFeed_ w then [] else [zb 10]).
End writer.

Example write_sample : write new_FastWriter (Json.arrayValue (Json.dense 0
  [Json.intValue (-7); Json.objectValue [(lit "a", Json.booleanValue true); (lit "b", Json.nullValue)]]))
  = lit "[-7,{" ++ [quote] ++ lit "a" ++ [quote] ++ lit ":true," ++ [quote] ++ lit "b" ++ [quote] ++ lit ":null}]" ++ [zb 10].
Proof. vm_compute. reflexivity. Qed.

(** ** Plain values *)

Section plain.
Context (negate_least : res Z).

(** What can be written so that it is read back: no real numbers, no null
    strings, and negative integers only if negation wraps around. *)
Inductive plain : Json.Value -> Prop :=
  | plain_null : plain Json.nullValue
  | plain_int z : Json.minInt64 <= z <= Json.maxInt64 -> (z < 0 -> negate_least = wrapping_negation) -> plain (Json.intValue z)
  | plain_uint z : 0 <= z <= Json.maxUInt64 -> plain (Json.uintValue z)
  | plain_string s : no_nul s -> Z.of_nat (length s) < Json.maxInt -> plain (Json.stringValue (Some s))
  | plain_bool b : plain (Json.booleanValue b)
  | plain_array l : Forall plain l -> Z.of_nat (length l) < 2^31 -> plain (Json.arrayValue (Json.dense 0 l))
  | plain_object m : map_wf bytes_cmp m -> Forall (fun kv => no_nul kv.1 /\ plain kv.2) m -> plain (Json.objectValue m).

Lemma plain_induction (P : Json.Value -> Prop) :
  P Json.nullValue ->
  (forall z, Json.minInt64 <= z <= Json.maxInt64 -> (z < 0 -> negate_least = wrapping_negation) -> P (Json.intValue z)) ->
  (forall z, 0 <= z <= Json.maxUInt64 -> P (Json.uintValue z)) ->
  (forall s, no_nul s -> Z.of_nat (length s) < Json.maxInt -> P (Json.stringValue (Some s))) ->
  (forall b, P (Json.booleanValue b)) ->
  (forall l, Forall plain l -> Forall P l -> Z.of_nat (length l) < 2^31 -> P (Json.arrayValue (Json.dense 0 l))) ->
  (forall m, map_wf bytes_cmp m -> Forall (fun kv => no_nul kv.1 /\ plain kv.2 /\ P kv.2) m -> P (Json.objectValue m)) ->
  forall v, plain v -> P v.
Proof.
  intros H1 H2 H3 H4 H5 H6 H7. fix IH 2. intros v Hv. destruct Hv as [|z Hz Hn|z Hz|s Hs Hl|b|l Hl Hn|m Hwf Hm]; [done|auto..| |].
  - apply H6; [done| |done]. clear Hn. induction Hl as [|x l Hx Hl IHl]; constructor; [by apply IH|exact IHl].
  - apply H7; [done|]. clear Hwf. induction Hm as [|kv m [Hk Hkv] Hm IHm]; constructor; [|exact IHm].
    split; [done|]. split; [done|by apply IH].
Qed.
End plain.

(** The value that the reader gives an integer: signed up to [maxInt], the
    negative ones included, and unsigned above. *)
Definition canon_int (z : Z) : Json.Value := if z <=? Json.maxInt then Json.intValue z else Json.uintValue z.
Fixpoint canon (v : Json.Value) : Json.Value :=
  match v with
  | Json.intValue z | Json.uintValue z => canon_int z
  | Json.arrayValue m => Json.arrayValue ((fix go m := match m with [] => [] | (i, v) :: m => (i, canon v) :: go m end) m)
  | Json.objectValue m => Json.objectValue ((fix go m := match m with [] => [] | (k, v) :: m => (k, canon v) :: go m end) m)
  | _ => v
  end.

Lemma canon_array l : canon (Json.arrayValue (Json.dense 0 l)) = Json.arrayValue (Json.dense 0 (map canon l)).
Proof.
  cbn [canon]. f_equal. generalize 0. induction l as [|v l IH]; intros i; cbn [Json.dense map]; [done|]. by rewrite IH.
Qed.

Definition canon_members (m : list (bytes * Json.Value)) : list (bytes * Json.Value) := map (fun kv => (kv.1, canon kv.2)) m.
Lemma canon_object m : canon (Json.objectValue m) = Json.objectValue (canon_members m).
Proof. cbn [canon]. f_equal. induction m as [|[k v] m IH]; cbn [map canon_members]; [done|]. by rewrite IH. Qed.

(** ** The text *)

Section text.
Context (w : FastWriter).

Lemma writeValue_array l : Z.of_nat (length l) < 2^31 ->
  writeValue w (Json.arrayValue (Json.dense 0 l)) = lit "[" ++ commas (map (writeValue w) l) ++ lit "]".
Proof.
  intros Hl. cbn [writeValue]. rewrite Json.size_dense by lia.
  assert (i32 (Z.of_nat (length l)) = Z.of_nat (length l)) as ->.
  { unfold i32. rewrite Z.mod_small by lia. lia. }
  rewrite Nat2Z.id. do 2 f_equal. f_equal. clear Hl. change 0 with (Z.of_nat 0). generalize 0%nat.
  induction l as [|v l IH]; intros a; [done|]. cbn [Json.dense seq map length map_find]. rewrite Z.compare_refl. f_equal.
  rewrite <- (IH (S a)). replace (Z.of_nat a + 1) with (Z.of_nat (S a)) by lia.
  apply map_ext_in. intros i [Hi _]%in_seq. by rewrite (proj2 (Z.compare_gt_iff (Z.of_nat i) (Z.of_nat a))) by lia.
Qed.

Definition separator : bytes := if yamlCompatiblityEnabled_ w then lit ": " else lit ":".
Definition member_text (kv : bytes * Json.Value) : bytes :=
  valueToQuotedString (Some kv.1) ++ separator ++ writeValue w kv.2.

Lemma writeValue_object m : map_wf bytes_cmp m ->
  writeValue w (Json.objectValue m) = lit "{" ++ commas (map member_text m) ++ lit "}".
Proof.
  intros Hwf. cbn [writeValue]. do 2 f_equal. f_equal. unfold map_wf in Hwf.
  induction m as [|[k v] m IH]; [done|]. cbn [fmap list_fmap map fst map_find]. cbn [fmap list_fmap fst] in Hwf.
  apply StronglySorted_inv in Hwf as [Hwf Hk]. rewrite (cmp_refl (cmp:=bytes_cmp)). f_equal.
  rewrite <- IH by done. apply map_ext_in. intros k' Hk'. rewrite Forall_forall in Hk. specialize (Hk k' Hk').
  unfold cmp_lt in Hk. by rewrite (cmp_antisym (cmp:=bytes_cmp) k k'), Hk.
Qed.
End text.

(** ** Reading it back *)

(** *** Tokens *)

Definition delimits (rest : bytes) : Prop := match rest with c :: _ => is_digit c || in_number c = false | [] => True end.

Lemma skip_comments_none t c : tok_type t <> tokenComment -> skip_comments t c = Ret (t, c).
Proof. intros Ht. unfold skip_comments. cbn [comment_loop]. by rewrite decide_False. Qed.

Lemma first_token f c t c' : readToken c = (t, c') -> tok_type t <> tokenComment -> skipCommentTokens f c = Ret (t, c').
Proof. intros E Ht. unfold skipCommentTokens. rewrite E. destruct (allowComments_ f); [by apply skip_comments_none|done]. Qed.

Lemma match_app p rest : match_ p (p ++ rest) = (true, rest).
Proof.
  unfold match_. rewrite decide_False by (rewrite length_app; lia). rewrite take_app_length, drop_app_length.
  by rewrite decide_True.
Qed.

Lemma between_app a b : between (a ++ b) b = a.
Proof. unfold between. rewrite length_app. replace (length a + length b - length b)%nat with (length a) by lia. apply take_app_length. Qed.

Lemma readNumber_digits ds rest : Forall (fun c => is_digit c = true) ds -> delimits rest -> readNumber (ds ++ rest) = rest.
Proof.
  intros Hd Hr. induction Hd as [|c ds Hc _ IH]; cbn [app readNumber]; [|by rewrite Hc].
  destruct rest as [|c rest]; [done|]. cbn in *. by rewrite Hr.
Qed.

Lemma readToken_number c ds rest : is_digit c = true \/ c = zb 45 -> Forall (fun c => is_digit c = true) ds -> delimits rest ->
  readToken (c :: ds ++ rest) = (mkToken tokenNumber (c :: ds ++ rest) rest, rest).
Proof.
  intros Hc Hd Hr. unfold readToken.
  assert (is_blank c = false /\ (bz c =? 123) = false /\ (bz c =? 125) = false /\ (bz c =? 91) = false /\ (bz c =? 93) = false
    /\ (bz c =? 34) = false /\ (bz c =? 47) = false /\ is_digit c || (bz c =? 45) = true) as (E1 & E2 & E3 & E4 & E5 & E6 & E7 & E8).
  { destruct Hc as [Hc| ->]; [|by vm_compute]. unfold is_digit, is_blank in *. rewrite Hc. cbn zeta.
    apply andb_true_iff in Hc as [? ?]. split_and!; try lia. }
  cbn [skipSpaces]. rewrite E1. cbn [getNextChar]. rewrite E2, E3, E4, E5, E6, E7, E8. cbn [fst snd].
  by rewrite readNumber_digits.
Qed.

Lemma readToken_string body rest : (forall c, string_loop c (body ++ quote :: rest) = (true, rest)) ->
  readToken (quote :: body ++ quote :: rest) = (mkToken tokenString (quote :: body ++ quote :: rest) rest, rest).
Proof.
  intros E. change (readToken (quote :: ?s)) with
    (let '(ok, c) := readString s in (mkToken (if ok then tokenString else tokenError) (quote :: s) c, c)).
  unfold readString. by rewrite E.
Qed.

(** *** Integers *)

Lemma int_loop_digits s max v : Forall (fun c => is_digit c = true) s -> 0 <= v -> 10 <= max < 2^64 -> digits v s <= max ->
  int_loop s max v = IntValue (digits v s).
Proof.
  intros Hs. revert v. induction Hs as [|c s Hc Hs IH]; intros v Hv Hm Hd; [done|]. cbn [int_loop digits] in *. rewrite Hc in *.
  cbn [negb]. unfold is_digit in Hc. apply andb_true_iff in Hc as [Hc1 Hc2].
  assert (0 <= bz c - 48 <= 9) as Hdig by lia. set (d := bz c - 48) in *.
  assert (forall a t, Forall (fun c => is_digit c = true) t -> 0 <= a -> a <= digits a t /\ (t <> [] -> 10 * a <= digits a t)) as Hgrow.
  { intros a t Ht. revert a. induction Ht as [|x t Hx _ IHt]; intros a Ha; cbn [digits]; [split; [lia|done]|].
    rewrite Hx. unfold is_digit in Hx. apply andb_true_iff in Hx as [? ?].
    destruct (IHt (10 * a + (bz x - 48)) ltac:(lia)) as [? _]. split; [lia|intros; lia]. }
  destruct (Hgrow (10 * v + d) s Hs ltac:(lia)) as [Hg1 Hg2].
  pose proof (Z.div_mod max 10 ltac:(lia)) as Hdm. pose proof (Z.mod_pos_bound max 10 ltac:(lia)) as Hmb.
  assert (1 <= max / 10) as H1 by (apply Z.div_le_lower_bound; lia).
  assert ((max / 10 <=? v) && ((max / 10 <? v) || negb (bool_decide (s = [])) || (max mod 10 <? d)) = false) as ->.
  { apply andb_false_iff. destruct (Z.leb_spec (max / 10) v) as [Hle|]; [right|by left].
    assert (v = max / 10) as Ev by lia. rewrite !orb_false_iff. split; [split|].
    - lia.
    - apply negb_false_iff, bool_decide_eq_true. destruct s; [done|]. specialize (Hg2 ltac:(done)). lia.
    - lia. }
  unfold u64. rewrite Z.mod_small by lia. replace (v * 10 + d) with (10 * v + d) by lia. apply IH; lia.
Qed.

Lemma i64_neg n : 1 <= n <= 2^63 -> negate64 wrapping_negation (i64 n) = Ret (- n).
Proof.
  intros Hn. unfold negate64, i64, Json.minInt64. destruct (decide (n = 2^63)) as [->|Hne]; [done|].
  rewrite (Z.mod_small (n + 2^63)) by lia. rewrite decide_False by lia. f_equal. lia.
Qed.

Lemma not_double ds : Forall (fun c => is_digit c = true) ds -> existsb in_double ds = false /\ existsb (fun c => bz c =? 45) ds = false.
Proof.
  induction 1 as [|c ds Hc _ [IH1 IH2]]; [done|]. cbn [existsb]. rewrite IH1, IH2, !orb_false_r.
  unfold is_digit, in_double in *. apply andb_true_iff in Hc as [? ?]. split; [rewrite !orb_false_iff; lia|lia].
Qed.

(** The text of an integer, and what it is decoded to. *)
Definition int_text (z : Z) : bytes := if z <? 0 then lit "-" ++ decimal (- z) else decimal z.

Lemma decimal_cons n : 0 <= n < 10^20 -> exists c ds, decimal n = c :: ds /\ is_digit c = true
  /\ Forall (fun c => is_digit c = true) ds /\ Forall (fun c => is_digit c = true) (decimal n).
Proof.
  intros Hn. destruct (decimal_spec n Hn) as (Hd & _ & Hne & _). destruct (decimal n) as [|c ds]; [done|].
  pose proof Hd as [? ?]%list.Forall_cons. by exists c, ds.
Qed.

Lemma int_text_token negate_least z rest : Json.minInt64 <= z <= Json.maxUInt64 -> (z < 0 -> negate_least = wrapping_negation) -> delimits rest ->
  exists t, readToken (int_text z ++ rest) = (t, rest) /\ tok_type t = tokenNumber /\ decodeNumber negate_least t = Ret (inl (canon_int z)).
Proof.
  unfold Json.minInt64, Json.maxUInt64. intros Hz Hneg' Hr. unfold int_text. destruct (Z.ltb_spec z 0) as [Hneg|Hpos].
  - destruct (decimal_cons (- z) ltac:(lia)) as (c & ds & _ & _ & _ & Hds). change (lit "-" ++ decimal (- z)) with (zb 45 :: decimal (- z)).
    eexists. split; [apply (readToken_number (zb 45) (decimal (- z)) rest); [by right|done|done]|]. split; [done|].
    unfold decodeNumber, tok_text. cbn [tok_start tok_end]. change (zb 45 :: decimal (- z) ++ rest) with ((zb 45 :: decimal (- z)) ++ rest).
    rewrite between_app.
    assert (is_double_text (zb 45 :: decimal (- z)) = false) as ->.
    { destruct (not_double _ Hds) as [E1 E2]. change (existsb in_double (decimal (- z)) || existsb (fun c => bz c =? 45) (decimal (- z)) = false).
      by rewrite E1, E2. }
    cbv iota. change (bz (zb 45) =? 45) with true. cbv iota. change (drop 1 (zb 45 :: decimal (- z))) with (decimal (- z)).
    rewrite (Hneg' Hneg). change (z ← negate64 wrapping_negation Json.minInt64; Ret (u64 z)) with (Ret (2^63)). cbn [mbind res_bind].
    rewrite int_loop_digits by (done || lia || (rewrite digits_decimal; lia)).
    rewrite digits_decimal by lia. rewrite i64_neg by lia. cbn [mbind res_bind]. unfold canon_int. rewrite Z.opp_involutive.
    by rewrite (proj2 (Z.leb_le z Json.maxInt)) by (unfold Json.maxInt; lia).
  - destruct (decimal_cons z ltac:(lia)) as (c & ds & E & Hc & Htl & Hds). pose proof (digits_decimal z ltac:(lia)) as Edig. rewrite E in *.
    eexists. split; [apply (readToken_number c ds rest); [by left|done|done]|]. split; [done|].
    unfold decodeNumber, tok_text. cbn [tok_start tok_end]. change (c :: ds ++ rest) with ((c :: ds) ++ rest).
    rewrite between_app. unfold is_double_text. destruct (not_double _ Hds) as [-> _]. change (drop 1 (c :: ds)) with ds. destruct (not_double _ Htl) as [_ ->].
    cbn [orb]. assert ((bz c =? 45) = false) as -> by (unfold is_digit in Hc; apply andb_true_iff in Hc as [? ?]; lia).
    cbn [mbind res_bind].
    rewrite int_loop_digits; [|done|lia|done|rewrite Edig; unfold Json.maxUInt64; lia]. rewrite Edig. unfold canon_int.
    destruct (z <=? Json.maxInt) eqn:El; [|done]. do 3 f_equal. unfold i64, Json.maxInt in *. rewrite Z.mod_small by lia. lia.
Qed.

(** *** Strings *)

Lemma string_loop_char c c0 rest : exists c1, string_loop c0 (quote_char c ++ rest) = string_loop c1 rest.
Proof. destruct c; eexists; reflexivity. Qed.

Lemma string_loop_text s c0 rest : string_loop c0 (concat (map quote_char s) ++ quote :: rest) = (true, rest).
Proof.
  revert c0. induction s as [|c s IH]; intros c0; [done|]. cbn [map concat]. rewrite <- app_assoc.
  destruct (string_loop_char c c0 (concat (map quote_char s) ++ quote :: rest)) as [c1 ->]. apply IH.
Qed.

Lemma decode_char c fuel dec s tail : c <> NUL ->
  decode_string_loop (S fuel) dec (quote_char c ++ s) tail = decode_string_loop fuel (dec ++ [c]) s tail.
Proof. intros Hc. destruct c; (done || reflexivity). Qed.

Lemma decode_text s fuel dec tail : no_nul s -> (length s < fuel)%nat ->
  decode_string_loop fuel dec (concat (map quote_char s)) tail = Ret (inl (dec ++ s)).
Proof.
  revert fuel dec. induction s as [|c s IH]; intros fuel dec Hs Hf; destruct fuel as [|fuel]; cbn in Hf; try lia.
  { cbn. by rewrite app_nil_r. }
  cbn [map concat]. rewrite decode_char by (intros ->; apply Hs; by left).
  rewrite IH by (lia || (intros Hin; apply Hs; by right)). by rewrite <- app_assoc.
Qed.

Lemma quote_char_length c : (1 <= length (quote_char c))%nat.
Proof. destruct c; vm_compute; lia. Qed.

Lemma quoted_length s : (length s <= length (concat (map quote_char s)))%nat.
Proof. induction s as [|c s IH]; cbn; [lia|]. rewrite length_app. pose proof (quote_char_length c). lia. Qed.

Lemma string_token s rest : no_nul s -> exists t,
  readToken (valueToQuotedString (Some s) ++ rest) = (t, rest) /\ tok_type t = tokenString /\ decodeString t = Ret (inl s).
Proof.
  intros Hs. rewrite valueToQuotedString_eq, (cstr_no_nul s) by done. set (body := concat (map quote_char s)).
  replace (([quote] ++ body ++ [quote]) ++ rest) with (quote :: body ++ quote :: rest) by (cbn; by rewrite <- app_assoc).
  eexists. split; [apply readToken_string; intros c; apply string_loop_text|]. split; [done|].
  unfold decodeString, tok_text. cbn [tok_start tok_end].
  assert (between (quote :: body ++ quote :: rest) rest = quote :: body ++ [quote]) as ->.
  { replace (quote :: body ++ quote :: rest) with ((quote :: body ++ [quote]) ++ rest); [apply between_app|].
    cbn. by rewrite <- app_assoc. }
  assert (length (quote :: body ++ [quote]) - 2 = length body)%nat as -> by (cbn; rewrite length_app; cbn; lia).
  change (drop 1 (quote :: body ++ quote :: rest)) with (body ++ quote :: rest). rewrite take_app_length.
  unfold body. rewrite decode_text; [done|done|]. pose proof (quoted_length s). lia.
Qed.

(** *** Values *)

Section read_back.
Context (w : FastWriter) (f : Features) (negate_least : res Z) (Hnull : dropNullPlaceholders_ w = false).

(** The text of a value is read as the value. *)
Definition reads (v : Json.Value) : Prop :=
  (exists c s, writeValue w v = c :: s /\ is_blank c = false /\ (bz c =? 93) = false)
  /\ forall fuel v0 rest es, delimits rest -> (3 * length (writeValue w v) <= fuel)%nat ->
     readValue f negate_least fuel v0 (mkReader (writeValue w v ++ rest) es) = Ret (true, canon v, mkReader rest es).

Lemma reads_length v : reads v -> (1 <= length (writeValue w v))%nat.
Proof. intros [(c & s & -> & _) _]. cbn. lia. Qed.

Lemma reads_null : reads Json.nullValue.
Proof.
  unfold reads. cbn [writeValue]. unfold null_text. rewrite Hnull. split; [by eexists _, _|].
  intros [|fuel] v0 rest es _ Hf; [cbn in Hf; lia|]. cbn [readValue current_].
  assert (readToken (lit "null" ++ rest) = (mkToken tokenNull (lit "null" ++ rest) rest, rest)) as E.
  { change (readToken (lit "null" ++ rest)) with (let '(ok, c) := match_ (lit "ull") (lit "ull" ++ rest) in
      (mkToken (if ok then tokenNull else tokenError) (lit "null" ++ rest) c, c)). by rewrite match_app. }
  by rewrite (first_token _ _ _ _ E).
Qed.

Lemma reads_bool b : reads (Json.booleanValue b).
Proof.
  unfold reads. cbn [writeValue]. unfold valueToString_bool. split; [destruct b; by eexists _, _|].
  intros [|fuel] v0 rest es _ Hf; [destruct b; cbn in Hf; lia|]. cbn [readValue current_]. destruct b.
  - assert (readToken (lit "true" ++ rest) = (mkToken tokenTrue (lit "true" ++ rest) rest, rest)) as E.
    { change (readToken (lit "true" ++ rest)) with (let '(ok, c) := match_ (lit "rue") (lit "rue" ++ rest) in
        (mkToken (if ok then tokenTrue else tokenError) (lit "true" ++ rest) c, c)). by rewrite match_app. }
    by rewrite (first_token _ _ _ _ E).
  - assert (readToken (lit "false" ++ rest) = (mkToken tokenFalse (lit "false" ++ rest) rest, rest)) as E.
    { change (readToken (lit "false" ++ rest)) with (let '(ok, c) := match_ (lit "alse") (lit "alse" ++ rest) in
        (mkToken (if ok then tokenFalse else tokenError) (lit "false" ++ rest) c, c)). by rewrite match_app. }
    by rewrite (first_token _ _ _ _ E).
Qed.

Lemma int_text_first z : Json.minInt64 <= z <= Json.maxUInt64 ->
  exists c s, int_text z = c :: s /\ is_blank c = false /\ (bz c =? 93) = false.
Proof.
  unfold Json.minInt64, Json.maxUInt64. intros Hz. unfold int_text. destruct (Z.ltb_spec z 0); [by eexists _, _|].
  destruct (decimal_cons z ltac:(lia)) as (c & s & -> & Hc & _). exists c, s. split; [done|].
  unfold is_digit, is_blank in *. cbn zeta in *. apply andb_true_iff in Hc as [? ?]. split; lia.
Qed.

Lemma reads_int v z : writeValue w v = int_text z -> canon v = canon_int z -> Json.minInt64 <= z <= Json.maxUInt64 ->
  (z < 0 -> negate_least = wrapping_negation) -> reads v.
Proof.
  intros E Ec Hz Hneg. unfold reads. rewrite E, Ec. pose proof (int_text_first z Hz) as Hfirst. split; [done|].
  intros [|fuel] v0 rest es Hr Hf; [destruct Hfirst as (c & s & E' & _); rewrite E' in Hf; cbn in Hf; lia|].
  destruct (int_text_token negate_least z rest Hz Hneg Hr) as (t & Et & Hty & Hd). cbn [readValue current_].
  rewrite (first_token _ _ _ _ Et) by congruence. cbn [mbind res_bind]. by rewrite Hty, Hd.
Qed.

Lemma valueToString_int_text z : Json.minInt64 <= z <= Json.maxInt64 -> valueToString_int z = int_text z.
Proof.
  unfold Json.minInt64, Json.maxInt64. intros Hz. unfold valueToString_int, int_text, uintToString.
  destruct (Z.ltb_spec z 0); [|by rewrite u64_small by lia]. do 2 f_equal. unfold u64, i64.
  destruct (decide (z = -2^63)) as [->|]; [done|]. rewrite (Z.mod_small (- z + 2^63)) by lia. rewrite Z.mod_small by lia. lia.
Qed.

Lemma reads_string s : no_nul s -> Z.of_nat (length s) < Json.maxInt -> reads (Json.stringValue (Some s)).
Proof.
  intros Hs Hl. unfold reads. cbn [writeValue]. split.
  { rewrite valueToQuotedString_eq. by eexists _, _. }
  intros [|fuel] v0 rest es _ Hf; [rewrite valueToQuotedString_eq in Hf; cbn in Hf; lia|].
  destruct (string_token s rest Hs) as (t & Et & Hty & Hd). cbn [readValue current_].
  rewrite (first_token _ _ _ _ Et) by congruence. cbn [mbind res_bind]. rewrite Hty, Hd. cbn [mbind res_bind].
  unfold Value_string, duplicateStringValue. unfold Json.maxInt in *. rewrite u32_small by lia.
  assert ((2^31 - 1 <=? Z.of_nat (length s)) = false) as -> by lia. rewrite Nat2Z.id, take_ge, cstr_no_nul by (done || lia). done.
Qed.

(** *** Arrays *)

Lemma delimits_comma s : delimits (lit "," ++ s).
Proof. done. Qed.
Lemma delimits_close s : delimits (lit "]" ++ s) /\ delimits (lit "}" ++ s).
Proof. done. Qed.

Lemma commas_cons x y l : commas (x :: y :: l) = x ++ lit "," ++ commas (y :: l).
Proof. cbn [commas map concat]. by rewrite <- !app_assoc. Qed.

Lemma array_loop_reads ls : Forall reads ls -> ls <> [] -> forall acc fuel rest es,
  (3 * length (commas (map (writeValue w) ls)) + 1 <= fuel)%nat -> Z.of_nat (length acc + length ls) < 2^31 ->
  array_loop f negate_least fuel (Z.of_nat (length acc)) (Json.arrayValue (Json.dense 0 acc))
    (mkReader (commas (map (writeValue w) ls) ++ lit "]" ++ rest) es)
  = Ret (true, Json.arrayValue (Json.dense 0 (acc ++ map canon ls)), mkReader rest es).
Proof.
  induction 1 as [|v ls [Hfirst Hv] Hls IH]; [done|]. intros _ acc fuel rest es Hf Hn.
  destruct fuel as [|fuel]; [lia|]. cbn [array_loop]. fold (readValue f negate_least). cbn [length] in Hn. unfold int_add. rewrite decide_True by lia.
  cbn [mbind res_bind]. rewrite dense_get. cbn [mbind res_bind current_].
  destruct ls as [|v' ls].
  - cbn [map commas concat] in *. rewrite app_nil_r in *. rewrite Hv by (done || lia). cbn [mbind res_bind].
    rewrite dense_set. cbn [mbind res_bind negb]. change (current_ (mkReader (lit "]" ++ rest) es)) with (lit "]" ++ rest).
    change (readToken (lit "]" ++ rest)) with (mkToken tokenArrayEnd (lit "]" ++ rest) rest, rest). cbv iota beta.
    rewrite skip_comments_none by done. cbn [mbind res_bind tok_type]. rewrite decide_False by (intros [_ ?]; done).
    by rewrite decide_True.
  - cbn [map] in *. rewrite commas_cons in *. rewrite !length_app in Hf. cbn [length] in *. rewrite <- !app_assoc.
    rewrite Hv by (done || lia). cbn [mbind res_bind].
    rewrite dense_set. cbn [mbind res_bind negb]. set (tl := commas _ ++ lit "]" ++ rest).
    change (current_ (mkReader (lit "," ++ tl) es)) with (lit "," ++ tl).
    change (readToken (lit "," ++ tl)) with (mkToken tokenArraySeparator (lit "," ++ tl) tl, tl). cbv iota beta.
    rewrite skip_comments_none by done. cbn [mbind res_bind tok_type]. rewrite decide_False by (intros [? _]; done).
    rewrite decide_False by done. change (with_current (mkReader (lit "," ++ tl) es) tl) with (mkReader tl es).
    replace (Z.of_nat (length acc) + 1) with (Z.of_nat (length (acc ++ [canon v]))) by (rewrite length_app; cbn; lia).
    unfold tl. rewrite IH; [by rewrite <- app_assoc|done| |rewrite length_app; cbn; lia]. change (length (lit ",")) with 1%nat in Hf. lia.
Qed.

Lemma commas_first ls : Forall reads ls -> ls <> [] ->
  exists c s, commas (map (writeValue w) ls) = c :: s /\ is_blank c = false /\ (bz c =? 93) = false.
Proof.
  destruct 1 as [|v ls [(c & s & E & Hb & Hc) _] _]; [done|]. intros _. cbn [map commas]. rewrite E. by eexists _, _.
Qed.

Lemma reads_array l : Forall reads l -> Z.of_nat (length l) < 2^31 -> reads (Json.arrayValue (Json.dense 0 l)).
Proof.
  intros Hl Hn. unfold reads. rewrite writeValue_array, canon_array by done. split; [by eexists _, _|].
  intros fuel v0 rest es _ Hf. rewrite !length_app in Hf. cbn [length] in Hf.
  destruct fuel as [|[|fuel]]; [cbn in Hf; lia|cbn in Hf; lia|]. cbn [readValue current_]. fold (object_loop f negate_least) (readArray f negate_least) (array_loop f negate_least). rewrite <- !app_assoc.
  set (tl := commas _ ++ lit "]" ++ rest).
  rewrite (first_token _ _ (mkToken tokenArrayBegin (lit "[" ++ tl) tl) tl) by done. cbn [mbind res_bind tok_type].
  change (with_current (mkReader (lit "[" ++ tl) es) tl) with (mkReader tl es). cbn [readArray current_ with_current errors_].
  destruct (decide (l = [])) as [->|Hne]; [done|].
  destruct (commas_first l Hl Hne) as (c & s & E & Hb & Hc).
  assert (skipSpaces tl = tl) as -> by (unfold tl; rewrite E; cbn; by rewrite Hb).
  assert ((bz (default NUL (head tl)) =? 93) = false) as -> by (unfold tl; by rewrite E).
  unfold tl. apply (array_loop_reads l Hl Hne []); [cbn in Hf; lia|cbn; lia].
Qed.

(** *** Objects *)

Lemma readValue_space fuel v0 s es : readValue f negate_least fuel v0 (mkReader (lit " " ++ s) es) = readValue f negate_least fuel v0 (mkReader s es).
Proof.
  destruct fuel as [|fuel]; [done|]. cbn [readValue current_].
  assert (skipCommentTokens f (lit " " ++ s) = skipCommentTokens f s) as -> by done. reflexivity.
Qed.

Lemma colon_token s : exists s', readToken (separator w ++ s) = (mkToken tokenMemberSeparator (separator w ++ s) s', s')
  /\ (s' = s \/ s' = lit " " ++ s).
Proof. unfold separator. destruct (yamlCompatiblityEnabled_ w); eexists; (split; [reflexivity|auto]). Qed.

Lemma set_member m k v : Forall (fun x => bytes_cmp k x = Gt) m.*1 ->
  Json.get_key (Json.objectValue m) k Json.nullValue = Ret Json.nullValue
  /\ Json.set_key (Json.objectValue m) k v = Ret (Json.objectValue (m ++ [(k, v)])).
Proof.
  intros Hm. unfold Json.get_key. cbn [Json.at_key Json.set_key mbind res_bind]. rewrite map_put_end by done. split; [|done].
  pose proof (map_find_gap bytes_cmp k m [] Hm) as E. rewrite app_nil_r in E. rewrite E; [done|constructor].
Qed.

Lemma keys_canon m : (canon_members m).*1 = m.*1.
Proof. induction m as [|[k v] m IH]; [done|]. cbn. by rewrite <- IH. Qed.

Lemma object_loop_reads ms : Forall (fun kv => no_nul kv.1 /\ reads kv.2) ms -> ms <> [] -> forall acc name fuel rest es,
  (3 * length (commas (map (member_text w) ms)) + 1 <= fuel)%nat -> map_wf bytes_cmp (acc ++ ms) ->
  object_loop f negate_least fuel name (Json.objectValue (canon_members acc))
    (mkReader (commas (map (member_text w) ms) ++ lit "}" ++ rest) es)
  = Ret (true, Json.objectValue (canon_members (acc ++ ms)), mkReader rest es).
Proof.
  induction 1 as [|[k v] ms [Hk [Hfirst Hv]] Hms IH]; [done|]. intros _ acc name fuel rest es Hf Hwf. cbn [fst snd] in *.
  destruct fuel as [|fuel]; [lia|]. cbn [object_loop current_]. fold (readValue f negate_least).
  assert (Forall (fun x => bytes_cmp k x = Gt) (canon_members acc).*1) as Hbelow.
  { rewrite keys_canon. unfold map_wf in Hwf. rewrite fmap_app in Hwf. apply StronglySorted_app in Hwf as (Hlt & _).
    apply Forall_forall. intros x Hx%list_elem_of_In. specialize (Hlt x k Hx ltac:(by left)). unfold cmp_lt in Hlt.
    by rewrite (cmp_antisym (cmp:=bytes_cmp) x k), Hlt. }
  assert (exists tl, commas (map (member_text w) ((k, v) :: ms)) ++ lit "}" ++ rest
      = valueToQuotedString (Some k) ++ separator w ++ writeValue w v ++ tl
    /\ (length (writeValue w v) + 1 <= length (commas (map (member_text w) ((k, v) :: ms))))%nat
    /\ match ms with
       | [] => tl = lit "}" ++ rest
       | _ => tl = lit "," ++ commas (map (member_text w) ms) ++ lit "}" ++ rest
              /\ (length (commas (map (member_text w) ms)) + 1 <= length (commas (map (member_text w) ((k, v) :: ms))))%nat
       end) as (tl & -> & Hl1 & Htl).
  { destruct ms as [|kv ms].
    - eexists. cbn [map commas concat]. rewrite app_nil_r. unfold member_text. cbn [fst snd]. rewrite <- !app_assoc.
      split; [done|]. split; [|done]. rewrite valueToQuotedString_eq, !length_app. cbn [length]. lia.
    - eexists. cbn [map]. rewrite commas_cons. unfold member_text at 1 2 4. cbn [fst snd]. rewrite <- !app_assoc.
      split; [done|]. rewrite valueToQuotedString_eq, !length_app. cbn [length]. split; [lia|]. split; [done|].
      change (length (lit ",")) with 1%nat. lia. }
  destruct (string_token k (separator w ++ writeValue w v ++ tl) Hk) as (t & Et & Hty & Hd). rewrite Et.
  cbv iota beta. rewrite skip_comments_none by congruence. cbn [mbind res_bind]. rewrite decide_False by (intros [? _]; congruence).
  unfold member_name. rewrite Hty, Hd. cbn [mbind res_bind with_current current_ errors_].
  destruct (colon_token (writeValue w v ++ tl)) as (s' & -> & Hs'). cbv iota beta. cbn [tok_type].
  rewrite decide_False by (intros Hx; by apply Hx). cbn [with_current errors_]. rewrite (cstr_no_nul k) by done.
  destruct (set_member (canon_members acc) k (canon v) Hbelow) as [-> Eset]. cbn [mbind res_bind].
  change (with_current (with_current (mkReader _ es) _) s') with (mkReader s' es).
  assert (readValue f negate_least fuel Json.nullValue (mkReader s' es) = Ret (true, canon v, mkReader tl es)) as ->.
  { assert (delimits tl) as Hdel by (destruct ms; [by rewrite Htl|destruct Htl as [-> _]; done]).
    destruct Hs' as [->| ->]; [|rewrite readValue_space]; apply Hv; (done || lia). }
  cbn [mbind res_bind]. rewrite Eset. cbn [mbind res_bind negb current_].
  assert (canon_members acc ++ [(k, canon v)] = canon_members (acc ++ [(k, v)])) as ->.
  { unfold canon_members. by rewrite map_app. }
  destruct ms as [|kv ms].
  - subst tl. change (readToken (lit "}" ++ rest)) with (mkToken tokenObjectEnd (lit "}" ++ rest) rest, rest). cbv iota beta.
    cbn [tok_type]. rewrite decide_False by (intros [? _]; done). rewrite skip_comments_none by done. cbn [mbind res_bind tok_type].
    by rewrite decide_True.
  - destruct Htl as [-> Hl2]. set (tl := commas _ ++ lit "}" ++ rest).
    change (readToken (lit "," ++ tl)) with (mkToken tokenArraySeparator (lit "," ++ tl) tl, tl). cbv iota beta.
    cbn [tok_type]. rewrite decide_False by (intros (_ & ? & _); done). rewrite skip_comments_none by done. cbn [mbind res_bind tok_type].
    rewrite decide_False by done. unfold tl.
    match goal with |- context [with_current (with_current (mkReader _ es) _) ?s] => change (with_current (with_current (mkReader _ es) _) s) with (mkReader s es) end.
    rewrite IH; [by rewrite <- app_assoc|done|lia|by rewrite <- app_assoc].
Qed.

Lemma reads_object m : map_wf bytes_cmp m -> Forall (fun kv => no_nul kv.1 /\ reads kv.2) m -> reads (Json.objectValue m).
Proof.
  intros Hwf Hm. unfold reads. rewrite writeValue_object, canon_object by done. split; [by eexists _, _|].
  intros fuel v0 rest es _ Hf. rewrite !length_app in Hf. cbn [length] in Hf.
  destruct fuel as [|fuel]; [cbn in Hf; lia|]. cbn [readValue current_]. fold (object_loop f negate_least) (readArray f negate_least) (array_loop f negate_least). rewrite <- !app_assoc.
  set (tl := commas _ ++ lit "}" ++ rest).
  rewrite (first_token _ _ (mkToken tokenObjectBegin (lit "{" ++ tl) tl) tl) by done. cbn [mbind res_bind tok_type].
  change (with_current (mkReader (lit "{" ++ tl) es) tl) with (mkReader tl es).
  destruct (decide (m = [])) as [->|Hne]; [destruct fuel; [cbn in Hf; lia|reflexivity]|].
  unfold tl. apply (object_loop_reads m Hm Hne []); [cbn in Hf; lia|done].
Qed.

Lemma reads_plain v : plain negate_least v -> reads v.
Proof.
  apply plain_induction.
  - apply reads_null.
  - intros z Hz Hneg. apply (reads_int _ z); [by apply valueToString_int_text|done|unfold Json.maxInt64, Json.maxUInt64 in *; lia|done].
  - intros z Hz. apply (reads_int _ z); [|done|unfold Json.minInt64, Json.maxUInt64 in *; lia|lia]. cbn. unfold int_text.
    by rewrite (proj2 (Z.ltb_ge z 0)) by lia.
  - apply reads_string.
  - apply reads_bool.
  - intros l _ Hl Hn. by apply reads_array.
  - intros m Hwf Hm. apply reads_object; [done|]. eapply list.Forall_impl; [exact Hm|]. cbn. tauto.
Qed.
End read_back.

(** ** Properties *)

(** C27: the reader, with any features, makes of the text that [FastWriter]
    writes of a value without real numbers the same value, and reports no
    error; only the integers up to [maxInt], the negative ones included, come
    back as signed and larger ones as unsigned, whatever they were.  With or
    without the space after colons and the line feed, if null values are
    written, if there is no byte 255 in the text, where the reading of a stream
    ends, and if the root is a container or the mode not strict.  A negative
    integer is read back only when the negation of the least one wraps around:
    in standard C++ its reading is undefined. *)
Theorem json_roundtrip w f negate_least v root : plain negate_least v -> dropNullPlaceholders_ w = false ->
  (strictRoot_ f = true -> Json.isArray v = true \/ Json.isObject v = true) ->
  (forall c, c ∈ write w v -> c <> zb 255) ->
  exists r, parse_stream f negate_least (write w v) root = Ret (true, canon v, r) /\ errors_ r = [].
Proof.
  intros Hv Hn Hstrict Hff. destruct (reads_plain w f negate_least Hn v Hv) as [_ Hreads].
  assert (getline_eof (write w v) = write w v) as E.
  { induction (write w v) as [|c s IH]; [done|]. cbn. assert ((bz c =? 255) = false) as ->.
    { apply Z.eqb_neq. intros E. apply (Hff c); [by left|]. by rewrite <- (zb_bz c), E. }
    rewrite IH; [done|]. intros x Hx. apply Hff. by right. }
  unfold parse_stream, parse. rewrite E.
  change (mkReader (write w v) []) with (mkReader (writeValue w v ++ (if omitEndingLineFeed_ w then [] else [zb 10])) []).
  rewrite Hreads.
  2:{ by destruct (omitEndingLineFeed_ w). }
  2:{ unfold parse_fuel, write. rewrite length_app. lia. }
  cbn [mbind res_bind]. set (r := mkReader _ []). destruct (skipCommentTokens_ret f (current_ r)) as (t & c & -> & _).
  cbn [mbind res_bind]. exists (with_current r c). split; [|done].
  assert (Json.isArray (canon v) = Json.isArray v /\ Json.isObject (canon v) = Json.isObject v) as [-> ->].
  { destruct v; try done; cbn; unfold canon_int; by destruct (z <=? Json.maxInt). }
  destruct (strictRoot_ f); [|done]. destruct (Hstrict eq_refl) as [-> | ->]; [done|]. by rewrite andb_false_r.
Qed.

Definition sample_value (z : Z) : Json.Value := Json.arrayValue (Json.dense 0
  [Json.uintValue 7; Json.intValue (2^40); Json.intValue z;
   Json.objectValue [(lit "a", Json.stringValue (Some [quote; zb 10; zb 1])); (lit "b", Json.nullValue)]]).
Definition sample_read (z : Z) : Json.Value := Json.arrayValue (Json.dense 0
  [Json.intValue 7; Json.uintValue (2^40); Json.intValue z;
   Json.objectValue [(lit "a", Json.stringValue (Some [quote; zb 10; zb 1])); (lit "b", Json.nullValue)]]).

Lemma sample_plain negate_least z : Json.minInt64 <= z <= Json.maxInt64 -> (z < 0 -> negate_least = wrapping_negation) -> plain negate_least (sample_value z).
Proof.
  intros Hz Hn. apply plain_array; [|reflexivity]. repeat (apply list.Forall_cons; split); [..|constructor].
  - constructor. split; vm_compute; discriminate.
  - constructor; [split; vm_compute; discriminate|intros H; vm_compute in H; discriminate H].
  - by constructor.
  - apply plain_object; [repeat constructor|]. repeat (apply list.Forall_cons; split); [..|constructor].
    + split; [apply no_nul_b; reflexivity|constructor; [apply no_nul_b; reflexivity|reflexivity]].
    + split; [apply no_nul_b; reflexivity|constructor].
Qed.

Lemma json_roundtrip_witness :
  (exists r, parse_stream Features_strictMode cpp_negation (write (enableYAMLCompatibility new_FastWriter) (sample_value 3)) Json.nullValue
    = Ret (true, sample_read 3, r) /\ errors_ r = [])
  /\ exists r, parse_stream Features_strictMode wrapping_negation (write (enableYAMLCompatibility new_FastWriter) (sample_value (-2^40))) Json.nullValue
    = Ret (true, sample_read (-2^40), r) /\ errors_ r = [].
Proof.
  split.
  - apply (json_roundtrip (enableYAMLCompatibility new_FastWriter) Features_strictMode cpp_negation (sample_value 3) Json.nullValue).
    + apply sample_plain; [split; vm_compute; discriminate|lia].
    + reflexivity.
    + intros _. left. reflexivity.
    + intros c Hc ->. revert Hc. apply (bool_decide_unpack _). vm_compute. exact I.
  - apply (json_roundtrip (enableYAMLCompatibility new_FastWriter) Features_strictMode wrapping_negation (sample_value (-2^40)) Json.nullValue).
    + apply sample_plain; [split; vm_compute; discriminate|reflexivity].
    + reflexivity.
    + intros _. left. reflexivity.
    + intros c Hc ->. revert Hc. apply (bool_decide_unpack _). vm_compute. exact I.
Defined.
