(* ===== verification/Schema.v ===== *)
(** * Schema: the record schema of library.h and library.cc

    [Attribute], [Schema] and [Record], how a schema is read from its JSON
    description, how the sort attributes are resolved, and the comparison of
    two records by their sort attributes. *)

From S2P Require Import Prelude CLib Double JsonValue JsonReader JsonWriter.

(** ** Data *)

(** [name] is the 255-byte buffer, [type] the bytes stored in the 10-byte one. *)
Record Attribute := mkAttribute {
  name : bytes;
  type : bytes;
  length_ : Z;
}.

(** An element of the malloc'ed [sort_attrs] that was never stored is [None]. *)
Record Schema := mkSchema {
  attrs : list Attribute;
  nattrs : Z;
  sort_attrs : list (option Z);
  n_sort_attrs : Z;
  record_size : Z;
}.

Record Record_ := mkRecord {
  schema : Schema;
  data : bytes;
}.

(** ** Operations *)

(** The body of the loop of [read_schema]: one element of the JSON array. *)
Definition read_attribute (root : Json.Value) (i : Z) : res Attribute :=
  let str s := Json.stringValue (Some (lit s)) in
  json_attribute ← Json.get_index root i (str "");
  v ← Json.get_key json_attribute (lit "name") (str "");
  p ← Json.asCString v;
  s ← of_option p;
  name ← strncpy (s ++ [NUL]) 255;
  has_type ← Json.isMember json_attribute (lit "type");
  type ← (if has_type : bool then
            v ← Json.get_key json_attribute (lit "type") (str "");
            p ← Json.asCString v;
            s ← of_option p;
            strncpy (s ++ [NUL]) 10
          else strncpy (lit "string" ++ [NUL]) 7);
  v ← Json.get_key json_attribute (lit "length") (Json.intValue 0);
  len ← Json.asInt v;
  Ret (mkAttribute name type len).

Fixpoint read_attributes (root : Json.Value) (i : Z) (n : nat) (rs : Z)
    : res (list Attribute * Z) :=
  match n with
  | O => Ret ([], rs)
  | S n =>
      a ← read_attribute root i;
      '(l, rs) ← read_attributes root (i + 1) n (u64 (rs + length_ a));
      Ret (a :: l, rs)
  end.

(** [read_schema] once the text is parsed.  The sort fields are left as they
    were: not yet set.  A count that is negative as an [int] makes the array
    [new] throw. *)
Definition schema_of_json (root : Json.Value) : res Schema :=
  let nattrs := i32 (Json.size root) in
  if decide (nattrs < 0) then Throw
  else
    '(l, rs) ← read_attributes root 0 (Z.to_nat (Json.size root)) (u64 nattrs);
    Ret (mkSchema l nattrs [] 0 rs).

(** [read_schema(schema_file, schema)]; [None] is the return value -1.  A
    file that cannot be opened reads as an empty text. *)
Definition read_schema (fs : filesystem) (schema_file : bytes) : res (option Schema) :=
  '(ok, root, _) ← parse_stream Features_all cpp_negation (default [] (fs !! schema_file)) Json.nullValue;
  if (ok : bool) then s ← schema_of_json root; Ret (Some s) else Ret None.

(** The inner loop of [init_sort_attrs]: the first attribute of that name. *)
Fixpoint find_attr (want : bytes) (l : list Attribute) (j : Z) : res (option Z) :=
  match l with
  | [] => Ret None
  | a :: l =>
      c ← strcmp (want ++ [NUL]) (name a);
      if decide (c = 0) then Ret (Some j) else find_attr want l (j + 1)
  end.

Fixpoint init_sort_loop (s : Schema) (wants : list bytes) (i : nat) (sa : list (option Z))
    : res (Z * list (option Z)) :=
  match wants with
  | [] => Ret (0, sa)
  | w :: wants =>
      o ← find_attr w (take (Z.to_nat (nattrs s)) (attrs s)) 0;
      match o with
      | None => Ret (1, sa)
      | Some j => init_sort_loop s wants (S i) (<[i := Some j]> sa)
      end
  end.

(** [init_sort_attrs(schema, attrs, num_attr)]: the return value and the schema. *)
Definition init_sort_attrs (s : Schema) (wants : list bytes) : res (Z * Schema) :=
  let num_attr := Z.of_nat (length wants) in
  '(rc, sa) ← init_sort_loop s wants 0 (replicate (length wants) None);
  Ret (rc, mkSchema (attrs s) (nattrs s) sa num_attr (record_size s)).

(** [offset_to_attribute]: one more than the length for each attribute before. *)
Fixpoint offset_loop (l : list Attribute) (n : nat) (offset : Z) {struct n} : res Z :=
  match n with
  | O => Ret offset
  | S n =>
      match l with
      | [] => Undef
      | a :: l => d ← int_add 1 (length_ a); o ← int_add offset d; offset_loop l n o
      end
  end.
Definition offset_to_attribute (s : Schema) (attr : Z) : res Z :=
  offset_loop (attrs s) (Z.to_nat attr) 0.

(** The loop of [record_object_comparator] over the sort attributes left. *)
Fixpoint compare_attrs (s : Schema) (d1 d2 : bytes) (sa : list (option Z)) (n : nat)
    (return_val : Z) {struct n} : res Z :=
  match n with
  | O => Ret return_val
  | S n =>
      match sa with
      | Some attr :: sa =>
          offset ← offset_to_attribute s attr;
          a ← nth_res (attrs s) attr;
          p1 ← ptr_at d1 offset;
          p2 ← ptr_at d2 offset;
          v ← strncmp p1 p2 (Z.to_nat (u64 (length_ a)));
          if decide (v <> 0) then Ret v else compare_attrs s d1 d2 sa n v
      | _ => Undef
      end
  end.

Definition record_object_comparator (r1 r2 : Record_) : res Z :=
  let s := schema r1 in
  compare_attrs s (data r1) (data r2) (sort_attrs s) (Z.to_nat (n_sort_attrs s)) 0.

(** [record_comparator], the callback of [qsort]: the elements are pointers. *)
Definition record_comparator (a b : Record_) : res Z := record_object_comparator a b.

(** ** Well-formed schemas *)

Fixpoint sum_lengths (l : list Attribute) : Z :=
  match l with [] => 0 | a :: l => length_ a + sum_lengths l end.

(** What [read_schema] establishes for sane lengths: a record is its fields,
    each followed by one separator byte. *)
Record schema_wf (s : Schema) : Prop := {
  wf_nattrs : nattrs s = Z.of_nat (length (attrs s));
  wf_lengths : Forall (fun a => 0 <= length_ a) (attrs s);
  wf_size : record_size s = nattrs s + sum_lengths (attrs s);
  wf_bound : record_size s < 2^31;
}.

(** What a successful [init_sort_attrs] establishes. *)
Record sort_wf (s : Schema) : Prop := {
  wf_n_sort : n_sort_attrs s = Z.of_nat (length (sort_attrs s));
  wf_sort : Forall (fun o => exists j, o = Some j /\ 0 <= j < nattrs s) (sort_attrs s);
}.

(** Offset of the [i]-th attribute, as a number. *)
Definition offset_of (l : list Attribute) (i : nat) : Z :=
  Z.of_nat i + sum_lengths (take i l).

(** The field of attribute [i] in a record, as [strncmp] sees it. *)
Definition field (s : Schema) (d : bytes) (i : nat) : bytes :=
  match attrs s !! i with
  | Some a => cstr (take (Z.to_nat (length_ a)) (drop (Z.to_nat (offset_of (attrs s) i)) d))
  | None => []
  end.

(** The fields a record is sorted by, in order of importance. *)
Definition sort_key (s : Schema) (d : bytes) : list bytes :=
  map (fun o => field s d (Z.to_nat (default 0 o))) (sort_attrs s).

(** The specification of the comparison: lexicographic on the sort keys. *)
Definition key_cmp (s : Schema) : bytes -> bytes -> comparison :=
  cmp_on (sort_key s) (lex bytes_cmp).

#[export] Instance key_cmp_order s : CmpOrder (key_cmp s) := _.

(** ** Lemmas *)

Lemma sum_lengths_nonneg l : Forall (fun a => 0 <= length_ a) l -> 0 <= sum_lengths l.
Proof. induction 1; cbn; lia. Qed.

Lemma sum_lengths_app l k : sum_lengths (l ++ k) = sum_lengths l + sum_lengths k.
Proof. induction l; cbn; lia. Qed.

Lemma offset_loop_spec l n o :
  Forall (fun a => 0 <= length_ a) l -> (n <= length l)%nat ->
  0 <= o -> o + offset_of l n < 2^31 ->
  offset_loop l n o = Ret (o + offset_of l n).
Proof.
  unfold offset_of. revert l o. induction n as [|n IH]; intros l o Hl Hn Ho Hb; cbn.
  - f_equal. rewrite take_0. cbn. lia.
  - destruct l as [|a l]; [cbn in Hn; lia|]. inversion_clear Hl as [|? ? Ha Hl'].
    cbn in Hn, Hb. pose proof (sum_lengths_nonneg (take n l)) as Hs.
    assert (0 <= sum_lengths (take n l)) by (apply Hs; by apply Forall_take).
    unfold int_add. rewrite decide_True by lia. cbn.
    rewrite decide_True by lia. cbn. rewrite IH by (done || lia). f_equal. lia.
Qed.

(** Every field lies inside the record, with its separator. *)
Lemma offset_bound s i a :
  schema_wf s -> attrs s !! i = Some a ->
  0 <= offset_of (attrs s) i /\ offset_of (attrs s) i + length_ a + 1 <= record_size s.
Proof.
  intros [Hn Hl Hs _] Ha. unfold offset_of. rewrite Hs, Hn.
  pose proof (take_drop_middle _ _ _ Ha) as E.
  assert (sum_lengths (attrs s) =
    sum_lengths (take i (attrs s)) + length_ a + sum_lengths (drop (S i) (attrs s))) as ->.
  { rewrite <- E at 1. rewrite sum_lengths_app. cbn. lia. }
  pose proof (sum_lengths_nonneg _ (Forall_take _ i _ Hl)).
  pose proof (sum_lengths_nonneg _ (Forall_drop _ (S i) _ Hl)).
  apply lookup_lt_Some in Ha. lia.
Qed.

Lemma offset_to_attribute_lookup s i a :
  schema_wf s -> attrs s !! i = Some a ->
  offset_to_attribute s (Z.of_nat i) = Ret (offset_of (attrs s) i).
Proof.
  intros Hwf Ha. pose proof (offset_bound s i a Hwf Ha).
  destruct Hwf as [? Hl ? ?]. unfold offset_to_attribute. rewrite Nat2Z.id.
  apply lookup_lt_Some in Ha as Hi.
  pose proof (lookup_lt_Some _ _ _ Ha).
  rewrite Forall_forall in Hl. assert (0 <= length_ a).
  { apply Hl. apply list_elem_of_In. by eapply list_elem_of_lookup_2. }
  rewrite offset_loop_spec; [done|by rewrite Forall_forall|lia..].
Qed.

Lemma compare_attrs_spec s d1 d2 sa v :
  schema_wf s ->
  Forall (fun o => exists j, o = Some j /\ 0 <= j < nattrs s) sa ->
  Z.of_nat (length d1) = record_size s -> Z.of_nat (length d2) = record_size s ->
  (sa = [] -> v = 0) ->
  exists z, compare_attrs s d1 d2 sa (length sa) v = Ret z /\
    (z ?= 0) = lex bytes_cmp
      (map (fun o => field s d1 (Z.to_nat (default 0 o))) sa)
      (map (fun o => field s d2 (Z.to_nat (default 0 o))) sa).
Proof.
  intros Hwf Hsa H1 H2. revert v. induction Hsa as [|o sa (j & -> & Hj) Hsa IH]; intros v Hv.
  { exists v. split; [done|]. by rewrite Hv. }
  cbn [compare_attrs length map default lex].
  destruct (lookup_lt_is_Some_2 (attrs s) (Z.to_nat j)) as [a Ha].
  { rewrite (wf_nattrs s Hwf) in Hj. lia. }
  pose proof (offset_bound s _ a Hwf Ha) as [Ho Hb].
  pose proof (offset_to_attribute_lookup s _ a Hwf Ha) as E.
  rewrite Z2Nat.id in E by lia. rewrite E. cbn.
  unfold nth_res. rewrite decide_True by lia. rewrite Ha. cbn.
  assert (0 <= length_ a).
  { pose proof (wf_lengths s Hwf) as Hl. rewrite Forall_forall in Hl.
    apply Hl, list_elem_of_In. by eapply list_elem_of_lookup_2. }
  pose proof (wf_bound s Hwf). unfold ptr_at. rewrite !decide_True by lia. cbn.
  rewrite u64_small by lia. unfold field at 1 2. rewrite Ha.
  set (off := Z.to_nat (offset_of (attrs s) (Z.to_nat j))).
  destruct (strncmp_spec (drop off d1) (drop off d2) (Z.to_nat (length_ a)))
    as (z & Hz & Hc); [rewrite length_drop; lia..|].
  rewrite Hz. cbn. rewrite <- Hc. destruct (Z.compare_spec z 0) as [->|Hz0|Hz0].
  - rewrite decide_False by lia. apply IH. done.
  - rewrite decide_True by lia. exists z. split; [done|]. by apply Z.compare_lt_iff.
  - rewrite decide_True by lia. exists z. split; [done|]. by apply Z.compare_gt_iff.
Qed.

Lemma comparator_spec s d1 d2 :
  schema_wf s -> sort_wf s ->
  Z.of_nat (length d1) = record_size s -> Z.of_nat (length d2) = record_size s ->
  exists z, record_object_comparator (mkRecord s d1) (mkRecord s d2) = Ret z /\
    (z ?= 0) = key_cmp s d1 d2.
Proof.
  intros Hwf [Hn Hs] H1 H2. unfold record_object_comparator. cbn.
  rewrite Hn, Nat2Z.id. by apply compare_attrs_spec.
Qed.

(** ** Reading a schema *)

(** [read_attributes] reads [n] attributes and adds their lengths to the size. *)
Lemma read_attributes_spec root n : forall i rs l rs',
  read_attributes root i n rs = Ret (l, rs') -> 0 <= rs ->
  Forall (fun a => 0 <= length_ a) l -> rs + sum_lengths l < 2^64 ->
  length l = n /\ rs' = rs + sum_lengths l.
Proof.
  induction n as [|n IH]; intros i rs l rs' E Hrs Hl Hb; cbn in E.
  - inv_res. cbn. split; [done|lia].
  - apply res_bind_Ret in E as (a & _ & E). apply res_bind_Ret in E as ([k rs1] & E1 & E).
    inv_res. inversion_clear Hl as [|? ? Ha Hk]. cbn in Hb.
    pose proof (sum_lengths_nonneg k Hk).
    rewrite u64_small in E1 by lia.
    destruct (IH _ _ _ _ E1 ltac:(lia) Hk ltac:(lia)) as [<- ->].
    cbn. split; [done|lia].
Qed.

Lemma schema_of_json_spec root s :
  schema_of_json root = Ret s ->
  nattrs s = Json.size root /\ sort_attrs s = [] /\ n_sort_attrs s = 0
  /\ (Forall (fun a => 0 <= length_ a) (attrs s) -> nattrs s + sum_lengths (attrs s) < 2^31 -> schema_wf s).
Proof.
  assert (0 <= Json.size root < 2^32) as Hsz
    by (unfold Json.size; repeat case_match; try lia; apply u32_range).
  unfold schema_of_json. case_decide as Hn; [done|]. intros E.
  apply res_bind_Ret in E as ([l rs] & E & E'). inv_res. cbn in *.
  assert (Json.size root < 2^31) as Hs.
  { unfold i32 in Hn. destruct (Z.lt_ge_cases (Json.size root) (2^31)); [done|].
    replace ((Json.size root + 2^31) mod 2^32) with (Json.size root - 2^31) in Hn; [lia|].
    apply Z.mod_unique with 1; lia. }
  rewrite i32_small, u64_small in * by lia. do 3 (split; [done|]). intros Hl Hb.
  destruct (read_attributes_spec _ _ _ _ _ _ E) as [Hlen ->]; [lia|done|lia|].
  split; cbn; [lia|done|lia|lia].
Qed.

Lemma read_schema_spec fs schema_file s :
  read_schema fs schema_file = Ret (Some s) ->
  0 <= nattrs s /\ sort_attrs s = [] /\ n_sort_attrs s = 0
  /\ (Forall (fun a => 0 <= length_ a) (attrs s) -> nattrs s + sum_lengths (attrs s) < 2^31 -> schema_wf s).
Proof.
  unfold read_schema. intros E. apply res_bind_Ret in E as ([[ok root] r] & _ & E). destruct ok; [|done].
  apply res_bind_Ret in E as (s1 & E & E'). injection E' as ->.
  destruct (schema_of_json_spec root s E) as (-> & Hs). split; [|done].
  unfold Json.size; repeat case_match; try lia; apply u32_range.
Qed.

(** Every step is defined on a value the parser made. *)
Lemma map_find_typed {K} (cmp : K -> K -> comparison) (m : list (K * Json.Value)) k v :
  Forall (fun kv => well_typed kv.2) m -> map_find cmp k m = Some v -> well_typed v.
Proof. induction 1 as [|[k' v'] m Hv Hm IH]; cbn; [done|]. destruct (cmp k k'); [by intros [= <-]|done|done]. Qed.

Lemma dense_typed l : forall i, Forall well_typed l -> Forall (fun kv => well_typed kv.2) (Json.dense i l).
Proof. induction l as [|v l IH]; intros i Hl; cbn; [constructor|]. inversion_clear Hl. constructor; [done|by apply IH]. Qed.

Lemma get_index_defined v i dflt : well_typed v -> well_typed dflt -> defined well_typed (Json.get_index v i dflt).
Proof.
  intros Hv Hd. unfold Json.get_index. destruct v as [|z|z|d|s|b|m|m]; cbn; try done.
  inversion_clear Hv as [| | | | | |l Hl|]. destruct (map_find _ _ _) eqn:E; [|done]. cbn.
  eapply map_find_typed; [|exact E]. by apply dense_typed.
Qed.

Lemma get_key_defined v k dflt : well_typed v -> well_typed dflt -> defined well_typed (Json.get_key v k dflt).
Proof.
  intros Hv Hd. unfold Json.get_key. destruct v as [|z|z|d|s|b|m|m]; cbn; try done.
  inversion_clear Hv as [| | | | | | |m0 Hm Hl]. destruct (map_find _ _ _) eqn:E; [|done]. cbn.
  eapply map_find_typed; [|exact E]. eapply list.Forall_impl; [exact Hl|]. by intros kv [_ ?].
Qed.

Lemma strncpy_defined s n : defined (fun _ => True) (strncpy (s ++ [NUL]) n).
Proof.
  revert n. induction s as [|c s IH]; intros [|n]; cbn; try done.
  case_decide; [done|]. specialize (IH n). by destruct (strncpy _ n).
Qed.

(** The copy of a string member into a buffer. *)
Lemma copy_string_defined v n : well_typed v ->
  defined (fun _ => True) (p ← Json.asCString v; s ← of_option p; strncpy (s ++ [NUL]) n).
Proof. destruct 1; cbn; try done. apply strncpy_defined. Qed.

Lemma read_attribute_defined root i : well_typed root -> defined (fun _ => True) (read_attribute root i).
Proof.
  intros Hroot. assert (forall s, no_nul (lit s) -> well_typed (Json.stringValue (Some (lit s)))) as Hstr
    by (intros; by constructor).
  unfold read_attribute. eapply defined_bind; [apply get_index_defined; [done|by apply Hstr, no_nul_b]|]. intros a Ha.
  eapply defined_bind; [apply get_key_defined; [done|by apply Hstr, no_nul_b]|]. intros v Hv.
  pose proof (copy_string_defined v 255 Hv) as Hname.
  destruct (Json.asCString v) as [o| | |]; [|done..]. cbn [mbind res_bind] in *.
  destruct o as [s|]; [|done]. cbn [of_option mbind res_bind] in *. eapply defined_bind; [exact Hname|]. intros nm _.
  eapply (defined_bind (fun _ => True)); [unfold Json.isMember; by destruct (Json.at_key a _) eqn:E; destruct a|].
  intros b _. eapply (defined_bind (fun _ => True)).
  { destruct b; [|done]. eapply defined_bind; [apply get_key_defined; [done|by apply Hstr, no_nul_b]|].
    intros w Hw. by apply copy_string_defined. }
  intros ty _. eapply defined_bind; [apply get_key_defined; [done|by constructor]|]. intros w Hw.
  eapply (defined_bind (fun _ => True)); [|done].
  destruct (Json.asInt_safe w) as [-> |(z & -> & _)]; [|done..]. by destruct Hw.
Qed.

Lemma read_attributes_defined root n : well_typed root -> forall i rs, defined (fun _ => True) (read_attributes root i n rs).
Proof.
  intros Hroot. induction n as [|n IH]; intros i rs; cbn [read_attributes]; [done|].
  eapply defined_bind; [by apply read_attribute_defined|]. intros a _.
  eapply defined_bind; [apply IH|]. by intros [l rs'] _.
Qed.

(** ** Resolving the sort attributes *)

(** The string in a name buffer. *)
Definition attr_name (a : Attribute) : bytes := cstr (name a).

(** [want] is the name of attribute [j] and of none before it. *)
Definition first_named (l : list Attribute) (want : bytes) (j : Z) : Prop :=
  0 <= j /\ (exists a, l !! Z.to_nat j = Some a /\ attr_name a = want) /\
  forall i a, l !! i = Some a -> Z.of_nat i < j -> attr_name a <> want.

Lemma cstr_split b : NUL ∈ b -> exists tl, b = cstr b ++ NUL :: tl.
Proof.
  induction b as [|c b IH]; [by intros ?%elem_of_nil|]. intros Hin. cbn.
  case_decide as Hc; [subst; by exists b|]. apply elem_of_cons in Hin as [Hx|Hin]; [by destruct Hc|].
  destruct (IH Hin) as [tl E]. exists tl. cbn. congruence.
Qed.

Section sort_attributes.
Context (s : Schema) (Hn : nattrs s = Z.of_nat (length (attrs s)))
  (Hnames : Forall (fun a => NUL ∈ name a) (attrs s)).

Lemma find_attr_spec w l i :
  no_nul w -> drop i (attrs s) = l ->
  (forall k a, (k < i)%nat -> attrs s !! k = Some a -> attr_name a <> w) ->
  exists o, find_attr w l (Z.of_nat i) = Ret o /\
    match o with
    | Some j => j < nattrs s /\ first_named (attrs s) w j
    | None => forall a, a ∈ attrs s -> attr_name a <> w
    end.
Proof.
  intros Hw. revert i. induction l as [|a l IH]; intros i E Hbefore; cbn.
  - exists None. split; [done|]. intros a (k & Hk)%list_elem_of_lookup_1.
    apply (Hbefore k); [|done]. apply lookup_lt_Some in Hk.
    apply (f_equal length) in E. rewrite length_drop in E. cbn in E. lia.
  - assert (attrs s !! i = Some a) as Ha by (by rewrite <- (Nat.add_0_r i), <- lookup_drop, E).
    destruct (cstr_split (name a)) as [tl Etl].
    { by apply (Forall_lookup_1 _ _ _ _ Hnames Ha). }
    rewrite Etl. destruct (strcmp_spec w (cstr (name a)) [] tl Hw) as (z & -> & Hz);
      [apply cstr_is_no_nul|]. cbn. case_decide as Hz0.
    + exists (Some (Z.of_nat i)). split; [done|]. apply lookup_lt_Some in Ha as Hi.
      split; [lia|]. split; [lia|]. rewrite Nat2Z.id. split.
      * exists a. split; [done|]. symmetry. by apply Hz.
      * intros k b Hk Hki. apply (Hbefore k); [lia|done].
    + replace (Z.of_nat i + 1) with (Z.of_nat (S i)) by lia. apply IH.
      * replace (S i) with (i + 1)%nat by lia. rewrite <- drop_drop, E. done.
      * intros k b Hk Hb. destruct (decide (k = i)) as [->|]; [|apply (Hbefore k); [lia|done]].
        rewrite Ha in Hb. injection Hb as <-. intros Ew. apply Hz0, Hz. done.
Qed.

Lemma init_sort_loop_spec wants i sa :
  Forall no_nul wants -> length sa = (i + length wants)%nat ->
  exists rc sa', init_sort_loop s wants i sa = Ret (rc, sa') /\
    ((rc = 0 /\ exists js, sa' = take i sa ++ map Some js /\ Forall2 (first_named (attrs s)) wants js
        /\ Forall (fun j => 0 <= j < nattrs s) js)
     \/ (rc = 1 /\ exists w, w ∈ wants /\ forall a, a ∈ attrs s -> attr_name a <> w)).
Proof.
  intros Hw. revert i sa. induction Hw as [|w wants Hw _ IH]; intros i sa Hlen; cbn.
  { exists 0, sa. split; [done|]. left. split; [done|]. exists [].
    cbn in *. rewrite take_ge, app_nil_r by lia. done. }
  rewrite Hn, Nat2Z.id, firstn_all. cbn [length] in Hlen.
  destruct (find_attr_spec w (attrs s) 0 Hw) as (o & E & Ho); [done|lia|].
  change (Z.of_nat 0) with 0 in E. rewrite E. cbn.
  destruct o as [j|].
  2:{ exists 1, sa. split; [done|]. right. split; [done|]. exists w. split; [left|done]. }
  destruct Ho as [Hj Hfirst].
  destruct (IH (S i) (<[i := Some j]> sa)) as (rc & sa' & -> & Hrc); [rewrite length_insert; lia|].
  exists rc, sa'. split; [done|]. destruct Hrc as [(-> & js & -> & HF & Hb)|(-> & w' & Hin & Hno)].
  - left. split; [done|]. exists (j :: js).
    assert (take (S i) (<[i := Some j]> sa) = take i sa ++ [Some j]) as ->.
    { erewrite take_S_r by (apply list_lookup_insert_eq; lia). by rewrite take_insert_ge. }
    rewrite <- app_assoc. split; [done|]. split; [by constructor|].
    rewrite <- Hn. constructor; [|done]. split; [by destruct Hfirst|lia].
  - right. split; [done|]. exists w'. split; [by right|done].
Qed.
End sort_attributes.

(** When [init_sort_attrs] returns 0 the sort attributes are indices. *)
Lemma find_attr_bound w l j k : find_attr w l j = Ret (Some k) -> j <= k < j + Z.of_nat (length l).
Proof.
  revert j. induction l as [|a l IH]; intros j E; cbn in E; [done|].
  apply res_bind_Ret in E as (c & _ & E). cbn [length]. case_decide.
  - injection E as <-. lia.
  - apply IH in E. lia.
Qed.

Lemma init_sort_loop_bound s wants i sa sa' :
  init_sort_loop s wants i sa = Ret (0, sa') -> length sa = (i + length wants)%nat ->
  nattrs s = Z.of_nat (length (attrs s)) ->
  Forall (fun o => exists j, o = Some j /\ 0 <= j < nattrs s) (take i sa) ->
  length sa' = length sa /\ Forall (fun o => exists j, o = Some j /\ 0 <= j < nattrs s) sa'.
Proof.
  intros E Hlen Hn. revert i sa E Hlen.
  induction wants as [|w wants IH]; intros i sa E Hlen Hi; cbn in E, Hlen.
  { injection E as <-. rewrite take_ge in Hi by lia. done. }
  apply res_bind_Ret in E as ([j|] & Ej & E); [|done].
  apply find_attr_bound in Ej. rewrite length_take in Ej.
  destruct (IH _ _ E) as [Hl HF]; [rewrite length_insert; lia| |].
  - erewrite take_S_r by (apply list_lookup_insert_eq; lia). rewrite take_insert_ge by lia.
    apply Forall_app. split; [done|]. constructor; [|done]. exists j. split; [done|lia].
  - by rewrite length_insert in Hl.
Qed.

Lemma init_sort_attrs_ok s wants s' :
  init_sort_attrs s wants = Ret (0, s') -> nattrs s = Z.of_nat (length (attrs s)) ->
  attrs s' = attrs s /\ nattrs s' = nattrs s /\ record_size s' = record_size s /\ sort_wf s'.
Proof.
  unfold init_sort_attrs. intros E Hn. apply res_bind_Ret in E as ([rc sa] & E & E').
  injection E' as -> <-. cbn. do 3 (split; [done|]).
  destruct (init_sort_loop_bound s wants 0 _ sa E) as [Hl HF];
    [by rewrite length_replicate|done|rewrite take_0; constructor|].
  rewrite length_replicate in Hl. split; cbn; [by rewrite Hl|done].
Qed.

(** What a program has when both steps succeeded. *)
Lemma sorting_schema_wf fs schema_file s0 want wants s :
  read_schema fs schema_file = Ret (Some s0) -> Forall (fun a => 0 <= length_ a) (attrs s0) ->
  nattrs s0 + sum_lengths (attrs s0) < 2^31 ->
  init_sort_attrs s0 (want :: wants) = Ret (0, s) ->
  schema_wf s /\ sort_wf s /\ 0 < record_size s.
Proof.
  intros Hroot Hlen Hb Hinit.
  destruct (read_schema_spec _ _ _ Hroot) as (_ & _ & _ & Hwf). destruct (Hwf Hlen Hb) as [Hn0 Hl0 Hs0 Hb0].
  destruct (init_sort_attrs_ok s0 _ s Hinit Hn0) as (Ha & Hn & Hr & Hsort).
  split; [split; by rewrite ?Ha, ?Hn, ?Hr|]. split; [done|].
  pose proof (sum_lengths_nonneg _ Hl0). rewrite Hr, Hs0.
  assert (0 < nattrs s) as Hpos; [|rewrite Hn in Hpos; lia].
  destruct Hsort as [Hlen1 HF]. unfold init_sort_attrs in Hinit. apply res_bind_Ret in Hinit as ([rc sa] & _ & E).
  injection E as -> E. rewrite <- E in Hlen1, HF. cbn in Hlen1, HF.
  destruct sa as [|o sa]; [cbn in Hlen1; lia|]. apply Forall_cons_1 in HF as [(j & _ & Hj) _]. rewrite Hn. lia.
Qed.

(** ** Properties *)

(** A schema description: an array with one object of [name] and [length] for
    each attribute. *)
Definition attribute_json (n : string) (len : Z) : Json.Value :=
  Json.objectValue [(lit "length", Json.intValue len); (lit "name", Json.stringValue (Some (lit n)))].
Definition schema_json (l : list (string * Z)) : Json.Value :=
  Json.arrayValue (imap (fun i p => (Z.of_nat i, attribute_json p.1 p.2)) l).

Definition schema_text (l : list (string * Z)) : bytes := write new_FastWriter (schema_json l).

(** Reading a schema is safe on any file of less than 2 GB without a minus
    sign, with no file as an empty one: an error of the parser gives -1, a value of the wrong
    shape an exception, and nothing is read outside a string or a buffer.  A
    schema that is accepted, with no negative length and a total below 2^31,
    is well-formed: as many attributes as [nattrs], and [record_size] is the
    sum of the lengths plus one separator byte for each attribute. *)
Theorem read_schema_wf fs schema_file :
  Z.of_nat (length (default [] (fs !! schema_file))) < 2^31 - 1 -> zb 45 ∉ default [] (fs !! schema_file) ->
  match read_schema fs schema_file with
  | Ret (Some s) => sort_attrs s = [] /\ n_sort_attrs s = 0
      /\ (Forall (fun a => 0 <= length_ a) (attrs s) -> nattrs s + sum_lengths (attrs s) < 2^31 -> schema_wf s)
  | Ret None | Throw => True
  | Undef | NoFuel => False
  end.
Proof.
  intros Hlen Hminus. assert (defined (fun _ => True) (read_schema fs schema_file)) as Hd.
  { unfold read_schema, parse_stream. pose proof (getline_shorter (default [] (fs !! schema_file))).
    destruct (parse_returns Features_all (getline_eof (default [] (fs !! schema_file))) Json.nullValue)
      as (ok & v & r & E & Hv & _); [lia|constructor|].
    destruct (parse_agrees Features_all (getline_eof (default [] (fs !! schema_file))) Json.nullValue) as [->|[_ Hm]]; [rewrite E|by destruct Hminus; apply getline_incl].
    cbn [mbind res_bind]. destruct ok; [|done].
    eapply (defined_bind (fun _ => True)); [|done]. unfold schema_of_json. case_decide; [done|].
    eapply defined_bind; [by apply read_attributes_defined|]. by intros [l rs] _. }
  destruct (read_schema fs schema_file) as [[s|]| | |] eqn:E; [|done..].
  destruct (read_schema_spec _ _ _ E) as (_ & Hs). done.
Qed.

(** A schema file of two attributes. *)
Definition pair_fs : filesystem := {[ lit "schema" := schema_text [("id"%string, 9); ("name"%string, 20)] ]}.

Lemma read_schema_wf_witness :
  exists s, read_schema pair_fs (lit "schema") = Ret (Some s) /\ schema_wf s /\ record_size s = 31.
Proof.
  pose proof (read_schema_wf pair_fs (lit "schema") ltac:(vm_compute; reflexivity)
    ltac:(apply (bool_decide_unpack _); vm_compute; exact I)) as H.
  destruct (read_schema pair_fs (lit "schema")) as [[s|]| | |] eqn:E; vm_compute in E; try discriminate E.
  exists s. split; [reflexivity|]. injection E as E. split; [|rewrite <- E; reflexivity].
  apply H; rewrite <- E; [repeat constructor; discriminate|reflexivity].
Defined.

(** [init_sort_attrs] resolves each requested name to the index of the
    first attribute with that name and then the schema is ready for sorting;
    or it returns 1, and some requested name is no attribute's.  The rest of
    the schema is unchanged. *)
Theorem init_sort_attrs_resolves s wants :
  nattrs s = Z.of_nat (length (attrs s)) -> Forall (fun a => NUL ∈ name a) (attrs s) ->
  Forall no_nul wants ->
  exists rc s', init_sort_attrs s wants = Ret (rc, s') /\
    attrs s' = attrs s /\ nattrs s' = nattrs s /\ record_size s' = record_size s /\
    ((rc = 0 /\ sort_wf s' /\ exists js, sort_attrs s' = map Some js
        /\ Forall2 (first_named (attrs s)) wants js)
     \/ (rc = 1 /\ exists w, w ∈ wants /\ forall a, a ∈ attrs s -> attr_name a <> w)).
Proof.
  intros Hn Hnames Hw. unfold init_sort_attrs.
  destruct (init_sort_loop_spec s Hn Hnames wants 0 (replicate (length wants) None) Hw)
    as (rc & sa & -> & H); [by rewrite length_replicate|]. cbn.
  eexists _, _. split; [done|]. cbn. do 3 (split; [done|]).
  destruct H as [(-> & js & -> & HF & Hb)|H]; [left|by right]. split; [done|]. cbn.
  split; [|by exists js]. split; cbn; rewrite take_0; cbn.
  { rewrite (Forall2_length HF). by rewrite length_map. }
  apply Forall_map. eapply list.Forall_impl; [done|]. intros j Hj. by exists j.
Qed.

(** Two attributes, to resolve and to compare by. *)
Definition pair_schema : Schema :=
  mkSchema [mkAttribute (lit "id" ++ [NUL]) (lit "string" ++ [NUL]) 3;
            mkAttribute (lit "city" ++ [NUL]) (lit "string" ++ [NUL]) 4] 2 [Some 1; Some 0] 2 9.

Lemma pair_schema_wf : schema_wf pair_schema /\ sort_wf pair_schema.
Proof.
  split; split; try (vm_compute; reflexivity).
  - repeat constructor; discriminate.
  - repeat constructor; eexists; (split; [reflexivity|split; [discriminate|reflexivity]]).
Qed.

Lemma init_sort_attrs_resolves_witness :
  exists rc s', init_sort_attrs pair_schema [lit "city"; lit "zip"] = Ret (rc, s') /\
    attrs s' = attrs pair_schema /\ nattrs s' = nattrs pair_schema
    /\ record_size s' = record_size pair_schema /\
    ((rc = 0 /\ sort_wf s' /\ exists js, sort_attrs s' = map Some js
        /\ Forall2 (first_named (attrs pair_schema)) [lit "city"; lit "zip"] js)
     \/ (rc = 1 /\ exists w, w ∈ [lit "city"; lit "zip"]
           /\ forall a, a ∈ attrs pair_schema -> attr_name a <> w)).
Proof.
  apply (init_sort_attrs_resolves pair_schema [lit "city"; lit "zip"]); [reflexivity|..].
  - repeat constructor; cbn; apply list_elem_of_In; cbn; tauto.
  - repeat constructor; unfold no_nul; rewrite list_elem_of_In; cbn; intuition discriminate.
Defined.

(** C6: the record comparison reads inside both records and is the
    lexicographic order of the sort fields, in the order they were requested:
    the sign of the result is that of the sort keys, comparing the other way
    gives the opposite sign, and zero means equal sort keys. *)
Theorem record_comparator_orders s d1 d2 :
  schema_wf s -> sort_wf s ->
  Z.of_nat (length d1) = record_size s -> Z.of_nat (length d2) = record_size s ->
  exists z z', record_comparator (mkRecord s d1) (mkRecord s d2) = Ret z
    /\ record_comparator (mkRecord s d2) (mkRecord s d1) = Ret z'
    /\ (z ?= 0) = key_cmp s d1 d2 /\ (z' ?= 0) = CompOpp (z ?= 0)
    /\ (z = 0 <-> sort_key s d1 = sort_key s d2).
Proof.
  intros Hwf Hs H1 H2. unfold record_comparator.
  destruct (comparator_spec s d1 d2) as (z & E & Hz); try done.
  destruct (comparator_spec s d2 d1) as (z' & E' & Hz'); try done.
  exists z, z'. do 3 (split; [done|]). split.
  - rewrite Hz, Hz'. apply (cmp_antisym (cmp:=key_cmp s)).
  - rewrite <- Z.compare_eq_iff, Hz. unfold key_cmp, cmp_on. split.
    + apply cmp_eq.
    + intros ->. apply cmp_refl.
Qed.

Lemma record_comparator_orders_witness :
  exists z z', record_comparator (mkRecord pair_schema (lit "007,Rome,"))
      (mkRecord pair_schema (lit "006,Rome,")) = Ret z
    /\ record_comparator (mkRecord pair_schema (lit "006,Rome,"))
        (mkRecord pair_schema (lit "007,Rome,")) = Ret z'
    /\ (z ?= 0) = key_cmp pair_schema (lit "007,Rome,") (lit "006,Rome,")
    /\ (z' ?= 0) = CompOpp (z ?= 0)
    /\ (z = 0 <-> sort_key pair_schema (lit "007,Rome,") = sort_key pair_schema (lit "006,Rome,")).
Proof.
  apply (record_comparator_orders pair_schema (lit "007,Rome,") (lit "006,Rome,"));
    [apply pair_schema_wf|apply pair_schema_wf|reflexivity..].
Defined.
