(* ===== verification/Runs.v ===== *)
(** * Runs: [mk_runs] of library.cc

    The first phase of the external sort: the input is read [run_length]
    records at a time, each batch is sorted in memory and appended to the
    output. *)

From S2P Require Import Prelude CLib Schema.

Section mk_runs.
Context `{QSort}.

(** The loop over [j] that turns the buffer into records; it stops at the
    first record that starts with a zero byte. *)
Fixpoint collect_records (s : Schema) (buffer_memory : bytes) (j n : nat) {struct n}
    : res (list Record_) :=
  match n with
  | O => Ret []
  | S n =>
      p ← ptr_at buffer_memory (record_size s * Z.of_nat j);
      match p with
      | [] => Undef
      | c :: _ =>
          if decide (c = NUL) then Ret []
          else
            l ← collect_records s buffer_memory (S j) n;
            Ret (mkRecord s (take (Z.to_nat (record_size s)) p) :: l)
      end
  end.

(** The loop that writes the sorted records back. *)
Fixpoint write_records (fs : filesystem) (out_fp : FILE) (l : list Record_)
    : res (filesystem * FILE) :=
  match l with
  | [] => Ret (fs, out_fp)
  | r :: l =>
      '(fs, out_fp) ← fwrite fs out_fp (data r);
      write_records fs out_fp l
  end.

(** The [do] loop. *)
Fixpoint mk_runs_loop (fuel : nat) (s : Schema) (run_length : nat)
    (fs : filesystem) (in_fp out_fp : FILE) {struct fuel} : res (filesystem * FILE * FILE) :=
  match fuel with
  | O => NoFuel
  | S fuel =>
      let rs := Z.to_nat (record_size s) in
      let buffer_memory := replicate (rs * run_length) NUL in
      '(got, n, in_fp) ← fread fs in_fp rs run_length;
      if decide (n = 0%nat) then Ret (fs, in_fp, out_fp)
      else
        records ← collect_records s (splice buffer_memory 0 got) 0 run_length;
        sorted ← qsort_res record_comparator records;
        '(fs, out_fp) ← write_records fs out_fp sorted;
        if decide (length records = run_length)
        then mk_runs_loop fuel s run_length fs in_fp out_fp
        else Ret (fs, in_fp, out_fp)
  end.

(** [mk_runs].  The array [records] has [run_length] elements and the buffer
    [record_size * run_length] bytes, a [size_t]. *)
Definition mk_runs (fs : filesystem) (in_fp out_fp : FILE) (run_length : Z) (s : Schema)
    : res (filesystem * FILE * FILE) :=
  if decide (0 < run_length /\ record_size s * run_length < 2^64) then
    c ← contents fs in_fp;
    mk_runs_loop (S (length c)) s (Z.to_nat run_length) fs (rewind in_fp) (rewind out_fp)
  else Undef.
End mk_runs.

(** A record as the data files hold it: [record_size] bytes, none of them zero. *)
Definition rec_ok (s : Schema) (r : bytes) : Prop :=
  length r = Z.to_nat (record_size s) /\ no_nul r.

Abbreviation key_le s := (cmp_le (key_cmp s)).

(** A batch and its sorted run. *)
Definition sorts_to (s : Schema) (batch run : list bytes) : Prop :=
  run ≡ₚ batch /\ StronglySorted (key_le s) run.

Lemma rec_ok_uniform s rs : Forall (rec_ok s) rs -> uniform (Z.to_nat (record_size s)) rs.
Proof. intros. eapply list.Forall_impl; [done|]. by intros ? []. Qed.

Section mk_runs_proofs.
Context `{QSort} (s : Schema) (Hwf : schema_wf s) (Hsort : sort_wf s)
  (Hpos : 0 < record_size s).
Let rs := Z.to_nat (record_size s).

Lemma rec_ok_cons r : rec_ok s r -> exists c t, r = c :: t /\ c ≠ NUL.
Proof.
  intros [Hl Hn]. destruct r as [|c t]; [cbn in Hl; lia|].
  exists c, t. split; [done|]. intros ->. apply Hn. left.
Qed.

(** The buffer holds whole records and then zeros. *)
Lemma collect_records_spec pre l k n :
  uniform rs pre -> Forall (rec_ok s) l ->
  (n = length l /\ k = 0 \/ length l < n /\ 0 < k)%nat ->
  collect_records s (concat pre ++ concat l ++ replicate k NUL) (length pre) n
    = Ret (map (mkRecord s) l).
Proof.
  intros Hpre Hl. revert pre n Hpre.
  assert (forall pre (tl : bytes), uniform rs pre ->
    ptr_at (concat pre ++ tl) (record_size s * Z.of_nat (length pre)) = Ret tl) as Hptr.
  { intros pre tl Hpre. unfold ptr_at. rewrite length_app.
    rewrite (length_concat_uniform rs) by done.
    rewrite decide_True by (unfold rs; lia).
    rewrite drop_app_ge by (rewrite (length_concat_uniform rs) by done; unfold rs; lia).
    rewrite (length_concat_uniform rs) by done.
    rewrite (proj2 (Nat.sub_0_le _ _)) by (unfold rs; lia). done. }
  induction Hl as [|r l Hr Hl IH]; intros pre n Hpre Hn.
  - destruct n as [|n]; [done|]. cbn [collect_records concat app].
    rewrite Hptr by done. cbn [mbind res_bind].
    destruct k as [|k]; [cbn in Hn; lia|]. done.
  - destruct n as [|n]; [cbn in Hn; lia|]. cbn [collect_records].
    rewrite Hptr by done. cbn [mbind res_bind concat].
    destruct (rec_ok_cons r Hr) as (c & t & Er & Hc). rewrite Er at 1. cbn [app].
    rewrite decide_False by done. rewrite <- (app_assoc r).
    assert (collect_records s (concat pre ++ r ++ concat l ++ replicate k NUL) (S (length pre)) n
      = Ret (map (mkRecord s) l)) as ->.
    { rewrite <- (IH (pre ++ [r]) n).
      - rewrite concat_app, length_app. cbn. by rewrite app_nil_r, Nat.add_1_r, <- app_assoc.
      - apply uniform_app. split; [done|]. constructor; [apply Hr|constructor].
      - cbn in Hn. lia. }
    cbn. do 3 f_equal. apply take_app_length'. by destruct Hr.
Qed.

Lemma fwrite_end fs f d c :
  fs !! fname f = Some c -> fpos f = length c ->
  fwrite fs f d = Ret (<[fname f := c ++ d]> fs, mkFILE (fname f) (length (c ++ d)) (feof f)).
Proof.
  intros Hc Hp. unfold fwrite, contents. rewrite Hc. cbn.
  rewrite Hp, Nat.sub_diag. cbn. rewrite app_nil_r, splice_end by done.
  by rewrite length_app.
Qed.

Lemma write_records_spec l fs f c :
  fs !! fname f = Some c -> fpos f = length c ->
  exists f', write_records fs f (map (mkRecord s) l) = Ret (<[fname f := c ++ concat l]> fs, f')
    /\ fname f' = fname f /\ fpos f' = length (c ++ concat l).
Proof.
  revert fs f c. induction l as [|r l IH]; intros fs f c Hc Hp; cbn.
  - exists f. rewrite app_nil_r. split; [|done]. by rewrite insert_id.
  - rewrite (fwrite_end fs f r c) by done. cbn.
    destruct (IH (<[fname f := c ++ r]> fs) (mkFILE (fname f) (length (c ++ r)) (feof f)) (c ++ r))
      as (f' & -> & Hf & Hp'); [by cbn; rewrite lookup_insert_eq|done|].
    cbn in *. exists f'. rewrite insert_insert_eq, <- app_assoc.
    split; [done|]. split; [done|]. by rewrite Hp', <- app_assoc.
Qed.

Lemma sort_batch batch :
  Forall (rec_ok s) batch ->
  exists run, qsort_res record_comparator (map (mkRecord s) batch) = Ret (map (mkRecord s) run)
    /\ sorts_to s batch run.
Proof.
  intros Hb. rewrite Forall_forall in Hb.
  destruct (qsort_res_spec record_comparator (cmp_on data (key_cmp s))
    (map (mkRecord s) batch)) as (k & Hk & Hp & Hs).
  { intros x y Hx Hy. apply list_elem_of_fmap in Hx as (a & -> & Ha).
    apply list_elem_of_fmap in Hy as (b & -> & Hb').
    apply comparator_spec; try done;
      [apply list_elem_of_In in Ha|apply list_elem_of_In in Hb'];
      unfold rec_ok in Hb; naive_solver lia. }
  exists (map data k).
  assert (map (mkRecord s) (map data k) = k) as E.
  { assert (Forall (fun r => schema r = s) k) as Hks.
    { rewrite Hp. apply Forall_map. by apply Forall_true. }
    clear -Hks. induction Hks as [|[? ?] k Hr _ IH]; cbn; [done|]. cbn in Hr.
    subst. by rewrite IH. }
  rewrite E. split; [done|]. split.
  - rewrite Hp. rewrite map_map. cbn. by rewrite map_id.
  - clear -Hs. induction Hs as [|r k Hs IH Hr]; cbn; constructor; [done|].
    apply Forall_map. exact Hr.
Qed.

(** One pass through the loop from record [p] of the input on. *)
Lemma mk_runs_loop_spec fuel recs fs in_fp out_fp c L p :
  (0 < L)%nat -> Forall (rec_ok s) recs ->
  (length (drop p recs) < fuel)%nat ->
  fname in_fp ≠ fname out_fp ->
  fs !! fname in_fp = Some (concat recs) -> fpos in_fp = (rs * p)%nat ->
  fs !! fname out_fp = Some c -> fpos out_fp = length c ->
  exists runs in_fp' out_fp',
    mk_runs_loop fuel s L fs in_fp out_fp =
      Ret (<[fname out_fp := c ++ concat (concat runs)]> fs, in_fp', out_fp')
    /\ Forall2 (sorts_to s) (chop L (drop p recs)) runs
    /\ fname in_fp' = fname in_fp /\ fname out_fp' = fname out_fp.
Proof.
  intros HL Hrecs. revert fs in_fp out_fp c p.
  induction fuel as [|fuel IH]; intros fs in_fp out_fp c p Hf Hne Hin Hip Hout Hop; [lia|].
  pose proof (rec_ok_uniform _ _ Hrecs) as Hu. fold rs in Hu.
  cbn [mk_runs_loop]. fold rs. unfold fread, contents. rewrite Hin. cbn [of_option mbind res_bind].
  rewrite Hip, (drop_concat_uniform rs), (take_concat_uniform rs) by (try apply uniform_drop; done).
  remember (take L (drop p recs)) as batch eqn:Eb.
  assert (uniform rs batch) as Hub by (subst batch; by apply uniform_take, uniform_drop).
  assert (Forall (rec_ok s) batch) as Hb by (subst batch; by apply Forall_take, Forall_drop).
  rewrite (length_concat_uniform rs) by done.
  assert (0 < rs)%nat by (unfold rs; lia).
  rewrite (Nat.mul_comm rs (length batch)), Nat.div_mul by lia.
  destruct (drop p recs) as [|r0 rest] eqn:Erest.
  { rewrite take_nil in Eb. subst batch. cbn. exists [], (mkFILE (fname in_fp) (rs * p + 0) (bool_decide (0 < rs * L)%nat)), out_fp.
    rewrite app_nil_r, insert_id by done.
    repeat split; constructor. }
  rewrite decide_False by (subst batch; rewrite length_take; cbn; lia).
  assert (splice (replicate (rs * L) NUL) 0 (concat batch)
    = concat [] ++ concat batch ++ replicate (rs * L - rs * length batch) NUL) as ->.
  { rewrite splice_0. cbn. f_equal. rewrite (length_concat_uniform rs) by done.
    by rewrite drop_replicate. }
  assert (length batch = L \/ length batch < L)%nat as HbL.
  { subst batch. rewrite length_take. lia. }
  rewrite (collect_records_spec [] batch); [|constructor|done|nia].
  cbn [mbind res_bind]. destruct (sort_batch batch Hb) as (run & -> & Hrun).
  cbn [mbind res_bind].
  destruct (write_records_spec run fs out_fp c Hout Hop) as (out' & -> & Hon & Hopos).
  cbn [mbind res_bind]. rewrite length_map.
  rewrite chop_cons by done. rewrite <- Eb.
  assert (drop L (r0 :: rest) = drop (p + L) recs) as Edrop.
  { by rewrite <- Erest, drop_drop. }
  case_decide as HLb.
  - edestruct (IH (<[fname out_fp:=c ++ concat run]> fs)
      (mkFILE (fname in_fp) (rs * p + length batch * rs) (bool_decide (length batch * rs < rs * L)%nat))
      out' (c ++ concat run) (p + L)%nat) as (runs & i' & o' & Hr & HF & Hi & Ho).
    + assert (length (drop (p + L) recs) < length (r0 :: rest))%nat; [|lia].
      rewrite <- Edrop, length_drop. cbn. lia.
    + cbn. by rewrite Hon.
    + cbn. by rewrite lookup_insert_ne.
    + cbn. lia.
    + by rewrite Hon, lookup_insert_eq.
    + done.
    + exists (run :: runs), i', o'. cbn in Hi |- *.
      rewrite Hr, Hon, insert_insert_eq.
      rewrite concat_app, <- app_assoc. rewrite Edrop.
      split; [done|]. split; [by constructor|]. split; [done|]. by rewrite Ho.
  - exists [run]. eexists _, out'. split; [cbn; by rewrite app_nil_r|].
    split; [|done]. rewrite Edrop.
    assert (length (r0 :: rest) < L)%nat.
    { subst batch. rewrite length_take in HLb. lia. }
    rewrite <- Edrop, drop_ge by lia. constructor; [done|constructor].
Qed.
End mk_runs_proofs.

(** ** The phase as a whole *)

Lemma mk_runs_spec `{QSort} s fs in_fp out_fp L recs :
  schema_wf s -> sort_wf s -> 0 < record_size s ->
  0 < L -> record_size s * L < 2^64 ->
  Forall (rec_ok s) recs ->
  fname in_fp ≠ fname out_fp ->
  fs !! fname in_fp = Some (concat recs) -> fs !! fname out_fp = Some [] ->
  exists runs in_fp' out_fp',
    mk_runs fs in_fp out_fp L s
      = Ret (<[fname out_fp := concat (concat runs)]> fs, in_fp', out_fp')
    /\ Forall2 (sorts_to s) (chop (Z.to_nat L) recs) runs
    /\ fname in_fp' = fname in_fp.
Proof.
  intros Hwf Hsort Hpos HL Hsz Hrecs Hne Hin Hout. unfold mk_runs.
  rewrite decide_True by done. unfold contents. rewrite Hin. cbn [of_option mbind res_bind].
  assert (length (concat recs) = Z.to_nat (record_size s) * length recs)%nat as Hlen.
  { apply length_concat_uniform. by apply rec_ok_uniform. }
  destruct (mk_runs_loop_spec s Hwf Hsort Hpos (S (length (concat recs))) recs fs
    (rewind in_fp) (rewind out_fp) [] (Z.to_nat L) 0) as (runs & i & o & -> & HF & Hi & _);
    try first [done|lia|rewrite drop_0; nia|cbn; lia].
  by exists runs, i, o.
Qed.

(** The runs together hold the input's records, each once. *)
Lemma sorts_to_perm s batches runs :
  Forall2 (sorts_to s) batches runs -> concat runs ≡ₚ concat batches.
Proof. induction 1 as [|b r bs rs [Hp _] _ IH]; cbn; [done|]. by rewrite Hp, IH. Qed.

(** ** Property *)

(** C4: [mk_runs] writes to the output file, for each batch of [run_length]
    records of the input in order (the last possibly shorter), a sorted
    permutation of the batch; together the runs hold exactly the input's
    records, and no other file changes. *)
Theorem mk_runs_sorted_runs `{QSort} s fs in_fp out_fp L recs :
  schema_wf s -> sort_wf s -> 0 < record_size s ->
  0 < L -> record_size s * L < 2^64 ->
  Forall (rec_ok s) recs ->
  fname in_fp ≠ fname out_fp ->
  fs !! fname in_fp = Some (concat recs) -> fs !! fname out_fp = Some [] ->
  exists runs in_fp' out_fp',
    mk_runs fs in_fp out_fp L s
      = Ret (<[fname out_fp := concat (concat runs)]> fs, in_fp', out_fp')
    /\ Forall2 (sorts_to s) (chop (Z.to_nat L) recs) runs
    /\ concat runs ≡ₚ recs.
Proof.
  intros Hwf Hsort Hpos HL Hsz Hrecs Hne Hin Hout.
  destruct (mk_runs_spec s fs in_fp out_fp L recs) as (runs & i & o & -> & HF & _); try done.
  exists runs, i, o. split; [done|]. split; [done|].
  rewrite (sorts_to_perm _ _ _ HF). by rewrite concat_chop by lia.
Qed.

Definition pair_records : list bytes := [lit "007,Rome,"; lit "006,Rome,"; lit "001,Oslo,"].

Lemma pair_records_ok : Forall (rec_ok pair_schema) pair_records.
Proof.
  repeat constructor; unfold no_nul; rewrite list_elem_of_In; cbn; intuition discriminate.
Qed.

Lemma mk_runs_sorted_runs_witness :
  let fs : filesystem := <[lit "out" := []]> {[lit "in" := concat pair_records]} in
  exists runs in_fp' out_fp',
    @mk_runs insertion_qsort fs (mkFILE (lit "in") 0 false) (mkFILE (lit "out") 0 false) 2 pair_schema
      = Ret (<[lit "out" := concat (concat runs)]> fs, in_fp', out_fp')
    /\ Forall2 (sorts_to pair_schema) (chop 2 pair_records) runs
    /\ concat runs ≡ₚ pair_records.
Proof.
  cbn zeta. apply (@mk_runs_sorted_runs insertion_qsort pair_schema _ (mkFILE (lit "in") 0 false)
    (mkFILE (lit "out") 0 false) 2 pair_records); try (vm_compute; congruence).
  - apply pair_schema_wf.
  - apply pair_schema_wf.
  - apply pair_records_ok.
Defined.
