(* ===== verification/RunIterator.v ===== *)
(** * RunIterator: the class [RunIterator] of library.cc

    A buffered reader of one sorted run.  All iterators of a pass share one
    stream, so every operation takes and returns the stream. *)

From S2P Require Import Prelude CLib Schema Runs.

(** ** State

    [buffer_pointer] is an offset into [buffer]; [current_record] holds the
    bytes of the record it points to, [None] for the null pointer. *)
Record RunIterator := mkRunIterator {
  buffer : bytes;
  buffer_pointer : Z;
  buf_size : Z;
  left_in_buf : Z;
  file_pos : Z;
  end_file_pos : Z;
  run_length : Z;
  records_left : Z;
  id : Z;
  it_schema : Schema;
  current_record : option bytes;
}.

Section operations.
Context `{Heap}.

(** The constructor; [next_id] is the static counter of library.h. *)
Definition new_RunIterator (fp : FILE) (start_pos run_length buf_size : Z) (s : Schema)
    (next_id : Z) : res (RunIterator * FILE * Z) :=
  fp ← fseek_set fp start_pos;
  Ret (mkRunIterator
    (malloc_bytes (Z.to_nat buf_size)) 0 buf_size 0
    start_pos (start_pos + run_length * record_size s)
    run_length run_length next_id s
    (Some (malloc_bytes (Z.to_nat (record_size s)))), fp, i32 (next_id + 1)).

Definition read_into_buffer (fs : filesystem) (fp : FILE) (it : RunIterator)
    : res (RunIterator * FILE) :=
  if decide (left_in_buf it > 0 \/ records_left it = 0) then Ret (it, fp)
  else if decide (record_size (it_schema it) = 0) then Undef
  else
    let rs := record_size (it_schema it) in
    let left := if decide (u32 (u64 (buf_size it) / rs) < run_length it)
                then u64 (buf_size it) / rs else run_length it in
    fp ← fseek_set fp (file_pos it);
    let buf := replicate (Z.to_nat (buf_size it)) NUL in
    if decide (rs * left <= buf_size it /\ 0 <= left) then
      '(got, n, fp) ← fread fs fp (Z.to_nat rs) (Z.to_nat left);
      let records_read := i32 (Z.of_nat n) in
      let short := bool_decide (records_read < left) in
      Ret (mkRunIterator
        (splice buf 0 got) 0 (buf_size it)
        (if short then records_read else left)
        (file_pos it + rs * records_read) (end_file_pos it) (run_length it)
        (if short then records_read else records_left it)
        (id it) (it_schema it) (current_record it), fp)
    else Undef.

Definition has_next (fs : filesystem) (fp : FILE) (it : RunIterator)
    : res (bool * RunIterator * FILE) :=
  '(it, fp) ← (if decide (left_in_buf it = 0) then read_into_buffer fs fp it
               else Ret (it, fp));
  potentially_has_next_record ←
    (if decide (left_in_buf it > 0) then Ret true
     else match buffer it with
          | [] => Undef
          | c :: _ => Ret (bool_decide (c ≠ NUL))
          end);
  Ret (bool_decide (records_left it > 0) && potentially_has_next_record, it, fp).

Definition next (fs : filesystem) (fp : FILE) (it : RunIterator)
    : res (option bytes * RunIterator * FILE) :=
  '(b, it, fp) ← has_next fs fp it;
  if negb b then
    Ret (None, mkRunIterator (buffer it) (buffer_pointer it) (buf_size it) (left_in_buf it)
      (file_pos it) (end_file_pos it) (run_length it) (records_left it) (id it)
      (it_schema it) None, fp)
  else
    match current_record it with
    | None => Undef
    | Some _ =>
        let rs := record_size (it_schema it) in
        src ← ptr_at (buffer it) (buffer_pointer it);
        d ← strncpy src (Z.to_nat rs);
        Ret (Some d, mkRunIterator (buffer it) (buffer_pointer it + rs) (buf_size it)
          (left_in_buf it - 1) (file_pos it) (end_file_pos it) (run_length it)
          (records_left it - 1) (id it) (it_schema it) (Some d), fp)
    end.

Definition get_current_record (fs : filesystem) (fp : FILE) (it : RunIterator)
    : res (option bytes * RunIterator * FILE) :=
  if decide (records_left it = run_length it) then next fs fp it
  else Ret (current_record it, it, fp).

Definition get_record_size (it : RunIterator) : Z := i32 (record_size (it_schema it)).
End operations.

(** ** What an iterator yields

    [c] is the number of records one refill asks for.  A refill at a point
    where fewer than [c] records are left in the file resets [records_left] to
    what was read; so the run's end is respected only when every refill of the
    run finds [c] records, or the file ends within the run. *)

Definition refill (L bs rs : Z) : nat := Z.to_nat (Z.min (bs / rs) L).

Definition emit {A} (c r : nat) (l : list A) : list A :=
  if decide (c = 0%nat) then []
  else if decide (length l < c * ((r + c - 1) / c))%nat then l else take r l.

Lemma emit_0 {A} c (l : list A) : emit c 0 l = [].
Proof.
  unfold emit. case_decide; [done|]. rewrite Nat.div_small by lia.
  rewrite Nat.mul_0_r, decide_False by lia. done.
Qed.

Lemma emit_short {A} c r (l : list A) :
  (0 < r)%nat -> (length l < c)%nat -> emit c r l = l.
Proof.
  intros. unfold emit. rewrite decide_False, decide_True; [done| |lia].
  assert (1 <= (r + c - 1) / c)%nat; [|nia]. apply Nat.div_le_lower_bound; lia.
Qed.

Lemma emit_full {A} c r (l : list A) :
  (0 < r)%nat -> (0 < c <= length l)%nat ->
  emit c r l = if decide (r <= c)%nat then take r l
               else take c l ++ emit c (r - c) (drop c l).
Proof.
  intros Hr Hc. unfold emit. rewrite !(decide_False (P:=c = 0%nat)) by lia.
  destruct (decide (r <= c)%nat) as [Hrc|Hrc].
  - replace ((r + c - 1) / c)%nat with 1%nat.
    + by rewrite decide_False by lia.
    + apply (Nat.div_unique _ _ 1 (r - 1)); lia.
  - replace ((r + c - 1) / c)%nat with (S ((r - c + c - 1) / c)).
    2:{ replace (r + c - 1)%nat with (r - c + c - 1 + 1 * c)%nat by lia.
        rewrite Nat.div_add by lia. lia. }
    set (k := ((r - c + c - 1) / c)%nat). rewrite length_drop.
    destruct (decide (length l < c * S k)%nat).
    + rewrite decide_True by lia. by rewrite take_drop.
    + rewrite decide_False by lia.
      rewrite <- (take_drop c l) at 1. rewrite take_app_ge by (rewrite length_take; lia).
      by rewrite length_take, Nat.min_l by lia.
Qed.

(** When no refill falls short before the end of the run, the iterator yields
    exactly its run. *)
Lemma emit_exact {A} c r (l : list A) :
  (0 < c)%nat ->
  (length l <= r \/ c * ((r + c - 1) / c) <= length l)%nat ->
  emit c r l = take r l.
Proof.
  intros Hc H. unfold emit. rewrite decide_False by lia. case_decide; [|done].
  rewrite take_ge; [done|lia].
Qed.

(** ** Refinement: the iterator against the list it yields *)

Section iterator_spec.
Context `{Heap} (s : Schema) (recs : list bytes) (file : bytes) (L bs : Z).
Context (Hrs : 0 < record_size s) (Hrs31 : record_size s < 2^31)
  (HL : 0 < L) (Hbs : 0 < bs < 2^31) (Hrecs : Forall (rec_ok s) recs).
Let rs := Z.to_nat (record_size s).
Let c := refill L bs (record_size s).

(** The iterator has [B] left in its buffer and [q] as its next record of the
    file; [l] is what it is still going to yield. *)
Record it_state (it : RunIterator) (B : list bytes) (q : nat) : Prop := {
  st_schema : it_schema it = s;
  st_bs : buf_size it = bs;
  st_L : run_length it = L;
  st_left : left_in_buf it = Z.of_nat (length B);
  st_r : 0 <= records_left it <= L;
  st_pos : file_pos it = record_size s * Z.of_nat q;
  st_B : Forall (rec_ok s) B;
  st_buf : exists pre tl, buffer it = concat pre ++ concat B ++ tl /\ uniform rs pre
    /\ buffer_pointer it = record_size s * Z.of_nat (length pre);
  st_len : length (buffer it) = Z.to_nat bs;
}.

(** What is left to yield, from the state. *)
Definition remaining (it : RunIterator) (B : list bytes) (q : nat) : list bytes :=
  let r := Z.to_nat (records_left it) in
  if decide (r <= length B)%nat then take r B
  else B ++ emit c (r - length B) (drop q recs).

Definition yields (it : RunIterator) (l : list bytes) : Prop :=
  exists B q, it_state it B q /\ remaining it B q = l /\
    (l ≠ [] -> is_Some (current_record it)).

Lemma c_bound : (rs * c <= Z.to_nat bs)%nat /\ Z.of_nat c <= L /\ Z.of_nat c < 2^31.
Proof.
  unfold c, refill, rs. pose proof (Z.mul_div_le bs (record_size s) Hrs).
  assert (0 <= bs / record_size s) by (apply Z.div_pos; lia).
  assert (bs / record_size s <= bs) by (apply Z.div_le_upper_bound; nia).
  repeat split; nia.
Qed.

Lemma read_chunk fs fp q m :
  fs !! fname fp = Some (concat recs) -> fname fp = file ->
  fread fs (mkFILE file (rs * q) false) rs m =
    Ret (concat (take m (drop q recs)), length (take m (drop q recs)),
      mkFILE file (rs * q + rs * length (take m (drop q recs)))
        (bool_decide (rs * length (take m (drop q recs)) < rs * m)%nat)).
Proof.
  intros Hf <-. unfold fread, contents. cbn. rewrite Hf. cbn.
  pose proof (rec_ok_uniform _ _ Hrecs) as Hu. fold rs in Hu.
  rewrite drop_concat_uniform, take_concat_uniform by (try apply uniform_drop; done).
  rewrite (length_concat_uniform rs) by (by apply uniform_take, uniform_drop).
  do 3 f_equal. rewrite Nat.mul_comm, Nat.div_mul; [done|unfold rs; lia].
Qed.

(** [read_into_buffer] on an empty buffer with records left to give. *)
Lemma read_into_buffer_spec fs fp it q :
  fs !! file = Some (concat recs) -> fname fp = file ->
  it_state it [] q -> 0 < records_left it ->
  exists it' fp', read_into_buffer fs fp it = Ret (it', fp') /\ fname fp' = file /\
    let B := take c (drop q recs) in
    it_state it' B (q + length B) /\ current_record it' = current_record it /\
    records_left it' = (if decide (length B < c)%nat then Z.of_nat (length B) else records_left it) /\
    (B = [] -> exists t, buffer it' = NUL :: t).
Proof.
  intros Hf Hfp Hst Hr. destruct Hst. unfold read_into_buffer.
  rewrite decide_False by (cbn in st_left0; lia). rewrite st_schema0.
  rewrite decide_False by lia. rewrite st_bs0, st_L0.
  assert (0 <= bs / record_size s) by (apply Z.div_pos; lia).
  assert (bs / record_size s <= bs) by (apply Z.div_le_upper_bound; nia).
  rewrite (u64_small bs), (u32_small (bs / record_size s)) by lia.
  assert ((if decide (bs / record_size s < L) then bs / record_size s else L) = Z.of_nat c) as ->.
  { unfold c, refill. case_decide; lia. }
  destruct c_bound as (Hc1 & Hc2 & Hc3).
  unfold fseek_set. rewrite st_pos0, decide_True by nia. cbn [mbind res_bind].
  rewrite decide_True by (unfold rs in Hc1; nia).
  rewrite Nat2Z.id. fold rs. rewrite Hfp.
  replace (Z.to_nat (record_size s * Z.of_nat q)) with (rs * q)%nat by (unfold rs; lia).
  rewrite (read_chunk fs fp q c) by (by rewrite ?Hfp). cbn [mbind res_bind].
  set (B := take c (drop q recs)).
  assert (length B <= c)%nat as HBc by (unfold B; rewrite length_take; lia).
  rewrite i32_small by lia.
  assert (Forall (rec_ok s) B) as HB by (by apply Forall_take, Forall_drop).
  pose proof (length_concat_uniform rs B (rec_ok_uniform _ _ HB)) as HlB.
  eexists _, _. split; [done|]. split; [done|]. cbn zeta.
  split; [constructor; cbn; try done|split; [done|split]].
  - case_bool_decide; lia.
  - case_bool_decide; lia.
  - lia.
  - exists [], (drop (length (concat B)) (replicate (Z.to_nat bs) NUL)).
    cbn. split; [by rewrite splice_0|]. split; [constructor|lia].
  - rewrite length_splice; rewrite length_replicate; [done|nia].
  - cbn. case_bool_decide; case_decide; lia.
  - intros E. cbn. rewrite E. cbn.
    destruct (Z.to_nat bs) as [|n] eqn:En; [lia|]. by exists (replicate n NUL).
Qed.

(** A refill does not change what is left. *)
Lemma remaining_refill it it' q :
  let B := take c (drop q recs) in
  0 < records_left it ->
  records_left it' = (if decide (length B < c)%nat then Z.of_nat (length B) else records_left it) ->
  remaining it' B (q + length B) = remaining it [] q /\
  (remaining it [] q ≠ [] <-> B ≠ []) /\ (B ≠ [] -> 0 < records_left it').
Proof.
  intros B Hr Hrl.
  assert (length B = Nat.min c (length (drop q recs))) as HlB by apply length_take.
  unfold remaining.
  rewrite (decide_False (P:=(Z.to_nat (records_left it) <= length [])%nat)) by (cbn; lia).
  cbn [length app]. rewrite Nat.sub_0_r, Hrl.
  destruct (decide (c = 0%nat)) as [Hc0|Hc0].
  { assert (B = []) as EB by (apply length_zero_iff_nil; lia). rewrite EB. cbn [length].
    rewrite (decide_False (P:=(0 < c)%nat)), decide_False by lia.
    unfold emit. by rewrite !decide_True. }
  destruct (decide (length B < c)%nat) as [Hshort|Hshort].
  { assert (B = drop q recs) as EB by (apply take_ge; lia).
    rewrite Nat2Z.id, decide_True, firstn_all, emit_short, <- EB by lia.
    split; [done|]. split; [done|]. destruct B; [done|cbn; lia]. }
  assert (length B = c) as Ec by lia.
  assert (B ≠ []) as HB by (intros E; rewrite E in Ec; cbn in Ec; lia).
  rewrite (emit_full c (Z.to_nat (records_left it)) (drop q recs)), Ec by lia.
  destruct (decide (Z.to_nat (records_left it) <= c)%nat).
  - split; [unfold B; by rewrite take_take, Nat.min_l by lia|]. split; [|lia].
    split; [done|]. intros _ E. apply (f_equal length) in E.
    rewrite length_take in E. cbn in E. lia.
  - rewrite drop_drop. fold B. split; [done|]. split; [|lia]. by destruct B.
Qed.

Lemma has_next_buffered fs fp it B q :
  it_state it B q -> B ≠ [] ->
  has_next fs fp it = Ret (bool_decide (records_left it > 0), it, fp).
Proof.
  intros [] HB. unfold has_next. rewrite st_left0.
  assert (0 < length B)%nat by (destruct B; [done|cbn; lia]).
  rewrite decide_False by lia. cbn. rewrite decide_True by lia. cbn.
  by rewrite andb_true_r.
Qed.

(** [has_next] answers whether anything is left, refilling the buffer. *)
Lemma has_next_spec fs fp it B q :
  fs !! file = Some (concat recs) -> fname fp = file ->
  it_state it B q ->
  exists it' fp' B' q', has_next fs fp it = Ret (bool_decide (remaining it B q ≠ []), it', fp')
    /\ fname fp' = file /\ it_state it' B' q' /\ current_record it' = current_record it
    /\ remaining it' B' q' = remaining it B q
    /\ (remaining it B q ≠ [] -> B' ≠ [] /\ 0 < records_left it').
Proof.
  intros Hf Hfp Hst. destruct (decide (B = [])) as [->|HB].
  - unfold has_next. rewrite (st_left _ _ _ Hst). rewrite decide_True by done.
    destruct (decide (records_left it = 0)) as [Hr|Hr].
    + unfold read_into_buffer. rewrite decide_True by auto. cbn [mbind res_bind].
      rewrite (st_left _ _ _ Hst), decide_False by (cbn; lia).
      pose proof (st_len _ _ _ Hst) as Hlen. assert (0 < length (buffer it))%nat by lia.
      assert (remaining it [] q = []) as E by (unfold remaining; by rewrite Hr).
      destruct (buffer it) as [|b t]; [cbn in *; lia|]. cbn.
      rewrite Hr, E. exists it, fp, [], q. cbn. repeat (split; [done|]). done.
    + pose proof (st_r _ _ _ Hst) as Hr0.
      destruct (read_into_buffer_spec fs fp it q Hf Hfp Hst ltac:(lia))
        as (it' & fp' & -> & Hfp' & Hst' & Hcur & Hrl & Hnul). cbn [mbind res_bind].
      set (B' := take c (drop q recs)) in *.
      destruct (remaining_refill it it' q ltac:(lia) Hrl) as (Hrem & Hne & Hpos).
      fold B' in Hrem, Hne, Hpos.
      rewrite (st_left _ _ _ Hst').
      exists it', fp', B', (q + length B')%nat. destruct (decide (B' = [])) as [EB|EB].
      * destruct (Hnul EB) as [t Ht]. rewrite decide_False by (rewrite EB; cbn; lia).
        rewrite Ht. cbn [mbind res_bind]. rewrite (bool_decide_false (NUL ≠ NUL)) by auto.
        rewrite andb_false_r. rewrite bool_decide_false by tauto.
        repeat (split; [done|]). tauto.
      * rewrite decide_True by (destruct B'; [done|cbn; lia]). cbn [mbind res_bind].
        rewrite !bool_decide_true by (try tauto; specialize (Hpos EB); lia).
        repeat (split; [done|]). tauto.
  - rewrite (has_next_buffered fs fp it B q) by done.
    assert (records_left it > 0 <-> remaining it B q ≠ []) as Hiff.
    { unfold remaining. pose proof (st_r _ _ _ Hst). case_decide as Hd.
      - destruct (Z.to_nat (records_left it)) eqn:E; [cbn; split; [lia|done]|].
        split; [|lia]. intros _. by destruct B.
      - split; [by destruct B|lia]. }
    exists it, fp, B, q. rewrite (bool_decide_ext _ _ Hiff).
    do 5 (split; [done|]). intros ?%Hiff. split; [done|lia].
Qed.
Lemma remaining_cons it r B q l :
  remaining it (r :: B) q = l -> 0 < records_left it ->
  exists l', l = r :: l' /\
    forall it', records_left it' = records_left it - 1 -> remaining it' B q = l'.
Proof.
  intros <- Hr. unfold remaining. cbn [length]. case_decide as Hd.
  - destruct (Z.to_nat (records_left it)) as [|n] eqn:E; [lia|]. exists (take n B).
    split; [done|]. intros it' Hit'. rewrite Hit'.
    rewrite decide_True by lia. f_equal. lia.
  - eexists. split; [done|]. intros it' Hit'. rewrite Hit'.
    rewrite decide_False by lia. do 2 f_equal. lia.
Qed.

(** [next] yields the head of what is left, or null at the end. *)
Lemma next_spec fs fp it l :
  fs !! file = Some (concat recs) -> fname fp = file -> yields it l ->
  exists it' fp', next fs fp it = Ret (head l, it', fp') /\ fname fp' = file /\
    yields it' (tail l) /\ current_record it' = head l /\
    (l ≠ [] -> records_left it' < L).
Proof.
  intros Hf Hfp (B & q & Hst & Hl & Hcur).
  destruct (has_next_spec fs fp it B q Hf Hfp Hst)
    as (it1 & fp1 & B1 & q1 & E & Hfp1 & Hst1 & Hcur1 & Hrem & Hne).
  unfold next. rewrite E. cbn [mbind res_bind]. rewrite Hl in *.
  destruct l as [|r l].
  { rewrite bool_decide_false by auto. cbn. eexists _, fp1.
    split; [done|]. split; [done|]. split; [|done].
    exists B1, q1. by destruct Hst1. }
  rewrite bool_decide_true by done. cbn [negb].
  destruct (Hne ltac:(done)) as [HB Hpos]. rewrite Hcur1.
  destruct (Hcur ltac:(done)) as [cur Ecur]. rewrite Ecur.
  destruct B1 as [|r1 B1]; [done|].
  destruct (remaining_cons it1 r1 B1 q1 _ Hrem Hpos) as (l' & [= <- <-] & Htl).
  destruct Hst1. inversion_clear st_B0 as [|? ? Hr1 HB1].
  destruct st_buf0 as (pre & tl & Ebuf & Hpre & Hptr).
  rewrite st_schema0. fold rs. unfold ptr_at. rewrite Ebuf, Hptr. cbn [concat].
  assert (length (concat pre) = rs * length pre)%nat as Hlp by (by apply length_concat_uniform).
  rewrite decide_True by (rewrite !length_app; unfold rs in *; nia).
  rewrite drop_app_ge, (proj2 (Nat.sub_0_le _ _)) by (unfold rs in *; nia).
  cbn [mbind res_bind]. rewrite drop_0, <- !app_assoc.
  destruct Hr1 as [Hlr Hnr]. fold rs in Hlr.
  rewrite strncpy_no_nul; [|rewrite length_app; lia|by rewrite take_app_length'].
  rewrite take_app_length' by done. cbn [mbind res_bind head tail].
  eexists _, fp1. split; [done|]. split; [done|]. split; [|cbn; split; [done|lia]].
  exists B1, q1. split; [constructor; cbn; try done; cbn in *; try lia|].
  - exists (pre ++ [r]), tl. rewrite concat_app, length_app. cbn.
    rewrite app_nil_r, <- !app_assoc. rewrite <- app_assoc in Ebuf. split; [done|]. split; [|lia].
    apply uniform_app. split; [done|]. by constructor.
  - rewrite <- st_len0, Ebuf. cbn. by rewrite <- app_assoc.
  - split; [by apply Htl|done].
Qed.

(** The list of records an iterator presents: its current record first. *)
Definition shows (it : RunIterator) (l : list bytes) : Prop :=
  it_schema it = s /\
  (records_left it = L /\ yields it l \/
   records_left it ≠ L /\ current_record it = head l /\ yields it (tail l)).

Lemma get_current_record_spec fs fp it l :
  fs !! file = Some (concat recs) -> fname fp = file -> shows it l ->
  exists it' fp', get_current_record fs fp it = Ret (head l, it', fp') /\ fname fp' = file /\
    shows it' l /\ (l ≠ [] -> records_left it' ≠ L).
Proof.
  intros Hf Hfp [Hs Hsh]. unfold get_current_record.
  destruct Hsh as [[Hr Hy]|(Hr & Hc & Hy)].
  - assert (run_length it = L) as ->.
    { destruct Hy as (B & q & [] & _). done. }
    rewrite decide_True by done.
    destruct (next_spec fs fp it l Hf Hfp Hy) as (it' & fp' & -> & Hfp' & Hy' & Hc' & Hr').
    exists it', fp'. split; [done|]. split; [done|].
    assert (it_schema it' = s) by (by destruct Hy' as (B & q & [] & _)).
    destruct (decide (records_left it' = L)).
    + assert (l = []) as -> by (destruct l; [done|]; specialize (Hr' ltac:(done)); lia).
      split; [|done]. split; [done|]. left. done.
    + split; [|done]. split; [done|]. right. done.
  - assert (run_length it = L) as ->.
    { destruct Hy as (B & q & [] & _). done. }
    rewrite decide_False by done. rewrite Hc. exists it, fp.
    split; [done|]. split; [done|]. split; [|done]. split; [done|]. by right.
Qed.

(** After [get_current_record] gave [r], [next] moves past it. *)
Lemma next_shows fs fp it r l :
  fs !! file = Some (concat recs) -> fname fp = file -> shows it (r :: l) ->
  records_left it ≠ L ->
  exists o it' fp', next fs fp it = Ret (o, it', fp') /\ fname fp' = file /\ shows it' l.
Proof.
  intros Hf Hfp [Hs Hsh] Hr. destruct Hsh as [[? _]|(_ & _ & Hy)]; [done|]. cbn in Hy.
  destruct (next_spec fs fp it l Hf Hfp Hy) as (it' & fp' & -> & Hfp' & Hy' & Hc' & Hr').
  exists (head l), it', fp'. split; [done|]. split; [done|].
  split; [by destruct Hy' as (B & q & [] & _)|].
  destruct (decide (records_left it' = L)).
  - left. split; [done|].
    assert (l = []) as -> by (destruct l; [done|]; specialize (Hr' ltac:(done)); lia). done.
  - right. done.
Qed.

(** A new iterator at record [p] shows its run as [emit] cuts it. *)
Lemma new_RunIterator_spec fp p i :
  fname fp = file ->
  exists it fp', new_RunIterator fp (record_size s * Z.of_nat p) L bs s i = Ret (it, fp', i32 (i + 1))
    /\ fname fp' = file /\ shows it (emit c (Z.to_nat L) (drop p recs)).
Proof.
  intros Hfp. unfold new_RunIterator, fseek_set.
  rewrite decide_True by nia. cbn [mbind res_bind]. eexists _, _. split; [done|]. split; [done|].
  split; [done|]. left. split; [done|]. exists [], p. split.
  - constructor; cbn; try first [done|lia|apply length_malloc].
    exists [], (malloc_bytes (Z.to_nat bs)). split; [done|]. split; [constructor|cbn; lia].
  - unfold remaining. cbn [records_left current_record]. rewrite decide_False by (cbn; lia).
    cbn [length app]. rewrite Nat.sub_0_r. eauto.
Qed.
End iterator_spec.

(** ** Property *)

(** C5: a [RunIterator] refines the list of records it has left.  A new one at
    record [p] of a file of records shows [emit], which is the run's records
    when no refill overshoots the run; [get_current_record] gives the head of
    the list it shows, null at its end, and [next] then moves to the tail. *)
Theorem run_iterator_refines_list `{Heap} s recs file L bs fs :
  schema_wf s -> 0 < record_size s -> 0 < L -> 0 < bs < 2^31 -> Forall (rec_ok s) recs ->
  fs !! file = Some (concat recs) ->
  (forall fp p id, fname fp = file ->
    exists it fp', new_RunIterator fp (record_size s * Z.of_nat p) L bs s id = Ret (it, fp', i32 (id + 1))
      /\ fname fp' = file
      /\ shows s recs L bs it (emit (refill L bs (record_size s)) (Z.to_nat L) (drop p recs))) /\
  (forall fp it l, fname fp = file -> shows s recs L bs it l ->
    exists it1 fp1, get_current_record fs fp it = Ret (head l, it1, fp1) /\ fname fp1 = file
      /\ shows s recs L bs it1 l
      /\ (l <> [] -> exists o it2 fp2, next fs fp1 it1 = Ret (o, it2, fp2) /\ fname fp2 = file
            /\ shows s recs L bs it2 (tail l))).
Proof.
  intros Hwf Hrs HL Hbs Hrecs Hf. assert (record_size s < 2^31) as Hrs31 by apply Hwf.
  split; [intros; by apply new_RunIterator_spec|].
  intros fp it l Hfp Hsh.
  destruct (get_current_record_spec s recs file L bs Hrs Hrs31 HL Hbs Hrecs fs fp it l Hf Hfp Hsh)
    as (it1 & fp1 & -> & Hfp1 & Hsh1 & Hne). exists it1, fp1. do 3 (split; [done|]).
  intros Hl. destruct l as [|r l]; [done|].
  destruct (next_shows s recs file L bs Hrs Hrs31 HL Hbs Hrecs fs fp1 it1 r l Hf Hfp1 Hsh1 (Hne Hl))
    as (o & it2 & fp2 & -> & Hfp2 & Hsh2). by exists o, it2, fp2.
Qed.

Lemma run_iterator_refines_list_witness :
  exists (it : RunIterator) (fp' : FILE),
    @new_RunIterator zero_heap (mkFILE (lit "in") 0 false) (9 * Z.of_nat 1) 2 10 pair_schema 0
      = Ret (it, fp', 1)
    /\ shows pair_schema pair_records 2 10 it [lit "006,Rome,"; lit "001,Oslo,"].
Proof.
  destruct (@run_iterator_refines_list zero_heap pair_schema pair_records (lit "in") 2 10
    {[lit "in" := concat pair_records]}) as [H _];
    [apply pair_schema_wf|reflexivity|reflexivity|lia|apply pair_records_ok|apply lookup_singleton_eq|].
  destruct (H (mkFILE (lit "in") 0 false) 1%nat 0 eq_refl) as (it & fp' & E & _ & Hsh).
  exists it, fp'. split; [exact E|exact Hsh].
Defined.
