(* ===== verification/MergeRuns.v ===== *)
(** * MergeRuns: [merge_runs] of library.cc and its helpers

    The merge phase: while any iterator has a record, the smallest current
    record is copied to the output buffer, and the buffer is written out when
    it is full or the iterators are exhausted. *)

From S2P Require Import Prelude CLib Schema Runs RunIterator.

Section operations.
(** The state of a merge: the iterators and the stream they share. *)
Implicit Types (its : list RunIterator) (fp : FILE).

Fixpoint iterators_have_records (fs : filesystem) fp its
    : res (bool * list RunIterator * FILE) :=
  match its with
  | [] => Ret (false, [], fp)
  | it :: rest =>
      '(r, it, fp) ← get_current_record fs fp it;
      match r with
      | Some _ => Ret (true, it :: rest, fp)
      | None =>
          '(b, rest, fp) ← iterators_have_records fs fp rest;
          Ret (b, it :: rest, fp)
      end
  end.

(** [iterators[i]->get_current_record()], updating the array element. *)
Definition current_at (fs : filesystem) fp its (i : nat)
    : res (option bytes * list RunIterator * FILE) :=
  it ← of_option (its !! i);
  '(r, it, fp) ← get_current_record fs fp it;
  Ret (r, <[i := it]> its, fp).

(** The loop of [get_iterator_with_smallest_value] from index [i], [n]
    iterators left; [mn] is [min_record_iterator]. *)
Fixpoint smallest_loop (fs : filesystem) (s : Schema) fp its (i n : nat) (mn : option nat)
    : res (option nat * list RunIterator * FILE) :=
  match n with
  | O => Ret (mn, its, fp)
  | S n =>
      '(cur, its, fp) ← current_at fs fp its i;
      '(mn, its, fp) ←
        match cur, mn with
        | None, _ => Ret (mn, its, fp)
        | Some _, None => Ret (Some i, its, fp)
        | Some d, Some m =>
            '(curm, its, fp) ← current_at fs fp its m;
            dm ← of_option curm;
            v ← record_object_comparator (mkRecord s dm) (mkRecord s d);
            Ret (if decide (v > 0) then Some i else Some m, its, fp)
        end;
      smallest_loop fs s fp its (S i) n mn
  end.

Definition get_iterator_with_smallest_value (fs : filesystem) (s : Schema) fp its
    : res (option nat * list RunIterator * FILE) :=
  smallest_loop fs s fp its 0 (length its) None.

(** The inner loop of [merge_runs]: fill the buffer with at most [n] records;
    [k] are in it. *)
Fixpoint fill_buffer (fs : filesystem) (s : Schema) (record_size : Z) fp its
    (buf : bytes) (k n : nat) : res (list RunIterator * FILE * bytes * nat) :=
  match n with
  | O => Ret (its, fp, buf, k)
  | S n =>
      '(mn, its, fp) ← get_iterator_with_smallest_value fs s fp its;
      match mn with
      | None => Ret (its, fp, buf, k)
      | Some m =>
          '(cur, its, fp) ← current_at fs fp its m;
          d ← of_option cur;
          rec ← strncpy d (Z.to_nat record_size);
          let buffer_pos := (Z.to_nat record_size * k)%nat in
          if decide (buffer_pos + length rec <= length buf)%nat then
            it ← of_option (its !! m);
            '(_, it, fp) ← next fs fp it;
            fill_buffer fs s record_size fp (<[m := it]> its)
              (splice buf buffer_pos rec) (S k) n
          else Undef
      end
  end.

(** The outer loop of [merge_runs]. *)
Fixpoint merge_loop (fuel : nat) (fs : filesystem) (s : Schema) (record_size : Z) (max : nat)
    fp its (out_fp : FILE) (buf : bytes) : res (filesystem * list RunIterator * FILE * FILE) :=
  match fuel with
  | O => NoFuel
  | S fuel =>
      '(b, its, fp) ← iterators_have_records fs fp its;
      if negb b then Ret (fs, its, fp, out_fp)
      else
        '(its, fp, buf, k) ← fill_buffer fs s record_size fp its buf 0 max;
        '(fs, out_fp) ← fwrite fs out_fp (take (Z.to_nat record_size * k) buf);
        merge_loop fuel fs s record_size max fp its out_fp buf
  end.

(** [merge_runs].  [floor] of the integer quotient is the quotient; it is
    stored in an [int]. *)
Definition merge_runs (fuel : nat) (fs : filesystem) fp its (out_fp : FILE) (start_pos : Z)
    (buf : bytes) (buf_size : Z) : res (filesystem * list RunIterator * FILE * FILE) :=
  out_fp ← fseek_set out_fp start_pos;
  it0 ← of_option (its !! 0%nat);
  let record_size := get_record_size it0 in
  if decide (record_size = 0) then Undef
  else
    let max := Z.quot buf_size record_size in
    if decide (max < 2^31) then
      merge_loop fuel fs (it_schema it0) record_size (Z.to_nat max) fp its out_fp buf
    else Undef.

(** [filesize] keeps the position and stores [ftell] in an [int]. *)
Definition filesize (fs : filesystem) (file : FILE) : res Z :=
  c ← contents fs file;
  Ret (i32 (Z.of_nat (length c))).

Definition number_of_records (fs : filesystem) (record_file : FILE) (record_size : Z) : res Z :=
  n ← filesize fs record_file;
  if decide (record_size = 0) then Undef else Ret (i32 (u64 n / record_size)).
End operations.

(** ** The reference merge, on lists *)

(** List [m] has the smallest head, and every list before it a larger one. *)
Record picks (s : Schema) (ls : list (list bytes)) (m : nat) (r : bytes) (t : list bytes) : Prop := {
  pick_here : ls !! m = Some (r :: t);
  pick_min j r' t' : ls !! j = Some (r' :: t') -> key_le s r r';
  pick_first j r' t' : ls !! j = Some (r' :: t') -> (j < m)%nat -> cmp_lt (key_cmp s) r r';
}.

(** [ls] yields [out] by repeatedly removing the smallest head, leaving [ls']. *)
Inductive merge_steps (s : Schema) : list (list bytes) -> list bytes -> list (list bytes) -> Prop :=
  | merge_done ls : merge_steps s ls [] ls
  | merge_pick ls m r t out ls' :
      picks s ls m r t ->
      merge_steps s (<[m := t]> ls) out ls' ->
      merge_steps s ls (r :: out) ls'.

Definition all_empty (ls : list (list bytes)) : Prop := Forall (fun l => l = []) ls.

(** A complete merge. *)
Definition merges (s : Schema) (ls : list (list bytes)) (out : list bytes) : Prop :=
  exists ls', merge_steps s ls out ls' /\ all_empty ls'.

Lemma merge_steps_trans s l1 o1 l2 o2 l3 :
  merge_steps s l1 o1 l2 -> merge_steps s l2 o2 l3 -> merge_steps s l1 (o1 ++ o2) l3.
Proof. induction 1; cbn; [done|]. econstructor; eauto. Qed.

Lemma concat_insert_cons {A} (ls : list (list A)) m r t :
  ls !! m = Some (r :: t) -> concat ls ≡ₚ r :: concat (<[m := t]> ls).
Proof.
  revert m. induction ls as [|l ls IH]; intros [|m]; cbn; [done..| |].
  - by intros [= ->].
  - intros H. rewrite (IH m H). by rewrite Permutation_middle.
Qed.

Lemma all_empty_concat ls : all_empty ls -> concat ls = [].
Proof. induction 1 as [|l ls -> _ IH]; done. Qed.

Lemma merge_steps_nonempty s ls out ls' :
  ~ all_empty ls -> merge_steps s ls out ls' -> all_empty ls' -> out ≠ [].
Proof. intros Hne Hm He ->. by inversion Hm; subst. Qed.

Lemma merge_steps_perm s ls out ls' : merge_steps s ls out ls' -> concat ls ≡ₚ out ++ concat ls'.
Proof.
  induction 1 as [|ls m r t out ls' [Hm _ _] _ IH]; [done|].
  rewrite (concat_insert_cons _ _ _ _ Hm). cbn. by rewrite IH.
Qed.

Lemma merges_perm s ls out : merges s ls out -> out ≡ₚ concat ls.
Proof.
  intros (ls' & Hm & He). rewrite (merge_steps_perm _ _ _ _ Hm).
  by rewrite (all_empty_concat _ He), app_nil_r.
Qed.

Lemma merge_steps_sorted s ls out ls' :
  merge_steps s ls out ls' -> Forall (StronglySorted (key_le s)) ls ->
  StronglySorted (key_le s) out.
Proof.
  induction 1 as [|ls m r t out ls' [Hm Hmin _] Hst IH]; intros Hs; [constructor|].
  assert (StronglySorted (key_le s) (r :: t)) as Hrt.
  { rewrite Forall_forall in Hs. apply Hs, list_elem_of_In. by eapply list_elem_of_lookup_2. }
  inversion_clear Hrt as [|? ? Ht Hr].
  constructor; [by apply IH, Forall_insert|].
  assert (Forall (key_le s r) (concat ls)) as Hall.
  { apply Forall_forall. intros x Hx. apply in_concat in Hx as (l & Hl & Hx).
    apply list_elem_of_In, list_elem_of_lookup in Hl as [j Hj].
    destruct l as [|r' t']; [done|]. pose proof (Hmin j r' t' Hj) as Hle.
    destruct Hx as [->|Hx]; [done|].
    rewrite Forall_forall in Hs. specialize (Hs (r' :: t')).
    assert (StronglySorted (key_le s) (r' :: t')) as Hs'.
    { apply Hs, list_elem_of_In. by eapply list_elem_of_lookup_2. }
    inversion_clear Hs' as [|? ? _ Hr']. rewrite Forall_forall in Hr'.
    transitivity r'; [done|]. by apply Hr'. }
  rewrite (concat_insert_cons _ _ _ _ Hm), (merge_steps_perm _ _ _ _ Hst) in Hall.
  inversion_clear Hall as [|? ? _ Hall']. by apply Forall_app in Hall' as [? _].
Qed.

Lemma merges_sorted s ls out :
  merges s ls out -> Forall (StronglySorted (key_le s)) ls -> StronglySorted (key_le s) out.
Proof. intros (ls' & Hm & _). by eapply merge_steps_sorted. Qed.

(** ** Refinement: [merge_runs] against the reference merge *)

Section refinement.
Context `{Heap} (s : Schema) (recs : list bytes) (file : bytes) (L bs : Z).
Context (Hwf : schema_wf s) (Hsort : sort_wf s)
  (Hrs : 0 < record_size s) (HL : 0 < L) (Hbs : 0 < bs < 2^31)
  (Hrecs : Forall (rec_ok s) recs).
Context (fs : filesystem) (Hfs : fs !! file = Some (concat recs)).
Let rs := Z.to_nat (record_size s).

Lemma Hrs31 : record_size s < 2^31.
Proof. apply Hwf. Qed.
Local Abbreviation shows := (shows s recs L bs).
Local Abbreviation shows_all := (Forall2 shows).

Definition ok_lists (ls : list (list bytes)) : Prop := Forall (Forall (rec_ok s)) ls.

Lemma shows_list it l : shows it l -> it_schema it = s.
Proof. by intros [? _]. Qed.

(** [get_current_record] on element [i] gives the head of list [i]. *)
Lemma current_at_spec fp its ls i l :
  fname fp = file -> shows_all its ls -> ls !! i = Some l ->
  exists its' fp', current_at fs fp its i = Ret (head l, its', fp') /\ fname fp' = file
    /\ shows_all its' ls /\ length its' = length its
    /\ (l ≠ [] -> exists it, its' !! i = Some it /\ shows it l /\ records_left it ≠ L).
Proof.
  intros Hfp Hall Hl. unfold current_at.
  destruct (Forall2_lookup_r _ _ _ _ _ Hall Hl) as (it & Hit & Hsh).
  rewrite Hit. cbn [of_option mbind res_bind].
  destruct (get_current_record_spec s recs file L bs Hrs Hrs31 HL Hbs Hrecs fs fp it l Hfs Hfp Hsh)
    as (it' & fp' & -> & Hfp' & Hsh' & Hne). cbn [mbind res_bind].
  exists (<[i := it']> its), fp'. split; [done|]. split; [done|].
  split; [|split; [by rewrite length_insert|]].
  - rewrite <- (list_insert_id ls i l Hl). by apply Forall2_insert.
  - intros Hn. exists it'. split; [|auto].
    apply list_lookup_insert_eq. by eapply lookup_lt_Some.
Qed.

Lemma iterators_have_records_spec fp its ls :
  fname fp = file -> shows_all its ls ->
  exists b its' fp', iterators_have_records fs fp its = Ret (b, its', fp') /\ fname fp' = file
    /\ shows_all its' ls /\ (b = false <-> all_empty ls).
Proof.
  intros Hfp Hall. revert fp Hfp. induction Hall as [|it l its ls Hsh Hall IH]; intros fp Hfp.
  - exists false, [], fp. repeat split; done || constructor.
  - cbn [iterators_have_records].
    destruct (get_current_record_spec s recs file L bs Hrs Hrs31 HL Hbs Hrecs fs fp it l Hfs Hfp Hsh)
      as (it' & fp' & -> & Hfp' & Hsh' & Hne). cbn [mbind res_bind].
    destruct l as [|r l]; cbn [head].
    + destruct (IH fp' Hfp') as (b & its' & fp2 & -> & Hfp2 & Hall' & Hb). cbn [mbind res_bind].
      exists b, (it' :: its'), fp2. split; [done|]. split; [done|]. split; [by constructor|].
      unfold all_empty in *. rewrite Forall_cons_iff. naive_solver.
    + exists true, (it' :: its), fp'. split; [done|]. split; [done|]. split; [by constructor|].
      unfold all_empty. rewrite Forall_cons_iff. naive_solver.
Qed.

(** [m] is the place of the first smallest head among the first [i] lists. *)
Definition best_below (ls : list (list bytes)) (i : nat) (mn : option nat) : Prop :=
  match mn with
  | None => forall j l, (j < i)%nat -> ls !! j = Some l -> l = []
  | Some m => (m < i)%nat /\ exists r t, ls !! m = Some (r :: t) /\
      (forall j r' t', (j < i)%nat -> ls !! j = Some (r' :: t') -> key_le s r r') /\
      (forall j r' t', (j < m)%nat -> ls !! j = Some (r' :: t') -> cmp_lt (key_cmp s) r r')
  end.

Lemma best_step_empty ls i mn :
  best_below ls i mn -> ls !! i = Some [] -> best_below ls (S i) mn.
Proof.
  intros Hb Hi. destruct mn as [m|]; cbn in *.
  - destruct Hb as (Hm & r & t & Hr & Hle & Hlt). split; [lia|]. exists r, t.
    split; [done|]. split; [|done]. intros j r' t' Hj Hj'.
    apply (Hle j r' t'); [|done]. assert (j ≠ i) by congruence. lia.
  - intros j l Hj Hl. destruct (decide (j = i)) as [->|]; [congruence|].
    apply (Hb j l); [lia|done].
Qed.

Lemma best_step_first ls i r t :
  best_below ls i None -> ls !! i = Some (r :: t) -> best_below ls (S i) (Some i).
Proof.
  cbn. intros Hb Hi. split; [lia|]. exists r, t. split; [done|].
  assert (forall j r' t', (j < i)%nat -> ls !! j = Some (r' :: t') -> False) as Hno.
  { intros j r' t' Hj Hl. by apply Hb in Hl. }
  split; intros j r' t' Hj Hl; [|by destruct (Hno j r' t')].
  destruct (decide (j = i)) as [->|]; [|destruct (Hno j r' t'); [lia|done]].
  rewrite Hi in Hl. by injection Hl as <- <-.
Qed.

Lemma best_step_cmp ls i m r t d u v :
  best_below ls i (Some m) -> ls !! m = Some (r :: t) -> ls !! i = Some (d :: u) ->
  (v ?= 0) = key_cmp s r d ->
  best_below ls (S i) (if decide (v > 0) then Some i else Some m).
Proof.
  intros (Hm & r0 & t0 & Hr0 & Hle & Hlt) Hr Hd Hv.
  rewrite Hr in Hr0. injection Hr0 as <- <-. case_decide as Hv0.
  - assert (cmp_lt (key_cmp s) d r) as Hdr.
    { unfold cmp_lt. rewrite (cmp_antisym (cmp:=key_cmp s) r d), <- Hv.
      by rewrite (proj2 (Z.compare_gt_iff _ _)) by lia. }
    split; [lia|]. exists d, u. split; [done|]. split; intros j r' t' Hj Hl.
    + destruct (decide (j = i)) as [->|]; [by rewrite Hd in Hl; injection Hl as <- <-|].
      transitivity r; [by apply cmp_lt_le|]. apply (Hle j r' t'); [lia|done].
    + eapply cmp_lt_le_trans; [apply _|done|]. by apply (Hle j r' t').
  - assert (key_le s r d) as Hrd.
    { unfold cmp_le. rewrite <- Hv. rewrite Z.compare_gt_iff. lia. }
    split; [lia|]. exists r, t. split; [done|]. split; [|done].
    intros j r' t' Hj Hl. destruct (decide (j = i)) as [->|].
    + by rewrite Hd in Hl; injection Hl as <- <-.
    + apply (Hle j r' t'); [lia|done].
Qed.

Lemma smallest_loop_spec n fp its ls i mn :
  fname fp = file -> shows_all its ls -> ok_lists ls ->
  (i + n = length ls)%nat -> best_below ls i mn ->
  exists mn' its' fp', smallest_loop fs s fp its i n mn = Ret (mn', its', fp')
    /\ fname fp' = file /\ shows_all its' ls /\ best_below ls (length ls) mn'.
Proof.
  revert fp its i mn. induction n as [|n IH]; intros fp its i mn Hfp Hall Hok Hi Hb.
  { exists mn, its, fp. rewrite <- Hi, Nat.add_0_r. done. }
  cbn [smallest_loop].
  destruct (lookup_lt_is_Some_2 ls i ltac:(lia)) as [l Hl].
  destruct (current_at_spec fp its ls i l Hfp Hall Hl)
    as (its1 & fp1 & -> & Hfp1 & Hall1 & _ & _). cbn [mbind res_bind].
  destruct l as [|d u]; cbn [head].
  { apply IH; try done; [lia|by apply best_step_empty]. }
  destruct mn as [m|]; cbn [mbind res_bind].
  2:{ apply IH; try done; [lia|by eapply best_step_first]. }
  pose proof Hb as (Hm & r & t & Hr & _).
  destruct (current_at_spec fp1 its1 ls m _ Hfp1 Hall1 Hr)
    as (its2 & fp2 & -> & Hfp2 & Hall2 & _ & _). cbn [mbind res_bind head of_option].
  assert (forall j x y, ls !! j = Some (x :: y) -> Z.of_nat (length x) = record_size s) as Hlen.
  { intros j x y Hj. unfold ok_lists in Hok. pose proof (Forall_lookup_1 _ _ _ _ Hok Hj) as Hxy.
    inversion_clear Hxy as [|? ? [Hx _] _]. lia. }
  destruct (comparator_spec s r d Hwf Hsort (Hlen _ _ _ Hr) (Hlen _ _ _ Hl)) as (v & -> & Hv).
  cbn [mbind res_bind].
  pose proof (best_step_cmp ls i m r t d u v Hb Hr Hl Hv) as Hb'.
  case_decide; (apply IH; [done..|lia|done]).
Qed.

(** The minimum is found, and it is what the reference picks. *)
Lemma get_smallest_spec fp its ls :
  fname fp = file -> shows_all its ls -> ok_lists ls ->
  exists mn its' fp', get_iterator_with_smallest_value fs s fp its = Ret (mn, its', fp')
    /\ fname fp' = file /\ shows_all its' ls
    /\ match mn with None => all_empty ls | Some m => exists r t, picks s ls m r t end.
Proof.
  intros Hfp Hall Hok. unfold get_iterator_with_smallest_value.
  rewrite (Forall2_length Hall).
  destruct (smallest_loop_spec (length ls) fp its ls 0 None Hfp Hall Hok)
    as (mn & its' & fp' & -> & Hfp' & Hall' & Hb); [lia|intros ??; lia|].
  exists mn, its', fp'. split; [done|]. split; [done|]. split; [done|].
  destruct mn as [m|]; cbn in Hb.
  - destruct Hb as (Hm & r & t & Hr & Hle & Hlt). exists r, t. split; [done| |].
    + intros j r' t' Hj. eapply Hle; [by eapply lookup_lt_Some|done].
    + intros j r' t' Hj Hjm. by eapply Hlt.
  - apply Forall_lookup_2. intros j l Hj. eapply Hb; [by eapply lookup_lt_Some|done].
Qed.

Lemma ok_lists_tail ls m r t : ok_lists ls -> ls !! m = Some (r :: t) ->
  rec_ok s r /\ ok_lists (<[m := t]> ls).
Proof.
  intros Hok Hm. pose proof (Forall_lookup_1 _ _ _ _ Hok Hm) as Hrt.
  inversion_clear Hrt as [|? ? Hr Ht]. split; [done|]. by apply Forall_insert.
Qed.

(** Filling the buffer performs merge steps, up to its capacity. *)
Lemma fill_buffer_spec n fp its ls buf pre :
  fname fp = file -> shows_all its ls -> ok_lists ls -> uniform rs pre ->
  take (rs * length pre) buf = concat pre -> (rs * (length pre + n) <= length buf)%nat ->
  exists its' fp' buf' out ls',
    fill_buffer fs s (record_size s) fp its buf (length pre) n
      = Ret (its', fp', buf', length (pre ++ out))
    /\ fname fp' = file /\ shows_all its' ls' /\ ok_lists ls' /\ merge_steps s ls out ls'
    /\ take (rs * length (pre ++ out)) buf' = concat (pre ++ out)
    /\ length buf' = length buf /\ (length out = n \/ all_empty ls')
    /\ Forall (rec_ok s) out.
Proof.
  revert fp its ls buf pre. induction n as [|n IH]; intros fp its ls buf pre Hfp Hall Hok Hpre Hbuf Hcap.
  { exists its, fp, buf, [], ls. rewrite app_nil_r. do 7 (split; [done || constructor|]). auto. }
  cbn [fill_buffer].
  destruct (get_smallest_spec fp its ls Hfp Hall Hok) as (mn & its1 & fp1 & -> & Hfp1 & Hall1 & Hmn).
  cbn [mbind res_bind]. destruct mn as [m|].
  2:{ exists its1, fp1, buf, [], ls. rewrite app_nil_r. do 7 (split; [done || constructor|]). auto. }
  destruct Hmn as (r & t & Hpick). pose proof (pick_here _ _ _ _ _ Hpick) as Hm.
  destruct (current_at_spec fp1 its1 ls m _ Hfp1 Hall1 Hm)
    as (its2 & fp2 & -> & Hfp2 & Hall2 & _ & Hstart). cbn [mbind res_bind head of_option].
  destruct (Hstart ltac:(done)) as (it & Hit & Hsh & Hrl).
  destruct (ok_lists_tail ls m r t Hok Hm) as [[Hlr Hnr] Hok'].
  fold rs. fold rs in Hlr. rewrite strncpy_no_nul by (try apply no_nul_take; (lia || done)).
  rewrite take_ge by lia. cbn [mbind res_bind]. rewrite decide_True by nia.
  rewrite Hit. cbn [of_option mbind res_bind].
  destruct (next_shows s recs file L bs Hrs Hrs31 HL Hbs Hrecs fs fp2 it r t Hfs Hfp2 Hsh Hrl)
    as (o & it' & fp3 & -> & Hfp3 & Hsh'). cbn [mbind res_bind].
  destruct (IH fp3 (<[m := it']> its2) (<[m := t]> ls) (splice buf (rs * length pre) r) (pre ++ [r]))
    as (its' & fp' & buf' & out & ls' & E & Hfp' & Hall' & Hok2 & Hms & Hb & Hlb & Hend & Hout); try done.
  - by apply Forall2_insert.
  - apply uniform_app. split; [done|]. by constructor.
  - rewrite length_app, concat_app. cbn. rewrite app_nil_r. unfold splice. rewrite Hbuf.
    rewrite app_assoc. apply take_app_length'. rewrite length_app.
    rewrite (length_concat_uniform rs) by done. lia.
  - rewrite length_app, length_splice; cbn; lia.
  - exists its', fp', buf', (r :: out), ls'.
    rewrite length_app in E. cbn in E. rewrite Nat.add_1_r in E.
    rewrite (cons_middle r pre out), (app_assoc pre), E. do 4 (split; [done|]).
    split; [by eapply merge_pick|]. split; [done|].
    split; [rewrite Hlb; apply length_splice; nia|]. cbn. split; [lia || (destruct Hend; auto)|by constructor].
Qed.

End refinement.

Section merge_loop.
Context `{Heap} (s : Schema) (recs : list bytes) (file : bytes) (L bs : Z).
Context (Hwf : schema_wf s) (Hsort : sort_wf s)
  (Hrs : 0 < record_size s) (HL : 0 < L) (Hbs : 0 < bs < 2^31)
  (Hrecs : Forall (rec_ok s) recs).
Let rs := Z.to_nat (record_size s).
Local Abbreviation shows_all := (Forall2 (shows s recs L bs)).

Lemma merge_loop_spec fuel fs fp its ls out_fp buf max c :
  fs !! file = Some (concat recs) -> fname out_fp ≠ file ->
  fname fp = file -> shows_all its ls -> ok_lists s ls ->
  (0 < max)%nat -> (rs * max <= length buf)%nat ->
  (length (concat ls) < fuel)%nat ->
  fs !! fname out_fp = Some c -> fpos out_fp = length c ->
  exists out its' fp' out_fp',
    merge_loop fuel fs s (record_size s) max fp its out_fp buf =
      Ret (<[fname out_fp := c ++ concat out]> fs, its', fp', out_fp') /\ merges s ls out.
Proof.
  intros Hfs Hne Hfp Hall Hok Hmax Hcap Hfuel Hc Hpos. revert fs fp its ls out_fp buf c
    Hfs Hne Hfp Hall Hok Hcap Hfuel Hc Hpos.
  induction fuel as [|fuel IH]; intros; [lia|]. cbn [merge_loop].
  destruct (iterators_have_records_spec s recs file L bs Hwf Hrs HL Hbs Hrecs fs Hfs fp its ls Hfp Hall)
    as (b & its1 & fp1 & -> & Hfp1 & Hall1 & Hb). cbn [mbind res_bind].
  destruct b; cbn [negb].
  2:{ exists [], its1, fp1, out_fp. cbn. rewrite app_nil_r, insert_id by done.
      split; [done|]. exists ls. split; [constructor|by apply Hb]. }
  assert (~ all_empty ls) as Hnz by (intros He%Hb; done).
  destruct (fill_buffer_spec s recs file L bs Hwf Hsort Hrs HL Hbs Hrecs fs Hfs max fp1 its1 ls buf []
    Hfp1 Hall1 Hok) as (its2 & fp2 & buf2 & out & ls2 & E & Hfp2 & Hall2 & Hok2 & Hms & Hbuf & Hlb & Hend & Hout);
    [constructor|by rewrite Nat.mul_0_r|cbn; lia|].
  cbn [length app] in *. rewrite E. cbn [mbind res_bind]. fold rs in Hbuf |- *. rewrite Hbuf.
  rewrite (fwrite_end fs out_fp (concat out) c Hc Hpos). cbn [mbind res_bind].
  assert (out ≠ []) as Hout0.
  { destruct Hend as [Hn|He]; [intros ->; cbn in Hn; lia|].
    by eapply merge_steps_nonempty. }
  destruct (IH (<[fname out_fp := c ++ concat out]> fs) fp2 its2 ls2
    (mkFILE (fname out_fp) (length (c ++ concat out)) (feof out_fp)) buf2 (c ++ concat out))
    as (out' & its' & fp' & out_fp' & E' & (ls3 & Hms' & He)); try done.
  - by rewrite lookup_insert_ne.
  - lia.
  - pose proof (Permutation_length (merge_steps_perm _ _ _ _ Hms)) as Hp.
    rewrite length_app in Hp. destruct out; [done|]. cbn in Hp. lia.
  - cbn. by rewrite lookup_insert_eq.
  - exists (out ++ out'), its', fp', out_fp'. rewrite E'. cbn [fname].
    rewrite insert_insert_eq, concat_app, app_assoc. split; [done|].
    exists ls3. split; [by eapply merge_steps_trans|done].
Qed.
End merge_loop.

(** The iterators of a pass, each at the start of its run. *)
Definition run_lists (recs : list bytes) (L bs rs : Z) (starts : list nat) : list (list bytes) :=
  map (fun p => emit (refill L bs rs) (Z.to_nat L) (drop p recs)) starts.

Lemma emit_incl {A} c r (l : list A) (P : A -> Prop) : Forall P l -> Forall P (emit c r l).
Proof. intros. unfold emit. repeat case_decide; [constructor|done|by apply Forall_take]. Qed.

Lemma run_lists_ok s recs L bs starts :
  Forall (rec_ok s) recs -> ok_lists s (run_lists recs L bs (record_size s) starts).
Proof.
  intros. unfold ok_lists, run_lists. apply Forall_map, Forall_true.
  intros p. by apply emit_incl, Forall_drop.
Qed.

Lemma merge_runs_spec `{Heap} fuel s recs file L bs fs fp its ls out_fp buf buf_size :
  schema_wf s -> sort_wf s -> 0 < record_size s -> 0 < L -> 0 < bs < 2^31 ->
  Forall (rec_ok s) recs ->
  fs !! file = Some (concat recs) -> fname fp = file ->
  Forall2 (shows s recs L bs) its ls -> ls ≠ [] -> ok_lists s ls ->
  record_size s <= buf_size < 2^31 -> buf_size <= Z.of_nat (length buf) ->
  fname out_fp ≠ file -> fs !! fname out_fp = Some [] ->
  (length (concat ls) < fuel)%nat ->
  exists out its' fp' out_fp',
    merge_runs fuel fs fp its out_fp 0 buf buf_size =
      Ret (<[fname out_fp := concat out]> fs, its', fp', out_fp')
    /\ merges s ls out.
Proof.
  intros Hwf Hsort Hrs HL Hbs Hrecs Hfs Hfp Hall Hne Hok Hsz Hbuf Hout Hnil Hfuel.
  pose proof (wf_bound s Hwf). unfold merge_runs, fseek_set.
  rewrite decide_True by lia. cbn [mbind res_bind].
  destruct ls as [|l ls]; [done|]. inversion Hall as [|it ? its' ? Hsh Hall']; subst.
  cbn [lookup list_lookup of_option mbind res_bind]. unfold get_record_size.
  rewrite (shows_list s recs L bs it l Hsh). rewrite i32_small by lia.
  rewrite decide_False by lia.
  pose proof (Z.quot_div_nonneg buf_size (record_size s) ltac:(lia) Hrs) as Eq. rewrite Eq.
  pose proof (Z.mul_div_le buf_size (record_size s) Hrs) as Hm.
  assert (1 <= buf_size / record_size s) by (apply Z.div_le_lower_bound; lia).
  rewrite decide_True by nia.
  destruct (merge_loop_spec s recs (fname fp) L bs Hwf Hsort Hrs HL Hbs Hrecs fuel fs fp (it :: its')
    (l :: ls) (mkFILE (fname out_fp) (Z.to_nat 0) false) buf (Z.to_nat (buf_size / record_size s)) [])
    as (out & i & f & o & -> & Hm'); try done; [lia|nia|].
  by exists out, i, f, o.
Qed.

(** A buffer smaller than a record: the loop never ends while a record is left. *)
Lemma merge_loop_diverges `{Heap} s recs file L bs fs :
  schema_wf s -> 0 < record_size s -> 0 < L -> 0 < bs < 2^31 -> Forall (rec_ok s) recs ->
  fs !! file = Some (concat recs) ->
  forall fuel fp its ls out_fp buf c,
  fname fp = file -> Forall2 (shows s recs L bs) its ls -> ~ all_empty ls ->
  fs !! fname out_fp = Some c -> fpos out_fp = length c ->
  merge_loop fuel fs s (record_size s) 0 fp its out_fp buf = NoFuel.
Proof.
  intros Hwf Hrs HL Hbs Hrecs Hfs fuel.
  induction fuel as [|fuel IH]; intros fp its ls out_fp buf c Hfp Hall Hne Hc Hp; [done|].
  cbn [merge_loop].
  destruct (iterators_have_records_spec s recs file L bs Hwf Hrs HL Hbs Hrecs fs Hfs fp its ls Hfp Hall)
    as (b & its1 & fp1 & -> & Hfp1 & Hall1 & Hb). cbn [mbind res_bind].
  destruct b; [|by destruct Hne; apply Hb]. cbn [negb fill_buffer mbind res_bind].
  rewrite Nat.mul_0_r, take_0.
  rewrite (fwrite_end fs out_fp [] c Hc Hp). cbn [mbind res_bind].
  rewrite app_nil_r, insert_id by done. by eapply IH.
Qed.

(** ** Properties *)

(** C3: merging the runs that the iterators show writes to the output file a
    merge of them in the sense of [merge_steps] (at each step the smallest
    head, of the first run that has it, so the merge is stable); when every run
    is sorted the output is the sorted permutation of all records. *)
Theorem merge_runs_merges `{Heap} fuel s recs file L bs fs fp its ls out_fp buf buf_size :
  schema_wf s -> sort_wf s -> 0 < record_size s -> 0 < L -> 0 < bs < 2^31 ->
  Forall (rec_ok s) recs ->
  fs !! file = Some (concat recs) -> fname fp = file ->
  Forall2 (shows s recs L bs) its ls -> ls ≠ [] -> ok_lists s ls ->
  record_size s <= buf_size < 2^31 -> buf_size <= Z.of_nat (length buf) ->
  fname out_fp ≠ file -> fs !! fname out_fp = Some [] ->
  (length (concat ls) < fuel)%nat ->
  exists out its' fp' out_fp',
    merge_runs fuel fs fp its out_fp 0 buf buf_size
      = Ret (<[fname out_fp := concat out]> fs, its', fp', out_fp')
    /\ merges s ls out /\ out ≡ₚ concat ls
    /\ (Forall (StronglySorted (key_le s)) ls -> StronglySorted (key_le s) out).
Proof.
  intros. edestruct (merge_runs_spec fuel s recs file L bs fs fp its ls out_fp buf buf_size)
    as (out & i & f & o & -> & Hm); try done.
  exists out, i, f, o. split; [done|]. split; [done|].
  split; [by eapply merges_perm|intros; by eapply merges_sorted].
Qed.

(** Two one-record iterators on a file of two records. *)
Lemma pair_iterators :
  exists it1 it2 fp id1 id2,
    @new_RunIterator zero_heap (mkFILE (lit "in") 0 false) (9 * Z.of_nat 0) 1 9 pair_schema 0
      = Ret (it1, mkFILE (lit "in") 0 false, id1)
    /\ @new_RunIterator zero_heap (mkFILE (lit "in") 0 false) (9 * Z.of_nat 1) 1 9 pair_schema id1
      = Ret (it2, fp, id2) /\ fname fp = lit "in"
    /\ Forall2 (shows pair_schema pair_records 1 9) [it1; it2] [[lit "007,Rome,"]; [lit "006,Rome,"]].
Proof.
  pose proof (@new_RunIterator_spec zero_heap pair_schema pair_records (lit "in") 1 9
    eq_refl eq_refl) as H.
  destruct (H (mkFILE (lit "in") 0 false) 0%nat 0 eq_refl) as (it1 & fp1 & E1 & _ & Hs1).
  destruct (H (mkFILE (lit "in") 0 false) 1%nat (i32 (0 + 1)) eq_refl) as (it2 & fp2 & E2 & Hf2 & Hs2).
  exists it1, it2, fp2, (i32 (0 + 1)), (i32 (i32 (0 + 1) + 1)).
  split; [injection E1 as <- <-; reflexivity|]. split; [exact E2|]. split; [exact Hf2|].
  constructor; [exact Hs1|]. constructor; [exact Hs2|constructor].
Qed.

Definition pair_fs : filesystem := <[lit "out" := []]> {[lit "in" := concat pair_records]}.

Lemma merge_runs_merges_witness :
  exists its fp out its' fp' out_fp',
    merge_runs 3 pair_fs fp its (mkFILE (lit "out") 0 false) 0 (replicate 20 NUL) 20
      = Ret (<[lit "out" := concat out]> pair_fs, its', fp', out_fp')
    /\ out ≡ₚ [lit "007,Rome,"; lit "006,Rome,"] /\ StronglySorted (key_le pair_schema) out.
Proof.
  destruct pair_iterators as (it1 & it2 & fp & id1 & id2 & _ & _ & Hfp & Hall).
  destruct (@merge_runs_merges zero_heap 3 pair_schema pair_records (lit "in") 1 9 pair_fs fp [it1; it2]
    [[lit "007,Rome,"]; [lit "006,Rome,"]] (mkFILE (lit "out") 0 false) (replicate 20 NUL) 20)
    as (out & i & f & o & E & _ & Hp & Hs);
    [apply pair_schema_wf|apply pair_schema_wf|reflexivity|lia|lia|apply pair_records_ok
    |vm_compute; reflexivity|exact Hfp|exact Hall|done| |split; [vm_compute; congruence|reflexivity]
    |vm_compute; congruence|vm_compute; congruence|vm_compute; reflexivity|cbn; lia|].
  - pose proof pair_records_ok as Hok. inversion_clear Hok as [|? ? H1 Hok'].
    inversion_clear Hok' as [|? ? H2 _].
    constructor; [by constructor|]. constructor; [by constructor|constructor].
  - exists [it1; it2], fp, out, i, f, o. split; [exact E|]. split; [exact Hp|].
    apply Hs. repeat constructor.
Defined.

(** C40: a buffer smaller than one record makes [merge_runs] run for ever: the
    quotient of the sizes is zero, so the inner loop copies nothing and the
    outer loop finds the iterators as they were.  No fuel is enough. *)
Theorem merge_runs_diverges `{Heap} s recs file L bs fs fp its ls out_fp buf buf_size fuel :
  schema_wf s -> 0 < record_size s -> 0 < L -> 0 < bs < 2^31 -> Forall (rec_ok s) recs ->
  fs !! file = Some (concat recs) -> fname fp = file ->
  Forall2 (shows s recs L bs) its ls -> ~ all_empty ls ->
  0 <= buf_size < record_size s -> fs !! fname out_fp = Some [] ->
  merge_runs fuel fs fp its out_fp 0 buf buf_size = NoFuel.
Proof.
  intros Hwf Hrs HL Hbs Hrecs Hfs Hfp Hall Hne Hsz Hnil.
  pose proof (wf_bound s Hwf). unfold merge_runs, fseek_set.
  rewrite decide_True by lia. cbn [mbind res_bind].
  destruct Hall as [|it l its ls Hsh Hall]; [by destruct Hne; constructor|].
  cbn [lookup list_lookup of_option mbind res_bind]. unfold get_record_size.
  rewrite (shows_list s recs L bs it l Hsh). rewrite i32_small by lia.
  rewrite decide_False by lia. rewrite Z.quot_small by lia. rewrite decide_True by lia.
  eapply merge_loop_diverges; try done. by constructor.
Qed.

Lemma merge_runs_diverges_witness :
  exists its fp, merge_runs 1000 pair_fs fp its (mkFILE (lit "out") 0 false) 0 (replicate 20 NUL) 8
    = NoFuel.
Proof.
  destruct pair_iterators as (it1 & it2 & fp & id1 & id2 & _ & _ & Hfp & Hall).
  exists [it1; it2], fp.
  apply (@merge_runs_diverges zero_heap pair_schema pair_records (lit "in") 1 9 pair_fs fp [it1; it2]
    [[lit "007,Rome,"]; [lit "006,Rome,"]]);
    [apply pair_schema_wf|reflexivity|lia|lia|apply pair_records_ok
    |vm_compute; reflexivity|exact Hfp|exact Hall| |split; [lia|reflexivity]|vm_compute; reflexivity].
  intros Hall'. inversion Hall'; discriminate.
Defined.
