(* ===== verification/MSort.v ===== *)
(** * MSort: [main] of msort.cc

    The external merge sort: initial runs, then merge passes between two
    temporary files until the run length reaches the number of records. *)

From S2P Require Import Prelude CLib JsonValue Schema Runs RunIterator MergeRuns.

(** ** Single-precision arithmetic of [ceil((float)num_records / run_length)]

    A non-negative [float] is an integer of at most 24 bits scaled by a power
    of two; conversions and quotients round to nearest, ties to even. *)

Definition round_half_even (n d : Z) : Z :=
  let q := n / d in
  let r := n mod d in
  if 2 * r <? d then q
  else if d <? 2 * r then q + 1
  else if Z.even q then q else q + 1.

(** An integer converted to [float], as an integer again. *)
Definition float_of_Z (z : Z) : Z :=
  let s := Z.log2 z - 23 in
  if s <=? 0 then z else round_half_even z (2 ^ s) * 2 ^ s.

(** The exponent of [a / b]: [2^e <= a / b < 2^(e + 1)]. *)
Definition quotient_exp (a b : Z) : Z :=
  let e0 := Z.log2 a - Z.log2 b in
  if (if 0 <=? e0 then 2 ^ e0 * b <=? a else b <=? a * 2 ^ (- e0)) then e0 else e0 - 1.

(** [ceil(a / b)] for positive floats of integer value. *)
Definition ceil_float_div (a b : Z) : Z :=
  let s := 23 - quotient_exp a b in
  if 0 <=? s then - (- round_half_even (a * 2 ^ s) b / 2 ^ s)
  else round_half_even a (b * 2 ^ (- s)) * 2 ^ (- s).

Definition num_runs_of (num_records run_length : Z) : Z :=
  ceil_float_div (float_of_Z num_records) (float_of_Z run_length).

(** ** The program *)

Definition tmp_file : bytes := lit "tmp_file".
Definition tmp_file2 : bytes := lit "tmp_file2".

Section msort.
Context `{Heap, QSort}.

(** The loop that creates the iterators of a pass. *)
Fixpoint make_iterators (runs : FILE) (run_length buf_size : Z) (s : Schema) (next_id : Z)
    (i n : nat) {struct n} : res (list RunIterator * FILE * Z) :=
  match n with
  | O => Ret ([], runs, next_id)
  | S n =>
      '(it, runs, next_id) ←
        new_RunIterator runs (i64 (u64 (u64 (run_length * record_size s) * Z.of_nat i)))
          run_length buf_size s next_id;
      '(its, runs, next_id) ← make_iterators runs run_length buf_size s next_id (S i) n;
      Ret (it :: its, runs, next_id)
  end.

(** The [while] loop over the merge passes. *)
Fixpoint pass_loop (fuel : nat) (fs : filesystem) (s : Schema) (output_file : bytes)
    (num_records k buf_size : Z) (buf : bytes) (flip : bool) (run_length next_id : Z)
    {struct fuel} : res filesystem :=
  match fuel with
  | O => NoFuel
  | S fuel' =>
      if decide (run_length < num_records) then
        if decide (run_length <= 0) then Undef
        else
          let num_runs := num_runs_of num_records run_length in
          let read_filename := if flip then tmp_file2 else tmp_file in
          let write_filename :=
            if decide (num_runs < k \/ num_runs * run_length = num_records) then output_file
            else if flip then tmp_file else tmp_file2 in
          runs ← of_option (fopen_r fs read_filename);
          '(iterators, runs, next_id) ←
            make_iterators runs run_length buf_size s next_id 0 (Z.to_nat num_runs);
          let '(fs, sorted_runs) := fopen_w fs write_filename in
          '(fs, _, _, _) ← merge_runs fuel fs runs iterators sorted_runs 0 buf buf_size;
          if decide (- 2^63 <= run_length * k < 2^63) then
            pass_loop fuel' fs s output_file num_records k buf_size buf (negb flip)
              (run_length * k) next_id
          else Undef
      else Ret fs
  end.

(** From the opening of the input file to the end.  [buf] is an array of
    [memory_capacity] bytes on the stack, which a negative argument turned
    into an [unsigned long] cannot be. *)
Definition external_sort (fuel : nat) (fs : filesystem) (s : Schema)
    (input_file output_file : bytes) (memory_capacity k : Z) : res (Z * filesystem) :=
  in_fp ← of_option (fopen_r fs input_file);
  let '(fs, tmp_out) := fopen_w fs tmp_file in
  if decide (record_size s = 0) then Undef
  else
    let run_length := memory_capacity / record_size s in
    '(fs, in_fp, _) ← mk_runs fs in_fp tmp_out run_length s;
    num_records ← number_of_records fs in_fp (record_size s);
    k1 ← int_add k 1;
    if decide (k1 = 0 \/ 2^31 <= memory_capacity) then Undef
    else
      let buf := malloc_bytes (Z.to_nat memory_capacity) in
      let buf_size := memory_capacity / u64 k1 in
      fs ← pass_loop fuel fs s output_file num_records k buf_size buf false run_length 0;
      Ret (0, remove (remove fs tmp_file) tmp_file2).

(** [main]: the exit status and the file system it leaves.  [argv] holds the
    program name and the arguments. *)
Definition main (fuel : nat) (fs : filesystem) (argv : list bytes) : res (Z * filesystem) :=
  match argv with
  | _ :: schema_file :: input_file :: output_file :: mem :: k :: _ :: _ =>
      o ← read_schema fs schema_file;
      match o with
      | None => Ret (1, fs)
      | Some s =>
          '(rc, s) ← init_sort_attrs s (drop 6 argv);
          if decide (rc <> 0) then Ret (2, fs)
          else
            m ← atoi mem;
            let memory_capacity := u64 m in
            if decide (record_size s > memory_capacity) then Ret (3, fs)
            else
              kk ← atoi k;
              external_sort fuel fs s input_file output_file memory_capacity kk
      end
  | _ => Ret (1, fs)
  end.
End msort.

(** ** The number of runs *)

Lemma round_half_even_bounds n d :
  0 < d -> n / d <= round_half_even n d <= n / d + (if n mod d =? 0 then 0 else 1).
Proof.
  intros Hd. unfold round_half_even. pose proof (Z.mod_pos_bound n d Hd).
  destruct (Z.ltb_spec (2 * (n mod d)) d); [case_match; lia|].
  destruct (Z.ltb_spec d (2 * (n mod d))); destruct (Z.eqb_spec (n mod d) 0); try lia.
  destruct (Z.even _); lia.
Qed.

Lemma round_half_even_up n d :
  0 < d -> d < 2 * (n mod d) -> round_half_even n d = n / d + 1.
Proof.
  intros Hd H. unfold round_half_even.
  rewrite (proj2 (Z.ltb_ge _ _)) by lia. by rewrite (proj2 (Z.ltb_lt _ _)).
Qed.

Lemma float_of_Z_exact z : 0 < z < 2^24 -> float_of_Z z = z.
Proof.
  intros Hz. unfold float_of_Z. assert (Z.log2 z < 24) by (apply Z.log2_lt_pow2; lia).
  by rewrite (proj2 (Z.leb_le _ _)) by lia.
Qed.

(** The exponent of a quotient at least one. *)
Lemma quotient_exponent a b :
  0 < b <= a -> a < 2^24 ->
  0 <= quotient_exp a b <= 23 /\ 2 ^ quotient_exp a b * b <= a.
Proof.
  intros Hb Ha. unfold quotient_exp. set (e0 := Z.log2 a - Z.log2 b). assert (Z.log2 b <= Z.log2 a) by (apply Z.log2_le_mono; lia).
  assert (Z.log2 a < 24) by (apply Z.log2_lt_pow2; lia).
  pose proof (Z.log2_nonneg b).
  rewrite (proj2 (Z.leb_le 0 e0)) by lia. destruct (Z.leb_spec (2 ^ e0 * b) a) as [Hle|Hgt].
  - split; [lia|done].
  - pose proof (Z.log2_spec a ltac:(lia)) as Sa. pose proof (Z.log2_spec b ltac:(lia)) as Sb.
    destruct (decide (e0 = 0)) as [E|]; [rewrite E in Hgt; lia|].
    split; [lia|].
    assert (2 ^ (e0 - 1) * b < 2 ^ (e0 - 1) * 2 ^ Z.succ (Z.log2 b)).
    { apply Z.mul_lt_mono_pos_l; [apply Z.pow_pos_nonneg; lia|lia]. }
    rewrite <- Z.pow_add_r in H2 by lia.
    replace (e0 - 1 + Z.succ (Z.log2 b)) with (Z.log2 a) in H2 by lia. lia.
Qed.

(** Below 2^24 the float computation gives the exact ceiling. *)
Lemma ceil_float_div_exact a b :
  0 < b <= a -> a < 2^24 -> ceil_float_div a b = (a + b - 1) / b.
Proof.
  intros Hb Ha. unfold ceil_float_div.
  destruct (quotient_exponent a b Hb Ha) as [He Hea].
  set (e := quotient_exp a b) in *. set (s := 23 - e).
  rewrite (proj2 (Z.leb_le 0 s)) by lia.
  assert (0 < 2 ^ s) as Hs by (apply Z.pow_pos_nonneg; lia).
  assert (2 ^ 24 = 2 * (2 ^ s * 2 ^ e)) as E24.
  { rewrite <- Z.pow_add_r by lia. replace (s + e) with 23 by lia. done. }
  assert (0 < 2 ^ e) by (apply Z.pow_pos_nonneg; lia).
  assert (b < 2 * 2 ^ s) as Hb2 by nia.
  set (q := a / b). pose proof (Z.div_mod a b ltac:(lia)) as Eab. fold q in Eab.
  pose proof (Z.mod_pos_bound a b ltac:(lia)) as Hr. set (r := a mod b) in *.
  pose proof (round_half_even_bounds (a * 2 ^ s) b ltac:(lia)) as Hm.
  assert (a * 2 ^ s = (q * 2 ^ s) * b + r * 2 ^ s) as Es by (rewrite Eab; ring).
  destruct (decide (r = 0)) as [Hr0|Hr0].
  - assert ((a * 2 ^ s) mod b = 0) as Emod.
    { rewrite Es, Hr0, Z.add_comm, Z.mod_add by lia. done. }
    assert (a * 2 ^ s / b = q * 2 ^ s) as Ediv.
    { rewrite Es, Hr0, Z.mul_0_l, Z.add_0_r. apply Z.div_mul. lia. }
    rewrite Emod, Ediv in Hm. cbn in Hm.
    replace (round_half_even (a * 2 ^ s) b) with (q * 2 ^ s) by lia.
    rewrite <- Z.mul_opp_l, Z.div_mul by lia.
    apply (Z.div_unique_pos _ _ _ (b - 1)); lia.
  - assert (q * 2 ^ s < round_half_even (a * 2 ^ s) b <= (q + 1) * 2 ^ s) as Hmm.
    { assert (a * 2 ^ s / b < (q + 1) * 2 ^ s) by (apply Z.div_lt_upper_bound; nia).
      assert (q * 2 ^ s <= a * 2 ^ s / b) by (apply Z.div_le_lower_bound; nia).
      split; [|case_match; lia].
      destruct (decide (a * 2 ^ s / b = q * 2 ^ s)) as [Eq|]; [|lia].
      rewrite round_half_even_up; [lia|lia|].
      rewrite Z.mod_eq by lia. rewrite Eq. nia. }
    set (m := round_half_even (a * 2 ^ s) b) in *.
    assert (- m / 2 ^ s = - (q + 1)) as ->.
    { symmetry. apply (Z.div_unique_pos _ _ _ ((q + 1) * 2 ^ s - m)); lia. }
    rewrite Z.opp_involutive. apply (Z.div_unique_pos _ _ _ (r - 1)); lia.
Qed.

Lemma num_runs_exact N L :
  0 < L <= N -> N < 2^24 -> num_runs_of N L = (N + L - 1) / L.
Proof.
  intros HL HN. unfold num_runs_of. rewrite !float_of_Z_exact by lia.
  by apply ceil_float_div_exact.
Qed.

(** ** One pass *)

Definition runs_of (N L : Z) : Z := (N + L - 1) / L.

(** The last refill of a run overshoots it by no more than the last run holds,
    so no refill but those of the last run reaches the end of the file. *)
Definition refills_fit (N L bs rs : Z) : Prop :=
  let c := Z.min (bs / rs) L in
  c * ((L + c - 1) / c) - L <= (N - 1) mod L + 1.

Section pass.
Context `{Heap, QSort} (s : Schema).
Context (Hwf : schema_wf s) (Hsort : sort_wf s) (Hrs : 0 < record_size s).

Lemma make_iterators_spec recs file L bs fp id i n :
  0 < L -> 0 < bs < 2^31 -> Forall (rec_ok s) recs -> fname fp = file ->
  (forall j, (i <= j < i + n)%nat -> L * record_size s * Z.of_nat j < 2^63) ->
  L * record_size s < 2^63 ->
  exists its fp' id', make_iterators fp L bs s id i n = Ret (its, fp', id') /\ fname fp' = file
    /\ Forall2 (shows s recs L bs) its
        (run_lists recs L bs (record_size s) (map (fun j => Z.to_nat L * j)%nat (seq i n))).
Proof.
  intros HL Hbs Hrecs. revert fp id i.
  induction n as [|n IH]; intros fp id i Hfp Hb Hb1; cbn [make_iterators seq map].
  { exists [], fp, id. split; [done|]. split; [done|constructor]. }
  pose proof (Hb i ltac:(lia)). unfold u64 at 2.
  rewrite (Z.mod_small (L * record_size s)) by nia. rewrite u64_small, i64_small by nia.
  replace (L * record_size s * Z.of_nat i)
    with (record_size s * Z.of_nat (Z.to_nat L * i)) by lia.
  destruct (new_RunIterator_spec s recs file L bs Hrs HL
    fp (Z.to_nat L * i) id Hfp) as (it & fp1 & -> & Hfp1 & Hsh). cbn [mbind res_bind].
  destruct (IH fp1 (i32 (id + 1)) (S i) Hfp1) as (its & fp2 & id2 & -> & Hfp2 & Hall);
    [intros j Hj; apply Hb; lia|done|]. cbn [mbind res_bind].
  exists (it :: its), fp2, id2. split; [done|]. split; [done|]. by constructor.
Qed.

(** When the refills fit, the iterators show the runs of the file. *)
Lemma run_lists_chop recs L bs :
  0 < L -> record_size s <= bs -> refills_fit (Z.of_nat (length recs)) L bs (record_size s) ->
  run_lists recs L bs (record_size s)
    (map (fun j => Z.to_nat L * j)%nat (seq 0 (length (chop (Z.to_nat L) recs))))
  = chop (Z.to_nat L) recs.
Proof.
  intros HL Hbs Hfit. set (l := Z.to_nat L). assert (0 < l)%nat as Hl by lia.
  rewrite (chop_map l Hl recs) at 2. unfold run_lists. rewrite map_map.
  apply map_ext_in. intros j Hj%in_seq. set (c := refill L bs (record_size s)).
  assert (1 <= bs / record_size s) by (apply Z.div_le_lower_bound; lia).
  assert (Z.of_nat c = Z.min (bs / record_size s) L) as Hc by (unfold c, refill; lia).
  apply emit_exact; [lia|]. rewrite length_drop. fold l.
  unfold refills_fit in Hfit. cbn zeta in Hfit. rewrite <- Hc in Hfit.
  assert (c * ((l + c - 1) / c) = Z.to_nat (Z.of_nat c * ((L + Z.of_nat c - 1) / Z.of_nat c)))%nat as Hk.
  { rewrite Z2Nat.inj_mul by (try apply Z.div_pos; lia). rewrite Nat2Z.id. f_equal.
    rewrite Z2Nat.inj_div by lia. rewrite Nat2Z.id. f_equal. lia. }
  destruct (decide (S j = length (chop l recs))) as [Elast|Hnl].
  - left. rewrite length_chop in Elast by done.
    assert (length recs + l - 1 < l * S (S j))%nat; [|lia].
    rewrite Elast. pose proof (Nat.mul_succ_div_gt (length recs + l - 1) l). lia.
  - right. assert (S j < length (chop l recs))%nat as Hj' by lia.
    rewrite length_chop in Hj' by done.
    assert (l * S (S j) <= length recs + l - 1)%nat as Hjj.
    { transitivity (l * ((length recs + l - 1) / l))%nat; [nia|]. apply Nat.Div0.mul_div_le. }
    set (N := Z.of_nat (length recs)) in *.
    pose proof (Z.div_mod (N - 1) L ltac:(lia)) as E.
    assert (Z.of_nat (S j) <= (N - 1) / L) by (apply Z.div_le_lower_bound; lia).
    rewrite Hk. nia.
Qed.

Lemma concat_ok (recs : list bytes) L : Forall (rec_ok s) recs -> ok_lists s (chop L recs).
Proof.
  intros. destruct L as [|L]; [|apply Forall_chop; [lia|done]].
  unfold chop. generalize (length recs). clear -H1. intros n. revert recs H1.
  induction n as [|n IH]; intros [|r recs] Hr; cbn; [constructor..|].
  constructor; [constructor|]. by apply IH.
Qed.

Lemma length_chop_Z (recs : list bytes) L :
  0 < L -> Z.of_nat (length (chop (Z.to_nat L) recs)) = runs_of (Z.of_nat (length recs)) L.
Proof.
  intros HL. rewrite length_chop by lia. unfold runs_of.
  destruct (decide (length recs = 0%nat)) as [->|].
  - rewrite Nat.div_small, Z.div_small by lia. done.
  - rewrite Nat2Z.inj_div. f_equal; lia.
Qed.

(** The body of the pass loop: the file of sorted runs [rf] is merged into
    [wf], in order. *)
Lemma one_pass fuel fs rf wf recs L bs buf id :
  fs !! rf = Some (concat recs) -> wf ≠ rf -> Forall (rec_ok s) recs ->
  Forall (StronglySorted (key_le s)) (chop (Z.to_nat L) recs) ->
  0 < L < Z.of_nat (length recs) ->
  record_size s <= bs < 2^31 -> bs <= Z.of_nat (length buf) ->
  Z.of_nat (length recs) * record_size s < 2^31 ->
  refills_fit (Z.of_nat (length recs)) L bs (record_size s) ->
  (length recs < fuel)%nat ->
  exists its fp' id' out a b c,
    make_iterators (mkFILE rf 0 false) L bs s id 0
      (Z.to_nat (runs_of (Z.of_nat (length recs)) L)) = Ret (its, fp', id')
    /\ merge_runs fuel (<[wf := []]> fs) fp' its (mkFILE wf 0 false) 0 buf bs
       = Ret (<[wf := concat out]> fs, a, b, c)
    /\ out ≡ₚ recs /\ StronglySorted (key_le s) out.
Proof.
  intros Hrf Hne Hok Hsorted HL Hbs Hbuf Hsz Hfit Hfuel.
  set (n := Z.to_nat (runs_of (Z.of_nat (length recs)) L)).
  assert (n = length (chop (Z.to_nat L) recs)) as Hn.
  { pose proof (length_chop_Z recs L). lia. }
  assert (Z.of_nat n * L <= Z.of_nat (length recs) + L - 1) as Hn1.
  { unfold n, runs_of. rewrite Z2Nat.id by (apply Z.div_pos; lia).
    rewrite Z.mul_comm. apply Z.mul_div_le. lia. }
  destruct (make_iterators_spec recs rf L bs (mkFILE rf 0 false) id 0 n)
    as (its & fp' & id' & E & Hfp & Hall); try done; try lia.
  { intros j Hj. assert (L * Z.of_nat j <= Z.of_nat (length recs)) as Hj' by nia.
    apply (Z.mul_le_mono_nonneg_r _ _ (record_size s)) in Hj'; lia. }
  { assert (L * record_size s <= Z.of_nat (length recs) * record_size s); [|lia].
    apply Z.mul_le_mono_nonneg_r; lia. }
  rewrite Hn in Hall. rewrite run_lists_chop in Hall by (done || lia).
  assert (chop (Z.to_nat L) recs ≠ []) as Hnil.
  { rewrite chop_cons; [done|lia|]. intros ->. cbn in HL. lia. }
  assert (concat (chop (Z.to_nat L) recs) = recs) as Hcc by (apply concat_chop; lia).
  destruct (merge_runs_spec fuel s recs rf L bs (<[wf := []]> fs) fp' its (chop (Z.to_nat L) recs)
    (mkFILE wf 0 false) buf bs Hwf Hsort Hrs ltac:(lia) ltac:(lia) Hok)
    as (out & a & b & c & Em & Hm); try done.
  - by rewrite lookup_insert_ne.
  - by apply concat_ok.
  - cbn. by rewrite lookup_insert_eq.
  - by rewrite Hcc.
  - exists its, fp', id', out, a, b, c. split; [done|]. split.
    { rewrite Em. cbn. by rewrite insert_insert_eq. }
    split; [rewrite (merges_perm _ _ _ Hm); by rewrite Hcc|by eapply merges_sorted].
Qed.
End pass.

(** ** The schedule of passes *)

(** The passes from run length [L] on end with one that writes the output file:
    only the last may satisfy the test that selects it, and it must. *)
Inductive schedule (N k bs rs : Z) : Z -> Prop :=
  | sched_last L :
      0 < L < N -> N <= L * k -> refills_fit N L bs rs ->
      runs_of N L < k \/ runs_of N L * L = N -> schedule N k bs rs L
  | sched_more L :
      0 < L -> L * k < N -> refills_fit N L bs rs -> runs_of N L * L ≠ N ->
      schedule N k bs rs (L * k) -> schedule N k bs rs L.

Lemma tmp_files_differ : tmp_file ≠ tmp_file2.
Proof. by vm_compute. Qed.

Definition untouched (names : list bytes) (fs fs' : filesystem) : Prop :=
  forall f, f ∉ names -> fs' !! f = fs !! f.

Section external_sort.
Context `{Heap, QSort} (s : Schema).
Context (Hwf : schema_wf s) (Hsort : sort_wf s) (Hrs : 0 < record_size s).

(** One turn of the loop: a merge, and the file it goes to. *)
Lemma pass_step f fs recs L k bs buf (flip : bool) output id :
  let N := Z.of_nat (length recs) in
  let wf := if decide (runs_of N L < k \/ runs_of N L * L = N) then output
            else if flip then tmp_file else tmp_file2 in
  0 < L < N -> 1 <= k < 2^31 -> N < 2^24 ->
  output ≠ tmp_file -> output ≠ tmp_file2 ->
  fs !! (if flip then tmp_file2 else tmp_file) = Some (concat recs) ->
  Forall (rec_ok s) recs ->
  Forall (StronglySorted (key_le s)) (chop (Z.to_nat L) recs) ->
  record_size s <= bs < 2^31 -> bs <= Z.of_nat (length buf) -> N * record_size s < 2^31 ->
  refills_fit N L bs (record_size s) -> N <= Z.of_nat f ->
  exists out id', pass_loop (S f) fs s output N k bs buf flip L id
      = pass_loop f (<[wf := concat out]> fs) s output N k bs buf (negb flip) (L * k) id'
    /\ out ≡ₚ recs /\ StronglySorted (key_le s) out.
Proof.
  intros N wf HL Hk HN Ho1 Ho2 Hrf Hok Hsorted Hbs Hbuf Hsz Hfit Hf. cbn [pass_loop].
  rewrite decide_True, decide_False by lia.
  rewrite num_runs_exact by lia. fold (runs_of N L). fold wf.
  unfold fopen_r. rewrite Hrf. cbn [of_option mbind res_bind].
  assert (wf ≠ if flip then tmp_file2 else tmp_file) as Hwf'.
  { unfold wf. pose proof tmp_files_differ. case_decide; by destruct flip. }
  destruct (one_pass s Hwf Hsort Hrs (S f) fs _ wf recs L bs buf id Hrf)
    as (its & fp & id' & out & a & b & c & E1 & E2 & Hp & Hs); try done; try lia.
  fold N in E1. rewrite E1. cbn [mbind res_bind fopen_w].
  rewrite E2. cbn [mbind res_bind]. rewrite decide_True by nia. by exists out, id'.
Qed.

Lemma pass_loop_end f fs output N k bs buf flip L id :
  N <= L -> pass_loop (S f) fs s output N k bs buf flip L id = Ret fs.
Proof. intros. cbn [pass_loop]. by rewrite decide_False by lia. Qed.

Lemma runs_times N L : 0 < L -> N <= runs_of N L * L.
Proof. intros HL. unfold runs_of. pose proof (Z.mul_succ_div_gt (N + L - 1) L HL). lia. Qed.

Lemma pass_loop_spec N k bs L0 : schedule N k bs (record_size s) L0 ->
  forall fuel fs recs buf (flip : bool) output id,
  N = Z.of_nat (length recs) -> 2 <= k < 2^31 -> N < 2^24 ->
  output ≠ tmp_file -> output ≠ tmp_file2 ->
  fs !! (if flip then tmp_file2 else tmp_file) = Some (concat recs) ->
  Forall (rec_ok s) recs ->
  Forall (StronglySorted (key_le s)) (chop (Z.to_nat L0) recs) ->
  record_size s <= bs < 2^31 -> bs <= Z.of_nat (length buf) -> N * record_size s < 2^31 ->
  2 * N - L0 < Z.of_nat fuel ->
  exists fs' out, pass_loop fuel fs s output N k bs buf flip L0 id = Ret fs'
    /\ fs' !! output = Some (concat out) /\ out ≡ₚ recs /\ StronglySorted (key_le s) out
    /\ untouched [output; tmp_file; tmp_file2] fs fs'.
Proof.
  induction 1 as [L HL Hlast Hfit Hw|L HL Hmore Hfit Hw Hsch IH];
    intros fuel fs recs buf flip output id -> Hk HN24 Ho1 Ho2 Hrf Hok Hsorted Hbs Hbuf Hsz Hfuel;
    assert (0 < L < Z.of_nat (length recs)) as HLN by nia;
    (destruct fuel as [|fuel]; [lia|]);
    (destruct (pass_step fuel fs recs L k bs buf flip output id)
      as (out & id' & -> & Hp & Hs); try done; try lia).
  - rewrite decide_True by done. destruct fuel as [|fuel]; [lia|].
    rewrite pass_loop_end by done. eexists _, out. rewrite lookup_insert_eq.
    do 4 (split; [done|]). intros f Hf. rewrite lookup_insert_ne; [done|set_solver].
  - assert (k <= runs_of (Z.of_nat (length recs)) L) as Hkr by (apply Z.div_le_lower_bound; nia).
    rewrite decide_False by lia. set (wf := if flip then tmp_file else tmp_file2).
    destruct (IH fuel (<[wf := concat out]> fs) out buf (negb flip) output id')
      as (fs' & out' & E & Ho & Hp' & Hs' & Hun); try done; try lia.
    + by rewrite Hp.
    + destruct flip; cbn; by rewrite lookup_insert_eq.
    + by rewrite Hp.
    + apply chop_sorted; [lia|done].
    + nia.
    + exists fs', out'. split; [done|]. split; [done|]. split; [by rewrite Hp'|].
      split; [done|]. intros f Hf. rewrite Hun by done. apply lookup_insert_ne.
      unfold wf. destruct flip; set_solver.
Qed.

(** The file size in records. *)
Lemma number_of_records_spec fs fp recs :
  fs !! fname fp = Some (concat recs) -> Forall (rec_ok s) recs ->
  Z.of_nat (length recs) * record_size s < 2^31 ->
  number_of_records fs fp (record_size s) = Ret (Z.of_nat (length recs)).
Proof.
  intros Hf Hok Hsz. unfold number_of_records, filesize, contents. rewrite Hf.
  cbn [of_option mbind res_bind]. rewrite decide_False by lia.
  rewrite (length_concat_uniform (Z.to_nat (record_size s))) by (by apply rec_ok_uniform).
  rewrite (i32_small (Z.of_nat _)) by lia. rewrite u64_small by lia.
  replace (Z.of_nat (Z.to_nat (record_size s) * length recs))
    with (Z.of_nat (length recs) * record_size s) by lia.
  rewrite Z.div_mul by lia. by rewrite i32_small by nia.
Qed.

(** The first phase: [tmp_file] holds the runs, the rest is as before. *)
Lemma first_phase fs input recs mem :
  fs !! input = Some (concat recs) -> Forall (rec_ok s) recs -> input ≠ tmp_file ->
  record_size s <= mem < 2^31 ->
  let L := mem / record_size s in
  exists recs1 in_fp out_fp,
    mk_runs (<[tmp_file := []]> fs) (mkFILE input 0 false) (mkFILE tmp_file 0 false) L s
      = Ret (<[tmp_file := concat recs1]> fs, in_fp, out_fp)
    /\ fname in_fp = input /\ recs1 ≡ₚ recs
    /\ Forall (StronglySorted (key_le s)) (chop (Z.to_nat L) recs1).
Proof.
  intros Hin Hok Hne Hmem L.
  assert (0 < L) as HL by (apply Z.div_str_pos; lia).
  assert (record_size s * L <= mem) as HLm by (apply Z.mul_div_le; lia).
  destruct (mk_runs_spec s (<[tmp_file := []]> fs) (mkFILE input 0 false)
    (mkFILE tmp_file 0 false) L recs Hwf Hsort Hrs HL ltac:(lia) Hok)
    as (runs & i & o & E & HF & Hi); [done|by rewrite lookup_insert_ne|by rewrite lookup_insert_eq|].
  exists (concat runs), i, o. rewrite E. cbn. rewrite insert_insert_eq.
  split; [done|]. split; [done|]. split.
  - rewrite (sorts_to_perm _ _ _ HF). by rewrite concat_chop by lia.
  - rewrite (chop_concat_Forall2 (Z.to_nat L) ltac:(lia) recs).
    + clear -HF. induction HF as [|b r bs rs [_ Hr] _ IH]; by constructor.
    + eapply Forall2_impl; [|exact HF]. intros b r [Hp _]. by rewrite Hp.
Qed.

(** When the passes follow a schedule, the output file is the input sorted. *)
Lemma external_sort_spec fuel fs input output recs mem k :
  fs !! input = Some (concat recs) -> Forall (rec_ok s) recs ->
  input ≠ tmp_file -> output ≠ tmp_file -> output ≠ tmp_file2 ->
  2 <= k < 2^31 - 1 -> mem < 2^31 -> record_size s * (k + 1) <= mem ->
  let N := Z.of_nat (length recs) in
  N < 2^24 -> N * record_size s < 2^31 ->
  schedule N k (mem / (k + 1)) (record_size s) (mem / record_size s) ->
  2 * N < Z.of_nat fuel ->
  exists fs' out, external_sort fuel fs s input output mem k = Ret (0, fs')
    /\ fs' !! output = Some (concat out) /\ out ≡ₚ recs /\ StronglySorted (key_le s) out
    /\ fs' !! tmp_file = None /\ fs' !! tmp_file2 = None
    /\ untouched [output; tmp_file; tmp_file2] fs fs'.
Proof.
  intros Hin Hok Hit Ho1 Ho2 Hk Hmem Hbs N HN24 Hsz Hsch Hfuel.
  assert (record_size s <= mem / (k + 1)) as Hbs' by (apply Z.div_le_lower_bound; lia).
  assert (mem / (k + 1) <= mem) as Hbs2 by (apply Z.div_le_upper_bound; nia).
  destruct (first_phase fs input recs mem Hin Hok Hit ltac:(lia))
    as (recs1 & in_fp & out_fp & E & Hi & Hp & Hs).
  unfold external_sort, fopen_r. rewrite Hin. cbn [of_option mbind res_bind fopen_w].
  rewrite decide_False by lia. rewrite E. cbn [mbind res_bind].
  rewrite (number_of_records_spec _ _ recs) by (rewrite ?Hi, ?lookup_insert_ne; done).
  cbn [mbind res_bind]. unfold int_add. rewrite decide_True by lia. cbn [mbind res_bind].
  rewrite decide_False by lia. rewrite (u64_small (k + 1)) by lia.
  assert (length recs1 = length recs) as Hlen by (by rewrite Hp).
  destruct (pass_loop_spec N k _ _ Hsch fuel (<[tmp_file := concat recs1]> fs) recs1
    (malloc_bytes (Z.to_nat mem)) false output 0)
    as (fs' & out & E' & Ho & Hpo & Hso & Hun); try done; try lia.
  - by rewrite lookup_insert_eq.
  - by rewrite Hp.
  - rewrite length_malloc. lia.
  - assert (0 <= mem / record_size s) by (apply Z.div_pos; lia). lia.
  - fold N. rewrite E'. cbn [mbind res_bind]. unfold remove. eexists _, out.
    split; [done|]. rewrite !lookup_delete_ne by congruence. split; [done|].
    split; [by rewrite Hpo|]. split; [done|].
    rewrite lookup_delete_eq. split; [by rewrite lookup_delete_ne, lookup_delete_eq by (vm_compute; congruence)|].
    split; [done|]. intros f Hf. rewrite !lookup_delete_ne by set_solver.
    rewrite Hun by done. apply lookup_insert_ne. set_solver.
Qed.

(** The phases before the pass loop, for the runs that go wrong below. *)
Lemma external_sort_start fuel fs input output recs mem k :
  fs !! input = Some (concat recs) -> Forall (rec_ok s) recs -> input ≠ tmp_file ->
  1 <= k < 2^31 - 1 -> record_size s <= mem < 2^31 ->
  Z.of_nat (length recs) * record_size s < 2^31 ->
  exists recs1, recs1 ≡ₚ recs
    /\ Forall (StronglySorted (key_le s)) (chop (Z.to_nat (mem / record_size s)) recs1)
    /\ external_sort fuel fs s input output mem k =
      (fs' ← pass_loop fuel (<[tmp_file := concat recs1]> fs) s output
         (Z.of_nat (length recs)) k (mem / (k + 1)) (malloc_bytes (Z.to_nat mem))
         false (mem / record_size s) 0;
       Ret (0, remove (remove fs' tmp_file) tmp_file2)).
Proof.
  intros Hin Hok Hit Hk Hmem Hsz.
  destruct (first_phase fs input recs mem Hin Hok Hit Hmem)
    as (recs1 & in_fp & out_fp & E & Hi & Hp & Hs).
  exists recs1. split; [done|]. split; [done|].
  unfold external_sort, fopen_r. rewrite Hin. cbn [of_option mbind res_bind fopen_w].
  rewrite decide_False by lia. rewrite E. cbn [mbind res_bind].
  rewrite (number_of_records_spec _ _ recs) by (rewrite ?Hi, ?lookup_insert_ne; done).
  cbn [mbind res_bind]. unfold int_add. rewrite decide_True by lia. cbn [mbind res_bind].
  rewrite decide_False by lia. by rewrite (u64_small (k + 1)) by lia.
Qed.

End external_sort.

(** ** Concrete runs *)

(** One attribute of one byte; a record is that byte and a separator. *)
Definition tiny : Schema :=
  mkSchema [mkAttribute (lit "a" ++ replicate 254 NUL) (lit "string" ++ [NUL]) 1] 1 [Some 0] 1 2.

Definition tiny_records (s : string) : list bytes := map (fun c => [c; zb 10]) (lit s).

Definition tiny_fs (s : string) : filesystem :=
  <[lit "schema" := schema_text [("a"%string, 1)]]> {[ lit "in" := concat (tiny_records s) ]}.

Lemma tiny_wf : schema_wf tiny /\ sort_wf tiny.
Proof.
  split; split; try (vm_compute; reflexivity).
  - repeat constructor; cbn; lia.
  - repeat constructor. exists 0. cbn. split; [done|lia].
Qed.

Lemma tiny_records_ok str : no_nul (lit str) -> Forall (rec_ok tiny) (tiny_records str).
Proof.
  intros Hn. unfold tiny_records. apply Forall_map, Forall_forall. intros c Hc%list_elem_of_In.
  split; [done|]. unfold no_nul in *. rewrite !not_elem_of_cons.
  split; [by intros <-|]. split; [by vm_compute|apply not_elem_of_nil].
Qed.

(** The exit status and one file of a run that returned. *)
Definition observe (name : bytes) (r : res (Z * filesystem)) : option (Z * option bytes) :=
  match r with Ret (c, fs) => Some (c, fs !! name) | _ => None end.

(** ** Properties *)

(** C1: [main] sorts.  On a schema file that [read_schema] accepts, sort
    attributes of the schema and an input file of records, and when the merge
    passes follow a [schedule], it exits with status 0, the output file holds
    exactly the input's records in the order of the sort attributes, the
    temporary files are gone and no other file has changed. *)
Theorem main_sorts `{Heap, QSort} fuel fs prog schema_file input output mem kk want wants
    s0 s recs m k :
  read_schema fs schema_file = Ret (Some s0) -> Forall (fun a => 0 <= length_ a) (attrs s0) ->
  nattrs s0 + sum_lengths (attrs s0) < 2^31 ->
  init_sort_attrs s0 (want :: wants) = Ret (0, s) ->
  atoi mem = Ret m -> atoi kk = Ret k ->
  fs !! input = Some (concat recs) -> Forall (rec_ok s) recs ->
  input ≠ tmp_file -> output ≠ tmp_file -> output ≠ tmp_file2 ->
  2 <= k < 2^31 - 1 -> m < 2^31 -> record_size s * (k + 1) <= m ->
  let N := Z.of_nat (length recs) in
  N < 2^24 -> N * record_size s < 2^31 ->
  schedule N k (m / (k + 1)) (record_size s) (m / record_size s) ->
  2 * N < Z.of_nat fuel ->
  exists fs' out,
    main fuel fs (prog :: schema_file :: input :: output :: mem :: kk :: want :: wants)
      = Ret (0, fs')
    /\ fs' !! output = Some (concat out) /\ out ≡ₚ recs /\ StronglySorted (key_le s) out
    /\ fs' !! tmp_file = None /\ fs' !! tmp_file2 = None
    /\ untouched [output; tmp_file; tmp_file2] fs fs'.
Proof.
  intros Hroot Hlen Hb Hinit Hm Hk Hin Hok Hi Ho1 Ho2 Hk2 Hm2 Hcap N HN HNs Hsch Hfuel.
  destruct (sorting_schema_wf _ _ s0 _ _ s Hroot Hlen Hb Hinit) as (Hwf & Hsort & Hpos).
  unfold main. rewrite Hroot. cbn [mbind res_bind drop].
  rewrite Hinit. cbn [mbind res_bind]. rewrite decide_False by lia.
  rewrite Hm. cbn [mbind res_bind]. rewrite (u64_small m) by nia.
  rewrite decide_False by nia. rewrite Hk. cbn [mbind res_bind].
  by apply external_sort_spec.
Qed.

Lemma tiny_schedule : schedule 9 3 4 2 8.
Proof.
  apply sched_last; [lia|lia|vm_compute; congruence|left; vm_compute; reflexivity].
Qed.

Lemma main_sorts_witness :
  exists fs' out,
    @main zero_heap insertion_qsort 100 (tiny_fs "ihgfedcba")
      [lit "msort"; lit "schema"; lit "in"; lit "out"; lit "16"; lit "3"; lit "a"] = Ret (0, fs')
    /\ fs' !! lit "out" = Some (concat out) /\ out ≡ₚ tiny_records "ihgfedcba"
    /\ StronglySorted (key_le tiny) out.
Proof.
  destruct (@main_sorts zero_heap insertion_qsort 100 (tiny_fs "ihgfedcba") (lit "msort")
    (lit "schema") (lit "in") (lit "out") (lit "16") (lit "3") (lit "a") []
    (mkSchema (attrs tiny) 1 [] 0 2) tiny (tiny_records "ihgfedcba") 16 3)
    as (fs' & out & E & Ho & Hp & Hs & _);
    [vm_compute; reflexivity|repeat constructor; discriminate|reflexivity
    |vm_compute; reflexivity|vm_compute; reflexivity|vm_compute; reflexivity
    |vm_compute; reflexivity|apply tiny_records_ok; by apply no_nul_b
    |vm_compute; congruence|vm_compute; congruence|vm_compute; congruence|done|done|vm_compute; congruence
    |reflexivity|reflexivity|exact tiny_schedule|reflexivity|].
  exists fs', out. split; [exact E|]. split; [exact Ho|]. split; [exact Hp|exact Hs].
Defined.

(** The number of runs of a pass, computed in single precision, is the
    exact ceiling of the quotient for fewer than 2^24 records. *)
Theorem num_runs_ceiling N L :
  0 < L <= N -> N < 2^24 ->
  num_runs_of N L = (N + L - 1) / L /\ N <= num_runs_of N L * L < N + L.
Proof.
  intros HL HN. rewrite num_runs_exact by done. split; [done|].
  pose proof (runs_times N L ltac:(lia)) as H. unfold runs_of in H. split; [done|].
  pose proof (Z.mul_div_le (N + L - 1) L). lia.
Qed.

Lemma num_runs_ceiling_witness :
  0 < 7 <= 100 /\ 100 < 2^24 /\ num_runs_of 100 7 = (100 + 7 - 1) / 7
    /\ 100 <= num_runs_of 100 7 * 7 < 100 + 7.
Proof. split; [lia|]. split; [lia|]. apply (num_runs_ceiling 100 7); lia. Defined.

(** Above 2^24 records the conversion to [float] may round down, and a
    run is left out of the pass: three runs are needed and two are counted. *)
Theorem num_runs_loses_a_run :
  num_runs_of 16777217 8388608 = 2 /\ (16777217 + 8388608 - 1) / 8388608 = 3.
Proof. split; vm_compute; reflexivity. Qed.

(** An input that fits in memory is never written to the output file: its
    one run stays in the temporary file, which is removed. *)
Theorem small_input_not_written `{Heap, QSort} s fuel fs input output recs mem k :
  schema_wf s -> sort_wf s -> 0 < record_size s ->
  fs !! input = Some (concat recs) -> Forall (rec_ok s) recs -> input ≠ tmp_file ->
  output ≠ tmp_file -> output ≠ tmp_file2 ->
  1 <= k < 2^31 - 1 -> record_size s <= mem < 2^31 ->
  Z.of_nat (length recs) * record_size s < 2^31 ->
  Z.of_nat (length recs) <= mem / record_size s -> (0 < fuel)%nat ->
  exists fs', external_sort fuel fs s input output mem k = Ret (0, fs')
    /\ fs' !! output = fs !! output.
Proof.
  intros Hwf Hsort Hrs Hin Hok Hit Ho1 Ho2 Hk Hmem Hsz Hfit Hfuel.
  destruct (external_sort_start s Hwf Hsort Hrs fuel fs input output recs mem k)
    as (recs1 & Hp & Hs & ->); try done.
  destruct fuel as [|fuel]; [lia|]. cbn [pass_loop]. rewrite decide_False by lia.
  cbn [mbind res_bind]. eexists. split; [done|]. unfold remove.
  by rewrite !lookup_delete_ne, lookup_insert_ne by done.
Qed.

Lemma small_input_not_written_witness :
  exists fs', @external_sort zero_heap insertion_qsort 100 (tiny_fs "cab") tiny
      (lit "in") (lit "out") 16 3 = Ret (0, fs') /\ fs' !! lit "out" = tiny_fs "cab" !! lit "out".
Proof.
  apply (@small_input_not_written zero_heap insertion_qsort tiny 100 (tiny_fs "cab")
    (lit "in") (lit "out") (tiny_records "cab"));
    [apply tiny_wf|apply tiny_wf|done|vm_compute; reflexivity|apply tiny_records_ok; by apply no_nul_b
    |vm_compute; congruence|vm_compute; congruence|vm_compute; congruence
    |done|done|reflexivity|vm_compute; congruence|lia].
Defined.

(** A last pass over exactly [k] runs that do not fill [k * run_length]
    writes a temporary file: the test that selects the output file fails, and
    the sorted result is removed. *)
Theorem k_runs_not_written `{Heap, QSort} s fuel fs input output recs mem k :
  schema_wf s -> sort_wf s -> 0 < record_size s ->
  fs !! input = Some (concat recs) -> Forall (rec_ok s) recs -> input ≠ tmp_file ->
  output ≠ tmp_file -> output ≠ tmp_file2 ->
  2 <= k < 2^31 - 1 -> mem < 2^31 -> record_size s * (k + 1) <= mem ->
  let N := Z.of_nat (length recs) in
  let L := mem / record_size s in
  N < 2^24 -> N * record_size s < 2^31 ->
  L < N -> runs_of N L = k -> k * L ≠ N ->
  refills_fit N L (mem / (k + 1)) (record_size s) -> N + 1 < Z.of_nat fuel ->
  exists fs', external_sort fuel fs s input output mem k = Ret (0, fs')
    /\ fs' !! output = fs !! output.
Proof.
  intros Hwf Hsort Hrs Hin Hok Hit Ho1 Ho2 Hk Hmem Hbs N L HN24 Hsz HLN Hruns Hkn Hfit Hfuel.
  assert (record_size s <= mem / (k + 1)) as Hbs' by (apply Z.div_le_lower_bound; lia).
  assert (mem / (k + 1) <= mem) as Hbs2 by (apply Z.div_le_upper_bound; nia).
  assert (0 < L) as HL by (apply Z.div_str_pos; lia).
  destruct (external_sort_start s Hwf Hsort Hrs fuel fs input output recs mem k)
    as (recs1 & Hp & Hs & ->); try done; try lia.
  fold N L. destruct fuel as [|[|fuel]]; [lia..|].
  assert (Z.of_nat (length recs1) = N) as Hlen by (unfold N; by rewrite Hp).
  destruct (pass_step s Hwf Hsort Hrs (S fuel) (<[tmp_file := concat recs1]> fs) recs1 L k (mem / (k + 1))
    (malloc_bytes (Z.to_nat mem)) false output 0)
    as (out & id' & E & _ & _); rewrite ?Hlen; try done; try lia.
  - by rewrite lookup_insert_eq.
  - by rewrite Hp.
  - rewrite length_malloc. lia.
  - rewrite Hlen in E. rewrite E, decide_False by lia.
    rewrite pass_loop_end by (rewrite <- Hruns, Z.mul_comm; by apply runs_times).
    cbn [mbind res_bind]. eexists. split; [done|]. unfold remove.
    by rewrite !lookup_delete_ne, !lookup_insert_ne by done.
Qed.

Lemma k_runs_not_written_witness :
  exists fs', @external_sort zero_heap insertion_qsort 100 (tiny_fs "edcba") tiny
      (lit "in") (lit "out") 6 2 = Ret (0, fs') /\ fs' !! lit "out" = tiny_fs "edcba" !! lit "out".
Proof.
  apply (@k_runs_not_written zero_heap insertion_qsort tiny 100 (tiny_fs "edcba")
    (lit "in") (lit "out") (tiny_records "edcba"));
    [apply tiny_wf|apply tiny_wf|done|vm_compute; reflexivity|apply tiny_records_ok; by apply no_nul_b
    |vm_compute; congruence|vm_compute; congruence|vm_compute; congruence
    |done|done|vm_compute; congruence|reflexivity|reflexivity|reflexivity|reflexivity
    |vm_compute; congruence|vm_compute; congruence|reflexivity].
Defined.

(** A pass that is not the last but whose runs fill the file exactly
    writes the output file; the next pass then opens a temporary file that was
    never made, and reads through the null stream. *)
Theorem early_output_crashes `{Heap, QSort} s fuel fs input output recs mem k :
  schema_wf s -> sort_wf s -> 0 < record_size s ->
  fs !! input = Some (concat recs) -> Forall (rec_ok s) recs -> input ≠ tmp_file ->
  output ≠ tmp_file -> output ≠ tmp_file2 -> fs !! tmp_file2 = None ->
  2 <= k < 2^31 - 1 -> mem < 2^31 -> record_size s * (k + 1) <= mem ->
  let N := Z.of_nat (length recs) in
  let L := mem / record_size s in
  N < 2^24 -> N * record_size s < 2^31 ->
  L * k < N -> runs_of N L * L = N ->
  refills_fit N L (mem / (k + 1)) (record_size s) -> N + 1 < Z.of_nat fuel ->
  external_sort fuel fs s input output mem k = Undef.
Proof.
  intros Hwf Hsort Hrs Hin Hok Hit Ho1 Ho2 Hno Hk Hmem Hbs N L HN24 Hsz HLN Hruns Hfit Hfuel.
  assert (record_size s <= mem / (k + 1)) as Hbs' by (apply Z.div_le_lower_bound; lia).
  assert (mem / (k + 1) <= mem) as Hbs2 by (apply Z.div_le_upper_bound; nia).
  assert (0 < L) as HL by (apply Z.div_str_pos; lia).
  destruct (external_sort_start s Hwf Hsort Hrs fuel fs input output recs mem k)
    as (recs1 & Hp & Hs & ->); try done; try lia.
  fold N L. destruct fuel as [|[|fuel]]; [lia..|].
  assert (L < N) by nia.
  assert (Z.of_nat (length recs1) = N) as Hlen by (unfold N; by rewrite Hp).
  destruct (pass_step s Hwf Hsort Hrs (S fuel) (<[tmp_file := concat recs1]> fs) recs1 L k (mem / (k + 1))
    (malloc_bytes (Z.to_nat mem)) false output 0)
    as (out & id' & E & _ & _); rewrite ?Hlen; try done; try lia.
  - by rewrite lookup_insert_eq.
  - by rewrite Hp.
  - rewrite length_malloc. lia.
  - rewrite Hlen in E. rewrite E, decide_True by auto. cbn [pass_loop negb].
    rewrite decide_True, decide_False by nia. unfold fopen_r.
    pose proof tmp_files_differ. by rewrite !lookup_insert_ne, Hno by done.
Qed.

Lemma early_output_crashes_witness :
  @external_sort zero_heap insertion_qsort 100 (tiny_fs "ihgfedcba") tiny
      (lit "in") (lit "out") 6 2 = Undef.
Proof.
  apply (@early_output_crashes zero_heap insertion_qsort tiny 100 (tiny_fs "ihgfedcba")
    (lit "in") (lit "out") (tiny_records "ihgfedcba"));
    [apply tiny_wf|apply tiny_wf|done|vm_compute; reflexivity|apply tiny_records_ok; by apply no_nul_b
    |vm_compute; congruence|vm_compute; congruence|vm_compute; congruence|vm_compute; reflexivity
    |done|done|vm_compute; congruence|reflexivity|reflexivity|reflexivity|reflexivity
    |vm_compute; congruence|reflexivity].
Defined.

(** An iterator that refills past the end of its run takes the next run's
  record for its own: 14 records go in and 15 come out. *)
Theorem overrun_duplicates_a_record :
observe (lit "out") (@external_sort zero_heap insertion_qsort 100 (tiny_fs "ghijklmnopqrsa") tiny
  (lit "in") (lit "out") 26 3)
= Some (0, Some (concat (tiny_records "aghijklmnopqrsa"))).
Proof. vm_compute. reflexivity. Qed.
