(* ===== verification/BSort.v ===== *)
(** * BSort: [main] of bsort.cc

    Sorting through an ordered key-value store: each record is stored under
    its sort fields followed by its number, and the store is then scanned in
    key order.  The store is an interface; what bsort.cc relies on is that a
    scan gives the entries of the map the puts made, in bytewise key order. *)

From S2P Require Import Prelude CLib JsonValue Schema Runs.

(** ** The store bsort.cc uses: [DB::Put] and a forward iterator *)

Class OrderedStore (T : Type) := {
  store_put : bytes -> bytes -> T -> T;
  store_scan : T -> list (bytes * bytes);
  store_map : T -> gmap bytes bytes;
  store_put_map k v db : store_map (store_put k v db) = <[k := v]> (store_map db);
  store_scan_sorted db : StronglySorted (cmp_lt bytes_cmp) (store_scan db).*1;
  store_scan_map db k v : (k, v) ∈ store_scan db <-> store_map db !! k = Some v;
}.

(** ** The program *)

Section bsort.
Context `{Heap} {T : Type} `{OrderedStore T}.

(** The offset of the sort attribute: the lengths before it, one more each. *)
Fixpoint sort_offset_loop (l : list Attribute) (n : nat) (sort_offset : Z) {struct n} : res Z :=
  match n with
  | O => Ret sort_offset
  | S n =>
      match l with
      | [] => Undef
      | a :: l =>
          d ← int_add (length_ a) 1;
          o ← int_add sort_offset d;
          sort_offset_loop l n o
      end
  end.

(** The loop that concatenates the sort fields into [sort_buffer]. *)
Fixpoint build_key (s : Schema) (buffer : bytes) (sa : list (option Z)) (n : nat)
    (sort_buffer : bytes) {struct n} : res bytes :=
  match n with
  | O => Ret sort_buffer
  | S n =>
      match sa with
      | Some j :: sa =>
          sort_offset ← sort_offset_loop (attrs s) (Z.to_nat j) 0;
          a ← nth_res (attrs s) j;
          p ← ptr_at buffer sort_offset;
          k ← strncat (Z.to_nat (record_size s + 51)) sort_buffer p (Z.to_nat (u64 (length_ a)));
          build_key s buffer sa n k
      | _ => Undef
      end
  end.

(** [fgets(buffer, record_size + 2, input_file)] *)
Definition read_line (fs : filesystem) (f : FILE) (s : Schema) (buffer : bytes)
    : res (bytes * FILE) :=
  '(got, f) ← fgets fs f (Z.to_nat (record_size s + 1));
  Ret (match got with None => buffer | Some g => splice buffer 0 (g ++ [NUL]) end, f).

(** The [while(!feof)] loop. *)
Fixpoint insert_loop (fuel : nat) (fs : filesystem) (s : Schema) (f : FILE) (buffer : bytes)
    (counter : Z) (db : T) {struct fuel} : res T :=
  match fuel with
  | O => NoFuel
  | S fuel =>
      if feof f then Ret db
      else
        k ← build_key s buffer (sort_attrs s) (Z.to_nat (n_sort_attrs s)) [];
        key ← strcat (Z.to_nat (record_size s + 51)) k (sprintf_d counter);
        if decide (record_size s - 1 < 0) then Undef
        else
          let buffer := splice buffer (Z.to_nat (record_size s - 1)) [NUL] in
          n ← strlen buffer;
          let value := take n buffer in
          let db := store_put key value db in
          '(buffer, f) ← read_line fs f s buffer;
          counter ← int_add counter 1;
          insert_loop fuel fs s f buffer counter db
  end.

(** [out_index << value.ToString() << std::endl] for each entry. *)
Definition output_text (db : T) : bytes :=
  concat (map (fun kv => kv.2 ++ [zb 10]) (store_scan db)).

Definition sort_through (fuel : nat) (fs : filesystem) (s : Schema) (f : FILE)
    (out_index : bytes) (db : T) : res (Z * filesystem * T) :=
  let buffer := malloc_bytes (Z.to_nat (record_size s + 3)) in
  '(buffer, f) ← read_line fs f s buffer;
  db ← insert_loop fuel fs s f buffer 0 db;
  Ret (0, <[out_index := output_text db]> fs, db).

(** [main]; [db] is the outcome of [DB::Open] on ./leveldb_dir.  A sort
    attribute that is not in the schema is reported and the program goes on. *)
Definition bsort_main (fuel : nat) (fs : filesystem)
    (argv : list bytes) (db : option T) : res (Z * filesystem * option T) :=
  match argv with
  | _ :: schema_file :: input :: out_index :: _ :: _ =>
      o ← read_schema fs schema_file;
      match o with
      | None => Ret (2, fs, db)
      | Some s =>
          '(rc, s) ← init_sort_attrs s (drop 4 argv);
          match fopen_r fs input with
          | None => Ret (3, fs, db)
          | Some f =>
              let fs := <[out_index := []]> fs in
              match db with
              | None => Ret (5, fs, None)
              | Some db =>
                  '(rc, fs, db) ← sort_through fuel fs s f out_index db;
                  Ret (rc, fs, Some db)
              end
          end
      end
  | _ => Ret (1, fs, db)
  end.
End bsort.

(** ** Keys *)

Definition sort_fields (s : Schema) (d : bytes) : bytes := concat (sort_key s d).
Definition store_key (s : Schema) (d : bytes) (i : Z) : bytes := sort_fields s d ++ decimal i.

(** The lengths of the sort fields of a record without zero bytes. *)
Definition sort_length (s : Schema) : Z :=
  foldr (fun o n => match attrs s !! Z.to_nat (default 0 o) with
                    | Some a => length_ a + n | None => n end) 0 (sort_attrs s).

(** Comparing concatenations of fields of the same lengths. *)
Lemma bytes_cmp_concat ll kk :
  Forall2 (fun l k : bytes => length l = length k) ll kk ->
  bytes_cmp (concat ll) (concat kk) = lex bytes_cmp ll kk.
Proof.
  induction 1 as [|l k ll kk Hl _ IH]; cbn; [done|].
  cbn in Hl. unfold bytes_cmp in *. rewrite lex_app_length by done. rewrite IH.
  by destruct (lex byte_cmp l k).
Qed.

Section keys.
Context (s : Schema) (Hwf : schema_wf s) (Hsort : sort_wf s).

Lemma field_length d j a :
  rec_ok s d -> attrs s !! j = Some a -> length (field s d j) = Z.to_nat (length_ a)
    /\ no_nul (field s d j)
    /\ field s d j = take (Z.to_nat (length_ a)) (drop (Z.to_nat (offset_of (attrs s) j)) d).
Proof.
  intros [Hl Hn] Ha. unfold field. rewrite Ha.
  destruct (offset_bound s j a Hwf Ha) as [Ho Hb].
  rewrite cstr_no_nul by (by apply no_nul_take, no_nul_drop).
  split; [rewrite length_take, length_drop; lia|]. split; [by apply no_nul_take, no_nul_drop|done].
Qed.

Lemma sort_attr_lookup o : o ∈ sort_attrs s -> exists j a, o = Some (Z.of_nat j) /\ attrs s !! j = Some a.
Proof.
  intros Ho. pose proof (wf_sort s Hsort) as Hs. rewrite Forall_forall in Hs.
  destruct (Hs o ltac:(by apply list_elem_of_In)) as (j & -> & Hj).
  destruct (lookup_lt_is_Some_2 (attrs s) (Z.to_nat j)) as [a Ha].
  { rewrite (wf_nattrs s Hwf) in Hj. lia. }
  exists (Z.to_nat j), a. split; [f_equal; lia|done].
Qed.

Lemma sort_key_lengths d e : rec_ok s d -> rec_ok s e ->
  Forall2 (fun l k : bytes => length l = length k) (sort_key s d) (sort_key s e).
Proof.
  intros Hd He. unfold sort_key. apply Forall2_fmap_2, Forall_Forall2_diag.
  apply Forall_forall. intros o Ho%list_elem_of_In.
  destruct (sort_attr_lookup o Ho) as (j & a & -> & Ha). cbn. rewrite Nat2Z.id.
  destruct (field_length d j a Hd Ha) as [-> _], (field_length e j a He Ha) as [-> _]. done.
Qed.

Lemma sort_fields_length d e : rec_ok s d -> rec_ok s e ->
  length (sort_fields s d) = length (sort_fields s e).
Proof.
  intros Hd He. unfold sort_fields. pose proof (sort_key_lengths d e Hd He) as HF.
  induction HF as [|l k ll kk Hl _ IH]; cbn in *; [done|]. rewrite !length_app. congruence.
Qed.

(** Keys order records by their sort keys, and equal sort keys by number. *)
Lemma store_key_cmp d e i j : rec_ok s d -> rec_ok s e ->
  bytes_cmp (store_key s d i) (store_key s e j) =
    match key_cmp s d e with Eq => bytes_cmp (decimal i) (decimal j) | c => c end.
Proof.
  intros Hd He. unfold store_key, bytes_cmp.
  rewrite lex_app_length by (by apply sort_fields_length).
  unfold sort_fields. fold bytes_cmp.
  rewrite bytes_cmp_concat by (by apply sort_key_lengths). done.
Qed.

Lemma store_key_inj d e i j : rec_ok s d -> rec_ok s e ->
  0 <= i < 10^20 -> 0 <= j < 10^20 -> store_key s d i = store_key s e j -> i = j.
Proof.
  intros Hd He Hi Hj E. apply app_inj_1 in E as [_ E]; [|by apply sort_fields_length].
  by apply decimal_inj.
Qed.
End keys.

(** ** Reading the input line by line *)

(** A record of a data file: no byte zero, and a newline at the end only. *)
Definition line_ok (s : Schema) (r : bytes) : Prop :=
  rec_ok s r /\ exists body, r = body ++ [zb 10] /\ zb 10 ∉ body.

Lemma fgets_bytes_line body rest n :
  zb 10 ∉ body -> (length body < n)%nat -> fgets_bytes ((body ++ [zb 10]) ++ rest) n = body ++ [zb 10].
Proof.
  revert n. induction body as [|c body IH]; intros n Hb Hn; (destruct n as [|n]; [cbn in Hn; lia|]); [done|].
  cbn. rewrite not_elem_of_cons in Hb. destruct Hb as [Hc Hb]. rewrite decide_False.
  - by rewrite IH by (done || (cbn in Hn; lia)).
  - intros E. apply Hc. apply (inj bz). by rewrite E.
Qed.

Section reading.
Context (s : Schema) (Hpos : 0 < record_size s) (recs : list bytes)
  (Hrecs : Forall (line_ok s) recs) (fs : filesystem).
Let rs := Z.to_nat (record_size s).

Lemma lines_ok_recs : Forall (rec_ok s) recs.
Proof. eapply list.Forall_impl; [done|]. by intros ? []. Qed.

Lemma read_line_spec f buffer i r :
  fs !! fname f = Some (concat recs) -> fpos f = (rs * i)%nat -> feof f = false ->
  recs !! i = Some r ->
  read_line fs f s buffer = Ret (splice buffer 0 (r ++ [NUL]), mkFILE (fname f) (rs * S i) false).
Proof.
  intros Hf Hp He Hr. unfold read_line, fgets, contents. rewrite Hf. cbn [of_option mbind res_bind].
  pose proof (rec_ok_uniform _ _ lines_ok_recs) as Hu. fold rs in Hu.
  rewrite Hp, drop_concat_uniform by done. rewrite (drop_S _ r i Hr). cbn [concat].
  rewrite Forall_forall in Hrecs.
  destruct (Hrecs r ltac:(apply list_elem_of_In; by eapply list_elem_of_lookup_2))
    as [[Hl _] (body & Eb & Hb)]. fold rs in Hl.
  assert (length r = length body + 1)%nat as Hlb by (by rewrite Eb, length_app).
  assert (fgets_bytes (r ++ concat (drop (S i) recs)) (Z.to_nat (record_size s + 1)) = r) as ->.
  { rewrite Eb. apply fgets_bytes_line; [done|lia]. }
  assert (list.last r = Some (zb 10)) as -> by (rewrite Eb; apply last_snoc).
  rewrite decide_False by (intros ->; cbn in Hlb; lia). cbn. rewrite He.
  rewrite (bool_decide_true (Some _ = Some _)) by done. rewrite andb_false_r. cbn.
  do 3 f_equal. lia.
Qed.

Lemma read_line_end f buffer :
  fs !! fname f = Some (concat recs) -> fpos f = (rs * length recs)%nat ->
  read_line fs f s buffer = Ret (buffer, mkFILE (fname f) (rs * length recs) true).
Proof.
  intros Hf Hp. unfold read_line, fgets, contents. rewrite Hf. cbn [of_option mbind res_bind].
  pose proof (rec_ok_uniform _ _ lines_ok_recs) as Hu. fold rs in Hu.
  rewrite Hp, drop_concat_uniform, drop_ge by (done || lia). cbn [concat].
  assert (fgets_bytes [] (Z.to_nat (record_size s + 1)) = []) as ->
    by (by generalize (Z.to_nat (record_size s + 1)); intros []).
  rewrite decide_True by done. cbn. rewrite bool_decide_true by lia. cbn.
  rewrite orb_true_r. by rewrite Nat.add_0_r.
Qed.
End reading.

(** ** The inserted entries *)

Section inserting.
Context `{Heap} {T : Type} `{OrderedStore T} (s : Schema).
Context (Hwf : schema_wf s) (Hsort : sort_wf s) (Hpos : 0 < record_size s).
Context (Hcap : sort_length s <= record_size s + 30).
Let rs := Z.to_nat (record_size s).

Lemma sort_fields_sum d : rec_ok s d -> Z.of_nat (length (sort_fields s d)) = sort_length s.
Proof.
  intros Hd. unfold sort_fields, sort_key, sort_length.
  pose proof (sort_attr_lookup s Hwf Hsort) as Hl.
  induction (sort_attrs s) as [|o sa IH]; cbn; [done|].
  rewrite length_app, Nat2Z.inj_add, IH by (intros; apply Hl; by right).
  destruct (Hl o ltac:(left)) as (j & a & -> & Ha). cbn. rewrite Nat2Z.id, Ha.
  destruct (field_length s Hwf d j a Hd Ha) as [-> _].
  pose proof (wf_lengths s Hwf) as Hlen. pose proof (Forall_lookup_1 _ _ _ _ Hlen Ha). cbn in *. lia.
Qed.

Lemma sort_offset_loop_eq l n o : sort_offset_loop l n o = offset_loop l n o.
Proof.
  revert l o. induction n as [|n IH]; intros [|a l] o; cbn; [done..|].
  assert (int_add (length_ a) 1 = int_add 1 (length_ a)) as -> by (unfold int_add; by rewrite Z.add_comm).
  destruct (int_add _ _); cbn; [|done..]. destruct (int_add _ _); cbn; [apply IH|done..].
Qed.

Lemma build_key_spec d tl sa acc :
  rec_ok s d -> (forall o, o ∈ sa -> o ∈ sort_attrs s) ->
  let ks := map (fun o => field s d (Z.to_nat (default 0 o))) sa in
  Z.of_nat (length (acc ++ concat ks)) < record_size s + 51 ->
  build_key s (d ++ tl) sa (length sa) acc = Ret (acc ++ concat ks).
Proof.
  intros Hd. revert acc. induction sa as [|o sa IH]; intros acc Hin ks Hlen; cbn.
  { by rewrite app_nil_r. }
  destruct (sort_attr_lookup s Hwf Hsort o) as (j & a & -> & Ha); [apply Hin; left|].
  destruct (field_length s Hwf d j a Hd Ha) as (Hfl & Hnn & Hfe).
  destruct (offset_bound s j a Hwf Ha) as [Ho Hb]. destruct Hd as [Hdl Hdn] eqn:Ed.
  pose proof (wf_bound s Hwf) as Hbound.
  pose proof (wf_lengths s Hwf) as Hla. pose proof (Forall_lookup_1 _ _ _ _ Hla Ha) as Ha0. cbn in Ha0.
  rewrite sort_offset_loop_eq. rewrite Nat2Z.id.
  pose proof (offset_to_attribute_lookup s j a Hwf Ha) as Eo.
  unfold offset_to_attribute in Eo. rewrite Nat2Z.id in Eo. rewrite Eo. cbn.
  unfold nth_res. rewrite decide_True by lia. rewrite Nat2Z.id, Ha. cbn.
  unfold ptr_at. rewrite length_app, decide_True by lia. cbn.
  rewrite u64_small by lia. unfold strncat.
  assert (take (Z.to_nat (length_ a)) (drop (Z.to_nat (offset_of (attrs s) j)) (d ++ tl))
    = field s d j) as Etake.
  { rewrite drop_app_le, take_app_le by (rewrite ?length_drop; lia). done. }
  rewrite strn_prefix_no_nul, Etake; [|rewrite length_drop, length_app; lia|by rewrite Etake].
  cbn. unfold ks in Hlen. cbn in Hlen. rewrite Nat2Z.id, !length_app in Hlen.
  rewrite decide_True by (rewrite length_app; lia). cbn.
  rewrite IH; [by rewrite <- app_assoc|intros; apply Hin; by right|].
  rewrite !length_app. lia.
Qed.

Definition body (r : bytes) : bytes := take (rs - 1) r.

(** The map after inserting [recs], numbered from [i]. *)
Fixpoint insert_all (recs : list bytes) (i : nat) (m : gmap bytes bytes) : gmap bytes bytes :=
  match recs with
  | [] => m
  | r :: recs => insert_all recs (S i) (<[store_key s r (Z.of_nat i) := body r]> m)
  end.

Lemma insert_step r tl i :
  rec_ok s r -> Z.of_nat i < 2^31 ->
  exists k, build_key s (r ++ NUL :: tl) (sort_attrs s) (Z.to_nat (n_sort_attrs s)) [] = Ret k
    /\ strcat (Z.to_nat (record_size s + 51)) k (sprintf_d (Z.of_nat i))
       = Ret (store_key s r (Z.of_nat i))
    /\ exists tl', splice (r ++ NUL :: tl) (rs - 1) [NUL] = body r ++ NUL :: tl'
       /\ no_nul (body r) /\ length (body r ++ NUL :: tl') = length (r ++ NUL :: tl).
Proof.
  intros Hr Hi. pose proof (sort_fields_sum r Hr) as Hsum.
  rewrite (wf_n_sort s Hsort), Nat2Z.id.
  exists (sort_fields s r). split; [|split].
  - apply (build_key_spec r (NUL :: tl) (sort_attrs s) []); [done|auto|].
    cbn [app]. fold (sort_key s r). fold (sort_fields s r). lia.
  - unfold strcat, sprintf_d. rewrite (proj2 (Z.ltb_ge _ _)) by lia.
    destruct (decimal_spec (Z.of_nat i)) as (_ & Hl & _); [lia|].
    rewrite decide_True; [done|]. rewrite length_app. lia.
  - destruct Hr as [Hl Hn]. fold rs in Hl.
    assert (0 < rs)%nat by (unfold rs; lia).
    exists (drop (rs - 1 + 1) (r ++ NUL :: tl)). split; [|split].
    + unfold splice, body. cbn [length]. rewrite take_app_le by lia. done.
    + by apply no_nul_take.
    + unfold body. rewrite length_app. cbn [length].
      rewrite length_take, length_drop, !length_app. cbn. lia.
Qed.

Lemma insert_loop_spec fuel fs recs f tl i r db :
  fs !! fname f = Some (concat recs) -> Forall (line_ok s) recs ->
  recs !! i = Some r -> fpos f = (rs * S i)%nat -> feof f = false ->
  length (r ++ NUL :: tl) = Z.to_nat (record_size s + 3) ->
  Z.of_nat (length recs) < 2^31 - 1 -> (length recs - i < fuel)%nat ->
  exists db', insert_loop fuel fs s f (r ++ NUL :: tl) (Z.of_nat i) db = Ret db'
    /\ store_map db' = insert_all (drop i recs) i (store_map db).
Proof.
  intros Hf Hok. revert f tl i r db Hf.
  induction fuel as [|fuel IH]; intros f tl i r db Hf Hr Hp He Hlen HN Hfuel; [lia|].
  cbn [insert_loop]. rewrite He.
  pose proof (lookup_lt_Some _ _ _ Hr) as Hi.
  pose proof (lines_ok_recs s recs Hok) as Hrec.
  destruct (insert_step r tl i (Forall_lookup_1 _ _ _ _ Hrec Hr) ltac:(lia))
    as (k & -> & E & tl' & Es & Hnn & Hll). cbn [mbind res_bind]. rewrite E. cbn [mbind res_bind].
  rewrite decide_False by lia.
  replace (Z.to_nat (record_size s - 1)) with (rs - 1)%nat by (unfold rs; lia).
  rewrite Es, strlen_spec by done. cbn [mbind res_bind].
  rewrite take_app_length. rewrite (drop_S _ _ _ Hr). cbn [insert_all].
  rewrite <- store_put_map.
  destruct (decide (S i < length recs)%nat) as [Hlt|Hge].
  - destruct (lookup_lt_is_Some_2 recs (S i) Hlt) as [r' Hr'].
    rewrite (read_line_spec s Hpos recs Hok fs _ _ (S i) r') by done.
    cbn [mbind res_bind]. unfold int_add. rewrite decide_True by lia. cbn [mbind res_bind].
    replace (Z.of_nat i + 1) with (Z.of_nat (S i)) by lia.
    destruct (Forall_lookup_1 _ _ _ _ Hrec Hr') as [Hl' _].
    unfold splice. cbn [take app Nat.add]. rewrite length_app. cbn [length].
    rewrite <- (app_assoc r'). cbn [app].
    apply IH; try done; [|lia].
    rewrite length_app. cbn [length]. rewrite length_drop, Hll, Hlen. lia.
  - rewrite (read_line_end s Hpos recs Hok fs) by (done || (rewrite Hp; f_equal; lia)).
    cbn [mbind res_bind]. unfold int_add. rewrite decide_True by lia. cbn [mbind res_bind].
    destruct fuel as [|fuel]; [lia|]. cbn [insert_loop feof].
    eexists. split; [done|]. by rewrite drop_ge by lia.
Qed.
End inserting.

(** ** What a scan of the store yields *)

Section scanning.
Context (s : Schema) (Hwf : schema_wf s) (Hsort : sort_wf s).

(** The entry of a record with its number. *)
Definition entry (p : bytes * nat) : bytes * bytes := (store_key s p.1 (Z.of_nat p.2), body s p.1).
Definition numbered (recs : list bytes) (i : nat) : list (bytes * nat) :=
  zip recs (seq i (length recs)).

Lemma numbered_in recs i p : p ∈ numbered recs i ->
  p.1 ∈ recs /\ (i <= p.2 < i + length recs)%nat.
Proof.
  destruct p as [r j]. intros Hp. unfold numbered in Hp.
  pose proof (elem_of_zip_l _ _ _ _ Hp). pose proof (elem_of_zip_r _ _ _ _ Hp) as Hj.
  apply elem_of_seq in Hj. done.
Qed.

Lemma entry_key_inj p q : rec_ok s p.1 -> rec_ok s q.1 -> (entry p).1 = (entry q).1 ->
  Z.of_nat p.2 < 2^31 -> Z.of_nat q.2 < 2^31 -> p.2 = q.2.
Proof.
  intros Hp Hq E Bp Bq. apply (store_key_inj s Hwf Hsort) in E; [lia|done..|lia|lia].
Qed.

Lemma insert_all_lookup recs i m k v :
  Forall (rec_ok s) recs -> Z.of_nat (i + length recs) < 2^31 ->
  (forall j r, rec_ok s r -> (i <= j)%nat -> Z.of_nat j < 2^31 -> m !! store_key s r (Z.of_nat j) = None) ->
  insert_all s recs i m !! k = Some v <-> (k, v) ∈ map entry (numbered recs i) \/ m !! k = Some v.
Proof.
  intros Hok. revert i m. induction Hok as [|r recs Hr Hok IH]; intros i m Hb Hm; cbn.
  { rewrite elem_of_nil. tauto. }
  cbn [length] in Hb. rewrite IH.
  - rewrite elem_of_cons. unfold entry at 2. cbn. rewrite lookup_insert_Some.
    split; [naive_solver|]. intros [[[= -> ->]|?]|Hk]; [by eauto..|].
    right. right. split; [|done]. intros <-. by rewrite Hm in Hk by (done || lia).
  - lia.
  - intros j r' Hr' Hj Hj2. rewrite lookup_insert_ne; [apply Hm; (done || lia)|].
    intros E. apply (store_key_inj s Hwf Hsort) in E; [lia|done..|lia|lia].
Qed.

Lemma entry_keys_nodup recs i :
  Forall (rec_ok s) recs -> Z.of_nat (i + length recs) < 2^31 ->
  NoDup (map entry (numbered recs i)).
Proof.
  intros Hok. revert i. induction Hok as [|r recs Hr Hok IH]; intros i Hb; cbn; [constructor|].
  cbn [length] in Hb. constructor; [|apply IH; lia].
  intros (p & E & Hp)%list_elem_of_fmap. apply numbered_in in Hp as [Hp Hj].
  rewrite Forall_forall in Hok. apply (f_equal fst) in E. cbn in E.
  apply (store_key_inj s Hwf Hsort) in E; [lia|done|apply Hok; by apply list_elem_of_In|lia..].
Qed.

(** A key-ordered list of the entries lists the records by sort key. *)
Lemma entries_sorted ps :
  Forall (fun p => rec_ok s p.1) ps -> StronglySorted (cmp_lt bytes_cmp) (map entry ps).*1 ->
  StronglySorted (key_le s) ps.*1.
Proof.
  induction 1 as [|p ps Hp Hps IH]; cbn; intros HS; [constructor|].
  apply StronglySorted_inv in HS as [HS Hall]. constructor; [by apply IH|].
  rewrite !Forall_fmap in Hall. rewrite Forall_fmap.
  pose proof (Forall_and Hall Hps) as HH.
  eapply list.Forall_impl; [exact HH|]. cbn. unfold cmp_lt, cmp_le. intros q [Hlt Hq]. revert Hlt.
  rewrite store_key_cmp by done. by destruct (key_cmp s p.1 q.1).
Qed.

Lemma body_line r : line_ok s r -> body s r ++ [zb 10] = r.
Proof.
  intros [[Hl _] (b & -> & _)]. unfold body. rewrite length_app in Hl. cbn in Hl.
  rewrite take_app_length'; [done|lia].
Qed.
End scanning.

Lemma scan_sorts `{OrderedStore T} s recs (db : T) :
  schema_wf s -> sort_wf s -> Forall (line_ok s) recs -> Z.of_nat (length recs) < 2^31 ->
  store_map db = insert_all s recs 0 ∅ ->
  exists out, sorts_to s recs out /\ output_text db = concat out.
Proof.
  intros Hwf Hsort Hok HN Hdb. pose proof (lines_ok_recs s recs Hok) as Hrec.
  assert (store_scan db ≡ₚ map (entry s) (numbered recs 0)) as HP.
  { apply NoDup_Permutation; [|by apply entry_keys_nodup|].
    - apply (NoDup_fmap_1 fst), (StronglySorted_NoDup (cmp_lt bytes_cmp)), store_scan_sorted.
    - intros [k v]. rewrite store_scan_map, Hdb, insert_all_lookup by (done || lia).
      rewrite lookup_empty. naive_solver. }
  apply Permutation_map_inv in HP as (ps & E & HP).
  assert (Forall (fun p => p.1 ∈ recs) ps) as Hin.
  { rewrite <- HP. apply Forall_forall. intros p Hp%list_elem_of_In. by apply numbered_in in Hp as [? _]. }
  assert (Forall (fun p => line_ok s p.1) ps) as Hlin.
  { eapply list.Forall_impl; [done|]. cbn. intros p Hp. rewrite Forall_forall in Hok.
    apply Hok. by apply list_elem_of_In. }
  exists ps.*1. split; [split|].
  - rewrite <- HP. unfold numbered. rewrite fst_zip; [done|]. by rewrite length_seq.
  - apply entries_sorted; [done..|eapply list.Forall_impl; [apply Hlin|]; by intros ? []|].
    rewrite <- E. apply store_scan_sorted.
  - unfold output_text. rewrite E. f_equal. rewrite map_map. clear -Hlin.
    induction Hlin as [|p ps Hp _ IH]; cbn; [done|]. f_equal; [by apply body_line|apply IH].
Qed.

(** [sort_through] on an empty store: the output file holds the records of the
    input, in the order of the sort fields. *)
Lemma sort_through_spec `{Heap} `{OrderedStore T} fuel s recs fs f out (db : T) :
  schema_wf s -> sort_wf s -> 0 < record_size s -> sort_length s <= record_size s + 30 ->
  fs !! fname f = Some (concat recs) -> fpos f = 0%nat -> feof f = false ->
  recs <> [] -> Forall (line_ok s) recs -> Z.of_nat (length recs) < 2^31 - 1 ->
  store_map db = ∅ -> (length recs < fuel)%nat ->
  exists sorted db', sorts_to s recs sorted
    /\ sort_through fuel fs s f out db = Ret (0, <[out := concat sorted]> fs, db').
Proof.
  intros Hwf Hsort Hpos Hcap Hf Hp He Hne Hok HN Hdb Hfuel.
  assert (exists r, recs !! 0%nat = Some r) as [r Hr] by (destruct recs; [done|eauto]).
  unfold sort_through. rewrite (read_line_spec s Hpos _ Hok fs _ _ 0 r) by (done || lia).
  cbn [mbind res_bind]. pose proof (lines_ok_recs s _ Hok) as Hrec.
  destruct (Forall_lookup_1 _ _ _ _ Hrec Hr) as [Hl _].
  rewrite splice_0, <- (app_assoc r). cbn [app].
  set (tl := drop (length (r ++ [NUL])) (malloc_bytes (Z.to_nat (record_size s + 3)))).
  assert (length (r ++ NUL :: tl) = Z.to_nat (record_size s + 3)) as Htl.
  { unfold tl. rewrite length_app. cbn [length]. rewrite length_drop, length_malloc, length_app.
    cbn. lia. }
  edestruct (insert_loop_spec (T:=T) s Hwf Hsort Hpos Hcap fuel fs recs
    (mkFILE (fname f) (Z.to_nat (record_size s) * 1) false) tl 0 r db) as (db' & E & Hdb');
    [done..|lia|].
  rewrite Hdb, drop_0 in Hdb'. change (Z.of_nat 0) with 0 in E. fold tl. rewrite E. cbn.
  destruct (scan_sorts s recs db' Hwf Hsort Hok ltac:(lia) Hdb') as (sorted & Hs & ->).
  by exists sorted, db'.
Qed.

(** ** Properties *)

(** C2: [main] of bsort.cc sorts.  On a schema file [read_schema] accepts, sort
    attributes of the schema and an input whose records are lines, and with a
    store that is empty when it is opened, it returns 0 and the output file
    holds exactly the input's records in the order of the sort attributes;
    no other file changes. *)
Theorem bsort_main_sorts `{Heap} `{OrderedStore T} fuel fs prog schema_file input out_index
    want wants s0 s recs (db : T) :
  read_schema fs schema_file = Ret (Some s0) -> Forall (fun a => 0 <= length_ a) (attrs s0) ->
  nattrs s0 + sum_lengths (attrs s0) < 2^31 ->
  init_sort_attrs s0 (want :: wants) = Ret (0, s) ->
  sort_length s <= record_size s + 30 ->
  fs !! input = Some (concat recs) -> input <> out_index ->
  recs <> [] -> Forall (line_ok s) recs -> Z.of_nat (length recs) < 2^31 - 1 ->
  store_map db = ∅ -> (length recs < fuel)%nat ->
  exists out db',
    bsort_main fuel fs (prog :: schema_file :: input :: out_index :: want :: wants) (Some db)
      = Ret (0, <[out_index := concat out]> fs, Some db')
    /\ out ≡ₚ recs /\ StronglySorted (key_le s) out.
Proof.
  intros Hroot Hlen Hb Hinit Hcap Hin Hio Hne Hok HN Hdb Hfuel.
  destruct (sorting_schema_wf _ _ s0 _ _ s Hroot Hlen Hb Hinit) as (Hwf & Hsort & Hpos).
  unfold bsort_main. rewrite Hroot. cbn [mbind res_bind drop].
  rewrite Hinit. cbn [mbind res_bind]. unfold fopen_r. rewrite Hin.
  destruct (sort_through_spec fuel s recs (<[out_index := []]> fs) (mkFILE input 0 false) out_index db)
    as (out & db' & [Hp Hs] & E); try done.
  { cbn. by rewrite lookup_insert_ne. }
  rewrite E. cbn [mbind res_bind]. rewrite insert_insert_eq. by exists out, db'.
Qed.

(** A finite map with a scan in key order is such a store. *)
Definition map_scan (m : gmap bytes bytes) : list (bytes * bytes) :=
  merge_sort (cmp_le (cmp_on fst bytes_cmp)) (map_to_list m).

Lemma map_scan_perm m : map_scan m ≡ₚ map_to_list m.
Proof. apply merge_sort_Permutation. Qed.

Lemma map_scan_sorted m : StronglySorted (cmp_lt bytes_cmp) (map_scan m).*1.
Proof.
  assert (NoDup (map_scan m).*1) as Hnd by (rewrite map_scan_perm; apply NoDup_fst_map_to_list).
  assert (StronglySorted (cmp_le (cmp_on fst bytes_cmp)) (map_scan m)) as Hs
    by (apply StronglySorted_merge_sort; apply _).
  induction Hs as [|p l Hs IH Hp]; cbn in *; [constructor|].
  inversion_clear Hnd as [|? ? Hni Hnd']. constructor; [by apply IH|].
  apply Forall_fmap, Forall_forall. intros q Hq%list_elem_of_In. rewrite Forall_forall in Hp.
  specialize (Hp q ltac:(by apply list_elem_of_In)). unfold cmp_le, cmp_on, cmp_lt in *. cbn in *.
  destruct (bytes_cmp p.1 q.1) eqn:E; [|done..]. apply (cmp_eq (cmp:=bytes_cmp)) in E.
  destruct Hni. rewrite E. apply list_elem_of_fmap. by exists q.
Qed.

#[export] Program Instance map_store : OrderedStore (gmap bytes bytes) := {
  store_put k v m := <[k := v]> m;
  store_scan := map_scan;
  store_map m := m;
}.
Next Obligation. done. Qed.
Next Obligation. apply map_scan_sorted. Qed.
Next Obligation. intros m k v. rewrite map_scan_perm. apply elem_of_map_to_list. Qed.

Definition line_schema : Schema :=
  mkSchema [mkAttribute (lit "a" ++ replicate 254 NUL) (lit "string" ++ [NUL]) 1] 1 [Some 0] 1 2.
Definition line_records : list bytes := map (fun c => [c; zb 10]) (lit "cab").
Definition line_fs : filesystem :=
  <[lit "schema" := schema_text [("a"%string, 1)]]> {[ lit "in" := concat line_records ]}.

Lemma line_records_ok : Forall (line_ok line_schema) line_records.
Proof.
  apply Forall_map, Forall_forall. intros c Hc. split; [split; [reflexivity|]|].
  - cbn in Hc. destruct Hc as [<-|[<-|[<-|[]]]]; by apply no_nul_b.
  - exists [c]. split; [reflexivity|]. cbn in Hc.
    destruct Hc as [<-|[<-|[<-|[]]]]; rewrite list_elem_of_singleton; discriminate.
Qed.

Lemma bsort_main_sorts_witness :
  exists out db',
    @bsort_main zero_heap (gmap bytes bytes) map_store
      10 line_fs
      [lit "bsort"; lit "schema"; lit "in"; lit "out"; lit "a"] (Some ∅)
      = Ret (0, <[lit "out" := concat out]> line_fs, Some db')
    /\ out ≡ₚ line_records /\ StronglySorted (key_le line_schema) out.
Proof.
  apply (@bsort_main_sorts zero_heap (gmap bytes bytes) map_store
    10 line_fs (lit "bsort") (lit "schema")
    (lit "in") (lit "out") (lit "a") []
    (mkSchema (attrs line_schema) 1 [] 0 2) line_schema line_records ∅);
    [vm_compute; reflexivity|repeat constructor; discriminate|reflexivity
    |vm_compute; reflexivity|vm_compute; discriminate|vm_compute; reflexivity|vm_compute; congruence
    |discriminate|exact line_records_ok|reflexivity|reflexivity|cbn; lia].
Defined.
