(* ===== verification/Coding.v ===== *)
(** * Coding: util/coding.h, util/coding.cc, slices and the bytewise comparator

    A [Slice] is the bytes it refers to; a pair of pointers [p], [limit] is the
    bytes between them, and a returned pointer the bytes from there to [limit].
    The decoders without bounds are undefined past the end. *)

From S2P Require Import Prelude.

(** ** Slice *)

Module Slice.

(** [memcmp] of the first [n] bytes; only the sign of the result is defined. *)
Fixpoint memcmp (a b : bytes) (n : nat) {struct n} : Z :=
  match n, a, b with
  | S n, x :: a, y :: b => if decide (x = y) then memcmp a b n else bz x - bz y
  | _, _, _ => 0
  end.

(** [min_len] is an [int] of the code: the slices are shorter than 2 GB. *)
Definition compare (a b : bytes) : Z :=
  let min_len := if decide (length a < length b)%nat then length a else length b in
  let r := memcmp a b min_len in
  if decide (r = 0) then
    if decide (length a < length b)%nat then -1
    else if decide (length b < length a)%nat then 1 else r
  else r.

Definition starts_with (a x : bytes) : bool :=
  bool_decide (length x <= length a)%nat && bool_decide (memcmp a x (length x) = 0).

Definition equal (x y : bytes) : bool :=
  bool_decide (length x = length y) && bool_decide (memcmp x y (length x) = 0).

Definition remove_prefix (a : bytes) (n : nat) : res bytes :=
  if decide (n <= length a)%nat then Ret (drop n a) else Undef.

Definition at_ (a : bytes) (n : nat) : res byte := of_option (a !! n).

Lemma memcmp_eq a b : length a = length b -> memcmp a b (length a) = 0 <-> a = b.
Proof.
  revert b. induction a as [|x a IH]; intros [|y b] [=]; cbn; [done|].
  case_decide as E; [subst; rewrite IH by done; naive_solver|].
  split; [|naive_solver]. intros H. destruct E. apply (inj bz). lia.
Qed.

Lemma compare_sign a b : (compare a b ?= 0) = bytes_cmp a b.
Proof.
  unfold compare, bytes_cmp. revert b. induction a as [|x a IH]; intros [|y b]; cbn; try done.
  specialize (IH b).
  assert ((if decide (S (length a) < S (length b))%nat then S (length a) else S (length b))
    = S (if decide (length a < length b)%nat then length a else length b)) as ->
    by (repeat case_decide; lia).
  cbn [memcmp]. unfold byte_cmp at 1, cmp_on. destruct (decide (x = y)) as [->|Hxy].
  - rewrite Z.compare_refl, <- IH. cbn. repeat case_decide; (done || lia).
  - assert (bz x <> bz y) by (intros E; apply Hxy; by apply (inj bz)).
    rewrite decide_False by lia. destruct (Z.compare_spec (bz x) (bz y)); [done| |].
    + by apply Z.compare_lt_iff; lia.
    + by apply Z.compare_gt_iff; lia.
Qed.

Lemma equal_spec x y : equal x y = bool_decide (x = y).
Proof.
  unfold equal. destruct (decide (length x = length y)) as [E|E].
  - rewrite (bool_decide_true _ E). cbn. apply bool_decide_ext. by apply memcmp_eq.
  - rewrite (bool_decide_false (length x = length y)) by done. cbn.
    symmetry. apply bool_decide_false. by intros ->.
Qed.

Lemma starts_with_spec a x : starts_with a x = true <-> x `prefix_of` a.
Proof.
  unfold starts_with. rewrite andb_true_iff, !bool_decide_eq_true. split.
  - intros [Hl Hm]. exists (drop (length x) a).
    revert a Hl Hm. induction x as [|y x IH]; intros [|z a]; cbn; [done..|lia|].
    intros Hl. case_decide as E; [subst|intros H; destruct E; apply (inj bz); lia].
    intros H. f_equal. apply IH; [lia|done].
  - intros [k ->]. rewrite length_app. split; [lia|].
    induction x as [|y x IH]; cbn; [done|]. by rewrite decide_True.
Qed.

End Slice.

(** ** Encoding *)

Definition EncodeFixed32 (value : Z) : bytes :=
  [zb value; zb (Z.shiftr value 8); zb (Z.shiftr value 16); zb (Z.shiftr value 24)].

Definition EncodeFixed64 (value : Z) : bytes :=
  [zb value; zb (Z.shiftr value 8); zb (Z.shiftr value 16); zb (Z.shiftr value 24);
   zb (Z.shiftr value 32); zb (Z.shiftr value 40); zb (Z.shiftr value 48); zb (Z.shiftr value 56)].

Definition PutFixed32 (dst : bytes) (value : Z) : bytes := dst ++ EncodeFixed32 value.
Definition PutFixed64 (dst : bytes) (value : Z) : bytes := dst ++ EncodeFixed64 value.

Definition EncodeVarint32 (v : Z) : bytes :=
  let B := 128 in
  if v <? Z.shiftl 1 7 then [zb v]
  else if v <? Z.shiftl 1 14 then [zb (Z.lor v B); zb (Z.shiftr v 7)]
  else if v <? Z.shiftl 1 21 then
    [zb (Z.lor v B); zb (Z.lor (Z.shiftr v 7) B); zb (Z.shiftr v 14)]
  else if v <? Z.shiftl 1 28 then
    [zb (Z.lor v B); zb (Z.lor (Z.shiftr v 7) B); zb (Z.lor (Z.shiftr v 14) B); zb (Z.shiftr v 21)]
  else
    [zb (Z.lor v B); zb (Z.lor (Z.shiftr v 7) B); zb (Z.lor (Z.shiftr v 14) B);
     zb (Z.lor (Z.shiftr v 21) B); zb (Z.shiftr v 28)].

Definition PutVarint32 (dst : bytes) (v : Z) : bytes := dst ++ EncodeVarint32 v.

(** The [while (v >= B)] loop; ten rounds are enough for 64 bits. *)
Fixpoint encode_varint_loop (fuel : nat) (v : Z) : bytes :=
  match fuel with
  | O => []
  | S fuel =>
      if 128 <=? v then zb (Z.lor (Z.land v 127) 128) :: encode_varint_loop fuel (Z.shiftr v 7)
      else [zb v]
  end.
Definition EncodeVarint64 (v : Z) : bytes := encode_varint_loop 10 v.

Definition PutVarint64 (dst : bytes) (v : Z) : bytes := dst ++ EncodeVarint64 v.

(** The size of a slice is cut to 32 bits for its length prefix. *)
Definition PutLengthPrefixedSlice (dst value : bytes) : bytes :=
  PutVarint32 dst (u32 (Z.of_nat (length value))) ++ value.

Fixpoint varint_length_loop (fuel : nat) (v len : Z) : Z :=
  match fuel with
  | O => len
  | S fuel => if 128 <=? v then varint_length_loop fuel (Z.shiftr v 7) (len + 1) else len
  end.
Definition VarintLength (v : Z) : Z := varint_length_loop 10 v 1.

(** ** Decoding *)

Definition DecodeFixed32 (p : bytes) : res Z :=
  match p with
  | a :: b :: c :: d :: _ =>
      Ret (Z.lor (bz a) (Z.lor (Z.shiftl (bz b) 8) (Z.lor (Z.shiftl (bz c) 16) (Z.shiftl (bz d) 24))))
  | _ => Undef
  end.

Definition DecodeFixed64 (p : bytes) : res Z :=
  lo ← DecodeFixed32 p;
  hi ← DecodeFixed32 (drop 4 p);
  Ret (Z.lor (Z.shiftl hi 32) lo).

(** The loop of the two varint decoders: [shift] runs to [max], and [wrap] is
    the truncation to the type of the result. *)
Fixpoint varint_loop (wrap : Z -> Z) (max : Z) (p : bytes) (shift result : Z) : option (Z * bytes) :=
  match p with
  | [] => None
  | b :: p =>
      if shift <=? max then
        let byte := bz b in
        if Z.land byte 128 =? 0 then Some (Z.lor result (wrap (Z.shiftl byte shift)), p)
        else varint_loop wrap max p (shift + 7) (Z.lor result (wrap (Z.shiftl (Z.land byte 127) shift)))
      else None
  end.

Definition GetVarint32PtrFallback (p : bytes) : option (Z * bytes) := varint_loop u32 28 p 0 0.

Definition GetVarint32Ptr (p : bytes) : option (Z * bytes) :=
  match p with
  | b :: q => if Z.land (bz b) 128 =? 0 then Some (bz b, q) else GetVarint32PtrFallback p
  | [] => GetVarint32PtrFallback p
  end.

Definition GetVarint64Ptr (p : bytes) : option (Z * bytes) := varint_loop u64 63 p 0 0.

(** The versions on a [Slice]: [None] is false, and the input is unchanged. *)
Definition GetVarint32 (input : bytes) : option (Z * bytes) := GetVarint32Ptr input.
Definition GetVarint64 (input : bytes) : option (Z * bytes) := GetVarint64Ptr input.

(** [GetLengthPrefixedSlice(p, limit, result)]: the slice and the rest. *)
Definition GetLengthPrefixedSlicePtr (p : bytes) : option (bytes * bytes) :=
  match GetVarint32Ptr p with
  | None => None
  | Some (len, p) =>
      if decide (Z.of_nat (length p) < len) then None
      else Some (take (Z.to_nat len) p, drop (Z.to_nat len) p)
  end.

(** On failure the length may have been consumed: the input is returned too. *)
Definition GetLengthPrefixedSlice (input : bytes) : option bytes * bytes :=
  match GetVarint32 input with
  | None => (None, input)
  | Some (len, p) =>
      if decide (len <= Z.of_nat (length p))
      then (Some (take (Z.to_nat len) p), drop (Z.to_nat len) p)
      else (None, p)
  end.

(** ** Fixed-width integers *)

Lemma lor4 a b c d :
  0 <= a < 256 -> 0 <= b < 256 -> 0 <= c < 256 -> 0 <= d < 256 ->
  Z.lor a (Z.lor (Z.shiftl b 8) (Z.lor (Z.shiftl c 16) (Z.shiftl d 24)))
  = a + 256 * b + 65536 * c + 16777216 * d.
Proof.
  intros. replace (Z.shiftl d 24) with (Z.shiftl (Z.shiftl d 8) 16) by (by rewrite Z.shiftl_shiftl).
  rewrite <- Z.shiftl_lor, (lor_shiftl_add c d 8) by lia.
  replace (Z.shiftl (c + d * 2 ^ 8) 16) with (Z.shiftl (Z.shiftl (c + d * 2^8) 8) 8)
    by (by rewrite Z.shiftl_shiftl).
  rewrite <- Z.shiftl_lor, (lor_shiftl_add b _ 8), (lor_shiftl_add a _ 8) by lia. lia.
Qed.

Lemma DecodeFixed32_Encode v rest :
  0 <= v < 2^32 -> DecodeFixed32 (EncodeFixed32 v ++ rest) = Ret v.
Proof.
  intros Hv. cbn [EncodeFixed32 app DecodeFixed32]. f_equal.
  rewrite lor4 by apply bz_range.
  rewrite !bz_zb, !Z.shiftr_div_pow2 by lia.
  Z.to_euclidean_division_equations. lia.
Qed.

Lemma EncodeFixed64_halves v :
  EncodeFixed64 v = EncodeFixed32 v ++ EncodeFixed32 (Z.shiftr v 32).
Proof. unfold EncodeFixed64, EncodeFixed32. by rewrite !Z.shiftr_shiftr. Qed.

(** Only the low 32 bits matter. *)
Lemma EncodeFixed32_mod v : EncodeFixed32 (v mod 2^32) = EncodeFixed32 v.
Proof.
  unfold EncodeFixed32. rewrite !Z.shiftr_div_pow2 by lia.
  assert (forall x y, x mod 256 = y mod 256 -> zb x = zb y) as H by (intros x y E; unfold zb; by rewrite E).
  f_equal; [|f_equal; [|f_equal; [|f_equal]]]; apply H; Z.to_euclidean_division_equations; lia.
Qed.

Lemma DecodeFixed64_Encode v rest :
  0 <= v < 2^64 -> DecodeFixed64 (EncodeFixed64 v ++ rest) = Ret v.
Proof.
  intros Hv. unfold DecodeFixed64. rewrite EncodeFixed64_halves, <- (EncodeFixed32_mod v), <- app_assoc.
  rewrite DecodeFixed32_Encode by (apply Z.mod_pos_bound; lia). cbn [mbind res_bind].
  assert (0 <= Z.shiftr v 32 < 2^32).
  { rewrite Z.shiftr_div_pow2 by lia. split; [apply Z.div_pos; lia|apply Z.div_lt_upper_bound; lia]. }
  rewrite drop_app_length' by done. rewrite DecodeFixed32_Encode by done. cbn [mbind res_bind]. f_equal.
  rewrite Z.lor_comm, lor_shiftl_add by (try apply Z.mod_pos_bound; lia).
  rewrite Z.shiftr_div_pow2 by lia. pose proof (Z.div_mod v (2^32)). lia.
Qed.

Lemma length_EncodeFixed32 v : length (EncodeFixed32 v) = 4%nat.
Proof. done. Qed.
Lemma length_EncodeFixed64 v : length (EncodeFixed64 v) = 8%nat.
Proof. done. Qed.

(** A decoded value is in range. *)
Lemma DecodeFixed32_range p v : DecodeFixed32 p = Ret v -> 0 <= v < 2^32.
Proof.
  destruct p as [|a [|b [|c [|d p]]]]; try done. cbn. intros [= <-].
  rewrite lor4 by apply bz_range.
  pose proof (bz_range a). pose proof (bz_range b). pose proof (bz_range c). pose proof (bz_range d). lia.
Qed.

(** ** Variable-length integers *)

(** The reference encoding: seven bits a byte, low bits first. *)
Lemma land_127 v : Z.land v 127 = v mod 128.
Proof. change 127 with (Z.ones 7). by apply Z.land_ones. Qed.

Lemma lor_128 a : 0 <= a < 128 -> Z.lor a 128 = a + 128.
Proof. intros Ha. exact (lor_shiftl_add a 1 7 ltac:(lia) Ha). Qed.

Lemma land_128 a : 0 <= a < 256 -> Z.land a 128 = if a <? 128 then 0 else 128.
Proof.
  intros Ha. assert (forallb (fun n => Z.land (Z.of_nat n) 128 =?
    (if Z.of_nat n <? 128 then 0 else 128)) (seq 0 256) = true) as H by (vm_compute; reflexivity).
  rewrite forallb_forall in H. specialize (H (Z.to_nat a) ltac:(apply in_seq; lia)).
  rewrite Z2Nat.id in H by lia. by apply Z.eqb_eq.
Qed.

Lemma zb_congr x y : x mod 256 = y mod 256 -> zb x = zb y.
Proof. intros E. unfold zb. by rewrite E. Qed.

(** Setting bit 7 of a byte. *)
Lemma zb_lor_128 v : zb (Z.lor v 128) = zb (v mod 128 + 128).
Proof.
  apply zb_congr. rewrite <- lor_128 by (apply Z.mod_pos_bound; lia).
  change 256 with (2^8). change 128 with (2^7). apply Z.bits_inj'. intros i Hi.
  destruct (decide (i < 8)); [|by rewrite !Z.mod_pow2_bits_high by lia].
  rewrite !Z.mod_pow2_bits_low, !Z.lor_spec by lia. destruct (decide (i = 7)) as [->|].
  - rewrite Z.pow2_bits_true by lia. by rewrite !orb_true_r.
  - rewrite Z.mod_pow2_bits_low by lia. done.
Qed.

Lemma bz_zb_128 x : 0 <= x < 128 -> bz (zb (x + 128)) = x + 128.
Proof. intros. apply bz_zb_small. lia. Qed.

Lemma encode_varint_loop_cons fuel v :
  128 <= v -> encode_varint_loop (S fuel) v = zb (v mod 128 + 128) :: encode_varint_loop fuel (v / 128).
Proof.
  intros Hv. cbn [encode_varint_loop]. rewrite (proj2 (Z.leb_le 128 v)) by done.
  rewrite land_127, lor_128, Z.shiftr_div_pow2 by (try apply Z.mod_pos_bound; lia). done.
Qed.

Lemma encode_varint_loop_last fuel v : v < 128 -> encode_varint_loop (S fuel) v = [zb v].
Proof. intros Hv. cbn [encode_varint_loop]. by rewrite (proj2 (Z.leb_gt 128 v)). Qed.

(** The unrolled 32-bit encoder is the loop. *)
Lemma EncodeVarint32_eq v : 0 <= v < 2^32 -> EncodeVarint32 v = EncodeVarint64 v.
Proof.
  intros Hv. unfold EncodeVarint32, EncodeVarint64. rewrite !zb_lor_128, !Z.shiftr_div_pow2 by lia.
  change (Z.shiftl 1 7) with 128. change (Z.shiftl 1 14) with (128 * 128).
  change (Z.shiftl 1 21) with (128 * 128 * 128). change (Z.shiftl 1 28) with (128 * 128 * 128 * 128).
  change (2^7) with 128. change (2^14) with (128 * 128).
  change (2^21) with (128 * 128 * 128). change (2^28) with (128 * 128 * 128 * 128).
  rewrite <- !Z.div_div by lia.
  repeat match goal with |- context [if ?b <? ?c then _ else _] => destruct (Z.ltb_spec b c) end;
    repeat (rewrite encode_varint_loop_cons by (Z.to_euclidean_division_equations; lia));
    rewrite encode_varint_loop_last by (Z.to_euclidean_division_equations; lia); done.
Qed.

Section decode.
Context (wrap : Z -> Z) (w max : Z) (Hw : 0 <= w).
Context (Hwrap : forall x, 0 <= x < 2^w -> wrap x = x).
Context (Hmax : forall k, 0 <= k -> 7 * k < w -> 7 * k <= max).

Lemma varint_loop_last v k result rest :
  0 <= v < 128 -> 0 <= k -> 7 * k <= max -> 0 <= result < 2 ^ (7 * k) -> result + v * 2 ^ (7 * k) < 2 ^ w ->
  varint_loop wrap max ([zb v] ++ rest) (7 * k) result = Some (result + v * 2 ^ (7 * k), rest).
Proof.
  intros Hv Hk Hkm Hr Hb. cbn [app varint_loop]. rewrite (proj2 (Z.leb_le _ _)) by done.
  rewrite bz_zb_small, land_128, (proj2 (Z.ltb_lt v 128)) by lia. cbn.
  rewrite Hwrap; [by rewrite lor_shiftl_add by lia|]. rewrite Z.shiftl_mul_pow2 by lia. nia.
Qed.

Lemma varint_loop_more v k result p :
  0 <= v < 128 -> 0 <= k -> 7 * k <= max -> 0 <= result < 2 ^ (7 * k) -> result + v * 2 ^ (7 * k) < 2 ^ w ->
  varint_loop wrap max (zb (v + 128) :: p) (7 * k) result
  = varint_loop wrap max p (7 * k + 7) (result + v * 2 ^ (7 * k)).
Proof.
  intros Hv Hk Hkm Hr Hb. cbn [varint_loop]. rewrite (proj2 (Z.leb_le _ _)) by done.
  rewrite bz_zb_128, land_128, (proj2 (Z.ltb_ge (v + 128) 128)) by lia. cbn [Z.eqb].
  rewrite land_127. replace ((v + 128) mod 128) with v.
  - rewrite Hwrap; [by rewrite lor_shiftl_add by lia|]. rewrite Z.shiftl_mul_pow2 by lia. nia.
  - rewrite <- (Z.mul_1_l 128) at 1. by rewrite Z.mod_add, Z.mod_small by lia.
Qed.

Lemma varint_loop_encode fuel v k result rest :
  0 <= v < 128 * 2 ^ (7 * Z.of_nat fuel) -> 0 <= k -> 7 * k <= max ->
  0 <= result < 2 ^ (7 * k) -> result + v * 2 ^ (7 * k) < 2 ^ w ->
  varint_loop wrap max (encode_varint_loop (S fuel) v ++ rest) (7 * k) result
  = Some (result + v * 2 ^ (7 * k), rest).
Proof.
  revert v k result. induction fuel as [|fuel IH]; intros v k result Hv Hk Hkm Hr Hb.
  - rewrite encode_varint_loop_last by (cbn in Hv; lia).
    apply varint_loop_last; (done || (cbn in Hv; lia)).
  - destruct (decide (v < 128)) as [Hs|Hl].
    { rewrite encode_varint_loop_last by done. apply varint_loop_last; (done || lia). }
    rewrite encode_varint_loop_cons by lia. cbn [app]. pose proof (Z.div_mod v 128 ltac:(lia)) as Ev.
    pose proof (Z.mod_pos_bound v 128 ltac:(lia)). assert (0 <= v / 128) by (apply Z.div_pos; lia).
    assert (0 < 2 ^ (7 * k)) by (apply Z.pow_pos_nonneg; lia).
    assert (2 ^ (7 * (k + 1)) = 128 * 2 ^ (7 * k)) as Ek.
    { replace (7 * (k + 1)) with (7 + 7 * k) by lia. by rewrite Z.pow_add_r by lia. }
    rewrite varint_loop_more by (done || nia).
    replace (7 * k + 7) with (7 * (k + 1)) by lia.
    rewrite IH; rewrite ?Ek; [f_equal; f_equal; nia| |lia| |nia|nia].
    + split; [done|]. apply Z.div_lt_upper_bound; [lia|].
      replace (7 * Z.of_nat (S fuel)) with (7 + 7 * Z.of_nat fuel) in Hv by lia.
      rewrite Z.pow_add_r in Hv by lia. lia.
    + apply Hmax; [lia|]. apply (Z.pow_lt_mono_r_iff 2); [lia|lia|]. rewrite Ek. nia.
Qed.
End decode.

Lemma GetVarint64Ptr_encode v rest :
  0 <= v < 2^64 -> GetVarint64Ptr (EncodeVarint64 v ++ rest) = Some (v, rest).
Proof.
  intros Hv. unfold GetVarint64Ptr, EncodeVarint64.
  pose proof (varint_loop_encode u64 64 63 ltac:(lia) u64_small ltac:(lia) 9 v 0 0 rest) as H.
  change (7 * 0) with 0 in H. rewrite H by (done || (cbn; lia)). do 2 f_equal. cbn. lia.
Qed.

Lemma GetVarint32PtrFallback_encode v rest :
  0 <= v < 2^32 -> GetVarint32PtrFallback (EncodeVarint64 v ++ rest) = Some (v, rest).
Proof.
  intros Hv. unfold GetVarint32PtrFallback, EncodeVarint64.
  pose proof (varint_loop_encode u32 32 28 ltac:(lia) u32_small ltac:(lia) 9 v 0 0 rest) as H.
  change (7 * 0) with 0 in H. rewrite H by (done || (cbn; lia)). do 2 f_equal. cbn. lia.
Qed.

(** The inlined one-byte case of [GetVarint32Ptr] agrees with the fallback. *)
Lemma GetVarint32Ptr_fallback p : GetVarint32Ptr p = GetVarint32PtrFallback p.
Proof.
  unfold GetVarint32Ptr, GetVarint32PtrFallback. destruct p as [|b p]; [done|].
  cbn [varint_loop]. destruct (Z.land (bz b) 128 =? 0) eqn:E; [|done].
  rewrite Z.shiftl_0_r, u32_small by (pose proof (bz_range b); lia). done.
Qed.

Lemma GetVarint32Ptr_encode v rest :
  0 <= v < 2^32 -> GetVarint32Ptr (EncodeVarint32 v ++ rest) = Some (v, rest).
Proof.
  intros Hv. by rewrite EncodeVarint32_eq, GetVarint32Ptr_fallback, GetVarint32PtrFallback_encode.
Qed.

Lemma VarintLength_encode v : 0 <= v < 2^64 -> VarintLength v = Z.of_nat (length (EncodeVarint64 v)).
Proof.
  intros Hv. unfold VarintLength, EncodeVarint64.
  assert (forall fuel v len, 0 <= v < 128 * 2 ^ (7 * Z.of_nat fuel) ->
    varint_length_loop (S fuel) v len = len - 1 + Z.of_nat (length (encode_varint_loop (S fuel) v))) as H.
  - clear. induction fuel as [|fuel IH]; intros v len Hv.
    + cbn in Hv. rewrite encode_varint_loop_last by lia. cbn.
      rewrite (proj2 (Z.leb_gt 128 v)) by lia. lia.
    + destruct (decide (v < 128)).
      * rewrite encode_varint_loop_last by done. cbn.
        rewrite (proj2 (Z.leb_gt 128 v)) by lia. lia.
      * rewrite encode_varint_loop_cons by lia. cbn [length].
        change (varint_length_loop (S (S fuel)) v len) with
          (if 128 <=? v then varint_length_loop (S fuel) (Z.shiftr v 7) (len + 1) else len).
        rewrite (proj2 (Z.leb_le 128 v)), Z.shiftr_div_pow2 by lia. change (2^7) with 128.
        rewrite IH; [lia|]. split; [apply Z.div_pos; lia|]. apply Z.div_lt_upper_bound; [lia|].
        replace (7 * Z.of_nat (S fuel)) with (7 + 7 * Z.of_nat fuel) in Hv by lia.
        rewrite Z.pow_add_r in Hv by lia. lia.
  - rewrite (H 9%nat); [lia|cbn; lia].
Qed.

(** What a decoder consumes. *)
Lemma varint_loop_suffix wrap max p shift result v q :
  varint_loop wrap max p shift result = Some (v, q) ->
  exists pre, p = pre ++ q /\ (0 < length pre)%nat /\ shift + 7 * (Z.of_nat (length pre) - 1) <= max.
Proof.
  revert shift result. induction p as [|b p IH]; intros shift result E; [done|].
  cbn [varint_loop] in E. destruct (Z.leb_spec shift max) as [Hm|]; [|done].
  destruct (_ =? 0).
  - injection E as _ <-. exists [b]. cbn. split; [done|]. split; [lia|lia].
  - apply IH in E as (pre & -> & Hl & Hb). exists (b :: pre). cbn [length app]. split; [done|].
    split; [lia|lia].
Qed.

Lemma varint_loop_range wrap w max p shift result v q :
  0 <= w -> (forall x, 0 <= wrap x < 2^w) -> 0 <= result < 2^w ->
  varint_loop wrap max p shift result = Some (v, q) -> 0 <= v < 2^w.
Proof.
  intros Hw Hwrap. revert shift result.
  induction p as [|b p IH]; intros shift result Hr E; [done|]. cbn [varint_loop] in E.
  destruct (shift <=? max); [|done]. destruct (_ =? 0).
  - injection E as <- _. by apply lor_range.
  - eapply IH; [|done]. by apply lor_range.
Qed.

Lemma GetVarint32Ptr_inv p v q :
  GetVarint32Ptr p = Some (v, q) ->
  0 <= v < 2^32 /\ exists pre, p = pre ++ q /\ (1 <= length pre <= 5)%nat.
Proof.
  rewrite GetVarint32Ptr_fallback. unfold GetVarint32PtrFallback. intros E. split.
  - by apply (varint_loop_range u32 32) in E; [|lia|apply u32_range|lia].
  - apply varint_loop_suffix in E as (pre & -> & H1 & H2). exists pre. split; [done|lia].
Qed.

Lemma GetVarint64Ptr_inv p v q :
  GetVarint64Ptr p = Some (v, q) ->
  0 <= v < 2^64 /\ exists pre, p = pre ++ q /\ (1 <= length pre <= 10)%nat.
Proof.
  unfold GetVarint64Ptr. intros E. split.
  - by apply (varint_loop_range u64 64) in E; [|lia|apply u64_range|lia].
  - apply varint_loop_suffix in E as (pre & -> & H1 & H2). exists pre. split; [done|lia].
Qed.

(** ** Length-prefixed slices *)

Lemma GetLengthPrefixedSlicePtr_put s rest :
  Z.of_nat (length s) < 2^32 ->
  GetLengthPrefixedSlicePtr (PutLengthPrefixedSlice [] s ++ rest) = Some (s, rest).
Proof.
  intros Hs. unfold PutLengthPrefixedSlice, PutVarint32, GetLengthPrefixedSlicePtr. cbn [app].
  rewrite u32_small by lia. rewrite <- app_assoc, GetVarint32Ptr_encode by lia.
  rewrite decide_False by (rewrite length_app; lia).
  by rewrite Nat2Z.id, take_app_length, drop_app_length.
Qed.

Lemma GetLengthPrefixedSlice_put s rest :
  Z.of_nat (length s) < 2^32 ->
  GetLengthPrefixedSlice (PutLengthPrefixedSlice [] s ++ rest) = (Some s, rest).
Proof.
  intros Hs. unfold PutLengthPrefixedSlice, PutVarint32, GetLengthPrefixedSlice, GetVarint32. cbn [app].
  rewrite u32_small by lia. rewrite <- app_assoc, GetVarint32Ptr_encode by lia.
  rewrite decide_True by (rewrite length_app; lia).
  by rewrite Nat2Z.id, take_app_length, drop_app_length.
Qed.

Lemma PutLengthPrefixedSlice_app dst s :
  PutLengthPrefixedSlice dst s = dst ++ PutLengthPrefixedSlice [] s.
Proof. unfold PutLengthPrefixedSlice, PutVarint32. by rewrite <- app_assoc. Qed.

(** ** Properties *)

Lemma varint_loop_app wrap max p t shift result v q :
  varint_loop wrap max p shift result = Some (v, q) ->
  varint_loop wrap max (p ++ t) shift result = Some (v, q ++ t).
Proof.
  revert shift result. induction p as [|b p IH]; intros shift result E; [done|].
  cbn [varint_loop app] in *. destruct (shift <=? max); [|done].
  destruct (_ =? 0); [by injection E as <- <-|by apply IH].
Qed.

(** Every encoding decodes to the value and the bytes after it: fixed 32
    and 64 bits, varints of both widths, and length-prefixed slices in both
    versions; [VarintLength] is the length of the encoding. *)
Theorem coding_roundtrip v w s rest :
  0 <= v < 2^32 -> 0 <= w < 2^64 -> Z.of_nat (length s) < 2^32 ->
  DecodeFixed32 (PutFixed32 [] v ++ rest) = Ret v
  /\ DecodeFixed64 (PutFixed64 [] w ++ rest) = Ret w
  /\ GetVarint32 (PutVarint32 [] v ++ rest) = Some (v, rest)
  /\ GetVarint64 (PutVarint64 [] w ++ rest) = Some (w, rest)
  /\ GetLengthPrefixedSlice (PutLengthPrefixedSlice [] s ++ rest) = (Some s, rest)
  /\ GetLengthPrefixedSlicePtr (PutLengthPrefixedSlice [] s ++ rest) = Some (s, rest)
  /\ Z.of_nat (length (EncodeVarint64 w)) = VarintLength w
  /\ EncodeVarint32 v = EncodeVarint64 v.
Proof.
  intros Hv Hw Hs. split; [by apply DecodeFixed32_Encode|]. split; [by apply DecodeFixed64_Encode|].
  split; [by apply GetVarint32Ptr_encode|]. split; [by apply GetVarint64Ptr_encode|].
  split; [by apply GetLengthPrefixedSlice_put|]. split; [by apply GetLengthPrefixedSlicePtr_put|].
  split; [by rewrite VarintLength_encode|by apply EncodeVarint32_eq].
Qed.

Lemma coding_roundtrip_witness :
  GetVarint32 (PutVarint32 [] 300 ++ lit "x") = Some (300, lit "x")
  /\ GetLengthPrefixedSlice (PutLengthPrefixedSlice [] (lit "key") ++ lit "x") = (Some (lit "key"), lit "x").
Proof.
  destruct (coding_roundtrip 300 (2^40) (lit "key") (lit "x")) as (_ & _ & H & _ & H' & _);
    [lia|lia|reflexivity|]. split; [exact H|exact H'].
Defined.

(** A varint decoder never runs past its input or past the longest
    encoding, its result is in range, and a truncated encoding is refused. *)
Theorem varint_decoding_safe p v q :
  (GetVarint32 p = Some (v, q) ->
     0 <= v < 2^32 /\ exists pre, p = pre ++ q /\ (1 <= length pre <= 5)%nat)
  /\ (GetVarint64 p = Some (v, q) ->
     0 <= v < 2^64 /\ exists pre, p = pre ++ q /\ (1 <= length pre <= 10)%nat)
  /\ (forall w b t, 0 <= w < 2^32 -> p ++ b :: t = EncodeVarint32 w -> GetVarint32 p = None)
  /\ (forall w b t, 0 <= w < 2^64 -> p ++ b :: t = EncodeVarint64 w -> GetVarint64 p = None).
Proof.
  split; [by apply GetVarint32Ptr_inv|]. split; [by apply GetVarint64Ptr_inv|]. split.
  - intros w b t Hw E. pose proof (GetVarint32Ptr_encode w [] Hw) as H. rewrite app_nil_r, <- E in H.
    unfold GetVarint32. rewrite GetVarint32Ptr_fallback in *. unfold GetVarint32PtrFallback in *.
    destruct (varint_loop u32 28 p 0 0) as [[v' q']|] eqn:Ep; [|done].
    apply (varint_loop_app _ _ _ (b :: t)) in Ep. rewrite Ep in H. by destruct q'.
  - intros w b t Hw E. pose proof (GetVarint64Ptr_encode w [] Hw) as H. rewrite app_nil_r, <- E in H.
    unfold GetVarint64, GetVarint64Ptr in *.
    destruct (varint_loop u64 63 p 0 0) as [[v' q']|] eqn:Ep; [|done].
    apply (varint_loop_app _ _ _ (b :: t)) in Ep. rewrite Ep in H. by destruct q'.
Qed.
