(* ===== verification/DbFormat.v ===== *)
(** * DbFormat: comparators and internal keys (comparator.h, util/comparator.cc,
    db/dbformat.h, db/dbformat.cc)

    An internal key is a user key followed by eight bytes that pack a sequence
    number and a value type.  Its order is the user comparator's, and the newest
    entry first among equal user keys. *)

From S2P Require Import Prelude Coding.

(** ** Comparator: what include/leveldb/comparator.h asks of an implementation *)

Class Comparator := {
  Compare : bytes -> bytes -> Z;
  FindShortestSeparator : bytes -> bytes -> bytes;
  FindShortSuccessor : bytes -> bytes;
  Compare_order : CmpOrder (fun a b => Compare a b ?= 0);
  FindShortestSeparator_between start limit :
    Compare start limit < 0 ->
    Compare start (FindShortestSeparator start limit) <= 0
    /\ Compare (FindShortestSeparator start limit) limit < 0;
  FindShortSuccessor_above key : Compare key (FindShortSuccessor key) <= 0;
}.

Definition ucmp `{Comparator} (a b : bytes) : comparison := Compare a b ?= 0.

#[export] Instance ucmp_order `{Comparator} : CmpOrder ucmp := Compare_order.

Lemma Compare_lt `{Comparator} a b : Compare a b < 0 <-> ucmp a b = Lt.
Proof. unfold ucmp. by rewrite Z.compare_lt_iff. Qed.
Lemma Compare_le `{Comparator} a b : Compare a b <= 0 <-> ucmp a b <> Gt.
Proof. unfold ucmp. by rewrite Z.compare_le_iff. Qed.
Lemma Compare_eq `{Comparator} a b : Compare a b = 0 <-> ucmp a b = Eq.
Proof. unfold ucmp. by rewrite Z.compare_eq_iff. Qed.

(** ** BytewiseComparatorImpl *)

(** The loop that finds the length of the common prefix. *)
Fixpoint diff_index_loop (start limit : bytes) (min_length diff_index : nat) (fuel : nat) : nat :=
  match fuel with
  | O => diff_index
  | S fuel =>
      if decide (diff_index < min_length)%nat then
        if decide (start !! diff_index = limit !! diff_index)
        then diff_index_loop start limit min_length (S diff_index) fuel
        else diff_index
      else diff_index
  end.

Definition bytewise_FindShortestSeparator (start limit : bytes) : bytes :=
  let min_length := Nat.min (length start) (length limit) in
  let diff_index := diff_index_loop start limit min_length 0 min_length in
  if decide (min_length <= diff_index)%nat then start
  else
    match start !! diff_index, limit !! diff_index with
    | Some s, Some l =>
        let diff_byte := bz s in
        if decide (diff_byte < 255 /\ diff_byte + 1 < bz l)
        then take (diff_index + 1) (<[diff_index := zb (bz s + 1)]> start)
        else start
    | _, _ => start
    end.

Fixpoint short_successor_loop (key : bytes) (n i : nat) : bytes :=
  match n with
  | O => key
  | S n =>
      match key !! i with
      | Some byte =>
          if decide (bz byte <> 255) then take (i + 1) (<[i := zb (bz byte + 1)]> key)
          else short_successor_loop key n (S i)
      | None => key
      end
  end.
Definition bytewise_FindShortSuccessor (key : bytes) : bytes :=
  short_successor_loop key (length key) 0.

Lemma diff_index_loop_spec fuel start limit i :
  let n := Nat.min (length start) (length limit) in
  let d := diff_index_loop start limit n i fuel in
  (i <= n)%nat -> (n - i <= fuel)%nat -> take i start = take i limit ->
  (d <= n)%nat /\ take d start = take d limit
  /\ ((d < n)%nat -> start !! d <> limit !! d).
Proof.
  cbn zeta. revert i. induction fuel as [|fuel IH]; intros i Hi Hf Et; cbn [diff_index_loop].
  { split; [lia|]. split; [done|lia]. }
  case_decide as Hlt; [|split; [lia|split; [done|lia]]].
  case_decide as E; [|split; [lia|done]].
  apply IH; [lia|lia|].
  destruct (lookup_lt_is_Some_2 start i ltac:(lia)) as [x Hx].
  rewrite (take_S_r _ _ _ Hx). rewrite E in Hx. by rewrite (take_S_r _ _ _ Hx), Et.
Qed.

Lemma take_insert_last {A} (l : list A) i x :
  (i < length l)%nat -> take (i + 1) (<[i := x]> l) = take i l ++ [x].
Proof.
  intros Hi. rewrite Nat.add_1_r. erewrite take_S_r by (by apply list_lookup_insert_eq).
  by rewrite take_insert_ge.
Qed.

(** Cutting after an incremented byte moves up, but not past a larger byte. *)
Lemma bump_above p s ss : bz s <> 255 -> bytes_cmp (p ++ s :: ss) (p ++ [zb (bz s + 1)]) = Lt.
Proof.
  intros Hs. pose proof (bz_range s). unfold bytes_cmp. rewrite (lex_app_same byte_cmp). cbn.
  unfold byte_cmp, cmp_on. rewrite bz_zb_small by lia.
  by rewrite (proj2 (Z.compare_lt_iff (bz s) (bz s + 1))) by lia.
Qed.

Lemma bump_below p s l ll : bz s + 1 < bz l -> bytes_cmp (p ++ [zb (bz s + 1)]) (p ++ l :: ll) = Lt.
Proof.
  intros Hs. pose proof (bz_range s). pose proof (bz_range l). unfold bytes_cmp. rewrite (lex_app_same byte_cmp). cbn.
  unfold byte_cmp, cmp_on. rewrite bz_zb_small by lia.
  by rewrite (proj2 (Z.compare_lt_iff (bz s + 1) (bz l))) by lia.
Qed.

Lemma bytewise_separator start limit :
  bytes_cmp start limit = Lt ->
  bytes_cmp start (bytewise_FindShortestSeparator start limit) <> Gt
  /\ bytes_cmp (bytewise_FindShortestSeparator start limit) limit = Lt.
Proof.
  intros Hlt. pose proof (cmp_refl (cmp:=bytes_cmp)) as Hrefl.
  unfold bytewise_FindShortestSeparator.
  destruct (diff_index_loop_spec (Nat.min (length start) (length limit)) start limit 0)
    as (Hd & Ht & Hne); [lia|lia|done|].
  set (d := diff_index_loop _ _ _ _ _) in *. case_decide as Hmin; [by rewrite Hrefl|].
  destruct (start !! d) as [s|] eqn:Es; [|by rewrite Hrefl].
  destruct (limit !! d) as [l|] eqn:El; [|by rewrite Hrefl].
  case_decide as Hb; [|by rewrite Hrefl].
  rewrite take_insert_last by (by eapply lookup_lt_Some).
  pose proof (bump_above (take d start) s (drop (S d) start) ltac:(lia)) as H1.
  pose proof (bump_below (take d start) s l (drop (S d) limit) ltac:(lia)) as H2.
  rewrite (take_drop_middle _ _ _ Es) in H1. rewrite Ht, (take_drop_middle _ _ _ El), <- Ht in H2.
  by rewrite H1.
Qed.

Lemma short_successor_loop_spec n key i :
  (length key = i + n)%nat -> bytes_cmp key (short_successor_loop key n i) <> Gt.
Proof.
  revert i. induction n as [|n IH]; intros i Hl; cbn [short_successor_loop]; [by rewrite (cmp_refl (cmp:=bytes_cmp))|].
  destruct (key !! i) as [b|] eqn:E; [|by rewrite (cmp_refl (cmp:=bytes_cmp))]. case_decide as Hb.
  - rewrite take_insert_last by lia.
    pose proof (bump_above (take i key) b (drop (S i) key) Hb) as H1.
    rewrite (take_drop_middle _ _ _ E) in H1. by rewrite H1.
  - apply IH. lia.
Qed.

#[export] Program Instance BytewiseComparator : Comparator := {
  Compare := Slice.compare;
  FindShortestSeparator := bytewise_FindShortestSeparator;
  FindShortSuccessor := bytewise_FindShortSuccessor;
}.
Next Obligation.
  split; intros *; rewrite !Slice.compare_sign;
    [apply cmp_refl|apply cmp_antisym|apply cmp_trans|apply cmp_eq_l].
Qed.
Next Obligation.
  intros start limit. rewrite <- Z.compare_le_iff, <- !Z.compare_lt_iff, !Slice.compare_sign.
  apply bytewise_separator.
Qed.
Next Obligation.
  intros key. rewrite <- Z.compare_le_iff, Slice.compare_sign. by apply short_successor_loop_spec.
Qed.

(** ** Constants of db/dbformat.h *)

Module config.
Definition kNumLevels : Z := 7.
Definition kL0_CompactionTrigger : Z := 4.
Definition kL0_SlowdownWritesTrigger : Z := 8.
Definition kL0_StopWritesTrigger : Z := 12.
Definition kMaxMemCompactLevel : Z := 2.
Definition kReadBytesPeriod : Z := 1048576.
End config.

(** ** Internal keys *)

Inductive ValueType := kTypeDeletion | kTypeValue.

#[export] Instance ValueType_eq_dec : EqDecision ValueType.
Proof. solve_decision. Defined.

Definition type_code (t : ValueType) : Z := match t with kTypeDeletion => 0 | kTypeValue => 1 end.
Definition kValueTypeForSeek : ValueType := kTypeValue.
Definition kMaxSequenceNumber : Z := Z.shiftl 1 56 - 1.

Record ParsedInternalKey := mkParsed {
  user_key : bytes;
  sequence : Z;
  type : ValueType;
}.

Definition InternalKeyEncodingLength (key : ParsedInternalKey) : nat := length (user_key key) + 8.

Definition PackSequenceAndType (seq : Z) (t : ValueType) : Z :=
  Z.lor (u64 (Z.shiftl seq 8)) (type_code t).

Definition AppendInternalKey (result : bytes) (key : ParsedInternalKey) : bytes :=
  PutFixed64 (result ++ user_key key) (PackSequenceAndType (sequence key) (type key)).

(** The last eight bytes; the callers check or assert that there are eight. *)
Definition key_tag (k : bytes) : res Z := DecodeFixed64 (drop (length k - 8) k).

Definition ParseInternalKey (internal_key : bytes) : option ParsedInternalKey :=
  let n := length internal_key in
  if decide (n < 8)%nat then None
  else
    match key_tag internal_key with
    | Ret num =>
        let c := Z.land num 255 in
        if c =? 0 then Some (mkParsed (take (n - 8) internal_key) (Z.shiftr num 8) kTypeDeletion)
        else if c =? 1 then Some (mkParsed (take (n - 8) internal_key) (Z.shiftr num 8) kTypeValue)
        else None
    | _ => None
    end.

Definition ExtractUserKey (internal_key : bytes) : res bytes :=
  if decide (8 <= length internal_key)%nat
  then Ret (take (length internal_key - 8) internal_key) else Undef.

(** The value type as the number stored. *)
Definition ExtractValueType (internal_key : bytes) : res Z :=
  if decide (8 <= length internal_key)%nat
  then num ← key_tag internal_key; Ret (Z.land num 255) else Undef.

Section internal_comparator.
Context `{Comparator}.

Definition InternalCompare (akey bkey : bytes) : res Z :=
  a ← ExtractUserKey akey;
  b ← ExtractUserKey bkey;
  let r := Compare a b in
  if decide (r = 0) then
    anum ← key_tag akey;
    bnum ← key_tag bkey;
    Ret (if decide (anum > bnum) then -1 else if decide (anum < bnum) then 1 else r)
  else Ret r.

Definition InternalFindShortestSeparator (start limit : bytes) : res bytes :=
  user_start ← ExtractUserKey start;
  user_limit ← ExtractUserKey limit;
  let tmp := FindShortestSeparator user_start user_limit in
  Ret (if decide ((length tmp < length user_start)%nat /\ Compare user_start tmp < 0)
       then PutFixed64 tmp (PackSequenceAndType kMaxSequenceNumber kValueTypeForSeek)
       else start).

Definition InternalFindShortSuccessor (key : bytes) : res bytes :=
  user_key ← ExtractUserKey key;
  let tmp := FindShortSuccessor user_key in
  Ret (if decide ((length tmp < length user_key)%nat /\ Compare user_key tmp < 0)
       then PutFixed64 tmp (PackSequenceAndType kMaxSequenceNumber kValueTypeForSeek)
       else key).
End internal_comparator.

(** [class InternalKey]: the encoding, empty when it is not set. *)
Definition InternalKey_make (u : bytes) (s : Z) (t : ValueType) : bytes :=
  AppendInternalKey [] (mkParsed u s t).
Definition InternalKey_SetFrom (p : ParsedInternalKey) : bytes := AppendInternalKey [] p.
Definition InternalKey_Encode (rep : bytes) : bytes := rep.
Definition InternalKey_DecodeFrom (s : bytes) : bytes := s.

(** [class LookupKey]: the buffer and the offset of the user key in it. *)
Record LookupKey := mkLookupKey { space : bytes; kstart : nat }.

Definition LookupKey_make (u : bytes) (s : Z) : LookupKey :=
  let usize := Z.of_nat (length u) in
  let prefix := EncodeVarint32 (u32 (usize + 8)) in
  mkLookupKey (prefix ++ u ++ EncodeFixed64 (PackSequenceAndType s kValueTypeForSeek)) (length prefix).
Definition memtable_key (k : LookupKey) : bytes := space k.
Definition internal_key (k : LookupKey) : bytes := drop (kstart k) (space k).
Definition lookup_user_key (k : LookupKey) : bytes :=
  take (length (space k) - kstart k - 8) (drop (kstart k) (space k)).

(** ** Lemmas *)

Definition valid_seq (s : Z) : Prop := 0 <= s <= kMaxSequenceNumber.

Lemma pack_value s t : valid_seq s -> PackSequenceAndType s t = s * 256 + type_code t.
Proof.
  unfold valid_seq, PackSequenceAndType, kMaxSequenceNumber. change (Z.shiftl 1 56) with (2^56).
  intros Hs. rewrite Z.lor_comm, u64_small by (rewrite Z.shiftl_mul_pow2 by lia; lia).
  rewrite lor_shiftl_add; [change (2^8) with 256; lia|lia|]. destruct t; cbn; lia.
Qed.

Lemma pack_range s t : valid_seq s -> 0 <= PackSequenceAndType s t < 2^64.
Proof.
  intros Hs. rewrite pack_value by done. unfold valid_seq, kMaxSequenceNumber in Hs.
  change (Z.shiftl 1 56) with (2^56) in Hs. destruct t; cbn; lia.
Qed.

(** Any tag is the packing of the numbers it is unpacked to. *)
Definition encode_key (k : ParsedInternalKey) : bytes := AppendInternalKey [] k.

Lemma encode_key_eq k :
  encode_key k = user_key k ++ EncodeFixed64 (PackSequenceAndType (sequence k) (type k)).
Proof. done. Qed.

Lemma length_encode_key k : length (encode_key k) = InternalKeyEncodingLength k.
Proof. rewrite encode_key_eq, length_app. done. Qed.

Lemma tag_of_append u v : 0 <= v < 2^64 -> key_tag (u ++ EncodeFixed64 v) = Ret v.
Proof.
  intros Hv. unfold key_tag. rewrite length_app. rewrite drop_app_length' by (cbn; lia).
  rewrite <- (app_nil_r (EncodeFixed64 v)). by apply DecodeFixed64_Encode.
Qed.

Lemma key_tag_encode k :
  valid_seq (sequence k) -> key_tag (encode_key k) = Ret (PackSequenceAndType (sequence k) (type k)).
Proof. intros Hs. rewrite encode_key_eq. by apply tag_of_append, pack_range. Qed.

Lemma ExtractUserKey_append u tag :
  length tag = 8%nat -> ExtractUserKey (u ++ tag) = Ret u.
Proof.
  intros Ht. unfold ExtractUserKey. rewrite length_app, decide_True by lia.
  by rewrite take_app_length' by lia.
Qed.

Lemma ExtractUserKey_encode k : ExtractUserKey (encode_key k) = Ret (user_key k).
Proof. by apply ExtractUserKey_append. Qed.

Lemma unpack s t : valid_seq s ->
  Z.land (PackSequenceAndType s t) 255 = type_code t /\ Z.shiftr (PackSequenceAndType s t) 8 = s.
Proof.
  intros Hs. rewrite pack_value by done. rewrite land_255, Z.shiftr_div_pow2 by lia.
  change (2^8) with 256. split.
  - rewrite Z.add_comm, Z.mod_add by lia. by destruct t.
  - rewrite Z.div_add_l by lia. replace (type_code t / 256) with 0 by (by destruct t). lia.
Qed.

Lemma ParseInternalKey_encode k :
  valid_seq (sequence k) -> ParseInternalKey (encode_key k) = Some k.
Proof.
  intros Hs. unfold ParseInternalKey. rewrite key_tag_encode by done.
  rewrite length_encode_key. unfold InternalKeyEncodingLength. rewrite decide_False by lia.
  destruct (unpack (sequence k) (type k) Hs) as [-> ->]. rewrite encode_key_eq.
  rewrite take_app_length' by lia. by destruct k as [u s []].
Qed.

Lemma ExtractValueType_encode k :
  valid_seq (sequence k) -> ExtractValueType (encode_key k) = Ret (type_code (type k)).
Proof.
  intros Hs. unfold ExtractValueType. rewrite length_encode_key. unfold InternalKeyEncodingLength.
  rewrite decide_True, key_tag_encode by (done || lia). cbn [mbind res_bind].
  by destruct (unpack (sequence k) (type k) Hs) as [-> _].
Qed.

Lemma lookup_key_parts u s :
  memtable_key (LookupKey_make u s)
    = EncodeVarint32 (u32 (Z.of_nat (length u) + 8)) ++ encode_key (mkParsed u s kValueTypeForSeek)
  /\ internal_key (LookupKey_make u s) = encode_key (mkParsed u s kValueTypeForSeek)
  /\ lookup_user_key (LookupKey_make u s) = u.
Proof.
  unfold LookupKey_make, memtable_key, internal_key, lookup_user_key. cbn [space kstart].
  rewrite !drop_app_length. split; [done|]. split; [done|].
  rewrite take_app_length'; [done|]. rewrite !length_app, length_EncodeFixed64. lia.
Qed.

(** ** The order of internal keys *)

(** Increasing user keys, then decreasing sequence numbers, then decreasing types. *)
Definition ikey_cmp `{Comparator} : ParsedInternalKey -> ParsedInternalKey -> comparison :=
  cmp_then (cmp_on user_key ucmp)
    (cmp_then (cmp_flip (cmp_on sequence Z.compare))
              (cmp_flip (cmp_on (fun k => type_code (type k)) Z.compare))).

#[export] Instance ikey_cmp_order `{Comparator} : CmpOrder ikey_cmp := _.

Lemma pack_compare s t s' t' : valid_seq s -> valid_seq s' ->
  (PackSequenceAndType s t ?= PackSequenceAndType s' t')
  = match s ?= s' with Eq => type_code t ?= type_code t' | c => c end.
Proof.
  intros Hs Hs'. rewrite !pack_value by done.
  assert (0 <= type_code t <= 1 /\ 0 <= type_code t' <= 1) as [? ?] by (destruct t, t'; cbn; lia).
  destruct (Z.compare_spec s s') as [->|Hlt|Hgt].
  - destruct (Z.compare_spec (type_code t) (type_code t')).
    + apply Z.compare_eq_iff. lia.
    + apply Z.compare_lt_iff. lia.
    + apply Z.compare_gt_iff. lia.
  - apply Z.compare_lt_iff. lia.
  - apply Z.compare_gt_iff. lia.
Qed.

Lemma InternalCompare_encode `{Comparator} a b :
  valid_seq (sequence a) -> valid_seq (sequence b) ->
  exists r, InternalCompare (encode_key a) (encode_key b) = Ret r /\ (r ?= 0) = ikey_cmp a b.
Proof.
  intros Ha Hb. unfold InternalCompare. rewrite !ExtractUserKey_encode. cbn [mbind res_bind].
  unfold ikey_cmp, cmp_then, cmp_flip, cmp_on, ucmp.
  case_decide as E.
  - rewrite !key_tag_encode by done. cbn [mbind res_bind]. eexists. split; [done|].
    rewrite E, Z.compare_refl, <- pack_compare by done.
    destruct (Z.compare_spec (PackSequenceAndType (sequence b) (type b))
      (PackSequenceAndType (sequence a) (type a))).
    + by rewrite !decide_False by lia.
    + by rewrite decide_True by lia.
    + by rewrite decide_False, decide_True by lia.
  - eexists. split; [done|]. destruct (Z.compare_spec (Compare (user_key a) (user_key b)) 0);
      [by destruct E|done..].
Qed.

(** The shortened keys of the index blocks stay between their neighbours. *)
Lemma seek_key_first `{Comparator} u k :
  ucmp u (user_key k) = Lt -> ikey_cmp (mkParsed u kMaxSequenceNumber kValueTypeForSeek) k = Lt.
Proof. unfold ikey_cmp, cmp_then, cmp_on. cbn. by intros ->. Qed.

Lemma user_key_lt `{Comparator} k u s t :
  Compare (user_key k) u < 0 -> ikey_cmp k (mkParsed u s t) = Lt.
Proof. intros Hlt. unfold ikey_cmp, cmp_then, cmp_on. cbn. by rewrite (proj1 (Compare_lt _ _) Hlt). Qed.

Lemma valid_max : valid_seq kMaxSequenceNumber.
Proof. split; [done|lia]. Qed.

(** ** Properties *)

(** An internal key holds its user key, sequence number and type: parsing
    the encoding gives them back, and [InternalKeyComparator] orders the
    encodings by increasing user key, then decreasing sequence number, then
    decreasing type; the memtable and internal keys of a [LookupKey] are the
    length-prefixed and the plain encoding of the first key at the snapshot. *)
Theorem internal_key_order `{Comparator} a b u s :
  valid_seq (sequence a) -> valid_seq (sequence b) ->
  ParseInternalKey (encode_key a) = Some a
  /\ ExtractUserKey (encode_key a) = Ret (user_key a)
  /\ ExtractValueType (encode_key a) = Ret (type_code (type a))
  /\ length (encode_key a) = InternalKeyEncodingLength a
  /\ (exists r, InternalCompare (encode_key a) (encode_key b) = Ret r /\ (r ?= 0) = ikey_cmp a b)
  /\ internal_key (LookupKey_make u s) = encode_key (mkParsed u s kValueTypeForSeek)
  /\ lookup_user_key (LookupKey_make u s) = u
  /\ (Z.of_nat (length u) + 8 < 2^32 ->
        GetLengthPrefixedSlicePtr (memtable_key (LookupKey_make u s))
        = Some (internal_key (LookupKey_make u s), [])).
Proof.
  intros Ha Hb. destruct (lookup_key_parts u s) as (Hm & Hi & Hu).
  split; [by apply ParseInternalKey_encode|]. split; [by apply ExtractUserKey_encode|].
  split; [by apply ExtractValueType_encode|]. split; [by apply length_encode_key|].
  split; [by apply InternalCompare_encode|]. split; [done|]. split; [done|]. intros Hl.
  rewrite Hm, Hi. pose proof (GetLengthPrefixedSlicePtr_put
    (encode_key (mkParsed u s kValueTypeForSeek)) []) as E.
  rewrite length_encode_key in E. unfold InternalKeyEncodingLength in E. cbn [user_key] in E.
  rewrite app_nil_r in E. unfold PutLengthPrefixedSlice, PutVarint32 in E.
  rewrite length_encode_key in E. unfold InternalKeyEncodingLength in E. cbn [user_key app] in E.
  replace (Z.of_nat (length u + 8)) with (Z.of_nat (length u) + 8) in E by lia. by apply E.
Qed.

Lemma internal_key_order_witness :
  exists r, InternalCompare (encode_key (mkParsed (lit "k") 7 kTypeValue))
      (encode_key (mkParsed (lit "k") 9 kTypeDeletion)) = Ret r
    /\ (r ?= 0) = ikey_cmp (mkParsed (lit "k") 7 kTypeValue) (mkParsed (lit "k") 9 kTypeDeletion).
Proof.
  apply (internal_key_order (mkParsed (lit "k") 7 kTypeValue) (mkParsed (lit "k") 9 kTypeDeletion) [] 0);
    (split; [discriminate|discriminate]).
Defined.

(** The internal comparator's separator of two keys is at least the first
    and less than the second, and its successor is at least the key, provided
    the user comparator keeps its contract; the bytewise comparator does. *)
Theorem internal_separators `{Comparator} a b :
  valid_seq (sequence a) -> valid_seq (sequence b) -> Compare (user_key a) (user_key b) < 0 ->
  exists m n, InternalFindShortestSeparator (encode_key a) (encode_key b) = Ret (encode_key m)
    /\ valid_seq (sequence m) /\ ikey_cmp a m <> Gt /\ ikey_cmp m b = Lt
    /\ InternalFindShortSuccessor (encode_key a) = Ret (encode_key n)
    /\ valid_seq (sequence n) /\ ikey_cmp a n <> Gt.
Proof.
  intros Ha Hb Hlt. unfold InternalFindShortestSeparator, InternalFindShortSuccessor.
  rewrite !ExtractUserKey_encode. cbn [mbind res_bind].
  destruct (FindShortestSeparator_between _ _ Hlt) as [H1 H2].
  set (sep := FindShortestSeparator _ _) in *. set (suc := FindShortSuccessor _).
  assert (ikey_cmp a a <> Gt) as Hrefl by (by rewrite (cmp_refl (cmp:=ikey_cmp))).
  assert (ikey_cmp a b = Lt) as Hab.
  { unfold ikey_cmp, cmp_then, cmp_on. by rewrite (proj1 (Compare_lt _ _) Hlt). }
  exists (if decide ((length sep < length (user_key a))%nat /\ Compare (user_key a) sep < 0)
    then mkParsed sep kMaxSequenceNumber kValueTypeForSeek else a).
  exists (if decide ((length suc < length (user_key a))%nat /\ Compare (user_key a) suc < 0)
    then mkParsed suc kMaxSequenceNumber kValueTypeForSeek else a).
  split; [by case_decide|]. split; [by case_decide; [apply valid_max|]|].
  split; [case_decide as Hc; [by rewrite (user_key_lt a sep) by tauto|done]|].
  split; [case_decide as Hc; [by apply seek_key_first, Compare_lt|done]|].
  split; [by case_decide|]. split; [by case_decide; [apply valid_max|]|].
  case_decide as Hc; [by rewrite (user_key_lt a suc) by tauto|done].
Qed.

Lemma internal_separators_witness :
  exists m n, InternalFindShortestSeparator (encode_key (mkParsed (lit "abcde") 3 kTypeValue))
      (encode_key (mkParsed (lit "abzz") 9 kTypeValue)) = Ret (encode_key m)
    /\ valid_seq (sequence m) /\ ikey_cmp (mkParsed (lit "abcde") 3 kTypeValue) m <> Gt
    /\ ikey_cmp m (mkParsed (lit "abzz") 9 kTypeValue) = Lt
    /\ InternalFindShortSuccessor (encode_key (mkParsed (lit "abcde") 3 kTypeValue)) = Ret (encode_key n)
    /\ valid_seq (sequence n) /\ ikey_cmp (mkParsed (lit "abcde") 3 kTypeValue) n <> Gt.
Proof.
  apply (internal_separators (mkParsed (lit "abcde") 3 kTypeValue) (mkParsed (lit "abzz") 9 kTypeValue));
    [split; discriminate|split; discriminate|vm_compute; reflexivity].
Defined.
