(* ===== verification/Status.v ===== *)
(** * Status: include/leveldb/status.h and util/status.cc

    The result of an operation: success is the null pointer, an error an array
    that packs the length of the message, the code and the message. *)

From S2P Require Import Prelude CLib Coding.

Module Status.

(** [state_]: null, or the array. *)
Definition t := option bytes.

Definition kOk : Z := 0.
Definition kNotFound : Z := 1.
Definition kCorruption : Z := 2.
Definition kNotSupported : Z := 3.
Definition kInvalidArgument : Z := 4.
Definition kIOError : Z := 5.

Definition ok (s : t) : bool := match s with None => true | Some _ => false end.

Definition code (s : t) : Z :=
  match s with None => kOk | Some state => match state !! 4%nat with Some b => bz b | None => kOk end end.

(** The constructor; the size is stored in the byte order of the machine. *)
Definition make (c : Z) (msg msg2 : bytes) : t :=
  let len1 := u32 (Z.of_nat (length msg)) in
  let len2 := u32 (Z.of_nat (length msg2)) in
  let size := u32 (len1 + (if len2 =? 0 then 0 else 2 + len2)) in
  Some (EncodeFixed32 size ++ [zb c] ++ take (Z.to_nat len1) msg
    ++ (if len2 =? 0 then [] else lit ": " ++ take (Z.to_nat len2) msg2)).

Definition OK : t := None.
Definition NotFound (msg msg2 : bytes) : t := make kNotFound msg msg2.
Definition Corruption (msg msg2 : bytes) : t := make kCorruption msg msg2.
Definition NotSupported (msg msg2 : bytes) : t := make kNotSupported msg msg2.
Definition InvalidArgument (msg msg2 : bytes) : t := make kInvalidArgument msg msg2.
Definition IOError (msg msg2 : bytes) : t := make kIOError msg msg2.

Definition IsNotFound (s : t) : bool := code s =? kNotFound.
Definition IsCorruption (s : t) : bool := code s =? kCorruption.
Definition IsIOError (s : t) : bool := code s =? kIOError.

(** The copy of an array: the length it records and five bytes more. *)
Definition CopyState (state : bytes) : res bytes :=
  size ← DecodeFixed32 state;
  if decide (size + 5 <= Z.of_nat (length state)) then Ret (take (Z.to_nat (size + 5)) state) else Undef.

Definition copy (s : t) : res t :=
  match s with None => Ret None | Some state => c ← CopyState state; Ret (Some c) end.

Definition type_text (c : Z) : bytes :=
  if c =? kOk then lit "OK"
  else if c =? kNotFound then lit "NotFound: "
  else if c =? kCorruption then lit "Corruption: "
  else if c =? kNotSupported then lit "Not implemented: "
  else if c =? kInvalidArgument then lit "Invalid argument: "
  else if c =? kIOError then lit "IO error: "
  else lit "Unknown code(" ++ sprintf_d c ++ lit "): ".

Definition ToString (s : t) : res bytes :=
  match s with
  | None => Ret (lit "OK")
  | Some state =>
      length ← DecodeFixed32 state;
      if decide (5 + length <= Z.of_nat (List.length state))
      then Ret (type_text (code s) ++ take (Z.to_nat length) (drop 5 state)) else Undef
  end.

(** The text after the type: the two parts of the message, joined. *)
Definition message (msg msg2 : bytes) : bytes :=
  msg ++ (if decide (msg2 = []) then [] else lit ": " ++ msg2).

Lemma make_eq c msg msg2 :
  Z.of_nat (length msg) + Z.of_nat (length msg2) + 2 < 2^32 ->
  make c msg msg2 = Some (EncodeFixed32 (Z.of_nat (length (message msg msg2))) ++ [zb c] ++ message msg msg2).
Proof.
  intros Hl. unfold make, message. rewrite !(u32_small (Z.of_nat _)) by lia. rewrite !Nat2Z.id, !firstn_all.
  case_decide as E.
  - subst. cbn [length]. change (Z.of_nat 0 =? 0) with true. cbn iota.
    rewrite Z.add_0_r, u32_small by lia. by rewrite app_nil_r.
  - assert (Z.of_nat (length msg2) <> 0) as Hn by (destruct msg2; cbn; [done|lia]).
    rewrite (proj2 (Z.eqb_neq _ _) Hn). rewrite u32_small by lia.
    do 3 f_equal. rewrite !length_app. change (length (lit ": ")) with 2%nat. lia.
Qed.

Lemma make_spec c msg msg2 :
  0 <= c < 256 -> Z.of_nat (length msg) + Z.of_nat (length msg2) + 2 < 2^32 ->
  ok (make c msg msg2) = false /\ code (make c msg msg2) = c
  /\ ToString (make c msg msg2) = Ret (type_text c ++ message msg msg2)
  /\ copy (make c msg msg2) = Ret (make c msg msg2).
Proof.
  intros Hc Hl. rewrite make_eq by done. set (m := message msg msg2).
  assert (Z.of_nat (length m) < 2^32) as Hm.
  { unfold m, message. case_decide; rewrite ?length_app;
      [cbn; lia|change (length (lit ": ")) with 2%nat; lia]. }
  assert (code (Some (EncodeFixed32 (Z.of_nat (length m)) ++ [zb c] ++ m)) = c) as Ec.
  { cbn. by apply bz_zb_small. }
  split; [done|]. split; [done|]. unfold ToString, copy, CopyState.
  rewrite Ec, DecodeFixed32_Encode by lia. cbn [mbind res_bind].
  rewrite !length_app, length_EncodeFixed32. cbn [length].
  rewrite !decide_True by lia. cbn [mbind res_bind]. split.
  - by rewrite (drop_app_ge _ _ 5), Nat2Z.id by (cbn; lia); cbn; rewrite firstn_all.
  - rewrite firstn_all2; [done|]. rewrite !length_app, length_EncodeFixed32. cbn. lia.
Qed.

End Status.
