(* ===== verification/Filename.v ===== *)
(** * Filename: util/logging.cc and db/filename.cc

    Numbers as text and the names of the files of a database, with the parser
    that recognises them.  [SetCurrentFile], which writes through the
    environment, is in Env.v. *)

From S2P Require Import Prelude CLib Coding.

(** ** util/logging.cc *)

Definition AppendNumberTo (str : bytes) (num : Z) : bytes := str ++ decimal num.
Definition NumberToString (num : Z) : bytes := AppendNumberTo [] num.

(** A digit of ["%02x"]. *)
Definition hex_digit (z : Z) : byte := if z <? 10 then zb (48 + z) else zb (87 + z).

Definition escape_char (c : byte) : bytes :=
  if (32 <=? bz c) && (bz c <=? 126) then [c]
  else lit "\x" ++ [hex_digit (bz c / 16); hex_digit (bz c mod 16)].

Fixpoint AppendEscapedStringTo (str value : bytes) : bytes :=
  match value with
  | [] => str
  | c :: value => AppendEscapedStringTo (str ++ escape_char c) value
  end.
Definition EscapeString (value : bytes) : bytes := AppendEscapedStringTo [] value.

(** [ConsumeChar(in, c)]: the result and what is left of the input. *)
Definition ConsumeChar (input : bytes) (c : byte) : bool * bytes :=
  match input with
  | x :: rest => if decide (x = c) then (true, rest) else (false, input)
  | [] => (false, input)
  end.

Definition kMaxUint64 : Z := 2^64 - 1.

(** The loop of [ConsumeDecimalNumber]; [None] is the overflow. *)
Fixpoint consume_loop (input : bytes) (v digits : Z) : option (Z * Z) * bytes :=
  match input with
  | [] => (Some (v, digits), [])
  | c :: rest =>
      if (48 <=? bz c) && (bz c <=? 57) then
        let delta := bz c - 48 in
        if (kMaxUint64 / 10 <? v) || ((v =? kMaxUint64 / 10) && (kMaxUint64 mod 10 <? delta))
        then (None, input)
        else consume_loop rest (u64 (u64 (v * 10) + delta)) (digits + 1)
      else (Some (v, digits), input)
  end.

(** [ConsumeDecimalNumber]: the value stored ([None]: left as it was), the
    result and what is left of the input. *)
Definition ConsumeDecimalNumber (input : bytes) : option Z * bool * bytes :=
  match consume_loop input 0 0 with
  | (None, rest) => (None, false, rest)
  | (Some (v, digits), rest) => (Some v, 0 <? digits, rest)
  end.

(** ** db/filename.cc *)

(** ["%06llu"] *)
Definition pad6 (number : Z) : bytes :=
  let d := decimal number in replicate (6 - length d) (zb 48) ++ d.

(** [snprintf] keeps at most 99 bytes, and the names are never so long. *)
Definition MakeFileName (name : bytes) (number : Z) (suffix : bytes) : bytes :=
  name ++ take 99 (lit "/" ++ pad6 number ++ lit "." ++ suffix).

Definition LogFileName (name : bytes) (number : Z) : bytes := MakeFileName name number (lit "log").
Definition TableFileName (name : bytes) (number : Z) : bytes := MakeFileName name number (lit "ldb").
Definition SSTTableFileName (name : bytes) (number : Z) : bytes := MakeFileName name number (lit "sst").
Definition DescriptorFileName (dbname : bytes) (number : Z) : bytes :=
  dbname ++ take 99 (lit "/MANIFEST-" ++ pad6 number).
Definition CurrentFileName (dbname : bytes) : bytes := dbname ++ lit "/CURRENT".
Definition LockFileName (dbname : bytes) : bytes := dbname ++ lit "/LOCK".
Definition TempFileName (dbname : bytes) (number : Z) : bytes := MakeFileName dbname number (lit "dbtmp").
Definition InfoLogFileName (dbname : bytes) : bytes := dbname ++ lit "/LOG".
Definition OldInfoLogFileName (dbname : bytes) : bytes := dbname ++ lit "/LOG.old".

Inductive FileType :=
  | kLogFile | kDBLockFile | kTableFile | kDescriptorFile | kCurrentFile | kTempFile | kInfoLogFile.

#[export] Instance FileType_eq_dec : EqDecision FileType.
Proof. solve_decision. Defined.

(** [ParseFileName]: the number and the type, or false. *)
Definition ParseFileName (fname : bytes) : option (Z * FileType) :=
  let rest := fname in
  if Slice.equal rest (lit "CURRENT") then Some (0, kCurrentFile)
  else if Slice.equal rest (lit "LOCK") then Some (0, kDBLockFile)
  else if Slice.equal rest (lit "LOG") || Slice.equal rest (lit "LOG.old") then Some (0, kInfoLogFile)
  else if Slice.starts_with rest (lit "MANIFEST-") then
    let rest := drop (length (lit "MANIFEST-")) rest in
    match ConsumeDecimalNumber rest with
    | (Some num, true, []) => Some (num, kDescriptorFile)
    | _ => None
    end
  else
    match ConsumeDecimalNumber rest with
    | (Some num, true, suffix) =>
        if Slice.equal suffix (lit ".log") then Some (num, kLogFile)
        else if Slice.equal suffix (lit ".sst") || Slice.equal suffix (lit ".ldb")
        then Some (num, kTableFile)
        else if Slice.equal suffix (lit ".dbtmp") then Some (num, kTempFile)
        else None
    | _ => None
    end.

(** ** Lemmas *)

Definition no_digit_head (l : bytes) : Prop :=
  match l with [] => True | c :: _ => is_digit c = false end.

Lemma digits_ge l : Forall (fun c => is_digit c = true) l -> forall v, 0 <= v -> v <= digits v l.
Proof.
  induction 1 as [|c l Hc _ IH]; intros v Hv; cbn; [lia|]. rewrite Hc.
  assert (48 <= bz c <= 57) by (unfold is_digit in Hc; lia).
  etrans; [|apply IH; lia]. lia.
Qed.

(** The loop on a run of digits: the exact value, or the overflow. *)
Lemma consume_loop_spec l rest v d :
  Forall (fun c => is_digit c = true) l -> no_digit_head rest -> 0 <= v <= kMaxUint64 ->
  if decide (digits v l <= kMaxUint64)
  then consume_loop (l ++ rest) v d = (Some (digits v l, d + Z.of_nat (length l)), rest)
  else (consume_loop (l ++ rest) v d).1 = None.
Proof.
  intros Hl Hrest. revert v d. induction Hl as [|c l Hc Hl IH]; intros v d Hv.
  - cbn [digits app length]. rewrite decide_True by lia.
    destruct rest as [|c rest]; cbn; [by rewrite Z.add_0_r|].
    cbn in Hrest. unfold is_digit in Hrest. cbn zeta in Hrest. rewrite Hrest. by rewrite Z.add_0_r.
  - cbn [app consume_loop digits]. unfold is_digit in Hc |- *. cbn zeta in *. rewrite Hc.
    assert (48 <= bz c <= 57) as Hd by lia. fold (is_digit c) in *.
    assert (0 <= 10 * v + (bz c - 48)) as H0 by lia.
    pose proof (digits_ge l Hl _ H0) as Hge.
    destruct (_ || _) eqn:Eo.
    + rewrite decide_False; [done|]. intros Hle.
      assert (10 * v + (bz c - 48) <= kMaxUint64) as Hle' by lia. unfold kMaxUint64 in *.
      apply orb_true_iff in Eo as [?%Z.ltb_lt|[?%Z.eqb_eq ?%Z.ltb_lt]%andb_true_iff];
        Z.to_euclidean_division_equations; lia.
    + assert (10 * v + (bz c - 48) <= kMaxUint64) as Hle.
      { apply orb_false_iff in Eo as [?%Z.ltb_ge Eo]. unfold kMaxUint64 in *.
        apply andb_false_iff in Eo as [?%Z.eqb_neq|?%Z.ltb_ge];
          Z.to_euclidean_division_equations; lia. }
      unfold kMaxUint64 in *. rewrite (u64_small (v * 10)), (u64_small (v * 10 + _)) by lia.
      replace (v * 10 + (bz c - 48)) with (10 * v + (bz c - 48)) by lia.
      specialize (IH (10 * v + (bz c - 48)) (d + 1) ltac:(lia)). cbn [length].
      case_decide; [|done]. rewrite IH. do 3 f_equal. lia.
Qed.

Lemma digits_zeros n l : digits 0 (replicate n (zb 48) ++ l) = digits 0 l.
Proof. induction n as [|n IH]; [done|]. cbn. done. Qed.

(** A padded number is consumed whole. *)
Lemma consume_number k n rest :
  0 <= n <= kMaxUint64 -> no_digit_head rest ->
  ConsumeDecimalNumber ((replicate k (zb 48) ++ decimal n) ++ rest) = (Some n, true, rest).
Proof.
  intros Hn Hrest. unfold kMaxUint64 in *.
  destruct (decimal_spec n ltac:(lia)) as (Hd & Hl & Hne & _).
  assert (Forall (fun c => is_digit c = true) (replicate k (zb 48) ++ decimal n)) as HF.
  { apply Forall_app. split; [by apply Forall_replicate|done]. }
  pose proof (consume_loop_spec _ rest 0 0 HF Hrest ltac:(unfold kMaxUint64; lia)) as H.
  rewrite digits_zeros, digits_decimal in H by lia. unfold kMaxUint64 in H.
  rewrite decide_True in H by lia. unfold ConsumeDecimalNumber. rewrite H.
  f_equal. f_equal. apply Z.ltb_lt. rewrite length_app.
  destruct (decimal n); [done|]. cbn [length]. lia.
Qed.

(** A name that starts with a digit is none of the fixed names. *)
Lemma ParseFileName_number l suffix :
  l <> [] -> Forall (fun c => is_digit c = true) l ->
  ParseFileName (l ++ suffix) =
    match ConsumeDecimalNumber (l ++ suffix) with
    | (Some num, true, suffix) =>
        if Slice.equal suffix (lit ".log") then Some (num, kLogFile)
        else if Slice.equal suffix (lit ".sst") || Slice.equal suffix (lit ".ldb")
        then Some (num, kTableFile)
        else if Slice.equal suffix (lit ".dbtmp") then Some (num, kTempFile)
        else None
    | _ => None
    end.
Proof.
  intros Hne Hl. destruct l as [|c l]; [done|]. inversion_clear Hl as [|? ? Hc _].
  unfold ParseFileName. rewrite !Slice.equal_spec.
  assert (forall s, option_map is_digit (head s) = Some false ->
    bool_decide ((c :: l) ++ suffix = s) = false) as H.
  { intros [|x s] Hx; [done|]. apply bool_decide_false. intros [= -> _]. cbn in Hx. congruence. }
  rewrite !H by reflexivity. cbn [orb].
  destruct (Slice.starts_with _ (lit "MANIFEST-")) eqn:E; [|done].
  apply Slice.starts_with_spec in E as [k E]. cbn in E. injection E as -> _. done.
Qed.

Lemma pad6_digits n : 0 <= n <= kMaxUint64 ->
  pad6 n <> [] /\ Forall (fun c => is_digit c = true) (pad6 n) /\ (length (pad6 n) <= 26)%nat.
Proof.
  unfold kMaxUint64. intros Hn. destruct (decimal_spec n ltac:(lia)) as (Hd & Hl & Hne & _).
  unfold pad6. split; [by intros [_ ?]%app_nil|]. split.
  - apply Forall_app. split; [by apply Forall_replicate|done].
  - rewrite length_app, length_replicate. lia.
Qed.

Lemma MakeFileName_eq name n suffix : 0 <= n <= kMaxUint64 -> (length suffix <= 5)%nat ->
  MakeFileName name n suffix = name ++ lit "/" ++ pad6 n ++ lit "." ++ suffix.
Proof.
  intros Hn Hs. unfold MakeFileName. rewrite take_ge; [done|].
  destruct (pad6_digits n Hn) as (_ & _ & Hl). revert Hl. generalize (pad6 n). intros l Hl.
  rewrite !length_app. cbn. lia.
Qed.

Lemma parse_numbered n suffix : 0 <= n <= kMaxUint64 ->
  ParseFileName (pad6 n ++ lit "." ++ suffix) =
    if Slice.equal (lit "." ++ suffix) (lit ".log") then Some (n, kLogFile)
    else if Slice.equal (lit "." ++ suffix) (lit ".sst") || Slice.equal (lit "." ++ suffix) (lit ".ldb")
    then Some (n, kTableFile)
    else if Slice.equal (lit "." ++ suffix) (lit ".dbtmp") then Some (n, kTempFile) else None.
Proof.
  intros Hn. destruct (pad6_digits n Hn) as (Hne & Hd & _).
  rewrite ParseFileName_number by done. unfold pad6.
  by rewrite (consume_number _ n (lit "." ++ suffix)).
Qed.

Lemma parse_manifest n : 0 <= n <= kMaxUint64 ->
  ParseFileName (lit "MANIFEST-" ++ pad6 n) = Some (n, kDescriptorFile).
Proof.
  intros Hn. unfold ParseFileName. rewrite !Slice.equal_spec.
  assert (forall s, ~ lit "MANIFEST-" `prefix_of` s ->
    bool_decide (lit "MANIFEST-" ++ pad6 n = s) = false) as H.
  { intros s Hs. apply bool_decide_false. intros <-. apply Hs. by eexists. }
  rewrite !H by (intros [k E]; by destruct k). cbn [orb].
  rewrite (proj2 (Slice.starts_with_spec _ _)) by (by eexists).
  rewrite drop_app_length. unfold pad6. rewrite <- (app_nil_r (_ ++ decimal n)).
  by rewrite consume_number.
Qed.

(** ** Properties *)

(** Every file name the database makes parses back to its number and type,
    once the directory is cut off. *)
Theorem ParseFileName_made dbname n : 0 <= n <= kMaxUint64 ->
  let base (f : bytes) := drop (length dbname + 1) f in
  ParseFileName (base (LogFileName dbname n)) = Some (n, kLogFile)
  /\ ParseFileName (base (TableFileName dbname n)) = Some (n, kTableFile)
  /\ ParseFileName (base (SSTTableFileName dbname n)) = Some (n, kTableFile)
  /\ ParseFileName (base (TempFileName dbname n)) = Some (n, kTempFile)
  /\ ParseFileName (base (DescriptorFileName dbname n)) = Some (n, kDescriptorFile)
  /\ ParseFileName (base (CurrentFileName dbname)) = Some (0, kCurrentFile)
  /\ ParseFileName (base (LockFileName dbname)) = Some (0, kDBLockFile)
  /\ ParseFileName (base (InfoLogFileName dbname)) = Some (0, kInfoLogFile)
  /\ ParseFileName (base (OldInfoLogFileName dbname)) = Some (0, kInfoLogFile).
Proof.
  intros Hn base. destruct (pad6_digits n Hn) as (_ & _ & Hl).
  assert (forall r, base (dbname ++ lit "/" ++ r) = r) as Hb.
  { intros r. unfold base. by rewrite <- drop_drop, drop_app_length. }
  unfold LogFileName, TableFileName, SSTTableFileName, TempFileName.
  rewrite !MakeFileName_eq by (done || (cbn; lia)). rewrite !Hb.
  do 4 (split; [by rewrite (parse_numbered n)|]). split.
  - unfold DescriptorFileName. rewrite take_ge.
    + change (lit "/MANIFEST-" ++ pad6 n) with (lit "/" ++ lit "MANIFEST-" ++ pad6 n).
      rewrite Hb. by apply parse_manifest.
    + revert Hl. generalize (pad6 n). intros l Hl. rewrite length_app. cbn. lia.
  - unfold CurrentFileName, LockFileName, InfoLogFileName, OldInfoLogFileName.
    change (lit "/CURRENT") with (lit "/" ++ lit "CURRENT"). change (lit "/LOCK") with (lit "/" ++ lit "LOCK").
    change (lit "/LOG") with (lit "/" ++ lit "LOG"). change (lit "/LOG.old") with (lit "/" ++ lit "LOG.old").
    rewrite !Hb. by vm_compute.
Qed.

Lemma ParseFileName_made_witness :
  ParseFileName (drop 3 (DescriptorFileName (lit "db") 5)) = Some (5, kDescriptorFile).
Proof.
  destruct (ParseFileName_made (lit "db") 5 ltac:(unfold kMaxUint64; lia)) as (_ & _ & _ & _ & H & _).
  exact H.
Defined.

(** [ConsumeDecimalNumber] consumes a maximal run of digits and stores its
    exact value, or refuses it when the value does not fit 64 bits. *)
Theorem ConsumeDecimalNumber_exact l rest :
  l <> [] -> Forall (fun c => is_digit c = true) l -> no_digit_head rest ->
  if decide (digits 0 l <= kMaxUint64)
  then ConsumeDecimalNumber (l ++ rest) = (Some (digits 0 l), true, rest)
  else (ConsumeDecimalNumber (l ++ rest)).1 = (None, false).
Proof.
  intros Hne Hl Hrest. unfold ConsumeDecimalNumber.
  pose proof (consume_loop_spec l rest 0 0 Hl Hrest ltac:(unfold kMaxUint64; lia)) as H.
  case_decide.
  - rewrite H. do 2 f_equal. apply Z.ltb_lt. destruct l; [done|]. cbn [length]. lia.
  - destruct (consume_loop (l ++ rest) 0 0) as [[[v d]|] r]; cbn in *; done.
Qed.

Lemma ConsumeDecimalNumber_exact_witness :
  (ConsumeDecimalNumber (lit "18446744073709551616.log")).1 = (None, false)
  /\ ConsumeDecimalNumber (lit "18446744073709551615.log") = (Some 18446744073709551615, true, lit ".log").
Proof.
  split.
  - apply (ConsumeDecimalNumber_exact (lit "18446744073709551616") (lit ".log"));
      [discriminate|repeat constructor|reflexivity].
  - apply (ConsumeDecimalNumber_exact (lit "18446744073709551615") (lit ".log"));
      [discriminate|repeat constructor|reflexivity].
Defined.
