(* ===== verification/Log.v ===== *)
(** * Log: db/log_format.h, db/log_writer.cc and db/log_reader.cc

    A log is a sequence of 32 KiB blocks.  A record is written as one or more
    physical records, each with a header of checksum, length and type; a block
    with less than a header left ends in zeros. *)

From S2P Require Import Prelude CLib Coding Crc32c Status.

(** ** The files (include/leveldb/env.h) *)

Class WritableFile (F : Type) := {
  file_append : bytes -> F -> Status.t * F;
  file_flush : F -> Status.t * F;
}.

(** [Read(n, result, scratch)] and [Skip(n)]. *)
Class SequentialFile (F : Type) := {
  file_read : nat -> F -> Status.t * bytes * F;
  file_skip : Z -> F -> Status.t * F;
}.

(** ** db/log_format.h *)

Definition kZeroType : Z := 0.
Definition kFullType : Z := 1.
Definition kFirstType : Z := 2.
Definition kMiddleType : Z := 3.
Definition kLastType : Z := 4.
Definition kMaxRecordType : Z := kLastType.
Definition kBlockSize : Z := 32768.
Definition kHeaderSize : Z := 4 + 1 + 2.

(** The address at which data lies, on which the checksum does not depend. *)
Class Address := address : bytes -> Z.

Definition crc_value `{Address} (p : bytes) : res Z := Value (address p) p.
Definition crc_extend `{Address} (crc : Z) (p : bytes) : res Z := Extend (address p) crc p.

(** ** Writer *)

Record Writer (F : Type) := mkWriter {
  dest_ : F;
  block_offset_ : Z;
  type_crc_ : list Z;
}.
Arguments mkWriter {F}.
Arguments dest_ {F}.
Arguments block_offset_ {F}.
Arguments type_crc_ {F}.

Section writer.
Context `{Address} {F : Type} `{WritableFile F}.

Fixpoint type_crcs (n : nat) (i : Z) : res (list Z) :=
  match n with
  | O => Ret []
  | S n => c ← crc_value [zb i]; l ← type_crcs n (i + 1); Ret (c :: l)
  end.

Definition new_Writer (dest : F) : res (Writer F) :=
  l ← type_crcs (Z.to_nat (kMaxRecordType + 1)) 0;
  Ret (mkWriter dest 0 l).

Definition EmitPhysicalRecord (w : Writer F) (t : Z) (ptr : bytes) (n : nat) : res (Status.t * Writer F) :=
  let payload := take n ptr in
  let n := Z.of_nat n in
  type_crc ← of_option (type_crc_ w !! Z.to_nat t);
  crc ← crc_extend type_crc payload;
  let buf := EncodeFixed32 (Mask crc) ++ [zb (Z.land n 255); zb (Z.shiftr n 8); zb t] in
  let '(s, dest) := file_append buf (dest_ w) in
  let '(s, dest) :=
    if Status.ok s then
      let '(s, dest) := file_append payload dest in
      if Status.ok s then file_flush dest else (s, dest)
    else (s, dest) in
  Ret (s, mkWriter dest (block_offset_ w + (kHeaderSize + n)) (type_crc_ w)).

(** The [do] loop of [AddRecord] on what is left of the record. *)
Fixpoint add_record_loop (fuel : nat) (w : Writer F) (ptr : bytes) (begin : bool)
    : res (Status.t * Writer F) :=
  match fuel with
  | O => NoFuel
  | S fuel =>
      let leftover := kBlockSize - block_offset_ w in
      let w :=
        if decide (leftover < kHeaderSize) then
          let dest :=
            if decide (leftover > 0)
            then (file_append (replicate (Z.to_nat leftover) NUL) (dest_ w)).2 else dest_ w in
          mkWriter dest 0 (type_crc_ w)
        else w in
      let avail := Z.to_nat (kBlockSize - block_offset_ w - kHeaderSize) in
      let left := length ptr in
      let fragment_length := if decide (left < avail)%nat then left else avail in
      let last := bool_decide (left = fragment_length) in
      let type :=
        if begin && last then kFullType
        else if begin then kFirstType
        else if last then kLastType
        else kMiddleType in
      '(s, w) ← EmitPhysicalRecord w type ptr fragment_length;
      let ptr := drop fragment_length ptr in
      if Status.ok s && bool_decide (0 < length ptr)%nat then add_record_loop fuel w ptr false
      else Ret (s, w)
  end.

(** Two rounds a block, at most: the length of the record and two are enough. *)
Definition AddRecord (w : Writer F) (slice : bytes) : res (Status.t * Writer F) :=
  add_record_loop (2 + length slice) w slice true.
End writer.

(** ** Reader *)

Definition kEof : Z := kMaxRecordType + 1.
Definition kBadRecord : Z := kMaxRecordType + 2.

(** [reports_] is what the reporter was told, latest first. *)
Record Reader (F : Type) := mkReader {
  file_ : F;
  checksum_ : bool;
  buffer_ : bytes;
  eof_ : bool;
  last_record_offset_ : Z;
  end_of_buffer_offset_ : Z;
  initial_offset_ : Z;
  reports_ : list (Z * Status.t);
}.
Arguments mkReader {F}.
Arguments file_ {F}.
Arguments checksum_ {F}.
Arguments buffer_ {F}.
Arguments eof_ {F}.
Arguments last_record_offset_ {F}.
Arguments end_of_buffer_offset_ {F}.
Arguments initial_offset_ {F}.
Arguments reports_ {F}.

Section reader.
Context `{Address} {F : Type} `{SequentialFile F}.

Definition new_Reader (file : F) (checksum : bool) (initial_offset : Z) : Reader F :=
  mkReader file checksum [] false 0 0 initial_offset [].

Definition set_buffer (r : Reader F) (b : bytes) : Reader F :=
  mkReader (file_ r) (checksum_ r) b (eof_ r) (last_record_offset_ r) (end_of_buffer_offset_ r)
    (initial_offset_ r) (reports_ r).
Definition set_last (r : Reader F) (o : Z) : Reader F :=
  mkReader (file_ r) (checksum_ r) (buffer_ r) (eof_ r) o (end_of_buffer_offset_ r)
    (initial_offset_ r) (reports_ r).

Definition ReportDrop (r : Reader F) (bytes : Z) (reason : Status.t) : Reader F :=
  if decide (u64 (end_of_buffer_offset_ r - Z.of_nat (length (buffer_ r)) - bytes) >= initial_offset_ r)
  then mkReader (file_ r) (checksum_ r) (buffer_ r) (eof_ r) (last_record_offset_ r)
    (end_of_buffer_offset_ r) (initial_offset_ r) ((bytes, reason) :: reports_ r)
  else r.

Definition ReportCorruption (r : Reader F) (nbytes : Z) (reason : bytes) : Reader F :=
  ReportDrop r nbytes (Status.Corruption reason []).

Definition SkipToInitialBlock (r : Reader F) : bool * Reader F :=
  let offset_in_block := initial_offset_ r mod kBlockSize in
  let block_start_location := initial_offset_ r - offset_in_block in
  let block_start_location :=
    if decide (offset_in_block > kBlockSize - 6) then u64 (block_start_location + kBlockSize)
    else block_start_location in
  let r := mkReader (file_ r) (checksum_ r) (buffer_ r) (eof_ r) (last_record_offset_ r)
    block_start_location (initial_offset_ r) (reports_ r) in
  if decide (block_start_location > 0) then
    let '(s, file) := file_skip block_start_location (file_ r) in
    let r := mkReader file (checksum_ r) (buffer_ r) (eof_ r) (last_record_offset_ r)
      block_start_location (initial_offset_ r) (reports_ r) in
    if Status.ok s then (true, r) else (false, ReportDrop r block_start_location s)
  else (true, r).

(** The read of the next block into the empty buffer. *)
Definition read_block (r : Reader F) : Status.t * Reader F :=
  let '(s, b, file) := file_read (Z.to_nat kBlockSize) (file_ r) in
  (s, mkReader file (checksum_ r) b (eof_ r) (last_record_offset_ r)
     (u64 (end_of_buffer_offset_ r + Z.of_nat (length b))) (initial_offset_ r) (reports_ r)).

Definition set_eof (r : Reader F) : Reader F :=
  mkReader (file_ r) (checksum_ r) (buffer_ r) true (last_record_offset_ r) (end_of_buffer_offset_ r)
    (initial_offset_ r) (reports_ r).

(** What follows the check of the buffer's size: one physical record. *)
Definition parse_physical (r : Reader F) (result : bytes) : res (Z * bytes * Reader F) :=
  let header := buffer_ r in
  b4 ← of_option (header !! 4%nat);
  b5 ← of_option (header !! 5%nat);
  b6 ← of_option (header !! 6%nat);
  let a := Z.land (u32 (schar b4)) 255 in
  let b := Z.land (u32 (schar b5)) 255 in
  let type := u32 (schar b6) in
  let len := Z.lor a (Z.shiftl b 8) in
  let drop_size := Z.of_nat (length (buffer_ r)) in
  if decide (kHeaderSize + len > drop_size) then
    Ret (kBadRecord, result, ReportCorruption (set_buffer r []) drop_size (lit "bad record length"))
  else if decide (type = kZeroType /\ len = 0) then Ret (kBadRecord, result, set_buffer r [])
  else
    good ←
      (if checksum_ r then
         stored ← DecodeFixed32 header;
         actual ← crc_value (take (Z.to_nat (1 + len)) (drop 6 header));
         Ret (bool_decide (actual = Unmask stored))
       else Ret true);
    if negb good then
      Ret (kBadRecord, result, ReportCorruption (set_buffer r []) drop_size (lit "checksum mismatch"))
    else
      let r := set_buffer r (drop (Z.to_nat (kHeaderSize + len)) (buffer_ r)) in
      if decide (u64 (end_of_buffer_offset_ r - Z.of_nat (length (buffer_ r)) - kHeaderSize - len)
                 < initial_offset_ r)
      then Ret (kBadRecord, [], r)
      else Ret (type, take (Z.to_nat len) (drop (Z.to_nat kHeaderSize) header), r).

(** The [while] loop of [ReadPhysicalRecord]; a second read ends it, so three
    rounds are enough. *)
Fixpoint read_physical_loop (fuel : nat) (r : Reader F) (result : bytes) : res (Z * bytes * Reader F) :=
  match fuel with
  | O => NoFuel
  | S fuel =>
      if decide (Z.of_nat (length (buffer_ r)) < kHeaderSize) then
        if negb (eof_ r) then
          let '(s, r) := read_block (set_buffer r []) in
          if Status.ok s then
            let r := if decide (Z.of_nat (length (buffer_ r)) < kBlockSize) then set_eof r else r in
            read_physical_loop fuel r result
          else Ret (kEof, result, set_eof (ReportDrop (set_buffer r []) kBlockSize s))
        else if decide (length (buffer_ r) = 0%nat) then Ret (kEof, result, r)
        else
          let drop_size := Z.of_nat (length (buffer_ r)) in
          Ret (kEof, result, ReportCorruption (set_buffer r []) drop_size (lit "truncated record at end of file"))
      else parse_physical r result
  end.
Definition ReadPhysicalRecord (r : Reader F) (result : bytes) : res (Z * bytes * Reader F) :=
  read_physical_loop 3 r result.

(** The loop of [ReadRecord]: [Some record] for true, [None] for false. *)
Fixpoint read_record_loop (fuel : nat) (r : Reader F) (fragment scratch : bytes)
    (in_fragmented_record : bool) (prospective : Z) : res (option bytes * Reader F) :=
  match fuel with
  | O => NoFuel
  | S fuel =>
      let physical := u64 (end_of_buffer_offset_ r - Z.of_nat (length (buffer_ r))) in
      let scratch_size := Z.of_nat (length scratch) in
      '(type, fragment, r) ← ReadPhysicalRecord r fragment;
      if decide (type = kFullType) then
        let r := if in_fragmented_record && negb (bool_decide (scratch = []))
                 then ReportCorruption r scratch_size (lit "partial record without end(1)") else r in
        Ret (Some fragment, set_last r physical)
      else if decide (type = kFirstType) then
        let r := if in_fragmented_record && negb (bool_decide (scratch = []))
                 then ReportCorruption r scratch_size (lit "partial record without end(2)") else r in
        read_record_loop fuel r fragment fragment true physical
      else if decide (type = kMiddleType) then
        if negb in_fragmented_record then
          read_record_loop fuel
            (ReportCorruption r (Z.of_nat (length fragment)) (lit "missing start of fragmented record(1)"))
            fragment scratch in_fragmented_record prospective
        else read_record_loop fuel r fragment (scratch ++ fragment) in_fragmented_record prospective
      else if decide (type = kLastType) then
        if negb in_fragmented_record then
          read_record_loop fuel
            (ReportCorruption r (Z.of_nat (length fragment)) (lit "missing start of fragmented record(2)"))
            fragment scratch in_fragmented_record prospective
        else Ret (Some (scratch ++ fragment), set_last r prospective)
      else if decide (type = kEof) then
        Ret (None, if in_fragmented_record
                   then ReportCorruption r scratch_size (lit "partial record without end(3)") else r)
      else if decide (type = kBadRecord) then
        if in_fragmented_record then
          read_record_loop fuel (ReportCorruption r scratch_size (lit "error in middle of record"))
            fragment [] false prospective
        else read_record_loop fuel r fragment scratch in_fragmented_record prospective
      else
        read_record_loop fuel
          (ReportCorruption r
             (Z.of_nat (length fragment) + (if in_fragmented_record then scratch_size else 0))
             (lit "unknown record type " ++ decimal type))
          fragment [] false prospective
  end.

Definition ReadRecord (fuel : nat) (r : Reader F) : res (option bytes * Reader F) :=
  let '(go, r) := if decide (last_record_offset_ r < initial_offset_ r) then SkipToInitialBlock r else (true, r) in
  if go : bool then read_record_loop fuel r [] [] false 0 else Ret (None, r).

Definition LastRecordOffset (r : Reader F) : Z := last_record_offset_ r.
End reader.

(** ** Files in memory *)

#[export] Instance string_writable : WritableFile bytes := {
  file_append d f := (Status.OK, f ++ d);
  file_flush f := (Status.OK, f);
}.
#[export] Instance string_sequential : SequentialFile bytes := {
  file_read n f := (Status.OK, take n f, drop n f);
  file_skip n f := (Status.OK, drop (Z.to_nat n) f);
}.

(** ** The layout of a log *)

(** A physical record: type and data. *)
Definition physical (t : Z) (d : bytes) : bytes :=
  EncodeFixed32 (Mask (crc32c 0 (zb t :: d)))
    ++ [zb (Z.land (Z.of_nat (length d)) 255); zb (Z.shiftr (Z.of_nat (length d)) 8); zb t] ++ d.

Definition zlen (d : bytes) : Z := Z.of_nat (length d).

(** [stream bo prs raw bo']: from offset [bo] of a block, the bytes [raw] are
    the physical records [prs], and end at offset [bo']. *)
Inductive stream : Z -> list (Z * bytes) -> bytes -> Z -> Prop :=
  | stream_nil bo : stream bo [] [] bo
  | stream_rec bo t d prs raw bo' :
      0 <= bo -> bo + 7 + zlen d <= kBlockSize -> 1 <= t <= 4 ->
      stream (bo + 7 + zlen d) prs raw bo' ->
      stream bo ((t, d) :: prs) (physical t d ++ raw) bo'
  | stream_pad bo p prs raw bo' :
      kBlockSize - 7 < bo <= kBlockSize -> stream 0 (p :: prs) raw bo' ->
      stream bo (p :: prs) (replicate (Z.to_nat (kBlockSize - bo)) NUL ++ raw) bo'.

Lemma stream_app b1 p1 r1 b2 p2 r2 b3 :
  stream b1 p1 r1 b2 -> stream b2 p2 r2 b3 -> stream b1 (p1 ++ p2) (r1 ++ r2) b3.
Proof.
  intros H1 H2. induction H1; cbn; [done|..]; rewrite <- app_assoc; by constructor; auto.
Qed.

(** How a record is cut into physical records. *)
Inductive continues : bytes -> list (Z * bytes) -> Prop :=
  | cont_last d : continues d [(kLastType, d)]
  | cont_middle d1 d2 prs : continues d2 prs -> continues (d1 ++ d2) ((kMiddleType, d1) :: prs).
Inductive fragments : bytes -> list (Z * bytes) -> Prop :=
  | frag_full d : fragments d [(kFullType, d)]
  | frag_first d1 d2 prs : continues d2 prs -> fragments (d1 ++ d2) ((kFirstType, d1) :: prs).

(** The cut of a record or of the rest of one. *)
Definition cut (begin : bool) : bytes -> list (Z * bytes) -> Prop :=
  if begin then fragments else continues.

(** ** The writer produces such a layout *)

Definition good_crcs (l : list Z) : Prop :=
  forall t, 1 <= t <= 4 -> l !! Z.to_nat t = Some (crc32c 0 [zb t]).

Section writer_proofs.
Context `{Address}.

Lemma crc_value_eq p : crc_value p = Ret (crc32c 0 p).
Proof. unfold crc_value, Value. by apply Extend_spec. Qed.

Lemma new_Writer_spec (dest : bytes) :
  exists l, new_Writer dest = Ret (mkWriter dest 0 l) /\ good_crcs l.
Proof.
  unfold new_Writer. change (Z.to_nat (kMaxRecordType + 1)) with 5%nat. cbn [type_crcs].
  rewrite !crc_value_eq. cbn [mbind res_bind]. eexists. split; [done|].
  intros t Ht. assert (t = 1 \/ t = 2 \/ t = 3 \/ t = 4) as [->|[->|[->| ->]]] by lia; done.
Qed.

Lemma EmitPhysicalRecord_spec (w : Writer bytes) t ptr n :
  good_crcs (type_crc_ w) -> 1 <= t <= 4 -> (n <= length ptr)%nat ->
  EmitPhysicalRecord w t ptr n
  = Ret (Status.OK, mkWriter (dest_ w ++ physical t (take n ptr))
           (block_offset_ w + 7 + Z.of_nat n) (type_crc_ w)).
Proof.
  intros Hc Ht Hn. unfold EmitPhysicalRecord. rewrite (Hc t Ht). cbn [of_option mbind res_bind].
  unfold crc_extend. rewrite Extend_spec by (by apply crc32c_range). cbn [mbind res_bind].
  rewrite crc32c_app. cbn [app file_append file_flush string_writable Status.ok Status.OK].
  unfold physical. rewrite length_take, Nat.min_l by done.
  do 3 f_equal; [by rewrite <- !app_assoc|]. unfold kHeaderSize. lia.
Qed.

(** The offset when a fragment starts, and the trailer before it. *)
Definition start_offset (bo : Z) : Z := if decide (kBlockSize - bo < kHeaderSize) then 0 else bo.
Definition trailer (bo : Z) : bytes :=
  if decide (kBlockSize - bo < kHeaderSize) then replicate (Z.to_nat (kBlockSize - bo)) NUL else [].

Lemma stream_start bo p prs raw bo' : 0 <= bo <= kBlockSize ->
  stream (start_offset bo) (p :: prs) raw bo' -> stream bo (p :: prs) (trailer bo ++ raw) bo'.
Proof.
  unfold start_offset, trailer, kHeaderSize. intros Hbo. case_decide; [|done]. intros Hs.
  constructor; [lia|done].
Qed.

Definition fragment_type (begin last : bool) : Z :=
  if begin && last then kFullType
  else if begin then kFirstType else if last then kLastType else kMiddleType.

Lemma cut_last begin d : cut begin d [(fragment_type begin true, d)].
Proof. destruct begin; constructor. Qed.
Lemma cut_more begin d1 d2 prs :
  cut false d2 prs -> cut begin (d1 ++ d2) ((fragment_type begin false, d1) :: prs).
Proof. destruct begin; constructor; done. Qed.
Lemma fragment_type_range begin last : 1 <= fragment_type begin last <= 4.
Proof. destruct begin, last; split; vm_compute; discriminate. Qed.

(** One round of the loop. *)
Lemma add_record_round fuel (w : Writer bytes) ptr begin :
  good_crcs (type_crc_ w) -> 0 <= block_offset_ w <= kBlockSize ->
  let bo := start_offset (block_offset_ w) in
  let avail := Z.to_nat (kBlockSize - bo - kHeaderSize) in
  let n := Nat.min (length ptr) avail in
  let last := bool_decide (length ptr = n) in
  add_record_loop (S fuel) w ptr begin
  = let w' := mkWriter (dest_ w ++ trailer (block_offset_ w)
                ++ physical (fragment_type begin last) (take n ptr)) (bo + 7 + Z.of_nat n) (type_crc_ w) in
    if bool_decide (0 < length (drop n ptr))%nat then add_record_loop fuel w' (drop n ptr) false
    else Ret (Status.OK, w').
Proof.
  intros Hc Hbo bo avail n last. cbn [add_record_loop].
  set (w1 := if decide (kBlockSize - block_offset_ w < kHeaderSize) then _ else w).
  assert (w1 = mkWriter (dest_ w ++ trailer (block_offset_ w)) bo (type_crc_ w)) as ->.
  { unfold w1, bo, start_offset, trailer. case_decide; [|rewrite app_nil_r; by destruct w].
    case_decide as Hl; cbn; [done|].
    replace (Z.to_nat (kBlockSize - block_offset_ w)) with 0%nat by lia. cbn. by rewrite app_nil_r. }
  cbn [block_offset_ dest_ type_crc_]. fold avail.
  assert ((if decide (length ptr < avail)%nat then length ptr else avail) = n) as ->
    by (unfold n; case_decide; lia).
  fold last. fold (fragment_type begin last).
  rewrite EmitPhysicalRecord_spec by (done || apply fragment_type_range || (unfold n; lia)).
  cbn [mbind res_bind Status.ok Status.OK andb dest_ block_offset_ type_crc_].
  by rewrite <- app_assoc.
Qed.

(** Rounds needed: one a byte at most, and one that only ends a block. *)
Definition rounds (bo : Z) (ptr : bytes) : nat :=
  length ptr + 1 + (if decide (start_offset bo = kBlockSize - kHeaderSize) then 1 else 0).

Lemma start_offset_range bo : 0 <= bo <= kBlockSize -> 0 <= start_offset bo <= kBlockSize - kHeaderSize.
Proof. unfold start_offset, kHeaderSize, kBlockSize. intros. case_decide; lia. Qed.

Lemma add_record_loop_spec fuel (w : Writer bytes) ptr begin :
  good_crcs (type_crc_ w) -> 0 <= block_offset_ w <= kBlockSize ->
  (rounds (block_offset_ w) ptr <= fuel)%nat ->
  exists raw prs bo', add_record_loop fuel w ptr begin
      = Ret (Status.OK, mkWriter (dest_ w ++ raw) bo' (type_crc_ w))
    /\ 0 <= bo' <= kBlockSize /\ stream (block_offset_ w) prs raw bo' /\ cut begin ptr prs.
Proof.
  revert w ptr begin. induction fuel as [|fuel IH]; intros w ptr begin Hc Hbo Hf; [unfold rounds in Hf; lia|].
  rewrite add_record_round by done. cbn zeta.
  pose proof (start_offset_range _ Hbo) as Hbo1. unfold rounds in Hf.
  set (bo := start_offset (block_offset_ w)) in *.
  set (avail := Z.to_nat (kBlockSize - bo - kHeaderSize)). set (n := Nat.min (length ptr) avail).
  assert (Hn : zlen (take n ptr) = Z.of_nat n) by (unfold zlen; rewrite length_take; lia).
  assert (0 <= bo + 7 + Z.of_nat n <= kBlockSize) as Hbn by (unfold n, avail, kHeaderSize in *; lia).
  case_bool_decide as Hmore.
  - rewrite length_drop in Hmore. rewrite (bool_decide_false (length ptr = n)) by lia.
    assert (n = avail) as En by lia.
    assert (bo + 7 + Z.of_nat n = kBlockSize) as Efull by (unfold n, avail, kHeaderSize in *; lia).
    destruct (IH (mkWriter (dest_ w ++ trailer (block_offset_ w)
        ++ physical (fragment_type begin false) (take n ptr)) (bo + 7 + Z.of_nat n) (type_crc_ w))
      (drop n ptr) false) as (raw & prs & bo' & -> & Hbo' & Hs & Hcut); [done|done| |].
    { cbn [block_offset_]. unfold rounds. rewrite length_drop, Efull.
      change (start_offset kBlockSize) with 0. rewrite (decide_False (P:=0 = _)) by done.
      unfold avail, kHeaderSize in *. case_decide; lia. }
    eexists (trailer (block_offset_ w) ++ physical (fragment_type begin false) (take n ptr) ++ raw),
      ((fragment_type begin false, take n ptr) :: prs), bo'. cbn [dest_ type_crc_ block_offset_] in *.
    split; [by rewrite <- !app_assoc|]. split; [done|]. split.
    + apply stream_start; [done|]. apply stream_rec; rewrite ?Hn; try done; [lia|lia|apply fragment_type_range].
    + rewrite <- (take_drop n ptr) at 1. by apply cut_more.
  - rewrite length_drop in Hmore. assert (n = length ptr) as En by (unfold n in *; lia).
    rewrite (bool_decide_true (length ptr = n)) by done.
    rewrite (take_ge ptr) in * by lia.
    eexists (trailer (block_offset_ w) ++ physical (fragment_type begin true) ptr),
      [(fragment_type begin true, ptr)], _.
    split; [done|]. split; [done|]. split; [|apply cut_last].
    apply stream_start; [done|]. rewrite <- (app_nil_r (physical _ _)).
    apply stream_rec; rewrite ?Hn; [lia|lia|apply fragment_type_range|constructor].
Qed.

Lemma AddRecord_spec (w : Writer bytes) d :
  good_crcs (type_crc_ w) -> 0 <= block_offset_ w <= kBlockSize ->
  exists raw prs bo', AddRecord w d = Ret (Status.OK, mkWriter (dest_ w ++ raw) bo' (type_crc_ w))
    /\ 0 <= bo' <= kBlockSize /\ stream (block_offset_ w) prs raw bo' /\ fragments d prs.
Proof.
  intros Hc Hbo. apply (add_record_loop_spec _ w d true); [done|done|].
  unfold rounds. case_decide; lia.
Qed.
End writer_proofs.

(** ** The reader on such a layout *)

Section reader_proofs.
Context `{Address}.

(** The reader is at offset [bo] of a block, with [rest] of the file to come. *)
Record reader_at (r : Reader bytes) (bo : Z) (rest : bytes) : Prop := {
  at_bo : 0 <= bo <= kBlockSize;
  at_buffer : buffer_ r = take (Z.to_nat (kBlockSize - bo)) rest;
  at_file : file_ r = drop (Z.to_nat (kBlockSize - bo)) rest;
  at_eof : eof_ r = bool_decide (bo + zlen rest < kBlockSize);
  at_initial : initial_offset_ r = 0;
}.

Lemma new_Reader_at f checksum : reader_at (new_Reader f checksum 0) kBlockSize f.
Proof.
  split; cbn; [unfold kBlockSize; lia|done|done| |done].
  symmetry. apply bool_decide_false. unfold zlen. lia.
Qed.

Lemma byte_land b : Z.land (u32 (schar b)) 255 = bz b.
Proof.
  unfold schar. rewrite land_255. pose proof (bz_range b). unfold u32.
  destruct (Z.ltb_spec (bz b) 128).
  - rewrite (Z.mod_small (bz b)), Z.mod_small by lia. done.
  - replace (bz b - 256) with (bz b + (2^24 - 1) * 256 + (-1) * 2^32) by lia.
    rewrite Z.mod_add, (Z.mod_small _ (2^32)) by lia. rewrite Z.mod_add, Z.mod_small by lia. done.
Qed.

Lemma schar_small t : 0 <= t < 128 -> schar (zb t) = t.
Proof. intros Ht. unfold schar. rewrite bz_zb_small by lia. by rewrite (proj2 (Z.ltb_lt _ _)) by lia. Qed.

(** The length field of a header. *)
Lemma length_field n : 0 <= n < 65536 ->
  Z.lor (bz (zb (Z.land n 255))) (Z.shiftl (bz (zb (Z.shiftr n 8))) 8) = n.
Proof.
  intros Hn. rewrite !bz_zb, land_255, Z.shiftr_div_pow2, Zmod_mod by lia. change (2^8) with 256.
  rewrite (Z.mod_small (n / 256)) by (split; [apply Z.div_pos; lia|apply Z.div_lt_upper_bound; lia]).
  rewrite lor_shiftl_add by (try apply Z.mod_pos_bound; lia). pose proof (Z.div_mod n 256). lia.
Qed.

Lemma length_physical t d : zlen (physical t d) = 7 + zlen d.
Proof. unfold zlen, physical. rewrite !length_app. cbn [length]. rewrite length_EncodeFixed32. lia. Qed.

Lemma physical_header t d tl :
  (physical t d ++ tl) !! 4%nat = Some (zb (Z.land (zlen d) 255))
  /\ (physical t d ++ tl) !! 5%nat = Some (zb (Z.shiftr (zlen d) 8))
  /\ (physical t d ++ tl) !! 6%nat = Some (zb t).
Proof. done. Qed.

Lemma parse_physical_spec r bo t d rest res0 :
  reader_at r bo (physical t d ++ rest) -> bo + 7 + zlen d <= kBlockSize -> 1 <= t <= 4 ->
  exists r', parse_physical r res0 = Ret (t, d, r') /\ reader_at r' (bo + 7 + zlen d) rest
    /\ reports_ r' = reports_ r.
Proof.
  intros [Hbo Hbuf Hfile Heof Hini] Hfit Ht.
  pose proof (length_physical t d) as Hlp. unfold zlen in *.
  assert (buffer_ r = physical t d ++ take (Z.to_nat (kBlockSize - (bo + 7 + zlen d))) rest) as Hb.
  { rewrite Hbuf, take_app_ge by lia. do 2 f_equal. unfold zlen. lia. }
  assert (0 <= Z.of_nat (length d) < 65536) as Hld by (unfold kBlockSize in *; lia).
  unfold parse_physical. rewrite Hb. set (tl := take _ rest).
  destruct (physical_header t d tl) as (-> & -> & ->). cbn [of_option mbind res_bind].
  unfold zlen in *. rewrite !byte_land, length_field by done.
  rewrite schar_small, u32_small by lia.
  rewrite decide_False; [|rewrite length_app; unfold kHeaderSize; lia].
  rewrite decide_False by (unfold kZeroType; lia).
  set (good := if checksum_ r then _ else _).
  assert (good = Ret true) as ->.
  { unfold good. destruct (checksum_ r); [|done]. unfold physical. rewrite <- app_assoc.
    pose proof (crc32c_range 0 (zb t :: d) ltac:(lia)) as Hcr.
    destruct (Unmask_Mask _ Hcr) as [Hm1 Hm2].
    rewrite DecodeFixed32_Encode by done. cbn [mbind res_bind].
    cbn [EncodeFixed32 app drop].
    replace (Z.to_nat (1 + Z.of_nat (length d))) with (length (zb t :: d)) by (cbn [length]; lia).
    change (zb t :: d ++ tl) with ((zb t :: d) ++ tl). rewrite take_app_length.
    rewrite crc_value_eq. cbn [mbind res_bind]. by rewrite bool_decide_true by done. }
  cbn [mbind res_bind negb].
  replace (Z.to_nat (kHeaderSize + Z.of_nat (length d))) with (length (physical t d))
    by (unfold kHeaderSize; lia).
  rewrite drop_app_length. cbn [initial_offset_ set_buffer]. rewrite Hini.
  rewrite decide_False by (pose proof (u64_range (end_of_buffer_offset_ r - Z.of_nat (length tl)
    - kHeaderSize - Z.of_nat (length d))); cbn; lia).
  eexists. split.
  - change (drop (Z.to_nat kHeaderSize) (physical t d ++ tl)) with (d ++ tl).
    by rewrite Nat2Z.id, take_app_length.
  - split; [|done]. split; cbn; [lia|done| | |done].
    + rewrite Hfile, drop_app_ge by lia. f_equal. lia.
    + rewrite Heof, length_app. apply bool_decide_ext. unfold zlen. lia.
Qed.

Lemma read_physical_rec fuel r bo t d rest res0 :
  reader_at r bo (physical t d ++ rest) -> bo + 7 + zlen d <= kBlockSize -> 1 <= t <= 4 ->
  exists r', read_physical_loop (S fuel) r res0 = Ret (t, d, r') /\ reader_at r' (bo + 7 + zlen d) rest
    /\ reports_ r' = reports_ r.
Proof.
  intros Hat Hfit Ht. cbn [read_physical_loop]. rewrite decide_False.
  - by apply parse_physical_spec.
  - pose proof (length_physical t d) as Hlp. destruct Hat as [Hbo -> _ _ _]. unfold zlen in *.
    rewrite length_take, length_app. unfold kHeaderSize. lia.
Qed.

(** Past a trailer (or a full block) the reader takes the next block. *)
Lemma read_next_block fuel r bo rest res0 :
  kBlockSize - 7 < bo <= kBlockSize ->
  reader_at r bo (replicate (Z.to_nat (kBlockSize - bo)) NUL ++ rest) ->
  exists r', read_physical_loop (S fuel) r res0 = read_physical_loop fuel r' res0
    /\ reader_at r' 0 rest /\ reports_ r' = reports_ r.
Proof.
  intros Hbo [_ Hbuf Hfile Heof Hini]. cbn [read_physical_loop].
  rewrite take_app_length' in Hbuf by (by rewrite length_replicate).
  rewrite drop_app_length' in Hfile by (by rewrite length_replicate).
  rewrite decide_True by (rewrite Hbuf, length_replicate; unfold kHeaderSize; lia).
  rewrite Heof, bool_decide_false by (unfold zlen; rewrite length_app, length_replicate; lia).
  cbn [negb]. unfold read_block. cbn [file_read string_sequential file_ set_buffer Status.ok Status.OK].
  rewrite Hfile. eexists. split; [done|].
  assert (forall r', file_ r' = drop (Z.to_nat kBlockSize) rest -> buffer_ r' = take (Z.to_nat kBlockSize) rest ->
    eof_ r' = bool_decide (zlen rest < kBlockSize) -> initial_offset_ r' = 0 -> reader_at r' 0 rest) as Hmk.
  { intros r' H1 H2 H3 H4. split; [unfold kBlockSize; lia| | | |done]; rewrite ?Z.sub_0_r; done. }
  cbn [buffer_]. rewrite length_take. unfold zlen in *.
  destruct (decide (Z.of_nat (Nat.min (Z.to_nat kBlockSize) (length rest)) < kBlockSize)) as [Hs|Hs].
  - split; [|done]. apply Hmk; try done. cbn. symmetry. apply bool_decide_true. unfold kBlockSize in *. lia.
  - split; [|done]. apply Hmk; try done. cbn. rewrite Heof. rewrite !bool_decide_false; [done|lia|].
    rewrite length_app, length_replicate. lia.
Qed.

(** One physical record of a stream. *)
Lemma ReadPhysicalRecord_stream r bo t d prs raw bo' tail res0 :
  stream bo ((t, d) :: prs) raw bo' -> reader_at r bo (raw ++ tail) ->
  exists r' bo1 raw1, ReadPhysicalRecord r res0 = Ret (t, d, r') /\ reports_ r' = reports_ r
    /\ stream bo1 prs raw1 bo' /\ reader_at r' bo1 (raw1 ++ tail).
Proof.
  intros Hs Hat. unfold ReadPhysicalRecord.
  inversion Hs as [|? ? ? ? raw0 ? Hbo Hfit Ht Hs1|? ? ? raw0 ? Hbo Hs1]; subst; clear Hs.
  - rewrite <- app_assoc in Hat.
    destruct (read_physical_rec 2 _ _ _ _ _ res0 Hat Hfit Ht) as (r' & -> & Hat' & Hr).
    by exists r', (bo + 7 + zlen d), raw0.
  - rewrite <- app_assoc in Hat.
    destruct (read_next_block 2 _ _ _ res0 Hbo Hat) as (r1 & -> & Hat1 & Hr1).
    inversion Hs1 as [|? ? ? ? raw1 ? Hbo1 Hfit Ht Hs2|? ? ? ? ? Hbo1 _]; subst;
      [|unfold kBlockSize in *; lia].
    rewrite <- app_assoc in Hat1.
    destruct (read_physical_rec 1 _ _ _ _ _ res0 Hat1 Hfit Ht) as (r' & -> & Hat' & Hr).
    exists r', (0 + 7 + zlen d), raw1. split; [done|]. by rewrite Hr, Hr1.
Qed.

Lemma ReadPhysicalRecord_end r bo res0 :
  reader_at r bo [] -> exists r', ReadPhysicalRecord r res0 = Ret (kEof, res0, r') /\ reports_ r' = reports_ r.
Proof.
  intros Hat. unfold ReadPhysicalRecord.
  assert (forall fuel r bo, reader_at r bo [] -> bo < kBlockSize ->
    read_physical_loop (S fuel) r res0 = Ret (kEof, res0, r)) as Heof.
  { clear r bo Hat. intros fuel r bo [Hbo Hbuf _ He _] Hlt. cbn [read_physical_loop]. rewrite take_nil in Hbuf.
    rewrite Hbuf, decide_True by (unfold kHeaderSize; cbn; lia).
    rewrite He, bool_decide_true by (unfold zlen; cbn; lia). cbn [negb]. by rewrite decide_True. }
  destruct (decide (bo < kBlockSize)) as [Hlt|Hge].
  - exists r. split; [|done]. by apply (Heof 2%nat r bo).
  - assert (bo = kBlockSize) as -> by (destruct Hat; lia).
    destruct (read_next_block 2 r kBlockSize [] res0) as (r1 & -> & Hat1 & Hr1);
      [lia|by rewrite Z.sub_diag|].
    exists r1. split; [|done]. apply (Heof 1%nat r1 0); [done|unfold kBlockSize; lia].
Qed.

(** The rest of a fragmented record. *)
Lemma read_continues d prs : continues d prs ->
  forall fuel r bo ps raw bo' tail frag scratch prospective,
  stream bo (prs ++ ps) raw bo' -> reader_at r bo (raw ++ tail) -> (length prs <= fuel)%nat ->
  exists r' bo1 raw1, read_record_loop fuel r frag scratch true prospective = Ret (Some (scratch ++ d), r')
    /\ last_record_offset_ r' = prospective /\ reports_ r' = reports_ r /\ stream bo1 ps raw1 bo' /\ reader_at r' bo1 (raw1 ++ tail).
Proof.
  induction 1 as [d|d1 d2 prs Hc IH]; intros fuel r bo ps raw bo' tail frag scratch prospective Hs Hat Hf;
    (destruct fuel as [|fuel]; [cbn in Hf; lia|]); cbn [app] in Hs; cbn [read_record_loop];
    destruct (ReadPhysicalRecord_stream r bo _ _ _ raw bo' tail frag Hs Hat)
      as (r1 & bo1 & raw1 & -> & Hr1 & Hs1 & Hat1); cbn [mbind res_bind].
  - rewrite !decide_False, decide_True by done. cbn [negb].
    exists (set_last r1 prospective), bo1, raw1. do 4 (split; [done|]).
    by destruct Hat1; split.
  - rewrite !decide_False, decide_True by done. cbn [negb].
    destruct (IH fuel r1 bo1 ps raw1 bo' tail d1 (scratch ++ d1) prospective Hs1 Hat1)
      as (r' & bo2 & raw2 & -> & Hl' & Hr' & Hs' & Hat'); [cbn in Hf; lia|].
    exists r', bo2, raw2. rewrite <- app_assoc, Hr'. done.
Qed.

Lemma ReadRecord_fragments d prs fuel r bo ps raw bo' tail :
  fragments d prs -> stream bo (prs ++ ps) raw bo' -> reader_at r bo (raw ++ tail) ->
  (length prs <= fuel)%nat -> 0 <= last_record_offset_ r ->
  exists r' bo1 raw1, ReadRecord fuel r = Ret (Some d, r')
    /\ 0 <= last_record_offset_ r' /\ reports_ r' = reports_ r /\ stream bo1 ps raw1 bo' /\ reader_at r' bo1 (raw1 ++ tail).
Proof.
  intros Hfr Hs Hat Hf Hlast. unfold ReadRecord. rewrite (at_initial _ _ _ Hat).
  rewrite decide_False by lia.
  destruct Hfr as [d|d1 d2 prs Hc]; (destruct fuel as [|fuel]; [cbn in Hf; lia|]); cbn [app] in Hs;
    cbn [read_record_loop];
    destruct (ReadPhysicalRecord_stream r bo _ _ _ raw bo' tail [] Hs Hat)
      as (r1 & bo1 & raw1 & -> & Hr1 & Hs1 & Hat1); cbn [mbind res_bind].
  - rewrite decide_True by done. cbn [andb].
    eexists _, bo1, raw1. split; [done|]. split; [apply u64_range|]. do 2 (split; [done|]).
    by destruct Hat1; split.
  - rewrite decide_False, decide_True by done. cbn [andb].
    destruct (read_continues d2 prs Hc fuel r1 bo1 ps raw1 bo' tail d1 d1
      (u64 (end_of_buffer_offset_ r - Z.of_nat (length (buffer_ r)))) Hs1 Hat1)
      as (r' & bo2 & raw2 & -> & Hl' & Hr' & Hs' & Hat'); [cbn in Hf; lia|].
    exists r', bo2, raw2. rewrite Hl', Hr'. split; [done|]. split; [apply u64_range|done].
Qed.
End reader_proofs.

(** ** Writing and reading a whole log *)

Section whole.
Context `{Address}.

Fixpoint write_all (w : Writer bytes) (records : list bytes) : res (Writer bytes) :=
  match records with
  | [] => Ret w
  | d :: records => '(s, w) ← AddRecord w d; write_all w records
  end.

(** Read until [ReadRecord] returns false. *)
Fixpoint read_all (n fuel : nat) (r : Reader bytes) : res (list bytes * Reader bytes) :=
  match n with
  | O => NoFuel
  | S n =>
      '(o, r) ← ReadRecord fuel r;
      match o with
      | None => Ret ([], r)
      | Some d => '(l, r) ← read_all n fuel r; Ret (d :: l, r)
      end
  end.

Lemma write_all_spec records (w : Writer bytes) :
  good_crcs (type_crc_ w) -> 0 <= block_offset_ w <= kBlockSize ->
  exists raw prss bo', write_all w records = Ret (mkWriter (dest_ w ++ raw) bo' (type_crc_ w))
    /\ stream (block_offset_ w) (concat prss) raw bo' /\ Forall2 fragments records prss.
Proof.
  revert w. induction records as [|d records IH]; intros w Hc Hbo; cbn [write_all].
  - exists [], [], (block_offset_ w). rewrite app_nil_r. destruct w. cbn.
    split; [done|]. split; constructor.
  - destruct (AddRecord_spec w d Hc Hbo) as (raw & prs & bo1 & -> & Hbo1 & Hs & Hfr). cbn [mbind res_bind].
    destruct (IH (mkWriter (dest_ w ++ raw) bo1 (type_crc_ w)) Hc Hbo1)
      as (raw2 & prss & bo' & -> & Hs2 & HF). cbn [dest_ block_offset_ type_crc_] in *.
    exists (raw ++ raw2), (prs :: prss), bo'. rewrite <- app_assoc. split; [done|].
    split; [by apply (stream_app _ _ _ bo1)|by constructor].
Qed.

Lemma stream_from_start prs raw bo' : stream 0 prs raw bo' -> exists bo'', stream kBlockSize prs raw bo''.
Proof.
  intros Hs. destruct prs as [|p prs].
  - exists kBlockSize. inversion Hs; subst. constructor.
  - exists bo'. change raw with (replicate (Z.to_nat (kBlockSize - kBlockSize)) NUL ++ raw).
    constructor; [lia|done].
Qed.

Lemma stream_length bo prs raw bo' : stream bo prs raw bo' -> (length prs <= length raw)%nat.
Proof.
  induction 1; cbn [length] in *; [lia| |]; rewrite length_app; [|lia].
  pose proof (length_physical t d) as Hl. unfold zlen in Hl. lia.
Qed.

Lemma read_all_spec records prss fuel (r : Reader bytes) bo raw bo' :
  Forall2 fragments records prss -> stream bo (concat prss) raw bo' -> reader_at r bo raw ->
  (length (concat prss) < fuel)%nat -> 0 <= last_record_offset_ r ->
  exists r', read_all (S (length records)) fuel r = Ret (records, r') /\ reports_ r' = reports_ r.
Proof.
  intros HF. revert r bo raw. induction HF as [|d prs records prss Hfr HF IH];
    intros r bo raw Hs Hat Hfuel Hlast; cbn [concat] in Hs.
  - inversion Hs; subst. cbn [read_all length]. unfold ReadRecord. rewrite (at_initial _ _ _ Hat).
    rewrite decide_False by lia. destruct fuel as [|fuel]; [lia|]. cbn [read_record_loop].
    destruct (ReadPhysicalRecord_end r bo' [] Hat) as (r' & -> & Hr'). cbn [mbind res_bind].
    rewrite !decide_False, decide_True by done. by exists r'.
  - cbn [concat] in Hfuel. rewrite length_app in Hfuel.
    destruct (ReadRecord_fragments d prs fuel r bo (concat prss) raw bo' [] Hfr Hs)
      as (r1 & bo1 & raw1 & E & Hl1 & Hr1 & Hs1 & Hat1); [by rewrite app_nil_r|lia|done|].
    rewrite app_nil_r in Hat1.
    destruct (IH r1 bo1 raw1 Hs1 Hat1 ltac:(lia) Hl1) as (r' & E' & Hr').
    exists r'. cbn [length]. change (read_all (S (S (length records))) fuel r) with
      ('(o, r) ← ReadRecord fuel r;
       match o with
       | None => Ret ([], r)
       | Some d => '(l, r) ← read_all (S (length records)) fuel r; Ret (d :: l, r)
       end).
    rewrite E. cbn [mbind res_bind]. rewrite E'. cbn [mbind res_bind]. by rewrite Hr'.
Qed.
End whole.

(** ** Logs in files that behave as strings *)

Section any_file.
Context `{Address} {F : Type} (R : F -> bytes -> Prop).

Section writing.
Context `{!WritableFile F}.
Context (Happend : forall f c d, R f c -> exists f', file_append d f = (Status.OK, f') /\ R f' (c ++ d)).
Context (Hflush : forall f c, R f c -> exists f', file_flush f = (Status.OK, f') /\ R f' c).

Definition same_writer (v : Writer F) (w : Writer bytes) : Prop :=
  R (dest_ v) (dest_ w) /\ block_offset_ v = block_offset_ w /\ type_crc_ v = type_crc_ w.

Lemma EmitPhysicalRecord_any v w t ptr n s w' : same_writer v w -> EmitPhysicalRecord w t ptr n = Ret (s, w') ->
  exists v', EmitPhysicalRecord v t ptr n = Ret (s, v') /\ same_writer v' w'.
Proof.
  intros (Hd & Hb & Ht) E. unfold EmitPhysicalRecord in *. rewrite Ht. apply res_bind_Ret in E as (tc & -> & E).
  apply res_bind_Ret in E as (crc & Ecrc & E). cbn [mbind res_bind]. rewrite Ecrc. cbn [mbind res_bind].
  set (head := EncodeFixed32 _ ++ _) in *. destruct (Happend _ _ head Hd) as (f1 & -> & H1).
  cbn [Status.ok Status.OK] in *. destruct (Happend _ _ (take n ptr) H1) as (f2 & -> & H2). cbn [Status.ok Status.OK].
  destruct (Hflush _ _ H2) as (f3 & -> & H3).
  cbn [file_append file_flush string_writable Status.ok Status.OK] in E. injection E as <- <-.
  eexists. split; [done|]. split; [done|]. cbn [block_offset_ type_crc_]. by rewrite Hb.
Qed.

Lemma add_record_loop_any fuel : forall v w ptr begin s w', same_writer v w ->
  add_record_loop fuel w ptr begin = Ret (s, w') ->
  exists v', add_record_loop fuel v ptr begin = Ret (s, v') /\ same_writer v' w'.
Proof.
  induction fuel as [|fuel IH]; intros v w ptr begin s w' Hvw E; [done|]. cbn [add_record_loop] in *.
  set (w1 := if decide (kBlockSize - block_offset_ w < kHeaderSize) then _ else w) in *.
  set (v1 := if decide (kBlockSize - block_offset_ v < kHeaderSize) then _ else v) in *.
  assert (same_writer v1 w1) as Hvw1.
  { unfold v1, w1. destruct Hvw as (Hd & Hb & Ht). rewrite Hb. clear E.
    destruct (decide (kBlockSize - block_offset_ w < kHeaderSize)); [|by repeat split].
    split; [|by split]. cbn [dest_]. case_decide; [|done].
    by destruct (Happend _ _ (replicate (Z.to_nat (kBlockSize - block_offset_ w)) NUL) Hd) as (f1 & -> & H1). }
  clearbody v1 w1. pose proof Hvw1 as (_ & Hb & _). rewrite Hb in *.
  apply res_bind_Ret in E as ([s1 w2] & E1 & E).
  destruct (EmitPhysicalRecord_any _ _ _ _ _ _ _ Hvw1 E1) as (v2 & -> & Hvw2). cbn [mbind res_bind].
  match type of E with (if ?b then _ else _) = _ => destruct b end; [by eapply IH|]. injection E as <- <-. by exists v2.
Qed.

Lemma AddRecord_any v w d s w' : same_writer v w -> AddRecord w d = Ret (s, w') ->
  exists v', AddRecord v d = Ret (s, v') /\ same_writer v' w'.
Proof. apply add_record_loop_any. Qed.

Lemma new_Writer_any f c w : R f c -> new_Writer c = Ret w -> exists v, new_Writer f = Ret v /\ same_writer v w.
Proof.
  intros Hr E. unfold new_Writer in *. apply res_bind_Ret in E as (l & -> & E). cbn [mbind res_bind]. injection E as <-.
  eexists. split; [done|]. by split.
Qed.
End writing.

Section reading.
Context `{!SequentialFile F}.
Context (Hread : forall f c n, R f c -> exists f', file_read n f = (Status.OK, take n c, f') /\ R f' (drop n c)).

Definition same_reader (v : Reader F) (r : Reader bytes) : Prop :=
  R (file_ v) (file_ r) /\ checksum_ v = checksum_ r /\ buffer_ v = buffer_ r /\ eof_ v = eof_ r
  /\ last_record_offset_ v = last_record_offset_ r /\ end_of_buffer_offset_ v = end_of_buffer_offset_ r
  /\ initial_offset_ v = initial_offset_ r /\ reports_ v = reports_ r.

(** The two readers, field by field. *)
Ltac fields Hs := let v := fresh "v" in
  match type of Hs with same_reader ?v ?r =>
    destruct v, r; destruct Hs as (? & ? & ? & ? & ? & ? & ? & ?);
    cbn [file_ checksum_ buffer_ eof_ last_record_offset_ end_of_buffer_offset_ initial_offset_ reports_] in *; subst
  end.

Lemma ReportCorruption_any v r n reason : same_reader v r -> same_reader (ReportCorruption v n reason) (ReportCorruption r n reason).
Proof. intros Hs. fields Hs. unfold ReportCorruption, ReportDrop.
  cbn [file_ checksum_ buffer_ eof_ last_record_offset_ end_of_buffer_offset_ initial_offset_ reports_]. case_decide; by repeat split. Qed.

Lemma set_last_any v r o : same_reader v r -> same_reader (set_last v o) (set_last r o).
Proof. intros Hs. fields Hs. by repeat split. Qed.

Lemma set_eof_any v r : same_reader v r -> same_reader (set_eof v) (set_eof r).
Proof. intros Hs. fields Hs. by repeat split. Qed.

Lemma set_buffer_any v r b : same_reader v r -> same_reader (set_buffer v b) (set_buffer r b).
Proof. intros Hs. fields Hs. by repeat split. Qed.

Lemma read_block_any v r : same_reader v r -> exists v' r', read_block v = (Status.OK, v') /\ read_block r = (Status.OK, r') /\ same_reader v' r'.
Proof.
  intros (Hf & Hc & Hb & He & Hl & Hend & Hi & Hr). unfold read_block. cbn [file_read string_sequential].
  destruct (Hread _ _ (Z.to_nat kBlockSize) Hf) as (f & -> & Hf').
  generalize dependent (take (Z.to_nat kBlockSize) (file_ r)). generalize dependent (drop (Z.to_nat kBlockSize) (file_ r)).
  intros rest Hf' blk. do 2 eexists. split; [reflexivity|]. split; [reflexivity|].
  unfold same_reader. cbn [file_ checksum_ buffer_ eof_ last_record_offset_ end_of_buffer_offset_ initial_offset_ reports_].
  by rewrite Hc, He, Hl, Hend, Hi, Hr.
Qed.

Lemma parse_physical_any v r result t d r' : same_reader v r -> parse_physical r result = Ret (t, d, r') ->
  exists v', parse_physical v result = Ret (t, d, v') /\ same_reader v' r'.
Proof.
  intros Hs E. pose proof Hs as (_ & Hck & Hbu & _ & _ & Hend & Hini & _). unfold parse_physical in *. rewrite Hck, Hbu.
  apply res_bind_Ret in E as (b4 & -> & E). apply res_bind_Ret in E as (b5 & -> & E). apply res_bind_Ret in E as (b6 & -> & E).
  cbn [mbind res_bind]. case_decide.
  { injection E as <- <- <-. eexists. split; [done|]. by apply ReportCorruption_any, set_buffer_any. }
  case_decide; [injection E as <- <- <-; eexists; split; [done|]; by apply set_buffer_any|].
  apply res_bind_Ret in E as (good & Eg & E). rewrite Eg. cbn [mbind res_bind]. destruct (negb good).
  { injection E as <- <- <-. eexists. split; [done|]. by apply ReportCorruption_any, set_buffer_any. }
  set (b := drop (Z.to_nat (kHeaderSize + _)) (buffer_ r)) in *. change (end_of_buffer_offset_ (set_buffer v b)) with (end_of_buffer_offset_ v).
  change (buffer_ (set_buffer v b)) with (buffer_ (set_buffer r b)). change (initial_offset_ (set_buffer v b)) with (initial_offset_ v).
  rewrite Hend, Hini. change (initial_offset_ (set_buffer r b)) with (initial_offset_ r) in E.
  change (end_of_buffer_offset_ (set_buffer r b)) with (end_of_buffer_offset_ r) in E.
  case_decide; injection E as <- <- <-; (eexists; split; [done|]; by apply set_buffer_any).
Qed.

Lemma ReadPhysicalRecord_any v r result t d r' : same_reader v r -> ReadPhysicalRecord r result = Ret (t, d, r') ->
  exists v', ReadPhysicalRecord v result = Ret (t, d, v') /\ same_reader v' r'.
Proof.
  unfold ReadPhysicalRecord. generalize 3%nat. intros fuel. revert v r. induction fuel as [|fuel IH]; intros v r Hs E; [done|].
  cbn [read_physical_loop] in *. pose proof Hs as (_ & _ & Hbu & Heof & _). rewrite Hbu, Heof. case_decide; [|by eapply parse_physical_any].
  destruct (negb (eof_ r)).
  - destruct (read_block_any (set_buffer v []) (set_buffer r [])) as (v1 & r1 & Ev & Er & Hs1); [by apply set_buffer_any|].
    rewrite Er in E. rewrite Ev. cbn [Status.ok Status.OK] in *.
    pose proof Hs1 as (_ & _ & Hb1 & _). rewrite Hb1. eapply IH; [|exact E]. case_decide; [by apply set_eof_any|done].
  - case_decide; injection E as <- <- <-; (eexists; split; [done|]); [done|by apply ReportCorruption_any, set_buffer_any].
Qed.

Lemma read_record_loop_any fuel : forall v r fragment scratch inf prospective o r', same_reader v r ->
  read_record_loop fuel r fragment scratch inf prospective = Ret (o, r') ->
  exists v', read_record_loop fuel v fragment scratch inf prospective = Ret (o, v') /\ same_reader v' r'.
Proof.
  induction fuel as [|fuel IH]; intros v r fragment scratch inf prospective o r' Hs E; [done|]. cbn [read_record_loop] in *.
  pose proof Hs as (_ & _ & Hbu & _ & _ & Hend & _). rewrite Hbu, Hend.
  apply res_bind_Ret in E as ([[t d] r1] & E1 & E).
  destruct (ReadPhysicalRecord_any _ _ _ _ _ _ Hs E1) as (v1 & -> & Hs1). cbn [mbind res_bind].
  repeat case_decide.
  - injection E as <- <-. eexists. split; [done|]. apply set_last_any. destruct (_ && _); [by apply ReportCorruption_any|done].
  - eapply IH; [|exact E]. destruct (_ && _); [by apply ReportCorruption_any|done].
  - destruct (negb inf); (eapply IH; [|exact E]); [by apply ReportCorruption_any|done].
  - destruct (negb inf); [eapply IH; [|exact E]; by apply ReportCorruption_any|].
    injection E as <- <-. eexists. split; [done|]. by apply set_last_any.
  - injection E as <- <-. eexists. split; [done|]. destruct inf; [by apply ReportCorruption_any|done].
  - destruct inf; (eapply IH; [|exact E]); [by apply ReportCorruption_any|done].
  - eapply IH; [|exact E]. by apply ReportCorruption_any.
Qed.

(** From the start of the file, where there is nothing to skip. *)
Lemma ReadRecord_any fuel v r o r' : same_reader v r -> initial_offset_ r = 0 -> 0 <= last_record_offset_ r ->
  ReadRecord fuel r = Ret (o, r') -> exists v', ReadRecord fuel v = Ret (o, v') /\ same_reader v' r'.
Proof.
  intros Hs Hi Hl E. unfold ReadRecord in *. pose proof Hs as (_ & _ & _ & _ & Hlast & _ & Hini & _). rewrite Hlast, Hini.
  destruct (decide (last_record_offset_ r < initial_offset_ r)); [lia|]. by eapply read_record_loop_any.
Qed.

Lemma new_Reader_any f c checksum offset : R f c -> same_reader (new_Reader f checksum offset) (new_Reader c checksum offset).
Proof. intros Hr. by repeat split. Qed.
End reading.
End any_file.

(** ** Properties *)

(** C25: a log gives back what was written to it.  Whatever records a new writer
    adds to an empty file, a reader of that file (checking checksums or not)
    returns exactly these records, in order, then false, and reports nothing;
    the loops end within the fuel given. *)
Theorem log_roundtrip `{Address} records checksum :
  exists w w' r', new_Writer [] = Ret w /\ write_all w records = Ret w'
    /\ read_all (S (length records)) (S (length (dest_ w'))) (new_Reader (dest_ w') checksum 0)
       = Ret (records, r')
    /\ reports_ r' = [].
Proof.
  destruct (new_Writer_spec []) as (l & -> & Hc).
  destruct (write_all_spec records (mkWriter [] 0 l) Hc) as (raw & prss & bo' & E & Hs & HF);
    [split; vm_compute; discriminate|]. cbn [dest_ block_offset_ type_crc_ app] in *.
  pose proof (stream_length _ _ _ _ Hs).
  destruct (stream_from_start _ _ _ Hs) as [bo'' Hs'].
  destruct (read_all_spec records prss (S (length raw)) (new_Reader raw checksum 0) kBlockSize raw bo'' HF Hs')
    as (r' & E' & Hr'); [apply new_Reader_at|lia|done|].
  by exists (mkWriter [] 0 l), (mkWriter raw bo' l), r'.
Qed.

(** What a checked physical record [t], [d] at the start of [blk] has. *)
Definition checked (blk : bytes) (t : Z) (d rest : bytes) : Prop :=
  exists stored b, DecodeFixed32 blk = Ret stored /\ blk !! 6%nat = Some b /\ t = u32 (schar b)
    /\ crc32c 0 (b :: d) = Unmask stored /\ drop 7 blk = d ++ rest.

Lemma parse_physical_checked `{Address} {F : Type} (r : Reader F) res0 t d r' :
  checksum_ r = true -> parse_physical r res0 = Ret (t, d, r') -> t <> kBadRecord ->
  checked (buffer_ r) t d (buffer_ r').
Proof.
  intros Hck E Hbad. unfold parse_physical in E.
  apply res_bind_Ret in E as (b4 & _ & E). apply res_bind_Ret in E as (b5 & _ & E).
  apply res_bind_Ret in E as (b6 & E6 & E). unfold of_option in E6.
  destruct (buffer_ r !! 6%nat) as [b|] eqn:Eb; [injection E6 as ->|done].
  set (len := Z.lor _ _) in E. assert (0 <= len) as Hlen.
  { apply Z.lor_nonneg. rewrite !byte_land. split; [apply bz_range|].
    apply Z.shiftl_nonneg. apply bz_range. }
  case_decide as Hfit; [congruence|]. case_decide; [congruence|]. rewrite Hck in E.
  apply res_bind_Ret in E as (good & Eg & E). apply res_bind_Ret in Eg as (stored & Es & Eg).
  rewrite crc_value_eq in Eg. cbn [mbind res_bind] in Eg. injection Eg as <-.
  case_bool_decide as Hcrc; cbn [negb] in E; [|congruence]. case_decide; [congruence|].
  injection E as <- <- <-. cbn [buffer_ set_buffer].
  exists stored, b6. split; [done|]. split; [done|]. split; [done|].
  change (Z.to_nat kHeaderSize) with 7%nat.
  replace (Z.to_nat (kHeaderSize + len)) with (7 + Z.to_nat len)%nat by (unfold kHeaderSize; lia).
  rewrite <- drop_drop, take_drop. split; [|done]. rewrite <- Hcrc. f_equal.
  rewrite (drop_S _ _ _ Eb). replace (Z.to_nat (1 + len)) with (S (Z.to_nat len)) by lia. done.
Qed.

(** A reader that checks checksums hands out a physical record only when
    the checksum stored before it is the checksum of the type and the data it
    returns; the record lies in its buffer or in a block it has just read. *)
Theorem log_reader_checks `{Address} `{SequentialFile F} (r : Reader F) res0 t d r' :
  checksum_ r = true -> ReadPhysicalRecord r res0 = Ret (t, d, r') -> t <> kEof -> t <> kBadRecord ->
  exists blk, checked blk t d (buffer_ r')
    /\ (blk = buffer_ r \/ exists f s f', file_read (Z.to_nat kBlockSize) f = (s, blk, f')).
Proof.
  unfold ReadPhysicalRecord. generalize 3%nat. intros fuel. revert r.
  induction fuel as [|fuel IH]; intros r Hck E He Hb; [done|]. cbn [read_physical_loop] in E.
  case_decide; [|exists (buffer_ r); split; [by eapply parse_physical_checked|by left]].
  destruct (eof_ r); cbn [negb] in E; [case_decide; congruence|].
  unfold read_block in E. cbn [file_ set_buffer] in E.
  destruct (file_read (Z.to_nat kBlockSize) (file_ r)) as [[s blk] f'] eqn:Er.
  destruct (Status.ok s); [|congruence].
  apply IH in E as (blk' & Hblk & Hor); [|by case_decide|done|done].
  exists blk'. split; [done|]. destruct Hor as [->|Hor]; [right|by right].
  exists (file_ r), s, f'. rewrite Er. by case_decide.
Qed.

#[local] Instance zero_address : Address := fun _ => 0.

Lemma log_reader_checks_witness :
  exists blk rest, checked blk kFullType (lit "hello") rest.
Proof.
  assert (exists r', ReadPhysicalRecord (new_Reader (physical 1 (lit "hello")) true 0) []
    = Ret (kFullType, lit "hello", r')) as [r' E] by (eexists; vm_compute; reflexivity).
  destruct (log_reader_checks (new_Reader (physical 1 (lit "hello")) true 0) [] kFullType (lit "hello") r')
    as (blk & Hc & _); [reflexivity|exact E|discriminate|discriminate|].
  exists blk, (buffer_ r'). exact Hc.
Defined.
