(* ===== verification/Random.v ===== *)
(** * Random: util/random.h

    A multiplicative congruential generator modulo the prime [2^31 - 1]. *)

From S2P Require Import Prelude.

Definition M : Z := 2147483647.
Definition A : Z := 16807.

(** [Random(s)]: the state is [seed_]. *)
Definition new_Random (s : Z) : Z :=
  let seed := Z.land s 0x7fffffff in
  if decide (seed = 0 \/ seed = 2147483647) then 1 else seed.

(** [Next]: the new state, which is also the result. *)
Definition Next (seed : Z) : Z :=
  let product := u64 (seed * A) in
  let seed := u32 (Z.shiftr product 31 + Z.land product M) in
  if decide (seed > M) then u32 (seed - M) else seed.

(** [Uniform(n)], [OneIn(n)] and [Skewed(max_log)]: the result and the state.
    The [int] argument is converted to the unsigned type of the result. *)
Definition Uniform (seed n : Z) : res (Z * Z) :=
  let x := Next seed in
  if decide (u32 n = 0) then Undef else Ret (x mod u32 n, x).

Definition OneIn (seed n : Z) : res (bool * Z) :=
  let x := Next seed in
  if decide (u32 n = 0) then Undef else Ret (bool_decide (x mod u32 n = 0), x).

Definition Skewed (seed max_log : Z) : res (Z * Z) :=
  '(k, seed) ← Uniform seed (max_log + 1);
  if decide (31 <= k) then Undef else Uniform seed (Z.shiftl 1 k).

(** The states a generator can have. *)
Definition good_seed (s : Z) : Prop := 0 < s < M.

Lemma new_Random_good s : good_seed (new_Random s).
Proof.
  unfold new_Random, good_seed, M. change (Z.land s 0x7fffffff) with (Z.land s (Z.ones 31)).
  rewrite Z.land_ones by lia.
  pose proof (Z.mod_pos_bound s (2^31) ltac:(lia)). case_decide; lia.
Qed.

(** The shift-and-mask reduction is the remainder. *)
Lemma Next_mod s : good_seed s -> Next s = (s * A) mod M.
Proof.
  unfold good_seed, Next, M, A. intros Hs. rewrite (u64_small (s * 16807)) by lia.
  set (p := s * 16807). change 2147483647 with (Z.ones 31). rewrite Z.land_ones, Z.shiftr_div_pow2 by lia.
  change (Z.ones 31) with (2^31 - 1).
  pose proof (Z.mod_pos_bound p (2^31) ltac:(lia)) as Hr.
  pose proof (Z.div_mod p (2^31) ltac:(lia)) as Ep.
  assert (0 <= p / 2^31 < 16807) as Hq.
  { split; [apply Z.div_pos; lia|apply Z.div_lt_upper_bound; lia]. }
  set (q := p / 2^31) in *. set (r := p mod 2^31) in *.
  rewrite (u32_small (q + r)) by lia.
  assert ((q + r) mod (2^31 - 1) = p mod (2^31 - 1)) as E.
  { rewrite Ep. replace (2^31 * q + r) with (q + r + q * (2^31 - 1)) by lia.
    by rewrite Z.mod_add by lia. }
  rewrite <- E. case_decide as Hgt.
  - rewrite u32_small by lia. apply (Z.mod_unique _ _ 1); lia.
  - destruct (decide (q + r = 2^31 - 1)) as [Heq|]; [|by rewrite Z.mod_small by lia].
    exfalso. rewrite Heq, Z.mod_same in E by lia. symmetry in E.
    apply Z.mod_divide in E; [|lia]. unfold p in E.
    assert (Z.gcd (2^31 - 1) 16807 = 1) as Hg by reflexivity.
    rewrite Z.mul_comm in E. apply Z.gauss in E; [|done].
    apply Z.divide_pos_le in E; lia.
Qed.

Lemma Next_good s : good_seed s -> good_seed (Next s).
Proof.
  intros Hs. rewrite Next_mod by done. unfold good_seed, M, A in *.
  pose proof (Z.mod_pos_bound (s * 16807) 2147483647 ltac:(lia)) as Hm.
  destruct (decide ((s * 16807) mod 2147483647 = 0)) as [E|]; [|lia].
  apply Z.mod_divide in E; [|lia]. rewrite Z.mul_comm in E.
  apply Z.gauss in E; [|reflexivity]. apply Z.divide_pos_le in E; lia.
Qed.

(** ** The generator is the one it claims to be *)

(** From any seed the generator stays between 1 and [M - 1], and its
    shift-and-add step is exactly multiplication by [A] modulo [M]. *)
Theorem random_next_exact s n :
  let seed := Nat.iter n Next (new_Random s) in
  0 < seed < M /\ Next seed = (seed * A) mod M.
Proof.
  cbn zeta. assert (good_seed (Nat.iter n Next (new_Random s))) as H.
  { induction n as [|n IH]; [apply new_Random_good|by apply Next_good]. }
  split; [done|by apply Next_mod].
Qed.

(** ** Two draws below [2^21] are not both zero *)

Lemma not_twice_zero s : good_seed s -> s mod 2^21 = 0 -> Next s mod 2^21 <> 0.
Proof.
  intros Hs E. rewrite Next_mod by done. unfold good_seed, M, A in *.
  apply Z.mod_divide in E as [a E]; [|lia].
  pose proof (Z.div_mod (16807 * a) 1024 ltac:(lia)) as Ed. pose proof (Z.mod_pos_bound (16807 * a) 1024 ltac:(lia)) as Hr.
  set (q := 16807 * a / 1024) in *. set (r := (16807 * a) mod 1024) in *.
  replace (s * 16807) with (q + r * 2^21 + q * 2147483647) by lia.
  rewrite Z.mod_add, (Z.mod_small (q + r * 2^21)), Z.mod_add, Z.mod_small by lia. lia.
Qed.
