(* ===== verification/SkipList.v ===== *)
(** * SkipList: db/skiplist.h

    A sorted linked list with express lanes.  Nodes live in a store and are
    named by their index, so that a link set through one node is seen through
    all; the head is node 0.  The barriers order what concurrent readers see
    and are not modelled: the model is of one thread. *)

From S2P Require Import Prelude Random.

Definition kMaxHeight : nat := 12.

(** The key of the head is never looked at; [next_[i]] is [None] for null. *)
Record Node (K : Type) := mkNode {
  nkey : option K;
  next_ : list (option nat);
}.
Arguments mkNode {K}.
Arguments nkey {K}.
Arguments next_ {K}.

Record SkipList (K : Type) := mkSkipList {
  nodes : list (Node K);
  max_height_ : nat;
  rnd_ : Z;
}.
Arguments mkSkipList {K}.
Arguments nodes {K}.
Arguments max_height_ {K}.
Arguments rnd_ {K}.

Definition head_ : nat := 0.

Section operations.
Context {K : Type} (compare_ : K -> K -> res Z).

Definition GetMaxHeight (s : SkipList K) : nat := max_height_ s.

(** [x->Next(n)] and [x->SetNext(n, y)], with or without barriers. *)
Definition get_next (s : SkipList K) (x n : nat) : res (option nat) :=
  node ← of_option (nodes s !! x); of_option (next_ node !! n).

Definition SetNext (s : SkipList K) (x n : nat) (y : option nat) : res (SkipList K) :=
  node ← of_option (nodes s !! x);
  if decide (n < length (next_ node))%nat then
    Ret (mkSkipList (<[x := mkNode (nkey node) (<[n := y]> (next_ node))]> (nodes s))
      (max_height_ s) (rnd_ s))
  else Undef.

Definition node_key (s : SkipList K) (x : nat) : res K :=
  node ← of_option (nodes s !! x); of_option (nkey node).

Definition NewNode (s : SkipList K) (key : option K) (height : nat) : nat * SkipList K :=
  (length (nodes s), mkSkipList (nodes s ++ [mkNode key (replicate height None)]) (max_height_ s) (rnd_ s)).

Definition new_SkipList : SkipList K :=
  mkSkipList [mkNode None (replicate kMaxHeight None)] 1 (new_Random 0xdeadbeef).

(** The loop of [RandomHeight]: [n] levels more at most. *)
Fixpoint random_height_loop (n : nat) (height : nat) (rnd : Z) : nat * Z :=
  match n with
  | O => (height, rnd)
  | S n =>
      let rnd := Random.Next rnd in
      if decide (rnd mod 4 = 0) then random_height_loop n (S height) rnd else (height, rnd)
  end.
Definition RandomHeight (s : SkipList K) : nat * SkipList K :=
  let '(height, rnd) := random_height_loop (kMaxHeight - 1) 1 (rnd_ s) in
  (height, mkSkipList (nodes s) (max_height_ s) rnd).

Definition Equal (a b : K) : res bool := c ← compare_ a b; Ret (bool_decide (c = 0)).

Definition KeyIsAfterNode (s : SkipList K) (key : K) (n : option nat) : res bool :=
  match n with
  | None => Ret false
  | Some n => k ← node_key s n; c ← compare_ k key; Ret (bool_decide (c < 0))
  end.

(** The loop of [FindGreaterOrEqual] at node [x]; [prev] is filled in any case. *)
Fixpoint find_ge_loop (fuel : nat) (s : SkipList K) (key : K) (x level : nat) (prev : list (option nat))
    : res (option nat * list (option nat)) :=
  match fuel with
  | O => NoFuel
  | S fuel =>
      next ← get_next s x level;
      after ← KeyIsAfterNode s key next;
      if after : bool then
        x ← of_option next; find_ge_loop fuel s key x level prev
      else
        let prev := <[level := Some x]> prev in
        match level with
        | O => Ret (next, prev)
        | S level => find_ge_loop fuel s key x level prev
        end
  end.

(** Rounds: the loop moves along the nodes or down a level. *)
Definition rounds (s : SkipList K) : nat := length (nodes s) + kMaxHeight.

Definition FindGreaterOrEqual (s : SkipList K) (key : K) : res (option nat * list (option nat)) :=
  find_ge_loop (rounds s) s key head_ (GetMaxHeight s - 1) (replicate kMaxHeight None).

Fixpoint find_lt_loop (fuel : nat) (s : SkipList K) (key : K) (x level : nat) : res nat :=
  match fuel with
  | O => NoFuel
  | S fuel =>
      next ← get_next s x level;
      stop ←
        match next with
        | None => Ret true
        | Some n => k ← node_key s n; c ← compare_ k key; Ret (bool_decide (c >= 0))
        end;
      if stop : bool then
        match level with
        | O => Ret x
        | S level => find_lt_loop fuel s key x level
        end
      else x ← of_option next; find_lt_loop fuel s key x level
  end.
Definition FindLessThan (s : SkipList K) (key : K) : res nat :=
  find_lt_loop (rounds s) s key head_ (GetMaxHeight s - 1).

Fixpoint find_last_loop (fuel : nat) (s : SkipList K) (x level : nat) : res nat :=
  match fuel with
  | O => NoFuel
  | S fuel =>
      next ← get_next s x level;
      match next with
      | None =>
          match level with
          | O => Ret x
          | S level => find_last_loop fuel s x level
          end
      | Some n => find_last_loop fuel s n level
      end
  end.
Definition FindLast (s : SkipList K) : res nat :=
  find_last_loop (rounds s) s head_ (GetMaxHeight s - 1).

(** The last loop of [Insert]: link node [x] in at the levels from [i]. *)
Fixpoint link_loop (n : nat) (s : SkipList K) (x : nat) (prev : list (option nat)) (i : nat)
    : res (SkipList K) :=
  match n with
  | O => Ret s
  | S n =>
      o ← of_option (prev !! i);
      p ← of_option o;
      nx ← get_next s p i;
      s ← SetNext s x i nx;
      s ← SetNext s p i (Some x);
      link_loop n s x prev (S i)
  end.

(** The loop that sets [prev] to the head at the new levels. *)
Fixpoint raise_loop (n i : nat) (prev : list (option nat)) : list (option nat) :=
  match n with
  | O => prev
  | S n => raise_loop n (S i) (<[i := Some head_]> prev)
  end.

Definition Insert (s : SkipList K) (key : K) : res (SkipList K) :=
  '(x, prev) ← FindGreaterOrEqual s key;
  let '(height, s) := RandomHeight s in
  let '(prev, s) :=
    if decide (GetMaxHeight s < height)%nat
    then (raise_loop (height - GetMaxHeight s) (GetMaxHeight s) prev, mkSkipList (nodes s) height (rnd_ s))
    else (prev, s) in
  let '(x, s) := NewNode s (Some key) height in
  link_loop height s x prev 0.

Definition Contains (s : SkipList K) (key : K) : res bool :=
  '(x, _) ← FindGreaterOrEqual s key;
  match x with
  | None => Ret false
  | Some n => k ← node_key s n; Equal key k
  end.

(** ** Iterator: the node it is at *)

Definition it_Valid (node : option nat) : bool := bool_decide (is_Some node).
Definition it_key (s : SkipList K) (node : option nat) : res K := n ← of_option node; node_key s n.
Definition it_Next (s : SkipList K) (node : option nat) : res (option nat) :=
  n ← of_option node; get_next s n 0.
Definition not_head (n : nat) : option nat := if decide (n = head_) then None else Some n.
Definition it_Prev (s : SkipList K) (node : option nat) : res (option nat) :=
  k ← it_key s node; n ← FindLessThan s k; Ret (not_head n).
Definition it_Seek (s : SkipList K) (target : K) : res (option nat) :=
  '(n, _) ← FindGreaterOrEqual s target; Ret n.
Definition it_SeekToFirst (s : SkipList K) : res (option nat) := get_next s head_ 0.
Definition it_SeekToLast (s : SkipList K) : res (option nat) := n ← FindLast s; Ret (not_head n).
End operations.

(** ** The interface of the comparator

    On the keys a client uses, the comparator returns, with the sign of a
    total order; elsewhere nothing is asked of it. *)

Class Compares {K} (compare_ : K -> K -> res Z) (cmp : K -> K -> comparison) (valid : K -> Prop) : Prop :=
  compares a b : valid a -> valid b -> exists z, compare_ a b = Ret z /\ (z ?= 0) = cmp a b.

(** ** The invariant *)

Section invariant.
Context {K : Type} (compare_ : K -> K -> res Z) (cmp : K -> K -> comparison) (valid : K -> Prop).
Context `{!CmpOrder cmp} `{!Compares compare_ cmp valid}.

Lemma compare_lt a b : valid a -> valid b ->
  exists z, compare_ a b = Ret z /\ (z < 0 <-> cmp_lt cmp a b).
Proof.
  intros Ha Hb. destruct (compares a b Ha Hb) as (z & E & Hz). exists z. split; [done|].
  unfold cmp_lt. by rewrite <- Hz, Z.compare_lt_iff.
Qed.

(** The height of a node, and its links as a function. *)
Definition height_of (s : SkipList K) (x : nat) : nat :=
  match nodes s !! x with Some n => length (next_ n) | None => 0 end.
Definition link (s : SkipList K) (i x : nat) : option (option nat) :=
  match nodes s !! x with Some n => next_ n !! i | None => None end.
Definition key_of (s : SkipList K) (x : nat) : option K :=
  match nodes s !! x with Some n => nkey n | None => None end.

(** [l] is linked by [f]: each element points to the next, the last to none. *)
Fixpoint linked (f : nat -> option (option nat)) (l : list nat) : Prop :=
  match l with
  | [] => True
  | x :: l => f x = Some (head l) /\ linked f l
  end.

(** The nodes of [L] that reach level [i]. *)
Definition lane (s : SkipList K) (L : list nat) (i : nat) : list nat :=
  filter (fun x => i < height_of s x)%nat L.

Record skip_inv (s : SkipList K) (L : list nat) (ks : list K) : Prop := {
  inv_keys : Forall2 (fun x k => key_of s x = Some k) L ks;
  inv_sorted : StronglySorted (cmp_lt cmp) ks;
  inv_valid : Forall valid ks;
  inv_nodup : NoDup (head_ :: L);
  inv_linked i : (i < kMaxHeight)%nat -> linked (link s i) (lane s (head_ :: L) i);
  inv_head : height_of s head_ = kMaxHeight /\ key_of s head_ = None;
  inv_heights : Forall (fun x => 1 <= height_of s x <= max_height_ s)%nat L;
  inv_max : (1 <= max_height_ s <= kMaxHeight)%nat;
  inv_size : (length L < length (nodes s))%nat;
}.

Lemma get_next_link s i x v : link s i x = Some v -> get_next s x i = Ret v.
Proof.
  unfold link, get_next. destruct (nodes s !! x) as [n|]; [|done]. cbn. by intros ->.
Qed.

Lemma node_key_of s x k : key_of s x = Some k -> node_key s x = Ret k.
Proof. unfold key_of, node_key. destruct (nodes s !! x) as [n|]; [|done]. cbn. by intros ->. Qed.

(** The first element of a filtered list, in the list. *)
Lemma filter_first {A} (P : A -> Prop) `{forall x, Decision (P x)} (l : list A) y t :
  filter P l = y :: t -> exists l1 l2, l = l1 ++ y :: l2 /\ filter P l1 = [] /\ filter P l2 = t /\ P y.
Proof.
  induction l as [|x l IH]; [done|]. rewrite filter_cons. destruct (decide (P x)) as [Hx|Hx].
  - intros [= -> <-]. exists [], l. done.
  - intros E. destruct (IH E) as (l1 & l2 & -> & H1 & H2 & Hy). exists (x :: l1), l2.
    rewrite filter_cons_False by done. done.
Qed.

Lemma linked_at f p x q : linked f (p ++ x :: q) -> f x = Some (head q).
Proof. induction p as [|y p IH]; cbn; [tauto|]. intros [_ ?]. by apply IH. Qed.

Lemma lane_app s L1 L2 i : lane s (L1 ++ L2) i = lane s L1 i ++ lane s L2 i.
Proof. unfold lane. induction L1 as [|x L1 IH]; [done|]. cbn [app]. rewrite !filter_cons, IH. by destruct (decide _). Qed.
Lemma lane_in s x L i : (i < height_of s x)%nat -> lane s (x :: L) i = x :: lane s L i.
Proof. intros Hx. unfold lane. by rewrite filter_cons_True. Qed.
Lemma lane_out s x L i : ~ (i < height_of s x)%nat -> lane s (x :: L) i = lane s L i.
Proof. intros Hx. unfold lane. by rewrite filter_cons_False. Qed.

(** The link of a node leads to the next node of its lane. *)
Lemma inv_next s L ks i pre x post : skip_inv s L ks -> (i < kMaxHeight)%nat ->
  head_ :: L = pre ++ x :: post -> (i < height_of s x)%nat ->
  get_next s x i = Ret (head (lane s post i)).
Proof.
  intros Hinv Hi E Hx. apply get_next_link, (linked_at _ (lane s pre i)).
  pose proof (inv_linked _ _ _ Hinv i Hi) as Hl. by rewrite E, lane_app, lane_in in Hl.
Qed.

(** Whether a node is before a key; the head always is. *)
Definition below (s : SkipList K) (key : K) (x : nat) : bool :=
  match key_of s x with Some k => bool_decide (cmp_lt cmp k key) | None => true end.

Lemma below_lt s key x k : key_of s x = Some k -> below s key x = bool_decide (cmp_lt cmp k key).
Proof. unfold below. by intros ->. Qed.

(** A key splits the list. *)
Lemma split_at_key s key L ks :
  Forall2 (fun x k => key_of s x = Some k) L ks -> StronglySorted (cmp_lt cmp) ks ->
  exists p q, L = p ++ q /\ Forall (fun x => below s key x = true) p
    /\ Forall (fun x => below s key x = false) q.
Proof.
  induction 1 as [|x k L ks Hk HF IH]; intros Hs; [by exists [], []|].
  apply StronglySorted_inv in Hs as [Hs Hlt]. destruct (decide (cmp_lt cmp k key)) as [Hb|Hb].
  - destruct (IH Hs) as (p & q & -> & Hp & Hq). exists (x :: p), q. split; [done|]. split; [|done].
    constructor; [|done]. rewrite (below_lt _ _ _ k) by done. by apply bool_decide_true.
  - exists [], (x :: L). split; [done|]. split; [constructor|]. constructor.
    { rewrite (below_lt _ _ _ k) by done. by apply bool_decide_false. }
    clear IH Hs. induction HF as [|y k' L ks Hk' HF IH]; [constructor|].
    inversion_clear Hlt as [|? ? Hk1 Hlt']. constructor; [|by apply IH].
    rewrite (below_lt _ _ _ k') by done. apply bool_decide_false. intros Hk2. apply Hb. by transitivity k'.
Qed.

Section find.
Context (s : SkipList K) (L : list nat) (ks : list K) (Hinv : skip_inv s L ks).

Lemma inv_key x : x ∈ L -> exists k, key_of s x = Some k /\ valid k.
Proof.
  intros Hx. apply list_elem_of_lookup in Hx as [i Hi].
  destruct (Forall2_lookup_l _ _ _ _ _ (inv_keys _ _ _ Hinv) Hi) as (k & Hki & Hk).
  exists k. split; [done|]. exact (Forall_lookup_1 _ _ _ _ (inv_valid _ _ _ Hinv) Hki).
Qed.

Lemma inv_height x : x ∈ head_ :: L -> (1 <= height_of s x <= kMaxHeight)%nat.
Proof.
  pose proof (inv_max _ _ _ Hinv). pose proof (inv_head _ _ _ Hinv) as [Hh _].
  pose proof (inv_heights _ _ _ Hinv) as HF.
  intros [->|Hx]%elem_of_cons; [unfold kMaxHeight in *; lia|].
  apply list_elem_of_In in Hx. rewrite Forall_forall in HF. specialize (HF x Hx). lia.
Qed.

Lemma lane_0 L' : L' ⊆ head_ :: L -> lane s L' 0 = L'.
Proof.
  induction L' as [|x L' IH]; [done|]. intros Hsub.
  rewrite lane_in by (pose proof (inv_height x ltac:(set_solver)); lia). rewrite IH; [done|set_solver].
Qed.

(** One look along a lane: a node of [mid], or past it. *)
Lemma next_in_lane pre x mid q i : head_ :: L = pre ++ x :: mid ++ q -> (i < height_of s x)%nat ->
  (exists y l1 l2, mid = l1 ++ y :: l2 /\ (i < height_of s y)%nat /\ get_next s x i = Ret (Some y))
  \/ (lane s mid i = [] /\ get_next s x i = Ret (head (lane s q i))).
Proof.
  intros E Hx. pose proof (inv_height x ltac:(rewrite E; set_solver)) as Hh.
  pose proof (inv_next s L ks i pre x (mid ++ q) Hinv ltac:(lia) E Hx) as Hn.
  rewrite lane_app in Hn. destruct (lane s mid i) as [|y t] eqn:El; [by right|]. left.
  apply filter_first in El as (l1 & l2 & -> & _ & _ & Hy). by exists y, l1, l2.
Qed.

Lemma KeyIsAfterNode_below key y : valid key -> y ∈ L ->
  KeyIsAfterNode compare_ s key (Some y) = Ret (below s key y).
Proof.
  intros Hkey (k & Hk & Hv)%inv_key. cbn. rewrite (node_key_of _ _ k) by done. cbn. unfold below. rewrite Hk.
  destruct (compare_lt k key Hv Hkey) as (z & -> & Hz). cbn. f_equal. by apply bool_decide_ext.
Qed.

Section at_key.
Context (key : K) (Hkey : valid key) (p q : list nat) (EL : L = p ++ q).
Context (Hp : Forall (fun x => below s key x = true) p) (Hq : Forall (fun x => below s key x = false) q).

(** Where [prev] points at level [i]: to the last node before the key that
    reaches the level. *)
Definition pred_at (i : nat) (prev : list (option nat)) : Prop :=
  exists pre x mid, head_ :: p = pre ++ x :: mid /\ (i < height_of s x)%nat
    /\ lane s mid i = [] /\ prev !! i = Some (Some x).

Lemma find_ge_loop_spec fuel x level pre mid prev :
  head_ :: p = pre ++ x :: mid -> (level < height_of s x)%nat -> (level < length prev)%nat ->
  (length mid + level < fuel)%nat ->
  exists prev', find_ge_loop compare_ fuel s key x level prev = Ret (head q, prev')
    /\ length prev' = length prev /\ (forall i, (i <= level)%nat -> pred_at i prev')
    /\ (forall i, (level < i)%nat -> prev' !! i = prev !! i).
Proof.
  revert x level pre mid prev. induction fuel as [|fuel IH]; intros x level pre mid prev EP Hx Hl Hf; [lia|].
  assert (EL' : head_ :: L = pre ++ x :: mid ++ q).
  { rewrite EL. change (head_ :: p ++ q) with ((head_ :: p) ++ q). rewrite EP. by rewrite <- app_assoc. }
  cbn [find_ge_loop]. destruct (next_in_lane _ _ _ _ _ EL' Hx) as [(y & l1 & l2 & -> & Hy & ->)|[Hm ->]].
  - change (Ret ?a ≫= ?f) with (f a). cbv beta.
    assert (y ∈ p) as Hin.
    { destruct pre as [|z pre]; injection EP as ? ->; set_solver. }
    rewrite KeyIsAfterNode_below by (done || (rewrite EL; set_solver)). change (Ret ?a ≫= ?f) with (f a). cbv beta.
    rewrite Forall_forall in Hp. rewrite (Hp y) by (by apply list_elem_of_In). cbn.
    apply (IH y level (pre ++ x :: l1) l2 prev); try done.
    { rewrite EP. by rewrite <- app_assoc. }
    rewrite length_app in Hf. cbn in Hf. lia.
  - change (Ret ?a ≫= ?f) with (f a). cbv beta.
    assert (KeyIsAfterNode compare_ s key (head (lane s q level)) = Ret false) as ->.
    { destruct (lane s q level) as [|y t] eqn:E; [done|]. cbn [head].
      apply filter_first in E as (l1 & l2 & Eq & _). assert (y ∈ q) as Hy by (rewrite Eq; set_solver).
      rewrite KeyIsAfterNode_below by (done || (rewrite EL; set_solver)).
      rewrite Forall_forall in Hq. by rewrite (Hq y) by (by apply list_elem_of_In). }
    change (Ret ?a ≫= ?f) with (f a). cbv beta iota.
    assert (Hpred : pred_at level (<[level:=Some x]> prev)).
    { exists pre, x, mid. split_and!; try done. by apply list_lookup_insert_eq. }
    destruct level as [|level].
    + rewrite lane_0 by (rewrite EL; set_solver). eexists. split; [done|].
      rewrite length_insert. split; [done|]. split.
      * intros i Hi. by replace i with 0%nat by lia.
      * intros i Hi. apply list_lookup_insert_ne. lia.
    + destruct (IH x level pre mid (<[S level:=Some x]> prev) EP ltac:(lia) ltac:(rewrite length_insert; lia)
        ltac:(lia)) as (prev' & -> & Hlen & Hle & Hgt).
      exists prev'. split; [done|]. rewrite length_insert in Hlen. split; [done|]. split.
      * intros i Hi. destruct (decide (i = S level)) as [->|]; [|apply Hle; lia].
        destruct Hpred as (pre' & x' & mid' & ? & ? & ? & Hlk). exists pre', x', mid'. split_and!; try done.
        rewrite Hgt by lia. done.
      * intros i Hi. rewrite Hgt by lia. apply list_lookup_insert_ne. lia.
Qed.

Lemma rounds_enough : (length p + (max_height_ s - 1) < rounds s)%nat.
Proof.
  unfold rounds. pose proof (inv_size _ _ _ Hinv) as Hs. pose proof (inv_max _ _ _ Hinv).
  rewrite EL, length_app in Hs. lia.
Qed.

Lemma FindGreaterOrEqual_spec : exists prev,
  FindGreaterOrEqual compare_ s key = Ret (head q, prev) /\ length prev = kMaxHeight
  /\ (forall i, (i < max_height_ s)%nat -> pred_at i prev).
Proof.
  pose proof (inv_max _ _ _ Hinv). destruct (inv_head _ _ _ Hinv) as [Hh _].
  destruct (find_ge_loop_spec (rounds s) head_ (max_height_ s - 1) [] p (replicate kMaxHeight None))
    as (prev & E & Hlen & Hle & _); [done|rewrite Hh; lia|rewrite length_replicate; lia|apply rounds_enough|].
  exists prev. split; [exact E|]. rewrite length_replicate in Hlen. split; [done|].
  intros i Hi. apply Hle. lia.
Qed.

Lemma find_lt_loop_spec fuel x level pre mid :
  head_ :: p = pre ++ x :: mid -> (level < height_of s x)%nat -> (length mid + level < fuel)%nat ->
  exists y, find_lt_loop compare_ fuel s key x level = Ret y /\ list.last (head_ :: p) = Some y.
Proof.
  revert x level pre mid. induction fuel as [|fuel IH]; intros x level pre mid EP Hx Hf; [lia|].
  assert (EL' : head_ :: L = pre ++ x :: mid ++ q).
  { rewrite EL. change (head_ :: p ++ q) with ((head_ :: p) ++ q). rewrite EP. by rewrite <- app_assoc. }
  cbn [find_lt_loop]. destruct (next_in_lane _ _ _ _ _ EL' Hx) as [(y & l1 & l2 & -> & Hy & ->)|[Hm ->]].
  - change (Ret ?a ≫= ?f) with (f a). cbv beta iota.
    assert (y ∈ p) as Hin.
    { destruct pre as [|z pre]; injection EP as ? ->; set_solver. }
    destruct (inv_key y ltac:(rewrite EL; set_solver)) as (k & Hk & Hv). rewrite (node_key_of _ _ k) by done.
    change (Ret ?a ≫= ?f) with (f a). cbv beta. destruct (compare_lt k key Hv Hkey) as (z & -> & Hz).
    rewrite Forall_forall in Hp. specialize (Hp y ltac:(by apply list_elem_of_In)).
    unfold below in Hp. rewrite Hk in Hp. apply bool_decide_eq_true_1, Hz in Hp.
    cbn. rewrite bool_decide_false by lia. cbn. apply (IH y level (pre ++ x :: l1) l2); try done.
    { rewrite EP. by rewrite <- app_assoc. }
    rewrite length_app in Hf. cbn in Hf. lia.
  - change (Ret ?a ≫= ?f) with (f a). cbv beta.
    match goal with |- exists y, (?m ≫= _) = _ /\ _ => assert (m = Ret true) as -> end.
    { destruct (lane s q level) as [|y t] eqn:E; [done|]. cbn [head].
      apply filter_first in E as (l1 & l2 & Eq & _). assert (y ∈ q) as Hy by (rewrite Eq; set_solver).
      destruct (inv_key y ltac:(rewrite EL; set_solver)) as (k & Hk & Hv). rewrite (node_key_of _ _ k) by done.
      change (Ret ?a ≫= ?f) with (f a). cbv beta. destruct (compare_lt k key Hv Hkey) as (z & -> & Hz).
      rewrite Forall_forall in Hq. specialize (Hq y ltac:(by apply list_elem_of_In)).
      unfold below in Hq. rewrite Hk in Hq. apply bool_decide_eq_false_1 in Hq.
      cbn. f_equal. apply bool_decide_true. rewrite <- Hz in Hq. lia. }
    change (Ret ?a ≫= ?f) with (f a). cbv beta iota. destruct level as [|level].
    + exists x. split; [done|]. rewrite lane_0 in Hm.
      * subst mid. rewrite EP. by rewrite list.last_app.
      * rewrite EL'. set_solver.
    + apply (IH x level pre mid); [done|lia|lia].
Qed.

Lemma FindLessThan_spec : exists y, FindLessThan compare_ s key = Ret y /\ list.last (head_ :: p) = Some y.
Proof.
  pose proof (inv_max _ _ _ Hinv). destruct (inv_head _ _ _ Hinv) as [Hh _].
  apply (find_lt_loop_spec (rounds s) head_ (max_height_ s - 1) [] p);
    [done|rewrite Hh; unfold GetMaxHeight; lia|apply rounds_enough].
Qed.
End at_key.

Lemma find_last_loop_spec fuel x level pre mid :
  head_ :: L = pre ++ x :: mid -> (level < height_of s x)%nat -> (length mid + level < fuel)%nat ->
  exists y, find_last_loop fuel s x level = Ret y /\ list.last (head_ :: L) = Some y.
Proof.
  revert x level pre mid. induction fuel as [|fuel IH]; intros x level pre mid EL Hx Hf; [lia|].
  assert (EL' : head_ :: L = pre ++ x :: mid ++ []) by by rewrite app_nil_r.
  cbn [find_last_loop]. destruct (next_in_lane _ _ _ _ _ EL' Hx) as [(y & l1 & l2 & -> & Hy & ->)|[Hm ->]].
  - cbn. apply (IH y level (pre ++ x :: l1) l2); try done.
    { rewrite EL. by rewrite <- app_assoc. }
    rewrite length_app in Hf. cbn in Hf. lia.
  - cbn. destruct level as [|level].
    + exists x. split; [done|]. rewrite lane_0 in Hm; [|rewrite EL; set_solver].
      subst mid. rewrite EL. by rewrite list.last_app.
    + apply (IH x level pre mid); [done|lia|lia].
Qed.

Lemma FindLast_spec : exists y, FindLast s = Ret y /\ list.last (head_ :: L) = Some y.
Proof.
  pose proof (inv_max _ _ _ Hinv). destruct (inv_head _ _ _ Hinv) as [Hh _].
  apply (find_last_loop_spec (rounds s) head_ (max_height_ s - 1) [] L);
    [done|rewrite Hh; unfold GetMaxHeight; lia|].
  pose proof (inv_size _ _ _ Hinv). unfold rounds, GetMaxHeight. lia.
Qed.
End find.

(** ** Insertion *)

(** [s'] has the nodes of [s], with the same keys and heights. *)
Record same_shape (s s' : SkipList K) : Prop := {
  ss_height x : height_of s' x = height_of s x;
  ss_key x : key_of s' x = key_of s x;
  ss_max : max_height_ s' = max_height_ s;
  ss_rnd : rnd_ s' = rnd_ s;
  ss_size : length (nodes s') = length (nodes s);
}.

#[local] Instance same_shape_preorder : PreOrder same_shape.
Proof.
  split; [done|]. intros s1 s2 s3 [] []. split; intros; congruence.
Qed.

Lemma lane_ext s s' l i : (forall x, x ∈ l -> height_of s' x = height_of s x) -> lane s' l i = lane s l i.
Proof.
  unfold lane. induction l as [|x l IH]; intros Hs; [done|]. rewrite !filter_cons, IH by set_solver.
  assert (height_of s' x = height_of s x) as Hx by set_solver.
  destruct (decide (i < height_of s' x)%nat), (decide (i < height_of s x)%nat); rewrite Hx in *; done.
Qed.
Lemma lane_same s s' l i : (forall x, height_of s' x = height_of s x) -> lane s' l i = lane s l i.
Proof. intros Hs. by apply lane_ext. Qed.

Lemma linked_ext f f' l : (forall x, x ∈ l -> f' x = f x) -> linked f l -> linked f' l.
Proof. induction l as [|x l IH]; cbn; [done|]. intros Hf [Hx Hl]. rewrite Hf by set_solver. set_solver. Qed.

Lemma SetNext_spec s x i v : (i < height_of s x)%nat -> exists s', SetNext s x i v = Ret s'
  /\ same_shape s s'
  /\ (forall j y, link s' j y = if decide (j = i /\ y = x) then Some v else link s j y).
Proof.
  unfold height_of, SetNext. destruct (nodes s !! x) as [n|] eqn:En; [|lia]. intros Hi. cbn.
  rewrite decide_True by done. eexists. split; [done|].
  assert (Hlook : forall y, <[x:=mkNode (nkey n) (<[i:=v]> (next_ n))]> (nodes s) !! y
    = if decide (y = x) then Some (mkNode (nkey n) (<[i:=v]> (next_ n))) else nodes s !! y).
  { intros y. destruct (decide (y = x)) as [->|]; [|by apply list_lookup_insert_ne].
    apply list_lookup_insert_eq. by apply lookup_lt_Some in En. }
  split; [split|]; unfold height_of, key_of, link; cbn; try done.
  - intros y. rewrite Hlook. destruct (decide (y = x)) as [->|]; [|done]. cbn. by rewrite length_insert, En.
  - intros y. rewrite Hlook. destruct (decide (y = x)) as [->|]; [|done]. cbn. by rewrite En.
  - by rewrite length_insert.
  - intros j y. rewrite Hlook. destruct (decide (y = x)) as [->|].
    + cbn. rewrite En. destruct (decide (j = i /\ x = x)) as [[-> _]|Hne].
      * by apply list_lookup_insert_eq.
      * apply list_lookup_insert_ne. intros ->. by apply Hne.
    + rewrite decide_False by tauto. done.
Qed.

(** A link goes in between two neighbours. *)
Lemma linked_insert f f' A x n B :
  linked f (A ++ x :: B) -> NoDup (A ++ x :: n :: B) ->
  f' x = Some (Some n) -> f' n = Some (head B) -> (forall y, y <> x -> y <> n -> f' y = f y) ->
  linked f' (A ++ x :: n :: B).
Proof.
  intros Hl Hnd Hx Hn Hf. induction A as [|y A IH]; cbn in *.
  - apply list.NoDup_cons in Hnd as [Hnx Hnd]. apply list.NoDup_cons in Hnd as [Hnn _].
    split; [done|]. split; [done|]. destruct Hl as [_ Hl].
    assert (Forall (fun z => f' z = f z) B) as HB.
    { apply Forall_forall. intros z Hz%list_elem_of_In. apply Hf; intros ->; set_solver. }
    clear -Hl HB. induction B as [|z B IH]; [done|]. apply list.Forall_cons in HB as [Hz HB]. cbn in *.
    rewrite Hz. naive_solver.
  - apply list.NoDup_cons in Hnd as [Hny Hnd]. destruct Hl as [Hy Hl]. split; [|by apply IH].
    rewrite Hf by set_solver. rewrite Hy. by destruct A.
Qed.

Section insert.
Context (L p q : list nat) (n height : nat) (prev : list (option nat)).

(** What the last loop of [Insert] starts from: the new node outside the
    lanes, the old lanes linked and [prev] right at every level of the node. *)
Record link_pre (s : SkipList K) (i m : nat) : Prop := {
  lp_linked j : (i <= j < i + m)%nat -> linked (link s j) (lane s (head_ :: p ++ q) j);
  lp_pred j : (i <= j < i + m)%nat -> pred_at s p j prev;
  lp_new : height_of s n = height;
  lp_bound : (i + m <= height)%nat;
  lp_nodup : NoDup (head_ :: p ++ n :: q);
}.

Lemma lane_sublist s l i : sublist (lane s l i) l.
Proof.
  unfold lane. induction l as [|x l IH]; [done|]. rewrite filter_cons.
  destruct (decide _); [by constructor|by constructor].
Qed.

Lemma link_loop_spec m s i : link_pre s i m -> exists s',
  link_loop m s n prev i = Ret s' /\ same_shape s s'
  /\ (forall j, (i <= j < i + m)%nat -> linked (link s' j) (lane s (head_ :: p ++ n :: q) j))
  /\ (forall j y, ~ (i <= j < i + m)%nat -> link s' j y = link s j y).
Proof.
  revert s i. induction m as [|m IH]; intros s i Hpre.
  { exists s. split; [done|]. split; [done|]. split; [lia|done]. }
  pose proof (lp_bound _ _ _ Hpre) as Hb. pose proof (lp_new _ _ _ Hpre) as Hh.
  pose proof (lp_nodup _ _ _ Hpre) as Hnd.
  destruct (lp_pred _ _ _ Hpre i ltac:(lia)) as (pre & x & mid & EP & Hx & Hm & Hprev).
  pose proof (lp_linked _ _ _ Hpre i ltac:(lia)) as Hl.
  assert (EL : forall r, lane s (head_ :: p ++ r) i = lane s pre i ++ x :: lane s r i).
  { intros r. change (head_ :: p ++ r) with ((head_ :: p) ++ r).
    rewrite EP, <- app_assoc, lane_app. f_equal. cbn [app].
    rewrite lane_in, lane_app, Hm by done. done. }
  assert (Hne : x <> n).
  { intros ->. change (NoDup ((head_ :: p) ++ n :: q)) in Hnd. rewrite EP in Hnd.
    apply list.NoDup_app in Hnd as (_ & Hd & _). apply (Hd n); set_solver. }
  cbn [link_loop]. rewrite Hprev. cbn [of_option]. change (Ret ?a ≫= ?f) with (f a). cbv beta.
  cbn [of_option]. change (Ret ?a ≫= ?f) with (f a). cbv beta.
  rewrite EL in Hl. rewrite (get_next_link s i x _ (linked_at _ _ _ _ Hl)).
  change (Ret ?a ≫= ?f) with (f a). cbv beta.
  destruct (SetNext_spec s n i (head (lane s q i)) ltac:(lia)) as (s1 & -> & Hs1 & Hk1).
  change (Ret ?a ≫= ?f) with (f a). cbv beta.
  destruct (SetNext_spec s1 x i (Some n)) as (s2 & -> & Hs2 & Hk2); [by rewrite (ss_height _ _ Hs1)|].
  change (Ret ?a ≫= ?f) with (f a). cbv beta.
  assert (Hs : same_shape s s2) by (by transitivity s1).
  assert (Hk : forall j y, j <> i -> link s2 j y = link s j y).
  { intros j y Hj. rewrite Hk2, Hk1, !decide_False by tauto. done. }
  destruct (IH s2 (S i)) as (s' & E & Hs' & Hin & Hout).
  { split; rewrite ?(ss_height _ _ Hs); try done; try lia.
    - intros j Hj. rewrite (lane_same s s2) by apply Hs.
      pose proof (lp_linked _ _ _ Hpre j ltac:(lia)) as Hlj.
      assert (Hext : forall l, linked (link s j) l -> linked (link s2 j) l).
      { induction l as [|z l IHl]; cbn; [done|]. rewrite Hk by lia. naive_solver. }
      by apply Hext.
    - intros j Hj. destruct (lp_pred _ _ _ Hpre j ltac:(lia)) as (pre' & x' & mid' & ? & ? & ? & ?).
      exists pre', x', mid'. rewrite (ss_height _ _ Hs), (lane_same s s2) by apply Hs. done. }
  exists s'. split; [exact E|]. split; [by transitivity s2|]. split.
  - intros j Hj. destruct (decide (j = i)) as [->|]; [|rewrite <- (lane_same s s2) by apply Hs; apply Hin; lia].
    assert (Hlast : forall y, link s' i y = link s2 i y) by (intros y; apply Hout; lia).
    assert (EN : lane s (n :: q) i = n :: lane s q i) by (apply lane_in; lia).
    pose proof (EL (n :: q)) as EN'. rewrite EN in EN'. rewrite EN'.
    apply (linked_insert (link s i)); [done| | | |].
    + rewrite <- EN'. eapply sublist_NoDup; [done|apply lane_sublist].
    + rewrite Hlast, Hk2. by rewrite decide_True.
    + rewrite Hlast, Hk2, decide_False by naive_solver. rewrite Hk1. by rewrite decide_True.
    + intros y Hyx Hyn. rewrite Hlast, Hk2, decide_False by naive_solver.
      rewrite Hk1, decide_False by naive_solver. done.
  - intros j y Hj. rewrite Hout by lia. apply Hk. lia.
Qed.
End insert.

Lemma lane_subset s l i x : x ∈ lane s l i -> x ∈ l.
Proof. intros Hx. eapply elem_of_submseteq; [done|]. apply sublist_submseteq, lane_sublist. Qed.

(** [NewNode]: the old nodes keep what they have. *)
Lemma NewNode_old s s' nd y : nodes s' = nodes s ++ [nd] -> (y < length (nodes s))%nat ->
  height_of s' y = height_of s y /\ key_of s' y = key_of s y /\ (forall i, link s' i y = link s i y).
Proof.
  intros E Hy. unfold height_of, key_of, link. by rewrite E, lookup_app_l by done.
Qed.
Lemma NewNode_new s s' nd : nodes s' = nodes s ++ [nd] ->
  height_of s' (length (nodes s)) = length (next_ nd) /\ key_of s' (length (nodes s)) = nkey nd.
Proof.
  intros E. unfold height_of, key_of. by rewrite E, list_lookup_middle.
Qed.

Lemma random_height_loop_range n h rnd :
  (h <= fst (random_height_loop n h rnd) <= h + n)%nat.
Proof.
  revert h rnd. induction n as [|n IH]; intros h rnd; cbn; [lia|].
  destruct (decide _); cbn; [|lia]. specialize (IH (S h) (Random.Next rnd)). lia.
Qed.

Lemma RandomHeight_spec (s : SkipList K) : exists h rnd,
  RandomHeight s = (h, mkSkipList (nodes s) (max_height_ s) rnd) /\ (1 <= h <= kMaxHeight)%nat.
Proof.
  unfold RandomHeight. pose proof (random_height_loop_range (kMaxHeight - 1) 1 (rnd_ s)) as H.
  destruct (random_height_loop (kMaxHeight - 1) 1 (rnd_ s)) as [h rnd]. exists h, rnd. split; [done|].
  unfold kMaxHeight in *. cbn in H. lia.
Qed.

Lemma raise_loop_spec n i prev : (i + n <= length prev)%nat ->
  (forall j, (i <= j < i + n)%nat -> raise_loop n i prev !! j = Some (Some head_))
  /\ (forall j, ~ (i <= j < i + n)%nat -> raise_loop n i prev !! j = prev !! j).
Proof.
  revert i prev. induction n as [|n IH]; intros i prev Hl; cbn; [split; [lia|done]|].
  destruct (IH (S i) (<[i:=Some head_]> prev)) as [Hin Hout]; [rewrite length_insert; lia|]. split.
  - intros j Hj. destruct (decide (j = i)) as [->|]; [|apply Hin; lia].
    rewrite Hout by lia. apply list_lookup_insert_eq. lia.
  - intros j Hj. rewrite Hout by lia. apply list_lookup_insert_ne. lia.
Qed.

(** The keys below a key, and the others. *)
Definition keys_lt (key : K) (ks : list K) : list K := filter (fun k => cmp_lt cmp k key) ks.
Definition keys_ge (key : K) (ks : list K) : list K := filter (fun k => ~ cmp_lt cmp k key) ks.
Definition ks_insert (key : K) (ks : list K) : list K := keys_lt key ks ++ key :: keys_ge key ks.

Lemma keys_split key ks1 ks2 : Forall (fun k => cmp_lt cmp k key) ks1 ->
  Forall (fun k => ~ cmp_lt cmp k key) ks2 ->
  keys_lt key (ks1 ++ ks2) = ks1 /\ keys_ge key (ks1 ++ ks2) = ks2.
Proof.
  unfold keys_lt, keys_ge. intros H1 H2. induction H1 as [|k ks1 Hk _ [IH1 IH2]]; cbn [app].
  - induction H2 as [|k ks2 Hk _ [IH1 IH2]]; [done|].
    rewrite !filter_cons, decide_False, decide_True by done. by rewrite IH1, IH2.
  - rewrite !filter_cons, decide_True, decide_False by tauto. by rewrite IH1, IH2.
Qed.

(** The split of the nodes at a key, with that of the keys. *)
Lemma split_nodes s L ks key : skip_inv s L ks -> exists p q kp kq,
  L = p ++ q /\ ks = kp ++ kq /\ kp = keys_lt key ks /\ kq = keys_ge key ks
  /\ Forall2 (fun x k => key_of s x = Some k) p kp /\ Forall2 (fun x k => key_of s x = Some k) q kq
  /\ Forall (fun x => below s key x = true) p /\ Forall (fun x => below s key x = false) q
  /\ Forall (fun k => cmp_lt cmp k key) kp /\ Forall (fun k => ~ cmp_lt cmp k key) kq.
Proof.
  intros Hinv. destruct (split_at_key s key L ks) as (p & q & -> & Hp & Hq); [apply Hinv..|].
  pose proof (inv_keys _ _ _ Hinv) as HF. apply Forall2_app_inv_l in HF as (kp & kq & Hkp & Hkq & ->).
  assert (H1 : Forall (fun k => cmp_lt cmp k key) kp).
  { clear -Hp Hkp. induction Hkp as [|x k p kp Hk _ IH]; [done|]. apply list.Forall_cons in Hp as [Hx Hp].
    constructor; [|by apply IH]. rewrite (below_lt _ _ _ k) in Hx by done. by apply bool_decide_eq_true_1 in Hx. }
  assert (H2 : Forall (fun k => ~ cmp_lt cmp k key) kq).
  { clear -Hq Hkq. induction Hkq as [|x k q kq Hk _ IH]; [done|]. apply list.Forall_cons in Hq as [Hx Hq].
    constructor; [|by apply IH]. rewrite (below_lt _ _ _ k) in Hx by done. by apply bool_decide_eq_false_1 in Hx. }
  exists p, q, kp, kq. destruct (keys_split key kp kq H1 H2) as [-> ->]. done.
Qed.

Lemma ks_insert_sorted key ks : StronglySorted (cmp_lt cmp) ks ->
  Forall (fun k => cmp k key <> Eq) ks -> StronglySorted (cmp_lt cmp) (ks_insert key ks).
Proof.
  intros Hs Hne. unfold ks_insert, keys_lt, keys_ge.
  induction Hs as [|k ks Hs IH Hk]; [by repeat constructor|].
  apply list.Forall_cons in Hne as [Hnk Hne]. specialize (IH Hne). rewrite !filter_cons.
  destruct (decide (cmp_lt cmp k key)) as [Hlt|Hge].
  - rewrite decide_False by tauto. cbn. constructor; [done|].
    rewrite Forall_app, list.Forall_cons, !Forall_forall. rewrite Forall_forall in Hk. split_and!; [|done|].
    + intros x Hx%list_elem_of_In. apply Hk, list_elem_of_In. apply list_elem_of_filter in Hx. tauto.
    + intros x Hx%list_elem_of_In. apply Hk, list_elem_of_In. apply list_elem_of_filter in Hx. tauto.
  - rewrite decide_True by done.
    assert (Hgt : cmp_lt cmp key k).
    { apply cmp_lt_not_ge; [apply _|]. intros Hle. apply Hge. unfold cmp_le, cmp_lt in *.
      by destruct (cmp k key). }
    assert (Hall : Forall (fun x => ~ cmp_lt cmp x key) ks).
    { eapply list.Forall_impl; [exact Hk|]. intros x Hx Hx'. apply Hge. by transitivity x. }
    destruct (keys_split key [] ks) as [E1 E2]; [constructor|done|]. unfold keys_lt, keys_ge in E1, E2.
    cbn in E1, E2. rewrite E1, E2. cbn. constructor; [by constructor|]. constructor; [done|].
    eapply list.Forall_impl; [exact Hk|]. intros x Hx. by transitivity k.
Qed.

(** The state of [Insert] before its last loop. *)
Lemma inv_in_nodes s L ks x : skip_inv s L ks -> x ∈ head_ :: L -> (x < length (nodes s))%nat.
Proof.
  intros Hinv Hx. pose proof (inv_height s L ks Hinv x Hx) as Hh. unfold height_of in Hh.
  destruct (nodes s !! x) as [nd|] eqn:E; [|lia]. by apply lookup_lt_Some in E.
Qed.

Lemma link_pre_start s L ks p q prev height mh rnd key s3 :
  skip_inv s L ks -> L = p ++ q -> (1 <= height <= kMaxHeight)%nat ->
  (forall i, (i < height)%nat -> pred_at s p i prev) ->
  s3 = mkSkipList (nodes s ++ [mkNode (Some key) (replicate height None)]) mh rnd ->
  link_pre p q (length (nodes s)) height prev s3 0 height.
Proof.
  intros Hinv EL Hh Hprev E3.
  assert (Hn : nodes s3 = nodes s ++ [mkNode (Some key) (replicate height None)]) by by rewrite E3.
  assert (Hold : forall y, y ∈ head_ :: p ++ q -> height_of s3 y = height_of s y
    /\ key_of s3 y = key_of s y /\ forall i, link s3 i y = link s i y).
  { intros y Hy. eapply NewNode_old; [done|]. eapply inv_in_nodes; [done|]. by rewrite EL. }
  split.
  - intros j Hj. rewrite (lane_ext s s3) by (intros y Hy; by apply Hold).
    apply (linked_ext (link s j)).
    { intros y Hy%lane_subset. by apply Hold. }
    rewrite <- EL. eapply inv_linked; [done|lia].
  - intros j Hj. destruct (Hprev j ltac:(lia)) as (pre & x & mid & EP & Hx & Hm & Hlk).
    assert (Hsub : forall y, y ∈ pre ++ x :: mid -> height_of s3 y = height_of s y).
    { intros y Hy. apply Hold. rewrite <- EP in Hy. set_solver. }
    exists pre, x, mid. rewrite Hsub, (lane_ext s s3) by set_solver. done.
  - pose proof (NewNode_new s s3 _ Hn) as [-> _]. cbn. apply length_replicate.
  - lia.
  - pose proof (inv_nodup _ _ _ Hinv) as Hnd. rewrite EL in Hnd.
    assert (length (nodes s) ∉ head_ :: p ++ q) as Hnew.
    { intros Hin. rewrite <- EL in Hin. apply (inv_in_nodes _ _ _ _ Hinv) in Hin. lia. }
    change (NoDup ((head_ :: p) ++ length (nodes s) :: q)).
    assert ((head_ :: p) ++ length (nodes s) :: q ≡ₚ length (nodes s) :: head_ :: p ++ q) as ->.
    { symmetry. apply (Permutation_middle (head_ :: p) q). }
    by constructor.
Qed.

(** The levels of [prev] the new node may need, once raised. *)
Lemma prev_raised s L ks p q prev height : skip_inv s L ks -> L = p ++ q -> length prev = kMaxHeight ->
  (height <= kMaxHeight)%nat -> (forall i, (i < max_height_ s)%nat -> pred_at s p i prev) ->
  forall i, (i < height)%nat -> pred_at s p i
    (if decide (max_height_ s < height)%nat then raise_loop (height - max_height_ s) (max_height_ s) prev else prev).
Proof.
  intros Hinv EL Hlen Hh Hprev i Hi. destruct (decide _) as [Hlt|]; [|apply Hprev; lia].
  destruct (raise_loop_spec (height - max_height_ s) (max_height_ s) prev) as [Hin Hout]; [lia|].
  destruct (decide (i < max_height_ s)%nat) as [Hlow|].
  - destruct (Hprev i Hlow) as (pre & x & mid & ? & ? & ? & ?). exists pre, x, mid.
    rewrite Hout by lia. done.
  - exists [], head_, p. rewrite Hin by lia. destruct (inv_head _ _ _ Hinv) as [-> _].
    split_and!; [done|lia| |done].
    pose proof (inv_heights _ _ _ Hinv) as HF. rewrite EL in HF. apply Forall_app in HF as [HF _].
    clear -HF n. unfold lane. induction HF as [|x l Hx _ IH]; [done|].
    rewrite filter_cons_False by lia. done.
Qed.

Lemma Insert_inv s L ks key : skip_inv s L ks -> valid key -> Forall (fun k => cmp k key <> Eq) ks ->
  exists s' L', Insert compare_ s key = Ret s' /\ skip_inv s' L' (ks_insert key ks).
Proof.
  intros Hinv Hkey Hne.
  destruct (split_nodes s L ks key Hinv) as (p & q & kp & kq & EL & Ek & Ekp & Ekq & Hp2 & Hq2 & Hp & Hq & _).
  destruct (FindGreaterOrEqual_spec s L ks Hinv key Hkey p q EL Hp Hq) as (prev & EF & Hlen & Hprev).
  destruct (RandomHeight_spec s) as (h & rnd & ER & Hh). unfold Insert. rewrite EF.
  change (Ret ?a ≫= ?f) with (f a). cbv beta iota. rewrite ER. cbv beta iota. unfold GetMaxHeight. cbn [max_height_ nodes rnd_].
  pose proof (prev_raised s L ks p q prev h Hinv EL Hlen ltac:(lia) Hprev) as Hpr.
  set (mh := if decide (max_height_ s < h)%nat then h else max_height_ s).
  set (prev' := if decide (max_height_ s < h)%nat then raise_loop (h - max_height_ s) (max_height_ s) prev else prev) in *.
  set (s3 := mkSkipList (nodes s ++ [mkNode (Some key) (replicate h None)]) mh rnd).
  assert (Hpre : link_pre p q (length (nodes s)) h prev' s3 0 h) by by eapply link_pre_start.
  destruct (link_loop_spec p q _ _ _ _ _ _ Hpre) as (s' & E' & Hs' & Hin & Hout).
  exists s', (p ++ length (nodes s) :: q). split.
  { subst s3 mh prev'. destruct (decide (max_height_ s < h)%nat); exact E'. }
  clear EF ER. pose proof (NewNode_new s s3 _ eq_refl) as [Hnh Hnk]. cbn in Hnh, Hnk. rewrite length_replicate in Hnh.
  assert (Hold : forall y, y ∈ head_ :: L -> height_of s3 y = height_of s y
    /\ key_of s3 y = key_of s y /\ forall i, link s3 i y = link s i y).
  { intros y Hy. eapply NewNode_old; [done|]. by eapply inv_in_nodes. }
  assert (Hmh : max_height_ s' = mh) by apply Hs'. pose proof (inv_max _ _ _ Hinv) as Hmax.
  assert (Hmh' : (max_height_ s <= mh)%nat /\ (h <= mh <= kMaxHeight)%nat).
  { subst mh. unfold kMaxHeight in *. clear -Hmax Hh. destruct (decide (max_height_ s < h)%nat) as [?|?]; lia. }
  assert (Hkeys : forall l kl, l ⊆ L -> Forall2 (fun x k => key_of s x = Some k) l kl ->
    Forall2 (fun x k => key_of s' x = Some k) l kl).
  { intros l kl Hsub HF. induction HF as [|x k l kl Hx _ IH]; constructor; [|apply IH; set_solver].
    rewrite (ss_key _ _ Hs'). destruct (Hold x) as (_ & -> & _); [set_solver|done]. }
  split.
  - unfold ks_insert. rewrite <- Ekp, <- Ekq. apply Forall2_app; [apply Hkeys; [set_solver|done]|].
    constructor; [by rewrite (ss_key _ _ Hs')|]. apply Hkeys; [set_solver|done].
  - apply ks_insert_sorted; [apply Hinv|done].
  - unfold ks_insert. rewrite <- Ekp, <- Ekq. pose proof (inv_valid _ _ _ Hinv) as HV. rewrite Ek in HV.
    apply Forall_app in HV as [HVp HVq]. apply Forall_app. split; [done|by constructor].
  - apply Hpre.
  - intros i Hi. rewrite (lane_same s3 s') by apply Hs'.
    destruct (decide (i < h)%nat) as [Hlow|Hhigh]; [apply Hin; lia|].
    apply (linked_ext (link s3 i)); [intros y _; apply Hout; lia|].
    assert (lane s3 (head_ :: p ++ length (nodes s) :: q) i = lane s (head_ :: L) i) as ->.
    { change (head_ :: p ++ length (nodes s) :: q) with ((head_ :: p) ++ length (nodes s) :: q).
      rewrite lane_app, (lane_out s3 (length (nodes s))), <- lane_app by (rewrite Hnh; lia). cbn [app]. rewrite <- EL.
      apply lane_ext. intros y Hy. by apply Hold. }
    apply (linked_ext (link s i)); [|by eapply inv_linked].
    intros y Hy%lane_subset. by apply Hold.
  - rewrite (ss_height _ _ Hs'), (ss_key _ _ Hs'). destruct (Hold head_) as (-> & -> & _); [set_solver|]. apply Hinv.
  - rewrite Hmh. pose proof (inv_heights _ _ _ Hinv) as HF.
    assert (HF' : Forall (fun x => 1 <= height_of s' x <= mh)%nat L).
    { rewrite Forall_forall in *. intros x Hx. specialize (HF x Hx). apply list_elem_of_In in Hx.
      rewrite (ss_height _ _ Hs'). destruct (Hold x) as (-> & _); [set_solver|]. lia. }
    rewrite EL in HF'. apply Forall_app in HF' as [HFp HFq].
    apply Forall_app. split; [done|]. constructor; [|done]. rewrite (ss_height _ _ Hs'). lia.
  - rewrite Hmh. lia.
  - rewrite (ss_size _ _ Hs'). cbn. rewrite !length_app. pose proof (inv_size _ _ _ Hinv) as Hsz.
    rewrite EL, length_app in Hsz. cbn. lia.
Qed.

Lemma new_SkipList_inv : skip_inv new_SkipList [] [].
Proof.
  split; [constructor|constructor|constructor|apply NoDup_singleton| |done|constructor|cbn; unfold kMaxHeight; lia|cbn; lia].
  intros i Hi. unfold kMaxHeight in Hi. unfold linked, lane, head_.
  do 12 (destruct i as [|i]; [by vm_compute|]). lia.
Qed.

(** ** Reading: where the iterator is among the keys *)

Section read.
Context (s : SkipList K) (L : list nat) (ks : list K) (Hinv : skip_inv s L ks).

Lemma it_key_at i x : L !! i = Some x -> exists k, ks !! i = Some k /\ it_key s (Some x) = Ret k.
Proof.
  intros Hi. destruct (Forall2_lookup_l _ _ _ _ _ (inv_keys _ _ _ Hinv) Hi) as (k & Hk & Hx).
  exists k. split; [done|]. cbn. by apply node_key_of.
Qed.

Lemma length_nodes_keys : length L = length ks.
Proof. exact (list.Forall2_length _ _ _ (inv_keys _ _ _ Hinv)). Qed.

Lemma at_valid i : it_Valid (L !! i) = bool_decide (i < length ks)%nat.
Proof. unfold it_Valid. apply bool_decide_ext. by rewrite lookup_lt_is_Some, length_nodes_keys. Qed.

Lemma find_at key : valid key -> exists prev,
  FindGreaterOrEqual compare_ s key = Ret (L !! length (keys_lt key ks), prev).
Proof.
  intros Hkey.
  destruct (split_nodes s L ks key Hinv) as (p & q & kp & kq & EL & Ek & Ekp & Ekq & Hp2 & Hq2 & Hp & Hq & _).
  destruct (FindGreaterOrEqual_spec s L ks Hinv key Hkey p q EL Hp Hq) as (prev & EF & _).
  exists prev. rewrite EF. do 2 f_equal.
  rewrite <- Ekp, <- (list.Forall2_length _ _ _ Hp2), EL. destruct q as [|x q]; cbn.
  - rewrite app_nil_r. symmetry. by apply lookup_ge_None_2.
  - by rewrite list_lookup_middle.
Qed.

Lemma it_Seek_at target : valid target -> it_Seek compare_ s target = Ret (L !! length (keys_lt target ks)).
Proof. intros Hv. unfold it_Seek. destruct (find_at target Hv) as [prev ->]. done. Qed.

Lemma keys_lt_take i k : ks !! i = Some k -> keys_lt k ks = take i ks.
Proof.
  intros Hi. pose proof (inv_sorted _ _ _ Hinv) as Hs. rewrite <- (take_drop_middle ks i k Hi) in Hs |- *.
  assert (length (take i ks) = i) as Hl by (rewrite length_take; apply lookup_lt_Some in Hi; lia).
  rewrite take_app_length' by done. apply StronglySorted_app in Hs as (H1 & _ & H2).
  apply StronglySorted_inv in H2 as [_ H2]. apply keys_split.
  - apply Forall_forall. intros x Hx. apply H1; [by apply list_elem_of_In|set_solver].
  - constructor; [apply irreflexivity; apply _|]. eapply list.Forall_impl; [exact H2|].
    intros x Hx Hx'. apply (irreflexivity (cmp_lt cmp) k). by transitivity x.
Qed.

Lemma Contains_spec key : valid key -> Contains compare_ s key = Ret (bool_decide (Exists (fun k => cmp key k = Eq) ks)).
Proof.
  intros Hkey. unfold Contains. destruct (find_at key Hkey) as [prev ->]. change (Ret ?a ≫= ?f) with (f a). cbv beta iota.
  destruct (split_nodes s L ks key Hinv) as (p & q & kp & kq & EL & Ek & Ekp & Ekq & Hp2 & Hq2 & Hp & Hq & Hkp & Hkq).
  assert (Hno : forall k, cmp_lt cmp k key -> cmp key k <> Eq).
  { intros k Hk E. rewrite (cmp_antisym (cmp:=cmp) k key) in E. unfold cmp_lt in Hk. rewrite Hk in E. done. }
  rewrite <- Ekp, <- (list.Forall2_length _ _ _ Hp2), EL. destruct Hq2 as [|x k q kq Hk Hq2].
  - rewrite app_nil_r, lookup_ge_None_2 by done. f_equal. symmetry. apply bool_decide_false.
    rewrite Ek, app_nil_r, Exists_exists. intros (k & Hin & E). rewrite Forall_forall in Hkp.
    by apply (Hno k); [apply Hkp|].
  - rewrite list_lookup_middle by done. rewrite (node_key_of _ _ k) by done.
    change (Ret ?a ≫= ?f) with (f a). cbv beta. unfold Equal.
    assert (valid k) as Hv.
    { pose proof (inv_valid _ _ _ Hinv) as HV. rewrite Ek in HV. apply Forall_app in HV as [_ HV].
      by apply list.Forall_cons in HV as [? _]. }
    destruct (compares key k Hkey Hv) as (z & -> & Hz). cbn. f_equal.
    apply bool_decide_ext. rewrite Ek, Exists_app, Exists_cons, <- Hz, Z.compare_eq_iff.
    split; [auto|]. intros [Hex|[?|Hex]]; [| done |]; exfalso.
    + apply Exists_exists in Hex as (y & Hin & E). rewrite Forall_forall in Hkp. by apply (Hno y); [apply Hkp|].
    + apply Exists_exists in Hex as (y & Hin & E).
      pose proof (inv_sorted _ _ _ Hinv) as Hs. rewrite Ek in Hs. apply StronglySorted_app in Hs as (_ & _ & Hs).
      apply StronglySorted_inv in Hs as [_ Hlt]. rewrite Forall_forall in Hlt. specialize (Hlt y Hin).
      apply list.Forall_cons in Hkq as [Hkk _]. apply Hkk. unfold cmp_lt in *. by rewrite (cmp_eq_r cmp k key y).
Qed.

Lemma it_SeekToFirst_at : it_SeekToFirst s = Ret (L !! 0%nat).
Proof.
  unfold it_SeekToFirst. rewrite (inv_next s L ks 0 [] head_ L Hinv); [| unfold kMaxHeight; lia|done|].
  - rewrite (lane_0 s L ks Hinv) by set_solver. by destruct L.
  - pose proof (inv_head _ _ _ Hinv) as [-> _]. unfold kMaxHeight. lia.
Qed.

Lemma it_Next_at i x : L !! i = Some x -> it_Next s (Some x) = Ret (L !! S i).
Proof.
  intros Hi. cbn.
  assert (EL : head_ :: L = (head_ :: take i L) ++ x :: drop (S i) L).
  { cbn [app]. f_equal. symmetry. by apply take_drop_middle. }
  pose proof (inv_height s L ks Hinv x) as Hh.
  rewrite (inv_next s L ks 0 (head_ :: take i L) x (drop (S i) L) Hinv); [| unfold kMaxHeight; lia|done|].
  - rewrite (lane_0 s L ks Hinv); [|rewrite EL; set_solver].
    rewrite head_lookup, lookup_drop. by rewrite Nat.add_0_r.
  - assert (x ∈ head_ :: L) by (rewrite EL; set_solver). specialize (Hh H). lia.
Qed.

Lemma not_head_in x : x ∈ L -> not_head x = Some x.
Proof.
  intros Hx. unfold not_head. pose proof (inv_nodup _ _ _ Hinv) as Hnd. apply list.NoDup_cons in Hnd as [Hh _].
  rewrite decide_False; [done|]. by intros ->.
Qed.

Lemma last_not_head l x : l ⊆ L -> list.last (head_ :: l) = Some x -> not_head x = list.last l.
Proof.
  intros Hsub Hx. destruct l as [|y l] using rev_ind; cbn in Hx.
  - injection Hx as <-. unfold not_head. by rewrite decide_True.
  - clear IHl. rewrite app_comm_cons, list.last_snoc in Hx. injection Hx as ->.
    rewrite list.last_snoc. apply not_head_in. set_solver.
Qed.

Lemma it_SeekToLast_at : it_SeekToLast s = Ret (list.last L).
Proof.
  unfold it_SeekToLast. destruct (FindLast_spec s L ks Hinv) as (y & -> & Hy). cbn. f_equal.
  by apply last_not_head.
Qed.

Lemma it_Prev_at i x : L !! i = Some x ->
  it_Prev compare_ s (Some x) = Ret (match i with O => None | S i => L !! i end).
Proof.
  intros Hi. destruct (it_key_at i x Hi) as (k & Hk & Ek). unfold it_Prev. rewrite Ek.
  pose proof (Forall_lookup_1 _ _ _ _ (inv_valid _ _ _ Hinv) Hk) as Hv.
  change (Ret ?a ≫= ?f) with (f a). cbv beta.
  destruct (split_nodes s L ks k Hinv) as (p & q & kp & kq & EL & Eks & Ekp & Ekq & Hp2 & Hq2 & Hp & Hq & _).
  destruct (FindLessThan_spec s L ks Hinv k Hv p q EL Hp Hq) as (y & -> & Hy). cbn. f_equal.
  rewrite (last_not_head p) by (done || (rewrite EL; set_solver)).
  assert (length p = i) as Hlen.
  { rewrite (list.Forall2_length _ _ _ Hp2), Ekp, (keys_lt_take i k Hk), length_take.
    apply lookup_lt_Some in Hk. lia. }
  rewrite list.last_lookup, Hlen. destruct i as [|i]; cbn.
  - by destruct p.
  - rewrite EL, lookup_app_l by lia. done.
Qed.
End read.

(** ** What the list promises *)

(** C24: [Insert] of a key no key of the list equals returns, whatever height
    the generator draws, and leaves every lane of the list linked and in
    strict key order with the new key at its place; [Contains] then answers
    for exactly the old keys and the new one. *)
Theorem skiplist_insert s L ks key : skip_inv s L ks -> valid key -> Forall (fun k => cmp k key <> Eq) ks ->
  exists s' L', Insert compare_ s key = Ret s' /\ skip_inv s' L' (ks_insert key ks)
  /\ forall k, valid k -> Contains compare_ s' k
       = Ret (bool_decide (cmp k key = Eq \/ Exists (fun k' => cmp k k' = Eq) ks)).
Proof.
  intros Hinv Hkey Hne. destruct (Insert_inv s L ks key Hinv Hkey Hne) as (s' & L' & E & Hinv').
  exists s', L'. split; [done|]. split; [done|]. intros k Hk. rewrite (Contains_spec _ _ _ Hinv' k Hk). f_equal.
  apply bool_decide_ext. unfold ks_insert, keys_lt, keys_ge. rewrite Exists_app, Exists_cons, !Exists_exists.
  setoid_rewrite <- list_elem_of_In. setoid_rewrite list_elem_of_filter.
  split; [naive_solver|]. intros [?|(y & Hy & Ey)]; [auto|].
  destruct (decide (cmp_lt cmp y key)); [left|right; right]; eauto.
Qed.

(** The iterator is at a place of the sorted key list: [Seek] goes to the
    first key at or after its target, [SeekToFirst] and [SeekToLast] to the
    ends, [Next] and [Prev] one place on and back (past either end it becomes
    invalid), and [key] and [Valid] answer for the place. *)
Theorem skiplist_iterator s L ks : skip_inv s L ks ->
  (forall i, it_Valid (L !! i) = bool_decide (i < length ks)%nat)
  /\ (forall i x, L !! i = Some x -> exists k, ks !! i = Some k /\ it_key s (Some x) = Ret k)
  /\ (forall target, valid target -> it_Seek compare_ s target = Ret (L !! length (keys_lt target ks)))
  /\ it_SeekToFirst s = Ret (L !! 0%nat)
  /\ it_SeekToLast s = Ret (L !! Nat.pred (length ks))
  /\ (forall i x, L !! i = Some x -> it_Next s (Some x) = Ret (L !! S i))
  /\ (forall i x, L !! i = Some x ->
        it_Prev compare_ s (Some x) = Ret (match i with O => None | S i => L !! i end)).
Proof.
  intros Hinv. split_and!.
  - intros i. by apply (at_valid s L ks).
  - intros i x. by apply (it_key_at s L ks).
  - intros target. by apply (it_Seek_at _ L).
  - by apply (it_SeekToFirst_at _ L ks).
  - rewrite (it_SeekToLast_at _ L ks Hinv), list.last_lookup. by rewrite (length_nodes_keys s L ks).
  - intros i x. by apply (it_Next_at _ L ks).
  - intros i x. by apply (it_Prev_at _ L ks).
Qed.
End invariant.

(** ** A list of integers *)

Definition Z_compare (a b : Z) : res Z := Ret (a - b).

#[export] Instance Z_compares : Compares Z_compare Z.compare (fun _ => True).
Proof.
  intros a b _ _. exists (a - b). split; [done|].
  destruct (Z.compare_spec a b); [apply Z.compare_eq_iff|apply Z.compare_lt_iff|apply Z.compare_gt_iff]; lia.
Qed.

Lemma skiplist_insert_witness : exists s' L', Insert Z_compare new_SkipList 7 = Ret s'
  /\ skip_inv Z.compare (fun _ => True) s' L' [7]
  /\ forall k, True -> Contains Z_compare s' k = Ret (bool_decide (Z.compare k 7 = Eq \/ Exists (fun k' => Z.compare k k' = Eq) [])).
Proof.
  apply (skiplist_insert Z_compare Z.compare (fun _ => True) new_SkipList [] [] 7);
    [apply new_SkipList_inv|done|constructor].
Defined.

Lemma skiplist_iterator_witness : exists s' L', Insert Z_compare new_SkipList 7 = Ret s'
  /\ skip_inv Z.compare (fun _ => True) s' L' [7]
  /\ it_Seek Z_compare s' 3 = Ret (L' !! 0%nat) /\ it_SeekToLast s' = Ret (L' !! 0%nat).
Proof.
  destruct (Insert_inv Z_compare Z.compare (fun _ => True) new_SkipList [] [] 7) as (s' & L' & E & Hinv);
    [apply new_SkipList_inv|done|constructor|].
  exists s', L'.
  destruct (skiplist_iterator Z_compare Z.compare (fun _ => True) s' L' [7] Hinv) as (_ & _ & Hs & _ & Hl & _).
  split; [exact E|]. split; [exact Hinv|]. split; [exact (Hs 3 I)|exact Hl].
Defined.

Example skiplist_runs :
  (s ← Insert Z_compare new_SkipList 30; s ← Insert Z_compare s 10; s ← Insert Z_compare s 20;
   n ← it_Seek Z_compare s 11; k ← it_key s n; n ← it_Prev Z_compare s n; k' ← it_key s n;
   c ← Contains Z_compare s 30; mret (k, k', c)) = Ret (20, 10, true).
Proof. by vm_compute. Qed.
