(* ===== verification/MemTable.v ===== *)
(** * MemTable: db/memtable.h, db/memtable.cc

    The table of the most recent writes: a skip list of entries

      key_size (varint32) | user key and tag | value_size (varint32) | value

    A [const char*] into the arena is modelled by the bytes from there on.
    The theorems read a table as the history of the writes it got. *)

From S2P Require Import Prelude Coding DbFormat Status SkipList.

Section memtable.
Context `{Comparator}.

(** [GetLengthPrefixedSlice(data)]: the slice, and the bytes that follow it. *)
Definition arena_slice (data : bytes) : res (bytes * bytes) :=
  match GetVarint32Ptr (take 5 data) with
  | None => Undef
  | Some (len, q) =>
      let p := drop (length (take 5 data) - length q) data in
      if decide (len <= Z.of_nat (length p))
      then Ret (take (Z.to_nat len) p, drop (Z.to_nat len) p) else Undef
  end.

(** [MemTable::KeyComparator::operator()]. *)
Definition KeyComparator (aptr bptr : bytes) : res Z :=
  a ← arena_slice aptr;
  b ← arena_slice bptr;
  InternalCompare (fst a) (fst b).

Definition EncodeKey (target : bytes) : bytes :=
  PutVarint32 [] (u32 (Z.of_nat (length target))) ++ target.

Record MemTable := mkMemTable { refs_ : Z; table_ : SkipList bytes }.

Definition new_MemTable : MemTable := mkMemTable 0 new_SkipList.

(** [Ref] and [Unref]; the latter deletes the table at zero: [None]. *)
Definition Ref (m : MemTable) : MemTable := mkMemTable (refs_ m + 1) (table_ m).
Definition Unref (m : MemTable) : option MemTable :=
  let refs := refs_ m - 1 in if decide (refs <= 0) then None else Some (mkMemTable refs (table_ m)).

Definition Add (m : MemTable) (s : Z) (t : ValueType) (key value : bytes) : res MemTable :=
  let key_size := Z.of_nat (length key) in
  let val_size := Z.of_nat (length value) in
  let internal_key_size := key_size + 8 in
  let buf :=
    EncodeVarint32 (u32 internal_key_size) ++ key ++ EncodeFixed64 (PackSequenceAndType s t)
    ++ EncodeVarint32 (u32 val_size) ++ value in
  table ← Insert KeyComparator (table_ m) buf;
  Ret (mkMemTable (refs_ m) table).

(** [Get] leaves in [value] and [s] what it does not set. *)
Definition Get (m : MemTable) (key : LookupKey) (value : bytes) (s : Status.t)
    : res (bool * bytes * Status.t) :=
  it ← it_Seek KeyComparator (table_ m) (memtable_key key);
  if it_Valid it then
    entry ← it_key (table_ m) it;
    match GetVarint32Ptr (take 5 entry) with
    | None => Undef
    | Some (key_length, q) =>
        let key_ptr := drop (length (take 5 entry) - length q) entry in
        let n := Z.to_nat (u32 (key_length - 8)) in
        if decide (n <= length key_ptr)%nat then
          if decide (Compare (take n key_ptr) (lookup_user_key key) = 0) then
            tag ← DecodeFixed64 (drop n key_ptr);
            let c := Z.land tag 255 in
            if c =? type_code kTypeValue then
              v ← arena_slice (drop (Z.to_nat key_length) key_ptr);
              Ret (true, fst v, s)
            else if c =? type_code kTypeDeletion then Ret (true, value, Status.NotFound [] [])
            else Ret (false, value, s)
          else Ret (false, value, s)
        else Undef
    end
  else Ret (false, value, s).

(** ** [MemTableIterator], over the iterator of the skip list *)

Definition mi_Valid (it : option nat) : bool := it_Valid it.
Definition mi_Seek (m : MemTable) (k : bytes) : res (option nat) :=
  it_Seek KeyComparator (table_ m) (EncodeKey k).
Definition mi_SeekToFirst (m : MemTable) : res (option nat) := it_SeekToFirst (table_ m).
Definition mi_SeekToLast (m : MemTable) : res (option nat) := it_SeekToLast (table_ m).
Definition mi_Next (m : MemTable) (it : option nat) : res (option nat) := it_Next (table_ m) it.
Definition mi_Prev (m : MemTable) (it : option nat) : res (option nat) :=
  it_Prev KeyComparator (table_ m) it.
Definition mi_key (m : MemTable) (it : option nat) : res bytes :=
  e ← it_key (table_ m) it; s ← arena_slice e; Ret (fst s).
Definition mi_value (m : MemTable) (it : option nat) : res bytes :=
  e ← it_key (table_ m) it; s ← arena_slice e; v ← arena_slice (snd s); Ret (fst v).
Definition mi_status : Status.t := Status.OK.

(** ** Entries *)

(** A write: its internal key and its value. *)
Abbreviation write := (ParsedInternalKey * bytes)%type.

Definition encode_write (e : write) : bytes :=
  PutLengthPrefixedSlice (PutLengthPrefixedSlice [] (encode_key (fst e))) (snd e).

Definition good_key (k : ParsedInternalKey) : Prop :=
  valid_seq (sequence k) /\ Z.of_nat (length (user_key k)) + 8 < 2^32.
Definition good_write (e : write) : Prop :=
  good_key (fst e) /\ Z.of_nat (length (snd e)) < 2^32.

Lemma arena_length s rest : Z.of_nat (length s) < 2^32 -> exists q,
  GetVarint32Ptr (take 5 (PutLengthPrefixedSlice [] s ++ rest)) = Some (Z.of_nat (length s), q)
  /\ drop (length (take 5 (PutLengthPrefixedSlice [] s ++ rest)) - length q)
       (PutLengthPrefixedSlice [] s ++ rest) = s ++ rest.
Proof.
  intros Hs. unfold PutLengthPrefixedSlice, PutVarint32. rewrite u32_small by lia. cbn [app].
  set (v := Z.of_nat (length s)). rewrite <- app_assoc.
  assert (Hl : (length (EncodeVarint32 v) <= 5)%nat) by (unfold EncodeVarint32; repeat case_match; cbn; lia).
  rewrite take_app_ge by lia. rewrite GetVarint32Ptr_encode by lia. eexists. split; [done|].
  by rewrite length_app, Nat.add_sub, drop_app_length.
Qed.

Lemma arena_slice_put s rest : Z.of_nat (length s) < 2^32 ->
  arena_slice (PutLengthPrefixedSlice [] s ++ rest) = Ret (s, rest).
Proof.
  intros Hs. destruct (arena_length s rest Hs) as (q & E1 & E2). unfold arena_slice.
  rewrite E1, E2, decide_True by (rewrite length_app; lia).
  rewrite Nat2Z.id. by rewrite take_app_length, drop_app_length.
Qed.

(** What an arena pointer is to the order: the internal key it leads to. *)
Definition entry_key (e : bytes) : ParsedInternalKey :=
  match arena_slice e with
  | Ret (ik, _) => default (mkParsed [] 0 kTypeValue) (ParseInternalKey ik)
  | _ => mkParsed [] 0 kTypeValue
  end.
Definition entry_cmp : bytes -> bytes -> comparison := cmp_on entry_key ikey_cmp.

(** Pointers the order is used on: length-prefixed encodings of good keys. *)
Definition valid_entry (e : bytes) : Prop :=
  exists k rest, good_key k /\ e = PutLengthPrefixedSlice [] (encode_key k) ++ rest.

Lemma arena_slice_key k rest : good_key k ->
  arena_slice (PutLengthPrefixedSlice [] (encode_key k) ++ rest) = Ret (encode_key k, rest).
Proof.
  intros [_ Hk]. apply arena_slice_put. rewrite length_encode_key. unfold InternalKeyEncodingLength. lia.
Qed.

Lemma entry_key_put k rest : good_key k ->
  entry_key (PutLengthPrefixedSlice [] (encode_key k) ++ rest) = k.
Proof. intros Hk. unfold entry_key. rewrite arena_slice_key by done. by rewrite ParseInternalKey_encode by apply Hk. Qed.

#[export] Instance entry_compares : Compares KeyComparator entry_cmp valid_entry.
Proof.
  intros a b (ka & ra & Ha & ->) (kb & rb & Hb & ->). unfold KeyComparator, entry_cmp, cmp_on.
  rewrite !entry_key_put, !arena_slice_key by done. cbn [mbind res_bind fst].
  apply InternalCompare_encode; [apply Ha|apply Hb].
Qed.

#[export] Instance entry_cmp_order : CmpOrder entry_cmp := _.

Lemma encode_write_app e :
  encode_write e = PutLengthPrefixedSlice [] (encode_key (fst e)) ++ PutLengthPrefixedSlice [] (snd e).
Proof. unfold encode_write. by rewrite PutLengthPrefixedSlice_app. Qed.

Lemma encode_write_valid e : good_write e -> valid_entry (encode_write e).
Proof. intros [Hk _]. rewrite encode_write_app. by eexists _, _. Qed.

Lemma entry_key_write e : good_write e -> entry_key (encode_write e) = fst e.
Proof. intros [Hk _]. rewrite encode_write_app. by apply entry_key_put. Qed.

(** ** A table as a sorted list of writes *)

Definition write_cmp : write -> write -> comparison := cmp_on fst ikey_cmp.

Record mem_inv (m : MemTable) (L : list nat) (es : list write) : Prop := {
  mi_skip : skip_inv entry_cmp valid_entry (table_ m) L (map encode_write es);
  mi_good : Forall good_write es;
}.

Lemma new_MemTable_inv : mem_inv new_MemTable [] [].
Proof. split; [apply new_SkipList_inv|constructor]. Qed.

Lemma mem_sorted m L es : mem_inv m L es -> StronglySorted (cmp_lt write_cmp) es.
Proof.
  intros [Hs Hg]. apply inv_sorted in Hs. induction Hg as [|e es He Hg IH]; [constructor|].
  cbn [map] in Hs. apply StronglySorted_inv in Hs as [Hs Hlt]. constructor; [by apply IH|].
  clear IH Hs. induction Hg as [|e' es He' Hg IH]; [constructor|].
  cbn [map] in Hlt. apply list.Forall_cons in Hlt as [H1 H2]. constructor; [|by apply IH].
  unfold cmp_lt, entry_cmp, write_cmp, cmp_on in *. by rewrite !entry_key_write in H1.
Qed.

(** The writes before a key, and the others. *)
Definition writes_lt (k : ParsedInternalKey) (es : list write) : list write :=
  filter (fun e => cmp_lt ikey_cmp (fst e) k) es.
Definition writes_ge (k : ParsedInternalKey) (es : list write) : list write :=
  filter (fun e => ~ cmp_lt ikey_cmp (fst e) k) es.

Lemma keys_of_writes k t es : entry_key t = k -> Forall good_write es ->
  keys_lt entry_cmp t (map encode_write es) = map encode_write (writes_lt k es)
  /\ keys_ge entry_cmp t (map encode_write es) = map encode_write (writes_ge k es).
Proof.
  intros Ht Hg. unfold keys_lt, keys_ge, writes_lt, writes_ge.
  induction Hg as [|e es He Hg [IH1 IH2]]; [done|]. cbn [map]. rewrite !filter_cons.
  assert (cmp_lt entry_cmp (encode_write e) t <-> cmp_lt ikey_cmp (fst e) k) as Hiff.
  { unfold cmp_lt, entry_cmp, cmp_on. by rewrite entry_key_write, Ht by done. }
  destruct (decide (cmp_lt ikey_cmp (fst e) k)) as [Hlt|Hge].
  - rewrite decide_True, !decide_False by tauto. cbn [map]. by rewrite IH1, IH2.
  - rewrite decide_False, !decide_True by tauto. cbn [map]. by rewrite IH1, IH2.
Qed.

Lemma Add_inv m L es k v : mem_inv m L es -> good_write (k, v) ->
  Forall (fun e => ikey_cmp (fst e) k <> Eq) es ->
  exists m' L', Add m (sequence k) (type k) (user_key k) v = Ret m'
    /\ mem_inv m' L' (writes_lt k es ++ (k, v) :: writes_ge k es).
Proof.
  intros [Hs Hg] Hgood Hne. pose proof Hgood as [[Hseq Hk] Hv]. cbn [fst snd] in *.
  unfold Add.
  set (buf := _ ++ user_key k ++ _).
  assert (buf = encode_write (k, v)) as ->.
  { subst buf. rewrite encode_write_app. unfold PutLengthPrefixedSlice, PutVarint32. cbn [fst snd app].
    rewrite length_encode_key. unfold InternalKeyEncodingLength. rewrite Nat2Z.inj_add, encode_key_eq.
    by rewrite <- !app_assoc. }
  destruct (Insert_inv KeyComparator entry_cmp valid_entry (table_ m) L _ (encode_write (k, v)) Hs)
    as (t & L' & -> & Ht).
  { by apply encode_write_valid. }
  { clear -Hne Hg Hgood. induction Hg as [|e es He Hg IH]; [constructor|]. cbn [map].
    apply list.Forall_cons in Hne as [H1 H2]. constructor; [|by apply IH].
    unfold entry_cmp, cmp_on. by rewrite !entry_key_write. }
  cbn. eexists _, L'. split; [done|]. split; cbn.
  - unfold ks_insert in Ht. destruct (keys_of_writes k (encode_write (k, v)) es) as [E1 E2];
      [by apply entry_key_write|done|]. rewrite E1, E2 in Ht. by rewrite map_app.
  - pose proof (Forall_forall good_write es) as HF. rewrite HF in Hg.
    apply Forall_app. split; [|constructor; [done|]]; apply Forall_forall;
      intros e [_ He]%list_elem_of_In%list_elem_of_filter; by apply Hg, list_elem_of_In.
Qed.

(** ** A table as a history of writes *)

(** The writes, oldest first: their sequence numbers increase. *)
Definition in_order (h : list write) : Prop :=
  StronglySorted (fun a b : write => sequence (fst a) < sequence (fst b)) h.

Record represents (m : MemTable) (h : list write) : Prop := {
  rep_order : in_order h;
  rep_table : exists L es, es ≡ₚ h /\ mem_inv m L es;
}.

(** The newest write to user key [u] that snapshot [s] sees. *)
Definition visible (u : bytes) (s : Z) (e : write) : Prop :=
  ucmp (user_key (fst e)) u = Eq /\ sequence (fst e) <= s.
#[export] Instance visible_dec u s e : Decision (visible u s e).
Proof. unfold visible. apply _. Defined.
Definition newest (u : bytes) (s : Z) (h : list write) : option write := list.last (filter (visible u s) h).

Lemma new_represents : represents new_MemTable [].
Proof. split; [constructor|]. exists [], []. split; [done|apply new_MemTable_inv]. Qed.

Lemma in_order_snoc h e : in_order h -> Forall (fun x : write => sequence (fst x) < sequence (fst e)) h ->
  in_order (h ++ [e]).
Proof.
  intros Hh He. apply StronglySorted_app. split; [|split; [done|by repeat constructor]].
  intros x y Hx Hy. apply list_elem_of_singleton in Hy as ->. rewrite Forall_forall in He.
  by apply He, list_elem_of_In.
Qed.

Lemma writes_perm k es : writes_lt k es ++ writes_ge k es ≡ₚ es.
Proof.
  unfold writes_lt, writes_ge. induction es as [|e es IH]; [done|]. rewrite !filter_cons.
  destruct (decide (cmp_lt ikey_cmp (fst e) k)).
  - rewrite decide_False by tauto. cbn. by rewrite IH.
  - rewrite decide_True by done. rewrite <- Permutation_middle. by rewrite IH.
Qed.

(** Adding a write with a new sequence number appends it to the history. *)
Lemma Add_represents m h s t u v : represents m h -> valid_seq s ->
  Z.of_nat (length u) + 8 < 2^32 -> Z.of_nat (length v) < 2^32 ->
  Forall (fun x : write => sequence (fst x) < s) h ->
  exists m', Add m s t u v = Ret m' /\ represents m' (h ++ [(mkParsed u s t, v)]).
Proof.
  intros [Ho (L & es & Hp & Hm)] Hs Hu Hv Hnew.
  destruct (Add_inv m L es (mkParsed u s t) v Hm) as (m' & L' & E & Hm').
  { done. }
  { rewrite Hp. eapply list.Forall_impl; [exact Hnew|]. cbn. intros e He.
    unfold ikey_cmp, cmp_then, cmp_on, cmp_flip. cbn. destruct (ucmp _ _); try done.
    destruct (Z.compare_spec s (sequence (fst e))); [lia|done..]. }
  exists m'. split; [exact E|]. split; [by apply in_order_snoc|].
  eexists L', _. split; [|exact Hm']. rewrite <- Permutation_middle, writes_perm.
  rewrite <- Permutation_cons_append. by rewrite Hp.
Qed.

(** What a lookup key skips: smaller user keys and newer writes. *)
Lemma ge_lookup u s e :
  ~ cmp_lt ikey_cmp (fst e) (mkParsed u s kValueTypeForSeek)
  <-> ucmp (user_key (fst e)) u = Gt \/ visible u s e.
Proof.
  unfold cmp_lt, visible, ikey_cmp, cmp_then, cmp_on, cmp_flip. cbn.
  destruct (ucmp (user_key (fst e)) u); [|naive_solver..].
  destruct (Z.compare_spec s (sequence (fst e))) as [Es|Hlt|Hgt].
  - destruct (type (fst e)); cbn; split; try done; right; split; done || lia.
  - split; [done|]. intros [?|[_ ?]]; [done|lia].
  - split; [|done]. right. split; [done|lia].
Qed.

Lemma last_filter_max (P : write -> Prop) `{forall x, Decision (P x)} h e :
  in_order h -> list.last (filter P h) = Some e ->
  P e /\ e ∈ h /\ forall x, x ∈ h -> P x -> sequence (fst x) <= sequence (fst e).
Proof.
  intros Ho He. apply last_Some in He as [l' El].
  assert (e ∈ filter P h) as Hin by (rewrite El; set_solver). apply list_elem_of_filter in Hin as [HP Hin].
  split; [done|]. split; [done|]. intros x Hx HPx.
  assert (Hx' : x ∈ filter P h) by (by apply list_elem_of_filter).
  assert (Hs : in_order (filter P h)).
  { clear -Ho. unfold in_order in *. induction Ho as [|y h Ho IH Hy]; [constructor|]. rewrite filter_cons.
    destruct (decide (P y)); [|done]. constructor; [done|]. rewrite Forall_forall in *. intros z Hz.
    apply Hy. apply list_elem_of_In in Hz. apply list_elem_of_filter in Hz as [_ Hz]. by apply list_elem_of_In. }
  rewrite El in Hs, Hx'. apply elem_of_app in Hx' as [Hx'|Hx'%list_elem_of_singleton].
  - apply StronglySorted_app in Hs as [Hlt _]. specialize (Hlt x e Hx' ltac:(set_solver)). cbn in Hlt. lia.
  - subst x. lia.
Qed.

Lemma in_order_inj h a b : in_order h -> a ∈ h -> b ∈ h -> sequence (fst a) = sequence (fst b) -> a = b.
Proof.
  intros Ho Ha Hb E. induction Ho as [|x h Ho IH Hx]; [set_solver|]. rewrite Forall_forall in Hx.
  apply elem_of_cons in Ha as [->|Ha], Hb as [->|Hb]; [done| | |by apply IH].
  - apply list_elem_of_In, Hx in Hb. lia.
  - apply list_elem_of_In, Hx in Ha. lia.
Qed.

(** The first write not before the lookup key is the newest one visible, when
    its user key is the one looked up. *)
Lemma newest_first u s es h : es ≡ₚ h -> in_order h -> StronglySorted (cmp_lt write_cmp) es ->
  newest u s h =
    match head (writes_ge (mkParsed u s kValueTypeForSeek) es) with
    | Some e => if decide (ucmp (user_key (fst e)) u = Eq) then Some e else None
    | None => None
    end.
Proof.
  intros Hp Ho Hs. unfold newest. set (t := mkParsed u s kValueTypeForSeek).
  assert (Hge : forall e, e ∈ writes_ge t es <-> e ∈ h /\ (ucmp (user_key (fst e)) u = Gt \/ visible u s e)).
  { intros e. subst t. unfold writes_ge. rewrite list_elem_of_filter, ge_lookup, Hp. tauto. }
  destruct (list.last (filter (visible u s) h)) as [e|] eqn:El.
  - destruct (last_filter_max _ _ _ Ho El) as (Hve & Hin & Hmax).
    assert (e ∈ writes_ge t es) as Hee by (apply Hge; auto).
    assert (Hs' : StronglySorted (cmp_lt write_cmp) (writes_ge t es)).
    { clear -Hs. unfold writes_ge. induction Hs as [|y l Ho IH Hy]; [constructor|]. rewrite filter_cons.
      destruct (decide _); [|done]. constructor; [done|]. rewrite Forall_forall in *. intros z Hz.
      apply Hy. apply list_elem_of_In in Hz. apply list_elem_of_filter in Hz as [_ Hz]. by apply list_elem_of_In. }
    destruct (writes_ge t es) as [|x l] eqn:Ew; [set_solver|]. cbn [head].
    assert (Hx : x ∈ h /\ (ucmp (user_key (fst x)) u = Gt \/ visible u s x)) by (apply Hge; set_solver).
    destruct Hx as [Hxh Hx]. apply elem_of_cons in Hee as [->|Hel].
    { rewrite decide_True; [done|]. apply Hve. }
    assert (Hlt : cmp_lt write_cmp x e).
    { apply StronglySorted_inv in Hs' as [_ Hf]. rewrite Forall_forall in Hf. by apply Hf, list_elem_of_In. }
    pose proof Hlt as Hlt'. unfold cmp_lt, write_cmp, cmp_on, ikey_cmp, cmp_then, cmp_on, cmp_flip in Hlt.
    destruct Hve as [Hu Hse]. rewrite (cmp_eq_r ucmp _ _ _ Hu) in Hlt.
    destruct Hx as [Hx|[Hxu Hxs]]; [by rewrite Hx in Hlt|]. rewrite Hxu in Hlt.
    exfalso. apply (irreflexivity (cmp_lt write_cmp) e).
    assert (x = e) as ->; [|done]. apply (in_order_inj h); [done..|]. specialize (Hmax x Hxh ltac:(done)).
    destruct (Z.compare_spec (sequence (fst e)) (sequence (fst x))); [done|lia|done].
  - destruct (writes_ge t es) as [|x l] eqn:Ew; [done|]. cbn [head].
    assert (Hx : x ∈ h /\ (ucmp (user_key (fst x)) u = Gt \/ visible u s x)) by (apply Hge; set_solver).
    destruct Hx as [Hxh [Hx|Hx]]; [by rewrite decide_False by congruence|].
    apply last_None in El. assert (x ∈ filter (visible u s) h) by (by apply list_elem_of_filter).
    rewrite El in *. set_solver.
Qed.

(** Where seeking a key puts the iterator: at the first write not before it. *)
Lemma seek_write m L es k rest : mem_inv m L es -> good_key k ->
  exists it, it_Seek KeyComparator (table_ m) (PutLengthPrefixedSlice [] (encode_key k) ++ rest) = Ret it
    /\ match head (writes_ge k es) with
       | Some e => it_Valid it = true /\ it_key (table_ m) it = Ret (encode_write e) /\ good_write e
       | None => it_Valid it = false
       end.
Proof.
  intros [Hs Hg] Hk. set (t := _ ++ rest).
  assert (Ht : entry_key t = k) by by apply entry_key_put.
  assert (Hv : valid_entry t) by (by eexists _, _).
  destruct (keys_of_writes k t es Ht Hg) as [El Er].
  rewrite (it_Seek_at KeyComparator entry_cmp valid_entry (table_ m) L _ Hs t Hv), El, length_map.
  eexists. split; [done|]. set (i := length (writes_lt k es)).
  assert (Hi : map encode_write es !! i = encode_write <$> head (writes_ge k es)).
  { pose proof (split_nodes entry_cmp valid_entry (table_ m) L _ t Hs) as (p & q & kp & kq & _ & Ek & Ep & Eq & _).
    rewrite El in Ep. rewrite Er in Eq. subst kp kq. rewrite Ek. subst i.
    rewrite lookup_app_r by (by rewrite length_map). rewrite length_map, Nat.sub_diag.
    by destruct (writes_ge k es). }
  rewrite (at_valid entry_cmp valid_entry (table_ m) L _ Hs).
  destruct (head (writes_ge k es)) as [e|] eqn:Eh; cbn [fmap option_fmap option_map] in Hi.
  - pose proof (lookup_lt_Some _ _ _ Hi) as Hlt. split; [by apply bool_decide_true|].
    rewrite <- (length_nodes_keys entry_cmp valid_entry (table_ m) L _ Hs) in Hlt.
    apply lookup_lt_is_Some in Hlt as [x Hx]. rewrite Hx.
    destruct (it_key_at entry_cmp valid_entry (table_ m) L _ Hs i x Hx) as (e' & He' & ->).
    split; [congruence|]. rewrite Forall_forall in Hg. apply Hg, list_elem_of_In.
    destruct (writes_ge k es) as [|e0 l] eqn:Ew; [done|]. injection Eh as ->.
    assert (e ∈ writes_ge k es) as Hin by (rewrite Ew; set_solver).
    unfold writes_ge in Hin. apply list_elem_of_filter in Hin. tauto.
  - apply bool_decide_false. apply lookup_ge_None in Hi. lia.
Qed.

(** What [Get] does at an entry. *)
Lemma entry_parts e : good_write e -> exists q,
  GetVarint32Ptr (take 5 (encode_write e)) = Some (Z.of_nat (length (user_key (fst e))) + 8, q)
  /\ drop (length (take 5 (encode_write e)) - length q) (encode_write e)
     = user_key (fst e) ++ EncodeFixed64 (PackSequenceAndType (sequence (fst e)) (type (fst e)))
       ++ PutLengthPrefixedSlice [] (snd e).
Proof.
  intros [[Hs Hk] Hv]. rewrite encode_write_app.
  destruct (arena_length (encode_key (fst e)) (PutLengthPrefixedSlice [] (snd e))) as (q & E1 & E2).
  { rewrite length_encode_key. unfold InternalKeyEncodingLength. lia. }
  exists q. rewrite E1, E2, length_encode_key, encode_key_eq. unfold InternalKeyEncodingLength.
  split; [do 2 f_equal; lia|]. by rewrite <- app_assoc.
Qed.

Definition lookup_result (u : bytes) (s : Z) (h : list write) (value : bytes) (st : Status.t)
    : bool * bytes * Status.t :=
  match newest u s h with
  | None => (false, value, st)
  | Some (k, v) =>
      match type k with
      | kTypeValue => (true, v, st)
      | kTypeDeletion => (true, value, Status.NotFound [] [])
      end
  end.

Lemma Get_represents m h u s value st : represents m h -> valid_seq s -> Z.of_nat (length u) + 8 < 2^32 ->
  Get m (LookupKey_make u s) value st = Ret (lookup_result u s h value st).
Proof.
  intros [Ho (L & es & Hp & Hm)] Hs Hu. unfold lookup_result.
  rewrite (newest_first u s es h Hp Ho (mem_sorted _ _ _ Hm)).
  set (t := mkParsed u s kValueTypeForSeek). destruct (lookup_key_parts u s) as (Ek & _ & Eu).
  assert (Ek' : memtable_key (LookupKey_make u s) = PutLengthPrefixedSlice [] (encode_key t) ++ []).
  { rewrite Ek, app_nil_r. unfold PutLengthPrefixedSlice, PutVarint32. cbn [app].
    rewrite length_encode_key. unfold InternalKeyEncodingLength. by rewrite Nat2Z.inj_add. }
  unfold Get. rewrite Ek', Eu. destruct (seek_write m L es t [] Hm) as (it & -> & Hit); [done|].
  change (Ret ?a ≫= ?f) with (f a). cbv beta. destruct (head (writes_ge t es)) as [e|]; [|by rewrite Hit].
  destruct Hit as (-> & -> & Hg). change (Ret ?a ≫= ?f) with (f a). cbv beta.
  destruct (entry_parts e Hg) as (q & -> & ->). destruct Hg as [[Hes Hek] Hev].
  rewrite Z.add_simpl_r, u32_small, Nat2Z.id by lia. rewrite decide_True by (rewrite length_app; lia).
  rewrite take_app_length, drop_app_length.
  destruct (decide (Compare (user_key (fst e)) u = 0)) as [Ec|Ec]; apply Z.compare_eq_iff in Ec || rewrite <- Z.compare_eq_iff in Ec;
    fold (ucmp (user_key (fst e)) u) in Ec; [rewrite decide_True by done|by rewrite decide_False].
  rewrite DecodeFixed64_Encode by (by apply pack_range). change (Ret ?a ≫= ?f) with (f a). cbv beta zeta.
  destruct (unpack (sequence (fst e)) (type (fst e)) Hes) as [-> _].
  rewrite (drop_app_ge (user_key (fst e))) by lia. rewrite drop_app_length' by (rewrite length_EncodeFixed64; lia).
  rewrite <- (app_nil_r (PutLengthPrefixedSlice [] (snd e))), arena_slice_put by done.
  by destruct e as [[uk sq []] v].
Qed.

(** ** The iterator *)

(** The keys and values from an iterator position on. *)
Fixpoint mi_walk (fuel : nat) (m : MemTable) (it : option nat) : res (list (bytes * bytes)) :=
  match fuel with
  | O => NoFuel
  | S fuel =>
      if mi_Valid it then
        k ← mi_key m it; v ← mi_value m it; it ← mi_Next m it; l ← mi_walk fuel m it; Ret ((k, v) :: l)
      else Ret []
  end.

Definition contents (es : list write) : list (bytes * bytes) := map (fun e => (encode_key (fst e), snd e)) es.

Lemma mi_at m L es i e : mem_inv m L es -> es !! i = Some e -> exists x, L !! i = Some x
  /\ mi_key m (Some x) = Ret (encode_key (fst e)) /\ mi_value m (Some x) = Ret (snd e)
  /\ mi_Next m (Some x) = Ret (L !! S i).
Proof.
  intros [Hs Hg] Hi. pose proof (length_nodes_keys entry_cmp valid_entry _ _ _ Hs) as Hlen.
  rewrite length_map in Hlen. pose proof (lookup_lt_Some _ _ _ Hi) as Hlt. rewrite <- Hlen in Hlt.
  apply lookup_lt_is_Some in Hlt as [x Hx]. exists x. split; [done|].
  destruct (it_key_at entry_cmp valid_entry _ _ _ Hs i x Hx) as (e' & He' & Ek).
  change (map encode_write es) with (encode_write <$> es) in He'. rewrite list_lookup_fmap, Hi in He'.
  injection He' as <-. pose proof (Forall_lookup_1 _ _ _ _ Hg Hi) as [Hgk Hgv].
  unfold mi_key, mi_value. rewrite Ek. change (Ret ?a ≫= ?f) with (f a). cbv beta.
  rewrite encode_write_app, arena_slice_key by done. change (Ret ?a ≫= ?f) with (f a). cbv beta. cbn [fst snd].
  split; [done|]. split.
  - by rewrite <- (app_nil_r (PutLengthPrefixedSlice [] (snd e))), arena_slice_put.
  - apply (it_Next_at KeyComparator entry_cmp valid_entry _ _ _ Hs i x Hx).
Qed.

Lemma mi_walk_at fuel m L es i : mem_inv m L es -> (length es - i < fuel)%nat ->
  mi_walk fuel m (L !! i) = Ret (contents (drop i es)).
Proof.
  intros Hm. revert i. induction fuel as [|fuel IH]; intros i Hf; [lia|]. cbn [mi_walk].
  unfold mi_Valid. rewrite (at_valid entry_cmp valid_entry _ _ _ (mi_skip _ _ _ Hm)), length_map.
  destruct (es !! i) as [e|] eqn:Hi.
  - pose proof (lookup_lt_Some _ _ _ Hi). rewrite bool_decide_true by done.
    destruct (mi_at m L es i e Hm Hi) as (x & -> & -> & -> & ->). cbn [mbind res_bind].
    rewrite IH by lia. cbn. by rewrite (drop_S es e i Hi).
  - apply lookup_ge_None in Hi. rewrite bool_decide_false by lia. by rewrite drop_ge.
Qed.

Lemma mi_Seek_at m L es k : mem_inv m L es -> good_key k ->
  mi_Seek m (encode_key k) = Ret (L !! length (writes_lt k es)).
Proof.
  intros [Hs Hg] Hk. unfold mi_Seek.
  assert (EncodeKey (encode_key k) = PutLengthPrefixedSlice [] (encode_key k) ++ []) as -> by by rewrite app_nil_r.
  rewrite (it_Seek_at KeyComparator entry_cmp valid_entry (table_ m) L _ Hs) by (by eexists _, _).
  destruct (keys_of_writes k (PutLengthPrefixedSlice [] (encode_key k) ++ []) es) as [-> _];
    [by apply entry_key_put|done|]. by rewrite length_map.
Qed.

Lemma writes_split k es : StronglySorted (cmp_lt write_cmp) es -> es = writes_lt k es ++ writes_ge k es.
Proof.
  intros Hs. unfold writes_lt, writes_ge. induction Hs as [|e es Hs IH He]; [done|]. rewrite !filter_cons.
  destruct (decide (cmp_lt ikey_cmp (fst e) k)) as [Hlt|Hge].
  - rewrite decide_False by tauto. cbn. by f_equal.
  - rewrite decide_True by done.
    assert (filter (fun e => cmp_lt ikey_cmp (fst e) k) es = []) as E.
    { clear -Hge He. induction He as [|e' es He' _ IH]; [done|]. rewrite filter_cons_False; [done|].
      intros Hlt. apply Hge. by transitivity (fst e'). }
    rewrite E in IH |- *. cbn in *. by f_equal.
Qed.

(** ** Properties *)

Fixpoint add_all (m : MemTable) (h : list write) : res MemTable :=
  match h with
  | [] => Ret m
  | e :: h => m ← Add m (sequence (fst e)) (type (fst e)) (user_key (fst e)) (snd e); add_all m h
  end.

Lemma add_all_represents h m h0 : represents m h0 -> in_order (h0 ++ h) -> Forall good_write h ->
  exists m', add_all m h = Ret m' /\ represents m' (h0 ++ h).
Proof.
  revert m h0. induction h as [|e h IH]; intros m h0 Hm Ho Hg; cbn.
  { exists m. by rewrite app_nil_r. }
  apply list.Forall_cons in Hg as [[[Hs Hk] Hv] Hg].
  destruct (Add_represents m h0 (sequence (fst e)) (type (fst e)) (user_key (fst e)) (snd e) Hm Hs Hk Hv)
    as (m1 & -> & Hm1).
  { apply StronglySorted_app in Ho as [Hlt _]. apply Forall_forall. intros x Hx%list_elem_of_In.
    apply Hlt; [done|set_solver]. }
  change (Ret ?a ≫= ?f) with (f a). cbv beta. replace (h0 ++ e :: h) with ((h0 ++ [e]) ++ h) in * by by rewrite <- app_assoc.
  apply IH; [|done|done]. by destruct e as [[] ].
Qed.

(** C21: a table that was given writes in the order of their sequence numbers
    answers [Get] for a user key and a snapshot with the newest write to that
    key the snapshot sees: its value, [NotFound] for a deletion, and false
    when there is none.  No such run fails, whatever the skip list's random
    heights. *)
Theorem memtable_get h : in_order h -> Forall good_write h ->
  exists m, add_all new_MemTable h = Ret m
  /\ forall u s value st, valid_seq s -> Z.of_nat (length u) + 8 < 2^32 ->
       Get m (LookupKey_make u s) value st = Ret (lookup_result u s h value st).
Proof.
  intros Ho Hg. destruct (add_all_represents h new_MemTable [] new_represents Ho Hg) as (m & E & Hm).
  exists m. split; [exact E|]. intros. by apply Get_represents.
Qed.

(** The iterator of a table goes through all its writes in internal key
    order, from the first one or from the first at or after the key sought. *)
Theorem memtable_iterates m h : represents m h ->
  exists es, es ≡ₚ h /\ StronglySorted (cmp_lt write_cmp) es
  /\ (exists it, mi_SeekToFirst m = Ret it /\ mi_walk (S (length es)) m it = Ret (contents es))
  /\ forall k, good_key k -> exists it, mi_Seek m (encode_key k) = Ret it
       /\ mi_walk (S (length es)) m it = Ret (contents (writes_ge k es)).
Proof.
  intros [_ (L & es & Hp & Hm)]. exists es. split; [done|]. split; [by eapply mem_sorted|]. split.
  - eexists. split; [apply (it_SeekToFirst_at KeyComparator entry_cmp valid_entry _ _ _ (mi_skip _ _ _ Hm))|].
    rewrite (mi_walk_at _ _ _ _ _ Hm) by lia. done.
  - intros k Hk. eexists. split; [by apply mi_Seek_at|]. rewrite (mi_walk_at _ _ _ _ _ Hm) by lia.
    rewrite (writes_split k es) at 2 by (by eapply mem_sorted). by rewrite drop_app_length.
Qed.
End memtable.

(** ** A table with an overwritten and a deleted key *)

Definition sample : list (ParsedInternalKey * bytes) :=
  [(mkParsed (lit "k") 1 kTypeValue, lit "old"); (mkParsed (lit "j") 2 kTypeValue, lit "jv");
   (mkParsed (lit "k") 3 kTypeValue, lit "new"); (mkParsed (lit "j") 4 kTypeDeletion, [])].

Lemma sample_good : in_order sample /\ Forall good_write sample.
Proof. split; repeat constructor; cbn; try lia; vm_compute; congruence. Qed.

Lemma memtable_get_witness : exists m, add_all new_MemTable sample = Ret m
  /\ Get m (LookupKey_make (lit "k") 2) [] None = Ret (true, lit "old", None)
  /\ Get m (LookupKey_make (lit "k") 9) [] None = Ret (true, lit "new", None)
  /\ Get m (LookupKey_make (lit "j") 9) [] None = Ret (true, [], Status.NotFound [] [])
  /\ Get m (LookupKey_make (lit "x") 9) [] None = Ret (false, [], None).
Proof.
  destruct (memtable_get sample (proj1 sample_good) (proj2 sample_good)) as (m & E & HG).
  exists m. split; [exact E|].
  repeat (split; [rewrite HG; [vm_compute; reflexivity|split; vm_compute; discriminate|vm_compute; reflexivity]|]).
  rewrite HG; [vm_compute; reflexivity|split; vm_compute; discriminate|vm_compute; reflexivity].
Defined.

Lemma memtable_iterates_witness : exists m, add_all new_MemTable sample = Ret m
  /\ exists es, es ≡ₚ sample /\ exists it, mi_SeekToFirst m = Ret it /\ mi_walk (S (length es)) m it = Ret (contents es).
Proof.
  destruct (add_all_represents sample new_MemTable [] new_represents (proj1 sample_good) (proj2 sample_good)) as (m & E & Hm).
  exists m. split; [exact E|]. destruct (memtable_iterates m sample Hm) as (es & Hp & _ & Hf & _).
  exists es. split; [exact Hp|exact Hf].
Defined.
