(* ===== verification/WriteBatch.v ===== *)
(** * WriteBatch: include/leveldb/write_batch.h, db/write_batch.cc

    A batch is a byte string: an eight-byte sequence number, a four-byte count
    and a record for each [Put] and [Delete].  [Iterate] replays it on a
    handler; [InsertInto] on a memtable, numbering the writes. *)

From S2P Require Import Prelude CLib Coding DbFormat Status SkipList MemTable.

Definition kHeader : nat := 12.

Definition Clear : bytes := replicate kHeader NUL.

(** ** [WriteBatchInternal]: the header fields *)

Definition Count (rep : bytes) : res Z := n ← DecodeFixed32 (drop 8 rep); Ret (i32 n).
Definition SetCount (rep : bytes) (n : Z) : res bytes :=
  if decide (kHeader <= length rep)%nat then Ret (splice rep 8 (EncodeFixed32 (u32 n))) else Undef.
Definition Sequence (rep : bytes) : res Z := DecodeFixed64 rep.
Definition SetSequence (rep : bytes) (seq : Z) : res bytes :=
  if decide (8 <= length rep)%nat then Ret (splice rep 0 (EncodeFixed64 seq)) else Undef.
Definition Contents (rep : bytes) : bytes := rep.
Definition ByteSize (rep : bytes) : nat := length rep.

(** ** Building a batch *)

Definition Put (rep key value : bytes) : res bytes :=
  n ← Count rep;
  rep ← SetCount rep (n + 1);
  Ret (PutLengthPrefixedSlice (PutLengthPrefixedSlice (rep ++ [zb (type_code kTypeValue)]) key) value).

Definition Delete (rep key : bytes) : res bytes :=
  n ← Count rep;
  rep ← SetCount rep (n + 1);
  Ret (PutLengthPrefixedSlice (rep ++ [zb (type_code kTypeDeletion)]) key).

Definition SetContents (rep contents : bytes) : bytes := contents.

Definition Append (dst src : bytes) : res bytes :=
  n ← Count dst;
  m ← Count src;
  dst ← SetCount dst (n + m);
  Ret (dst ++ drop kHeader src).

(** ** Replaying it *)

(** [WriteBatch::Handler]: what [Iterate] calls, on the handler's state. *)
Class Handler (T : Type) := {
  on_Put : T -> bytes -> bytes -> res T;
  on_Delete : T -> bytes -> res T;
}.

Section iterate.
Context `{Handler T}.

(** The loop of [Iterate]; each round uses up a byte of the input at least. *)
Fixpoint iterate_loop (fuel : nat) (rep input : bytes) (found : Z) (handler : T) : res (Status.t * T) :=
  match fuel with
  | O => NoFuel
  | S fuel =>
      match input with
      | [] =>
          count ← Count rep;
          Ret (if decide (found = count) then Status.OK
               else Status.Corruption (lit "WriteBatch has wrong count") [], handler)
      | tag :: input =>
          let found := found + 1 in
          if schar tag =? type_code kTypeValue then
            match GetLengthPrefixedSlice input with
            | (Some key, input) =>
                match GetLengthPrefixedSlice input with
                | (Some value, input) =>
                    handler ← on_Put handler key value; iterate_loop fuel rep input found handler
                | (None, _) => Ret (Status.Corruption (lit "bad WriteBatch Put") [], handler)
                end
            | (None, _) => Ret (Status.Corruption (lit "bad WriteBatch Put") [], handler)
            end
          else if schar tag =? type_code kTypeDeletion then
            match GetLengthPrefixedSlice input with
            | (Some key, input) =>
                handler ← on_Delete handler key; iterate_loop fuel rep input found handler
            | (None, _) => Ret (Status.Corruption (lit "bad WriteBatch Delete") [], handler)
            end
          else Ret (Status.Corruption (lit "unknown WriteBatch tag") [], handler)
      end
  end.

Definition Iterate (rep : bytes) (handler : T) : res (Status.t * T) :=
  if decide (length rep < kHeader)%nat
  then Ret (Status.Corruption (lit "malformed WriteBatch (too small)") [], handler)
  else iterate_loop (S (length rep)) rep (drop kHeader rep) 0 handler.
End iterate.

(** [MemTableInserter]: the next sequence number and the table. *)
Record MemTableInserter := mkInserter { sequence_ : Z; mem_ : MemTable }.

Definition inserter_Put `{Comparator} (i : MemTableInserter) (key value : bytes) : res MemTableInserter :=
  m ← Add (mem_ i) (sequence_ i) kTypeValue key value; Ret (mkInserter (u64 (sequence_ i + 1)) m).
Definition inserter_Delete `{Comparator} (i : MemTableInserter) (key : bytes) : res MemTableInserter :=
  m ← Add (mem_ i) (sequence_ i) kTypeDeletion key []; Ret (mkInserter (u64 (sequence_ i + 1)) m).

#[export] Instance inserter_handler `{Comparator} : Handler MemTableInserter := {
  on_Put := inserter_Put; on_Delete := inserter_Delete;
}.

Definition InsertInto `{Comparator} (rep : bytes) (memtable : MemTable) : res (Status.t * MemTableInserter) :=
  seq ← Sequence rep;
  Iterate rep (mkInserter seq memtable).

(** ** A batch as a list of operations *)

Inductive op := OpPut (key value : bytes) | OpDelete (key : bytes).

Definition good_op (o : op) : Prop :=
  match o with
  | OpPut k v => Z.of_nat (length k) < 2^32 /\ Z.of_nat (length v) < 2^32
  | OpDelete k => Z.of_nat (length k) < 2^32
  end.

Definition encode_op (o : op) : bytes :=
  match o with
  | OpPut k v => PutLengthPrefixedSlice (PutLengthPrefixedSlice [zb 1] k) v
  | OpDelete k => PutLengthPrefixedSlice [zb 0] k
  end.

Definition do_op (rep : bytes) (o : op) : res bytes :=
  match o with OpPut k v => Put rep k v | OpDelete k => Delete rep k end.
Fixpoint do_ops (rep : bytes) (os : list op) : res bytes :=
  match os with [] => Ret rep | o :: os => rep ← do_op rep o; do_ops rep os end.

Definition on_op `{Handler T} (h : T) (o : op) : res T :=
  match o with OpPut k v => on_Put h k v | OpDelete k => on_Delete h k end.
Fixpoint on_ops `{Handler T} (h : T) (os : list op) : res T :=
  match os with [] => Ret h | o :: os => h ← on_op h o; on_ops h os end.

(** The batch that holds [os] and sequence number [seq]. *)
Definition batch (seq : Z) (os : list op) : bytes :=
  EncodeFixed64 seq ++ EncodeFixed32 (Z.of_nat (length os)) ++ concat (map encode_op os).

(** ** Building *)

Lemma batch_Count seq os : Z.of_nat (length os) < 2^31 -> Count (batch seq os) = Ret (Z.of_nat (length os)).
Proof.
  intros Hn. unfold Count, batch. rewrite (drop_app_length' (EncodeFixed64 seq)) by done.
  rewrite DecodeFixed32_Encode by lia. cbn [mbind res_bind]. by rewrite i32_small by lia.
Qed.

Lemma batch_Sequence seq os : 0 <= seq < 2^64 -> Sequence (batch seq os) = Ret seq.
Proof. intros Hs. unfold Sequence, batch. by rewrite DecodeFixed64_Encode. Qed.

Lemma batch_length seq os : (kHeader <= length (batch seq os))%nat.
Proof. unfold batch. rewrite !length_app, length_EncodeFixed64, length_EncodeFixed32. unfold kHeader. lia. Qed.

(** Overwriting one field of the header. *)
Lemma splice_middle {A} (a b c k : list A) : length k = length b -> splice (a ++ b ++ c) (length a) k = a ++ k ++ c.
Proof.
  intros Hk. unfold splice. rewrite take_app_length. do 2 f_equal.
  rewrite drop_app_ge by lia. rewrite drop_app_length' by lia. done.
Qed.

Lemma batch_SetCount seq os n : 0 <= n < 2^32 ->
  SetCount (batch seq os) n = Ret (EncodeFixed64 seq ++ EncodeFixed32 n ++ concat (map encode_op os)).
Proof.
  intros Hn. unfold SetCount. rewrite decide_True by apply batch_length. f_equal. unfold batch.
  rewrite u32_small by lia. exact (splice_middle (EncodeFixed64 seq) _ _ (EncodeFixed32 n) eq_refl).
Qed.

Lemma batch_SetSequence seq seq' os : SetSequence (batch seq os) seq' = Ret (batch seq' os).
Proof.
  unfold SetSequence. pose proof (batch_length seq os). rewrite decide_True by (unfold kHeader in *; lia).
  reflexivity.
Qed.

Lemma Clear_batch : Clear = batch 0 [].
Proof. by vm_compute. Qed.

Lemma do_op_batch seq os o : Z.of_nat (length os) + 1 < 2^31 ->
  do_op (batch seq os) o = Ret (batch seq (os ++ [o])).
Proof.
  intros Hn. assert (E : EncodeFixed64 seq ++ EncodeFixed32 (Z.of_nat (length os) + 1) ++ concat (map encode_op os)
    ++ encode_op o = batch seq (os ++ [o])).
  { unfold batch. rewrite map_app, concat_app, length_app, Nat2Z.inj_add. cbn [map concat length]. by rewrite app_nil_r. }
  destruct o as [k v|k]; cbn [do_op]; unfold Put, Delete; rewrite batch_Count by lia; cbn [mbind res_bind];
    rewrite batch_SetCount by lia; cbn [mbind res_bind]; rewrite <- E; f_equal; cbn [encode_op].
  - rewrite (PutLengthPrefixedSlice_app (_ ++ _) k), (PutLengthPrefixedSlice_app [zb 1] k).
    rewrite (PutLengthPrefixedSlice_app (_ ++ PutLengthPrefixedSlice [] k) v).
    rewrite (PutLengthPrefixedSlice_app ([zb 1] ++ PutLengthPrefixedSlice [] k) v). by rewrite <- !app_assoc.
  - rewrite (PutLengthPrefixedSlice_app (_ ++ _) k), (PutLengthPrefixedSlice_app [zb 0] k). by rewrite <- !app_assoc.
Qed.

Lemma do_ops_batch seq os os' : Z.of_nat (length os + length os') < 2^31 ->
  do_ops (batch seq os) os' = Ret (batch seq (os ++ os')).
Proof.
  revert os. induction os' as [|o os' IH]; intros os Hn; cbn [do_ops]; [by rewrite app_nil_r|].
  cbn [length] in Hn. rewrite do_op_batch by lia. cbn [mbind res_bind].
  rewrite IH by (rewrite length_app; cbn [length]; lia). by rewrite <- app_assoc.
Qed.

Lemma Append_batch seq seq' os os' : Z.of_nat (length os + length os') < 2^31 ->
  Append (batch seq os) (batch seq' os') = Ret (batch seq (os ++ os')).
Proof.
  intros Hn. unfold Append. rewrite !batch_Count by lia. cbn [mbind res_bind].
  rewrite batch_SetCount by lia. cbn [mbind res_bind]. f_equal. unfold batch at 2.
  rewrite map_app, concat_app, length_app, Nat2Z.inj_add, <- !app_assoc. do 3 f_equal.
Qed.

(** ** Replaying *)

Section replay.
Context `{Handler T}.

Lemma iterate_ops fuel rep os found h : Forall good_op os -> (length os < fuel)%nat ->
  iterate_loop fuel rep (concat (map encode_op os)) found h =
    (h' ← on_ops h os; iterate_loop (fuel - length os) rep [] (found + Z.of_nat (length os)) h').
Proof.
  intros Hg. revert fuel found h. induction Hg as [|o os Ho Hg IH]; intros fuel found h Hf.
  { cbn. by rewrite Z.add_0_r, Nat.sub_0_r. }
  destruct fuel as [|fuel]; [cbn in Hf; lia|]. cbn [map concat on_ops on_op length] in *.
  replace (found + Z.of_nat (S (length os))) with (found + 1 + Z.of_nat (length os)) by lia.
  replace (S fuel - S (length os))%nat with (fuel - length os)%nat by lia.
  destruct o as [k v|k]; cbn [encode_op on_op].
  - destruct Ho as [Hk Hv].
    rewrite (PutLengthPrefixedSlice_app _ v), (PutLengthPrefixedSlice_app [zb 1] k), <- !app_assoc.
    cbn [app iterate_loop]. change (schar (zb 1) =? type_code kTypeValue) with true. cbn [schar].
    rewrite !GetLengthPrefixedSlice_put by done. destruct (on_Put h k v) as [h'| | |]; cbn [mbind res_bind]; try done.
    apply IH. lia.
  - rewrite (PutLengthPrefixedSlice_app [zb 0] k), <- !app_assoc.
    cbn [app iterate_loop]. change (schar (zb 0) =? type_code kTypeValue) with false.
    change (schar (zb 0) =? type_code kTypeDeletion) with true.
    rewrite !GetLengthPrefixedSlice_put by done. destruct (on_Delete h k) as [h'| | |]; cbn [mbind res_bind]; try done.
    apply IH. lia.
Qed.

Lemma length_encode_ops os : (length os <= length (concat (map encode_op os)))%nat.
Proof.
  induction os as [|o os IH]; cbn [map concat length]; [lia|]. rewrite length_app.
  assert (1 <= length (encode_op o))%nat; [|lia].
  destruct o; cbn [encode_op]; rewrite !(PutLengthPrefixedSlice_app (_ :: _)) || idtac;
    unfold PutLengthPrefixedSlice, PutVarint32; rewrite !length_app; cbn [length]; lia.
Qed.

Lemma Iterate_batch seq os h : Forall good_op os -> Z.of_nat (length os) < 2^31 ->
  Iterate (batch seq os) h = (h' ← on_ops h os; Ret (Status.OK, h')).
Proof.
  intros Hg Hn. unfold Iterate. rewrite decide_False by (pose proof (batch_length seq os); lia).
  assert (drop kHeader (batch seq os) = concat (map encode_op os)) as ->.
  { unfold batch. rewrite app_assoc. by rewrite drop_app_length' by done. }
  assert (Hl : (length os <= length (batch seq os))%nat).
  { pose proof (length_encode_ops os). unfold batch. rewrite !length_app. lia. }
  rewrite iterate_ops by (done || lia).
  destruct (on_ops h os) as [h'| | |]; cbn [mbind res_bind]; try done.
  destruct (S (length (batch seq os)) - length os)%nat as [|k] eqn:Ek; [lia|]. cbn [iterate_loop].
  rewrite batch_Count by done. cbn [mbind res_bind]. by rewrite decide_True by lia.
Qed.
End replay.

(** ** Into a memtable *)

(** The writes of a batch, numbered from [seq]. *)
Definition write_of (seq : Z) (o : op) : ParsedInternalKey * bytes :=
  match o with
  | OpPut k v => (mkParsed k seq kTypeValue, v)
  | OpDelete k => (mkParsed k seq kTypeDeletion, [])
  end.
Fixpoint writes_of (seq : Z) (os : list op) : list (ParsedInternalKey * bytes) :=
  match os with [] => [] | o :: os => write_of seq o :: writes_of (seq + 1) os end.

(** An internal key is eight bytes longer than the user key. *)
Definition small_op (o : op) : Prop :=
  match o with
  | OpPut k v => Z.of_nat (length k) + 8 < 2^32 /\ Z.of_nat (length v) < 2^32
  | OpDelete k => Z.of_nat (length k) + 8 < 2^32
  end.

Lemma small_good os : Forall small_op os -> Forall good_op os.
Proof. intros Hs. eapply list.Forall_impl; [exact Hs|]. intros [k v|k]; cbn; lia. Qed.

Lemma inserter_ops `{Comparator} os seq m h : represents m h -> Forall small_op os ->
  0 <= seq -> seq + Z.of_nat (length os) <= kMaxSequenceNumber ->
  Forall (fun x : ParsedInternalKey * bytes => sequence (fst x) < seq) h ->
  exists m', on_ops (mkInserter seq m) os = Ret (mkInserter (seq + Z.of_nat (length os)) m')
    /\ represents m' (h ++ writes_of seq os).
Proof.
  intros Hm Hs. revert seq m h Hm. induction Hs as [|o os Ho Hs IH]; intros seq m h Hm H0 Hmax Hh.
  { exists m. cbn. by rewrite Z.add_0_r, app_nil_r. }
  cbn [length] in Hmax. rewrite Nat2Z.inj_succ in Hmax. unfold kMaxSequenceNumber in *. change (Z.shiftl 1 56) with (2^56) in *.
  assert (Hv : valid_seq seq) by (unfold valid_seq, kMaxSequenceNumber; change (Z.shiftl 1 56) with (2^56); lia).
  assert (Hu : u64 (seq + 1) = seq + 1) by (apply u64_small; lia).
  assert (exists m1, on_op (mkInserter seq m) o = Ret (mkInserter (seq + 1) m1)
    /\ represents m1 (h ++ [write_of seq o])) as (m1 & E & Hm1).
  { destruct o as [k v|k]; cbn [on_op on_Put on_Delete inserter_handler write_of small_op] in *;
      unfold inserter_Put, inserter_Delete; cbn [mem_ sequence_].
    - destruct Ho. destruct (Add_represents m h seq kTypeValue k v) as (m1 & -> & ?); try done.
      exists m1. cbn [mbind res_bind]. by rewrite Hu.
    - destruct (Add_represents m h seq kTypeDeletion k []) as (m1 & -> & ?); try done.
      exists m1. cbn [mbind res_bind]. by rewrite Hu. }
  cbn [on_ops]. rewrite E. cbn [mbind res_bind].
  destruct (IH (seq + 1) m1 _ Hm1) as (m' & E' & Hm'); [lia|lia| |].
  { apply Forall_app. split; [|constructor; [destruct o; cbn; lia|constructor]].
    eapply list.Forall_impl; [exact Hh|]. cbn. lia. }
  exists m'. rewrite E'. split; [do 2 f_equal; cbn [length]; lia|]. cbn [writes_of].
  by rewrite <- app_assoc in Hm'.
Qed.

Lemma InsertInto_batch `{Comparator} os seq m h : represents m h -> Forall small_op os ->
  0 <= seq -> seq + Z.of_nat (length os) <= kMaxSequenceNumber -> Z.of_nat (length os) < 2^31 ->
  Forall (fun x : ParsedInternalKey * bytes => sequence (fst x) < seq) h ->
  exists m', InsertInto (batch seq os) m = Ret (Status.OK, mkInserter (seq + Z.of_nat (length os)) m')
    /\ represents m' (h ++ writes_of seq os).
Proof.
  intros Hm Hs H0 Hmax Hn Hh. destruct (inserter_ops os seq m h Hm Hs H0 Hmax Hh) as (m' & E & Hm').
  exists m'. split; [|done]. unfold InsertInto.
  unfold kMaxSequenceNumber in Hmax. change (Z.shiftl 1 56) with (2^56) in Hmax.
  rewrite batch_Sequence by lia. cbn [mbind res_bind]. rewrite Iterate_batch by (done || by apply small_good).
  by rewrite E.
Qed.

Lemma writes_of_app seq os os' : writes_of seq (os ++ os') = writes_of seq os ++ writes_of (seq + Z.of_nat (length os)) os'.
Proof.
  revert seq. induction os as [|o os IH]; intros seq; cbn [app writes_of length]; [by rewrite Z.add_0_r|].
  rewrite IH. do 3 f_equal. lia.
Qed.

Lemma writes_of_sequence seq os :
  Forall (fun x : ParsedInternalKey * bytes => seq <= sequence (fst x) < seq + Z.of_nat (length os)) (writes_of seq os).
Proof.
  revert seq. induction os as [|o os IH]; intros seq; [constructor|]. cbn [writes_of length]. constructor.
  - destruct o; cbn; lia.
  - eapply list.Forall_impl; [apply IH|]. cbn. lia.
Qed.

(** ** Properties *)

(** [Put]s and [Delete]s on a cleared batch, and [Append] of another such
    batch, return, and [Count] and [Iterate] then answer for all of them: the
    count is their number, and the handler is called with each in order, with
    the keys and values given and nothing else. *)
Theorem write_batch_replays `{Handler T} os os' seq h : Forall good_op os -> Forall good_op os' ->
  Z.of_nat (length os + length os') < 2^31 -> 0 <= seq < 2^64 ->
  exists b b' b2,
    do_ops Clear os = Ret b /\ do_ops Clear os' = Ret b'
    /\ (b1 ← Append b b'; SetSequence b1 seq) = Ret b2
    /\ Count b2 = Ret (Z.of_nat (length os + length os')) /\ Sequence b2 = Ret seq
    /\ Iterate b2 h = (h' ← on_ops h (os ++ os'); Ret (Status.OK, h')).
Proof.
  intros Hg Hg' Hn Hs. exists (batch 0 os), (batch 0 os'), (batch seq (os ++ os')).
  rewrite Clear_batch. split; [apply (do_ops_batch 0 []); cbn; lia|]. split; [apply (do_ops_batch 0 []); cbn; lia|].
  rewrite Append_batch by done. cbn [mbind res_bind]. split; [apply batch_SetSequence|].
  rewrite batch_Count, batch_Sequence by (done || (rewrite length_app; lia)). rewrite length_app.
  split; [done|]. split; [done|]. apply Iterate_batch; [by apply Forall_app|rewrite length_app; lia].
Qed.

Definition log_handler : Handler (list op) := {|
  on_Put h k v := Ret (h ++ [OpPut k v]);
  on_Delete h k := Ret (h ++ [OpDelete k]);
|}.

Lemma write_batch_replays_witness : exists b b' b2,
  do_ops Clear [OpPut (lit "k") (lit "v"); OpDelete (lit "j")] = Ret b /\ do_ops Clear [OpPut (lit "j") []] = Ret b'
  /\ (b1 ← Append b b'; SetSequence b1 100) = Ret b2 /\ Count b2 = Ret 3 /\ Sequence b2 = Ret 100
  /\ Iterate (H:=log_handler) b2 [] = Ret (Status.OK, [OpPut (lit "k") (lit "v"); OpDelete (lit "j"); OpPut (lit "j") []]).
Proof.
  apply (write_batch_replays (H:=log_handler) [OpPut (lit "k") (lit "v"); OpDelete (lit "j")] [OpPut (lit "j") []] 100 []);
    [repeat constructor|repeat constructor|vm_compute; reflexivity|split; [discriminate|vm_compute; reflexivity]].
Defined.

Lemma GetLengthPrefixedSlice_shrinks i o r :
  GetLengthPrefixedSlice i = (Some o, r) -> (length r < length i)%nat.
Proof.
  unfold GetLengthPrefixedSlice, GetVarint32. destruct (GetVarint32Ptr i) as [[len p]|] eqn:E; [|done].
  apply GetVarint32Ptr_inv in E as (_ & pre & -> & Hp). case_decide; [|done]. intros [= <- <-].
  rewrite length_app, length_drop. lia.
Qed.

Lemma iterate_loop_safe `{Handler T} fuel rep input found h :
  (forall h k v, exists h', on_Put h k v = Ret h') -> (forall h k, exists h', on_Delete h k = Ret h') ->
  (kHeader <= length rep)%nat -> (length input < fuel)%nat ->
  exists st h' os, iterate_loop fuel rep input found h = Ret (st, h') /\ on_ops h os = Ret h'
    /\ (st = Status.OK -> Count rep = Ret (found + Z.of_nat (length os)))
    /\ (Status.ok st = false -> Status.IsCorruption st = true).
Proof.
  intros HP HD Hr. revert input found h. induction fuel as [|fuel IH]; intros input found h Hf; [lia|].
  assert (Hbad : forall msg, exists st h' os,
    Ret (Status.Corruption msg [], h) = Ret (st, h') /\ on_ops h os = Ret h'
    /\ (st = Status.OK -> Count rep = Ret (found + Z.of_nat (length os)))
    /\ (Status.ok st = false -> Status.IsCorruption st = true)).
  { intros msg. by eexists _, h, []. }
  cbn [iterate_loop]. destruct input as [|tag input].
  - assert (exists c, Count rep = Ret c) as [c Hc].
    { unfold Count, DecodeFixed32. pose proof (length_drop rep 8) as Hd. unfold kHeader in Hr.
      destruct (drop 8 rep) as [|b0 [|b1 [|b2 [|b3 r]]]]; cbn [length] in Hd; try lia. eexists. reflexivity. }
    rewrite Hc. cbn [mbind res_bind]. eexists _, h, []. split; [done|]. split; [done|].
    case_decide as E; split; try done. intros _. cbn. by rewrite E, Z.add_0_r.
  - cbn [length] in Hf. destruct (_ =? type_code kTypeValue); [|destruct (_ =? type_code kTypeDeletion); [|apply Hbad]].
    + destruct (GetLengthPrefixedSlice input) as [[k|] r] eqn:Ek; [|apply Hbad].
      destruct (GetLengthPrefixedSlice r) as [[v|] r'] eqn:Ev; [|apply Hbad].
      apply GetLengthPrefixedSlice_shrinks in Ek, Ev. destruct (HP h k v) as [h1 E1]. rewrite E1. cbn [mbind res_bind].
      destruct (IH r' (found + 1) h1) as (st & h' & os & ? & ? & Hc & ?); [lia|].
      exists st, h', (OpPut k v :: os). split; [done|]. cbn [on_ops on_op]. rewrite E1. split; [done|]. split; [|done].
      intros Hst. rewrite (Hc Hst). f_equal. cbn [length]. lia.
    + destruct (GetLengthPrefixedSlice input) as [[k|] r] eqn:Ek; [|apply Hbad].
      apply GetLengthPrefixedSlice_shrinks in Ek. destruct (HD h k) as [h1 E1]. rewrite E1. cbn [mbind res_bind].
      destruct (IH r (found + 1) h1) as (st & h' & os & ? & ? & Hc & ?); [lia|].
      exists st, h', (OpDelete k :: os). split; [done|]. cbn [on_ops on_op]. rewrite E1. split; [done|]. split; [|done].
      intros Hst. rewrite (Hc Hst). f_equal. cbn [length]. lia.
Qed.

(** Whatever bytes a batch holds, replaying them on a handler whose calls
    return comes to an end with a status: success only when the handler was
    called exactly as often as the count says, corruption otherwise; bytes too
    few for a header are corruption before any call. *)
Theorem write_batch_checked `{Handler T} rep h :
  (forall h k v, exists h', on_Put h k v = Ret h') -> (forall h k, exists h', on_Delete h k = Ret h') ->
  exists st h' os, Iterate rep h = Ret (st, h') /\ on_ops h os = Ret h'
  /\ (st = Status.OK -> Count rep = Ret (Z.of_nat (length os)))
  /\ (Status.ok st = false -> Status.IsCorruption st = true)
  /\ ((length rep < kHeader)%nat -> Status.ok st = false /\ os = []).
Proof.
  intros HP HD. unfold Iterate. destruct (decide (length rep < kHeader)%nat) as [Hs|Hs].
  { eexists _, h, []. split; [done|]. split; [done|]. split; [done|]. by split. }
  destruct (iterate_loop_safe (S (length rep)) rep (drop kHeader rep) 0 h HP HD) as (st & h' & os & ? & ? & ? & ?);
    [lia|rewrite length_drop; lia|]. exists st, h', os. split; [done|]. split; [done|]. split; [done|]. split; [done|lia].
Qed.

Lemma write_batch_checked_witness : exists st h' os,
  Iterate (H:=log_handler) ((lit "twelve bytes and a bad tag")) [] = Ret (st, h') /\ on_ops (H:=log_handler) [] os = Ret h'.
Proof.
  destruct (write_batch_checked (H:=log_handler) (lit "twelve bytes and a bad tag") []) as (st & h' & os & E & Eo & _);
    [intros; eexists; reflexivity|intros; eexists; reflexivity|].
  exists st, h', os. split; [exact E|exact Eo].
Defined.

(** [InsertInto] a table that represents a history, of a batch whose
    sequence number is above the history's, numbers the batch's operations
    from there, and the table then represents the history followed by them. *)
Theorem batch_into_memtable `{Comparator} os seq m h : represents m h -> Forall small_op os ->
  0 <= seq -> seq + Z.of_nat (length os) <= kMaxSequenceNumber -> Z.of_nat (length os) < 2^31 ->
  Forall (fun x : ParsedInternalKey * bytes => sequence (fst x) < seq) h ->
  exists m', InsertInto (batch seq os) m = Ret (Status.OK, mkInserter (seq + Z.of_nat (length os)) m')
    /\ represents m' (h ++ writes_of seq os).
Proof.
  exact (InsertInto_batch os seq m h).
Qed.

Lemma batch_into_memtable_witness : exists m',
  InsertInto (batch 5 [OpPut (lit "k") (lit "v"); OpDelete (lit "j")]) new_MemTable = Ret (Status.OK, mkInserter 7 m')
  /\ represents m' [(mkParsed (lit "k") 5 kTypeValue, lit "v"); (mkParsed (lit "j") 6 kTypeDeletion, [])].
Proof.
  apply (batch_into_memtable [OpPut (lit "k") (lit "v"); OpDelete (lit "j")] 5 new_MemTable []);
    [apply new_represents|repeat constructor|discriminate|vm_compute; discriminate|vm_compute; reflexivity|constructor].
Defined.
