(* ===== verification/Bloom.v ===== *)
(** * Bloom: util/hash.cc, util/bloom.cc, include/leveldb/filter_policy.h

    The hash of keys, the filter policy interface and its Bloom filter. *)

From S2P Require Import Prelude Coding Double.

(** ** [Hash] *)

Definition hash_m : Z := 0xc6a4a793.
Definition hash_r : Z := 24.

(** The loop over four bytes at a time: the hash and the bytes left. *)
Fixpoint hash_words (data : bytes) (h : Z) {struct data} : res (Z * bytes) :=
  match data with
  | _ :: _ :: _ :: _ :: rest =>
      w ← DecodeFixed32 data;
      let h := u32 (h + w) in
      let h := u32 (h * hash_m) in
      let h := Z.lxor h (Z.shiftr h 16) in
      hash_words rest h
  | _ => Ret (h, data)
  end.

(** The [switch]; a [char] is signed, and the shifted value is cut to 32 bits. *)
Definition hash_last (h : Z) (b0 : byte) : Z :=
  let h := u32 (h + schar b0) in
  let h := u32 (h * hash_m) in
  Z.lxor h (Z.shiftr h hash_r).
Definition hash_tail (h : Z) (data : bytes) : Z :=
  match data with
  | [b0; b1; b2] => hash_last (u32 (u32 (h + Z.shiftl (schar b2) 16) + Z.shiftl (schar b1) 8)) b0
  | [b0; b1] => hash_last (u32 (h + Z.shiftl (schar b1) 8)) b0
  | [b0] => hash_last h b0
  | _ => h
  end.

Definition Hash (data : bytes) (seed : Z) : res Z :=
  let h := u32 (Z.lxor seed (u64 (Z.of_nat (length data) * hash_m))) in
  '(h, rest) ← hash_words data h;
  Ret (hash_tail h rest).

(** ** The interface *)

(** What include/leveldb/filter_policy.h asks of a policy: [CreateFilter]
    appends a filter to its argument, and the filter matches every key it was
    made of.  [n] is an [int], so at most 2^31 - 1 keys are passed. *)
Class FilterPolicy := {
  CreateFilter : list bytes -> bytes -> res bytes;
  KeyMayMatch : bytes -> bytes -> res bool;
  CreateFilter_matches keys dst : Z.of_nat (length keys) < 2^31 ->
    exists f, CreateFilter keys dst = Ret (dst ++ f)
      /\ Forall (fun k => KeyMayMatch k f = Ret true) keys;
}.

(** ** [BloomFilterPolicy] *)

Definition BloomHash (key : bytes) : res Z := Hash key 0xbc9f1d34.

Record BloomFilterPolicy := mkBloom { bits_per_key_ : Z; k_ : Z }.

(** The double nearest 0.69. *)
Definition c069 : double := SpecFloat.S754_finite false 6214967485771284 (-53).

Definition new_BloomFilterPolicy (bits_per_key : Z) : res BloomFilterPolicy :=
  k ← to_int (double_mul (double_of_Z bits_per_key) c069) 0 (2^64 - 1);
  let k := if decide (k < 1) then 1 else k in
  let k := if decide (k > 30) then 30 else k in
  Ret (mkBloom (u64 bits_per_key) k).

(** [array[bitpos/8] |= (1 << (bitpos % 8))]. *)
Definition or_bit (array : bytes) (bitpos : Z) : res bytes :=
  b ← of_option (array !! Z.to_nat (bitpos / 8));
  Ret (<[Z.to_nat (bitpos / 8) := zb (Z.lor (bz b) (Z.shiftl 1 (bitpos mod 8)))]> array).

Fixpoint probe_loop (k : nat) (h delta bits : Z) (array : bytes) : res bytes :=
  match k with
  | O => Ret array
  | S k =>
      if decide (bits = 0) then Undef
      else array ← or_bit array (h mod bits); probe_loop k (u32 (h + delta)) delta bits array
  end.

(** [(h >> 17) | (h << 15)]. *)
Definition bloom_delta (h : Z) : Z := Z.lor (Z.shiftr h 17) (u32 (Z.shiftl h 15)).

Fixpoint add_keys (k : nat) (keys : list bytes) (bits : Z) (array : bytes) : res bytes :=
  match keys with
  | [] => Ret array
  | key :: keys =>
      h ← BloomHash key;
      array ← probe_loop k h (bloom_delta h) bits array;
      add_keys k keys bits array
  end.

Definition bloom_CreateFilter (p : BloomFilterPolicy) (keys : list bytes) (dst : bytes) : res bytes :=
  let bits := u64 (Z.of_nat (length keys) * bits_per_key_ p) in
  let bits := if decide (bits < 64) then 64 else bits in
  let nbytes := u64 (bits + 7) / 8 in
  let bits := nbytes * 8 in
  let array := replicate (Z.to_nat nbytes) NUL ++ [zb (k_ p)] in
  array ← add_keys (Z.to_nat (k_ p)) keys bits array;
  Ret (dst ++ array).

Fixpoint match_loop (k : nat) (h delta bits : Z) (array : bytes) : res bool :=
  match k with
  | O => Ret true
  | S k =>
      let bitpos := h mod bits in
      b ← of_option (array !! Z.to_nat (bitpos / 8));
      if decide (Z.land (schar b) (Z.shiftl 1 (bitpos mod 8)) = 0) then Ret false
      else match_loop k (u32 (h + delta)) delta bits array
  end.

Definition bloom_KeyMayMatch (key bloom_filter : bytes) : res bool :=
  let len := length bloom_filter in
  if decide (len < 2)%nat then Ret false
  else
    let bits := Z.of_nat (len - 1) * 8 in
    c ← of_option (bloom_filter !! (len - 1)%nat);
    let k := u64 (schar c) in
    if decide (k > 30) then Ret true
    else
      h ← BloomHash key;
      match_loop (Z.to_nat k) h (bloom_delta h) bits bloom_filter.

(** ** The hash is a 32-bit number *)

Lemma hash_last_range h b : 0 <= hash_last h b < 2^32.
Proof.
  unfold hash_last. apply lxor_range; [lia|apply u32_range|].
  pose proof (u32_range (u32 (h + schar b) * hash_m)) as H. rewrite Z.shiftr_div_pow2 by (unfold hash_r; lia).
  unfold hash_r. split; [apply Z.div_pos; lia|]. apply Z.div_lt_upper_bound; lia.
Qed.

Lemma hash_words_range data h : 0 <= h < 2^32 ->
  exists h' rest, hash_words data h = Ret (h', rest) /\ 0 <= h' < 2^32.
Proof.
  revert h. induction data as [data IH] using (induction_ltof1 _ length). unfold ltof in IH. intros h Hh.
  destruct data as [|b0 [|b1 [|b2 [|b3 rest]]]]; try (cbn; eauto).
  cbn [hash_words]. unfold DecodeFixed32. cbn [mbind res_bind]. apply IH; [cbn; lia|].
  set (x := u32 (u32 _ * hash_m)). assert (0 <= x < 2^32) by apply u32_range.
  apply lxor_range; [lia|done|]. rewrite Z.shiftr_div_pow2 by lia.
  split; [apply Z.div_pos; lia|apply Z.div_lt_upper_bound; lia].
Qed.

Lemma Hash_range data seed : exists h, Hash data seed = Ret h /\ 0 <= h < 2^32.
Proof.
  unfold Hash. set (h0 := u32 _). destruct (hash_words_range data h0 (u32_range _)) as (h & rest & E & Hh).
  change (hash_words data h0) with (hash_words data h0) in *. rewrite E. cbn [mbind res_bind].
  eexists. split; [done|]. unfold hash_tail.
  destruct rest as [|b0 [|b1 [|b2 [|b3 rest]]]]; try done; apply hash_last_range.
Qed.

(** ** Bits of the array *)

Definition bit_set (array : bytes) (p : Z) : Prop :=
  exists b, array !! Z.to_nat (p / 8) = Some b /\ Z.testbit (bz b) (p mod 8) = true.

Lemma or_bit_spec array p : 0 <= p -> p / 8 < Z.of_nat (length array) ->
  exists array', or_bit array p = Ret array' /\ length array' = length array /\ bit_set array' p
    /\ (forall q, 0 <= q -> bit_set array q -> bit_set array' q)
    /\ (forall i, i <> Z.to_nat (p / 8) -> array' !! i = array !! i).
Proof.
  intros Hp Hl. unfold or_bit.
  assert (0 <= p / 8) by (apply Z.div_pos; lia).
  destruct (lookup_lt_is_Some_2 array (Z.to_nat (p / 8))) as [b Hb]; [lia|]. rewrite Hb. cbn [of_option mbind res_bind].
  eexists. split; [done|]. split; [apply length_insert|].
  pose proof (Z.mod_pos_bound p 8 ltac:(lia)) as Hm.
  assert (Hv : 0 <= Z.lor (bz b) (Z.shiftl 1 (p mod 8)) < 2^8).
  { apply lor_range; [lia|apply bz_range|]. rewrite Z.shiftl_mul_pow2, Z.mul_1_l by lia.
    split; [apply Z.pow_nonneg; lia|]. apply Z.pow_lt_mono_r; lia. }
  assert (Hbz : bz (zb (Z.lor (bz b) (Z.shiftl 1 (p mod 8)))) = Z.lor (bz b) (Z.shiftl 1 (p mod 8))).
  { apply bz_zb_small. exact Hv. }
  split; [|split].
  - eexists. split; [apply list_lookup_insert_eq; by apply lookup_lt_Some in Hb|].
    rewrite Hbz, Z.lor_spec, Z.shiftl_spec, Z.sub_diag by lia. apply orb_true_r.
  - intros q Hq (c & Hc & Ht). destruct (decide (Z.to_nat (q / 8) = Z.to_nat (p / 8))) as [E|E].
    + rewrite E in Hc. rewrite Hb in Hc. injection Hc as <-. eexists. rewrite E.
      split; [apply list_lookup_insert_eq; by apply lookup_lt_Some in Hb|].
      by rewrite Hbz, Z.lor_spec, Ht.
    + exists c. rewrite list_lookup_insert_ne by done. done.
  - intros i Hi. by apply list_lookup_insert_ne.
Qed.

Lemma land_bit x i : 0 <= i -> Z.land x (Z.shiftl 1 i) = 0 <-> Z.testbit x i = false.
Proof.
  intros Hi. split.
  - intros E. apply (f_equal (fun y => Z.testbit y i)) in E. rewrite Z.land_spec, Z.shiftl_spec, Z.sub_diag in E by lia.
    change (Z.testbit 1 0) with true in E. by rewrite andb_true_r, Z.bits_0 in E.
  - intros E. apply Z.bits_inj'. intros j Hj. rewrite Z.land_spec, Z.bits_0, Z.shiftl_spec by lia.
    destruct (decide (j = i)) as [->|Hne]; [by rewrite E|].
    assert (Z.testbit 1 (j - i) = false) as ->; [|apply andb_false_r].
    destruct (decide (j < i)); [apply Z.testbit_neg_r; lia|]. apply (Z.bits_above_log2 1); [lia|]. cbn. lia.
Qed.

Lemma schar_testbit b i : 0 <= i < 8 -> Z.testbit (schar b) i = Z.testbit (bz b) i.
Proof.
  intros Hi. rewrite <- (Z.mod_pow2_bits_low (schar b) 8), <- (Z.mod_pow2_bits_low (bz b) 8) by lia.
  f_equal. unfold schar. destruct (bz b <? 128); [done|].
  replace (bz b - 256) with (bz b + (-1) * 2^8) by lia. by rewrite Z.mod_add by lia.
Qed.

(** The positions probed. *)
Fixpoint positions (k : nat) (h delta bits : Z) : list Z :=
  match k with O => [] | S k => h mod bits :: positions k (u32 (h + delta)) delta bits end.

Lemma positions_range k h delta bits p : 0 < bits -> p ∈ positions k h delta bits -> 0 <= p < bits.
Proof.
  intros Hb. revert h. induction k as [|k IH]; intros h; cbn; [by intros ?%elem_of_nil|].
  intros [->|Hp]%elem_of_cons; [by apply Z.mod_pos_bound|by eapply IH].
Qed.

Section filter_array.
Context (nbytes : Z) (Hn : 0 < nbytes).

(** The array of the filter: the bits and the number of probes. *)
Definition is_array (c : byte) (array : bytes) : Prop :=
  Z.of_nat (length array) = nbytes + 1 /\ array !! Z.to_nat nbytes = Some c.
Definition grows (array array' : bytes) : Prop := forall q, 0 <= q -> bit_set array q -> bit_set array' q.

Lemma probe_loop_spec k h delta c array : is_array c array ->
  exists array', probe_loop k h delta (nbytes * 8) array = Ret array' /\ is_array c array' /\ grows array array'
    /\ Forall (bit_set array') (positions k h delta (nbytes * 8)).
Proof.
  revert h array. induction k as [|k IH]; intros h array Ha; cbn [probe_loop positions].
  { exists array. split; [done|]. split; [done|]. split; [by intros q|constructor]. }
  rewrite decide_False by lia. pose proof (Z.mod_pos_bound h (nbytes * 8) ltac:(lia)) as Hm. destruct Ha as [Hl Hc].
  assert (Hd : h mod (nbytes * 8) / 8 < nbytes) by (apply Z.div_lt_upper_bound; lia).
  destruct (or_bit_spec array (h mod (nbytes * 8))) as (a1 & -> & Hl1 & Hs1 & Hg1 & Ho1); [lia|lia|].
  cbn [mbind res_bind]. assert (Ha1 : is_array c a1).
  { split; [lia|]. rewrite Ho1; [done|]. assert (0 <= h mod (nbytes * 8) / 8) by (apply Z.div_pos; lia). lia. }
  destruct (IH (u32 (h + delta)) a1 Ha1) as (a2 & -> & Ha2 & Hg2 & HF). exists a2. split; [done|]. split; [done|].
  split; [intros q Hq Hs; auto|]. constructor; [|done]. apply Hg2; [lia|done].
Qed.

Lemma match_loop_spec k h delta c array : is_array c array ->
  Forall (bit_set array) (positions k h delta (nbytes * 8)) -> match_loop k h delta (nbytes * 8) array = Ret true.
Proof.
  intros Ha. revert h. induction k as [|k IH]; intros h HF; cbn [match_loop positions] in *; [done|].
  apply list.Forall_cons in HF as [(b & Hb & Ht) HF]. rewrite Hb. cbn [of_option mbind res_bind].
  pose proof (Z.mod_pos_bound (h mod (nbytes * 8)) 8 ltac:(lia)).
  rewrite decide_False; [by apply IH|]. rewrite land_bit by lia. rewrite schar_testbit by lia. by rewrite Ht.
Qed.

Definition key_positions (k : nat) (key : bytes) : list Z :=
  match BloomHash key with Ret h => positions k h (bloom_delta h) (nbytes * 8) | _ => [] end.

Lemma add_keys_spec k keys c array : is_array c array ->
  exists array', add_keys k keys (nbytes * 8) array = Ret array' /\ is_array c array' /\ grows array array'
    /\ Forall (fun key => Forall (bit_set array') (key_positions k key)) keys.
Proof.
  revert array. induction keys as [|key keys IH]; intros array Ha; cbn [add_keys].
  { exists array. split; [done|]. split; [done|]. split; [by intros q|constructor]. }
  unfold key_positions at 1. destruct (Hash_range key 0xbc9f1d34) as (h & Eh & _). unfold BloomHash at 1 2. rewrite Eh.
  cbn [mbind res_bind]. destruct (probe_loop_spec k h (bloom_delta h) c array Ha) as (a1 & -> & Ha1 & Hg1 & HF1).
  cbn [mbind res_bind]. destruct (IH a1 Ha1) as (a2 & -> & Ha2 & Hg2 & HF2). exists a2. split; [done|]. split; [done|].
  split; [intros q Hq Hs; auto|]. constructor; [|done]. unfold key_positions, BloomHash. rewrite Eh.
  rewrite Forall_forall in HF1 |- *. intros p Hp. apply Hg2; [|by apply HF1].
  apply (positions_range k h (bloom_delta h) (nbytes * 8)); [lia|by apply list_elem_of_In].
Qed.
End filter_array.

(** ** No false negatives *)

(** What [new_BloomFilterPolicy] makes of an [int] that is not negative. *)
Definition good_policy (p : BloomFilterPolicy) : Prop := 0 <= bits_per_key_ p < 2^31 /\ 1 <= k_ p <= 30.

Lemma bloom_matches p keys dst : good_policy p -> Z.of_nat (length keys) < 2^31 ->
  exists f, bloom_CreateFilter p keys dst = Ret (dst ++ f)
    /\ Forall (fun k => bloom_KeyMayMatch k f = Ret true) keys.
Proof.
  intros [Hb Hk] Hn. unfold bloom_CreateFilter. rewrite (u64_small (_ * _)) by nia.
  set (bits := if decide (_ < 64) then 64 else _).
  assert (Hbits : 64 <= bits < 2^62) by (subst bits; case_decide; nia).
  rewrite u64_small by lia. set (nbytes := (bits + 7) / 8).
  assert (Hnb : 8 <= nbytes < 2^60) by (subst nbytes; split; [apply Z.div_le_lower_bound; lia|apply Z.div_lt_upper_bound; lia]).
  assert (Ha : is_array nbytes (zb (k_ p)) (replicate (Z.to_nat nbytes) NUL ++ [zb (k_ p)])).
  { split; [rewrite length_app, length_replicate; cbn; lia|].
    rewrite lookup_app_r by (rewrite length_replicate; lia). by rewrite length_replicate, Nat.sub_diag. }
  destruct (add_keys_spec nbytes ltac:(lia) (Z.to_nat (k_ p)) keys _ _ Ha) as (f & -> & [Hl Hc] & _ & HF).
  cbn [mbind res_bind]. exists f. split; [done|]. eapply list.Forall_impl; [exact HF|]. intros key Hkey.
  unfold bloom_KeyMayMatch. rewrite decide_False by lia.
  assert (length f - 1 = Z.to_nat nbytes)%nat as -> by lia. rewrite Hc. cbn [of_option mbind res_bind].
  assert (u64 (schar (zb (k_ p))) = k_ p) as ->.
  { unfold schar. rewrite bz_zb_small by lia. destruct (Z.ltb_spec (k_ p) 128); [apply u64_small; lia|lia]. }
  rewrite decide_False by lia. unfold key_positions in Hkey.
  destruct (Hash_range key 0xbc9f1d34) as (h & Eh & _). unfold BloomHash in *. rewrite Eh in *. cbn [mbind res_bind].
  rewrite Z2Nat.id by lia. by eapply match_loop_spec; [split|].
Qed.

(** It answers for every key and every string. *)
Lemma bloom_total key f : exists m, bloom_KeyMayMatch key f = Ret m.
Proof.
  unfold bloom_KeyMayMatch. case_decide as Hl; [by eexists|]. destruct (lookup_lt_is_Some_2 f (length f - 1)) as [c ->]; [lia|].
  cbn [of_option mbind res_bind]. case_decide; [by eexists|]. destruct (Hash_range key 0xbc9f1d34) as (h & Eh & _).
  unfold BloomHash. rewrite Eh. cbn [mbind res_bind]. generalize (bloom_delta h) as delta. intros delta. clear Eh. revert h.
  induction (Z.to_nat (u64 (schar c))) as [|k IH]; intros h; cbn [match_loop]; [by eexists|].
  pose proof (Z.mod_pos_bound h (Z.of_nat (length f - 1) * 8) ltac:(lia)) as Hm.
  destruct (lookup_lt_is_Some_2 f (Z.to_nat (h mod (Z.of_nat (length f - 1) * 8) / 8))) as [b ->].
  - assert (h mod (Z.of_nat (length f - 1) * 8) / 8 < Z.of_nat (length f - 1)) by (apply Z.div_lt_upper_bound; lia).
    assert (0 <= h mod (Z.of_nat (length f - 1) * 8) / 8) by (apply Z.div_pos; lia). lia.
  - cbn [of_option mbind res_bind]. case_decide; [by eexists|apply IH].
Qed.

Program Definition bloom_policy (p : BloomFilterPolicy) (Hp : good_policy p) : FilterPolicy := {|
  CreateFilter := bloom_CreateFilter p;
  KeyMayMatch := bloom_KeyMayMatch;
|}.
Next Obligation. intros p Hp keys dst Hn. by apply bloom_matches. Qed.

Lemma new_policy_good b p : 0 <= b < 2^31 -> new_BloomFilterPolicy b = Ret p -> good_policy p.
Proof.
  unfold new_BloomFilterPolicy. intros Hb E. inv_res. unfold good_policy. cbn [bits_per_key_ k_].
  rewrite u64_small by lia. split; [lia|]. repeat case_decide; lia.
Qed.

(** C33: a Bloom filter has no false negatives, at any number of bits per key:
    [CreateFilter] appends a filter to its argument, within the array it
    allocates, and [KeyMayMatch] accepts every key the filter was made of. *)
Theorem bloom_no_false_negatives b p keys dst : 0 <= b < 2^31 -> new_BloomFilterPolicy b = Ret p ->
  Z.of_nat (length keys) < 2^31 ->
  exists f, bloom_CreateFilter p keys dst = Ret (dst ++ f)
    /\ Forall (fun k => bloom_KeyMayMatch k f = Ret true) keys.
Proof. intros Hb E Hn. apply bloom_matches; [by eapply new_policy_good|done]. Qed.

Lemma bloom_no_false_negatives_witness : exists f,
  bloom_CreateFilter (mkBloom 10 6) [lit "hello"; lit "world"] (lit "x") = Ret (lit "x" ++ f)
  /\ Forall (fun k => bloom_KeyMayMatch k f = Ret true) [lit "hello"; lit "world"].
Proof.
  apply (bloom_no_false_negatives 10); [split; [discriminate|reflexivity]|vm_compute; reflexivity|vm_compute; reflexivity].
Defined.

Example bloom_rejects :
  (f ← bloom_CreateFilter (mkBloom 10 6) [lit "hello"; lit "world"] []; bloom_KeyMayMatch (lit "foo") f) = Ret false.
Proof. by vm_compute. Qed.
