(* ===== verification/Cache.v ===== *)
(** * Cache: include/leveldb/cache.h and util/cache.cc

    The sharded LRU cache.  Handles are places in a store, which [free] takes
    from; the list of a shard's entries by age and the chains of its hash table
    are lists of places.  The calls of deleters are logged.  Locks are left
    out: every operation of a shard is one critical section.
    [cache_holds] relates any run of operations to what was inserted. *)

From S2P Require Import Prelude CLib Coding Bloom.

(** ** Handles *)

Section cache.
Context {V : Type}.

Record LRUHandle := mkHandle {
  h_value : V;
  h_charge : Z;
  h_key : bytes;
  h_refs : Z;
  h_hash : Z;
}.
Definition with_refs (h : LRUHandle) (refs : Z) : LRUHandle :=
  mkHandle (h_value h) (h_charge h) (h_key h) refs (h_hash h).

Abbreviation store := (gmap nat LRUHandle).

(** Reading a handle that was freed is undefined. *)
Definition deref (s : store) (a : nat) : res LRUHandle := of_option (s !! a).

(** ** class HandleTable *)

Record HandleTable := mkTable { length_ : Z; elems_ : Z; list_ : list (list nat) }.

(** [hash & (length_ - 1)] *)
Definition bucket_of (hash length : Z) : nat := Z.to_nat (Z.land hash (u32 (length - 1))).

(** The slot of a chain that holds the key: the places before it, and it. *)
Fixpoint find_slot (s : store) (chain : list nat) (key : bytes) (hash : Z) : res (list nat * list nat) :=
  match chain with
  | [] => Ret ([], [])
  | a :: rest =>
      h ← deref s a;
      if decide (h_hash h <> hash \/ key <> h_key h)
      then '(pre, post) ← find_slot s rest key hash; Ret (a :: pre, post)
      else Ret ([], chain)
  end.
Definition FindPointer (s : store) (t : HandleTable) (key : bytes) (hash : Z) : res (nat * list nat * list nat) :=
  let i := bucket_of hash (length_ t) in
  chain ← of_option (list_ t !! i);
  '(pre, post) ← find_slot s chain key hash;
  Ret (i, pre, post).

Fixpoint new_length_loop (n : nat) (new_length elems : Z) : res Z :=
  match n with
  | O => NoFuel
  | S n => if new_length <? elems then new_length_loop n (u32 (new_length * 2)) elems else Ret new_length
  end.

(** One chain moved to the new buckets, each handle to the front of its. *)
Fixpoint rehash_chain (s : store) (chain : list nat) (new_length : Z) (new_list : list (list nat)) : res (list (list nat)) :=
  match chain with
  | [] => Ret new_list
  | a :: chain =>
      h ← deref s a;
      rehash_chain s chain new_length (alter (cons a) (bucket_of (h_hash h) new_length) new_list)
  end.
Fixpoint rehash (s : store) (old : list (list nat)) (new_length : Z) (new_list : list (list nat)) : res (list (list nat)) :=
  match old with
  | [] => Ret new_list
  | chain :: old => new_list ← rehash_chain s chain new_length new_list; rehash s old new_length new_list
  end.
(** 32 doublings pass every count of 32 bits. *)
Definition Resize (s : store) (t : HandleTable) : res HandleTable :=
  new_length ← new_length_loop 33 4 (elems_ t);
  new_list ← rehash s (list_ t) new_length (replicate (Z.to_nat new_length) []);
  Ret (mkTable new_length (elems_ t) new_list).
Definition new_HandleTable : res HandleTable := Resize ∅ (mkTable 0 0 []).

Definition t_Lookup (s : store) (t : HandleTable) (key : bytes) (hash : Z) : res (option nat) :=
  '(_, _, post) ← FindPointer s t key hash;
  Ret (head post).

(** The new table and the handle that was there. *)
Definition t_Insert (s : store) (t : HandleTable) (a : nat) : res (HandleTable * option nat) :=
  h ← deref s a;
  '(i, pre, post) ← FindPointer s t (h_key h) (h_hash h);
  let new_list := <[i := pre ++ a :: tail post]> (list_ t) in
  match post with
  | [] =>
      let t := mkTable (length_ t) (u32 (elems_ t + 1)) new_list in
      t ← (if elems_ t >? length_ t then Resize s t else Ret t);
      Ret (t, None)
  | old :: _ => Ret (mkTable (length_ t) (elems_ t) new_list, Some old)
  end.

Definition t_Remove (s : store) (t : HandleTable) (key : bytes) (hash : Z) : res (HandleTable * option nat) :=
  '(i, pre, post) ← FindPointer s t key hash;
  match post with
  | [] => Ret (t, None)
  | a :: post => Ret (mkTable (length_ t) (u32 (elems_ t - 1)) (<[i := pre ++ post]> (list_ t)), Some a)
  end.

(** ** class LRUCache *)

(** [lru_] has the oldest entry first; [deleted_] has the calls of the
    deleter, [next_] is the place that malloc gives next. *)
Record LRUCache := mkCache {
  capacity_ : Z;
  usage_ : Z;
  lru_ : list nat;
  table_ : HandleTable;
  store_ : store;
  next_ : nat;
  deleted_ : list (bytes * V);
}.

Definition new_LRUCache (capacity : Z) : res LRUCache :=
  t ← new_HandleTable;
  Ret (mkCache capacity 0 [] t ∅ 0 []).

Definition with_lru (c : LRUCache) (lru : list nat) (t : HandleTable) : LRUCache :=
  mkCache (capacity_ c) (usage_ c) lru t (store_ c) (next_ c) (deleted_ c).
Definition with_store (c : LRUCache) (s : store) : LRUCache :=
  mkCache (capacity_ c) (usage_ c) (lru_ c) (table_ c) s (next_ c) (deleted_ c).

Definition Unref (c : LRUCache) (a : nat) : res LRUCache :=
  h ← deref (store_ c) a;
  let refs := u32 (h_refs h - 1) in
  if refs <=? 0
  then Ret (mkCache (capacity_ c) (u64 (usage_ c - h_charge h)) (lru_ c) (table_ c) (delete a (store_ c)) (next_ c)
              (deleted_ c ++ [(h_key h, h_value h)]))
  else Ret (with_store c (<[a := with_refs h refs]> (store_ c))).

Definition LRU_Remove (a : nat) (lru : list nat) : list nat := filter (fun b => b <> a) lru.
Definition LRU_Append (a : nat) (lru : list nat) : list nat := lru ++ [a].

Definition Lookup (c : LRUCache) (key : bytes) (hash : Z) : res (option nat * LRUCache) :=
  e ← t_Lookup (store_ c) (table_ c) key hash;
  match e with
  | None => Ret (None, c)
  | Some a =>
      h ← deref (store_ c) a;
      let c := with_store c (<[a := with_refs h (u32 (h_refs h + 1))]> (store_ c)) in
      Ret (Some a, with_lru c (LRU_Append a (LRU_Remove a (lru_ c))) (table_ c))
  end.

Definition Release (c : LRUCache) (a : nat) : res LRUCache := Unref c a.

(** The loop that evicts: one round for every entry is enough. *)
Fixpoint evict_loop (n : nat) (c : LRUCache) : res LRUCache :=
  match n with
  | O => Ret c
  | S n =>
      match lru_ c with
      | old :: _ =>
          if usage_ c >? capacity_ c then
            h ← deref (store_ c) old;
            '(t, _) ← t_Remove (store_ c) (table_ c) (h_key h) (h_hash h);
            c ← Unref (with_lru c (LRU_Remove old (lru_ c)) t) old;
            evict_loop n c
          else Ret c
      | [] => Ret c
      end
  end.

Definition Insert (c : LRUCache) (key : bytes) (hash : Z) (value : V) (charge : Z) : res (nat * LRUCache) :=
  let a := next_ c in
  let s := <[a := mkHandle value charge key 2 hash]> (store_ c) in
  let c := mkCache (capacity_ c) (u64 (usage_ c + charge)) (LRU_Append a (lru_ c)) (table_ c) s (S (next_ c)) (deleted_ c) in
  '(t, old) ← t_Insert s (table_ c) a;
  let c := with_lru c (lru_ c) t in
  c ← match old with
      | Some old => Unref (with_lru c (LRU_Remove old (lru_ c)) t) old
      | None => Ret c
      end;
  c ← evict_loop (length (lru_ c)) c;
  Ret (a, c).

Definition Erase (c : LRUCache) (key : bytes) (hash : Z) : res LRUCache :=
  '(t, e) ← t_Remove (store_ c) (table_ c) key hash;
  match e with
  | Some a => Unref (with_lru c (LRU_Remove a (lru_ c)) t) a
  | None => Ret (with_lru c (lru_ c) t)
  end.

(** The destructor: every entry loses the reference of the cache. *)
Fixpoint unref_all (lru : list nat) (c : LRUCache) : res LRUCache :=
  match lru with [] => Ret c | a :: lru => c ← Unref c a; unref_all lru c end.
Definition destroy (c : LRUCache) : res LRUCache := unref_all (lru_ c) c.

(** ** class ShardedLRUCache *)

Definition kNumShardBits : Z := 4.
Definition kNumShards : Z := Z.shiftl 1 kNumShardBits.

Record ShardedLRUCache := mkSharded { shard_ : list LRUCache; last_id_ : Z }.

Definition HashSlice (s : bytes) : res Z := Hash s 0.
Definition Shard (hash : Z) : Z := Z.shiftr hash (32 - kNumShardBits).

Definition new_ShardedLRUCache (capacity : Z) : res ShardedLRUCache :=
  let per_shard := u64 (capacity + (kNumShards - 1)) / kNumShards in
  c ← new_LRUCache per_shard;
  Ret (mkSharded (replicate (Z.to_nat kNumShards) c) 0).

(** An operation of one shard; a handle is named with its shard. *)
Definition on_shard {A} (c : ShardedLRUCache) (i : Z) (f : LRUCache -> res (A * LRUCache)) : res (A * ShardedLRUCache) :=
  s ← nth_res (shard_ c) i;
  '(r, s) ← f s;
  Ret (r, mkSharded (<[Z.to_nat i := s]> (shard_ c)) (last_id_ c)).

Definition cache_Insert (c : ShardedLRUCache) (key : bytes) (value : V) (charge : Z) : res (Z * nat * ShardedLRUCache) :=
  hash ← HashSlice key;
  '(a, c) ← on_shard c (Shard hash) (fun s => Insert s key hash value charge);
  Ret (Shard hash, a, c).
Definition cache_Lookup (c : ShardedLRUCache) (key : bytes) : res (option (Z * nat) * ShardedLRUCache)%type :=
  hash ← HashSlice key;
  '(a, c) ← on_shard c (Shard hash) (fun s => Lookup s key hash);
  Ret (option_map (fun a => (Shard hash, a)) a, c).
Definition handle_at (c : ShardedLRUCache) (h : Z * nat) : res LRUHandle :=
  s ← nth_res (shard_ c) h.1; deref (store_ s) h.2.
Definition cache_Release (c : ShardedLRUCache) (handle : Z * nat) : res ShardedLRUCache :=
  h ← handle_at c handle;
  '(_, c) ← on_shard c (Shard (h_hash h)) (fun s => s ← Release s handle.2; Ret (tt, s));
  Ret c.
Definition cache_Erase (c : ShardedLRUCache) (key : bytes) : res ShardedLRUCache :=
  hash ← HashSlice key;
  '(_, c) ← on_shard c (Shard hash) (fun s => s ← Erase s key hash; Ret (tt, s));
  Ret c.
Definition cache_Value (c : ShardedLRUCache) (handle : Z * nat) : res V :=
  h ← handle_at c handle; Ret (h_value h).
Definition NewId (c : ShardedLRUCache) : Z * ShardedLRUCache :=
  let id := u64 (last_id_ c + 1) in (id, mkSharded (shard_ c) id).
End cache.
#[global] Arguments LRUHandle : clear implicits.
#[global] Arguments LRUCache : clear implicits.
#[global] Arguments ShardedLRUCache : clear implicits.

(** ** The hash table *)

Section table.
Context {V : Type} (hf : bytes -> Z) (Hhf : forall k, 0 <= hf k < 2^32).
Abbreviation store := (gmap nat (LRUHandle V)).

(** What the table reads of a handle. *)
Definition h_id (h : LRUHandle V) : bytes * Z := (h_key h, h_hash h).
Definition keyed (s : store) (L : list nat) : Prop := forall a, a ∈ L -> exists h, s !! a = Some h /\ h_hash h = hf (h_key h).
Definition has_key (s : store) (k : bytes) (a : nat) : Prop := exists h, s !! a = Some h /\ h_key h = k.

Record buckets (s : store) (len : Z) (ls : list (list nat)) (L : list nat) : Prop := {
  bk_length : exists k, 2 <= k < 32 /\ len = 2^k /\ length ls = Z.to_nat len;
  bk_perm : concat ls ≡ₚ L;
  bk_place i chain a h : ls !! i = Some chain -> a ∈ chain -> s !! a = Some h -> bucket_of (h_hash h) len = i;
}.
Record table_inv (s : store) (t : HandleTable) (L : list nat) : Prop := {
  ti_buckets : buckets s (length_ t) (list_ t) L;
  ti_elems : elems_ t = Z.of_nat (length L);
  ti_bound : Z.of_nat (length L) < 2^31;
}.

Lemma bucket_mod h k : 0 <= h < 2^32 -> 2 <= k < 32 -> bucket_of h (2^k) = Z.to_nat (h mod 2^k) /\ (bucket_of h (2^k) < Z.to_nat (2^k))%nat.
Proof.
  intros Hh Hk. assert (2^k < 2^32) as Hb by (apply Z.pow_lt_mono_r; lia). assert (0 < 2^k) as Hp by (apply Z.pow_pos_nonneg; lia).
  unfold bucket_of. rewrite u32_small by lia. rewrite Z.sub_1_r, <- Z.ones_equiv, Z.land_ones by lia. split; [done|].
  pose proof (Z.mod_pos_bound h (2^k) Hp). lia.
Qed.

Lemma find_slot_spec s chain key : keyed s chain ->
  exists pre post, find_slot s chain key (hf key) = Ret (pre, post) /\ chain = pre ++ post
  /\ (forall a, a ∈ pre -> ~ has_key s key a) /\ match post with [] => True | a :: _ => has_key s key a end.
Proof.
  induction chain as [|a chain IH]; intros Hk.
  { exists [], []. split; [done|]. split; [done|]. split; [|done]. intros a Ha. by apply elem_of_nil in Ha. }
  destruct (Hk a ltac:(left)) as (h & Eh & Hh). cbn [find_slot]. unfold deref. rewrite Eh. cbn [of_option mbind res_bind].
  case_decide as Hd.
  - destruct IH as (pre & post & -> & -> & Hpre & Hpost); [intros b Hb; apply Hk; by right|]. cbn [mbind res_bind].
    exists (a :: pre), post. split; [done|]. split; [done|]. split; [|done].
    intros b [->|Hb]%elem_of_cons; [|by apply Hpre]. intros (h' & Eh' & Hk'). rewrite Eh in Eh'. injection Eh' as <-.
    subst key. destruct Hd as [Hd|Hd]; congruence.
  - exists [], (a :: chain). split; [done|]. split; [done|]. split; [intros b Hb; by apply elem_of_nil in Hb|].
    exists h. split; [done|]. destruct (decide (h_key h = key)); [done|]. exfalso. apply Hd. right. congruence.
Qed.

Lemma concat_lookup {A} (ls : list (list A)) i l x : ls !! i = Some l -> x ∈ l -> x ∈ concat ls.
Proof. intros Hi Hx. apply list_elem_of_In, in_concat. exists l. rewrite <- !list_elem_of_In. split; [by eapply list_elem_of_lookup_2|done]. Qed.

Lemma concat_insert {A} (ls : list (list A)) i l l' : ls !! i = Some l -> concat (<[i := l']> ls) ≡ₚ l' ++ concat (delete i ls).
Proof.
  intros Hi. rewrite insert_take_drop by (by eapply lookup_lt_Some). rewrite concat_app. cbn [concat].
  rewrite delete_take_drop, concat_app. rewrite Permutation_app_swap_app. done.
Qed.

Lemma concat_delete {A} (ls : list (list A)) i l : ls !! i = Some l -> concat ls ≡ₚ l ++ concat (delete i ls).
Proof. intros Hi. rewrite <- (concat_insert ls i l l Hi), list_insert_id; done. Qed.

(** A key is in the table or not, and its slot is found. *)
Lemma FindPointer_spec s t L key : buckets s (length_ t) (list_ t) L -> keyed s L ->
  exists i pre post, FindPointer s t key (hf key) = Ret (i, pre, post) /\ list_ t !! i = Some (pre ++ post)
  /\ i = bucket_of (hf key) (length_ t)
  /\ match post with [] => forall a, a ∈ L -> ~ has_key s key a | a :: _ => a ∈ L /\ has_key s key a end.
Proof.
  intros [(k & Hk & El & Hlen) Hp Hpl] Hkeyed. unfold FindPointer. set (i := bucket_of _ _).
  destruct (bucket_mod (hf key) k (Hhf key) Hk) as [_ Hlt]. rewrite <- El in Hlt. fold i in Hlt. rewrite <- Hlen in Hlt.
  destruct (lookup_lt_is_Some_2 _ _ Hlt) as [chain Ec]. rewrite Ec. cbn [of_option mbind res_bind].
  assert (forall a, a ∈ chain -> a ∈ L) as Hin by (intros a Ha; rewrite <- Hp; by eapply concat_lookup).
  destruct (find_slot_spec s chain key) as (pre & post & -> & -> & Hpre & Hpost); [intros a Ha; by apply Hkeyed, Hin|].
  cbn [mbind res_bind]. exists i, pre, post. split; [done|]. split; [done|]. split; [done|].
  destruct post as [|a post]; [|split; [apply Hin; set_solver|done]].
  intros a Ha (h & Eh & Hk'). rewrite <- Hp in Ha. apply list_elem_of_In, in_concat in Ha as (c & Hc & Ha).
  apply list_elem_of_In in Hc, Ha. apply list_elem_of_lookup in Hc as [j Hj].
  destruct (Hkeyed a) as (h' & Eh' & Hh); [rewrite <- Hp; by eapply concat_lookup|]. rewrite Eh in Eh'. injection Eh' as <-.
  pose proof (Hpl j c a h Hj Ha Eh) as Hij. rewrite Hh, Hk' in Hij. fold i in Hij. subst j. rewrite Ec in Hj. injection Hj as <-.
  rewrite app_nil_r in Ha. apply (Hpre a Ha). by exists h.
Qed.

Lemma new_length_spec elems n : elems < 2^31 -> forall k, 2 <= k <= 31 -> 32 - k <= Z.of_nat n ->
  exists k', 2 <= k' < 32 /\ new_length_loop n (2^k) elems = Ret (2^k').
Proof.
  intros He. induction n as [|n IH]; intros k Hk Hn; [lia|]. cbn [new_length_loop].
  destruct (Z.ltb_spec (2^k) elems) as [Hlt|Hge]; [|exists k; split; [lia|done]].
  assert (k < 31) as Hk' by (destruct (decide (k < 31)); [done|]; replace k with 31 in Hlt by lia; lia).
  assert (2^k * 2 = 2^(k + 1)) as -> by (rewrite Z.pow_add_r by lia; lia).
  rewrite u32_small by (split; [apply Z.pow_nonneg; lia|apply Z.pow_lt_mono_r; lia]). apply IH; lia.
Qed.

Lemma concat_alter_cons {A} (ls : list (list A)) i (x : A) : (i < length ls)%nat -> concat (alter (cons x) i ls) ≡ₚ x :: concat ls.
Proof.
  intros [l Hl]%lookup_lt_is_Some_2. rewrite (concat_delete ls i l Hl).
  assert (alter (cons x) i ls = <[i := x :: l]> ls) as -> by (apply list_eq; intros j; destruct (decide (j = i)) as [->|];
    [rewrite list_lookup_alter_eq, list_lookup_insert_eq by (by eapply lookup_lt_Some); by rewrite Hl|by rewrite list_lookup_alter_ne, list_lookup_insert_ne by done]).
  by rewrite (concat_insert ls i l _ Hl).
Qed.

Lemma place_alter (s : store) len (ls : list (list nat)) (a : nat) h : s !! a = Some h ->
  (forall i chain b g, ls !! i = Some chain -> b ∈ chain -> s !! b = Some g -> bucket_of (h_hash g) len = i) ->
  forall i chain b g, alter (cons a) (bucket_of (h_hash h) len) ls !! i = Some chain -> b ∈ chain -> s !! b = Some g -> bucket_of (h_hash g) len = i.
Proof.
  intros Ha Hp i chain b g Hi Hb Hg. destruct (decide (i = bucket_of (h_hash h) len)) as [->|Hne].
  - rewrite list_lookup_alter_eq in Hi. destruct (ls !! _) as [l|] eqn:El; [|done]. injection Hi as <-.
    apply elem_of_cons in Hb as [->|Hb]; [congruence|]. by apply (Hp _ l b).
  - rewrite list_lookup_alter_ne in Hi by done. by apply (Hp _ chain b).
Qed.

Lemma rehash_chain_spec s chain k : 2 <= k < 32 -> keyed s chain -> forall ls : list (list nat), length ls = Z.to_nat (2^k) ->
  (forall i c b g, ls !! i = Some c -> b ∈ c -> s !! b = Some g -> bucket_of (h_hash g) (2^k) = i) ->
  exists ls', rehash_chain s chain (2^k) ls = Ret ls' /\ concat ls' ≡ₚ chain ++ concat ls /\ length ls' = Z.to_nat (2^k)
  /\ (forall i c b g, ls' !! i = Some c -> b ∈ c -> s !! b = Some g -> bucket_of (h_hash g) (2^k) = i).
Proof.
  intros Hk. induction chain as [|a chain IH]; intros Hkd ls Hl Hp; [by exists ls|].
  destruct (Hkd a ltac:(left)) as (h & Eh & Hh). cbn [rehash_chain]. unfold deref at 1. rewrite Eh. cbn [of_option mbind res_bind].
  assert (bucket_of (h_hash h) (2^k) < length ls)%nat as Hlt by (rewrite Hl, Hh; apply bucket_mod; [apply Hhf|done]).
  destruct (IH) with (ls := alter (cons a) (bucket_of (h_hash h) (2^k)) ls) as (ls' & E & Hpm & Hl' & Hp').
  - intros b Hb. apply Hkd. by right.
  - by rewrite length_alter.
  - by apply place_alter.
  - exists ls'. split; [exact E|]. split; [|done]. rewrite Hpm, (concat_alter_cons _ _ _ Hlt). cbn [app]. by rewrite <- Permutation_middle.
Qed.

Lemma rehash_spec s old k : 2 <= k < 32 -> keyed s (concat old) -> forall ls : list (list nat), length ls = Z.to_nat (2^k) ->
  (forall i c b g, ls !! i = Some c -> b ∈ c -> s !! b = Some g -> bucket_of (h_hash g) (2^k) = i) ->
  exists ls', rehash s old (2^k) ls = Ret ls' /\ concat ls' ≡ₚ concat old ++ concat ls /\ length ls' = Z.to_nat (2^k)
  /\ (forall i c b g, ls' !! i = Some c -> b ∈ c -> s !! b = Some g -> bucket_of (h_hash g) (2^k) = i).
Proof.
  intros Hk. induction old as [|chain old IH]; intros Hkd ls Hl Hp; [by exists ls|]. cbn [rehash concat] in *.
  destruct (rehash_chain_spec s chain k Hk (fun a Ha => Hkd a ltac:(set_solver)) ls Hl Hp) as (ls1 & -> & Hpm1 & Hl1 & Hp1).
  cbn [mbind res_bind]. destruct (IH (fun a Ha => Hkd a ltac:(set_solver)) ls1 Hl1 Hp1) as (ls2 & -> & Hpm2 & Hl2 & Hp2).
  exists ls2. split; [done|]. split; [|done]. rewrite Hpm2, Hpm1. rewrite !app_assoc. by rewrite (Permutation_app_comm (concat old) chain).
Qed.

Lemma concat_replicate_nil {A} n : concat (replicate n (@nil A)) = [].
Proof. by induction n. Qed.

(** Resizing may start from any table of the same places. *)
Lemma Resize_spec s t L : concat (list_ t) ≡ₚ L -> keyed s L -> elems_ t = Z.of_nat (length L) -> Z.of_nat (length L) < 2^31 ->
  exists t', Resize s t = Ret t' /\ table_inv s t' L.
Proof.
  intros Hp Hk He Hb. unfold Resize. destruct (new_length_spec (elems_ t) 33) with (k := 2) as (k & Hkk & E); [lia|lia|lia|].
  change (2^2) with 4 in E. rewrite E. cbn [mbind res_bind].
  destruct (rehash_spec s (list_ t) k Hkk) with (ls := replicate (Z.to_nat (2^k)) (@nil nat)) as (ls & -> & Hpm & Hl & Hpl).
  - intros a Ha. apply Hk. by rewrite <- Hp.
  - apply length_replicate.
  - intros i c b g [-> _]%lookup_replicate Hb'. by apply elem_of_nil in Hb'.
  - cbn [mbind res_bind]. eexists. split; [done|]. rewrite concat_replicate_nil, app_nil_r, Hp in Hpm.
    split; [|done|done]. split; [by exists k|exact Hpm|exact Hpl].
Qed.

Lemma t_Lookup_spec s t L key : table_inv s t L -> keyed s L ->
  exists o, t_Lookup s t key (hf key) = Ret o
  /\ match o with None => forall a, a ∈ L -> ~ has_key s key a | Some a => a ∈ L /\ has_key s key a end.
Proof.
  intros [Hb _ _] Hk. unfold t_Lookup. destruct (FindPointer_spec s t L key Hb Hk) as (i & pre & post & -> & _ & _ & Hpost).
  cbn [mbind res_bind]. exists (head post). split; [done|]. by destruct post.
Qed.

Lemma place_insert (s : store) len (ls : list (list nat)) i l l' : ls !! i = Some l -> (forall b g, b ∈ l' -> s !! b = Some g -> bucket_of (h_hash g) len = i) ->
  (forall j c b g, ls !! j = Some c -> b ∈ c -> s !! b = Some g -> bucket_of (h_hash (V:=V) g) len = j) ->
  forall j c b g, <[i := l']> ls !! j = Some c -> b ∈ c -> s !! b = Some g -> bucket_of (h_hash g) len = j.
Proof.
  intros Hl Hl' Hp j c b g Hj Hb Hg. destruct (decide (j = i)) as [->|Hne].
  - rewrite list_lookup_insert_eq in Hj by (by eapply lookup_lt_Some). injection Hj as <-. by apply (Hl' b).
  - rewrite list_lookup_insert_ne in Hj by done. by apply (Hp _ c b).
Qed.

Lemma t_Remove_spec s t L key : table_inv s t L -> keyed s L ->
  exists t' o, t_Remove s t key (hf key) = Ret (t', o)
  /\ match o with
     | None => t' = t /\ forall a, a ∈ L -> ~ has_key s key a
     | Some a => has_key s key a /\ exists L', L ≡ₚ a :: L' /\ table_inv s t' L'
     end.
Proof.
  intros [Hb He Hbd] Hk. unfold t_Remove. destruct (FindPointer_spec s t L key Hb Hk) as (i & pre & post & -> & Hi & _ & Hpost).
  cbn [mbind res_bind]. destruct post as [|a post]; [by exists t, None|]. eexists _, (Some a). split; [done|].
  destruct Hpost as [Ha Hka]. split; [done|]. destruct Hb as [(k & Hkk & El & Hlen) Hp Hpl].
  exists (concat (<[i := pre ++ post]> (list_ t))).
  assert (L ≡ₚ a :: concat (<[i := pre ++ post]> (list_ t))) as HL.
  { rewrite <- Hp, (concat_delete _ _ _ Hi), (concat_insert _ _ _ _ Hi). rewrite <- !app_assoc; cbn [app]; by rewrite <- Permutation_middle. }
  split; [exact HL|]. apply Permutation_length in HL as Hll. cbn [length] in Hll. split; cbn.
  - split; [exists k; split; [done|]; split; [done|by rewrite length_insert]|done|].
    apply (place_insert s _ _ i _ _ Hi); [|exact Hpl]. intros b g Hb Hg. apply (Hpl _ _ b g Hi); [set_solver|done].
  - rewrite He, u32_small by lia. lia.
  - lia.
Qed.

Lemma t_Insert_spec s t L a h : table_inv s t L -> keyed s L -> s !! a = Some h -> h_hash h = hf (h_key h) ->
  Z.of_nat (S (length L)) < 2^31 ->
  exists t' o, t_Insert s t a = Ret (t', o)
  /\ match o with
     | None => table_inv s t' (a :: L) /\ forall b, b ∈ L -> ~ has_key s (h_key h) b
     | Some b => has_key s (h_key h) b /\ exists L', L ≡ₚ b :: L' /\ table_inv s t' (a :: L')
     end.
Proof.
  intros [Hb He Hbd] Hk Ha Hh Hsz. unfold t_Insert, deref. rewrite Ha. cbn [of_option mbind res_bind]. rewrite Hh.
  destruct (FindPointer_spec s t L (h_key h) Hb Hk) as (i & pre & post & -> & Hi & Ei & Hpost). cbn [mbind res_bind].
  destruct Hb as [(k & Hkk & El & Hlen) Hp Hpl].
  assert (forall l', (forall b, b ∈ l' -> b = a \/ b ∈ pre ++ post) ->
    forall j c b g, <[i := l']> (list_ t) !! j = Some c -> b ∈ c -> s !! b = Some g -> bucket_of (h_hash g) (length_ t) = j) as Hplace.
  { intros l' Hl'. apply (place_insert s _ _ i _ _ Hi); [|exact Hpl]. intros b g Hb Hg.
    destruct (Hl' b Hb) as [->|Hb']; [|by apply (Hpl _ _ b g Hi)]. rewrite Ha in Hg. injection Hg as <-. by rewrite Hh. }
  destruct post as [|b post].
  - assert (concat (<[i := pre ++ [a]]> (list_ t)) ≡ₚ a :: L) as HL.
    { rewrite (concat_insert _ _ _ _ Hi), <- Hp, (concat_delete _ _ _ Hi), app_nil_r. rewrite <- app_assoc; cbn [app]; by rewrite <- Permutation_middle. }
    assert (table_inv s (mkTable (length_ t) (u32 (elems_ t + 1)) (<[i := pre ++ [a]]> (list_ t))) (a :: L)) as Hinv.
    { split; cbn [length_ elems_ list_]; [|rewrite He, u32_small by lia; cbn [length]; lia|cbn [length]; lia].
      split; [exists k; split; [done|]; split; [done|by rewrite length_insert]|exact HL|]. apply Hplace. set_solver. }
    cbn [tail]. case_match.
    + destruct (Resize_spec s (mkTable (length_ t) (u32 (elems_ t + 1)) (<[i := pre ++ [a]]> (list_ t))) (a :: L)) as (t' & -> & Ht');
        [exact HL| |apply Hinv|apply Hinv|].
      { intros c [->|Hc]%elem_of_cons; [by exists h|by apply Hk]. }
      cbn [mbind res_bind]. by exists t', None.
    + cbn [mbind res_bind]. eexists _, None. by split.
  - destruct Hpost as [HbL Hkb]. eexists _, (Some b). split; [done|]. split; [done|]. cbn [tail].
    exists (concat (<[i := pre ++ post]> (list_ t))).
    assert (L ≡ₚ b :: concat (<[i := pre ++ post]> (list_ t))) as HL.
    { rewrite <- Hp, (concat_delete _ _ _ Hi), (concat_insert _ _ _ _ Hi). rewrite <- !app_assoc; cbn [app]; by rewrite <- Permutation_middle. }
    split; [exact HL|]. apply Permutation_length in HL as Hll. cbn [length] in Hll.
    split; cbn [length_ elems_ list_]; [|cbn [length]; lia|cbn [length]; lia].
    split; [exists k; split; [done|]; split; [done|by rewrite length_insert]| |].
    + rewrite (concat_insert _ _ _ _ Hi), (concat_insert _ _ _ _ Hi). rewrite <- !app_assoc; cbn [app]; by rewrite <- Permutation_middle.
    + apply Hplace. set_solver.
Qed.
End table.

(** ** The shard *)

Section lru.
Context {V : Type} (hf : bytes -> Z) (Hhf : forall k, 0 <= hf k < 2^32).
Abbreviation store := (gmap nat (LRUHandle V)).
Abbreviation LRU := (LRUCache V).

(** The charges of all entries that are alive, and what they hold. *)
Definition total (s : store) : Z := map_fold (fun _ h n => h_charge h + n) 0 s.
Definition held_entries (s : store) : list (bytes * V) := (fun p => (h_key p.2, h_value p.2)) <$> map_to_list s.

Lemma total_insert s a h : s !! a = None -> total (<[a := h]> s) = h_charge h + total s.
Proof. intros Ha. unfold total. rewrite map_fold_insert_L; [done|intros; lia|done]. Qed.
Lemma total_delete s a h : s !! a = Some h -> total s = h_charge h + total (delete a s).
Proof. intros Ha. rewrite <- (insert_delete_id s a h Ha) at 1. by rewrite total_insert by apply lookup_delete_eq. Qed.
Lemma total_update s a h h' : s !! a = Some h -> h_charge h' = h_charge h -> total (<[a := h']> s) = total s.
Proof.
  intros Ha Hc. rewrite (total_delete s a h Ha), <- (insert_delete_eq s a h'), total_insert by apply lookup_delete_eq. lia.
Qed.

Lemma held_insert s a h : s !! a = None -> held_entries (<[a := h]> s) ≡ₚ (h_key h, h_value h) :: held_entries s.
Proof. intros Ha. unfold held_entries. by rewrite (map_to_list_insert s a h Ha). Qed.
Lemma held_delete s a h : s !! a = Some h -> held_entries s ≡ₚ (h_key h, h_value h) :: held_entries (delete a s).
Proof. intros Ha. rewrite <- (insert_delete_id s a h Ha) at 1. apply held_insert, lookup_delete_eq. Qed.
Lemma held_update s a h h' : s !! a = Some h -> h_key h' = h_key h -> h_value h' = h_value h -> held_entries (<[a := h']> s) ≡ₚ held_entries s.
Proof.
  intros Ha Hk Hv. rewrite (held_delete s a h Ha), <- (insert_delete_eq s a h'), held_insert by apply lookup_delete_eq. by rewrite Hk, Hv.
Qed.

(** The invariant, with the number of references to each handle and all the
    entries ever inserted. *)
Record core (c : LRU) (rc : nat -> Z) (I : list (bytes * V)) : Prop := {
  co_nodup : NoDup (lru_ c);
  co_handles a h : store_ c !! a = Some h -> h_hash h = hf (h_key h) /\ h_refs h = rc a /\ 0 < rc a < 2^32;
  co_alive a : 0 < rc a -> is_Some (store_ c !! a);
  co_lru a : a ∈ lru_ c -> 0 < rc a;
  co_fresh a : is_Some (store_ c !! a) -> (a < next_ c)%nat;
  co_keys a b k : a ∈ lru_ c -> b ∈ lru_ c -> has_key (store_ c) k a -> has_key (store_ c) k b -> a = b;
  co_table : table_inv (store_ c) (table_ c) (lru_ c);
  co_usage : usage_ c = u64 (total (store_ c));
  co_entries : deleted_ c ++ held_entries (store_ c) ≡ₚ I;
}.

Lemma core_ext c rc rc' I : (forall a, rc a = rc' a) -> core c rc I -> core c rc' I.
Proof.
  intros E [H1 H2 H3 H4 H5 H6 H7 H8 H9]. split; try done.
  - intros a h Ha. rewrite <- E. by apply H2.
  - intros a. rewrite <- E. apply H3.
  - intros a. rewrite <- E. apply H4.
Qed.

Lemma core_keyed c rc I : core c rc I -> keyed hf (store_ c) (lru_ c).
Proof. intros Hc a Ha. destruct (co_alive _ _ _ Hc a (co_lru _ _ _ Hc a Ha)) as [h Eh]. exists h. split; [done|]. by apply (co_handles _ _ _ Hc a). Qed.

(** Stores that agree on the keys of the listed places. *)
Lemma table_inv_store (s s' : store) t L : (forall a, a ∈ L -> h_id <$> s !! a = h_id <$> s' !! a) -> table_inv s t L -> table_inv s' t L.
Proof.
  intros Hs [[H1 H2 H3] H4 H5]. split; [|done|done]. split; [done|done|].
  intros i chain a h Hi Ha Eh. assert (a ∈ L) as HaL by (rewrite <- H2; by eapply concat_lookup).
  specialize (Hs a HaL). rewrite Eh in Hs. destruct (s !! a) as [h'|] eqn:Eh'; [|done]. injection Hs as _ Hh.
  rewrite <- Hh. by apply (H3 i chain a h').
Qed.

Lemma has_key_store (s s' : store) k a : h_id <$> s !! a = h_id <$> s' !! a -> has_key s k a -> has_key s' k a.
Proof.
  intros Hs (h & Eh & <-). rewrite Eh in Hs. destruct (s' !! a) as [h'|] eqn:Eh'; [|done]. injection Hs as Hk _.
  by exists h'.
Qed.

(** Handles keep their keys and values. *)
Definition grows (s s' : store) : Prop := forall a h', s' !! a = Some h' -> exists h, s !! a = Some h /\ h_key h = h_key h' /\ h_value h = h_value h'.

Definition add_ref (rc : nat -> Z) (a : nat) (n : Z) (b : nat) : Z := if decide (b = a) then rc b + n else rc b.

Lemma set_refs_id (s : store) a h r b : s !! a = Some h -> h_id <$> s !! b = h_id <$> <[a := with_refs h r]> s !! b.
Proof. intros Ha. destruct (decide (b = a)) as [->|]; [by rewrite lookup_insert_eq, Ha|by rewrite lookup_insert_ne]. Qed.

(** A handle whose references change. *)
Lemma core_set_refs c rc I a h n : core c rc I -> store_ c !! a = Some h -> 0 < rc a + n < 2^32 ->
  core (with_store c (<[a := with_refs h (rc a + n)]> (store_ c))) (add_ref rc a n) I.
Proof.
  intros [H1 H2 H3 H4 H5 H6 H7 H8 H9] Ha Hn. destruct (H2 a h Ha) as (Hh & Hr & Hpos). unfold add_ref.
  split; cbn [with_store lru_ store_ next_ table_ usage_ deleted_]; try done.
  - intros b g Hb. destruct (decide (b = a)) as [->|]; [rewrite lookup_insert_eq in Hb; by injection Hb as <-|].
    rewrite lookup_insert_ne in Hb by done. by apply H2.
  - intros b Hb. destruct (decide (b = a)) as [->|]; [rewrite lookup_insert_eq; by eexists|]. rewrite lookup_insert_ne by done. by apply H3.
  - intros b Hb. case_decide; [subst; lia|by apply H4].
  - intros b Hb. apply H5. destruct (decide (b = a)) as [->|]; [by eexists|]. by rewrite lookup_insert_ne in Hb by done.
  - intros x y k Hx Hy Hkx Hky. apply (H6 x y k Hx Hy); (eapply has_key_store; [symmetry; by apply set_refs_id|done]).
  - eapply table_inv_store; [|exact H7]. intros b _. by apply set_refs_id.
  - by rewrite (total_update _ _ h).
  - by rewrite (held_update _ _ h).
Qed.

Lemma grows_set_refs (s : store) a h r : s !! a = Some h -> grows s (<[a := with_refs h r]> s).
Proof.
  intros Ha b g Hb. destruct (decide (b = a)) as [->|]; [rewrite lookup_insert_eq in Hb; injection Hb as <-; by exists h|].
  rewrite lookup_insert_ne in Hb by done. by exists g.
Qed.

(** The part of the cache that the list and the table make up. *)
Definition same_lists (c c' : LRU) : Prop :=
  capacity_ c' = capacity_ c /\ lru_ c' = lru_ c /\ table_ c' = table_ c /\ next_ c' = next_ c.

Lemma Unref_spec c rc I a : core c rc I -> 0 < rc a -> (rc a = 1 -> a ∉ lru_ c) ->
  exists c', Unref c a = Ret c' /\ core c' (add_ref rc a (-1)) I /\ same_lists c c' /\ grows (store_ c) (store_ c')
  /\ forall b, 0 < add_ref rc a (-1) b -> is_Some (store_ c !! b).
Proof.
  intros Hc Hpos Hone. destruct (co_alive _ _ _ Hc a Hpos) as [h Ha]. destruct (co_handles _ _ _ Hc a h Ha) as (Hh & Hr & Hb).
  unfold Unref, deref. rewrite Ha. cbn [of_option mbind res_bind]. rewrite Hr, u32_small by lia.
  assert (forall b, 0 < add_ref rc a (-1) b -> is_Some (store_ c !! b)) as Halive.
  { intros b Hb'. apply (co_alive _ _ _ Hc). unfold add_ref in Hb'. case_decide; lia. }
  destruct (Z.leb_spec (rc a - 1) 0) as [Hle|Hgt].
  - eexists. split; [done|]. split; [|split; [done|split; [|done]]].
    2:{ intros b g Hb'. cbn in Hb'. apply lookup_delete_Some in Hb' as [_ Hb']. by exists g. }
    destruct Hc as [H1 H2 H3 H4 H5 H6 H7 H8 H9]. specialize (Hone ltac:(lia)). unfold add_ref.
    assert (forall b, b ∈ lru_ c -> h_id <$> store_ c !! b = h_id <$> delete a (store_ c) !! b) as Hid
      by (intros b Hbl; rewrite lookup_delete_ne; [done|by intros ->]).
    split; cbn [lru_ store_ next_ table_ usage_ deleted_]; try done.
    + intros b g [Hne Hg]%lookup_delete_Some. rewrite decide_False by done. by apply H2.
    + intros b Hb'. destruct (decide (b = a)) as [->|]; [lia|]. rewrite lookup_delete_ne by done. by apply H3.
    + intros b Hbl. rewrite decide_False by (by intros ->). by apply H4.
    + intros b [g [_ Hg]%lookup_delete_Some]. apply H5. by exists g.
    + intros x y k Hx Hy Hkx Hky. apply (H6 x y k Hx Hy); (eapply has_key_store; [symmetry; by apply Hid|done]).
    + eapply table_inv_store; [|exact H7]. exact Hid.
    + rewrite H8, (total_delete _ _ _ Ha). unfold u64. rewrite Zminus_mod_idemp_l. f_equal. lia.
    + rewrite <- H9, (held_delete _ _ _ Ha). rewrite <- app_assoc. done.
  - eexists. split; [done|]. split; [|split; [done|split; [|done]]].
    + apply (core_set_refs c rc I a h (-1)); [done|done|lia].
    + by apply grows_set_refs.
Qed.

(** ** The operations *)

(** [held]: the references that callers hold. *)
Definition refs_of (lru : list nat) (held : nat -> Z) (a : nat) : Z := held a + (if decide (a ∈ lru) then 1 else 0).
Definition inv (c : LRU) (held : nat -> Z) (I : list (bytes * V)) : Prop :=
  core c (refs_of (lru_ c) held) I /\ forall a, 0 <= held a.

Lemma table_inv_perm (s : store) t L L' : L ≡ₚ L' -> table_inv s t L -> table_inv s t L'.
Proof. intros Hp [[H1 H2 H3] H4 H5]. split; [split; [done|by rewrite <- Hp|done]|by rewrite <- (Permutation_length Hp)..]. Qed.

Lemma core_lists c rc I L' t' : core c rc I -> NoDup L' -> (forall a, a ∈ L' -> a ∈ lru_ c) -> table_inv (store_ c) t' L' ->
  core (with_lru c L' t') rc I.
Proof.
  intros [H1 H2 H3 H4 H5 H6 H7 H8 H9] Hn Hs Ht. split; cbn; try done.
  - intros a Ha. by apply H4, Hs.
  - intros a b k Ha Hb. by apply H6; apply Hs.
Qed.

Lemma LRU_Remove_perm a L L' : NoDup L -> L ≡ₚ a :: L' -> LRU_Remove a L ≡ₚ L'.
Proof.
  intros Hn HL. unfold LRU_Remove. rewrite HL in *. rewrite filter_cons, decide_False by (intros Hx; by apply Hx).
  apply list.NoDup_cons in Hn as [Ha _]. rewrite filter_all; [done|]. intros b Hb E. by subst b.
Qed.

Lemma elem_LRU_Remove a b L : b ∈ LRU_Remove a L <-> b <> a /\ b ∈ L.
Proof. unfold LRU_Remove. by rewrite list_elem_of_filter. Qed.

Lemma remove_entry c held I a L' t' : inv c held I -> lru_ c ≡ₚ a :: L' -> table_inv (store_ c) t' L' ->
  exists c', Unref (with_lru c (LRU_Remove a (lru_ c)) t') a = Ret c' /\ inv c' held I
  /\ lru_ c' = LRU_Remove a (lru_ c) /\ grows (store_ c) (store_ c') /\ capacity_ c' = capacity_ c /\ next_ c' = next_ c.
Proof.
  intros [Hc Hh] HL Ht. pose proof (LRU_Remove_perm a _ _ (co_nodup _ _ _ Hc) HL) as HR.
  assert (a ∈ lru_ c) as Ha by (rewrite HL; left).
  assert (core (with_lru c (LRU_Remove a (lru_ c)) t') (refs_of (lru_ c) held) I) as Hc1.
  { apply core_lists; [done| | |].
    - apply (sublist_NoDup _ (lru_ c)); [apply Hc|apply sublist_filter].
    - intros b [_ Hb]%elem_LRU_Remove. done.
    - by eapply table_inv_perm. }
  destruct (Unref_spec _ _ I a Hc1) as (c' & E & Hc' & (E1 & E2 & E3 & E4) & Hg & _).
  - unfold refs_of. rewrite decide_True by done. pose proof (Hh a). lia.
  - intros _ Hin. by apply elem_LRU_Remove in Hin as [? _].
  - exists c'. split; [exact E|]. split; [|by split_and!]. split; [|done].
    eapply core_ext; [|exact Hc']. intros b. unfold add_ref, refs_of. rewrite E2. cbn [with_lru lru_].
    destruct (decide (b = a)) as [->|Hne].
    + rewrite decide_True by done. rewrite decide_False; [lia|]. by intros [? _]%elem_LRU_Remove.
    + f_equal. assert (b ∈ LRU_Remove a (lru_ c) <-> b ∈ lru_ c) as Hiff by (rewrite elem_LRU_Remove; tauto).
      destruct (decide (b ∈ lru_ c)), (decide (b ∈ LRU_Remove a (lru_ c))); tauto.
Qed.

Lemma Lookup_spec c held I k : inv c held I -> (forall a, held a < 2^31) ->
  exists o c', Lookup c k (hf k) = Ret (o, c')
  /\ match o with
     | None => c' = c /\ forall a, a ∈ lru_ c -> ~ has_key (store_ c) k a
     | Some a => a ∈ lru_ c /\ has_key (store_ c) k a /\ inv c' (add_ref held a 1) I
         /\ lru_ c' = LRU_Remove a (lru_ c) ++ [a] /\ grows (store_ c) (store_ c') /\ next_ c' = next_ c
     end.
Proof.
  intros [Hc Hh] Hb. unfold Lookup.
  destruct (t_Lookup_spec hf Hhf _ _ _ k (co_table _ _ _ Hc) (core_keyed _ _ _ Hc)) as ([a|] & -> & Ho); cbn [mbind res_bind];
    [|by exists None, c].
  destruct Ho as [Ha (h & Eh & Hk)]. unfold deref. rewrite Eh. cbn [of_option mbind res_bind].
  destruct (co_handles _ _ _ Hc a h Eh) as (Hhf' & Hr & Hpos). pose proof (Hb a) as Hba. pose proof (Hh a) as Hha.
  assert (refs_of (lru_ c) held a = held a + 1) as Er by (unfold refs_of; by rewrite decide_True).
  eexists (Some a), _. split; [done|]. split; [done|]. split; [by exists h|]. rewrite Hr, u32_small by lia.
  assert (forall b, b ∈ LRU_Append a (LRU_Remove a (lru_ c)) <-> b ∈ lru_ c) as Hin.
  { intros b. unfold LRU_Append. rewrite elem_of_app, elem_LRU_Remove, list_elem_of_singleton.
    destruct (decide (b = a)) as [->|]; tauto. }
  split; [|split; [done|split; [by apply grows_set_refs|done]]]. split.
  - apply (core_ext _ (add_ref (refs_of (lru_ c) held) a 1)).
    + intros b. unfold add_ref, refs_of. cbn [with_lru with_store lru_].
      destruct (decide (b ∈ lru_ c)) as [Hd|Hd], (decide (b ∈ LRU_Append a (LRU_Remove a (lru_ c)))) as [Hd'|Hd'];
        rewrite Hin in Hd'; try done; case_decide; lia.
    + assert (LRU_Append a (LRU_Remove a (lru_ c)) ≡ₚ lru_ c) as Hperm.
      { assert (exists L', lru_ c ≡ₚ a :: L') as [L' HL] by (apply list_elem_of_split in Ha as (l1 & l2 & ->); exists (l1 ++ l2); by rewrite Permutation_middle).
        unfold LRU_Append. rewrite (LRU_Remove_perm a _ L' (co_nodup _ _ _ Hc) HL), HL. by rewrite Permutation_app_comm. }
      apply core_lists; [apply core_set_refs; [done|done|lia]| | |].
      * rewrite Hperm. apply Hc.
      * intros b Hb'. cbn. by apply Hin.
      * cbn. eapply table_inv_perm; [symmetry; exact Hperm|]. eapply table_inv_store; [|apply Hc]. intros b _. by apply set_refs_id.
  - intros b. unfold add_ref. case_decide; [subst; lia|apply Hh].
Qed.

Lemma evict_loop_spec n : forall c held I, inv c held I -> exists c', evict_loop n c = Ret c' /\ inv c' held I
  /\ (forall a, a ∈ lru_ c' -> a ∈ lru_ c) /\ grows (store_ c) (store_ c') /\ capacity_ c' = capacity_ c /\ next_ c' = next_ c
  /\ ((length (lru_ c) <= n)%nat -> usage_ c' <= capacity_ c' \/ lru_ c' = []).
Proof.
  induction n as [|n IH]; intros c held I Hi.
  { exists c. split; [done|]. split; [done|]. split; [done|]. split; [intros a h Ha; by exists h|]. split; [done|]. split; [done|].
    intros Hl. right. by apply length_zero_iff_nil; lia. }
  cbn [evict_loop]. destruct (lru_ c) as [|old lru] eqn:El.
  { exists c. split; [done|]. split; [done|]. rewrite El. split; [done|]. split; [intros a h Ha; by exists h|]. split; [done|]. split; [done|]. by right. }
  pose proof Hi as [Hc _]. destruct (Z.gtb_spec (usage_ c) (capacity_ c)) as [Hgt|Hle].
  2:{ exists c. split; [done|]. split; [done|]. rewrite El. split; [done|]. split; [intros a h Ha; by exists h|]. split; [done|]. split; [done|]. intros _. left. lia. }
  destruct (core_keyed _ _ _ Hc old) as (h & Eh & Hh); [rewrite El; left|]. unfold deref. rewrite Eh. cbn [of_option mbind res_bind]. rewrite Hh.
  destruct (t_Remove_spec hf Hhf _ _ _ (h_key h) (co_table _ _ _ Hc) (core_keyed _ _ _ Hc)) as (t' & o & -> & Ho). cbn [mbind res_bind].
  assert (has_key (store_ c) (h_key h) old) as Hko by by exists h.
  assert (old ∈ lru_ c) as Hold by (rewrite El; left).
  destruct o as [b|]; [|by destruct Ho as [_ Ho]; destruct (Ho old)].
  destruct Ho as (Hkb & L' & HL & Ht). assert (b = old) as ->.
  { apply (co_keys _ _ _ Hc b old (h_key h)); [rewrite HL; left|done|done|done]. }
  rewrite <- El. destruct (remove_entry c held I old L' t' Hi HL Ht) as (c1 & -> & Hi1 & E1 & Hg1 & Ec1 & En1). cbn [mbind res_bind].
  destruct (IH c1 held I Hi1) as (c2 & -> & Hi2 & Hs2 & Hg2 & Ec2 & En2 & Hu). exists c2. split; [done|]. split; [done|].
  split; [|split; [|split; [congruence|split; [congruence|]]]].
  - intros a Ha. specialize (Hs2 a Ha). rewrite E1 in Hs2. by apply elem_LRU_Remove in Hs2 as [_ ?].
  - intros a h2 Ha. destruct (Hg2 a h2 Ha) as (h1 & Ha1 & K1 & V1). destruct (Hg1 a h1 Ha1) as (h0 & Ha0 & K0 & V0).
    exists h0. split; [done|]. split; congruence.
  - intros Hl. apply Hu. rewrite E1, El. unfold LRU_Remove. rewrite filter_cons, decide_False by (intros Hx; by apply Hx).
    pose proof (length_filter (fun b => b <> old) lru). rewrite El in Hl. cbn [length] in Hl. lia.
Qed.

Lemma Erase_spec c held I k : inv c held I -> exists c', Erase c k (hf k) = Ret c' /\ inv c' held I
  /\ (forall a, a ∈ lru_ c' <-> a ∈ lru_ c /\ ~ has_key (store_ c) k a) /\ grows (store_ c) (store_ c') /\ next_ c' = next_ c.
Proof.
  intros Hi. pose proof Hi as [Hc _]. unfold Erase.
  destruct (t_Remove_spec hf Hhf _ _ _ k (co_table _ _ _ Hc) (core_keyed _ _ _ Hc)) as (t' & [a|] & -> & Ho); cbn [mbind res_bind].
  - destruct Ho as (Hk & L' & HL & Ht). destruct (remove_entry c held I a L' t' Hi HL Ht) as (c1 & -> & Hi1 & E1 & Hg1 & _ & En1).
    exists c1. split; [done|]. split; [done|]. split; [|by split]. intros b. rewrite E1, elem_LRU_Remove.
    split; [intros [Hne Hb]; split; [done|]; intros Hkb; apply Hne; apply (co_keys _ _ _ Hc b a k Hb); [rewrite HL; left|done|done]|].
    intros [Hb Hn]. split; [by intros ->|done].
  - destruct Ho as [-> Hno]. eexists. split; [done|]. split; [by destruct c|]. cbn. split; [|split; [intros b h Hb; by exists h|done]].
    intros b. split; [|tauto]. intros Hb. split; [done|by apply Hno].
Qed.

Lemma Release_spec c held I a : inv c held I -> 0 < held a -> exists c', Release c a = Ret c'
  /\ inv c' (add_ref held a (-1)) I /\ lru_ c' = lru_ c /\ grows (store_ c) (store_ c') /\ next_ c' = next_ c.
Proof.
  intros [Hc Hh] Hpos. destruct (Unref_spec _ _ I a Hc) as (c' & E & Hc' & (E1 & E2 & E3 & E4) & Hg & _).
  - unfold refs_of. case_decide; lia.
  - unfold refs_of. case_decide; [lia|done].
  - exists c'. split; [exact E|]. split; [|by split_and!]. split.
    + eapply core_ext; [|exact Hc']. intros b. unfold add_ref, refs_of. rewrite E2. case_decide; lia.
    + intros b. unfold add_ref. case_decide; [subst; lia|apply Hh].
Qed.

Definition inserted (c : LRU) (k : bytes) (v : V) (charge : Z) (L : list nat) (t : HandleTable) : LRU :=
  mkCache (capacity_ c) (u64 (usage_ c + charge)) L t (<[next_ c := mkHandle v charge k 2 (hf k)]> (store_ c)) (S (next_ c)) (deleted_ c).

(** The new handle in the list and the table, with what is left of them. *)
Lemma inserted_core c held I k v charge L t : inv c held I -> NoDup L ->
  (forall x, x ∈ L -> x = next_ c \/ (x ∈ lru_ c /\ ~ has_key (store_ c) k x)) -> next_ c ∈ L ->
  table_inv (<[next_ c := mkHandle v charge k 2 (hf k)]> (store_ c)) t L ->
  core (inserted c k v charge L t) (fun b => if decide (b = next_ c) then 2 else refs_of (lru_ c) held b) ((k, v) :: I).
Proof.
  intros [[H1 H2 H3 H4 H5 H6 H7 H8 H9] Hh] Hn HL HaL Ht. set (a := next_ c) in *.
  assert (store_ c !! a = None) as Hfresh.
  { destruct (store_ c !! a) as [h|] eqn:E; [|done]. specialize (H5 a ltac:(by eexists)). unfold a in H5. lia. }
  assert (forall x, x ∈ lru_ c -> x <> a) as Hne.
  { intros x Hx ->. destruct (H3 a (H4 a Hx)) as [h E]. congruence. }
  assert (forall x y, x <> a -> has_key (<[a := mkHandle v charge k 2 (hf k)]> (store_ c)) y x -> has_key (store_ c) y x) as Hkey.
  { intros x y Hx (h & E & Hy). rewrite lookup_insert_ne in E by done. by exists h. }
  split; cbn [inserted lru_ store_ next_ table_ usage_ deleted_]; fold a; try done.
  - intros b h Hb. destruct (decide (b = a)) as [->|Hba]; [rewrite lookup_insert_eq in Hb; by injection Hb as <-|].
    rewrite lookup_insert_ne in Hb by done. by apply H2.
  - intros b Hb. destruct (decide (b = a)) as [->|Hba]; [rewrite lookup_insert_eq; by eexists|].
    rewrite lookup_insert_ne by done. by apply H3.
  - intros b Hb. destruct (HL b Hb) as [->|[Hbl _]]; [by rewrite decide_True|]. rewrite decide_False by by apply Hne. by apply H4.
  - intros b Hb. destruct (decide (b = a)) as [->|Hba]; [unfold a; lia|]. rewrite lookup_insert_ne in Hb by done. specialize (H5 b Hb). lia.
  - intros x y q Hx Hy Hkx Hky.
    assert (forall x, x ∈ L -> x <> a -> has_key (<[a := mkHandle v charge k 2 (hf k)]> (store_ c)) q x -> q <> k) as Hq.
    { intros z Hz Hza Hkz ->. destruct (HL z Hz) as [->|[_ Hnz]]; [done|]. by apply Hnz, Hkey. }
    assert (has_key (<[a := mkHandle v charge k 2 (hf k)]> (store_ c)) q a -> q = k) as Hqa.
    { intros (h & E & <-). rewrite lookup_insert_eq in E. by injection E as <-. }
    destruct (decide (x = a)) as [->|Hxa], (decide (y = a)) as [->|Hya]; [done| | |].
    + exfalso. apply (Hq y); auto.
    + exfalso. apply (Hq x); auto.
    + destruct (HL x Hx) as [?|[Hxl _]]; [done|]. destruct (HL y Hy) as [?|[Hyl _]]; [done|]. apply (H6 x y q); auto.
  - rewrite total_insert by done. rewrite H8. cbn [h_charge]. unfold u64. rewrite Zplus_mod_idemp_l. f_equal. lia.
  - rewrite held_insert by done. cbn [h_key h_value]. rewrite <- H9. by rewrite <- Permutation_middle.
Qed.

Lemma Insert_spec c held I k v charge : inv c held I -> Z.of_nat (S (length (lru_ c))) < 2^31 ->
  exists c', Insert c k (hf k) v charge = Ret (next_ c, c') /\ inv c' (add_ref held (next_ c) 1) ((k, v) :: I)
  /\ held (next_ c) = 0
  /\ (forall x, x ∈ lru_ c' -> x = next_ c \/ (x ∈ lru_ c /\ ~ has_key (store_ c) k x))
  /\ (forall x h', store_ c' !! x = Some h' -> (x = next_ c /\ h_key h' = k /\ h_value h' = v)
        \/ exists h, x <> next_ c /\ store_ c !! x = Some h /\ h_key h = h_key h' /\ h_value h = h_value h')
  /\ (usage_ c' <= capacity_ c \/ lru_ c' = []).
Proof.
  intros Hi Hsz. pose proof Hi as [Hc Hh]. unfold Insert. cbn zeta. set (a := next_ c) in *. set (s := <[a := _]> (store_ c)).
  cbn [table_ lru_].
  assert (store_ c !! a = None) as Hfresh.
  { destruct (store_ c !! a) as [h|] eqn:E; [|done]. pose proof (co_fresh _ _ _ Hc a ltac:(by eexists)) as Hlt. unfold a in Hlt. lia. }
  assert (a ∉ lru_ c) as Hal by (intros Ha; destruct (co_alive _ _ _ Hc a (co_lru _ _ _ Hc a Ha)) as [h E]; congruence).
  assert (held a = 0) as Hha.
  { destruct (decide (0 < held a)) as [Hp|]; [|pose proof (Hh a); lia]. exfalso.
    destruct (co_alive _ _ _ Hc a) as [h E]; [unfold refs_of; case_decide; lia|congruence]. }
  assert (forall b, b ∈ lru_ c -> h_id <$> store_ c !! b = h_id <$> s !! b) as Hid
    by (intros b Hb; unfold s; rewrite lookup_insert_ne; [done|by intros ->]).
  assert (keyed hf s (lru_ c)) as Hkd.
  { intros b Hb. destruct (core_keyed _ _ _ Hc b Hb) as (h & E & Hhh). exists h. unfold s. rewrite lookup_insert_ne by (by intros ->). done. }
  destruct (t_Insert_spec hf Hhf s (table_ c) (lru_ c) a (mkHandle v charge k 2 (hf k))) as (t & o & -> & Ho);
    [eapply table_inv_store; [exact Hid|apply Hc]|exact Hkd|apply lookup_insert_eq|done|done|].
  cbn [mbind res_bind h_key] in *.
  assert (forall x, x ∈ lru_ c -> has_key s k x <-> has_key (store_ c) k x) as Hks.
  { intros x Hx. split; intros Hk; (eapply has_key_store; [|exact Hk]); [symmetry|]; by apply Hid. }
  (* the cache with the new handle and without the old one *)
  assert (exists c1, (match o with
      | Some old => Unref (with_lru (with_lru (mkCache (capacity_ c) (u64 (usage_ c + charge)) (LRU_Append a (lru_ c)) (table_ c) s (S a) (deleted_ c))
          (LRU_Append a (lru_ c)) t) (LRU_Remove old (LRU_Append a (lru_ c))) t) old
      | None => Ret (with_lru (mkCache (capacity_ c) (u64 (usage_ c + charge)) (LRU_Append a (lru_ c)) (table_ c) s (S a) (deleted_ c)) (LRU_Append a (lru_ c)) t)
      end) = Ret c1 /\ inv c1 (add_ref held a 1) ((k, v) :: I) /\ capacity_ c1 = capacity_ c
      /\ (forall x, x ∈ lru_ c1 -> x = a \/ (x ∈ lru_ c /\ ~ has_key (store_ c) k x)) /\ grows s (store_ c1)) as (c1 & E1 & Hi1 & Ecap & Hl1 & Hg1).
  { assert (forall x, 0 <= add_ref held a 1 x) as Hh' by (intros x; unfold add_ref; pose proof (Hh x); case_decide; lia).
    destruct o as [old|].
    - destruct Ho as (Hko & L' & HL & Ht). assert (old ∈ lru_ c) as Hold by (rewrite HL; left).
      assert (LRU_Remove old (LRU_Append a (lru_ c)) ≡ₚ a :: L') as HR.
      { apply LRU_Remove_perm; [|unfold LRU_Append; rewrite HL, Permutation_app_comm; cbn; by constructor].
        unfold LRU_Append. apply list.NoDup_app. split; [apply Hc|]. split; [intros x Hx ->%list_elem_of_singleton; done|apply NoDup_singleton]. }
      assert (forall x, x ∈ LRU_Remove old (LRU_Append a (lru_ c)) -> x = a \/ (x ∈ lru_ c /\ ~ has_key (store_ c) k x)) as Hel.
      { intros x [Hne Hx]%elem_LRU_Remove. unfold LRU_Append in Hx. apply elem_of_app in Hx as [Hx|Hx%list_elem_of_singleton]; [right|by left].
        split; [done|]. intros Hk. apply Hne. apply (co_keys _ _ _ Hc x old k Hx Hold Hk). by apply Hks. }
      pose proof (inserted_core c held I k v charge (LRU_Remove old (LRU_Append a (lru_ c))) t Hi) as Hcore. fold a in Hcore. fold s in Hcore.
      destruct (Unref_spec _ _ _ old (Hcore ltac:(apply (sublist_NoDup _ (LRU_Append a (lru_ c)));
          [unfold LRU_Append; apply list.NoDup_app; split; [apply Hc|]; split; [intros x Hx ->%list_elem_of_singleton; done|apply NoDup_singleton]|apply sublist_filter])
          Hel ltac:(rewrite HR; left) ltac:(by eapply table_inv_perm))) as (c1 & E & Hc1 & (F1 & F2 & F3 & F4) & Hg & _).
      + rewrite decide_False by (intros ->; done). unfold refs_of. rewrite decide_True by done. pose proof (Hh old). lia.
      + intros _ Hin. by apply elem_LRU_Remove in Hin as [? _].
      + exists c1. split; [exact E|]. split; [|split; [exact F1|split; [rewrite F2; exact Hel|exact Hg]]]. split; [|done].
        eapply core_ext; [|exact Hc1]. intros b. unfold add_ref, refs_of. rewrite F2. cbn [inserted lru_].
        destruct (decide (b = old)) as [->|Hbo].
        * rewrite decide_False by (by intros ->). rewrite decide_True by done. rewrite decide_False by (by intros ->).
          rewrite decide_False; [lia|]. by intros [? _]%elem_LRU_Remove.
        * destruct (decide (b = a)) as [->|Hba].
          -- rewrite decide_True by (rewrite HR; left). lia.
          -- f_equal. assert (b ∈ LRU_Remove old (LRU_Append a (lru_ c)) <-> b ∈ lru_ c) as Hiff
               by (rewrite elem_LRU_Remove; unfold LRU_Append; rewrite elem_of_app, list_elem_of_singleton; tauto).
             destruct (decide (b ∈ lru_ c)), (decide (b ∈ LRU_Remove old (LRU_Append a (lru_ c)))); tauto.
    - destruct Ho as [Ht Hno]. eexists. split; [done|].
      assert (forall x, x ∈ LRU_Append a (lru_ c) -> x = a \/ (x ∈ lru_ c /\ ~ has_key (store_ c) k x)) as Hel.
      { intros x [Hx|Hx%list_elem_of_singleton]%elem_of_app; [right; split; [done|by rewrite <- Hks; [apply Hno|]]|by left]. }
      split; [|split; [done|split; [exact Hel|intros b h Hb; by exists h]]]. split; [|done].
      pose proof (inserted_core c held I k v charge (LRU_Append a (lru_ c)) t Hi) as Hcore. fold a in Hcore. fold s in Hcore.
      eapply core_ext; [|apply Hcore; [|exact Hel|unfold LRU_Append; apply elem_of_app; right; by left|
        eapply table_inv_perm; [|exact Ht]; unfold LRU_Append; by rewrite Permutation_app_comm]].
      + intros b. unfold add_ref, refs_of, LRU_Append. cbn [inserted lru_ with_lru].
        destruct (decide (b = a)) as [->|Hba].
        * rewrite decide_True by (apply elem_of_app; right; by left). lia.
        * f_equal. assert (b ∈ lru_ c ++ [a] <-> b ∈ lru_ c) as Hiff by (rewrite elem_of_app, list_elem_of_singleton; tauto).
          destruct (decide (b ∈ lru_ c)), (decide (b ∈ lru_ c ++ [a])); tauto.
      + unfold LRU_Append. apply list.NoDup_app. split; [apply Hc|]. split; [intros x Hx ->%list_elem_of_singleton; done|apply NoDup_singleton]. }
  cbn [with_lru lru_] in E1 |- *. rewrite E1. cbn [mbind res_bind].
  destruct (evict_loop_spec (length (lru_ c1)) c1 _ _ Hi1) as (c2 & -> & Hi2 & Hs2 & Hg2 & Ec2 & _ & Hu2). cbn [mbind res_bind].
  exists c2. split; [done|]. split; [done|]. split; [done|]. split; [intros x Hx; by apply Hl1, Hs2|]. split.
  - intros x h2 Hx. destruct (Hg2 x h2 Hx) as (h1 & Hx1 & K1 & V1). destruct (Hg1 x h1 Hx1) as (h0 & Hx0 & K0 & V0).
    destruct (decide (x = a)) as [->|Hne].
    + left. unfold s in Hx0. rewrite lookup_insert_eq in Hx0. injection Hx0 as <-. cbn in *. split; [done|]. split; congruence.
    + right. unfold s in Hx0. rewrite lookup_insert_ne in Hx0 by done. exists h0. split_and!; [done|done|congruence|congruence].
  - rewrite Ec2, Ecap in Hu2. by apply Hu2.
Qed.

Lemma new_LRUCache_spec cap : exists c, new_LRUCache cap = Ret c /\ inv c (fun _ => 0) [] /\ lru_ c = [].
Proof.
  unfold new_LRUCache, new_HandleTable.
  destruct (Resize_spec hf Hhf (∅ : store) (mkTable 0 0 []) []) as (t & -> & Ht); [done|intros a Ha; by apply elem_of_nil in Ha|done|done|].
  cbn [mbind res_bind]. eexists. split; [done|]. split; [|done]. split; [|done].
  split; cbn [lru_ store_ next_ table_ usage_ deleted_]; try done.
  - constructor.
  - intros a Ha. by apply elem_of_nil in Ha.
  - intros a [h E]. done.
  - intros a b k Ha. by apply elem_of_nil in Ha.
Qed.

(** ** Runs of operations

    Callers release handles that they hold.  [I] has all entries inserted, [M]
    the entry of every handle that was given out, [G] what was inserted last
    for each key and not erased since. *)
Inductive session (cap : Z) : LRU -> (nat -> Z) -> list (bytes * V) -> gmap nat (bytes * V) -> gmap bytes V -> Prop :=
| ses_new c : new_LRUCache cap = Ret c -> session cap c (fun _ => 0) [] ∅ ∅
| ses_insert c held I M G k v charge a c' : session cap c held I M G -> Z.of_nat (S (length (lru_ c))) < 2^31 ->
    Insert c k (hf k) v charge = Ret (a, c') -> session cap c' (add_ref held a 1) ((k, v) :: I) (<[a := (k, v)]> M) (<[k := v]> G)
| ses_hit c held I M G k a h c' : session cap c held I M G -> (forall b, held b < 2^31) ->
    Lookup c k (hf k) = Ret (Some a, c') -> store_ c !! a = Some h ->
    session cap c' (add_ref held a 1) I (<[a := (h_key h, h_value h)]> M) G
| ses_miss c held I M G k c' : session cap c held I M G -> (forall b, held b < 2^31) ->
    Lookup c k (hf k) = Ret (None, c') -> session cap c' held I M G
| ses_release c held I M G a c' : session cap c held I M G -> 0 < held a -> Release c a = Ret c' ->
    session cap c' (add_ref held a (-1)) I M G
| ses_erase c held I M G k c' : session cap c held I M G -> Erase c k (hf k) = Ret c' -> session cap c' held I M (delete k G).

Record session_inv (c : LRU) (held : nat -> Z) (I : list (bytes * V)) (M : gmap nat (bytes * V)) (G : gmap bytes V) : Prop := {
  si_inv : inv c held I;
  si_handles a h : 0 < held a -> store_ c !! a = Some h -> M !! a = Some (h_key h, h_value h);
  si_last a h : a ∈ lru_ c -> store_ c !! a = Some h -> G !! h_key h = Some (h_value h);
}.

Lemma held_alive c held I a : inv c held I -> 0 < held a -> is_Some (store_ c !! a).
Proof. intros [Hc Hh] Ha. apply (co_alive _ _ _ Hc). unfold refs_of. case_decide; lia. Qed.

(** Steps that let the entries be or let them go. *)
Lemma session_shrinks c c' held held' I M G : session_inv c held I M G -> inv c' held' I -> grows (store_ c) (store_ c') ->
  (forall a, 0 < held' a -> 0 < held a \/ exists h, store_ c !! a = Some h /\ M !! a = Some (h_key h, h_value h)) ->
  (forall a, a ∈ lru_ c' -> a ∈ lru_ c) -> session_inv c' held' I M G.
Proof.
  intros [Hi Hm Hl] Hi' Hg Hheld Hlru. split; [done| |].
  - intros a h' Ha Eh. destruct (Hg a h' Eh) as (h & E & <- & <-). destruct (Hheld a Ha) as [Hpos|(g & Eg & HM)]; [by apply Hm|].
    rewrite E in Eg. by injection Eg as <-.
  - intros a h' Ha Eh. destruct (Hg a h' Eh) as (h & E & <- & <-). apply (Hl a); [by apply Hlru|done].
Qed.

Lemma session_holds cap c held I M G : session cap c held I M G -> session_inv c held I M G.
Proof.
  induction 1 as [c E|c held I M G k v charge a c' _ IH Hsz E|c held I M G k a h c' _ IH Hb E Eh|c held I M G k c' _ IH Hb E
    |c held I M G a c' _ IH Ha E|c held I M G k c' _ IH E].
  - destruct (new_LRUCache_spec cap) as (c0 & E0 & Hi & El). rewrite E in E0. injection E0 as <-. split; [done|intros; lia|].
    intros a h Ha. rewrite El in Ha. by apply elem_of_nil in Ha.
  - destruct (Insert_spec c held I k v charge (si_inv _ _ _ _ _ IH) Hsz) as (c1 & E1 & Hi1 & Hz & Hl & Hs & _).
    rewrite E in E1. injection E1 as -> ->. split; [done| |].
    + intros b g Hb Eg. destruct (Hs b g Eg) as [(-> & <- & <-)|(g0 & Hne & E0 & <- & <-)]; [by rewrite lookup_insert_eq|].
      rewrite lookup_insert_ne by done. apply (si_handles _ _ _ _ _ IH); [|done]. unfold add_ref in Hb. by rewrite decide_False in Hb.
    + intros b g Hb Eg. destruct (Hs b g Eg) as [(-> & <- & <-)|(g0 & Hne & E0 & K & <-)]; [by rewrite lookup_insert_eq|].
      destruct (Hl b Hb) as [?|[Hbl Hnk]]; [done|]. rewrite <- K, lookup_insert_ne; [by apply (si_last _ _ _ _ _ IH b)|].
      intros ->. apply Hnk. by exists g0.
  - destruct (Lookup_spec c held I k (si_inv _ _ _ _ _ IH) Hb) as (o & c1 & E1 & Ho). rewrite E in E1. injection E1 as <- <-.
    destruct Ho as (Hal & _ & Hi1 & El & Hg & _).
    assert (session_inv c held I (<[a := (h_key h, h_value h)]> M) G) as IH'.
    { destruct IH as [I1 I2 I3]. split; [done| |done]. intros b g Hbp Eg. destruct (decide (b = a)) as [->|].
      - rewrite lookup_insert_eq. rewrite Eh in Eg. by injection Eg as <-.
      - rewrite lookup_insert_ne by done. by apply I2. }
    eapply session_shrinks; [exact IH'|done|done| |].
    + intros b Hbp. unfold add_ref in Hbp. destruct (decide (b = a)) as [->|]; [|by left]. right. exists h. by rewrite lookup_insert_eq.
    + intros b Hbl. rewrite El in Hbl. apply elem_of_app in Hbl as [[_ Hbl]%elem_LRU_Remove|Hbl%list_elem_of_singleton]; [done|by subst b].
  - destruct (Lookup_spec c held I k (si_inv _ _ _ _ _ IH) Hb) as (o & c1 & E1 & Ho). rewrite E in E1. injection E1 as <- <-.
    by destruct Ho as [-> _].
  - destruct (Release_spec c held I a (si_inv _ _ _ _ _ IH) Ha) as (c1 & E1 & Hi1 & El & Hg & _). rewrite E in E1. injection E1 as <-.
    eapply session_shrinks; [exact IH|done|done| |by rewrite El].
    intros b Hb. left. unfold add_ref in Hb. case_decide; lia.
  - destruct (Erase_spec c held I k (si_inv _ _ _ _ _ IH)) as (c1 & E1 & Hi1 & El & Hg & _). rewrite E in E1. injection E1 as <-.
    assert (session_inv c' held I M G) as Hs by (eapply session_shrinks; [exact IH|done|done|by intros b Hb; left|by intros b [Hb _]%El]).
    destruct Hs as [I1 I2 I3]. split; [done|done|]. intros b g Hb Eg. apply El in Hb as Hb'. destruct Hb' as [Hbl Hnk].
    destruct (Hg b g Eg) as (g0 & E0 & K & Ev). rewrite lookup_delete_ne; [by apply (I3 b)|].
    intros ->. apply Hnk. by exists g0.
Qed.
End lru.

(** ** The shards *)

Definition slice_hash (k : bytes) : Z := match HashSlice k with Ret h => h | _ => 0 end.

Lemma HashSlice_eq k : HashSlice k = Ret (slice_hash k) /\ 0 <= slice_hash k < 2^32.
Proof. unfold slice_hash, HashSlice. destruct (Hash_range k 0) as (h & -> & Hh). by split. Qed.

Lemma slice_hash_range k : 0 <= slice_hash k < 2^32.
Proof. apply HashSlice_eq. Qed.

Lemma Shard_bounds h : 0 <= h < 2^32 -> 0 <= Shard h < 16.
Proof.
  intros Hh. unfold Shard, kNumShardBits. rewrite Z.shiftr_div_pow2 by lia. change (2^(32 - 4)) with (2^28).
  split; [apply Z.div_pos; lia|apply Z.div_lt_upper_bound; lia].
Qed.

Section sharded.
Context {V : Type}.
Abbreviation handle := (Z * nat)%type.

Definition add_held (held : handle -> Z) (h : handle) (n : Z) (x : handle) : Z := if decide (x = h) then held x + n else held x.
Definition shard_held (held : handle -> Z) (i : nat) : nat -> Z := fun a => held (Z.of_nat i, a).

(** [P] holds of the entries that lookups can find, [held] are the handles that
    callers hold. *)
Record shard_ok (P : bytes -> V -> Prop) (i : nat) (s : LRUCache V) (held : nat -> Z) : Prop := {
  sh_inv : exists I, inv slice_hash s held I;
  sh_home a e : store_ s !! a = Some e -> Shard (h_hash e) = Z.of_nat i;
  sh_entries a e : a ∈ lru_ s -> store_ s !! a = Some e -> P (h_key e) (h_value e);
}.
Record sharded_ok (P : bytes -> V -> Prop) (c : ShardedLRUCache V) (held : handle -> Z) : Prop := {
  so_length : length (shard_ c) = Z.to_nat kNumShards;
  so_shards i s : shard_ c !! i = Some s -> shard_ok P i s (shard_held held i);
}.

Lemma inv_ext (hf : bytes -> Z) (s : LRUCache V) held held' I : (forall a, held a = held' a) -> inv hf s held I -> inv hf s held' I.
Proof.
  intros E [Hc Hh]. split; [|intros a; by rewrite <- E]. eapply core_ext; [|exact Hc]. intros a. unfold refs_of. by rewrite E.
Qed.

Lemma shard_ok_ext P i (s : LRUCache V) held held' : (forall a, held a = held' a) -> shard_ok P i s held -> shard_ok P i s held'.
Proof. intros E [[I Hi] H2 H3]. split; [|done|done]. exists I. by eapply inv_ext. Qed.

Lemma shard_at (P : bytes -> V -> Prop) (c : ShardedLRUCache V) held k : sharded_ok P c held ->
  exists i s, Shard (slice_hash k) = Z.of_nat i /\ shard_ c !! i = Some s /\ shard_ok P i s (shard_held held i).
Proof.
  intros Hc. pose proof (Shard_bounds _ (slice_hash_range k)) as Hb. exists (Z.to_nat (Shard (slice_hash k))).
  destruct (lookup_lt_is_Some_2 (shard_ c) (Z.to_nat (Shard (slice_hash k)))) as [s Es].
  - rewrite (so_length _ _ _ Hc). change (Z.to_nat kNumShards) with 16%nat. lia.
  - exists s. split; [lia|]. split; [done|]. by apply (so_shards _ _ _ Hc).
Qed.

(** One shard changes, and the handles to it. *)
Lemma shard_update (P Q : bytes -> V -> Prop) (c : ShardedLRUCache V) held held' i s' : sharded_ok P c held -> shard_ok Q i s' (shard_held held' i) ->
  (forall j s, j <> i -> shard_ c !! j = Some s -> shard_ok P j s (shard_held held j) -> shard_ok Q j s (shard_held held' j)) ->
  sharded_ok Q (mkSharded (<[i := s']> (shard_ c)) (last_id_ c)) held'.
Proof.
  intros Hc Hs' Hother. split; cbn [shard_]; [rewrite length_insert; apply Hc|]. intros j s Hj. destruct (decide (j = i)) as [->|Hne].
  - rewrite list_lookup_insert_eq in Hj; [by injection Hj as <-|].
    destruct (decide (i < length (shard_ c))%nat) as [|Hn]; [done|]. by rewrite list_insert_ge, lookup_ge_None_2 in Hj by lia.
  - rewrite list_lookup_insert_ne in Hj by done. apply Hother; [done|done|]. by apply (so_shards _ _ _ Hc).
Qed.

Lemma on_shard_eq {A} (c : ShardedLRUCache V) i s (f : LRUCache V -> res (A * LRUCache V)) r s' : shard_ c !! i = Some s -> f s = Ret (r, s') ->
  on_shard c (Z.of_nat i) f = Ret (r, mkSharded (<[i := s']> (shard_ c)) (last_id_ c)).
Proof.
  intros Es Ef. unfold on_shard, nth_res. rewrite Nat2Z.id, decide_True by lia. rewrite Es. cbn [of_option mbind res_bind]. by rewrite Ef.
Qed.

Lemma handle_at_eq (c : ShardedLRUCache V) i s a e : shard_ c !! i = Some s -> store_ s !! a = Some e -> handle_at c (Z.of_nat i, a) = Ret e.
Proof.
  intros Es Ee. unfold handle_at, nth_res. cbn [fst snd]. rewrite Nat2Z.id, decide_True by lia. rewrite Es. cbn [of_option mbind res_bind].
  unfold deref. by rewrite Ee.
Qed.

Lemma grows_home (s s' : LRUCache V) i held held' I I' : inv slice_hash s held I -> inv slice_hash s' held' I' -> grows (store_ s) (store_ s') ->
  (forall a e, store_ s !! a = Some e -> Shard (h_hash e) = Z.of_nat i) -> forall a e, store_ s' !! a = Some e -> Shard (h_hash e) = Z.of_nat i.
Proof.
  intros [Hc _] [Hc' _] Hg Hh a e' Ea. destruct (Hg a e' Ea) as (e & E & K & _). destruct (co_handles _ _ _ _ Hc' a e' Ea) as [-> _].
  rewrite <- K. destruct (co_handles _ _ _ _ Hc a e E) as [<- _]. by apply (Hh a).
Qed.

Lemma other_shards (P : bytes -> V -> Prop) (i : nat) held h n : h.1 = Z.of_nat i -> forall j (s : LRUCache V), j <> i -> shard_ok P j s (shard_held held j) ->
  shard_ok P j s (shard_held (add_held held h n) j).
Proof.
  intros Ei j s Hne. apply shard_ok_ext. intros a. unfold shard_held, add_held. rewrite decide_False; [done|].
  intros <-. cbn in Ei. lia.
Qed.

Lemma held_here held (i a : nat) n b : shard_held (add_held held (Z.of_nat i, a) n) i b = add_ref (shard_held held i) a n b.
Proof.
  unfold shard_held, add_held, add_ref. destruct (decide (b = a)) as [->|Hne]; [by rewrite decide_True|].
  rewrite decide_False; [done|congruence].
Qed.

Lemma cache_Lookup_spec P (c : ShardedLRUCache V) held k : sharded_ok P c held -> (forall x, held x < 2^31) ->
  exists o c', cache_Lookup c k = Ret (o, c') /\ match o with
  | None => c' = c
  | Some h => sharded_ok P c' (add_held held h 1) /\ 0 <= h.1 < kNumShards
      /\ exists e, handle_at c' h = Ret e /\ h_key e = k /\ P k (h_value e)
  end.
Proof.
  intros Hc Hb. unfold cache_Lookup. rewrite (proj1 (HashSlice_eq k)). cbn [mbind res_bind].
  pose proof (Shard_bounds _ (slice_hash_range k)) as Hbs. destruct (shard_at P c held k Hc) as (i & s & Ei & Es & Hs).
  rewrite Ei in Hbs |- *. pose proof Hs as [[I Hi] Hhome Hent].
  destruct (Lookup_spec slice_hash slice_hash_range s _ I k Hi (fun a => Hb _)) as (o & s' & E & Ho).
  rewrite (on_shard_eq c i s _ o s' Es E). cbn [mbind res_bind]. eexists _, _. split; [done|]. destruct o as [a|]; cbn [option_map].
  - destruct Ho as (Ha & (e & Ee & Ek) & Hi' & El & Hg & _). split.
    + apply (shard_update P P c held); [done| |intros; by eapply other_shards]. eapply shard_ok_ext; [intros b; symmetry; apply held_here|].
      split; [by exists I|exact (grows_home s s' i _ _ I I Hi Hi' Hg Hhome)|]. intros b e' Hbl Eb. destruct (Hg b e' Eb) as (e0 & E0 & <- & <-). apply (Hent b); [|done].
      rewrite El in Hbl. apply elem_of_app in Hbl as [[_ Hbl]%elem_LRU_Remove|Hbl%list_elem_of_singleton]; [done|by subst b].
    + split; [exact Hbs|]. assert (is_Some (store_ s' !! a)) as [e' Ea'].
      { apply (held_alive _ _ _ _ _ Hi'). unfold add_ref. rewrite decide_True by done. pose proof (proj2 Hi a). lia. }
      exists e'. destruct (Hg a e' Ea') as (e0 & E0 & K & V0). rewrite Ee in E0. injection E0 as <-. split.
      * eapply handle_at_eq; [|exact Ea']. cbn [shard_]. apply list_lookup_insert_eq. by eapply lookup_lt_Some.
      * split; [congruence|]. rewrite <- V0, <- Ek. by apply (Hent a).
  - destruct Ho as [-> _]. rewrite list_insert_id by done. by destruct c.
Qed.

Lemma cache_Insert_spec (P : bytes -> V -> Prop) (c : ShardedLRUCache V) held k v charge : sharded_ok P c held -> P k v ->
  (forall s, s ∈ shard_ c -> Z.of_nat (S (length (lru_ s))) < 2^31) ->
  exists h c', cache_Insert c k v charge = Ret (h, c') /\ sharded_ok P c' (add_held held h 1) /\ 0 <= h.1 < kNumShards
  /\ exists e, handle_at c' h = Ret e /\ h_key e = k /\ h_value e = v.
Proof.
  intros Hc HP Hsz. unfold cache_Insert. rewrite (proj1 (HashSlice_eq k)). cbn [mbind res_bind].
  pose proof (Shard_bounds _ (slice_hash_range k)) as Hbs. destruct (shard_at P c held k Hc) as (i & s & Ei & Es & Hs).
  rewrite Ei in Hbs |- *. pose proof Hs as [[I Hi] Hhome Hent]. destruct (Insert_spec slice_hash slice_hash_range s _ I k v charge Hi) as (s' & E & Hi' & Hz & Hl & Hst & _);
    [apply Hsz; by eapply list_elem_of_lookup_2|].
  rewrite (on_shard_eq c i s _ _ s' Es E). cbn [mbind res_bind]. eexists (Z.of_nat i, next_ s), _. split; [done|].
  assert (forall a e, store_ s' !! a = Some e -> Shard (h_hash e) = Z.of_nat i) as Hhome'.
  { intros a e Ea. destruct (co_handles _ _ _ _ (proj1 Hi') a e Ea) as [-> _].
    destruct (Hst a e Ea) as [(_ & -> & _)|(e0 & _ & E0 & <- & _)]; [done|]. destruct (co_handles _ _ _ _ (proj1 Hi) a e0 E0) as [<- _]. by apply (Hhome a). }
  split.
  - apply (shard_update P P c held); [done| |intros; by eapply other_shards]. eapply shard_ok_ext; [intros b; symmetry; apply held_here|].
    split; [by eexists|done|]. intros a e Ha Ea. destruct (Hst a e Ea) as [(_ & -> & ->)|(e0 & Hne & E0 & <- & <-)]; [done|].
    destruct (Hl a Ha) as [?|[Hal _]]; [done|]. by apply (Hent a).
  - split; [exact Hbs|]. assert (is_Some (store_ s' !! next_ s)) as [e Ee].
    { apply (held_alive _ _ _ _ _ Hi'). unfold add_ref. rewrite decide_True by done. rewrite Hz. lia. }
    exists e. split; [eapply handle_at_eq; [|exact Ee]; cbn [shard_]; apply list_lookup_insert_eq; by eapply lookup_lt_Some|].
    destruct (Hst _ e Ee) as [(_ & ? & ?)|(e0 & ? & _)]; [by split|done].
Qed.

Lemma cache_Release_spec P (c : ShardedLRUCache V) held h : sharded_ok P c held -> 0 < held h -> 0 <= h.1 < kNumShards ->
  exists c', cache_Release c h = Ret c' /\ sharded_ok P c' (add_held held h (-1)).
Proof.
  intros Hc Hh Hr. destruct h as [z a]. cbn [fst] in Hr. destruct (Z_of_nat_complete z) as [i ->]; [lia|].
  destruct (lookup_lt_is_Some_2 (shard_ c) i) as [s Es]; [rewrite (so_length _ _ _ Hc); lia|].
  pose proof (so_shards _ _ _ Hc i s Es) as Hs. pose proof Hs as [[I Hi] Hhome Hent].
  destruct (held_alive _ _ _ _ a Hi Hh) as [e Ee]. unfold cache_Release. rewrite (handle_at_eq c i s a e Es Ee). cbn [mbind res_bind].
  rewrite (Hhome a e Ee). destruct (Release_spec slice_hash s _ I a Hi Hh) as (s' & E & Hi' & El & Hg & _).
  rewrite (on_shard_eq c i s _ tt s' Es) by (cbn [snd]; by rewrite E). cbn [mbind res_bind]. eexists. split; [done|].
  apply (shard_update P P c held); [done| |intros; by eapply other_shards]. eapply shard_ok_ext; [intros b; symmetry; apply held_here|].
  split; [by exists I|exact (grows_home s s' i _ _ I I Hi Hi' Hg Hhome)|]. intros b e' Hb Eb. rewrite El in Hb. destruct (Hg b e' Eb) as (e0 & E0 & <- & <-). by apply (Hent b).
Qed.

Lemma cache_Erase_spec (P : bytes -> V -> Prop) (c : ShardedLRUCache V) held k : sharded_ok P c held ->
  exists c', cache_Erase c k = Ret c' /\ sharded_ok (fun k' v => P k' v /\ k' <> k) c' held.
Proof.
  intros Hc. unfold cache_Erase. rewrite (proj1 (HashSlice_eq k)). cbn [mbind res_bind].
  destruct (shard_at P c held k Hc) as (i & s & Ei & Es & Hs). rewrite Ei. pose proof Hs as [[I Hi] Hhome Hent].
  destruct (Erase_spec slice_hash slice_hash_range s _ I k Hi) as (s' & E & Hi' & El & Hg & _).
  rewrite (on_shard_eq c i s _ tt s' Es) by (by rewrite E). cbn [mbind res_bind]. eexists. split; [done|].
  apply (shard_update P _ c held); [done| |].
  - split; [by exists I|exact (grows_home s s' i _ _ I I Hi Hi' Hg Hhome)|]. intros b e' Hb Eb. apply El in Hb as [Hb Hnk]. destruct (Hg b e' Eb) as (e0 & E0 & K & V0).
    rewrite <- K, <- V0. split; [by apply (Hent b)|]. intros Ek. apply Hnk. by exists e0.
  - intros j t Hne Ej [Hinv Hh He]. split; [done|done|]. intros a e Ha Ea. split; [by apply (He a)|]. intros Ek.
    destruct Hinv as [J Hinv]. destruct (co_handles _ _ _ _ (proj1 Hinv) a e Ea) as [Eh _]. specialize (Hh a e Ea). rewrite Eh, Ek, Ei in Hh. lia.
Qed.

Lemma new_Sharded_spec (P : bytes -> V -> Prop) capacity : exists c, new_ShardedLRUCache capacity = Ret c /\ sharded_ok P c (fun _ => 0).
Proof.
  unfold new_ShardedLRUCache. destruct (new_LRUCache_spec (V := V) slice_hash slice_hash_range (u64 (capacity + (kNumShards - 1)) / kNumShards)) as (c & -> & Hi & El).
  cbn [mbind res_bind]. eexists. split; [done|]. split; [apply length_replicate|]. cbn [shard_]. intros i s [-> _]%lookup_replicate.
  assert (forall a e, store_ c !! a = Some e -> False) as Hno.
  { intros a e Ea. destruct (co_handles _ _ _ _ (proj1 Hi) a e Ea) as (_ & _ & Hr). revert Hr. unfold refs_of. rewrite El.
    rewrite decide_False by (by intros ?%elem_of_nil). lia. }
  split; [by exists []|intros a e Ea; by destruct (Hno a e)|intros a e _ Ea; by destruct (Hno a e)].
Qed.
End sharded.

(** ** Properties *)

(** C10: the cache of a shard keeps what it is given.  After any run of inserts,
    lookups, releases of handles held and erasures: every handle held is alive
    and has the entry that it was given out for; every entry inserted is either
    alive or was given to its deleter, once; a lookup ends with nothing or with
    a handle of the value that was inserted last for the key and not erased
    since, and it finds every entry of the list; an insert leaves the usage
    within the capacity or no entry in the list; after an erasure the key is
    not found; and no operation touches a handle that was freed. *)
Theorem cache_holds {V} (hf : bytes -> Z) cap (c : LRUCache V) held I M G : (forall k, 0 <= hf k < 2^32) ->
  session hf cap c held I M G ->
  (forall a, 0 < held a -> exists h c', store_ c !! a = Some h /\ M !! a = Some (h_key h, h_value h) /\ Release c a = Ret c')
  /\ deleted_ c ++ held_entries (store_ c) ≡ₚ I
  /\ (forall k, (forall a, held a < 2^31) -> exists o c', Lookup c k (hf k) = Ret (o, c')
      /\ (forall a, o = Some a -> exists h, store_ c !! a = Some h /\ h_key h = k /\ G !! k = Some (h_value h))
      /\ (o = None -> forall a h, a ∈ lru_ c -> store_ c !! a = Some h -> h_key h <> k))
  /\ (forall k v charge, Z.of_nat (S (length (lru_ c))) < 2^31 -> exists a c', Insert c k (hf k) v charge = Ret (a, c')
      /\ (usage_ c' <= capacity_ c \/ lru_ c' = []))
  /\ (forall k, exists c', Erase c k (hf k) = Ret c' /\ forall a h, a ∈ lru_ c' -> store_ c' !! a = Some h -> h_key h <> k).
Proof.
  intros Hhf Hs. apply (session_holds hf Hhf) in Hs as [Hi Hm Hl]. split_and!.
  - intros a Ha. destruct (held_alive hf c held I a Hi Ha) as [h E]. destruct (Release_spec hf c held I a Hi Ha) as (c' & E' & _).
    exists h, c'. split; [done|]. split; [by apply Hm|done].
  - apply Hi.
  - intros k Hb. destruct (Lookup_spec hf Hhf c held I k Hi Hb) as (o & c' & E & Ho). exists o, c'. split; [done|]. split.
    + intros a ->. destruct Ho as (Ha & (h & Eh & <-) & _). exists h. split; [done|]. split; [done|]. by apply (Hl a).
    + intros ->. destruct Ho as [_ Hno]. intros a h Ha Eh Hk. apply (Hno a Ha). by exists h.
  - intros k v charge Hsz. destruct (Insert_spec hf Hhf c held I k v charge Hi Hsz) as (c' & E & _ & _ & _ & _ & Hu). by exists (next_ c), c'.
  - intros k. destruct (Erase_spec hf Hhf c held I k Hi) as (c' & E & _ & El & Hg & _). exists c'. split; [done|].
    intros a h' Ha Eh Hk. apply El in Ha as [Ha Hno]. destruct (Hg a h' Eh) as (h & E0 & K & _). apply Hno. exists h. split; [done|congruence].
Qed.

(** A cache for two entries: the first is looked up, so the second goes. *)
Definition sample_hash (k : bytes) : Z := Z.of_nat (length k) mod 2^32.
Definition no_cache : LRUCache Z := mkCache 0 0 [] (mkTable 0 0 []) ∅ 0 [].
Definition state_of {A} (r : res (A * LRUCache Z)) : LRUCache Z := match r with Ret (_, c) => c | _ => no_cache end.
Definition sample_c0 : LRUCache Z := match new_LRUCache 2 with Ret c => c | _ => no_cache end.
Definition sample_c1 : LRUCache Z := state_of (Insert sample_c0 (lit "a") (sample_hash (lit "a")) 1 1).
Definition sample_c2 : LRUCache Z := state_of (Insert sample_c1 (lit "bb") (sample_hash (lit "bb")) 2 1).
Definition sample_c3 : LRUCache Z := state_of (Lookup sample_c2 (lit "a") (sample_hash (lit "a"))).
Definition sample_c4 : LRUCache Z := match Release sample_c3 1 with Ret c => c | _ => no_cache end.
Definition sample_c5 : LRUCache Z := state_of (Insert sample_c4 (lit "c") (sample_hash (lit "c")) 3 1).

Lemma sample_session : exists held I M G, session sample_hash 2 sample_c5 held I M G /\ 0 < held 0%nat /\ forall a, held a < 2^31.
Proof.
  assert (new_LRUCache 2 = Ret sample_c0) as S0%(ses_new sample_hash) by (vm_compute; reflexivity).
  eapply (ses_insert _ _ _ _ _ _ _ (lit "a") 1 1 0%nat sample_c1) in S0 as S1; [|vm_compute; reflexivity..].
  eapply (ses_insert _ _ _ _ _ _ _ (lit "bb") 2 1 1%nat sample_c2) in S1 as S2; [|vm_compute; reflexivity..].
  eapply (ses_hit _ _ _ _ _ _ _ (lit "a") 0%nat (mkHandle 1 1 (lit "a") 2 1) sample_c3) in S2 as S3;
    [|intros b; unfold add_ref; repeat case_decide; lia|vm_compute; reflexivity..].
  eapply (ses_release _ _ _ _ _ _ _ 1%nat sample_c4) in S3 as S4; [|vm_compute; reflexivity..].
  eapply (ses_insert _ _ _ _ _ _ _ (lit "c") 3 1 2%nat sample_c5) in S4 as S5; [|vm_compute; reflexivity..].
  do 4 eexists. split; [exact S5|]. split; [vm_compute; reflexivity|]. intros b. unfold add_ref. repeat case_decide; lia.
Qed.

Lemma cache_holds_witness : deleted_ sample_c5 = [(lit "bb", 2)] /\ lru_ sample_c5 = [0; 2]%nat
  /\ exists o c', Lookup sample_c5 (lit "a") (sample_hash (lit "a")) = Ret (o, c') /\ o = Some 0%nat.
Proof.
  split; [vm_compute; reflexivity|]. split; [vm_compute; reflexivity|].
  destruct sample_session as (held & I & M & G & Hs & _ & Hb).
  destruct (cache_holds sample_hash 2 sample_c5 held I M G) as (_ & _ & Hl & _); [intros k; apply Z.mod_pos_bound; lia|done|].
  destruct (Hl (lit "a") Hb) as (o & c' & E & _). exists o, c'. split; [exact E|].
  assert (match Lookup sample_c5 (lit "a") (sample_hash (lit "a")) with Ret (o, _) => o = Some 0%nat | _ => False end) as Ho by (vm_compute; reflexivity).
  by rewrite E in Ho.
Defined.
