(* ===== verification/FilterBlock.v ===== *)
(** * FilterBlock: table/filter_block.h, table/filter_block.cc

    The block of filters of a table: one for every 2 KB of file offsets, made
    by a filter policy, and found again by the offset of a data block. *)

From S2P Require Import Prelude Coding Bloom.

Definition kFilterBaseLg : Z := 11.
Definition kFilterBase : Z := Z.shiftl 1 kFilterBaseLg.

Section filter_block.
Context `{FilterPolicy}.

(** ** [FilterBlockBuilder] *)

Record FilterBlockBuilder := mkBuilder {
  keys_ : bytes;
  start_ : list Z;
  result_ : bytes;
  filter_offsets_ : list Z;
}.

Definition new_FilterBlockBuilder : FilterBlockBuilder := mkBuilder [] [] [] [].

(** The loop that cuts the flattened keys; [start] has the end offset too. *)
Fixpoint make_keys (keys : bytes) (start : list Z) : list bytes :=
  match start with
  | s :: ((e :: _) as start') => take (Z.to_nat (e - s)) (drop (Z.to_nat s) keys) :: make_keys keys start'
  | _ => []
  end.

Definition GenerateFilter (b : FilterBlockBuilder) : res FilterBlockBuilder :=
  let num_keys := length (start_ b) in
  if decide (num_keys = 0%nat) then
    Ret (mkBuilder (keys_ b) (start_ b) (result_ b) (filter_offsets_ b ++ [u32 (Z.of_nat (length (result_ b)))]))
  else
    let start := start_ b ++ [Z.of_nat (length (keys_ b))] in
    let tmp_keys := make_keys (keys_ b) start in
    let filter_offsets := filter_offsets_ b ++ [u32 (Z.of_nat (length (result_ b)))] in
    result ← CreateFilter tmp_keys (result_ b);
    Ret (mkBuilder [] [] result filter_offsets).

(** The loop of [StartBlock]: one filter for each index passed over. *)
Fixpoint start_loop (n : nat) (b : FilterBlockBuilder) : res FilterBlockBuilder :=
  match n with
  | O => Ret b
  | S n => b ← GenerateFilter b; start_loop n b
  end.
Definition StartBlock (b : FilterBlockBuilder) (block_offset : Z) : res FilterBlockBuilder :=
  let filter_index := block_offset / kFilterBase in
  start_loop (Z.to_nat filter_index - length (filter_offsets_ b)) b.

Definition AddKey (b : FilterBlockBuilder) (key : bytes) : FilterBlockBuilder :=
  mkBuilder (keys_ b ++ key) (start_ b ++ [Z.of_nat (length (keys_ b))]) (result_ b) (filter_offsets_ b).

Fixpoint put_offsets (dst : bytes) (offsets : list Z) : bytes :=
  match offsets with [] => dst | o :: offsets => put_offsets (PutFixed32 dst o) offsets end.

Definition Finish (b : FilterBlockBuilder) : res bytes :=
  b ← (if decide (start_ b = []) then Ret b else GenerateFilter b);
  let array_offset := u32 (Z.of_nat (length (result_ b))) in
  let result := put_offsets (result_ b) (filter_offsets_ b) in
  Ret (PutFixed32 result array_offset ++ [zb kFilterBaseLg]).

(** ** [FilterBlockReader]: [offset_] as an offset from [data_] *)

Record FilterBlockReader := mkReader {
  data_ : option bytes;
  offset_ : Z;
  num_ : Z;
  base_lg_ : Z;
}.

Definition new_FilterBlockReader (contents : bytes) : res FilterBlockReader :=
  let n := length contents in
  if decide (n < 5)%nat then Ret (mkReader None 0 0 0)
  else
    c ← of_option (contents !! (n - 1)%nat);
    let base_lg := u64 (schar c) in
    last_word ← DecodeFixed32 (drop (n - 5) contents);
    if decide (last_word > Z.of_nat n - 5) then Ret (mkReader None 0 0 base_lg)
    else Ret (mkReader (Some contents) last_word ((Z.of_nat n - 5 - last_word) / 4) base_lg).

(** A shift of a [uint64_t] by 64 or more is undefined. *)
Definition reader_KeyMayMatch (r : FilterBlockReader) (block_offset : Z) (key : bytes) : res bool :=
  if decide (64 <= base_lg_ r) then Undef
  else
    let index := Z.shiftr block_offset (base_lg_ r) in
    if decide (index < num_ r) then
      data ← of_option (data_ r);
      start ← DecodeFixed32 (drop (Z.to_nat (offset_ r + index * 4)) data);
      limit ← DecodeFixed32 (drop (Z.to_nat (offset_ r + index * 4 + 4)) data);
      if decide (start <= limit /\ limit <= offset_ r) then
        KeyMayMatch key (take (Z.to_nat (limit - start)) (drop (Z.to_nat start) data))
      else Ret (negb (bool_decide (start = limit)))
    else Ret true.

(** ** Building *)

Fixpoint starts (n : Z) (pk : list bytes) : list Z :=
  match pk with [] => [] | k :: pk => n :: starts (n + Z.of_nat (length k)) pk end.

Lemma starts_snoc n pk k : starts n (pk ++ [k]) = starts n pk ++ [n + Z.of_nat (length (concat pk))].
Proof.
  revert n. induction pk as [|x pk IH]; intros n; cbn [starts app concat length]; [by rewrite Z.add_0_r|].
  rewrite IH, length_app. do 3 f_equal. lia.
Qed.

Lemma make_keys_starts (pre : bytes) (pk : list bytes) :
  make_keys (pre ++ concat pk)
    (starts (Z.of_nat (length pre)) pk ++ [Z.of_nat (length (pre ++ concat pk))]) = pk.
Proof.
  revert pre. induction pk as [|k pk IH]; intros pre; [done|]. cbn [starts concat app].
  assert (Hnext : exists t, starts (Z.of_nat (length pre) + Z.of_nat (length k)) pk
    ++ [Z.of_nat (length (pre ++ k ++ concat pk))] = Z.of_nat (length pre) + Z.of_nat (length k) :: t).
  { destruct pk as [|k' pk]; cbn [starts concat app]; [|by eexists].
    exists []. rewrite app_nil_r, length_app. do 2 f_equal. lia. }
  specialize (IH (pre ++ k)). rewrite <- app_assoc, length_app, Nat2Z.inj_add in IH.
  rewrite length_app in IH. destruct Hnext as [t Ht]. rewrite length_app, Nat2Z.inj_add in Ht |- *.
  rewrite Nat2Z.inj_add in IH. rewrite Ht in IH |- *. cbn [make_keys]. f_equal; [|exact IH].
  rewrite Nat2Z.id, drop_app_length. by rewrite take_app_length' by lia.
Qed.

(** [fs]: the filters made; [pk]: the keys of the next one. *)
Record builder_inv (b : FilterBlockBuilder) (fs : list bytes) (pk : list bytes) : Prop := {
  bi_keys : keys_ b = concat pk;
  bi_start : start_ b = starts 0 pk;
  bi_result : result_ b = concat fs;
  bi_offsets : filter_offsets_ b = map (fun i => u32 (Z.of_nat (length (concat (take i fs))))) (seq 0 (length fs));
}.

Lemma new_builder_inv : builder_inv new_FilterBlockBuilder [] [].
Proof. done. Qed.

Lemma offsets_snoc (fs : list bytes) (f : bytes) :
  map (fun i => u32 (Z.of_nat (length (concat (take i (fs ++ [f])))))) (seq 0 (length (fs ++ [f])))
  = map (fun i => u32 (Z.of_nat (length (concat (take i fs))))) (seq 0 (length fs))
    ++ [u32 (Z.of_nat (length (concat fs)))].
Proof.
  rewrite length_app, seq_app, map_app. cbn [seq map length]. rewrite Nat.add_0_l. f_equal.
  - apply map_ext_in. intros i [_ Hi]%in_seq. by rewrite take_app_le by lia.
  - by rewrite take_app_length.
Qed.

Lemma GenerateFilter_spec b fs pk : builder_inv b fs pk -> Z.of_nat (length pk) < 2^31 ->
  exists f b', GenerateFilter b = Ret b' /\ builder_inv b' (fs ++ [f]) []
    /\ Forall (fun k => KeyMayMatch k f = Ret true) pk.
Proof.
  intros [Hk Hs Hr Ho] Hn. unfold GenerateFilter. destruct pk as [|k pk].
  - rewrite Hs. cbn. exists [], (mkBuilder (keys_ b) [] (result_ b) (filter_offsets_ b ++ [u32 (Z.of_nat (length (result_ b)))])).
    split; [done|]. split; [|constructor]. split; cbn [keys_ start_ result_ filter_offsets_]; try done.
    + by rewrite concat_app, app_nil_r.
    + by rewrite offsets_snoc, Ho, Hr.
  - rewrite decide_False by (rewrite Hs; done). rewrite Hk, Hs, Hr, Ho.
    pose proof (make_keys_starts [] (k :: pk)) as E. rewrite app_nil_l in E. change (Z.of_nat (length [])) with 0 in E. rewrite E.
    destruct (CreateFilter_matches (k :: pk) (concat fs) Hn) as (f & -> & HF). cbn [mbind res_bind].
    exists f. eexists. split; [done|]. split; [|done]. split; cbn [keys_ start_ result_ filter_offsets_]; try done.
    + rewrite concat_app. cbn. by rewrite app_nil_r.
    + by rewrite offsets_snoc.
Qed.

(** A key is in the filter of an index, or waits for it to be made. *)
Definition promised (fs : list bytes) (pk : list bytes) (i : nat) (key : bytes) : Prop :=
  (exists f, fs !! i = Some f /\ KeyMayMatch key f = Ret true) \/ (i = length fs /\ key ∈ pk).

Lemma promised_next fs pk f i key : Forall (fun k => KeyMayMatch k f = Ret true) pk ->
  promised fs pk i key -> promised (fs ++ [f]) [] i key.
Proof.
  intros HF [(g & Hg & Hm)|[-> Hin]]; left.
  - exists g. split; [|done]. by apply lookup_app_l_Some.
  - exists f. rewrite list_lookup_middle by done. split; [done|].
    rewrite Forall_forall in HF. by apply HF, list_elem_of_In.
Qed.

Lemma start_loop_spec n b fs pk : builder_inv b fs pk -> Z.of_nat (length pk) < 2^31 ->
  exists b' fs' pk', start_loop n b = Ret b' /\ builder_inv b' fs' pk' /\ length fs' = (length fs + n)%nat
    /\ (length pk' <= length pk)%nat /\ (forall i key, promised fs pk i key -> promised fs' pk' i key).
Proof.
  revert b fs pk. induction n as [|n IH]; intros b fs pk Hb Hn; cbn [start_loop].
  { exists b, fs, pk. split; [done|]. split; [done|]. split; [lia|]. split; [lia|done]. }
  destruct (GenerateFilter_spec b fs pk Hb Hn) as (f & b1 & -> & Hb1 & HF). cbn [mbind res_bind].
  destruct (IH b1 (fs ++ [f]) [] Hb1) as (b' & fs' & pk' & -> & Hb' & Hl & Hlp & Hp); [cbn; lia|].
  exists b', fs', pk'. split; [done|]. split; [done|]. rewrite length_app in Hl. cbn in Hl, Hlp.
  split; [lia|]. split; [lia|]. intros i key Hi. by apply Hp, promised_next with (pk := pk).
Qed.

Lemma AddKey_spec b fs pk key : builder_inv b fs pk -> builder_inv (AddKey b key) fs (pk ++ [key]).
Proof.
  intros [Hk Hs Hr Ho]. split; cbn [AddKey keys_ start_ result_ filter_offsets_]; try done.
  - rewrite concat_app. cbn. by rewrite app_nil_r, Hk.
  - by rewrite starts_snoc, Hs, Hk.
Qed.

(** ** A table's calls: (StartBlock AddKey* )* Finish *)

Fixpoint add_block_keys (b : FilterBlockBuilder) (keys : list bytes) : FilterBlockBuilder :=
  match keys with [] => b | k :: keys => add_block_keys (AddKey b k) keys end.
Fixpoint build (b : FilterBlockBuilder) (blocks : list (Z * list bytes)) : res bytes :=
  match blocks with
  | [] => Finish b
  | (offset, keys) :: blocks => b ← StartBlock b offset; build (add_block_keys b keys) blocks
  end.

Definition num_keys (blocks : list (Z * list bytes)) : nat := length (concat (map snd blocks)).

Lemma add_block_keys_spec b fs pk keys : builder_inv b fs pk -> builder_inv (add_block_keys b keys) fs (pk ++ keys).
Proof.
  revert b pk. induction keys as [|k keys IH]; intros b pk Hb; cbn; [by rewrite app_nil_r|].
  replace (pk ++ k :: keys) with ((pk ++ [k]) ++ keys) by by rewrite <- app_assoc. by apply IH, AddKey_spec.
Qed.

Definition filter_index (offset : Z) : nat := Z.to_nat (offset / kFilterBase).

Lemma StartBlock_spec b fs pk offset : builder_inv b fs pk -> Z.of_nat (length pk) < 2^31 ->
  (length fs <= filter_index offset)%nat ->
  exists b' fs' pk', StartBlock b offset = Ret b' /\ builder_inv b' fs' pk' /\ length fs' = filter_index offset
    /\ (length pk' <= length pk)%nat /\ (forall i key, promised fs pk i key -> promised fs' pk' i key).
Proof.
  intros Hb Hn Hle. unfold StartBlock. rewrite (bi_offsets _ _ _ Hb), length_map, length_seq.
  destruct (start_loop_spec (filter_index offset - length fs) b fs pk Hb Hn) as (b' & fs' & pk' & E & Hb' & Hl & Hm).
  unfold filter_index in E at 1. rewrite E. exists b', fs', pk'. split; [done|]. split; [done|]. split; [lia|done].
Qed.

(** The block of the filters [fs]. *)
Definition filter_block (fs : list bytes) : bytes :=
  concat fs
  ++ concat (map (fun i => EncodeFixed32 (u32 (Z.of_nat (length (concat (take i fs)))))) (seq 0 (S (length fs))))
  ++ [zb kFilterBaseLg].

Lemma put_offsets_app dst os : put_offsets dst os = dst ++ concat (map EncodeFixed32 os).
Proof.
  revert dst. induction os as [|o os IH]; intros dst; cbn [put_offsets map concat]; [by rewrite app_nil_r|].
  rewrite IH. unfold PutFixed32. by rewrite <- app_assoc.
Qed.

Lemma Finish_spec b fs pk : builder_inv b fs pk -> Z.of_nat (length pk) < 2^31 ->
  exists fs', Finish b = Ret (filter_block fs') /\ forall i key, promised fs pk i key -> promised fs' [] i key.
Proof.
  intros Hb Hn. unfold Finish.
  assert (exists b' fs', (if decide (start_ b = []) then Ret b else GenerateFilter b) = Ret b'
    /\ builder_inv b' fs' [] /\ forall i key, promised fs pk i key -> promised fs' [] i key) as (b' & fs' & -> & Hb' & Hp).
  { case_decide as Hs.
    - rewrite (bi_start _ _ _ Hb) in Hs. destruct pk; [|done]. by exists b, fs.
    - destruct (GenerateFilter_spec b fs pk Hb Hn) as (f & b' & -> & Hb' & HF). exists b', (fs ++ [f]).
      split; [done|]. split; [done|]. intros i key. by apply promised_next. }
  cbn [mbind res_bind]. exists fs'. split; [|done]. f_equal. destruct Hb' as [_ _ Hr Ho].
  rewrite put_offsets_app, Hr, Ho. unfold PutFixed32, filter_block. rewrite seq_S, map_app, concat_app. cbn [map concat].
  rewrite Nat.add_0_l, firstn_all, app_nil_r, map_map. by rewrite <- !app_assoc.
Qed.

Lemma build_spec blocks b fs pk : builder_inv b fs pk ->
  Z.of_nat (length pk + num_keys blocks) < 2^31 ->
  StronglySorted (fun x y => (filter_index (fst x) <= filter_index (fst y))%nat) blocks ->
  Forall (fun x => (length fs <= filter_index (fst x))%nat) blocks ->
  exists fs', build b blocks = Ret (filter_block fs')
    /\ (forall i key, promised fs pk i key -> promised fs' [] i key)
    /\ Forall (fun x => Forall (promised fs' [] (filter_index (fst x))) (snd x)) blocks.
Proof.
  revert b fs pk. induction blocks as [|[offset keys] blocks IH]; intros b fs pk Hb Hn Hs Hge; cbn [build].
  { destruct (Finish_spec b fs pk Hb) as (fs' & -> & Hp); [lia|]. by exists fs'. }
  unfold num_keys in *. cbn [map snd concat] in Hn. rewrite length_app in Hn.
  apply StronglySorted_inv in Hs as [Hs Hle]. apply list.Forall_cons in Hge as [Hg Hge]. cbn [fst] in Hg.
  destruct (StartBlock_spec b fs pk offset Hb) as (b1 & fs1 & pk1 & -> & Hb1 & Hi & Hlp & Hp1); [lia|lia|].
  cbn [mbind res_bind].
  destruct (IH (add_block_keys b1 keys) fs1 (pk1 ++ keys)) as (fs' & -> & Hp' & HF).
  { by apply add_block_keys_spec. }
  { rewrite length_app. lia. }
  { done. }
  { rewrite Hi. eapply list.Forall_impl; [exact Hle|]. done. }
  exists fs'. split; [done|].
  assert (Hmore : forall i key, promised fs1 pk1 i key -> promised fs' [] i key).
  { intros i key [Hin|[Hi1 Hin]]; apply Hp'; [by left|right; split; [done|set_solver]]. }
  split; [intros i key Hi1; by apply Hmore, Hp1|]. constructor; [|done]. cbn [fst snd]. apply Forall_forall.
  intros k Hk%list_elem_of_In. apply Hp'. right. split; [done|set_solver].
Qed.

(** ** Reading *)

Lemma offsets_at (g : nat -> Z) pre n rest i : (i < n)%nat -> (forall j, 0 <= g j < 2^32) ->
  DecodeFixed32 (drop (length pre + 4 * i) (pre ++ concat (map (fun j => EncodeFixed32 (g j)) (seq 0 n)) ++ rest))
  = Ret (g i).
Proof.
  intros Hi Hg. rewrite drop_app_ge by lia. replace (length pre + 4 * i - length pre)%nat with (4 * i)%nat by lia.
  replace n with (i + (1 + (n - i - 1)))%nat by lia. rewrite !seq_app, !map_app, !concat_app, <- !app_assoc.
  rewrite drop_app_length'.
  2:{ rewrite (length_concat_uniform 4), length_map, length_seq; [done|].
      apply Forall_forall. intros x [j [<- _]]%in_map_iff. done. }
  cbn [seq map concat app]. rewrite Nat.add_0_l, app_nil_r. by rewrite DecodeFixed32_Encode.
Qed.

Lemma length_offsets (g : nat -> Z) n :
  length (concat (map (fun j => EncodeFixed32 (g j)) (seq 0 n))) = (4 * n)%nat.
Proof.
  rewrite (length_concat_uniform 4), length_map, length_seq; [done|].
  apply Forall_forall. intros x [j [<- _]]%in_map_iff. done.
Qed.

Lemma reader_of fs : Z.of_nat (length (filter_block fs)) < 2^32 ->
  new_FilterBlockReader (filter_block fs)
  = Ret (mkReader (Some (filter_block fs)) (Z.of_nat (length (concat fs))) (Z.of_nat (length fs)) 11).
Proof.
  intros Hl. unfold new_FilterBlockReader. unfold filter_block in *.
  set (g := fun i => u32 (Z.of_nat (length (concat (take i fs))))) in *.
  change (fun i => EncodeFixed32 (u32 (Z.of_nat (length (concat (take i fs)))))) with (fun i => EncodeFixed32 (g i)) in *.
  set (n := length fs) in *. set (offs := concat (map _ _)) in *.
  assert (Ho : length offs = (4 * S n)%nat) by apply length_offsets.
  assert (Hlen : length (concat fs ++ offs ++ [zb kFilterBaseLg]) = (length (concat fs) + 4 * n + 5)%nat).
  { rewrite !length_app, Ho. cbn [length]. lia. }
  rewrite Hlen in *. rewrite decide_False by lia.
  rewrite app_assoc. replace (length (concat fs) + 4 * n + 5 - 1)%nat with (length (concat fs ++ offs)) by (rewrite length_app; lia).
  rewrite list_lookup_middle by done. cbn [of_option mbind res_bind]. change (u64 (schar (zb kFilterBaseLg))) with 11.
  rewrite <- app_assoc. replace (length (concat fs) + 4 * n + 5 - 5)%nat with (length (concat fs) + 4 * n)%nat by lia.
  subst offs. rewrite offsets_at by (lia || (intros; apply u32_range)). cbn [mbind res_bind].
  assert (g n = Z.of_nat (length (concat fs))) as ->.
  { subst g n. cbn. rewrite firstn_all. apply u32_small. lia. }
  rewrite decide_False by lia. do 2 f_equal.
  replace (Z.of_nat (length (concat fs) + 4 * n + 5) - 5 - Z.of_nat (length (concat fs))) with (Z.of_nat n * 4) by lia.
  apply Z.div_mul. lia.
Qed.

Lemma reader_matches fs offset key : Z.of_nat (length (filter_block fs)) < 2^32 -> 0 <= offset ->
  promised fs [] (filter_index offset) key ->
  (r ← new_FilterBlockReader (filter_block fs); reader_KeyMayMatch r offset key) = Ret true.
Proof.
  intros Hl Hoff [(f & Hf & Hm)|[_ Hin]]; [|set_solver]. rewrite reader_of by done. cbn [mbind res_bind].
  unfold reader_KeyMayMatch. cbn [base_lg_ num_ data_ offset_]. rewrite decide_False by lia.
  rewrite Z.shiftr_div_pow2 by lia. change (2^11) with kFilterBase. unfold filter_index in Hf.
  set (i := Z.to_nat (offset / kFilterBase)) in *.
  assert (Hi : offset / kFilterBase = Z.of_nat i).
  { subst i. rewrite Z2Nat.id; [done|]. apply Z.div_pos; [lia|]. done. }
  rewrite Hi. pose proof (lookup_lt_Some _ _ _ Hf) as Hlt. rewrite decide_True by lia. cbn [of_option mbind res_bind].
  set (g := fun i => u32 (Z.of_nat (length (concat (take i fs))))).
  assert (Hat : forall j, (j <= length fs)%nat ->
    DecodeFixed32 (drop (length (concat fs) + 4 * j) (filter_block fs)) = Ret (g j)).
  { intros j Hj. unfold filter_block. apply (offsets_at g); [lia|intros; apply u32_range]. }
  replace (Z.to_nat (Z.of_nat (length (concat fs)) + Z.of_nat i * 4)) with (length (concat fs) + 4 * i)%nat by lia.
  replace (Z.to_nat (Z.of_nat (length (concat fs)) + Z.of_nat i * 4 + 4)) with (length (concat fs) + 4 * S i)%nat by lia.
  rewrite !Hat by lia. cbn [mbind res_bind].
  assert (Htot : (length (concat fs) <= length (filter_block fs))%nat) by (unfold filter_block; rewrite length_app; lia).
  assert (Hcut : forall j, (length (concat (take j fs)) <= length (concat fs))%nat).
  { intros j. rewrite <- (take_drop j fs) at 2. rewrite concat_app, length_app. lia. }
  assert (Hg : forall j, g j = Z.of_nat (length (concat (take j fs)))).
  { intros j. subst g. cbn. apply u32_small. specialize (Hcut j). lia. }
  rewrite !Hg. rewrite (take_S_r fs i f Hf), concat_app, length_app. cbn [concat]. rewrite app_nil_r.
  pose proof (Hcut (S i)) as Hc. rewrite (take_S_r fs i f Hf), concat_app, length_app in Hc. cbn [concat] in Hc.
  rewrite app_nil_r in Hc. rewrite decide_True by lia.
  rewrite Nat2Z.inj_add, Z.add_simpl_l, !Nat2Z.id. unfold filter_block.
  rewrite <- (take_drop_middle fs i f Hf) at 2. rewrite concat_app. cbn [concat]. rewrite <- !app_assoc.
  by rewrite drop_app_length, take_app_length.
Qed.

(** C28: a table's filter block has no false negatives: for data blocks at
    increasing offsets, each with its keys, building returns, and the reader
    of the block accepts every key at its block's offset, provided the policy
    keeps its contract and the block is smaller than 4 GB. *)
Theorem filter_block_no_false_negatives blocks :
  Forall (fun x => 0 <= fst x) blocks -> StronglySorted (fun x y => fst x <= fst y) blocks ->
  Z.of_nat (num_keys blocks) < 2^31 ->
  exists contents, build new_FilterBlockBuilder blocks = Ret contents
  /\ (Z.of_nat (length contents) < 2^32 -> forall offset keys key, (offset, keys) ∈ blocks -> key ∈ keys ->
       (r ← new_FilterBlockReader contents; reader_KeyMayMatch r offset key) = Ret true).
Proof.
  intros H0 Hs Hn.
  destruct (build_spec blocks new_FilterBlockBuilder [] [] new_builder_inv) as (fs & E & _ & HF).
  - cbn. lia.
  - clear -Hs. induction Hs as [|x l Hs IH Hx]; [constructor|]. constructor; [done|].
    eapply list.Forall_impl; [exact Hx|]. intros y Hy. cbn beta in Hy. unfold filter_index.
    assert (fst x / kFilterBase <= fst y / kFilterBase) by (apply Z.div_le_mono; [done|lia]). lia.
  - apply Forall_forall. intros x _. cbn. lia.
  - exists (filter_block fs). split; [done|]. intros Hl offset keys key Hin Hk.
    rewrite Forall_forall in H0, HF. apply list_elem_of_In in Hin. apply reader_matches; [done|by apply (H0 _ Hin)|].
    specialize (HF _ Hin). cbn [fst snd] in HF. rewrite Forall_forall in HF. by apply HF, list_elem_of_In.
Qed.
End filter_block.

(** ** With the Bloom filter *)

Definition sample_policy : FilterPolicy := bloom_policy (mkBloom 10 6) ltac:(split; cbn; lia).

Lemma filter_block_no_false_negatives_witness : exists contents,
  build (H:=sample_policy) (new_FilterBlockBuilder) [(0, [lit "a"; lit "b"]); (5000, [lit "c"])] = Ret contents
  /\ (r ← new_FilterBlockReader contents; reader_KeyMayMatch (H:=sample_policy) r 5000 (lit "c")) = Ret true.
Proof.
  destruct (filter_block_no_false_negatives (H:=sample_policy) [(0, [lit "a"; lit "b"]); (5000, [lit "c"])])
    as (contents & E & HM); [| |vm_compute; reflexivity|].
  { constructor; [cbn; lia|]. constructor; [cbn; lia|constructor]. }
  { constructor; [constructor; constructor|]. constructor; [cbn; lia|constructor]. }
  exists contents. split; [exact E|]. apply (HM) with (keys := [lit "c"]);
    [|apply list_elem_of_In; right; left; reflexivity|apply list_elem_of_In; left; reflexivity].
  assert (Hl : (c ← build (H:=sample_policy) (new_FilterBlockBuilder) [(0, [lit "a"; lit "b"]); (5000, [lit "c"])];
    Ret (Z.of_nat (length c) <? 2^32)) = Ret true) by (vm_compute; reflexivity).
  rewrite E in Hl. cbn in Hl. injection Hl as Hl. by apply Z.ltb_lt.
Defined.
