(* ===== verification/KeyOrder.v ===== *)
(** * KeyOrder: the orders that tables, iterators and databases sort by

    What the code asks of [options.comparator], as an interface, and its two
    implementations: the bytewise comparator, and the comparator of internal
    keys over a user's comparator (db/dbformat.cc). *)

From S2P Require Import Prelude CLib Coding DbFormat SkipList.

(** ** The order of a table's keys

    [options.comparator]: the comparator of the user's keys, or that of
    internal keys, which is defined on the keys [key_valid] only. *)

Class KeyOrder := {
  key_Compare : bytes -> bytes -> res Z;
  key_Separator : bytes -> bytes -> res bytes;
  key_Successor : bytes -> res bytes;
  key_cmp : bytes -> bytes -> comparison;
  key_valid : bytes -> Prop;
  (** A separator that is no key of the table is apart from the keys above it:
      no key in between can stand for one of them. *)
  key_apart : bytes -> bytes -> Prop;
  key_apart_mono a b c : key_apart a b -> cmp_lt key_cmp b c -> key_apart a c;
  key_cmp_order : CmpOrder key_cmp;
  key_compares : Compares key_Compare key_cmp key_valid;
  key_separator a b : key_valid a -> key_valid b -> cmp_lt key_cmp a b ->
    exists s, key_Separator a b = Ret s /\ key_valid s /\ cmp_le key_cmp a s /\ cmp_lt key_cmp s b
      /\ (length s <= length a)%nat /\ (s = a \/ key_apart s b);
  key_successor a : key_valid a ->
    exists s, key_Successor a = Ret s /\ key_valid s /\ cmp_le key_cmp a s /\ (length s <= length a)%nat;
}.
#[export] Existing Instances key_cmp_order key_compares.

(** ** The user's keys, in the bytewise order *)

Definition user_Compare `{Comparator} (a b : bytes) : res Z := Ret (Compare a b).

#[export] Instance user_compares `{Comparator} : Compares user_Compare ucmp (fun _ => True).
Proof. intros a b _ _. exists (Compare a b). by split. Qed.

Lemma length_bytewise_separator start limit :
  (length (bytewise_FindShortestSeparator start limit) <= length start)%nat.
Proof.
  unfold bytewise_FindShortestSeparator. set (d := diff_index_loop _ _ _ _ _). case_decide; [done|].
  destruct (start !! d) as [s|] eqn:Es; [|done]. destruct (limit !! d); [|done]. case_decide; [|done].
  apply lookup_lt_Some in Es. rewrite take_insert_last, length_app, length_take by done. cbn. lia.
Qed.

Lemma length_short_successor key n i : (length (short_successor_loop key n i) <= length key)%nat.
Proof.
  revert i. induction n as [|n IH]; intros i; cbn; [done|]. destruct (key !! i) as [b|] eqn:E; [|done].
  case_decide; [|apply IH]. apply lookup_lt_Some in E. rewrite take_insert_last, length_app, length_take by done. cbn. lia.
Qed.

#[export] Program Instance byte_order : KeyOrder := {|
  key_Compare := user_Compare (H := BytewiseComparator);
  key_Separator a b := Ret (bytewise_FindShortestSeparator a b);
  key_Successor a := Ret (bytewise_FindShortSuccessor a);
  key_cmp := ucmp (H := BytewiseComparator);
  key_valid _ := True;
  key_apart _ _ := True;
|}.
Next Obligation. done. Qed.
Next Obligation.
  intros a b _ _ Hlt. eexists. split; [done|]. split; [done|].
  destruct (FindShortestSeparator_between (Comparator := BytewiseComparator) a b) as [H1 H2].
  { by apply Compare_lt. }
  split; [by apply Compare_le|]. split; [by apply Compare_lt|]. split; [apply length_bytewise_separator|by right].
Qed.
Next Obligation.
  intros a _. eexists. split; [done|]. split; [done|].
  split; [apply Compare_le, (FindShortSuccessor_above (Comparator := BytewiseComparator))|].
  apply length_short_successor.
Qed.

(** ** Internal keys

    Any string of at least eight bytes is one; its tag is the last eight.  The
    separator of two keys of one user key is asked of the user's comparator,
    which must not lengthen the order there. *)

Definition raw_user (k : bytes) : bytes := take (length k - 8) k.
Definition raw_tag (k : bytes) : Z := match key_tag k with Ret z => z | _ => 0 end.
Definition internal_valid (k : bytes) : Prop := (8 <= length k)%nat.

Definition internal_cmp `{Comparator} : bytes -> bytes -> comparison :=
  cmp_then (cmp_on raw_user ucmp) (cmp_flip (cmp_on raw_tag Z.compare)).

#[export] Instance internal_cmp_order `{Comparator} : CmpOrder internal_cmp := _.

Lemma internal_parts k : internal_valid k -> ExtractUserKey k = Ret (raw_user k) /\ key_tag k = Ret (raw_tag k).
Proof.
  intros Hk. unfold internal_valid in Hk. unfold ExtractUserKey, raw_user, raw_tag. rewrite decide_True by done. split; [done|].
  unfold key_tag. destruct (drop (length k - 8) k) as [|? [|? [|? [|? [|? [|? [|? [|? l]]]]]]]] eqn:E;
    try (apply (f_equal length) in E; rewrite length_drop in E; cbn in E; lia). reflexivity.
Qed.

Lemma raw_encode k : valid_seq (sequence k) -> raw_user (encode_key k) = user_key k
  /\ raw_tag (encode_key k) = PackSequenceAndType (sequence k) (type k) /\ internal_valid (encode_key k).
Proof.
  intros Hs. split; [|split].
  - unfold raw_user. rewrite length_encode_key, encode_key_eq. unfold InternalKeyEncodingLength.
    by rewrite take_app_length' by lia.
  - unfold raw_tag. by rewrite key_tag_encode.
  - unfold internal_valid. rewrite length_encode_key. unfold InternalKeyEncodingLength. lia.
Qed.

Lemma internal_cmp_encode `{Comparator} a b : valid_seq (sequence a) -> valid_seq (sequence b) ->
  internal_cmp (encode_key a) (encode_key b) = ikey_cmp a b.
Proof.
  intros Ha Hb. destruct (raw_encode a Ha) as (Ua & Ta & _). destruct (raw_encode b Hb) as (Ub & Tb & _).
  unfold internal_cmp, ikey_cmp, cmp_then, cmp_flip, cmp_on. rewrite Ua, Ub, Ta, Tb.
  by rewrite <- (pack_compare _ (type b) _ (type a) Hb Ha).
Qed.

#[export] Instance internal_compares `{Comparator} : Compares InternalCompare internal_cmp internal_valid.
Proof.
  intros a b Ha Hb. destruct (internal_parts a Ha) as [Ua Ta]. destruct (internal_parts b Hb) as [Ub Tb].
  unfold InternalCompare, internal_cmp, cmp_then, cmp_flip, cmp_on, ucmp. rewrite Ua, Ub. cbn [mbind res_bind].
  case_decide as E.
  - rewrite Ta, Tb. cbn [mbind res_bind]. eexists. split; [done|]. rewrite E. cbn.
    destruct (Z.compare_spec (raw_tag b) (raw_tag a)).
    + by rewrite !decide_False by lia.
    + by rewrite decide_True by lia.
    + by rewrite decide_False, decide_True by lia.
  - eexists. split; [done|]. by destruct (Z.compare_spec (Compare (raw_user a) (raw_user b)) 0).
Qed.

(** A shortened user key with the largest tag. *)
Lemma shortened `{Comparator} a tmp : internal_valid a -> (length tmp < length (raw_user a))%nat -> Compare (raw_user a) tmp < 0 ->
  let s := PutFixed64 tmp (PackSequenceAndType kMaxSequenceNumber kValueTypeForSeek) in
  internal_valid s /\ raw_user s = tmp /\ internal_cmp a s = Lt /\ (length s <= length a)%nat.
Proof.
  cbn zeta. intros Ha Hl Hc. set (s := PutFixed64 _ _).
  assert (length s = length tmp + 8)%nat as Hs by (unfold s, PutFixed64; by rewrite length_app).
  assert (raw_user s = tmp) as Hu.
  { unfold raw_user. rewrite Hs. unfold s, PutFixed64. rewrite take_app_length' by lia. done. }
  split; [unfold internal_valid; lia|]. split; [done|]. split.
  - unfold internal_cmp, cmp_then, cmp_on. rewrite Hu. by rewrite (proj1 (Compare_lt _ _) Hc).
  - unfold raw_user, internal_valid in *. rewrite length_take in Hl. lia.
Qed.

Section internal.
Context `{Comparator} (Hsame : forall u v, Compare u v = 0 -> ~ Compare u (FindShortestSeparator u v) < 0).

#[export] Program Instance internal_order : KeyOrder := {|
  key_Compare := InternalCompare;
  key_Separator := InternalFindShortestSeparator;
  key_Successor := InternalFindShortSuccessor;
  key_cmp := internal_cmp;
  key_valid := internal_valid;
  key_apart a b := cmp_lt ucmp (raw_user a) (raw_user b);
|}.
Next Obligation.
  intros a b c Hab Hbc. cbn beta in *. apply (cmp_lt_le_trans ucmp _ (raw_user b)); [done|].
  unfold cmp_lt, cmp_le, internal_cmp, cmp_then, cmp_on in *. by destruct (ucmp (raw_user b) (raw_user c)).
Qed.
Next Obligation.
  intros a b Ha Hb Hlt. unfold InternalFindShortestSeparator.
  destruct (internal_parts a Ha) as [-> _]. destruct (internal_parts b Hb) as [-> _]. cbn [mbind res_bind].
  eexists. split; [done|]. case_decide as Hc.
  2:{ split; [done|]. split; [|split; [done|split; [done|by left]]]. unfold cmp_le. by rewrite (cmp_refl (cmp:=internal_cmp)). }
  destruct Hc as [Hl Hc]. destruct (shortened a _ Ha Hl Hc) as (Hv & Hu & Hcmp & Hlen).
  split; [done|]. split; [unfold cmp_le; by rewrite Hcmp|].
  enough (cmp_lt ucmp (FindShortestSeparator (raw_user a) (raw_user b)) (raw_user b)) as Hap.
  { split; [|split; [done|right; by rewrite Hu]]. unfold cmp_lt, internal_cmp, cmp_then, cmp_on. rewrite Hu. unfold cmp_lt in Hap. by rewrite Hap. }
  unfold cmp_lt, internal_cmp, cmp_then, cmp_on in Hlt.
  destruct (ucmp (raw_user a) (raw_user b)) eqn:E; [by destruct (Hsame _ _ (proj2 (Compare_eq _ _) E))| |done].
  apply Compare_lt, FindShortestSeparator_between in E as [_ E]. by apply Compare_lt.
Qed.
Next Obligation.
  intros a Ha. unfold InternalFindShortSuccessor. destruct (internal_parts a Ha) as [-> _]. cbn [mbind res_bind].
  eexists. split; [done|]. case_decide as Hc.
  2:{ split; [done|]. split; [|done]. unfold cmp_le. by rewrite (cmp_refl (cmp:=internal_cmp)). }
  destruct Hc as [Hl Hc]. destruct (shortened a _ Ha Hl Hc) as (Hv & Hu & Hcmp & Hlen).
  split; [done|]. split; [|done]. unfold cmp_le. by rewrite Hcmp.
Qed.
End internal.

(** The bytewise comparator leaves equal keys as they are. *)
Lemma bytewise_same u v : Compare (Comparator := BytewiseComparator) u v = 0 ->
  ~ Compare (Comparator := BytewiseComparator) u (bytewise_FindShortestSeparator u v) < 0.
Proof.
  intros E Hlt. assert ((Slice.compare u v ?= 0) = Eq) as E' by exact (proj2 (Z.compare_eq_iff _ _) E). clear E.
  assert ((Slice.compare u (bytewise_FindShortestSeparator u v) ?= 0) = Lt) as Hlt' by exact (proj2 (Z.compare_lt_iff _ _) Hlt). clear Hlt.
  rename E' into E, Hlt' into Hlt. rewrite Slice.compare_sign in E, Hlt. apply (cmp_eq (cmp:=bytes_cmp)) in E as <-.
  unfold bytewise_FindShortestSeparator in Hlt.
  destruct (diff_index_loop_spec (Nat.min (length u) (length u)) u u 0) as (Hd & _ & Hne); [lia|lia|done|].
  set (d := diff_index_loop _ _ _ _ _) in *. rewrite decide_True in Hlt.
  - by rewrite (cmp_refl (cmp:=bytes_cmp)) in Hlt.
  - destruct (decide (d < Nat.min (length u) (length u))%nat) as [Hl|Hl]; [by destruct (Hne Hl)|lia].
Qed.

Definition internal_bytes : KeyOrder := internal_order (H := BytewiseComparator) bytewise_same.
