(* ===== verification/Iterator.v ===== *)
(** * Iterator: include/leveldb/iterator.h, table/iterator.cc and
    table/iterator_wrapper.h

    The interface of every iterator of LevelDB, what it promises (a cursor over
    a list of entries), the empty iterator and the caching wrapper. *)

From S2P Require Import Prelude Coding Status.

(** ** The interface *)

Class Iterator (It : Type) := {
  Valid : It -> bool;
  SeekToFirst : It -> res It;
  SeekToLast : It -> res It;
  Seek : It -> bytes -> res It;
  Next : It -> res It;
  Prev : It -> res It;
  key : It -> res bytes;
  value : It -> res bytes;
  status : It -> Status.t;
}.

(** ** The abstract iterator: a position in a list of entries, or none *)

Abbreviation entries := (list (bytes * bytes)).

Definition index (es : entries) (i : nat) : option nat :=
  if decide (i < length es)%nat then Some i else None.
Definition index_before (i : nat) : option nat := match i with O => None | S i => Some i end.

(** The first entry at or past a target. *)
Fixpoint lower_bound (cmp : bytes -> bytes -> comparison) (t : bytes) (es : entries) : nat :=
  match es with
  | [] => 0
  | (k, _) :: es => match cmp k t with Lt => S (lower_bound cmp t es) | _ => 0 end
  end.

(** [rep it o]: the iterator [it] over the entries [es] is at the position
    [o].  [valid] are the targets it can be asked to seek. *)
Class IteratorSpec (It : Type) `{Iterator It} (valid : bytes -> Prop) (cmp : bytes -> bytes -> comparison)
    (es : entries) (rep : It -> option nat -> Prop) : Prop := {
  spec_Valid it o : rep it o -> Valid it = bool_decide (is_Some o);
  spec_at it i : rep it (Some i) -> exists k v, es !! i = Some (k, v) /\ key it = Ret k /\ value it = Ret v;
  spec_SeekToFirst it o : rep it o -> exists it', SeekToFirst it = Ret it' /\ rep it' (index es 0);
  spec_SeekToLast it o : rep it o -> exists it', SeekToLast it = Ret it' /\ rep it' (index es (length es - 1));
  spec_Seek it o t : rep it o -> valid t -> exists it', Seek it t = Ret it' /\ rep it' (index es (lower_bound cmp t es));
  spec_Next it i : rep it (Some i) -> exists it', Next it = Ret it' /\ rep it' (index es (S i));
  spec_Prev it i : rep it (Some i) -> exists it', Prev it = Ret it' /\ rep it' (index_before i);
  spec_status it o : rep it o -> status it = Status.OK;
}.

(** The entries from the position on, as a client reads them with [Next]. *)
Fixpoint walk {It} `{Iterator It} (fuel : nat) (it : It) : res entries :=
  match fuel with
  | O => NoFuel
  | S fuel =>
      if Valid it then
        k ← key it;
        v ← value it;
        it ← Next it;
        es ← walk fuel it;
        Ret ((k, v) :: es)
      else Ret []
  end.

(** The same backwards, with [Prev]. *)
Fixpoint walk_back {It} `{Iterator It} (fuel : nat) (it : It) : res entries :=
  match fuel with
  | O => NoFuel
  | S fuel =>
      if Valid it then
        k ← key it;
        v ← value it;
        it ← Prev it;
        es ← walk_back fuel it;
        Ret ((k, v) :: es)
      else Ret []
  end.

(** ** Positions *)

Lemma index_some es i : (i < length es)%nat -> index es i = Some i.
Proof. intros Hi. unfold index. by rewrite decide_True. Qed.
Lemma index_none es i : (length es <= i)%nat -> index es i = None.
Proof. intros Hi. unfold index. rewrite decide_False; [done|lia]. Qed.
Lemma index_inv es i j : index es i = Some j -> j = i /\ (i < length es)%nat.
Proof. unfold index. case_decide; [by intros [= ->]|done]. Qed.

Lemma lower_bound_le cmp t es : (lower_bound cmp t es <= length es)%nat.
Proof. induction es as [|[k v] es IH]; cbn; [lia|]. destruct (cmp k t); lia. Qed.

(** Entries before the bound are below the target, the one at it is not. *)
Lemma lower_bound_before cmp t es i e :
  (i < lower_bound cmp t es)%nat -> es !! i = Some e -> cmp (fst e) t = Lt.
Proof.
  revert i. induction es as [|[k v] es IH]; intros i Hi E; cbn in Hi; [lia|].
  destruct (cmp k t) eqn:Ek; try lia. destruct i as [|i]; [by injection E as <-|].
  apply (IH i); [lia|done].
Qed.
Lemma lower_bound_at cmp t es e : es !! lower_bound cmp t es = Some e -> cmp (fst e) t <> Lt.
Proof.
  induction es as [|[k v] es IH]; cbn; [done|]. destruct (cmp k t) eqn:Ek; cbn; [|done|].
  - intros [= <-]. cbn. by rewrite Ek.
  - intros [= <-]. cbn. by rewrite Ek.
Qed.

(** The two facts determine it. *)
Lemma lower_bound_eq cmp t es n : (n <= length es)%nat ->
  (forall i e, (i < n)%nat -> es !! i = Some e -> cmp (fst e) t = Lt) ->
  (forall e, es !! n = Some e -> cmp (fst e) t <> Lt) ->
  lower_bound cmp t es = n.
Proof.
  revert n. induction es as [|[k v] es IH]; intros n Hn Hb Ha; cbn in Hn |- *; [lia|].
  destruct n as [|n].
  - specialize (Ha (k, v) eq_refl). cbn in Ha. by destruct (cmp k t).
  - pose proof (Hb 0%nat (k, v) ltac:(lia) eq_refl) as Hk. cbn in Hk. rewrite Hk. f_equal.
    apply IH; [lia| |exact Ha]. intros i e Hi He. apply (Hb (S i)); [lia|done].
Qed.

(** ** Walking an iterator that meets the specification *)

Section walk.
Context {It : Type} `{!Iterator It} {valid : bytes -> Prop} {cmp : bytes -> bytes -> comparison}.
Context {es : entries} {rep : It -> option nat -> Prop}.
Context `{!IteratorSpec It valid cmp es rep}.

Lemma walk_from it i fuel : rep it (index es i) -> (length es - i < fuel)%nat -> walk fuel it = Ret (drop i es).
Proof.
  revert it i. induction fuel as [|fuel IH]; intros it i Hr Hf; [lia|]. cbn [walk].
  rewrite (spec_Valid _ _ Hr). destruct (decide (i < length es)%nat) as [Hi|Hi].
  - rewrite (index_some _ _ Hi) in *. rewrite bool_decide_true by done.
    destruct (spec_at _ _ Hr) as (k & v & Hkv & -> & ->). cbn [mbind res_bind].
    destruct (spec_Next _ _ Hr) as (it' & -> & Hr'). cbn [mbind res_bind].
    rewrite (IH it' (S i) Hr') by lia. cbn [mbind res_bind]. by rewrite (drop_S _ _ _ Hkv).
  - rewrite index_none in * by lia. rewrite bool_decide_false by (by intros [? ?]).
    by rewrite drop_ge by lia.
Qed.

Lemma walk_back_from it i fuel : rep it (index_before i) -> (i <= length es)%nat -> (i < fuel)%nat ->
  walk_back fuel it = Ret (reverse (take i es)).
Proof.
  revert it i. induction fuel as [|fuel IH]; intros it i Hr Hi Hf; [lia|]. cbn [walk_back].
  rewrite (spec_Valid _ _ Hr). destruct i as [|i]; cbn [index_before] in *.
  - rewrite bool_decide_false by (by intros [? ?]). by rewrite take_0.
  - rewrite bool_decide_true by done.
    destruct (spec_at _ _ Hr) as (k & v & Hkv & -> & ->). cbn [mbind res_bind].
    destruct (spec_Prev _ _ Hr) as (it' & -> & Hr'). cbn [mbind res_bind].
    rewrite (IH it' i Hr') by lia. cbn [mbind res_bind].
    by rewrite (take_S_r _ _ _ Hkv), reverse_snoc.
Qed.

(** A full scan, forwards and backwards, and a scan from a target. *)
Lemma scan_forward it o : rep it o -> exists it', SeekToFirst it = Ret it' /\ walk (S (length es)) it' = Ret es.
Proof.
  intros Hr. destruct (spec_SeekToFirst _ _ Hr) as (it' & E & Hr'). exists it'. split; [done|].
  by rewrite (walk_from _ 0 _ Hr') by lia.
Qed.

Lemma scan_backward it o : rep it o ->
  exists it', SeekToLast it = Ret it' /\ walk_back (S (length es)) it' = Ret (reverse es).
Proof.
  intros Hr. destruct (spec_SeekToLast _ _ Hr) as (it' & E & Hr'). exists it'. split; [done|].
  rewrite (walk_back_from _ (length es)), firstn_all by
    (lia || (destruct es; [by cbn in *|rewrite index_some in Hr' by (cbn; lia); cbn in *; by rewrite Nat.sub_0_r in Hr'])).
  done.
Qed.

Lemma scan_from it o t : rep it o -> valid t ->
  exists it', Seek it t = Ret it' /\ walk (S (length es)) it' = Ret (drop (lower_bound cmp t es) es).
Proof.
  intros Hr Ht. destruct (spec_Seek _ _ t Hr Ht) as (it' & E & Hr'). exists it'. split; [done|].
  by rewrite (walk_from _ _ _ Hr') by lia.
Qed.
End walk.

(** An iterator is at a position when some representation says so: the
    coarsest representation, which hides what an iterator is made of. *)
Definition cursor (It : Type) `{Iterator It} (valid : bytes -> Prop) (cmp : bytes -> bytes -> comparison)
    (es : entries) (it : It) (o : option nat) : Prop :=
  exists rep, IteratorSpec It valid cmp es rep /\ rep it o.

#[export] Instance cursor_spec (It : Type) `{Iterator It} valid cmp es :
  IteratorSpec It valid cmp es (cursor It valid cmp es).
Proof.
  split.
  - intros it o (rep & HS & Hr). by eapply spec_Valid.
  - intros it i (rep & HS & Hr). by eapply spec_at.
  - intros it o (rep & HS & Hr). destruct (spec_SeekToFirst _ _ Hr) as (it' & -> & Hr'). exists it'. split; [done|by exists rep].
  - intros it o (rep & HS & Hr). destruct (spec_SeekToLast _ _ Hr) as (it' & -> & Hr'). exists it'. split; [done|by exists rep].
  - intros it o t (rep & HS & Hr) Ht. destruct (spec_Seek _ _ _ Hr Ht) as (it' & -> & Hr'). exists it'. split; [done|by exists rep].
  - intros it i (rep & HS & Hr). destruct (spec_Next _ _ Hr) as (it' & -> & Hr'). exists it'. split; [done|by exists rep].
  - intros it i (rep & HS & Hr). destruct (spec_Prev _ _ Hr) as (it' & -> & Hr'). exists it'. split; [done|by exists rep].
  - intros it o (rep & HS & Hr). by eapply spec_status.
Qed.

(** Fewer targets can be sought. *)
Lemma cursor_weaken (It : Type) `{Iterator It} (valid valid' : bytes -> Prop) cmp es (it : It) o :
  cursor It valid cmp es it o -> (forall t, valid' t -> valid t) -> cursor It valid' cmp es it o.
Proof.
  intros (rep & [] & Hr) Hv. exists rep. split; [|done]. split; try done. intros it' o' t Hr' Ht. by eapply spec_Seek0; [|apply Hv].
Qed.

(** What an iterator is a cursor over is determined. *)
Lemma cursor_unique (It : Type) `{Iterator It} valid cmp es es' (it : It) o o' :
  cursor It valid cmp es it o -> cursor It valid cmp es' it o' -> es = es'.
Proof.
  intros Hc Hc'. destruct (spec_SeekToFirst _ _ Hc) as (it1 & E1 & Hr1).
  destruct (spec_SeekToFirst _ _ Hc') as (it2 & E2 & Hr2). rewrite E1 in E2. injection E2 as <-.
  pose proof (walk_from it1 0 (S (length es + length es')) Hr1 ltac:(lia)) as W1.
  pose proof (walk_from it1 0 (S (length es + length es')) Hr2 ltac:(lia)) as W2.
  rewrite W1 in W2. by injection W2.
Qed.

(** ** EmptyIterator *)

Record EmptyIterator := mkEmptyIterator { empty_status_ : Status.t }.

#[export] Instance EmptyIterator_iterator : Iterator EmptyIterator := {
  Valid _ := false;
  SeekToFirst it := Ret it;
  SeekToLast it := Ret it;
  Seek it _ := Ret it;
  Next it := Ret it;
  Prev it := Ret it;
  key _ := Ret [];
  value _ := Ret [];
  status := empty_status_;
}.

Definition NewEmptyIterator : EmptyIterator := mkEmptyIterator Status.OK.
Definition NewErrorIterator (s : Status.t) : EmptyIterator := mkEmptyIterator s.

#[export] Instance EmptyIterator_spec valid cmp :
  IteratorSpec EmptyIterator valid cmp [] (fun it o => it = NewEmptyIterator /\ o = None).
Proof.
  split; try (intros it o [-> ->]; try done; by eexists).
  - by intros it i [_ ?].
  - intros it o t [-> ->] _. by eexists.
  - by intros it i [_ ?].
  - by intros it i [_ ?].
Qed.

(** ** IteratorWrapper *)

Record IteratorWrapper (It : Type) := mkWrapper {
  iter_ : option It;
  valid_ : bool;
  wkey_ : bytes;
}.
Arguments mkWrapper {It}.
Arguments iter_ {It}.
Arguments valid_ {It}.
Arguments wkey_ {It}.

Section wrapper.
Context {It : Type} `{!Iterator It}.

Definition new_IteratorWrapper : IteratorWrapper It := mkWrapper None false [].

(** The iterator a method needs: a null pointer is not followed. *)
Definition get (w : IteratorWrapper It) : res It := of_option (iter_ w).

Definition Update (w : IteratorWrapper It) (it : It) : res (IteratorWrapper It) :=
  if Valid it then k ← key it; Ret (mkWrapper (Some it) true k)
  else Ret (mkWrapper (Some it) false (wkey_ w)).

Definition Set_ (w : IteratorWrapper It) (it : option It) : res (IteratorWrapper It) :=
  match it with
  | None => Ret (mkWrapper None false (wkey_ w))
  | Some it => Update w it
  end.

Definition w_Valid (w : IteratorWrapper It) : bool := valid_ w.
Definition w_key (w : IteratorWrapper It) : bytes := wkey_ w.
Definition w_value (w : IteratorWrapper It) : res bytes := it ← get w; value it.
Definition w_status (w : IteratorWrapper It) : res Status.t := it ← get w; Ret (status it).
Definition w_Next (w : IteratorWrapper It) : res (IteratorWrapper It) := it ← get w; it ← Next it; Update w it.
Definition w_Prev (w : IteratorWrapper It) : res (IteratorWrapper It) := it ← get w; it ← Prev it; Update w it.
Definition w_Seek (w : IteratorWrapper It) (k : bytes) : res (IteratorWrapper It) :=
  it ← get w; it ← Seek it k; Update w it.
Definition w_SeekToFirst (w : IteratorWrapper It) : res (IteratorWrapper It) :=
  it ← get w; it ← SeekToFirst it; Update w it.
Definition w_SeekToLast (w : IteratorWrapper It) : res (IteratorWrapper It) :=
  it ← get w; it ← SeekToLast it; Update w it.

(** The cache agrees with the iterator. *)
Definition cached (w : IteratorWrapper It) (it : It) : Prop :=
  iter_ w = Some it /\ valid_ w = Valid it /\ (Valid it = true -> key it = Ret (wkey_ w)).

Context {valid : bytes -> Prop} {cmp : bytes -> bytes -> comparison} {es : entries}.
Context {rep : It -> option nat -> Prop} `{!IteratorSpec It valid cmp es rep}.

(** A wrapper of an iterator at a position. *)
Definition w_rep (w : IteratorWrapper It) (o : option nat) : Prop :=
  exists it, cached w it /\ rep it o.

Lemma Update_spec w it o : rep it o -> exists w', Update w it = Ret w' /\ w_rep w' o.
Proof.
  intros Hr. unfold Update. pose proof (spec_Valid _ _ Hr) as Hv. destruct (Valid it) eqn:E.
  - destruct o as [i|]; [|done]. destruct (spec_at _ _ Hr) as (k & v & _ & Ek & _). rewrite Ek.
    cbn [mbind res_bind]. eexists. split; [done|]. exists it. split; [|done]. by split; [|split].
  - eexists. split; [done|]. exists it. split; [|done]. split; [done|]. split; [done|]. by rewrite E.
Qed.

Lemma w_Valid_spec w o : w_rep w o -> w_Valid w = bool_decide (is_Some o).
Proof. intros (it & (_ & Hv & _) & Hr). unfold w_Valid. by rewrite Hv, (spec_Valid _ _ Hr). Qed.

Lemma w_at w i : w_rep w (Some i) -> exists v, es !! i = Some (w_key w, v) /\ w_value w = Ret v.
Proof.
  intros (it & (Hi & Hv & Hk) & Hr). destruct (spec_at _ _ Hr) as (k & v & E & Ek & Ev).
  rewrite (spec_Valid _ _ Hr), bool_decide_true in Hk by done. specialize (Hk eq_refl).
  rewrite Ek in Hk. injection Hk as ->. exists v. unfold w_value, get. rewrite Hi. by split.
Qed.

Ltac wrapped lem :=
  intros (it & (Hi & _) & Hr); unfold w_Next, w_Prev, w_Seek, w_SeekToFirst, w_SeekToLast, get;
  rewrite Hi; cbn [of_option mbind res_bind]; destruct (lem it Hr) as (it' & -> & Hr');
  cbn [mbind res_bind]; by apply Update_spec.

Lemma w_Next_spec w i : w_rep w (Some i) -> exists w', w_Next w = Ret w' /\ w_rep w' (index es (S i)).
Proof. wrapped (fun it => spec_Next it i). Qed.
Lemma w_Prev_spec w i : w_rep w (Some i) -> exists w', w_Prev w = Ret w' /\ w_rep w' (index_before i).
Proof. wrapped (fun it => spec_Prev it i). Qed.
Lemma w_SeekToFirst_spec w o : w_rep w o -> exists w', w_SeekToFirst w = Ret w' /\ w_rep w' (index es 0).
Proof. wrapped (fun it => spec_SeekToFirst it o). Qed.
Lemma w_SeekToLast_spec w o :
  w_rep w o -> exists w', w_SeekToLast w = Ret w' /\ w_rep w' (index es (length es - 1)).
Proof. wrapped (fun it => spec_SeekToLast it o). Qed.
Lemma w_Seek_spec w o t : valid t -> w_rep w o ->
  exists w', w_Seek w t = Ret w' /\ w_rep w' (index es (lower_bound cmp t es)).
Proof. intros Ht. wrapped (fun it H => spec_Seek it o t H Ht). Qed.
Lemma w_status_spec w o : w_rep w o -> w_status w = Ret Status.OK.
Proof.
  intros (it & (Hi & _) & Hr). unfold w_status, get. rewrite Hi. cbn. by rewrite (spec_status _ _ Hr).
Qed.
End wrapper.

(** ** A pointer to one of two kinds of iterator *)

Section sum.
Context {A B : Type} `{!Iterator A} `{!Iterator B}.

Definition on_sum {R} (f : A -> R) (g : B -> R) (it : A + B) : R := match it with inl a => f a | inr b => g b end.
Definition step_sum (f : A -> res A) (g : B -> res B) (it : A + B) : res (A + B) :=
  match it with inl a => a ← f a; Ret (inl a) | inr b => b ← g b; Ret (inr b) end.

#[export] Instance sum_iterator : Iterator (A + B) := {
  Valid := on_sum Valid Valid;
  SeekToFirst := step_sum SeekToFirst SeekToFirst;
  SeekToLast := step_sum SeekToLast SeekToLast;
  Seek it t := step_sum (fun a => Seek a t) (fun b => Seek b t) it;
  Next := step_sum Next Next;
  Prev := step_sum Prev Prev;
  key := on_sum key key;
  value := on_sum value value;
  status := on_sum status status;
}.

Context (valid : bytes -> Prop) (cmp : bytes -> bytes -> comparison) (es : entries).

Lemma spec_inl rep : IteratorSpec A valid cmp es rep ->
  IteratorSpec (A + B) valid cmp es (fun it o => match it with inl a => rep a o | inr _ => False end).
Proof.
  intros HS. split; intros [a|b]; cbn; try done.
  - apply spec_Valid.
  - apply spec_at.
  - intros o Hr. destruct (spec_SeekToFirst _ _ Hr) as (a' & -> & Hr'). by exists (inl a').
  - intros o Hr. destruct (spec_SeekToLast _ _ Hr) as (a' & -> & Hr'). by exists (inl a').
  - intros o t Hr Ht. destruct (spec_Seek _ _ _ Hr Ht) as (a' & -> & Hr'). by exists (inl a').
  - intros i Hr. destruct (spec_Next _ _ Hr) as (a' & -> & Hr'). by exists (inl a').
  - intros i Hr. destruct (spec_Prev _ _ Hr) as (a' & -> & Hr'). by exists (inl a').
  - apply spec_status.
Qed.

Lemma spec_inr rep : IteratorSpec B valid cmp es rep ->
  IteratorSpec (A + B) valid cmp es (fun it o => match it with inl _ => False | inr b => rep b o end).
Proof.
  intros HS. split; intros [a|b]; cbn; try done.
  - apply spec_Valid.
  - apply spec_at.
  - intros o Hr. destruct (spec_SeekToFirst _ _ Hr) as (b' & -> & Hr'). by exists (inr b').
  - intros o Hr. destruct (spec_SeekToLast _ _ Hr) as (b' & -> & Hr'). by exists (inr b').
  - intros o t Hr Ht. destruct (spec_Seek _ _ _ Hr Ht) as (b' & -> & Hr'). by exists (inr b').
  - intros i Hr. destruct (spec_Next _ _ Hr) as (b' & -> & Hr'). by exists (inr b').
  - intros i Hr. destruct (spec_Prev _ _ Hr) as (b' & -> & Hr'). by exists (inr b').
  - apply spec_status.
Qed.
End sum.

Lemma cursor_inl {A B} `{Iterator A} `{Iterator B} valid cmp es (a : A) o :
  cursor A valid cmp es a o -> cursor (A + B) valid cmp es (inl a) o.
Proof. intros (rep & HS & Hr). eexists. split; [by apply spec_inl, HS|]. exact Hr. Qed.
Lemma cursor_inr {A B} `{Iterator A} `{Iterator B} valid cmp es (b : B) o :
  cursor B valid cmp es b o -> cursor (A + B) valid cmp es (inr b) o.
Proof. intros (rep & HS & Hr). eexists. split; [by apply spec_inr, HS|]. exact Hr. Qed.
