(* ===== verification/BlockBuilder.v ===== *)
(** * BlockBuilder: table/block_builder.h, table/block_builder.cc

    Writes the entries of a block with prefix-compressed keys, the offsets of
    its restart points and their number.  [layout] is the shape of what it
    writes, which the reader of Block.v is proved against. *)

From S2P Require Import Prelude CLib Coding DbFormat Iterator.

Record BlockBuilder := mkBlockBuilder {
  buffer_ : bytes;
  restarts_ : list Z;
  counter_ : Z;
  finished_ : bool;
  last_key_ : bytes;
}.

Definition new_BlockBuilder : BlockBuilder := mkBlockBuilder [] [0] 0 false [].

Definition Reset (b : BlockBuilder) : BlockBuilder := mkBlockBuilder [] [0] 0 false [].

Definition CurrentSizeEstimate (b : BlockBuilder) : Z :=
  Z.of_nat (length (buffer_ b)) + Z.of_nat (length (restarts_ b)) * 4 + 4.

Definition empty (b : BlockBuilder) : bool := bool_decide (buffer_ b = []).

Fixpoint put_restarts (dst : bytes) (restarts : list Z) : bytes :=
  match restarts with [] => dst | r :: restarts => put_restarts (PutFixed32 dst r) restarts end.

Definition Finish (b : BlockBuilder) : BlockBuilder * bytes :=
  let buffer := put_restarts (buffer_ b) (restarts_ b) in
  let buffer := PutFixed32 buffer (u32 (Z.of_nat (length (restarts_ b)))) in
  (mkBlockBuilder buffer (restarts_ b) (counter_ b) true (last_key_ b), buffer).

(** The length of the prefix shared with the previous key. *)
Fixpoint shared_loop (last_key_piece key : bytes) (min_length shared fuel : nat) : nat :=
  match fuel with
  | O => shared
  | S fuel =>
      if decide (shared < min_length)%nat then
        if decide (last_key_piece !! shared = key !! shared)
        then shared_loop last_key_piece key min_length (S shared) fuel
        else shared
      else shared
  end.

Section add.
Context (block_restart_interval : Z).

Definition Add (b : BlockBuilder) (key value : bytes) : BlockBuilder :=
  let last_key_piece := last_key_ b in
  let restart := bool_decide (block_restart_interval <= counter_ b) in
  let min_length := Nat.min (length last_key_piece) (length key) in
  let shared := if restart then 0%nat else shared_loop last_key_piece key min_length 0 min_length in
  let restarts :=
    if restart then restarts_ b ++ [u32 (Z.of_nat (length (buffer_ b)))] else restarts_ b in
  let counter := if restart then 0 else counter_ b in
  let non_shared := (length key - shared)%nat in
  let buffer := PutVarint32 (buffer_ b) (u32 (Z.of_nat shared)) in
  let buffer := PutVarint32 buffer (u32 (Z.of_nat non_shared)) in
  let buffer := PutVarint32 buffer (u32 (Z.of_nat (length value))) in
  let buffer := buffer ++ take non_shared (drop shared key) in
  let buffer := buffer ++ value in
  let last_key := string_resize shared (last_key_ b) ++ take non_shared (drop shared key) in
  mkBlockBuilder buffer restarts (counter + 1) (finished_ b) last_key.
End add.

(** A table's use of a builder: the entries of a block, in order. *)
Fixpoint add_entries (interval : Z) (b : BlockBuilder) (kvs : entries) : BlockBuilder :=
  match kvs with
  | [] => b
  | (k, v) :: kvs => add_entries interval (Add interval b k v) kvs
  end.

(** ** The shape of a block *)

Record stored := mkStored { s_shared : nat; s_key : bytes; s_value : bytes }.

Definition enc (e : stored) : bytes :=
  EncodeVarint32 (u32 (Z.of_nat (s_shared e)))
  ++ EncodeVarint32 (u32 (Z.of_nat (length (s_key e) - s_shared e)))
  ++ EncodeVarint32 (u32 (Z.of_nat (length (s_value e))))
  ++ drop (s_shared e) (s_key e) ++ s_value e.

Definition enc_all (es : list stored) : bytes := concat (map enc es).

(** Where entry [i] starts. *)
Definition off (es : list stored) (i : nat) : nat := length (enc_all (take i es)).

Definition prev_key (es : list stored) (i : nat) : bytes :=
  match i with
  | O => []
  | S i => match es !! i with Some e => s_key e | None => [] end
  end.

(** [rs]: the index of the entry at each restart point. *)
Record layout (es : list stored) (rs : list nat) : Prop := {
  lay_shared i e : es !! i = Some e ->
    (s_shared e <= length (prev_key es i))%nat /\ (s_shared e <= length (s_key e))%nat
    /\ take (s_shared e) (prev_key es i) = take (s_shared e) (s_key e);
  lay_first : rs !! 0%nat = Some 0%nat;
  lay_one : es = [] -> length rs = 1%nat;
  lay_restart j r : rs !! j = Some r -> (r = 0 \/ r < length es)%nat;
  lay_whole j r e : rs !! j = Some r -> es !! r = Some e -> s_shared e = 0%nat;
}.

Definition restart_words (es : list stored) (rs : list nat) : bytes :=
  concat (map (fun r => EncodeFixed32 (u32 (Z.of_nat (off es r)))) rs).

Definition render (es : list stored) (rs : list nat) : bytes :=
  enc_all es ++ restart_words es rs ++ EncodeFixed32 (u32 (Z.of_nat (length rs))).

Definition kv (e : stored) : bytes * bytes := (s_key e, s_value e).

(** ** The builder writes a block of that shape *)

Lemma enc_all_app es es' : enc_all (es ++ es') = enc_all es ++ enc_all es'.
Proof. unfold enc_all. by rewrite map_app, concat_app. Qed.

Lemma off_app_le es es' i : (i <= length es)%nat -> off (es ++ es') i = off es i.
Proof. intros Hi. unfold off. by rewrite take_app_le. Qed.

Lemma off_length es : off es (length es) = length (enc_all es).
Proof. unfold off. by rewrite firstn_all. Qed.

Lemma put_restarts_app dst rs : put_restarts dst rs = dst ++ concat (map EncodeFixed32 rs).
Proof.
  revert dst. induction rs as [|r rs IH]; intros dst; cbn [put_restarts map concat]; [by rewrite app_nil_r|].
  rewrite IH. unfold PutFixed32. by rewrite <- app_assoc.
Qed.

Lemma shared_loop_eq a b n i fuel : shared_loop a b n i fuel = diff_index_loop a b n i fuel.
Proof. revert i. induction fuel as [|fuel IH]; intros i; cbn; [done|]. repeat case_decide; auto. Qed.

(** What is shared is a common prefix, and no longer one is. *)
Lemma shared_loop_spec a b : let n := Nat.min (length a) (length b) in
  let d := shared_loop a b n 0 n in
  (d <= length a)%nat /\ (d <= length b)%nat /\ take d a = take d b
  /\ ((d < n)%nat -> a !! d <> b !! d).
Proof.
  cbn zeta. rewrite shared_loop_eq.
  destruct (diff_index_loop_spec (Nat.min (length a) (length b)) a b 0) as (Hd & Ht & Hn); [lia|lia|done|].
  cbv zeta in *. split; [lia|]. split; [lia|]. split; [done|exact Hn].
Qed.

Section builder.
Context (R : Z) (HR : 1 <= R).

Record builder_inv (b : BlockBuilder) (es : list stored) (rs : list nat) : Prop := {
  bi_layout : layout es rs;
  bi_buffer : buffer_ b = enc_all es;
  bi_restarts : restarts_ b = map (fun r => u32 (Z.of_nat (off es r))) rs;
  bi_last : last_key_ b = prev_key es (length es);
  bi_counter_range : 0 <= counter_ b <= R;
  bi_length : (length rs <= S (length es))%nat;
}.

Lemma new_block_builder_inv : builder_inv new_BlockBuilder [] [0%nat].
Proof.
  split; try done; [|cbn; lia]. split; try done.
  - intros [|[]] r; cbn; [intros [= <-]; lia|done|done].
Qed.

Lemma prev_key_app es es' i : (i <= length es)%nat -> prev_key (es ++ es') i = prev_key es i.
Proof. intros Hi. destruct i as [|i]; [done|]. cbn. by rewrite lookup_app_l by lia. Qed.

Lemma prev_key_snoc es e : prev_key (es ++ [e]) (length (es ++ [e])) = s_key e.
Proof. rewrite length_app, Nat.add_1_r. cbn. by rewrite list_lookup_middle. Qed.

Lemma layout_snoc es rs e : layout es rs ->
  (s_shared e <= length (prev_key es (length es)))%nat -> (s_shared e <= length (s_key e))%nat ->
  take (s_shared e) (prev_key es (length es)) = take (s_shared e) (s_key e) ->
  layout (es ++ [e]) rs.
Proof.
  intros HL H1 H2 H3. split.
  - intros i e' [Hi|[Hi He]]%lookup_app_Some.
    + rewrite prev_key_app by (apply lookup_lt_Some in Hi; lia). by apply (lay_shared _ _ HL).
    + apply list_lookup_singleton_Some in He as [Hi' <-]. assert (i = length es) as -> by lia.
      by rewrite prev_key_app by lia.
  - apply (lay_first _ _ HL).
  - intros He. by destruct es.
  - intros j r Hj. destruct (lay_restart _ _ HL j r Hj); rewrite length_app; cbn; lia.
  - intros j r e' Hj [Hi|[Hi He]]%lookup_app_Some; [by eapply (lay_whole _ _ HL)|].
    apply list_lookup_singleton_Some in He as [Hi' <-].
    destruct (lay_restart _ _ HL j r Hj) as [->|]; [|lia]. destruct es; [|cbn in *; lia].
    cbn in H1. lia.
Qed.

Lemma layout_restart es rs e : layout es rs -> s_shared e = 0%nat ->
  layout (es ++ [e]) (rs ++ [length es]).
Proof.
  intros HL He. assert (layout (es ++ [e]) rs) as HL' by (apply layout_snoc; rewrite ?He; try lia; done).
  destruct HL' as [H1 H2 _ H3 H4]. split; [done| | | |].
  - apply lookup_app_l_Some. done.
  - intros He'. by destruct es.
  - intros j r [Hj|[_ Hr]]%lookup_app_Some; [by eapply H3|].
    apply list_lookup_singleton_Some in Hr as [_ <-]. rewrite length_app. cbn. lia.
  - intros j r e' [Hj|[_ Hr]]%lookup_app_Some; [by eapply H4|].
    apply list_lookup_singleton_Some in Hr as [_ <-]. rewrite list_lookup_middle by done. by intros [= <-].
Qed.

Lemma restart_offsets es e rs : layout es rs ->
  map (fun r => u32 (Z.of_nat (off (es ++ [e]) r))) rs = map (fun r => u32 (Z.of_nat (off es r))) rs.
Proof.
  intros HL. apply map_ext_in. intros r Hr. apply list_elem_of_In, list_elem_of_lookup in Hr as [j Hj].
  rewrite off_app_le; [done|]. destruct (lay_restart _ _ HL j r Hj); lia.
Qed.

Lemma enc_all_snoc es e : enc_all (es ++ [e]) = enc_all es ++ enc e.
Proof. rewrite enc_all_app. unfold enc_all at 2. cbn. by rewrite app_nil_r. Qed.

Lemma resize_key d (a b : bytes) : (d <= length a)%nat -> take d a = take d b ->
  string_resize d a ++ take (length b - d) (drop d b) = b.
Proof.
  intros Hd Ht. rewrite string_resize_le by done.
  rewrite (take_ge (drop d b)) by (rewrite length_drop; lia). by rewrite Ht, take_drop.
Qed.

Lemma block_Add_spec b es rs k v : builder_inv b es rs ->
  exists d rs', builder_inv (Add R b k v) (es ++ [mkStored d k v]) rs'.
Proof.
  intros Hb. pose proof (bi_layout _ _ _ Hb) as HL. unfold Add. rewrite (bi_last _ _ _ Hb), (bi_buffer _ _ _ Hb).
  set (p := prev_key es (length es)) in *.
  assert (Hbuf : forall d, (d <= length k)%nat ->
    PutVarint32 (PutVarint32 (PutVarint32 (enc_all es) (u32 (Z.of_nat d)))
      (u32 (Z.of_nat (length k - d)))) (u32 (Z.of_nat (length v))) ++ take (length k - d) (drop d k) ++ v
    = enc_all (es ++ [mkStored d k v])).
  { intros d Hd. rewrite enc_all_snoc. unfold PutVarint32, enc. cbn [s_shared s_key s_value].
    rewrite (take_ge (drop d k)) by (rewrite length_drop; lia). by rewrite <- !app_assoc. }
  destruct (decide (R <= counter_ b)) as [Hc|Hc].
  - rewrite bool_decide_true by done. exists 0%nat, (rs ++ [length es]).
    assert (Hl : layout (es ++ [mkStored 0 k v]) (rs ++ [length es])) by by apply layout_restart.
    split; cbn [buffer_ restarts_ last_key_ counter_]; [done| | | |lia|rewrite !length_app; cbn; pose proof (bi_length _ _ _ Hb); lia].
    + rewrite <- app_assoc. apply (Hbuf 0%nat). lia.
    + rewrite map_app, (bi_restarts _ _ _ Hb), restart_offsets by done. cbn [map].
      by rewrite off_app_le, off_length by lia.
    + rewrite prev_key_snoc. apply resize_key; [lia|done].
  - rewrite bool_decide_false by done. destruct (shared_loop_spec p k) as (Hd1 & Hd2 & Ht & _). cbv zeta in *.
    set (d := shared_loop _ _ _ _ _) in *. exists d, rs.
    assert (Hl : layout (es ++ [mkStored d k v]) rs) by by apply layout_snoc.
    pose proof (bi_counter_range _ _ _ Hb).
    split; cbn [buffer_ restarts_ last_key_ counter_]; [done| | | |lia|rewrite length_app; cbn; pose proof (bi_length _ _ _ Hb); lia].
    + rewrite <- app_assoc. by apply Hbuf.
    + by rewrite (bi_restarts _ _ _ Hb), restart_offsets.
    + rewrite prev_key_snoc. by apply resize_key.
Qed.

Lemma add_entries_spec kvs b es rs : builder_inv b es rs ->
  exists es' rs', builder_inv (add_entries R b kvs) es' rs' /\ map kv es' = map kv es ++ kvs.
Proof.
  revert b es rs. induction kvs as [|[k v] kvs IH]; intros b es rs Hb; cbn [add_entries].
  { exists es, rs. split; [done|by rewrite app_nil_r]. }
  destruct (block_Add_spec b es rs k v Hb) as (d & rs1 & Hb1).
  destruct (IH _ _ _ Hb1) as (es' & rs' & Hb' & E). exists es', rs'. split; [done|].
  rewrite E, map_app, <- app_assoc. done.
Qed.

Lemma block_Finish_spec b es rs : builder_inv b es rs -> snd (Finish b) = render es rs.
Proof.
  intros Hb. unfold Finish, render, PutFixed32, restart_words. cbn [snd].
  rewrite put_restarts_app, (bi_buffer _ _ _ Hb), (bi_restarts _ _ _ Hb), length_map, map_map.
  by rewrite <- app_assoc.
Qed.

(** The estimate is the size of the block so far. *)
Lemma CurrentSizeEstimate_spec b es rs : builder_inv b es rs ->
  CurrentSizeEstimate b = Z.of_nat (length (snd (Finish b))).
Proof.
  intros Hb. unfold CurrentSizeEstimate, Finish. cbn [snd].
  unfold PutFixed32. rewrite put_restarts_app, !length_app, length_EncodeFixed32.
  rewrite (length_concat_uniform 4), length_map; [lia|].
  apply Forall_forall. by intros x [j [<- _]]%in_map_iff.
Qed.

(** A bound on the size of a block, in terms of its entries. *)
Definition weight (kvs : entries) : nat :=
  foldr (fun e n => length e.1 + length e.2 + 19 + n)%nat 0%nat kvs.

Lemma length_EncodeVarint32 v : (length (EncodeVarint32 v) <= 5)%nat.
Proof. unfold EncodeVarint32. repeat case_match; cbn; lia. Qed.

Lemma length_enc_all es : (length (enc_all es) + 4 * length es <= weight (map kv es))%nat.
Proof.
  induction es as [|e es IH]; [done|]. change (enc_all (e :: es)) with (enc e ++ enc_all es).
  cbn [map weight foldr length]. fold (weight (map kv es)). rewrite length_app. unfold enc, kv at 1 2.
  cbn [fst snd]. rewrite !length_app, length_drop.
  pose proof (length_EncodeVarint32 (u32 (Z.of_nat (s_shared e)))).
  pose proof (length_EncodeVarint32 (u32 (Z.of_nat (length (s_key e) - s_shared e)))).
  pose proof (length_EncodeVarint32 (u32 (Z.of_nat (length (s_value e))))). lia.
Qed.

Lemma length_Finish b es rs : builder_inv b es rs -> (length (snd (Finish b)) <= weight (map kv es) + 8)%nat.
Proof.
  intros Hb. rewrite (block_Finish_spec _ _ _ Hb). unfold render, restart_words.
  rewrite !length_app, length_EncodeFixed32, (length_concat_uniform 4), length_map.
  - pose proof (length_enc_all es). pose proof (bi_length _ _ _ Hb). lia.
  - apply Forall_forall. by intros x [j [<- _]]%in_map_iff.
Qed.

Lemma build_block kvs : exists es rs,
  layout es rs /\ map kv es = kvs /\ snd (Finish (add_entries R new_BlockBuilder kvs)) = render es rs.
Proof.
  destruct (add_entries_spec kvs _ _ _ new_block_builder_inv) as (es & rs & Hb & E). exists es, rs.
  split; [by apply bi_layout in Hb|]. split; [done|]. by apply block_Finish_spec.
Qed.
End builder.
