(* ===== verification/Block.v ===== *)
(** * Block: table/block.h, table/block.cc

    Reads a block: the constructor's checks, the decoder of an entry and the
    iterator.  A pointer into the block is its offset from [data_]; reading the
    bytes of an entry outside the contents is undefined. *)

From S2P Require Import Prelude CLib Coding Status DbFormat SkipList KeyOrder Iterator BlockBuilder.

(** ** Block *)

Record Block := mkBlock {
  data_ : bytes;
  size_ : Z;
  restart_offset_ : Z;
}.

(** The bytes at an offset. *)
Definition at_off (data : bytes) (o : Z) : bytes := drop (Z.to_nat o) data.

Definition NumRestarts (data : bytes) (size : Z) : res Z := DecodeFixed32 (at_off data (size - 4)).

(** [restart_offset_] is not set in an error marker; zero stands for it. *)
Definition new_Block (contents : bytes) : res Block :=
  let size := Z.of_nat (length contents) in
  if decide (size < 4) then Ret (mkBlock contents 0 0)
  else
    let max_restarts_allowed := (size - 4) / 4 in
    num ← NumRestarts contents size;
    if decide (num > max_restarts_allowed) then Ret (mkBlock contents 0 0)
    else Ret (mkBlock contents size (u32 (size - u32 (1 + num) * 4))).

(** [DecodeEntry(p, limit, ...)] for the offsets [p] and [limit]: the three
    numbers and the offset past them, or a null pointer. *)
Definition DecodeEntry (data : bytes) (p limit : Z) : option (Z * Z * Z * Z) :=
  let window := take (Z.to_nat (limit - p)) (at_off data p) in
  let after q := limit - Z.of_nat (length q) in
  if decide (limit - p < 3) then None
  else
    match window with
    | a :: b :: c :: rest =>
        r ← (if Z.lor (bz a) (Z.lor (bz b) (bz c)) <? 128 then Some (bz a, bz b, bz c, rest)
             else
               '(shared, q) ← GetVarint32Ptr window;
               '(non_shared, q) ← GetVarint32Ptr q;
               '(value_length, q) ← GetVarint32Ptr q;
               Some (shared, non_shared, value_length, q));
        let '(shared, non_shared, value_length, q) := r in
        if decide (u32 (limit - after q) < u32 (non_shared + value_length)) then None
        else Some (shared, non_shared, value_length, after q)
    | _ => None
    end.

(** [n] bytes read at an offset. *)
Definition read (data : bytes) (o n : Z) : res bytes :=
  if decide (o + n <= Z.of_nat (length data)) then Ret (take (Z.to_nat n) (at_off data o)) else Undef.

(** ** Block::Iter

    [value_] is an offset and a length; the empty slice of a default or cleared
    [Slice] points elsewhere, and so to no offset. *)

Record Iter := mkIter {
  contents_ : bytes;
  restarts_ : Z;
  num_restarts_ : Z;
  current_ : Z;
  restart_index_ : Z;
  key_ : bytes;
  value_ : option (Z * Z);
  status_ : Status.t;
}.

Definition new_Iter (data : bytes) (restarts num_restarts : Z) : Iter :=
  mkIter data restarts num_restarts restarts num_restarts [] None Status.OK.

Definition NextEntryOffset (it : Iter) : res Z :=
  match value_ it with Some (o, n) => Ret (u32 (o + n)) | None => Undef end.

Definition GetRestartPoint (it : Iter) (index : Z) : res Z :=
  DecodeFixed32 (at_off (contents_ it) (restarts_ it + index * 4)).

Definition SeekToRestartPoint (it : Iter) (index : Z) : res Iter :=
  offset ← GetRestartPoint it index;
  Ret (mkIter (contents_ it) (restarts_ it) (num_restarts_ it) (current_ it) index []
    (Some (offset, 0)) (status_ it)).

Definition bi_Valid (it : Iter) : bool := current_ it <? restarts_ it.
Definition bi_key (it : Iter) : bytes := key_ it.
(** The bytes the value slice refers to. *)
Definition bi_value (it : Iter) : res bytes :=
  match value_ it with Some (o, n) => read (contents_ it) o n | None => Ret [] end.

Definition CorruptionError (it : Iter) : Iter :=
  mkIter (contents_ it) (restarts_ it) (num_restarts_ it) (restarts_ it) (num_restarts_ it) [] None
    (Status.Corruption (lit "bad entry in block") []).

(** The loop that moves [restart_index_] up to the current entry. *)
Fixpoint restart_loop (fuel : nat) (it : Iter) (current restart_index : Z) : res Z :=
  match fuel with
  | O => NoFuel
  | S fuel =>
      if decide (u32 (restart_index + 1) < num_restarts_ it) then
        r ← GetRestartPoint it (u32 (restart_index + 1));
        if decide (r < current) then restart_loop fuel it current (u32 (restart_index + 1))
        else Ret restart_index
      else Ret restart_index
  end.

Definition ParseNextKey (it : Iter) : res (Iter * bool) :=
  current ← NextEntryOffset it;
  let limit := restarts_ it in
  if decide (current >= limit) then
    Ret (mkIter (contents_ it) (restarts_ it) (num_restarts_ it) (restarts_ it) (num_restarts_ it)
      (key_ it) (value_ it) (status_ it), false)
  else
    match DecodeEntry (contents_ it) current limit with
    | None => Ret (CorruptionError it, false)
    | Some (shared, non_shared, value_length, p) =>
        if decide (Z.of_nat (length (key_ it)) < shared) then Ret (CorruptionError it, false)
        else
          delta ← read (contents_ it) p non_shared;
          let key := string_resize (Z.to_nat shared) (key_ it) ++ delta in
          i ← restart_loop (S (Z.to_nat (num_restarts_ it))) it current (restart_index_ it);
          Ret (mkIter (contents_ it) (restarts_ it) (num_restarts_ it) current i key
            (Some (p + non_shared, value_length)) (status_ it), true)
    end.

Definition bi_Next (it : Iter) : res Iter := '(it, _) ← ParseNextKey it; Ret it.

(** The rounds a scan of the entries can take: each has three bytes or more. *)
Definition scan_fuel (it : Iter) : nat := S (Z.to_nat (restarts_ it)).

(** The loop of [SeekToLast] and the second of [Prev]: parse while an entry
    was found and it ends before [stop]. *)
Fixpoint skip_loop (fuel : nat) (it : Iter) (stop : Z) : res Iter :=
  match fuel with
  | O => NoFuel
  | S fuel =>
      '(it, found) ← ParseNextKey it;
      if (found : bool) then
        next ← NextEntryOffset it;
        if decide (next < stop) then skip_loop fuel it stop else Ret it
      else Ret it
  end.

(** The first loop of [Prev]: the index of a restart point before [original],
    or nothing when there is none. *)
Fixpoint back_loop (fuel : nat) (it : Iter) (original index : Z) : res (option Z) :=
  match fuel with
  | O => NoFuel
  | S fuel =>
      r ← GetRestartPoint it index;
      if decide (r >= original) then
        if decide (index = 0) then Ret None else back_loop fuel it original (index - 1)
      else Ret (Some index)
  end.

Definition bi_Prev (it : Iter) : res Iter :=
  let original := current_ it in
  o ← back_loop (S (Z.to_nat (restart_index_ it))) it original (restart_index_ it);
  match o with
  | None =>
      Ret (mkIter (contents_ it) (restarts_ it) (num_restarts_ it) (restarts_ it) (num_restarts_ it)
        (key_ it) (value_ it) (status_ it))
  | Some index =>
      it ← SeekToRestartPoint it index;
      skip_loop (scan_fuel it) it original
  end.

Definition bi_SeekToFirst (it : Iter) : res Iter :=
  it ← SeekToRestartPoint it 0;
  '(it, _) ← ParseNextKey it;
  Ret it.

Definition bi_SeekToLast (it : Iter) : res Iter :=
  it ← SeekToRestartPoint it (u32 (num_restarts_ it - 1));
  skip_loop (scan_fuel it) it (restarts_ it).

Section seek.
Context (compare_ : bytes -> bytes -> res Z).

(** The binary search among the restart points; nothing when one is corrupt. *)
Fixpoint search_loop (fuel : nat) (it : Iter) (target : bytes) (left right : Z) : res (option Z) :=
  match fuel with
  | O => NoFuel
  | S fuel =>
      if decide (left < right) then
        let mid := u32 (u32 (left + right + 1) / 2) in
        region_offset ← GetRestartPoint it mid;
        match DecodeEntry (contents_ it) region_offset (restarts_ it) with
        | None => Ret None
        | Some (shared, non_shared, _, key_ptr) =>
            if decide (shared <> 0) then Ret None
            else
              mid_key ← read (contents_ it) key_ptr non_shared;
              r ← compare_ mid_key target;
              if decide (r < 0) then search_loop fuel it target mid right
              else search_loop fuel it target left (mid - 1)
        end
      else Ret (Some left)
  end.

Fixpoint linear_loop (fuel : nat) (it : Iter) (target : bytes) : res Iter :=
  match fuel with
  | O => NoFuel
  | S fuel =>
      '(it, found) ← ParseNextKey it;
      if (found : bool) then
        r ← compare_ (key_ it) target;
        if decide (r >= 0) then Ret it else linear_loop fuel it target
      else Ret it
  end.

Definition bi_Seek (it : Iter) (target : bytes) : res Iter :=
  o ← search_loop (S (Z.to_nat (num_restarts_ it))) it target 0 (u32 (num_restarts_ it - 1));
  match o with
  | None => Ret (CorruptionError it)
  | Some l =>
      it ← SeekToRestartPoint it l;
      linear_loop (scan_fuel it) it target
  end.

#[export] Instance Iter_iterator : Iterator.Iterator Iter := {
  Valid := bi_Valid;
  SeekToFirst := bi_SeekToFirst;
  SeekToLast := bi_SeekToLast;
  Seek := bi_Seek;
  Next := bi_Next;
  Prev := bi_Prev;
  key it := Ret (bi_key it);
  value := bi_value;
  status := status_;
}.
End seek.

(** [Block::NewIterator]: the iterator, or an empty one with its status. *)
Definition NewIterator (b : Block) : res (EmptyIterator + Iter) :=
  if decide (size_ b < 4) then Ret (inl (NewErrorIterator (Status.Corruption (lit "bad block contents") [])))
  else
    num_restarts ← NumRestarts (data_ b) (size_ b);
    if decide (num_restarts = 0) then Ret (inl NewEmptyIterator)
    else Ret (inr (new_Iter (data_ b) (restart_offset_ b) num_restarts)).

(** ** Decoding the entries of a block of the builder's shape *)

Lemma lor3_small a b c : 0 <= a < 256 -> 0 <= b < 256 -> 0 <= c < 256 ->
  Z.lor a (Z.lor b c) < 128 -> Z.land a 128 = 0 /\ Z.land b 128 = 0 /\ Z.land c 128 = 0.
Proof.
  intros Ha Hb Hc Hl.
  assert (0 <= Z.lor a (Z.lor b c)) by (rewrite !Z.lor_nonneg; lia).
  assert (Z.land (Z.lor a (Z.lor b c)) 128 = 0) as H0
    by (rewrite land_128 by lia; by rewrite (proj2 (Z.ltb_lt _ _))).
  rewrite !Z.land_lor_distr_l in H0. apply Z.lor_eq_0_iff in H0 as [? H0].
  by apply Z.lor_eq_0_iff in H0 as [? ?].
Qed.

Lemma GetVarint32Ptr_small b q : Z.land (bz b) 128 = 0 -> GetVarint32Ptr (b :: q) = Some (bz b, q).
Proof. intros E. cbn [GetVarint32Ptr]. by rewrite E. Qed.

Definition decode3 (window : bytes) : option (Z * Z * Z * bytes) :=
  '(shared, q) ← GetVarint32Ptr window;
  '(non_shared, q) ← GetVarint32Ptr q;
  '(value_length, q) ← GetVarint32Ptr q;
  Some (shared, non_shared, value_length, q).

(** The fast path reads what the varints would. *)
Lemma fast_path a b c rest :
  (if Z.lor (bz a) (Z.lor (bz b) (bz c)) <? 128 then Some (bz a, bz b, bz c, rest)
   else decode3 (a :: b :: c :: rest)) = decode3 (a :: b :: c :: rest).
Proof.
  destruct (Z.ltb_spec (Z.lor (bz a) (Z.lor (bz b) (bz c))) 128) as [Hl|]; [|done].
  apply lor3_small in Hl as (Ha & Hb & Hc); [|apply bz_range..].
  unfold decode3. by do 3 (rewrite GetVarint32Ptr_small by done; cbn [mbind option_bind]).
Qed.

Lemma decode3_encode a b c rest : 0 <= a < 2^32 -> 0 <= b < 2^32 -> 0 <= c < 2^32 ->
  decode3 (EncodeVarint32 a ++ EncodeVarint32 b ++ EncodeVarint32 c ++ rest) = Some (a, b, c, rest).
Proof.
  intros Ha Hb Hc. unfold decode3.
  by do 3 (rewrite GetVarint32Ptr_encode by done; cbn [mbind option_bind]).
Qed.

Lemma EncodeVarint32_cons v : 0 <= v < 2^32 -> exists b t, EncodeVarint32 v = b :: t.
Proof.
  intros Hv. pose proof (GetVarint32Ptr_encode v [] Hv) as E. rewrite app_nil_r in E.
  destruct (EncodeVarint32 v); [done|by eexists _, _].
Qed.

Section offsets.
Context (es : list stored).
Abbreviation D := (enc_all es).

Lemma split_at i e : es !! i = Some e ->
  D = enc_all (take i es) ++ enc e ++ enc_all (drop (S i) es).
Proof.
  intros E. rewrite <- (take_drop_middle _ _ _ E) at 1. rewrite enc_all_app. f_equal.
Qed.

Lemma off_S i e : es !! i = Some e -> off es (S i) = (off es i + length (enc e))%nat.
Proof.
  intros E. unfold off. rewrite (take_S_r _ _ _ E), enc_all_snoc, length_app. done.
Qed.

Lemma off_le i : (off es i <= length D)%nat.
Proof.
  unfold off. rewrite <- (take_drop i es) at 2. rewrite enc_all_app, length_app. lia.
Qed.

Lemma off_mono i j : (i <= j)%nat -> (off es i <= off es j)%nat.
Proof.
  intros Hij. unfold off. rewrite <- (take_drop i (take j es)), take_take, Nat.min_l by done.
  rewrite enc_all_app, length_app. lia.
Qed.

End offsets.

Section block.
Context (es : list stored) (rs : list nat) (HL : layout es rs).
Abbreviation D := (enc_all es).
Abbreviation contents := (render es rs).
Context (Hsize : Z.of_nat (length contents) < 2^32).

Lemma D_small : Z.of_nat (length D) < 2^32.
Proof. unfold render in Hsize. rewrite length_app in Hsize. lia. Qed.

Lemma enc_length e :
  (length (s_key e) - s_shared e + length (s_value e) <= length (enc e))%nat.
Proof. unfold enc. rewrite !length_app, length_drop. lia. Qed.

Lemma key_le_off i e : es !! i = Some e -> (length (s_key e) <= off es (S i))%nat.
Proof.
  revert e. induction i as [|i IH]; intros e E; rewrite (off_S es _ _ E); pose proof (enc_length e);
    destruct (lay_shared _ _ HL _ _ E) as (Hs & _); cbn in Hs; [lia|].
  destruct (es !! i) as [p|] eqn:Ep; cbn in Hs; [|lia].
  specialize (IH _ eq_refl). lia.
Qed.

(** The numbers of an entry fit their fields. *)
Lemma entry_small i e : es !! i = Some e ->
  Z.of_nat (s_shared e) < 2^32 /\ Z.of_nat (length (s_key e) - s_shared e) < 2^32
  /\ Z.of_nat (length (s_value e)) < 2^32.
Proof.
  intros E. pose proof (key_le_off _ _ E) as Hk. pose proof D_small. pose proof (off_le es (S i)).
  destruct (lay_shared _ _ HL _ _ E) as (_ & Hs & _). pose proof (off_S es _ _ E).
  pose proof (enc_length e). lia.
Qed.

Definition header (e : stored) : nat :=
  (length (enc e) - (length (s_key e) - s_shared e) - length (s_value e))%nat.

Lemma header_at i e : es !! i = Some e ->
  exists h, enc e = h ++ drop (s_shared e) (s_key e) ++ s_value e /\ length h = header e
  /\ (3 <= length h)%nat
  /\ forall rest, decode3 (h ++ rest) = Some (Z.of_nat (s_shared e),
       Z.of_nat (length (s_key e) - s_shared e), Z.of_nat (length (s_value e)), rest).
Proof.
  intros E. destruct (entry_small _ _ E) as (H1 & H2 & H3). unfold enc, header.
  exists (EncodeVarint32 (Z.of_nat (s_shared e)) ++ EncodeVarint32 (Z.of_nat (length (s_key e) - s_shared e))
    ++ EncodeVarint32 (Z.of_nat (length (s_value e)))).
  unfold enc. rewrite !u32_small by lia. split; [by rewrite <- !app_assoc|].
  split; [rewrite !length_app, length_drop; lia|].
  split.
  - destruct (EncodeVarint32_cons (Z.of_nat (s_shared e)) ltac:(lia)) as (? & ? & ->).
    destruct (EncodeVarint32_cons (Z.of_nat (length (s_key e) - s_shared e)) ltac:(lia)) as (? & ? & ->).
    destruct (EncodeVarint32_cons (Z.of_nat (length (s_value e))) ltac:(lia)) as (? & ? & ->).
    rewrite !length_app. cbn [length]. lia.
  - intros rest. rewrite <- !app_assoc. apply decode3_encode; lia.
Qed.

Lemma DecodeEntry_at i e : es !! i = Some e ->
  DecodeEntry contents (Z.of_nat (off es i)) (Z.of_nat (length D))
  = Some (Z.of_nat (s_shared e), Z.of_nat (length (s_key e) - s_shared e),
      Z.of_nat (length (s_value e)), Z.of_nat (off es i + header e)).
Proof.
  intros E. destruct (header_at _ _ E) as (h & Eh & Hh & H3 & Hd). pose proof (split_at es _ _ E) as ED.
  pose proof (off_S es _ _ E) as HS. pose proof (off_le es (S i)). pose proof D_small. pose proof (enc_length e).
  unfold DecodeEntry. rewrite decide_False by (rewrite Eh, length_app in HS; lia).
  assert (take (Z.to_nat (Z.of_nat (length D) - Z.of_nat (off es i))) (at_off contents (Z.of_nat (off es i)))
    = h ++ (drop (s_shared e) (s_key e) ++ s_value e ++ enc_all (drop (S i) es))) as ->.
  { unfold at_off, render. rewrite Nat2Z.id, ED, <- !app_assoc, drop_app_length' by done.
    replace (Z.to_nat _) with (length (enc e ++ enc_all (drop (S i) es))).
    - rewrite app_assoc, take_app_length, Eh. by rewrite <- !app_assoc.
    - rewrite !length_app. unfold off. lia. }
  destruct h as [|a [|b [|c h]]]; [cbn in H3; lia..|]. cbn [app] in Hd |- *.
  pose proof fast_path as HF. unfold decode3 in HF, Hd. rewrite HF, Hd. cbn [mbind option_bind].
  assert (Hlen : (length D = off es i + header e + length (drop (s_shared e) (s_key e) ++ s_value e ++ enc_all (drop (S i) es)))%nat).
  { rewrite ED at 1. rewrite Eh, <- Hh. rewrite !length_app. unfold off. lia. }
  replace (Z.of_nat (length D) - Z.of_nat (length (drop (s_shared e) (s_key e) ++ s_value e ++ enc_all (drop (S i) es))))
    with (Z.of_nat (off es i + header e)) by lia.
  rewrite decide_False; [done|]. rewrite !length_app, length_drop in Hlen. rewrite !u32_small; lia.
Qed.

Lemma read_key i e : es !! i = Some e ->
  read contents (Z.of_nat (off es i + header e)) (Z.of_nat (length (s_key e) - s_shared e))
  = Ret (drop (s_shared e) (s_key e)).
Proof.
  intros E. destruct (header_at _ _ E) as (h & Eh & Hh & _). pose proof (split_at es _ _ E) as ED.
  unfold read, at_off, render. rewrite ED, Eh, <- !app_assoc.
  rewrite decide_True by (rewrite !length_app, length_drop; unfold off; lia).
  rewrite Nat2Z.id, (app_assoc _ h), drop_app_length' by (rewrite length_app; unfold off; lia).
  by rewrite take_app_length' by (rewrite length_drop; lia).
Qed.

Lemma read_value i e : es !! i = Some e ->
  read contents (Z.of_nat (off es (S i)) - Z.of_nat (length (s_value e))) (Z.of_nat (length (s_value e)))
  = Ret (s_value e).
Proof.
  intros E. destruct (header_at _ _ E) as (h & Eh & Hh & _). pose proof (split_at es _ _ E) as ED.
  pose proof (off_S es _ _ E) as HS. pose proof (off_le es (S i)).
  unfold read, at_off, render. rewrite ED, Eh, <- !app_assoc. rewrite HS, Eh, !length_app.
  rewrite decide_True by (unfold off; lia).
  rewrite (app_assoc _ h), (app_assoc _ (drop _ _)), drop_app_length' by (rewrite !length_app; unfold off; lia).
  by rewrite take_app_length' by lia.
Qed.

Lemma restart_at j r : rs !! j = Some r ->
  DecodeFixed32 (at_off contents (Z.of_nat (length D) + Z.of_nat j * 4)) = Ret (Z.of_nat (off es r)).
Proof.
  intros E. pose proof (off_le es r). pose proof D_small. unfold at_off, render.
  replace (Z.to_nat _) with (length D + 4 * j)%nat by lia.
  rewrite drop_app_ge by lia. replace (length D + 4 * j - length D)%nat with (4 * j)%nat by lia.
  unfold restart_words. rewrite <- (take_drop_middle _ _ _ E), map_app, concat_app, <- app_assoc.
  rewrite drop_app_length'.
  2:{ rewrite (length_concat_uniform 4), length_map, length_take;
        [apply lookup_lt_Some in E; lia|]. apply Forall_forall. by intros x [y [<- _]]%in_map_iff. }
  cbn [map concat]. rewrite <- app_assoc, u32_small by lia. apply DecodeFixed32_Encode. lia.
Qed.

Lemma length_contents : length contents = (length D + 4 * length rs + 4)%nat.
Proof.
  unfold render, restart_words. rewrite !length_app, length_EncodeFixed32.
  rewrite (length_concat_uniform 4), length_map; [lia|].
  apply Forall_forall. by intros x [y [<- _]]%in_map_iff.
Qed.

Lemma num_at : NumRestarts contents (Z.of_nat (length contents)) = Ret (Z.of_nat (length rs)).
Proof.
  pose proof length_contents as Hl. unfold NumRestarts, at_off. rewrite Hl at 1.
  unfold render. rewrite app_assoc. rewrite drop_app_length'.
  - rewrite u32_small by lia. rewrite <- (app_nil_r (EncodeFixed32 _)). apply DecodeFixed32_Encode. lia.
  - rewrite length_app. unfold restart_words.
    rewrite (length_concat_uniform 4), length_map; [lia|].
    apply Forall_forall. by intros x [y [<- _]]%in_map_iff.
Qed.

Lemma rs_pos : (0 < length rs)%nat.
Proof. pose proof (lay_first _ _ HL) as E. by apply lookup_lt_Some in E. Qed.

(** The constructor and [NewIterator] accept the block. *)
Lemma new_Block_render : exists b, new_Block contents = Ret b
  /\ NewIterator b = Ret (inr (new_Iter contents (Z.of_nat (length D)) (Z.of_nat (length rs)))).
Proof.
  pose proof length_contents as Hl. pose proof rs_pos. unfold new_Block.
  rewrite decide_False by lia. rewrite num_at. cbn [mbind res_bind].
  rewrite decide_False by (rewrite Hl; Z.to_euclidean_division_equations; lia).
  eexists. split; [done|]. unfold NewIterator. cbn [size_ data_ restart_offset_].
  rewrite decide_False, num_at by lia. cbn [mbind res_bind]. rewrite decide_False by lia.
  do 3 f_equal. rewrite (u32_small (1 + _)), u32_small by lia. lia.
Qed.
End block.

(** ** The iterator over a block of the builder's shape *)

Section iter.
Context (compare_ : bytes -> bytes -> res Z) (cmp : bytes -> bytes -> comparison) (valid : bytes -> Prop).
Context `{!CmpOrder cmp} `{!Compares compare_ cmp valid}.
Context (es : list stored) (rs : list nat) (HL : layout es rs).
Abbreviation D := (enc_all es).
Abbreviation contents := (render es rs).
Context (Hsize : Z.of_nat (length contents) < 2^32).
Context (Hvalid : Forall (fun e => valid (s_key e)) es).
Context (Hsorted : StronglySorted (cmp_lt cmp) (map s_key es)).

Definition of_block (it : Iter) : Prop :=
  contents_ it = contents /\ restarts_ it = Z.of_nat (length D)
  /\ num_restarts_ it = Z.of_nat (length rs) /\ status_ it = Status.OK.

(** Before [ParseNextKey] of entry [i]. *)
Definition ready (it : Iter) (i : nat) : Prop :=
  of_block it /\ 0 <= restart_index_ it < Z.of_nat (length rs)
  /\ (exists o n, value_ it = Some (o, n) /\ o + n = Z.of_nat (off es i))
  /\ (i <= length es)%nat
  /\ forall e, es !! i = Some e ->
       (s_shared e <= length (key_ it))%nat /\ take (s_shared e) (key_ it) = take (s_shared e) (s_key e).

Definition at_entry (it : Iter) (i : nat) : Prop :=
  of_block it /\ 0 <= restart_index_ it < Z.of_nat (length rs)
  /\ current_ it = Z.of_nat (off es i)
  /\ exists e, es !! i = Some e /\ key_ it = s_key e
       /\ value_ it = Some (Z.of_nat (off es (S i)) - Z.of_nat (length (s_value e)), Z.of_nat (length (s_value e))).

Definition block_rep (it : Iter) (o : option nat) : Prop :=
  match o with
  | Some i => at_entry it i
  | None => of_block it /\ current_ it = Z.of_nat (length D)
  end.

Lemma at_entry_ready it i : at_entry it i -> ready it (S i).
Proof.
  intros (Hb & Hri & _ & e & E & Hk & Hv). split; [done|]. split; [done|]. split.
  { eexists _, _. split; [done|lia]. }
  split; [by apply lookup_lt_Some in E|]. intros e' E'. destruct (lay_shared _ _ HL _ _ E') as (H1 & _ & H2).
  cbn in H1, H2. rewrite E in H1, H2. by rewrite Hk.
Qed.

Lemma ready_next it i : ready it i -> NextEntryOffset it = Ret (Z.of_nat (off es i)).
Proof.
  intros (_ & _ & (o & n & Hv & E) & _). pose proof (off_le es i). pose proof (D_small es rs Hsize).
  unfold NextEntryOffset. rewrite Hv, E, u32_small by lia. done.
Qed.

Lemma GetRestartPoint_spec it j r : of_block it -> 0 <= j -> rs !! Z.to_nat j = Some r ->
  GetRestartPoint it j = Ret (Z.of_nat (off es r)).
Proof.
  intros (Hc & Hr & _) Hj E. unfold GetRestartPoint. rewrite Hc, Hr, <- (Z2Nat.id j) by done. by apply restart_at.
Qed.

Lemma restart_lookup j : 0 <= j < Z.of_nat (length rs) -> exists r, rs !! Z.to_nat j = Some r /\ (r <= length es)%nat
  /\ forall e, es !! r = Some e -> s_shared e = 0%nat.
Proof.
  intros Hj. destruct (lookup_lt_is_Some_2 rs (Z.to_nat j) ltac:(lia)) as [r Hr]. exists r. split; [done|].
  split; [destruct (lay_restart _ _ HL _ _ Hr); lia|]. intros e He. by eapply (lay_whole _ _ HL).
Qed.

Lemma SeekToRestartPoint_spec it j : of_block it -> 0 <= j < Z.of_nat (length rs) ->
  exists r it', rs !! Z.to_nat j = Some r /\ SeekToRestartPoint it j = Ret it' /\ ready it' r.
Proof.
  intros Hb Hj. destruct (restart_lookup j Hj) as (r & Hr & Hle & H0). exists r.
  unfold SeekToRestartPoint. rewrite (GetRestartPoint_spec it j r Hb ltac:(lia) Hr).
  cbn [mbind res_bind]. eexists. split; [done|]. split; [done|]. destruct Hb as (H1 & H2 & H3 & H4).
  split; [by split; [|split; [|split]]|]. cbn. split; [done|]. split; [by eexists _, _; split; [|apply Z.add_0_r]|].
  split; [done|]. intros e He. by rewrite (H0 e He).
Qed.

Lemma restart_loop_spec fuel it current i : of_block it -> 0 <= i < Z.of_nat (length rs) ->
  (Z.to_nat (Z.of_nat (length rs) - i) < fuel)%nat ->
  exists i', restart_loop fuel it current i = Ret i' /\ 0 <= i' < Z.of_nat (length rs).
Proof.
  intros Hb. pose proof Hb as (_ & _ & Hn & _). pose proof (length_contents es rs) as Hl.
  revert i. induction fuel as [|fuel IH]; intros i Hi Hf; [lia|]. cbn [restart_loop].
  rewrite u32_small, Hn by lia. case_decide as Hlt; [|by exists i].
  destruct (restart_lookup (i + 1) ltac:(lia)) as (r & Hr & _).
  rewrite (GetRestartPoint_spec _ (i + 1) r Hb ltac:(lia) Hr). cbn [mbind res_bind].
  case_decide; [|by exists i]. apply IH; lia.
Qed.

Lemma ParseNextKey_some it i e : ready it i -> es !! i = Some e ->
  exists it', ParseNextKey it = Ret (it', true) /\ at_entry it' i.
Proof.
  intros Hr E. pose proof Hr as (Hb & Hri & _ & _ & Hk). pose proof Hb as (Hc & HR & Hn & Hs).
  destruct (Hk e E) as (Hk1 & Hk2). unfold ParseNextKey. rewrite (ready_next _ _ Hr). cbn [mbind res_bind].
  pose proof (off_S es _ _ E) as HS. pose proof (off_le es (S i)).
  destruct (header_at es rs HL Hsize _ _ E) as (h & Eh & Hh & H3 & _).
  assert (length (enc e) = header e + (length (s_key e) - s_shared e) + length (s_value e))%nat as He
    by (rewrite Eh, !length_app, length_drop; lia).
  rewrite HR, decide_False by lia. rewrite Hc, (DecodeEntry_at es rs HL Hsize _ _ E).
  rewrite decide_False by lia. rewrite (read_key es rs HL Hsize _ _ E). cbn [mbind res_bind].
  destruct (restart_loop_spec (S (Z.to_nat (num_restarts_ it))) it (Z.of_nat (off es i)) (restart_index_ it)) as (j & -> & Hj);
    [done|done|lia|]. cbn [mbind res_bind]. eexists. split; [done|].
  split; [by split; [|split; [|split]]|]. split; [done|]. split; [done|]. exists e. split; [done|]. cbn [key_ value_]. split.
  - rewrite Nat2Z.id, string_resize_le by done. by rewrite Hk2, take_drop.
  - do 2 f_equal. lia.
Qed.

Lemma ParseNextKey_none it : ready it (length es) ->
  exists it', ParseNextKey it = Ret (it', false) /\ block_rep it' None.
Proof.
  intros Hr. pose proof Hr as ((Hc & HR & Hn & Hs) & _). unfold ParseNextKey. rewrite (ready_next _ _ Hr).
  cbn [mbind res_bind]. rewrite off_length, HR, decide_True by lia. eexists. split; [done|].
  split; [|done]. by split; [|split; [|split]].
Qed.

(** Either way, at the position of entry [i]. *)
Lemma ParseNextKey_spec it i : ready it i ->
  exists it', ParseNextKey it = Ret (it', bool_decide (i < length es)%nat)
    /\ block_rep it' (if decide (i < length es)%nat then Some i else None).
Proof.
  intros Hr. case_decide as Hi.
  - destruct (lookup_lt_is_Some_2 es i Hi) as [e E]. rewrite bool_decide_true by done. by eapply ParseNextKey_some.
  - rewrite bool_decide_false by done. pose proof Hr as (_ & _ & _ & Hle & _).
    assert (i = length es) as -> by lia. by apply ParseNextKey_none.
Qed.

Lemma entries_short : (length es <= length D)%nat.
Proof.
  rewrite <- off_length. assert (forall n, (n <= length es)%nat -> (n <= off es n)%nat) as H; [|by apply H].
  induction n as [|n IH]; intros Hn; [lia|]. destruct (lookup_lt_is_Some_2 es n ltac:(lia)) as [e E].
  rewrite (off_S es _ _ E). destruct (header_at es rs HL Hsize _ _ E) as (h & -> & _ & H3 & _).
  rewrite length_app. specialize (IH ltac:(lia)). lia.
Qed.

(** [skip_loop] stops at the last entry before the offset of entry [n]. *)
Lemma skip_loop_spec fuel it i n : ready it i -> (i < n)%nat -> (n <= length es)%nat -> (n - i <= fuel)%nat ->
  exists it', skip_loop fuel it (Z.of_nat (off es n)) = Ret it' /\ block_rep it' (Some (n - 1)%nat).
Proof.
  revert it i. induction fuel as [|fuel IH]; intros it i Hr Hi Hn Hf; [lia|]. cbn [skip_loop].
  destruct (lookup_lt_is_Some_2 es i ltac:(lia)) as [e E].
  destruct (ParseNextKey_some _ _ _ Hr E) as (it1 & -> & Hat). cbn [mbind res_bind].
  pose proof (at_entry_ready _ _ Hat) as Hr1. rewrite (ready_next _ _ Hr1). cbn [mbind res_bind].
  destruct (decide (S i = n)) as [<-|].
  - rewrite decide_False by lia. exists it1. split; [done|]. cbn. by rewrite Nat.sub_0_r.
  - destruct (lookup_lt_is_Some_2 es (S i) ltac:(lia)) as [e' E'].
    destruct (header_at es rs HL Hsize _ _ E') as (h & Eh & _ & H3 & _).
    pose proof (off_S es _ _ E') as HS. rewrite Eh, length_app in HS.
    pose proof (off_mono es (S (S i)) n ltac:(lia)).
    rewrite decide_True by lia. apply (IH it1 (S i)); [done|lia..].
Qed.

Lemma bi_SeekToFirst_spec it : of_block it -> exists it', bi_SeekToFirst it = Ret it'
  /\ block_rep it' (if decide (0 < length es)%nat then Some 0%nat else None).
Proof.
  intros Hb. pose proof (rs_pos es rs HL). unfold bi_SeekToFirst.
  destruct (SeekToRestartPoint_spec it 0 Hb ltac:(lia)) as (r & it1 & Hr & -> & Hrd). cbn [mbind res_bind].
  change (Z.to_nat 0) with 0%nat in Hr. rewrite (lay_first _ _ HL) in Hr. injection Hr as <-.
  destruct (ParseNextKey_spec _ _ Hrd) as (it2 & -> & Hrep). cbn [mbind res_bind]. by exists it2.
Qed.

Lemma bi_SeekToLast_spec it : of_block it -> exists it', bi_SeekToLast it = Ret it'
  /\ block_rep it' (if decide (length es - 1 < length es)%nat then Some (length es - 1)%nat else None).
Proof.
  intros Hb. pose proof (rs_pos es rs HL). pose proof (length_contents es rs). pose proof Hb as (_ & _ & Hn & _).
  unfold bi_SeekToLast. rewrite Hn, u32_small by lia.
  destruct (SeekToRestartPoint_spec it (Z.of_nat (length rs) - 1) Hb ltac:(lia)) as (r & it1 & Hr & -> & Hrd).
  cbn [mbind res_bind]. pose proof Hrd as ((_ & HR & _) & _). unfold scan_fuel. rewrite HR.
  destruct (lay_restart _ _ HL _ _ Hr) as [->|Hlt].
  - destruct (decide (length es = 0%nat)) as [He|He].
    + rewrite decide_False by lia. cbn [skip_loop]. destruct (ParseNextKey_spec _ _ Hrd) as (it2 & -> & Hrep).
      rewrite decide_False in Hrep by lia. rewrite bool_decide_false by lia. cbn [mbind res_bind]. by exists it2.
    + rewrite decide_True by lia. replace (Z.of_nat (length D)) with (Z.of_nat (off es (length es))) by by rewrite off_length.
      apply (skip_loop_spec _ _ 0); [done|lia|lia|]. pose proof entries_short. rewrite off_length. lia.
  - rewrite decide_True by lia. replace (Z.of_nat (length D)) with (Z.of_nat (off es (length es))) by by rewrite off_length.
    apply (skip_loop_spec _ _ r); [done|lia|lia|]. pose proof entries_short. rewrite off_length. lia.
Qed.

Lemma back_loop_spec fuel it i j : of_block it -> (i < length es)%nat -> 0 <= j < Z.of_nat (length rs) ->
  (Z.to_nat j < fuel)%nat ->
  exists o, back_loop fuel it (Z.of_nat (off es i)) j = Ret o
    /\ match o with
       | None => i = 0%nat
       | Some j' => 0 <= j' < Z.of_nat (length rs) /\ exists r, rs !! Z.to_nat j' = Some r /\ (r < i)%nat
       end.
Proof.
  intros Hb Hi. revert j. induction fuel as [|fuel IH]; intros j Hj Hf; [lia|]. cbn [back_loop].
  destruct (restart_lookup j Hj) as (r & Hr & _). rewrite (GetRestartPoint_spec _ j r Hb ltac:(lia) Hr). cbn [mbind res_bind].
  case_decide as Hge.
  - case_decide as Hj0; [|apply IH; lia]. exists None. split; [done|]. subst j.
    change (Z.to_nat 0) with 0%nat in Hr. rewrite (lay_first _ _ HL) in Hr. injection Hr as <-.
    destruct i as [|i]; [done|]. destruct (lookup_lt_is_Some_2 es 0 ltac:(lia)) as [e E].
    pose proof (off_S es _ _ E) as HS. destruct (header_at es rs HL Hsize _ _ E) as (h & Eh & _ & H3 & _).
    rewrite Eh, length_app in HS. pose proof (off_mono es 1 (S i) ltac:(lia)). lia.
  - exists (Some j). split; [done|]. split; [done|]. exists r. split; [done|].
    destruct (decide (r < i)%nat); [done|]. pose proof (off_mono es i r ltac:(lia)). lia.
Qed.

Lemma bi_Prev_spec it i : at_entry it i -> exists it', bi_Prev it = Ret it' /\ block_rep it' (index_before i).
Proof.
  intros Hat. pose proof Hat as (Hb & Hri & Hcur & e & E & _). unfold bi_Prev. rewrite Hcur.
  pose proof (lookup_lt_Some _ _ _ E) as Hi.
  destruct (back_loop_spec (S (Z.to_nat (restart_index_ it))) it i (restart_index_ it)) as (o & -> & Ho); [done..|lia|].
  cbn [mbind res_bind]. destruct o as [j|].
  - destruct Ho as (Hj & r & Hr & Hlt).
    destruct (SeekToRestartPoint_spec it j Hb Hj) as (r' & it1 & Hr' & -> & Hrd). cbn [mbind res_bind].
    rewrite Hr in Hr'. injection Hr' as <-. pose proof Hrd as ((_ & HR & _) & _).
    unfold scan_fuel. rewrite HR. pose proof entries_short.
    destruct (skip_loop_spec (S (Z.to_nat (Z.of_nat (length D)))) it1 r i Hrd) as (it' & -> & Hrep); [lia..|].
    exists it'. split; [done|]. destruct i; [lia|]. cbn in Hrep. by rewrite Nat.sub_0_r in Hrep.
  - subst i. eexists. split; [done|]. destruct Hb as (H1 & H2 & H3 & H4). split; [|done].
    by split; [|split; [|split]].
Qed.
Abbreviation kvs := (map kv es).

Lemma kvs_at i e : es !! i = Some e -> kvs !! i = Some (kv e).
Proof. intros E. by rewrite list_lookup_fmap, E. Qed.

Lemma key_valid i e : es !! i = Some e -> valid (s_key e).
Proof. intros E. by apply (Forall_lookup_1 _ _ _ _ Hvalid E). Qed.

Lemma lower_bound_lt t i e : valid t -> es !! i = Some e ->
  cmp_lt cmp (s_key e) t <-> (i < lower_bound cmp t kvs)%nat.
Proof.
  intros Ht E. split.
  - intros Hlt. destruct (decide (i < lower_bound cmp t kvs)%nat) as [|Hge]; [done|].
    pose proof (lookup_lt_Some _ _ _ E) as Hi.
    destruct (lookup_lt_is_Some_2 es (lower_bound cmp t kvs) ltac:(lia)) as [e' E'].
    destruct (lower_bound_at cmp t kvs _ (kvs_at _ _ E')). cbn. fold (cmp_lt cmp (s_key e') t).
    destruct (decide (lower_bound cmp t kvs = i)) as [<-|]; [by simplify_eq|].
    apply (cmp_trans _ (s_key e) _ Lt); [|exact Hlt].
    apply (StronglySorted_at (cmp_lt cmp) (map s_key es) (lower_bound cmp t kvs) i); [done|lia| |].
    + by rewrite list_lookup_fmap, E'.
    + by rewrite list_lookup_fmap, E.
  - intros Hlt. exact (lower_bound_before cmp t kvs i _ Hlt (kvs_at _ _ E)).
Qed.

Lemma compare_lt_bound t i e : valid t -> es !! i = Some e ->
  exists z, compare_ (s_key e) t = Ret z /\ (z < 0 <-> (i < lower_bound cmp t kvs)%nat).
Proof.
  intros Ht E. destruct (compares (s_key e) t (key_valid _ _ E) Ht) as (z & Ez & Hz). exists z. split; [done|].
  rewrite <- (lower_bound_lt t i e Ht E). unfold cmp_lt. by rewrite <- Hz, Z.compare_lt_iff.
Qed.

(** The restart point found is not past the first entry at or past the target. *)
Lemma search_loop_spec fuel it t l r : of_block it -> valid t ->
  0 <= l <= r -> r < Z.of_nat (length rs) -> (Z.to_nat (r - l) < fuel)%nat ->
  (exists x, rs !! Z.to_nat l = Some x /\ (x <= lower_bound cmp t kvs)%nat) ->
  exists l', search_loop compare_ fuel it t l r = Ret (Some l') /\ 0 <= l' < Z.of_nat (length rs)
    /\ exists x, rs !! Z.to_nat l' = Some x /\ (x <= lower_bound cmp t kvs)%nat.
Proof.
  intros Hb Ht. pose proof Hb as (Hc & HR & _). pose proof (length_contents es rs).
  revert l r. induction fuel as [|fuel IH]; intros l r Hl Hr Hf Hx; [lia|]. cbn [search_loop].
  case_decide as Hlt; [|exists l; split; [done|split; [lia|done]]].
  rewrite (u32_small (l + r + 1)), u32_small by (Z.to_euclidean_division_equations; lia).
  set (mid := (l + r + 1) / 2). assert (l < mid <= r) by (unfold mid; Z.to_euclidean_division_equations; lia).
  destruct (restart_lookup mid ltac:(lia)) as (x & Ex & _ & Hw).
  rewrite (GetRestartPoint_spec it mid x Hb ltac:(lia) Ex). cbn [mbind res_bind].
  destruct (es !! x) as [e|] eqn:E.
  - rewrite Hc, HR, (DecodeEntry_at es rs HL Hsize _ _ E), (read_key es rs HL Hsize _ _ E).
    rewrite (Hw e eq_refl). rewrite decide_False by lia. cbn [mbind res_bind]. rewrite drop_0.
    destruct (compare_lt_bound t x e Ht E) as (z & -> & Hz). cbn [mbind res_bind].
    case_decide as Hneg; [apply IH; [lia..|]|apply IH; [lia..|done]].
    exists x. split; [done|]. apply Hz in Hneg. lia.
  - exfalso. apply lookup_ge_None_1 in E. destruct (lay_restart _ _ HL _ _ Ex) as [->|]; [|lia].
    pose proof (lay_one _ _ HL) as H1. destruct es; [|cbn in *; lia]. rewrite H1 in * by done. lia.
Qed.

Lemma linear_loop_spec fuel it t i : ready it i -> valid t -> (i <= lower_bound cmp t kvs)%nat ->
  (length es - i < fuel)%nat ->
  exists it', linear_loop compare_ fuel it t = Ret it' /\ block_rep it' (index kvs (lower_bound cmp t kvs)).
Proof.
  intros Hr Ht. revert it i Hr. induction fuel as [|fuel IH]; intros it i Hr Hi Hf; [lia|]. cbn [linear_loop].
  pose proof (lower_bound_le cmp t kvs) as Hle. rewrite length_map in Hle.
  destruct (decide (i < length es)%nat) as [Hlt|Hge].
  - destruct (lookup_lt_is_Some_2 es i Hlt) as [e E].
    destruct (ParseNextKey_some _ _ _ Hr E) as (it1 & -> & Hat). cbn [mbind res_bind].
    pose proof Hat as (_ & _ & _ & e' & E' & Hk & _). rewrite E in E'. injection E' as <-. rewrite Hk.
    destruct (compare_lt_bound t i e Ht E) as (z & -> & Hz). cbn [mbind res_bind]. case_decide as Hneg.
    + exists it1. split; [done|]. assert (lower_bound cmp t kvs = i) as -> by lia.
      by rewrite index_some by (by rewrite length_map).
    + apply (IH it1 (S i)); [by apply at_entry_ready|lia|lia].
  - assert (i = length es) as -> by (destruct Hr as (_ & _ & _ & ? & _); lia).
    destruct (ParseNextKey_none _ Hr) as (it1 & -> & Hrep). cbn [mbind res_bind]. exists it1. split; [done|].
    by rewrite index_none by (rewrite length_map; lia).
Qed.

Lemma bi_Seek_spec it t : of_block it -> valid t ->
  exists it', bi_Seek compare_ it t = Ret it' /\ block_rep it' (index kvs (lower_bound cmp t kvs)).
Proof.
  intros Hb Ht. pose proof (rs_pos es rs HL). pose proof (length_contents es rs). pose proof Hb as (_ & _ & Hn & _).
  unfold bi_Seek. rewrite Hn, u32_small by lia.
  destruct (search_loop_spec (S (Z.to_nat (Z.of_nat (length rs)))) it t 0 (Z.of_nat (length rs) - 1))
    as (l & -> & Hl & x & Ex & Hx); [done|done|lia|lia|lia| |].
  { exists 0%nat. split; [apply HL|lia]. }
  cbn [mbind res_bind]. destruct (SeekToRestartPoint_spec it l Hb Hl) as (r & it1 & Hr & -> & Hrd).
  cbn [mbind res_bind]. rewrite Ex in Hr. injection Hr as <-. pose proof Hrd as ((_ & HR & _) & _).
  unfold scan_fuel. rewrite HR. pose proof entries_short. apply (linear_loop_spec _ _ _ x); [done|done|done|lia].
Qed.

Lemma block_rep_of it o : block_rep it o -> of_block it.
Proof. destruct o; [by intros (H & _)|by intros [H _]]. Qed.

Lemma block_rep_index it i : block_rep it (if decide (i < length es)%nat then Some i else None) ->
  block_rep it (index kvs i).
Proof. unfold index. rewrite length_map. done. Qed.

#[export] Instance block_spec : @IteratorSpec Iter (Iter_iterator compare_) valid cmp kvs block_rep.
Proof.
  split.
  - intros it o Hr. cbn. unfold bi_Valid. destruct o as [i|].
    + pose proof Hr as (_ & _ & Hc & e & E & _).
      pose proof Hr as ((_ & HR & _) & _). rewrite Hc, HR, bool_decide_true by done. apply Z.ltb_lt.
      pose proof (off_S es _ _ E) as HS. pose proof (off_le es (S i)).
      destruct (header_at es rs HL Hsize _ _ E) as (h & Eh & _ & H3 & _). rewrite Eh, length_app in HS. lia.
    + destruct Hr as ((_ & HR & _) & Hc). rewrite Hc, HR, bool_decide_false by (by intros [? ?]).
      apply Z.ltb_irrefl.
  - intros it i (Hb & _ & _ & e & E & Hk & Hv). exists (s_key e), (s_value e). split; [by apply kvs_at in E|].
    cbn. unfold bi_key, bi_value. rewrite Hk, Hv. split; [done|]. destruct Hb as (-> & _).
    by apply (read_value es rs HL Hsize).
  - intros it o Hr. destruct (bi_SeekToFirst_spec it (block_rep_of _ _ Hr)) as (it' & E & Hr').
    exists it'. split; [done|]. by apply block_rep_index.
  - intros it o Hr. destruct (bi_SeekToLast_spec it (block_rep_of _ _ Hr)) as (it' & E & Hr').
    exists it'. split; [done|]. rewrite length_map. by apply block_rep_index.
  - intros it o t Hr Ht. apply bi_Seek_spec; [by eapply block_rep_of|done].
  - intros it i Hr. cbn. unfold bi_Next. destruct (ParseNextKey_spec _ _ (at_entry_ready _ _ Hr)) as (it' & -> & Hr').
    cbn [mbind res_bind]. exists it'. split; [done|]. by apply block_rep_index.
  - intros it i Hr. by apply bi_Prev_spec.
  - intros it o Hr. by destruct (block_rep_of _ _ Hr) as (_ & _ & _ & ?).
Qed.

Lemma new_Iter_rep : block_rep (new_Iter contents (Z.of_nat (length D)) (Z.of_nat (length rs))) None.
Proof. done. Qed.
End iter.

(** ** A block that was built *)

Section built.
Context {compare_ : bytes -> bytes -> res Z} {cmp : bytes -> bytes -> comparison} {valid : bytes -> Prop}.
Context `{!CmpOrder cmp} `{!Compares compare_ cmp valid}.

Lemma new_Block_data contents b : new_Block contents = Ret b -> data_ b = contents.
Proof.
  unfold new_Block. case_decide; [by intros [= <-]|].
  destruct (NumRestarts _ _) as [num| | |]; [|done..]. cbn [mbind res_bind]. case_decide; by intros [= <-].
Qed.

(** Entries a block can hold: keys the comparator accepts, in order. *)
Definition sorted_entries (kvs : entries) : Prop :=
  Forall (fun e => valid (fst e)) kvs /\ StronglySorted (cmp_lt cmp) (map fst kvs).

(** An open block: an iterator over it meets the specification of iterators. *)
Definition opens (contents : bytes) (kvs : entries) : Prop :=
  exists b it rep, new_Block contents = Ret b /\ NewIterator b = Ret (inr it)
    /\ @IteratorSpec Iter (Iter_iterator compare_) valid cmp kvs rep /\ rep it None
    /\ (length kvs <= length contents)%nat.

Lemma render_opens es rs : layout es rs -> sorted_entries (map kv es) ->
  Z.of_nat (length (render es rs)) < 2^32 -> opens (render es rs) (map kv es).
Proof.
  intros HL [Hv Hs] Hl. destruct (new_Block_render es rs HL Hl) as (b & Hb & Hi).
  eexists b, _, (block_rep es rs). split; [done|]. split; [done|]. split.
  - rewrite map_map in Hs. rewrite Forall_map in Hv. by apply block_spec.
  - split; [by apply new_Iter_rep|]. rewrite length_map. pose proof (entries_short es rs HL Hl).
    unfold render. rewrite length_app. lia.
Qed.

Lemma built_block_opens R kvs : 1 <= R -> sorted_entries kvs ->
  let contents := snd (Finish (add_entries R new_BlockBuilder kvs)) in
  Z.of_nat (length contents) < 2^32 -> opens contents kvs.
Proof.
  cbv zeta. intros HR Hs. destruct (build_block R HR kvs) as (es & rs & HL & <- & ->). by apply render_opens.
Qed.

(** C22: the iterator over a block that was built of sorted entries is a cursor
    over those entries, in both directions, and [Seek] stops at the first at or
    past its target; whatever the restart interval. *)
Theorem block_iterates R kvs : 1 <= R -> sorted_entries kvs ->
  let contents := snd (Finish (add_entries R new_BlockBuilder kvs)) in
  Z.of_nat (length contents) < 2^32 ->
  exists b it rep, new_Block contents = Ret b /\ NewIterator b = Ret (inr it)
    /\ @IteratorSpec Iter (Iter_iterator compare_) valid cmp kvs rep /\ rep it None
    /\ (it' ← bi_SeekToFirst it; walk (H:=Iter_iterator compare_) (S (length kvs)) it') = Ret kvs
    /\ (it' ← bi_SeekToLast it; walk_back (H:=Iter_iterator compare_) (S (length kvs)) it') = Ret (reverse kvs)
    /\ forall t, valid t -> (it' ← bi_Seek compare_ it t; walk (H:=Iter_iterator compare_) (S (length kvs)) it')
         = Ret (drop (lower_bound cmp t kvs) kvs).
Proof.
  cbv zeta. intros HR Hs Hl. destruct (built_block_opens R kvs HR Hs Hl) as (b & it & rep & Hb & Hi & HS & Hr & _).
  exists b, it, rep. do 4 (split; [done|]).
  pose (ops := Iter_iterator compare_). fold ops in HS |- *.
  destruct (scan_forward it None Hr) as (it1 & E1 & W1). change (bi_SeekToFirst it = Ret it1) in E1.
  destruct (scan_backward it None Hr) as (it2 & E2 & W2). change (bi_SeekToLast it = Ret it2) in E2.
  rewrite E1, E2. split; [done|]. split; [done|]. intros t Ht.
  destruct (scan_from it None t Hr Ht) as (it3 & E3 & W3). change (bi_Seek compare_ it t = Ret it3) in E3.
  by rewrite E3.
Qed.
End built.

(** ** With a user comparator *)

(** Two keys with a common prefix, and a restart point at every other entry. *)
Definition sample_entries : entries :=
  [(lit "apple", lit "1"); (lit "apply", lit "2"); (lit "banana", lit "3")].

Lemma sample_sorted : @sorted_entries ucmp (fun _ => True) sample_entries.
Proof.
  split; [repeat constructor|]. unfold sample_entries. cbn [map fst].
  constructor; [constructor; [constructor; [constructor|constructor]|]|].
  - constructor; [reflexivity|constructor].
  - constructor; [reflexivity|constructor; [reflexivity|constructor]].
Qed.

Lemma block_iterates_witness : exists b it,
  new_Block (snd (Finish (add_entries 2 new_BlockBuilder sample_entries))) = Ret b
  /\ NewIterator b = Ret (inr it)
  /\ (it' ← bi_Seek user_Compare it (lit "applz"); walk (H:=Iter_iterator user_Compare) 4 it')
     = Ret [(lit "banana", lit "3")].
Proof.
  destruct (block_iterates (compare_ := user_Compare) (cmp := ucmp) (valid := fun _ => True) 2 sample_entries)
    as (b & it & rep & Hb & Hi & _ & _ & _ & _ & H); [lia|exact sample_sorted|vm_compute; reflexivity|].
  exists b, it. split; [exact Hb|]. split; [exact Hi|]. exact (H (lit "applz") I).
Defined.

(** ** Arbitrary contents *)

(** The check of an entry adds two 32-bit lengths that can wrap: an entry whose
    value is said to have 2^32 - 1 bytes passes, and the valid iterator refers
    to memory outside the block. *)
Definition wrapping_block : bytes :=
  [zb 0; zb 1; zb 255; zb 255; zb 255; zb 255; zb 15; zb 107] ++ EncodeFixed32 0 ++ EncodeFixed32 1.

Lemma wrapping_block_overruns : exists b it it',
  new_Block wrapping_block = Ret b /\ NewIterator b = Ret (inr it) /\ bi_SeekToFirst it = Ret it'
  /\ bi_Valid it' = true /\ status_ it' = Status.OK /\ bi_value it' = Undef.
Proof.
  eexists _, _, _. split; [vm_compute; reflexivity|]. split; [vm_compute; reflexivity|].
  split; [vm_compute; reflexivity|]. by repeat split; vm_compute.
Qed.

(** The calls a client can make, in any order. *)
Inductive call := CSeekToFirst | CSeekToLast | CSeek (target : bytes) | CNext | CPrev.

Section arbitrary.
Context (compare_ : bytes -> bytes -> res Z).
Context (Hcompare : forall a b, finishes (fun _ => True) (compare_ a b)).

Definition run_call (it : Iter) (c : call) : res Iter :=
  match c with
  | CSeekToFirst => bi_SeekToFirst it
  | CSeekToLast => bi_SeekToLast it
  | CSeek t => bi_Seek compare_ it t
  | CNext => bi_Next it
  | CPrev => bi_Prev it
  end.
Fixpoint run_calls (it : Iter) (cs : list call) : res Iter :=
  match cs with [] => Ret it | c :: cs => it ← run_call it c; run_calls it cs end.

Record sane (it : Iter) : Prop := {
  sane_restarts : 0 <= restarts_ it < 2^32;
  sane_num : 0 < num_restarts_ it < 2^30;
  sane_index : 0 <= restart_index_ it <= num_restarts_ it;
  sane_value o n : value_ it = Some (o, n) -> 0 <= o /\ 0 <= n;
}.

(** What is left of the entries after the current one. *)
Definition rest_of (it : Iter) : Z :=
  match value_ it with Some (o, n) => restarts_ it - u32 (o + n) | None => 0 end.

Lemma DecodeFixed32_finishes p : finishes (fun v => 0 <= v < 2^32) (DecodeFixed32 p).
Proof.
  destruct (DecodeFixed32 p) eqn:E; cbn; [by apply DecodeFixed32_range in E|done|done|].
  by destruct p as [|a [|b [|c [|d p]]]].
Qed.

Lemma read_finishes data o n : finishes (fun _ => True) (read data o n).
Proof. unfold read. by case_decide. Qed.

Lemma DecodeEntry_bounds data p limit a b c q : 0 <= p -> 0 <= limit < 2^32 ->
  DecodeEntry data p limit = Some (a, b, c, q) ->
  0 <= a /\ 0 <= b /\ 0 <= c /\ p < q /\ q + u32 (b + c) <= limit.
Proof.
  intros Hp Hl. unfold DecodeEntry. case_decide as H3; [done|].
  destruct (take _ _) as [|x [|y [|z rest]]] eqn:Et; [done..|].
  assert (Hw : Z.of_nat (length (x :: y :: z :: rest)) <= limit - p).
  { rewrite <- Et, length_take. lia. }
  pose proof (fast_path x y z rest) as HF. unfold decode3 in HF. rewrite HF. clear HF.
  destruct (GetVarint32Ptr _) as [[a' q1]|] eqn:E1; [|done]. cbn [mbind option_bind].
  destruct (GetVarint32Ptr q1) as [[b' q2]|] eqn:E2; [|done]. cbn [mbind option_bind].
  destruct (GetVarint32Ptr q2) as [[c' q3]|] eqn:E3; [|done]. cbn [mbind option_bind].
  case_decide as Hc; [done|]. intros [= -> -> -> <-].
  apply GetVarint32Ptr_inv in E1 as (Ha & p1 & El1 & Hp1). apply GetVarint32Ptr_inv in E2 as (Hb & p2 & -> & Hp2).
  apply GetVarint32Ptr_inv in E3 as (Hc' & p3 & -> & Hp3). rewrite El1, !length_app in Hw.
  rewrite u32_small in Hc by lia. lia.
Qed.

Lemma restart_loop_finishes it fuel current i : 0 < num_restarts_ it < 2^30 -> 0 <= i <= num_restarts_ it ->
  (Z.to_nat (num_restarts_ it - i) < fuel)%nat ->
  finishes (fun j => 0 <= j <= num_restarts_ it) (restart_loop fuel it current i).
Proof.
  intros Hn. revert i. induction fuel as [|fuel IH]; intros i Hi Hf; [lia|]. cbn [restart_loop].
  rewrite u32_small by lia. case_decide; [|done]. eapply finishes_bind; [apply DecodeFixed32_finishes|].
  intros r _. cbn beta. case_decide; [|done]. apply IH; lia.
Qed.

(** An entry that was parsed leaves less than before. *)
Lemma ParseNextKey_finishes it : sane it ->
  finishes (fun '(it', found) => sane it' /\ restarts_ it' = restarts_ it
    /\ (found = true -> 0 <= rest_of it' < rest_of it)) (ParseNextKey it).
Proof.
  intros [HR Hn Hi Hv]. unfold ParseNextKey, NextEntryOffset.
  destruct (value_ it) as [[o n]|] eqn:Ev; [|done]. cbn [mbind res_bind].
  destruct (Hv _ _ eq_refl) as [Ho Hn0]. pose proof (u32_range (o + n)) as Hcur.
  assert (Herr : sane (CorruptionError it)).
  { split; cbn; [lia|lia|lia|]. done. }
  case_decide as Hge.
  { cbn. split; [|done]. split; cbn; [lia|lia|lia|exact Hv]. }
  destruct (DecodeEntry _ _ _) as [[[[a b] c] q]|] eqn:Ed; [|by cbn].
  apply DecodeEntry_bounds in Ed as (Ha & Hb & Hc & Hq & Hlim); [|lia|lia].
  case_decide; [by cbn|]. eapply finishes_bind; [apply read_finishes|]. intros delta _. cbn beta.
  eapply finishes_bind; [apply restart_loop_finishes; [done|done|lia]|]. intros j Hj. cbn in Hj |- *.
  split; [split; cbn; [lia|lia|lia|]|].
  - intros o' n' [= <- <-]. lia.
  - split; [done|]. intros _. unfold rest_of. cbn [value_ restarts_]. rewrite Ev.
    replace (q + b + c) with (q + (b + c)) by lia.
    assert (u32 (q + (b + c)) = q + u32 (b + c)) as ->; [|pose proof (u32_range (b + c)); lia].
    pose proof (u32_range (b + c)). rewrite <- (u32_small (q + u32 (b + c))) by lia.
    unfold u32. by rewrite Zplus_mod_idemp_r.
Qed.

Lemma SeekToRestartPoint_finishes it j : sane it -> 0 <= j <= num_restarts_ it ->
  finishes (fun it' => sane it' /\ restarts_ it' = restarts_ it /\ rest_of it' <= restarts_ it')
    (SeekToRestartPoint it j).
Proof.
  intros [HR Hn Hi Hv] Hj. unfold SeekToRestartPoint.
  eapply finishes_bind; [apply DecodeFixed32_finishes|]. intros r Hr. cbn in Hr |- *.
  split; [split; cbn; [lia|lia|lia|]|].
  - intros o n [= <- <-]. lia.
  - split; [done|]. unfold rest_of. cbn. pose proof (u32_range (r + 0)). lia.
Qed.

Lemma skip_loop_finishes fuel it stop : sane it -> (Z.to_nat (rest_of it) < fuel)%nat ->
  finishes sane (skip_loop fuel it stop).
Proof.
  revert it. induction fuel as [|fuel IH]; intros it Hs Hf; [lia|]. cbn [skip_loop].
  eapply finishes_bind; [by apply ParseNextKey_finishes|]. intros [it' found] (Hs' & _ & Hr). cbn beta.
  destruct found; [|done]. specialize (Hr eq_refl). unfold NextEntryOffset.
  destruct (value_ it') as [[o n]|]; [|done]. cbn [mbind res_bind]. case_decide; [|done]. apply IH; [done|lia].
Qed.

Lemma linear_loop_finishes fuel it t : sane it -> (Z.to_nat (rest_of it) < fuel)%nat ->
  finishes sane (linear_loop compare_ fuel it t).
Proof.
  revert it. induction fuel as [|fuel IH]; intros it Hs Hf; [lia|]. cbn [linear_loop].
  eapply finishes_bind; [by apply ParseNextKey_finishes|]. intros [it' found] (Hs' & _ & Hr). cbn beta.
  destruct found; [|done]. specialize (Hr eq_refl).
  eapply finishes_bind; [apply Hcompare|]. intros r _. cbn beta. case_decide; [done|]. apply IH; [done|lia].
Qed.

Lemma back_loop_finishes fuel it original j : 0 <= j <= num_restarts_ it -> (Z.to_nat j < fuel)%nat ->
  finishes (fun o => forall i, o = Some i -> 0 <= i <= num_restarts_ it) (back_loop fuel it original j).
Proof.
  revert j. induction fuel as [|fuel IH]; intros j Hj Hf; [lia|]. cbn [back_loop].
  eapply finishes_bind; [apply DecodeFixed32_finishes|]. intros r _. cbn beta.
  case_decide; [|by intros i [= <-]]. case_decide; [done|]. apply IH; lia.
Qed.

Lemma search_loop_finishes fuel it t l r : sane it -> 0 <= l -> r < num_restarts_ it -> 0 <= r ->
  (Z.to_nat (r - l) < fuel)%nat -> l < num_restarts_ it ->
  finishes (fun o => forall i, o = Some i -> 0 <= i <= num_restarts_ it) (search_loop compare_ fuel it t l r).
Proof.
  intros Hs. pose proof (sane_num _ Hs). revert l r.
  induction fuel as [|fuel IH]; intros l r Hl Hr Hr0 Hf Hln; [lia|]. cbn [search_loop].
  case_decide as Hlt; [|cbn; intros i [= <-]; lia].
  rewrite (u32_small (l + r + 1)), u32_small by (Z.to_euclidean_division_equations; lia).
  set (mid := (l + r + 1) / 2). assert (l < mid <= r) by (unfold mid; Z.to_euclidean_division_equations; lia).
  eapply finishes_bind; [apply DecodeFixed32_finishes|]. intros off' _. cbn beta.
  destruct (DecodeEntry _ _ _) as [[[[a b] c] q]|]; [|done]. case_decide; [done|].
  eapply finishes_bind; [apply read_finishes|]. intros k _. cbn beta.
  eapply finishes_bind; [apply Hcompare|]. intros z _. cbn beta. case_decide; apply IH; lia.
Qed.

Lemma run_call_finishes it c : sane it -> finishes sane (run_call it c).
Proof.
  intros Hs. pose proof (sane_num _ Hs) as Hn. pose proof (sane_index _ Hs). pose proof (sane_restarts _ Hs).
  destruct c as [| |t| |]; cbn [run_call].
  - eapply finishes_bind; [apply (SeekToRestartPoint_finishes it 0 Hs); lia|]. intros it' (Hs' & _). cbn beta.
    eapply finishes_bind; [by apply ParseNextKey_finishes|]. by intros [it2 found] (Hs2 & _).
  - unfold bi_SeekToLast. rewrite u32_small by lia.
    eapply finishes_bind; [apply (SeekToRestartPoint_finishes it (num_restarts_ it - 1) Hs); lia|].
    intros it' (Hs' & _ & Hr). cbn beta. apply skip_loop_finishes; [done|]. unfold scan_fuel. lia.
  - unfold bi_Seek. rewrite u32_small by lia.
    eapply finishes_bind; [apply search_loop_finishes; (done || lia)|]. intros [l|] Hl; cbn beta iota.
    + eapply finishes_bind; [apply (SeekToRestartPoint_finishes it l Hs); by apply Hl|].
      intros it' (Hs' & _ & Hr). cbn beta. apply linear_loop_finishes; [done|]. unfold scan_fuel. lia.
    + cbn. destruct Hs. split; cbn; [lia|lia|lia|]. done.
  - eapply finishes_bind; [by apply ParseNextKey_finishes|]. by intros [it2 found] (Hs2 & _).
  - unfold bi_Prev. eapply finishes_bind; [apply back_loop_finishes; lia|]. intros [j|] Hj; cbn beta iota.
    + eapply finishes_bind; [apply (SeekToRestartPoint_finishes it j Hs); by apply Hj|].
      intros it' (Hs' & _ & Hr). cbn beta. apply skip_loop_finishes; [done|]. unfold scan_fuel. lia.
    + cbn. destruct Hs as [? ? ? Hv]. split; cbn; [lia|lia|lia|exact Hv].
Qed.

Lemma run_calls_finishes cs it : sane it -> finishes sane (run_calls it cs).
Proof.
  revert it. induction cs as [|c cs IH]; intros it Hs; [done|]. cbn [run_calls].
  eapply finishes_bind; [by apply run_call_finishes|]. done.
Qed.

Lemma opened_sane contents b it : Z.of_nat (length contents) < 2^32 ->
  new_Block contents = Ret b -> NewIterator b = Ret (inr it) -> sane it.
Proof.
  intros Hl. unfold new_Block. case_decide as H4.
  { intros [= <-]. unfold NewIterator. cbn. done. }
  pose proof (DecodeFixed32_finishes (at_off contents (Z.of_nat (length contents) - 4))) as Hnum.
  destruct (NumRestarts contents _) as [num| | |] eqn:En; [|done..]. cbn [mbind res_bind].
  unfold NumRestarts in En. rewrite En in Hnum. cbn in Hnum.
  case_decide as Hmax; [by intros [= <-]|]. intros [= <-]. unfold NewIterator. cbn [size_ data_ restart_offset_].
  rewrite decide_False by done. unfold NumRestarts. rewrite En. cbn [mbind res_bind].
  case_decide as H0; [done|]. intros [= <-]. split; cbn; [apply u32_range| |lia|done].
  Z.to_euclidean_division_equations. lia.
Qed.

(** C29: whatever the contents of a block, no sequence of calls of its iterator
    runs forever: every scan moves to a later entry and both searches close in. *)
Theorem block_iterator_terminates contents b it cs :
  Z.of_nat (length contents) < 2^32 -> new_Block contents = Ret b -> NewIterator b = Ret (inr it) ->
  run_calls it cs <> NoFuel.
Proof.
  intros Hl Hb Hi E. pose proof (run_calls_finishes cs it (opened_sane _ _ _ Hl Hb Hi)) as HF. by rewrite E in HF.
Qed.
End arbitrary.

Lemma block_iterator_terminates_witness : exists b it,
  new_Block wrapping_block = Ret b /\ NewIterator b = Ret (inr it)
  /\ run_calls (user_Compare (H:=BytewiseComparator)) it [CSeekToLast; CPrev; CSeek (lit "x"); CNext] <> NoFuel.
Proof.
  eexists _, _. split; [vm_compute; reflexivity|]. split; [vm_compute; reflexivity|].
  eapply (block_iterator_terminates user_Compare (fun _ _ => I) wrapping_block);
    [vm_compute; reflexivity|vm_compute; reflexivity|vm_compute; reflexivity].
Defined.
