(* ===== verification/Merger.v ===== *)
(** * Merger: table/merger.h, table/merger.cc

    The merging iterator: a cursor over the sorted union of what its children
    iterate over.  The position is shared: every child stands at its part of
    the cut of the merged list before (or after) the current entry. *)

From S2P Require Import Prelude Coding Status DbFormat SkipList KeyOrder Iterator BlockBuilder Block.

Inductive Direction := kForward | kReverse.

#[export] Instance Direction_eq_dec : EqDecision Direction.
Proof. solve_decision. Defined.

(** A for loop over the children, [f] given the index and the child. *)
Fixpoint for_children {W} (f : nat -> W -> res W) (i : nat) (l : list W) : res (list W) :=
  match l with
  | [] => Ret []
  | w :: l => w ← f i w; l ← for_children f (S i) l; Ret (w :: l)
  end.

Section merging.
Context {It : Type} `{!Iterator It} (compare_ : bytes -> bytes -> res Z).

Record MergingIterator := mkMerging {
  children_ : list (IteratorWrapper It);
  current_ : option nat;
  direction_ : Direction;
}.

(** The body shared by [FindSmallest] and [FindLargest]: the pointer moves to
    a valid child that [better] prefers to the one held. *)
Fixpoint find_loop (better : Z -> bool) (l : list (nat * IteratorWrapper It))
    (held : option (nat * IteratorWrapper It)) : res (option (nat * IteratorWrapper It)) :=
  match l with
  | [] => Ret held
  | (i, child) :: l =>
      if w_Valid child then
        match held with
        | None => find_loop better l (Some (i, child))
        | Some (_, h) =>
            r ← compare_ (w_key child) (w_key h);
            if better r then find_loop better l (Some (i, child)) else find_loop better l held
        end
      else find_loop better l held
  end.

Definition numbered (children : list (IteratorWrapper It)) : list (nat * IteratorWrapper It) :=
  imap pair children.

Definition FindSmallest (children : list (IteratorWrapper It)) : res (option nat) :=
  smallest ← find_loop (fun r => r <? 0) (numbered children) None;
  Ret (option_map fst smallest).

Definition FindLargest (children : list (IteratorWrapper It)) : res (option nat) :=
  largest ← find_loop (fun r => 0 <? r) (rev (numbered children)) None;
  Ret (option_map fst largest).

Fixpoint set_children (children : list It) : res (list (IteratorWrapper It)) :=
  match children with
  | [] => Ret []
  | it :: children =>
      w ← Set_ new_IteratorWrapper (Some it);
      ws ← set_children children;
      Ret (w :: ws)
  end.

Definition new_MergingIterator (children : list It) : res MergingIterator :=
  ws ← set_children children;
  Ret (mkMerging ws None kForward).

Definition m_Valid (m : MergingIterator) : bool := bool_decide (is_Some (current_ m)).

Definition m_SeekToFirst (m : MergingIterator) : res MergingIterator :=
  children ← for_children (fun _ w => w_SeekToFirst w) 0 (children_ m);
  current ← FindSmallest children;
  Ret (mkMerging children current kForward).

Definition m_SeekToLast (m : MergingIterator) : res MergingIterator :=
  children ← for_children (fun _ w => w_SeekToLast w) 0 (children_ m);
  current ← FindLargest children;
  Ret (mkMerging children current kReverse).

Definition m_Seek (m : MergingIterator) (target : bytes) : res MergingIterator :=
  children ← for_children (fun _ w => w_Seek w target) 0 (children_ m);
  current ← FindSmallest children;
  Ret (mkMerging children current kForward).

(** [current_], which the callers know not to be null. *)
Definition current_child (m : MergingIterator) : res (nat * IteratorWrapper It) :=
  c ← of_option (current_ m);
  w ← of_option (children_ m !! c);
  Ret (c, w).

Definition m_key (m : MergingIterator) : res bytes := '(_, w) ← current_child m; Ret (w_key w).
Definition m_value (m : MergingIterator) : res bytes := '(_, w) ← current_child m; w_value w.

(** Turning round: the other children are moved past the current key. *)
Definition turn_forward (c : nat) (key : bytes) (i : nat) (child : IteratorWrapper It) : res (IteratorWrapper It) :=
  if decide (i = c) then Ret child
  else
    child ← w_Seek child key;
    if w_Valid child then
      r ← compare_ key (w_key child);
      if decide (r = 0) then w_Next child else Ret child
    else Ret child.

Definition turn_reverse (c : nat) (key : bytes) (i : nat) (child : IteratorWrapper It) : res (IteratorWrapper It) :=
  if decide (i = c) then Ret child
  else
    child ← w_Seek child key;
    if w_Valid child then w_Prev child else w_SeekToLast child.

Definition m_Next (m : MergingIterator) : res MergingIterator :=
  '(c, w) ← current_child m;
  children ← (if decide (direction_ m = kForward) then Ret (children_ m)
              else for_children (turn_forward c (w_key w)) 0 (children_ m));
  w ← of_option (children !! c);
  w ← w_Next w;
  let children := <[c := w]> children in
  current ← FindSmallest children;
  Ret (mkMerging children current kForward).

Definition m_Prev (m : MergingIterator) : res MergingIterator :=
  '(c, w) ← current_child m;
  children ← (if decide (direction_ m = kReverse) then Ret (children_ m)
              else for_children (turn_reverse c (w_key w)) 0 (children_ m));
  w ← of_option (children !! c);
  w ← w_Prev w;
  let children := <[c := w]> children in
  current ← FindLargest children;
  Ret (mkMerging children current kReverse).

(** The first status that is not OK; a child without an iterator has none. *)
Fixpoint status_loop (l : list (IteratorWrapper It)) (s : Status.t) : Status.t :=
  match l with
  | [] => s
  | child :: l =>
      match iter_ child with
      | Some it => if Status.ok (status it) then status_loop l (status it) else status it
      | None => s
      end
  end.
Definition m_status (m : MergingIterator) : Status.t := status_loop (children_ m) Status.OK.

#[export] Instance MergingIterator_iterator : Iterator MergingIterator := {
  Valid := m_Valid;
  SeekToFirst := m_SeekToFirst;
  SeekToLast := m_SeekToLast;
  Seek := m_Seek;
  Next := m_Next;
  Prev := m_Prev;
  key := m_key;
  value := m_value;
  status := m_status;
}.

(** [NewMergingIterator] of no child is empty, of one the child itself. *)
Definition NewMergingIterator (list : list It) : res (EmptyIterator + It + MergingIterator) :=
  match list with
  | [] => Ret (inl (inl NewEmptyIterator))
  | [it] => Ret (inl (inr it))
  | _ => m ← new_MergingIterator list; Ret (inr m)
  end.
End merging.
Arguments MergingIterator It : clear implicits.
Arguments mkMerging {It}.

(** ** Lists with tags: which child an entry of the merged list comes from *)

Definition pick (i : nat) (L : list (nat * (bytes * bytes))) : entries :=
  map snd (filter (fun x => x.1 = i) L).

Definition cut (L : list (nat * (bytes * bytes))) (p i : nat) : nat := length (pick i (take p L)).

Lemma pick_app i L L' : pick i (L ++ L') = pick i L ++ pick i L'.
Proof. unfold pick. by rewrite list.filter_app, map_app. Qed.

Lemma pick_cut L p i : pick i L = pick i (take p L) ++ pick i (drop p L).
Proof. by rewrite <- pick_app, take_drop. Qed.

Lemma pick_cons i j e L : pick i ((j, e) :: L) = if decide (j = i) then e :: pick i L else pick i L.
Proof. unfold pick. cbn [filter list_filter]. cbn. by case_decide. Qed.

Lemma pick_elem i L e : e ∈ pick i L -> (i, e) ∈ L.
Proof.
  unfold pick. intros H. apply list_elem_of_fmap in H as ([j e'] & -> & H).
  apply list_elem_of_filter in H as [H1 H2]. cbn in H1. by subst.
Qed.

Lemma cut_0 L i : cut L 0 i = 0%nat.
Proof. done. Qed.

Lemma cut_length L i : cut L (length L) i = length (pick i L).
Proof. unfold cut. by rewrite firstn_all. Qed.

Lemma cut_S L p i c e : L !! p = Some (c, e) ->
  cut L (S p) i = if decide (i = c) then S (cut L p i) else cut L p i.
Proof.
  intros E. unfold cut. rewrite (take_S_r _ _ _ E), pick_app, length_app, pick_cons.
  repeat case_decide; try congruence; cbn; lia.
Qed.

Lemma cut_le L p i : (cut L p i <= length (pick i L))%nat.
Proof. rewrite (pick_cut L p i), length_app. unfold cut. lia. Qed.

(** The entry of a child at its cut, and the one before, in the merged list. *)
Lemma pick_at L p i e : pick i L !! cut L p i = Some e -> exists q, (p <= q)%nat /\ L !! q = Some (i, e).
Proof.
  rewrite (pick_cut L p i). unfold cut. rewrite lookup_app_r, Nat.sub_diag by lia. intros E.
  apply list_elem_of_lookup_2, pick_elem, list_elem_of_lookup in E as [q Hq].
  rewrite lookup_drop in Hq. exists (p + q)%nat. split; [lia|done].
Qed.

Lemma pick_before L p i n e : (n < cut L p i)%nat -> pick i L !! n = Some e ->
  exists q, (q < p)%nat /\ L !! q = Some (i, e).
Proof.
  intros Hn. rewrite (pick_cut L p i), lookup_app_l by done. intros E.
  apply list_elem_of_lookup_2, pick_elem, list_elem_of_lookup in E as [q Hq].
  apply lookup_take_Some in Hq as [Hq Hlt]. by exists q.
Qed.

Lemma pick_own L p c e : L !! p = Some (c, e) -> pick c L !! cut L p c = Some e.
Proof.
  intros E. rewrite (pick_cut L p c). unfold cut. rewrite lookup_app_r, Nat.sub_diag by lia.
  by rewrite (drop_S _ _ _ E), pick_cons, decide_True by done.
Qed.

(** Sorted lists and a sorted permutation of their union are such a list. *)
Section tag.
Context (cmp : bytes -> bytes -> comparison) `{!CmpOrder cmp}.

Definition sorted_keys (es : entries) : Prop := StronglySorted (fun x y => cmp_lt cmp x.1 y.1) es.

Fixpoint tag_from (n : nat) (ess : list entries) : list (nat * (bytes * bytes)) :=
  match ess with
  | [] => []
  | l :: ess => map (pair n) l ++ tag_from (S n) ess
  end.

Lemma map_snd_tag n ess : map snd (tag_from n ess) = concat ess.
Proof.
  revert n. induction ess as [|l ess IH]; intros n; [done|]. cbn. rewrite map_app, IH, map_map. cbn.
  by rewrite map_id.
Qed.

Lemma pick_same n (l : entries) : pick n (map (pair n) l) = l.
Proof. induction l as [|e l IH]; [done|]. cbn [map]. by rewrite pick_cons, decide_True, IH. Qed.
Lemma pick_other n i (l : entries) : i <> n -> pick i (map (pair n) l) = [].
Proof.
  intros Hn. induction l as [|e l IH]; [done|]. cbn [map]. by rewrite pick_cons, decide_False by done.
Qed.

Lemma tag_from_elem n ess c e : (c, e) ∈ tag_from n ess -> (n <= c < n + length ess)%nat.
Proof.
  revert n. induction ess as [|l ess IH]; intros n; cbn [tag_from length]; [by intros ?%not_elem_of_nil|].
  intros [H|H]%elem_of_app.
  - apply list_elem_of_fmap in H as (? & [= <- _] & _). lia.
  - apply IH in H. lia.
Qed.

Lemma pick_none i L : (forall e, (i, e) ∉ L) -> pick i L = [].
Proof.
  intros H. destruct (pick i L) as [|e t] eqn:E; [done|]. destruct (H e).
  apply pick_elem. rewrite E. left.
Qed.

Lemma pick_tag n ess i l : ess !! i = Some l -> pick (n + i) (tag_from n ess) = l.
Proof.
  revert n i. induction ess as [|l' ess IH]; intros n [|i] E; cbn in E; [done|done| |]; cbn [tag_from].
  - injection E as ->. rewrite Nat.add_0_r, pick_app, pick_same, pick_none, app_nil_r; [done|].
    intros e H%tag_from_elem. lia.
  - rewrite pick_app, pick_other by lia. cbn. replace (n + S i)%nat with (S n + i)%nat by lia. by apply IH.
Qed.

#[export] Instance pick_perm i : Proper ((≡ₚ) ==> (≡ₚ)) (pick i).
Proof. intros L L' H. unfold pick. by rewrite H. Qed.

Lemma sorted_pick i L : sorted_keys (map snd L) -> sorted_keys (pick i L).
Proof.
  unfold sorted_keys. induction L as [|[j e] L IH]; cbn [map]; intros H; [constructor|].
  apply StronglySorted_inv in H as [H He]. rewrite pick_cons. specialize (IH H).
  case_decide; [|exact IH]. constructor; [exact IH|].
  apply Forall_forall. intros e' Hin%list_elem_of_In. apply pick_elem in Hin.
  rewrite Forall_forall in He. apply He, list_elem_of_In. apply list_elem_of_fmap. by exists (i, e').
Qed.

Lemma sorted_unique (es es' : entries) : sorted_keys es -> sorted_keys es' -> es ≡ₚ es' -> es = es'.
Proof.
  intros H1 H2 HP. eapply (StronglySorted_unique_strong (fun x y : bytes * bytes => cmp_lt cmp x.1 y.1)); [|done..].
  intros x y _ _ Hxy Hyx. unfold cmp_lt in *. rewrite (cmp_antisym (cmp:=cmp) x.1 y.1), Hxy in Hyx. done.
Qed.

Lemma tagging (es : entries) (ess : list entries) :
  sorted_keys es -> Forall sorted_keys ess -> es ≡ₚ concat ess ->
  exists L, map snd L = es /\ (forall i l, ess !! i = Some l -> pick i L = l)
    /\ forall p c e, L !! p = Some (c, e) -> (c < length ess)%nat.
Proof.
  intros Hs Hss HP. rewrite <- (map_snd_tag 0 ess) in HP.
  destruct (Permutation_map_inv _ _ HP) as (L & -> & HL). exists L. split; [done|]. split.
  - intros i l E. pose proof (pick_tag 0 _ _ _ E) as Hp. cbn in Hp. apply sorted_unique; [by apply sorted_pick| |].
    + by apply (Forall_lookup_1 _ _ _ _ Hss E).
    + by rewrite <- Hp, HL.
  - intros p c e E. apply list_elem_of_lookup_2 in E. rewrite <- HL in E. apply tag_from_elem in E. lia.
Qed.
End tag.

(** ** The loops *)

Lemma for_children_spec {W} (f : nat -> W -> res W) (Q : nat -> W -> Prop) l n :
  (forall i w, l !! i = Some w -> exists w', f (n + i)%nat w = Ret w' /\ Q (n + i)%nat w') ->
  exists l', for_children f n l = Ret l' /\ length l' = length l
    /\ forall i w', l' !! i = Some w' -> Q (n + i)%nat w'.
Proof.
  revert n. induction l as [|w l IH]; intros n H; cbn [for_children].
  { by exists []. }
  destruct (H 0%nat w eq_refl) as (w' & E & Hq). rewrite Nat.add_0_r in E, Hq. rewrite E. cbn [mbind res_bind].
  destruct (IH (S n)) as (l' & -> & Hl & HQ).
  { intros i w0 Hi. specialize (H (S i) w0 Hi). by replace (S n + i)%nat with (n + S i)%nat by lia. }
  cbn [mbind res_bind]. exists (w' :: l'). split; [done|]. split; [cbn; lia|].
  intros [|i] w0; cbn; [intros [= <-]; by rewrite Nat.add_0_r|].
  intros Hi. replace (n + S i)%nat with (S n + i)%nat by lia. by apply HQ.
Qed.

Section merging_spec.
Context {It : Type} `{!Iterator It} (compare_ : bytes -> bytes -> res Z).
Context (cmp : bytes -> bytes -> comparison) (valid : bytes -> Prop).
Context `{!CmpOrder cmp} `{!Compares compare_ cmp valid}.
Context (L : list (nat * (bytes * bytes))) (ess : list entries).
Abbreviation es := (map snd L).
Context (Hpick : forall i l, ess !! i = Some l -> pick i L = l).
Context (Hown : forall p c e, L !! p = Some (c, e) -> (c < length ess)%nat).
Context (Hsorted : sorted_keys cmp es) (Hvalid : Forall (fun e => valid e.1) es).
Context (reps : nat -> It -> option nat -> Prop).
Context (specs : forall i l, ess !! i = Some l -> IteratorSpec It valid cmp l (reps i)).

Lemma es_at p c e : L !! p = Some (c, e) -> es !! p = Some e.
Proof. intros E. by rewrite list_lookup_fmap, E. Qed.

Lemma tagged_valid p c e : L !! p = Some (c, e) -> valid e.1.
Proof. intros E. apply es_at in E. by apply (Forall_lookup_1 _ _ _ _ Hvalid E). Qed.

Lemma tagged_lt p q c d e f : L !! p = Some (c, e) -> L !! q = Some (d, f) -> (p < q)%nat -> cmp e.1 f.1 = Lt.
Proof.
  intros E F Hlt. apply es_at in E, F.
  exact (StronglySorted_at (fun x y => cmp_lt cmp x.1 y.1) es p q e f Hsorted Hlt E F).
Qed.

(** The bound of a target in a child is the cut at its bound in the union. *)
Lemma lower_bound_cut t i p : (p <= length L)%nat ->
  (forall q c e, L !! q = Some (c, e) -> (q < p)%nat -> cmp e.1 t = Lt) ->
  (forall q c e, L !! q = Some (c, e) -> (p <= q)%nat -> cmp e.1 t <> Lt) ->
  lower_bound cmp t (pick i L) = cut L p i.
Proof.
  intros Hp Hb Ha. apply lower_bound_eq; [apply cut_le| |].
  - intros n e Hn E. destruct (pick_before L p i n e Hn E) as (q & Hq & Eq). by apply (Hb q i).
  - intros e E. destruct (pick_at L p i e E) as (q & Hq & Eq). by apply (Ha q i).
Qed.

Lemma lower_bound_seek t i : lower_bound cmp t (pick i L) = cut L (lower_bound cmp t es) i.
Proof.
  pose proof (lower_bound_le cmp t es) as Hle. rewrite length_map in Hle.
  apply lower_bound_cut; [done| |].
  - intros q c e E Hq. apply es_at in E. by apply (lower_bound_before cmp t es q e).
  - intros q c e E Hq Hlt. destruct (lookup_lt_is_Some_2 L (lower_bound cmp t es)) as [[d f] F].
    { apply lookup_lt_Some in E. lia. }
    destruct (lower_bound_at cmp t es f (es_at _ _ _ F)).
    destruct (decide (q = lower_bound cmp t es)) as [->|]; [by simplify_eq|].
    apply (cmp_trans _ e.1 _ Lt); [|done]. eapply tagged_lt; [exact F|exact E|lia].
Qed.

Lemma lower_bound_key p c e i : L !! p = Some (c, e) -> lower_bound cmp e.1 (pick i L) = cut L p i.
Proof.
  intros E. apply lower_bound_cut; [apply lookup_lt_Some in E; lia| |].
  - intros q d f F Hq. by eapply tagged_lt.
  - intros q d f F Hq Hlt. destruct (decide (q = p)) as [->|].
    + simplify_eq. by rewrite (cmp_refl (cmp:=cmp)) in Hlt.
    + rewrite (cmp_antisym (cmp:=cmp) e.1 f.1), (tagged_lt p q c d e f) in Hlt by (done || lia). done.
Qed.

(** Every child is at the position [f] gives it. *)
Definition children_at (cs : list (IteratorWrapper It)) (f : nat -> option nat) : Prop :=
  length cs = length ess /\ forall i w, cs !! i = Some w -> w_rep (rep := reps i) w (f i).

Definition after_cut (p i : nat) : option nat := index (pick i L) (cut L p i).
Definition before_cut (p i : nat) : option nat := index_before (cut L p i).

Lemma child_list (cs : list (IteratorWrapper It)) f i w : children_at cs f -> cs !! i = Some w -> ess !! i = Some (pick i L).
Proof.
  intros [Hl _] E. apply lookup_lt_Some in E. rewrite Hl in E.
  destruct (lookup_lt_is_Some_2 ess i E) as [l El]. by rewrite (Hpick _ _ El).
Qed.

Lemma child_spec (cs : list (IteratorWrapper It)) f i w : children_at cs f -> cs !! i = Some w ->
  IteratorSpec It valid cmp (pick i L) (reps i).
Proof. intros Hc E. apply specs. by eapply child_list. Qed.

(** [c] is preferred to every other valid child. *)
Lemma find_loop_spec better (l : list (nat * IteratorWrapper It)) held c w :
  (c, w) ∈ l \/ held = Some (c, w) -> w_Valid w = true ->
  NoDup l.*1 -> (forall i h, held = Some (i, h) -> i ∉ l.*1) ->
  (forall i x, (i, x) ∈ l \/ held = Some (i, x) -> i <> c -> w_Valid x = true ->
    (exists r, compare_ (w_key w) (w_key x) = Ret r /\ better r = true)
    /\ (exists r, compare_ (w_key x) (w_key w) = Ret r /\ better r = false)) ->
  (forall i h, held = Some (i, h) -> w_Valid h = true) ->
  (forall i x j y, (i, x) ∈ l \/ held = Some (i, x) -> (j, y) ∈ l \/ held = Some (j, y) ->
    w_Valid x = true -> w_Valid y = true -> exists r, compare_ (w_key x) (w_key y) = Ret r) ->
  find_loop compare_ better l held = Ret (Some (c, w)).
Proof.
  revert held. induction l as [|[i x] l IH]; intros held Hin Hv Hnd Hni Hbest Hhv Hret; cbn [find_loop].
  { destruct Hin as [H| ->]; [by apply not_elem_of_nil in H|done]. }
  cbn in Hnd. apply list.NoDup_cons in Hnd as [Hx Hnd].
  assert (Hsub : forall o : option (nat * IteratorWrapper It), (forall j y, o = Some (j, y) -> (j, y) ∈ (i, x) :: l \/ held = Some (j, y)) ->
    forall j y, (j, y) ∈ l \/ o = Some (j, y) -> (j, y) ∈ (i, x) :: l \/ held = Some (j, y)).
  { intros o Ho j y [H|H]; [left; by right|by apply Ho]. }
  assert (Hstep : forall o : option (nat * IteratorWrapper It), (forall j y, o = Some (j, y) -> (j, y) ∈ (i, x) :: l \/ held = Some (j, y)) ->
    ((c, w) ∈ l \/ o = Some (c, w)) -> (forall j y, o = Some (j, y) -> j ∉ l.*1) ->
    (forall j h, o = Some (j, h) -> w_Valid h = true) -> find_loop compare_ better l o = Ret (Some (c, w))).
  { intros o Ho H1 H2 H3. apply IH; [done|done|done|done| |done|].
    - intros j y Hj. apply Hbest. by apply (Hsub o).
    - intros j y k z Hj Hk. apply (Hret j y k z); by apply (Hsub o). }
  assert (Hheld : forall j y, held = Some (j, y) -> j ∉ l.*1).
  { intros j y E Hj. apply (Hni j y E). cbn. by right. }
  destruct (w_Valid x) eqn:Ex.
  2:{ apply Hstep; [by auto| |done|done]. destruct Hin as [[H|H]%elem_of_cons| ->]; [simplify_eq; congruence|by left|by right]. }
  assert (Hnew : forall j y, Some (i, x) = Some (j, y) -> j ∉ l.*1) by (by intros j y [= -> ->]).
  destruct held as [[j h]|].
  - destruct (Hret i x j h) as (r & Er); [left; left|by right|done|by eapply Hhv|]. rewrite Er. cbn [mbind res_bind].
    destruct (better r) eqn:Eb.
    + apply Hstep; [intros ? ? [= <- <-]; left; left| |done|by intros ? ? [= <- <-]].
      destruct (decide (i = c)) as [->|Hic].
      * right. destruct Hin as [[H|H]%elem_of_cons|H]; [by simplify_eq|destruct Hx; by apply list_elem_of_fmap; exists (c, w)|].
        simplify_eq. destruct (Hni c w eq_refl). left.
      * destruct Hin as [[H|H]%elem_of_cons|H]; [by simplify_eq|by left|]. simplify_eq.
        destruct (Hbest i x) as [_ (r' & Er' & Hb')]; [left; left|done|done|]. rewrite Er in Er'. congruence.
    + apply Hstep; [by auto| |done|done]. destruct Hin as [[H|H]%elem_of_cons|H]; [|by left|by right].
      simplify_eq. destruct (decide (j = i)) as [->|Hji]; [destruct (Hni i h eq_refl); left|].
      destruct (Hbest j h) as [(r' & Er' & Hb') _]; [by right|done|by eapply Hhv|]. rewrite Er in Er'. congruence.
  - apply Hstep; [intros ? ? [= <- <-]; left; left| |done|by intros ? ? [= <- <-]].
    destruct Hin as [[H|H]%elem_of_cons|H]; [by simplify_eq; right|by left|done].
Qed.

Lemma find_loop_none better (l : list (nat * IteratorWrapper It)) : Forall (fun x => w_Valid x.2 = false) l -> find_loop compare_ better l None = Ret None.
Proof. induction 1 as [|[i w] l Hw _ IH]; [done|]. cbn in *. by rewrite Hw. Qed.

Lemma numbered_elem (cs : list (IteratorWrapper It)) i w : (i, w) ∈ numbered cs <-> cs !! i = Some w.
Proof.
  unfold numbered. rewrite elem_of_lookup_imap. split; [intros (j & x & [= -> ->] & E)|intros E]; [done|by eexists _, _].
Qed.
Lemma numbered_fst (cs : list (IteratorWrapper It)) : (numbered cs).*1 = seq 0 (length cs).
Proof.
  unfold numbered. rewrite fmap_imap. apply list_eq. intros i. rewrite list_lookup_imap.
  destruct (cs !! i) as [w|] eqn:E; cbn.
  - rewrite lookup_seq_lt; [done|by eapply lookup_lt_Some].
  - by rewrite lookup_seq_ge by (by apply lookup_ge_None_1).
Qed.

Lemma child_key cs f i w : children_at cs f -> cs !! i = Some w ->
  w_Valid w = bool_decide (is_Some (f i))
  /\ forall n, f i = Some n -> exists v q, pick i L !! n = Some (w_key w, v)
       /\ L !! q = Some (i, (w_key w, v)) /\ w_value w = Ret v.
Proof.
  intros Hc E. pose proof (child_spec _ _ _ _ Hc E) as HS. destruct Hc as [_ Hw]. specialize (Hw i w E).
  split; [by eapply w_Valid_spec|]. intros n Hn. rewrite Hn in Hw. destruct (w_at _ _ Hw) as (v & Ev & Hv).
  pose proof (list_elem_of_lookup_2 _ _ _ Ev) as H%pick_elem. apply list_elem_of_lookup in H as [q Hq].
  by exists v, q.
Qed.

(** The child [c] holds the extreme key: less (or greater) than the others. *)
Lemma find_unique better (ord : comparison) cs f c w l :
  children_at cs f -> cs !! c = Some w -> is_Some (f c) ->
  (forall z, better z = true <-> (z ?= 0) = ord) -> ord <> Eq ->
  (forall i x, cs !! i = Some x -> i <> c -> is_Some (f i) -> cmp (w_key w) (w_key x) = ord) ->
  l ≡ₚ numbered cs -> find_loop compare_ better l None = Ret (Some (c, w)).
Proof.
  intros Hc E Hf Hb Hord Hbest HP.
  assert (Hin : forall i x, (i, x) ∈ l <-> cs !! i = Some x) by (intros i x; by rewrite HP, numbered_elem).
  assert (Hcmp : forall i x j y, cs !! i = Some x -> cs !! j = Some y -> w_Valid x = true -> w_Valid y = true ->
    exists r, compare_ (w_key x) (w_key y) = Ret r /\ (r ?= 0) = cmp (w_key x) (w_key y)).
  { assert (forall i x, cs !! i = Some x -> w_Valid x = true -> valid (w_key x)) as Hk.
    { intros i x Ex Hx. destruct (child_key _ _ _ _ Hc Ex) as (Hv & Hn). rewrite Hv in Hx.
      apply bool_decide_eq_true in Hx as [n Hn']. destruct (Hn n Hn') as (v & q & _ & Hq & _).
      by apply tagged_valid in Hq. }
    intros i x j y Ex Ey Hx Hy. apply compares; by eapply Hk. }
  assert (Hvw : w_Valid w = true).
  { destruct (child_key _ _ _ _ Hc E) as [-> _]. by rewrite bool_decide_true. }
  apply find_loop_spec; [left; by apply Hin|done| |done| |done|].
  - assert (l.*1 ≡ₚ seq 0 (length cs)) as -> by (rewrite HP; by rewrite numbered_fst). apply NoDup_seq.
  - intros i x [Hx%Hin|Hx] Hic Hxv; [|done].
    assert (cmp (w_key w) (w_key x) = ord) as Ho.
    { apply (Hbest i x); [done|done|]. destruct (child_key _ _ _ _ Hc Hx) as [Hv _]. rewrite Hv in Hxv.
      by apply bool_decide_eq_true in Hxv. }
    split.
    + destruct (Hcmp c w i x) as (r & -> & Hr); [done..|]. exists r. split; [done|]. apply Hb. congruence.
    + destruct (Hcmp i x c w) as (r & -> & Hr); [done..|]. exists r. split; [done|].
      apply not_true_is_false. rewrite Hb, Hr, (cmp_antisym (cmp:=cmp) (w_key w)), Ho. by destruct ord.
  - intros i x j y [Hx%Hin|Hx] [Hy%Hin|Hy] Hxv Hyv; [|done..].
    destruct (Hcmp i x j y) as (r & -> & _); [done..|]. by exists r.
Qed.

Lemma find_all_invalid better cs f l : children_at cs f -> (forall i, f i = None) ->
  l ≡ₚ numbered cs -> find_loop compare_ better l None = Ret None.
Proof.
  intros Hc Hf HP. apply find_loop_none. apply Forall_forall. intros [i w] Hin%list_elem_of_In.
  rewrite HP, numbered_elem in Hin. cbn. destruct (child_key _ _ _ _ Hc Hin) as [-> _].
  rewrite Hf. by rewrite bool_decide_false by (by intros [? ?]).
Qed.

Lemma owner_child (cs : list (IteratorWrapper It)) f p c e : children_at cs f -> L !! p = Some (c, e) ->
  exists w, cs !! c = Some w.
Proof. intros [Hl _] E. apply lookup_lt_is_Some_2. rewrite Hl. by eapply Hown. Qed.

Lemma after_cut_some p i n : after_cut p i = Some n -> n = cut L p i.
Proof. unfold after_cut. by intros [-> _]%index_inv. Qed.

Lemma after_cut_own p c e : L !! p = Some (c, e) -> after_cut p c = Some (cut L p c).
Proof. intros E. unfold after_cut. apply index_some. apply pick_own in E. by apply lookup_lt_Some in E. Qed.

Lemma after_cut_end i : after_cut (length L) i = None.
Proof. unfold after_cut. apply index_none. by rewrite cut_length. Qed.

Lemma FindSmallest_spec cs p : (p <= length L)%nat -> children_at cs (after_cut p) ->
  FindSmallest compare_ cs = Ret (fst <$> L !! p).
Proof.
  intros Hp Hc. unfold FindSmallest. destruct (L !! p) as [[c e]|] eqn:E.
  - destruct (owner_child _ _ _ _ _ Hc E) as [w Ew].
    pose proof (after_cut_own _ _ _ E) as Hcut.
    assert (w_key w = e.1) as Hk.
    { destruct (child_key _ _ _ _ Hc Ew) as [_ H]. destruct (H _ Hcut) as (v & q & Hq & _).
      rewrite (pick_own _ _ _ _ E) in Hq. by injection Hq as ->. }
    rewrite (find_unique _ Lt cs (after_cut p) c w); [done|done|done|by eexists| |done| |done].
    { intros z. by rewrite Z.ltb_lt, Z.compare_lt_iff. }
    intros i x Ex Hi [n Hn]. rewrite Hk. destruct (child_key _ _ _ _ Hc Ex) as [_ H].
    destruct (H n Hn) as (v & _ & Hq & _). apply after_cut_some in Hn as ->.
    apply pick_at in Hq as (q & Hq & Eq). change (w_key x) with (w_key x, v).1.
    eapply tagged_lt; [exact E|exact Eq|]. destruct (decide (q = p)) as [->|]; [simplify_eq|lia].
  - apply lookup_ge_None_1 in E. assert (p = length L) as -> by lia.
    rewrite (find_all_invalid _ _ _ _ Hc); [done| |done]. apply after_cut_end.
Qed.

Lemma FindLargest_spec cs p : (p <= length L)%nat -> children_at cs (before_cut p) ->
  FindLargest compare_ cs = Ret (q ← index_before p; fst <$> L !! q).
Proof.
  intros Hp Hc. unfold FindLargest. pose proof (Permutation_rev (numbered cs)) as HP. destruct p as [|p].
  - rewrite (find_all_invalid _ _ _ _ Hc); [done|done|by symmetry].
  - destruct (lookup_lt_is_Some_2 L p ltac:(lia)) as [[c e] E].
    destruct (owner_child _ _ _ _ _ Hc E) as [w Ew].
    assert (before_cut (S p) c = Some (cut L p c)) as Hcut.
    { unfold before_cut. by rewrite (cut_S _ _ _ _ _ E), decide_True. }
    assert (w_key w = e.1) as Hk.
    { destruct (child_key _ _ _ _ Hc Ew) as [_ H]. destruct (H _ Hcut) as (v & q & Hq & _).
      rewrite (pick_own _ _ _ _ E) in Hq. by injection Hq as ->. }
    cbn [index_before mbind option_bind]. rewrite E.
    rewrite (find_unique _ Gt cs (before_cut (S p)) c w); [done|done|done|by eexists| |done| |by symmetry].
    { intros z. by rewrite Z.ltb_lt, Z.compare_gt_iff. }
    intros i x Ex Hi [n Hn]. rewrite Hk. destruct (child_key _ _ _ _ Hc Ex) as [_ H].
    destruct (H n Hn) as (v & _ & Hq & _).
    assert (n < cut L (S p) i)%nat as Hlt.
    { unfold before_cut in Hn. destruct (cut L (S p) i); [done|]. injection Hn as <-. lia. }
    apply (pick_before _ _ _ _ _ Hlt) in Hq as (q & Hq & Eq).
    rewrite (cmp_antisym (cmp:=cmp) (w_key x)). change (w_key x) with (w_key x, v).1.
    rewrite (tagged_lt q p i c (w_key x, v) e); [done|done|done|].
    destruct (decide (q = p)) as [->|]; [simplify_eq|lia].
Qed.

(** ** The position of the merging iterator *)

Definition merge_rep (m : MergingIterator It) (o : option nat) : Prop :=
  match o with
  | None => current_ m = None /\ exists f, children_at (children_ m) f
  | Some p => exists c e, L !! p = Some (c, e) /\ current_ m = Some c
      /\ (direction_ m = kForward /\ children_at (children_ m) (after_cut p)
          \/ direction_ m = kReverse /\ children_at (children_ m) (before_cut (S p)))
  end.

Lemma merge_rep_children m o : merge_rep m o -> exists f, children_at (children_ m) f.
Proof. destruct o as [p|]; [|by intros [_ H]]. intros (c & e & _ & _ & [[_ H]|[_ H]]); by eexists. Qed.

Lemma forward_rep cs p : (p <= length L)%nat -> children_at cs (after_cut p) ->
  merge_rep (mkMerging cs (fst <$> L !! p) kForward) (index es p).
Proof.
  intros Hp Hc. unfold index. rewrite length_map. case_decide as Hlt.
  - destruct (lookup_lt_is_Some_2 L p Hlt) as [[c e] E]. exists c, e. cbn. rewrite E. split; [done|]. split; [done|].
    by left.
  - rewrite lookup_ge_None_2 by lia. split; [done|]. by eexists.
Qed.

Lemma reverse_rep cs p : (p <= length L)%nat -> children_at cs (before_cut p) ->
  merge_rep (mkMerging cs (q ← index_before p; fst <$> L !! q) kReverse) (index_before p).
Proof.
  intros Hp Hc. destruct p as [|p]; cbn; [split; [done|by eexists]|].
  destruct (lookup_lt_is_Some_2 L p ltac:(lia)) as [[c e] E]. exists c, e. rewrite E. split; [done|]. split; [done|].
  by right.
Qed.

Lemma for_children_at op cs f g : children_at cs f ->
  (forall i w, IteratorSpec It valid cmp (pick i L) (reps i) -> w_rep (rep := reps i) w (f i) ->
    exists w', op i w = Ret w' /\ w_rep (rep := reps i) w' (g i)) ->
  exists cs', for_children op 0 cs = Ret cs' /\ children_at cs' g.
Proof.
  intros Hc Hop. destruct (for_children_spec op (fun i w => w_rep (rep := reps i) w (g i)) cs 0) as (cs' & E & Hl & HQ).
  - intros i w Ew. apply Hop; [by eapply child_spec|]. by apply Hc.
  - exists cs'. split; [done|]. split; [rewrite Hl; apply Hc|]. exact HQ.
Qed.

Lemma children_at_insert cs f g c w : children_at cs f -> (c < length cs)%nat ->
  w_rep (rep := reps c) w (g c) -> (forall i, i <> c -> g i = f i) -> children_at (<[c := w]> cs) g.
Proof.
  intros [Hl Hf] Hlt Hw Hg. split; [by rewrite length_insert|]. intros i x E.
  destruct (decide (i = c)) as [->|Hi].
  - rewrite list_lookup_insert_eq in E by done. by injection E as <-.
  - rewrite list_lookup_insert_ne in E by done. rewrite Hg by done. by apply Hf.
Qed.

Lemma after_cut_seek t i : index (pick i L) (lower_bound cmp t (pick i L)) = after_cut (lower_bound cmp t es) i.
Proof. unfold after_cut. by rewrite lower_bound_seek. Qed.

Lemma seek_le t : (lower_bound cmp t es <= length L)%nat.
Proof. pose proof (lower_bound_le cmp t es) as H. by rewrite length_map in H. Qed.

Lemma m_SeekToFirst_spec m o : merge_rep m o ->
  exists m', m_SeekToFirst compare_ m = Ret m' /\ merge_rep m' (index es 0).
Proof.
  intros (f & Hc)%merge_rep_children. unfold m_SeekToFirst.
  destruct (for_children_at (fun _ w => w_SeekToFirst w) _ f (after_cut 0) Hc) as (cs & -> & Hcs).
  { intros i w HS Hw. destruct (w_SeekToFirst_spec w _ Hw) as (w' & -> & Hw'). exists w'. by split. }
  cbn [mbind res_bind]. rewrite (FindSmallest_spec _ 0) by (done || lia). cbn [mbind res_bind].
  eexists. split; [done|]. apply forward_rep; [lia|done].
Qed.

Lemma last_before (l : entries) : index l (length l - 1) = index_before (length l).
Proof. destruct l as [|e l]; [done|]. rewrite index_some by (cbn; lia). cbn. by rewrite Nat.sub_0_r. Qed.

Lemma m_SeekToLast_spec m o : merge_rep m o ->
  exists m', m_SeekToLast compare_ m = Ret m' /\ merge_rep m' (index es (length es - 1)).
Proof.
  intros (f & Hc)%merge_rep_children. unfold m_SeekToLast.
  destruct (for_children_at (fun _ w => w_SeekToLast w) _ f (before_cut (length L)) Hc) as (cs & -> & Hcs).
  { intros i w HS Hw. destruct (w_SeekToLast_spec w _ Hw) as (w' & -> & Hw'). exists w'. split; [done|].
    unfold before_cut. by rewrite cut_length, <- last_before. }
  cbn [mbind res_bind]. rewrite (FindLargest_spec _ (length L)) by (done || lia). cbn [mbind res_bind].
  eexists. split; [done|]. rewrite last_before, length_map. apply reverse_rep; [lia|done].
Qed.

Lemma m_Seek_spec m o t : merge_rep m o -> valid t ->
  exists m', m_Seek compare_ m t = Ret m' /\ merge_rep m' (index es (lower_bound cmp t es)).
Proof.
  intros (f & Hc)%merge_rep_children Ht. unfold m_Seek.
  destruct (for_children_at (fun _ w => w_Seek w t) _ f (after_cut (lower_bound cmp t es)) Hc) as (cs & -> & Hcs).
  { intros i w HS Hw. destruct (w_Seek_spec w _ t Ht Hw) as (w' & -> & Hw'). exists w'. split; [done|].
    by rewrite <- after_cut_seek. }
  pose proof (seek_le t). cbn [mbind res_bind]. rewrite (FindSmallest_spec _ _) by done. cbn [mbind res_bind].
  eexists. split; [done|]. by apply forward_rep.
Qed.

Lemma current_spec m p : merge_rep m (Some p) -> exists c w e, L !! p = Some (c, e)
  /\ current_child m = Ret (c, w) /\ children_ m !! c = Some w /\ w_key w = e.1 /\ w_value w = Ret e.2.
Proof.
  intros (c & e & E & Hcur & Hc). unfold current_child. rewrite Hcur. cbn [of_option mbind res_bind].
  assert (exists f, children_at (children_ m) f /\ f c = Some (cut L p c)) as (f & Hf & Hfc).
  { destruct Hc as [[_ Hc]|[_ Hc]]; eexists; (split; [exact Hc|]); [by apply (after_cut_own _ _ e)|].
    unfold before_cut. by rewrite (cut_S _ _ _ _ _ E), decide_True. }
  destruct (owner_child _ _ _ _ _ Hf E) as [w Ew]. exists c, w, e. rewrite Ew. split; [done|]. split; [done|].
  split; [done|]. destruct (child_key _ _ _ _ Hf Ew) as [_ H]. destruct (H _ Hfc) as (v & q & Hq & _ & Hv).
  rewrite (pick_own _ _ _ _ E) in Hq. injection Hq as ->. by split.
Qed.

(** Turning round puts the children where the new direction has them. *)
Lemma turn_forward_spec cs p c e : children_at cs (before_cut (S p)) -> L !! p = Some (c, e) ->
  exists cs', for_children (turn_forward compare_ c e.1) 0 cs = Ret cs' /\ children_at cs' (after_cut p).
Proof.
  intros Hc E. pose proof (tagged_valid _ _ _ E) as Hv. apply (for_children_at _ _ _ _ Hc).
  intros i w HS Hw. unfold turn_forward. case_decide as Hi.
  - subst i. exists w. split; [done|]. rewrite (after_cut_own _ _ _ E). unfold before_cut in Hw.
    by rewrite (cut_S _ _ _ _ _ E), decide_True in Hw.
  - destruct (w_Seek_spec w _ e.1 Hv Hw) as (w' & -> & Hw'). cbn [mbind res_bind].
    rewrite (lower_bound_key _ _ _ i E) in Hw'. fold (after_cut p i) in Hw'.
    rewrite (w_Valid_spec _ _ Hw'). destruct (after_cut p i) as [n|] eqn:Hn.
    2:{ rewrite bool_decide_false by (by intros [? ?]). exists w'. by split. }
    rewrite bool_decide_true by done. destruct (w_at _ _ Hw') as (v & Ev & _).
    apply after_cut_some in Hn as ->. destruct (pick_at _ _ _ _ Ev) as (q & Hq & Eq).
    destruct (compares e.1 (w_key w') Hv) as (r & -> & Hr); [by apply tagged_valid in Eq|]. cbn [mbind res_bind].
    change (w_key w') with (w_key w', v).1 in Hr.
    rewrite (tagged_lt p q c i e (w_key w', v)) in Hr; [|done..|destruct (decide (q = p)) as [->|]; [simplify_eq|lia]].
    assert (r < 0) by exact Hr. rewrite decide_False by lia. exists w'. split; [done|].
    exact Hw'.
Qed.

Lemma turn_reverse_spec cs p c e : children_at cs (after_cut p) -> L !! p = Some (c, e) ->
  exists cs', for_children (turn_reverse c e.1) 0 cs = Ret cs' /\ children_at cs' (before_cut (S p)).
Proof.
  intros Hc E. pose proof (tagged_valid _ _ _ E) as Hv. apply (for_children_at _ _ _ _ Hc).
  intros i w HS Hw. unfold turn_reverse. assert (before_cut (S p) i = if decide (i = c) then Some (cut L p c) else before_cut p i) as ->.
  { unfold before_cut. rewrite (cut_S _ _ _ _ _ E). case_decide; [by subst|done]. }
  case_decide as Hi.
  - subst i. exists w. split; [done|]. by rewrite (after_cut_own _ _ _ E) in Hw.
  - destruct (w_Seek_spec w _ e.1 Hv Hw) as (w' & -> & Hw'). cbn [mbind res_bind].
    rewrite (lower_bound_key _ _ _ i E) in Hw'. rewrite (w_Valid_spec _ _ Hw').
    destruct (decide (cut L p i < length (pick i L))%nat) as [Hlt|Hlt];
      [rewrite index_some in * by done|rewrite index_none in * by lia].
    + rewrite bool_decide_true by done. destruct (w_Prev_spec _ _ Hw') as (w2 & -> & Hw2). by exists w2.
    + rewrite bool_decide_false by (by intros [? ?]). destruct (w_SeekToLast_spec _ _ Hw') as (w2 & -> & Hw2).
      exists w2. split; [done|]. rewrite last_before in Hw2. unfold before_cut. pose proof (cut_le L p i).
      by replace (cut L p i) with (length (pick i L)) by lia.
Qed.

Lemma m_Next_spec m p : merge_rep m (Some p) ->
  exists m', m_Next compare_ m = Ret m' /\ merge_rep m' (index es (S p)).
Proof.
  intros Hr. destruct (current_spec _ _ Hr) as (c & w & e & E & Hcur & Ew & Hk & _).
  destruct Hr as (c' & e' & E' & _ & Hc). rewrite E in E'. injection E' as <- <-.
  unfold m_Next. rewrite Hcur. cbn [mbind res_bind]. rewrite Hk.
  assert (exists cs, (if decide (direction_ m = kForward) then Ret (children_ m)
    else for_children (turn_forward compare_ c e.1) 0 (children_ m)) = Ret cs /\ children_at cs (after_cut p))
    as (cs & -> & Hcs).
  { destruct Hc as [[-> Hc]|[-> Hc]]; [by exists (children_ m)|]. by apply turn_forward_spec. }
  cbn [mbind res_bind]. destruct (owner_child _ _ _ _ _ Hcs E) as [w1 Ew1]. rewrite Ew1. cbn [of_option mbind res_bind].
  pose proof (child_spec _ _ _ _ Hcs Ew1) as HS. pose proof Hcs as [_ Hw1]. specialize (Hw1 c w1 Ew1).
  rewrite (after_cut_own _ _ _ E) in Hw1. destruct (w_Next_spec _ _ Hw1) as (w2 & -> & Hw2). cbn [mbind res_bind].
  pose proof (lookup_lt_Some _ _ _ E).
  assert (children_at (<[c := w2]> cs) (after_cut (S p))) as Hcs'.
  { apply (children_at_insert _ (after_cut p)); [done|by eapply lookup_lt_Some| |].
    - unfold after_cut. by rewrite (cut_S _ _ _ _ _ E), decide_True.
    - intros i Hi. unfold after_cut. by rewrite (cut_S _ _ _ _ _ E), decide_False. }
  rewrite (FindSmallest_spec _ (S p)) by (done || lia). cbn [mbind res_bind].
  eexists. split; [done|]. apply forward_rep; [lia|done].
Qed.

Lemma m_Prev_spec m p : merge_rep m (Some p) ->
  exists m', m_Prev compare_ m = Ret m' /\ merge_rep m' (index_before p).
Proof.
  intros Hr. destruct (current_spec _ _ Hr) as (c & w & e & E & Hcur & Ew & Hk & _).
  destruct Hr as (c' & e' & E' & _ & Hc). rewrite E in E'. injection E' as <- <-.
  unfold m_Prev. rewrite Hcur. cbn [mbind res_bind]. rewrite Hk.
  assert (exists cs, (if decide (direction_ m = kReverse) then Ret (children_ m)
    else for_children (turn_reverse c e.1) 0 (children_ m)) = Ret cs /\ children_at cs (before_cut (S p)))
    as (cs & -> & Hcs).
  { destruct Hc as [[-> Hc]|[-> Hc]]; [|by exists (children_ m)]. by apply turn_reverse_spec. }
  cbn [mbind res_bind]. destruct (owner_child _ _ _ _ _ Hcs E) as [w1 Ew1]. rewrite Ew1. cbn [of_option mbind res_bind].
  pose proof (child_spec _ _ _ _ Hcs Ew1) as HS. pose proof Hcs as [_ Hw1]. specialize (Hw1 c w1 Ew1).
  assert (before_cut (S p) c = Some (cut L p c)) as Hb
    by (unfold before_cut; by rewrite (cut_S _ _ _ _ _ E), decide_True).
  rewrite Hb in Hw1. destruct (w_Prev_spec _ _ Hw1) as (w2 & -> & Hw2). cbn [mbind res_bind].
  pose proof (lookup_lt_Some _ _ _ E).
  assert (children_at (<[c := w2]> cs) (before_cut p)) as Hcs'.
  { apply (children_at_insert _ (before_cut (S p))); [done|by eapply lookup_lt_Some|done|].
    intros i Hi. unfold before_cut. by rewrite (cut_S _ _ _ _ _ E), decide_False. }
  rewrite (FindLargest_spec _ p) by (done || lia). cbn [mbind res_bind].
  eexists. split; [done|]. apply reverse_rep; [lia|done].
Qed.

Lemma status_loop_ok cs : (forall w, w ∈ cs -> exists it, iter_ w = Some it /\ status it = Status.OK) ->
  status_loop cs Status.OK = Status.OK.
Proof.
  induction cs as [|w cs IH]; intros H; [done|]. cbn. destruct (H w) as (it & -> & ->); [left|]. cbn.
  apply IH. intros x Hx. apply H. by right.
Qed.

#[export] Instance merging_spec :
  @IteratorSpec (MergingIterator It) (MergingIterator_iterator compare_) valid cmp es merge_rep.
Proof.
  split.
  - intros m [p|]; [|by intros [E _]; cbn; unfold m_Valid; rewrite E]. intros (c & e & _ & E & _).
    cbn. unfold m_Valid. by rewrite E, !bool_decide_true by done.
  - intros m p Hr. destruct (current_spec _ _ Hr) as (c & w & e & E & Hcur & _ & Hk & Hv).
    exists e.1, e.2. rewrite <- surjective_pairing. split; [by apply es_at in E|]. cbn.
    unfold m_key, m_value. rewrite Hcur. cbn. by rewrite Hk, Hv.
  - apply m_SeekToFirst_spec.
  - apply m_SeekToLast_spec.
  - intros m o t. apply m_Seek_spec.
  - apply m_Next_spec.
  - apply m_Prev_spec.
  - intros m o (f & Hc)%merge_rep_children. apply status_loop_ok. intros w Hw.
    apply list_elem_of_lookup in Hw as [i Hi]. pose proof (child_spec _ _ _ _ Hc Hi) as HS.
    destruct Hc as [_ Hc]. destruct (Hc i w Hi) as (it & (E & _) & Hr). exists it. split; [done|]. by eapply spec_status.
Qed.

Lemma new_merging_spec its : length its = length ess ->
  (forall i it, its !! i = Some it -> exists o, reps i it o) ->
  exists m, new_MergingIterator its = Ret m /\ merge_rep m None.
Proof.
  intros Hl Hr. unfold new_MergingIterator.
  assert (forall its n, (forall i it, its !! i = Some it -> exists o, reps (n + i)%nat it o) ->
    (n + length its <= length ess)%nat ->
    exists ws, set_children its = Ret ws /\ length ws = length its
      /\ forall i w, ws !! i = Some w -> exists o, w_rep (rep := reps (n + i)%nat) w o) as H.
  { clear its Hl Hr. intros its. induction its as [|it its IH]; intros n Hr Hn; cbn [set_children].
    { by exists []. }
    cbn [length] in Hn. destruct (Hr 0%nat it eq_refl) as [o Ho]. rewrite Nat.add_0_r in Ho.
    destruct (lookup_lt_is_Some_2 ess n ltac:(lia)) as [l El]. pose proof (specs _ _ El) as HS.
    unfold Set_. destruct (Update_spec new_IteratorWrapper it o Ho) as (w & -> & Hw). cbn [mbind res_bind].
    destruct (IH (S n)) as (ws & -> & Hlw & HQ); [|lia|].
    { intros i it' Hi. specialize (Hr (S i) it' Hi). by replace (S n + i)%nat with (n + S i)%nat by lia. }
    cbn [mbind res_bind]. exists (w :: ws). split; [done|]. split; [cbn; lia|].
    intros [|i] w'; cbn; [intros [= <-]; rewrite Nat.add_0_r; by exists o|].
    intros Hi. replace (n + S i)%nat with (S n + i)%nat by lia. by apply HQ. }
  destruct (H its 0%nat) as (ws & -> & Hlw & HQ); [done|lia|]. cbn [mbind res_bind].
  eexists. split; [done|]. split; [done|].
  assert (exists f, forall i w, ws !! i = Some w -> w_rep (rep := reps i) w (f i)) as [f Hf].
  { clear -HQ. revert HQ. generalize reps. induction ws as [|w ws IH]; intros R HQ.
    - by exists (fun _ => None).
    - destruct (IH (fun i => R (S i))) as [f Hf]. { intros i w' Hi. apply (HQ (S i) w' Hi). }
      destruct (HQ 0%nat w eq_refl) as [o Ho]. exists (fun i => match i with O => o | S i => f i end).
      intros [|i] w'; cbn; [by intros [= <-]|by apply Hf]. }
  exists f. cbn. split; [lia|done].
Qed.
End merging_spec.

(** ** NewMergingIterator *)

Section built.
Context {It : Type} `{!Iterator It} {compare_ : bytes -> bytes -> res Z}.
Context {cmp : bytes -> bytes -> comparison} {valid : bytes -> Prop}.
Context `{!CmpOrder cmp} `{!Compares compare_ cmp valid}.

(** Iterators that each start somewhere in their own entries. *)
Definition iterate (its : list It) (ess : list entries) : Prop :=
  Forall2 (fun it es => exists rep o, IteratorSpec It valid cmp es rep /\ rep it o) its ess.

#[local] Instance merging_ops : Iterator (MergingIterator It) := MergingIterator_iterator compare_.

Lemma choose_reps its ess : iterate its ess -> exists reps : nat -> It -> option nat -> Prop,
  (forall i l, ess !! i = Some l -> IteratorSpec It valid cmp l (reps i))
  /\ forall i it, its !! i = Some it -> exists o, reps i it o.
Proof.
  induction 1 as [|it es its ess (rep & o & HS & Hr) _ (reps & H1 & H2)]; [by exists (fun _ _ _ => False)|].
  exists (fun i => match i with O => rep | S i => reps i end). split.
  - intros [|i] l; cbn; [by intros [= <-]|by apply H1].
  - intros [|i] it'; cbn; [intros [= <-]; by exists o|by apply H2].
Qed.

Lemma merging_opens its ess es :
  iterate its ess -> Forall (sorted_keys cmp) ess -> sorted_keys cmp es -> es ≡ₚ concat ess ->
  Forall (fun e => valid e.1) es ->
  exists it rep o, NewMergingIterator its = Ret it
    /\ IteratorSpec (EmptyIterator + It + MergingIterator It) valid cmp es rep /\ rep it o.
Proof.
  intros Hits Hss Hs HP Hv. pose proof (list.Forall2_length _ _ _ Hits) as Hlen.
  destruct (tagging cmp es ess Hs Hss HP) as (L & <- & Hpick & Hown).
  destruct (choose_reps _ _ Hits) as (reps & Hreps & Hat).
  destruct its as [|it [|it2 its]].
  - destruct ess; [|done]. cbn in HP. apply Permutation_nil_r in HP. rewrite HP.
    exists (inl (inl NewEmptyIterator)). eexists. exists None. split; [done|].
    split; [apply spec_inl, spec_inl, EmptyIterator_spec|]. cbn. by split.
  - destruct ess as [|l [|]]; [done| |done]. cbn in HP. rewrite app_nil_r in HP.
    apply (sorted_unique cmp) in HP; [|done|by apply Forall_inv in Hss]. rewrite HP.
    pose proof (Hreps 0%nat l eq_refl) as HS. destruct (Hat 0%nat it eq_refl) as [o Ho].
    exists (inl (inr it)). eexists. exists o. split; [done|]. split; [by apply spec_inl, spec_inr, HS|]. exact Ho.
  - destruct (new_merging_spec cmp valid L ess reps Hreps (it :: it2 :: its))
      as (m & Hm & Hr); [done|done|].
    exists (inr m). eexists. exists None. unfold NewMergingIterator. rewrite Hm. cbn [mbind res_bind].
    split; [done|]. split; [by apply spec_inr, merging_spec|]. exact Hr.
Qed.

(** C23: the merging iterator of children over sorted entries, with no key in
    two of them, is a cursor over their sorted union: turning round between
    [Next] and [Prev] at any position, seeking, and scanning both ways. *)
Theorem merging_iterates its ess es :
  iterate its ess -> Forall (sorted_keys cmp) ess -> sorted_keys cmp es -> es ≡ₚ concat ess ->
  Forall (fun e => valid e.1) es ->
  exists it rep o, NewMergingIterator its = Ret it
    /\ IteratorSpec (EmptyIterator + It + MergingIterator It) valid cmp es rep /\ rep it o
    /\ (it' ← SeekToFirst it; walk (S (length es)) it') = Ret es
    /\ (it' ← SeekToLast it; walk_back (S (length es)) it') = Ret (reverse es).
Proof.
  intros H1 H2 H3 H4 H5. destruct (merging_opens its ess es H1 H2 H3 H4 H5) as (it & rep & o & E & HS & Hr).
  exists it, rep, o. split; [done|]. split; [done|]. split; [done|].
  destruct (scan_forward it o Hr) as (it1 & -> & W1). destruct (scan_backward it o Hr) as (it2 & -> & W2).
  by split.
Qed.
End built.

(** Two blocks, merged. *)
Definition left_entries : entries := [(lit "a", lit "1"); (lit "c", lit "3")].
Definition right_entries : entries := [(lit "b", lit "2")].


#[local] Instance block_ops : Iterator Iter := Iter_iterator user_Compare.
#[local] Instance block_merging_ops : Iterator (MergingIterator Iter) := MergingIterator_iterator user_Compare.

Definition merge_two (a b : bytes) : res (EmptyIterator + Iter + MergingIterator Iter) :=
  a ← new_Block a;
  a ← NewIterator a;
  b ← new_Block b;
  b ← NewIterator b;
  match a, b with
  | inr a, inr b => NewMergingIterator [a; b]
  | _, _ => Undef
  end.

Lemma merging_iterates_witness :
  (it ← merge_two (snd (Finish (add_entries 16 new_BlockBuilder left_entries)))
          (snd (Finish (add_entries 16 new_BlockBuilder right_entries)));
   it ← SeekToLast it;
   walk_back 4 it)
  = Ret [(lit "c", lit "3"); (lit "b", lit "2"); (lit "a", lit "1")].
Proof.
  assert (@sorted_entries ucmp (fun _ => True) left_entries) as Hl.
  { split; [repeat constructor|]. constructor; [constructor; [constructor|constructor]|].
    constructor; [reflexivity|constructor]. }
  assert (@sorted_entries ucmp (fun _ => True) right_entries) as Hr.
  { split; [repeat constructor|]. constructor; [constructor|constructor]. }
  destruct (built_block_opens (compare_ := user_Compare) 16 left_entries ltac:(lia) Hl ltac:(vm_compute; reflexivity))
    as (b1 & it1 & rep1 & E1 & N1 & S1 & R1 & _).
  destruct (built_block_opens (compare_ := user_Compare) 16 right_entries ltac:(lia) Hr ltac:(vm_compute; reflexivity))
    as (b2 & it2 & rep2 & E2 & N2 & S2 & R2 & _).
  unfold merge_two. rewrite E1. cbn [mbind res_bind]. rewrite N1. cbn [mbind res_bind].
  rewrite E2. cbn [mbind res_bind]. rewrite N2. cbn [mbind res_bind].
  destruct (merging_iterates (compare_ := user_Compare) (cmp := ucmp) (valid := fun _ => True) [it1; it2]
    [left_entries; right_entries] [(lit "a", lit "1"); (lit "b", lit "2"); (lit "c", lit "3")])
    as (it & rep & o & E & _ & _ & _ & W).
  - constructor; [exists rep1, None; split; [exact S1|exact R1]|].
    constructor; [exists rep2, None; split; [exact S2|exact R2]|constructor].
  - constructor; [|constructor; [|constructor]].
    + constructor; [constructor; [constructor|constructor]|]. constructor; [reflexivity|constructor].
    + constructor; [constructor|constructor].
  - constructor; [constructor; [constructor; [constructor|constructor]|]|].
    + constructor; [reflexivity|constructor].
    + constructor; [reflexivity|constructor; [reflexivity|constructor]].
  - cbn. apply perm_skip, perm_swap.
  - repeat constructor.
  - rewrite E. exact W.
Defined.
