(* ===== verification/TwoLevel.v ===== *)
(** * TwoLevel: table/two_level_iterator.h, table/two_level_iterator.cc

    An iterator over an index whose values name blocks, and over the block of
    the current index entry: a cursor over the concatenation of the blocks.
    [block_function_] is the caller's, and so a parameter. *)

From S2P Require Import Prelude Coding Status SkipList Iterator.

Section two_level.
Context {I D : Type} `{!Iterator I} `{!Iterator D}.
Context (block_function_ : bytes -> res D).
(** A bound on the rounds of the loops that skip empty blocks. *)
Context (fuel : nat).

Record TwoLevelIterator := mkTwoLevel {
  tl_status_ : Status.t;
  index_iter_ : IteratorWrapper I;
  data_iter_ : IteratorWrapper D;
  data_block_handle_ : bytes;
}.

Definition new_TwoLevelIterator (index_iter : I) : res TwoLevelIterator :=
  w ← Set_ new_IteratorWrapper (Some index_iter);
  Ret (mkTwoLevel Status.OK w new_IteratorWrapper []).

Definition t_Valid (t : TwoLevelIterator) : bool := w_Valid (data_iter_ t).
Definition t_key (t : TwoLevelIterator) : bytes := w_key (data_iter_ t).
Definition t_value (t : TwoLevelIterator) : res bytes := w_value (data_iter_ t).

(** The index iterator is never null. *)
Definition t_status (t : TwoLevelIterator) : Status.t :=
  match iter_ (index_iter_ t) with
  | None => tl_status_ t
  | Some index =>
      if Status.ok (status index) then
        match iter_ (data_iter_ t) with
        | Some data => if Status.ok (status data) then tl_status_ t else status data
        | None => tl_status_ t
        end
      else status index
  end.

Definition SaveError (t : TwoLevelIterator) (s : Status.t) : TwoLevelIterator :=
  if Status.ok (tl_status_ t) && negb (Status.ok s)
  then mkTwoLevel s (index_iter_ t) (data_iter_ t) (data_block_handle_ t) else t.

Definition SetDataIterator (t : TwoLevelIterator) (data_iter : option D) : res TwoLevelIterator :=
  let t := match iter_ (data_iter_ t) with Some it => SaveError t (status it) | None => t end in
  w ← Set_ (data_iter_ t) data_iter;
  Ret (mkTwoLevel (tl_status_ t) (index_iter_ t) w (data_block_handle_ t)).

Definition InitDataBlock (t : TwoLevelIterator) : res TwoLevelIterator :=
  if w_Valid (index_iter_ t) then
    handle ← w_value (index_iter_ t);
    if decide (is_Some (iter_ (data_iter_ t)) /\ Slice.compare handle (data_block_handle_ t) = 0) then Ret t
    else
      iter ← block_function_ handle;
      SetDataIterator (mkTwoLevel (tl_status_ t) (index_iter_ t) (data_iter_ t) handle) (Some iter)
  else SetDataIterator t None.

Definition with_index (t : TwoLevelIterator) (w : IteratorWrapper I) : TwoLevelIterator :=
  mkTwoLevel (tl_status_ t) w (data_iter_ t) (data_block_handle_ t).
Definition with_data (t : TwoLevelIterator) (w : IteratorWrapper D) : TwoLevelIterator :=
  mkTwoLevel (tl_status_ t) (index_iter_ t) w (data_block_handle_ t).

(** [if (data_iter_.iter() != NULL) data_iter_.step()] *)
Definition on_data (step : IteratorWrapper D -> res (IteratorWrapper D)) (t : TwoLevelIterator) : res TwoLevelIterator :=
  match iter_ (data_iter_ t) with
  | Some _ => w ← step (data_iter_ t); Ret (with_data t w)
  | None => Ret t
  end.

(** The condition of both loops. *)
Definition at_block_end (t : TwoLevelIterator) : bool :=
  match iter_ (data_iter_ t) with Some _ => negb (w_Valid (data_iter_ t)) | None => true end.

Fixpoint skip_forward (n : nat) (t : TwoLevelIterator) : res TwoLevelIterator :=
  match n with
  | O => NoFuel
  | S n =>
      if at_block_end t then
        if w_Valid (index_iter_ t) then
          w ← w_Next (index_iter_ t);
          t ← InitDataBlock (with_index t w);
          t ← on_data w_SeekToFirst t;
          skip_forward n t
        else SetDataIterator t None
      else Ret t
  end.
Definition SkipEmptyDataBlocksForward (t : TwoLevelIterator) : res TwoLevelIterator := skip_forward fuel t.

Fixpoint skip_backward (n : nat) (t : TwoLevelIterator) : res TwoLevelIterator :=
  match n with
  | O => NoFuel
  | S n =>
      if at_block_end t then
        if w_Valid (index_iter_ t) then
          w ← w_Prev (index_iter_ t);
          t ← InitDataBlock (with_index t w);
          t ← on_data w_SeekToLast t;
          skip_backward n t
        else SetDataIterator t None
      else Ret t
  end.
Definition SkipEmptyDataBlocksBackward (t : TwoLevelIterator) : res TwoLevelIterator := skip_backward fuel t.

Definition t_Seek (t : TwoLevelIterator) (target : bytes) : res TwoLevelIterator :=
  w ← w_Seek (index_iter_ t) target;
  t ← InitDataBlock (with_index t w);
  t ← on_data (fun w => w_Seek w target) t;
  SkipEmptyDataBlocksForward t.

Definition t_SeekToFirst (t : TwoLevelIterator) : res TwoLevelIterator :=
  w ← w_SeekToFirst (index_iter_ t);
  t ← InitDataBlock (with_index t w);
  t ← on_data w_SeekToFirst t;
  SkipEmptyDataBlocksForward t.

Definition t_SeekToLast (t : TwoLevelIterator) : res TwoLevelIterator :=
  w ← w_SeekToLast (index_iter_ t);
  t ← InitDataBlock (with_index t w);
  t ← on_data w_SeekToLast t;
  SkipEmptyDataBlocksBackward t.

Definition t_Next (t : TwoLevelIterator) : res TwoLevelIterator :=
  w ← w_Next (data_iter_ t);
  SkipEmptyDataBlocksForward (with_data t w).

Definition t_Prev (t : TwoLevelIterator) : res TwoLevelIterator :=
  w ← w_Prev (data_iter_ t);
  SkipEmptyDataBlocksBackward (with_data t w).

#[export] Instance TwoLevelIterator_iterator : Iterator TwoLevelIterator := {
  Valid := t_Valid;
  SeekToFirst := t_SeekToFirst;
  SeekToLast := t_SeekToLast;
  Seek := t_Seek;
  Next := t_Next;
  Prev := t_Prev;
  key t := Ret (t_key t);
  value := t_value;
  status := t_status;
}.

(** ** A cursor over the blocks of the index *)

Context (valid : bytes -> Prop) (cmp : bytes -> bytes -> comparison) `{!CmpOrder cmp}.
(** The entries of the index, and the block each handle names. *)
Context (idx : entries) (block_of : bytes -> entries).
Context (irep : I -> option nat -> Prop) (drep : bytes -> D -> option nat -> Prop).
Context `{!IteratorSpec I valid cmp idx irep}.
Context (Hspec : forall h, h ∈ map snd idx -> IteratorSpec D valid cmp (block_of h) (drep h)).
Context (Hopen : forall h, h ∈ map snd idx -> exists d o, block_function_ h = Ret d /\ drep h d o).
Context (Hfuel : (length idx < fuel)%nat).

Definition blocks : list entries := map (fun e => block_of e.2) idx.
Definition all_blocks : entries := concat blocks.

(** Each index key is at or past the keys of its block and below later ones. *)
Definition separates : Prop :=
  forall i sep h, idx !! i = Some (sep, h) ->
    Forall (fun e => cmp_le cmp e.1 sep) (block_of h)
    /\ Forall (fun e => cmp_lt cmp sep e.1) (concat (drop (S i) blocks)).
Context (Hsep : separates).

Definition base (i : nat) : nat := length (concat (take i blocks)).

Lemma handle_elem i sep h : idx !! i = Some (sep, h) -> h ∈ map snd idx.
Proof. intros E. apply list_elem_of_lookup. exists i. by rewrite list_lookup_fmap, E. Qed.

Lemma block_at i sep h : idx !! i = Some (sep, h) -> blocks !! i = Some (block_of h).
Proof. intros E. unfold blocks. by rewrite list_lookup_fmap, E. Qed.

Lemma length_blocks : length blocks = length idx.
Proof. apply length_map. Qed.

Lemma base_S i b : blocks !! i = Some b -> base (S i) = (base i + length b)%nat.
Proof.
  intros E. unfold base. rewrite (take_S_r _ _ _ E), concat_app, length_app. cbn. by rewrite app_nil_r.
Qed.

Lemma base_end : base (length idx) = length all_blocks.
Proof. unfold base, all_blocks. by rewrite <- length_blocks, firstn_all. Qed.

Lemma all_blocks_split i b : blocks !! i = Some b ->
  all_blocks = concat (take i blocks) ++ b ++ concat (drop (S i) blocks).
Proof.
  intros E. unfold all_blocks. rewrite <- (take_drop_middle _ _ _ E) at 1. by rewrite concat_app.
Qed.

Lemma all_blocks_at i n b e : blocks !! i = Some b -> b !! n = Some e -> all_blocks !! (base i + n)%nat = Some e.
Proof.
  intros E En. rewrite (all_blocks_split _ _ E). unfold base. rewrite lookup_app_r by lia.
  replace (_ - _)%nat with n by lia. by apply lookup_app_l_Some.
Qed.

Lemma base_le i b n : blocks !! i = Some b -> (n <= length b)%nat -> (base i + n <= length all_blocks)%nat.
Proof. intros E Hn. rewrite (all_blocks_split _ _ E), !length_app. unfold base. lia. Qed.

(** The data iterator: none, or one over the block of the handle kept. *)
Definition data_ok (t : TwoLevelIterator) : Prop :=
  match iter_ (data_iter_ t) with
  | None => w_Valid (data_iter_ t) = false
  | Some _ => data_block_handle_ t ∈ map snd idx
      /\ exists o, w_rep (rep := drep (data_block_handle_ t)) (data_iter_ t) o
  end.

(** On block [i], the data iterator at [o]; past the blocks there is none. *)
Definition on_block (t : TwoLevelIterator) (i : nat) (o : option nat) : Prop :=
  tl_status_ t = Status.OK /\ w_rep (rep := irep) (index_iter_ t) (Some i)
  /\ exists sep h, idx !! i = Some (sep, h) /\ data_block_handle_ t = h
       /\ w_rep (rep := drep h) (data_iter_ t) o.

Definition no_block (t : TwoLevelIterator) : Prop :=
  tl_status_ t = Status.OK /\ (exists o, w_rep (rep := irep) (index_iter_ t) o)
  /\ iter_ (data_iter_ t) = None /\ w_Valid (data_iter_ t) = false.

Definition two_rep (t : TwoLevelIterator) (o : option nat) : Prop :=
  match o with
  | None => no_block t
  | Some p => exists i n b, on_block t i (Some n) /\ blocks !! i = Some b /\ (n < length b)%nat /\ p = (base i + n)%nat
  end.

(** What every state has in common. *)
Definition usable (t : TwoLevelIterator) : Prop :=
  tl_status_ t = Status.OK /\ (exists o, w_rep (rep := irep) (index_iter_ t) o) /\ data_ok t.

Lemma on_block_usable t i o : on_block t i o -> usable t.
Proof.
  intros (Hs & Hi & sep & h & E & Hh & Hd). split; [done|]. split; [by eexists|]. unfold data_ok.
  pose proof Hd as (it & (Eit & _) & _). rewrite Eit, Hh. split; [by eapply handle_elem|by exists o].
Qed.

Lemma no_block_usable t : no_block t -> usable t.
Proof. intros (Hs & Hi & Hd & Hv). split; [done|]. split; [done|]. unfold data_ok. by rewrite Hd. Qed.

Lemma two_rep_usable t o : two_rep t o -> usable t.
Proof.
  destruct o as [p|]; [|apply no_block_usable]. intros (i & n & b & H & _). by eapply on_block_usable.
Qed.

Lemma SaveError_OK t s : s = Status.OK -> SaveError t s = t.
Proof. intros ->. unfold SaveError. cbn. by rewrite andb_false_r. Qed.

(** Replacing the data iterator of a usable state saves no error. *)
Lemma SetDataIterator_eq t o : usable t ->
  SetDataIterator t o = (w ← Set_ (data_iter_ t) o; Ret (mkTwoLevel (tl_status_ t) (index_iter_ t) w (data_block_handle_ t))).
Proof.
  intros (_ & _ & Hd). unfold SetDataIterator, data_ok in *.
  destruct (iter_ (data_iter_ t)) as [d|] eqn:Ed; [|done]. destruct Hd as (Hh & o' & it & (Eit & _) & Hr).
  rewrite Ed in Eit. injection Eit as <-. pose proof (Hspec _ Hh) as HS.
  by rewrite (SaveError_OK _ _ (spec_status _ _ Hr)).
Qed.

Lemma drop_data t : usable t -> exists t', SetDataIterator t None = Ret t' /\ no_block t'
  /\ index_iter_ t' = index_iter_ t.
Proof.
  intros Ht. rewrite (SetDataIterator_eq _ _ Ht). cbn. eexists. split; [done|]. split; [|done].
  by destruct Ht as (Hs & Hi & _).
Qed.

(** [InitDataBlock] of a state whose index iterator was moved to [o]. *)
Lemma InitDataBlock_spec t w o : usable t -> w_rep (rep := irep) w o ->
  exists t', InitDataBlock (with_index t w) = Ret t'
    /\ match o with Some i => exists od, on_block t' i od | None => no_block t' /\ w_rep (rep := irep) (index_iter_ t') None end.
Proof.
  intros (Hs & Hi & Hd) Hw. unfold InitDataBlock. cbn [with_index index_iter_ data_iter_ data_block_handle_ tl_status_].
  rewrite (w_Valid_spec _ _ Hw). destruct o as [i|].
  - rewrite bool_decide_true by done. destruct (w_at _ _ Hw) as (h & E & Hv). rewrite Hv. cbn [mbind res_bind].
    pose proof (handle_elem _ _ _ E) as Hh. case_decide as Hsame.
    + destruct Hsame as [[d Ed] Hc]. apply Z.compare_eq_iff in Hc. rewrite Slice.compare_sign in Hc.
      assert (h = data_block_handle_ t) as -> by by apply (cmp_eq (cmp:=bytes_cmp)).
      eexists. split; [done|]. unfold data_ok in Hd. rewrite Ed in Hd. destruct Hd as (_ & od & Hr).
      exists od. split; [done|]. split; [done|]. eexists _, _. split; [done|]. split; [done|exact Hr].
    + destruct (Hopen h Hh) as (d & od & -> & Hd'). cbn [mbind res_bind].
      assert (usable (mkTwoLevel (tl_status_ t) w (data_iter_ t) (data_block_handle_ t))) as Hu.
      { split; [done|]. split; [by eexists|]. exact Hd. }
      assert (SetDataIterator (mkTwoLevel (tl_status_ t) w (data_iter_ t) h) (Some d)
        = (x ← Set_ (data_iter_ t) (Some d); Ret (mkTwoLevel (tl_status_ t) w x h))) as ->.
      { pose proof (SetDataIterator_eq _ (Some d) Hu) as HE. unfold SetDataIterator in HE |- *.
        cbn [data_iter_ tl_status_ index_iter_ data_block_handle_] in *.
        unfold data_ok in Hd. destruct (iter_ (data_iter_ t)) as [d0|] eqn:Ed; [|done].
        destruct Hd as (Hh0 & o' & it & (Eit & _) & Hr). rewrite Ed in Eit. injection Eit as <-.
        pose proof (Hspec _ Hh0) as HS. by rewrite (SaveError_OK _ _ (spec_status _ _ Hr)). }
      pose proof (Hspec _ Hh) as HS. cbn [Set_]. destruct (Update_spec (data_iter_ t) d od Hd') as (x & -> & Hx).
      cbn [mbind res_bind]. eexists. split; [done|]. exists od. split; [done|]. split; [done|].
      eexists _, _. split; [done|]. split; [done|exact Hx].
  - rewrite bool_decide_false by (by intros [? ?]).
    destruct (drop_data (with_index t w)) as (t' & -> & Hn & Ei).
    { split; [done|]. split; [by eexists|]. exact Hd. }
    exists t'. split; [done|]. split; [done|]. by rewrite Ei.
Qed.

Lemma on_data_spec t i od step (pos : entries -> option nat) : on_block t i od ->
  (forall h w, h ∈ map snd idx -> IteratorSpec D valid cmp (block_of h) (drep h) ->
     w_rep (rep := drep h) w od -> exists w', step w = Ret w' /\ w_rep (rep := drep h) w' (pos (block_of h))) ->
  exists t' b, on_data step t = Ret t' /\ blocks !! i = Some b /\ on_block t' i (pos b).
Proof.
  intros (Hs & Hi & sep & h & E & Hh & Hd) Hstep. unfold on_data. pose proof Hd as (it & (Eit & _) & _). rewrite Eit.
  destruct (Hstep h _ (handle_elem _ _ _ E) (Hspec _ (handle_elem _ _ _ E)) Hd) as (w' & -> & Hw').
  cbn [mbind res_bind]. eexists _, (block_of h). split; [done|]. split; [by eapply block_at|].
  split; [done|]. split; [done|]. by exists sep, h.
Qed.

Lemma on_data_none step t : no_block t -> on_data step t = Ret t.
Proof. intros (_ & _ & Hd & _). unfold on_data. by rewrite Hd. Qed.

Lemma at_block_end_on t i o : on_block t i o -> at_block_end t = negb (bool_decide (is_Some o)).
Proof.
  intros (_ & _ & sep & h & E & _ & Hd). unfold at_block_end. pose proof Hd as (it & (Eit & _) & _). rewrite Eit.
  pose proof (Hspec _ (handle_elem _ _ _ E)) as HS. by rewrite (w_Valid_spec _ _ Hd).
Qed.

Lemma at_block_end_none t : no_block t -> at_block_end t = true.
Proof. intros (_ & _ & Hd & _). unfold at_block_end. by rewrite Hd. Qed.

Lemma on_block_rep t i n b : on_block t i (Some n) -> blocks !! i = Some b -> (n < length b)%nat ->
  two_rep t (Some (base i + n)%nat).
Proof. intros Hb E Hn. exists i, n, b. by split. Qed.

(** No block left: the data iterator is dropped. *)
Lemma skip_none k t : (0 < k)%nat -> no_block t -> w_rep (rep := irep) (index_iter_ t) None ->
  (exists t', skip_forward k t = Ret t' /\ two_rep t' None)
  /\ (exists t', skip_backward k t = Ret t' /\ two_rep t' None).
Proof.
  intros Hk Hn Hi. destruct k as [|k]; [lia|]. cbn [skip_forward skip_backward].
  rewrite (at_block_end_none _ Hn), (w_Valid_spec _ _ Hi), bool_decide_false by (by intros [? ?]).
  destruct (drop_data t (no_block_usable _ Hn)) as (t' & -> & Hn' & _). split; by exists t'.
Qed.

Lemma blocks_lt i b : blocks !! i = Some b -> (i < length idx)%nat.
Proof. intros E. apply lookup_lt_Some in E. by rewrite length_blocks in E. Qed.

Lemma skip_forward_spec k t i b n : on_block t i (index b n) -> blocks !! i = Some b -> (n <= length b)%nat ->
  (length idx - i < k)%nat ->
  exists t', skip_forward k t = Ret t' /\ two_rep t' (index all_blocks (base i + n)).
Proof.
  revert t i b n. induction k as [|k IH]; intros t i b n Ht Eb Hn Hk; [lia|]. cbn [skip_forward].
  rewrite (at_block_end_on _ _ _ Ht). pose proof (blocks_lt _ _ Eb) as Hi. destruct (decide (n < length b)%nat) as [Hlt|Hge].
  - rewrite index_some in * by done. rewrite bool_decide_true by done. cbn [negb]. exists t. split; [done|].
    rewrite index_some; [by eapply on_block_rep|]. pose proof (base_le _ _ (S n) Eb ltac:(lia)). lia.
  - rewrite (index_none b) in * by lia. rewrite bool_decide_false by (by intros [? ?]). cbn [negb].
    assert (n = length b) as -> by lia. rewrite <- (base_S _ _ Eb).
    pose proof Ht as (_ & Hw & _). rewrite (w_Valid_spec _ _ Hw), bool_decide_true by done.
    destruct (w_Next_spec _ _ Hw) as (w' & -> & Hw'). cbn [mbind res_bind].
    destruct (InitDataBlock_spec t w' _ (on_block_usable _ _ _ Ht) Hw') as (t1 & -> & Ht1). cbn [mbind res_bind].
    destruct (decide (S i < length idx)%nat) as [Hlt'|Hge'].
    + rewrite index_some in Ht1 by done. destruct Ht1 as [od Ht1].
      destruct (on_data_spec t1 (S i) od w_SeekToFirst (fun l => index l 0) Ht1) as (t2 & b2 & -> & Eb2 & Ht2).
      { intros h w Hh HS Hd. destruct (w_SeekToFirst_spec _ _ Hd) as (w2 & -> & Hw2). by exists w2. }
      cbn [mbind res_bind]. rewrite <- (Nat.add_0_r (base (S i))). apply (IH t2 (S i) b2 0%nat); [done|done|lia|lia].
    + rewrite index_none in Ht1 by lia. destruct Ht1 as [Hn1 Hi1]. rewrite (on_data_none _ _ Hn1). cbn [mbind res_bind].
      destruct (skip_none k t1) as [(t2 & -> & Ht2) _]; [lia|done|done|].
      exists t2. split; [done|]. rewrite index_none; [done|]. rewrite <- base_end.
      by replace (S i) with (length idx) by lia.
Qed.

Lemma skip_backward_spec k t i b n : on_block t i (index_before n) -> blocks !! i = Some b -> (n <= length b)%nat ->
  (S i < k)%nat ->
  exists t', skip_backward k t = Ret t' /\ two_rep t' (index_before (base i + n)).
Proof.
  revert t i b n. induction k as [|k IH]; intros t i b n Ht Eb Hn Hk; [lia|]. cbn [skip_backward].
  rewrite (at_block_end_on _ _ _ Ht). pose proof (blocks_lt _ _ Eb) as Hi. destruct n as [|n]; cbn [index_before] in Ht |- *.
  - rewrite bool_decide_false by (by intros [? ?]). cbn [negb]. rewrite Nat.add_0_r.
    pose proof Ht as (_ & Hw & _). rewrite (w_Valid_spec _ _ Hw), bool_decide_true by done.
    destruct (w_Prev_spec _ _ Hw) as (w' & -> & Hw'). cbn [mbind res_bind].
    destruct (InitDataBlock_spec t w' _ (on_block_usable _ _ _ Ht) Hw') as (t1 & -> & Ht1). cbn [mbind res_bind].
    destruct i as [|i]; cbn [index_before] in Ht1.
    + destruct Ht1 as [Hn1 Hi1]. rewrite (on_data_none _ _ Hn1). cbn [mbind res_bind].
      destruct (skip_none k t1) as [_ (t2 & -> & Ht2)]; [lia|done|done|]. by exists t2.
    + destruct Ht1 as [od Ht1].
      destruct (on_data_spec t1 i od w_SeekToLast (fun l => index_before (length l)) Ht1) as (t2 & b2 & -> & Eb2 & Ht2).
      { intros h w Hh HS Hd. destruct (w_SeekToLast_spec _ _ Hd) as (w2 & -> & Hw2). exists w2. split; [done|].
        destruct (block_of h) as [|e l] eqn:El; [done|]. rewrite index_some in Hw2 by (cbn; lia). cbn in Hw2 |- *.
        by rewrite Nat.sub_0_r in Hw2. }
      cbn [mbind res_bind]. rewrite (base_S _ _ Eb2). apply (IH t2 i b2); [done|done|lia|lia].
  - rewrite bool_decide_true by done. cbn [negb]. exists t. split; [done|].
    replace (base i + S n)%nat with (S (base i + n)) by lia. cbn [index_before]. by eapply on_block_rep.
Qed.

Lemma lower_bound_app_lt t a l : Forall (fun e => cmp_lt cmp e.1 t) a ->
  lower_bound cmp t (a ++ l) = (length a + lower_bound cmp t l)%nat.
Proof.
  induction 1 as [|[k v] a Hk _ IH]; [done|]. cbn in *. unfold cmp_lt in Hk. by rewrite Hk, IH.
Qed.

(** The bound is in the block of the first separator at or past the target. *)
Lemma lower_bound_blocks t j b : blocks !! j = Some b -> j = lower_bound cmp t idx ->
  lower_bound cmp t all_blocks = (base j + lower_bound cmp t b)%nat.
Proof.
  intros Eb Hj. rewrite (all_blocks_split _ _ Eb), lower_bound_app_lt.
  - fold (base j). f_equal. destruct (lookup_lt_is_Some_2 idx j (blocks_lt _ _ Eb)) as [[sep h] E].
    destruct (Hsep _ _ _ E) as [_ Hlater].
    destruct (decide (lower_bound cmp t b < length b)%nat) as [Hlt|Hge].
    + apply lower_bound_eq; [rewrite length_app; lia| |].
      * intros i e Hi He. rewrite lookup_app_l in He by lia. by apply (lower_bound_before cmp t b i e).
      * intros e He. rewrite lookup_app_l in He by lia. by apply (lower_bound_at cmp t b e).
    + pose proof (lower_bound_le cmp t b). apply lower_bound_eq; [rewrite length_app; lia| |].
      * intros i e Hi He. rewrite lookup_app_l in He by lia. by apply (lower_bound_before cmp t b i e).
      * intros e He Hlt. rewrite lookup_app_r in He by lia. apply list_elem_of_lookup_2, list_elem_of_In in He.
        rewrite Forall_forall in Hlater. specialize (Hlater e He).
        destruct (lower_bound_at cmp t idx (sep, h)); [by rewrite <- Hj|]. cbn.
        by apply (cmp_trans _ e.1 _ Lt).
  - apply Forall_forall. intros e He. apply in_concat in He as (l & Hl & He). apply list_elem_of_In, list_elem_of_lookup in Hl as [i Hi].
    apply lookup_take_Some in Hi as [Hi Hlt]. unfold blocks in Hi. apply list_lookup_fmap_Some in Hi as ([sep h] & -> & E).
    destruct (Hsep _ _ _ E) as [Hle _]. rewrite Forall_forall in Hle.
    apply (cmp_le_lt_trans _ _ sep); [by apply Hle|]. apply (lower_bound_before cmp t idx i (sep, h)); [lia|done].
Qed.

Lemma lower_bound_past t : lower_bound cmp t idx = length idx -> lower_bound cmp t all_blocks = length all_blocks.
Proof.
  intros Hj. apply lower_bound_eq; [done| |].
  - intros i e _ He. apply list_elem_of_lookup_2, list_elem_of_In in He.
    apply in_concat in He as (l & Hl & He). apply list_elem_of_In, list_elem_of_lookup in Hl as [n Hn].
    pose proof (blocks_lt _ _ Hn) as Hlt. unfold blocks in Hn. apply list_lookup_fmap_Some in Hn as ([sep h] & -> & E).
    destruct (Hsep _ _ _ E) as [Hle _]. rewrite Forall_forall in Hle.
    apply (cmp_le_lt_trans _ _ sep); [by apply Hle|]. apply (lower_bound_before cmp t idx n (sep, h)); [lia|done].
  - intros e He. apply lookup_lt_Some in He. lia.
Qed.

#[export] Instance two_level_spec : IteratorSpec TwoLevelIterator valid cmp all_blocks two_rep.
Proof.
  split.
  - intros t [p|]; cbn; unfold t_Valid.
    + intros (i & n & b & (_ & _ & sep & h & E & _ & Hd) & _).
      pose proof (Hspec _ (handle_elem _ _ _ E)) as HS. by rewrite (w_Valid_spec _ _ Hd), !bool_decide_true by done.
    + by intros (_ & _ & _ & ->).
  - intros t p (i & n & b & (_ & _ & sep & h & E & _ & Hd) & Eb & Hn & ->).
    pose proof (Hspec _ (handle_elem _ _ _ E)) as HS. destruct (w_at _ _ Hd) as (v & Ev & Hv).
    exists (w_key (data_iter_ t)), v. split; [|by split].
    apply (all_blocks_at _ _ (block_of h)); [by eapply block_at|done].
  - intros t o Hr. cbn. unfold t_SeekToFirst, SkipEmptyDataBlocksForward. apply two_rep_usable in Hr.
    pose proof Hr as (_ & [oi Hi] & _). destruct (w_SeekToFirst_spec _ _ Hi) as (w & -> & Hw). cbn [mbind res_bind].
    destruct (InitDataBlock_spec t w _ Hr Hw) as (t1 & -> & Ht1). cbn [mbind res_bind].
    destruct (decide (0 < length idx)%nat) as [Hlt|Hge].
    + rewrite index_some in Ht1 by done. destruct Ht1 as [od Ht1].
      destruct (on_data_spec t1 0 od w_SeekToFirst (fun l => index l 0) Ht1) as (t2 & b2 & -> & Eb2 & Ht2).
      { intros h x Hh HS Hd. destruct (w_SeekToFirst_spec _ _ Hd) as (w2 & -> & Hw2). by exists w2. }
      cbn [mbind res_bind]. apply (skip_forward_spec fuel t2 0 b2 0); [done|done|lia|lia].
    + rewrite index_none in Ht1 by lia. destruct Ht1 as [Hn1 Hi1]. rewrite (on_data_none _ _ Hn1). cbn [mbind res_bind].
      destruct (skip_none fuel t1) as [(t2 & -> & Ht2) _]; [lia|done|done|]. exists t2. split; [done|].
      rewrite index_none; [done|]. rewrite <- base_end. by replace (length idx) with 0%nat by lia.
  - intros t o Hr. cbn. unfold t_SeekToLast, SkipEmptyDataBlocksBackward. apply two_rep_usable in Hr.
    pose proof Hr as (_ & [oi Hi] & _). destruct (w_SeekToLast_spec _ _ Hi) as (w & -> & Hw). cbn [mbind res_bind].
    destruct (InitDataBlock_spec t w _ Hr Hw) as (t1 & -> & Ht1). cbn [mbind res_bind].
    assert (index all_blocks (length all_blocks - 1) = index_before (length all_blocks)) as ->.
    { destruct all_blocks; [done|]. rewrite index_some by (cbn; lia). cbn. by rewrite Nat.sub_0_r. }
    destruct (decide (0 < length idx)%nat) as [Hlt|Hge].
    + rewrite index_some in Ht1 by lia. destruct Ht1 as [od Ht1].
      destruct (on_data_spec t1 _ od w_SeekToLast (fun l => index_before (length l)) Ht1) as (t2 & b2 & -> & Eb2 & Ht2).
      { intros h x Hh HS Hd. destruct (w_SeekToLast_spec _ _ Hd) as (w2 & -> & Hw2). exists w2. split; [done|].
        destruct (block_of h) as [|e l] eqn:El; [done|]. rewrite index_some in Hw2 by (cbn; lia). cbn in Hw2 |- *.
        by rewrite Nat.sub_0_r in Hw2. }
      cbn [mbind res_bind]. rewrite <- base_end.
      assert (base (length idx) = base (length idx - 1) + length b2)%nat as -> by (rewrite <- (base_S _ _ Eb2); f_equal; lia).
      apply (skip_backward_spec fuel t2 _ b2); [done|done|lia|lia].
    + rewrite index_none in Ht1 by lia. destruct Ht1 as [Hn1 Hi1]. rewrite (on_data_none _ _ Hn1). cbn [mbind res_bind].
      destruct (skip_none fuel t1) as [_ (t2 & -> & Ht2)]; [lia|done|done|]. exists t2. split; [done|].
      rewrite <- base_end. by replace (length idx) with 0%nat by lia.
  - intros t o tgt Hr Htgt. cbn. unfold t_Seek, SkipEmptyDataBlocksForward. apply two_rep_usable in Hr.
    pose proof Hr as (_ & [oi Hi] & _). destruct (w_Seek_spec _ _ tgt Htgt Hi) as (w & -> & Hw). cbn [mbind res_bind].
    destruct (InitDataBlock_spec t w _ Hr Hw) as (t1 & -> & Ht1). cbn [mbind res_bind].
    set (j := lower_bound cmp tgt idx) in *. destruct (decide (j < length idx)%nat) as [Hlt|Hge].
    + rewrite index_some in Ht1 by done. destruct Ht1 as [od Ht1].
      destruct (on_data_spec t1 j od (fun w => w_Seek w tgt) (fun l => index l (lower_bound cmp tgt l)) Ht1)
        as (t2 & b2 & -> & Eb2 & Ht2).
      { intros h x Hh HS Hd. destruct (w_Seek_spec _ _ tgt Htgt Hd) as (w2 & -> & Hw2). by exists w2. }
      cbn [mbind res_bind]. rewrite (lower_bound_blocks tgt j b2 Eb2 eq_refl).
      apply (skip_forward_spec fuel t2 j b2); [done|done|apply lower_bound_le|lia].
    + rewrite index_none in Ht1 by lia. destruct Ht1 as [Hn1 Hi1]. rewrite (on_data_none _ _ Hn1). cbn [mbind res_bind].
      destruct (skip_none fuel t1) as [(t2 & -> & Ht2) _]; [lia|done|done|]. exists t2. split; [done|].
      pose proof (lower_bound_le cmp tgt idx). rewrite lower_bound_past by (unfold j in Hge; lia). by rewrite index_none.
  - intros t p (i & n & b & Ht & Eb & Hn & ->). cbn. unfold t_Next, SkipEmptyDataBlocksForward.
    pose proof Ht as (Hs & Hi & sep & h & E & Hh & Hd). pose proof (Hspec _ (handle_elem _ _ _ E)) as HS.
    destruct (w_Next_spec _ _ Hd) as (w & -> & Hw). cbn [mbind res_bind].
    pose proof (block_at _ _ _ E) as Eb'. rewrite Eb in Eb'. injection Eb' as ->. pose proof (blocks_lt _ _ Eb).
    replace (S (base i + n)) with (base i + S n)%nat by lia.
    apply (skip_forward_spec fuel _ i (block_of h)); [|done|lia|lia].
    split; [done|]. split; [done|]. by exists sep, h.
  - intros t p (i & n & b & Ht & Eb & Hn & ->). cbn. unfold t_Prev, SkipEmptyDataBlocksBackward.
    pose proof Ht as (Hs & Hi & sep & h & E & Hh & Hd). pose proof (Hspec _ (handle_elem _ _ _ E)) as HS.
    destruct (w_Prev_spec _ _ Hd) as (w & -> & Hw). cbn [mbind res_bind]. pose proof (blocks_lt _ _ Eb).
    apply (skip_backward_spec fuel _ i b n); [|done|lia|lia].
    split; [done|]. split; [done|]. by exists sep, h.
  - intros t o Hr. apply two_rep_usable in Hr as (Hs & [oi (it & (Ei & _) & Hri)] & Hd). cbn. unfold t_status.
    rewrite Ei, (spec_status _ _ Hri). cbn. unfold data_ok in Hd. destruct (iter_ (data_iter_ t)) as [d|] eqn:Ed; [|done].
    destruct Hd as (Hh & o' & d' & (Ed' & _) & Hrd). rewrite Ed in Ed'. injection Ed' as <-.
    pose proof (Hspec _ Hh) as HS. rewrite (spec_status _ _ Hrd). done.
Qed.

Lemma new_two_level_spec it o : irep it o ->
  exists t, new_TwoLevelIterator it = Ret t /\ two_rep t None.
Proof.
  intros Hr. unfold new_TwoLevelIterator, Set_. destruct (Update_spec new_IteratorWrapper it o Hr) as (w & -> & Hw).
  cbn. eexists. split; [done|]. split; [done|]. split; [by exists o|]. by split.
Qed.
End two_level.
