(* ===== verification/TableFormat.v ===== *)
(** * TableFormat: table/format.h, table/format.cc

    Block handles, the footer of a table file, and the reading of a block with
    its trailer: checksum, type and decompression.  The file and the Snappy
    library are interfaces. *)

From S2P Require Import Prelude CLib Coding Crc32c Status Log.

(** ** BlockHandle *)

Record BlockHandle := mkHandle { offset_ : Z; size_ : Z }.

Definition new_BlockHandle : BlockHandle := mkHandle (2^64 - 1) (2^64 - 1).

Definition kMaxEncodedLength : nat := 10 + 10.

Definition handle_EncodeTo (h : BlockHandle) (dst : bytes) : bytes :=
  PutVarint64 (PutVarint64 dst (offset_ h)) (size_ h).

(** The status, the handle as far as it was read, and the rest of the input. *)
Definition handle_DecodeFrom (h : BlockHandle) (input : bytes) : Status.t * BlockHandle * bytes :=
  let bad := Status.Corruption (lit "bad block handle") [] in
  match GetVarint64 input with
  | None => (bad, h, input)
  | Some (offset, input) =>
      match GetVarint64 input with
      | None => (bad, mkHandle offset (size_ h), input)
      | Some (size, input) => (Status.OK, mkHandle offset size, input)
      end
  end.

(** ** Footer *)

Record Footer := mkFooter { metaindex_handle_ : BlockHandle; index_handle_ : BlockHandle }.

Definition new_Footer : Footer := mkFooter new_BlockHandle new_BlockHandle.

Definition kEncodedLength : nat := 2 * kMaxEncodedLength + 8.
Definition kTableMagicNumber : Z := 0xdb4775248b80fb57.

Definition footer_EncodeTo (f : Footer) (dst : bytes) : bytes :=
  let dst := handle_EncodeTo (metaindex_handle_ f) dst in
  let dst := handle_EncodeTo (index_handle_ f) dst in
  let dst := string_resize (2 * kMaxEncodedLength) dst in
  let dst := PutFixed32 dst (Z.land kTableMagicNumber 0xffffffff) in
  PutFixed32 dst (Z.shiftr kTableMagicNumber 32).

(** The magic number is read before the length of the input is known. *)
Definition footer_DecodeFrom (f : Footer) (input : bytes) : res (Status.t * Footer * bytes) :=
  let magic_ptr := (kEncodedLength - 8)%nat in
  magic_lo ← DecodeFixed32 (drop magic_ptr input);
  magic_hi ← DecodeFixed32 (drop (magic_ptr + 4) input);
  let magic := Z.lor (Z.shiftl magic_hi 32) magic_lo in
  if decide (magic <> kTableMagicNumber) then
    Ret (Status.InvalidArgument (lit "not an sstable (bad magic number)") [], f, input)
  else
    let '(result, metaindex, rest) := handle_DecodeFrom (metaindex_handle_ f) input in
    if Status.ok result then
      let '(result, index, rest) := handle_DecodeFrom (index_handle_ f) rest in
      if Status.ok result then
        (* what follows the footer *)
        Ret (result, mkFooter metaindex index, drop (magic_ptr + 8) input)
      else Ret (result, mkFooter metaindex index, rest)
    else Ret (result, mkFooter metaindex (index_handle_ f), rest).

(** ** Reading a block *)

(** [Read(offset, n, result, scratch)]: a status, the data, and whether it is
    in the scratch buffer. *)
Class RandomAccessFile (F : Type) := file_pread : F -> Z -> Z -> Status.t * bytes * bool.

(** The Snappy library as port/port_posix.h calls it; without the library
    every call fails. *)
Class Snappy := {
  Snappy_Compress : bytes -> option bytes;
  Snappy_GetUncompressedLength : bytes -> option Z;
  Snappy_Uncompress : bytes -> option bytes;
}.
Definition no_snappy : Snappy := {|
  Snappy_Compress _ := None; Snappy_GetUncompressedLength _ := None; Snappy_Uncompress _ := None |}.

(** What the library promises: it uncompresses what it compressed. *)
Class SnappyLaw `{Snappy} : Prop := snappy_roundtrip raw c :
  Snappy_Compress raw = Some c ->
  Snappy_GetUncompressedLength c = Some (Z.of_nat (length raw)) /\ Snappy_Uncompress c = Some raw.

#[export] Instance no_snappy_law : @SnappyLaw no_snappy.
Proof. intros raw c H. discriminate. Qed.

Inductive CompressionType := kNoCompression | kSnappyCompression.

#[export] Instance CompressionType_eq_dec : EqDecision CompressionType.
Proof. solve_decision. Defined.

Definition compression_code (t : CompressionType) : Z :=
  match t with kNoCompression => 0 | kSnappyCompression => 1 end.

Definition kBlockTrailerSize : Z := 5.

Record BlockContents := mkContents { data : bytes; cachable : bool; heap_allocated : bool }.

Definition no_contents : BlockContents := mkContents [] false false.

Section read_block.
Context {F : Type} `{!RandomAccessFile F} `{!Snappy} `{!Address}.

(** [p[i]] and the [n] bytes at [p], of the data the file returned. *)
Definition byte_at (p : bytes) (i : Z) : res byte := nth_res p i.
Definition bytes_at (p : bytes) (n : Z) : res bytes :=
  if decide (0 <= n <= Z.of_nat (length p)) then Ret (take (Z.to_nat n) p) else Undef.

(** The sizes are of type [size_t]: adding the trailer to a size that the file
    claims can wrap. *)
Definition ReadBlock (file : F) (verify_checksums : bool) (handle : BlockHandle) : res (Status.t * BlockContents) :=
  let corrupt msg := Ret (Status.Corruption (lit msg) [], no_contents) in
  let n := size_ handle in
  let '(s, contents, in_buf) := file_pread file (offset_ handle) (u64 (n + kBlockTrailerSize)) in
  if negb (Status.ok s) then Ret (s, no_contents)
  else if decide (Z.of_nat (length contents) <> u64 (n + kBlockTrailerSize)) then corrupt "truncated block read"
  else
    checked ← (if verify_checksums then
        stored ← (p ← ptr_at contents (u64 (n + 1)); DecodeFixed32 p);
        covered ← bytes_at contents (u64 (n + 1));
        actual ← crc_value covered;
        Ret (bool_decide (actual = Unmask stored))
      else Ret true);
    if negb checked then corrupt "block checksum mismatch"
    else
      type ← byte_at contents n;
      if decide (bz type = 0) then
        raw ← bytes_at contents n;
        Ret (Status.OK, mkContents raw in_buf in_buf)
      else if decide (bz type = 1) then
        packed ← bytes_at contents n;
        match Snappy_GetUncompressedLength packed with
        | None => corrupt "corrupted compressed block contents"
        | Some _ =>
            match Snappy_Uncompress packed with
            | None => corrupt "corrupted compressed block contents"
            | Some raw => Ret (Status.OK, mkContents raw true true)
            end
        end
      else corrupt "bad block type".
End read_block.

(** A file held in memory, which reads into the caller's buffer. *)
#[export] Instance string_random : RandomAccessFile bytes := fun f offset n =>
  (Status.OK, take (Z.to_nat n) (drop (Z.to_nat offset) f), true).

Lemma string_pread (f : bytes) offset n :
  file_pread f offset n = (Status.OK, take (Z.to_nat n) (drop (Z.to_nat offset) f), true).
Proof. done. Qed.

(** ** Round trips *)

Definition valid_handle (h : BlockHandle) : Prop := 0 <= offset_ h < 2^64 /\ 0 <= size_ h < 2^64.

Lemma handle_EncodeTo_app h dst : handle_EncodeTo h dst = dst ++ handle_EncodeTo h [].
Proof. unfold handle_EncodeTo, PutVarint64. by rewrite app_nil_l, <- app_assoc. Qed.

Lemma handle_roundtrip h h0 rest : valid_handle h ->
  handle_DecodeFrom h0 (handle_EncodeTo h [] ++ rest) = (Status.OK, h, rest).
Proof.
  intros [Ho Hs]. unfold handle_DecodeFrom, handle_EncodeTo, PutVarint64, GetVarint64. rewrite app_nil_l, <- app_assoc.
  rewrite GetVarint64Ptr_encode by done. rewrite GetVarint64Ptr_encode by done. by destruct h.
Qed.

Lemma length_EncodeVarint64 v : 0 <= v < 2^64 -> (length (EncodeVarint64 v) <= 10)%nat.
Proof.
  intros Hv. pose proof (GetVarint64Ptr_encode v [] Hv) as E. rewrite app_nil_r in E.
  apply GetVarint64Ptr_inv in E as (_ & pre & E & Hl). rewrite E, app_nil_r. lia.
Qed.

Lemma length_handle h : valid_handle h -> (length (handle_EncodeTo h []) <= kMaxEncodedLength)%nat.
Proof.
  intros [Ho Hs]. unfold handle_EncodeTo, PutVarint64, kMaxEncodedLength. rewrite app_nil_l, length_app.
  pose proof (length_EncodeVarint64 _ Ho). pose proof (length_EncodeVarint64 _ Hs). lia.
Qed.

Lemma footer_EncodeTo_eq f : valid_handle (metaindex_handle_ f) -> valid_handle (index_handle_ f) ->
  exists pad, footer_EncodeTo f [] = handle_EncodeTo (metaindex_handle_ f) [] ++ handle_EncodeTo (index_handle_ f) []
      ++ pad ++ EncodeFixed32 0x8b80fb57 ++ EncodeFixed32 0xdb477524
    /\ (length (handle_EncodeTo (metaindex_handle_ f) [] ++ handle_EncodeTo (index_handle_ f) [] ++ pad) = 40)%nat.
Proof.
  intros Hm Hi. pose proof (length_handle _ Hm). pose proof (length_handle _ Hi).
  unfold kMaxEncodedLength in *. unfold footer_EncodeTo. rewrite handle_EncodeTo_app.
  set (a := handle_EncodeTo (metaindex_handle_ f) []) in *. set (b := handle_EncodeTo (index_handle_ f) []) in *.
  exists (replicate (40 - length (a ++ b)) NUL). unfold string_resize, PutFixed32, kMaxEncodedLength.
  rewrite take_ge by (rewrite length_app; lia). change (2 * (10 + 10))%nat with 40%nat. split.
  - rewrite <- !app_assoc. reflexivity.
  - rewrite !length_app, length_replicate. lia.
Qed.

Lemma footer_roundtrip f f0 rest : valid_handle (metaindex_handle_ f) -> valid_handle (index_handle_ f) ->
  length (footer_EncodeTo f []) = kEncodedLength
  /\ footer_DecodeFrom f0 (footer_EncodeTo f [] ++ rest) = Ret (Status.OK, f, rest).
Proof.
  intros Hm Hi. destruct (footer_EncodeTo_eq f Hm Hi) as (pad & -> & Hl).
  set (a := handle_EncodeTo (metaindex_handle_ f) []) in *. set (b := handle_EncodeTo (index_handle_ f) []) in *.
  split.
  - rewrite !app_assoc, <- !app_assoc, (app_assoc b), (app_assoc a), length_app. rewrite Hl. done.
  - unfold footer_DecodeFrom. cbv zeta. change (kEncodedLength - 8)%nat with 40%nat.
    replace ((a ++ b ++ pad ++ EncodeFixed32 0x8b80fb57 ++ EncodeFixed32 0xdb477524) ++ rest)
      with ((a ++ b ++ pad) ++ EncodeFixed32 0x8b80fb57 ++ EncodeFixed32 0xdb477524 ++ rest)
      by (rewrite <- !app_assoc; done).
    rewrite (drop_app_length' (a ++ b ++ pad) _ 40) by (by rewrite Hl). rewrite DecodeFixed32_Encode by lia. cbn [mbind res_bind].
    rewrite (app_assoc _ (EncodeFixed32 0x8b80fb57)).
    rewrite (drop_app_length' _ _ (40 + 4)) by (rewrite length_app, Hl; done).
    rewrite DecodeFixed32_Encode by lia. cbn [mbind res_bind].
    rewrite decide_False by (intros H; apply H; vm_compute; reflexivity).
    rewrite <- !app_assoc. unfold a at 1. rewrite handle_roundtrip by done. cbn [Status.ok].
    unfold b at 1. rewrite handle_roundtrip by done. cbn [Status.ok]. do 2 f_equal; [by destruct f|].
    rewrite (app_assoc (EncodeFixed32 0x8b80fb57)), (app_assoc pad), (app_assoc b), (app_assoc a).
    apply drop_app_length'. rewrite !app_assoc, <- (app_assoc _ (EncodeFixed32 _)), <- (app_assoc a).
    rewrite length_app, Hl. done.
Qed.

(** ** A block in a file *)

Definition trailer `{Address} (c : bytes) (t : CompressionType) : bytes :=
  zb (compression_code t) :: EncodeFixed32 (Mask (crc32c (crc32c 0 c) [zb (compression_code t)])).

Section stored.
Context `{!Snappy} `{!SnappyLaw} `{!Address}.

(** [c] is what is stored of the contents [raw]. *)
Definition packed (raw c : bytes) (t : CompressionType) : Prop :=
  match t with kNoCompression => c = raw | kSnappyCompression => Snappy_Compress raw = Some c end.

Lemma length_trailer c t : length (trailer c t) = 5%nat.
Proof. done. Qed.

Lemma crc32c_0_range p : 0 <= crc32c 0 p < 2^32.
Proof. apply crc32c_range. lia. Qed.

Lemma trailer_crc c t : crc_value (c ++ [zb (compression_code t)])
  = Ret (Unmask (Mask (crc32c (crc32c 0 c) [zb (compression_code t)]))).
Proof.
  unfold crc_value, Value. rewrite Extend_spec by lia. pose proof (crc32c_0_range c).
  rewrite (proj2 (Unmask_Mask _ (crc32c_range _ [zb (compression_code t)] (crc32c_0_range c)))).
  by rewrite crc32c_app.
Qed.

Lemma ReadBlock_stored pre raw c t rest verify : packed raw c t -> Z.of_nat (length c) + 5 < 2^64 ->
  exists ca he, ReadBlock (pre ++ c ++ trailer c t ++ rest) verify
      (mkHandle (Z.of_nat (length pre)) (Z.of_nat (length c)))
    = Ret (Status.OK, mkContents raw ca he).
Proof.
  intros Hp Hl. unfold ReadBlock, string_random, file_pread. cbn [offset_ size_].
  unfold kBlockTrailerSize. rewrite !u64_small by lia. rewrite Nat2Z.id, drop_app_length.
  replace (Z.to_nat (Z.of_nat (length c) + 5)) with (length (c ++ trailer c t))
    by (rewrite length_app, length_trailer; lia).
  rewrite app_assoc, take_app_length. cbn [Status.ok negb].
  rewrite decide_False by (rewrite length_app, length_trailer; lia).
  assert (Hchk : (if verify then
        stored ← (p ← ptr_at (c ++ trailer c t) (Z.of_nat (length c) + 1); DecodeFixed32 p);
        covered ← bytes_at (c ++ trailer c t) (Z.of_nat (length c) + 1);
        actual ← crc_value covered;
        Ret (bool_decide (actual = Unmask stored))
      else Ret true) = Ret true).
  { destruct verify; [|done]. unfold ptr_at, bytes_at. rewrite !length_app, length_trailer.
    rewrite !decide_True by lia. cbn [mbind res_bind].
    replace (Z.to_nat (Z.of_nat (length c) + 1)) with (length (c ++ [zb (compression_code t)]))
      by (rewrite length_app; cbn; lia).
    assert (c ++ trailer c t = (c ++ [zb (compression_code t)]) ++ EncodeFixed32 (Mask (crc32c (crc32c 0 c) [zb (compression_code t)]))) as ->
      by (unfold trailer; rewrite <- app_assoc; done).
    rewrite drop_app_length, take_app_length. rewrite <- (app_nil_r (EncodeFixed32 _)).
    rewrite DecodeFixed32_Encode.
    - cbn [mbind res_bind]. rewrite trailer_crc. cbn [mbind res_bind]. by rewrite bool_decide_true.
    - apply Unmask_Mask, crc32c_range, crc32c_0_range. }
  rewrite Hchk. cbn [mbind res_bind negb]. unfold byte_at, nth_res, bytes_at.
  rewrite !decide_True by (rewrite ?length_app; lia). rewrite Nat2Z.id.
  assert ((c ++ trailer c t) !! length c = Some (zb (compression_code t))) as -> by (apply list_lookup_middle; done).
  cbn [of_option mbind res_bind]. rewrite take_app_length.
  destruct t; cbn [compression_code] in *.
  - rewrite decide_True by done. cbn [mbind res_bind]. cbn in Hp. subst c. by eexists _, _.
  - rewrite decide_False, decide_True by (vm_compute; congruence). cbn [mbind res_bind].
    destruct (snappy_roundtrip raw c Hp) as [-> ->]. by eexists _, _.
Qed.
End stored.

(** ** What the format does not check *)

(** [Footer::EncodeTo] pads to an absolute length: a string that was not empty
    is cut, although the assertion after it speaks of the original length. *)
Lemma footer_EncodeTo_appends_nothing :
  length (footer_EncodeTo (mkFooter (mkHandle 0 0) (mkHandle 0 0)) (replicate 100 NUL)) = 48%nat.
Proof. reflexivity. Qed.

(** A footer shorter than 48 bytes is read past its end. *)
Lemma footer_DecodeFrom_short input : (length input < 44)%nat -> footer_DecodeFrom new_Footer input = Undef.
Proof.
  intros Hl. unfold footer_DecodeFrom. change (kEncodedLength - 8)%nat with 40%nat.
  assert (length (drop 40 input) < 4)%nat as Hd by (rewrite length_drop; lia).
  destruct (drop 40 input) as [|a [|b [|c [|d p]]]]; [done..|]. cbn in Hd. lia.
Qed.

(** The size in a handle is not checked: near 2^64 the trailer's length wraps,
    and the type byte is read far outside what was read. *)
Lemma ReadBlock_size_wraps `{!Snappy} `{!Address} (f : bytes) : (4 <= length f)%nat ->
  ReadBlock f false (mkHandle 0 (2^64 - 1)) = Undef.
Proof.
  intros Hl. unfold ReadBlock, string_random, file_pread. cbn [offset_ size_].
  change (u64 (2^64 - 1 + kBlockTrailerSize)) with 4. change (Z.to_nat 4) with 4%nat. change (Z.to_nat 0) with 0%nat.
  rewrite drop_0. cbn [Status.ok negb]. rewrite decide_False by (rewrite length_take; lia). cbn [mbind res_bind negb].
  unfold byte_at, nth_res. rewrite decide_True by lia. rewrite lookup_ge_None_2; [done|].
  rewrite length_take. lia.
Qed.
