(* ===== verification/TableBuilder.v ===== *)
(** * TableBuilder: include/leveldb/table_builder.h, table/table_builder.cc

    Writes a table file: data blocks, the filter block, the metaindex block,
    the index block and the footer.  The order of keys, the file, Snappy and
    the filter policy are interfaces. *)

From S2P Require Import Prelude CLib Coding Crc32c Status DbFormat SkipList Log Bloom FilterBlock Iterator.
From S2P Require Import BlockBuilder Block TableFormat KeyOrder.

(** ** Options (include/leveldb/options.h), as far as tables use them *)

Record Options := mkOptions {
  comparator_id : Z;
  block_size : Z;
  block_restart_interval : Z;
  compression : CompressionType;
  filter_policy : option bytes;   (* its name *)
}.

Definition with_restart_interval (o : Options) (n : Z) : Options :=
  mkOptions (comparator_id o) (block_size o) n (compression o) (filter_policy o).

(** The defaults; the comparator is the bytewise one, numbered 0. *)
Definition default_Options : Options := mkOptions 0 4096 16 kSnappyCompression None.

Section table_builder.
Context `{!KeyOrder} {F : Type} `{!WritableFile F} `{!Snappy} `{!Address} `{!FilterPolicy}.

Record Rep := mkRep {
  options : Options;
  index_block_options : Options;
  file : F;
  offset : Z;
  rep_status : Status.t;
  data_block : BlockBuilder;
  index_block : BlockBuilder;
  last_key : bytes;
  num_entries : Z;
  closed : bool;
  filter_block : option FilterBlockBuilder;
  pending_index_entry : bool;
  pending_handle : BlockHandle;
}.

Definition ok (r : Rep) : bool := Status.ok (rep_status r).

Definition set_file (r : Rep) (f : F) (o : Z) (s : Status.t) : Rep :=
  mkRep (options r) (index_block_options r) f o s (data_block r) (index_block r) (last_key r)
    (num_entries r) (closed r) (filter_block r) (pending_index_entry r) (pending_handle r).
Definition set_data (r : Rep) (b : BlockBuilder) (h : BlockHandle) : Rep :=
  mkRep (options r) (index_block_options r) (file r) (offset r) (rep_status r) b (index_block r)
    (last_key r) (num_entries r) (closed r) (filter_block r) (pending_index_entry r) h.
Definition set_index (r : Rep) (b : BlockBuilder) (last : bytes) (pending : bool) : Rep :=
  mkRep (options r) (index_block_options r) (file r) (offset r) (rep_status r) (data_block r) b
    last (num_entries r) (closed r) (filter_block r) pending (pending_handle r).
Definition set_filter (r : Rep) (fb : option FilterBlockBuilder) : Rep :=
  mkRep (options r) (index_block_options r) (file r) (offset r) (rep_status r) (data_block r) (index_block r)
    (last_key r) (num_entries r) (closed r) fb (pending_index_entry r) (pending_handle r).

Definition new_TableBuilder (opt : Options) (f : F) : res Rep :=
  let filter := match filter_policy opt with None => None | Some _ => Some new_FilterBlockBuilder end in
  filter ← (match filter with None => Ret None | Some fb => fb ← StartBlock fb 0; Ret (Some fb) end);
  Ret (mkRep opt (with_restart_interval opt 1) f 0 Status.OK new_BlockBuilder new_BlockBuilder [] 0 false
    filter false new_BlockHandle).

(** The comparators are compared as pointers. *)
Definition ChangeOptions (r : Rep) (opt : Options) : Rep * Status.t :=
  if decide (comparator_id opt <> comparator_id (options r)) then
    (r, Status.InvalidArgument (lit "changing comparator while building table") [])
  else
    (mkRep opt (with_restart_interval opt 1) (file r) (offset r) (rep_status r) (data_block r) (index_block r)
      (last_key r) (num_entries r) (closed r) (filter_block r) (pending_index_entry r) (pending_handle r),
     Status.OK).

Definition WriteRawBlock (r : Rep) (block_contents : bytes) (type : CompressionType) : res (Rep * BlockHandle) :=
  let handle := mkHandle (offset r) (Z.of_nat (length block_contents)) in
  let '(s, f) := file_append block_contents (file r) in
  if Status.ok s then
    let type := [zb (compression_code type)] in
    crc ← crc_value block_contents;
    crc ← crc_extend crc type;
    let '(s, f) := file_append (type ++ EncodeFixed32 (Mask crc)) f in
    let offset :=
      if Status.ok s then u64 (offset r + (Z.of_nat (length block_contents) + kBlockTrailerSize)) else offset r in
    Ret (set_file r f offset s, handle)
  else Ret (set_file r f (offset r) s, handle).

(** The contents to store and how: compressed when it saves an eighth. *)
Definition compress (type : CompressionType) (raw : bytes) : bytes * CompressionType :=
  match type with
  | kNoCompression => (raw, kNoCompression)
  | kSnappyCompression =>
      match Snappy_Compress raw with
      | Some compressed =>
          let n := Z.of_nat (length raw) in
          if decide (Z.of_nat (length compressed) < n - n / 8) then (compressed, kSnappyCompression)
          else (raw, kNoCompression)
      | None => (raw, kNoCompression)
      end
  end.

(** The representation, the block made ready for use again, and the handle. *)
Definition WriteBlock (r : Rep) (block : BlockBuilder) : res (Rep * BlockBuilder * BlockHandle) :=
  let '(block, raw) := BlockBuilder.Finish block in
  let '(block_contents, type) := compress (compression (options r)) raw in
  '(r, handle) ← WriteRawBlock r block_contents type;
  Ret (r, Reset block, handle).

Definition Flush (r : Rep) : res Rep :=
  if negb (ok r) then Ret r
  else if empty (data_block r) then Ret r
  else
    '(r, block, handle) ← WriteBlock r (data_block r);
    let r := set_data r block handle in
    let r :=
      if ok r then
        let '(s, f) := file_flush (file r) in
        set_file (set_index r (index_block r) (last_key r) true) f (offset r) s
      else r in
    match filter_block r with
    | None => Ret r
    | Some fb => fb ← StartBlock fb (offset r); Ret (set_filter r (Some fb))
    end.

(** The index entry of the last block, under the key that [find] makes of the
    last key. *)
Definition add_pending_index (find : bytes -> res bytes) (r : Rep) : res Rep :=
  if pending_index_entry r then
    last ← find (last_key r);
    let handle_encoding := handle_EncodeTo (pending_handle r) [] in
    let index := BlockBuilder.Add (block_restart_interval (index_block_options r)) (index_block r) last handle_encoding in
    Ret (set_index r index last false)
  else Ret r.

Definition Add (r : Rep) (key value : bytes) : res Rep :=
  if negb (ok r) then Ret r
  else
    r ← add_pending_index (fun last_key => key_Separator last_key key) r;
    let filter := match filter_block r with Some fb => Some (AddKey fb key) | None => None end in
    let data := BlockBuilder.Add (block_restart_interval (options r)) (data_block r) key value in
    let r := mkRep (options r) (index_block_options r) (file r) (offset r) (rep_status r) data (index_block r)
      key (num_entries r + 1) (closed r) filter (pending_index_entry r) (pending_handle r) in
    if decide (CurrentSizeEstimate (data_block r) >= block_size (options r)) then Flush r else Ret r.

Definition close (r : Rep) : Rep :=
  mkRep (options r) (index_block_options r) (file r) (offset r) (rep_status r) (data_block r) (index_block r)
    (last_key r) (num_entries r) true (filter_block r) (pending_index_entry r) (pending_handle r).

(** The parts of [Finish], each done only when the status is still OK. *)
Definition finish_filter (r : Rep) : res (Rep * BlockHandle) :=
  match filter_block r with
  | Some fb =>
      if ok r then contents ← FilterBlock.Finish fb; WriteRawBlock r contents kNoCompression
      else Ret (r, new_BlockHandle)
  | None => Ret (r, new_BlockHandle)
  end.

Definition finish_metaindex (r : Rep) (filter_block_handle : BlockHandle) : res (Rep * BlockHandle) :=
  if ok r then
    meta ← (match filter_block r with
            | Some _ =>
                name ← of_option (filter_policy (options r));
                Ret (BlockBuilder.Add (block_restart_interval (options r)) new_BlockBuilder
                  (lit "filter." ++ name) (handle_EncodeTo filter_block_handle []))
            | None => Ret new_BlockBuilder
            end);
    '(r, _, handle) ← WriteBlock r meta;
    Ret (r, handle)
  else Ret (r, new_BlockHandle).

Definition finish_index (r : Rep) : res (Rep * BlockHandle) :=
  if ok r then
    r ← add_pending_index key_Successor r;
    '(r, index, handle) ← WriteBlock r (index_block r);
    Ret (set_index r index (last_key r) (pending_index_entry r), handle)
  else Ret (r, new_BlockHandle).

Definition finish_footer (r : Rep) (metaindex index : BlockHandle) : Rep :=
  if ok r then
    let footer_encoding := footer_EncodeTo (mkFooter metaindex index) [] in
    let '(s, f) := file_append footer_encoding (file r) in
    set_file r f (if Status.ok s then u64 (offset r + Z.of_nat (length footer_encoding)) else offset r) s
  else r.

Definition Finish (r : Rep) : res (Rep * Status.t) :=
  r ← Flush r;
  let r := close r in
  '(r, filter_block_handle) ← finish_filter r;
  '(r, metaindex_block_handle) ← finish_metaindex r filter_block_handle;
  '(r, index_block_handle) ← finish_index r;
  let r := finish_footer r metaindex_block_handle index_block_handle in
  Ret (r, rep_status r).

Definition Abandon (r : Rep) : Rep := close r.
Definition NumEntries (r : Rep) : Z := num_entries r.
Definition FileSize (r : Rep) : Z := offset r.

(** What db/builder.cc and the compactions do with a builder. *)
Fixpoint add_all (r : Rep) (kvs : entries) : res Rep :=
  match kvs with [] => Ret r | (k, v) :: kvs => r ← Add r k v; add_all r kvs end.

Definition build_table (opt : Options) (f : F) (kvs : entries) : res (Rep * Status.t) :=
  r ← new_TableBuilder opt f;
  r ← add_all r kvs;
  Finish r.
End table_builder.
Arguments Rep F : clear implicits.

(** ** Blocks stored in a file *)

Section built.
Context `{!KeyOrder} `{!Snappy} `{!SnappyLaw} `{!Address} `{!FilterPolicy}.

#[export] Instance key_iter : Iterator.Iterator Iter := Iter_iterator key_Compare.

Definition opens_as (raw : bytes) (b : entries) : Prop :=
  @opens key_Compare key_cmp key_valid raw b.

Definition stored (f : bytes) (h : BlockHandle) (raw : bytes) : Prop :=
  exists pre c t rest, f = pre ++ c ++ trailer c t ++ rest
    /\ h = mkHandle (Z.of_nat (length pre)) (Z.of_nat (length c)) /\ packed raw c t.

Lemma stored_app f h raw x : stored f h raw -> stored (f ++ x) h raw.
Proof.
  intros (pre & c & t & rest & -> & Hh & Hp). exists pre, c, t, (rest ++ x). split; [|done].
  by rewrite <- !app_assoc.
Qed.

Lemma stored_valid f h raw : stored f h raw -> Z.of_nat (length f) < 2^64 -> valid_handle h.
Proof.
  intros (pre & c & t & rest & -> & -> & _) Hl. rewrite !length_app in Hl. split; cbn; lia.
Qed.

Lemma stored_read f h raw verify : stored f h raw -> Z.of_nat (length f) < 2^64 ->
  exists ca he, ReadBlock f verify h = Ret (Status.OK, mkContents raw ca he).
Proof.
  intros (pre & c & t & rest & -> & -> & Hp) Hl. rewrite !length_app, length_trailer in Hl.
  by apply ReadBlock_stored; [|lia].
Qed.

(** The block [b] is in the file at [h]. *)
Definition holds (f : bytes) (b : entries) (h : BlockHandle) : Prop := exists raw, stored f h raw /\ opens_as raw b.

Lemma holds_app f b h x : holds f b h -> holds (f ++ x) b h.
Proof. intros (raw & Hs & Ho). exists raw. split; [by apply stored_app|done]. Qed.

Lemma compress_packed t raw : let '(c, t') := compress t raw in
  packed raw c t' /\ (length c <= length raw)%nat.
Proof.
  unfold compress. destruct t; [by split|]. destruct (Snappy_Compress raw) as [c|] eqn:E; [|by split].
  case_decide as Hd; [|by split]. split; [done|]. Z.to_euclidean_division_equations. lia.
Qed.

(** ** Writing a block *)

Lemma WriteRawBlock_spec (r : Rep bytes) c t : exists r', WriteRawBlock r c t = Ret (r', mkHandle (offset r) (Z.of_nat (length c)))
  /\ r' = set_file r (file r ++ c ++ trailer c t) (u64 (offset r + (Z.of_nat (length c) + 5))) Status.OK.
Proof.
  unfold WriteRawBlock, string_writable, file_append. cbn [Status.ok]. unfold crc_value, crc_extend, Value.
  rewrite Extend_spec by lia. cbn [mbind res_bind].
  rewrite Extend_spec by apply crc32c_0_range. cbn [mbind res_bind]. eexists. split; [done|].
  unfold trailer. rewrite <- app_assoc. done.
Qed.

(** From an exact offset, the block is stored. *)
Lemma WriteBlock_spec (r : Rep bytes) (block : BlockBuilder) : exists c t,
  WriteBlock r block = Ret (set_file r (file r ++ c ++ trailer c t) (u64 (offset r + (Z.of_nat (length c) + 5))) Status.OK,
    new_BlockBuilder, mkHandle (offset r) (Z.of_nat (length c)))
  /\ packed (snd (BlockBuilder.Finish block)) c t
  /\ (length c <= length (snd (BlockBuilder.Finish block)))%nat.
Proof.
  unfold WriteBlock. destruct (BlockBuilder.Finish block) as [block' raw] eqn:E. cbn [snd].
  pose proof (compress_packed (compression (options r)) raw) as Hc.
  destruct (compress _ raw) as [c t]. destruct Hc as [Hp Hl]. exists c, t.
  destruct (WriteRawBlock_spec r c t) as (r' & -> & ->). cbn [mbind res_bind]. by split.
Qed.

Lemma stored_here (r : Rep bytes) raw c t x : offset r = Z.of_nat (length (file r)) -> packed raw c t ->
  stored ((file r ++ c ++ trailer c t) ++ x) (mkHandle (offset r) (Z.of_nat (length c))) raw.
Proof.
  intros Ho Hp. exists (file r), c, t, x. rewrite <- !app_assoc. split; [done|]. split; [by rewrite Ho|done].
Qed.

(** ** The invariant of a builder that writes to memory

    [ws]: the blocks written, with their handles; [seps]: their index keys, the
    last of which may be pending; [cur]: the entries of the current block. *)

Context (opt : Options) (HR : 1 <= block_restart_interval opt).

Definition written (ws : list (entries * BlockHandle)) : entries := concat (map fst ws).

Definition index_entries (seps : list bytes) (ws : list (entries * BlockHandle)) : entries :=
  zip_with (fun sep w => (sep, handle_EncodeTo w.2 [])) seps ws.

Definition in_order (es : entries) : Prop :=
  Forall (fun e => key_valid e.1) es /\ StronglySorted (fun x y => cmp_lt key_cmp x.1 y.1) es.

(** An index key below a key of a later block: it is a key of the table, or
    apart from the later one. *)
Definition tight (es : entries) (sep k : bytes) : Prop := cmp_lt key_cmp sep k /\ (sep ∈ map fst es \/ key_apart sep k).

Lemma tight_more es es' sep k : (forall x, x ∈ es -> x ∈ es') -> tight es sep k -> tight es' sep k.
Proof.
  intros He [Hlt [Hin|Ha]]; split; [done|left|done|by right]. apply list_elem_of_fmap in Hin as (x & -> & Hx).
  apply list_elem_of_fmap. exists x. auto.
Qed.

Lemma tight_trans es sep k k' : tight es sep k -> cmp_lt key_cmp k k' -> tight es sep k'.
Proof.
  intros [Hlt Hor] Hk. split; [by apply (cmp_trans _ k _ Lt)|]. destruct Hor as [Hin|Ha]; [by left|right].
  by eapply key_apart_mono.
Qed.

(** The filter so far: the keys of written blocks are in it, those of the
    current block wait for it. *)
Definition filter_inv (r : Rep bytes) (ws : list (entries * BlockHandle)) (cur : entries) : Prop :=
  match filter_block r with
  | None => filter_policy opt = None
  | Some fb => exists name fs pk, filter_policy opt = Some name /\ FilterBlock.builder_inv fb fs pk
      /\ length fs = filter_index (offset r) /\ (length pk <= length (written ws ++ cur))%nat
      /\ (forall b h e, (b, h) ∈ ws -> e ∈ b -> promised fs pk (filter_index (offset_ h)) e.1)
      /\ forall e, e ∈ cur -> e.1 ∈ pk
  end.

Record tb_core (r : Rep bytes) (seps : list bytes) (ws : list (entries * BlockHandle)) (cur : entries) : Prop := {
  tb_options : options r = opt /\ index_block_options r = with_restart_interval opt 1;
  tb_status : rep_status r = Status.OK;
  tb_offset : offset r = Z.of_nat (length (file r));
  tb_length : (length (file r) <= weight (written ws) + 13 * length (written ws))%nat;
  tb_order : in_order (written ws ++ cur);
  tb_small : Z.of_nat (weight (written ws ++ cur) + 20 * length (written ws ++ cur)) + 8 < 2^32;
  tb_holds : Forall (fun w => holds (file r) w.1 w.2 /\ w.1 <> []) ws;
  tb_seps i sep w : seps !! i = Some sep -> ws !! i = Some w ->
    key_valid sep /\ Forall (fun e => cmp_le key_cmp e.1 sep) w.1
    /\ (exists e, e ∈ w.1 /\ (length sep <= length e.1)%nat)
    /\ Forall (fun e => tight (written ws ++ cur) sep e.1) (written (drop (S i) ws) ++ cur);
  tb_index : exists es rs, BlockBuilder.builder_inv 1 (index_block r) es rs /\ map kv es = index_entries seps ws;
  tb_data : exists es rs, BlockBuilder.builder_inv (block_restart_interval opt) (data_block r) es rs /\ map kv es = cur;
  tb_filter : filter_inv r ws cur;
}.

(** The index entry of the last block waits for the next key. *)
Definition tb_pending (r : Rep bytes) (seps : list bytes) (ws : list (entries * BlockHandle)) (cur : entries) : Prop :=
  if pending_index_entry r
  then length ws = S (length seps) /\ cur = [] /\ (exists b, list.last ws = Some (b, pending_handle r))
  else length ws = length seps /\ (ws = [] \/ cur <> []).

Definition tb_inv (r : Rep bytes) seps ws cur : Prop :=
  tb_core r seps ws cur /\ tb_pending r seps ws cur
  /\ last_key r = match list.last (written ws ++ cur) with Some e => e.1 | None => [] end.

Lemma in_order_app es es' : in_order (es ++ es') -> in_order es /\ in_order es'.
Proof.
  intros [Hv Hs]. apply Forall_app in Hv as [? ?]. apply StronglySorted_app in Hs as (_ & ? & ?). by split.
Qed.

Lemma in_order_sorted es : in_order es -> @sorted_entries key_cmp key_valid es.
Proof.
  intros [Hv Hs]. split; [done|]. induction Hs as [|e es Hs IH He]; cbn; [constructor|].
  apply list.Forall_cons in Hv as [_ Hv]. constructor; [by apply IH|].
  apply Forall_forall. intros k Hk%list_elem_of_In. apply list_elem_of_fmap in Hk as (e' & -> & Hin).
  rewrite Forall_forall in He. by apply He, list_elem_of_In.
Qed.

Lemma in_order_lt es e : in_order (es ++ [e]) -> Forall (fun x => cmp_lt key_cmp x.1 e.1) es.
Proof.
  intros [_ Hs]. apply StronglySorted_app in Hs as (Hlt & _ & _). apply Forall_forall. intros x Hx%list_elem_of_In.
  apply (Hlt x e); [done|]. by apply list_elem_of_singleton.
Qed.

Lemma weight_app a b : weight (a ++ b) = (weight a + weight b)%nat.
Proof. induction a as [|e a IH]; [done|]. cbn. fold (weight (a ++ b)) (weight a). lia. Qed.

Lemma written_app a b : written (a ++ b) = written a ++ written b.
Proof. unfold written. by rewrite map_app, concat_app. Qed.

Lemma written_one b h : written [(b, h)] = b.
Proof. unfold written. cbn. by rewrite app_nil_r. Qed.

Lemma new_builder_tb_inv : exists r, new_TableBuilder opt [] = Ret r /\ tb_inv r [] [] [].
Proof.
  assert (forall fb, filter_inv (mkRep opt (with_restart_interval opt 1) [] 0 Status.OK new_BlockBuilder
    new_BlockBuilder [] 0 false fb false new_BlockHandle) [] [] ->
    tb_inv (mkRep opt (with_restart_interval opt 1) [] 0 Status.OK new_BlockBuilder new_BlockBuilder [] 0 false fb
      false new_BlockHandle) [] [] []) as Hinv.
  { intros fb Hf. split; [|by split; [split; [|left]|]]. split; try done.
    - split; constructor.
    - exists [], [0%nat]. split; [by apply new_block_builder_inv|done].
    - exists [], [0%nat]. split; [by apply new_block_builder_inv|done]. }
  unfold new_TableBuilder. destruct (filter_policy opt) as [name|] eqn:Ef.
  - change (StartBlock new_FilterBlockBuilder 0) with (Ret new_FilterBlockBuilder). cbn [mbind res_bind].
    eexists. split; [done|]. apply Hinv. exists name, [], []. split; [done|]. split; [done|]. split; [done|].
    split; [done|]. split; [by intros b h e ?%not_elem_of_nil|by intros e ?%not_elem_of_nil].
  - cbn [mbind res_bind]. eexists. split; [done|]. by apply Hinv.
Qed.

(** ** Add *)

(** Every index key so far is below the keys that follow. *)
Lemma seps_below r seps ws cur e sep : tb_core r seps ws cur -> tb_pending r seps ws cur ->
  in_order ((written ws ++ cur) ++ [e]) -> sep ∈ seps -> tight (written ws ++ cur) sep e.1.
Proof.
  intros Hc Hp Ho (i & Hi)%list_elem_of_lookup.
  assert (exists x, x ∈ written (drop (S i) ws) ++ cur) as [x Hx].
  { pose proof (lookup_lt_Some _ _ _ Hi) as Hlt. unfold tb_pending in Hp. destruct (pending_index_entry r).
    - destruct Hp as (Hl & -> & _). destruct (lookup_lt_is_Some_2 ws (S i) ltac:(lia)) as [w Hw].
      pose proof (tb_holds _ _ _ _ Hc) as HF. destruct (Forall_lookup_1 _ _ _ _ HF Hw) as [_ Hne].
      destruct w as [[|x b] h]; [done|]. exists x. rewrite (drop_S _ _ _ Hw). unfold written. cbn. left.
    - destruct Hp as (Hl & [->|Hne]); [cbn in Hl; lia|]. destruct cur as [|x cur]; [done|].
      exists x. apply elem_of_app. right. left. }
  destruct (lookup_lt_is_Some_2 ws i) as [w Hw].
  { apply lookup_lt_Some in Hi. unfold tb_pending in Hp. destruct (pending_index_entry r); lia. }
  destruct (tb_seps _ _ _ _ Hc _ _ _ Hi Hw) as (_ & _ & _ & HF). rewrite Forall_forall in HF.
  apply (tight_trans _ _ x.1); [apply HF; by apply list_elem_of_In|].
  pose proof (in_order_lt _ _ Ho) as HL. rewrite Forall_forall in HL. apply HL, list_elem_of_In.
  rewrite <- (take_drop (S i) ws), written_app, <- app_assoc. apply elem_of_app. by right.
Qed.

Lemma last_written ws b h : list.last ws = Some (b, h) -> b <> [] ->
  exists e, list.last (written ws) = Some e /\ e ∈ b.
Proof.
  intros Hl Hb. apply last_Some in Hl as [ws' ->]. rewrite written_app, written_one.
  destruct (list.last b) as [e|] eqn:E.
  - exists e. rewrite last_app, E. split; [done|]. by apply last_Some_elem_of.
  - by apply last_None in E.
Qed.

Lemma last_block_le ws b h x : list.last ws = Some (b, h) -> list.last (written ws) = Some x ->
  StronglySorted (fun x y => cmp_lt key_cmp x.1 y.1) (written ws) -> Forall (fun e => cmp_le key_cmp e.1 x.1) b.
Proof.
  intros [ws0 Hws]%last_Some [l Hx]%last_Some Hsort. rewrite Hx in Hsort.
  apply StronglySorted_app in Hsort as (Hbefore & _ & _). apply Forall_forall. intros y Hy%list_elem_of_In.
  destruct (decide (y = x)) as [->|Hyx]; [done|]. apply cmp_lt_le.
  apply (Hbefore y x); [|by apply list_elem_of_singleton].
  assert (y ∈ written ws) as Hyw.
  { rewrite Hws, written_app, written_one. apply elem_of_app. by right. }
  rewrite Hx in Hyw. apply elem_of_app in Hyw as [|Hyw]; [done|]. by apply list_elem_of_singleton in Hyw.
Qed.

Lemma index_entries_snoc seps ws sep w : length ws = length seps ->
  index_entries (seps ++ [sep]) (ws ++ [w]) = index_entries seps ws ++ [(sep, handle_EncodeTo w.2 [])].
Proof. intros Hl. unfold index_entries. by rewrite zip_with_app by done. Qed.

Lemma index_entries_more seps ws ws' : length seps = length ws ->
  index_entries seps (ws ++ ws') = index_entries seps ws.
Proof.
  unfold index_entries. revert ws. induction seps as [|s seps IH]; intros [|w ws] [=]; cbn; [done|]. by rewrite IH.
Qed.

(** One more index entry, for the last block. *)
Lemma index_add r seps ws w sep last pending : tb_core r seps (ws ++ [w]) [] -> length ws = length seps ->
  key_valid sep -> Forall (fun e => cmp_le key_cmp e.1 sep) w.1 ->
  (exists e, e ∈ w.1 /\ (length sep <= length e.1)%nat) ->
  tb_core (set_index r (BlockBuilder.Add (block_restart_interval (index_block_options r)) (index_block r) sep
    (handle_EncodeTo w.2 [])) last pending) (seps ++ [sep]) (ws ++ [w]) [].
Proof.
  intros Hc Hl Hv Hle Hlen. destruct Hc as [Hopt Hst Hoff Hfl Ho Hsm Hh Hs (es & rs & Hb & Ees) Hd Hf].
  split; try done.
  - intros i sep' w' Hi Hw. apply lookup_app_Some in Hi as [Hi|[Hge Hi]].
    { by apply (Hs i). }
    apply list_lookup_singleton_Some in Hi as [Hi <-]. assert (i = length ws) as -> by lia.
    rewrite list_lookup_middle in Hw by done. injection Hw as <-. split; [done|]. split; [done|]. split; [done|].
    rewrite drop_ge by (rewrite length_app; cbn; lia). constructor.
  - destruct Hopt as [_ ->]. cbn [with_restart_interval block_restart_interval].
    destruct (block_Add_spec 1 ltac:(lia) _ es rs sep (handle_EncodeTo w.2 []) Hb) as (d & rs' & Hb').
    eexists _, rs'. split; [exact Hb'|]. rewrite map_app, Ees. cbn.
    by rewrite index_entries_snoc, index_entries_more by done.
Qed.

Lemma emit_pending r seps ws cur e : tb_inv r seps ws cur -> in_order ((written ws ++ cur) ++ [e]) ->
  exists r' seps', add_pending_index (fun last_key => key_Separator last_key e.1) r = Ret r'
    /\ tb_core r' seps' ws cur /\ pending_index_entry r' = false /\ length ws = length seps'
    /\ Forall (fun s => tight (written ws ++ cur) s e.1) seps'.
Proof.
  intros (Hc & Hp & Hlast) Ho. unfold add_pending_index.
  assert (Forall (fun s => tight (written ws ++ cur) s e.1) seps) as Hbelow.
  { apply Forall_forall. intros s Hs%list_elem_of_In. by eapply seps_below. }
  unfold tb_pending in Hp. destruct (pending_index_entry r) eqn:Ep.
  2:{ exists r, seps. destruct Hp. by split. }
  destruct Hp as (Hl & -> & [b Hb]). pose proof Hb as (ws0 & Hws)%last_Some.
  pose proof (tb_holds _ _ _ _ Hc) as HF. rewrite Hws in HF. apply Forall_app in HF as [_ [_ Hne]%Forall_inv].
  cbn [fst] in Hne. destruct (last_written _ _ _ Hb Hne) as (x & Hx & Hxb).
  rewrite app_nil_r in *. rewrite Hlast, Hx. cbn in Ho.
  pose proof (in_order_lt _ _ Ho) as Hlt. pose proof Ho as [Hval _].
  assert (x ∈ written ws) as Hxw by by apply last_Some_elem_of.
  assert (key_valid x.1 /\ key_valid e.1) as [Hvx Hve].
  { apply Forall_app in Hval as [Hv1 Hv2]. rewrite Forall_forall in Hv1. split; [by apply Hv1, list_elem_of_In|].
    by apply Forall_inv in Hv2. }
  assert (cmp_lt key_cmp x.1 e.1) as Hxe by (rewrite Forall_forall in Hlt; by apply Hlt, list_elem_of_In).
  destruct (key_separator x.1 e.1 Hvx Hve Hxe) as (sep & -> & Hvs & Hle & Hlts & Hlen & Hor). cbn [mbind res_bind].
  eexists _, (seps ++ [sep]). split; [done|]. split.
  - rewrite Hws in Hc |- *. apply (index_add r seps ws0 (b, pending_handle r) sep sep false); [done| |done| |by exists x].
    + rewrite Hws, length_app in Hl. cbn in Hl. lia.
    + eapply list.Forall_impl; [exact (last_block_le ws b _ x Hb Hx (proj2 (proj1 (in_order_app _ _ Ho))))|]. intros y Hy. by transitivity x.1.
  - split; [done|]. split; [rewrite length_app; cbn; lia|]. apply Forall_app. split; [done|]. constructor; [|constructor].
    split; [done|]. destruct Hor as [->|Ha]; [left|by right]. apply list_elem_of_fmap. by exists x.
Qed.

Lemma promised_more fs pk pk' i key : promised fs pk i key -> promised fs (pk ++ pk') i key.
Proof. intros [Hl|[Hi Hk]]; [by left|]. right. split; [done|]. apply elem_of_app. by left. Qed.

Definition small (es : entries) : Prop := Z.of_nat (weight es + 20 * length es) + 8 < 2^32.

Lemma small_app es es' : small (es ++ es') -> small es.
Proof. unfold small. rewrite weight_app, length_app. lia. Qed.

Lemma add_entry r seps ws cur k v : tb_core r seps ws cur -> pending_index_entry r = false -> length ws = length seps ->
  Forall (fun s => tight (written ws ++ cur) s k) seps -> in_order ((written ws ++ cur) ++ [(k, v)]) ->
  small ((written ws ++ cur) ++ [(k, v)]) ->
  tb_inv (mkRep (options r) (index_block_options r) (file r) (offset r) (rep_status r)
      (BlockBuilder.Add (block_restart_interval (options r)) (data_block r) k v) (index_block r)
      k (num_entries r + 1) (closed r) (match filter_block r with Some fb => Some (AddKey fb k) | None => None end)
      (pending_index_entry r) (pending_handle r)) seps ws (cur ++ [(k, v)]).
Proof.
  intros [Hopt Hst Hoff Hfl _ _ Hh Hs Hi (es & rs & Hb & Ees) Hf] Hp Hl Hlt Ho Hsm. split; [|split].
  - split; try done; cbn [file index_block data_block options].
    + by rewrite app_assoc.
    + by rewrite app_assoc.
    + intros i sep w Hsep Hw. destruct (Hs i sep w Hsep Hw) as (H1' & H2' & H3' & H4').
      do 3 (split; [done|]). rewrite !app_assoc.
      apply (list.Forall_impl (fun e => tight (written ws ++ cur) sep e.1)); [|intros e; apply tight_more; intros x Hx; apply elem_of_app; by left].
      apply Forall_app. split; [done|]. constructor; [|constructor]. cbn. by apply (Forall_lookup_1 _ _ _ _ Hlt Hsep).
    + destruct Hopt as [-> _]. destruct (block_Add_spec _ HR _ es rs k v Hb) as (d & rs' & Hb').
      eexists _, rs'. split; [exact Hb'|]. by rewrite map_app, Ees.
    + unfold filter_inv in *. cbn [filter_block offset]. destruct (filter_block r) as [fb|]; [|done].
      destruct Hf as (name & fs & pk & Hn & Hfb & Hlen & Hpk & Hw & Hcur).
      exists name, fs, (pk ++ [k]). split; [done|]. split; [by apply AddKey_spec|]. split; [done|].
      split; [rewrite app_assoc, !(length_app _ [_]); cbn; lia|]. split.
      * intros b h e Hbh He. by eapply promised_more, Hw.
      * intros e [He|He]%elem_of_app; apply elem_of_app; [left; by apply Hcur|right].
        apply list_elem_of_singleton in He as ->. left.
  - unfold tb_pending. cbn [pending_index_entry]. rewrite Hp. split; [done|]. right. by destruct cur.
  - cbn [last_key]. by rewrite app_assoc, last_snoc.
Qed.

Lemma data_empty R0 b es rs : BlockBuilder.builder_inv R0 b es rs -> empty b = bool_decide (es = []).
Proof.
  intros Hb. unfold empty. apply bool_decide_ext. rewrite (bi_buffer _ _ _ _ Hb). split; [|by intros ->].
  destruct es as [|e es]; [done|]. change (enc_all (e :: es)) with (enc e ++ enc_all es). unfold enc.
  intros E. apply app_eq_nil in E as [E _]. apply app_eq_nil in E as [E _].
  destruct (EncodeVarint32_cons (u32 (Z.of_nat (s_shared e))) (u32_range _)) as (x & y & Ex). by rewrite Ex in E.
Qed.

Lemma weight_cons e es : weight (e :: es) = (length e.1 + length e.2 + 19 + weight es)%nat.
Proof. done. Qed.

Lemma weight_ge es : (19 * length es <= weight es)%nat.
Proof. induction es as [|e es IH]; [done|]. cbn. fold (weight es). lia. Qed.

(** The block of the current entries, as it is stored. *)
Lemma flush_block R0 b cur es rs : BlockBuilder.builder_inv R0 b es rs -> map kv es = cur -> in_order cur ->
  Z.of_nat (weight cur) + 8 < 2^32 -> opens_as (snd (BlockBuilder.Finish b)) cur
    /\ (length (snd (BlockBuilder.Finish b)) <= weight cur + 8)%nat.
Proof.
  intros Hb <- Ho Hs. pose proof (length_Finish _ _ _ _ Hb) as Hl. split; [|done].
  rewrite (block_Finish_spec _ _ _ _ Hb) in Hl |- *. apply render_opens; [by apply (bi_layout _ _ _ _ Hb)| |].
  - by apply in_order_sorted.
  - lia.
Qed.

Lemma filter_index_mono a b : 0 <= a <= b -> (filter_index a <= filter_index b)%nat.
Proof.
  intros Hab. unfold filter_index. assert (a / kFilterBase <= b / kFilterBase) by (apply Z.div_le_mono; [done|lia]). lia.
Qed.

(** The block just written joins the others, and its index entry is pending. *)
Lemma flush_core r seps ws cur c t raw fb : tb_core r seps ws cur -> length ws = length seps -> cur <> [] ->
  packed raw c t -> opens_as raw cur -> (length c <= weight cur + 8)%nat ->
  let f := file r ++ c ++ trailer c t in
  let h := mkHandle (offset r) (Z.of_nat (length c)) in
  let r' := mkRep (options r) (index_block_options r) f (Z.of_nat (length f)) Status.OK new_BlockBuilder (index_block r)
    (last_key r) (num_entries r) (closed r) fb true h in
  filter_inv r' (ws ++ [(cur, h)]) [] -> tb_core r' seps (ws ++ [(cur, h)]) [].
Proof.
  intros [Hopt Hst Hoff Hfl Ho Hsm Hh Hs Hi Hd Hf] Hl Hne Hp Hop Hlc f h r' Hf'.
  assert (written (ws ++ [(cur, h)]) = written ws ++ cur) as Ew by by rewrite written_app, written_one.
  subst r'. split; try done; cbn [file offset index_block data_block].
  - unfold f. rewrite Ew, weight_app, !length_app, length_trailer. destruct cur; [done|]. cbn [length]. lia.
  - by rewrite Ew, app_nil_r.
  - by rewrite Ew, app_nil_r.
  - apply Forall_app. split.
    + eapply list.Forall_impl; [exact Hh|]. intros [b hb] [H1' H2']. split; [|done]. by apply holds_app.
    + constructor; [|constructor]. split; [|done]. exists raw. split; [|done].
      unfold f, h. cbn [snd]. rewrite <- (app_nil_r (file r ++ c ++ trailer c t)). by apply stored_here.
  - intros i sep w Hsep Hw. apply lookup_app_Some in Hw as [Hw|[Hge _]].
    2:{ apply lookup_lt_Some in Hsep. lia. }
    destruct (Hs i sep w Hsep Hw) as (H1' & H2' & H3' & H4'). do 3 (split; [done|]).
    rewrite drop_app_le by (apply lookup_lt_Some in Hw; lia). by rewrite !written_app, !written_one, !app_nil_r.
  - destruct Hi as (es & rs & Hb & Ees). exists es, rs. split; [done|]. by rewrite index_entries_more.
  - exists [], [0%nat]. split; [by apply new_block_builder_inv|done].
Qed.

Lemma Flush_spec r seps ws cur : tb_inv r seps ws cur ->
  exists r' ws', Flush r = Ret r' /\ tb_inv r' seps ws' [] /\ written ws' = written ws ++ cur.
Proof.
  intros (Hc & Hp & Hlast). pose proof Hc as [Hopt Hst Hoff Hfl Ho Hsm Hh Hs Hi (es & rs & Hb & Ees) Hf].
  unfold Flush, ok. rewrite Hst. cbn [Status.ok Status.OK negb]. rewrite (data_empty _ _ _ _ Hb).
  destruct cur as [|e0 cur0] eqn:Ecur.
  { destruct es; [|done]. rewrite bool_decide_true by done. exists r, ws. split; [done|]. by rewrite app_nil_r. }
  rewrite <- Ecur in *. rewrite bool_decide_false by (intros ->; by rewrite Ecur in Ees).
  assert (cur <> []) as Hne by by rewrite Ecur.
  unfold tb_pending in Hp. destruct (pending_index_entry r) eqn:Ep; [by destruct Hp as (_ & ? & _)|].
  destruct Hp as [Hl _]. apply in_order_app in Ho as [Ho1 Ho2].
  assert (Z.of_nat (weight cur) + 8 < 2^32) as Hsc by (rewrite weight_app, length_app in Hsm; lia).
  destruct (flush_block _ _ _ _ _ Hb Ees Ho2 Hsc) as [Hop Hlr].
  destruct (WriteBlock_spec r (data_block r)) as (c & t & -> & Hpk & Hlc). cbn [mbind res_bind].
  set (raw := snd (BlockBuilder.Finish (data_block r))) in *. set (f := file r ++ c ++ trailer c t).
  assert (length f = length (file r) + length c + 5)%nat as Elf.
  { unfold f. rewrite !length_app, length_trailer. lia. }
  assert (Z.of_nat (length f) < 2^32) as Hf32.
  { rewrite Elf. rewrite weight_app, length_app in Hsm.
    assert (length cur <> 0%nat) by (by destruct cur). lia. }
  assert (u64 (offset r + (Z.of_nat (length c) + 5)) = Z.of_nat (length f)) as ->.
  { rewrite u64_small; lia. }
  unfold ok. cbn [set_data set_file set_index rep_status Status.ok Status.OK file offset filter_block file_flush string_writable
    options index_block_options index_block last_key num_entries closed pending_handle data_block].
  set (h := mkHandle (offset r) (Z.of_nat (length c))).
  assert (written (ws ++ [(cur, h)]) = written ws ++ cur) as Ew by by rewrite written_app, written_one.
  assert (forall r', last_key r' = last_key r -> pending_index_entry r' = true -> pending_handle r' = h ->
    tb_core r' seps (ws ++ [(cur, h)]) [] -> tb_inv r' seps (ws ++ [(cur, h)]) []) as Hdone.
  { intros r' E1 E2 E3 Hcore. split; [done|]. split.
    - unfold tb_pending. rewrite E2, E3. split; [rewrite length_app; cbn; lia|]. split; [done|].
      exists cur. by rewrite last_snoc.
    - by rewrite E1, Ew, app_nil_r. }
  unfold filter_inv in Hf. destruct (filter_block r) as [fb|] eqn:Efb.
  - destruct Hf as (name & fs & pk & Hn & Hfb & Hlen & Hpkl & Hw & Hcur).
    destruct (StartBlock_spec fb fs pk (Z.of_nat (length f)) Hfb) as (fb' & fs' & pk' & -> & Hfb' & Hlen' & Hpkl' & Hmono).
    { rewrite weight_app, length_app in *. pose proof (weight_ge (written ws)). pose proof (weight_ge cur). lia. }
    { rewrite Hlen. apply filter_index_mono. lia. }
    cbn [mbind res_bind]. eexists _, _. split; [done|]. split; [|done]. apply Hdone; [done..|].
    apply (flush_core r seps ws cur c t raw (Some fb')); [done|done|done|done|done|lia|].
    exists name, fs', pk'. split; [done|]. split; [done|]. split; [done|].
    split; [rewrite written_app, written_one, app_nil_r; lia|]. split; [|by intros e ?%not_elem_of_nil].
    intros b hb e [Hin|Hin]%elem_of_app He; apply Hmono; [by eapply Hw|].
    apply list_elem_of_singleton in Hin. injection Hin as -> ->. right. split; [done|]. by apply Hcur.
  - eexists _, _. split; [done|]. split; [|done]. apply Hdone; [done..|].
    apply (flush_core r seps ws cur c t raw (filter_block r)); [done|done|done|done|done|lia|].
    unfold filter_inv. cbn [filter_block]. by rewrite Efb.
Qed.

Lemma table_Add_spec r seps ws cur k v : tb_inv r seps ws cur -> in_order ((written ws ++ cur) ++ [(k, v)]) ->
  small ((written ws ++ cur) ++ [(k, v)]) ->
  exists r' seps' ws' cur', Add r k v = Ret r' /\ tb_inv r' seps' ws' cur'
    /\ written ws' ++ cur' = (written ws ++ cur) ++ [(k, v)].
Proof.
  intros Hinv Ho Hsm. unfold Add, ok. rewrite (tb_status _ _ _ _ (proj1 Hinv)). cbn [Status.ok Status.OK negb].
  destruct (emit_pending r seps ws cur (k, v) Hinv Ho) as (r1 & seps1 & E1 & Hc1 & Hp1 & Hl1 & Hlt).
  cbn [fst] in E1, Hlt. rewrite E1. cbn [mbind res_bind].
  pose proof (add_entry r1 seps1 ws cur k v Hc1 Hp1 Hl1 Hlt Ho Hsm) as Hinv2.
  match type of Hinv2 with tb_inv ?x _ _ _ => set (r2 := x) in * end. case_decide as Hfull.
  - destruct (Flush_spec r2 _ _ _ Hinv2) as (r3 & ws3 & -> & Hinv3 & E3). exists r3, seps1, ws3, [].
    split; [done|]. split; [done|]. by rewrite app_nil_r, E3, app_assoc.
  - exists r2, seps1, ws, (cur ++ [(k, v)]). split; [done|]. split; [done|]. by rewrite app_assoc.
Qed.

Lemma add_all_spec kvs r seps ws cur : tb_inv r seps ws cur -> in_order ((written ws ++ cur) ++ kvs) ->
  small ((written ws ++ cur) ++ kvs) ->
  exists r' seps' ws' cur', add_all r kvs = Ret r' /\ tb_inv r' seps' ws' cur'
    /\ written ws' ++ cur' = (written ws ++ cur) ++ kvs.
Proof.
  revert r seps ws cur. induction kvs as [|[k v] kvs IH]; intros r seps ws cur Hinv Ho Hsm; cbn [add_all].
  { exists r, seps, ws, cur. split; [done|]. split; [done|]. by rewrite app_nil_r. }
  replace ((written ws ++ cur) ++ (k, v) :: kvs) with (((written ws ++ cur) ++ [(k, v)]) ++ kvs) in *
    by (by rewrite <- app_assoc).
  destruct (table_Add_spec r seps ws cur k v Hinv) as (r1 & seps1 & ws1 & cur1 & -> & Hinv1 & E1).
  { by apply in_order_app in Ho as [? _]. }
  { by apply small_app in Hsm. }
  cbn [mbind res_bind]. rewrite <- E1 in Ho, Hsm |- *. by apply (IH r1 seps1).
Qed.

(** ** Finish *)

Lemma length_EncodeVarint64_any v : (length (EncodeVarint64 v) <= 10)%nat.
Proof.
  unfold EncodeVarint64. generalize 10%nat. intros n. revert v. induction n as [|n IH]; intros v; cbn; [lia|].
  case_match; cbn; [|lia]. specialize (IH (Z.shiftr v 7)). lia.
Qed.

Lemma length_handle_any h : (length (handle_EncodeTo h []) <= 20)%nat.
Proof.
  unfold handle_EncodeTo, PutVarint64. rewrite app_nil_l, length_app.
  pose proof (length_EncodeVarint64_any (offset_ h)). pose proof (length_EncodeVarint64_any (size_ h)). lia.
Qed.

Lemma index_at seps ws i e : index_entries seps ws !! i = Some e ->
  exists sep w, seps !! i = Some sep /\ ws !! i = Some w /\ e = (sep, handle_EncodeTo w.2 []).
Proof.
  unfold index_entries. intros E. apply lookup_zip_with_Some in E as (sep & w & -> & Es & Ew). by exists sep, w.
Qed.

(** What the index keys are when all are known. *)
Definition seps_ok (seps : list bytes) (ws : list (entries * BlockHandle)) : Prop :=
  forall i sep w, seps !! i = Some sep -> ws !! i = Some w ->
    key_valid sep /\ Forall (fun e => cmp_le key_cmp e.1 sep) w.1
    /\ (exists e, e ∈ w.1 /\ (length sep <= length e.1)%nat)
    /\ Forall (fun e => tight (written ws) sep e.1) (written (drop (S i) ws)).

Lemma index_in_order seps ws : seps_ok seps ws -> in_order (index_entries seps ws).
Proof.
  intros Hs. split.
  - apply Forall_forall. intros e He%list_elem_of_In. apply list_elem_of_lookup in He as [i Hi].
    apply index_at in Hi as (sep & w & Es & Ew & ->). by apply (Hs i sep w).
  - apply StronglySorted_from. intros i j x y Hij Hx Hy.
    apply index_at in Hx as (sx & wx & Esx & Ewx & ->). apply index_at in Hy as (sy & wy & Esy & Ewy & ->). cbn.
    destruct (Hs i sx wx Esx Ewx) as (_ & _ & _ & Hlt). destruct (Hs j sy wy Esy Ewy) as (_ & Hle & (e & He & _) & _).
    rewrite Forall_forall in Hle, Hlt. apply (cmp_lt_le_trans _ _ e.1); [|by apply Hle, list_elem_of_In].
    apply Hlt, list_elem_of_In. unfold written. apply list_elem_of_In, in_concat. exists wy.1.
    split; [|by apply list_elem_of_In]. apply list_elem_of_In, list_elem_of_fmap. exists wy. split; [done|].
    apply list_elem_of_lookup. exists (j - S i)%nat. rewrite lookup_drop. by replace (S i + (j - S i))%nat with j by lia.
Qed.

Lemma elem_weight e es : e ∈ es -> (length e.1 + 39 <= weight es + 20 * length es)%nat.
Proof.
  intros He. apply list_elem_of_split in He as (a & b & ->). rewrite weight_app, length_app. cbn. fold (weight b). lia.
Qed.

Lemma index_weight seps ws : length seps = length ws ->
  (forall i sep w, seps !! i = Some sep -> ws !! i = Some w -> exists e, e ∈ w.1 /\ (length sep <= length e.1)%nat) ->
  (weight (index_entries seps ws) <= weight (written ws) + 20 * length (written ws))%nat.
Proof.
  revert ws. induction seps as [|sep seps IH]; intros [|w ws] [=] Hs; [done|].
  destruct (Hs 0%nat sep w eq_refl eq_refl) as (e & He & Hl). apply elem_weight in He.
  specialize (IH ws ltac:(done) (fun i => Hs (S i))).
  change (written (w :: ws)) with (w.1 ++ written ws).
  change (index_entries (sep :: seps) (w :: ws)) with ((sep, handle_EncodeTo w.2 []) :: index_entries seps ws).
  rewrite weight_app, length_app, weight_cons. pose proof (length_handle_any w.2). cbn [fst snd]. lia.
Qed.

Lemma core_seps r seps ws : tb_core r seps ws [] -> seps_ok seps ws.
Proof.
  intros Hc i sep w Hs Hw. destruct (tb_seps _ _ _ _ Hc i sep w Hs Hw) as (Hv & Hle & Hlen & Hlt).
  rewrite !app_nil_r in Hlt. by split.
Qed.

(** The last index entry, if one is pending, closes the index. *)
Lemma emit_last r seps ws f o : tb_inv r seps ws [] ->
  exists r' seps', add_pending_index key_Successor (set_file r f o Status.OK) = Ret (set_file r' f o Status.OK)
    /\ tb_core r' seps' ws [] /\ length seps' = length ws.
Proof.
  intros (Hc & Hp & Hlast). unfold tb_pending in Hp. unfold add_pending_index. cbn [set_file pending_index_entry].
  destruct (pending_index_entry r) eqn:Ep.
  2:{ exists r, seps. split; [by destruct r|]. split; [done|]. destruct Hp as [-> _]. done. }
  destruct Hp as (Hl & _ & [b Hb]). pose proof Hb as (ws0 & Hws)%last_Some.
  pose proof (tb_holds _ _ _ _ Hc) as HF. rewrite Hws in HF. apply Forall_app in HF as [_ [_ Hne]%Forall_inv].
  cbn [fst] in Hne. destruct (last_written _ _ _ Hb Hne) as (x & Hx & Hxb).
  pose proof (tb_order _ _ _ _ Hc) as [Hval Hsort]. rewrite app_nil_r in *.
  cbn [set_file last_key]. rewrite Hlast, Hx.
  assert (x ∈ written ws) as Hxw by by apply last_Some_elem_of.
  destruct (key_successor x.1) as (sep & -> & Hvs & Hle & Hlen).
  { rewrite Forall_forall in Hval. by apply Hval, list_elem_of_In. }
  cbn [mbind res_bind]. eexists (set_index r _ sep false), (seps ++ [sep]). split; [by cbn|]. split.
  - rewrite Hws in Hc |- *. apply (index_add r seps ws0 (b, pending_handle r) sep sep false); [done| |done| |by exists x].
    + rewrite Hws, length_app in Hl. cbn in Hl. lia.
    + eapply list.Forall_impl; [exact (last_block_le ws b _ x Hb Hx Hsort)|]. intros y Hy. by transitivity x.1.
  - rewrite length_app. cbn. lia.
Qed.

Lemma finish_index_spec r seps ws f o : tb_inv r seps ws [] ->
  exists r' seps' raw c t, finish_index (set_file r f o Status.OK) = Ret (r', mkHandle o (Z.of_nat (length c)))
    /\ file r' = f ++ c ++ trailer c t /\ offset r' = u64 (o + (Z.of_nat (length c) + 5)) /\ rep_status r' = Status.OK
    /\ packed raw c t /\ opens_as raw (index_entries seps' ws) /\ length seps' = length ws /\ seps_ok seps' ws.
Proof.
  intros Hinv. unfold finish_index, ok. change (Status.ok (rep_status (set_file r f o Status.OK))) with true. cbn iota.
  destruct (emit_last r seps ws f o Hinv) as (r1 & seps1 & -> & Hc1 & Hl1). cbn [mbind res_bind].
  destruct (tb_index _ _ _ _ Hc1) as (es & rs & Hb & Ees). pose proof (core_seps _ _ _ Hc1) as Hsk.
  pose proof (tb_small _ _ _ _ Hc1) as Hsm. rewrite app_nil_r in Hsm.
  destruct (flush_block _ _ _ _ _ Hb Ees) as [Hop _].
  { by apply index_in_order. }
  { enough (weight (index_entries seps1 ws) <= weight (written ws) + 20 * length (written ws))%nat by lia.
    apply index_weight; [done|]. intros i sep w Hs Hw. by apply (Hsk i sep w). }
  change (index_block (set_file r1 f o Status.OK)) with (index_block r1).
  destruct (WriteBlock_spec (set_file r1 f o Status.OK) (index_block r1)) as (c & t & -> & Hpk & _). cbn [mbind res_bind].
  eexists _, seps1, _, c, t. split; [done|]. by repeat (split; [done|]).
Qed.

(** A table file: its data blocks, the index over them, the metaindex with the
    handle of the filter, and the footer. *)
Record table_file (f : bytes) (kvs : entries) (seps : list bytes) (ws : list (entries * BlockHandle))
    (metaindex index : BlockHandle) : Prop := {
  tf_written : written ws = kvs;
  tf_length : length seps = length ws;
  tf_seps : seps_ok seps ws;
  tf_holds : Forall (fun w => holds f w.1 w.2) ws;
  tf_index : holds f (index_entries seps ws) index;
  tf_metaindex : exists raw, stored f metaindex raw;
  tf_filter : match filter_policy opt with
    | None => True
    | Some name => exists raw hf fs, stored f metaindex raw
        /\ @opens user_Compare ucmp (fun _ => True) raw [(lit "filter." ++ name, handle_EncodeTo hf [])]
        /\ stored f hf (FilterBlock.filter_block fs) /\ (length (FilterBlock.filter_block fs) <= length f)%nat
        /\ forall b h e, (b, h) ∈ ws -> e ∈ b -> promised fs [] (filter_index (offset_ h)) e.1
    end;
  tf_footer : exists body, f = body ++ footer_EncodeTo (mkFooter metaindex index) [];
}.

Lemma meta_opens name hf : Z.of_nat (length name) < 2^31 ->
  @opens user_Compare ucmp (fun _ => True)
    (snd (BlockBuilder.Finish (BlockBuilder.Add (block_restart_interval opt) new_BlockBuilder
      (lit "filter." ++ name) (handle_EncodeTo hf []))))
    [(lit "filter." ++ name, handle_EncodeTo hf [])].
Proof.
  intros Hn. set (e := (lit "filter." ++ name, handle_EncodeTo hf [])).
  apply (built_block_opens (block_restart_interval opt) [e] HR).
  - split; [by constructor|]. cbn. constructor; [constructor|constructor].
  - destruct (add_entries_spec (block_restart_interval opt) HR [e] _ _ _ (new_block_builder_inv _ HR)) as (es & rs & Hb & Ees).
    pose proof (length_Finish _ _ _ _ Hb) as Hl. rewrite Ees in Hl. cbn [map app] in Hl. rewrite weight_cons in Hl.
    unfold e at 2 3 in Hl. cbn [fst snd] in Hl. rewrite length_app in Hl. change (length (lit "filter.")) with 7%nat in Hl.
    change (weight []) with 0%nat in Hl. pose proof (length_handle_any hf).
    apply Nat2Z.inj_le in Hl. eapply Z.le_lt_trans; [exact Hl|]. lia.
Qed.

(** [close] touches nothing the invariant speaks of. *)
Lemma close_inv r seps ws cur : tb_inv r seps ws cur -> tb_inv (close r) seps ws cur.
Proof. intros ([] & Hp & Hl). split; [|split]; [by split|done|done]. Qed.

(** Offsets are exact in a file shorter than 2^64 bytes. *)
Lemma exact_offset (f : bytes) (c : bytes) o t : o = Z.of_nat (length f) -> Z.of_nat (length (f ++ c ++ trailer c t)) < 2^64 ->
  u64 (o + (Z.of_nat (length c) + 5)) = Z.of_nat (length (f ++ c ++ trailer c t)).
Proof. intros ->. rewrite !length_app, length_trailer. intros Hl. rewrite u64_small; lia. Qed.

Lemma finish_footer_eq (r : Rep bytes) m i : rep_status r = Status.OK ->
  file (finish_footer r m i) = file r ++ footer_EncodeTo (mkFooter m i) []
  /\ rep_status (finish_footer r m i) = Status.OK.
Proof. intros Hs. unfold finish_footer, ok. by rewrite Hs. Qed.

(** The filter block, when there is a policy, with every key it promises. *)
Lemma finish_filter_spec r seps ws : tb_inv r seps ws [] ->
  exists r' x o hf, finish_filter r = Ret (r', hf) /\ r' = set_file r (file r ++ x) o Status.OK
    /\ (Z.of_nat (length (file r ++ x)) < 2^64 -> o = Z.of_nat (length (file r ++ x))
         /\ match filter_block r with
            | None => filter_policy opt = None
            | Some _ => exists name fs, filter_policy opt = Some name
                /\ stored (file r ++ x) hf (FilterBlock.filter_block fs)
                /\ (length (FilterBlock.filter_block fs) <= length (file r ++ x))%nat
                /\ forall b h e, (b, h) ∈ ws -> e ∈ b -> promised fs [] (filter_index (offset_ h)) e.1
            end).
Proof.
  intros (Hc & _). pose proof (tb_filter _ _ _ _ Hc) as Hf. pose proof (tb_status _ _ _ _ Hc) as Hst.
  pose proof (tb_offset _ _ _ _ Hc) as Hoff. pose proof (tb_small _ _ _ _ Hc) as Hsm.
  unfold filter_inv in Hf. unfold finish_filter, ok. rewrite Hst. cbn [Status.ok Status.OK].
  destruct (filter_block r) as [fb|] eqn:Efb.
  - destruct Hf as (name & fs & pk & Hn & Hfb & Hlen & Hpk & Hw & _).
    destruct (FilterBlock.Finish_spec fb fs pk Hfb) as (fs' & -> & Hmono).
    { pose proof (weight_ge (written ws ++ [])). lia. }
    cbn [mbind res_bind]. set (c := FilterBlock.filter_block fs').
    destruct (WriteRawBlock_spec r c kNoCompression) as (r' & -> & ->). eexists _, (c ++ trailer c kNoCompression), _, _.
    split; [done|]. split; [done|]. intros Hl. split; [by apply exact_offset|]. exists name, fs'. split; [done|].
    split; [|split; [fold c; rewrite !length_app; lia|intros b h e Hb He; by eapply Hmono, Hw]].
    rewrite <- (app_nil_r (file r ++ c ++ trailer c kNoCompression)). by apply stored_here.
  - eexists r, [], (offset r), _. rewrite app_nil_r. split; [done|]. split; [destruct r; cbn in *; by subst|]. done.
Qed.

Lemma finish_metaindex_spec r f o hf seps ws : tb_inv r seps ws [] ->
  (forall name, filter_policy opt = Some name -> Z.of_nat (length name) < 2^31) ->
  exists c t raw, finish_metaindex (set_file r f o Status.OK) hf
      = Ret (set_file r (f ++ c ++ trailer c t) (u64 (o + (Z.of_nat (length c) + 5))) Status.OK, mkHandle o (Z.of_nat (length c)))
    /\ packed raw c t
    /\ match filter_block r with
       | None => True
       | Some _ => forall name, filter_policy opt = Some name ->
           @opens user_Compare ucmp (fun _ => True) raw [(lit "filter." ++ name, handle_EncodeTo hf [])]
       end.
Proof.
  intros (Hc & _) Hname. pose proof (tb_filter _ _ _ _ Hc) as Hf. destruct (tb_options _ _ _ _ Hc) as [Hopt _].
  unfold finish_metaindex, ok. change (Status.ok (rep_status (set_file r f o Status.OK))) with true. cbn iota.
  change (filter_block (set_file r f o Status.OK)) with (filter_block r).
  change (options (set_file r f o Status.OK)) with (options r). rewrite Hopt.
  unfold filter_inv in Hf. destruct (filter_block r) as [fb|].
  - destruct Hf as (name & fs & pk & Hn & _). rewrite Hn. cbn [of_option mbind res_bind].
    match goal with |- context [WriteBlock ?a ?b] => destruct (WriteBlock_spec a b) as (c & t & -> & Hpk & _) end.
    cbn [mbind res_bind]. exists c, t. eexists. split; [done|]. split; [exact Hpk|].
    intros name' [= ->]. apply meta_opens. by apply Hname.
  - cbn [mbind res_bind].
    match goal with |- context [WriteBlock ?a ?b] => destruct (WriteBlock_spec a b) as (c & t & -> & Hpk & _) end.
    cbn [mbind res_bind]. exists c, t. eexists. split; [done|]. by split; [exact Hpk|].
Qed.

Lemma table_Finish_spec r seps ws cur : tb_inv r seps ws cur ->
  (forall name, filter_policy opt = Some name -> Z.of_nat (length name) < 2^31) ->
  exists r', Finish r = Ret (r', Status.OK)
    /\ (Z.of_nat (length (file r')) < 2^64 ->
        exists seps' ws' hm hi, table_file (file r') (written ws ++ cur) seps' ws' hm hi).
Proof.
  intros Hinv Hname. unfold Finish. destruct (Flush_spec r seps ws cur Hinv) as (r1 & ws1 & -> & Hinv1 & Ew).
  cbn [mbind res_bind]. apply close_inv in Hinv1. set (r2 := close r1) in *.
  destruct (finish_filter_spec r2 seps ws1 Hinv1) as (r3 & x & o3 & hf & -> & -> & Hfil). cbn [mbind res_bind].
  set (f3 := file r2 ++ x) in *.
  destruct (finish_metaindex_spec r2 f3 o3 hf seps ws1 Hinv1 Hname) as (c4 & t4 & raw4 & -> & Hp4 & Hm4). cbn [mbind res_bind].
  set (f4 := f3 ++ c4 ++ trailer c4 t4) in *. set (o4 := u64 (o3 + (Z.of_nat (length c4) + 5))) in *.
  destruct (finish_index_spec r2 seps ws1 f4 o4 Hinv1)
    as (r5 & seps' & raw5 & c5 & t5 & -> & Hf5 & Ho5 & Hs5 & Hp5 & Hop5 & Hl5 & Hsk). cbn [mbind res_bind].
  set (hm := mkHandle o3 (Z.of_nat (length c4))) in *. set (hi := mkHandle o4 (Z.of_nat (length c5))) in *.
  destruct (finish_footer_eq r5 hm hi Hs5) as [Hff Hfs]. rewrite Hfs. eexists. split; [done|].
  rewrite Hff, Hf5. set (foot := footer_EncodeTo (mkFooter hm hi) []). set (f5 := f4 ++ c5 ++ trailer c5 t5). intros Hl.
  assert (Z.of_nat (length f3) < 2^64 /\ Z.of_nat (length f4) < 2^64) as [Hl3 Hl4].
  { unfold f5, f4 in *. rewrite !length_app in *. lia. }
  destruct (Hfil Hl3) as [Eo3 Hfil'].
  assert (o4 = Z.of_nat (length f4)) as Eo4 by (by apply exact_offset).
  assert (stored (f5 ++ foot) hm raw4) as Hm.
  { exists f3, c4, t4, ((c5 ++ trailer c5 t5) ++ foot). unfold f5, f4, hm. rewrite Eo3, <- !app_assoc. by split. }
  assert (stored (f5 ++ foot) hi raw5) as Hi.
  { exists f4, c5, t5, foot. unfold f5, hi. rewrite Eo4, <- !app_assoc. by split. }
  exists seps', ws1, hm, hi. destruct Hinv1 as (Hc & _). split; [done|done|done| | | | |].
  - eapply list.Forall_impl; [exact (tb_holds _ _ _ _ Hc)|]. intros w [Hw _].
    unfold f5, f4, f3. rewrite <- !app_assoc. by apply holds_app.
  - by exists raw5.
  - by exists raw4.
  - pose proof (tb_filter _ _ _ _ Hc) as Hfi. unfold filter_inv in Hfi.
    destruct (filter_block r2) as [fb|]; [|by rewrite Hfi].
    destruct Hfil' as (name & fs & En & Hst & Hlen & Hpr). rewrite En. exists raw4, hf, fs. split; [done|]. split; [by apply Hm4|].
    split; [|split; [|done]]; unfold f5, f4; rewrite <- !app_assoc; [by apply stored_app|].
    rewrite (length_app f3). lia.
  - by exists f5.
Qed.

(** Building a table in memory ends well, and the file is a table. *)
Lemma build_table_spec kvs : in_order kvs -> small kvs ->
  (forall name, filter_policy opt = Some name -> Z.of_nat (length name) < 2^31) ->
  exists r, build_table opt [] kvs = Ret (r, Status.OK)
    /\ (Z.of_nat (length (file r)) < 2^64 -> exists seps ws hm hi, table_file (file r) kvs seps ws hm hi).
Proof.
  intros Ho Hs Hname. unfold build_table. destruct new_builder_tb_inv as (r0 & -> & Hinv0). cbn [mbind res_bind].
  destruct (add_all_spec kvs r0 [] [] [] Hinv0 Ho Hs) as (r1 & seps & ws & cur & -> & Hinv1 & E). cbn [mbind res_bind].
  cbn in E. destruct (table_Finish_spec r1 seps ws cur Hinv1 Hname) as (r2 & -> & Htf). exists r2. split; [done|].
  by rewrite <- E.
Qed.
End built.
