(* ===== verification/Table.v ===== *)
(** * Table: include/leveldb/table.h, table/table.cc

    Reads a table file: opens it, iterates over it, and gets a key.  With
    TableBuilder.v it is proved that what was added is what is read. *)

From S2P Require Import Prelude CLib Coding Crc32c Status DbFormat SkipList Log Bloom FilterBlock Iterator.
From S2P Require Import BlockBuilder Block TwoLevel TableFormat KeyOrder TableBuilder.

(** A block's iterator: the empty one of a bad or empty block, or [Block::Iter]. *)
Abbreviation block_iterator := (EmptyIterator + Iter)%type.

Section table.
Context `{!KeyOrder} {F : Type} `{!RandomAccessFile F} `{!Snappy} `{!Address} `{!FilterPolicy}.

#[export] Instance block_iterator_iterator : Iterator.Iterator block_iterator :=
  sum_iterator (Iterator1 := Iter_iterator key_Compare).
(** The metaindex is in the order of the bytewise comparator. *)
Definition meta_iterator : Iterator.Iterator block_iterator :=
  sum_iterator (Iterator1 := Iter_iterator (user_Compare (H := BytewiseComparator))).

(** The cache of blocks, as the answers of its [Lookup]; what is inserted is
    an output of [BlockReader]. *)
Abbreviation block_lookup := (bytes -> option Block).

Record Table := mkTable {
  t_options : Options;
  t_file : F;
  cache_id : Z;
  filter : option FilterBlockReader;
  metaindex_handle : BlockHandle;
  index_block : Block;
}.

Record ReadOptions := mkReadOptions { verify_checksums : bool; fill_cache : bool }.
Definition default_ReadOptions : ReadOptions := mkReadOptions false true.

(** [ReadFilter]: the reader of the filter block; none on an error. *)
Definition ReadFilter (file : F) (filter_handle_value : bytes) : res (option FilterBlockReader) :=
  let '(s, filter_handle, _) := handle_DecodeFrom new_BlockHandle filter_handle_value in
  if negb (Status.ok s) then Ret None
  else
    '(s, block) ← ReadBlock file (verify_checksums default_ReadOptions) filter_handle;
    if negb (Status.ok s) then Ret None
    else r ← new_FilterBlockReader (data block); Ret (Some r).

Definition ReadMeta (opt : Options) (file : F) (footer : Footer) : res (option FilterBlockReader) :=
  match filter_policy opt with
  | None => Ret None
  | Some name =>
      '(s, contents) ← ReadBlock file (verify_checksums default_ReadOptions) (metaindex_handle_ footer);
      if negb (Status.ok s) then Ret None
      else
        meta ← new_Block (data contents);
        iter ← NewIterator meta;
        let key := lit "filter." ++ name in
        iter ← Seek (Iterator := meta_iterator) iter key;
        if Valid (Iterator := meta_iterator) iter then
          k ← Iterator.key (Iterator := meta_iterator) iter;
          if Slice.equal k key then
            v ← value (Iterator := meta_iterator) iter;
            ReadFilter file v
          else Ret None
        else Ret None
  end.

(** [Table::Open]; [new_id] is what [NewId] of the cache returns. *)
Definition Open (opt : Options) (new_id : Z) (file : F) (size : Z) : res (Status.t * option Table) :=
  if decide (size < Z.of_nat kEncodedLength) then
    Ret (Status.InvalidArgument (lit "file is too short to be an sstable") [], None)
  else
    let '(s, footer_input, _) := file_pread file (size - Z.of_nat kEncodedLength) (Z.of_nat kEncodedLength) in
    if negb (Status.ok s) then Ret (s, None)
    else
      '(s, footer, _) ← footer_DecodeFrom new_Footer footer_input;
      if negb (Status.ok s) then Ret (s, None)
      else
        '(s, contents) ← ReadBlock file (verify_checksums default_ReadOptions) (index_handle_ footer);
        if Status.ok s then
          index ← new_Block (data contents);
          filter ← ReadMeta opt file footer;
          Ret (s, Some (mkTable opt file new_id filter (metaindex_handle_ footer) index))
        else Ret (s, None).

Definition cache_key (id : Z) (handle : BlockHandle) : bytes := EncodeFixed64 id ++ EncodeFixed64 (offset_ handle).

(** [BlockReader]: an iterator over the block that an index value names, and
    what is given to the cache. *)
Definition BlockReader (t : Table) (cache : option block_lookup) (ro : ReadOptions) (index_value : bytes)
    : res (block_iterator * option (bytes * Block)) :=
  let '(s, handle, _) := handle_DecodeFrom new_BlockHandle index_value in
  '(s, block, insert) ←
    (if Status.ok s then
       match cache with
       | Some lookup =>
           let key := cache_key (cache_id t) handle in
           match lookup key with
           | Some block => Ret (s, Some block, None)
           | None =>
               '(s, contents) ← ReadBlock (t_file t) (verify_checksums ro) handle;
               if Status.ok s then
                 block ← new_Block (data contents);
                 Ret (s, Some block, if cachable contents && fill_cache ro then Some (key, block) else None)
               else Ret (s, None, None)
           end
       | None =>
           '(s, contents) ← ReadBlock (t_file t) (verify_checksums ro) handle;
           if Status.ok s then block ← new_Block (data contents); Ret (s, Some block, None)
           else Ret (s, None, None)
       end
     else Ret (s, None, None));
  match block with
  | Some block => iter ← NewIterator block; Ret (iter, insert)
  | None => Ret (inl (NewErrorIterator s), None)
  end.

Definition block_function (t : Table) (cache : option block_lookup) (ro : ReadOptions) (index_value : bytes)
    : res block_iterator := '(iter, _) ← BlockReader t cache ro index_value; Ret iter.

(** An index has at most as many entries as bytes. *)
Definition index_fuel (t : Table) : nat := S (length (Block.data_ (index_block t))).

Abbreviation TableIterator := (TwoLevelIterator (I := block_iterator) (D := block_iterator)).

Definition table_iterator (t : Table) (cache : option block_lookup) (ro : ReadOptions) : Iterator.Iterator TableIterator :=
  TwoLevelIterator_iterator (block_function t cache ro) (index_fuel t).

Definition table_NewIterator (t : Table) : res TableIterator :=
  index ← NewIterator (index_block t);
  new_TwoLevelIterator index.

(** [InternalGet]: the status, and the key and value [saver] was called with. *)
Definition InternalGet (t : Table) (cache : option block_lookup) (ro : ReadOptions) (k : bytes)
    : res (Status.t * option (bytes * bytes)) :=
  iiter ← NewIterator (index_block t);
  iiter ← Seek iiter k;
  '(s, found) ←
    (if Valid iiter then
       handle_value ← value iiter;
       let '(hs, handle, _) := handle_DecodeFrom new_BlockHandle handle_value in
       may_match ← (match filter t with
                    | Some filter =>
                        if Status.ok hs then reader_KeyMayMatch filter (offset_ handle) k else Ret true
                    | None => Ret true
                    end);
       if (may_match : bool) then
         '(block_iter, _) ← BlockReader t cache ro handle_value;
         block_iter ← Seek block_iter k;
         found ← (if Valid block_iter then
                    key ← Iterator.key block_iter; v ← value block_iter; Ret (Some (key, v))
                  else Ret None);
         Ret (status block_iter, found)
       else Ret (Status.OK, None)
     else Ret (Status.OK, None));
  Ret (if Status.ok s then status iiter else s, found).

Definition ApproximateOffsetOf (t : Table) (key : bytes) : res Z :=
  index_iter ← NewIterator (index_block t);
  index_iter ← Seek index_iter key;
  if Valid index_iter then
    input ← value index_iter;
    let '(s, handle, _) := handle_DecodeFrom new_BlockHandle input in
    Ret (if Status.ok s then offset_ handle else offset_ (metaindex_handle t))
  else Ret (offset_ (metaindex_handle t)).
End table.
Arguments Table F : clear implicits.

(** ** Reading a table that was built *)

Section built_table.
Context `{!KeyOrder} `{!Snappy} `{!SnappyLaw} `{!Address} `{!FilterPolicy}.
Context (opt : Options).

Abbreviation kcursor := (cursor block_iterator key_valid key_cmp).

(** A block that opens is one [NewIterator] gives a cursor over. *)
Lemma opens_cursor raw b : opens_as raw b -> exists bl it, new_Block raw = Ret bl /\ NewIterator bl = Ret (inr it)
  /\ kcursor b (inr it) None /\ (length b <= length raw)%nat.
Proof.
  intros (bl & it & rep & Hb & Hi & HS & Hr & Hl). exists bl, it. split; [done|]. split; [done|]. split; [|done].
  apply (cursor_inr (H0 := Iter_iterator key_Compare)). by exists rep.
Qed.

Lemma stored_unique f h raw raw' : stored f h raw -> stored f h raw' -> raw = raw'.
Proof.
  intros (pre & c & t & rest & -> & Hh & Hp) (pre' & c' & t' & rest' & E & Hh' & Hp'). rewrite Hh in Hh'.
  injection Hh' as Hl1 Hl2. apply Nat2Z.inj in Hl1, Hl2. apply app_inj_1 in E as [_ E]; [|done].
  apply app_inj_1 in E as [<- E]; [|done]. 
  assert (zb (compression_code t) = zb (compression_code t')) as Et by exact (f_equal (List.hd NUL) E). clear E.
  assert (t = t') as <-.
  { destruct t, t'; [reflexivity| | |reflexivity]; exfalso; apply (f_equal bz) in Et; vm_compute in Et; discriminate. }
  destruct t; cbn in Hp, Hp'; [congruence|].
  destruct (snappy_roundtrip _ _ Hp) as [_ E1]. destruct (snappy_roundtrip _ _ Hp') as [_ E2]. congruence.
Qed.

Lemma holds_unique f b b' h : holds f b h -> holds f b' h -> b = b'.
Proof.
  intros (raw & Hs & Ho) (raw' & Hs' & Ho'). rewrite (stored_unique _ _ _ _ Hs' Hs) in Ho'.
  destruct (opens_cursor _ _ Ho) as (bl & it & E & Ei & Hc & _).
  destruct (opens_cursor _ _ Ho') as (bl' & it' & E' & Ei' & Hc' & _).
  rewrite E in E'. injection E' as <-. rewrite Ei in Ei'. injection Ei' as <-.
  exact (cursor_unique _ _ _ _ _ _ _ _ Hc Hc').
Qed.

(** A cache that answers with the block that is stored at the handle. *)
Definition coherent (f : bytes) (ws : list (entries * BlockHandle)) (id : Z)
    (cache : option (bytes -> option Block)) : Prop :=
  forall lookup w raw bl, cache = Some lookup -> w ∈ ws -> stored f w.2 raw ->
    lookup (cache_key id w.2) = Some bl -> new_Block raw = Ret bl.

Section file.
Context (f : bytes) (Hf : Z.of_nat (length f) < 2^32).
Context (kvs : entries) (seps : list bytes) (ws : list (entries * BlockHandle)) (hm hi : BlockHandle).
Context (Htf : table_file opt f kvs seps ws hm hi) (Hord : in_order kvs).

Abbreviation idx := (index_entries seps ws).

Lemma holds_valid b h : holds f b h -> valid_handle h.
Proof. intros (raw & Hs & _). apply (stored_valid _ _ _ Hs). lia. Qed.

Lemma ReadBlock_holds h raw v : stored f h raw -> exists ca he, ReadBlock f v h = Ret (Status.OK, mkContents raw ca he).
Proof. intros Hs. apply stored_read; [done|lia]. Qed.

Lemma decode_handle h : valid_handle h -> handle_DecodeFrom new_BlockHandle (handle_EncodeTo h []) = (Status.OK, h, []).
Proof. intros Hv. pose proof (handle_roundtrip h new_BlockHandle [] Hv) as E. by rewrite app_nil_r in E. Qed.

(** The footer names the metaindex and the index. *)
Lemma footer_handles : valid_handle hm /\ valid_handle hi -> exists rest,
  take kEncodedLength (drop (length f - kEncodedLength) f) = footer_EncodeTo (mkFooter hm hi) []
  /\ footer_DecodeFrom new_Footer (footer_EncodeTo (mkFooter hm hi) []) = Ret (Status.OK, mkFooter hm hi, rest)
  /\ (kEncodedLength <= length f)%nat.
Proof.
  intros [Hm Hi]. destruct (footer_roundtrip (mkFooter hm hi) new_Footer [] Hm Hi) as [Hl E].
  rewrite app_nil_r in E. destruct (tf_footer _ _ _ _ _ _ _ Htf) as [body Eb]. exists [].
  rewrite Eb, length_app, Hl. split; [|split; [done|lia]].
  replace (length body + kEncodedLength - kEncodedLength)%nat with (length body) by lia.
  rewrite drop_app_length. by rewrite <- Hl, firstn_all.
Qed.

(** The filter of an opened table accepts every key at its block. *)
Definition filter_sound (fr : option FilterBlockReader) : Prop :=
  forall r b h e, fr = Some r -> (b, h) ∈ ws -> e ∈ b -> reader_KeyMayMatch r (offset_ h) e.1 = Ret true.

Lemma block_handle_valid b h : (b, h) ∈ ws -> valid_handle h.
Proof.
  intros Hin. pose proof (tf_holds _ _ _ _ _ _ _ Htf) as HF. rewrite Forall_forall in HF.
  apply (holds_valid b). by apply (HF (b, h)), list_elem_of_In.
Qed.

Lemma ReadFilter_spec hf fs : stored f hf (FilterBlock.filter_block fs) -> (length (FilterBlock.filter_block fs) <= length f)%nat ->
  (forall b h e, (b, h) ∈ ws -> e ∈ b -> promised fs [] (filter_index (offset_ h)) e.1) ->
  exists r, ReadFilter f (handle_EncodeTo hf []) = Ret (Some r) /\ filter_sound (Some r).
Proof.
  intros Hs Hl Hp. unfold ReadFilter. rewrite decode_handle by (apply (stored_valid _ _ _ Hs); lia).
  cbn [Status.ok Status.OK negb]. destruct (ReadBlock_holds hf _ (verify_checksums default_ReadOptions) Hs) as (ca & he & ->).
  cbn [mbind res_bind Status.ok Status.OK negb data].
  assert (forall b h e, (b, h) ∈ ws -> e ∈ b ->
    (r ← new_FilterBlockReader (FilterBlock.filter_block fs); reader_KeyMayMatch r (offset_ h) e.1) = Ret true) as Hm.
  { intros b h e Hb He. apply reader_matches; [lia|by apply (block_handle_valid b h)|by eapply Hp]. }
  rewrite reader_of in Hm |- * by lia. cbn [mbind res_bind] in *. eexists. split; [done|].
  intros r b h e [= <-] Hb He. by eapply Hm.
Qed.

Lemma ReadMeta_spec : exists fr, ReadMeta opt f (mkFooter hm hi) = Ret fr /\ filter_sound fr.
Proof.
  unfold ReadMeta. pose proof (tf_filter _ _ _ _ _ _ _ Htf) as Hfil. destruct (filter_policy opt) as [name|].
  2:{ exists None. split; [done|]. by intros r b h e [=]. }
  destruct Hfil as (raw & hf & fs & Hs & Ho & Hsf & Hlf & Hp). cbn [metaindex_handle_].
  destruct (ReadBlock_holds hm _ (verify_checksums default_ReadOptions) Hs) as (ca & he & ->).
  cbn [mbind res_bind Status.ok Status.OK negb data].
  destruct Ho as (bl & it & rep & -> & Hi & HS & Hr & _). cbn [mbind res_bind]. rewrite Hi. cbn [mbind res_bind].
  set (k := lit "filter." ++ name) in *. set (ents := [(k, handle_EncodeTo hf [])]) in *.
  assert (@cursor block_iterator meta_iterator (fun _ => True) ucmp ents (inr it) None) as Hc.
  { apply (cursor_inr (H0 := Iter_iterator (user_Compare (H := BytewiseComparator)))). by exists rep. }
  destruct (spec_Seek (H := meta_iterator) (inr it) None k Hc I) as (it' & -> & Hr'). cbn [mbind res_bind].
  assert (lower_bound ucmp k ents = 0%nat) as El.
  { cbn. unfold ucmp. change (Compare k k) with (Slice.compare k k). rewrite Slice.compare_sign.
    by rewrite (cmp_refl (cmp:=bytes_cmp)). }
  rewrite El in Hr'. rewrite index_some in Hr' by (cbn; lia).
  rewrite (spec_Valid (H := meta_iterator) _ _ Hr'), bool_decide_true by done.
  destruct (spec_at (H := meta_iterator) _ _ Hr') as (k' & v' & Ek & -> & Hvl). injection Ek as <- <-. cbn [mbind res_bind].
  rewrite Slice.equal_spec, bool_decide_true by done. rewrite Hvl. cbn [mbind res_bind].
  destruct (ReadFilter_spec hf fs Hsf Hlf Hp) as (r & -> & Hr2). by exists (Some r).
Qed.

Lemma handles_valid : valid_handle hm /\ valid_handle hi.
Proof.
  split.
  - destruct (tf_metaindex _ _ _ _ _ _ _ Htf) as [raw Hs]. apply (stored_valid _ _ _ Hs). lia.
  - exact (holds_valid _ _ (tf_index _ _ _ _ _ _ _ Htf)).
Qed.

(** An opened table: its index is a cursor, its filter sound. *)
Definition table_ok (t : Table bytes) : Prop :=
  t_file t = f /\ filter_sound (filter t) /\ (length idx < index_fuel t)%nat
  /\ metaindex_handle t = hm
  /\ exists it, NewIterator (index_block t) = Ret it /\ kcursor idx it None.

Lemma Open_spec new_id : exists t, Open opt new_id f (Z.of_nat (length f)) = Ret (Status.OK, Some t)
  /\ cache_id t = new_id /\ table_ok t.
Proof.
  destruct handles_valid as [Hm Hi]. destruct (footer_handles (conj Hm Hi)) as (rest & Efoot & Edec & Hlen).
  unfold Open. rewrite decide_False by lia. rewrite string_pread.
  replace (Z.to_nat (Z.of_nat (length f) - Z.of_nat kEncodedLength)) with (length f - kEncodedLength)%nat by lia.
  rewrite Nat2Z.id, Efoot. cbn [Status.ok Status.OK negb]. rewrite Edec. cbn [mbind res_bind Status.ok Status.OK negb].
  destruct (tf_index _ _ _ _ _ _ _ Htf) as (raw & Hs & Ho). cbn [index_handle_].
  destruct (ReadBlock_holds hi raw (verify_checksums default_ReadOptions) Hs) as (ca & he & ->).
  cbn [mbind res_bind Status.ok Status.OK data].
  destruct (opens_cursor _ _ Ho) as (bl & it & Eb & Ei & Hc & Hl). rewrite Eb. cbn [mbind res_bind].
  destruct ReadMeta_spec as (fr & -> & Hfr). cbn [mbind res_bind]. eexists. split; [done|].
  split; [done|]. split; [done|]. split; [done|]. split.
  - unfold index_fuel. cbn [index_block]. rewrite (new_Block_data _ _ Eb). lia.
  - split; [done|]. exists (inr it). by split.
Qed.

Section opened.
Context (t : Table bytes) (Ht : table_ok t) (cache : option (bytes -> option Block)) (ro : ReadOptions).
Context (Hcache : coherent f ws (cache_id t) cache).

Lemma BlockReader_spec w : w ∈ ws -> exists it ins,
  BlockReader t cache ro (handle_EncodeTo w.2 []) = Ret (it, ins) /\ kcursor w.1 it None.
Proof.
  intros Hw. destruct w as [b h]. pose proof (tf_holds _ _ _ _ _ _ _ Htf) as HF. rewrite Forall_forall in HF.
  pose proof (HF (b, h) ltac:(by apply list_elem_of_In)) as (raw & Hs & Ho). cbn [fst snd] in *.
  destruct (opens_cursor _ _ Ho) as (bl & it & Eb & Ei & Hc & _). destruct Ht as (Ef & _).
  unfold BlockReader. rewrite decode_handle by (by apply (block_handle_valid b)). cbn [Status.ok Status.OK].
  rewrite Ef. destruct (ReadBlock_holds h raw (verify_checksums ro) Hs) as (ca & he & Er).
  assert (exists ins, (match cache with
       | Some lookup =>
           match lookup (cache_key (cache_id t) h) with
           | Some block => Ret (Status.OK, Some block, None)
           | None =>
               '(s, contents) ← ReadBlock f (verify_checksums ro) h;
               if Status.ok s then
                 block ← new_Block (data contents);
                 Ret (s, Some block, if cachable contents && fill_cache ro
                   then Some (cache_key (cache_id t) h, block) else None)
               else Ret (s, None, None)
           end
       | None =>
           '(s, contents) ← ReadBlock f (verify_checksums ro) h;
           if Status.ok s then block ← new_Block (data contents); Ret (s, Some block, None)
           else Ret (s, None, None)
       end) = Ret (Status.OK, Some bl, ins)) as [ins Eins].
  { rewrite Er. cbn [mbind res_bind Status.ok Status.OK data]. rewrite Eb. cbn [mbind res_bind].
    destruct cache as [lookup|] eqn:Ec; [|by eexists].
    destruct (lookup (cache_key (cache_id t) h)) as [bl'|] eqn:El; [|by eexists].
    pose proof (Hcache lookup (b, h) raw bl' eq_refl Hw Hs El) as Eb'. rewrite Eb in Eb'. injection Eb' as ->.
    by eexists. }
  cbn [mbind res_bind] in Eins |- *. rewrite Eins. cbn [mbind res_bind]. rewrite Ei. cbn [mbind res_bind].
  by eexists _, _.
Qed.

(** The block an index value names, as a list. *)
Definition block_of (hb : bytes) : entries :=
  match list_find (fun w => handle_EncodeTo w.2 [] = hb) ws with Some (_, w) => w.1 | None => [] end.

Lemma block_of_handle w : w ∈ ws -> block_of (handle_EncodeTo w.2 []) = w.1.
Proof.
  intros Hw. unfold block_of. destruct (list_find _ ws) as [[i w']|] eqn:E.
  - apply list_find_Some in E as (Hi & He & _). apply list_elem_of_lookup_2 in Hi.
    destruct w as [b h], w' as [b' h']. cbn [fst snd] in *.
    pose proof (decode_handle h (block_handle_valid _ _ Hw)) as E1.
    pose proof (decode_handle h' (block_handle_valid _ _ Hi)) as E2. rewrite He, E1 in E2. injection E2 as <-.
    pose proof (tf_holds _ _ _ _ _ _ _ Htf) as HF. rewrite Forall_forall in HF.
    apply (holds_unique f b' b h).
    + apply (HF (b', h)). by apply list_elem_of_In.
    + apply (HF (b, h)). by apply list_elem_of_In.
  - apply list_find_None in E. rewrite Forall_forall in E. destruct (E w); [by apply list_elem_of_In|done].
Qed.

Lemma idx_handle i sep h : idx !! i = Some (sep, h) -> exists w, ws !! i = Some w /\ seps !! i = Some sep
  /\ h = handle_EncodeTo w.2 [] /\ block_of h = w.1.
Proof.
  intros (s & w & Es & Ew & [= -> ->])%index_at. exists w. split; [done|]. split; [done|]. split; [done|].
  apply block_of_handle. by apply list_elem_of_lookup_2 in Ew.
Qed.

Lemma idx_at i w : ws !! i = Some w -> exists sep, seps !! i = Some sep /\ idx !! i = Some (sep, handle_EncodeTo w.2 []).
Proof.
  intros Ew. destruct (lookup_lt_is_Some_2 seps i) as [sep Es].
  { apply lookup_lt_Some in Ew. by rewrite (tf_length _ _ _ _ _ _ _ Htf). }
  exists sep. split; [done|]. unfold index_entries. apply lookup_zip_with_Some. by exists sep, w.
Qed.

Lemma table_blocks : blocks idx block_of = map fst ws.
Proof.
  apply list_eq. intros i. unfold blocks. rewrite !list_lookup_fmap. destruct (ws !! i) as [w|] eqn:Ew; cbn.
  - destruct (idx_at i w Ew) as (sep & _ & Ei). rewrite Ei. cbn. f_equal.
    destruct (idx_handle _ _ _ Ei) as (w' & Ew' & _ & _ & Eb). by simplify_eq.
  - destruct (idx !! i) as [[sep h]|] eqn:Ei; [|done]. destruct (idx_handle _ _ _ Ei) as (w' & Ew' & _). congruence.
Qed.

Lemma table_separates : separates key_cmp idx block_of.
Proof.
  intros i sep h Ei. destruct (idx_handle _ _ _ Ei) as (w & Ew & Es & _ & ->). rewrite table_blocks.
  destruct (tf_seps _ _ _ _ _ _ _ Htf i sep w Es Ew) as (_ & Hle & _ & Hlt). split; [done|].
  unfold written in Hlt at 2. rewrite skipn_map. eapply list.Forall_impl; [exact Hlt|]. by intros e [].
Qed.

Lemma idx_elem hb : hb ∈ map snd idx -> exists w, w ∈ ws /\ hb = handle_EncodeTo w.2 [] /\ block_of hb = w.1.
Proof.
  intros (i & Hi)%list_elem_of_lookup. rewrite list_lookup_fmap in Hi.
  destruct (idx !! i) as [[sep h]|] eqn:Ei; [|done]. injection Hi as <-.
  destruct (idx_handle _ _ _ Ei) as (w & Ew & _ & Eh & Eb). exists w. split; [by apply list_elem_of_lookup_2 in Ew|done].
Qed.

Lemma table_NewIterator_spec : exists it,
  table_NewIterator t = Ret it
  /\ @cursor (TwoLevelIterator (I := block_iterator) (D := block_iterator)) (table_iterator t cache ro) key_valid key_cmp kvs it None.
Proof.
  destruct Ht as (_ & _ & Hfuel & _ & iit & Ei & Hci). unfold table_NewIterator. rewrite Ei. cbn [mbind res_bind].
  destruct (new_two_level_spec key_valid key_cmp idx block_of (kcursor idx) (fun hb => kcursor (block_of hb)) iit None Hci)
    as (tl & -> & Hr).
  exists tl. split; [done|].
  assert (kvs = all_blocks idx block_of) as Ekvs.
  { unfold all_blocks. rewrite table_blocks. symmetry. exact (tf_written _ _ _ _ _ _ _ Htf). }
  rewrite Ekvs. clear Ekvs.
  eexists. split; [|exact Hr]. unfold table_iterator. apply two_level_spec.
  - apply key_cmp_order.
  - apply cursor_spec.
  - intros h _. apply cursor_spec.
  - intros h (w & Hw & -> & Eb)%idx_elem. destruct (BlockReader_spec w Hw) as (it & ins & E & Hc).
    exists it, None. split; [unfold block_function; by rewrite E|]. rewrite Eb. exact Hc.
  - done.
  - exact table_separates.
Qed.

Lemma in_order_valid k v : (k, v) ∈ kvs -> key_valid k.
Proof. intros Hin. destruct Hord as [HF _]. rewrite Forall_forall in HF. by apply (HF (k, v)), list_elem_of_In. Qed.

Lemma block_in_order j w : ws !! j = Some w -> in_order w.1.
Proof.
  intros Ew. rewrite <- (tf_written _ _ _ _ _ _ _ Htf), <- (take_drop_middle ws j w Ew) in Hord.
  unfold written in Hord. rewrite map_app, concat_app in Hord. apply in_order_app in Hord as [_ Hord]. cbn in Hord.
  by apply in_order_app in Hord as [Hord _].
Qed.

(** The lower bound of a key that is there is its position. *)
Lemma lower_bound_of_key b k v n : b !! n = Some (k, v) -> in_order b -> lower_bound key_cmp k b = n.
Proof.
  intros En Hb. apply in_order_sorted in Hb as [_ Hs]. apply lower_bound_eq.
  - apply lookup_lt_Some in En. lia.
  - intros i e Hi Ee. apply (StronglySorted_at _ _ i n e.1 k Hs Hi); rewrite list_lookup_fmap; [by rewrite Ee|by rewrite En].
  - intros e Ee. rewrite En in Ee. injection Ee as <-. cbn. by rewrite (cmp_refl (cmp:=key_cmp)).
Qed.

(** An entry's block, which the index entry at the lower bound of its key names. *)
Lemma entry_block k v : (k, v) ∈ kvs -> exists j w, ws !! j = Some w /\ (k, v) ∈ w.1 /\ lower_bound key_cmp k idx = j.
Proof.
  intros Hin. pose proof (tf_written _ _ _ _ _ _ _ Htf) as E. rewrite <- E in Hin. clear E. unfold written in Hin.
  apply list_elem_of_In, in_concat in Hin as (b & Hb & He). apply list_elem_of_In in Hb, He.
  apply list_elem_of_fmap in Hb as (w & -> & Hw). apply list_elem_of_lookup in Hw as [j Ew]. exists j, w.
  split; [done|]. split; [done|]. apply lower_bound_eq.
  - destruct (idx_at j w Ew) as (sep & _ & Ei). apply lookup_lt_Some in Ei. lia.
  - intros i e Hi Ee. destruct (index_at _ _ _ _ Ee) as (sep & w' & Es & Ew' & ->). cbn.
    destruct (tf_seps _ _ _ _ _ _ _ Htf i sep w' Es Ew') as (_ & _ & _ & Hlt). rewrite Forall_forall in Hlt.
    apply (Hlt (k, v)), list_elem_of_In. unfold written. apply list_elem_of_In, in_concat. exists w.1.
    split; [|by apply list_elem_of_In]. apply list_elem_of_In, list_elem_of_fmap. exists w. split; [done|].
    apply list_elem_of_lookup. exists (j - S i)%nat. rewrite lookup_drop. by replace (S i + (j - S i))%nat with j by lia.
  - intros e Ee. destruct (index_at _ _ _ _ Ee) as (sep & w' & Es & Ew' & ->). cbn [fst].
    rewrite Ew in Ew'. injection Ew' as <-. destruct (tf_seps _ _ _ _ _ _ _ Htf j sep w Es Ew) as (_ & Hle & _).
    rewrite Forall_forall in Hle. specialize (Hle (k, v) ltac:(by apply list_elem_of_In)). cbn in Hle.
    intros Hlt. by apply Hle; rewrite (cmp_antisym (cmp:=key_cmp)), Hlt.
Qed.

Lemma seek_index k : key_valid k -> exists it it',
  NewIterator (index_block t) = Ret it /\ Seek it k = Ret it' /\ kcursor idx it' (index idx (lower_bound key_cmp k idx)).
Proof.
  intros Hk. destruct Ht as (_ & _ & _ & _ & it & Ei & Hci). destruct (spec_Seek _ _ k Hci Hk) as (it' & Es & Hr).
  by exists it, it'.
Qed.

(** The index entry at the lower bound of a key. *)
Lemma index_entry it j : kcursor idx it (index idx j) ->
  match ws !! j with
  | None => Valid it = false
  | Some w => Valid it = true /\ value it = Ret (handle_EncodeTo w.2 [])
  end /\ status it = Status.OK.
Proof.
  intros Hr. split; [|by apply (spec_status _ _ Hr)]. destruct (ws !! j) as [w|] eqn:Ew.
  - destruct (idx_at j w Ew) as (sep & _ & Eidx). rewrite index_some in Hr by (by eapply lookup_lt_Some).
    rewrite (spec_Valid _ _ Hr), bool_decide_true by done. split; [done|].
    destruct (spec_at _ _ Hr) as (k & v & Ei & _ & Hv). rewrite Eidx in Ei. by injection Ei as <- <-.
  - rewrite index_none in Hr; [by rewrite (spec_Valid _ _ Hr)|].
    destruct (decide (j < length idx)%nat) as [[[sep h] Ei]%lookup_lt_is_Some_2|]; [|lia].
    destruct (idx_handle _ _ _ Ei) as (w & Ew' & _). congruence.
Qed.

Definition may_match (h : BlockHandle) (k : bytes) : res bool :=
  match filter t with Some r => reader_KeyMayMatch r (offset_ h) k | None => Ret true end.

(** What [InternalGet] calls its function with: in the block that the index
    names, the first entry at or past the key, unless the filter rejects it. *)
Lemma InternalGet_eq k : key_valid k ->
  match ws !! lower_bound key_cmp k idx with
  | None => InternalGet t cache ro k = Ret (Status.OK, None)
  | Some w => forall m, may_match w.2 k = Ret m ->
      InternalGet t cache ro k = Ret (Status.OK, if m then w.1 !! lower_bound key_cmp k w.1 else None)
  end.
Proof.
  intros Hk. destruct (seek_index k Hk) as (it & it' & Ei & Es & Hr). destruct (index_entry _ _ Hr) as [Hw Hst].
  unfold InternalGet. rewrite Ei. cbn [mbind res_bind]. rewrite Es. cbn [mbind res_bind].
  destruct (ws !! lower_bound key_cmp k idx) as [w|] eqn:Ew.
  2:{ rewrite Hw. cbn [mbind res_bind Status.ok Status.OK]. by rewrite Hst. }
  intros m Hm. destruct Hw as [-> ->]. cbn [mbind res_bind]. apply list_elem_of_lookup_2 in Ew.
  destruct w as [b h]. cbn [fst snd] in *. rewrite decode_handle by (by apply (block_handle_valid b)).
  cbn [Status.ok Status.OK]. unfold may_match in Hm. destruct (BlockReader_spec (b, h) Ew) as (bit & ins & EB & Hcb).
  cbn [fst snd] in *. rewrite Hm. cbn [mbind res_bind]. destruct m; [|by rewrite Hst]. rewrite EB. cbn [mbind res_bind].
  destruct (spec_Seek _ _ k Hcb Hk) as (bit' & -> & Hrb). cbn [mbind res_bind].
  rewrite (spec_Valid _ _ Hrb), (spec_status _ _ Hrb). cbn [Status.ok Status.OK].
  destruct (b !! lower_bound key_cmp k b) as [[k' v']|] eqn:E.
  - rewrite index_some in Hrb |- * by (by eapply lookup_lt_Some). rewrite bool_decide_true by done.
    destruct (spec_at _ _ Hrb) as (k2 & v2 & E2 & -> & ->). rewrite E in E2. injection E2 as <- <-.
    cbn [mbind res_bind Status.ok Status.OK]. by rewrite Hst.
  - apply lookup_ge_None in E. rewrite index_none by done. rewrite bool_decide_false by (by intros [? ?]).
    cbn [mbind res_bind Status.ok Status.OK]. by rewrite Hst.
Qed.

(** Every entry is found by its key, filter or no filter. *)
Lemma InternalGet_spec k v : (k, v) ∈ kvs -> InternalGet t cache ro k = Ret (Status.OK, Some (k, v)).
Proof.
  intros Hin. pose proof (InternalGet_eq k (in_order_valid k v Hin)) as HG.
  destruct (entry_block k v Hin) as (j & [b h] & Ew & He & Hlb). cbn [fst snd] in *. rewrite Hlb, Ew in HG. cbn [fst snd] in HG.
  rewrite (HG true).
  - apply list_elem_of_lookup in He as [n En].
    by rewrite (lower_bound_of_key b k v n En), En by (by apply (block_in_order j (b, h))).
  - unfold may_match. destruct (filter t) as [r|] eqn:Efil; [|done]. destruct Ht as (_ & Hfil & _).
    apply (Hfil r b h (k, v) Efil); [by eapply list_elem_of_lookup_2|done].
Qed.

(** Whatever a get of any key finds is an entry of the table at or past the key. *)
Lemma InternalGet_sound k : key_valid k -> (forall h, exists m, may_match h k = Ret m) ->
  exists found, InternalGet t cache ro k = Ret (Status.OK, found)
    /\ forall e, found = Some e -> e ∈ kvs /\ cmp_le key_cmp k e.1.
Proof.
  intros Hk Hm. pose proof (InternalGet_eq k Hk) as HG. destruct (ws !! lower_bound key_cmp k idx) as [w|] eqn:Ew.
  2:{ exists None. by split. }
  destruct (Hm w.2) as [m Em]. rewrite (HG m Em). eexists. split; [done|]. destruct m; [|done]. intros e Ee. split.
  - rewrite <- (tf_written _ _ _ _ _ _ _ Htf). unfold written. apply list_elem_of_In, in_concat. exists w.1.
    split; apply list_elem_of_In; [|by eapply list_elem_of_lookup_2]. apply list_elem_of_fmap. exists w.
    split; [done|by eapply list_elem_of_lookup_2].
  - apply lower_bound_at in Ee. unfold cmp_le. rewrite (cmp_antisym (cmp:=key_cmp)).
    by destruct (key_cmp e.1 k).
Qed.

(** Where a key would be: its block's offset, or the end of the data. *)
Lemma ApproximateOffsetOf_spec k : key_valid k ->
  ApproximateOffsetOf t k = Ret (offset_ (match ws !! lower_bound key_cmp k idx with Some w => w.2 | None => hm end)).
Proof.
  intros Hk. destruct (seek_index k Hk) as (it & it' & Ei & Es & Hr). destruct (index_entry _ _ Hr) as [Hw _].
  unfold ApproximateOffsetOf. rewrite Ei. cbn [mbind res_bind]. rewrite Es. cbn [mbind res_bind].
  destruct Ht as (_ & _ & _ & Em & _). destruct (ws !! _) as [w|] eqn:Ew; [|by rewrite Hw, Em].
  destruct Hw as [-> ->]. cbn [mbind res_bind]. apply list_elem_of_lookup_2 in Ew. destruct w as [b h].
  by rewrite decode_handle by (by apply (block_handle_valid b)).
Qed.
End opened.
End file.

(** C7: what is added to a table is what is read from it.  Adding entries with
    strictly increasing keys builds a file without error; a file under 4 GB is
    opened, an iterator over it is a cursor over exactly the entries added, a
    get of a key that is there finds its value, whether or not there is a
    filter and a cache, a get of any key finds nothing or an entry at or past
    the key, and the approximate offset of a key is that of the block that
    would hold it. *)
Theorem table_roundtrip kvs new_id :
  1 <= block_restart_interval opt -> in_order kvs -> small kvs ->
  (forall name, filter_policy opt = Some name -> Z.of_nat (length name) < 2^31) ->
  exists r, build_table opt [] kvs = Ret (r, Status.OK)
  /\ (Z.of_nat (length (file r)) < 2^32 -> exists t seps ws hm hi,
      table_file opt (file r) kvs seps ws hm hi
      /\ Open opt new_id (file r) (Z.of_nat (length (file r))) = Ret (Status.OK, Some t)
      /\ forall cache ro, coherent (file r) ws new_id cache ->
          (exists it, table_NewIterator t = Ret it
             /\ @cursor _ (table_iterator t cache ro) key_valid key_cmp kvs it None)
          /\ (forall k v, (k, v) ∈ kvs -> InternalGet t cache ro k = Ret (Status.OK, Some (k, v)))
          /\ (forall k, key_valid k -> (forall h, exists m, may_match t h k = Ret m) ->
                exists found, InternalGet t cache ro k = Ret (Status.OK, found)
                /\ forall e, found = Some e -> e ∈ kvs /\ cmp_le key_cmp k e.1)
          /\ (forall k, key_valid k -> ApproximateOffsetOf t k = Ret (offset_
                (match ws !! lower_bound key_cmp k (index_entries seps ws) with Some w => w.2 | None => hm end)))).
Proof.
  intros HR Ho Hs Hname. destruct (build_table_spec opt HR kvs Ho Hs Hname) as (r & E & Htf). exists r. split; [done|].
  intros Hl. destruct (Htf ltac:(lia)) as (seps & ws & hm & hi & Hfile). clear Htf.
  destruct (Open_spec (file r) Hl kvs seps ws hm hi Hfile new_id) as (t & Et & Hid & Ht). exists t, seps, ws, hm, hi.
  split; [done|]. split; [done|]. intros cache ro Hc. rewrite <- Hid in Hc.
  split; [by eapply table_NewIterator_spec|]. split; [intros; by eapply InternalGet_spec|].
  split; [intros; by eapply InternalGet_sound|]. intros; by eapply ApproximateOffsetOf_spec.
Qed.
End built_table.

(** ** A small table, in the bytewise order, with a Bloom filter *)

Definition sample_Options : Options := mkOptions 0 20 2 kSnappyCompression (Some (lit "bloom")).
#[local] Instance zero_address : Address := fun _ => 0.
#[local] Existing Instances no_snappy sample_policy.

Lemma sample_in_order : in_order sample_entries.
Proof.
  split; [by repeat constructor|]. repeat (constructor; [|]); repeat constructor.
Qed.

Lemma table_roundtrip_witness :
  exists r, build_table sample_Options [] sample_entries = Ret (r, Status.OK)
  /\ exists t, Open sample_Options 1 (file r) (Z.of_nat (length (file r))) = Ret (Status.OK, Some t)
  /\ InternalGet t None default_ReadOptions (lit "apply")
     = Ret (Status.OK, Some (lit "apply", lit "2")).
Proof.
  destruct (table_roundtrip sample_Options sample_entries 1)
    as (r & E & Ht); [discriminate|exact sample_in_order|vm_compute; reflexivity|intros name [= <-]; vm_compute; reflexivity|].
  exists r. split; [exact E|]. destruct Ht as (t & seps & ws & hm & hi & _ & Eo & Hread).
  { assert (Hl : (x ← build_table sample_Options [] sample_entries; Ret (Z.of_nat (length (file x.1)) <? 2^32)) = Ret true)
      by (vm_compute; reflexivity).
    rewrite E in Hl. cbn in Hl. injection Hl as Hl. by apply Z.ltb_lt. }
  exists t. split; [exact Eo|]. apply (Hread None default_ReadOptions); [discriminate|].
  apply list_elem_of_In. right. left. reflexivity.
Defined.
