(* ===== verification/DBIter.v ===== *)
(** * DBIter: db/db_iter.cc

    The iterator of a database: it reads an iterator over internal keys, and
    shows for each user key the newest value that its snapshot sees.  The
    capacity of [saved_value_] is not modelled: every branch that looks at it
    leaves the same contents. *)

From S2P Require Import Prelude CLib Coding Random Status DbFormat SkipList KeyOrder Iterator.

Inductive Direction := kForward | kReverse.

Section dbiter.
Context `{Comparator} {It : Type} `{!Iterator It}.
(** [sequence_], and a bound on the entries of the internal iterator. *)
Context (sequence_ : Z) (fuel : nat).

(** [samples]: the keys [RecordReadSample] was called with, newest first. *)
Record DBIter := mkDBIter {
  iter_ : It;
  status_ : Status.t;
  saved_key_ : bytes;
  saved_value_ : bytes;
  direction_ : Direction;
  valid_ : bool;
  rnd_ : Z;
  bytes_counter_ : Z;
  samples : list bytes;
}.

Definition with_iter (d : DBIter) (it : It) : DBIter :=
  mkDBIter it (status_ d) (saved_key_ d) (saved_value_ d) (direction_ d) (valid_ d) (rnd_ d) (bytes_counter_ d) (samples d).
Definition with_status (d : DBIter) (s : Status.t) : DBIter :=
  mkDBIter (iter_ d) s (saved_key_ d) (saved_value_ d) (direction_ d) (valid_ d) (rnd_ d) (bytes_counter_ d) (samples d).
Definition with_saved (d : DBIter) (k v : bytes) : DBIter :=
  mkDBIter (iter_ d) (status_ d) k v (direction_ d) (valid_ d) (rnd_ d) (bytes_counter_ d) (samples d).
Definition with_direction (d : DBIter) (r : Direction) : DBIter :=
  mkDBIter (iter_ d) (status_ d) (saved_key_ d) (saved_value_ d) r (valid_ d) (rnd_ d) (bytes_counter_ d) (samples d).
Definition with_valid (d : DBIter) (v : bool) : DBIter :=
  mkDBIter (iter_ d) (status_ d) (saved_key_ d) (saved_value_ d) (direction_ d) v (rnd_ d) (bytes_counter_ d) (samples d).
Definition with_sampling (d : DBIter) (seed counter : Z) (s : list bytes) : DBIter :=
  mkDBIter (iter_ d) (status_ d) (saved_key_ d) (saved_value_ d) (direction_ d) (valid_ d) seed counter s.

Definition SaveKey (d : DBIter) (k : bytes) : DBIter := with_saved d k (saved_value_ d).
Definition ClearSavedValue (d : DBIter) : DBIter := with_saved d (saved_key_ d) [].

Definition RandomPeriod (seed : Z) : res (Z * Z) := Uniform seed (2 * config.kReadBytesPeriod).

Definition NewDBIterator (internal_iter : It) (seed : Z) : res DBIter :=
  let seed := new_Random seed in
  '(period, seed) ← RandomPeriod seed;
  Ret (mkDBIter internal_iter Status.OK [] [] kForward false seed period []).

(** A period can be zero, but not two in a row. *)
Fixpoint sample_loop (n : nat) (seed counter : Z) (k : bytes) (s : list bytes) : res (Z * Z * list bytes) :=
  if counter <? 0 then
    match n with
    | O => NoFuel
    | S n =>
        '(period, seed) ← RandomPeriod seed;
        sample_loop n seed (counter + period) k (k :: s)
    end
  else Ret (seed, counter, s).

Definition ParseKey (d : DBIter) : res (DBIter * option ParsedInternalKey) :=
  k ← key (iter_ d);
  v ← value (iter_ d);
  let counter := bytes_counter_ d - Z.of_nat (length k + length v) in
  '(seed, counter, s) ← sample_loop (2 * Z.to_nat (- counter) + 2) (rnd_ d) counter k (samples d);
  let d := with_sampling d seed counter s in
  match ParseInternalKey k with
  | None => Ret (with_status d (Status.Corruption (lit "corrupted internal key in DBIter") []), None)
  | Some ikey => Ret (d, Some ikey)
  end.

Definition iter_user_key (d : DBIter) : res bytes := k ← key (iter_ d); ExtractUserKey k.

(** [FindNextUserEntry]; [skip] is [saved_key_] in every call. *)
Fixpoint next_loop (n : nat) (d : DBIter) (skipping : bool) : res DBIter :=
  match n with
  | O => NoFuel
  | S n =>
      '(d, ikey) ← ParseKey d;
      let advance d skipping :=
        it ← Next (iter_ d);
        let d := with_iter d it in
        if Valid it then next_loop n d skipping else Ret (with_valid (SaveKey d []) false) in
      match ikey with
      | Some ikey =>
          if sequence ikey <=? sequence_ then
            match type ikey with
            | kTypeDeletion => advance (SaveKey d (user_key ikey)) true
            | kTypeValue =>
                if skipping && (Compare (user_key ikey) (saved_key_ d) <=? 0) then advance d skipping
                else Ret (SaveKey (with_valid d true) [])
            end
          else advance d skipping
      | None => advance d skipping
      end
  end.
Definition FindNextUserEntry (d : DBIter) (skipping : bool) : res DBIter := next_loop fuel d skipping.

(** [FindPrevUserEntry]: the loop returns the state and [value_type]. *)
Fixpoint prev_loop (n : nat) (d : DBIter) (value_type : ValueType) : res (DBIter * ValueType) :=
  match n with
  | O => NoFuel
  | S n =>
      '(d, ikey) ← ParseKey d;
      let back d value_type :=
        it ← Prev (iter_ d);
        let d := with_iter d it in
        if Valid it then prev_loop n d value_type else Ret (d, value_type) in
      match ikey with
      | Some ikey =>
          if sequence ikey <=? sequence_ then
            if bool_decide (value_type <> kTypeDeletion) && (Compare (user_key ikey) (saved_key_ d) <? 0)
            then Ret (d, value_type)
            else
              match type ikey with
              | kTypeDeletion => back (with_saved d [] []) kTypeDeletion
              | kTypeValue =>
                  raw_value ← value (iter_ d);
                  u ← iter_user_key d;
                  back (with_saved d u raw_value) kTypeValue
              end
          else back d value_type
      | None => back d value_type
      end
  end.

Definition FindPrevUserEntry (d : DBIter) : res DBIter :=
  '(d, value_type) ← (if Valid (iter_ d) then prev_loop fuel d kTypeDeletion else Ret (d, kTypeDeletion));
  Ret (match value_type with
       | kTypeDeletion => with_direction (with_saved (with_valid d false) [] []) kForward
       | kTypeValue => with_valid d true
       end).

(** ** The iterator's operations *)

Definition d_Valid (d : DBIter) : bool := valid_ d.
Definition d_key (d : DBIter) : res bytes :=
  match direction_ d with kForward => iter_user_key d | kReverse => Ret (saved_key_ d) end.
Definition d_value (d : DBIter) : res bytes :=
  match direction_ d with kForward => value (iter_ d) | kReverse => Ret (saved_value_ d) end.
Definition d_status (d : DBIter) : Status.t :=
  if Status.ok (status_ d) then status (iter_ d) else status_ d.

Definition d_Next (d : DBIter) : res DBIter :=
  match direction_ d with
  | kReverse =>
      let d := with_direction d kForward in
      it ← (if negb (Valid (iter_ d)) then SeekToFirst (iter_ d) else Next (iter_ d));
      let d := with_iter d it in
      if negb (Valid it) then Ret (SaveKey (with_valid d false) []) else FindNextUserEntry d true
  | kForward =>
      u ← iter_user_key d;
      FindNextUserEntry (SaveKey d u) true
  end.

(** [Prev]: the loop back to a smaller user key; [false] when there is none. *)
Fixpoint turn_loop (n : nat) (d : DBIter) : res (DBIter * bool) :=
  match n with
  | O => NoFuel
  | S n =>
      it ← Prev (iter_ d);
      let d := with_iter d it in
      if negb (Valid it) then Ret (with_saved (with_valid d false) [] [], false)
      else
        u ← iter_user_key d;
        if Compare u (saved_key_ d) <? 0 then Ret (d, true) else turn_loop n d
  end.

Definition d_Prev (d : DBIter) : res DBIter :=
  match direction_ d with
  | kForward =>
      u ← iter_user_key d;
      '(d, found) ← turn_loop fuel (SaveKey d u);
      if (found : bool) then FindPrevUserEntry (with_direction d kReverse) else Ret d
  | kReverse => FindPrevUserEntry d
  end.

Definition d_Seek (d : DBIter) (target : bytes) : res DBIter :=
  let d := ClearSavedValue (with_direction d kForward) in
  let d := SaveKey d (AppendInternalKey [] (mkParsed target sequence_ kValueTypeForSeek)) in
  it ← Seek (iter_ d) (saved_key_ d);
  let d := with_iter d it in
  if Valid it then FindNextUserEntry d false else Ret (with_valid d false).

Definition d_SeekToFirst (d : DBIter) : res DBIter :=
  let d := ClearSavedValue (with_direction d kForward) in
  it ← SeekToFirst (iter_ d);
  let d := with_iter d it in
  if Valid it then FindNextUserEntry d false else Ret (with_valid d false).

Definition d_SeekToLast (d : DBIter) : res DBIter :=
  let d := ClearSavedValue (with_direction d kReverse) in
  it ← SeekToLast (iter_ d);
  FindPrevUserEntry (with_iter d it).

#[export] Instance DBIter_iterator : Iterator DBIter := {
  Valid := d_Valid;
  SeekToFirst := d_SeekToFirst;
  SeekToLast := d_SeekToLast;
  Seek := d_Seek;
  Next := d_Next;
  Prev := d_Prev;
  key := d_key;
  value := d_value;
  status := d_status;
}.
End dbiter.
Arguments DBIter It : clear implicits.

(** ** What a snapshot sees *)

Abbreviation write := (ParsedInternalKey * bytes)%type.

Section view.
Context `{Comparator} (s : Z) (ws : list write).

(** The write at an index: whether the snapshot sees it, and its user key. *)
Definition vis (i : nat) : Prop := match ws !! i with Some e => sequence e.1 <= s | None => False end.
Definition is_value (i : nat) : Prop := match ws !! i with Some e => type e.1 = kTypeValue | None => False end.
Definition ukey (i : nat) : bytes := match ws !! i with Some e => user_key e.1 | None => [] end.

#[export] Instance vis_dec i : Decision (vis i).
Proof. unfold vis. destruct (ws !! i); apply _. Defined.
#[export] Instance is_value_dec i : Decision (is_value i).
Proof. unfold is_value. destruct (ws !! i); apply _. Defined.

(** A value that is shown: the first write of its user key that is seen. *)
Definition chosen (i : nat) : Prop :=
  vis i /\ is_value i /\ Forall (fun k => vis k -> ucmp (ukey k) (ukey i) <> Eq) (seq 0 i).

#[export] Instance chosen_dec i : Decision (chosen i).
Proof. unfold chosen. apply _. Defined.

Definition shown : list nat := filter chosen (seq 0 (length ws)).
Definition entry (i : nat) : bytes * bytes :=
  match ws !! i with Some e => (user_key e.1, e.2) | None => ([], []) end.
Definition view : entries := map entry shown.

(** The number of entries shown before an index. *)
Definition rank (i : nat) : nat := length (filter chosen (seq 0 i)).

Lemma chosen_alt i : chosen i <-> vis i /\ is_value i /\ forall k, (k < i)%nat -> vis k -> ucmp (ukey k) (ukey i) <> Eq.
Proof.
  unfold chosen. rewrite Forall_forall. split; intros (Hv & Ht & Hf); (split; [done|]; split; [done|]).
  - intros k Hk. apply Hf, in_seq. lia.
  - intros k Hk%in_seq. apply Hf. lia.
Qed.

Lemma vis_lt i : vis i -> (i < length ws)%nat.
Proof. unfold vis. destruct (ws !! i) eqn:E; [|done]. intros _. by apply lookup_lt_Some in E. Qed.
Lemma chosen_lt i : chosen i -> (i < length ws)%nat.
Proof. intros [Hv _]. by apply vis_lt. Qed.

Lemma rank_S i : rank (S i) = (rank i + if decide (chosen i) then 1 else 0)%nat.
Proof.
  unfold rank. rewrite seq_S, list.filter_app, length_app. cbn [plus]. f_equal. rewrite filter_cons, filter_nil.
  by destruct (decide (chosen i)).
Qed.

Lemma rank_same i j : (i <= j)%nat -> (forall k, (i <= k < j)%nat -> ~ chosen k) -> rank j = rank i.
Proof.
  intros Hij Hn. replace j with (i + (j - i))%nat in * by lia. set (n := (j - i)%nat) in *. clearbody n. clear Hij.
  induction n as [|n IH]; [by rewrite Nat.add_0_r|]. rewrite Nat.add_succ_r, rank_S, IH.
  - rewrite decide_False by (apply Hn; lia). lia.
  - intros k Hk. apply Hn. lia.
Qed.

Lemma length_view : length view = rank (length ws).
Proof. unfold view. by rewrite length_map. Qed.

Lemma rank_le i j : (i <= j)%nat -> (rank i <= rank j)%nat.
Proof. induction 1; [done|]. rewrite rank_S. lia. Qed.

Lemma shown_at i : chosen i -> shown !! rank i = Some i.
Proof.
  intros Hc. pose proof (chosen_lt i Hc) as Hi. unfold shown, rank.
  replace (length ws) with (i + S (length ws - S i))%nat by lia. rewrite seq_app, list.filter_app. cbn [plus seq].
  rewrite filter_cons, decide_True by done. by apply list_lookup_middle.
Qed.

Lemma view_at i : chosen i -> view !! rank i = Some (entry i).
Proof. intros Hc. unfold view. by rewrite list_lookup_fmap, shown_at. Qed.

Lemma view_inv n e : view !! n = Some e -> exists i, chosen i /\ rank i = n /\ e = entry i.
Proof.
  unfold view. rewrite list_lookup_fmap. intros E. destruct (shown !! n) as [i|] eqn:Ei; [|done]. injection E as <-.
  assert (chosen i) as Hc.
  { pose proof Ei as Hin. apply list_elem_of_lookup_2 in Hin. unfold shown in Hin. by apply list_elem_of_filter in Hin as [? _]. }
  exists i. split; [done|]. split; [|done]. pose proof (shown_at i Hc) as Ei'.
  assert (NoDup shown) as Hnd by (apply list.NoDup_filter, NoDup_ListNoDup, seq_NoDup).
  by eapply NoDup_lookup.
Qed.

(** The entry shown at or past an index, and the one before it. *)
Lemma first_from i j : (i <= j)%nat -> chosen j -> (forall k, (i <= k < j)%nat -> ~ chosen k) ->
  index view (rank i) = Some (rank j).
Proof.
  intros Hij Hc Hn. rewrite <- (rank_same i j) by done. apply index_some. by eapply lookup_lt_Some, view_at.
Qed.

Lemma none_from i : (forall j, (i <= j)%nat -> ~ chosen j) -> index view (rank i) = None.
Proof.
  intros Hn. apply index_none. rewrite length_view. destruct (decide (i <= length ws)%nat).
  - rewrite (rank_same i); [done|done|]. intros k Hk. apply Hn. lia.
  - apply rank_le. lia.
Qed.

Lemma chosen_before c m : (c < m)%nat -> chosen c -> (forall k, (c < k < m)%nat -> ~ chosen k) ->
  index_before (rank m) = Some (rank c).
Proof.
  intros Hcm Hc Hn. rewrite (rank_same (S c) m) by (done || lia || (intros; apply Hn; lia)).
  rewrite rank_S, decide_True by done. by rewrite Nat.add_1_r.
Qed.

Lemma none_before m : (forall k, (k < m)%nat -> ~ chosen k) -> index_before (rank m) = None.
Proof. intros Hn. rewrite (rank_same 0 m); [done|lia|]. intros k Hk. apply Hn. lia. Qed.

Context (Hsorted : StronglySorted (fun a b : write => cmp_lt ikey_cmp a.1 b.1) ws).

Lemma ukey_mono i j : (i <= j)%nat -> (j < length ws)%nat -> cmp_le ucmp (ukey i) (ukey j).
Proof.
  intros Hij Hj. unfold ukey, cmp_le. destruct (lookup_lt_is_Some_2 ws j Hj) as [b Eb]. rewrite Eb.
  destruct (lookup_lt_is_Some_2 ws i ltac:(lia)) as [a Ea]. rewrite Ea.
  destruct (decide (i = j)) as [->|Hne]; [simplify_eq; by rewrite (cmp_refl (cmp:=ucmp))|].
  pose proof (StronglySorted_at _ _ i j a b Hsorted ltac:(lia) Ea Eb) as Hlt.
  unfold cmp_lt, ikey_cmp, cmp_then, cmp_on in Hlt. by destruct (ucmp _ _).
Qed.

(** A later write of another user key has a larger one. *)
Lemma ukey_lt i j : (i <= j)%nat -> (j < length ws)%nat -> ucmp (ukey i) (ukey j) <> Eq -> ucmp (ukey i) (ukey j) = Lt.
Proof. intros Hij Hj Hne. pose proof (ukey_mono i j Hij Hj) as Hle. unfold cmp_le in Hle. by destruct (ucmp _ _). Qed.

Lemma chosen_later i j : (i < j)%nat -> vis i -> chosen j -> ucmp (ukey i) (ukey j) = Lt.
Proof.
  intros Hij Hi Hc. pose proof (chosen_lt j Hc). apply ukey_lt; [lia|done|]. apply chosen_alt in Hc as (_ & _ & Hc). by apply Hc.
Qed.

Lemma view_sorted : StronglySorted (fun a b => cmp_lt ucmp a.1 b.1) view.
Proof.
  apply StronglySorted_from. intros m n a b Hmn Ha Hb.
  apply view_inv in Ha as (i & Hi & Ri & ->), Hb as (j & Hj & Rj & ->).
  assert (i < j)%nat as Hij.
  { destruct (decide (i < j)%nat); [done|]. pose proof (rank_le j i ltac:(lia)). lia. }
  pose proof (chosen_later i j Hij (proj1 Hi) Hj) as Hlt. unfold cmp_lt, ukey, entry in *.
  by destruct (ws !! i), (ws !! j).
Qed.

(** The newest write to a user key that the snapshot sees. *)
Definition newest_seen (e : write) : Prop :=
  e ∈ ws /\ sequence e.1 <= s /\
  forall e', e' ∈ ws -> ucmp (user_key e'.1) (user_key e.1) = Eq -> sequence e'.1 <= s -> sequence e'.1 <= sequence e.1.

(** Writes to one user key are in decreasing order of sequence numbers. *)
Lemma same_key_order i j a b : (i < j)%nat -> ws !! i = Some a -> ws !! j = Some b ->
  ucmp (user_key a.1) (user_key b.1) = Eq ->
  sequence b.1 < sequence a.1 \/ sequence b.1 = sequence a.1 /\ type a.1 = kTypeValue /\ type b.1 = kTypeDeletion.
Proof.
  intros Hij Ea Eb Heq. pose proof (StronglySorted_at _ _ i j a b Hsorted Hij Ea Eb) as Hlt.
  unfold cmp_lt, ikey_cmp, cmp_then, cmp_on, cmp_flip in Hlt. rewrite Heq in Hlt.
  destruct (Z.compare_spec (sequence b.1) (sequence a.1)); [|by left|done].
  right. destruct (type a.1), (type b.1); done.
Qed.

Lemma chosen_newest i e : ws !! i = Some e -> chosen i <-> newest_seen e /\ type e.1 = kTypeValue.
Proof.
  intros E. rewrite chosen_alt. unfold vis at 1, is_value. rewrite E. unfold newest_seen. split.
  - intros (Hv & Ht & Hc). split; [|done]. split; [by eapply list_elem_of_lookup_2|]. split; [done|].
    intros e' [k Ek]%list_elem_of_lookup Heq Hs'. destruct (lt_eq_lt_dec k i) as [[Hki|Hki]|Hki].
    + destruct (Hc k Hki); unfold vis, ukey; rewrite Ek, ?E; done.
    + subst k. by simplify_eq.
    + destruct (same_key_order i k e e' Hki E Ek) as [?|[? _]]; [|lia..].
      by rewrite (cmp_antisym (cmp:=ucmp)), Heq.
  - intros ((_ & Hv & Hn) & Ht). split; [done|]. split; [done|]. intros k Hki Hvk Heq. unfold vis, ukey in Hvk, Heq.
    rewrite E in Heq. destruct (ws !! k) as [e'|] eqn:Ek; [|done].
    destruct (same_key_order k i e' e Hki Ek E Heq) as [?|(_ & _ & ?)]; [|congruence].
    assert (e' ∈ ws) as Hin by by eapply list_elem_of_lookup_2. specialize (Hn e' Hin Heq Hvk). lia.
Qed.

(** What is shown: exactly the newest writes seen that are values. *)
Lemma view_elem u v : (u, v) ∈ view <-> exists e, newest_seen e /\ type e.1 = kTypeValue /\ user_key e.1 = u /\ e.2 = v.
Proof.
  split.
  - intros [n E]%list_elem_of_lookup. apply view_inv in E as (i & Hc & _ & Ee).
    destruct (lookup_lt_is_Some_2 ws i (chosen_lt i Hc)) as [e E]. unfold entry in Ee. rewrite E in Ee. injection Ee as -> ->.
    exists e. destruct (proj1 (chosen_newest i e E) Hc) as [Hn Ht]. by split.
  - intros (e & Hn & Ht & <- & <-). assert (e ∈ ws) as [i E]%list_elem_of_lookup by apply Hn.
    assert (chosen i) as Hc by by apply (chosen_newest i e E). apply view_at in Hc. unfold entry in Hc. rewrite E in Hc.
    by eapply list_elem_of_lookup_2.
Qed.
End view.

(** ** The read sampler ends *)

Lemma RandomPeriod_eq seed : RandomPeriod seed = Ret (Random.Next seed mod 2^21, Random.Next seed).
Proof. unfold RandomPeriod, Uniform. rewrite decide_False by done. reflexivity. Qed.

Lemma sample_loop_spec n seed counter k s : good_seed seed ->
  2 * (- counter) + (if decide (Random.Next seed mod 2^21 = 0) then 1 else 0) <= Z.of_nat n ->
  exists seed' counter' s', sample_loop n seed counter k s = Ret (seed', counter', s') /\ good_seed seed' /\ 0 <= counter'.
Proof.
  revert seed counter s. induction n as [|n IH]; intros seed counter s Hs Hn; cbn [sample_loop];
    (destruct (Z.ltb_spec counter 0); [|by eexists _, _, _]).
  - case_decide; lia.
  - rewrite RandomPeriod_eq. cbn [mbind res_bind]. apply IH; [by apply Next_good|].
    pose proof (Z.mod_pos_bound (Random.Next seed) (2^21) ltac:(lia)) as Hp.
    destruct (decide (Random.Next seed mod 2^21 = 0)) as [E|E].
    + pose proof (not_twice_zero (Random.Next seed) (Next_good _ Hs) E). rewrite decide_False by done. lia.
    + destruct (decide (Random.Next (Random.Next seed) mod 2^21 = 0)); lia.
Qed.

(** ** The database's iterator is an iterator over what the snapshot sees *)

Section refinement.
Context `{Comparator} {It : Type} `{!Iterator It} (s : Z) (fuel : nat) (ws : list write).
Context (Hs : valid_seq s) (Hws : Forall (fun e : write => valid_seq (sequence e.1)) ws).
Context (Hsorted : StronglySorted (fun a b : write => cmp_lt ikey_cmp a.1 b.1) ws) (Hfuel : (length ws < fuel)%nat).
(** What the internal iterator can be asked to seek. *)
Context (valid : bytes -> Prop) (irep : It -> option nat -> Prop).

Definition raw (e : write) : bytes * bytes := (encode_key e.1, e.2).
Context `{!IteratorSpec It valid internal_cmp (map raw ws) irep}.

Abbreviation DB := (DBIter It).
Abbreviation vis := (vis s ws).
Abbreviation ukey := (ukey ws).
Abbreviation chosen := (chosen s ws).
Abbreviation rank := (rank s ws).
Abbreviation view := (view s ws).

Record good (d : DB) : Prop := {
  g_status : status_ d = Status.OK;
  g_seed : good_seed (rnd_ d);
  g_counter : 0 <= bytes_counter_ d;
}.

Lemma ucmp_refl u : ucmp u u = Eq.
Proof. apply (cmp_refl (cmp:=ucmp)). Qed.

Lemma Compare_leb a b : (Compare a b <=? 0) = bool_decide (cmp_le ucmp a b).
Proof.
  pose proof (Compare_le a b) as Hle. unfold cmp_le. destruct (Z.leb_spec (Compare a b) 0).
  - rewrite bool_decide_true; tauto.
  - rewrite bool_decide_false; [done|]. intros ?%Hle. lia.
Qed.
Lemma Compare_ltb a b : (Compare a b <? 0) = bool_decide (cmp_lt ucmp a b).
Proof.
  pose proof (Compare_lt a b) as Hlt. unfold cmp_lt. destruct (Z.ltb_spec (Compare a b) 0).
  - rewrite bool_decide_true; tauto.
  - rewrite bool_decide_false; [done|]. intros ?%Hlt. lia.
Qed.

Lemma ws_valid i e : ws !! i = Some e -> valid_seq (sequence e.1).
Proof. intros E. rewrite Forall_forall in Hws. by apply Hws, list_elem_of_In, (list_elem_of_lookup_2 _ i). Qed.

(** The internal iterator at an index: its key and value. *)
Lemma at_write it i : irep it (Some i) -> exists e, ws !! i = Some e /\ key it = Ret (encode_key e.1) /\ value it = Ret e.2
  /\ Valid it = true.
Proof.
  intros Hr. destruct (spec_at _ _ Hr) as (k & v & E & Ek & Ev). rewrite list_lookup_fmap in E.
  destruct (ws !! i) as [e|]; [|done]. injection E as <- <-. exists e. split; [done|]. split; [done|]. split; [done|].
  by rewrite (spec_Valid _ _ Hr), bool_decide_true.
Qed.

Lemma user_key_at (d : DB) i : irep (iter_ d) (Some i) -> iter_user_key d = Ret (ukey i).
Proof.
  intros Hr. destruct (at_write _ _ Hr) as (e & E & Ek & _). unfold iter_user_key. rewrite Ek. cbn [mbind res_bind].
  rewrite ExtractUserKey_encode. unfold DBIter.ukey. by rewrite E.
Qed.

Lemma ParseKey_spec (d : DB) i e : irep (iter_ d) (Some i) -> ws !! i = Some e -> good d ->
  exists seed c l, ParseKey d = Ret (with_sampling d seed c l, Some e.1) /\ good (with_sampling d seed c l).
Proof.
  intros Hr E [Hst Hse Hc]. destruct (at_write _ _ Hr) as (e' & E' & Ek & Ev & _). rewrite E in E'. injection E' as <-.
  unfold ParseKey. rewrite Ek, Ev. cbn [mbind res_bind]. set (n := bytes_counter_ d - _).
  destruct (sample_loop_spec (2 * Z.to_nat (- n) + 2) (rnd_ d) n (encode_key e.1) (samples d) Hse)
    as (seed & c & l & -> & Hse' & Hc').
  { case_decide; lia. }
  cbn [mbind res_bind]. rewrite ParseInternalKey_encode by by eapply ws_valid. by eexists _, _, _.
Qed.

(** ** Forwards *)

Definition fwd (d : DB) (o : option nat) : Prop :=
  good d /\ direction_ d = kForward /\
  match o with
  | Some c => chosen c /\ valid_ d = true /\ irep (iter_ d) (Some c)
  | None => valid_ d = false /\ exists o, irep (iter_ d) o
  end.

(** The loop stands at [i] and looks for the first entry shown at or past [i0]. *)
Record seeking (i0 i : nat) (skipping : bool) (skip : bytes) : Prop := {
  sk_bound : forall j, (i <= j)%nat -> vis j -> skipping = true -> cmp_le ucmp skip (ukey j);
  sk_sound : forall j, (i <= j)%nat -> vis j -> is_value ws j -> (skipping = true -> cmp_lt ucmp skip (ukey j)) ->
    (forall k, (i <= k < j)%nat -> vis k -> ucmp (ukey k) (ukey j) <> Eq) -> chosen j /\ (i0 <= j)%nat;
  sk_complete : forall j, (i <= j)%nat -> (i0 <= j)%nat -> chosen j -> skipping = true -> cmp_lt ucmp skip (ukey j);
  sk_before : forall j, (i0 <= j < i)%nat -> ~ chosen j;
}.

(** Moving past an entry that is not to be shown. *)
Lemma seeking_step i0 i skipping skip skipping' skip' : seeking i0 i skipping skip ->
  (i < length ws)%nat ->
  (vis i -> skipping' = true /\ ucmp skip' (ukey i) = Eq) -> (~ vis i -> skipping' = skipping /\ skip' = skip) ->
  ((i0 <= i)%nat -> ~ chosen i) -> seeking i0 (S i) skipping' skip'.
Proof.
  intros [Hb Hso Hc Hbe] Hi Hvis Hinv Hnot. split.
  - intros j Hj Hv Hsk. destruct (decide (vis i)) as [Hvi|Hni].
    + destruct (Hvis Hvi) as [_ E]. unfold cmp_le. rewrite (cmp_eq_l (cmp:=ucmp) _ _ _ E). apply ukey_mono; [done|lia|by eapply vis_lt].
    + destruct (Hinv Hni) as [-> ->]. apply Hb; [lia|done|done].
  - intros j Hj Hv Ht Hlt Hk. apply Hso; [lia|done|done| |].
    + intros Hsk. destruct (decide (vis i)) as [Hvi|Hni].
      * destruct (Hvis Hvi) as [Hsk' E]. specialize (Hlt Hsk'). pose proof (Hb i ltac:(lia) Hvi Hsk) as Hle.
        apply (cmp_le_lt_trans ucmp _ (ukey i)); [exact Hle|]. unfold cmp_lt in Hlt |- *. by rewrite <- (cmp_eq_l (cmp:=ucmp) _ _ _ E).
      * destruct (Hinv Hni) as [<- <-]. by apply Hlt.
    + intros k Hk' Hvk. destruct (decide (k = i)) as [->|]; [|apply Hk; [lia|done]].
      destruct (Hvis Hvk) as [Hsk' E]. specialize (Hlt Hsk'). unfold cmp_lt in Hlt.
      rewrite (cmp_eq_l (cmp:=ucmp) _ _ _ E) in Hlt. by rewrite Hlt.
  - intros j Hj Hj0 Hch Hsk. destruct (decide (vis i)) as [Hvi|Hni].
    + destruct (Hvis Hvi) as [_ E]. unfold cmp_lt. rewrite (cmp_eq_l (cmp:=ucmp) _ _ _ E).
      apply (chosen_later s ws Hsorted); [lia|done|done].
    + destruct (Hinv Hni) as [-> ->]. apply Hc; [lia|done|done|done].
  - intros j Hj. destruct (decide (j = i)) as [->|]; [apply Hnot; lia|apply Hbe; lia].
Qed.

Lemma next_loop_spec n i0 i (d : DB) skipping :
  irep (iter_ d) (Some i) -> good d -> direction_ d = kForward -> (length ws - i < n)%nat ->
  seeking i0 i skipping (saved_key_ d) ->
  exists d' o, next_loop s n d skipping = Ret d' /\ fwd d' o /\ index view (rank i0) = rank <$> o.
Proof.
  revert i d skipping. induction n as [|n IH]; intros i d skipping Hr Hg Hd Hn Hsk; [lia|]. cbn [next_loop].
  destruct (at_write _ _ Hr) as (e & E & _). destruct (ParseKey_spec d i e Hr E Hg) as (seed & c & l & -> & Hg').
  cbn [mbind res_bind]. set (d1 := with_sampling d seed c l) in *.
  assert (irep (iter_ d1) (Some i)) as Hr1 by exact Hr.
  assert (vis i <-> sequence e.1 <= s) as Hv by (unfold DBIter.vis; by rewrite E).
  assert (ukey i = user_key e.1) as Eu by (unfold DBIter.ukey; by rewrite E).
  pose proof (lookup_lt_Some _ _ _ E) as Hi.
  (* one step of the loop *)
  assert (forall d2 sk2, iter_ d2 = iter_ d1 -> good d2 -> direction_ d2 = kForward -> seeking i0 (S i) sk2 (saved_key_ d2) ->
    exists d' o, (it ← Next (iter_ d2); let d3 := with_iter d2 it in
      if Valid it then next_loop s n d3 sk2 else Ret (with_valid (SaveKey d3 []) false)) = Ret d'
      /\ fwd d' o /\ index view (rank i0) = rank <$> o) as Hstep.
  { intros d2 sk2 E2 Hg2 Hd2 Hsk2. rewrite E2. destruct (spec_Next _ _ Hr1) as (it & -> & Hr2). cbn [mbind res_bind].
    apply spec_Valid in Hr2 as HV. rewrite HV. clear HV. destruct (decide (S i < length ws)%nat) as [Hl|Hl].
    - rewrite index_some in Hr2 |- * by by rewrite length_map. rewrite bool_decide_true by done.
      destruct (IH (S i) (with_iter d2 it) sk2 Hr2) as (d' & o & -> & HR); [by destruct Hg2|done|lia|done|]. by exists d', o.
    - rewrite index_none in Hr2 |- * by (rewrite length_map; lia). rewrite bool_decide_false by (by intros [? ?]). eexists _, None. split; [done|]. split.
      + split; [by destruct Hg2|]. split; [done|]. split; [done|]. by exists None.
      + apply none_from. intros j Hj Hc. destruct (decide (j < S i)%nat).
        * by apply (sk_before _ _ _ _ Hsk2 j ltac:(lia)).
        * pose proof (chosen_lt _ _ _ Hc). lia. }
  destruct (Z.leb_spec (sequence e.1) s) as [Hle|Hgt].
  - apply Hv in Hle as Hvi. destruct (type e.1) eqn:Et.
    + (* a deletion *)
      apply Hstep; [done|by destruct Hg'|done|]. apply (seeking_step i0 i skipping (saved_key_ d)); [done|done| |by intros []|].
      * intros _. split; [done|]. cbn. rewrite Eu. apply ucmp_refl.
      * intros _ (_ & Ht & _). unfold is_value in Ht. rewrite E in Ht. congruence.
    + change (saved_key_ d1) with (saved_key_ d). rewrite Compare_leb, <- Eu.
      destruct (skipping && bool_decide (cmp_le ucmp (ukey i) (saved_key_ d))) eqn:Eh.
      * (* hidden *)
        apply andb_true_iff in Eh as [-> Hhid%bool_decide_eq_true]. apply Hstep; [done|done|done|].
        pose proof (sk_bound _ _ _ _ Hsk i (le_n _) Hvi eq_refl) as Hb.
        apply (seeking_step i0 i true (saved_key_ d)); [done|done| |done|].
        -- intros _. split; [done|]. unfold cmp_le in Hb, Hhid. rewrite (cmp_antisym (cmp:=ucmp)) in Hhid. cbn.
           by destruct (ucmp (saved_key_ d) (ukey i)).
        -- intros H0 Hc. pose proof (sk_complete _ _ _ _ Hsk i (le_n _) H0 Hc eq_refl) as Hlt. unfold cmp_le in Hhid.
           unfold cmp_lt in Hlt. by rewrite (cmp_antisym (cmp:=ucmp)), Hlt in Hhid.
      * (* shown *)
        assert (chosen i /\ (i0 <= i)%nat) as [Hc Hi0].
        { apply (sk_sound _ _ _ _ Hsk); [done|done| | |lia].
          - unfold is_value. by rewrite E.
          - intros ->. cbn in Eh. apply bool_decide_eq_false in Eh. by apply (cmp_lt_not_ge ucmp). }
        eexists _, (Some i). split; [done|]. split.
        -- split; [by destruct Hg'|]. split; [done|]. by split.
        -- apply first_from; [done|done|]. intros k Hk. apply (sk_before _ _ _ _ Hsk k). lia.
  - apply Hstep; [done|done|done|]. apply (seeking_step i0 i skipping (saved_key_ d)); [done|done| |done|].
    + intros Hvi%Hv. lia.
    + intros _ [Hvi%Hv _]. lia.
Qed.

(** From a position at or before a shown entry, skipping its user key. *)
Lemma seeking_past c i : chosen c -> (i <= c)%nat -> (forall k, (i <= k < c)%nat -> ~ vis k) -> seeking (S c) i true (ukey c).
Proof.
  intros Hc Hic Hno. assert (forall j, (i <= j)%nat -> vis j -> (c <= j)%nat) as Hge.
  { intros j Hj Hv. destruct (decide (c <= j)%nat); [done|]. destruct (Hno j ltac:(lia) Hv). }
  split.
  - intros j Hj Hv _. apply ukey_mono; [done|by apply Hge|by eapply vis_lt].
  - intros j Hj Hv Ht Hlt Hk. specialize (Hlt eq_refl). unfold cmp_lt in Hlt.
    assert (c < j)%nat as Hcj.
    { pose proof (Hge j Hj Hv). destruct (decide (j = c)) as [->|]; [|lia]. by rewrite ucmp_refl in Hlt. }
    split; [|lia]. apply chosen_alt. split; [done|]. split; [done|]. intros k Hkj Hvk.
    destruct (decide (i <= k)%nat) as [Hik|Hik]; [apply Hk; [lia|done]|].
    assert (ucmp (ukey k) (ukey j) = Lt) as ->; [|done].
    apply (cmp_le_lt_trans ucmp _ (ukey c)); [|exact Hlt].
    apply ukey_mono; [done|lia|]. by eapply chosen_lt.
  - intros j _ Hj Hcj _. apply (chosen_later s ws Hsorted); [lia|apply Hc|done].
  - lia.
Qed.

Lemma FindNext_spec i0 i (d : DB) skipping : irep (iter_ d) (Some i) -> good d -> direction_ d = kForward ->
  seeking i0 i skipping (saved_key_ d) ->
  exists d' o, FindNextUserEntry s fuel d skipping = Ret d' /\ fwd d' o /\ index view (rank i0) = rank <$> o.
Proof. intros Hr Hg Hd Hsk. apply next_loop_spec with (i := i); [done|done|done|lia|done]. Qed.

(** ** Backwards *)

(** At the entry [c] the internal iterator is before every write of its user
    key that the snapshot sees. *)
Definition clear_before (c : nat) (o : option nat) : Prop :=
  match o with
  | Some k => (k < c)%nat /\ forall j, (k < j < c)%nat -> ~ vis j
  | None => forall j, (j < c)%nat -> ~ vis j
  end.

Definition bwd (d : DB) (c : nat) : Prop :=
  good d /\ direction_ d = kReverse /\ chosen c /\ valid_ d = true
  /\ (saved_key_ d, saved_value_ d) = entry ws c /\ exists o, irep (iter_ d) o /\ clear_before c o.

Definition db_rep (d : DB) (o : option nat) : Prop :=
  exists c, o = rank <$> c /\ (fwd d c \/ exists c', c = Some c' /\ bwd d c').

(** The writes from [lo] to [m] have been passed, and [value_type] and what is
    saved are those of the first of them that is seen. *)
Definition passed (lo m : nat) (value_type : ValueType) (saved : bytes * bytes) : Prop :=
  match value_type with
  | kTypeDeletion => forall k, (lo <= k < m)%nat -> ~ chosen k
  | kTypeValue => exists k, (lo <= k < m)%nat /\ vis k /\ is_value ws k /\ saved = entry ws k
      /\ (forall j, (lo <= j < k)%nat -> ~ vis j) /\ forall j, (k < j < m)%nat -> ~ chosen j
  end.

Lemma passed_invisible i m vt saved : passed (S i) m vt saved -> ~ vis i -> passed i m vt saved.
Proof.
  intros Hp Hi. destruct vt; cbn in *.
  - intros k Hk Hc. destruct (decide (k = i)) as [->|]; [by apply Hi, Hc|by apply (Hp k); [lia|]].
  - destruct Hp as (k & Hk & Hv & Ht & Hs' & Hlo & Hhi). exists k. split; [lia|]. repeat (split; [done|]).
    split; [|done]. intros j Hj Hvj. destruct (decide (j = i)) as [->|]; [done|by apply (Hlo j); [lia|]].
Qed.

(** A seen write that does not end the scan: what was saved is hidden by it. *)
Lemma passed_visible i m vt saved saved' : passed (S i) m vt saved -> vis i -> (i < m)%nat ->
  (vt <> kTypeDeletion -> ~ cmp_lt ucmp (ukey i) saved.1) ->
  (is_value ws i -> saved' = entry ws i) ->
  passed i m (if decide (is_value ws i) then kTypeValue else kTypeDeletion) saved'.
Proof.
  intros Hp Hv Him Hnlt Hs'. assert (forall k, (i < k < m)%nat -> ~ chosen k) as Hno.
  { destruct vt; cbn in Hp; [intros k Hk; apply Hp; lia|].
    destruct Hp as (k & Hk & Hvk & Htk & Es & Hlo & Hhi). intros j Hj Hc.
    destruct (lt_eq_lt_dec j k) as [[Hjk|E]|Hjk]; [by apply (Hlo j); [lia|apply Hc]| |by apply (Hhi j); [lia|]]. subst j.
    pose proof (chosen_later s ws Hsorted i k ltac:(lia) Hv Hc) as Hlt.
    apply Hnlt; [done|]. rewrite Es. unfold entry, DBIter.ukey in *. pose proof (vis_lt _ _ _ Hvk).
    by destruct (ws !! k). }
  case_decide as Ht; cbn.
  - exists i. split; [lia|]. split; [done|]. split; [done|]. split; [by apply Hs'|]. split; [lia|done].
  - intros k Hk Hc. destruct (decide (k = i)) as [->|]; [by destruct Hc as (_ & ? & _)|by apply (Hno k); [lia|]].
Qed.

(** A seen write of a smaller user key shows that what is saved is shown. *)
Lemma saved_shown lo m saved : passed lo m kTypeValue saved ->
  (forall i, (i < lo)%nat -> vis i -> ucmp (ukey i) saved.1 = Lt) ->
  exists c, (lo <= c < m)%nat /\ chosen c /\ saved = entry ws c /\ (forall j, (lo <= j < c)%nat -> ~ vis j)
    /\ forall j, (c < j < m)%nat -> ~ chosen j.
Proof.
  intros (k & Hk & Hv & Ht & Es & Hlo & Hhi) Hlt. exists k. split; [done|]. split; [|by split].
  apply chosen_alt. split; [done|]. split; [done|]. intros j Hj Hvj.
  destruct (decide (lo <= j)%nat); [by destruct (Hlo j ltac:(lia))|]. pose proof (Hlt j ltac:(lia) Hvj) as HL.
  rewrite Es in HL. unfold entry in HL. unfold DBIter.ukey at 2. pose proof (vis_lt _ _ _ Hv).
  destruct (ws !! k) eqn:E; cbn in HL; [by rewrite HL|]. apply lookup_ge_None in E. lia.
Qed.

Definition prev_done (m : nat) (d : DB) (vt : ValueType) : Prop :=
  good d /\ direction_ d = kReverse /\
  match vt with
  | kTypeDeletion => (exists o, irep (iter_ d) o) /\ forall k, (k < m)%nat -> ~ chosen k
  | kTypeValue => exists c, (c < m)%nat /\ chosen c /\ (forall k, (c < k < m)%nat -> ~ chosen k)
      /\ (saved_key_ d, saved_value_ d) = entry ws c /\ exists o, irep (iter_ d) o /\ clear_before c o
  end.

Lemma prev_loop_spec n m i (d : DB) vt :
  irep (iter_ d) (Some i) -> good d -> direction_ d = kReverse -> (i < n)%nat -> (i < m)%nat ->
  passed (S i) m vt (saved_key_ d, saved_value_ d) ->
  exists d' vt', prev_loop s n d vt = Ret (d', vt') /\ prev_done m d' vt'.
Proof.
  revert i d vt. induction n as [|n IH]; intros i d vt Hr Hg Hd Hn Him Hp; [lia|]. cbn [prev_loop].
  destruct (at_write _ _ Hr) as (e & E & _ & Ev & _). destruct (ParseKey_spec d i e Hr E Hg) as (seed & c & l & -> & Hg').
  cbn [mbind res_bind]. set (d1 := with_sampling d seed c l) in *.
  assert (irep (iter_ d1) (Some i)) as Hr1 by exact Hr.
  assert (vis i <-> sequence e.1 <= s) as Hv by (unfold DBIter.vis; by rewrite E).
  assert (ukey i = user_key e.1) as Eu by (unfold DBIter.ukey; by rewrite E).
  (* one step of the loop *)
  assert (forall d2 vt2, iter_ d2 = iter_ d1 -> good d2 -> direction_ d2 = kReverse ->
    passed i m vt2 (saved_key_ d2, saved_value_ d2) ->
    exists d' vt', (it ← Prev (iter_ d2); let d3 := with_iter d2 it in
      if Valid it then prev_loop s n d3 vt2 else Ret (d3, vt2)) = Ret (d', vt') /\ prev_done m d' vt') as Hstep.
  { intros d2 vt2 E2 Hg2 Hd2 Hp2. rewrite E2. destruct (spec_Prev _ _ Hr1) as (it & -> & Hr2). cbn [mbind res_bind].
    apply spec_Valid in Hr2 as HV. rewrite HV. clear HV. destruct i as [|i]; cbn [index_before] in *.
    - rewrite bool_decide_false by (by intros [? ?]). eexists _, _. split; [done|].
      split; [by destruct Hg2|]. split; [done|]. destruct vt2.
      + split; [by exists None|]. intros k Hk. apply Hp2. lia.
      + destruct (saved_shown 0 m _ Hp2) as (k & Hk & Hc & Es & Hlo & Hhi); [lia|]. exists k. split; [lia|].
        split; [done|]. split; [done|]. split; [done|]. exists None. split; [done|]. intros j Hj. apply Hlo. lia.
    - rewrite bool_decide_true by done.
      destruct (IH i (with_iter d2 it) vt2 Hr2) as (d' & vt' & -> & HR); [by destruct Hg2|done|lia|lia|done|]. by exists d', vt'. }
  destruct (Z.leb_spec (sequence e.1) s) as [Hle|Hgt].
  2:{ apply Hstep; [done|done|done|]. apply passed_invisible; [done|]. intros Hvi%Hv. lia. }
  apply Hv in Hle as Hvi. rewrite Compare_ltb, <- Eu. change (saved_key_ d1) with (saved_key_ d).
  destruct (bool_decide (vt <> kTypeDeletion) && bool_decide (cmp_lt ucmp (ukey i) (saved_key_ d))) eqn:Eb.
  - apply andb_true_iff in Eb as [Hvt%bool_decide_eq_true Hlt%bool_decide_eq_true].
    destruct vt; [done|]. eexists _, _. split; [done|]. split; [by destruct Hg'|]. split; [done|].
    destruct (saved_shown (S i) m _ Hp) as (k & Hk & Hc & Es & Hlo & Hhi).
    { intros j Hj Hvj. cbn. apply (cmp_le_lt_trans ucmp _ (ukey i)); [|exact Hlt].
      apply ukey_mono; [done|lia|by eapply vis_lt]. }
    exists k. split; [lia|]. split; [done|]. split; [done|]. split; [done|]. exists (Some i). split; [done|].
    split; [lia|]. intros j Hj. apply Hlo. lia.
  - assert (vt <> kTypeDeletion -> ~ cmp_lt ucmp (ukey i) (saved_key_ d)) as Hnlt.
    { intros Hvt Hlt. by rewrite !bool_decide_true in Eb by done. }
    assert (forall saved', (is_value ws i -> saved' = entry ws i) ->
      passed i m (if decide (is_value ws i) then kTypeValue else kTypeDeletion) saved') as Hpass.
    { intros saved' Hs'. by apply (passed_visible i m vt (saved_key_ d, saved_value_ d)). }
    assert (is_value ws i <-> type e.1 = kTypeValue) as Hval by (unfold is_value; by rewrite E).
    destruct (type e.1) eqn:Et.
    + rewrite decide_False in Hpass by by intros ?%Hval. apply Hstep; [done|by destruct Hg'|done|]. apply Hpass. by intros ?%Hval.
    + rewrite decide_True in Hpass by by apply Hval. change (iter_ d1) with (iter_ d). rewrite Ev. cbn [mbind res_bind]. rewrite (user_key_at d1 i Hr1). cbn [mbind res_bind].
      apply Hstep; [done|by destruct Hg'|done|]. apply Hpass. intros _. cbn. unfold entry. rewrite E, Eu. done.
Qed.

Lemma FindPrev_spec m o (d : DB) : irep (iter_ d) o -> good d -> direction_ d = kReverse ->
  m = match o with Some i => S i | None => 0%nat end ->
  exists d', FindPrevUserEntry s fuel d = Ret d' /\ db_rep d' (index_before (rank m)).
Proof.
  intros Hr Hg Hd Hm. unfold FindPrevUserEntry. rewrite (spec_Valid _ _ Hr).
  assert (exists d' vt', (if bool_decide (is_Some o) then prev_loop s fuel d kTypeDeletion else Ret (d, kTypeDeletion)) = Ret (d', vt')
    /\ prev_done m d' vt') as (d' & vt' & -> & Hg' & Hd' & Hdone).
  { destruct o as [i|].
    - rewrite bool_decide_true by done. destruct (at_write _ _ Hr) as (e & E & _). apply lookup_lt_Some in E.
      apply (prev_loop_spec fuel m i); [done|done|done|lia|lia|]. cbn. lia.
    - rewrite bool_decide_false by (by intros [? ?]). eexists _, _. split; [done|]. split; [done|]. split; [done|].
      split; [by exists None|lia]. }
  cbn [mbind res_bind]. eexists. split; [done|]. destruct vt'.
  - destruct Hdone as [Hr' Hno]. exists None. rewrite none_before by done. split; [done|]. left.
    split; [by destruct Hg'|]. split; [done|]. by split.
  - destruct Hdone as (c & Hc & Hch & Hno & Hsv & Hb). exists (Some c). rewrite (chosen_before _ _ c) by done. split; [done|].
    right. exists c. split; [done|]. split; [by destruct Hg'|]. split; [done|]. split; [done|]. by split.
Qed.

Lemma turn_loop_spec n i c (d : DB) : irep (iter_ d) (Some i) -> (i <= c)%nat -> (i < n)%nat -> chosen c ->
  saved_key_ d = ukey c -> good d -> (forall k, (i <= k < c)%nat -> ucmp (ukey k) (ukey c) = Eq) ->
  exists d' b, turn_loop n d = Ret (d', b) /\ good d' /\ direction_ d' = direction_ d /\
    if (b : bool) then exists j, (j < c)%nat /\ irep (iter_ d') (Some j) /\ forall k, (j < k < c)%nat -> ~ chosen k
    else valid_ d' = false /\ (exists o, irep (iter_ d') o) /\ forall k, (k < c)%nat -> ~ chosen k.
Proof.
  revert i d. induction n as [|n IH]; intros i d Hr Hi Hn Hc Hsv Hg Heq; [lia|]. cbn [turn_loop].
  assert (forall k, (i <= k < c)%nat -> ~ chosen k) as Hno.
  { intros k Hk Hck. pose proof (chosen_later s ws Hsorted k c ltac:(lia) (proj1 Hck) Hc) as Hlt. by rewrite Heq in Hlt. }
  destruct (spec_Prev _ _ Hr) as (it & -> & Hr2). cbn [mbind res_bind].
  apply spec_Valid in Hr2 as HV. rewrite HV. clear HV. destruct i as [|i]; cbn [index_before] in *.
  - rewrite bool_decide_false by (by intros [? ?]). cbn [negb]. eexists _, _. split; [done|].
    split; [by destruct Hg|]. split; [done|]. split; [done|]. split; [by exists None|]. intros k Hk. apply Hno. lia.
  - rewrite bool_decide_true by done. cbn [negb]. rewrite (user_key_at (with_iter d it) i Hr2). cbn [mbind res_bind].
    rewrite Compare_ltb. change (saved_key_ (with_iter d it)) with (saved_key_ d). rewrite Hsv.
    destruct (bool_decide (cmp_lt ucmp (ukey i) (ukey c))) eqn:Eb.
    + eexists _, _. split; [done|]. split; [by destruct Hg|]. split; [done|]. exists i. split; [lia|]. split; [done|].
      intros k Hk. apply Hno. lia.
    + apply bool_decide_eq_false in Eb.
      destruct (IH i (with_iter d it) Hr2) as (d' & b & -> & HR); [lia|lia|done|done|by destruct Hg| |by exists d', b].
      intros k Hk. destruct (decide (k = i)) as [->|]; [|apply Heq; lia]. destruct (ucmp (ukey i) (ukey c)) eqn:E; [done|done|].
      pose proof (ukey_mono ws Hsorted i c ltac:(lia) (chosen_lt _ _ _ Hc)) as Hle. by destruct Hle.
Qed.

(** ** The iterator *)

Lemma db_rep_good d o : db_rep d o -> good d /\ exists o, irep (iter_ d) o.
Proof.
  intros (c & _ & [(Hg & _ & Hc)|(c' & _ & Hg & _ & _ & _ & _ & o' & Hr & _)]).
  - split; [done|]. destruct c as [c|]; [|by destruct Hc]. destruct Hc as (_ & _ & Hr). by exists (Some c).
  - split; [done|by exists o'].
Qed.

Lemma fwd_rep d o : fwd d o -> db_rep d (rank <$> o).
Proof. intros Hf. exists o. split; [done|by left]. Qed.

Lemma entry_at c e : ws !! c = Some e -> entry ws c = (user_key e.1, e.2).
Proof. intros E. unfold entry. by rewrite E. Qed.

(** Seeking forwards from a fresh position of the internal iterator. *)
Lemma restart i (d : DB) it : irep it (index (map raw ws) i) -> good d -> direction_ d = kForward ->
  seeking i i false (saved_key_ d) ->
  exists d', (if Valid it then FindNextUserEntry s fuel (with_iter d it) false else Ret (with_valid (with_iter d it) false)) = Ret d'
    /\ db_rep d' (index view (rank i)).
Proof.
  intros Hr Hg Hd Hsk. rewrite (spec_Valid _ _ Hr). destruct (decide (i < length ws)%nat) as [Hi|Hi].
  - rewrite index_some in Hr |- * by by rewrite length_map. rewrite bool_decide_true by done.
    destruct (FindNext_spec i i (with_iter d it) false) as (d' & o & -> & Hf & ->); [done|by destruct Hg|done|done|].
    exists d'. split; [done|by apply fwd_rep].
  - rewrite index_none in Hr |- * by (rewrite length_map; lia). rewrite bool_decide_false by (by intros [? ?]).
    eexists. split; [done|]. rewrite none_from.
    + exists None. split; [done|]. left. split; [by destruct Hg|]. split; [done|]. split; [done|]. by exists None.
    + intros j Hj Hc. pose proof (chosen_lt _ _ _ Hc). lia.
Qed.

Lemma seeking_fresh i skip : (forall k j, (k < i <= j)%nat -> vis k -> vis j -> ucmp (ukey k) (ukey j) <> Eq) ->
  seeking i i false skip.
Proof.
  intros Hf. split; [done| |done|lia]. intros j Hj Hv Ht _ Hk. split; [|done]. apply chosen_alt.
  split; [done|]. split; [done|]. intros k Hkj Hvk. destruct (decide (i <= k)%nat); [apply Hk; [lia|done]|apply Hf; [lia|done|done]].
Qed.

(** The internal key a target is sought by. *)
Lemma seek_target t i e : ws !! i = Some e ->
  internal_cmp (raw e).1 (encode_key (mkParsed t s kValueTypeForSeek)) = Lt <-> ucmp (ukey i) t = Lt \/ ucmp (ukey i) t = Eq /\ ~ vis i.
Proof.
  intros E. cbn [raw fst]. rewrite internal_cmp_encode by (done || by eapply ws_valid).
  unfold ikey_cmp, cmp_then, cmp_on, cmp_flip, DBIter.ukey, DBIter.vis. rewrite E. cbn [user_key sequence type].
  destruct (ucmp (user_key e.1) t); [|naive_solver..]. destruct (Z.compare_spec s (sequence e.1)) as [Es|Hl|Hg].
  - destruct (type e.1); cbn; split; [done| |done|]; intros [?|[_ ?]]; try done; lia.
  - split; [|done]. intros _. right. split; [done|lia].
  - split; [done|]. intros [?|[_ ?]]; [done|lia].
Qed.

Abbreviation target_key t := (encode_key (mkParsed t s kValueTypeForSeek)).
Abbreviation target_index t := (lower_bound internal_cmp (target_key t) (map raw ws)).

Lemma before_target t i : (i < target_index t)%nat -> vis i -> ucmp (ukey i) t = Lt.
Proof.
  intros Hi Hv. destruct (lookup_lt_is_Some_2 ws i (vis_lt _ _ _ Hv)) as [e E].
  assert (map raw ws !! i = Some (raw e)) as Er by (by rewrite list_lookup_fmap, E).
  pose proof (lower_bound_before _ _ _ _ _ Hi Er) as Hlt. apply (seek_target t i e E) in Hlt as [Hlt|[_ Hn]]; done.
Qed.

Lemma past_target t j : (target_index t <= j)%nat -> (j < length ws)%nat -> ucmp (ukey j) t <> Lt.
Proof.
  intros Hj Hl Hlt. destruct (lookup_lt_is_Some_2 ws (target_index t) ltac:(lia)) as [e E].
  assert (map raw ws !! target_index t = Some (raw e)) as Er by (by rewrite list_lookup_fmap, E).
  apply (lower_bound_at _ _ _ _ Er). apply (seek_target t _ e E). left.
  apply (cmp_le_lt_trans ucmp _ (ukey j)); [|exact Hlt]. by apply ukey_mono.
Qed.

Lemma rank_target t : rank (target_index t) = lower_bound ucmp t view.
Proof.
  symmetry. apply lower_bound_eq.
  - rewrite length_view. apply rank_le. pose proof (lower_bound_le internal_cmp (target_key t) (map raw ws)) as Hle.
    by rewrite length_map in Hle.
  - intros n e Hn E. apply view_inv in E as (i & Hc & <- & ->).
    assert (i < target_index t)%nat as Hi.
    { destruct (decide (i < target_index t)%nat); [done|]. pose proof (rank_le s ws (target_index t) i ltac:(lia)). lia. }
    pose proof (before_target t i Hi (proj1 Hc)) as Hlt. unfold DBIter.ukey in Hlt.
    destruct (lookup_lt_is_Some_2 ws i (chosen_lt _ _ _ Hc)) as [x Ex]. rewrite (entry_at _ _ Ex). by rewrite Ex in Hlt.
  - intros e E. apply view_inv in E as (i & Hc & Hr & ->).
    assert (target_index t <= i)%nat as Hi.
    { destruct (decide (target_index t <= i)%nat); [done|]. pose proof (rank_le s ws (S i) (target_index t) ltac:(lia)) as Hle.
      rewrite rank_S, decide_True in Hle by done. lia. }
    pose proof (past_target t i Hi (chosen_lt _ _ _ Hc)) as Hn. unfold DBIter.ukey in Hn.
    destruct (lookup_lt_is_Some_2 ws i (chosen_lt _ _ _ Hc)) as [x Ex]. rewrite (entry_at _ _ Ex). by rewrite Ex in Hn.
Qed.

#[export] Instance db_spec :
  @IteratorSpec DB (DBIter_iterator s fuel) (fun t => valid (target_key t)) ucmp view db_rep.
Proof.
  split.
  - intros d o (c & -> & [(_ & _ & Hc)|(c' & -> & _ & _ & _ & Hv & _)]).
    + destruct c; cbn; [by destruct Hc as (_ & Hv & _)|by destruct Hc as [Hv _]].
    + by cbn.
  - intros d n (c & En & Hd). destruct c as [c|]; [|done]. injection En as ->.
    assert (chosen c) as Hc by (destruct Hd as [(_ & _ & Hc & _)|(c' & [= <-] & _ & _ & Hc & _)]; done).
    destruct (lookup_lt_is_Some_2 ws c (chosen_lt _ _ _ Hc)) as [e E]. exists (user_key e.1), e.2.
    rewrite (view_at s ws c Hc), (entry_at _ _ E). split; [done|]. cbn [key value DBIter_iterator]. unfold d_key, d_value.
    destruct Hd as [(_ & Hd & _ & _ & Hr)|(c' & [= <-] & _ & Hd & _ & _ & Hsv & _)]; rewrite Hd.
    + rewrite (user_key_at d c Hr). unfold DBIter.ukey. rewrite E. destruct (at_write _ _ Hr) as (e' & E' & _ & -> & _).
      by simplify_eq.
    + rewrite (entry_at _ _ E) in Hsv. by injection Hsv as -> ->.
  - intros d o Hd. destruct (db_rep_good _ _ Hd) as (Hg & o' & Hr). cbn [SeekToFirst DBIter_iterator]. unfold d_SeekToFirst.
    cbn [iter_ ClearSavedValue with_saved with_direction].
    destruct (spec_SeekToFirst _ _ Hr) as (it & -> & Hr'). cbn [mbind res_bind].
    destruct (restart 0 (ClearSavedValue (with_direction d kForward)) it) as (d' & E & Hd'); [done|by destruct Hg|done| |].
    { apply seeking_fresh. lia. }
    by exists d'.
  - intros d o Hd. destruct (db_rep_good _ _ Hd) as (Hg & o' & Hr). cbn [SeekToLast DBIter_iterator]. unfold d_SeekToLast.
    cbn [iter_ ClearSavedValue with_saved with_direction].
    destruct (spec_SeekToLast _ _ Hr) as (it & -> & Hr'). cbn [mbind res_bind].
    destruct (FindPrev_spec (length ws) _ (with_iter (ClearSavedValue (with_direction d kReverse)) it) Hr') as (d' & -> & Hd').
    { by destruct Hg. }
    { done. }
    { rewrite length_map. unfold index. rewrite length_map. case_decide; lia. }
    exists d'. split; [done|]. rewrite length_view. destruct (rank (length ws)) as [|n] eqn:En; cbn [index_before] in *.
    + by rewrite index_none by (rewrite length_view, En; lia).
    + by rewrite index_some, Nat.sub_1_r by (rewrite length_view, En; lia).
  - intros d o t Hd Ht. destruct (db_rep_good _ _ Hd) as (Hg & o' & Hr). cbn [Seek DBIter_iterator]. unfold d_Seek.
    cbn [iter_ saved_key_ SaveKey ClearSavedValue with_saved with_direction].
    change (AppendInternalKey [] (mkParsed t s kValueTypeForSeek)) with (target_key t).
    destruct (spec_Seek _ _ (target_key t) Hr) as (it & -> & Hr'); [done|].
    cbn [mbind res_bind].
    destruct (restart (target_index t) (SaveKey (ClearSavedValue (with_direction d kForward)) (target_key t)) it)
      as (d' & E & Hd'); [done|by destruct Hg|done| |].
    { apply seeking_fresh. intros k j Hkj Hvk Hvj Heq. pose proof (before_target t k ltac:(lia) Hvk) as Hlt.
      rewrite (cmp_eq_l (cmp:=ucmp) _ _ _ Heq) in Hlt. by apply (past_target t j ltac:(lia) (vis_lt _ _ _ Hvj)). }
    rewrite <- rank_target. by exists d'.
  - intros d n (c & En & Hd). destruct c as [c|]; [|done]. injection En as ->. cbn [Next DBIter_iterator]. unfold d_Next.
    assert (chosen c -> S (rank c) = rank (S c)) as HS by (intros Hc; rewrite rank_S, decide_True by done; lia).
    destruct Hd as [(Hg & Hd & Hc & _ & Hr)|(c' & [= <-] & Hg & Hd & Hc & _ & Hsv & o & Hr & Hb)]; rewrite Hd, HS by done.
    + rewrite (user_key_at d c Hr). cbn [mbind res_bind].
      destruct (FindNext_spec (S c) c (SaveKey d (ukey c)) true) as (d' & o & -> & Hf & ->); [done|by destruct Hg|done| |].
      { apply seeking_past; [done|lia|lia]. }
      exists d'. split; [done|by apply fwd_rep].
    + cbn [iter_ with_direction]. rewrite (spec_Valid _ _ Hr). pose proof (chosen_lt _ _ _ Hc) as Hlt.
      assert (exists it i, (if negb (bool_decide (is_Some o)) then SeekToFirst (iter_ d) else Next (iter_ d)) = Ret it
        /\ irep it (Some i) /\ (i <= c)%nat /\ forall k, (i <= k < c)%nat -> ~ vis k) as (it & i & -> & Hr' & Hi & Hno).
      { destruct o as [k|]; cbn in Hb.
        - rewrite bool_decide_true by done. cbn [negb]. destruct (spec_Next _ _ Hr) as (it & E & Hr').
          rewrite index_some in Hr' by (rewrite length_map; lia). exists it, (S k). split; [done|]. split; [done|].
          split; [lia|]. intros j Hj. apply Hb. lia.
        - rewrite bool_decide_false by (by intros [? ?]). cbn [negb]. destruct (spec_SeekToFirst _ _ Hr) as (it & E & Hr').
          rewrite index_some in Hr' by (rewrite length_map; lia). exists it, 0%nat. split; [done|]. split; [done|].
          split; [lia|]. intros j Hj. apply Hb. lia. }
      cbn [mbind res_bind]. rewrite (spec_Valid _ _ Hr'), bool_decide_true by done. cbn [negb].
      destruct (FindNext_spec (S c) i (with_iter (with_direction d kForward) it) true) as (d' & o' & -> & Hf & ->);
        [done|by destruct Hg|done| |].
      { cbn. assert (saved_key_ d = ukey c) as ->; [|by apply seeking_past].
        destruct (lookup_lt_is_Some_2 ws c Hlt) as [e E]. rewrite (entry_at _ _ E) in Hsv. injection Hsv as -> _.
        unfold DBIter.ukey. by rewrite E. }
      exists d'. split; [done|by apply fwd_rep].
  - intros d n (c & En & Hd). destruct c as [c|]; [|done]. injection En as ->. cbn [Prev DBIter_iterator]. unfold d_Prev.
    destruct Hd as [(Hg & Hd & Hc & _ & Hr)|(c' & [= <-] & Hg & Hd & Hc & _ & Hsv & o & Hr & Hb)]; rewrite Hd.
    + rewrite (user_key_at d c Hr). cbn [mbind res_bind]. pose proof (chosen_lt _ _ _ Hc) as Hlt.
      destruct (turn_loop_spec fuel c c (SaveKey d (ukey c)) Hr) as (d' & b & -> & Hg' & Hd' & Hres);
        [lia|lia|done|done|by destruct Hg|lia|]. cbn [mbind res_bind]. destruct b.
      * destruct Hres as (j & Hj & Hr' & Hno).
        destruct (FindPrev_spec (S j) (Some j) (with_direction d' kReverse)) as (d2 & -> & Hd2); [done|by destruct Hg'|done|done|].
        exists d2. split; [done|]. rewrite (rank_same s ws (S j) c) by (lia || (intros; apply Hno; lia)). done.
      * destruct Hres as (Hv & Ho & Hno). exists d'. split; [done|]. rewrite none_before by done. exists None. split; [done|].
        left. split; [done|]. split; [by rewrite Hd'|]. by split.
    + destruct (FindPrev_spec (match o with Some i => S i | None => 0%nat end) o d Hr Hg Hd eq_refl) as (d' & -> & Hd').
      exists d'. split; [done|]. rewrite (rank_same s ws (match o with Some i => S i | None => 0%nat end) c); [done| |].
      * destruct o; cbn in Hb; lia.
      * intros k Hk [Hv _]. destruct o as [i|]; cbn in Hb; [by apply (proj2 Hb k); [lia|]|by apply (Hb k); [lia|]].
  - intros d o Hd. destruct (db_rep_good _ _ Hd) as ([Hst _ _] & o' & Hr). cbn. unfold d_status. rewrite Hst. cbn.
    by apply (spec_status _ _ Hr).
Qed.

Lemma NewDBIterator_spec it o seed : irep it o -> exists d, NewDBIterator it seed = Ret d /\ db_rep d None.
Proof.
  intros Hr. unfold NewDBIterator. rewrite RandomPeriod_eq. cbn [mbind res_bind]. eexists. split; [done|].
  exists None. split; [done|]. left. split; [|split; [done|split; [done|by exists o]]].
  split; cbn [status_ rnd_ bytes_counter_]; [done|apply Next_good, new_Random_good|].
  apply Z.mod_pos_bound. lia.
Qed.
End refinement.

Lemma open_view `{Comparator} {It : Type} `{!Iterator It} s fuel valid ws (it : It) o seed :
  valid_seq s -> Forall (fun e : write => valid_seq (sequence e.1)) ws ->
  StronglySorted (fun a b : write => cmp_lt ikey_cmp a.1 b.1) ws -> (length ws < fuel)%nat ->
  cursor It valid internal_cmp (map raw ws) it o ->
  exists d, NewDBIterator it seed = Ret d
    /\ @cursor _ (DBIter_iterator s fuel) (fun t => valid (encode_key (mkParsed t s kValueTypeForSeek))) ucmp (view s ws) d None.
Proof.
  intros Hs Hws Hsorted Hfuel (irep & HS & Hr).
  assert (exists d, NewDBIterator it seed = Ret d /\ db_rep s ws irep d None) as (d & E & Hd)
    by by eapply NewDBIterator_spec.
  exists d. split; [exact E|]. eexists. split; [|exact Hd]. by apply db_spec.
Qed.

(** ** Property *)

(** C20: the database's iterator shows what its snapshot sees.  Over any
    iterator of the internal entries, in the order of internal keys,
    [NewDBIterator] returns an iterator over the [view] of the snapshot: seeks,
    steps in both directions and every change of direction included.  The view
    is sorted by user key and holds exactly, for each user key, the newest
    write with a sequence number up to the snapshot's, unless it is a deletion. *)
Theorem db_iterator_view `{Comparator} {It : Type} `{!Iterator It} s fuel valid ws (it : It) o seed :
  valid_seq s -> Forall (fun e : write => valid_seq (sequence e.1)) ws ->
  StronglySorted (fun a b : write => cmp_lt ikey_cmp a.1 b.1) ws -> (length ws < fuel)%nat ->
  cursor It valid internal_cmp (map raw ws) it o ->
  (exists d, NewDBIterator it seed = Ret d
     /\ @cursor _ (DBIter_iterator s fuel) (fun t => valid (encode_key (mkParsed t s kValueTypeForSeek))) ucmp (view s ws) d None)
  /\ StronglySorted (fun a b => cmp_lt ucmp a.1 b.1) (view s ws)
  /\ forall u v, (u, v) ∈ view s ws
       <-> exists e, newest_seen s ws e /\ type e.1 = kTypeValue /\ user_key e.1 = u /\ e.2 = v.
Proof.
  intros Hs Hws Hsorted Hfuel Hc. split; [by eapply open_view|].
  split; [by apply view_sorted|intros; by apply view_elem].
Qed.
