(* ===== verification/Env.v ===== *)
(** * Env: include/leveldb/env.h and util/env.cc

    The environment that the database reaches its files through, as an
    interface: a world [W], files open for writing [H] and for reading [S].
    [Env] has the operations, any of which may fail; [EnvSpec] is what
    environments promise when they do not (MemEnv.v shows it of
    helpers/memenv).  The functions of util/env.cc and [SetCurrentFile]
    (db/filename.cc) are over the interface. *)

From S2P Require Import Prelude CLib Coding Status Log Filename.

(** ** The interface *)

Class Env (W H S : Type) := {
  env_NewWritableFile : W -> bytes -> res (Status.t * option H * W);
  env_Append : W -> H -> bytes -> Status.t * W;
  env_Flush : W -> H -> Status.t * W;
  env_Sync : W -> H -> Status.t * W;
  env_Close : W -> H -> Status.t * W;
  env_NewSequentialFile : W -> bytes -> res (Status.t * option S);
  env_Read : W -> nat -> S -> Status.t * bytes * S;
  env_Skip : W -> Z -> S -> Status.t * S;
  env_FileExists : W -> bytes -> bool;
  env_GetChildren : W -> bytes -> Status.t * list bytes;
  env_DeleteFile : W -> bytes -> res (Status.t * W);
  env_RenameFile : W -> bytes -> bytes -> res (Status.t * W);
  env_CreateDir : W -> bytes -> Status.t * W;
  env_GetFileSize : W -> bytes -> res (Status.t * Z);
  env_LockFile : W -> bytes -> Status.t * W;
}.
#[global] Hint Mode Env ! - - : typeclass_instances.

Section env.
Context {W H S : Type} `{!Env W H S}.

(** A file open for writing or reading, with its world. *)
#[export] Instance env_writable : WritableFile (W * H) := {
  file_append d f := let '(s, w) := env_Append f.1 f.2 d in (s, (w, f.2));
  file_flush f := let '(s, w) := env_Flush f.1 f.2 in (s, (w, f.2));
}.
#[export] Instance env_sequential : SequentialFile (W * S) := {
  file_read n f := let '(s, d, r) := env_Read f.1 n f.2 in (s, d, (f.1, r));
  file_skip n f := let '(s, r) := env_Skip f.1 n f.2 in (s, (f.1, r));
}.

(** ** util/env.cc *)

Definition DoWriteStringToFile (w : W) (data fname : bytes) (should_sync : bool) : res (Status.t * W) :=
  '(s, file, w) ← env_NewWritableFile w fname;
  if negb (Status.ok s) then Ret (s, w)
  else
    file ← of_option file;
    let '(s, w) := env_Append w file data in
    let '(s, w) := if Status.ok s && should_sync then env_Sync w file else (s, w) in
    let '(s, w) := if Status.ok s then env_Close w file else (s, w) in
    if negb (Status.ok s) then '(_, w) ← env_DeleteFile w fname; Ret (s, w) else Ret (s, w).

Definition WriteStringToFile (w : W) (data fname : bytes) : res (Status.t * W) :=
  DoWriteStringToFile w data fname false.
Definition WriteStringToFileSync (w : W) (data fname : bytes) : res (Status.t * W) :=
  DoWriteStringToFile w data fname true.

Definition kBufferSize : Z := 8192.

Fixpoint read_file_loop (fuel : nat) (w : W) (file : S) (data : bytes) : res (Status.t * bytes) :=
  match fuel with
  | O => NoFuel
  | Datatypes.S fuel =>
      let '(s, fragment, file) := env_Read w (Z.to_nat kBufferSize) file in
      if negb (Status.ok s) then Ret (s, data)
      else
        let data := data ++ fragment in
        if decide (fragment = []) then Ret (s, data) else read_file_loop fuel w file data
  end.

(** Every round but the last reads a byte: more than the file's are enough. *)
Definition ReadFileToString (fuel : nat) (w : W) (fname : bytes) : res (Status.t * bytes) :=
  '(s, file) ← env_NewSequentialFile w fname;
  if negb (Status.ok s) then Ret (s, [])
  else file ← of_option file; read_file_loop fuel w file [].

(** ** db/filename.cc, SetCurrentFile *)

Definition SetCurrentFile (w : W) (dbname : bytes) (descriptor_number : Z) : res (Status.t * W) :=
  let manifest := DescriptorFileName dbname descriptor_number in
  let contents := drop (length dbname + 1) manifest in
  let tmp := TempFileName dbname descriptor_number in
  '(s, w) ← WriteStringToFileSync w (contents ++ [zb 10]) tmp;
  '(s, w) ← (if Status.ok s then env_RenameFile w tmp (CurrentFileName dbname) else Ret (s, w));
  if negb (Status.ok s) then '(_, w) ← env_DeleteFile w tmp; Ret (s, w) else Ret (s, w).
End env.

(** ** What environments promise *)

Section spec.
Context {W H S : Type}.

(** [env_ok] is an invariant of the world and [contents] has the data of each
    file by its name.  [uses w u n] is about an open file of name [n]: for
    [inl h], that [h] writes it now, and for [inr (r, c)], that [c] is what is
    left of it for the reader [r]. *)
Class EnvSpec `{!Env W H S} := {
  env_ok : W -> Prop;
  contents : W -> gmap bytes bytes;
  uses : W -> H + S * bytes -> bytes -> Prop;
  env_new w name : env_ok w -> exists h w', env_NewWritableFile w name = Ret (Status.OK, Some h, w') /\ env_ok w'
    /\ contents w' = <[name := []]> (contents w) /\ uses w' (inl h) name
    /\ forall u n, n <> name -> uses w u n -> uses w' u n;
  env_append w h name c d : env_ok w -> uses w (inl h) name -> contents w !! name = Some c ->
    exists w', env_Append w h d = (Status.OK, w') /\ env_ok w' /\ contents w' = <[name := c ++ d]> (contents w)
    /\ (forall k n, uses w (inl k) n -> uses w' (inl k) n) /\ forall u n, n <> name -> uses w u n -> uses w' u n;
  env_flush w h name : env_ok w -> uses w (inl h) name -> exists w', env_Flush w h = (Status.OK, w') /\ env_ok w'
    /\ contents w' = contents w /\ forall u n, uses w u n -> uses w' u n;
  env_sync w h name : env_ok w -> uses w (inl h) name -> exists w', env_Sync w h = (Status.OK, w') /\ env_ok w'
    /\ contents w' = contents w /\ forall u n, uses w u n -> uses w' u n;
  env_close w h name : env_ok w -> uses w (inl h) name -> exists w', env_Close w h = (Status.OK, w') /\ env_ok w'
    /\ contents w' = contents w /\ forall u n, n <> name -> uses w u n -> uses w' u n;
  env_open w name c : env_ok w -> contents w !! name = Some c ->
    exists r, env_NewSequentialFile w name = Ret (Status.OK, Some r) /\ uses w (inr (r, c)) name;
  env_open_missing w name : env_ok w -> contents w !! name = None ->
    exists s, env_NewSequentialFile w name = Ret (s, None) /\ Status.ok s = false;
  env_read w r name c n : env_ok w -> uses w (inr (r, c)) name ->
    exists r', env_Read w n r = (Status.OK, take n c, r') /\ uses w (inr (r', drop n c)) name;
  env_skip w r name c n : env_ok w -> uses w (inr (r, c)) name -> 0 <= n ->
    exists r', env_Skip w n r = (Status.OK, r') /\ uses w (inr (r', drop (Z.to_nat n) c)) name;
  env_exists w name : env_ok w -> env_FileExists w name = bool_decide (is_Some (contents w !! name));
  env_rename w src target c : env_ok w -> contents w !! src = Some c -> src <> target ->
    exists w', env_RenameFile w src target = Ret (Status.OK, w') /\ env_ok w'
    /\ contents w' = <[target := c]> (delete src (contents w))
    /\ forall u n, n <> src -> n <> target -> uses w u n -> uses w' u n;
  env_delete w name : env_ok w -> is_Some (contents w !! name) ->
    exists w', env_DeleteFile w name = Ret (Status.OK, w') /\ env_ok w' /\ contents w' = delete name (contents w)
    /\ forall u n, n <> name -> uses w u n -> uses w' u n;
  env_delete_missing w name : env_ok w -> contents w !! name = None ->
    exists s w', env_DeleteFile w name = Ret (s, w') /\ env_ok w' /\ contents w' = contents w
    /\ forall u n, uses w u n -> uses w' u n;
  env_children w dir : env_ok w -> exists l, env_GetChildren w dir = (Status.OK, l) /\ NoDup l
    /\ (forall n, zb 47 ∉ n -> is_Some (contents w !! (dir ++ lit "/" ++ n)) -> n ∈ l)
    /\ forall n, n ∈ l -> n = lit "." \/ n = lit ".." \/ is_Some (contents w !! (dir ++ lit "/" ++ n));
  env_create w dir : env_ok w -> exists s w', env_CreateDir w dir = (s, w') /\ env_ok w' /\ contents w' = contents w
    /\ forall u n, uses w u n -> uses w' u n;
  env_lock w name : env_ok w -> exists w', env_LockFile w name = (Status.OK, w') /\ env_ok w'
    /\ (forall n, n <> name -> contents w' !! n = contents w !! n)
    /\ forall u n, n <> name -> uses w u n -> uses w' u n;
}.
End spec.
#[global] Arguments EnvSpec W H S {_}.

(** ** Files written and read through the environment *)

Section through.
Context {W H S : Type} `{!Env W H S} `{!EnvSpec W H S}.

Definition writes (w : W) (h : H) (n : bytes) : Prop := uses w (inl h) n.
Definition reads (w : W) (r : S) (c n : bytes) : Prop := uses w (inr (r, c)) n.

(** What the functions above leave of the open files of other names. *)
Definition kept_uses (w w' : W) (names : list bytes) : Prop :=
  forall u n, n ∉ names -> uses w u n -> uses w' u n.

(** Deleting a file, there or not. *)
Lemma env_delete_any w name : env_ok w -> exists s w', env_DeleteFile w name = Ret (s, w') /\ env_ok w'
  /\ contents w' = delete name (contents w) /\ kept_uses w w' [name].
Proof.
  intros Hw. destruct (contents w !! name) as [c|] eqn:E.
  - destruct (env_delete w name Hw) as (w' & E' & Hw' & Hc & Hk); [by exists c|]. exists Status.OK, w'. repeat split; [done..|].
    intros k n Hn. apply Hk. intros ->. apply Hn. by constructor.
  - destruct (env_delete_missing w name Hw E) as (s & w' & E' & Hw' & Hc & Hk). exists s, w'. split; [done|]. split; [done|].
    split; [by rewrite delete_id|]. intros k n _. apply Hk.
Qed.

Lemma WriteStringToFileSync_spec w data fname : env_ok w ->
  exists w', WriteStringToFileSync w data fname = Ret (Status.OK, w') /\ env_ok w'
  /\ contents w' = <[fname := data]> (contents w) /\ kept_uses w w' [fname].
Proof.
  intros Hw. unfold WriteStringToFileSync, DoWriteStringToFile.
  destruct (env_new w fname Hw) as (h & w1 & -> & Hw1 & C1 & Wr1 & K1). cbn [mbind res_bind Status.ok Status.OK negb of_option].
  destruct (env_append w1 h fname [] data Hw1 Wr1) as (w2 & -> & Hw2 & C2 & K2 & K2'); [rewrite C1; by rewrite lookup_insert_eq|].
  cbn [Status.ok Status.OK negb andb]. destruct (env_sync w2 h fname Hw2 (K2 _ _ Wr1)) as (w3 & -> & Hw3 & C3 & K3).
  cbn [Status.ok Status.OK negb]. destruct (env_close w3 h fname Hw3 (K3 _ _ (K2 _ _ Wr1))) as (w4 & -> & Hw4 & C4 & K4).
  cbn [Status.ok Status.OK negb]. exists w4. split; [done|]. split; [done|]. split.
  - rewrite C4, C3, C2, C1. by rewrite insert_insert_eq.
  - intros k n Hn Hk. rewrite list_elem_of_singleton in Hn. apply K4; [done|]. apply K3, K2'; [done|]. by apply K1.
Qed.

Lemma read_file_loop_spec fuel w name : env_ok w -> forall r c data, reads w r c name -> (length c < fuel)%nat ->
  read_file_loop fuel w r data = Ret (Status.OK, data ++ c).
Proof.
  intros Hw. induction fuel as [|fuel IH]; intros r c data Hr Hf; [lia|]. cbn [read_file_loop].
  destruct (env_read w r name c (Z.to_nat kBufferSize) Hw Hr) as (r' & -> & Hr'). cbn [Status.ok Status.OK negb].
  case_decide as Ht.
  - assert (c = []) as -> by (by destruct c). by rewrite !take_nil.
  - rewrite (IH r' (drop (Z.to_nat kBufferSize) c)); [|done|].
    + by rewrite <- app_assoc, take_drop.
    + rewrite length_drop. assert (length c <> 0%nat) by (by destruct c). unfold kBufferSize. lia.
Qed.

Lemma ReadFileToString_spec fuel w fname c : env_ok w -> contents w !! fname = Some c -> (length c < fuel)%nat ->
  ReadFileToString fuel w fname = Ret (Status.OK, c).
Proof.
  intros Hw Hc Hf. unfold ReadFileToString. destruct (env_open w fname c Hw Hc) as (r & -> & Hr).
  cbn [mbind res_bind Status.ok Status.OK negb of_option]. by rewrite (read_file_loop_spec fuel w fname Hw r c).
Qed.

(** [CURRENT] holds the name of the descriptor and a newline. *)
Definition current_text (n : Z) : bytes := drop 1 (take 99 (lit "/MANIFEST-" ++ pad6 n)) ++ [zb 10].

Lemma current_contents dbname n : drop (length dbname + 1) (DescriptorFileName dbname n) ++ [zb 10] = current_text n.
Proof. unfold current_text, DescriptorFileName. f_equal. rewrite <- drop_drop, drop_app_length. done. Qed.

Lemma name_suffix (dbname a b : bytes) : dbname ++ a = dbname ++ b -> a = b.
Proof. apply app_inv_head. Qed.

Lemma temp_not_current dbname n : 0 <= n <= kMaxUint64 -> TempFileName dbname n <> CurrentFileName dbname.
Proof.
  intros Hn. unfold TempFileName, CurrentFileName. rewrite MakeFileName_eq by (done || cbn; lia). intros E%name_suffix.
  destruct (pad6_digits n Hn) as (Hne & Hd & _). destruct (pad6 n) as [|x l]; [done|]. apply Forall_cons_1 in Hd as [Hd _].
  cbn in E. injection E as Ex _. rewrite Ex in Hd. vm_compute in Hd. discriminate Hd.
Qed.

Lemma SetCurrentFile_spec w dbname n : env_ok w -> 0 <= n <= kMaxUint64 ->
  exists w', SetCurrentFile w dbname n = Ret (Status.OK, w') /\ env_ok w'
  /\ contents w' = <[CurrentFileName dbname := current_text n]> (delete (TempFileName dbname n) (contents w))
  /\ kept_uses w w' [TempFileName dbname n; CurrentFileName dbname].
Proof.
  intros Hw Hn. unfold SetCurrentFile. rewrite current_contents.
  destruct (WriteStringToFileSync_spec w (current_text n) (TempFileName dbname n) Hw) as (w1 & -> & Hw1 & C1 & K1).
  cbn [mbind res_bind Status.ok Status.OK].
  destruct (env_rename w1 (TempFileName dbname n) (CurrentFileName dbname) (current_text n) Hw1) as (w2 & -> & Hw2 & C2 & K2);
    [rewrite C1; by rewrite lookup_insert_eq|by apply temp_not_current|].
  cbn [mbind res_bind Status.ok Status.OK negb]. exists w2. split; [done|]. split; [done|]. split.
  - rewrite C2, C1. by rewrite delete_insert_eq.
  - intros k m Hm Hk. apply K2; [set_solver|set_solver|]. apply K1; [set_solver|done].
Qed.
End through.
