(* ===== verification/MemEnv.v ===== *)
(** * MemEnv: helpers/memenv/memenv.cc

    An environment that keeps its files in memory: each file a list of blocks
    of 8 KiB, and a map from names to files.  [mem_env_spec] shows that it is
    what env.h asks of an environment.  A file's state is known by its place in
    a store that only grows: reference counts, which free states that no name
    and no open file has, are left out. *)

From S2P Require Import Prelude CLib Coding Status Log Filename Env.

(** ** FileState *)

Definition kBlockSize : Z := 8 * 1024.

(** The bytes of a block that were not written yet are not there.  [size_] is
    a number of bytes in memory, and so below 2^64. *)
Record FileState := mkFileState { blocks_ : list bytes; size_ : Z }.

Definition new_FileState : FileState := mkFileState [] 0.
Definition Size (f : FileState) : Z := size_ f.

Definition block_at (f : FileState) (block : Z) : bytes := default [] (blocks_ f !! Z.to_nat block).

(** The copying loop; every round but the last reads to the end of a block. *)
Fixpoint read_loop (fuel : nat) (f : FileState) (bytes_to_copy block block_offset : Z) : bytes :=
  match fuel with
  | O => []
  | S fuel =>
      if 0 <? bytes_to_copy then
        let avail := kBlockSize - block_offset in
        let avail := if avail >? bytes_to_copy then bytes_to_copy else avail in
        take (Z.to_nat avail) (drop (Z.to_nat block_offset) (block_at f block))
          ++ read_loop fuel f (bytes_to_copy - avail) (block + 1) 0
      else []
  end.

Definition Read (f : FileState) (offset n : Z) : Status.t * bytes :=
  if offset >? size_ f then (Status.IOError (lit "Offset greater than file size.") [], [])
  else
    let available := size_ f - offset in
    let n := if n >? available then available else n in
    if n =? 0 then (Status.OK, [])
    else
      let block := offset / kBlockSize in
      let block_offset := offset mod kBlockSize in
      if n <=? kBlockSize - block_offset
      then (Status.OK, take (Z.to_nat n) (drop (Z.to_nat block_offset) (block_at f block)))
      else (Status.OK, read_loop (S (length (blocks_ f))) f n block block_offset).

(** [memcpy] into a block. *)
Definition write_at (b : bytes) (offset : Z) (d : bytes) : bytes :=
  take (Z.to_nat offset) b ++ d ++ drop (Z.to_nat offset + length d) b.

(** The loop of [Append]; a round takes a byte at least. *)
Fixpoint append_loop (fuel : nat) (f : FileState) (src : bytes) : FileState :=
  match fuel with
  | O => f
  | S fuel =>
      if decide (src = []) then f
      else
        let offset := size_ f mod kBlockSize in
        let '(blocks, avail) := if decide (offset <> 0) then (blocks_ f, kBlockSize - offset)
                                else (blocks_ f ++ [[]], kBlockSize) in
        let avail := if avail >? Z.of_nat (length src) then Z.of_nat (length src) else avail in
        let blocks := alter (fun b => write_at b offset (take (Z.to_nat avail) src)) (length blocks - 1)%nat blocks in
        append_loop fuel (mkFileState blocks (size_ f + avail)) (drop (Z.to_nat avail) src)
  end.
Definition Append (f : FileState) (data : bytes) : FileState := append_loop (length data) f data.

(** ** InMemoryEnv *)

(** A file is its place in the store. *)
Record InMemoryEnv := mkMemEnv { file_map_ : gmap bytes nat; store_ : list FileState }.
Definition new_InMemoryEnv : InMemoryEnv := mkMemEnv ∅ [].

Record SequentialFileImpl := mkSequential { file_ : nat; pos_ : Z }.

Definition state (w : InMemoryEnv) (file : nat) : FileState := default new_FileState (store_ w !! file).

Definition NotThere (fname : bytes) : Status.t := Status.IOError fname (lit "File not found").

Definition SequentialRead (w : InMemoryEnv) (n : nat) (f : SequentialFileImpl) : Status.t * bytes * SequentialFileImpl :=
  let '(s, result) := Read (state w (file_ f)) (pos_ f) (Z.of_nat n) in
  (s, result, if Status.ok s then mkSequential (file_ f) (pos_ f + Z.of_nat (length result)) else f).

Definition SequentialSkip (w : InMemoryEnv) (n : Z) (f : SequentialFileImpl) : Status.t * SequentialFileImpl :=
  if pos_ f >? Size (state w (file_ f)) then (Status.IOError (lit "pos_ > file_->Size()") [], f)
  else
    let available := Size (state w (file_ f)) - pos_ f in
    let n := if n >? available then available else n in
    (Status.OK, mkSequential (file_ f) (pos_ f + n)).

Definition NewSequentialFile (w : InMemoryEnv) (fname : bytes) : res (Status.t * option SequentialFileImpl) :=
  Ret match file_map_ w !! fname with
      | None => (NotThere fname, None)
      | Some p => (Status.OK, Some (mkSequential p 0))
      end.

Definition DeleteFileInternal (w : InMemoryEnv) (fname : bytes) : InMemoryEnv :=
  mkMemEnv (delete fname (file_map_ w)) (store_ w).

Definition NewWritableFile (w : InMemoryEnv) (fname : bytes) : res (Status.t * option nat * InMemoryEnv) :=
  let w := if decide (is_Some (file_map_ w !! fname)) then DeleteFileInternal w fname else w in
  let file := length (store_ w) in
  Ret (Status.OK, Some file, mkMemEnv (<[fname := file]> (file_map_ w)) (store_ w ++ [new_FileState])).

Definition WritableAppend (w : InMemoryEnv) (file : nat) (data : bytes) : Status.t * InMemoryEnv :=
  (Status.OK, mkMemEnv (file_map_ w) (alter (fun f => Append f data) file (store_ w))).

Definition FileExists (w : InMemoryEnv) (fname : bytes) : bool := bool_decide (is_Some (file_map_ w !! fname)).

(** The names in the map's order. *)
Definition names (w : InMemoryEnv) : list bytes := merge_sort (cmp_le bytes_cmp) (map fst (map_to_list (file_map_ w))).

Definition child (dir filename : bytes) : option bytes :=
  if bool_decide (length dir + 1 <= length filename)%nat && bool_decide (filename !! length dir = Some (zb 47))
     && Slice.starts_with filename dir
  then Some (drop (length dir + 1) filename) else None.

Definition GetChildren (w : InMemoryEnv) (dir : bytes) : Status.t * list bytes := (Status.OK, omap (child dir) (names w)).

Definition DeleteFile (w : InMemoryEnv) (fname : bytes) : res (Status.t * InMemoryEnv) :=
  Ret match file_map_ w !! fname with
      | None => (NotThere fname, w)
      | Some _ => (Status.OK, DeleteFileInternal w fname)
      end.

Definition GetFileSize (w : InMemoryEnv) (fname : bytes) : res (Status.t * Z) :=
  Ret match file_map_ w !! fname with
      | None => (NotThere fname, 0)
      | Some p => (Status.OK, Size (state w p))
      end.

(** [file_map_[src]] makes an entry when there is none, which is erased: a file
    renamed to itself is gone. *)
Definition RenameFile (w : InMemoryEnv) (src target : bytes) : res (Status.t * InMemoryEnv) :=
  Ret match file_map_ w !! src with
      | None => (NotThere src, w)
      | Some _ =>
          let w := DeleteFileInternal w target in
          let m := match file_map_ w !! src with Some p => <[target := p]> (file_map_ w) | None => file_map_ w end in
          (Status.OK, mkMemEnv (delete src m) (store_ w))
      end.

#[export] Instance mem_env : Env InMemoryEnv nat SequentialFileImpl := {
  env_NewWritableFile := NewWritableFile;
  env_Append := WritableAppend;
  env_Flush w _ := (Status.OK, w);
  env_Sync w _ := (Status.OK, w);
  env_Close w _ := (Status.OK, w);
  env_NewSequentialFile := NewSequentialFile;
  env_Read := SequentialRead;
  env_Skip := SequentialSkip;
  env_FileExists := FileExists;
  env_GetChildren := GetChildren;
  env_DeleteFile := DeleteFile;
  env_RenameFile := RenameFile;
  env_CreateDir w _ := (Status.OK, w);
  env_GetFileSize := GetFileSize;
  env_LockFile w _ := (Status.OK, w);
}.

(** ** The bytes of a file *)

Section file_state.
Abbreviation K := (Z.to_nat kBlockSize).

(** Whole blocks and the one being filled. *)
Definition holds (f : FileState) (fulls : list bytes) (b : bytes) : Prop :=
  blocks_ f = fulls ++ (if decide (b = []) then [] else [b]) /\ Forall (fun x : bytes => length x = K) fulls
  /\ (length b < K)%nat /\ size_ f = kBlockSize * Z.of_nat (length fulls) + Z.of_nat (length b).

Definition file_data (f : FileState) : bytes := concat (blocks_ f).
Definition file_good (f : FileState) : Prop := exists fulls b, holds f fulls b.

Lemma holds_data f fulls b : holds f fulls b -> file_data f = concat (fulls ++ [b]).
Proof.
  intros (E & _ & _ & _). unfold file_data. rewrite E, !concat_app. f_equal. case_decide as Hb; [|done]. by rewrite Hb.
Qed.

Lemma concat_full fulls : Forall (fun x : bytes => length x = K) fulls -> length (concat fulls) = (K * length fulls)%nat.
Proof. induction 1 as [|x l Hx _ IH]; cbn [concat length]; [lia|]. rewrite length_app, Hx, IH. lia. Qed.

Lemma holds_size f fulls b : holds f fulls b -> size_ f = Z.of_nat (length (file_data f)).
Proof.
  intros Hf. rewrite (holds_data _ _ _ Hf). destruct Hf as (_ & Hfu & _ & ->). rewrite concat_app, length_app, concat_full by done.
  cbn [concat]. rewrite app_nil_r. unfold kBlockSize. lia.
Qed.

Lemma holds_block f fulls b i : holds f fulls b -> block_at f i = default [] ((fulls ++ [b]) !! Z.to_nat i).
Proof.
  intros (E & _). unfold block_at. rewrite E. case_decide as Hb; [|done]. subst b. rewrite app_nil_r.
  destruct (decide (Z.to_nat i < length fulls)%nat); [by rewrite lookup_app_l|].
  rewrite (lookup_ge_None_2 fulls), lookup_app_r by lia. by destruct (Z.to_nat i - length fulls)%nat as [|[|k]].
Qed.

(** Where the byte at an offset is. *)
Lemma drop_blocks fulls b i o : Forall (fun x : bytes => length x = K) fulls -> (length b <= K)%nat -> (o < K)%nat ->
  drop (i * K + o) (concat (fulls ++ [b])) = drop o (default [] ((fulls ++ [b]) !! i)) ++ concat (drop (S i) (fulls ++ [b])).
Proof.
  intros Hf Hb Ho. revert i. induction Hf as [|x fulls Hx _ IH]; intros i.
  - cbn [app concat]. rewrite app_nil_r. destruct i as [|i]; [cbn [lookup list_lookup default drop concat Nat.mul Nat.add]; by rewrite app_nil_r|].
    rewrite drop_ge by lia. change ([b] !! S i) with ((@nil bytes) !! i). rewrite lookup_nil. cbn [default drop concat]. by rewrite !drop_nil.
  - cbn [app concat]. destruct i as [|i].
    + cbn [Nat.mul Nat.add lookup list_lookup default]. rewrite drop_app_le by lia. done.
    + replace (S i * K + o)%nat with (length x + (i * K + o))%nat by lia. rewrite <- drop_drop, drop_app_length. apply IH.
Qed.

Lemma concat_drop (l : list bytes) i : concat (drop i l) = default [] (l !! i) ++ concat (drop (S i) l).
Proof.
  destruct (l !! i) as [x|] eqn:E; [by rewrite (drop_S l x i E)|]. apply lookup_ge_None in E. by rewrite !drop_ge by lia.
Qed.

Lemma read_loop_0 fuel f i o : read_loop fuel f 0 i o = [].
Proof. by destruct fuel. Qed.

Lemma read_loop_spec f fulls b : holds f fulls b -> forall fuel m i o, 0 <= i -> 0 <= o < kBlockSize -> 0 <= m ->
  (Z.to_nat m <= length (drop (Z.to_nat i * K + Z.to_nat o) (concat (fulls ++ [b]))))%nat -> (length (blocks_ f) <= fuel + Z.to_nat i)%nat ->
  read_loop fuel f m i o = take (Z.to_nat m) (drop (Z.to_nat i * K + Z.to_nat o) (concat (fulls ++ [b]))).
Proof.
  intros Hf. pose proof Hf as (Ebl & Hfu & Hb & _).
  induction fuel as [|fuel IH]; intros m i o Hi Ho Hm Hlen Hfuel.
  { assert (m = 0 \/ 0 < m) as [->|Hpos] by lia; [done|]. rewrite drop_ge in Hlen; [cbn in Hlen; lia|].
    rewrite concat_app, length_app, concat_full by done. cbn [concat]. rewrite app_nil_r.
    rewrite Ebl, length_app in Hfuel. case_decide as Eb; [subst b|]; cbn [length] in *; nia. }
  cbn [read_loop]. destruct (Z.ltb_spec 0 m) as [Hpos|Hz]; [|by replace m with 0 by lia].
  rewrite (holds_block f fulls b i Hf). rewrite drop_blocks in * by (done || lia || (unfold kBlockSize in *; lia)).
  set (blk := default [] ((fulls ++ [b]) !! Z.to_nat i)) in *. set (rest := concat (drop (S (Z.to_nat i)) (fulls ++ [b]))) in *.
  assert (length blk = K \/ ((length blk < K)%nat /\ rest = [])) as Hblk.
  { unfold blk, rest. destruct (decide (Z.to_nat i < length fulls)%nat) as [Hl|Hl].
    - left. rewrite lookup_app_l by done. destruct (lookup_lt_is_Some_2 fulls (Z.to_nat i) Hl) as [x E]. rewrite E.
      by apply (Forall_lookup_1 _ _ _ _ Hfu E).
    - right. rewrite drop_ge by (rewrite length_app; cbn; lia). split; [|done]. rewrite lookup_app_r by lia.
      destruct (Z.to_nat i - length fulls)%nat as [|[|k]]; cbn; [done|unfold kBlockSize; lia|unfold kBlockSize; lia]. }
  set (avail := if kBlockSize - o >? m then m else kBlockSize - o).
  assert (avail = Z.min m (kBlockSize - o)) as Ea by (unfold avail; destruct (Z.gtb_spec (kBlockSize - o) m); lia). clearbody avail.
  rewrite length_app, length_drop in Hlen. destruct (decide (m <= kBlockSize - o)) as [Hle|Hgt].
  - rewrite Ea, Z.min_l by done. rewrite Z.sub_diag.
    rewrite read_loop_0, app_nil_r.
    destruct Hblk as [Hbl|[_ Hr]].
    + rewrite take_app_le; [done|]. rewrite length_drop. lia.
    + by rewrite Hr, app_nil_r.
  - assert (length blk = K) as Hbl by (destruct Hblk as [|[Hbl Hr]]; [done|rewrite Hr in Hlen; cbn in Hlen; lia]).
    assert (length (drop (Z.to_nat o) blk) = Z.to_nat avail) as Hd by (rewrite length_drop; lia).
    rewrite take_ge by lia. rewrite take_app_ge by lia. f_equal. rewrite Hd.
    replace (Z.to_nat m - Z.to_nat avail)%nat with (Z.to_nat (m - avail)) by lia.
    pose proof (drop_blocks fulls b (S (Z.to_nat i)) 0 Hfu ltac:(lia) ltac:(unfold kBlockSize; lia)) as Hn.
    assert (rest = drop (Z.to_nat (i + 1) * K + Z.to_nat 0) (concat (fulls ++ [b]))) as Er.
    { replace (Z.to_nat (i + 1)) with (S (Z.to_nat i)) by lia. change (Z.to_nat 0) with 0%nat. rewrite Hn. unfold rest.
      rewrite concat_drop. by rewrite drop_0. }
    rewrite Er. apply IH; [lia|unfold kBlockSize; lia|lia| |lia]. rewrite <- Er. lia.
Qed.
Lemma Read_spec f offset n : file_good f -> 0 <= offset <= size_ f -> 0 <= n ->
  Read f offset n = (Status.OK, take (Z.to_nat n) (drop (Z.to_nat offset) (file_data f))).
Proof.
  intros (fulls & b & Hf) Ho Hn. unfold Read. rewrite (holds_size _ _ _ Hf) in *. rewrite (holds_data _ _ _ Hf) in *.
  pose proof Hf as (Ebl & Hfu & Hb & _). set (data := concat (fulls ++ [b])) in *.
  destruct (Z.gtb_spec offset (Z.of_nat (length data))); [lia|].
  set (available := Z.of_nat (length data) - offset).
  assert (take (Z.to_nat n) (drop (Z.to_nat offset) data)
    = take (Z.to_nat (if n >? available then available else n)) (drop (Z.to_nat offset) data)) as ->.
  { destruct (Z.gtb_spec n available); [|done]. rewrite !take_ge; [done|rewrite length_drop; lia..]. }
  assert (0 <= (if n >? available then available else n) <= available) as Hm by (destruct (Z.gtb_spec n available); lia).
  generalize dependent (if n >? available then available else n). intros m Hm.
  destruct (Z.eqb_spec m 0) as [->|Hm0]; [done|].
  pose proof (Z.div_mod offset kBlockSize ltac:(done)) as Hdm. pose proof (Z.mod_pos_bound offset kBlockSize ltac:(done)) as Hmod.
  pose proof (Z.div_pos offset kBlockSize ltac:(lia) ltac:(done)) as Hdiv.
  set (i := offset / kBlockSize) in *. set (o := offset mod kBlockSize) in *.
  assert (Z.to_nat offset = Z.to_nat i * K + Z.to_nat o)%nat as -> by (unfold kBlockSize in *; lia).
  assert (Z.to_nat m <= length (drop (Z.to_nat i * K + Z.to_nat o) data))%nat as Hlen by (rewrite length_drop; unfold kBlockSize in *; lia).
  assert (forall fuel, (length (blocks_ f) <= fuel)%nat ->
    read_loop fuel f m i o = take (Z.to_nat m) (drop (Z.to_nat i * K + Z.to_nat o) data)) as Eloop
    by (intros; apply (read_loop_spec f fulls b Hf); [lia|lia|lia|done|lia]).
  destruct (Z.leb_spec m (kBlockSize - o)).
  - f_equal. rewrite <- (Eloop (S (length (blocks_ f)))) by lia. cbn [read_loop]. rewrite (proj2 (Z.ltb_lt 0 m)) by lia.
    destruct (Z.gtb_spec (kBlockSize - o) m).
    + rewrite Z.sub_diag, read_loop_0. by rewrite app_nil_r.
    + replace (kBlockSize - o) with m by lia. rewrite Z.sub_diag, read_loop_0. by rewrite app_nil_r.
  - f_equal. apply Eloop. lia.
Qed.
(** *** Appending *)

Lemma append_loop_spec fuel : forall f src, file_good f -> (length src <= fuel)%nat ->
  file_good (append_loop fuel f src) /\ file_data (append_loop fuel f src) = file_data f ++ src.
Proof.
  induction fuel as [|fuel IH]; intros f src Hg Hl.
  { destruct src; [|cbn in Hl; lia]. by rewrite app_nil_r. }
  cbn [append_loop]. case_decide as Hs; [subst src; by rewrite app_nil_r|].
  destruct Hg as (fulls & b & Hf). pose proof (holds_data _ _ _ Hf) as Ed. destruct Hf as (Ebl & Hfu & Hb & Esz).
  assert (size_ f mod kBlockSize = Z.of_nat (length b)) as Eoff.
  { rewrite Esz, Z.add_comm, Z.mul_comm, Z.mod_add by done. apply Z.mod_small. lia. }
  rewrite Eoff. set (p := if decide (Z.of_nat (length b) <> 0) then _ else _).
  assert (p = (fulls ++ [b], kBlockSize - Z.of_nat (length b))) as ->.
  { unfold p. rewrite Ebl. destruct (decide (b = [])) as [->|Hz]; [by rewrite decide_False, app_nil_r by (cbn; lia)|].
    rewrite decide_True; [done|]. destruct b; [done|]. cbn. lia. }
  set (avail := if _ >? _ then _ else _).
  assert (avail = Z.min (Z.of_nat (length src)) (kBlockSize - Z.of_nat (length b))) as Ea
    by (unfold avail; destruct (Z.gtb_spec (kBlockSize - Z.of_nat (length b)) (Z.of_nat (length src))); lia). clearbody avail.
  assert (0 < avail) as Hpos by (destruct src; [done|cbn [length] in *; lia]).
  set (d := take (Z.to_nat avail) src). assert (length d = Z.to_nat avail) as Hd by (unfold d; rewrite length_take; lia).
  assert (alter (fun x => write_at x (Z.of_nat (length b)) d) (length (fulls ++ [b]) - 1)%nat (fulls ++ [b]) = fulls ++ [b ++ d]) as ->.
  { rewrite length_app. cbn [length]. rewrite Nat.add_sub. rewrite alter_app_r_alt, Nat.sub_diag by lia. cbn. do 2 f_equal.
    unfold write_at. rewrite Nat2Z.id, take_ge, drop_ge by lia. by rewrite app_nil_r. }
  set (f' := mkFileState (fulls ++ [b ++ d]) (size_ f + avail)).
  assert (file_good f' /\ file_data f' = file_data f ++ d) as [Hg' Ed'].
  { split.
    - destruct (decide (length (b ++ d) = K)) as [Hk|Hk].
      + exists (fulls ++ [b ++ d]), []. split_and!; cbn [blocks_ size_ f' length].
        * by rewrite app_nil_r.
        * apply Forall_app. split; [done|]. by constructor.
        * unfold kBlockSize. lia.
        * rewrite length_app, Esz. rewrite length_app in Hk. cbn [length]. unfold kBlockSize in *. lia.
      + exists fulls, (b ++ d). rewrite length_app in Hk. split_and!; cbn [blocks_ size_ f'].
        * rewrite decide_False; [done|]. intros [_ ->]%app_nil. cbn in Hd. lia.
        * done.
        * rewrite length_app. unfold kBlockSize in *. lia.
        * rewrite length_app, Esz. lia.
    - unfold file_data at 1. cbn [blocks_ f']. rewrite Ed, !concat_app. cbn [concat]. by rewrite !app_nil_r, app_assoc. }
  destruct (IH f' (drop (Z.to_nat avail) src) Hg') as [Hg2 Ed2].
  { rewrite length_drop. lia. }
  split; [exact Hg2|]. rewrite Ed2, Ed', <- app_assoc. unfold d. by rewrite take_drop.
Qed.

Lemma Append_spec f d : file_good f -> file_good (Append f d) /\ file_data (Append f d) = file_data f ++ d.
Proof. intros Hg. by apply append_loop_spec. Qed.

Lemma new_FileState_good : file_good new_FileState.
Proof. exists [], []. split_and!; [done|constructor|cbn; unfold kBlockSize; lia|done]. Qed.
End file_state.

(** ** The promises of an environment *)

Record mem_ok (w : InMemoryEnv) : Prop := {
  mo_file n p : file_map_ w !! n = Some p -> is_Some (store_ w !! p);
  mo_apart n m p : file_map_ w !! n = Some p -> file_map_ w !! m = Some p -> n = m;
  mo_good : Forall file_good (store_ w);
}.

Definition mem_contents (w : InMemoryEnv) : gmap bytes bytes := (fun p => file_data (state w p)) <$> file_map_ w.
Definition mem_uses (w : InMemoryEnv) (u : nat + SequentialFileImpl * bytes) (name : bytes) : Prop :=
  match u with
  | inl h => file_map_ w !! name = Some h
  | inr (r, c) => file_map_ w !! name = Some (file_ r)
      /\ 0 <= pos_ r <= size_ (state w (file_ r)) /\ c = drop (Z.to_nat (pos_ r)) (file_data (state w (file_ r)))
  end.

(** Names and states that stay keep what is open. *)
Lemma same_uses w w' u n : file_map_ w' !! n = file_map_ w !! n ->
  (forall p, file_map_ w !! n = Some p -> state w' p = state w p) -> mem_uses w u n -> mem_uses w' u n.
Proof.
  intros En Es. destruct u as [h|[r c]]; cbn; rewrite En; [done|]. intros (E & Hp). by rewrite (Es _ E).
Qed.

Lemma good_size f : file_good f -> size_ f = Z.of_nat (length (file_data f)).
Proof. intros (fulls & b & Hf). by eapply holds_size. Qed.

Lemma state_good w p : mem_ok w -> file_good (state w p).
Proof.
  intros Hw. unfold state. destruct (store_ w !! p) as [f|] eqn:E; [|apply new_FileState_good].
  by apply (Forall_lookup_1 _ _ _ _ (mo_good _ Hw) E).
Qed.

Lemma new_mem_ok : mem_ok new_InMemoryEnv.
Proof. split; cbn; [intros n p E; by rewrite lookup_empty in E|intros n m p E; by rewrite lookup_empty in E|constructor]. Qed.

(** Deleting names only. *)
Lemma delete_mem_ok w n : mem_ok w -> mem_ok (DeleteFileInternal w n).
Proof.
  intros [H1 H2 H3]. split; cbn [DeleteFileInternal file_map_ store_]; [| |done].
  - intros m p [_ E]%lookup_delete_Some. by eapply H1.
  - intros m k p [_ E]%lookup_delete_Some [_ E']%lookup_delete_Some. by eapply H2.
Qed.

Lemma delete_contents w n : mem_contents (DeleteFileInternal w n) = delete n (mem_contents w).
Proof. unfold mem_contents. cbn. by rewrite fmap_delete. Qed.

Lemma new_file_spec w name : mem_ok w -> exists h w', NewWritableFile w name = Ret (Status.OK, Some h, w') /\ mem_ok w'
  /\ mem_contents w' = <[name := []]> (mem_contents w) /\ mem_uses w' (inl h) name
  /\ forall u n, n <> name -> mem_uses w u n -> mem_uses w' u n.
Proof.
  intros Hw. unfold NewWritableFile. set (w1 := if decide _ then _ else w).
  assert (mem_ok w1 /\ store_ w1 = store_ w /\ forall n, n <> name -> file_map_ w1 !! n = file_map_ w !! n) as (Hw1 & Es & Hn).
  { unfold w1. case_decide; [|done]. split; [by apply delete_mem_ok|]. split; [done|]. intros n Hne. cbn. by rewrite lookup_delete_ne. }
  do 2 eexists. split; [done|]. rewrite Es. destruct Hw1 as [H1 H2 H3]. rewrite Es in H1, H3. split; [split|split; [|split]]; cbn [file_map_ store_].
  - intros n p [[<- <-]|[Hne E]]%lookup_insert_Some; [exists new_FileState; by apply list_lookup_middle|].
    destruct (H1 n p E) as [f Ef]. exists f. by apply lookup_app_l_Some.
  - intros n m p [[<- <-]|[Hne E]]%lookup_insert_Some [[<- E']|[Hme E']]%lookup_insert_Some; [done| | |by eapply H2].
    + destruct (H1 m _ E') as [f Ef]. apply lookup_lt_Some in Ef. lia.
    + subst p. destruct (H1 n _ E) as [f Ef]. apply lookup_lt_Some in Ef. lia.
  - apply Forall_app. split; [done|]. constructor; [apply new_FileState_good|constructor].
  - apply map_eq. intros n. unfold mem_contents. cbn [file_map_]. destruct (decide (n = name)) as [->|Hne].
    + rewrite lookup_fmap, !lookup_insert_eq. cbn. unfold state. cbn [store_]. by rewrite list_lookup_middle.
    + rewrite lookup_fmap, !lookup_insert_ne, lookup_fmap, Hn by done.
      destruct (file_map_ w !! n) as [p|] eqn:E; [|done]. cbn. do 2 f_equal. unfold state. cbn [store_].
      destruct (mo_file _ Hw n p E) as [f Ef]. by rewrite (lookup_app_l_Some _ _ _ _ Ef), Ef.
  - cbn. by rewrite lookup_insert_eq.
  - intros u n Hne. apply same_uses; cbn [file_map_]; [by rewrite lookup_insert_ne, Hn|]. intros p E. unfold state. cbn [store_].
    destruct (mo_file _ Hw n p E) as [f Ef]. by rewrite (lookup_app_l_Some _ _ _ _ Ef), Ef.
Qed.

Lemma append_file_spec w h name c d : mem_ok w -> mem_uses w (inl h) name -> mem_contents w !! name = Some c ->
  exists w', WritableAppend w h d = (Status.OK, w') /\ mem_ok w' /\ mem_contents w' = <[name := c ++ d]> (mem_contents w)
  /\ (forall k n, mem_uses w (inl k) n -> mem_uses w' (inl k) n)
  /\ forall u n, n <> name -> mem_uses w u n -> mem_uses w' u n.
Proof.
  intros Hw Hh Hc. eexists. split; [done|]. pose proof Hw as [H1 H2 H3]. cbn in Hh.
  destruct (H1 name h Hh) as [f Ef]. pose proof (Forall_lookup_1 _ _ _ _ H3 Ef) as Hf. destruct (Append_spec f d Hf) as [Hf' Ed].
  assert (c = file_data f) as ->.
  { unfold mem_contents in Hc. rewrite lookup_fmap, Hh in Hc. cbn in Hc. injection Hc as <-. unfold state. by rewrite Ef. }
  split; [split|split; [|split]]; cbn [file_map_ store_].
  - intros n p E. apply lookup_lt_is_Some. rewrite length_alter. apply lookup_lt_is_Some. by eapply H1.
  - exact H2.
  - apply Forall_lookup_2. intros i g E. destruct (decide (i = h)) as [->|Hne].
    + rewrite list_lookup_alter_eq, Ef in E. cbn in E. by injection E as <-.
    + rewrite list_lookup_alter_ne in E by done. by apply (Forall_lookup_1 _ _ _ _ H3 E).
  - apply map_eq. intros n. unfold mem_contents. cbn [file_map_]. rewrite lookup_fmap. destruct (decide (n = name)) as [->|Hne].
    + rewrite lookup_insert_eq, Hh. cbn. unfold state. cbn [store_]. rewrite list_lookup_alter_eq, Ef. cbn. by rewrite Ed.
    + rewrite lookup_insert_ne, lookup_fmap by done. destruct (file_map_ w !! n) as [p|] eqn:E; [|done]. cbn. do 2 f_equal. unfold state. cbn [store_].
      rewrite list_lookup_alter_ne; [done|]. intros ->. apply Hne. by eapply H2.
  - done.
  - intros u n Hne. apply same_uses; [done|]. intros p E. unfold state. cbn [store_]. rewrite list_lookup_alter_ne; [done|].
    intros ->. apply Hne. by eapply H2.
Qed.

Lemma rename_file_spec w src target c : mem_ok w -> mem_contents w !! src = Some c -> src <> target ->
  exists w', RenameFile w src target = Ret (Status.OK, w') /\ mem_ok w'
  /\ mem_contents w' = <[target := c]> (delete src (mem_contents w))
  /\ forall u n, n <> src -> n <> target -> mem_uses w u n -> mem_uses w' u n.
Proof.
  intros Hw Hc Hne. unfold RenameFile. unfold mem_contents in Hc. rewrite lookup_fmap in Hc.
  destruct (file_map_ w !! src) as [p|] eqn:E; [|done]. cbn in Hc. injection Hc as <-. cbn [DeleteFileInternal file_map_ store_].
  rewrite lookup_delete_ne, E by done. eexists. split; [done|]. pose proof Hw as [H1 H2 H3].
  assert (forall n q, delete src (<[target:=p]> (delete target (file_map_ w))) !! n = Some q ->
    (n = target /\ q = p) \/ (n <> target /\ n <> src /\ file_map_ w !! n = Some q)) as Hmap.
  { intros n q [Hn [[<- <-]|[Ht [_ Eq]%lookup_delete_Some]]%lookup_insert_Some]%lookup_delete_Some; [by left|right; auto]. }
  split; [split|split]; cbn [file_map_ store_].
  - intros n q [[-> ->]|(_ & _ & Eq)]%Hmap; by eapply H1.
  - intros n m q [[-> ->]|(Hn1 & Hn2 & Eq)]%Hmap [[-> Eq']|(Hm1 & Hm2 & Eq')]%Hmap; [done| | |by eapply H2].
    + destruct Hm2. by eapply H2.
    + subst q. destruct Hn2. by eapply H2.
  - exact H3.
  - apply map_eq. intros n. unfold mem_contents. cbn [file_map_]. rewrite lookup_fmap. destruct (decide (n = target)) as [->|Ht].
    + by rewrite lookup_delete_ne, !lookup_insert_eq by done.
    + rewrite lookup_insert_ne by done. destruct (decide (n = src)) as [->|Hs]; [by rewrite !lookup_delete_eq|].
      by rewrite !lookup_delete_ne, lookup_insert_ne, lookup_delete_ne, lookup_fmap by done.
  - intros u n Hn Ht. apply same_uses; [|done]. cbn [file_map_]. by rewrite lookup_delete_ne, lookup_insert_ne, lookup_delete_ne by done.
Qed.

(** Names below a directory. *)
Lemma file_child_spec dir f n : child dir f = Some n <-> f = dir ++ lit "/" ++ n.
Proof.
  unfold child. split.
  - destruct (bool_decide (_ <= _)%nat) eqn:El; [|done]. apply bool_decide_eq_true in El.
    destruct (bool_decide (f !! length dir = _)) eqn:Ec; [|done]. apply bool_decide_eq_true in Ec. cbn [andb].
    destruct (Slice.starts_with f dir) eqn:Es; [|done]. apply Slice.starts_with_spec in Es as [rest ->]. intros [= <-].
    rewrite lookup_app_r, Nat.sub_diag in Ec by done. destruct rest as [|c rest]; [done|]. injection Ec as ->.
    f_equal. change (zb 47 :: rest) with (lit "/" ++ rest). rewrite app_assoc.
    by replace (length dir + 1)%nat with (length (dir ++ lit "/")) by (by rewrite length_app); rewrite drop_app_length.
  - intros ->. rewrite !bool_decide_true.
    + cbn [andb]. rewrite (proj2 (Slice.starts_with_spec _ _)) by by exists (lit "/" ++ n).
      f_equal. rewrite app_assoc. replace (length dir + 1)%nat with (length (dir ++ lit "/")) by (by rewrite length_app). apply drop_app_length.
    + rewrite lookup_app_r by lia. by rewrite Nat.sub_diag.
    + rewrite !length_app. cbn. lia.
Qed.

Lemma elem_of_names w n : n ∈ names w <-> is_Some (file_map_ w !! n).
Proof.
  unfold names. rewrite merge_sort_Permutation, list_elem_of_fmap. split.
  - intros ([m p] & -> & Hm%elem_of_map_to_list). by exists p.
  - intros [p E]. exists (n, p). split; [done|]. by apply elem_of_map_to_list.
Qed.

Lemma names_NoDup w : NoDup (names w).
Proof. unfold names. rewrite merge_sort_Permutation. apply NoDup_fst_map_to_list. Qed.

Lemma children_NoDup dir l : NoDup l -> NoDup (omap (child dir) l).
Proof.
  induction 1 as [|f l Hf _ IH]; [constructor|]. cbn [omap list_omap]. destruct (child dir f) as [n|] eqn:E; [|done]. constructor; [|done].
  intros (g & Hg & Eg)%list_elem_of_omap. apply file_child_spec in E, Eg. congruence.
Qed.

Lemma children_spec w dir : exists l, GetChildren w dir = (Status.OK, l) /\ NoDup l
  /\ (forall n, zb 47 ∉ n -> is_Some (mem_contents w !! (dir ++ lit "/" ++ n)) -> n ∈ l)
  /\ forall n, n ∈ l -> n = lit "." \/ n = lit ".." \/ is_Some (mem_contents w !! (dir ++ lit "/" ++ n)).
Proof.
  exists (omap (child dir) (names w)). split; [done|]. split; [apply children_NoDup, names_NoDup|].
  assert (forall n, n ∈ omap (child dir) (names w) <-> is_Some (mem_contents w !! (dir ++ lit "/" ++ n))) as Hn.
  { intros n. unfold mem_contents. rewrite lookup_fmap, fmap_is_Some, <- elem_of_names, list_elem_of_omap. split.
    - by intros (f & Hf & ->%file_child_spec).
    - intros Hf. eexists. split; [exact Hf|by apply file_child_spec]. }
  split; [intros n _; apply Hn|]. intros n ?%Hn. auto.
Qed.

#[export] Instance mem_env_spec : EnvSpec InMemoryEnv nat SequentialFileImpl.
Proof.
  refine {| env_ok := mem_ok; contents := mem_contents; uses := mem_uses |}.
  - intros w name Hw. by apply new_file_spec.
  - intros w h name c d Hw Hh Hc. by eapply append_file_spec.
  - intros w h name Hw _. by exists w.
  - intros w h name Hw _. by exists w.
  - intros w h name Hw _. by exists w.
  - intros w name c Hw Hc. unfold mem_contents in Hc. rewrite lookup_fmap in Hc.
    destruct (file_map_ w !! name) as [p|] eqn:E; [|done]. injection Hc as <-. exists (mkSequential p 0).
    cbn [env_NewSequentialFile mem_env]. unfold NewSequentialFile. rewrite E. split; [done|]. split; [done|]. split; [|done]. cbn.
    rewrite (good_size _ (state_good w p Hw)). lia.
  - intros w name Hw Hc. unfold mem_contents in Hc. rewrite lookup_fmap in Hc.
    destruct (file_map_ w !! name) as [p|] eqn:E; [done|]. exists (NotThere name).
    cbn [env_NewSequentialFile mem_env]. unfold NewSequentialFile. by rewrite E.
  - intros w r name c n Hw (Em & Hp & ->). cbn [env_Read mem_env]. unfold SequentialRead.
    rewrite Read_spec by (try apply state_good; done || lia). rewrite Nat2Z.id. cbn [Status.ok Status.OK].
    eexists. split; [done|]. set (data := file_data _). rewrite (good_size _ (state_good w _ Hw)) in Hp. fold data in Hp.
    split; [done|]. split; cbn [pos_ file_].
    + rewrite (good_size _ (state_good w _ Hw)). fold data. rewrite length_take, length_drop. lia.
    + fold data. rewrite length_take, length_drop, drop_drop. destruct (decide (n <= length data - Z.to_nat (pos_ r))%nat).
      * f_equal. lia.
      * rewrite !drop_ge by lia. done.
  - intros w r name c n Hw (Em & Hp & ->) Hn. cbn [env_Skip mem_env]. unfold SequentialSkip, Size.
    destruct (Z.gtb_spec (pos_ r) (size_ (state w (file_ r)))); [lia|]. eexists. split; [done|].
    rewrite (good_size _ (state_good w _ Hw)) in *. set (data := file_data _) in *. cbn [mem_uses pos_ file_]. split; [done|].
    rewrite (good_size _ (state_good w _ Hw)). fold data. rewrite drop_drop.
    destruct (Z.gtb_spec n (Z.of_nat (length data) - pos_ r)).
    + split; [lia|]. rewrite !drop_ge by lia. done.
    + split; [lia|]. f_equal. lia.
  - intros w name Hw. cbn [env_FileExists mem_env]. unfold FileExists, mem_contents. apply bool_decide_ext. by rewrite lookup_fmap, fmap_is_Some.
  - intros w src target c Hw Hc Hne. by apply rename_file_spec.
  - intros w name Hw [c Hc]. cbn [env_DeleteFile mem_env]. unfold DeleteFile. unfold mem_contents in Hc. rewrite lookup_fmap in Hc.
    destruct (file_map_ w !! name) as [p|] eqn:E; [|done]. eexists. split; [done|]. split; [by apply delete_mem_ok|].
    split; [apply delete_contents|]. intros u n Hn. apply same_uses; [|done]. cbn. by rewrite lookup_delete_ne.
  - intros w name Hw Hc. unfold mem_contents in Hc. rewrite lookup_fmap in Hc. exists (NotThere name), w.
    cbn [env_DeleteFile mem_env]. unfold DeleteFile. by destruct (file_map_ w !! name).
  - intros w dir _. apply children_spec.
  - intros w dir Hw. by exists Status.OK, w.
  - intros w name Hw. by exists w.
Defined.

(** ** Properties *)

(** C31: a file kept in blocks is the string of what was appended to it: a read
    gives the bytes that are there, up to the number asked for, whatever blocks
    they lie in, and fails past the end.  Renaming a file to itself deletes
    it. *)
Theorem mem_files (chunks : list bytes) offset n w fname : 0 <= offset -> 0 <= n ->
  let f := fold_left Append chunks new_FileState in
  let data := concat chunks in
  Size f = Z.of_nat (length data)
  /\ Read f offset n = (if offset >? Z.of_nat (length data)
                        then (Status.IOError (lit "Offset greater than file size.") [], [])
                        else (Status.OK, take (Z.to_nat n) (drop (Z.to_nat offset) data)))
  /\ (FileExists w fname = true -> exists w', RenameFile w fname fname = Ret (Status.OK, w') /\ FileExists w' fname = false).
Proof.
  intros Ho Hn f data.
  assert (file_good f /\ file_data f = data) as [Hg Ed].
  { unfold f, data. assert (forall l g, file_good g -> file_good (fold_left Append l g)
      /\ file_data (fold_left Append l g) = file_data g ++ concat l) as Hall.
    { induction l as [|d l IH]; intros g Hg; [by rewrite app_nil_r|]. cbn [fold_left concat]. destruct (Append_spec g d Hg) as [Hg' Ed].
      destruct (IH _ Hg') as [? ->]. split; [done|]. by rewrite Ed, app_assoc. }
    destruct (Hall chunks new_FileState new_FileState_good) as [? ->]. done. }
  unfold Size. rewrite (good_size f Hg), Ed. split; [done|]. split.
  - destruct (Z.gtb_spec offset (Z.of_nat (length data))).
    + unfold Read. rewrite (good_size f Hg), Ed. by rewrite (proj2 (Z.gtb_lt _ _)) by lia.
    + rewrite Read_spec, Ed; [done|done|rewrite (good_size f Hg), Ed; lia|done].
  - unfold FileExists. intros Hex%bool_decide_eq_true. unfold RenameFile. destruct Hex as [p E]. rewrite E.
    cbn [DeleteFileInternal file_map_ store_]. rewrite lookup_delete_eq. eexists. split; [done|].
    apply bool_decide_eq_false. cbn [file_map_]. by intros [q [Hne _]%lookup_delete_Some].
Qed.

Definition sample_chunks : list bytes := [replicate (Z.to_nat 8190) (zb 97); lit "bcdef"].

Lemma mem_files_witness : Read (fold_left Append sample_chunks new_FileState) 8189 4 = (Status.OK, lit "abcd")
  /\ exists w', RenameFile (mkMemEnv {[lit "x" := 0%nat]} [new_FileState]) (lit "x") (lit "x") = Ret (Status.OK, w').
Proof.
  destruct (mem_files sample_chunks 8189 4 (mkMemEnv {[lit "x" := 0%nat]} [new_FileState]) (lit "x")) as (_ & E & Hr); [lia|lia|].
  split; [rewrite E; vm_compute; reflexivity|]. destruct (Hr ltac:(vm_compute; reflexivity)) as (w' & Ew & _). by exists w'.
Defined.
