(* ===== verification/MemIterator.v ===== *)
(** * MemIterator: the iterator of a memtable (db/memtable.cc)

    [MemTableIterator] as an iterator of internal entries, and the iterator of
    a database that has one memtable: what the snapshot sees of the writes. *)

From S2P Require Import Prelude CLib Coding Status DbFormat SkipList KeyOrder Iterator MemTable WriteBatch DBIter.

Section mem_iterator.
Context `{Comparator}.

Record MemTableIterator := mkMemIterator { mi_table : MemTable; mi_pos : option nat }.

Definition with_pos (it : MemTableIterator) (p : res (option nat)) : res MemTableIterator :=
  p ← p; Ret (mkMemIterator (mi_table it) p).

Definition MemTable_NewIterator (m : MemTable) : MemTableIterator := mkMemIterator m None.

#[export] Instance MemTableIterator_iterator : Iterator MemTableIterator := {
  Valid it := mi_Valid (mi_pos it);
  SeekToFirst it := with_pos it (mi_SeekToFirst (mi_table it));
  SeekToLast it := with_pos it (mi_SeekToLast (mi_table it));
  Seek it k := with_pos it (mi_Seek (mi_table it) k);
  Next it := with_pos it (mi_Next (mi_table it) (mi_pos it));
  Prev it := with_pos it (mi_Prev (mi_table it) (mi_pos it));
  key it := mi_key (mi_table it) (mi_pos it);
  value it := mi_value (mi_table it) (mi_pos it);
  status _ := mi_status;
}.

(** The keys that fit a skip list's entry. *)
Definition mem_valid (k : bytes) : Prop := exists p, good_key p /\ k = encode_key p.

Context (m : MemTable) (L : list nat) (es : list write) (Hm : mem_inv m L es).

Definition mem_rep (it : MemTableIterator) (o : option nat) : Prop :=
  mi_table it = m /\
  match o with
  | Some i => (i < length es)%nat /\ mi_pos it = L !! i
  | None => mi_pos it = None
  end.

Lemma length_lanes : length L = length es.
Proof.
  pose proof (length_nodes_keys entry_cmp valid_entry _ _ _ (mi_skip _ _ _ Hm)) as Hl. by rewrite length_map in Hl.
Qed.

Lemma mem_rep_index p i : p = L !! i -> mem_rep (mkMemIterator m p) (index (map raw es) i).
Proof.
  intros ->. split; [done|]. unfold index. rewrite length_map. case_decide as Hi; [by split|].
  apply lookup_ge_None_2. rewrite length_lanes. lia.
Qed.

Lemma mem_at i : (i < length es)%nat -> exists e x, es !! i = Some e /\ L !! i = Some x
  /\ mi_key m (Some x) = Ret (encode_key e.1) /\ mi_value m (Some x) = Ret e.2 /\ mi_Next m (Some x) = Ret (L !! S i).
Proof.
  intros [e E]%lookup_lt_is_Some_2. destruct (mi_at m L es i e Hm E) as (x & Ex & HR). by exists e, x.
Qed.

Lemma mem_lower_bound p : good_key p ->
  Forall good_write es -> length (writes_lt p es) = lower_bound internal_cmp (encode_key p) (map raw es).
Proof.
  intros Hp Hg. pose proof (writes_split p es (mem_sorted _ _ _ Hm)) as Es. symmetry. apply lower_bound_eq.
  - rewrite length_map. rewrite Es at 2. rewrite length_app. lia.
  - intros i e Hi E. rewrite list_lookup_fmap in E. rewrite Es, lookup_app_l in E by done.
    destruct (writes_lt p es !! i) as [w|] eqn:Ew; [|done]. injection E as <-. apply list_elem_of_lookup_2 in Ew.
    unfold writes_lt in Ew. apply list_elem_of_filter in Ew as [Hlt Hin].
    cbn [raw fst]. rewrite internal_cmp_encode; [exact Hlt| |apply Hp]. rewrite Forall_forall in Hg.
    by apply (Hg w), list_elem_of_In.
  - intros e E. rewrite list_lookup_fmap in E. assert (es !! length (writes_lt p es) = writes_ge p es !! 0%nat) as E0.
    { set (n := length _). rewrite Es at 1. unfold n. by rewrite lookup_app_r, Nat.sub_diag by done. }
    rewrite E0 in E. clear E0.
    destruct (writes_ge p es !! 0%nat) as [w|] eqn:Ew; [|done]. injection E as <-. apply list_elem_of_lookup_2 in Ew.
    unfold writes_ge in Ew. apply list_elem_of_filter in Ew as [Hlt Hin].
    cbn [raw fst]. rewrite internal_cmp_encode; [exact Hlt| |apply Hp]. rewrite Forall_forall in Hg.
    by apply (Hg w), list_elem_of_In.
Qed.

#[export] Instance mem_iterator_spec : IteratorSpec MemTableIterator mem_valid internal_cmp (map raw es) mem_rep.
Proof.
  pose proof (mi_skip _ _ _ Hm) as Hs. pose proof length_lanes as HL. split.
  - intros it o [_ Hr]. cbn. unfold mi_Valid. destruct o as [i|].
    + destruct Hr as [Hi ->]. rewrite (at_valid entry_cmp valid_entry _ _ _ Hs), length_map. by apply bool_decide_ext.
    + by rewrite Hr.
  - intros it i (Et & Hi & Ep). destruct (mem_at i Hi) as (e & x & E & Ex & Ek & Ev & _). exists (encode_key e.1), e.2.
    cbn. rewrite Et, Ep, Ex, list_lookup_fmap, E. by split.
  - intros it o [Et _]. cbn. rewrite Et. unfold mi_SeekToFirst.
    rewrite (it_SeekToFirst_at KeyComparator entry_cmp valid_entry _ _ _ Hs). cbn. rewrite Et. eexists. split; [done|].
    by apply mem_rep_index.
  - intros it o [Et _]. cbn. rewrite Et. unfold mi_SeekToLast.
    rewrite (it_SeekToLast_at KeyComparator entry_cmp valid_entry _ _ _ Hs). cbn. rewrite Et. eexists. split; [done|].
    apply mem_rep_index. rewrite length_map, list.last_lookup, HL. by rewrite Nat.sub_1_r.
  - intros it o t [Et _] (p & Hp & ->).
    change (Seek it (encode_key p)) with (with_pos it (mi_Seek (mi_table it) (encode_key p))). unfold with_pos.
    rewrite Et, (mi_Seek_at _ _ _ _ Hm Hp). cbn [mbind res_bind]. eexists. split; [done|].
    apply mem_rep_index. by rewrite <- mem_lower_bound by (done || apply Hm).
  - intros it i (Et & Hi & Ep). destruct (mem_at i Hi) as (e & x & E & Ex & _ & _ & En). cbn. rewrite Et, Ep, Ex, En. cbn.
    rewrite Et. eexists. split; [done|]. by apply mem_rep_index.
  - intros it i (Et & Hi & Ep). destruct (mem_at i Hi) as (e & x & E & Ex & _). cbn. rewrite Et, Ep, Ex. unfold mi_Prev.
    rewrite (it_Prev_at KeyComparator entry_cmp valid_entry _ _ _ Hs i x Ex). cbn. rewrite Et. eexists. split; [done|].
    destruct i as [|i]; cbn; split; try done. split; [lia|done].
  - done.
Qed.
End mem_iterator.

(** A table that represents a history has a cursor over its writes, sorted. *)
Lemma memtable_cursor `{Comparator} m h : represents m h -> exists es, es ≡ₚ h
  /\ StronglySorted (fun a b : write => cmp_lt ikey_cmp a.1 b.1) es /\ Forall good_write es
  /\ cursor MemTableIterator mem_valid internal_cmp (map raw es) (MemTable_NewIterator m) None.
Proof.
  intros [_ (L & es & Hp & Hm)]. exists es. split; [done|]. split; [exact (mem_sorted _ _ _ Hm)|]. split; [apply Hm|].
  exists (mem_rep m L es). split; [by apply mem_iterator_spec|]. by split.
Qed.

(** The newest write in the history and in the sorted table. *)
Lemma newest_seen_iff `{Comparator} s ws h e : ws ≡ₚ h -> in_order h ->
  newest_seen s ws e <-> newest (user_key e.1) s h = Some e.
Proof.
  intros Hp Ho. unfold newest. split.
  - intros (Hin & Hs & Hmax). rewrite Hp in Hin.
    assert (visible (user_key e.1) s e) as Hv by (split; [by apply (cmp_refl (cmp:=ucmp))|done]).
    destruct (list.last (filter (visible (user_key e.1) s) h)) as [e'|] eqn:El.
    + destruct (last_filter_max _ _ _ Ho El) as ([Hu' Hs'] & Hin' & Hmax'). f_equal. apply (in_order_inj h); [done..|].
      specialize (Hmax e' ltac:(by rewrite Hp) Hu' Hs'). specialize (Hmax' e Hin Hv). lia.
    + apply last_None in El. assert (e ∈ filter (visible (user_key e.1) s) h) as Hf by by apply list_elem_of_filter.
      rewrite El in Hf. set_solver.
  - intros El. destruct (last_filter_max _ _ _ Ho El) as ([Hu Hs] & Hin & Hmax). split; [by rewrite Hp|].
    split; [done|]. intros e' Hin' Hu' Hs'. apply Hmax; [by rewrite <- Hp|by split].
Qed.

(** Any key the comparator takes for the same one gives the same answer. *)
Lemma newest_same_key `{Comparator} u s h e : newest u s h = Some e -> newest (user_key e.1) s h = newest u s h.
Proof.
  intros El. pose proof El as Hu. unfold newest in *. apply last_Some_elem_of, list_elem_of_filter in Hu as [[Hu _] _].
  f_equal. apply list_filter_iff. intros x. unfold visible. by rewrite (cmp_eq_r ucmp _ _ _ Hu).
Qed.

(** ** Properties *)

(** The writes a memtable was given, in the order of their sequence
    numbers, are what a database iterator over it shows: its entries are sorted
    by user key and are exactly the newest writes up to the snapshot that are
    values, and [Get] answers the same for each of them. *)
Theorem memtable_scan `{Comparator} h s seed : in_order h -> Forall good_write h -> valid_seq s ->
  exists m d es, add_all new_MemTable h = Ret m
  /\ NewDBIterator (MemTable_NewIterator m) seed = Ret d
  /\ @cursor _ (DBIter_iterator s (S (length h))) (fun t => Z.of_nat (length t) + 8 < 2^32) ucmp es d None
  /\ StronglySorted (fun a b => cmp_lt ucmp a.1 b.1) es
  /\ (forall u k v, newest u s h = Some (k, v) -> type k = kTypeValue -> (user_key k, v) ∈ es)
  /\ forall u v, (u, v) ∈ es -> (exists k, newest u s h = Some (k, v) /\ type k = kTypeValue /\ user_key k = u)
       /\ forall value st, Get m (LookupKey_make u s) value st = Ret (true, v, st).
Proof.
  intros Ho Hg Hs. destruct (add_all_represents h new_MemTable [] new_represents Ho Hg) as (m & E & Hm).
  destruct (memtable_cursor m h Hm) as (ws & Hp & Hsorted & Hgw & Hc).
  assert (Forall (fun e : write => valid_seq (sequence e.1)) ws) as Hws.
  { eapply list.Forall_impl; [exact Hgw|]. by intros e [[? _] _]. }
  destruct (open_view s (S (length h)) mem_valid ws (MemTable_NewIterator m) None seed Hs Hws Hsorted ltac:(rewrite Hp; lia) Hc) as (d & Ed & Hd).
  exists m, d, (view s ws). split; [done|]. split; [done|]. split.
  { eapply cursor_weaken; [exact Hd|]. intros t Ht. by exists (mkParsed t s kValueTypeForSeek). }
  split; [by apply view_sorted|].
  assert (forall e, newest_seen s ws e <-> newest (user_key e.1) s h = Some e) as Hn by (intros e; by apply newest_seen_iff).
  split.
  - intros u k v En Ht. apply view_elem; [done|]. exists (k, v). split; [|done]. apply Hn. by rewrite (newest_same_key u).
  - intros u v Hin. apply view_elem in Hin as ([k v'] & Hns & Ht & <- & <-); [|done]. apply Hn in Hns as En. cbn [fst snd] in *.
    split; [by exists k|]. intros value st.
    assert (Z.of_nat (length (user_key k)) + 8 < 2^32) as Hl.
    { destruct Hns as (Hin & _). rewrite Forall_forall in Hgw. apply list_elem_of_In, Hgw in Hin as [[_ ?] _]. done. }
    rewrite (Get_represents m h) by done. unfold lookup_result. rewrite En. cbn. by rewrite Ht.
Qed.

Lemma sample_memtable : exists m, add_all new_MemTable sample = Ret m /\ represents m sample.
Proof. exact (add_all_represents sample new_MemTable [] new_represents (proj1 sample_good) (proj2 sample_good)). Qed.

Lemma sample_seqs ws : ws ≡ₚ sample -> Forall (fun e : write => valid_seq (sequence e.1)) ws.
Proof. intros ->. eapply list.Forall_impl; [exact (proj2 sample_good)|]. by intros e [[? _] _]. Qed.

Lemma db_iterator_view_witness : exists m ws, add_all new_MemTable sample = Ret m /\ ws ≡ₚ sample
  /\ exists d, NewDBIterator (MemTable_NewIterator m) 301 = Ret d
     /\ @cursor _ (DBIter_iterator 9 5) (fun t => mem_valid (encode_key (mkParsed t 9 kValueTypeForSeek))) ucmp (view 9 ws) d None.
Proof.
  destruct sample_memtable as (m & E & Hm). destruct (memtable_cursor m sample Hm) as (ws & Hp & Hsorted & _ & Hc).
  exists m, ws. split; [exact E|]. split; [exact Hp|].
  apply (db_iterator_view 9 5 mem_valid ws (MemTable_NewIterator m) None 301); [split; discriminate|by apply sample_seqs|exact Hsorted| |exact Hc].
  rewrite Hp. apply le_n.
Defined.

Lemma memtable_scan_witness : exists m d es, add_all new_MemTable sample = Ret m
  /\ NewDBIterator (MemTable_NewIterator m) 301 = Ret d
  /\ @cursor _ (DBIter_iterator 9 5) (fun t => Z.of_nat (length t) + 8 < 2^32) ucmp es d None
  /\ (lit "k", lit "new") ∈ es.
Proof.
  destruct (memtable_scan sample 9 301 (proj1 sample_good) (proj2 sample_good) ltac:(split; discriminate))
    as (m & d & es & E & Ed & Hc & _ & Hin & _).
  exists m, d, es. split; [exact E|]. split; [exact Ed|]. split; [exact Hc|].
  apply (Hin (lit "k") (mkParsed (lit "k") 3 kTypeValue) (lit "new")); [vm_compute; reflexivity|reflexivity].
Defined.
