(* ===== verification/DbWrite.v ===== *)
(** * DbWrite: the write path of db/db_impl.cc

    [DBImpl::Write]: the queue of writers, the group that the writer at its
    front logs and applies for those behind it, the wait for room and the
    switch to a new memtable.  Threads interleave wherever the code releases
    the mutex; the state machine's steps are the stretches that hold it, and
    the stretch that the front writer does alone, without it. *)

From S2P Require Import Prelude CLib Coding Crc32c Status DbFormat SkipList Log MemTable WriteBatch.

Section db_write.
Context `{Comparator} `{Address} {F : Type} `{!WritableFile F}.
(** [options_.write_buffer_size], and a file that [NewWritableFile] has made:
    it is empty, whatever file had its name before. *)
Context (write_buffer_size : Z) (empty_file : F).

(** ** The state *)

(** [DBImpl::Writer], on the stack of the thread that writes: [w_awake] is
    false while the thread is blocked in [cv.Wait()], and [w_returned] is what
    its [Write] has returned. *)
Record DbWriter := mkDbWriter {
  w_batch : option bytes;
  w_sync : bool;
  w_done : bool;
  w_status : Status.t;
  w_awake : bool;
  w_returned : option Status.t;
}.

(** Where the writer at the front of the queue is, once it goes on:
    in [MakeRoomForWrite]; logging and applying [updates], with the mutex
    released; about to take the mutex again. *)
Inductive Phase :=
  | PRoom (allow_delay force : bool)
  | PApply (tmp : bool) (last_writer : nat) (last_sequence : Z)
  | PFinish (tmp : bool) (last_writer : nat) (last_sequence : Z) (status : Status.t) (sync_error : bool).

(** The fields of [DBImpl] that writing uses.  A [Writer*] is an index of
    [threads], which keeps the writers that have returned as well.  [tables_]
    stands for what [versions_] has: the memtables that the background thread
    has written to tables, the oldest first. *)
Record DBImpl := mkDBImpl {
  threads : list DbWriter;
  writers_ : list nat;
  phase : option Phase;
  mem_ : MemTable;
  imm_ : option MemTable;
  log_ : Log.Writer F;
  tmp_batch_ : bytes;
  last_sequence_ : Z;      (* versions_->LastSequence() *)
  bg_error_ : Status.t;
  tables_ : list MemTable;
}.

Definition with_threads (d : DBImpl) (ts : list DbWriter) : DBImpl :=
  mkDBImpl ts (writers_ d) (phase d) (mem_ d) (imm_ d) (log_ d) (tmp_batch_ d) (last_sequence_ d) (bg_error_ d) (tables_ d).
Definition with_phase (d : DBImpl) (p : option Phase) : DBImpl :=
  mkDBImpl (threads d) (writers_ d) p (mem_ d) (imm_ d) (log_ d) (tmp_batch_ d) (last_sequence_ d) (bg_error_ d) (tables_ d).


(** [CompactMemTable] has written the immutable memtable [m] to tables: the end
    of its work, [imm_ = NULL]. *)
Definition compacted (d : DBImpl) (m : MemTable) : DBImpl :=
  mkDBImpl (threads d) (writers_ d) (phase d) (mem_ d) None (log_ d) (tmp_batch_ d) (last_sequence_ d) (bg_error_ d) (tables_ d ++ [m]).
Definition with_bg_error (d : DBImpl) (s : Status.t) : DBImpl :=
  mkDBImpl (threads d) (writers_ d) (phase d) (mem_ d) (imm_ d) (log_ d) (tmp_batch_ d) (last_sequence_ d) s (tables_ d).

Definition set_awake (w : DbWriter) (b : bool) : DbWriter :=
  mkDbWriter (w_batch w) (w_sync w) (w_done w) (w_status w) b (w_returned w).
Definition set_returned (w : DbWriter) (s : Status.t) : DbWriter :=
  mkDbWriter (w_batch w) (w_sync w) (w_done w) (w_status w) (w_awake w) (Some s).
Definition set_done (w : DbWriter) (s : Status.t) : DbWriter :=
  mkDbWriter (w_batch w) (w_sync w) true s true (w_returned w).
Definition set_batch (w : DbWriter) (b : bytes) : DbWriter :=
  mkDbWriter (Some b) (w_sync w) (w_done w) (w_status w) (w_awake w) (w_returned w).

Definition at_front (d : DBImpl) (i : nat) : bool := bool_decide (head (writers_ d) = Some i).

(** ** Entering [Write] and waiting *)

Definition start_phase (w : DbWriter) : Phase :=
  let force := bool_decide (w_batch w = None) in PRoom (negb force) force.

(** [Write] up to the first [Wait], or into [MakeRoomForWrite]. *)
Definition Write_enter (d : DBImpl) (my_batch : option bytes) (sync : bool) : DBImpl :=
  let i := length (threads d) in
  let front := bool_decide (writers_ d = []) in
  let w := mkDbWriter my_batch sync false Status.OK front None in
  mkDBImpl (threads d ++ [w]) (writers_ d ++ [i]) (if front then Some (start_phase w) else phase d)
    (mem_ d) (imm_ d) (log_ d) (tmp_batch_ d) (last_sequence_ d) (bg_error_ d) (tables_ d).

(** A thread that waits returns from [Wait] and looks at the condition again. *)
Definition Write_wake (d : DBImpl) (i : nat) (w : DbWriter) : DBImpl :=
  if w_done w then with_threads d (<[i := set_returned w (w_status w)]> (threads d))
  else if at_front d i then with_phase d (Some (start_phase w))
  else with_threads d (<[i := set_awake w false]> (threads d)).

(** ** [BuildBatchGroup] *)

(** The loop over the writers behind the first: whether the group is in
    [tmp_batch_], its contents, and the last writer of the group.  Sizes of
    batches that are in memory together do not wrap. *)
Fixpoint group_loop (ts : list DbWriter) (first_sync : bool) (first_batch : bytes) (iter : list nat)
    (tmp : bool) (tmp_batch : bytes) (size max_size : Z) (last_writer : nat) : res (bool * bytes * nat) :=
  match iter with
  | [] => Ret (tmp, tmp_batch, last_writer)
  | i :: iter =>
      w ← of_option (ts !! i);
      if w_sync w && negb first_sync then Ret (tmp, tmp_batch, last_writer)
      else
        match w_batch w with
        | Some b =>
            let size := size + Z.of_nat (ByteSize b) in
            if decide (size > max_size) then Ret (tmp, tmp_batch, last_writer)
            else
              tmp_batch ← (if tmp then Ret tmp_batch else Append tmp_batch first_batch);
              tmp_batch ← Append tmp_batch b;
              group_loop ts first_sync first_batch iter true tmp_batch size max_size i
        | None => group_loop ts first_sync first_batch iter tmp tmp_batch size max_size i
        end
  end.

Definition max_group_size (size : Z) : Z :=
  if decide (size <= Z.shiftl 128 10) then size + Z.shiftl 128 10 else Z.shiftl 1 20.

Definition BuildBatchGroup (d : DBImpl) (first : DbWriter) (batch : bytes) : res (bool * bytes * nat) :=
  match writers_ d with
  | [] => Undef
  | i :: iter =>
      let size := Z.of_nat (ByteSize batch) in
      group_loop (threads d) (w_sync first) batch iter false (tmp_batch_ d) size (max_group_size size) i
  end.

(** ** [MakeRoomForWrite] *)

(** What one round of its loop sees of the rest of the database. *)
Record RoomView := mkRoomView { level0_files : Z; memory_usage : Z; new_file : Status.t }.

Inductive RoomOutcome := RDone (s : Status.t) | RDelay | RWait | RSwitch.

Definition room_round (d : DBImpl) (allow_delay force : bool) (v : RoomView) : RoomOutcome :=
  if negb (Status.ok (bg_error_ d)) then RDone (bg_error_ d)
  else if allow_delay && (config.kL0_SlowdownWritesTrigger <=? level0_files v) then RDelay
  else if negb force && (memory_usage v <=? write_buffer_size) then RDone Status.OK
  else if bool_decide (is_Some (imm_ d)) then RWait
  else if config.kL0_StopWritesTrigger <=? level0_files v then RWait
  else if negb (Status.ok (new_file v)) then RDone (new_file v) else RSwitch.

(** The switch: the memtable becomes the immutable one. *)
Definition switch_memtable (d : DBImpl) (allow_delay : bool) : res DBImpl :=
  log ← new_Writer empty_file;
  Ret (mkDBImpl (threads d) (writers_ d) (Some (PRoom allow_delay false)) (Ref new_MemTable) (Some (mem_ d)) log
    (tmp_batch_ d) (last_sequence_ d) (bg_error_ d) (tables_ d)).

(** Once there is room: the group is built and numbered, in the caller's batch
    or in [tmp_batch_], and the mutex is released. *)
Definition begin_group (d : DBImpl) (i : nat) (w : DbWriter) (batch : bytes) : res DBImpl :=
  '(tmp, tmp_batch, last_writer) ← BuildBatchGroup d w batch;
  updates ← SetSequence (if (tmp : bool) then tmp_batch else batch) (u64 (last_sequence_ d + 1));
  n ← Count updates;
  let ts := if (tmp : bool) then threads d else <[i := set_batch w updates]> (threads d) in
  let tmp_batch := if (tmp : bool) then updates else tmp_batch in
  Ret (mkDBImpl ts (writers_ d) (Some (PApply tmp last_writer (u64 (last_sequence_ d + n)))) (mem_ d) (imm_ d) (log_ d)
    tmp_batch (last_sequence_ d) (bg_error_ d) (tables_ d)).

(** One round of the front writer in [MakeRoomForWrite], and what follows it. *)
Definition Write_room (d : DBImpl) (allow_delay force : bool) (v : RoomView) : res DBImpl :=
  match writers_ d with
  | [] => Undef
  | i :: _ =>
      w ← of_option (threads d !! i);
      match room_round d allow_delay force v with
      | RDelay => Ret (with_phase d (Some (PRoom false force)))
      | RWait => Ret d
      | RSwitch => switch_memtable d allow_delay
      | RDone s =>
          match w_batch w with
          | Some batch =>
              if Status.ok s then begin_group d i w batch
              else Ret (with_phase d (Some (PFinish false i (last_sequence_ d) s false)))
          | None => Ret (with_phase d (Some (PFinish false i (last_sequence_ d) s false)))
          end
      end
  end.

(** ** Logging and applying *)

(** Without the mutex; [sync_status] is what [logfile_->Sync()] returns. *)
Definition Write_apply (d : DBImpl) (tmp : bool) (last_writer : nat) (last_sequence : Z) (sync_status : Status.t)
    : res DBImpl :=
  match writers_ d with
  | [] => Undef
  | i :: _ =>
      w ← of_option (threads d !! i);
      updates ← (if tmp then Ret (tmp_batch_ d) else of_option (w_batch w));
      '(status, log) ← AddRecord (log_ d) (Contents updates);
      let '(status, sync_error) :=
        if Status.ok status && w_sync w then (sync_status, negb (Status.ok sync_status)) else (status, false) in
      '(status, mem) ←
        (if Status.ok status then '(s, ins) ← InsertInto updates (mem_ d); Ret (s, WriteBatch.mem_ ins)
         else Ret (status, mem_ d));
      Ret (mkDBImpl (threads d) (writers_ d) (Some (PFinish tmp last_writer last_sequence status sync_error)) mem (imm_ d)
        log (tmp_batch_ d) (last_sequence_ d) (bg_error_ d) (tables_ d))
  end.

(** ** The end of [Write] *)

Definition RecordBackgroundError (bg s : Status.t) : Status.t := if Status.ok bg then s else bg.

(** The loop that takes the group off the queue and wakes its writers. *)
Fixpoint pop_loop (ts : list DbWriter) (queue : list nat) (me last_writer : nat) (status : Status.t)
    : res (list DbWriter * list nat) :=
  match queue with
  | [] => Undef
  | ready :: queue =>
      w ← of_option (ts !! ready);
      let ts := if decide (ready = me) then ts else <[ready := set_done w status]> ts in
      if decide (ready = last_writer) then Ret (ts, queue) else pop_loop ts queue me last_writer status
  end.

(** The writer at the front of the queue is woken. *)
Definition notify_front (ts : list DbWriter) (queue : list nat) : list DbWriter :=
  match queue with
  | [] => ts
  | i :: _ => alter (fun w => set_awake w true) i ts
  end.

Definition Write_finish (d : DBImpl) (tmp : bool) (last_writer : nat) (last_sequence : Z) (status : Status.t)
    (sync_error : bool) : res DBImpl :=
  match writers_ d with
  | [] => Undef
  | me :: _ =>
      let bg := if sync_error then RecordBackgroundError (bg_error_ d) status else bg_error_ d in
      let tmp_batch := if tmp then Clear else tmp_batch_ d in
      '(ts, queue) ← pop_loop (threads d) (writers_ d) me last_writer status;
      let ts := notify_front ts queue in
      let ts := alter (fun w => set_returned w status) me ts in
      Ret (mkDBImpl ts queue None (mem_ d) (imm_ d) (log_ d) tmp_batch last_sequence bg (tables_ d))
  end.

(** ** Steps *)

(** A thread that waits in the loop of [Write]: not the front one going on. *)
Definition waiting (d : DBImpl) (i : nat) (w : DbWriter) : Prop :=
  threads d !! i = Some w /\ w_returned w = None /\ ~ (at_front d i = true /\ phase d <> None).

Inductive step : DBImpl -> DBImpl -> Prop :=
  | step_enter d batch sync : step d (Write_enter d batch sync)
  | step_wake d i w : waiting d i w -> w_awake w = true -> step d (Write_wake d i w)
  | step_spurious d i w : waiting d i w -> step d (with_threads d (<[i := set_awake w true]> (threads d)))
  | step_room d a f v d' : phase d = Some (PRoom a f) -> Write_room d a f v = Ret d' -> step d d'
  | step_apply d t l q s d' : phase d = Some (PApply t l q) -> Write_apply d t l q s = Ret d' -> step d d'
  | step_finish d t l q s e d' : phase d = Some (PFinish t l q s e) -> Write_finish d t l q s e = Ret d' -> step d d'
  | step_compacted d m :                       (* the background thread is done with imm_ *)
      imm_ d = Some m -> step d (compacted d m)
  | step_background_error d s :                (* or it has failed *)
      step d (with_bg_error d (RecordBackgroundError (bg_error_ d) s)).

(** A database that has just been opened, with an empty log. *)
Definition new_DBImpl : res DBImpl :=
  log ← new_Writer empty_file;
  Ret (mkDBImpl [] [] None (Ref new_MemTable) None log Clear 0 Status.OK []).
End db_write.
Arguments DBImpl F : clear implicits.

(** ** The operations of batches and writers *)

Definition ops_of (b : bytes) : list op :=
  match Iterate (H := log_handler) b [] with Ret (_, os) => os | _ => [] end.

(** A batch that [Put] and [Delete] made, and perhaps an earlier [Write] numbered. *)
Definition well_made (b : bytes) : Prop :=
  exists seq os, b = batch seq os /\ Forall small_op os /\ Z.of_nat (length os) < 2^31.

Lemma log_ops os h : on_ops (H := log_handler) h os = Ret (h ++ os).
Proof.
  revert h. induction os as [|o os IH]; intros h; cbn [on_ops]; [by rewrite app_nil_r|].
  assert (on_op (H := log_handler) h o = Ret (h ++ [o])) as -> by by destruct o. cbn [mbind res_bind].
  by rewrite IH, <- app_assoc.
Qed.

Lemma ops_of_batch seq os : Forall small_op os -> Z.of_nat (length os) < 2^31 -> ops_of (batch seq os) = os.
Proof.
  intros Hs Hn. unfold ops_of. rewrite Iterate_batch by (done || by apply small_good). by rewrite log_ops.
Qed.

Lemma ByteSize_batch seq os : (length os <= ByteSize (batch seq os))%nat.
Proof. unfold ByteSize, batch. rewrite !length_app. pose proof (length_encode_ops os). lia. Qed.

Definition writer_ops (w : DbWriter) : list op := match w_batch w with Some b => ops_of b | None => [] end.

(** The status a writer has got, returned or about to be. *)
Definition result (w : DbWriter) : option Status.t :=
  match w_returned w with Some s => Some s | None => if w_done w then Some (w_status w) else None end.

Definition succeeded (w : DbWriter) : bool := match result w with Some s => Status.ok s | None => false end.

Definition all_ops (ts : list DbWriter) : list op := concat (map writer_ops ts).
(** The operations of the writers that were told of success, in their order. *)
Definition committed (ts : list DbWriter) : list op :=
  concat (map (fun w => if succeeded w then writer_ops w else []) ts).
(** The writers of a group, and their operations. *)
Definition group (ts : list DbWriter) (p last : nat) : list DbWriter := take (S last - p) (drop p ts).

Lemma all_ops_app ts ts' : all_ops (ts ++ ts') = all_ops ts ++ all_ops ts'.
Proof. unfold all_ops. by rewrite map_app, concat_app. Qed.
Lemma committed_app ts ts' : committed (ts ++ ts') = committed ts ++ committed ts'.
Proof. unfold committed. by rewrite map_app, concat_app. Qed.

Lemma committed_none ts : Forall (fun w => succeeded w = false) ts -> committed ts = [].
Proof. induction 1 as [|w ts Hw _ IH]; [done|]. unfold committed in *. cbn. by rewrite Hw, IH. Qed.
Lemma committed_all ts : Forall (fun w => succeeded w = true) ts -> committed ts = all_ops ts.
Proof. induction 1 as [|w ts Hw _ IH]; [done|]. unfold committed, all_ops in *. cbn. by rewrite Hw, IH. Qed.
Lemma committed_incl ts : (length (committed ts) <= length (all_ops ts))%nat.
Proof.
  induction ts as [|w ts IH]; [done|]. unfold committed, all_ops in *. cbn. rewrite !length_app.
  destruct (succeeded w); cbn; lia.
Qed.

(** Writers that differ only in being awake or having returned. *)
Definition alike (w w' : DbWriter) : Prop :=
  w_batch w = w_batch w' /\ w_sync w = w_sync w' /\ result w = result w'.

Lemma alike_ops w w' : alike w w' -> writer_ops w = writer_ops w'.
Proof. intros (E & _ & _). unfold writer_ops. by rewrite E. Qed.

Lemma alike_lists ts ts' : Forall2 alike ts ts' -> all_ops ts = all_ops ts' /\ committed ts = committed ts'.
Proof.
  induction 1 as [|w w' ts ts' Hw _ [IH1 IH2]]; [done|]. pose proof (alike_ops _ _ Hw) as E. destruct Hw as (_ & _ & Er).
  unfold all_ops, committed, succeeded in *. cbn. by rewrite E, Er, IH1, IH2.
Qed.

Lemma alike_refl ts : Forall2 alike ts ts.
Proof. induction ts; constructor; done. Qed.

Lemma alike_insert ts i w w' : ts !! i = Some w -> alike w w' -> Forall2 alike ts (<[i := w']> ts).
Proof.
  intros Hi Hw. apply Forall2_same_length_lookup_2; [by rewrite length_insert|]. intros j a b Ha Hb.
  destruct (decide (i = j)) as [->|Hne].
  - rewrite list_lookup_insert_eq in Hb by (by eapply lookup_lt_Some). by simplify_eq.
  - rewrite list_lookup_insert_ne in Hb by done. by simplify_eq.
Qed.

Lemma alike_group ts ts' p last : Forall2 alike ts ts' -> Forall2 alike (group ts p last) (group ts' p last).
Proof. intros HF. by apply Forall2_take, Forall2_drop. Qed.

(** ** Groups *)

Lemma group_first ts p w : ts !! p = Some w -> group ts p p = [w].
Proof.
  intros E. unfold group. replace (S p - p)%nat with 1%nat by lia. rewrite (drop_S _ _ _ E). done.
Qed.

Lemma group_S ts p last w : (p <= S last)%nat -> ts !! S last = Some w -> group ts p (S last) = group ts p last ++ [w].
Proof.
  intros Hp E. unfold group. replace (S (S last) - p)%nat with (S (S last - p)) by lia.
  apply take_S_r. rewrite lookup_drop. by replace (p + (S last - p))%nat with (S last) by lia.
Qed.

Lemma group_app ts ts' p last : (last < length ts)%nat -> group (ts ++ ts') p last = group ts p last.
Proof.
  intros Hl. unfold group. destruct (decide (p <= length ts)%nat) as [Hp|Hp].
  - rewrite drop_app_le by done. rewrite take_app_le; [done|]. rewrite length_drop. lia.
  - by replace (S last - p)%nat with 0%nat by lia.
Qed.

(** A writer that wants its data synced is in no group led by one that does not. *)
Definition sync_rule (ts : list DbWriter) (p last : nat) : Prop :=
  forall w, ts !! p = Some w -> w_sync w = false -> Forall (fun w' => w_sync w' = false) (group ts p last).

Definition made (ts : list DbWriter) : Prop := Forall (fun w => forall b, w_batch w = Some b -> well_made b) ts.

Lemma made_at ts i w b : made ts -> ts !! i = Some w -> w_batch w = Some b -> well_made b.
Proof. intros Hm Hi. by apply (Forall_lookup_1 _ _ _ _ Hm Hi). Qed.

Lemma writer_ops_none w : w_batch w = None -> writer_ops w = [].
Proof. intros E. unfold writer_ops. by rewrite E. Qed.
Lemma writer_ops_batch w seq os : w_batch w = Some (batch seq os) -> Forall small_op os -> Z.of_nat (length os) < 2^31 ->
  writer_ops w = os.
Proof. intros E Hs Hl. unfold writer_ops. rewrite E. by apply ops_of_batch. Qed.

Lemma all_ops_small ts : made ts -> Forall small_op (all_ops ts).
Proof.
  induction 1 as [|w ts Hw _ IH]; [constructor|]. unfold all_ops in *. cbn. apply Forall_app. split; [|done].
  unfold writer_ops. destruct (w_batch w) as [b|] eqn:E; [|constructor].
  destruct (Hw b eq_refl) as (seq & os & -> & Hs & Hl). by rewrite ops_of_batch.
Qed.

Lemma made_group ts p last : made ts -> made (group ts p last).
Proof. intros Hm. by apply Forall_take, Forall_drop. Qed.

(** What the loop knows when it has taken the writers up to [last]. *)
Lemma group_loop_spec ts p w0 seq0 os0 : made ts -> ts !! p = Some w0 -> w_batch w0 = Some (batch seq0 os0) ->
  Forall small_op os0 -> Z.of_nat (length os0) < 2^31 ->
  forall n last (tmp : bool) tmp_batch size max_size,
  (S last + n = length ts)%nat -> (p <= last)%nat -> max_size <= 2^20 ->
  Z.of_nat (length (all_ops (group ts p last))) <= size ->
  (w_sync w0 = false -> Forall (fun w' => w_sync w' = false) (group ts p last)) ->
  (if tmp then tmp_batch = batch 0 (all_ops (group ts p last)) /\ size <= max_size
   else tmp_batch = Clear /\ all_ops (group ts p last) = os0) ->
  exists tmp' tmp_batch' last', group_loop ts (w_sync w0) (batch seq0 os0) (seq (S last) n) tmp tmp_batch size max_size last
      = Ret (tmp', tmp_batch', last')
    /\ (last <= last' < length ts)%nat
    /\ (w_sync w0 = false -> Forall (fun w' => w_sync w' = false) (group ts p last'))
    /\ if tmp' : bool then tmp_batch' = batch 0 (all_ops (group ts p last')) /\ Z.of_nat (length (all_ops (group ts p last'))) < 2^31
       else tmp_batch' = Clear /\ all_ops (group ts p last') = os0.
Proof.
  intros Hm Hp Hb Hs0 Hl0. induction n as [|n IH]; intros last tmp tmp_batch size max_size Hn Hpl Hmax Hsize Hsync Htmp;
    cbn [seq group_loop].
  { exists tmp, tmp_batch, last. split; [done|]. split; [lia|]. split; [done|]. destruct tmp; [|done]. split; [tauto|lia]. }
  assert (exists tmp' tmp_batch' last', @Ret (bool * bytes * nat) (tmp, tmp_batch, last) = Ret (tmp', tmp_batch', last')
    /\ (last <= last' < length ts)%nat
    /\ (w_sync w0 = false -> Forall (fun w' => w_sync w' = false) (group ts p last'))
    /\ if tmp' : bool then tmp_batch' = batch 0 (all_ops (group ts p last')) /\ Z.of_nat (length (all_ops (group ts p last'))) < 2^31
       else tmp_batch' = Clear /\ all_ops (group ts p last') = os0) as Hstop.
  { exists tmp, tmp_batch, last. split; [done|]. split; [lia|]. split; [done|]. destruct tmp; [|done]. split; [tauto|lia]. }
  destruct (lookup_lt_is_Some_2 ts (S last) ltac:(lia)) as [w Hw]. rewrite Hw. cbn [of_option mbind res_bind].
  destruct (w_sync w && negb (w_sync w0)) eqn:Esync; [exact Hstop|].
  assert (w_sync w0 = false -> Forall (fun w' => w_sync w' = false) (group ts p (S last))) as Hsync'.
  { intros E. rewrite (group_S _ _ _ w) by (done || lia). apply Forall_app. split; [by apply Hsync|].
    constructor; [|constructor]. rewrite E in Esync. by destruct (w_sync w). }
  assert (all_ops (group ts p (S last)) = all_ops (group ts p last) ++ writer_ops w) as Eops.
  { rewrite (group_S _ _ _ w) by (done || lia). rewrite all_ops_app. f_equal. unfold all_ops. cbn. by rewrite app_nil_r. }
  destruct (w_batch w) as [b|] eqn:Eb.
  2:{ rewrite (writer_ops_none w Eb), app_nil_r in Eops.
      destruct (IH (S last) tmp tmp_batch size max_size ltac:(lia) ltac:(lia) Hmax) as (t' & tb' & l' & E & Hl' & HR);
        [by rewrite Eops|exact Hsync'|by rewrite Eops|].
      exists t', tb', l'. split; [exact E|]. split; [lia|exact HR]. }
  case_decide as Hsz; [exact Hstop|].
  destruct (made_at _ _ _ _ Hm Hw Eb) as (seq1 & os1 & -> & Hs1 & Hl1).
  rewrite (writer_ops_batch w seq1 os1 Eb Hs1 Hl1) in Eops. pose proof (ByteSize_batch seq1 os1) as HBS.
  assert (exists tb, (if tmp then Ret tmp_batch else Append tmp_batch (batch seq0 os0)) = Ret tb
    /\ tb = batch 0 (all_ops (group ts p last))) as (tb & -> & ->).
  { destruct tmp; [by exists tmp_batch; destruct Htmp|]. destruct Htmp as [-> ->]. rewrite Clear_batch.
    rewrite Append_batch by (cbn [length]; lia). by eexists. }
  cbn [mbind res_bind]. rewrite Append_batch by lia. cbn [mbind res_bind]. rewrite <- Eops.
  destruct (IH (S last) true (batch 0 (all_ops (group ts p (S last)))) (size + Z.of_nat (ByteSize (batch seq1 os1))) max_size
    ltac:(lia) ltac:(lia) Hmax) as (t' & tb' & l' & E & Hl' & HR).
  - rewrite Eops, length_app. lia.
  - exact Hsync'.
  - split; [done|lia].
  - exists t', tb', l'. split; [exact E|]. split; [lia|exact HR].
Qed.

Lemma pop_loop_spec ts p me last s : (p <= last < length ts)%nat -> exists ts',
  pop_loop ts (seq p (length ts - p)) me last s = Ret (ts', seq (S last) (length ts - S last))
  /\ length ts' = length ts
  /\ forall i, ts' !! i = (fun w => if decide ((p <= i <= last)%nat /\ i <> me) then set_done w s else w) <$> ts !! i.
Proof.
  remember (last - p)%nat as n eqn:En. revert ts p En. induction n as [|n IH]; intros ts p En Hp;
    replace (length ts - p)%nat with (S (length ts - S p)) by lia; cbn [seq pop_loop];
    destruct (lookup_lt_is_Some_2 ts p ltac:(lia)) as [w Hw]; rewrite Hw; cbn [of_option mbind res_bind].
  - assert (last = p) as -> by lia. rewrite (decide_True (P := p = p)) by done. eexists. split; [done|].
    split; [case_decide; by rewrite ?length_insert|]. intros i. destruct (decide (i = p)) as [->|Hne].
    + rewrite Hw. cbn [fmap option_fmap option_map]. destruct (decide (p = me)) as [Hm|Hm].
      * rewrite (decide_False (P := _ /\ _)) by (intros [_ Hn]; by apply Hn). exact Hw.
      * rewrite decide_True by (split; [lia|done]). rewrite list_lookup_insert_eq by (by eapply lookup_lt_Some). done.
    + assert ((if decide (p = me) then ts else <[p:=set_done w s]> ts) !! i = ts !! i) as ->.
      { case_decide; [done|]. by rewrite list_lookup_insert_ne by done. }
      destruct (ts !! i); [|done]. cbn [fmap option_fmap option_map].
      by rewrite (decide_False (P := _ /\ _)) by (intros [? _]; lia).
  - rewrite (decide_False (P := p = last)) by lia. set (ts1 := if decide (p = me) then ts else <[p := set_done w s]> ts).
    assert (length ts1 = length ts) as El by (unfold ts1; case_decide; by rewrite ?length_insert).
    destruct (IH ts1 (S p)) as (ts' & E & Hl & Hat); [lia|lia|]. rewrite El in E, Hl. rewrite E. exists ts'.
    split; [done|]. split; [done|]. intros i. rewrite Hat. unfold ts1. destruct (decide (i = p)) as [->|Hne].
    + rewrite Hw. destruct (decide (p = me)) as [Hm|Hm].
      * rewrite Hw. cbn [fmap option_fmap option_map]. by rewrite !(decide_False (P := _ /\ _)) by (intros [_ Hn]; by apply Hn).
      * rewrite list_lookup_insert_eq by (by eapply lookup_lt_Some). cbn [fmap option_fmap option_map].
        rewrite (decide_False (P := (S p <= p <= last)%nat /\ _)) by (intros [? _]; lia). by rewrite decide_True by (split; [lia|done]).
    + assert ((if decide (p = me) then ts else <[p:=set_done w s]> ts) !! i = ts !! i) as ->.
      { case_decide; [done|]. by rewrite list_lookup_insert_ne by done. }
      destruct (ts !! i); [|done]. cbn [fmap option_fmap option_map]. f_equal.
      destruct (decide ((S p <= i <= last)%nat /\ i <> me)) as [[? ?]|Hno].
      * by rewrite decide_True by (split; [lia|done]).
      * rewrite decide_False; [done|]. intros [? ?]. apply Hno. split; [lia|done].
Qed.

(** Writers that are served: up to [last], they have got status [s]. *)
Definition served (p last : nat) (s : Status.t) (i : nat) (w w' : DbWriter) : Prop :=
  w_batch w' = w_batch w /\ w_sync w' = w_sync w
  /\ result w' = if decide (p <= i <= last)%nat then Some s else result w.

Lemma Forall2_segment (R : DbWriter -> DbWriter -> Prop) ts ts' n m : length ts = length ts' ->
  (forall i w w', (n <= i < n + m)%nat -> ts !! i = Some w -> ts' !! i = Some w' -> R w w') ->
  Forall2 R (take m (drop n ts)) (take m (drop n ts')).
Proof.
  intros El HR. apply Forall2_same_length_lookup_2; [rewrite !length_take, !length_drop; lia|].
  intros i w w' Hw Hw'. pose proof (lookup_lt_Some _ _ _ Hw) as Hlt. rewrite length_take in Hlt.
  rewrite lookup_take_lt, lookup_drop in Hw, Hw' by lia. apply (HR (n + i)%nat); (done || lia).
Qed.

Lemma committed_served ts ts' p last s : (p <= last < length ts)%nat -> length ts = length ts' ->
  (forall i w, (p <= i)%nat -> ts !! i = Some w -> result w = None) ->
  (forall i w w', ts !! i = Some w -> ts' !! i = Some w' -> served p last s i w w') ->
  committed ts' = committed ts ++ (if Status.ok s then all_ops (group ts p last) else [])
  /\ all_ops ts' = all_ops ts.
Proof.
  intros Hp El Hnone HR.
  assert (forall l : list DbWriter, length l = length ts ->
    l = take p (drop 0 l) ++ group l p last ++ take (length ts) (drop (S last) l)) as Hsplit.
  { intros l E. rewrite (take_ge (drop (S last) l)) by (rewrite length_drop; lia). unfold group.
    rewrite drop_0. replace (drop (S last) l) with (drop (S last - p) (drop p l)) by (rewrite drop_drop; f_equal; lia).
    by rewrite !take_drop. }
  assert (Forall2 alike (take p (drop 0 ts)) (take p (drop 0 ts'))) as [Ea1 Ec1]%alike_lists.
  { apply Forall2_segment; [done|]. intros i w w' Hi Hw Hw'. destruct (HR _ _ _ Hw Hw') as (E1 & E2 & E3).
    rewrite decide_False in E3 by lia. by split_and!. }
  assert (Forall2 alike (take (length ts) (drop (S last) ts)) (take (length ts) (drop (S last) ts'))) as [Ea3 Ec3]%alike_lists.
  { apply Forall2_segment; [done|]. intros i w w' Hi Hw Hw'. destruct (HR _ _ _ Hw Hw') as (E1 & E2 & E3).
    rewrite decide_False in E3 by lia. by split_and!. }
  assert (Forall2 (fun w w' => w_batch w' = w_batch w /\ result w = None /\ result w' = Some s) (group ts p last) (group ts' p last))
    as H2.
  { apply Forall2_segment; [done|]. intros i w w' Hi Hw Hw'. destruct (HR _ _ _ Hw Hw') as (E1 & E2 & E3).
    rewrite decide_True in E3 by lia. split_and!; try done. apply (Hnone i); (done || lia). }
  assert (committed (group ts p last) = [] /\ committed (group ts' p last) = (if Status.ok s then all_ops (group ts p last) else [])
    /\ all_ops (group ts' p last) = all_ops (group ts p last)) as (Ec2 & Ec2' & Ea2).
  { induction H2 as [|w w' l l' (E1 & E2 & E3) _ (IH1 & IH2 & IH3)]; [by destruct (Status.ok s)|].
    unfold committed, all_ops, succeeded, writer_ops in *. cbn. rewrite E1, E2, E3, IH1, IH2, IH3. by destruct (Status.ok s). }
  assert (committed (take (length ts) (drop (S last) ts)) = []) as Ec4.
  { apply committed_none. apply Forall_forall. intros w Hw%list_elem_of_In.
    apply list_elem_of_lookup in Hw as [i Hw]. pose proof (lookup_lt_Some _ _ _ Hw) as Hlt. rewrite length_take in Hlt.
    rewrite lookup_take_lt, lookup_drop in Hw by lia. unfold succeeded. rewrite (Hnone (S last + i)%nat w); (done || lia). }
  assert (committed ts' = committed (take p (drop 0 ts)) ++ (if Status.ok s then all_ops (group ts p last) else [])) as ->.
  { rewrite (Hsplit ts') at 1 by done. by rewrite !committed_app, <- Ec1, <- Ec3, Ec2', Ec4, app_nil_r. }
  assert (committed ts = committed (take p (drop 0 ts))) as <-.
  { rewrite (Hsplit ts) at 1 by done. by rewrite !committed_app, Ec2, Ec4, !app_nil_r. }
  split; [done|]. rewrite (Hsplit ts') at 1 by done. rewrite (Hsplit ts) at 2 by done.
  by rewrite !all_ops_app, <- Ea1, <- Ea3, Ea2.
Qed.

(** ** The invariant *)

Section invariant.
Context `{Comparator} `{Address} (write_buffer_size : Z).

Abbreviation DB := (DBImpl bytes).
Abbreviation db_step := (step write_buffer_size []).

(** What the model's users keep to: batches are made by [Put] and [Delete],
    and there are fewer operations than sequence numbers. *)
Definition well_used (d : DB) : Prop :=
  made (threads d) /\ Z.of_nat (length (all_ops (threads d))) < kMaxSequenceNumber.

Inductive reachable : DB -> Prop :=
  | reachable_new d : new_DBImpl [] = Ret d -> reachable d
  | reachable_step d d' : reachable d -> db_step d d' -> well_used d' -> reachable d'.

(** The records in a log that a new reader would read. *)
Definition log_holds (w : Log.Writer bytes) (recs : list bytes) : Prop :=
  good_crcs (type_crc_ w) /\ 0 <= block_offset_ w <= kBlockSize
  /\ exists prss, stream 0 (concat prss) (dest_ w) (block_offset_ w) /\ Forall2 fragments recs prss.

Lemma log_new : exists w, @new_Writer _ bytes [] = Ret w /\ log_holds w [].
Proof.
  destruct (new_Writer_spec []) as (l & E & Hl). eexists. split; [exact E|]. split; [done|].
  split; [split; vm_compute; discriminate|]. exists []. split; constructor.
Qed.

Lemma log_add w recs r : log_holds w recs -> exists w', AddRecord w r = Ret (Status.OK, w') /\ log_holds w' (recs ++ [r]).
Proof.
  intros (Hc & Hb & prss & Hs & HF). destruct (AddRecord_spec w r Hc Hb) as (raw & prs & bo' & -> & Hbo & Hs' & Hfr).
  eexists. split; [done|]. split; [done|]. split; [done|]. exists (prss ++ [prs]). split.
  - rewrite concat_app. cbn [concat]. rewrite app_nil_r. cbn [dest_ block_offset_]. by eapply stream_app.
  - apply Forall2_app; [done|]. by constructor.
Qed.

(** What a log that holds records gives back. *)
Lemma log_read w recs checksum : log_holds w recs -> exists r',
  read_all (S (length recs)) (S (length (dest_ w))) (new_Reader (dest_ w) checksum 0) = Ret (recs, r') /\ reports_ r' = [].
Proof.
  intros (_ & _ & prss & Hs & HF). pose proof (stream_length _ _ _ _ Hs). destruct (stream_from_start _ _ _ Hs) as [bo'' Hs'].
  destruct (read_all_spec recs prss (S (length (dest_ w))) (new_Reader (dest_ w) checksum 0) kBlockSize (dest_ w) bo'' HF Hs')
    as (r' & E & Hr'); [apply new_Reader_at|lia|done|]. by exists r'.
Qed.

(** The operations applied whose writers have not been told yet. *)
Definition pending (d : DB) (p : nat) : list op :=
  match phase d with
  | Some (PFinish _ last _ s _) => if Status.ok s then all_ops (group (threads d) p last) else []
  | _ => []
  end.
Definition history (d : DB) (p : nat) : list op := committed (threads d) ++ pending d p.

(** No error has stopped the database: a group that is being logged goes on
    whatever the background thread reports. *)
Definition sound (d : DB) : Prop :=
  match phase d with
  | Some (PApply _ _ _) => True
  | Some (PFinish _ _ _ _ e) => Status.ok (bg_error_ d) = true /\ e = false
  | _ => Status.ok (bg_error_ d) = true
  end.

Abbreviation write := (ParsedInternalKey * bytes)%type.
(** A group of operations with the number of its first one. *)
Abbreviation numbered := (Z * list op)%type.
Definition batches (gs : list numbered) : list bytes := map (fun g => batch g.1 g.2) gs.
Definition group_writes (gs : list numbered) : list write := concat (map (fun g => writes_of g.1 g.2) gs).
Definition good_group (g : numbered) : Prop :=
  Forall small_op g.2 /\ Z.of_nat (length g.2) < 2^31 /\ 0 <= g.1 /\ g.1 + Z.of_nat (length g.2) <= kMaxSequenceNumber + 1.

(** The history's writes: those of the tables, [old], those in [imm_] and
    those in [mem_], which are in the log, [gs]; [rest] is what a failed write
    has left there. *)
Record holds_history (d : DB) (p : nat) (old : list (list write)) (imm : list write) (gs : list numbered) (rest : list bytes) : Prop := {
  h_split : writes_of 1 (history d p) = concat old ++ imm ++ group_writes gs;
  h_tables : Forall2 represents (tables_ d) old;
  h_mem : represents (mem_ d) (group_writes gs);
  h_imm : match imm_ d with Some m => represents m imm | None => imm = [] end;
  h_log : log_holds (log_ d) (batches gs ++ rest);
  h_groups : Forall good_group gs;
  h_rest : sound d -> rest = [];
}.

(** The batch that the front writer [p] logs, for the writers up to [last]. *)
Definition updates (d : DB) (p : nat) (tmp : bool) : option bytes :=
  if tmp then Some (tmp_batch_ d) else w ← threads d !! p; w_batch w.

(** A group of writers that the front one, [p], writes for. *)
Definition is_group (d : DB) (p last : nat) (tmp : bool) : Prop :=
  (p <= last < length (threads d))%nat /\ sync_rule (threads d) p last /\ (tmp = false -> tmp_batch_ d = Clear).

Definition phase_inv (d : DB) (p : nat) : Prop :=
  match phase d with
  | None => tmp_batch_ d = Clear
  | Some (PRoom _ _) => (p < length (threads d))%nat /\ tmp_batch_ d = Clear
  | Some (PApply tmp last q) =>
      let os := all_ops (group (threads d) p last) in
      is_group d p last tmp /\ updates d p tmp = Some (batch (last_sequence_ d + 1) os) /\ Z.of_nat (length os) < 2^31
      /\ q = last_sequence_ d + Z.of_nat (length os)
  | Some (PFinish tmp last q s e) =>
      is_group d p last tmp /\ (e = true -> Status.ok s = false) /\ (sound d -> q = Z.of_nat (length (history d p)))
  end.

(** The first [p] writers are served, and the others queue. *)
Record queue_inv (d : DB) (p : nat) : Prop := {
  i_le : (p <= length (threads d))%nat;
  i_queue : writers_ d = seq p (length (threads d) - p);
  i_gone : forall i w, (i < p)%nat -> threads d !! i = Some w -> w_returned w <> None \/ (w_done w = true /\ w_awake w = true);
  i_waits : forall i w, (p <= i)%nat -> threads d !! i = Some w -> w_returned w = None /\ w_done w = false;
  i_front : phase d = None -> forall w, threads d !! p = Some w -> w_awake w = true;
}.

Definition seq_inv (d : DB) : Prop :=
  match phase d with
  | Some (PFinish _ _ _ _ _) => True
  | _ => sound d -> last_sequence_ d = Z.of_nat (length (committed (threads d)))
  end.

Record inv (d : DB) (p : nat) : Prop := {
  i_used : well_used d;
  i_served : queue_inv d p;
  i_phase : phase_inv d p;
  i_seq : seq_inv d;
  i_history : exists old imm gs rest, holds_history d p old imm gs rest;
}.

Lemma holds_same d d' p p' old imm gs rest : history d' p' = history d p -> mem_ d' = mem_ d -> log_ d' = log_ d ->
  imm_ d' = imm_ d -> tables_ d' = tables_ d -> (sound d' -> sound d) ->
  holds_history d p old imm gs rest -> holds_history d' p' old imm gs rest.
Proof.
  intros Eh Em El Ei Et Hs [H1' Ht H2' H3' H4' H5' H6']. split; [by rewrite Eh|by rewrite Et|by rewrite Em|by rewrite Ei|by rewrite El|done|tauto].
Qed.

(** *** Steps that write nothing *)

Definition grown (ts ts' : list DbWriter) : Prop :=
  exists ts1 ext, ts' = ts1 ++ ext /\ Forall2 alike ts ts1 /\ Forall (fun w => result w = None) ext.

Lemma grown_alike ts ts' : Forall2 alike ts ts' -> grown ts ts'.
Proof. intros HF. exists ts', []. by rewrite app_nil_r. Qed.

Lemma grown_committed ts ts' : grown ts ts' -> committed ts' = committed ts.
Proof.
  intros (ts1 & ext & -> & HF & He). rewrite committed_app, (committed_none ext), app_nil_r.
  - by destruct (alike_lists _ _ HF) as [_ ->].
  - eapply list.Forall_impl; [exact He|]. intros w E. unfold succeeded. by rewrite E.
Qed.

Lemma grown_length ts ts' : grown ts ts' -> (length ts <= length ts')%nat.
Proof. intros (ts1 & ext & -> & HF & He). rewrite length_app, (list.Forall2_length _ _ _ HF). lia. Qed.

Lemma grown_group ts ts' p last : grown ts ts' -> (last < length ts)%nat -> Forall2 alike (group ts p last) (group ts' p last).
Proof.
  intros (ts1 & ext & -> & HF & He) Hl. rewrite group_app by by rewrite <- (list.Forall2_length _ _ _ HF). by apply alike_group.
Qed.

Lemma grown_at ts ts' i : grown ts ts' -> (i < length ts)%nat ->
  exists w w', ts !! i = Some w /\ ts' !! i = Some w' /\ alike w w'.
Proof.
  intros (ts1 & ext & -> & HF & He) Hl. destruct (lookup_lt_is_Some_2 ts i Hl) as [w Hw].
  destruct (Forall2_lookup_l _ _ _ _ _ HF Hw) as (w' & Hw' & Ha). exists w, w'.
  split; [done|]. split; [|done]. by apply lookup_app_l_Some.
Qed.

Definition early (d : DB) : Prop := match phase d with None | Some (PRoom _ _) => True | _ => False end.

Lemma group_inv_grown d d' p last tmp : grown (threads d) (threads d') -> tmp_batch_ d' = tmp_batch_ d ->
  is_group d p last tmp -> is_group d' p last tmp /\ all_ops (group (threads d') p last) = all_ops (group (threads d) p last).
Proof.
  intros Hg Et (Hl & Hsync & Htmp). pose proof (grown_length _ _ Hg). pose proof (grown_group _ _ p last Hg ltac:(lia)) as HF.
  split; [|by destruct (alike_lists _ _ HF)]. split; [lia|]. split; [|by rewrite Et].
  intros w' Hw' Hns. destruct (grown_at _ _ p Hg ltac:(lia)) as (w0 & w0' & Hw & Hw0 & (_ & Es & _)). simplify_eq.
  rewrite <- Es in Hns. specialize (Hsync _ Hw Hns). clear -HF Hsync.
  induction HF as [|a b l l' (_ & E & _) _ IH]; [constructor|]. apply list.Forall_cons in Hsync as [Ha Hl].
  constructor; [congruence|by apply IH].
Qed.

Lemma inv_grown d d' p : inv d p -> well_used d' -> grown (threads d) (threads d') -> queue_inv d' p ->
  phase d' = phase d \/ (early d /\ exists a f, phase d' = Some (PRoom a f) /\ (p < length (threads d'))%nat) ->
  tmp_batch_ d' = tmp_batch_ d -> last_sequence_ d' = last_sequence_ d -> mem_ d' = mem_ d -> log_ d' = log_ d ->
  imm_ d' = imm_ d -> tables_ d' = tables_ d -> (sound d' -> sound d) -> inv d' p.
Proof.
  intros [_ Hq Hp Hs (old & imm & gs & rest & Hh)] Hus Hg Hq' Hph Et El Em Elog Ei Etab Hso.
  assert (history d' p = history d p) as Eh.
  { unfold history, pending. rewrite (grown_committed _ _ Hg). f_equal. destruct Hph as [->|[He (a & f & -> & _)]].
    - destruct (phase d) as [[]|] eqn:E; try done. unfold phase_inv in Hp. rewrite E in Hp. destruct Hp as [Hgr _].
      by destruct (group_inv_grown _ d' _ _ _ Hg Et Hgr) as [_ ->].
    - unfold early in He. by destruct (phase d) as [[]|]. }
  split; [done|done| | |exists old, imm, gs, rest; by apply (holds_same d d' p)].
  - unfold phase_inv in *. destruct Hph as [->|[He (a & f & -> & Hl)]].
    2:{ unfold early in He. rewrite Et. destruct (phase d) as [[]|]; try done; by destruct Hp. }
    pose proof (grown_length _ _ Hg). rewrite Et. destruct (phase d) as [[a f|tmp last q|tmp last q s e]|] eqn:E; try done.
    + split; [lia|tauto].
    + destruct Hp as (Hgr & Hu & Hn & Hq0). destruct (group_inv_grown _ d' _ _ _ Hg Et Hgr) as [Hgr' Eo].
      rewrite Eo, El. split_and!; try done. rewrite <- Hu. unfold updates. rewrite Et. destruct tmp; [done|].
      destruct Hgr as (Hl & _). destruct (grown_at _ _ p Hg ltac:(lia)) as (w & w' & -> & -> & (Eb & _)). cbn. congruence.
    + destruct Hp as (Hgr & He & Hq0). destruct (group_inv_grown _ d' _ _ _ Hg Et Hgr) as [Hgr' Eo].
      split_and!; [done|done|]. rewrite Eh. tauto.
  - unfold seq_inv in *. rewrite (grown_committed _ _ Hg), El. destruct Hph as [->|[He (a & f & -> & Hl)]].
    + destruct (phase d) as [[]|]; tauto.
    + unfold early in He. destruct (phase d) as [[]|]; tauto.
Qed.

Lemma queue_front d p : queue_inv d p -> (p < length (threads d))%nat ->
  exists w, writers_ d = p :: seq (S p) (length (threads d) - S p) /\ threads d !! p = Some w
    /\ w_returned w = None /\ w_done w = false.
Proof.
  intros Hq Hl. destruct (lookup_lt_is_Some_2 (threads d) p Hl) as [w Hw]. exists w. split; [|split; [done|]].
  - rewrite (i_queue _ _ Hq). by replace (length (threads d) - p)%nat with (S (length (threads d) - S p)) by lia.
  - by apply (i_waits _ _ Hq p).
Qed.

Lemma front_is d p i : queue_inv d p -> at_front d i = true <-> i = p /\ (p < length (threads d))%nat.
Proof.
  intros Hq. unfold at_front. rewrite bool_decide_eq_true, (i_queue _ _ Hq).
  destruct (length (threads d) - p)%nat eqn:E; cbn; split; [done|lia|intros [= ->]; lia|intros [-> _]; done].
Qed.

(** The threads, and perhaps the phase, have changed, for the same queue. *)
Lemma queue_same d d' p : queue_inv d p -> writers_ d' = writers_ d -> length (threads d') = length (threads d) ->
  (forall i w', threads d' !! i = Some w' -> exists w, threads d !! i = Some w
    /\ ((i < p)%nat -> w_returned w <> None \/ (w_done w = true /\ w_awake w = true) ->
        w_returned w' <> None \/ (w_done w' = true /\ w_awake w' = true))
    /\ ((p <= i)%nat -> w_returned w = None /\ w_done w = false -> w_returned w' = None /\ w_done w' = false)
    /\ (i = p -> phase d' = None -> phase d = None /\ (w_awake w = true -> w_awake w' = true))) ->
  queue_inv d' p.
Proof.
  intros [H1' H2' H3' H4' H5'] Ew El HR. split.
  - lia.
  - by rewrite Ew, El.
  - intros i w' Hi Hw'. destruct (HR _ _ Hw') as (w & Hw & R1 & _). by eapply R1, H3'.
  - intros i w' Hi Hw'. destruct (HR _ _ Hw') as (w & Hw & _ & R2 & _). by eapply R2, H4'.
  - intros Hph w' Hw'. destruct (HR _ _ Hw') as (w & Hw & _ & _ & R3). destruct (R3 eq_refl Hph) as [Hph0 R]. by apply R, H5'.
Qed.

Lemma queue_phase d d' p : queue_inv d p -> writers_ d' = writers_ d -> threads d' = threads d ->
  (phase d' = None -> phase d = None) -> queue_inv d' p.
Proof.
  intros Hq Ew Et Hph. apply (queue_same d); [done|done|by rewrite Et|]. intros i w. rewrite Et. intros Hw. exists w. tauto.
Qed.

Lemma used_alike d d' : well_used d -> Forall2 alike (threads d) (threads d') -> well_used d'.
Proof.
  intros [Hm Hn] HF. split; [|by destruct (alike_lists _ _ HF) as [<- _]]. clear Hn. revert Hm.
  induction HF as [|w w' ts ts' (E & _) _ IH]; [done|]. intros [Hw Hts]%list.Forall_cons. constructor; [by rewrite <- E|by apply IH].
Qed.

Lemma inv_new d : new_DBImpl [] = Ret d -> inv d 0.
Proof.
  unfold new_DBImpl. destruct log_new as (l & -> & Hl). cbn [mbind res_bind]. intros [= <-]. split.
  - by repeat constructor.
  - by split.
  - done.
  - done.
  - exists [], [], [], []. split; cbn; try done.
    destruct new_represents as [Ho (L & es & Hp & Hm)]. split; [done|]. exists L, es. split; [done|].
    destruct Hm. by split.
Qed.

Lemma inv_enter d p b sync : inv d p -> well_used (Write_enter d b sync) -> inv (Write_enter d b sync) p.
Proof.
  intros Hi Hus. pose proof (i_served _ _ Hi) as Hq. destruct (Hq) as [Hle Hw Hgone Hwaits Hfront].
  unfold Write_enter in *. set (w := mkDbWriter _ _ _ _ _ _) in *.
  assert (bool_decide (writers_ d = []) = bool_decide (p = length (threads d))) as Ef.
  { apply bool_decide_ext. rewrite Hw. destruct (length (threads d) - p)%nat eqn:E; cbn; split; (done || lia). }
  assert (forall i w', (threads d ++ [w]) !! i = Some w' -> threads d !! i = Some w' \/ (i = length (threads d) /\ w' = w)) as Hlook.
  { intros i w' [Hw'|[Hl Hw']]%lookup_app_Some; [by left|]. right.
    apply list_lookup_singleton_Some in Hw' as [Hz <-]. split; [lia|done]. }
  apply (inv_grown d); cbn; try done; try (by left).
  - exists (threads d), [w]. split; [done|]. split; [apply alike_refl|]. by repeat constructor.
  - split; cbn.
    + rewrite length_app. lia.
    + rewrite Hw, length_app. cbn. replace (length (threads d) + 1 - p)%nat with (length (threads d) - p + 1)%nat by lia.
      rewrite seq_app. cbn. do 2 f_equal. lia.
    + intros i w' Hl Hw'. destruct (Hlook _ _ Hw') as [Hw0|[-> ->]]; [by eapply Hgone|lia].
    + intros i w' Hl Hw'. destruct (Hlook _ _ Hw') as [Hw0|[-> ->]]; [by eapply Hwaits|done].
    + rewrite Ef. destruct (bool_decide_reflect (p = length (threads d))) as [Hp|Hp]; [discriminate|]. intros Hph w' Hw'.
      destruct (Hlook _ _ Hw') as [Hw0|[-> ->]]; [by eapply Hfront|done].
  - rewrite Ef. destruct (bool_decide_reflect (p = length (threads d))) as [Hp|Hp]; [|by left]. right. split.
    + unfold early. pose proof (i_phase _ _ Hi) as Hph. unfold phase_inv, is_group in Hph.
      destruct (phase d) as [[]|]; try done; destruct Hph as [[]]; lia.
    + unfold start_phase. eexists _, _. split; [done|]. rewrite length_app. cbn. lia.
  - unfold sound. cbn. rewrite Ef. destruct (bool_decide_reflect (p = length (threads d))) as [Hp|Hp]; [|done]. pose proof (i_phase _ _ Hi) as Hph.
    unfold phase_inv, is_group in Hph. destruct (phase d) as [[]|]; cbn; try done; destruct Hph as [[]]; lia.
Qed.

Lemma alike_awake w b : alike w (set_awake w b).
Proof. by split_and!. Qed.

(** A step that changes one writer of a waiting thread. *)
Lemma inv_thread d p i w w' : inv d p -> threads d !! i = Some w -> alike w w' ->
  ((i < p)%nat -> w_returned w <> None \/ (w_done w = true /\ w_awake w = true) ->
    w_returned w' <> None \/ (w_done w' = true /\ w_awake w' = true)) ->
  ((p <= i)%nat -> w_returned w = None /\ w_done w = false -> w_returned w' = None /\ w_done w' = false) ->
  (i = p -> phase d = None -> w_awake w' = true) ->
  inv (with_threads d (<[i := w']> (threads d))) p.
Proof.
  intros Hi Hw Ha R1 R2 R3. apply (inv_grown d); try done; try (by left).
  - apply (used_alike d); [apply (i_used _ _ Hi)|]. by apply (alike_insert _ _ w).
  - apply grown_alike. by apply (alike_insert _ _ w).
  - apply (queue_same d); [apply (i_served _ _ Hi)|done|cbn; by rewrite length_insert|]. cbn. intros j w0.
    destruct (decide (i = j)) as [->|Hne].
    + rewrite list_lookup_insert_eq by (by eapply lookup_lt_Some). intros [= <-]. exists w. tauto.
    + rewrite list_lookup_insert_ne by done. intros Hw0. exists w0. tauto.
Qed.

Lemma inv_wake d p i w : inv d p -> waiting d i w -> w_awake w = true -> inv (Write_wake d i w) p.
Proof.
  intros Hi (Hw & Hr & Hnot) Haw. pose proof (i_served _ _ Hi) as Hq. unfold Write_wake.
  destruct (w_done w) eqn:Ed; [|destruct (at_front d i) eqn:Ef].
  - apply (inv_thread _ _ _ w); try done.
    + split_and!; try done. unfold result. cbn. by rewrite Hr, Ed.
    + by left.
    + intros Hpi. destruct (i_waits _ _ Hq _ _ Hpi Hw). congruence.
  - assert (phase d = None) as Hph by (destruct (phase d); [by destruct Hnot|done]).
    apply (front_is _ p) in Ef as [-> Hl]; [|done].
    apply (inv_grown d); try done; try (by left).
    + by destruct Hi.
    + apply grown_alike, alike_refl.
    + by apply (queue_phase d).
    + right. unfold early. rewrite Hph. split; [done|]. by eexists _, _.
    + unfold sound. by rewrite Hph.
  - apply (inv_thread _ _ _ w); [done|done|apply alike_awake| |done|].
    + intros _ [?|[? _]]; congruence.
    + intros -> _. assert (at_front d p = true); [|congruence]. apply (front_is _ p); [done|].
      split; [done|]. by eapply lookup_lt_Some.
Qed.

Lemma inv_spurious d p i w : inv d p -> waiting d i w -> inv (with_threads d (<[i := set_awake w true]> (threads d))) p.
Proof. intros Hi (Hw & Hr & Hnot). apply (inv_thread _ _ _ w); try done; tauto. Qed.

Lemma inv_compacted d p m : inv d p -> imm_ d = Some m -> inv (compacted d m) p.
Proof.
  intros [Hus Hq Hp Hs (old & imm & gs & rest & [Hsp Ht Hm Hi Hl Hg Hr])] Himm. rewrite Himm in Hi.
  split; [done|by apply (queue_phase d)|exact Hp|exact Hs|]. exists (old ++ [imm]), [], gs, rest. split; try done.
  - rewrite concat_app. cbn [concat app]. rewrite app_nil_r, <- app_assoc. exact Hsp.
  - apply Forall2_app; [done|]. by constructor.
Qed.

Lemma inv_background d p s : inv d p -> inv (with_bg_error d (RecordBackgroundError (bg_error_ d) s)) p.
Proof.
  intros Hi. apply (inv_grown d); try done; try (by left); [by destruct Hi|apply grown_alike, alike_refl| |].
  - by apply (queue_phase d); [apply (i_served _ _ Hi)|..].
  - unfold sound, RecordBackgroundError. cbn. destruct (phase d) as [[]|]; destruct (bg_error_ d); cbn; tauto.
Qed.

(** *** Making room *)

Lemma group_bound d p last : queue_inv d p -> (p <= last < length (threads d))%nat ->
  (length (committed (threads d)) + length (all_ops (group (threads d) p last)) <= length (all_ops (threads d)))%nat.
Proof.
  intros Hq Hl. destruct (pop_loop_spec (threads d) p (length (threads d)) last Status.OK Hl) as (ts' & _ & El & Hat).
  destruct (committed_served (threads d) ts' p last Status.OK) as [Ec Ea]; [done|done| | |].
  - intros i w Hi Hw. destruct (i_waits _ _ Hq _ _ Hi Hw) as [E1 E2]. unfold result. by rewrite E1, E2.
  - intros i w w' Hw Hw'. rewrite Hat, Hw in Hw'. cbn [fmap option_fmap option_map] in Hw'. injection Hw' as <-.
    pose proof (lookup_lt_Some _ _ _ Hw). destruct (decide (p <= i <= last)%nat) as [Hi|Hi].
    + destruct (i_waits _ _ Hq i _ ltac:(lia) Hw) as [E1 E2]. rewrite (decide_True (P := _ /\ _)) by (split; lia).
      unfold served, result. rewrite decide_True by done. cbn. by rewrite E1.
    + rewrite (decide_False (P := (p <= i <= last)%nat /\ i <> length (threads d))) by tauto. unfold served. by rewrite decide_False.
  - pose proof (committed_incl ts') as Hc. rewrite Ec, Ea, length_app in Hc. exact Hc.
Qed.

Lemma inv_switch d p a f : inv d p -> phase d = Some (PRoom a f) -> imm_ d = None -> exists d', switch_memtable [] d a = Ret d' /\ inv d' p
  /\ threads d' = threads d /\ writers_ d' = writers_ d /\ phase d' = Some (PRoom a false) /\ imm_ d' = Some (mem_ d).
Proof.
  intros [Hus Hq Hp Hs (old & imm & gs & rest & [Hsp Ht Hm Hi Hl Hg Hr])] Hph Himm. rewrite Himm in Hi. subst imm. unfold switch_memtable.
  destruct log_new as (l & -> & Hl'). cbn [mbind res_bind]. eexists. split; [done|]. split; [|done]. split.
  - done.
  - by apply (queue_phase d).
  - unfold phase_inv in *. rewrite Hph in Hp. exact Hp.
  - unfold seq_inv, sound in *. rewrite Hph in Hs. exact Hs.
  - exists old, (group_writes gs), [], []. split; cbn; try done.
    + unfold history, pending in *. rewrite Hph, app_nil_r in Hsp. unfold group_writes in *. cbn in *. by rewrite !app_nil_r.
    + destruct new_represents as [Ho (L & es & Hpe & Hme)]. split; [done|]. exists L, es. split; [done|]. by destruct Hme.
Qed.

(** A call that writes nothing goes on to its end. *)
Lemma inv_nothing d p a f w s : inv d p -> phase d = Some (PRoom a f) -> threads d !! p = Some w ->
  (Status.ok s = true -> w_batch w = None) -> inv (with_phase d (Some (PFinish false p (last_sequence_ d) s false))) p.
Proof.
  intros [Hus Hq Hp Hs (old & imm & gs & rest & Hh)] Hph Hw Hb.
  unfold phase_inv, seq_inv in *. rewrite Hph in Hp, Hs. destruct Hp as [Hl Ht].
  assert (sound (with_phase d (Some (PFinish false p (last_sequence_ d) s false))) -> sound d) as Hso.
  { unfold sound. rewrite Hph. cbn. tauto. }
  assert (history (with_phase d (Some (PFinish false p (last_sequence_ d) s false))) p = history d p) as Eh.
  { unfold history, pending. rewrite Hph. cbn. destruct (Status.ok s); [|done].
    rewrite (group_first _ _ _ Hw). unfold all_ops. cbn. by rewrite writer_ops_none by auto. }
  split.
  - done.
  - by apply (queue_phase d).
  - unfold phase_inv. cbn [phase with_phase]. split; [|split; [done|]].
    + split; [cbn; lia|]. split; [|done]. cbn. intros w' Hw' E. rewrite (group_first _ _ _ Hw').  by repeat constructor.
    + rewrite Eh. unfold history, pending. rewrite Hph, app_nil_r. auto.
  - done.
  - exists old, imm, gs, rest. apply (holds_same d _ p); auto.
Qed.

Lemma inv_begin d p a f w b : inv d p -> Status.ok (bg_error_ d) = true -> phase d = Some (PRoom a f) ->
  threads d !! p = Some w -> w_batch w = Some b -> exists d', begin_group d p w b = Ret d' /\ inv d' p
  /\ exists tmp last q, phase d' = Some (PApply tmp last q) /\ writers_ d' = writers_ d /\ imm_ d' = imm_ d
  /\ length (threads d') = length (threads d)
  /\ forall i w', threads d' !! i = Some w' -> exists w, threads d !! i = Some w /\ w_awake w = w_awake w' /\ w_returned w = w_returned w'.
Proof.
  intros [[Hm Hn] Hq Hp Hs (old & imm & gs & rest & Hh)] Hok Hph Hw Hb.
  unfold phase_inv, seq_inv, sound in Hp, Hs. rewrite Hph in Hp, Hs. destruct Hp as [Hl Ht]. specialize (Hs Hok).
  destruct (made_at _ _ _ _ Hm Hw Hb) as (seq0 & os0 & -> & Hs0 & Hl0).
  destruct (queue_front _ _ Hq Hl) as (w0 & Ewr & Hw0 & _). simplify_eq.
  pose proof (writer_ops_batch _ _ _ Hb Hs0 Hl0) as Eo. pose proof (ByteSize_batch seq0 os0) as Hsz.
  assert (all_ops (group (threads d) p p) = os0) as Eg.
  { rewrite (group_first _ _ _ Hw). unfold all_ops. cbn. by rewrite app_nil_r. }
  unfold begin_group, BuildBatchGroup. rewrite Ewr, Ht.
  destruct (group_loop_spec (threads d) p w seq0 os0 Hm Hw Hb Hs0 Hl0 (length (threads d) - S p) p false Clear
    (Z.of_nat (ByteSize (batch seq0 os0))) (max_group_size (Z.of_nat (ByteSize (batch seq0 os0)))))
    as (tmp & tb & last & -> & Hlast & Hsync & Hres); [lia|lia| |rewrite Eg; lia| |done|].
  { unfold max_group_size. change (Z.shiftl 128 10) with 131072. change (Z.shiftl 1 20) with (2^20). case_decide; lia. }
  { rewrite (group_first _ _ _ Hw). by repeat constructor. }
  pose proof (group_bound d p last Hq ltac:(lia)) as Hbound.
  set (os := all_ops (group (threads d) p last)) in *.
  assert (Z.of_nat (length os) < 2^31) as Hos by (destruct tmp; [tauto|destruct Hres as [_ ->]; done]).
  assert ((if tmp then tb else batch seq0 os0) = batch (if tmp then 0 else seq0) os) as Eb
    by (destruct tmp; [tauto|by destruct Hres as [_ ->]]).
  unfold kMaxSequenceNumber in Hn. change (Z.shiftl 1 56) with (2^56) in Hn.
  cbn [mbind res_bind]. rewrite Eb, batch_SetSequence. cbn [mbind res_bind]. rewrite batch_Count by done. cbn [mbind res_bind].
  rewrite !u64_small by lia. eexists. split; [done|].
  set (ts1 := if tmp then threads d else _).
  assert (length ts1 = length (threads d)) as El by (unfold ts1; destruct tmp; by rewrite ?length_insert).
  assert (forall i w', ts1 !! i = Some w' -> exists w1, threads d !! i = Some w1 /\ w_sync w' = w_sync w1 /\ result w' = result w1
    /\ writer_ops w' = writer_ops w1 /\ w_awake w1 = w_awake w' /\ w_returned w1 = w_returned w' /\ w_done w1 = w_done w') as Hat.
  { intros i w' Hi. unfold ts1 in Hi. destruct tmp; [by exists w'|]. destruct Hres as [_ Eos]. destruct (decide (p = i)) as [<-|Hne].
    - rewrite list_lookup_insert_eq in Hi by done. injection Hi as <-. exists w. split_and!; try done.
      rewrite Eo. erewrite writer_ops_batch; [|done|by rewrite Eos|done]. done.
    - rewrite list_lookup_insert_ne in Hi by done. by exists w'. }
  assert (forall n m, all_ops (take m (drop n ts1)) = all_ops (take m (drop n (threads d)))
    /\ committed (take m (drop n ts1)) = committed (take m (drop n (threads d)))
    /\ (Forall (fun w' => w_sync w' = false) (take m (drop n (threads d))) -> Forall (fun w' => w_sync w' = false) (take m (drop n ts1))))
    as Hseg.
  { intros n m. assert (Forall2 (fun w1 w' => w_sync w' = w_sync w1 /\ result w' = result w1 /\ writer_ops w' = writer_ops w1)
      (take m (drop n (threads d))) (take m (drop n ts1))) as HF.
    { apply Forall2_segment; [done|]. intros i w1 w' _ Hw1 Hw'. destruct (Hat _ _ Hw') as (w2 & Hw2 & ?). simplify_eq. tauto. }
    clear -HF. induction HF as [|w1 w' l l' (E1 & E2 & E3) _ (IH1 & IH2 & IH3)]; [done|].
    unfold all_ops, committed, succeeded in *. cbn. rewrite E2, E3, IH1, IH2. split; [done|]. split; [done|].
    intros [Ha Hl]%list.Forall_cons. constructor; [congruence|auto]. }
  assert (committed ts1 = committed (threads d)) as Ec.
  { destruct (Hseg 0%nat (length (threads d))) as (_ & Ec & _). rewrite !drop_0, !take_ge in Ec by lia. done. }
  split; [|eexists _, _, _; split_and!; cbn; try done].
  2:{ intros i w' Hi. destruct (Hat _ _ Hi) as (w1 & Hw1 & Hrest). exists w1. tauto. }
  split.
  - destruct (Hseg 0%nat (length (threads d))) as (Ea & _). rewrite !drop_0, !take_ge in Ea by lia.
    split; [|cbn -[all_ops]; by rewrite Ea]. cbn. unfold ts1. destruct tmp; [done|]. apply Forall_insert; [done|].
    intros b [= <-]. exists (last_sequence_ d + 1), os. destruct Hres as [_ ->]. done.
  - apply (queue_same d); [done|done|done|]. cbn. intros i w' Hi. destruct (Hat _ _ Hi) as (w1 & Hw1 & _ & _ & _ & E1 & E2 & E3).
    exists w1. rewrite <- E1, <- E2, <- E3. cbn. split_and!; done.
  - unfold phase_inv. cbn. assert (group ts1 p last = take (S last - p) (drop p ts1)) as Egr by done.
    destruct (Hseg p (S last - p)%nat) as (Ea & _ & Hsy). fold (group ts1 p last) (group (threads d) p last) in Ea, Hsy.
    rewrite Ea. fold os. split; [|split; [|by rewrite Hs]].
    + split; [cbn; lia|]. split; [|by intros ->; destruct Hres]. cbn. intros w' Hw' Hns. apply Hsy, Hsync.
      destruct (Hat _ _ Hw') as (w1 & Hw1 & Es & _). simplify_eq. congruence.
    + unfold updates. cbn. destruct tmp; [done|]. unfold ts1. by rewrite list_lookup_insert_eq.
  - unfold seq_inv. cbn -[committed]. by rewrite Ec.
  - exists old, imm, gs, rest. apply (holds_same d _ p); try done; try (by left).
    + unfold history, pending. cbn -[committed]. by rewrite Hph, Ec.
    + intros _. unfold sound. by rewrite Hph.
Qed.

(** *** Logging and applying *)

Lemma group_writes_snoc gs g : group_writes (gs ++ [g]) = group_writes gs ++ writes_of g.1 g.2.
Proof. unfold group_writes. rewrite map_app, concat_app. cbn. by rewrite app_nil_r. Qed.

Lemma history_before os old imm new : writes_of 1 os = old ++ imm ++ new ->
  Forall (fun x : write => sequence (fst x) < Z.of_nat (length os) + 1) new.
Proof.
  intros E. pose proof (writes_of_sequence 1 os) as HF. rewrite E in HF. apply Forall_app in HF as [_ [_ HF]%Forall_app].
  eapply list.Forall_impl; [exact HF|]. cbn. lia.
Qed.

Lemma inv_apply d p tmp last q ss : inv d p -> phase d = Some (PApply tmp last q) ->
  exists d' s e, Write_apply d tmp last q ss = Ret d' /\ inv d' p /\ phase d' = Some (PFinish tmp last q s e)
  /\ threads d' = threads d /\ writers_ d' = writers_ d /\ imm_ d' = imm_ d.
Proof.
  intros [[Hmade Hn] Hq Hp Hs (old & imm & gs & rest & [Hsp Ht Hm Hi Hlog Hg Hr])] Hph.
  unfold phase_inv, seq_inv, sound in Hp, Hs, Hr. rewrite Hph in Hp, Hs, Hr.
  destruct Hp as (Hgr & Hu & Hos & ->). specialize (Hs I). rewrite (Hr I), app_nil_r in Hlog.
  pose proof Hgr as (Hl & Hsync & Htmp). destruct (queue_front _ _ Hq ltac:(lia)) as (w & Ewr & Hw & _).
  pose proof (group_bound d p last Hq Hl) as Hbound. set (os := all_ops (group (threads d) p last)) in *.
  assert (Forall small_op os) as Hsmall by by apply all_ops_small, made_group.
  unfold history, pending in Hsp. rewrite Hph, app_nil_r in Hsp.
  unfold Write_apply. rewrite Ewr, Hw. cbn [of_option mbind res_bind].
  assert ((if tmp then Ret (tmp_batch_ d) else of_option (w_batch w)) = Ret (batch (last_sequence_ d + 1) os)) as ->.
  { unfold updates in Hu. destruct tmp; [congruence|]. rewrite Hw in Hu. cbn in Hu. by rewrite Hu. }
  cbn [mbind res_bind]. unfold Contents. destruct (log_add _ _ (batch (last_sequence_ d + 1) os) Hlog) as (log & -> & Hlog').
  cbn [mbind res_bind Status.ok andb]. change (Status.ok Status.OK) with true. cbn [andb].
  set (se := if w_sync w then (ss, negb (Status.ok ss)) else (Status.OK, false)).
  assert (exists s e, se = (s, e) /\ e = negb (Status.ok s)) as (s & e & -> & He).
  { unfold se. destruct (w_sync w); [by exists ss, (negb (Status.ok ss))|by exists Status.OK, false]. }
  destruct (InsertInto_batch os (last_sequence_ d + 1) (mem_ d) (group_writes gs) Hm Hsmall) as (mem & Eins & Hmem);
    [lia|lia|done| |].
  { rewrite Hs. by eapply history_before. }
  assert (forall ph m l, queue_inv (mkDBImpl (threads d) (p :: seq (S p) (length (threads d) - S p)) (Some ph) m (imm_ d) l
    (tmp_batch_ d) (last_sequence_ d) (bg_error_ d) (tables_ d)) p) as Hq' by (intros; by apply (queue_phase d)).
  destruct (Status.ok s) eqn:Es.
  - rewrite Eins. cbn [mbind res_bind WriteBatch.mem_]. cbn [negb] in He. subst e. eexists _, Status.OK, false. split; [done|]. split; [|done].
    assert (writes_of 1 (committed (threads d) ++ os) = concat old ++ imm ++ group_writes (gs ++ [(last_sequence_ d + 1, os)])) as Hsp'.
    { rewrite writes_of_app, Hsp, group_writes_snoc, <- !app_assoc, Hs. cbn [fst snd]. do 3 f_equal. f_equal. lia. }
    split; [done|apply Hq'| |done|].
    + unfold phase_inv. cbn [phase]. split; [done|]. split; [done|]. intros _. unfold history, pending. cbn [phase threads].
      change (Status.ok Status.OK) with true. cbv iota. fold os. rewrite length_app, Nat2Z.inj_add. by rewrite Hs.
    + exists old, imm, (gs ++ [(last_sequence_ d + 1, os)]), []. split; try done.
      * by rewrite group_writes_snoc.
      * unfold batches. by rewrite map_app, app_nil_r.
      * apply Forall_app. split; [done|]. constructor; [|constructor]. split_and!; cbn [fst snd]; (done || lia).
  - cbn [mbind res_bind]. cbn [negb] in He. subst e. eexists _, s, true. split; [done|]. split; [|done].
    assert (~ sound (mkDBImpl (threads d) (writers_ d) (Some (PFinish tmp last (last_sequence_ d + Z.of_nat (length os)) s true))
      (mem_ d) (imm_ d) log (tmp_batch_ d) (last_sequence_ d) (bg_error_ d) (tables_ d))) as Hns by (unfold sound; cbn; intros [_ ?]; done).
    split; [done|apply Hq'| |done|].
    + unfold phase_inv. cbn [phase]. split; [done|]. split; [done|]. done.
    + exists old, imm, gs, [batch (last_sequence_ d + 1) os]. split; try done.
      unfold history, pending. cbn [phase threads]. by rewrite Es, app_nil_r.
Qed.

(** *** The end of a write *)

(** What the end of a group's write does to the writer at [i]. *)
Definition finished (p last : nat) (s : Status.t) (i : nat) (w w' : DbWriter) : Prop :=
  w_batch w' = w_batch w /\ w_sync w' = w_sync w
  /\ w_returned w' = (if decide (i = p) then Some s else w_returned w)
  /\ w_done w' = (if decide (p < i <= last)%nat then true else w_done w)
  /\ w_awake w' = (if decide (p < i <= S last)%nat then true else w_awake w)
  /\ w_status w' = (if decide (p < i <= last)%nat then s else w_status w).

Lemma notify_front_at ts j n : length (notify_front ts (seq j n)) = length ts
  /\ forall i, (j + n = length ts)%nat ->
    notify_front ts (seq j n) !! i = (fun w => if decide (i = j) then set_awake w true else w) <$> ts !! i.
Proof.
  unfold notify_front. destruct n as [|n]; cbn [seq]; split; [done| |apply length_alter|]; intros i Hn.
  - destruct (ts !! i) eqn:E1; [|done]. cbn [fmap option_fmap option_map]. apply lookup_lt_Some in E1.
    rewrite decide_False by lia. done.
  - destruct (decide (i = j)) as [->|Hne]; [apply list_lookup_alter_eq|].
    rewrite list_lookup_alter_ne by done. by destruct (ts !! i).
Qed.

Lemma finish_threads ts p last s : (p <= last < length ts)%nat -> exists ts1 queue,
  pop_loop ts (seq p (length ts - p)) p last s = Ret (ts1, queue) /\ queue = seq (S last) (length ts - S last)
  /\ let ts' := alter (fun w => set_returned w s) p (notify_front ts1 queue) in
     length ts' = length ts /\ forall i w, ts !! i = Some w -> exists w', ts' !! i = Some w' /\ finished p last s i w w'.
Proof.
  intros Hl. destruct (pop_loop_spec ts p p last s Hl) as (ts1 & Epop & El1 & Hat1).
  exists ts1, (seq (S last) (length ts - S last)). split; [done|]. split; [done|].
  destruct (notify_front_at ts1 (S last) (length ts - S last)) as [El2 Hat2].
  cbn zeta. split; [by rewrite length_alter, El2|]. intros i w0 Hi. unfold finished. destruct (decide (i = p)) as [->|Hne].
  - rewrite list_lookup_alter_eq, Hat2, Hat1, Hi by lia. cbn [fmap option_fmap option_map]. eexists. split; [done|].
    rewrite (decide_False (P := p = S last)), (decide_False (P := (p <= p <= last)%nat /\ p <> p)) by lia.
    rewrite !(decide_False (P := (p < p <= _)%nat)) by lia. done.
  - rewrite list_lookup_alter_ne, Hat2, Hat1, Hi by (done || lia). cbn [fmap option_fmap option_map]. eexists. split; [done|].
    destruct (decide (p < i <= last)%nat) as [Hin|Hout].
    + rewrite (decide_False (P := i = S last)), (decide_True (P := (p <= i <= last)%nat /\ i <> p)) by lia.
      rewrite (decide_True (P := (p < i <= S last)%nat)) by lia. done.
    + rewrite (decide_False (P := (p <= i <= last)%nat /\ i <> p)) by lia. destruct (decide (i = S last)) as [->|Hn].
      * rewrite (decide_True (P := (p < S last <= S last)%nat)) by lia. done.
      * rewrite (decide_False (P := (p < i <= S last)%nat)) by lia. done.
Qed.

Lemma finished_served p last s i w w' : (p <= last)%nat -> finished p last s i w w' -> ((p <= i)%nat -> w_returned w = None) -> served p last s i w w'.
Proof.
  intros Hpl (Eb & Es & Er & Ed & _ & Est) Hw. split; [done|]. split; [done|]. unfold result. rewrite Er, Ed.
  destruct (decide (p <= i <= last)%nat) as [Hin|Hout].
  - destruct (decide (i = p)) as [->|Hne]; [done|]. rewrite Hw by lia.
    rewrite decide_True in Est by lia. rewrite decide_True by lia. by rewrite Est.
  - rewrite (decide_False (P := i = p)) by lia. rewrite decide_False in Est by lia. rewrite decide_False by lia. by rewrite Est.
Qed.

Lemma queue_finished d d' p last s : queue_inv d p -> (p <= last < length (threads d))%nat ->
  length (threads d') = length (threads d) -> writers_ d' = seq (S last) (length (threads d) - S last) ->
  (forall i w, threads d !! i = Some w -> exists w', threads d' !! i = Some w' /\ finished p last s i w w') -> queue_inv d' (S last).
Proof.
  intros Hq Hl El Ew Hat.
  assert (forall i w', threads d' !! i = Some w' -> exists w, threads d !! i = Some w /\ finished p last s i w w') as Hback.
  { intros i w' Hi. destruct (lookup_lt_is_Some_2 (threads d) i) as [w Hw]; [rewrite <- El; by eapply lookup_lt_Some|].
    destruct (Hat _ _ Hw) as (w1 & Hw1 & HR). simplify_eq. by exists w. }
  split.
  - lia.
  - by rewrite El.
  - intros i w' Hi Hw'. destruct (Hback _ _ Hw') as (w0 & Hw0 & _ & _ & Er & Ed & Eaw & _).
    rewrite Er, Ed, Eaw. destruct (decide (i = p)) as [->|Hne]; [by left|]. destruct (decide (i < p)%nat) as [Hip|Hip].
    + rewrite !(decide_False (P := (p < i <= _)%nat)) by lia. by apply (i_gone _ _ Hq i).
    + rewrite !(decide_True (P := (p < i <= _)%nat)) by lia. by right.
  - intros i w' Hi Hw'. destruct (Hback _ _ Hw') as (w0 & Hw0 & _ & _ & Er & Ed & _).
    rewrite Er, Ed, (decide_False (P := i = p)), (decide_False (P := (p < i <= last)%nat)) by lia.
    apply (i_waits _ _ Hq i); (done || lia).
  - intros _ w' Hw'. destruct (Hback _ _ Hw') as (w0 & _ & _ & _ & _ & _ & Eaw & _). by rewrite Eaw, decide_True by lia.
Qed.

Lemma inv_finish d p tmp last q s e : inv d p -> phase d = Some (PFinish tmp last q s e) ->
  exists d', Write_finish d tmp last q s e = Ret d' /\ inv d' (S last) /\ phase d' = None /\ imm_ d' = imm_ d
  /\ (p <= last < length (threads d))%nat /\ length (threads d') = length (threads d)
  /\ forall i w, threads d !! i = Some w -> exists w', threads d' !! i = Some w' /\ finished p last s i w w'.
Proof.
  intros [[Hmade Hnum] Hq Hp Hs (old & imm & gs & rest & Hh)] Hph.
  unfold phase_inv in Hp. rewrite Hph in Hp. destruct Hp as (Hgr & He & Hseq). pose proof Hgr as (Hl & Hsync & Htmp).
  destruct (queue_front _ _ Hq ltac:(lia)) as (w & Ewr & _).
  unfold Write_finish. destruct (finish_threads (threads d) p last s Hl) as (ts1 & queue & Epop & Equ & El3 & Hat3).
  rewrite <- (i_queue _ _ Hq), Ewr in Epop. rewrite Ewr, Epop. cbn [mbind res_bind].
  eexists. split; [done|]. set (ts3 := alter _ p _) in *. set (d' := mkDBImpl _ _ _ _ _ _ _ _ _ _).
  assert (committed ts3 = history d p /\ all_ops ts3 = all_ops (threads d)) as [Ec Ea].
  { unfold history, pending. rewrite Hph. apply (committed_served _ _ p last s); [done|done| |].
    - intros i w0 Hi Hw0. destruct (i_waits _ _ Hq _ _ Hi Hw0) as [E1 E2]. unfold result. by rewrite E1, E2.
    - intros i w0 w' Hi Hi'. destruct (Hat3 _ _ Hi) as (w1 & Hw1 & HR). simplify_eq.
      apply finished_served; [lia|done|]. intros Hip. by destruct (i_waits _ _ Hq i _ Hip Hi). }
  assert (sound d' -> sound d) as Hso.
  { unfold sound, d'. rewrite Hph. cbn. unfold RecordBackgroundError. destruct e; [|done].
    specialize (He eq_refl). destruct (Status.ok (bg_error_ d)) eqn:E; rewrite ?E; congruence. }
  split; [|split; [done|]; split; [done|]; split; [done|]; split; [exact El3|exact Hat3]]. split.
  - split; [|cbn -[all_ops]; by rewrite Ea]. apply Forall_forall. intros w' [i Hi]%list_elem_of_In%list_elem_of_lookup b Hb.
    destruct (lookup_lt_is_Some_2 (threads d) i) as [w0 Hw0]; [rewrite <- El3; by eapply lookup_lt_Some|].
    destruct (Hat3 _ _ Hw0) as (w1 & Hw1 & Eb & _). cbn in Hi. simplify_eq. apply (made_at (threads d) i w0); [done|done|congruence].
  - by apply (queue_finished d _ p last s).
  - unfold phase_inv. cbn. destruct tmp; [done|]. by apply Htmp.
  - unfold seq_inv. cbn [phase d' last_sequence_ threads]. intros Hsd. rewrite Ec. apply Hseq, Hso, Hsd.
  - exists old, imm, gs, rest. apply (holds_same d _ p); try done; try (by left). unfold history at 1, pending. cbn [phase d' threads].
    by rewrite app_nil_r.
Qed.

(** *** Every step *)

Lemma room_switch (d : DB) a f v : room_round write_buffer_size d a f v = RSwitch -> imm_ d = None.
Proof.
  unfold room_round. destruct (imm_ d) as [m|]; [|done]. rewrite (bool_decide_eq_true_2 (is_Some (Some m))) by done.
  repeat case_match; done.
Qed.

Lemma inv_room d p a f v : inv d p -> phase d = Some (PRoom a f) -> exists d', Write_room write_buffer_size [] d a f v = Ret d'
  /\ inv d' p.
Proof.
  intros Hi Hph. pose proof (i_phase _ _ Hi) as Hp. unfold phase_inv in Hp. rewrite Hph in Hp. destruct Hp as [Hl _].
  destruct (queue_front _ _ (i_served _ _ Hi) Hl) as (w & Ewr & Hw & _). unfold Write_room. rewrite Ewr, Hw. cbn [of_option mbind res_bind].
  destruct (room_round _ d a f v) as [s| | |] eqn:Er.
  - destruct (w_batch w) as [b|] eqn:Eb; [destruct (Status.ok s) eqn:Es|].
    + assert (Status.ok (bg_error_ d) = true) as Hok.
      { unfold room_round in Er. destruct (Status.ok (bg_error_ d)) eqn:E; [done|]. cbn in Er. congruence. }
      destruct (inv_begin _ _ _ _ _ _ Hi Hok Hph Hw Eb) as (d' & -> & Hi' & _). by exists d'.
    + eexists. split; [done|]. eapply inv_nothing; try done. congruence.
    + eexists. split; [done|]. by eapply inv_nothing.
  - eexists. split; [done|]. apply (inv_grown d); try done; try (by left); [by destruct Hi|apply grown_alike, alike_refl| | |].
    + by apply (queue_phase d); [apply (i_served _ _ Hi)|..].
    + right. unfold early. rewrite Hph. split; [done|]. by eexists _, _.
    + unfold sound. by rewrite Hph.
  - by exists d.
  - destruct (inv_switch _ _ _ _ Hi Hph (room_switch _ _ _ _ Er)) as (d' & -> & Hi' & _). by exists d'.
Qed.

Lemma inv_step d d' p : inv d p -> db_step d d' -> well_used d' -> exists p', inv d' p'.
Proof.
  intros Hi Hs Hus. destruct Hs as [d b sync|d i w Hwt Haw|d i w Hwt|d a f v d' Hph E|d t l q s d' Hph E|d t l q s e d' Hph E|d m Himm|d s].
  - exists p. by apply inv_enter.
  - exists p. by apply inv_wake.
  - exists p. by apply inv_spurious.
  - exists p. destruct (inv_room _ _ _ _ v Hi Hph) as (d1 & E1 & Hi'). congruence.
  - exists p. destruct (inv_apply _ _ _ _ _ s Hi Hph) as (d1 & s1 & e1 & E1 & Hi' & _). congruence.
  - exists (S l). destruct (inv_finish _ _ _ _ _ _ _ Hi Hph) as (d1 & E1 & Hi' & _). congruence.
  - exists p. by apply inv_compacted.
  - exists p. by apply inv_background.
Qed.

Lemma reachable_inv d : reachable d -> exists p, inv d p.
Proof.
  induction 1 as [d E|d d' _ [p Hi] Hs Hus]; [exists 0%nat; by apply inv_new|]. by eapply inv_step.
Qed.

(** *** Progress *)

(** There is room: few level-0 files, and a memtable that is not full. *)
Definition roomy (v : RoomView) : Prop :=
  level0_files v < config.kL0_SlowdownWritesTrigger /\ memory_usage v <= write_buffer_size.

(** The steps of threads that go on, when the background thread makes room. *)
Inductive runs : DB -> DB -> Prop :=
  | runs_wake d i w : waiting d i w -> w_awake w = true -> runs d (Write_wake d i w)
  | runs_room d a f v d' : phase d = Some (PRoom a f) -> imm_ d = None -> roomy v ->
      Write_room write_buffer_size [] d a f v = Ret d' -> runs d d'
  | runs_apply d t l q s d' : phase d = Some (PApply t l q) -> Write_apply d t l q s = Ret d' -> runs d d'
  | runs_finish d t l q s e d' : phase d = Some (PFinish t l q s e) -> Write_finish d t l q s e = Ret d' -> runs d d'
  | runs_compacted d m : imm_ d = Some m -> runs d (compacted d m).

(** What is left to do. *)
Definition weight (w : DbWriter) : nat :=
  match w_returned w with
  | Some _ => 0
  | None => if w_done w then 2 else if w_awake w then 13 else 12
  end.
Definition phase_weight (ph : option Phase) : nat :=
  match ph with
  | None => 7
  | Some (PRoom a f) => 3 + (if f then 2 else 0) + (if a then 1 else 0)
  | Some (PApply _ _ _) => 2
  | Some (PFinish _ _ _ _ _) => 1
  end.
Definition measure (d : DB) : nat :=
  sum_list_with weight (threads d) + phase_weight (phase d) + (match imm_ d with Some _ => 1 | None => 0 end).

(** Writer [j] may weigh [b] more, and writer [i] weighs [a] less. *)
Lemma weights_change ts ts' i j a b : length ts' = length ts -> (i < length ts)%nat ->
  (forall k w w', ts !! k = Some w -> ts' !! k = Some w' ->
    (weight w' + (if decide (k = i) then a else 0) <= weight w + (if decide (k = j) then b else 0))%nat) ->
  (sum_list_with weight ts' + a <= sum_list_with weight ts + b)%nat.
Proof.
  intros El Hi HR.
  assert (forall i j, (forall k w w', ts !! k = Some w -> ts' !! k = Some w' ->
      (weight w' + (if decide (k = i) then a else 0) <= weight w + (if decide (k = j) then b else 0))%nat) ->
    (sum_list_with weight ts' + (if decide (i < length ts)%nat then a else 0)
      <= sum_list_with weight ts + (if decide (j < length ts)%nat then b else 0))%nat) as Hgen.
  { clear i j Hi HR. revert ts' El. induction ts as [|w ts IH]; intros [|w' ts'] El i j HR; try done.
    cbn [length] in *. pose proof (HR 0%nat w w' eq_refl eq_refl) as H0'. cbn [sum_list_with].
    specialize (IH ts' ltac:(lia) (match i with O => length ts | S i => i end) (match j with O => length ts | S j => j end)).
    assert (forall k w0 w0', ts !! k = Some w0 -> ts' !! k = Some w0' ->
      (weight w0' + (if decide (k = match i with O => length ts | S i => i end) then a else 0)
        <= weight w0 + (if decide (k = match j with O => length ts | S j => j end) then b else 0))%nat) as HR'.
    { intros k w0 w0' Hk Hk'. pose proof (HR (S k) _ _ Hk Hk') as Hb. apply lookup_lt_Some in Hk.
      destruct i, j; repeat case_decide; lia. }
    specialize (IH HR'). destruct i, j; repeat case_decide; lia. }
  specialize (Hgen i j HR). rewrite decide_True in Hgen by done. case_decide; lia.
Qed.

Lemma weights_same ts ts' : length ts' = length ts ->
  (forall k w w', ts !! k = Some w -> ts' !! k = Some w' -> weight w' = weight w) ->
  sum_list_with weight ts' = sum_list_with weight ts.
Proof.
  revert ts'. induction ts as [|w ts IH]; intros [|w' ts'] El HR; try done. cbn in *.
  rewrite (IH ts') by (lia || (intros k w0 w0'; apply (HR (S k)))). by rewrite (HR 0%nat w w').
Qed.

Lemma weight_insert ts i w w' : ts !! i = Some w -> (weight w' < weight w)%nat ->
  (sum_list_with weight (<[i := w']> ts) < sum_list_with weight ts)%nat.
Proof.
  intros Hi Hlt. pose proof (lookup_lt_Some _ _ _ Hi).
  enough (sum_list_with weight (<[i := w']> ts) + 1 <= sum_list_with weight ts + 0)%nat by lia.
  apply (weights_change _ _ i i); [by rewrite length_insert|done|]. intros k w0 w0' Hk Hk'. destruct (decide (k = i)) as [->|Hne].
  - rewrite list_lookup_insert_eq in Hk' by done. simplify_eq. lia.
  - rewrite list_lookup_insert_ne in Hk' by done. simplify_eq. lia.
Qed.

Lemma weight_waits d p i w : queue_inv d p -> (p <= i)%nat -> threads d !! i = Some w -> (12 <= weight w <= 13)%nat.
Proof.
  intros Hq Hi Hw. destruct (i_waits _ _ Hq _ _ Hi Hw) as [E1 E2]. unfold weight. rewrite E1, E2. destruct (w_awake w); lia.
Qed.

Lemma weight_gone d p i w : queue_inv d p -> (i < p)%nat -> threads d !! i = Some w -> (weight w <= 2)%nat.
Proof.
  intros Hq Hi Hw. unfold weight. destruct (i_gone _ _ Hq _ _ Hi Hw) as [E|[E1 E2]].
  - destruct (w_returned w); [lia|done].
  - rewrite E1. destruct (w_returned w); lia.
Qed.

Lemma runs_step d d' : runs d d' -> db_step d d'.
Proof.
  intros Hr. destruct Hr.
  - by constructor.
  - by eapply step_room.
  - by eapply step_apply.
  - by eapply step_finish.
  - by constructor.
Qed.

Lemma room_decreases d p a f v d' : inv d p -> phase d = Some (PRoom a f) -> imm_ d = None -> roomy v ->
  Write_room write_buffer_size [] d a f v = Ret d' -> (measure d' < measure d)%nat.
Proof.
  intros Hi Hph Himm [Hl0 Hmu] E. pose proof (i_phase _ _ Hi) as Hp. unfold phase_inv in Hp. rewrite Hph in Hp. destruct Hp as [Hl _].
  destruct (queue_front _ _ (i_served _ _ Hi) Hl) as (w & Ewr & Hw & Hwr & Hwd).
  unfold Write_room in E. rewrite Ewr, Hw in E. cbn [of_option mbind res_bind] in E.
  unfold measure. rewrite Hph, Himm.
  destruct (room_round _ d a f v) as [s| | |] eqn:Er.
  - destruct (w_batch w) as [b|] eqn:Eb; [destruct (Status.ok s) eqn:Es|]; cycle 1.
    { injection E as <-. cbn [threads phase imm_ with_phase phase_weight]. rewrite Himm. lia. }
    { injection E as <-. cbn [threads phase imm_ with_phase phase_weight]. rewrite Himm. lia. }
    assert (Status.ok (bg_error_ d) = true) as Hok.
    { unfold room_round in Er. destruct (Status.ok (bg_error_ d)) eqn:E'; [done|]. cbn in Er. congruence. }
    destruct (inv_begin _ _ _ _ _ _ Hi Hok Hph Hw Eb) as (d1 & E1 & Hi' & tmp & last & q & Eph & _ & Eimm & Ets & Hat).
    assert (d' = d1) as -> by congruence. rewrite Eph, Eimm, Himm. cbn [phase_weight].
    rewrite (weights_same (threads d) (threads d1)); [lia|done|]. intros k w0 w' Hk Hk'.
    destruct (Hat _ _ Hk') as (w1 & Hw1 & Eaw & Ere). simplify_eq. pose proof Hk' as Hg.
    destruct (decide (p <= k)%nat) as [Hpk|Hpk].
    + destruct (i_waits _ _ (i_served _ _ Hi) _ _ Hpk Hk) as [E3 E4]. destruct (i_waits _ _ (i_served _ _ Hi') _ _ Hpk Hk') as [E5 E6].
      unfold weight. by rewrite E3, E4, E5, E6, Eaw.
    + unfold weight. rewrite Ere. destruct (w_returned w') eqn:E3; [done|].
      destruct (i_gone _ _ (i_served _ _ Hi) k _ ltac:(lia) Hk) as [?|[E4 _]]; [congruence|].
      destruct (i_gone _ _ (i_served _ _ Hi') k _ ltac:(lia) Hk') as [?|[E5 _]]; [congruence|]. by rewrite E4, E5.
  - exfalso. unfold room_round in Er. destruct (Status.ok (bg_error_ d)); [|done]. cbn [negb] in Er.
    assert ((config.kL0_SlowdownWritesTrigger <=? level0_files v) = false) as Elt by lia. rewrite Elt, andb_false_r in Er.
    repeat (match type of Er with context [if ?x then _ else _] => destruct x end; try done).
  - exfalso. unfold room_round in Er. rewrite Himm in Er.
    assert ((config.kL0_StopWritesTrigger <=? level0_files v) = false) as Elt.
    { unfold config.kL0_StopWritesTrigger, config.kL0_SlowdownWritesTrigger in *. lia. }
    rewrite Elt in Er. rewrite (bool_decide_eq_false_2 (is_Some None)) in Er by (by intros [? ?]).
    repeat (match type of Er with context [if ?x then _ else _] => destruct x end; try done).
  - assert (f = true) as ->.
    { unfold room_round in Er. assert ((memory_usage v <=? write_buffer_size) = true) as Ele by lia. rewrite Ele, andb_true_r in Er.
      destruct f; [done|]. cbn [negb] in Er. repeat (match type of Er with context [if ?x then _ else _] => destruct x end; try done). }
    destruct (inv_switch _ _ _ _ Hi Hph Himm) as (d1 & E1 & _ & Ets & _ & Eph & Eimm). assert (d' = d1) as -> by congruence.
    rewrite Ets, Eph, Eimm. cbn [phase_weight]. destruct a; lia.
Qed.

Lemma runs_decrease d d' p : inv d p -> runs d d' -> (measure d' < measure d)%nat /\ exists p', inv d' p'.
Proof.
  intros Hi Hr. split.
  2:{ destruct Hr as [d i w Hwt Haw|d a f v d' Hph _ _ E|d t l q s d' Hph E|d t l q s e d' Hph E|d m Himm].
      - exists p. by apply inv_wake.
      - exists p. destruct (inv_room _ _ _ _ v Hi Hph) as (d1 & E1 & Hi'). congruence.
      - exists p. destruct (inv_apply _ _ _ _ _ s Hi Hph) as (d1 & s1 & e1 & E1 & Hi' & _). congruence.
      - exists (S l). destruct (inv_finish _ _ _ _ _ _ _ Hi Hph) as (d1 & E1 & Hi' & _). congruence.
      - exists p. by apply inv_compacted. }
  destruct Hr as [d i w Hwt Haw|d a f v d' Hph Himm Hv E|d t l q s d' Hph E|d t l q s e d' Hph E|d m Himm].
  - destruct Hwt as (Hw & Hret & Hnot). unfold Write_wake, measure. destruct (w_done w) eqn:Ed; [|destruct (at_front d i) eqn:Ef].
    + cbn [threads phase imm_ with_threads]. pose proof (weight_insert (threads d) i w (set_returned w (w_status w)) Hw) as Hlt.
      unfold weight at 1 2 in Hlt. cbn in Hlt. rewrite Hret, Ed in Hlt. lia.
    + assert (phase d = None) as -> by (destruct (phase d); [by destruct Hnot|done]).
      cbn [threads phase imm_ with_phase phase_weight start_phase]. repeat case_match; lia.
    + cbn [threads phase imm_ with_threads]. pose proof (weight_insert (threads d) i w (set_awake w false) Hw) as Hlt.
      unfold weight at 1 2 in Hlt. cbn in Hlt. rewrite Hret, Ed, Haw in Hlt. lia.
  - by eapply room_decreases.
  - destruct (inv_apply _ _ _ _ _ s Hi Hph) as (d1 & s1 & e1 & E1 & _ & Eph & Ets & _ & Eimm). assert (d' = d1) as -> by congruence.
    unfold measure. rewrite Hph, Eph, Ets, Eimm. cbn. lia.
  - destruct (inv_finish _ _ _ _ _ _ _ Hi Hph) as (d1 & E1 & Hi' & Eph & Eimm & Hl & El & Hat).
    assert (d' = d1) as -> by congruence. unfold measure. rewrite Hph, Eph, Eimm. cbn [phase_weight].
    enough (sum_list_with weight (threads d1) + 12 <= sum_list_with weight (threads d) + 1)%nat by lia.
    apply (weights_change _ _ p (S l)); [done|lia|]. intros k w w' Hk Hk'.
    destruct (Hat _ _ Hk) as (w1 & Hw1 & Hfin). assert (w1 = w') as -> by congruence.
    destruct (decide (k < p)%nat) as [Hkp|Hkp].
    { destruct Hfin as (_ & _ & Er & Ed & Eaw & _). unfold weight.
      rewrite Er, Ed, Eaw, !(decide_False (P := (p < k <= _)%nat)), !(decide_False (P := k = _)) by lia. lia. }
    pose proof (weight_waits _ _ k _ (i_served _ _ Hi) ltac:(lia) Hk).
    destruct (decide (k <= l)%nat) as [Hkl|Hkl].
    + pose proof (weight_gone _ _ k _ (i_served _ _ Hi') ltac:(lia) Hk'). destruct (decide (k = p)) as [->|Hne]; [|lia].
      destruct Hfin as (_ & _ & Er & _). rewrite decide_True in Er by done. unfold weight at 1. rewrite Er. lia.
    + rewrite (decide_False (P := k = p)) by lia. pose proof (weight_waits _ _ k _ (i_served _ _ Hi') ltac:(lia) Hk').
      destruct (decide (k = S l)) as [->|Hne]; [lia|]. destruct Hfin as (_ & _ & Er & Ed & Eaw & _).
      assert (weight w' = weight w); [|lia]. unfold weight. by rewrite Er, Ed, Eaw, !decide_False by lia.
  - unfold measure. cbn [threads phase imm_ compacted]. rewrite Himm. lia.
Qed.

Lemma runs_possible d p : inv d p -> Exists (fun w => w_returned w = None) (threads d) -> exists d', runs d d'.
Proof.
  intros Hi Hex. destruct (phase d) as [[a f|t l q|t l q s e]|] eqn:Hph.
  - destruct (imm_ d) as [m|] eqn:Himm; [exists (compacted d m); by constructor|].
    destruct (inv_room _ _ _ _ (mkRoomView 0 write_buffer_size Status.OK) Hi Hph) as (d1 & E1 & _). exists d1.
    eapply runs_room; [done|done| |exact E1]. split; [done|cbn; lia].
  - destruct (inv_apply _ _ _ _ _ Status.OK Hi Hph) as (d1 & s1 & e1 & E1 & _). exists d1. by eapply runs_apply.
  - destruct (inv_finish _ _ _ _ _ _ _ Hi Hph) as (d1 & E1 & _). exists d1. by eapply runs_finish.
  - apply list.Exists_exists in Hex as (w & [i Hw]%list_elem_of_lookup & Hr). pose proof (i_served _ _ Hi) as Hq.
    assert (forall k w, threads d !! k = Some w -> w_returned w = None -> waiting d k w) as Hwt.
    { intros k w0 Hk Hr0. split; [done|]. split; [done|]. rewrite Hph. tauto. }
    destruct (decide (i < p)%nat) as [Hip|Hip].
    + destruct (i_gone _ _ Hq _ _ Hip Hw) as [?|[_ Haw]]; [done|]. eexists. eapply runs_wake; [by apply Hwt|done].
    + pose proof (lookup_lt_Some _ _ _ Hw). destruct (queue_front _ _ Hq ltac:(lia)) as (w0 & _ & Hw0 & Hr0 & _).
      eexists. eapply runs_wake; [by apply Hwt|]. by apply (i_front _ _ Hq).
Qed.

Lemma reachable_runs d d' : reachable d -> runs d d' -> reachable d'.
Proof.
  intros Hd Hr. destruct (reachable_inv _ Hd) as [p Hi]. destruct (runs_decrease _ _ _ Hi Hr) as (_ & p' & Hi').
  eapply reachable_step; [exact Hd|by apply runs_step|by destruct Hi'].
Qed.

(** ** Properties *)


(** C19: when the background thread makes room, the calls of [Write] return:
    from any reachable state, in any order of the threads' steps, there are
    finitely many of them, and as long as a writer has not returned there is
    a thread that can go on.  No wake-up is lost. *)
Theorem writers_return d : reachable d ->
  (forall n d', nsteps runs n d d' -> (n <= measure d)%nat)
  /\ forall d', rtc runs d d' -> Forall (fun w => w_returned w <> None) (threads d') \/ exists d'', runs d' d''.
Proof.
  intros [p Hi]%reachable_inv. split.
  - intros n d' Hn. revert p Hi. induction Hn as [|n d d1 d' Hr _ IH]; intros p Hi; [lia|].
    destruct (runs_decrease _ _ _ Hi Hr) as (Hlt & p' & Hi'). specialize (IH _ Hi'). lia.
  - intros d' Hrt. revert p Hi. induction Hrt as [d|d d1 d' Hr _ IH]; intros p Hi.
    + destruct (decide (Exists (fun w => w_returned w = None) (threads d))) as [Hex|Hno]; [right; by eapply runs_possible|].
      left. apply Forall_forall. intros w Hw Hr. apply Hno, list.Exists_exists. exists w. split; [by apply list_elem_of_In|done].
    + destruct (runs_decrease _ _ _ Hi Hr) as (_ & p' & Hi'). by eapply IH.
Qed.

(** C37: a group in which some writer asked for [sync] ends well only when
    [Sync] did, although the front writer alone decides whether to call it. *)
Theorem sync_before_success d t l q ss d' s e i w : reachable d ->
  phase d = Some (PApply t l q) -> Write_apply d t l q ss = Ret d' ->
  phase d' = Some (PFinish t l q s e) -> Status.ok s = true ->
  i ∈ writers_ d -> (i <= l)%nat -> threads d !! i = Some w -> w_sync w = true -> Status.ok ss = true.
Proof.
  intros [p [_ Hq Hp _ _]]%reachable_inv Hph E Hph' Hs Hin Hil Hw Hsync.
  unfold phase_inv in Hp. rewrite Hph in Hp. destruct Hp as ((Hl & Hrule & _) & _).
  destruct (queue_front _ _ Hq ltac:(lia)) as (w0 & Ewr & Hw0 & _).
  assert (w_sync w0 = true) as Hs0.
  { destruct (w_sync w0) eqn:Ew0; [done|]. specialize (Hrule _ Hw0 Ew0). rewrite (i_queue _ _ Hq) in Hin.
    apply elem_of_seq in Hin. rewrite Forall_forall in Hrule. rewrite <- Hsync. symmetry. apply Hrule, list_elem_of_In.
    apply (list_elem_of_lookup_2 _ (i - p)). unfold group. rewrite lookup_take_lt, lookup_drop by lia.
    by replace (p + (i - p))%nat with i by lia. }
  unfold Write_apply in E. rewrite Ewr, Hw0 in E. cbn [of_option mbind res_bind] in E.
  destruct (if t then Ret (tmp_batch_ d) else of_option (w_batch w0)) as [u| | |]; try done. cbn [mbind res_bind] in E.
  destruct (AddRecord (log_ d) (Contents u)) as [[st log]| | |]; try done. cbn [mbind res_bind] in E.
  rewrite Hs0, andb_true_r in E. destruct (Status.ok st) eqn:Est.
  - destruct (Status.ok ss) eqn:Ess; [done|]. cbn [mbind res_bind] in E. injection E as <-. cbn in Hph'. congruence.
  - rewrite Est in E. cbn [mbind res_bind] in E. injection E as <-. cbn in Hph'. congruence.
Qed.
End invariant.
Arguments compacted {_} _ _.

(** ** A run of two writers *)

#[local] Instance sample_address : Address := fun _ => 0.

Definition sample_batch : bytes := batch 0 [OpPut (lit "k") (lit "v"); OpDelete (lit "j")].

(** The front writer goes on, in an environment that makes room. *)
Definition front_step (d : DBImpl bytes) : res (DBImpl bytes) :=
  if imm_ d is Some m then Ret (compacted d m)
  else
    match phase d with
    | Some (PRoom a f) => Write_room 4096 [] d a f (mkRoomView 0 100 Status.OK)
    | Some (PApply t l q) => Write_apply d t l q Status.OK
    | Some (PFinish t l q s e) => Write_finish d t l q s e
    | None => Undef
    end.

(** A writer that asks for [sync], and one that comes while it is at work. *)
Definition sample_two : res (DBImpl bytes) :=
  d ← new_DBImpl [];
  Ret (Write_enter (Write_enter d (Some sample_batch) true) (Some sample_batch) false).
Definition sample_applying : res (DBImpl bytes) := d ← sample_two; front_step d.
Definition sample_applied : res (DBImpl bytes) := d ← sample_applying; front_step d.
Definition sample_done : res (DBImpl bytes) := d ← sample_applied; front_step d.

Lemma front_step_runs d d' : front_step d = Ret d' -> runs 4096 d d'.
Proof.
  unfold front_step. intros E. destruct (imm_ d) eqn:Himm; [injection E as <-; by constructor|].
  destruct (phase d) as [[a f|t l q|t l q s e]|] eqn:Hph; [| | |done].
  - eapply runs_room; [done|done| |exact E]. by split.
  - by eapply runs_apply.
  - by eapply runs_finish.
Qed.

Lemma sample_made : well_made sample_batch.
Proof. exists 0, [OpPut (lit "k") (lit "v"); OpDelete (lit "j")]. split; [done|]. split; [repeat constructor|done]. Qed.

Lemma sample_two_reachable d : sample_two = Ret d -> reachable 4096 d.
Proof.
  unfold sample_two. destruct (new_DBImpl []) as [d0| | |] eqn:E; [|done..]. cbn [mbind res_bind]. intros [= <-].
  assert (threads d0 = []) as Et.
  { revert E. unfold new_DBImpl. destruct (new_Writer []) as [l| | |]; [|done..]. cbn. by intros [= <-]. }
  eapply reachable_step; [eapply reachable_step; [by apply reachable_new|constructor|]|constructor|].
  all: split; [cbn; rewrite Et; cbn; repeat constructor; intros b [= <-]; apply sample_made|].
  all: cbn -[all_ops]; rewrite Et; vm_compute; done.
Qed.

Lemma sample_next r d : (forall d, r = Ret d -> reachable 4096 d) -> (d ← r; front_step d) = Ret d -> reachable 4096 d.
Proof.
  intros Hr E. destruct r as [d0| | |]; [|done..]. eapply reachable_runs; [by apply Hr|by apply front_step_runs].
Qed.

Lemma sample_applying_reachable d : sample_applying = Ret d -> reachable 4096 d.
Proof. apply sample_next, sample_two_reachable. Qed.
Lemma sample_done_reachable d : sample_done = Ret d -> reachable 4096 d.
Proof. apply sample_next, (fun d => sample_next _ d sample_applying_reachable). Qed.


Lemma writers_return_witness : (exists d, sample_two = Ret d) /\ forall d, sample_two = Ret d ->
  (forall n d', nsteps (runs 4096) n d d' -> (n <= measure d)%nat)
  /\ forall d', rtc (runs 4096) d d' -> Forall (fun w => w_returned w <> None) (threads d') \/ exists d'', runs 4096 d' d''.
Proof.
  split; [eexists; vm_compute; reflexivity|]. intros d E. apply (writers_return 4096). by apply sample_two_reachable.
Defined.

Definition sample_view (ss : Status.t) : res (option Phase * option Phase * list nat * option bool) :=
  d ← sample_applying;
  d' ← Write_apply d true 1 4 ss;
  Ret (phase d, phase d', writers_ d, w_sync <$> threads d !! 0%nat).

Lemma sync_before_success_witness : exists d d' w, sample_applying = Ret d
  /\ phase d = Some (PApply true 1 4) /\ Write_apply d true 1 4 Status.OK = Ret d'
  /\ phase d' = Some (PFinish true 1 4 Status.OK false)
  /\ threads d !! 0%nat = Some w /\ w_sync w = true /\ Status.ok Status.OK = true.
Proof.
  assert (sample_view Status.OK = Ret (Some (PApply true 1 4), Some (PFinish true 1 4 Status.OK false), [0; 1]%nat, Some true)) as E
    by (vm_compute; reflexivity).
  unfold sample_view in E. pose proof sample_applying_reachable as Hd. destruct sample_applying as [d| | |]; [|done..].
  cbn [mbind res_bind] in E. destruct (Write_apply d true 1 4 Status.OK) as [d'| | |] eqn:Ea; [|done..].
  cbn [mbind res_bind] in E. injection E as E1 E2 E3 E4. destruct (threads d !! 0%nat) as [w|] eqn:Ew; [|done].
  cbn in E4. injection E4 as E4. exists d, d', w. split_and!; [done..|].
  apply (sync_before_success 4096 d true 1 4 Status.OK d' Status.OK false 0%nat w (Hd d eq_refl) E1 Ea E2); [reflexivity| |lia|exact Ew|exact E4].
  rewrite E3. by left.
Defined.
