(* ===== verification/VersionEdit.v ===== *)
(** * VersionEdit: db/version_edit.h and db/version_edit.cc

    The records of a database's descriptor: what changes from one version of
    the set of files to the next, with its encoding.  An [InternalKey] is its
    representation. *)

From S2P Require Import Prelude CLib Coding Status DbFormat Filename.

(** ** The data *)

Record FileMetaData := mkFileMetaData {
  refs : Z;
  allowed_seeks : Z;
  number : Z;
  file_size : Z;
  smallest : bytes;
  largest : bytes;
}.

(** [number] is not initialised: it is set before it is used. *)
Definition new_FileMetaData (number : Z) : FileMetaData := mkFileMetaData 0 (Z.shiftl 1 30) number 0 [] [].

Record VersionEdit := mkVersionEdit {
  comparator_ : bytes;
  log_number_ : Z;
  prev_log_number_ : Z;
  next_file_number_ : Z;
  last_sequence_ : Z;
  has_comparator_ : bool;
  has_log_number_ : bool;
  has_prev_log_number_ : bool;
  has_next_file_number_ : bool;
  has_last_sequence_ : bool;
  compact_pointers_ : list (Z * bytes);
  deleted_files_ : list (Z * Z);          (* a [std::set]: sorted *)
  new_files_ : list (Z * FileMetaData);
}.

(** [Clear] leaves the compaction pointers as they are. *)
Definition Clear (e : VersionEdit) : VersionEdit :=
  mkVersionEdit [] 0 0 0 0 false false false false false (compact_pointers_ e) [] [].

Definition new_VersionEdit : VersionEdit := Clear (mkVersionEdit [] 0 0 0 0 false false false false false [] [] []).

Definition SetComparatorName (e : VersionEdit) (name : bytes) : VersionEdit :=
  mkVersionEdit name (log_number_ e) (prev_log_number_ e) (next_file_number_ e) (last_sequence_ e)
    true (has_log_number_ e) (has_prev_log_number_ e) (has_next_file_number_ e) (has_last_sequence_ e)
    (compact_pointers_ e) (deleted_files_ e) (new_files_ e).
Definition SetLogNumber (e : VersionEdit) (num : Z) : VersionEdit :=
  mkVersionEdit (comparator_ e) num (prev_log_number_ e) (next_file_number_ e) (last_sequence_ e)
    (has_comparator_ e) true (has_prev_log_number_ e) (has_next_file_number_ e) (has_last_sequence_ e)
    (compact_pointers_ e) (deleted_files_ e) (new_files_ e).
Definition SetPrevLogNumber (e : VersionEdit) (num : Z) : VersionEdit :=
  mkVersionEdit (comparator_ e) (log_number_ e) num (next_file_number_ e) (last_sequence_ e)
    (has_comparator_ e) (has_log_number_ e) true (has_next_file_number_ e) (has_last_sequence_ e)
    (compact_pointers_ e) (deleted_files_ e) (new_files_ e).
Definition SetNextFile (e : VersionEdit) (num : Z) : VersionEdit :=
  mkVersionEdit (comparator_ e) (log_number_ e) (prev_log_number_ e) num (last_sequence_ e)
    (has_comparator_ e) (has_log_number_ e) (has_prev_log_number_ e) true (has_last_sequence_ e)
    (compact_pointers_ e) (deleted_files_ e) (new_files_ e).
Definition SetLastSequence (e : VersionEdit) (seq : Z) : VersionEdit :=
  mkVersionEdit (comparator_ e) (log_number_ e) (prev_log_number_ e) (next_file_number_ e) seq
    (has_comparator_ e) (has_log_number_ e) (has_prev_log_number_ e) (has_next_file_number_ e) true
    (compact_pointers_ e) (deleted_files_ e) (new_files_ e).
Definition with_files (e : VersionEdit) (cps : list (Z * bytes)) (ds : list (Z * Z)) (nfs : list (Z * FileMetaData))
    : VersionEdit :=
  mkVersionEdit (comparator_ e) (log_number_ e) (prev_log_number_ e) (next_file_number_ e) (last_sequence_ e)
    (has_comparator_ e) (has_log_number_ e) (has_prev_log_number_ e) (has_next_file_number_ e) (has_last_sequence_ e)
    cps ds nfs.
Definition SetCompactPointer (e : VersionEdit) (level : Z) (key : bytes) : VersionEdit :=
  with_files e (compact_pointers_ e ++ [(level, key)]) (deleted_files_ e) (new_files_ e).
Definition AddFile (e : VersionEdit) (level file size : Z) (smallest largest : bytes) : VersionEdit :=
  with_files e (compact_pointers_ e) (deleted_files_ e)
    (new_files_ e ++ [(level, mkFileMetaData 0 (Z.shiftl 1 30) file size smallest largest)]).

(** [std::set::insert], by the order of pairs. *)
Definition pair_lt (a b : Z * Z) : Prop := a.1 < b.1 \/ (a.1 = b.1 /\ a.2 < b.2).
#[export] Instance pair_lt_dec a b : Decision (pair_lt a b).
Proof. unfold pair_lt. apply _. Defined.
Fixpoint set_insert (x : Z * Z) (l : list (Z * Z)) : list (Z * Z) :=
  match l with
  | [] => [x]
  | y :: l' => if decide (pair_lt x y) then x :: l else if decide (pair_lt y x) then y :: set_insert x l' else l
  end.

Definition DeleteFile (e : VersionEdit) (level file : Z) : VersionEdit :=
  with_files e (compact_pointers_ e) (set_insert (level, file) (deleted_files_ e)) (new_files_ e).

(** ** Encoding *)

Definition kComparator : Z := 1.
Definition kLogNumber : Z := 2.
Definition kNextFileNumber : Z := 3.
Definition kLastSequence : Z := 4.
Definition kCompactPointer : Z := 5.
Definition kDeletedFile : Z := 6.
Definition kNewFile : Z := 7.
Definition kPrevLogNumber : Z := 9.

Definition put_number (has : bool) (dst : bytes) (tag num : Z) : bytes :=
  if has then PutVarint64 (PutVarint32 dst tag) num else dst.

Definition put_compact_pointer (dst : bytes) (p : Z * bytes) : bytes :=
  PutLengthPrefixedSlice (PutVarint32 (PutVarint32 dst kCompactPointer) (u32 p.1)) (InternalKey_Encode p.2).
Definition put_deleted_file (dst : bytes) (p : Z * Z) : bytes :=
  PutVarint64 (PutVarint32 (PutVarint32 dst kDeletedFile) (u32 p.1)) p.2.
Definition put_new_file (dst : bytes) (p : Z * FileMetaData) : bytes :=
  let f := p.2 in
  let dst := PutVarint64 (PutVarint64 (PutVarint32 (PutVarint32 dst kNewFile) (u32 p.1)) (number f)) (file_size f) in
  PutLengthPrefixedSlice (PutLengthPrefixedSlice dst (InternalKey_Encode (smallest f))) (InternalKey_Encode (largest f)).

Definition EncodeTo (e : VersionEdit) (dst : bytes) : bytes :=
  let dst := if has_comparator_ e then PutLengthPrefixedSlice (PutVarint32 dst kComparator) (comparator_ e) else dst in
  let dst := put_number (has_log_number_ e) dst kLogNumber (log_number_ e) in
  let dst := put_number (has_prev_log_number_ e) dst kPrevLogNumber (prev_log_number_ e) in
  let dst := put_number (has_next_file_number_ e) dst kNextFileNumber (next_file_number_ e) in
  let dst := put_number (has_last_sequence_ e) dst kLastSequence (last_sequence_ e) in
  let dst := fold_left put_compact_pointer (compact_pointers_ e) dst in
  let dst := fold_left put_deleted_file (deleted_files_ e) dst in
  fold_left put_new_file (new_files_ e) dst.

(** ** Decoding *)

Definition GetInternalKey (input : bytes) : option bytes * bytes :=
  match GetLengthPrefixedSlice input with
  | (Some str, input) => (Some (InternalKey_DecodeFrom str), input)
  | (None, input) => (None, input)
  end.

(** On failure the number may have been consumed. *)
Definition GetLevel (input : bytes) : option Z * bytes :=
  match GetVarint32 input with
  | Some (v, input) => (if decide (v < config.kNumLevels) then Some v else None, input)
  | None => (None, input)
  end.

(** A parser's result, for the fields that one tag announces. *)
Abbreviation parsed := (VersionEdit * option bytes * bytes)%type.

Definition get_number (input : bytes) (e : VersionEdit) (set : VersionEdit -> Z -> VersionEdit) (what : bytes) : parsed :=
  match GetVarint64 input with
  | Some (num, input) => (set e num, None, input)
  | None => (e, Some what, input)
  end.

Definition get_new_file (input : bytes) (e : VersionEdit) : parsed :=
  let bad := (e, Some (lit "new-file entry"), input) in
  match GetLevel input with
  | (Some level, input) =>
      match GetVarint64 input with
      | Some (num, input) =>
          match GetVarint64 input with
          | Some (size, input) =>
              match GetInternalKey input with
              | (Some smallest, input) =>
                  match GetInternalKey input with
                  | (Some largest, input) => (AddFile e level num size smallest largest, None, input)
                  | _ => bad
                  end
              | _ => bad
              end
          | None => bad
          end
      | None => bad
      end
  | _ => bad
  end.

(** The [switch]; when there is a message, what is left of the input is not
    looked at. *)
Definition decode_field (tag : Z) (input : bytes) (e : VersionEdit) : parsed :=
  if decide (tag = kComparator) then
    match GetLengthPrefixedSlice input with
    | (Some str, input) => (SetComparatorName e str, None, input)
    | (None, input) => (e, Some (lit "comparator name"), input)
    end
  else if decide (tag = kLogNumber) then get_number input e SetLogNumber (lit "log number")
  else if decide (tag = kPrevLogNumber) then get_number input e SetPrevLogNumber (lit "previous log number")
  else if decide (tag = kNextFileNumber) then get_number input e SetNextFile (lit "next file number")
  else if decide (tag = kLastSequence) then get_number input e SetLastSequence (lit "last sequence number")
  else if decide (tag = kCompactPointer) then
    match GetLevel input with
    | (Some level, input) =>
        match GetInternalKey input with
        | (Some key, input) => (SetCompactPointer e level key, None, input)
        | (None, input) => (e, Some (lit "compaction pointer"), input)
        end
    | (None, input) => (e, Some (lit "compaction pointer"), input)
    end
  else if decide (tag = kDeletedFile) then
    match GetLevel input with
    | (Some level, input) =>
        match GetVarint64 input with
        | Some (num, input) => (DeleteFile e level num, None, input)
        | None => (e, Some (lit "deleted file"), input)
        end
    | (None, input) => (e, Some (lit "deleted file"), input)
    end
  else if decide (tag = kNewFile) then get_new_file input e
  else (e, Some (lit "unknown tag"), input).

(** The loop; every round consumes a tag. *)
Fixpoint decode_loop (fuel : nat) (e : VersionEdit) (input : bytes) : res parsed :=
  match fuel with
  | O => NoFuel
  | S fuel =>
      match GetVarint32 input with
      | None => Ret (e, None, input)
      | Some (tag, input) =>
          match decode_field tag input e with
          | (e, None, input) => decode_loop fuel e input
          | (e, Some msg, input) => Ret (e, Some msg, input)
          end
      end
  end.

Definition DecodeFrom (e : VersionEdit) (src : bytes) : res (VersionEdit * Status.t) :=
  '(e, msg, input) ← decode_loop (S (length src)) (Clear e) src;
  let msg := match msg with None => if decide (input = []) then None else Some (lit "invalid tag") | Some _ => msg end in
  Ret (e, match msg with Some msg => Status.Corruption (lit "VersionEdit") msg | None => Status.OK end).

(** ** Text *)

Definition ParsedInternalKey_DebugString (k : ParsedInternalKey) : bytes :=
  lit "'" ++ EscapeString (user_key k) ++ lit "' @ " ++ decimal (sequence k) ++ lit " : "
    ++ decimal (type_code (type k)).

Definition InternalKey_DebugString (rep : bytes) : bytes :=
  match ParseInternalKey rep with
  | Some parsed => ParsedInternalKey_DebugString parsed
  | None => lit "(bad)" ++ EscapeString rep
  end.

Definition newline : bytes := [zb 10].

Definition debug_number (has : bool) (r what : bytes) (num : Z) : bytes :=
  if has then AppendNumberTo (r ++ newline ++ what) num else r.

(** A level is a small number, so its conversion to 64 bits is itself. *)
Definition debug_compact_pointer (r : bytes) (p : Z * bytes) : bytes :=
  AppendNumberTo (r ++ newline ++ lit "  CompactPointer: ") (u64 p.1) ++ lit " " ++ InternalKey_DebugString p.2.
Definition debug_deleted_file (r : bytes) (p : Z * Z) : bytes :=
  AppendNumberTo (AppendNumberTo (r ++ newline ++ lit "  DeleteFile: ") (u64 p.1) ++ lit " ") p.2.
Definition debug_new_file (r : bytes) (p : Z * FileMetaData) : bytes :=
  let f := p.2 in
  let r := AppendNumberTo (r ++ newline ++ lit "  AddFile: ") (u64 p.1) ++ lit " " in
  AppendNumberTo (AppendNumberTo r (number f) ++ lit " ") (file_size f)
    ++ lit " " ++ InternalKey_DebugString (smallest f) ++ lit " .. " ++ InternalKey_DebugString (largest f).

Definition DebugString (e : VersionEdit) : bytes :=
  let r := lit "VersionEdit {" in
  let r := if has_comparator_ e then r ++ newline ++ lit "  Comparator: " ++ comparator_ e else r in
  let r := debug_number (has_log_number_ e) r (lit "  LogNumber: ") (log_number_ e) in
  let r := debug_number (has_prev_log_number_ e) r (lit "  PrevLogNumber: ") (prev_log_number_ e) in
  let r := debug_number (has_next_file_number_ e) r (lit "  NextFile: ") (next_file_number_ e) in
  let r := debug_number (has_last_sequence_ e) r (lit "  LastSeq: ") (last_sequence_ e) in
  let r := fold_left debug_compact_pointer (compact_pointers_ e) r in
  let r := fold_left debug_deleted_file (deleted_files_ e) r in
  let r := fold_left debug_new_file (new_files_ e) r in
  r ++ newline ++ lit "}" ++ newline.

(** ** Well-typed edits *)

Create HintDb edit.

Definition is_level (l : Z) : Prop := 0 <= l < config.kNumLevels.
Definition is_u64 (n : Z) : Prop := 0 <= n < 2^64.
Definition is_slice (s : bytes) : Prop := Z.of_nat (length s) < 2^32.

Definition file_typed (f : FileMetaData) : Prop :=
  refs f = 0 /\ allowed_seeks f = Z.shiftl 1 30 /\ is_u64 (number f) /\ is_u64 (file_size f)
  /\ is_slice (smallest f) /\ is_slice (largest f).

(** A field that is not there has the value that [Clear] gives it. *)
Definition field_typed (has : bool) (n : Z) : Prop := is_u64 n /\ (has = false -> n = 0).

Record typed (e : VersionEdit) : Prop := {
  t_comparator : is_slice (comparator_ e) /\ (has_comparator_ e = false -> comparator_ e = []);
  t_log : field_typed (has_log_number_ e) (log_number_ e);
  t_prev : field_typed (has_prev_log_number_ e) (prev_log_number_ e);
  t_next : field_typed (has_next_file_number_ e) (next_file_number_ e);
  t_last : field_typed (has_last_sequence_ e) (last_sequence_ e);
  t_pointers : Forall (fun p => is_level p.1 /\ is_slice p.2) (compact_pointers_ e);
  t_deleted : Forall (fun p => is_level p.1 /\ is_u64 p.2) (deleted_files_ e);
  t_set : StronglySorted pair_lt (deleted_files_ e);
  t_files : Forall (fun p => is_level p.1 /\ file_typed p.2) (new_files_ e);
}.

Lemma pair_lt_trans a b c : pair_lt a b -> pair_lt b c -> pair_lt a c.
Proof. unfold pair_lt. lia. Qed.

Lemma pair_total a b : pair_lt a b \/ a = b \/ pair_lt b a.
Proof.
  destruct a as [a1 a2], b as [b1 b2]. unfold pair_lt. cbn [fst snd].
  destruct (Z.lt_total a1 b1) as [?|[->|?]]; [lia| |lia].
  destruct (Z.lt_total a2 b2) as [?|[->|?]]; [lia|tauto|lia].
Qed.

Lemma set_insert_elem x l y : y ∈ set_insert x l <-> y = x \/ y ∈ l.
Proof.
  induction l as [|z l IH]; cbn [set_insert]; [set_solver|].
  case_decide; [set_solver|]. case_decide; [set_solver|].
  destruct (pair_total x z) as [?|[->|?]]; [done|set_solver|done].
Qed.

Lemma set_insert_sorted x l : StronglySorted pair_lt l -> StronglySorted pair_lt (set_insert x l).
Proof.
  induction 1 as [|z l Hs IH Hz]; cbn [set_insert]; [by repeat constructor|].
  case_decide as Hx.
  - constructor; [by constructor|]. constructor; [done|]. eapply list.Forall_impl; [exact Hz|]. intros y. by apply pair_lt_trans.
  - case_decide as Hx'; [|by constructor]. constructor; [done|]. apply Forall_forall. intros y [->|Hy]%list_elem_of_In%set_insert_elem; [done|].
    rewrite Forall_forall in Hz. by apply Hz, list_elem_of_In.
Qed.

(** An element above all others goes to the end. *)
Lemma set_insert_last x l : Forall (fun y => pair_lt y x) l -> set_insert x l = l ++ [x].
Proof.
  induction 1 as [|y l Hy _ IH]; [done|]. cbn [set_insert]. rewrite decide_False, decide_True, IH; [done..|].
  unfold pair_lt in *. lia.
Qed.

Lemma Clear_typed e : typed e -> typed (Clear e).
Proof. intros []. split; cbn; try done; try constructor. Qed.

Lemma new_typed : typed new_VersionEdit.
Proof. split; cbn; try done; constructor. Qed.

(** *** The setters *)

Lemma Forall_snoc {A} (P : A -> Prop) l x : Forall P l -> P x -> Forall P (l ++ [x]).
Proof. intros Hl Hx. apply Forall_app. by repeat constructor. Qed.

Lemma SetComparatorName_typed e s : typed e -> is_slice s -> typed (SetComparatorName e s).
Proof. intros [] ?. by split. Qed.
Lemma SetLogNumber_typed e n : typed e -> is_u64 n -> typed (SetLogNumber e n).
Proof. intros [] ?. by split. Qed.
Lemma SetPrevLogNumber_typed e n : typed e -> is_u64 n -> typed (SetPrevLogNumber e n).
Proof. intros [] ?. by split. Qed.
Lemma SetNextFile_typed e n : typed e -> is_u64 n -> typed (SetNextFile e n).
Proof. intros [] ?. by split. Qed.
Lemma SetLastSequence_typed e n : typed e -> is_u64 n -> typed (SetLastSequence e n).
Proof. intros [] ?. by split. Qed.
Lemma SetCompactPointer_typed e l k : typed e -> is_level l -> is_slice k -> typed (SetCompactPointer e l k).
Proof. intros [] ??. split; try done. apply Forall_snoc; [done|]. by split_and!. Qed.
Lemma DeleteFile_typed e l n : typed e -> is_level l -> is_u64 n -> typed (DeleteFile e l n).
Proof.
  intros [] ??. split; try done; cbn; [|by apply set_insert_sorted].
  apply Forall_forall. intros p [->|Hp]%list_elem_of_In%set_insert_elem; [done|]. rewrite Forall_forall in t_deleted0.
  by apply t_deleted0, list_elem_of_In.
Qed.
Lemma AddFile_typed e l n sz s t : typed e -> is_level l -> is_u64 n -> is_u64 sz -> is_slice s -> is_slice t ->
  typed (AddFile e l n sz s t).
Proof. intros [] ?????. split; try done. apply Forall_snoc; [done|]. by split_and!. Qed.
#[export] Hint Resolve SetComparatorName_typed SetLogNumber_typed SetPrevLogNumber_typed SetNextFile_typed
  SetLastSequence_typed SetCompactPointer_typed DeleteFile_typed AddFile_typed : edit.

(** *** What is decoded *)

Lemma GetVarint64_typed s n r : GetVarint64 s = Some (n, r) -> is_u64 n.
Proof. intros E. by apply GetVarint64Ptr_inv in E as [? _]. Qed.

Lemma GetVarint64_shorter s n r : GetVarint64 s = Some (n, r) -> (length r <= length s)%nat.
Proof. intros E. apply GetVarint64Ptr_inv in E as [_ (pre & -> & _)]. rewrite length_app. lia. Qed.

Lemma GetVarint32_shorter s n r : GetVarint32 s = Some (n, r) -> (length r < length s)%nat.
Proof. intros E. apply GetVarint32Ptr_inv in E as [_ (pre & -> & ?)]. rewrite length_app. lia. Qed.

Lemma GetLevel_typed s l r : GetLevel s = (Some l, r) -> is_level l /\ (length r <= length s)%nat.
Proof.
  unfold GetLevel. destruct (GetVarint32 s) as [[v s']|] eqn:E; [|done]. case_decide; [|done]. intros [= <- <-].
  pose proof (GetVarint32_shorter _ _ _ E). apply GetVarint32Ptr_inv in E as [? _]. unfold is_level. split; lia.
Qed.

Lemma GetSlice_typed s x r : GetLengthPrefixedSlice s = (Some x, r) -> is_slice x /\ (length r <= length s)%nat.
Proof.
  unfold GetLengthPrefixedSlice. destruct (GetVarint32 s) as [[v s']|] eqn:E; [|done]. case_decide; [|done]. intros [= <- <-].
  pose proof (GetVarint32_shorter _ _ _ E). apply GetVarint32Ptr_inv in E as [? _]. unfold is_slice.
  rewrite length_take, length_drop. lia.
Qed.

Lemma GetInternalKey_typed s x r : GetInternalKey s = (Some x, r) -> is_slice x /\ (length r <= length s)%nat.
Proof.
  unfold GetInternalKey. destruct (GetLengthPrefixedSlice s) as [[y|] s'] eqn:E; [|done]. intros [= <- <-]. by apply GetSlice_typed.
Qed.

(** Reading on and well-typed. *)
Definition fine (input : bytes) (p : parsed) : Prop :=
  typed p.1.1 /\ (p.1.2 = None -> (length p.2 <= length input)%nat).

Lemma get_number_fine input e set what : typed e -> (forall n, is_u64 n -> typed (set e n)) -> fine input (get_number input e set what).
Proof.
  intros He Hset. unfold get_number.
  destruct (GetVarint64 input) as [[n s]|] eqn:E; [|by split]. pose proof (GetVarint64_shorter _ _ _ E).
  split; cbn; eauto using GetVarint64_typed.
Qed.

Lemma get_new_file_fine input e : typed e -> fine input (get_new_file input e).
Proof.
  intros He. unfold get_new_file. destruct (GetLevel input) as [[l|] s1] eqn:E1; [|by split]. apply GetLevel_typed in E1 as [? ?].
  destruct (GetVarint64 s1) as [[n s2]|] eqn:E2; [|by split]. pose proof (GetVarint64_shorter _ _ _ E2). apply GetVarint64_typed in E2.
  destruct (GetVarint64 s2) as [[sz s3]|] eqn:E3; [|by split]. pose proof (GetVarint64_shorter _ _ _ E3). apply GetVarint64_typed in E3.
  destruct (GetInternalKey s3) as [[k1|] s4] eqn:E4; [|by split]. apply GetInternalKey_typed in E4 as [? ?].
  destruct (GetInternalKey s4) as [[k2|] s5] eqn:E5; [|by split]. apply GetInternalKey_typed in E5 as [? ?].
  split; cbn; [auto with edit|lia].
Qed.

Lemma decode_field_fine tag input e : typed e -> fine input (decode_field tag input e).
Proof.
  intros He. unfold decode_field. repeat case_decide; try (apply get_number_fine; auto with edit).
  - destruct (GetLengthPrefixedSlice input) as [[x|] s1] eqn:E1; [|by split]. apply GetSlice_typed in E1 as [? ?]. split; cbn; auto with edit.
  - destruct (GetLevel input) as [[l|] s1] eqn:E1; [|by split]. apply GetLevel_typed in E1 as [? ?].
    destruct (GetInternalKey s1) as [[k|] s2] eqn:E2; [|by split]. apply GetInternalKey_typed in E2 as [? ?].
    split; cbn; [auto with edit|lia].
  - destruct (GetLevel input) as [[l|] s1] eqn:E1; [|by split]. apply GetLevel_typed in E1 as [? ?].
    destruct (GetVarint64 s1) as [[n s2]|] eqn:E2; [|by split]. pose proof (GetVarint64_shorter _ _ _ E2). apply GetVarint64_typed in E2.
    split; cbn; [auto with edit|lia].
  - by apply get_new_file_fine.
  - by split.
Qed.

Lemma decode_loop_fine fuel e input : typed e -> (length input < fuel)%nat ->
  exists e' msg rest, decode_loop fuel e input = Ret (e', msg, rest) /\ typed e'.
Proof.
  revert e input. induction fuel as [|fuel IH]; intros e input He Hf; [lia|]. cbn [decode_loop].
  destruct (GetVarint32 input) as [[tag s]|] eqn:E; [|by eexists _, _, _]. pose proof (GetVarint32_shorter _ _ _ E).
  destruct (decode_field_fine tag s e He) as [He' Hl]. destruct (decode_field tag s e) as [[e' [msg|]] rest]; [by eexists _, _, _|].
  cbn [fst snd] in *. apply IH; [done|]. specialize (Hl eq_refl). lia.
Qed.

(** The loop ends for any edit. *)
Lemma decode_field_shorter tag input e e' rest : decode_field tag input e = (e', None, rest) -> (length rest <= length input)%nat.
Proof.
  assert (forall set what, get_number input e set what = (e', None, rest) -> (length rest <= length input)%nat) as Hnum.
  { intros set what. unfold get_number. destruct (GetVarint64 input) as [[n s]|] eqn:E; [|done]. intros [= _ <-].
    by eapply GetVarint64_shorter. }
  unfold decode_field. repeat case_decide; eauto.
  - destruct (GetLengthPrefixedSlice input) as [[x|] s1] eqn:E1; [|done]. intros [= _ <-]. by apply GetSlice_typed in E1 as [_ ?].
  - destruct (GetLevel input) as [[l|] s1] eqn:E1; [|done]. destruct (GetInternalKey s1) as [[k|] s2] eqn:E2; [|done].
    intros [= _ <-]. apply GetLevel_typed in E1. apply GetInternalKey_typed in E2. lia.
  - destruct (GetLevel input) as [[l|] s1] eqn:E1; [|done]. destruct (GetVarint64 s1) as [[n s2]|] eqn:E2; [|done].
    intros [= _ <-]. apply GetLevel_typed in E1. apply GetVarint64_shorter in E2. lia.
  - unfold get_new_file. destruct (GetLevel input) as [[l|] s1] eqn:E1; [|done].
    destruct (GetVarint64 s1) as [[n s2]|] eqn:E2; [|done]. destruct (GetVarint64 s2) as [[sz s3]|] eqn:E3; [|done].
    destruct (GetInternalKey s3) as [[k1|] s4] eqn:E4; [|done]. destruct (GetInternalKey s4) as [[k2|] s5] eqn:E5; [|done].
    intros [= _ <-]. apply GetLevel_typed in E1. apply GetVarint64_shorter in E2, E3. apply GetInternalKey_typed in E4, E5. lia.
  - done.
Qed.

Lemma decode_loop_ret fuel e input : (length input < fuel)%nat -> exists x, decode_loop fuel e input = Ret x.
Proof.
  revert e input. induction fuel as [|fuel IH]; intros e input Hf; [lia|]. cbn [decode_loop].
  destruct (GetVarint32 input) as [[tag s]|] eqn:E; [|by eexists]. pose proof (GetVarint32_shorter _ _ _ E).
  destruct (decode_field tag s e) as [[e' [msg|]] rest] eqn:Ef; [by eexists|]. apply decode_field_shorter in Ef. apply IH. lia.
Qed.

(** ** The round trip *)

Lemma decode_loop_more fuel fuel' e s x : decode_loop fuel e s = Ret x -> (fuel <= fuel')%nat -> decode_loop fuel' e s = Ret x.
Proof.
  revert fuel' e s. induction fuel as [|fuel IH]; intros fuel' e s E Hf; [done|]. destruct fuel' as [|fuel']; [lia|].
  cbn [decode_loop] in *. destruct (GetVarint32 s) as [[tag s']|]; [|done].
  destruct (decode_field tag s' e) as [[e' [msg|]] rest]; [done|]. apply IH; [done|lia].
Qed.

(** Decoding the bytes [p] takes the edit from [e] to [e']. *)
Definition consumes (e : VersionEdit) (p : bytes) (e' : VersionEdit) : Prop :=
  forall rest, exists n, forall fuel, decode_loop (n + fuel) e (p ++ rest) = decode_loop fuel e' rest.

Lemma consumes_nil e : consumes e [] e.
Proof. intros rest. by exists 0%nat. Qed.

Lemma consumes_app e p e' q e'' : consumes e p e' -> consumes e' q e'' -> consumes e (p ++ q) e''.
Proof.
  intros Hp Hq rest. destruct (Hp (q ++ rest)) as [n E], (Hq rest) as [n' E']. exists (n + n')%nat. intros fuel.
  by rewrite <- app_assoc, <- Nat.add_assoc, E, E'.
Qed.

Lemma consumes_tag e tag body e' : 0 <= tag < 2^32 -> (forall rest, decode_field tag (body ++ rest) e = (e', None, rest)) ->
  consumes e (EncodeVarint32 tag ++ body) e'.
Proof.
  intros Ht Hb rest. exists 1%nat. intros fuel. cbn [decode_loop Nat.add]. unfold GetVarint32.
  by rewrite <- app_assoc, GetVarint32Ptr_encode, Hb.
Qed.

Lemma consumes_list {A} (put : A -> bytes) (set : VersionEdit -> A -> VersionEdit) (P : A -> Prop) l e :
  (forall e x, P x -> consumes e (put x) (set e x)) -> Forall P l ->
  consumes e (concat (map put l)) (fold_left set l e).
Proof.
  intros Hput Hl. revert e. induction Hl as [|x l Hx _ IH]; intros e; cbn; [apply consumes_nil|].
  eapply consumes_app; [by apply Hput|apply IH].
Qed.

Lemma GetLevel_put l rest : is_level l -> GetLevel (EncodeVarint32 l ++ rest) = (Some l, rest).
Proof.
  intros Hl. unfold is_level, config.kNumLevels in Hl. unfold GetLevel, GetVarint32, config.kNumLevels.
  rewrite GetVarint32Ptr_encode by lia. by rewrite decide_True by lia.
Qed.

Lemma GetVarint64_put n rest : is_u64 n -> GetVarint64 (EncodeVarint64 n ++ rest) = Some (n, rest).
Proof. apply GetVarint64Ptr_encode. Qed.

Lemma GetInternalKey_put k rest : is_slice k -> GetInternalKey (PutLengthPrefixedSlice [] k ++ rest) = (Some k, rest).
Proof. intros Hk. unfold GetInternalKey. by rewrite GetLengthPrefixedSlice_put. Qed.

Lemma level_u32 l : is_level l -> u32 l = l.
Proof. unfold is_level, config.kNumLevels. intros. apply u32_small. lia. Qed.

(** What each part appends. *)
Definition field_number (has : bool) (tag num : Z) : bytes := if has then EncodeVarint32 tag ++ EncodeVarint64 num else [].

Lemma put_number_app has dst tag num : put_number has dst tag num = dst ++ field_number has tag num.
Proof.
  unfold put_number, field_number, PutVarint64, PutVarint32. destruct has; [by rewrite <- app_assoc|by rewrite app_nil_r].
Qed.

Lemma fold_put {A} (put : bytes -> A -> bytes) l dst : (forall dst x, put dst x = dst ++ put [] x) ->
  fold_left put l dst = dst ++ concat (map (put []) l).
Proof.
  intros Hput. revert dst. induction l as [|x l IH]; intros dst; cbn; [by rewrite app_nil_r|].
  by rewrite IH, Hput, <- app_assoc.
Qed.

Lemma put_compact_pointer_app dst p : put_compact_pointer dst p = dst ++ put_compact_pointer [] p.
Proof.
  unfold put_compact_pointer, PutVarint32. cbn [app]. rewrite !(PutLengthPrefixedSlice_app (_ ++ _)).
  by rewrite <- !app_assoc.
Qed.
Lemma put_deleted_file_app dst p : put_deleted_file dst p = dst ++ put_deleted_file [] p.
Proof. unfold put_deleted_file, PutVarint64, PutVarint32. cbn [app]. by rewrite <- !app_assoc. Qed.
Lemma put_new_file_app dst p : put_new_file dst p = dst ++ put_new_file [] p.
Proof.
  unfold put_new_file, PutVarint64, PutVarint32. cbn [app]. rewrite !(PutLengthPrefixedSlice_app (_ ++ _)).
  by rewrite <- !app_assoc.
Qed.

Lemma EncodeTo_parts e dst : EncodeTo e dst =
  dst ++ (if has_comparator_ e then EncodeVarint32 kComparator ++ PutLengthPrefixedSlice [] (comparator_ e) else [])
  ++ field_number (has_log_number_ e) kLogNumber (log_number_ e)
  ++ field_number (has_prev_log_number_ e) kPrevLogNumber (prev_log_number_ e)
  ++ field_number (has_next_file_number_ e) kNextFileNumber (next_file_number_ e)
  ++ field_number (has_last_sequence_ e) kLastSequence (last_sequence_ e)
  ++ concat (map (put_compact_pointer []) (compact_pointers_ e))
  ++ concat (map (put_deleted_file []) (deleted_files_ e))
  ++ concat (map (put_new_file []) (new_files_ e)).
Proof.
  unfold EncodeTo. rewrite !put_number_app.
  rewrite (fold_put put_new_file) by apply put_new_file_app. rewrite (fold_put put_deleted_file) by apply put_deleted_file_app.
  rewrite (fold_put put_compact_pointer) by apply put_compact_pointer_app.
  assert ((if has_comparator_ e then PutLengthPrefixedSlice (PutVarint32 dst kComparator) (comparator_ e) else dst)
    = dst ++ (if has_comparator_ e then EncodeVarint32 kComparator ++ PutLengthPrefixedSlice [] (comparator_ e) else [])) as ->.
  { destruct (has_comparator_ e); [|by rewrite app_nil_r]. unfold PutVarint32.
    by rewrite (PutLengthPrefixedSlice_app (_ ++ _)), <- app_assoc. }
  by rewrite <- !app_assoc.
Qed.

(** *** Each part is decoded *)

Definition set_if (has : bool) (set : VersionEdit -> Z -> VersionEdit) (e : VersionEdit) (n : Z) : VersionEdit :=
  if has then set e n else e.

Lemma number_consumed e has tag n set what : is_u64 n -> 0 <= tag < 2^32 ->
  (forall input, decode_field tag input e = get_number input e set what) ->
  consumes e (field_number has tag n) (set_if has set e n).
Proof.
  intros Hn Ht Hd. destruct has; cbn [field_number set_if]; [|apply consumes_nil]. apply consumes_tag; [done|]. intros rest.
  unfold get_number in Hd. by rewrite Hd, GetVarint64_put.
Qed.

Lemma compact_pointer_consumed e p : is_level p.1 /\ is_slice p.2 ->
  consumes e (put_compact_pointer [] p) (SetCompactPointer e p.1 p.2).
Proof.
  intros [Hl Hk]. unfold put_compact_pointer. rewrite PutLengthPrefixedSlice_app, level_u32 by done. unfold PutVarint32. cbn [app].
  rewrite <- app_assoc. apply consumes_tag; [done|]. intros rest.
  change (decode_field kCompactPointer ?i e) with
    (match GetLevel i with
     | (Some level, input) =>
         match GetInternalKey input with
         | (Some key, input) => (SetCompactPointer e level key, @None bytes, input)
         | (None, input) => (e, Some (lit "compaction pointer"), input)
         end
     | (None, input) => (e, Some (lit "compaction pointer"), input)
     end).
  by rewrite <- app_assoc, GetLevel_put, GetInternalKey_put.
Qed.

Lemma deleted_file_consumed e p : is_level p.1 /\ is_u64 p.2 -> consumes e (put_deleted_file [] p) (DeleteFile e p.1 p.2).
Proof.
  intros [Hl Hk]. unfold put_deleted_file. rewrite level_u32 by done. unfold PutVarint32, PutVarint64. cbn [app].
  rewrite <- app_assoc. apply consumes_tag; [done|]. intros rest.
  change (decode_field kDeletedFile ?i e) with
    (match GetLevel i with
     | (Some level, input) =>
         match GetVarint64 input with
         | Some (num, input) => (DeleteFile e level num, @None bytes, input)
         | None => (e, Some (lit "deleted file"), input)
         end
     | (None, input) => (e, Some (lit "deleted file"), input)
     end).
  by rewrite <- app_assoc, GetLevel_put, GetVarint64_put.
Qed.

Definition add_file (e : VersionEdit) (p : Z * FileMetaData) : VersionEdit :=
  AddFile e p.1 (number p.2) (file_size p.2) (smallest p.2) (largest p.2).

Lemma new_file_consumed e p : is_level p.1 /\ file_typed p.2 -> consumes e (put_new_file [] p) (add_file e p).
Proof.
  intros [Hl (_ & _ & Hn & Hs & Hk1 & Hk2)]. unfold put_new_file. rewrite level_u32 by done.
  unfold PutVarint32, PutVarint64. cbn [app]. rewrite !(PutLengthPrefixedSlice_app (_ ++ _)).
  rewrite <- !app_assoc. apply consumes_tag; [done|]. intros rest.
  change (decode_field kNewFile ?i e) with (get_new_file i e). unfold get_new_file.
  by rewrite <- !app_assoc, GetLevel_put, !GetVarint64_put, !GetInternalKey_put.
Qed.

Lemma with_files_same e : with_files e (compact_pointers_ e) (deleted_files_ e) (new_files_ e) = e.
Proof. by destruct e. Qed.

Lemma compact_pointers_set l e : fold_left (fun e p => SetCompactPointer e p.1 p.2) l e
  = with_files e (compact_pointers_ e ++ l) (deleted_files_ e) (new_files_ e).
Proof.
  revert e. induction l as [|[lv k] l IH]; intros e; cbn [fold_left]; [by rewrite app_nil_r, with_files_same|].
  rewrite IH. unfold SetCompactPointer, with_files. cbn. by rewrite <- app_assoc.
Qed.

Lemma deleted_files_set l e : StronglySorted pair_lt (deleted_files_ e ++ l) -> fold_left (fun e p => DeleteFile e p.1 p.2) l e
  = with_files e (compact_pointers_ e) (deleted_files_ e ++ l) (new_files_ e).
Proof.
  revert e. induction l as [|x l IH]; intros e Hs; cbn [fold_left]; [by rewrite app_nil_r, with_files_same|].
  assert (set_insert x (deleted_files_ e) = deleted_files_ e ++ [x]) as E.
  { apply set_insert_last. apply StronglySorted_app in Hs as (Hs & _). apply Forall_forall. intros y Hy%list_elem_of_In.
    apply Hs; [done|by left]. }
  assert (DeleteFile e x.1 x.2 = with_files e (compact_pointers_ e) (deleted_files_ e ++ [x]) (new_files_ e)) as ->.
  { unfold DeleteFile. by rewrite <- surjective_pairing, E. }
  rewrite IH; cbn [deleted_files_ with_files]; rewrite <- app_assoc; done.
Qed.

Lemma new_files_set l e : Forall (fun p => is_level p.1 /\ file_typed p.2) l -> fold_left add_file l e
  = with_files e (compact_pointers_ e) (deleted_files_ e) (new_files_ e ++ l).
Proof.
  intros Hl. revert e. induction Hl as [|[lv f] l [_ (Hr & Ha & _)] _ IH]; intros e; cbn [fold_left]; [by rewrite app_nil_r, with_files_same|].
  rewrite IH. unfold add_file, AddFile, with_files. cbn. rewrite <- app_assoc. cbn. destruct f. cbn in *. by subst.
Qed.

Lemma edit_consumed e e0 : typed e -> consumes (Clear e0) (EncodeTo e [])
  (with_files e (compact_pointers_ e0 ++ compact_pointers_ e) (deleted_files_ e) (new_files_ e)).
Proof.
  intros He. destruct (He) as [[Hc Hc0] [Hl Hl0] [Hp Hp0] [Hn Hn0] [Hs Hs0] Hps Hds Hsort Hfs]. rewrite EncodeTo_parts. cbn [app].
  set (e1 := if has_comparator_ e then SetComparatorName (Clear e0) (comparator_ e) else Clear e0).
  set (e2 := set_if (has_log_number_ e) SetLogNumber e1 (log_number_ e)).
  set (e3 := set_if (has_prev_log_number_ e) SetPrevLogNumber e2 (prev_log_number_ e)).
  set (e4 := set_if (has_next_file_number_ e) SetNextFile e3 (next_file_number_ e)).
  set (e5 := set_if (has_last_sequence_ e) SetLastSequence e4 (last_sequence_ e)).
  assert (with_files e (compact_pointers_ e0) [] [] = e5) as E5.
  { unfold e5, e4, e3, e2, e1, set_if, with_files. destruct e as [c l p n s bc bl bp bn bs cps ds nfs]. cbn in *.
    destruct bc, bl, bp, bn, bs; cbn; rewrite ?Hc0, ?Hl0, ?Hp0, ?Hn0, ?Hs0 by done; done. }
  eapply (consumes_app _ _ e1).
  { unfold e1. destruct (has_comparator_ e); [|apply consumes_nil]. apply consumes_tag; [done|]. intros rest.
    change (decode_field kComparator ?i (Clear e0)) with
      (match GetLengthPrefixedSlice i with
       | (Some str, input) => (SetComparatorName (Clear e0) str, @None bytes, input)
       | (None, input) => (Clear e0, Some (lit "comparator name"), input)
       end). by rewrite GetLengthPrefixedSlice_put. }
  eapply (consumes_app _ _ e2); [by apply (number_consumed _ _ _ _ _ (lit "log number"))|].
  eapply (consumes_app _ _ e3); [by apply (number_consumed _ _ _ _ _ (lit "previous log number"))|].
  eapply (consumes_app _ _ e4); [by apply (number_consumed _ _ _ _ _ (lit "next file number"))|].
  eapply (consumes_app _ _ e5); [by apply (number_consumed _ _ _ _ _ (lit "last sequence number"))|]. rewrite <- E5.
  eapply consumes_app; [apply (consumes_list _ (fun e p => SetCompactPointer e p.1 p.2) _ _ _ compact_pointer_consumed Hps)|].
  rewrite compact_pointers_set.
  eapply consumes_app; [apply (consumes_list _ (fun e p => DeleteFile e p.1 p.2) _ _ _ deleted_file_consumed Hds)|].
  rewrite deleted_files_set by done.
  pose proof (consumes_list _ add_file _ (new_files_ e) (with_files e (compact_pointers_ e0 ++ compact_pointers_ e) (deleted_files_ e) [])
    new_file_consumed Hfs) as Hlast. rewrite new_files_set in Hlast by done. exact Hlast.
Qed.

Lemma Decode_Encode e e0 : typed e -> DecodeFrom e0 (EncodeTo e [])
  = Ret (with_files e (compact_pointers_ e0 ++ compact_pointers_ e) (deleted_files_ e) (new_files_ e), Status.OK).
Proof.
  intros He. destruct (edit_consumed e e0 He []) as [n E]. specialize (E 1%nat). rewrite app_nil_r in E.
  assert (decode_loop (S (length (EncodeTo e []))) (Clear e0) (EncodeTo e [])
    = Ret (with_files e (compact_pointers_ e0 ++ compact_pointers_ e) (deleted_files_ e) (new_files_ e), None, [])) as E'.
  { set (src := EncodeTo e []) in *. set (e' := with_files _ _ _ _) in *.
    assert (forall f x, decode_loop f (Clear e0) src = Ret x -> decode_loop (Nat.max f (S (length src))) (Clear e0) src = Ret x) as Hmore
      by (intros f x Ex; apply (decode_loop_more f); [done|lia]).
    assert (exists x, decode_loop (S (length src)) (Clear e0) src = Ret x) as [x Ex].
    { pose proof (decode_loop_ret (S (length src)) (Clear e0) src ltac:(lia)) as (x & ?). by exists x. }
    rewrite Ex. apply Hmore in E. apply (decode_loop_more _ (Nat.max (n + 1) (S (length src)))) in Ex; [|lia]. congruence. }
  unfold DecodeFrom. by rewrite E'.
Qed.

(** ** Properties *)

(** C36: whatever the bytes, [DecodeFrom] ends and leaves a well-typed edit:
    levels are below [kNumLevels], numbers fit 64 bits, the set of deleted files
    is sorted, and a field that was not read has its default.  What was decoded
    without an error is decoded again from its encoding. *)
Theorem version_edit_typed e src : typed e -> exists e' st, DecodeFrom e src = Ret (e', st) /\ typed e'
  /\ DecodeFrom new_VersionEdit (EncodeTo e' []) = Ret (e', Status.OK).
Proof.
  intros He. unfold DecodeFrom at 1.
  destruct (decode_loop_fine (S (length src)) (Clear e) src (Clear_typed _ He) ltac:(lia)) as (e' & msg & rest & -> & He').
  cbn [mbind res_bind]. eexists e', _. split; [done|]. split; [done|].
  rewrite Decode_Encode by done. cbn [new_VersionEdit Clear compact_pointers_ app]. by rewrite with_files_same.
Qed.

(** C35: an edit that the setters built is what [DecodeFrom] makes of its
    encoding, appended to any bytes that are then skipped; but the compaction
    pointers are added to those that the edit decoded into already had, as
    [Clear] does not clear them. *)
Theorem version_edit_roundtrip e e0 dst : typed e ->
  EncodeTo e dst = dst ++ EncodeTo e []
  /\ DecodeFrom e0 (EncodeTo e [])
     = Ret (with_files e (compact_pointers_ e0 ++ compact_pointers_ e) (deleted_files_ e) (new_files_ e), Status.OK)
  /\ (compact_pointers_ e0 = [] -> DecodeFrom e0 (EncodeTo e []) = Ret (e, Status.OK)).
Proof.
  intros He. split; [by rewrite (EncodeTo_parts e dst), (EncodeTo_parts e [])|]. rewrite Decode_Encode by done.
  split; [done|]. intros ->. by rewrite app_nil_l, with_files_same.
Qed.

Definition sample_edit : VersionEdit :=
  AddFile (DeleteFile (DeleteFile (SetCompactPointer (SetLogNumber (SetComparatorName new_VersionEdit (lit "cmp")) 9) 3 (lit "key")) 2 7) 1 300)
    0 12 4096 (lit "a") (lit "z").

Lemma sample_typed : typed sample_edit.
Proof. repeat first [apply AddFile_typed|apply DeleteFile_typed|apply SetCompactPointer_typed|apply SetLogNumber_typed
  |apply SetComparatorName_typed|apply new_typed]; by vm_compute. Qed.

Lemma version_edit_typed_witness : exists e st, DecodeFrom sample_edit (lit "nonsense") = Ret (e, st)
  /\ compact_pointers_ e = [(3, lit "key")] /\ Status.ok st = false
  /\ DecodeFrom new_VersionEdit (EncodeTo e []) = Ret (e, Status.OK).
Proof.
  destruct (version_edit_typed sample_edit (lit "nonsense") sample_typed) as (e & st & E & _ & Er). exists e, st.
  split; [exact E|]. split; [|split; [|exact Er]]; revert E; vm_compute; by intros [= <- <-].
Defined.

Lemma version_edit_roundtrip_witness : DecodeFrom sample_edit (EncodeTo sample_edit [])
  = Ret (with_files sample_edit [(3, lit "key"); (3, lit "key")] [(1, 300); (2, 7)] (new_files_ sample_edit), Status.OK).
Proof. exact (proj1 (proj2 (version_edit_roundtrip sample_edit sample_edit [] sample_typed))). Defined.
