(* ===== verification/Version.v ===== *)
(** * Version: db/version_set.h and db/version_set.cc, class Version

    The files of each level: searching for the file that may hold a key,
    looking a key up through the levels, the overlaps of a range of keys with a
    level, and the statistics that ask for a compaction.  The tables are behind
    an interface, [TableCache], of which a lookup needs [Get]. *)

From S2P Require Import Prelude CLib Double Coding Status DbFormat SkipList MemTable KeyOrder Iterator Filename VersionEdit.

(** ** The table cache

    [cache_Get number size k] is the status and, when it calls the function of
    the caller, the key and the value it calls it with. *)
Class TableCache := {
  cache_Get : Z -> Z -> bytes -> res (Status.t * option (bytes * bytes));
}.

(** ** Constants and sizes *)

Definition kTargetFileSize : Z := 2 * 1048576.
Definition kMaxGrandParentOverlapBytes : Z := 10 * kTargetFileSize.
Definition kExpandedCompactionByteSizeLimit : Z := 25 * kTargetFileSize.
Definition MaxFileSizeForLevel (level : Z) : Z := kTargetFileSize.

Abbreviation files := (list FileMetaData).

Definition TotalFileSize (fs : files) : Z := fold_left (fun sum f => i64 (sum + file_size f)) fs 0.

(** ** The files of the levels *)

(** The links of the list of versions and the reference counts are left out. *)
Record Version := mkVersion {
  files_ : list files;
  file_to_compact_ : option FileMetaData;
  file_to_compact_level_ : Z;
  compaction_score_ : double;
  compaction_level_ : Z;
}.

Definition new_Version : Version :=
  mkVersion (replicate (Z.to_nat config.kNumLevels) []) None (-1) (double_of_Z (-1)) (-1).
Definition with_files_ (v : Version) (fl : list files) : Version :=
  mkVersion fl (file_to_compact_ v) (file_to_compact_level_ v) (compaction_score_ v) (compaction_level_ v).
Definition with_file_to_compact (v : Version) (f : option FileMetaData) (level : Z) : Version :=
  mkVersion (files_ v) f level (compaction_score_ v) (compaction_level_ v).
Definition level_files (v : Version) (level : Z) : files := nth (Z.to_nat level) (files_ v) [].
Definition NumFiles (v : Version) (level : Z) : Z := Z.of_nat (length (level_files v level)).

Definition file_line (r : bytes) (f : FileMetaData) : bytes :=
  AppendNumberTo (AppendNumberTo (r ++ lit " ") (number f) ++ lit ":") (file_size f)
    ++ lit "[" ++ InternalKey_DebugString (smallest f) ++ lit " .. " ++ InternalKey_DebugString (largest f) ++ lit "]" ++ newline.
Fixpoint level_lines (fl : list files) (level : Z) (r : bytes) : bytes :=
  match fl with
  | [] => r
  | fs :: fl => level_lines fl (level + 1) (fold_left file_line fs (AppendNumberTo (r ++ lit "--- level ") level ++ lit " ---" ++ newline))
  end.
Definition Version_DebugString (v : Version) : bytes := level_lines (files_ v) 0 [].

Section version.
Context `{Comparator}.

(** [f->smallest.user_key()] and [f->largest.user_key()]. *)
Definition smallest_user (f : FileMetaData) : res bytes := ExtractUserKey (smallest f).
Definition largest_user (f : FileMetaData) : res bytes := ExtractUserKey (largest f).

Fixpoint find_file_loop (fuel : nat) (fs : files) (key : bytes) (left right : Z) : res Z :=
  match fuel with
  | O => NoFuel
  | S fuel =>
      if left <? right then
        let mid := u32 (left + right) / 2 in
        f ← of_option (fs !! Z.to_nat mid);
        c ← InternalCompare (largest f) key;
        if c <? 0 then find_file_loop fuel fs key (mid + 1) right
        else find_file_loop fuel fs key left mid
      else Ret right
  end.

(** The index of the first file whose largest key is not below the key. *)
Definition FindFile (fs : files) (key : bytes) : res Z :=
  find_file_loop (S (length fs)) fs key 0 (Z.of_nat (length fs)).

Definition AfterFile (user_key : option bytes) (f : FileMetaData) : res bool :=
  match user_key with
  | None => Ret false
  | Some k => l ← largest_user f; Ret (Compare k l >? 0)
  end.
Definition BeforeFile (user_key : option bytes) (f : FileMetaData) : res bool :=
  match user_key with
  | None => Ret false
  | Some k => s ← smallest_user f; Ret (Compare k s <? 0)
  end.

Fixpoint overlap_loop (fs : files) (smallest_user_key largest_user_key : option bytes) : res bool :=
  match fs with
  | [] => Ret false
  | f :: fs =>
      a ← AfterFile smallest_user_key f;
      b ← (if (a : bool) then Ret true else BeforeFile largest_user_key f);
      if (b : bool) then overlap_loop fs smallest_user_key largest_user_key else Ret true
  end.

Definition SomeFileOverlapsRange (disjoint_sorted_files : bool) (fs : files)
    (smallest_user_key largest_user_key : option bytes) : res bool :=
  if negb disjoint_sorted_files then overlap_loop fs smallest_user_key largest_user_key
  else
    index ← match smallest_user_key with
            | Some k => FindFile fs (InternalKey_Encode (InternalKey_make k kMaxSequenceNumber kValueTypeForSeek))
            | None => Ret 0
            end;
    match fs !! Z.to_nat index with
    | None => Ret false
    | Some f => b ← BeforeFile largest_user_key f; Ret (negb b)
    end.

Definition OverlapInLevel (v : Version) (level : Z) (smallest_user_key largest_user_key : option bytes) : res bool :=
  SomeFileOverlapsRange (0 <? level) (level_files v level) smallest_user_key largest_user_key.

(** ** The files that overlap a range

    In level 0 the range grows with the files found, and the search begins
    again. *)
Fixpoint overlapping_loop (fuel : nat) (level0 : bool) (fs : files) (i : nat)
    (user_begin user_end : option bytes) (inputs : files) : res files :=
  match fuel with
  | O => NoFuel
  | S fuel =>
      match fs !! i with
      | None => Ret inputs
      | Some f =>
          file_start ← smallest_user f;
          file_limit ← largest_user f;
          let before := match user_begin with Some b => Compare file_limit b <? 0 | None => false end in
          let after := match user_end with Some e => Compare file_start e >? 0 | None => false end in
          if before || after then overlapping_loop fuel level0 fs (S i) user_begin user_end inputs
          else
            let inputs := inputs ++ [f] in
            if level0 then
              if match user_begin with Some b => Compare file_start b <? 0 | None => false end
              then overlapping_loop fuel level0 fs 0 (Some file_start) user_end []
              else if match user_end with Some e => Compare file_limit e >? 0 | None => false end
              then overlapping_loop fuel level0 fs 0 user_begin (Some file_limit) []
              else overlapping_loop fuel level0 fs (S i) user_begin user_end inputs
            else overlapping_loop fuel level0 fs (S i) user_begin user_end inputs
      end
  end.

(** Every restart moves one end of the range to one more file's. *)
Definition overlapping_fuel (fs : files) : nat := S (length fs) * S (2 * length fs).

(** [begin] and [end] are internal keys, or null. *)
Definition GetOverlappingInputs (v : Version) (level : Z) (begin end_ : option bytes) : res files :=
  user_begin ← match begin with Some k => u ← ExtractUserKey k; Ret (Some u) | None => Ret None end;
  user_end ← match end_ with Some k => u ← ExtractUserKey k; Ret (Some u) | None => Ret None end;
  let fs := level_files v level in
  overlapping_loop (overlapping_fuel fs) (bool_decide (level = 0)) fs 0 user_begin user_end [].

(** The loop that moves the output of a memtable down. *)
Fixpoint pick_level_loop (n : nat) (v : Version) (smallest_user_key largest_user_key : bytes) (level : Z) : res Z :=
  match n with
  | O => Ret level
  | S n =>
      o ← OverlapInLevel v (level + 1) (Some smallest_user_key) (Some largest_user_key);
      if (o : bool) then Ret level
      else
        far ← (if level + 2 <? config.kNumLevels then
                 overlaps ← GetOverlappingInputs v (level + 2)
                   (Some (InternalKey_make smallest_user_key kMaxSequenceNumber kValueTypeForSeek))
                   (Some (InternalKey_make largest_user_key 0 kTypeDeletion));
                 Ret (TotalFileSize overlaps >? kMaxGrandParentOverlapBytes)
               else Ret false);
        if (far : bool) then Ret level
        else pick_level_loop n v smallest_user_key largest_user_key (level + 1)
  end.

Definition PickLevelForMemTableOutput (v : Version) (smallest_user_key largest_user_key : bytes) : res Z :=
  o ← OverlapInLevel v 0 (Some smallest_user_key) (Some largest_user_key);
  if (o : bool) then Ret 0
  else pick_level_loop (Z.to_nat config.kMaxMemCompactLevel) v smallest_user_key largest_user_key 0.

(** ** The iterator over the files of a level *)

Record LevelFileNumIterator := mkLevelIterator { flist_ : files; index_ : Z }.

Definition NewLevelFileNumIterator (fs : files) : LevelFileNumIterator :=
  mkLevelIterator fs (u32 (Z.of_nat (length fs))).

Definition file_at (it : LevelFileNumIterator) : res FileMetaData := of_option (flist_ it !! Z.to_nat (index_ it)).

Definition file_value (f : FileMetaData) : bytes := EncodeFixed64 (number f) ++ EncodeFixed64 (file_size f).

#[export] Instance LevelFileNumIterator_iterator : Iterator LevelFileNumIterator := {
  Valid it := index_ it <? Z.of_nat (length (flist_ it));
  Seek it target := i ← FindFile (flist_ it) target; Ret (mkLevelIterator (flist_ it) i);
  SeekToFirst it := Ret (mkLevelIterator (flist_ it) 0);
  SeekToLast it := Ret (mkLevelIterator (flist_ it)
    (if decide (flist_ it = []) then 0 else u32 (Z.of_nat (length (flist_ it)) - 1)));
  Next it := Ret (mkLevelIterator (flist_ it) (u32 (index_ it + 1)));
  Prev it := Ret (mkLevelIterator (flist_ it)
    (if index_ it =? 0 then u32 (Z.of_nat (length (flist_ it))) else index_ it - 1));
  key it := f ← file_at it; Ret (largest f);
  value it := f ← file_at it; Ret (file_value f);
  status it := Status.OK;
}.

(** ** Looking a key up *)

Inductive SaverState := kNotFound | kFound | kDeleted | kCorrupt.

(** [SaveValue], with the initial state [kNotFound]. *)
Definition SaveValue (user_key ikey v value : bytes) : SaverState * bytes :=
  match ParseInternalKey ikey with
  | None => (kCorrupt, value)
  | Some parsed_key =>
      if decide (Compare (DbFormat.user_key parsed_key) user_key = 0) then
        match type parsed_key with kTypeValue => (kFound, v) | kTypeDeletion => (kDeleted, value) end
      else (kNotFound, value)
  end.

Definition NewestFirst (a b : FileMetaData) : Prop := number b <= number a.
#[export] Instance NewestFirst_dec a b : Decision (NewestFirst a b).
Proof. unfold NewestFirst. apply _. Defined.

(** The files of level 0 whose range holds the user key. *)
Fixpoint covering (fs : files) (user_key : bytes) : res files :=
  match fs with
  | [] => Ret []
  | f :: fs =>
      s ← smallest_user f;
      l ← largest_user f;
      tmp ← covering fs user_key;
      Ret (if (Compare user_key s >=? 0) && (Compare user_key l <=? 0) then f :: tmp else tmp)
  end.

(** The one file of a sorted level that may hold the key. *)
Definition candidate (fs : files) (user_key ikey : bytes) : res files :=
  index ← FindFile fs ikey;
  match fs !! Z.to_nat index with
  | None => Ret []
  | Some f => s ← smallest_user f; Ret (if Compare user_key s <? 0 then [] else [f])
  end.

Definition files_to_search (v : Version) (level : Z) (user_key ikey : bytes) : res files :=
  let fs := level_files v level in
  if decide (fs = []) then Ret []
  else if decide (level = 0) then tmp ← covering fs user_key; Ret (merge_sort NewestFirst tmp)
  else candidate fs user_key ikey.

(** [GetStats] with the file read last. *)
Record ReadStats := mkReadStats {
  seek_file : option (FileMetaData * Z);
  last_file_read : option (FileMetaData * Z);
}.
Definition no_reads : ReadStats := mkReadStats None None.

(** More than one file read: the first is charged. *)
Definition charge (st : ReadStats) (f : FileMetaData) (level : Z) : ReadStats :=
  mkReadStats (match seek_file st with None => last_file_read st | Some _ => seek_file st end) (Some (f, level)).
End version.

Section lookup.
Context `{Comparator} `{!TableCache}.

(** The loop over the files of a level; [None] means that the search goes on. *)
Fixpoint search_files (fs : files) (level : Z) (user_key ikey value : bytes) (st : ReadStats)
    : res (option Status.t * bytes * ReadStats) :=
  match fs with
  | [] => Ret (None, value, st)
  | f :: fs =>
      let st := charge st f level in
      '(s, found) ← cache_Get (number f) (file_size f) ikey;
      if negb (Status.ok s) then Ret (Some s, value, st)
      else
        let '(state, value) := match found with
                               | Some (k, v) => SaveValue user_key k v value
                               | None => (kNotFound, value)
                               end in
        match state with
        | kNotFound => search_files fs level user_key ikey value st
        | kFound => Ret (Some s, value, st)
        | kDeleted => Ret (Some (Status.NotFound [] []), value, st)
        | kCorrupt => Ret (Some (Status.Corruption (lit "corrupted key for ") user_key), value, st)
        end
  end.

Fixpoint search_levels (n : nat) (v : Version) (level : Z) (user_key ikey value : bytes) (st : ReadStats)
    : res (Status.t * bytes * ReadStats) :=
  match n with
  | O => Ret (Status.NotFound [] [], value, st)
  | S n =>
      fs ← files_to_search v level user_key ikey;
      '(r, value, st) ← search_files fs level user_key ikey value st;
      match r with
      | Some s => Ret (s, value, st)
      | None => search_levels n v (level + 1) user_key ikey value st
      end
  end.

(** The status, the value and the file to charge a seek to. *)
Definition Version_Get (v : Version) (k : LookupKey) (value : bytes)
    : res (Status.t * bytes * option (FileMetaData * Z)) :=
  '(s, value, st) ← search_levels (Z.to_nat config.kNumLevels) v 0 (lookup_user_key k) (internal_key k) value no_reads;
  Ret (s, value, seek_file st).
End lookup.

(** ** Statistics *)

Section statistics.
Context `{Comparator}.

(** The object [f] of this version: its seeks left. *)
Definition set_seeks (number_ seeks : Z) (f : FileMetaData) : FileMetaData :=
  if decide (number f = number_)
  then mkFileMetaData (refs f) seeks (number f) (file_size f) (smallest f) (largest f) else f.

(** Whether a compaction is asked for.  A file's counter is an [int]. *)
Definition UpdateStats (v : Version) (stats : option (FileMetaData * Z)) : res (bool * Version) :=
  match stats with
  | None => Ret (false, v)
  | Some (f, level) =>
      seeks ← int_add (allowed_seeks f) (-1);
      let fl := map (map (set_seeks (number f) seeks)) (files_ v) in
      match file_to_compact_ v with
      | None =>
          if seeks <=? 0 then Ret (true, with_file_to_compact (with_files_ v fl) (Some (set_seeks (number f) seeks f)) level)
          else Ret (false, with_files_ v fl)
      | Some g => Ret (false, with_file_to_compact (with_files_ v fl) (Some (set_seeks (number f) seeks g)) (file_to_compact_level_ v))
      end
  end.

(** [ForEachOverlapping]: the callback takes its state and says whether to go
    on. *)
Fixpoint each_file {A} (func : A -> Z -> FileMetaData -> A * bool) (fs : files) (level : Z) (arg : A) : A * bool :=
  match fs with
  | [] => (arg, true)
  | f :: fs => let '(arg, go) := func arg level f in if go then each_file func fs level arg else (arg, false)
  end.

Fixpoint each_level {A} (func : A -> Z -> FileMetaData -> A * bool) (n : nat) (v : Version) (level : Z)
    (user_key internal_key : bytes) (arg : A) : res A :=
  match n with
  | O => Ret arg
  | S n =>
      fs ← files_to_search v level user_key internal_key;
      let '(arg, go) := each_file func fs level arg in
      if go then each_level func n v (level + 1) user_key internal_key arg else Ret arg
  end.

Definition ForEachOverlapping {A} (v : Version) (user_key internal_key : bytes) (arg : A)
    (func : A -> Z -> FileMetaData -> A * bool) : res A :=
  each_level func (Z.to_nat config.kNumLevels) v 0 user_key internal_key arg.

(** [State::Match]: the first file and the number of matches. *)
Definition Match (s : option (FileMetaData * Z) * Z) (level : Z) (f : FileMetaData)
    : (option (FileMetaData * Z) * Z) * bool :=
  let matches := s.2 + 1 in
  let first := if decide (matches = 1) then Some (f, level) else s.1 in
  ((first, matches), matches <? 2).

Definition RecordReadSample (v : Version) (internal_key : bytes) : res (bool * Version) :=
  match ParseInternalKey internal_key with
  | None => Ret (false, v)
  | Some ikey =>
      '(first, matches) ← ForEachOverlapping v (user_key ikey) internal_key (None, 0) Match;
      if matches >=? 2 then UpdateStats v first else Ret (false, v)
  end.
End statistics.

(** ** The search for a file *)

Section find_file.
Context `{Comparator} (fs : files) (key : bytes).
Context (Hkey : internal_valid key) (Hfs : Forall (fun f => internal_valid (largest f)) fs).
Context (Hlen : Z.of_nat (length fs) < 2^31).

(** The keys of the level's iterator: the largest of each file. *)
Definition file_entries (fs : files) : entries := map (fun f => (largest f, file_value f)) fs.

Context (Hsorted : forall i j f g, (i <= j)%nat -> fs !! i = Some f -> fs !! j = Some g ->
  cmp_le internal_cmp (largest f) (largest g)).

Lemma compare_largest i f : fs !! i = Some f ->
  exists c, InternalCompare (largest f) key = Ret c /\ (c ?= 0) = internal_cmp (largest f) key.
Proof.
  intros E. apply (compares (compare_:=InternalCompare) (valid:=internal_valid)); [|done].
  by apply (Forall_lookup_1 _ _ _ _ Hfs E).
Qed.

Lemma find_file_loop_spec fuel left right : 0 <= left <= right -> right <= Z.of_nat (length fs) ->
  right - left < Z.of_nat fuel ->
  (forall i f, Z.of_nat i < left -> fs !! i = Some f -> internal_cmp (largest f) key = Lt) ->
  (forall i f, right <= Z.of_nat i -> fs !! i = Some f -> internal_cmp (largest f) key <> Lt) ->
  exists n, find_file_loop fuel fs key left right = Ret (Z.of_nat n) /\ (n <= length fs)%nat /\
    (forall i f, (i < n)%nat -> fs !! i = Some f -> internal_cmp (largest f) key = Lt) /\
    (forall i f, (n <= i)%nat -> fs !! i = Some f -> internal_cmp (largest f) key <> Lt).
Proof.
  revert left right. induction fuel as [|fuel IH]; intros left right Hl Hr Hf Hb Ha; [lia|].
  cbn [find_file_loop]. destruct (Z.ltb_spec left right) as [Hlr|Hlr].
  2:{ exists (Z.to_nat right). rewrite Z2Nat.id by lia. split; [done|]. split; [lia|].
      split; intros i f Hi E; [apply (Hb i f); [lia|done]|apply (Ha i f); [lia|done]]. }
  rewrite u32_small by lia. set (mid := (left + right) / 2).
  assert (left <= mid < right) as Hm by (unfold mid; split; [apply Z.div_le_lower_bound|apply Z.div_lt_upper_bound]; lia).
  destruct (lookup_lt_is_Some_2 fs (Z.to_nat mid)) as [f E]; [lia|]. rewrite E. cbn [of_option mbind res_bind].
  destruct (compare_largest _ _ E) as (c & -> & Hc). cbn [mbind res_bind].
  destruct (Z.ltb_spec c 0) as [H0|H0].
  - apply IH; [lia|lia|lia| |done]. intros i g Hi Eg. apply Z.compare_lt_iff in H0. rewrite H0 in Hc.
    assert (cmp_le internal_cmp (largest g) (largest f)) as Hle by (eapply (Hsorted i (Z.to_nat mid)); [lia|done|done]).
    apply (cmp_le_lt_trans internal_cmp _ (largest f)); [done|unfold cmp_lt; by rewrite Hc].
  - apply IH; [lia|lia|lia|done|]. intros i g Hi Eg Hlt.
    assert (cmp_le internal_cmp (largest f) (largest g)) as Hle by (eapply (Hsorted (Z.to_nat mid) i); [lia|done|done]).
    assert (internal_cmp (largest f) key = Lt) as Hfk by (by apply (cmp_le_lt_trans internal_cmp _ (largest g))).
    rewrite Hfk in Hc. change (c < 0) in Hc. lia.
Qed.

Lemma FindFile_spec : exists n, FindFile fs key = Ret (Z.of_nat n) /\ (n <= length fs)%nat /\
  (forall i f, (i < n)%nat -> fs !! i = Some f -> internal_cmp (largest f) key = Lt) /\
  (forall i f, (n <= i)%nat -> fs !! i = Some f -> internal_cmp (largest f) key <> Lt).
Proof.
  apply find_file_loop_spec; [lia|lia|lia|intros; lia|].
  intros i f Hi E. apply lookup_lt_Some in E. lia.
Qed.

(** It is the lower bound of the level's iterator. *)
Lemma FindFile_lower_bound : FindFile fs key = Ret (Z.of_nat (lower_bound internal_cmp key (file_entries fs))).
Proof.
  destruct FindFile_spec as (n & -> & Hn & Hb & Ha). do 2 f_equal. symmetry. unfold file_entries.
  apply lower_bound_eq; [by rewrite length_map| |].
  - intros i e Hi E. rewrite list_lookup_fmap in E. destruct (fs !! i) as [f|] eqn:Ef; [|done]. injection E as <-. by apply (Hb i f).
  - intros e E. rewrite list_lookup_fmap in E. destruct (fs !! n) as [f|] eqn:Ef; [|done]. injection E as <-. by apply (Ha n f).
Qed.
End find_file.

(** ** Looking up in sorted runs of writes *)

Abbreviation write := (ParsedInternalKey * bytes)%type.

(** The newest write to [u] that snapshot [s] sees, in any collection. *)
Definition is_newest `{Comparator} (u : bytes) (s : Z) (ws : list write) (o : option write) : Prop :=
  match o with
  | Some e => e ∈ ws /\ visible u s e /\ forall e', e' ∈ ws -> visible u s e' -> sequence e'.1 <= sequence e.1
  | None => forall e, e ∈ ws -> ~ visible u s e
  end.

(** The first write visible in a list. *)
Definition first_visible `{Comparator} (u : bytes) (s : Z) (ws : list write) : option write :=
  head (filter (visible u s) ws).

Section runs.
Context `{Comparator} (u : bytes) (s : Z).

Lemma first_visible_app l k : first_visible u s (l ++ k)
  = match first_visible u s l with Some e => Some e | None => first_visible u s k end.
Proof. unfold first_visible. rewrite list.filter_app. by destruct (filter _ l). Qed.

Lemma first_visible_elem l e : first_visible u s l = Some e -> e ∈ l /\ visible u s e.
Proof.
  unfold first_visible. destruct (filter _ l) as [|x k] eqn:E; [done|]. intros [= ->].
  assert (e ∈ filter (visible u s) l) as Hin by (rewrite E; left). apply list_elem_of_filter in Hin. tauto.
Qed.

Lemma first_visible_none l : first_visible u s l = None <-> forall e, e ∈ l -> ~ visible u s e.
Proof.
  unfold first_visible. destruct (filter _ l) as [|x k] eqn:E; cbn; split; try done.
  - intros _ e He Hv. assert (e ∈ filter (visible u s) l) as Hin by (by apply list_elem_of_filter). rewrite E in Hin. by apply elem_of_nil in Hin.
  - intros Hn. assert (x ∈ filter (visible u s) l) as Hin by (rewrite E; left). apply list_elem_of_filter in Hin as [Hv Hin]. by destruct (Hn x).
Qed.

(** Writes to one user key come newest first in the order of the keys. *)
Lemma key_order_newest a b : cmp_lt write_cmp a b -> ucmp (user_key a.1) (user_key b.1) = Eq -> sequence b.1 <= sequence a.1.
Proof.
  unfold cmp_lt, write_cmp, ikey_cmp, cmp_then, cmp_on, cmp_flip. intros Hlt Heq. rewrite Heq in Hlt.
  destruct (Z.compare_spec (sequence b.1) (sequence a.1)); [lia|lia|done].
Qed.

Lemma visible_same a b : visible u s a -> visible u s b -> ucmp (user_key a.1) (user_key b.1) = Eq.
Proof. intros [Ha _] [Hb _]. rewrite (cmp_eq_l (cmp:=ucmp) _ _ _ Ha). by rewrite (cmp_antisym (cmp:=ucmp)), Hb. Qed.

(** Runs of writes, each in key order, the runs from newer to older. *)
Definition run_newer (g h : list write) : Prop :=
  forall a b, a ∈ g -> b ∈ h -> ucmp (user_key a.1) (user_key b.1) = Eq -> sequence b.1 < sequence a.1.
Definition runs_ordered (gs : list (list write)) : Prop :=
  Forall (StronglySorted (cmp_lt write_cmp)) gs /\ StronglySorted run_newer gs.

Lemma first_visible_sorted ws : StronglySorted (cmp_lt write_cmp) ws -> is_newest u s ws (first_visible u s ws).
Proof.
  intros Hs. destruct (first_visible u s ws) as [e|] eqn:E; [|exact (proj1 (first_visible_none ws) E)].
  destruct (first_visible_elem _ _ E) as [Hin Hv]. split; [done|]. split; [done|]. revert E Hin Hv.
  induction Hs as [|x ws Hs IH Hx]; [done|]. intros E Hin Hv e' Hin' Hv'. unfold first_visible in E. rewrite filter_cons in E.
  destruct (decide (visible u s x)) as [Hvx|Hvx].
  - injection E as ->. apply elem_of_cons in Hin' as [->|Hin']; [lia|].
    apply key_order_newest; [|by apply visible_same]. rewrite Forall_forall in Hx. by apply Hx, list_elem_of_In.
  - apply elem_of_cons in Hin as [->|Hin]; [done|]. apply elem_of_cons in Hin' as [->|Hin']; [done|]. by apply IH.
Qed.

Lemma first_visible_runs gs : runs_ordered gs -> is_newest u s (concat gs) (first_visible u s (concat gs)).
Proof.
  intros [Hs Hn]. induction Hn as [|g gs Hn IH Hg]; [intros e He; by apply elem_of_nil in He|].
  apply Forall_cons_1 in Hs as [Hsg Hs]. specialize (IH Hs). cbn [concat]. rewrite first_visible_app.
  pose proof (first_visible_sorted g Hsg) as Hfg. destruct (first_visible u s g) as [e|].
  - destruct Hfg as (Hin & Hv & Hmax). split; [by apply elem_of_app; left|]. split; [done|].
    intros e' [Hin'|Hin']%elem_of_app Hv'; [by apply Hmax|].
    apply list_elem_of_In, in_concat in Hin' as (h & Hh & He'). rewrite Forall_forall in Hg.
    pose proof (Hg h Hh e e' Hin ltac:(by apply list_elem_of_In) ltac:(by apply visible_same)). lia.
  - destruct (first_visible u s (concat gs)) as [e|].
    + destruct IH as (Hin & Hv & Hmax). split; [by apply elem_of_app; right|]. split; [done|].
      intros e' [Hin'|Hin']%elem_of_app Hv'; [by destruct (Hfg e')|by apply Hmax].
    + intros e' [Hin'|Hin']%elem_of_app Hv'; [by destruct (Hfg e')|by destruct (IH e')].
Qed.

(** The newest is the same for the same writes. *)
Lemma is_newest_elem ws ws' o : (forall e, e ∈ ws <-> e ∈ ws') -> is_newest u s ws o -> is_newest u s ws' o.
Proof. intros Hw. destruct o as [e|]; cbn; setoid_rewrite Hw; tauto. Qed.
End runs.

(** ** Versions of tables *)

Section tables.
Context `{Comparator}.
(** The writes in the table of each number. *)
Context (C : Z -> list write).

Record file_ok (f : FileMetaData) : Prop := {
  fo_seqs : Forall (fun e : write => valid_seq (sequence e.1)) (C (number f));
  fo_sorted : StronglySorted (cmp_lt write_cmp) (C (number f));
  fo_smallest : exists e, head (C (number f)) = Some e /\ smallest f = encode_key e.1;
  fo_largest : exists e, list.last (C (number f)) = Some e /\ largest f = encode_key e.1;
}.

Definition files_writes (fs : files) : list write := concat (map (fun f => C (number f)) fs).

(** A sorted level: the files are disjoint and in order. *)
Definition file_before (f g : FileMetaData) : Prop := cmp_lt internal_cmp (largest f) (smallest g).

Record version_wf (v : Version) : Prop := {
  vw_levels : length (files_ v) = Z.to_nat config.kNumLevels;
  vw_files : forall level f, f ∈ level_files v level -> file_ok f;
  vw_bound : forall level, Z.of_nat (length (level_files v level)) < 2^31;
  vw_disjoint : forall level, 0 < level -> StronglySorted file_before (level_files v level);
  vw_numbers : NoDup (map number (level_files v 0));
  vw_recency0 : forall f g, f ∈ level_files v 0 -> g ∈ level_files v 0 -> number f < number g ->
    run_newer (C (number g)) (C (number f));
  vw_recency : forall l l', 0 <= l < l' -> run_newer (files_writes (level_files v l)) (files_writes (level_files v l'));
}.

Definition version_writes (v : Version) : list write := concat (map files_writes (files_ v)).

(** What a lookup in one table finds: the newest write visible there, or
    nothing, or an entry for another user key. *)
Definition lookup_found (u : bytes) (s : Z) (ws : list write) (found : option (bytes * bytes)) : Prop :=
  match first_visible u s ws with
  | Some e => found = Some (encode_key e.1, e.2)
  | None => match found with
            | None => True
            | Some (k, _) => exists e, e ∈ ws /\ k = encode_key e.1 /\ ucmp (user_key e.1) u <> Eq
            end
  end.

(** What the table cache promises. *)
Class TableCacheSpec `{!TableCache} (good : FileMetaData -> Prop) : Prop :=
  cache_Get_spec f u s : good f -> valid_seq s -> exists found,
    cache_Get (number f) (file_size f) (encode_key (mkParsed u s kValueTypeForSeek)) = Ret (Status.OK, found)
    /\ lookup_found u s (C (number f)) found.
End tables.

Section file_facts.
Context `{Comparator} (C : Z -> list write).

Lemma file_first f : file_ok C f -> exists e, e ∈ C (number f) /\ valid_seq (sequence e.1) /\ smallest f = encode_key e.1
  /\ forall x, x ∈ C (number f) -> cmp_le ikey_cmp e.1 x.1.
Proof.
  intros [Hv Hsort (e & He & Es) _]. exists e. destruct (C (number f)) as [|y ws]; [done|]. injection He as ->.
  split; [left|]. split; [by apply Forall_cons_1 in Hv as [? _]|]. split; [done|]. intros x [->|Hx]%elem_of_cons.
  - unfold cmp_le. by rewrite cmp_refl.
  - apply StronglySorted_inv in Hsort as [_ Hf]. rewrite Forall_forall in Hf. apply (cmp_lt_le ikey_cmp).
    by apply Hf, list_elem_of_In.
Qed.

Lemma file_last f : file_ok C f -> exists e, e ∈ C (number f) /\ valid_seq (sequence e.1) /\ largest f = encode_key e.1
  /\ forall x, x ∈ C (number f) -> cmp_le ikey_cmp x.1 e.1.
Proof.
  intros [Hv Hsort _ (e & He & Es)]. exists e. apply last_Some in He as [ws E]. rewrite E in *.
  split; [set_solver|]. split; [apply Forall_app in Hv as [_ Hv]; by apply Forall_cons_1 in Hv as [? _]|]. split; [done|].
  intros x [Hx|Hx%list_elem_of_singleton]%elem_of_app; [|subst x; unfold cmp_le; by rewrite cmp_refl].
  apply StronglySorted_app in Hsort as [Hlt _]. apply (cmp_lt_le ikey_cmp). apply (Hlt x e Hx). set_solver.
Qed.

Lemma file_seq f e : file_ok C f -> e ∈ C (number f) -> valid_seq (sequence e.1).
Proof. intros [Hv _ _ _] He. rewrite Forall_forall in Hv. by apply Hv, list_elem_of_In. Qed.

Lemma file_smallest f : file_ok C f -> exists e, e ∈ C (number f) /\ smallest_user f = Ret (user_key e.1)
  /\ internal_valid (smallest f) /\ forall x, x ∈ C (number f) -> cmp_le ucmp (user_key e.1) (user_key x.1).
Proof.
  intros Hf. destruct (file_first f Hf) as (e & He & Hv & Es & Hle). exists e. split; [done|].
  unfold smallest_user. rewrite Es, ExtractUserKey_encode. split; [done|].
  split; [by destruct (raw_encode e.1 Hv) as (_ & _ & ?)|]. intros x Hx. specialize (Hle x Hx).
  unfold cmp_le, ikey_cmp, cmp_then, cmp_on in Hle |- *. by destruct (ucmp (user_key e.1) (user_key x.1)).
Qed.

Lemma file_largest f : file_ok C f -> exists e, e ∈ C (number f) /\ largest_user f = Ret (user_key e.1)
  /\ internal_valid (largest f) /\ forall x, x ∈ C (number f) -> cmp_le ucmp (user_key x.1) (user_key e.1).
Proof.
  intros Hf. destruct (file_last f Hf) as (e & He & Hv & Es & Hle). exists e. split; [done|].
  unfold largest_user. rewrite Es, ExtractUserKey_encode. split; [done|].
  split; [by destruct (raw_encode e.1 Hv) as (_ & _ & ?)|]. intros x Hx. specialize (Hle x Hx).
  unfold cmp_le, ikey_cmp, cmp_then, cmp_on in Hle |- *. by destruct (ucmp (user_key x.1) (user_key e.1)).
Qed.

(** ** A sorted level *)

Context (fs : files) (Hok : forall f, f ∈ fs -> file_ok C f) (Hdis : StronglySorted file_before fs).
Context (Hbound : Z.of_nat (length fs) < 2^31).

Lemma level_valid : Forall (fun f => internal_valid (largest f)) fs.
Proof.
  apply Forall_forall. intros f Hf%list_elem_of_In. destruct (file_largest f (Hok f Hf)) as (_ & _ & _ & Hv & _). done.
Qed.

Lemma files_in_order i j f g a b : (i < j)%nat -> fs !! i = Some f -> fs !! j = Some g ->
  a ∈ C (number f) -> b ∈ C (number g) -> cmp_lt ikey_cmp a.1 b.1.
Proof.
  intros Hij Ef Eg Ha Hb. pose proof (StronglySorted_at _ _ i j f g Hdis Hij Ef Eg) as Hlt. unfold file_before in Hlt.
  apply list_elem_of_lookup_2 in Ef, Eg.
  destruct (file_last f (Hok f Ef)) as (l & _ & Hl & El & Hle). destruct (file_first g (Hok g Eg)) as (m & _ & Hm & Em & Hge).
  rewrite El, Em in Hlt. unfold cmp_lt in Hlt. rewrite internal_cmp_encode in Hlt by done.
  apply (cmp_le_lt_trans ikey_cmp _ l.1); [by apply Hle|]. apply (cmp_lt_le_trans ikey_cmp _ m.1); [done|by apply Hge].
Qed.

Lemma largest_mono i j f g : (i <= j)%nat -> fs !! i = Some f -> fs !! j = Some g ->
  cmp_le internal_cmp (largest f) (largest g).
Proof.
  intros Hij Ef Eg. destruct (decide (i = j)) as [->|]; [rewrite Ef in Eg; injection Eg as ->; unfold cmp_le; by rewrite cmp_refl|].
  pose proof (list_elem_of_lookup_2 _ _ _ Ef) as Hf. pose proof (list_elem_of_lookup_2 _ _ _ Eg) as Hg.
  destruct (file_last f (Hok f Hf)) as (a & Ha & Hva & Ea & _). destruct (file_last g (Hok g Hg)) as (b & Hb & Hvb & Eb & _).
  apply (cmp_lt_le internal_cmp). unfold cmp_lt. rewrite Ea, Eb, internal_cmp_encode by done.
  apply (files_in_order i j f g); [lia|done..].
Qed.

Lemma level_sorted : StronglySorted (cmp_lt write_cmp) (files_writes C fs).
Proof.
  clear Hbound. unfold files_writes. induction Hdis as [|f l Hl IH Hf]; [constructor|]. cbn [map concat].
  apply StronglySorted_app. split; [|split; [by destruct (Hok f ltac:(left))|apply IH; [intros; apply Hok; by right|done]]].
  intros a b Ha (ws & Hws & Hb)%list_elem_of_In%in_concat. apply in_map_iff in Hws as (g & <- & Hg).
  rewrite Forall_forall in Hf. specialize (Hf g Hg). apply list_elem_of_In in Hg, Hb. unfold file_before in Hf.
  destruct (file_last f (Hok f ltac:(left))) as (x & _ & Hx & Ex & Hle).
  destruct (file_first g (Hok g ltac:(by right))) as (y & _ & Hy & Ey & Hge).
  rewrite Ex, Ey in Hf. unfold cmp_lt in Hf. rewrite internal_cmp_encode in Hf by done.
  apply (cmp_le_lt_trans ikey_cmp _ x.1); [by apply Hle|]. apply (cmp_lt_le_trans ikey_cmp _ y.1); [done|by apply Hge].
Qed.

Context (u : bytes) (s : Z) (Hs : valid_seq s).
Abbreviation lookup := (mkParsed u s kValueTypeForSeek).

Lemma visible_ge (e : write) : ucmp (user_key e.1) u = Eq -> visible u s e <-> ~ cmp_lt ikey_cmp e.1 lookup.
Proof. intros He. rewrite ge_lookup. split; [by right|]. intros [Hg|Hv]; [congruence|done]. Qed.

Lemma seek_valid : internal_valid (encode_key lookup).
Proof. by destruct (raw_encode lookup Hs) as (_ & _ & ?). Qed.

(** The one file searched holds the newest visible write of the level. *)
Lemma candidate_spec : exists tmp, candidate fs u (encode_key lookup) = Ret tmp
  /\ (forall f, f ∈ tmp -> f ∈ fs)
  /\ first_visible u s (files_writes C tmp) = first_visible u s (files_writes C fs).
Proof.
  unfold candidate. destruct (FindFile_spec fs (encode_key lookup) seek_valid level_valid Hbound largest_mono)
    as (n & -> & Hn & Hb & Ha). cbn [mbind res_bind]. rewrite Nat2Z.id.
  assert (forall i f e, (i < n)%nat -> fs !! i = Some f -> e ∈ C (number f) -> ~ visible u s e) as Hbefore.
  { intros i f e Hi E He Hv. pose proof (Hb i f Hi E) as Hlt. apply list_elem_of_lookup_2 in E.
    destruct (file_last f (Hok f E)) as (l & _ & Hl & El & Hle). rewrite El, internal_cmp_encode in Hlt by done.
    destruct (ge_lookup u s e) as [_ Hge]. apply Hge; [by right|]. by apply (cmp_le_lt_trans ikey_cmp _ l.1); [apply Hle|]. }
  destruct (fs !! n) as [f|] eqn:E.
  2:{ apply lookup_ge_None in E. exists []. split; [done|]. split; [set_solver|]. symmetry. apply first_visible_none.
      intros e (ws & Hws & He)%list_elem_of_In%in_concat. apply in_map_iff in Hws as (g & <- & Hg).
      apply list_elem_of_In, list_elem_of_lookup in Hg as [i Ei]. apply (Hbefore i g); [|done|by apply list_elem_of_In].
      apply lookup_lt_Some in Ei. lia. }
  assert (files_writes C fs = files_writes C (take n fs) ++ C (number f) ++ files_writes C (drop (S n) fs)) as Ews.
  { rewrite <- (take_drop_middle fs n f E) at 1. unfold files_writes. rewrite map_app, concat_app. done. }
  assert (first_visible u s (files_writes C (take n fs)) = None) as Etake.
  { apply first_visible_none. intros e (ws & Hws & He)%list_elem_of_In%in_concat. apply in_map_iff in Hws as (g & <- & Hg).
    apply list_elem_of_In, list_elem_of_lookup in Hg as [i Ei]. apply lookup_take_Some in Ei as [Ei Hi].
    apply (Hbefore i g); [lia|done|by apply list_elem_of_In]. }
  rewrite Ews, first_visible_app, Etake, first_visible_app.
  assert (forall e, e ∈ files_writes C (drop (S n) fs) -> exists j g, (n < j)%nat /\ fs !! j = Some g /\ e ∈ C (number g)) as Hdrop.
  { intros e (ws & Hws & He)%list_elem_of_In%in_concat. apply in_map_iff in Hws as (g & <- & Hg).
    apply list_elem_of_In, list_elem_of_lookup in Hg as [j Ej]. rewrite lookup_drop in Ej.
    exists (S n + j)%nat, g. split; [lia|]. split; [done|by apply list_elem_of_In]. }
  pose proof (list_elem_of_lookup_2 _ _ _ E) as Hf.
  destruct (file_smallest f (Hok f Hf)) as (a & Hia & -> & _ & Hsm). cbn [mbind res_bind].
  destruct (Z.ltb_spec (Compare u (user_key a.1)) 0) as [Hlt|Hge]; eexists; (split; [done|]).
  - split; [set_solver|]. symmetry. apply Compare_lt in Hlt.
    assert (forall e, cmp_le ucmp (user_key a.1) (user_key e.1) -> ~ visible u s e) as Hnv.
    { intros e Hle [Hv _]. apply (irreflexivity (cmp_lt ucmp) u). apply (cmp_lt_le_trans ucmp _ (user_key a.1)); [done|].
      unfold cmp_le in *. by rewrite (cmp_eq_r ucmp _ _ _ Hv) in Hle. }
    assert (first_visible u s (C (number f)) = None) as -> by (apply first_visible_none; intros e He; by apply Hnv, Hsm).
    apply first_visible_none. intros e He. apply Hnv. destruct (Hdrop e He) as (j & g & Hj & Ej & Hej).
    pose proof (files_in_order n j f g a e Hj E Ej Hia Hej) as Hlt'.
    unfold cmp_lt, cmp_le, ikey_cmp, cmp_then, cmp_on in *. by destruct (ucmp (user_key a.1) (user_key e.1)).
  - split; [set_solver|]. unfold files_writes at 1. cbn [map concat]. rewrite app_nil_r.
    destruct (first_visible u s (C (number f))) as [e|] eqn:Ef; [done|]. symmetry. apply first_visible_none.
    intros e He Hv. destruct (Hdrop e He) as (j & g & Hj & Ej & Hej).
    destruct (file_last f (Hok f Hf)) as (l & Hl & Hvl & El & _).
    pose proof (Ha n f ltac:(lia) E) as Hnl. rewrite El, internal_cmp_encode in Hnl by done.
    pose proof (files_in_order n j f g l e Hj E Ej Hl Hej) as Hlt'.
    rewrite first_visible_none in Ef. apply (Ef l Hl). apply visible_ge; [|done].
    destruct Hv as [Hv _]. unfold cmp_lt, ikey_cmp, cmp_then, cmp_on in Hlt', Hnl. cbn in Hnl.
    destruct (ucmp (user_key l.1) u) eqn:Elu; [done|by destruct Hnl|].
    rewrite (cmp_eq_r ucmp _ _ _ Hv), Elu in Hlt'. done.
Qed.
End file_facts.

(** ** The search through the levels *)

Section search.
Context `{Comparator} (C : Z -> list write) `{!TableCache} (good : FileMetaData -> Prop).
Context (Hcache : TableCacheSpec C good) (u : bytes) (s : Z) (Hs : valid_seq s).
Abbreviation ikey := (encode_key (mkParsed u s kValueTypeForSeek)).

(** What a search that found [o] returns, with the value it was given. *)
Definition found_answer (o : option write) (value : bytes) : option Status.t * bytes :=
  match o with
  | None => (None, value)
  | Some (k, v) => match type k with
                   | kTypeValue => (Some Status.OK, v)
                   | kTypeDeletion => (Some (Status.NotFound [] []), value)
                   end
  end.

Definition charged (P : FileMetaData -> Z -> Prop) (st : ReadStats) : Prop :=
  (forall f l, seek_file st = Some (f, l) -> P f l) /\ (forall f l, last_file_read st = Some (f, l) -> P f l).

Lemma charge_charged P st f l : charged P st -> P f l -> charged P (charge st f l).
Proof.
  intros [H1 H2] HP. unfold charge. split; cbn.
  - intros f' l'. destruct (seek_file st); [apply H1|apply H2].
  - by intros f' l' [= <- <-].
Qed.

Lemma SaveValue_other (e : write) v value : valid_seq (sequence e.1) -> ucmp (user_key e.1) u <> Eq ->
  SaveValue u (encode_key e.1) v value = (kNotFound, value).
Proof.
  intros Hv He. unfold SaveValue. rewrite ParseInternalKey_encode by done. rewrite decide_False; [done|].
  intros E. by apply He, Compare_eq.
Qed.

Lemma search_files_spec (P : FileMetaData -> Z -> Prop) level fs : forall value st,
  (forall f, f ∈ fs -> good f /\ file_ok C f /\ P f level) -> charged P st ->
  exists st', charged P st' /\ search_files fs level u ikey value st
    = Ret (found_answer (first_visible u s (files_writes C fs)) value, st').
Proof.
  induction fs as [|f fs IH]; intros value st Hfs Hst; [by exists st|]. cbn [search_files].
  destruct (Hfs f ltac:(left)) as (Hg & Hok & HP).
  destruct (Hcache f u s Hg Hs) as (found & -> & Hfound). cbn [mbind res_bind Status.ok Status.OK negb].
  unfold files_writes. cbn [map concat]. rewrite first_visible_app. fold (files_writes C fs). unfold lookup_found in Hfound.
  pose proof (charge_charged P st f level Hst HP) as Hst'.
  destruct (first_visible u s (C (number f))) as [e|] eqn:E.
  - subst found. exists (charge st f level). split; [done|]. apply first_visible_elem in E as [Hin [Hv _]].
    unfold SaveValue. rewrite ParseInternalKey_encode by (by eapply file_seq). apply Compare_eq in Hv. rewrite decide_True by done.
    destruct e as [[uk sq []] v]; done.
  - assert (forall value, (match found with Some (k, v) => SaveValue u k v value | None => (kNotFound, value) end) = (kNotFound, value)) as Ef.
    { intros value'. destruct found as [[k v]|]; [|done]. destruct Hfound as (e & Hin & -> & Hne).
      apply SaveValue_other; [by eapply file_seq|done]. }
    rewrite Ef. apply IH; [intros; apply Hfs; by right|done].
Qed.

(** Level 0: the files that cover the user key, from the newest. *)
Lemma covering_spec fs : (forall f, f ∈ fs -> file_ok C f) -> exists tmp, covering fs u = Ret tmp
  /\ sublist tmp fs /\ forall f e, f ∈ fs -> e ∈ C (number f) -> visible u s e -> f ∈ tmp.
Proof.
  induction fs as [|f fs IH]; intros Hok; [by exists []|]. cbn [covering].
  destruct (file_smallest C f (Hok f ltac:(left))) as (a & Ha & -> & _ & Hsm).
  destruct (file_largest C f (Hok f ltac:(left))) as (b & Hb & -> & _ & Hlg).
  destruct IH as (tmp & -> & Hsub & Hcov); [intros; apply Hok; by right|]. cbn [mbind res_bind].
  destruct (_ && _) eqn:E; eexists; (split; [done|]).
  - split; [by constructor|]. intros g e [->|Hg]%elem_of_cons He Hv; [left|right; by eapply Hcov].
  - split; [by constructor|]. intros g e [->|Hg]%elem_of_cons He Hv; [|by eapply Hcov]. exfalso.
    destruct Hv as [Hv _]. specialize (Hsm e He). specialize (Hlg e He). unfold cmp_le in Hsm, Hlg.
    rewrite (cmp_eq_r ucmp _ _ _ Hv) in Hsm. rewrite (cmp_eq_l (cmp:=ucmp) _ _ _ Hv) in Hlg.
    apply andb_false_iff in E as [E|E].
    + assert (Compare u (user_key a.1) < 0) as Hlt by lia. change (ucmp u (user_key a.1) = Lt) in Hlt.
      rewrite (cmp_antisym (cmp:=ucmp) u), Hlt in Hsm. done.
    + assert (~ Compare u (user_key b.1) <= 0) as Hle by lia. by rewrite Compare_le in Hle.
Qed.

Lemma sorted_by_number fs : NoDup (map number fs) -> StronglySorted NewestFirst fs ->
  StronglySorted (fun f g => number g < number f) fs.
Proof.
  intros Hnd Hso. induction Hso as [|f fs Hso IH Hf]; [constructor|]. inversion_clear Hnd as [|? ? Hni Hnd'].
  constructor; [by apply IH|]. rewrite Forall_forall in Hf |- *. intros g Hg. specialize (Hf g Hg). unfold NewestFirst in Hf.
  assert (number f <> number g) as Hne; [|lia]. intros E. apply Hni. rewrite E. apply list_elem_of_fmap. exists g.
  split; [done|by apply list_elem_of_In].
Qed.

#[export] Instance NewestFirst_total : Total NewestFirst.
Proof. intros f g. unfold NewestFirst. lia. Qed.
#[export] Instance NewestFirst_trans : Transitive NewestFirst.
Proof. intros f g h. unfold NewestFirst. lia. Qed.

Lemma sorted_level0 fs : (forall f, f ∈ fs -> file_ok C f) -> NoDup (map number fs) ->
  (forall f g, f ∈ fs -> g ∈ fs -> number f < number g -> run_newer (C (number g)) (C (number f))) ->
  runs_ordered (map (fun f => C (number f)) (merge_sort NewestFirst fs)).
Proof.
  intros Hok Hnd Hrec. pose proof (merge_sort_Permutation NewestFirst fs) as Hp. split.
  - apply Forall_map. rewrite Hp. apply Forall_forall. intros f Hf%list_elem_of_In. by destruct (Hok f Hf).
  - assert (StronglySorted (fun f g => number g < number f) (merge_sort NewestFirst fs)) as Hso.
    { apply sorted_by_number; [by rewrite Hp|apply StronglySorted_merge_sort; apply _]. }
    apply StronglySorted_from. intros i j x y Hij Ex Ey. rewrite list_lookup_fmap in Ex, Ey.
    destruct (merge_sort _ _ !! i) as [f|] eqn:Ef; [|done]. destruct (merge_sort _ _ !! j) as [g|] eqn:Eg; [|done].
    injection Ex as <-. injection Ey as <-. pose proof (StronglySorted_at _ _ i j f g Hso Hij Ef Eg) as Hlt. cbn in Hlt.
    apply list_elem_of_lookup_2 in Ef, Eg. rewrite Hp in Ef, Eg. by apply Hrec.
Qed.

(** ** A version *)

Context (v : Version) (Hwf : version_wf C v) (Hgood : forall level f, f ∈ level_files v level -> good f).

Lemma level_ok level : forall f, f ∈ level_files v level -> file_ok C f.
Proof. apply (vw_files _ _ Hwf). Qed.

(** The files searched in a level hold the level's newest visible write. *)
Lemma files_to_search_spec level : 0 <= level -> exists fs, files_to_search v level u ikey = Ret fs
  /\ (forall f, f ∈ fs -> f ∈ level_files v level)
  /\ is_newest u s (files_writes C (level_files v level)) (first_visible u s (files_writes C fs)).
Proof.
  intros Hlevel. unfold files_to_search. set (all := level_files v level).
  destruct (decide (all = [])) as [E|_].
  { exists []. rewrite E. split; [done|]. split; [done|]. intros e He. by apply elem_of_nil in He. }
  case_decide as Hzero.
  - destruct (covering_spec all (level_ok level)) as (tmp & -> & Hsub & Hcov). cbn [mbind res_bind].
    exists (merge_sort NewestFirst tmp). split; [done|]. pose proof (merge_sort_Permutation NewestFirst tmp) as Hp.
    assert (forall f, f ∈ tmp -> f ∈ all) as Hin by (intros f Hf; by eapply elem_of_sublist).
    split; [intros f Hf; apply Hin; by rewrite Hp in Hf|]. subst level.
    assert (runs_ordered (map (fun f => C (number f)) (merge_sort NewestFirst tmp))) as Hruns.
    { apply sorted_level0; [intros f Hf; apply (level_ok 0), Hin, Hf| |].
      - apply (sublist_NoDup _ (map number all)); [apply (vw_numbers _ _ Hwf)|by apply (fmap_sublist number)].
      - intros f g Hf Hg. apply (vw_recency0 _ _ Hwf); by apply Hin. }
    pose proof (first_visible_runs u s _ Hruns) as Hn. fold (files_writes C (merge_sort NewestFirst tmp)) in Hn.
    set (o := first_visible u s _) in *. clearbody o.
    assert (forall e, e ∈ files_writes C (merge_sort NewestFirst tmp) <-> exists f, f ∈ tmp /\ e ∈ C (number f)) as Helem.
    { intros e. unfold files_writes. rewrite list_elem_of_In, in_concat. split.
      - intros (ws & Hws & He). apply in_map_iff in Hws as (f & <- & Hf). exists f. rewrite <- Hp. split; by apply list_elem_of_In.
      - intros (f & Hf & He). exists (C (number f)). split; [|by apply list_elem_of_In]. apply in_map_iff. exists f.
        split; [done|]. apply list_elem_of_In. by rewrite Hp. }
    assert (forall e, e ∈ files_writes C all <-> exists f, f ∈ all /\ e ∈ C (number f)) as Hall.
    { intros e. unfold files_writes. rewrite list_elem_of_In, in_concat. split.
      - intros (ws & Hws & He). apply in_map_iff in Hws as (f & <- & Hf). exists f. split; by apply list_elem_of_In.
      - intros (f & Hf & He). exists (C (number f)). split; [|by apply list_elem_of_In]. apply in_map_iff. exists f.
        split; [done|by apply list_elem_of_In]. }
    destruct o as [e|]; cbn in Hn |- *.
    + destruct Hn as (He & Hv & Hmax). split; [apply Hall; apply Helem in He as (f & Hf & He); exists f; eauto|].
      split; [done|]. intros e' (f & Hf & He')%Hall Hv'. apply Hmax; [|done]. apply Helem. exists f. split; [by eapply Hcov|done].
    + intros e (f & Hf & He)%Hall Hv. apply (Hn e); [|done]. apply Helem. exists f. split; [by eapply Hcov|done].
  - destruct (candidate_spec C all (level_ok level)) with u s as (tmp & -> & Hin & Efv);
      [apply (vw_disjoint _ _ Hwf); lia|apply (vw_bound _ _ Hwf)|exact Hs|].
    exists tmp. split; [done|]. split; [exact Hin|]. rewrite Efv. apply first_visible_sorted.
    apply level_sorted; [apply (level_ok level)|apply (vw_disjoint _ _ Hwf); lia].
Qed.

Definition levels_from (n : nat) (level : Z) : list write :=
  concat (map (fun i => files_writes C (level_files v (level + Z.of_nat i))) (seq 0 n)).

Lemma levels_from_S n level : levels_from (S n) level = files_writes C (level_files v level) ++ levels_from n (level + 1).
Proof.
  unfold levels_from. cbn [seq map concat]. rewrite Z.add_0_r. f_equal. f_equal. rewrite <- seq_shift, map_map.
  apply map_ext. intros i. f_equal. f_equal. lia.
Qed.

Lemma levels_from_newer n level : 0 <= level -> run_newer (files_writes C (level_files v level)) (levels_from n (level + 1)).
Proof.
  intros Hl a b Ha (ws & Hws & Hb)%list_elem_of_In%in_concat. apply in_map_iff in Hws as (i & <- & _).
  apply (vw_recency _ _ Hwf level (level + 1 + Z.of_nat i)); [lia|done|by apply list_elem_of_In].
Qed.

Lemma search_levels_spec n : forall level value st, 0 <= level -> charged (fun f l => f ∈ level_files v l) st ->
  exists o st', is_newest u s (levels_from n level) o /\ charged (fun f l => f ∈ level_files v l) st'
    /\ search_levels n v level u ikey value st
       = Ret (default (Status.NotFound [] []) (found_answer o value).1, (found_answer o value).2, st').
Proof.
  induction n as [|n IH]; intros level value st Hl Hst.
  { exists None, st. split; [intros e He; by apply elem_of_nil in He|]. by split. }
  cbn [search_levels]. destruct (files_to_search_spec level Hl) as (fs & -> & Hin & Hnew). cbn [mbind res_bind].
  destruct (search_files_spec (fun f l => f ∈ level_files v l) level fs value st) as (st1 & Hst1 & ->); [|done|].
  { intros f Hf. split; [by eapply Hgood, Hin|]. split; [by eapply level_ok, Hin|by apply Hin]. }
  rewrite levels_from_S. cbn [mbind res_bind]. set (o := first_visible u s (files_writes C fs)) in *. clearbody o.
  destruct o as [e|].
  - exists (Some e), st1. split; [|split; [done|by destruct e as [[uk sq []] vv]]].
    destruct Hnew as (He & Hv & Hmax). split; [set_solver|]. split; [done|]. intros e' [He'|He']%elem_of_app Hv'; [by apply Hmax|].
    pose proof (levels_from_newer n level Hl e e' He He' (visible_same u s e e' Hv Hv')). lia.
  - cbn [found_answer fst snd]. destruct (IH (level + 1) value st1 ltac:(lia) Hst1) as (o & st2 & Ho & Hst2 & ->).
    exists o, st2. split; [|by split]. destruct o as [e|].
    + destruct Ho as (He & Hv & Hmax). split; [set_solver|]. split; [done|].
      intros e' [He'|He']%elem_of_app Hv'; [by destruct (Hnew e')|by apply Hmax].
    + intros e [He|He]%elem_of_app; [by apply Hnew|by apply Ho].
Qed.

Lemma levels_from_all : levels_from (Z.to_nat config.kNumLevels) 0 = version_writes C v.
Proof.
  unfold levels_from, version_writes, level_files. rewrite <- (vw_levels _ _ Hwf). f_equal.
  transitivity (map (fun i => files_writes C (nth i (files_ v) [])) (seq 0 (length (files_ v)))).
  { apply map_ext. intros i. do 3 f_equal. lia. }
  rewrite <- (map_map (fun i => nth i (files_ v) []) (files_writes C)). f_equal.
  induction (files_ v) as [|x l IH]; [done|]. cbn [length seq map nth]. f_equal. by rewrite <- seq_shift, map_map.
Qed.
End search.

(** ** Tables that are lists

    The reference table: the first entry at or past the key. *)

Section list_tables.
Context `{Comparator} (C : Z -> list write).

Definition raw_write (e : write) : bytes * bytes := (encode_key e.1, e.2).
Definition first_at_or_past (k : bytes) (ws : list write) : option (bytes * bytes) :=
  map raw_write ws !! lower_bound internal_cmp k (map raw_write ws).

Definition list_cache : TableCache := {| cache_Get number _ k := Ret (Status.OK, first_at_or_past k (C number)) |}.

Lemma first_at_or_past_found u s ws : valid_seq s -> Forall (fun e : write => valid_seq (sequence e.1)) ws ->
  StronglySorted (cmp_lt write_cmp) ws -> lookup_found u s ws (first_at_or_past (encode_key (mkParsed u s kValueTypeForSeek)) ws).
Proof.
  intros Hs Hv Hsorted. unfold lookup_found, first_at_or_past. set (t := encode_key _).
  assert (forall e : write, valid_seq (sequence e.1) -> internal_cmp (encode_key e.1) t = ikey_cmp e.1 (mkParsed u s kValueTypeForSeek)) as Hcmp
    by (intros; by apply internal_cmp_encode).
  induction Hsorted as [|e ws Hsorted IH He]; [done|]. apply Forall_cons_1 in Hv as [Hve Hv]. specialize (IH Hv).
  cbn [map lower_bound raw_write]. rewrite Hcmp by done. unfold first_visible. rewrite filter_cons.
  destruct (ge_lookup u s e) as [Hge1 Hge2]. unfold cmp_lt in Hge1, Hge2.
  destruct (ikey_cmp e.1 _) eqn:Ec.
  3:{ destruct (Hge1 ltac:(done)) as [Hu|Hvis].
      - rewrite decide_False by (intros [? _]; congruence). cbn. assert (first_visible u s ws = None) as E.
        { apply first_visible_none. intros x Hx [Hux _]. rewrite Forall_forall in He. apply list_elem_of_In in Hx.
          specialize (He x Hx). unfold cmp_lt, write_cmp, ikey_cmp, cmp_then, cmp_on in He.
          rewrite (cmp_eq_r ucmp _ _ _ Hux), Hu in He. done. }
        unfold first_visible in E. rewrite E. exists e. split; [left|]. split; [done|congruence].
      - rewrite decide_True by done. done. }
  - destruct (Hge1 ltac:(done)) as [Hu|Hvis]; [|by rewrite decide_True].
    unfold ikey_cmp, cmp_then, cmp_on in Ec. cbn in Ec. by rewrite Hu in Ec.
  - rewrite decide_False by (intros Hvis; by apply Hge2; [right|]). cbn [lookup list_lookup].
    unfold first_visible in IH. destruct (head (filter (visible u s) ws)) as [x|]; [exact IH|].
    destruct (map raw_write ws !! _) as [[k v]|] eqn:E; [|done]. destruct IH as (x & Hx & Ek & Hne). exists x. split; [by right|done].
Qed.

Lemma list_cache_spec : @TableCacheSpec _ C list_cache (file_ok C).
Proof.
  intros f u s [Hv Hs _ _] Hseq. eexists. split; [reflexivity|]. by apply first_at_or_past_found.
Qed.
End list_tables.

(** ** The files that overlap a range *)

Section overlaps.
Context `{Comparator}.

Definition start_user (f : FileMetaData) : bytes := raw_user (smallest f).
Definition limit_user (f : FileMetaData) : bytes := raw_user (largest f).

(** A file of a range of keys. *)
Record ranged (f : FileMetaData) : Prop := {
  rg_smallest : internal_valid (smallest f);
  rg_largest : internal_valid (largest f);
  rg_order : cmp_le ucmp (start_user f) (limit_user f);
  rg_bounds : cmp_le internal_cmp (smallest f) (largest f);
}.

Lemma smallest_user_eq f : ranged f -> smallest_user f = Ret (start_user f).
Proof. intros [Hv _ _ _]. by destruct (internal_parts _ Hv). Qed.
Lemma largest_user_eq f : ranged f -> largest_user f = Ret (limit_user f).
Proof. intros [_ Hv _ _]. by destruct (internal_parts _ Hv). Qed.

(** [b] and [e] are user keys, or nothing for no bound. *)
Definition starts_before (b : option bytes) (f : FileMetaData) : Prop :=
  match b with Some b => Compare (start_user f) b < 0 | None => False end.
Definition ends_after (e : option bytes) (f : FileMetaData) : Prop :=
  match e with Some e => 0 < Compare (limit_user f) e | None => False end.
Definition overlaps (b e : option bytes) (f : FileMetaData) : Prop :=
  match b with Some b => 0 <= Compare (limit_user f) b | None => True end
  /\ match e with Some e => Compare (start_user f) e <= 0 | None => True end.
#[export] Instance starts_before_dec b f : Decision (starts_before b f).
Proof. unfold starts_before. destruct b; apply _. Defined.
#[export] Instance ends_after_dec e f : Decision (ends_after e f).
Proof. unfold ends_after. destruct e; apply _. Defined.
#[export] Instance overlaps_dec b e f : Decision (overlaps b e f).
Proof. unfold overlaps. destruct b, e; apply _. Defined.

(** A range that holds another. *)
Definition bound_le (b' b : option bytes) : Prop :=
  match b', b with Some b', Some b => cmp_le ucmp b' b | None, None => True | _, _ => False end.

Lemma overlap_loop_spec fs b e : Forall ranged fs ->
  overlap_loop fs b e = Ret (bool_decide (Exists (overlaps b e) fs)).
Proof.
  induction 1 as [|f fs Hf _ IH]; [done|]. cbn [overlap_loop].
  assert (AfterFile b f = Ret (match b with Some b => Compare b (limit_user f) >? 0 | None => false end)) as ->
    by (unfold AfterFile; destruct b; [by rewrite largest_user_eq|done]).
  cbn [mbind res_bind]. set (a := match b with Some _ => _ | None => _ end).
  assert (BeforeFile e f = Ret (match e with Some e => Compare e (start_user f) <? 0 | None => false end)) as ->
    by (unfold BeforeFile; destruct e; [by rewrite smallest_user_eq|done]).
  set (z := match e with Some _ => _ | None => _ end).
  assert ((if a then Ret true else Ret z) = Ret (a || z)) as -> by (by destruct a). cbn [mbind res_bind].
  assert ((a || z) = false <-> overlaps b e f) as Hov.
  { rewrite orb_false_iff. unfold a, z, overlaps. f_equiv.
    - destruct b as [b|]; [|done]. pose proof (cmp_antisym (cmp:=ucmp) b (limit_user f)) as Ha. unfold ucmp in Ha.
      destruct (Z.compare_spec (Compare b (limit_user f)) 0), (Z.compare_spec (Compare (limit_user f) b) 0); try done; split; try lia; done.
    - destruct e as [e|]; [|done]. pose proof (cmp_antisym (cmp:=ucmp) e (start_user f)) as Ha. unfold ucmp in Ha.
      destruct (Z.compare_spec (Compare e (start_user f)) 0), (Z.compare_spec (Compare (start_user f) e) 0); try done; split; try lia; done. }
  destruct (a || z).
  - rewrite IH. f_equal. apply bool_decide_ext. rewrite List.Exists_cons. split; [by right|]. intros [Ho|Ho]; [|done]. by apply Hov in Ho.
  - symmetry. f_equal. apply bool_decide_true. left. by apply Hov.
Qed.

Lemma filter_length_lt {A} (P Q : A -> Prop) `{forall x, Decision (P x)} `{forall x, Decision (Q x)} l x :
  (forall y, P y -> Q y) -> x ∈ l -> Q x -> ~ P x -> (length (filter P l) < length (filter Q l))%nat.
Proof.
  intros HPQ Hx HQ HP. induction Hx as [x l|x y l Hx IH]; rewrite !filter_cons.
  - rewrite decide_False, decide_True by done. cbn. assert (length (filter P l) <= length (filter Q l))%nat; [|lia].
    clear -HPQ. induction l as [|z l IH]; [done|]. rewrite !filter_cons. repeat case_decide; cbn; try lia. exfalso. auto.
  - specialize (IH HQ HP). repeat case_decide; cbn; try lia. exfalso. auto.
Qed.

(** The ends of files outside the range: each restart leaves one fewer. *)
Definition outside (b e : option bytes) (fs : files) : nat :=
  length (filter (starts_before b) fs) + length (filter (ends_after e) fs).

Lemma restart_measure n i o o' fuel : (i < n)%nat -> (o' < o)%nat -> (S n - i + o * S n <= S fuel)%nat ->
  (S n - 0 + o' * S n <= fuel)%nat.
Proof. intros Hi Ho Hf. assert (S o' * S n <= o * S n)%nat by (apply Nat.mul_le_mono_r; lia). lia. Qed.

(** Within the range on the sides that it has. *)
Definition within (b e : option bytes) (f : FileMetaData) : Prop := ~ starts_before b f /\ ~ ends_after e f.

Lemma Compare_flip a b : 0 < Compare a b <-> Compare b a < 0.
Proof.
  pose proof (cmp_antisym (cmp:=ucmp) a b) as Ha. unfold ucmp in Ha.
  destruct (Z.compare_spec (Compare a b) 0), (Z.compare_spec (Compare b a) 0); try done; lia.
Qed.

Lemma Compare_refl a : Compare a a = 0.
Proof. apply Compare_eq. apply (cmp_refl (cmp:=ucmp)). Qed.

Lemma Compare_lt_trans a b c : Compare a b < 0 -> Compare b c < 0 -> Compare a c < 0.
Proof. rewrite !Compare_lt. apply (cmp_trans (cmp:=ucmp)). Qed.

Lemma overlapping_loop_spec level0 fs b0 e0 : Forall ranged fs -> forall fuel i b e,
  bound_le b b0 -> bound_le e0 e ->
  (level0 = false -> b = b0 /\ e = e0) -> (level0 = true -> forall f, f ∈ take i fs -> overlaps b e f -> within b e f) ->
  (i <= length fs)%nat -> (S (length fs) - i + outside b e fs * S (length fs) <= fuel)%nat ->
  exists b' e', bound_le b' b0 /\ bound_le e0 e' /\ (level0 = false -> b' = b0 /\ e' = e0)
  /\ overlapping_loop fuel level0 fs i b e (filter (overlaps b e) (take i fs)) = Ret (filter (overlaps b' e') fs)
  /\ (level0 = true -> forall f, f ∈ fs -> overlaps b' e' f -> within b' e' f).
Proof.
  intros Hfs fuel. induction fuel as [|fuel IH]; intros i b e Hb He Hl Hin Hi Hf; [lia|]. cbn [overlapping_loop].
  destruct (fs !! i) as [f|] eqn:E.
  2:{ apply lookup_ge_None in E. rewrite take_ge in Hin |- * by done. exists b, e. split_and!; try done. }
  pose proof (lookup_lt_Some _ _ _ E) as Hlt. pose proof (Forall_lookup_1 _ _ _ _ Hfs E) as Hr.
  pose proof (list_elem_of_lookup_2 _ _ _ E) as Hfin.
  rewrite smallest_user_eq, largest_user_eq by done. cbn [mbind res_bind].
  assert (take (S i) fs = take i fs ++ [f]) as Etake by (by apply take_S_r).
  set (before := match b with Some _ => _ | None => _ end). set (after := match e with Some _ => _ | None => _ end).
  assert (before || after = false <-> overlaps b e f) as Hov.
  { rewrite orb_false_iff. unfold before, after, overlaps. f_equiv; [destruct b|destruct e]; try done; split; lia. }
  destruct (before || after) eqn:Eo.
  { assert (~ overlaps b e f) as Hno by (intros Ho; by apply Hov in Ho).
    assert (filter (overlaps b e) (take i fs) = filter (overlaps b e) (take (S i) fs)) as ->.
    { rewrite Etake, list.filter_app. rewrite filter_cons, decide_False, filter_nil, app_nil_r by done. done. }
    apply IH; [done|done|done| |lia|lia]. intros Hl0 g Hg. rewrite Etake in Hg.
    apply elem_of_app in Hg as [Hg|Hg%list_elem_of_singleton]; [by apply Hin|by subst g]. }
  assert (overlaps b e f) as Ho by (by apply Hov).
  assert (filter (overlaps b e) (take i fs) ++ [f] = filter (overlaps b e) (take (S i) fs)) as ->.
  { rewrite Etake, list.filter_app. by rewrite filter_cons, decide_True, filter_nil by done. }
  clear Eo Hov. clearbody before after. destruct level0.
  2:{ apply IH; [done|done|done|done|lia|lia]. }
  destruct (match b with Some _ => _ | None => _ end) eqn:Eb.
  { destruct b as [b|]; [|done]. apply Z.ltb_lt in Eb.
    change (@nil FileMetaData) with (filter (overlaps (Some (start_user f)) e) (take 0 fs)).
    apply IH; [|done|done|intros _ g Hg; by apply elem_of_nil in Hg|lia|].
    { destruct b0 as [b0|]; [|done]. cbn in Hb |- *. apply (cmp_lt_le ucmp). apply (cmp_lt_le_trans ucmp _ b); [by apply Compare_lt|done]. }
    assert (outside (Some (start_user f)) e fs < outside (Some b) e fs)%nat as Hout; [|by eapply restart_measure].
    unfold outside. assert (length (filter (starts_before (Some (start_user f))) fs) < length (filter (starts_before (Some b)) fs))%nat; [|lia].
    apply (filter_length_lt _ _ fs f); [|done|done|].
    - cbn. intros g Hg. by apply (Compare_lt_trans _ (start_user f)).
    - cbn. rewrite Compare_refl. lia. }
  destruct (match e with Some _ => _ | None => _ end) eqn:Ee.
  { destruct e as [e|]; [|done].
    change (@nil FileMetaData) with (filter (overlaps b (Some (limit_user f))) (take 0 fs)).
    assert (0 < Compare (limit_user f) e) as Hlim by lia.
    apply IH; [done| |done|intros _ g Hg; by apply elem_of_nil in Hg|lia|].
    { destruct e0 as [e0|]; [|done]. cbn in He |- *. apply (cmp_lt_le ucmp). apply (cmp_le_lt_trans ucmp _ e); [done|].
      by apply Compare_lt, Compare_flip. }
    assert (outside b (Some (limit_user f)) fs < outside b (Some e) fs)%nat as Hout; [|by eapply restart_measure].
    unfold outside. assert (length (filter (ends_after (Some (limit_user f))) fs) < length (filter (ends_after (Some e)) fs))%nat; [|lia].
    apply (filter_length_lt _ _ fs f); [|done|done|].
    - cbn. intros g Hg. apply Compare_flip. apply Compare_flip in Hlim, Hg. by apply (Compare_lt_trans _ (limit_user f)).
    - cbn. rewrite Compare_refl. lia. }
  apply IH; [done|done|done| |lia|lia]. intros _ g Hg Hog. rewrite Etake in Hg.
  apply elem_of_app in Hg as [Hg|Hg%list_elem_of_singleton]; [by apply Hin|]. subst g. split.
  - destruct b; cbn; [lia|tauto].
  - destruct e; cbn; [lia|tauto].
Qed.

Lemma user_bound k : (forall x, k = Some x -> internal_valid x) ->
  (match k with Some k => u ← ExtractUserKey k; Ret (Some u) | None => Ret None end) = Ret (raw_user <$> k).
Proof. intros Hk. destruct k as [k|]; [|done]. by destruct (internal_parts k (Hk k eq_refl)) as [-> _]. Qed.

Lemma GetOverlappingInputs_spec v level begin end_ : Forall ranged (level_files v level) ->
  (forall x, begin = Some x -> internal_valid x) -> (forall x, end_ = Some x -> internal_valid x) ->
  exists b e, bound_le b (raw_user <$> begin) /\ bound_le (raw_user <$> end_) e
  /\ (level <> 0 -> b = raw_user <$> begin /\ e = raw_user <$> end_)
  /\ GetOverlappingInputs v level begin end_ = Ret (filter (overlaps b e) (level_files v level))
  /\ (level = 0 -> forall f, f ∈ level_files v level -> overlaps b e f -> within b e f).
Proof.
  intros Hfs Hb He. unfold GetOverlappingInputs. rewrite !user_bound by done. cbn [mbind res_bind].
  set (fs := level_files v level) in *.
  assert (forall o, bound_le o o) as Hrefl by (intros [x|]; [|done]; cbn; unfold cmp_le; by rewrite cmp_refl).
  destruct (overlapping_loop_spec (bool_decide (level = 0)) fs (raw_user <$> begin) (raw_user <$> end_) Hfs
    (overlapping_fuel fs) 0 (raw_user <$> begin) (raw_user <$> end_)) as (b & e & H1 & H2 & H3 & E & H5);
    [done|done|done|intros _ f Hf; by apply elem_of_nil in Hf|lia| |].
  { unfold outside, overlapping_fuel.
    pose proof (length_filter (starts_before (raw_user <$> begin)) fs).
    pose proof (length_filter (ends_after (raw_user <$> end_)) fs). nia. }
  exists b, e. split; [done|]. split; [done|]. split; [intros Hl; apply H3; by apply bool_decide_false|].
  split; [exact E|]. intros Hl. apply H5. by apply bool_decide_true.
Qed.
End overlaps.

(** ** Overlap with a sorted level *)

Section sorted_overlap.
Context `{Comparator}.

Definition tagged (f : FileMetaData) : Prop :=
  raw_tag (largest f) <= PackSequenceAndType kMaxSequenceNumber kValueTypeForSeek.

Record level_ranged (fs : files) : Prop := {
  lr_ranged : Forall ranged fs;
  lr_tagged : Forall tagged fs;
  lr_bound : Z.of_nat (length fs) < 2^31;
}.

Lemma before_users f g : file_before f g -> cmp_le ucmp (limit_user f) (start_user g).
Proof.
  unfold file_before, cmp_lt, internal_cmp, cmp_then, cmp_on, cmp_le, limit_user, start_user.
  by destruct (ucmp (raw_user (largest f)) (raw_user (smallest g))).
Qed.

Lemma start_mono fs i j f g : Forall ranged fs -> StronglySorted file_before fs -> (i <= j)%nat ->
  fs !! i = Some f -> fs !! j = Some g -> cmp_le ucmp (start_user f) (start_user g).
Proof.
  intros Hr Hso Hij Ef Eg. destruct (decide (i = j)) as [->|].
  - rewrite Ef in Eg. injection Eg as ->. unfold cmp_le. by rewrite cmp_refl.
  - transitivity (limit_user f); [by apply (Forall_lookup_1 _ _ _ _ Hr Ef)|].
    apply before_users. eapply (StronglySorted_at file_before); [done|by assert (i < j)%nat by lia|done|done].
Qed.

Lemma largest_sorted fs i j f g : Forall ranged fs -> StronglySorted file_before fs -> (i <= j)%nat ->
  fs !! i = Some f -> fs !! j = Some g -> cmp_le internal_cmp (largest f) (largest g).
Proof.
  intros Hr Hso Hij Ef Eg. destruct (decide (i = j)) as [->|].
  - rewrite Ef in Eg. injection Eg as ->. unfold cmp_le. by rewrite cmp_refl.
  - pose proof (StronglySorted_at _ _ i j f g Hso ltac:(lia) Ef Eg) as Hb. apply (cmp_lt_le internal_cmp).
    apply (cmp_lt_le_trans internal_cmp _ (smallest g)); [exact Hb|]. apply (rg_bounds g).
    by apply (Forall_lookup_1 _ _ _ _ Hr Eg).
Qed.

(** The first key of a user key is at or before every key of it. *)
Lemma at_or_past_first f b : tagged f -> internal_cmp (largest f) (InternalKey_make b kMaxSequenceNumber kValueTypeForSeek) <> Lt
  <-> 0 <= Compare (limit_user f) b.
Proof.
  intros Ht. destruct (raw_encode (mkParsed b kMaxSequenceNumber kValueTypeForSeek) valid_max) as (Eu & Et & _).
  unfold InternalKey_make. change (AppendInternalKey [] ?k) with (encode_key k).
  unfold internal_cmp, cmp_then, cmp_on, cmp_flip. rewrite Eu, Et. cbn [user_key sequence type]. unfold ucmp, limit_user.
  unfold tagged in Ht. destruct (Z.compare_spec (Compare (raw_user (largest f)) b) 0) as [E|E|E]; [|split; [done|lia]|split; [lia|done]].
  split; [lia|]. intros _. destruct (Z.compare_spec (PackSequenceAndType kMaxSequenceNumber kValueTypeForSeek) (raw_tag (largest f))); [done|lia|done].
Qed.

Lemma sorted_overlap fs b e : level_ranged fs -> StronglySorted file_before fs ->
  SomeFileOverlapsRange true fs b e = Ret (bool_decide (Exists (overlaps b e) fs)).
Proof.
  intros [Hr Ht Hb] Hso. unfold SomeFileOverlapsRange. cbn [negb].
  assert (exists n, (match b with
      | Some k => FindFile fs (InternalKey_Encode (InternalKey_make k kMaxSequenceNumber kValueTypeForSeek))
      | None => Ret 0 end) = Ret (Z.of_nat n)
    /\ (forall i f, (i < n)%nat -> fs !! i = Some f -> ~ overlaps b e f)
    /\ (forall f, fs !! n = Some f -> match b with Some b => 0 <= Compare (limit_user f) b | None => True end)) as (n & -> & Hlow & Hn).
  { destruct b as [k|]; [|exists 0%nat; split; [done|]; split; [lia|done]].
    destruct (raw_encode (mkParsed k kMaxSequenceNumber kValueTypeForSeek) valid_max) as (_ & _ & Hk).
    destruct (FindFile_spec fs (InternalKey_make k kMaxSequenceNumber kValueTypeForSeek)) as (n & E & Hn & Hlow & Hge);
      [exact Hk|eapply list.Forall_impl; [exact Hr|by intros f []]|done|intros; by eapply largest_sorted|].
    exists n. split; [exact E|]. split.
    - intros i f Hi Ef [Ho _]. specialize (Hlow i f Hi Ef). apply at_or_past_first in Ho; [done|].
      by apply (Forall_lookup_1 _ _ _ _ Ht Ef).
    - intros f Ef. apply at_or_past_first; [by apply (Forall_lookup_1 _ _ _ _ Ht Ef)|]. by apply (Hge n). }
  cbn [mbind res_bind]. rewrite Nat2Z.id. destruct (fs !! n) as [f|] eqn:Ef.
  2:{ symmetry. f_equal. apply bool_decide_false. intros (f & Hf & Ho)%Exists_exists.
      apply list_elem_of_In, list_elem_of_lookup in Hf as [i Ei]. apply lookup_ge_None in Ef. apply lookup_lt_Some in Ei as Hi.
      by apply (Hlow i f); [lia|..]. }
  specialize (Hn f eq_refl). pose proof (Forall_lookup_1 _ _ _ _ Hr Ef) as Hrf.
  assert (BeforeFile e f = Ret (negb (bool_decide (overlaps b e f)))) as ->.
  { unfold BeforeFile, overlaps. destruct e as [e|]; [rewrite smallest_user_eq by done; cbn [mbind res_bind]|by rewrite bool_decide_true].
    f_equal. pose proof (Compare_flip (start_user f) e) as Hflip. case_bool_decide as Hc; cbn [negb].
    - apply Z.ltb_ge. lia.
    - apply Z.ltb_lt. destruct (decide (Compare (start_user f) e <= 0)); [by destruct Hc|lia]. }
  cbn [mbind res_bind]. rewrite negb_involutive. f_equal. apply bool_decide_ext. split.
  - intros Ho. apply Exists_exists. exists f. split; [apply list_elem_of_In; by eapply list_elem_of_lookup_2|done].
  - intros (g & Hg & Ho)%Exists_exists. apply list_elem_of_In, list_elem_of_lookup in Hg as [j Ej].
    destruct (decide (j < n)%nat) as [Hj|Hj]; [by destruct (Hlow j g)|]. split; [exact Hn|]. destruct Ho as [_ Ho].
    destruct e as [e|]; [|done]. pose proof (start_mono fs n j f g Hr Hso ltac:(lia) Ef Ej) as Hle.
    apply Compare_le. apply Compare_le in Ho. change (cmp_le ucmp (start_user f) e). by transitivity (start_user g).
Qed.

(** A version whose files are ranges, sorted and disjoint below level 0. *)
Record version_ranged (v : Version) : Prop := {
  vr_levels level : level_ranged (level_files v level);
  vr_disjoint level : 0 < level -> StronglySorted file_before (level_files v level);
}.

Lemma OverlapInLevel_spec v level b e : version_ranged v ->
  OverlapInLevel v level b e = Ret (bool_decide (Exists (overlaps b e) (level_files v level))).
Proof.
  intros [Hl Hd]. unfold OverlapInLevel. destruct (Z.ltb_spec 0 level) as [H0|H0].
  - apply sorted_overlap; [done|by apply Hd].
  - cbn. apply overlap_loop_spec. apply Hl.
Qed.

Lemma pick_level_loop_spec n v lo hi : version_ranged v -> forall level, 0 <= level -> exists l,
  pick_level_loop n v lo hi level = Ret l /\ level <= l <= level + Z.of_nat n
  /\ forall k, level < k <= l -> ~ Exists (overlaps (Some lo) (Some hi)) (level_files v k).
Proof.
  intros Hv. induction n as [|n IH]; intros level Hl; [exists level; split; [done|]; split; lia|].
  cbn [pick_level_loop]. rewrite OverlapInLevel_spec by done. cbn [mbind res_bind].
  case_bool_decide as Ho; [exists level; split; [done|]; split; lia|].
  assert (exists far, (if level + 2 <? config.kNumLevels then
                 overlaps ← GetOverlappingInputs v (level + 2)
                   (Some (InternalKey_make lo kMaxSequenceNumber kValueTypeForSeek))
                   (Some (InternalKey_make hi 0 kTypeDeletion));
                 Ret (TotalFileSize overlaps >? kMaxGrandParentOverlapBytes)
               else Ret false) = Ret far) as [far ->].
  { destruct (_ <? _); [|by eexists].
    destruct (raw_encode (mkParsed lo kMaxSequenceNumber kValueTypeForSeek) valid_max) as (_ & _ & Hlo).
    destruct (raw_encode (mkParsed hi 0 kTypeDeletion) ltac:(split; [done|vm_compute; done])) as (_ & _ & Hhi).
    destruct (GetOverlappingInputs_spec v (level + 2) (Some (InternalKey_make lo kMaxSequenceNumber kValueTypeForSeek))
      (Some (InternalKey_make hi 0 kTypeDeletion))) as (b & e & _ & _ & _ & -> & _);
      [apply (vr_levels _ Hv)|by intros x [= <-]|by intros x [= <-]|]. cbn [mbind res_bind]. by eexists. }
  cbn [mbind res_bind]. destruct far; [exists level; split; [done|]; split; lia|].
  destruct (IH (level + 1) ltac:(lia)) as (l & -> & Hb & Hno). exists l. split; [done|]. split; [lia|].
  intros k Hk. destruct (decide (k = level + 1)) as [->|]; [done|]. apply Hno. lia.
Qed.
End sorted_overlap.

(** ** The iterator over the files of a level *)

Section level_iterator.
Context `{Comparator} (fs : files) (Hfs : Forall ranged fs) (Hso : StronglySorted file_before fs).
Context (Hlen : Z.of_nat (length fs) < 2^31).

(** Past the last file by any number is the same position: none. *)
Definition level_rep (it : LevelFileNumIterator) (o : option nat) : Prop :=
  flist_ it = fs /\ 0 <= index_ it < 2^32
  /\ match o with Some i => index_ it = Z.of_nat i /\ (i < length fs)%nat | None => Z.of_nat (length fs) <= index_ it end.

Lemma level_index n : (n <= length fs)%nat -> level_rep (mkLevelIterator fs (Z.of_nat n)) (index (file_entries fs) n).
Proof.
  intros Hn. split; [done|]. cbn [index_]. split; [lia|]. unfold index, file_entries. rewrite length_map. case_decide; lia.
Qed.

Lemma file_at_spec it i : level_rep it (Some i) -> exists f, fs !! i = Some f /\ file_at it = Ret f.
Proof.
  intros (E & _ & Ei & Hi). destruct (lookup_lt_is_Some_2 fs i Hi) as [f Ef]. exists f. split; [done|].
  unfold file_at. by rewrite E, Ei, Nat2Z.id, Ef.
Qed.

#[export] Instance level_iterator_spec : IteratorSpec LevelFileNumIterator internal_valid internal_cmp (file_entries fs) level_rep.
Proof.
  split.
  - intros it o (E & Hb & Ho). cbn [Valid LevelFileNumIterator_iterator]. rewrite E. destruct o as [i|].
    + destruct Ho as [-> Hi]. rewrite bool_decide_true by (by eexists). lia.
    + rewrite bool_decide_false by (by intros [? ?]). lia.
  - intros it i Hi. destruct (file_at_spec it i Hi) as (f & Ef & E). exists (largest f), (file_value f).
    unfold file_entries. rewrite list_lookup_fmap, Ef. cbn [key value LevelFileNumIterator_iterator]. rewrite E. done.
  - intros it o (E & _). eexists. cbn [SeekToFirst LevelFileNumIterator_iterator]. rewrite E. split; [done|]. apply (level_index 0). lia.
  - intros it o (E & _). eexists. cbn [SeekToLast LevelFileNumIterator_iterator]. rewrite E. split; [done|].
    replace (length (file_entries fs)) with (length fs) by (unfold file_entries; by rewrite length_map). case_decide as Hn.
    + assert (length fs = 0)%nat as -> by (by rewrite Hn). apply (level_index 0). lia.
    + assert (length fs <> 0%nat) by (by destruct fs). rewrite u32_small by lia.
      replace (Z.of_nat (length fs) - 1) with (Z.of_nat (length fs - 1)) by lia. apply level_index. lia.
  - intros it o t (E & _) Ht. eexists. cbn [Seek LevelFileNumIterator_iterator]. rewrite E.
    rewrite FindFile_lower_bound; [cbn [mbind res_bind]; split; [done|]|done|eapply list.Forall_impl; [exact Hfs|by intros f []]|done|intros; by eapply largest_sorted].
    apply level_index. pose proof (lower_bound_le internal_cmp t (file_entries fs)) as Hle. unfold file_entries in Hle at 2. by rewrite length_map in Hle.
  - intros it i (E & Hb & Ei & Hi). eexists. cbn [Next LevelFileNumIterator_iterator]. rewrite E. split; [done|].
    rewrite Ei, u32_small by lia. replace (Z.of_nat i + 1) with (Z.of_nat (S i)) by lia. apply level_index. lia.
  - intros it i (E & Hb & Ei & Hi). eexists. cbn [Prev LevelFileNumIterator_iterator]. rewrite E. split; [done|].
    rewrite Ei. destruct i as [|i]; cbn [index_before].
    + change (Z.of_nat 0 =? 0) with true. cbv iota. rewrite u32_small by lia. split; [done|]. cbn [index_]. lia.
    + rewrite (proj2 (Z.eqb_neq _ _)) by lia. split; [done|]. cbn [index_]. lia.
  - done.
Qed.

Lemma NewLevelFileNumIterator_spec : level_rep (NewLevelFileNumIterator fs) None.
Proof. split; [done|]. cbn [index_ NewLevelFileNumIterator]. rewrite u32_small by lia. lia. Qed.
End level_iterator.

(** ** Properties *)

(** What a get returns of the newest visible write, with the string it was
    given. *)
Definition get_answer (o : option write) (value : bytes) : Status.t * bytes :=
  match o with
  | Some (k, v) => match type k with kTypeValue => (Status.OK, v) | kTypeDeletion => (Status.NotFound [] [], value) end
  | None => (Status.NotFound [] [], value)
  end.

(** What a get of a version finds. *)
Lemma Version_Get_newest `{Comparator} `{!TableCache} C good v u s value :
  TableCacheSpec C good -> version_wf C v -> (forall level f, f ∈ level_files v level -> good f) -> valid_seq s ->
  exists o charged, is_newest u s (version_writes C v) o
  /\ Version_Get v (LookupKey_make u s) value = Ret ((get_answer o value).1, (get_answer o value).2, charged)
  /\ forall f level, charged = Some (f, level) -> f ∈ level_files v level.
Proof.
  intros Hcache Hwf Hgood Hs. unfold Version_Get. destruct (lookup_key_parts u s) as (_ & -> & ->).
  destruct (search_levels_spec C good Hcache u s Hs v Hwf Hgood (Z.to_nat config.kNumLevels) 0 value no_reads)
    as (o & st & Ho & [Hst _] & ->); [done|by split|].
  rewrite (levels_from_all C v Hwf) in Ho. exists o, (seek_file st). split; [done|]. split; [|exact Hst].
  by destruct o as [[[uk sq []] v']|].
Qed.

(** C8: reading from a version of tables finds the newest write that the
    snapshot sees among all the writes of all its tables: its value, or not
    found when it is a deletion or there is none; and the file it charges a
    seek to is one of the version's.  The tables of level 0 may overlap, in the
    order of their numbers; the levels below are sorted and disjoint, and each
    is older than the one above. *)
Theorem version_get `{Comparator} `{!TableCache} C good v u s value :
  TableCacheSpec C good -> version_wf C v -> (forall level f, f ∈ level_files v level -> good f) -> valid_seq s ->
  exists o charged, is_newest u s (version_writes C v) o
  /\ Version_Get v (LookupKey_make u s) value = Ret ((get_answer o value).1, (get_answer o value).2, charged)
  /\ forall f level, charged = Some (f, level) -> f ∈ level_files v level.
Proof. apply Version_Get_newest. Qed.

(** A good version is one of ranges. *)
Lemma wf_ranged `{Comparator} C v : version_wf C v -> version_ranged v.
Proof.
  intros Hwf. split; [|apply (vw_disjoint _ _ Hwf)]. intros level. split; [| |apply (vw_bound _ _ Hwf)];
    apply Forall_forall; intros f Hf%list_elem_of_In; pose proof (vw_files _ _ Hwf _ _ Hf) as Hok.
  - destruct (file_first C f Hok) as (a & Ha & Hva & Ea & Hle). destruct (file_last C f Hok) as (b & Hb & Hvb & Eb & _).
    destruct (raw_encode a.1 Hva) as (Ua & _ & Va), (raw_encode b.1 Hvb) as (Ub & _ & Vb). specialize (Hle b Hb).
    split; unfold start_user, limit_user; rewrite ?Ea, ?Eb; [done|done| |].
    + rewrite Ua, Ub. unfold cmp_le, ikey_cmp, cmp_then, cmp_on in *. by destruct (ucmp (user_key a.1) (user_key b.1)).
    + unfold cmp_le. by rewrite internal_cmp_encode.
  - destruct (file_last C f Hok) as (b & Hb & Hvb & Eb & _). unfold tagged. rewrite Eb.
    destruct (raw_encode b.1 Hvb) as (_ & -> & _). rewrite !pack_value by (done || apply valid_max).
    destruct Hvb. destruct (type b.1); cbn [type_code kValueTypeForSeek]; lia.
Qed.

(** What a version says of the overlaps of a range of keys.  The search of
    a sorted level finds an overlap exactly when one of its files overlaps the
    range.  [GetOverlappingInputs] ends and returns, in order, the files that
    overlap a range, which is the one asked for or, in level 0, one that holds
    it and that no file returned extends beyond.  The level picked for the
    output of a memtable is at most 2, and no file of a level down to it
    overlaps the output when it is not 0. *)
Theorem version_overlaps `{Comparator} v : version_ranged v ->
  (forall level b e, OverlapInLevel v level b e = Ret (bool_decide (Exists (overlaps b e) (level_files v level))))
  /\ (forall level begin end_, (forall x, begin = Some x -> internal_valid x) -> (forall x, end_ = Some x -> internal_valid x) ->
      exists b e, bound_le b (raw_user <$> begin) /\ bound_le (raw_user <$> end_) e
      /\ (level <> 0 -> b = raw_user <$> begin /\ e = raw_user <$> end_)
      /\ GetOverlappingInputs v level begin end_ = Ret (filter (overlaps b e) (level_files v level))
      /\ (level = 0 -> forall f, f ∈ level_files v level -> overlaps b e f -> within b e f))
  /\ (forall lo hi, exists level, PickLevelForMemTableOutput v lo hi = Ret level /\ 0 <= level <= 2
      /\ (0 < level -> forall l, 0 <= l <= level -> ~ Exists (overlaps (Some lo) (Some hi)) (level_files v l))).
Proof.
  intros Hv. split; [by intros; apply OverlapInLevel_spec|]. split.
  - intros level begin end_ Hb He. apply GetOverlappingInputs_spec; [apply (vr_levels _ Hv)|done|done].
  - intros lo hi. unfold PickLevelForMemTableOutput. rewrite OverlapInLevel_spec by done. cbn [mbind res_bind].
    case_bool_decide as Ho; [exists 0; split; [done|]; split; lia|].
    destruct (pick_level_loop_spec (Z.to_nat config.kMaxMemCompactLevel) v lo hi Hv 0) as (l & -> & Hl & Hno); [done|].
    exists l. split; [done|]. split; [exact Hl|]. intros _ k Hk. destruct (decide (k = 0)) as [->|]; [done|]. apply Hno. lia.
Qed.

(** ** A version of three tables *)

#[local] Existing Instance BytewiseComparator.

Definition sample_write (u : string) (s : Z) (v : string) : write := (mkParsed (lit u) s kTypeValue, lit v).

Definition sample_tables (n : Z) : list write :=
  if n =? 5 then [(mkParsed (lit "a") 9 kTypeDeletion, []); sample_write "b" 8 "new"]
  else if n =? 4 then [sample_write "b" 5 "mid"; sample_write "d" 4 "w"]
  else if n =? 3 then [sample_write "a" 2 "x"; sample_write "c" 1 "y"] else [].

Definition sample_file (n : Z) : FileMetaData :=
  let ws := sample_tables n in
  mkFileMetaData 1 100 n 1000 (default [] (encode_key ∘ fst <$> head ws)) (default [] (encode_key ∘ fst <$> list.last ws)).

Definition sample_version : Version :=
  with_files_ new_Version [[sample_file 5; sample_file 4]; [sample_file 3]; []; []; []; []; []].

Lemma sample_file_ok n : n = 3 \/ n = 4 \/ n = 5 -> file_ok sample_tables (sample_file n).
Proof.
  intros [->|[->| ->]]; (split; [repeat constructor; discriminate|repeat constructor|eexists; split; reflexivity|eexists; split; reflexivity]).
Qed.

(** The files of a level, by the level. *)
Lemma sample_levels level f : f ∈ level_files sample_version level ->
  (level <= 0 /\ (f = sample_file 5 \/ f = sample_file 4)) \/ (level = 1 /\ f = sample_file 3).
Proof.
  unfold level_files. destruct (Z.to_nat level) as [|[|[|[|[|[|[|[|k]]]]]]]] eqn:E; cbn [nth files_ with_files_ sample_version];
    intros Hf; rewrite ?elem_of_cons, ?elem_of_nil in Hf; naive_solver lia.
Qed.

Lemma run_newer_b g h : forallb (fun a : write => forallb (fun b : write =>
  negb (bool_decide (ucmp (user_key a.1) (user_key b.1) = Eq)) || (sequence b.1 <? sequence a.1)) h) g = true -> run_newer g h.
Proof.
  rewrite forallb_forall. intros Hg a b Ha%list_elem_of_In Hb%list_elem_of_In Heq. specialize (Hg a Ha).
  rewrite forallb_forall in Hg. specialize (Hg b Hb). rewrite bool_decide_true in Hg by done. cbn in Hg. lia.
Qed.

Lemma sample_wf : version_wf sample_tables sample_version.
Proof.
  assert (forall level, 2 <= level -> level_files sample_version level = []) as Hdeep.
  { intros level Hl. unfold level_files. destruct (Z.to_nat level) as [|[|[|[|[|[|[|[|k]]]]]]]] eqn:E; try lia; done. }
  split.
  - reflexivity.
  - intros level f Hf. apply sample_levels in Hf. apply sample_file_ok in Hf || (destruct Hf as [[_ [->| ->]]|[_ ->]]; apply sample_file_ok; auto).
  - intros level. destruct (decide (2 <= level)) as [Hl|Hl]; [by rewrite Hdeep|].
    unfold level_files. destruct (Z.to_nat level) as [|[|k]] eqn:E; [done..|lia].
  - intros level H0. destruct (decide (2 <= level)) as [Hl|Hl]; [rewrite Hdeep by done; constructor|].
    assert (level = 1) as -> by lia. repeat constructor.
  - apply (bool_decide_unpack _). vm_compute. exact I.
  - intros f g Hf Hg Hlt. apply sample_levels in Hf, Hg. destruct Hf as [[_ [->| ->]]|[? _]], Hg as [[_ [->| ->]]|[? _]]; try done.
    by apply run_newer_b.
  - intros l l' Hl. destruct (decide (2 <= l')) as [Hl'|Hl']; [rewrite (Hdeep l') by done; intros a b _ Hb; by apply elem_of_nil in Hb|].
    assert (l = 0 /\ l' = 1) as [-> ->] by lia. by apply run_newer_b.
Qed.

Lemma version_get_witness : exists o, is_newest (lit "b") 6 (version_writes sample_tables sample_version) o
  /\ @Version_Get _ (list_cache sample_tables) sample_version (LookupKey_make (lit "b") 6) (lit "old")
     = Ret ((get_answer o (lit "old")).1, (get_answer o (lit "old")).2, Some (sample_file 5, 0))
  /\ get_answer o (lit "old") = (Status.OK, lit "mid").
Proof.
  destruct (@version_get _ (list_cache sample_tables) sample_tables (file_ok sample_tables) sample_version (lit "b") 6 (lit "old"))
    as (o & c & Ho & E & _); [apply list_cache_spec|exact sample_wf|apply (vw_files _ _ sample_wf)|split; [done|vm_compute; done]|].
  assert (get_answer o (lit "old") = (Status.OK, lit "mid") /\ c = Some (sample_file 5, 0)) as [Eg ->].
  { revert E. destruct (get_answer o (lit "old")) as [st vv]. vm_compute. by intros [= <- <- <-]. }
  exists o. split; [exact Ho|]. split; [exact E|exact Eg].
Defined.

Lemma version_overlaps_witness : OverlapInLevel sample_version 1 (Some (lit "b")) (Some (lit "bb"))
    = Ret (bool_decide (Exists (overlaps (Some (lit "b")) (Some (lit "bb"))) (level_files sample_version 1)))
  /\ OverlapInLevel sample_version 1 (Some (lit "b")) (Some (lit "bb")) = Ret true.
Proof.
  split; [|vm_compute; reflexivity].
  apply (version_overlaps sample_version). apply (wf_ranged sample_tables). exact sample_wf.
Defined.
