(* ===== verification/TableLookup.v ===== *)
(** * TableLookup: tables of internal keys answer lookups

    The filter policy of internal keys (db/dbformat.cc), and what a get finds in
    a table file of writes: the newest write that the snapshot sees, although
    the index, the filter and the block are searched for a key that is not in
    the table.  This is what Version.v asks of the tables of a version. *)

From S2P Require Import Prelude CLib Coding Crc32c Status DbFormat SkipList Log MemTable Bloom FilterBlock Iterator BlockBuilder Block TwoLevel.
From S2P Require Import TableFormat KeyOrder TableBuilder Table VersionEdit Version.

(** ** class InternalFilterPolicy *)

Section internal_filter.
Context (user_policy_ : FilterPolicy).

Fixpoint user_keys (keys : list bytes) : res (list bytes) :=
  match keys with [] => Ret [] | k :: keys => u ← ExtractUserKey k; us ← user_keys keys; Ret (u :: us) end.
Definition internal_CreateFilter (keys : list bytes) (dst : bytes) : res bytes :=
  mkey ← user_keys keys; CreateFilter (FilterPolicy := user_policy_) mkey dst.
Definition internal_KeyMayMatch (key f : bytes) : res bool :=
  u ← ExtractUserKey key; KeyMayMatch (FilterPolicy := user_policy_) u f.

(** The policy that tables are given: of strings too short to be internal
    keys, for which the code is undefined, it takes what bytes there are. *)
Program Definition InternalFilterPolicy : FilterPolicy := {|
  CreateFilter keys dst := CreateFilter (FilterPolicy := user_policy_) (map raw_user keys) dst;
  KeyMayMatch key f := KeyMayMatch (FilterPolicy := user_policy_) (raw_user key) f;
|}.
Next Obligation.
  intros keys dst Hl. destruct (CreateFilter_matches (FilterPolicy := user_policy_) (map raw_user keys) dst) as (f & E & HF);
    [by rewrite length_map|]. exists f. split; [exact E|]. by rewrite Forall_map in HF.
Qed.

Lemma internal_policy_faithful keys dst key f : Forall internal_valid keys -> internal_valid key ->
  CreateFilter (FilterPolicy := InternalFilterPolicy) keys dst = internal_CreateFilter keys dst
  /\ KeyMayMatch (FilterPolicy := InternalFilterPolicy) key f = internal_KeyMayMatch key f.
Proof.
  intros Hks Hk. split.
  - unfold internal_CreateFilter. cbn [CreateFilter InternalFilterPolicy].
    assert (user_keys keys = Ret (map raw_user keys)) as ->; [|done].
    induction Hks as [|x keys Hx _ IH]; [done|]. cbn [user_keys map]. destruct (internal_parts x Hx) as [-> _].
    cbn [mbind res_bind]. by rewrite IH.
  - unfold internal_KeyMayMatch. by destruct (internal_parts key Hk) as [-> _].
Qed.
End internal_filter.

(** ** A lookup in a table of writes *)

Section lookup.
Context `{!Comparator} (Hsame : forall u v, Compare u v = 0 -> ~ Compare u (FindShortestSeparator u v) < 0).
Context `{!Snappy} `{!SnappyLaw} `{!Address} (user_policy : FilterPolicy).
#[local] Instance table_order : KeyOrder := internal_order Hsame.
#[local] Instance table_policy : FilterPolicy := InternalFilterPolicy user_policy.

(** What filter_policy.h asks of a policy that is used with a comparator: keys
    that compare equal match alike; and it answers for every key. *)
Definition policy_fits : Prop :=
  (forall u v f, Compare u v = 0 -> KeyMayMatch (FilterPolicy := user_policy) u f = KeyMayMatch (FilterPolicy := user_policy) v f)
  /\ forall u f, exists m, KeyMayMatch (FilterPolicy := user_policy) u f = Ret m.

Lemma may_match_same r h k k' : policy_fits -> ucmp (raw_user k) (raw_user k') = Eq ->
  reader_KeyMayMatch r h k = reader_KeyMayMatch r h k'.
Proof.
  intros [Hp _] E. unfold reader_KeyMayMatch. case_decide; [done|]. case_decide; [|done]. destruct (FilterBlock.data_ r); [|done]. cbn [of_option mbind res_bind].
  destruct (DecodeFixed32 _); cbn [mbind res_bind]; try done. destruct (DecodeFixed32 _); cbn [mbind res_bind]; try done.
  case_decide; [|done]. cbn [KeyMayMatch table_policy InternalFilterPolicy]. apply Hp. by apply Compare_eq.
Qed.

Context (opt : Options) (f : bytes) (Hf : Z.of_nat (length f) < 2^32) (wr : list write).
Abbreviation kvs := (map raw_write wr).
Context (seps : list bytes) (ws : list (entries * BlockHandle)) (hm hi : BlockHandle).
Context (Htf : table_file opt f kvs seps ws hm hi) (Hord : in_order kvs) (Hseq : Forall (fun e : write => valid_seq (sequence e.1)) wr).
Context (t : Table bytes) (Ht : table_ok f seps ws hm t) (cache : option (bytes -> option Block)) (ro : ReadOptions).
Context (Hcache : coherent f ws (cache_id t) cache) (Hfit : policy_fits).
Context (u : bytes) (s : Z) (Hs : valid_seq s).
Abbreviation look := (mkParsed u s kValueTypeForSeek).
Abbreviation k := (encode_key look).

Lemma look_valid : key_valid k.
Proof. by destruct (raw_encode look Hs) as (_ & _ & ?). Qed.

Lemma write_seq e : e ∈ wr -> valid_seq (sequence e.1).
Proof. intros He. rewrite Forall_forall in Hseq. by apply Hseq, list_elem_of_In. Qed.

Lemma write_raw e : e ∈ wr -> internal_cmp (raw_write e).1 k = ikey_cmp e.1 look /\ raw_user (raw_write e).1 = user_key e.1.
Proof.
  intros He. pose proof (write_seq e He) as Hv. cbn [raw_write fst]. split; [by apply internal_cmp_encode|]. by destruct (raw_encode e.1 Hv).
Qed.

Lemma wr_sorted : StronglySorted (cmp_lt write_cmp) wr.
Proof.
  destruct Hord as [_ Hso]. clear Htf Hord. induction wr as [|e l IH]; [constructor|]. apply Forall_cons_1 in Hseq as [He Hv].
  cbn [map] in Hso. inversion Hso as [|? ? Hso' Hlt]; subst. constructor; [by apply IH|].
  apply Forall_forall. intros x Hx. rewrite Forall_forall in Hlt, Hv. specialize (Hlt (raw_write x) (in_map _ _ _ Hx)).
  unfold cmp_lt in *. cbn [raw_write fst key_cmp table_order internal_order] in Hlt. rewrite internal_cmp_encode in Hlt; [done|done|by apply Hv].
Qed.

Lemma users_le a b : cmp_le internal_cmp a b -> cmp_le ucmp (raw_user a) (raw_user b).
Proof. unfold cmp_le, internal_cmp, cmp_then, cmp_on. by destruct (ucmp (raw_user a) (raw_user b)). Qed.

(** A key between two keys of one user key is of that user key. *)
Lemma user_between a b c : cmp_le internal_cmp a b -> cmp_le internal_cmp b c -> ucmp (raw_user a) (raw_user c) = Eq ->
  ucmp (raw_user b) (raw_user c) = Eq.
Proof.
  intros Hab%users_le Hbc%users_le E. unfold cmp_le in *. rewrite (cmp_eq_l (cmp:=ucmp) (raw_user a) (raw_user c) (raw_user b) E) in Hab.
  rewrite (cmp_antisym (cmp:=ucmp) (raw_user b) (raw_user c)) in Hab. by destruct (ucmp (raw_user b) (raw_user c)).
Qed.

Lemma not_below e : e ∈ wr -> visible u s e -> cmp_le internal_cmp k (raw_write e).1.
Proof.
  intros He Hv. destruct (decide (cmp_le internal_cmp k (raw_write e).1)) as [|Hn]; [done|]. exfalso.
  assert (cmp_lt internal_cmp (raw_write e).1 k) as Hlt by exact (proj2 (cmp_lt_not_ge internal_cmp _ _) Hn).
  unfold cmp_lt in Hlt. rewrite (proj1 (write_raw e He)) in Hlt. by apply (proj2 (ge_lookup u s e)) in Hlt; [|right].
Qed.

(** An entry at or past the key, of its user key, is visible. *)
Lemma past_visible e : e ∈ wr -> cmp_le internal_cmp k (raw_write e).1 -> ucmp (user_key e.1) u = Eq -> visible u s e.
Proof.
  intros He Hle Hu. apply (visible_ge u s e Hu). intros Hlt. unfold cmp_lt in Hlt. rewrite <- (proj1 (write_raw e He)) in Hlt.
  by apply (proj1 (cmp_lt_not_ge internal_cmp _ _) Hlt).
Qed.

(** What lies between the key sought and a write to its user key. *)
Lemma sought_between x e : e ∈ wr -> ucmp (user_key e.1) u = Eq -> cmp_le internal_cmp k x -> cmp_le internal_cmp x (raw_write e).1 ->
  ucmp (raw_user x) (raw_user (raw_write e).1) = Eq.
Proof.
  intros He Hu Hkx Hxe. apply (user_between k x); [done..|]. rewrite (proj2 (write_raw e He)), (proj1 (raw_encode look Hs)). cbn [user_key].
  rewrite (cmp_antisym (cmp:=ucmp)). by rewrite Hu.
Qed.

Lemma at_or_past b y : b !! lower_bound key_cmp k b = Some y -> cmp_le internal_cmp k y.1.
Proof.
  intros Hat%lower_bound_at. unfold cmp_le. rewrite (cmp_antisym (cmp:=internal_cmp)). intros E. apply Hat.
  change (internal_cmp y.1 k = Lt). by destruct (internal_cmp y.1 k).
Qed.

Lemma first_visible_least l e x : StronglySorted (cmp_lt write_cmp) l -> first_visible u s l = Some e -> x ∈ l -> visible u s x ->
  cmp_le write_cmp e x.
Proof.
  intros Hso. induction Hso as [|y l Hso IH Hy]; [done|]. unfold first_visible in *. rewrite filter_cons.
  intros E Hx Hvx. case_decide as Hvy.
  - injection E as <-. apply elem_of_cons in Hx as [->|Hx]; [unfold cmp_le; by rewrite (cmp_refl (cmp:=write_cmp))|].
    apply cmp_lt_le. rewrite Forall_forall in Hy. by apply Hy, list_elem_of_In.
  - apply elem_of_cons in Hx as [->|Hx]; [done|]. by apply IH.
Qed.

Abbreviation idx := (index_entries seps ws).

Lemma in_block j w x : ws !! j = Some w -> x ∈ w.1 -> exists e, e ∈ wr /\ x = raw_write e.
Proof.
  intros Ew Hx. assert (x ∈ kvs) as (e & -> & He)%list_elem_of_fmap; [|by exists e].
  rewrite <- (tf_written _ _ _ _ _ _ _ Htf). unfold written. apply list_elem_of_In, in_concat. exists w.1.
  split; [|by apply list_elem_of_In]. apply list_elem_of_In, list_elem_of_fmap. exists w. split; [done|]. by eapply list_elem_of_lookup_2.
Qed.

Lemma entry_in e : e ∈ wr -> exists j w, ws !! j = Some w /\ raw_write e ∈ w.1.
Proof.
  intros He. assert (raw_write e ∈ kvs) as Hin by by apply list_elem_of_fmap_2. destruct (raw_write e) as [ke ve].
  destruct (entry_block opt f kvs seps ws hm hi Htf ke ve Hin) as (j & w & Ew & Hw & _). by exists j, w.
Qed.

Lemma later_block i j w x : ws !! j = Some w -> x ∈ w.1 -> (i < j)%nat -> x ∈ written (drop (S i) ws).
Proof.
  intros Ew Hx Hij. unfold written. apply list_elem_of_In, in_concat. exists w.1. split; [|by apply list_elem_of_In].
  apply list_elem_of_In, list_elem_of_fmap. exists w. split; [done|]. apply list_elem_of_lookup. exists (j - S i)%nat.
  rewrite lookup_drop. by replace (S i + (j - S i))%nat with j by lia.
Qed.

(** The first visible write is in the block that the index names. *)
Lemma visible_block e : first_visible u s wr = Some e -> exists w, ws !! lower_bound key_cmp k idx = Some w /\ raw_write e ∈ w.1.
Proof.
  intros Efv. destruct (first_visible_elem u s wr e Efv) as [He Hv]. pose proof (not_below e He Hv) as Hge.
  destruct (entry_in e He) as (j & w & Ew & Hw). set (n := lower_bound key_cmp k idx) in *.
  destruct (decide (n = j)) as [<-|Hnj]; [by exists w|]. exfalso.
  destruct (idx_at opt f kvs seps ws hm hi Htf j w Ew) as (sep & Es & Ei).
  destruct (decide (j < n)%nat) as [Hlt|Hnlt].
  - pose proof (lower_bound_before key_cmp k idx j _ Hlt Ei) as Hb. cbn [fst] in Hb.
    destruct (tf_seps _ _ _ _ _ _ _ Htf j sep w Es Ew) as (_ & Hle & _). rewrite Forall_forall in Hle.
    specialize (Hle (raw_write e) ltac:(by apply list_elem_of_In)).
    apply (proj1 (cmp_lt_not_ge internal_cmp _ _) (cmp_le_lt_trans internal_cmp _ _ _ Hle Hb)). done.
  - destruct (lookup_lt_is_Some_2 ws n) as [w' Ew']; [apply lookup_lt_Some in Ew; lia|].
    destruct (idx_at opt f kvs seps ws hm hi Htf n w' Ew') as (sep' & Es' & Ei').
    pose proof (at_or_past idx _ Ei') as Hks. cbn [fst] in Hks.
    destruct (tf_seps _ _ _ _ _ _ _ Htf n sep' w' Es' Ew') as (_ & _ & _ & Hti). rewrite Forall_forall in Hti.
    destruct (Hti (raw_write e)) as [Hlt Hor]; [apply list_elem_of_In; apply (later_block n j w); [done|done|lia]|].
    pose proof (proj2 (write_raw e He)) as Eu. destruct Hv as [Hue Hse].
    pose proof (sought_between sep' e He Hue Hks (cmp_lt_le _ _ _ Hlt)) as Hus.
    destruct Hor as [Hin|Ha]; [|unfold key_apart in Ha; cbn in Ha; unfold cmp_lt in Ha; cbn in Hus; congruence].
    rewrite (tf_written _ _ _ _ _ _ _ Htf) in Hin. apply list_elem_of_fmap in Hin as (y & -> & Hy).
    apply list_elem_of_fmap in Hy as (x & -> & Hx).
    assert (ucmp (user_key x.1) u = Eq) as Hux.
    { rewrite <- (proj2 (write_raw x Hx)). rewrite (cmp_eq_l (cmp:=ucmp) _ _ u Hus). by rewrite Eu. }
    pose proof (first_visible_least wr e x wr_sorted Efv Hx (past_visible x Hx Hks Hux)) as Hex.
    apply (proj1 (cmp_lt_not_ge write_cmp x e)); [|done]. unfold cmp_lt in Hlt |- *.
    cbn [raw_write fst key_cmp table_order internal_order] in Hlt. rewrite internal_cmp_encode in Hlt; [done|by apply write_seq..].
Qed.

Lemma may_match_any r h a b m : policy_fits -> reader_KeyMayMatch r h a = Ret m -> exists m', reader_KeyMayMatch r h b = Ret m'.
Proof.
  intros [_ Htot] E. unfold reader_KeyMayMatch in *. case_decide; [done|]. case_decide; [|by eexists].
  destruct (FilterBlock.data_ r); [|done]. cbn [of_option mbind res_bind] in *.
  match type of E with (?x ≫= _) = _ => destruct x end; cbn [mbind res_bind] in *; [|done..].
  match type of E with (?x ≫= _) = _ => destruct x end; cbn [mbind res_bind] in *; [|done..].
  case_decide; [|by eexists]. apply Htot.
Qed.

(** The block that is searched has the visible write at the lower bound. *)
Lemma block_lookup_visible e j w : first_visible u s wr = Some e -> ws !! j = Some w -> raw_write e ∈ w.1 ->
  w.1 !! lower_bound key_cmp k w.1 = Some (raw_write e).
Proof.
  intros Efv Ew Hin. destruct (first_visible_elem u s wr e Efv) as [He Hv]. pose proof (not_below e He Hv) as Hge.
  apply list_elem_of_lookup in Hin as [n En]. set (b := lower_bound key_cmp k w.1) in *.
  destruct (decide (b = n)) as [->|Hbn]; [done|]. exfalso. destruct (decide (n < b)%nat) as [Hlt|Hnlt].
  { pose proof (lower_bound_before key_cmp k w.1 n _ Hlt En) as Hb. by apply (proj1 (cmp_lt_not_ge internal_cmp _ _) Hb). }
  destruct (lookup_lt_is_Some_2 w.1 b) as [y Ey]; [apply lookup_lt_Some in En; lia|].
  destruct (in_block j w y Ew) as (x & Hx & ->); [by eapply list_elem_of_lookup_2|].
  pose proof (at_or_past w.1 _ Ey) as Hkx.
  destruct (block_in_order opt f kvs seps ws hm hi Htf Hord j w Ew) as [_ Hso].
  assert (cmp_lt internal_cmp (raw_write x).1 (raw_write e).1) as Hlt by (apply (StronglySorted_at _ _ b n _ _ Hso); [lia|done|done]).
  assert (ucmp (user_key x.1) u = Eq) as Hux.
  { rewrite <- (proj2 (write_raw x Hx)). destruct Hv as [Hue _]. pose proof (proj2 (write_raw e He)) as Eu.
    pose proof (sought_between _ e He Hue Hkx (cmp_lt_le _ _ _ Hlt)) as Hus.
    rewrite (cmp_eq_l (cmp:=ucmp) _ _ u Hus). by rewrite Eu. }
  pose proof (first_visible_least wr e x wr_sorted Efv Hx (past_visible x Hx Hkx Hux)) as Hex.
  apply (proj1 (cmp_lt_not_ge write_cmp x e)); [|done]. unfold cmp_lt in Hlt |- *.
  cbn [raw_write fst] in Hlt. rewrite internal_cmp_encode in Hlt; [done|by apply write_seq..].
Qed.

Lemma table_lookup : exists found, InternalGet t cache ro k = Ret (Status.OK, found) /\ lookup_found u s wr found.
Proof.
  pose proof (InternalGet_eq opt f Hf kvs seps ws hm hi Htf t Ht cache ro Hcache k look_valid) as HG.
  destruct (ws !! lower_bound key_cmp k idx) as [w|] eqn:Ew.
  2:{ exists None. split; [exact HG|]. unfold lookup_found. destruct (first_visible u s wr) as [e|] eqn:E; [|done].
      destruct (visible_block e E) as (w & Ew' & _). congruence. }
  destruct (idx_at opt f kvs seps ws hm hi Htf _ w Ew) as (sep & Es & _).
  destruct (tf_seps _ _ _ _ _ _ _ Htf _ sep w Es Ew) as (_ & _ & (x & Hx & _) & _).
  assert (forall r y, filter t = Some r -> y ∈ w.1 -> reader_KeyMayMatch r (offset_ w.2) y.1 = Ret true) as Hfil.
  { intros r y Er Hy. destruct Ht as (_ & Hsound & _). apply (Hsound r w.1 w.2 y Er); [|done]. destruct w. by eapply list_elem_of_lookup_2. }
  assert (exists m, may_match t w.2 k = Ret m) as [m Hm].
  { unfold may_match. destruct (filter t) as [r|] eqn:Er; [|by eexists]. by apply (may_match_any r _ x.1 k true Hfit (Hfil r x eq_refl Hx)). }
  eexists. split; [by apply HG|]. unfold lookup_found. destruct (first_visible u s wr) as [e|] eqn:E.
  - destruct (visible_block e E) as (w' & Ew' & Hin). rewrite Ew in Ew'. injection Ew' as <-.
    assert (m = true) as ->; [|exact (block_lookup_visible e _ w E Ew Hin)].
    unfold may_match in Hm. destruct (filter t) as [r|] eqn:Er; [|by injection Hm].
    destruct (first_visible_elem u s wr e E) as [He [Hue _]].
    rewrite (may_match_same r _ k (raw_write e).1 Hfit) in Hm; [rewrite (Hfil r (raw_write e) eq_refl Hin) in Hm; by injection Hm|].
    rewrite (proj2 (write_raw e He)), (proj1 (raw_encode look Hs)). cbn [user_key]. rewrite (cmp_antisym (cmp:=ucmp)). by rewrite Hue.
  - destruct m; [|done]. destruct (w.1 !! lower_bound key_cmp k w.1) as [[ky v]|] eqn:Ey; [|done].
    destruct (in_block _ w (ky, v) Ew) as (y & Hy & Ery); [by eapply list_elem_of_lookup_2|].
    pose proof (at_or_past w.1 _ Ey) as Hky. rewrite Ery in Hky. injection Ery as -> _.
    exists y. split; [done|]. split; [done|]. intros Huy.
    apply (proj1 (first_visible_none u s wr) E y Hy). by apply past_visible.
Qed.
End lookup.
