(* ===== verification/TableCache.v ===== *)
(** * TableCache: db/table_cache.h and db/table_cache.cc

    The tables that are open, in a cache under their numbers.  Environments
    open files at random places through [RandomEnv]; [Tables] is the interface
    that the builders of tables need of the cache.  [table_cache_answers]
    shows that whatever the cache holds, a lookup answers as the table's file
    does. *)

From S2P Require Import Prelude CLib Coding Crc32c Status DbFormat SkipList Log MemTable VersionEdit Version Filename Bloom Cache Iterator BlockBuilder Block TwoLevel.
From S2P Require Import FilterBlock TableFormat KeyOrder TableBuilder Table TableLookup.
From Stdlib Require Import Logic.FunctionalExtensionality.

(** ** Interfaces *)

(** [NewRandomAccessFile] of an environment, and [Read] of such a file. *)
Class RandomEnv (W R : Type) := {
  env_NewRandomAccessFile : W -> bytes -> res (Status.t * option R);
  env_pread : W -> R -> Z -> Z -> Status.t * bytes * bool;
}.
#[export] Instance random_file {W R} `{!RandomEnv W R} : RandomAccessFile (W * R) := fun f offset n => env_pread f.1 f.2 offset n.

(** What the database asks of its table cache besides lookups: the status of an
    iterator over a table, which is deleted at once, and [Evict]. *)
Class Tables (W T : Type) := {
  tables_status : W -> T -> Z -> Z -> res (Status.t * T);
  tables_Evict : T -> Z -> res T;
}.

(** ** class TableCache *)

Section table_cache.
Context `{!KeyOrder} {W R : Type} `{!RandomEnv W R} `{!Snappy} `{!Address} `{!FilterPolicy}.
Context (dbname_ : bytes) (options_ : Options).

Record TableAndFile := mkTableAndFile { tf_file : R; tf_table : Table R }.
Abbreviation tables := (ShardedLRUCache TableAndFile).
Abbreviation handle := (Z * nat)%type.
Abbreviation TableIterator := (TwoLevelIterator (I := block_iterator) (D := block_iterator)).

(** [cache_], and the last number that [NewId] of the block cache gave. *)
Record TableCacheImpl := mkTableCache { cache_ : tables; block_ids : Z }.

Definition with_file {F G} (t : Table F) (f : G) : Table G :=
  mkTable (t_options t) f (cache_id t) (filter t) (metaindex_handle t) (index_block t).

Definition new_TableCache (entries block_ids : Z) : res TableCacheImpl := c ← new_ShardedLRUCache entries; Ret (mkTableCache c block_ids).

(** The file of a table under its name, or under its old name. *)
Definition open_table_file (w : W) (file_number : Z) : res (Status.t * option R) :=
  '(s, file) ← env_NewRandomAccessFile w (TableFileName dbname_ file_number);
  if negb (Status.ok s) then
    '(s', file') ← env_NewRandomAccessFile w (SSTTableFileName dbname_ file_number);
    Ret (if Status.ok s' then (Status.OK, file') else (s, file))
  else Ret (s, file).

Definition FindTable (w : W) (c : TableCacheImpl) (file_number file_size : Z) : res (Status.t * option handle * TableCacheImpl) :=
  let key := EncodeFixed64 file_number in
  '(h, t) ← cache_Lookup (cache_ c) key;
  match h with
  | Some h => Ret (Status.OK, Some h, mkTableCache t (block_ids c))
  | None =>
      let new_id := u64 (block_ids c + 1) in
      '(s, file) ← open_table_file w file_number;
      '(s, table) ← (if Status.ok s then
                       file ← of_option file;
                       '(s, t) ← Open options_ new_id (w, file) file_size;
                       Ret (s, option_map (fun t => mkTableAndFile file (with_file t file)) t)
                     else Ret (s, None));
      if negb (Status.ok s) then Ret (s, None, mkTableCache t (block_ids c))
      else
        tf ← of_option table;
        '(shard, a, t) ← cache_Insert t key tf 1;
        Ret (s, Some (shard, a), mkTableCache t new_id)
  end.

(** The iterator, with its table and the handle that [UnrefEntry] releases when
    it is deleted; or the error of [NewErrorIterator]. *)
Definition TableCache_NewIterator (w : W) (c : TableCacheImpl) (file_number file_size : Z)
    : res ((EmptyIterator + Table (W * R) * TableIterator * handle) * TableCacheImpl)%type :=
  '(s, h, c) ← FindTable w c file_number file_size;
  if negb (Status.ok s) then Ret (inl (NewErrorIterator s), c)
  else
    h ← of_option h;
    tf ← cache_Value (cache_ c) h;
    let table := with_file (tf_table tf) (w, tf_file tf) in
    result ← table_NewIterator table;
    Ret (inr (table, result, h), c).
Definition UnrefEntry (c : TableCacheImpl) (h : handle) : res TableCacheImpl :=
  t ← cache_Release (cache_ c) h; Ret (mkTableCache t (block_ids c)).

(** [blocks] are the answers of the block cache. *)
Definition TableCache_Get (w : W) (c : TableCacheImpl) (blocks : option (bytes -> option Block)) (ro : ReadOptions) (file_number file_size : Z) (k : bytes)
    : res (Status.t * option (bytes * bytes) * TableCacheImpl) :=
  '(s, h, c) ← FindTable w c file_number file_size;
  if Status.ok s then
    h ← of_option h;
    tf ← cache_Value (cache_ c) h;
    '(s, found) ← InternalGet (with_file (tf_table tf) (w, tf_file tf)) blocks ro k;
    t ← cache_Release (cache_ c) h;
    Ret (s, found, mkTableCache t (block_ids c))
  else Ret (s, None, c).

Definition Evict (c : TableCacheImpl) (file_number : Z) : res TableCacheImpl :=
  t ← cache_Erase (cache_ c) (EncodeFixed64 file_number); Ret (mkTableCache t (block_ids c)).

(** The check of a new table, whose iterator is deleted after its status is
    taken. *)
Definition iterator_status (w : W) (c : TableCacheImpl) (file_number file_size : Z) : res (Status.t * TableCacheImpl) :=
  '(it, c) ← TableCache_NewIterator w c file_number file_size;
  match it with
  | inl e => Ret (status e, c)
  | inr (table, result, h) =>
      let s := status (Iterator := table_iterator table None default_ReadOptions) result in
      c ← UnrefEntry c h;
      Ret (s, c)
  end.

#[export] Instance cached_tables : Tables W TableCacheImpl := {
  tables_status := iterator_status;
  tables_Evict := Evict;
}.
End table_cache.
Arguments TableAndFile R : clear implicits.
Arguments TableCacheImpl R : clear implicits.

(** ** Tables read through any file *)

Section any_file.
Context `{!KeyOrder} {F : Type} `{!RandomAccessFile F} `{!Snappy} `{!Address} `{!FilterPolicy}.

(** The file [f] has the data [d]; where its reads go is left open. *)
Definition reads_as (f : F) (d : bytes) : Prop :=
  forall offset n, exists in_buf, file_pread f offset n = (Status.OK, take (Z.to_nat n) (drop (Z.to_nat offset) d), in_buf).

Context (f : F) (d : bytes) (Hf : reads_as f d).

(** Results that differ in the flags of the contents. *)
Definition same_data (r r' : res (Status.t * BlockContents)) : Prop :=
  match r, r' with
  | Ret (s, b), Ret (s', b') => s = s' /\ data b = data b'
  | Throw, Throw | Undef, Undef | NoFuel, NoFuel => True
  | _, _ => False
  end.

Lemma same_data_refl r : same_data r r.
Proof. by destruct r as [[] | | |]. Qed.

Lemma same_data_bind {A} (r r' : res (Status.t * BlockContents)) (g g' : Status.t * BlockContents -> res A) :
  same_data r r' -> (forall s b b', data b = data b' -> g (s, b) = g' (s, b')) -> r ≫= g = r' ≫= g'.
Proof.
  intros Hr Hg. destruct r as [[s b]| | |], r' as [[s' b']| | |]; try done.
  destruct Hr as [<- Hd]. cbn [mbind res_bind]. by apply Hg.
Qed.

Lemma ReadBlock_any verify h : same_data (ReadBlock f verify h) (ReadBlock d verify h).
Proof.
  unfold ReadBlock. destruct (Hf (offset_ h) (u64 (size_ h + kBlockTrailerSize))) as [b ->]. rewrite string_pread.
  cbn [Status.ok Status.OK negb]. case_decide; [by apply same_data_refl|].
  match goal with |- same_data (?x ≫= _) _ => destruct x as [[]| | |] end; cbn [mbind res_bind negb]; try done.
  destruct (byte_at _ _) as [t| | |]; cbn [mbind res_bind]; try done. case_decide.
  - by destruct (bytes_at _ _).
  - apply same_data_refl.
Qed.

Lemma ReadFilter_any v : ReadFilter f v = ReadFilter d v.
Proof.
  unfold ReadFilter. destruct (handle_DecodeFrom _ _) as [[s h] r]. destruct (negb _); [done|].
  apply same_data_bind; [apply ReadBlock_any|]. intros s' b b' E. by rewrite E.
Qed.

Lemma ReadMeta_any opt footer : ReadMeta opt f footer = ReadMeta opt d footer.
Proof.
  unfold ReadMeta. destruct (filter_policy opt); [|done]. apply same_data_bind; [apply ReadBlock_any|].
  intros s b b' E. rewrite E. destruct (negb _); [done|].
  destruct (new_Block _) as [m| | |]; cbn [mbind res_bind]; try done. destruct (NewIterator m) as [i| | |]; cbn [mbind res_bind]; try done.
  destruct (Seek _ _) as [i'| | |]; cbn [mbind res_bind]; try done. destruct (Valid _); [|done].
  destruct (Iterator.key _) as [k| | |]; cbn [mbind res_bind]; try done. destruct (Slice.equal _ _); [|done].
  destruct (value _) as [v| | |]; cbn [mbind res_bind]; try done. apply ReadFilter_any.
Qed.

Lemma Open_any opt id size : Open opt id f size = ('(s, t) ← Open opt id d size; Ret (s, option_map (fun t => with_file t f) t)).
Proof.
  unfold Open. case_decide; [done|]. destruct (Hf (size - Z.of_nat kEncodedLength) (Z.of_nat kEncodedLength)) as [b ->].
  rewrite string_pread. cbn [Status.ok Status.OK negb]. destruct (footer_DecodeFrom _ _) as [[[s ft] r]| | |]; cbn [mbind res_bind]; try done.
  destruct (negb _); [done|]. rewrite (same_data_bind _ (ReadBlock d (verify_checksums default_ReadOptions) (index_handle_ ft)) _
    (fun p => if Status.ok p.1 then index ← new_Block (data p.2); filter ← ReadMeta opt d ft;
        Ret (p.1, Some (mkTable opt f id filter (metaindex_handle_ ft) index)) else Ret (p.1, None))); [|apply ReadBlock_any|].
  2:{ intros s' c c' E. cbn [fst snd]. rewrite E, ReadMeta_any. done. }
  destruct (ReadBlock d _ _) as [[s' c]| | |]; cbn [mbind res_bind fst snd]; try done. destruct (Status.ok s'); [|done].
  destruct (new_Block _) as [i| | |]; cbn [mbind res_bind]; try done. by destruct (ReadMeta _ _ _).
Qed.

(** The iterators that both give; what is put into the cache may differ. *)
Lemma BlockReader_any {G} (t : Table G) cache ro v :
  ('(it, _) ← BlockReader (with_file t f) cache ro v; Ret it) = ('(it, _) ← BlockReader (with_file t d) cache ro v; Ret it).
Proof.
  unfold BlockReader. destruct (handle_DecodeFrom _ _) as [[s h] r]. destruct (Status.ok s); [|done].
  cbn [with_file t_file cache_id].
  assert (forall (insert insert' : BlockContents -> Block -> option (bytes * Block)),
    ('(it, _) ← ('(s, block, ins) ← ('(s, contents) ← ReadBlock f (verify_checksums ro) h;
       if Status.ok s then block ← new_Block (data contents); Ret (s, Some block, insert contents block) else Ret (s, None, None));
      match block with Some block => iter ← NewIterator block; Ret (iter, ins) | None => Ret (inl (NewErrorIterator s), None) end); Ret it)
    = ('(it, _) ← ('(s, block, ins) ← ('(s, contents) ← ReadBlock d (verify_checksums ro) h;
       if Status.ok s then block ← new_Block (data contents); Ret (s, Some block, insert' contents block) else Ret (s, None, None));
      match block with Some block => iter ← NewIterator block; Ret (iter, ins) | None => Ret (inl (NewErrorIterator s), None) end); Ret it))
    as Hread.
  { intros insert insert'. pose proof (ReadBlock_any (verify_checksums ro) h) as E.
    destruct (ReadBlock f _ h) as [[s1 b1]| | |], (ReadBlock d _ h) as [[s2 b2]| | |]; try done.
    destruct E as [<- E]. cbn [mbind res_bind]. rewrite E. destruct (Status.ok s1); [|done].
    destruct (new_Block _) as [bl| | |]; cbn [mbind res_bind]; try done. by destruct (NewIterator bl). }
  destruct cache as [lookup|].
  - destruct (lookup _); [done|].
    apply (Hread (fun contents block => if cachable contents && fill_cache ro then Some (cache_key (cache_id t) h, block) else None)
      (fun contents block => if cachable contents && fill_cache ro then Some (cache_key (cache_id t) h, block) else None)).
  - apply (Hread (fun _ _ => None) (fun _ _ => None)).
Qed.

Lemma InternalGet_any {G} (t : Table G) cache ro k : InternalGet (with_file t f) cache ro k = InternalGet (with_file t d) cache ro k.
Proof.
  unfold InternalGet. cbn [with_file index_block filter].
  destruct (NewIterator _) as [i| | |]; cbn [mbind res_bind]; try done. destruct (Seek i k) as [i'| | |]; cbn [mbind res_bind]; try done.
  destruct (Valid i'); [|done]. destruct (value i') as [v| | |]; cbn [mbind res_bind]; try done.
  destruct (handle_DecodeFrom _ _) as [[hs h] r]. match goal with |- ((?m ≫= _) ≫= _) = _ => destruct m as [[]| | |] end; cbn [mbind res_bind]; try done.
  pose proof (BlockReader_any t cache ro v) as E.
  destruct (BlockReader (with_file t f) _ _ _) as [[b1 n1]| | |], (BlockReader (with_file t d) _ _ _) as [[b2 n2]| | |]; try done.
  cbn [mbind res_bind] in *. by injection E as <-.
Qed.

(** The iterators over the table are the same. *)
Lemma block_function_any {G} (t : Table G) cache ro : block_function (with_file t f) cache ro = block_function (with_file t d) cache ro.
Proof. apply functional_extensionality. intros v. apply BlockReader_any. Qed.
Lemma table_iterator_any {G} (t : Table G) cache ro : table_iterator (with_file t f) cache ro = table_iterator (with_file t d) cache ro.
Proof. unfold table_iterator. by rewrite block_function_any. Qed.
End any_file.

(** ** The cache serves tables of writes *)

Section serve.
Context `{!Comparator} (Hsame : forall u v, Compare u v = 0 -> ~ Compare u (FindShortestSeparator u v) < 0).
Context `{!Snappy} `{!SnappyLaw} `{!Address} (user_policy : FilterPolicy) {W R : Type} `{!RandomEnv W R} (dbname : bytes) (opt : Options).
#[local] Hint Extern 0 KeyOrder => exact (table_order Hsame) : typeclass_instances.
#[local] Hint Extern 0 FilterPolicy => exact (table_policy user_policy) : typeclass_instances.
Abbreviation cache := (TableCacheImpl R).

(** The data of a table file of these writes. *)
Definition table_of (data : bytes) (wr : list write) : Prop :=
  Z.of_nat (length data) < 2^32 /\ in_order (map raw_write wr) /\ Forall (fun e : write => valid_seq (sequence e.1)) wr
  /\ exists seps ws hm hi, table_file opt data (map raw_write wr) seps ws hm hi.

(** The tables of the database by number; [opened]: the data of the table that
    each number of the block cache was given to. *)
Context (D : gmap Z (bytes * list write)) (opened : Z -> bytes -> Prop).

Definition table_readable (w : W) (number : Z) (data : bytes) : Prop :=
  exists r, open_table_file dbname w number = Ret (Status.OK, Some r) /\ reads_as (w, r) data.
Definition tables_good (w : W) (D : gmap Z (bytes * list write)) : Prop := forall n data wr, D !! n = Some (data, wr) ->
  0 <= n < 2^64 /\ table_of data wr /\ table_readable w n data.

(** Blocks in the block cache are blocks of the tables. *)
Definition blocks_good (blocks : option (bytes -> option Block)) : Prop := forall id data wr seps ws hm hi,
  opened id data -> table_file opt data (map raw_write wr) seps ws hm hi -> coherent data ws id blocks.

Definition entry_good (w : W) (D : gmap Z (bytes * list write)) (key : bytes) (tf : TableAndFile R) : Prop := exists n data wr id t,
  key = EncodeFixed64 n /\ 0 <= n < 2^64 /\ D !! n = Some (data, wr) /\ reads_as (w, tf_file tf) data /\ opened id data
  /\ Open opt id data (Z.of_nat (length data)) = Ret (Status.OK, Some t) /\ tf_table tf = with_file t (tf_file tf).

Definition cache_good (w : W) (D : gmap Z (bytes * list write)) (c : cache) (held : Z * nat -> Z) : Prop := sharded_ok (entry_good w D) (cache_ c) held.
(** Fewer tables are open, and fewer iterators over each, than 2^31. *)
Definition cache_room (c : cache) (held : Z * nat -> Z) : Prop :=
  (forall h, held h < 2^31) /\ forall s, s ∈ shard_ (cache_ c) -> Z.of_nat (S (length (lru_ s))) < 2^31.

Lemma EncodeFixed64_inj a b : 0 <= a < 2^64 -> 0 <= b < 2^64 -> EncodeFixed64 a = EncodeFixed64 b -> a = b.
Proof.
  intros Ha Hb E. pose proof (DecodeFixed64_Encode a [] Ha) as Ea. rewrite E, (DecodeFixed64_Encode b [] Hb) in Ea. by injection Ea.
Qed.

Lemma with_file_twice {F G K} (t : Table F) (g : G) (k : K) : with_file (with_file t g) k = with_file t k.
Proof. done. Qed.

(** The table of the data, opened through a file that reads it. *)
Lemma open_table w r id data wr : table_of data wr -> reads_as (w, r) data -> exists t,
  Open opt id data (Z.of_nat (length data)) = Ret (Status.OK, Some t)
  /\ Open opt id (w, r) (Z.of_nat (length data)) = Ret (Status.OK, Some (with_file t (w, r))).
Proof.
  intros (Hlen & Ho & Hv & seps & ws & hm & hi & Htf) Hr.
  destruct (Open_spec opt data Hlen (map raw_write wr) seps ws hm hi Htf id) as (t & Et & _). exists t. split; [exact Et|].
  rewrite (Open_any (w, r) data Hr), Et. reflexivity.
Qed.

(** The miss: the table is opened and put into the cache. *)
Lemma insert_table w c held n data wr r t : cache_good w D c held -> cache_room c held -> D !! n = Some (data, wr) -> 0 <= n < 2^64 ->
  reads_as (w, r) data -> opened (u64 (block_ids c + 1)) data ->
  Open opt (u64 (block_ids c + 1)) data (Z.of_nat (length data)) = Ret (Status.OK, Some t) ->
  exists h c', cache_Insert (cache_ c) (EncodeFixed64 n) (mkTableAndFile r (with_file t r)) 1 = Ret (h, c')
  /\ cache_good w D (mkTableCache c' (u64 (block_ids c + 1))) (add_held held h 1) /\ 0 <= h.1 < kNumShards
  /\ cache_Value c' h = Ret (mkTableAndFile r (with_file t r)).
Proof.
  intros Hc [_ Hroom] HD Hn Hr Hid Et. set (tf := mkTableAndFile r _).
  destruct (cache_Insert_spec (entry_good w D) (cache_ c) held (EncodeFixed64 n) tf 1 Hc) as (h & c2 & E2 & Hc2 & Hh & e & Ee & Ek & Ev);
    [|exact Hroom|].
  - by exists n, data, wr, (u64 (block_ids c + 1)), t.
  - exists h, c2. split; [exact E2|]. split; [exact Hc2|]. split; [done|]. unfold cache_Value. rewrite Ee. cbn [mbind res_bind]. by rewrite Ev.
Qed.

Lemma FindTable_hit w c n size h t : cache_Lookup (cache_ c) (EncodeFixed64 n) = Ret (Some h, t) ->
  FindTable dbname opt w c n size = Ret (Status.OK, Some h, mkTableCache t (block_ids c)).
Proof. intros E. unfold FindTable. by rewrite E. Qed.

Lemma FindTable_miss w c n size r (t : Table bytes) h t' : cache_Lookup (cache_ c) (EncodeFixed64 n) = Ret (None, cache_ c) ->
  open_table_file dbname w n = Ret (Status.OK, Some r) -> Open opt (u64 (block_ids c + 1)) (w, r) size = Ret (Status.OK, Some (with_file t (w, r))) ->
  cache_Insert (cache_ c) (EncodeFixed64 n) (mkTableAndFile r (with_file t r)) 1 = Ret (h, t') ->
  FindTable dbname opt w c n size = Ret (Status.OK, Some h, mkTableCache t' (u64 (block_ids c + 1))).
Proof.
  intros E1 E2 E3 E4. unfold FindTable. cbv zeta. rewrite E1, bind_Ret. cbv iota beta. rewrite E2, bind_Ret. cbv iota beta.
  change (Status.ok Status.OK) with true. cbv iota. change (of_option (Some r)) with (Ret r). rewrite bind_Ret, E3, bind_Ret. cbv iota beta. rewrite bind_Ret. cbv iota beta.
  change (negb (Status.ok Status.OK)) with false. cbv iota. cbn [option_map]. rewrite with_file_twice. change (of_option (Some ?x)) with (Ret x). rewrite bind_Ret, E4, bind_Ret. by destruct h.
Qed.

(** What [FindTable] returns is the table of the number. *)
Definition found_table (w : W) (c : cache) (h : Z * nat) (data : bytes) : Prop := exists tf t id,
  cache_Value (cache_ c) h = Ret tf /\ reads_as (w, tf_file tf) data /\ opened id data
  /\ Open opt id data (Z.of_nat (length data)) = Ret (Status.OK, Some t) /\ tf_table tf = with_file t (tf_file tf).

Lemma FindTable_spec w c held n data wr : tables_good w D -> cache_good w D c held -> cache_room c held -> D !! n = Some (data, wr) ->
  opened (u64 (block_ids c + 1)) data ->
  exists h c', FindTable dbname opt w c n (Z.of_nat (length data)) = Ret (Status.OK, Some h, c')
  /\ cache_good w D c' (add_held held h 1) /\ 0 <= h.1 < kNumShards /\ found_table w c' h data.
Proof.
  intros Hd Hc Hroom HD Hid. destruct (Hd n data wr HD) as (Hn & Ht & r & Eo & Hr).
  destruct (cache_Lookup_spec (entry_good w D) (cache_ c) held (EncodeFixed64 n) Hc (proj1 Hroom)) as ([h|] & c1 & E & Hl).
  - destruct Hl as (Hc1 & Hh & e & Ee & Ek & n' & data' & wr' & id & t & Ekey & Hn' & HD' & Hr' & Hid' & Et & Etf).
    apply EncodeFixed64_inj in Ekey as <-; [|done..]. rewrite HD in HD'. injection HD' as <- <-.
    eexists h, _. split; [by apply FindTable_hit|]. split; [exact Hc1|]. split; [exact Hh|]. exists (h_value e), t, id.
    split; [unfold cache_Value; cbn [cache_]; by rewrite Ee|]. split_and!; assumption.
  - subst c1. destruct (open_table w r (u64 (block_ids c + 1)) data wr Ht Hr) as (t & Et & Et').
    destruct (insert_table w c held n data wr r t Hc Hroom HD Hn Hr Hid Et) as (h & c2 & E2 & Hc2 & Hh & Ev).
    eexists h, _. split; [by eapply FindTable_miss|]. split; [exact Hc2|]. split; [exact Hh|].
    exists (mkTableAndFile r (with_file t r)), t, (u64 (block_ids c + 1)). split; [exact Ev|]. split; [exact Hr|]. split; [exact Hid|]. split; [exact Et|reflexivity].
Qed.

Lemma opened_table data wr id t : table_of data wr -> Open opt id data (Z.of_nat (length data)) = Ret (Status.OK, Some t) ->
  in_order (map raw_write wr) /\ Forall (fun e : write => valid_seq (sequence e.1)) wr /\ cache_id t = id
  /\ exists seps ws hm hi, table_file opt data (map raw_write wr) seps ws hm hi /\ table_ok data seps ws hm t.
Proof.
  intros (Hlen & Ho & Hv & seps & ws & hm & hi & Htf) E. split; [done|]. split; [done|].
  destruct (Open_spec opt data Hlen (map raw_write wr) seps ws hm hi Htf id) as (t' & Et & Ei & Hok). rewrite E in Et. injection Et as <-.
  split; [done|]. by exists seps, ws, hm, hi.
Qed.

Lemma same_file (t : Table bytes) data seps ws hm : table_ok data seps ws hm t -> with_file t data = t.
Proof. intros (E & _). destruct t. cbn in *. by subst. Qed.

Lemma release_found w D' (c : cache) held h : cache_good w D' c (add_held held h 1) -> 0 <= h.1 < kNumShards -> (forall x, 0 <= held x) ->
  exists t, cache_Release (cache_ c) h = Ret t /\ cache_good w D' (mkTableCache t (block_ids c)) held.
Proof.
  intros Hc Hh Hpos. destruct (cache_Release_spec _ _ _ h Hc) as (t & E & Ht); [|done|].
  - unfold add_held. rewrite decide_True by done. specialize (Hpos h). lia.
  - exists t. split; [done|]. unfold cache_good. cbn [cache_]. destruct Ht as [H1' H2']. split; [done|]. intros i s Es.
    eapply shard_ok_ext; [|by apply (H2' i s Es)]. intros a. unfold shard_held, add_held. case_decide; lia.
Qed.

Lemma TableCache_Get_spec w c held n data wr blocks ro u s : policy_fits user_policy -> tables_good w D -> blocks_good blocks ->
  cache_good w D c held -> cache_room c held -> (forall x, 0 <= held x) -> D !! n = Some (data, wr) -> opened (u64 (block_ids c + 1)) data -> valid_seq s ->
  exists found c', TableCache_Get dbname opt w c blocks ro n (Z.of_nat (length data)) (encode_key (mkParsed u s kValueTypeForSeek))
    = Ret (Status.OK, found, c')
  /\ lookup_found u s wr found /\ cache_good w D c' held.
Proof.
  intros Hfit Hd Hb Hc Hroom Hpos HD Hid Hs. unfold TableCache_Get.
  destruct (FindTable_spec w c held n data wr Hd Hc Hroom HD Hid) as (h & c1 & E & Hc1 & Hh & tf & t & id & Ev & Hr & Hid' & Et & Etf).
  rewrite E.
  cbn [mbind res_bind Status.ok Status.OK of_option]. rewrite Ev. cbn [mbind res_bind]. rewrite Etf, with_file_twice.
  rewrite (InternalGet_any (w, tf_file tf) data Hr). destruct (Hd n data wr HD) as (_ & Htab & _).
  destruct (opened_table data wr id t Htab Et) as (Ho & Hv & Eid & seps & ws & hm & hi & Htf & Hok).
  rewrite (same_file t data seps ws hm Hok).
  destruct (table_lookup Hsame user_policy opt data (proj1 Htab) wr seps ws hm hi Htf Ho Hv t Hok blocks ro) with (u := u) (s := s) as (found & -> & Hf);
    [rewrite Eid; by apply (Hb id data wr seps ws hm hi)|done|done|].
  cbn [mbind res_bind]. destruct (release_found w D c1 held h Hc1 Hh Hpos) as (t' & -> & Ht'). cbn [mbind res_bind].
  by exists found, (mkTableCache t' (block_ids c1)).
Qed.

Lemma iterator_status_spec w c held n data wr : tables_good w D ->
  cache_good w D c held -> cache_room c held -> (forall x, 0 <= held x) -> D !! n = Some (data, wr) -> opened (u64 (block_ids c + 1)) data ->
  exists c', iterator_status dbname opt w c n (Z.of_nat (length data)) = Ret (Status.OK, c') /\ cache_good w D c' held.
Proof.
  intros Hd Hc Hroom Hpos HD Hid. unfold iterator_status, TableCache_NewIterator.
  destruct (FindTable_spec w c held n data wr Hd Hc Hroom HD Hid) as (h & c1 & E & Hc1 & Hh & tf & t & id & Ev & Hr & Hid' & Et & Etf).
  rewrite E.
  cbn [mbind res_bind Status.ok Status.OK of_option negb]. rewrite Ev. cbn [mbind res_bind]. rewrite Etf, with_file_twice.
  destruct (Hd n data wr HD) as (_ & Htab & _). destruct (opened_table data wr id t Htab Et) as (Ho & Hv & Eid & seps & ws & hm & hi & Htf & Hok).
  destruct (table_NewIterator_spec opt data (proj1 Htab) (map raw_write wr) seps ws hm hi Htf t Hok None default_ReadOptions) as (it & Eit & Hit);
    [done|].
  change (table_NewIterator (with_file t (w, tf_file tf))) with (table_NewIterator t). rewrite Eit. cbn [mbind res_bind].
  rewrite (table_iterator_any (w, tf_file tf) data Hr), (same_file t data seps ws hm Hok).
  rewrite (spec_status _ _ Hit). unfold UnrefEntry. destruct (release_found w D c1 held h Hc1 Hh Hpos) as (t' & -> & Ht'). cbn [mbind res_bind].
  by exists (mkTableCache t' (block_ids c1)).
Qed.

(** A table that is evicted may be deleted. *)
Lemma Evict_spec w c held n : cache_good w D c held -> 0 <= n < 2^64 -> exists c', Evict c n = Ret c' /\ cache_good w (delete n D) c' held.
Proof.
  intros Hc Hn. unfold Evict. destruct (cache_Erase_spec _ _ _ (EncodeFixed64 n) Hc) as (t & -> & [H1' H2']). cbn [mbind res_bind].
  eexists. split; [done|]. split; [done|]. cbn [cache_]. intros i s Es. destruct (H2' i s Es) as [Hi Hh He]. split; [done|done|].
  intros a e Ha Ea. destruct (He a e Ha Ea) as [(n' & data & wr & id & t' & Ek & Hn' & HD & Hrest) Hne]. exists n', data, wr, id, t'.
  split; [done|]. split; [done|]. split; [|done]. rewrite lookup_delete_ne; [done|]. intros ->. by apply Hne.
Qed.

(** The cache in one of its states, as the tables that a version reads.  The
    state that a lookup leaves is dropped: every good state answers alike. *)
Definition state_tables (w : W) (c : cache) (blocks : option (bytes -> option Block)) (ro : ReadOptions) : Version.TableCache := {|
  cache_Get n size k := '(s, found, _) ← TableCache_Get dbname opt w c blocks ro n size k; Ret (s, found)
|}.
Definition table_writes (D : gmap Z (bytes * list write)) (n : Z) : list write := match D !! n with Some (_, wr) => wr | None => [] end.
Definition file_good (D : gmap Z (bytes * list write)) (f : FileMetaData) : Prop :=
  exists data wr, D !! number f = Some (data, wr) /\ file_size f = Z.of_nat (length data).
(** ** Properties *)

(** C11: the table cache serves the table files.  A new cache is good; in every
    good state, whatever tables it has open, a lookup in a table finds what the
    file of that number holds, the newest write that the snapshot sees or an
    entry for another key, and the state it leaves is good, with no handle left
    behind; so is the state that the check of a table or an eviction leaves,
    after which the table may be deleted.  So the state meets the interface that
    versions read tables through: a get from a version finds the newest write
    of all its table files, filters, block cache and old file names or not. *)
Theorem table_cache_answers (w : W) entries ids blocks ro :
  policy_fits user_policy -> tables_good w D -> blocks_good blocks ->
  (exists c : cache, new_TableCache entries ids = Ret c /\ cache_good w D c (fun _ => 0))
  /\ forall (c : cache) held, cache_good w D c held -> cache_room c held -> (forall h, 0 <= held h) ->
    (forall data, opened (u64 (block_ids c + 1)) data) ->
    (forall n data wr u s, D !! n = Some (data, wr) -> valid_seq s -> exists found c',
       TableCache_Get dbname opt w c blocks ro n (Z.of_nat (length data)) (encode_key (mkParsed u s kValueTypeForSeek))
         = Ret (Status.OK, found, c')
       /\ lookup_found u s wr found /\ cache_good w D c' held)
    /\ (forall n data wr, D !! n = Some (data, wr) -> exists c',
          iterator_status dbname opt w c n (Z.of_nat (length data)) = Ret (Status.OK, c')
          /\ cache_good w D c' held)
    /\ (forall n, 0 <= n < 2^64 -> exists c', Evict c n = Ret c' /\ cache_good w (delete n D) c' held)
    /\ forall v u s value, version_wf (table_writes D) v -> (forall level f, f ∈ level_files v level -> file_good D f) -> valid_seq s ->
         exists o charged, is_newest u s (version_writes (table_writes D) v) o
         /\ Version_Get (H0 := state_tables w c blocks ro) v (LookupKey_make u s) value
            = Ret ((get_answer o value).1, (get_answer o value).2, charged).
Proof.
  intros Hfit Hd Hb. split.
  { destruct (new_Sharded_spec (entry_good w D) entries) as (c & E & Hc).
    exists (mkTableCache c ids). unfold new_TableCache. by rewrite E. }
  intros c held Hc Hroom Hpos Hid.
  assert (forall n data wr u s, D !! n = Some (data, wr) -> valid_seq s -> exists found c',
       TableCache_Get dbname opt w c blocks ro n (Z.of_nat (length data)) (encode_key (mkParsed u s kValueTypeForSeek))
         = Ret (Status.OK, found, c')
       /\ lookup_found u s wr found /\ cache_good w D c' held) as Hget.
  { intros n data wr u s HD Hs. by eapply TableCache_Get_spec. }
  split; [exact Hget|]. split; [intros n data wr HD; by eapply iterator_status_spec|]. split; [intros n Hn; by apply Evict_spec|].
  intros v u s value Hv Hfiles Hs.
  destruct (Version_Get_newest (H0 := state_tables w c blocks ro) (table_writes D) (file_good D) v u s value)
    as (o & charged & Ho & E & _); [|done|done|done|by exists o, charged].
  intros f u' s' (data & wr & HD & Esz) Hs'. destruct (Hget (number f) data wr u' s' HD Hs') as (found & c' & E & Hf & _). exists found.
  unfold table_writes. rewrite HD. split; [|done]. cbn [cache_Get state_tables]. by rewrite Esz, E.
Qed.
End serve.

(** ** A table file in a world that is a map *)

#[local] Existing Instances BytewiseComparator no_snappy no_snappy_law.
#[local] Instance sample_address : Address := fun _ => 0.
#[local] Instance map_env : RandomEnv (gmap bytes bytes) bytes := {
  env_NewRandomAccessFile w name := Ret (match w !! name with Some d => (Status.OK, Some d) | None => (Status.IOError name (lit "not found"), None) end);
  env_pread w d offset n := (Status.OK, take (Z.to_nat n) (drop (Z.to_nat offset) d), false);
}.
#[local] Hint Extern 0 KeyOrder => exact (table_order bytewise_same) : typeclass_instances.
#[local] Hint Extern 0 FilterPolicy => exact (table_policy sample_policy) : typeclass_instances.

Definition sample_options : Options := mkOptions 0 20 2 kSnappyCompression (Some (lit "bloom")).
Definition sample_run : list write :=
  [(mkParsed (lit "a") 9 kTypeDeletion, []); (mkParsed (lit "a") 2 kTypeValue, lit "old"); (mkParsed (lit "b") 5 kTypeValue, lit "bee")].
Definition sample_data : bytes :=
  match build_table sample_options [] (map raw_write sample_run) with Ret (r, _) => file r | _ => [] end.
Definition single_D (data : bytes) (wr : list write) : gmap Z (bytes * list write) := {[5 := (data, wr)]}.
Definition single_world (data : bytes) : gmap bytes bytes := {[SSTTableFileName (lit "db") 5 := data]}.
Definition sample_D : gmap Z (bytes * list write) := single_D sample_data sample_run.
Definition sample_world : gmap bytes bytes := single_world sample_data.

Lemma sample_table : table_of bytewise_same sample_policy sample_options sample_data sample_run.
Proof.
  assert (Z.of_nat (length sample_data) < 2^32) as Hl by (vm_compute; reflexivity).
  assert (in_order (map raw_write sample_run)) as Ho.
  { split; [repeat constructor; vm_compute; lia|]. repeat (constructor; [|]); repeat constructor; vm_compute; reflexivity. }
  split; [exact Hl|]. split; [exact Ho|]. split; [repeat constructor; vm_compute; congruence|].
  destruct (build_table_spec sample_options ltac:(discriminate) (map raw_write sample_run) Ho) as (r & E & Hr);
    [vm_compute; reflexivity|intros name [= <-]; vm_compute; reflexivity|].
  assert (file r = sample_data) as Ef by (unfold sample_data; by rewrite E). rewrite <- Ef in *.
  destruct Hr as (seps & ws & hm & hi & Htf); [lia|]. by exists seps, ws, hm, hi.
Qed.

Lemma single_tables_good data wr : table_of bytewise_same sample_policy sample_options data wr ->
  tables_good bytewise_same sample_policy (lit "db") sample_options (single_world data) (single_D data wr).
Proof.
  intros Ht n data' wr' HD. unfold single_D in HD. apply lookup_singleton_Some in HD as [<- E]. injection E as <- <-.
  split; [lia|]. split; [done|]. exists data. split; [|intros offset k; by exists false].
  unfold open_table_file, single_world. cbn [env_NewRandomAccessFile map_env].
  assert (({[SSTTableFileName (lit "db") 5 := data]} : gmap bytes bytes) !! TableFileName (lit "db") 5 = None) as ->
    by (apply lookup_singleton_ne, (bool_decide_unpack _); vm_compute; exact I).
  cbn [mbind res_bind Status.ok negb].
  by rewrite lookup_singleton_eq.
Qed.

Lemma sample_tables_good : tables_good bytewise_same sample_policy (lit "db") sample_options sample_world sample_D.
Proof. apply single_tables_good, sample_table. Qed.

Lemma sample_fits : policy_fits sample_policy.
Proof.
  split; [|intros u f; apply bloom_total]. intros u v f E. f_equal.
  assert ((Slice.compare u v ?= 0) = Eq) as E' by exact (proj2 (Z.compare_eq_iff _ _) E).
  rewrite Slice.compare_sign in E'. by apply (cmp_eq (cmp := bytes_cmp)) in E'.
Qed.

(** A lookup that opens the table, under its old name. *)
Lemma table_cache_answers_witness : exists c c1 : TableCacheImpl bytes, new_TableCache 10 0 = Ret c
  /\ TableCache_Get (lit "db") sample_options sample_world c None default_ReadOptions 5 (Z.of_nat (length sample_data))
       (encode_key (mkParsed (lit "a") 20 kValueTypeForSeek)) = Ret (Status.OK, Some (encode_key (mkParsed (lit "a") 9 kTypeDeletion), []), c1).
Proof.
  destruct (table_cache_answers bytewise_same sample_policy (lit "db") sample_options sample_D (fun _ _ => True) sample_world 10 0 None default_ReadOptions
    sample_fits sample_tables_good) as [(c & E & Hc) Hall]; [by intros id data wr seps ws hm hi _ _ lookup|].
  assert (sample_D !! 5 = Some (sample_data, sample_run)) as HD by done.
  assert (match new_TableCache (R := bytes) 10 0 with Ret c => Forall (fun s => lru_ s = []) (shard_ (cache_ c)) | _ => False end) as He
    by (vm_compute; repeat constructor).
  rewrite E in He. destruct (Hall c (fun _ => 0) Hc) as (Hget & _); [split; [done|]|done|done|].
  { intros s Hs. rewrite Forall_forall in He. rewrite (He s) by (by apply list_elem_of_In). vm_compute. done. }
  destruct (Hget 5 sample_data sample_run (lit "a") 20 HD) as (found & c1 & E1 & Hf & Hc1); [split; vm_compute; congruence|].
  exists c, c1. split; [exact E|]. unfold lookup_found in Hf.
  assert (first_visible (lit "a") 20 sample_run = Some (mkParsed (lit "a") 9 kTypeDeletion, [])) as Ev by (vm_compute; reflexivity).
  rewrite Ev in Hf. subst found. exact E1.
Defined.
