(* ===== verification/BuildTable.v ===== *)
(** * BuildTable: db/builder.cc

    A table written from an iterator to a file of the environment, synced,
    closed and opened for a check.  A table builder writes to any file what it
    writes to memory (section [any_builder]), so the file is the table of
    TableBuilder.v ([build_table_file]). *)

From S2P Require Import Prelude CLib Coding Crc32c Status DbFormat SkipList Log Filename Bloom FilterBlock Iterator BlockBuilder Block.
From S2P Require Import TableFormat KeyOrder Table MemEnv Env TableBuilder VersionEdit TableCache.

(** ** db/builder.cc *)

Section build.
Context `{!KeyOrder} `{!Snappy} `{!Address} `{!FilterPolicy} {W Wf Sf T I : Type} `{!Env W Wf Sf} `{!Tables W T} `{!Iterator I}.

Definition set_smallest (f : FileMetaData) (k : bytes) : FileMetaData :=
  mkFileMetaData (refs f) (allowed_seeks f) (number f) (file_size f) k (largest f).
Definition set_largest (f : FileMetaData) (k : bytes) : FileMetaData :=
  mkFileMetaData (refs f) (allowed_seeks f) (number f) (file_size f) (smallest f) k.
Definition set_file_size (f : FileMetaData) (n : Z) : FileMetaData :=
  mkFileMetaData (refs f) (allowed_seeks f) (number f) n (smallest f) (largest f).

(** A round for every entry, and one. *)
Fixpoint build_loop (fuel : nat) (iter : I) (meta : FileMetaData) (builder : Rep (W * Wf)) : res (I * FileMetaData * Rep (W * Wf)) :=
  match fuel with
  | O => NoFuel
  | S fuel =>
      if Valid iter then
        key ← Iterator.key iter;
        let meta := set_largest meta key in
        v ← value iter;
        builder ← Add builder key v;
        iter ← Next iter;
        build_loop fuel iter meta builder
      else Ret (iter, meta, builder)
  end.

(** The table, in the file that was made for it: finished, synced, closed and
    checked. *)
Definition write_table (fuel : nat) (w : W) (tables : T) (file : Wf) (opt : Options) (iter : I) (meta : FileMetaData)
    : res (Status.t * W * T * I * FileMetaData) :=
  builder ← new_TableBuilder opt (w, file);
  k ← Iterator.key iter;
  '(iter, meta, builder) ← build_loop fuel iter (set_smallest meta k) builder;
  '(builder, s) ← Finish builder;
  let meta := if Status.ok s then set_file_size meta (FileSize builder) else meta in
  let w := (TableBuilder.file builder).1 in
  let '(s, w) := if Status.ok s then env_Sync w file else (s, w) in
  let '(s, w) := if Status.ok s then env_Close w file else (s, w) in
  '(s, tables) ← (if Status.ok s then tables_status w tables (number meta) (file_size meta) else Ret (s, tables));
  Ret (s, w, tables, iter, meta).

(** The file is kept when all went well and there is something in it. *)
Definition finish_table (s : Status.t) (w : W) (tables : T) (fname : bytes) (iter : I) (meta : FileMetaData)
    : res (Status.t * W * T * I * FileMetaData) :=
  let s := if Status.ok (Iterator.status iter) then s else Iterator.status iter in
  if Status.ok s && (0 <? file_size meta) then Ret (s, w, tables, iter, meta)
  else '(_, w) ← env_DeleteFile w fname; Ret (s, w, tables, iter, meta).

Definition BuildTable (fuel : nat) (w : W) (tables : T) (dbname : bytes) (opt : Options) (iter : I) (meta : FileMetaData)
    : res (Status.t * W * T * I * FileMetaData) :=
  let meta := set_file_size meta 0 in
  iter ← SeekToFirst iter;
  let fname := TableFileName dbname (number meta) in
  if Valid iter then
    '(s, file, w) ← env_NewWritableFile w fname;
    if negb (Status.ok s) then Ret (s, w, tables, iter, meta)
    else
      file ← of_option file;
      '(s, w, tables, iter, meta) ← write_table fuel w tables file opt iter meta;
      finish_table s w tables fname iter meta
  else finish_table Status.OK w tables fname iter meta.
End build.

(** ** Builders of any file *)

Section any_builder.
Context `{!KeyOrder} `{!Snappy} `{!Address} `{!FilterPolicy} {F : Type} `{!WritableFile F}.
(** The file [f] has the data [d], and takes what is written to it. *)
Context (R : F -> bytes -> Prop).
Context (Happend : forall f c d, R f c -> exists f', file_append d f = (Status.OK, f') /\ R f' (c ++ d)).
Context (Hflush : forall f c, R f c -> exists f', file_flush f = (Status.OK, f') /\ R f' c).

Definition with_builder_file {G H} (r : Rep G) (f : H) : Rep H :=
  mkRep (options r) (index_block_options r) f (TableBuilder.offset r) (rep_status r) (data_block r) (index_block r) (last_key r)
    (num_entries r) (closed r) (filter_block r) (pending_index_entry r) (pending_handle r).

(** The same builder, of the file and of its data, whose offset is its size. *)
Record same_builder (r : Rep F) (b : Rep bytes) : Prop := {
  sb_file : R (TableBuilder.file r) (TableBuilder.file b);
  sb_eq : r = with_builder_file b (TableBuilder.file r);
  sb_offset : TableBuilder.offset b = u64 (Z.of_nat (length (TableBuilder.file b)));
}.

Lemma WriteRawBlock_any r b c t b' h : same_builder r b -> WriteRawBlock b c t = Ret (b', h) ->
  exists r', WriteRawBlock r c t = Ret (r', h) /\ same_builder r' b'.
Proof.
  intros [Hr -> Ho] E. destruct b. cbn [with_builder_file TableBuilder.file TableBuilder.offset] in *. unfold WriteRawBlock in *. cbn [TableBuilder.file TableBuilder.offset with_builder_file] in *.
  destruct (Happend _ _ c Hr) as (f1 & -> & Hr1). cbn [file_append string_writable Status.ok Status.OK] in *.
  destruct (crc_value c) as [x| | |]; cbn [mbind res_bind] in *; try done. destruct (crc_extend _ _) as [y| | |]; cbn [mbind res_bind] in *; try done.
  destruct (Happend _ _ ([zb (compression_code t)] ++ EncodeFixed32 (Mask y)) Hr1) as (f2 & -> & Hr2). injection E as <- <-.
  eexists. split; [done|]. split; [exact Hr2|done|]. cbn [set_file TableBuilder.offset TableBuilder.file]. rewrite Ho, !length_app.
  cbn [length]. rewrite length_EncodeFixed32. unfold u64, kBlockTrailerSize. rewrite Zplus_mod_idemp_l. f_equal. lia.
Qed.

Lemma same_builder_set r b x : same_builder r b -> (forall G (q : Rep G), TableBuilder.file (x G q) = TableBuilder.file q /\ TableBuilder.offset (x G q) = TableBuilder.offset q) ->
  (forall (q : Rep bytes) (f : F), x F (with_builder_file q f) = with_builder_file (x bytes q) f) -> same_builder (x F r) (x bytes b).
Proof.
  intros [Hr -> Ho] Hx Hy. rewrite Hy. destruct (Hx _ b) as [Ef Eo]. split; cbn [with_builder_file TableBuilder.file]; [by rewrite Ef|done|by rewrite Ef, Eo].
Qed.

Lemma WriteBlock_any r b blk b' blk' h : same_builder r b -> WriteBlock b blk = Ret (b', blk', h) ->
  exists r', WriteBlock r blk = Ret (r', blk', h) /\ same_builder r' b'.
Proof.
  intros Hrb E. unfold WriteBlock in *. destruct (BlockBuilder.Finish blk) as [blk1 raw]. pose proof (sb_eq _ _ Hrb) as Er.
  assert (options r = options b) as -> by by rewrite Er. destruct (compress _ _) as [c t].
  apply res_bind_Ret in E as ([b1 h1] & E1 & E). injection E as <- <- <-.
  destruct (WriteRawBlock_any r b c t b1 h1 Hrb E1) as (r1 & -> & Hr1). cbn [mbind res_bind]. by exists r1.
Qed.

Lemma Flush_any r b b' : same_builder r b -> Flush b = Ret b' -> exists r', Flush r = Ret r' /\ same_builder r' b'.
Proof.
  intros Hrb E. unfold Flush, ok in *. pose proof (sb_eq _ _ Hrb) as Er. assert (rep_status r = rep_status b /\ data_block r = data_block b) as [-> ->] by by rewrite Er.
  destruct (negb _); [injection E as <-; by exists r|]. destruct (empty _); [injection E as <-; by exists r|].
  apply res_bind_Ret in E as ([[b1 blk] h] & E1 & E). destruct (WriteBlock_any _ _ _ _ _ _ Hrb E1) as (r1 & -> & [Hr1 -> Ho1]). cbn [mbind res_bind].
  set (b2 := if Status.ok _ then _ else _) in E.
  assert (exists r2, (if Status.ok (rep_status (set_data (with_builder_file b1 (TableBuilder.file r1)) blk h)) then
      let '(s, f) := file_flush (TableBuilder.file (set_data (with_builder_file b1 (TableBuilder.file r1)) blk h)) in
      set_file (set_index (set_data (with_builder_file b1 (TableBuilder.file r1)) blk h) (index_block (set_data (with_builder_file b1 (TableBuilder.file r1)) blk h))
        (last_key (set_data (with_builder_file b1 (TableBuilder.file r1)) blk h)) true) f (offset (set_data (with_builder_file b1 (TableBuilder.file r1)) blk h)) s
      else set_data (with_builder_file b1 (TableBuilder.file r1)) blk h) = r2 /\ same_builder r2 b2) as (r2 & -> & Hr2).
  { eexists. split; [done|]. unfold b2. cbn [set_data rep_status with_builder_file TableBuilder.file]. destruct (Status.ok (rep_status b1)).
    - cbn [file_flush string_writable]. destruct (Hflush _ _ Hr1) as (f2 & -> & Hr2). by split.
    - by split. }
  clearbody b2. pose proof (sb_eq _ _ Hr2) as Er2. assert (filter_block r2 = filter_block b2 /\ TableBuilder.offset r2 = TableBuilder.offset b2) as [-> ->] by by rewrite Er2.
  destruct (filter_block b2) as [fb|]; [|injection E as <-; by exists r2].
  apply res_bind_Ret in E as (fb' & -> & E). cbn [mbind res_bind]. injection E as <-. eexists. split; [done|].
  apply (same_builder_set r2 b2 (fun G q => set_filter q (Some fb'))); done.
Qed.

Lemma add_pending_index_any find r b b' : same_builder r b -> add_pending_index find b = Ret b' ->
  exists r', add_pending_index find r = Ret r' /\ same_builder r' b'.
Proof.
  intros [Hr -> Ho] E. unfold add_pending_index in *. cbn [with_builder_file pending_index_entry last_key] in *.
  destruct (pending_index_entry b); [|injection E as <-; by eexists]. destruct (find (last_key b)) as [l| | |]; cbn [mbind res_bind] in *; try done.
  injection E as <-. eexists. split; [done|]. by split.
Qed.

Lemma Add_any r b k v b' : same_builder r b -> Add b k v = Ret b' -> exists r', Add r k v = Ret r' /\ same_builder r' b'.
Proof.
  intros Hrb E. unfold Add, ok in *. assert (rep_status r = rep_status b) as -> by by rewrite (sb_eq _ _ Hrb).
  destruct (negb _); [injection E as <-; by exists r|]. apply res_bind_Ret in E as (b1 & E1 & E).
  destruct (add_pending_index_any _ r b b1 Hrb E1) as (r1 & -> & Hr1). cbn [mbind res_bind].
  match type of E with context [mkRep (options b1) ?o ?f ?p ?s ?d ?i ?l ?n ?c ?fl ?pe ?ph] => set (b2 := mkRep (options b1) o f p s d i l n c fl pe ph) in * end.
  match goal with |- context [mkRep (options r1) ?o ?f ?p ?s ?d ?i ?l ?n ?c ?fl ?pe ?ph] => set (r2 := mkRep (options r1) o f p s d i l n c fl pe ph) end.
  assert (same_builder r2 b2) as Hr2 by (unfold r2, b2; destruct Hr1 as [Hr1 -> Ho1]; by split).
  assert (data_block r2 = data_block b2 /\ options r2 = options b2) as [-> ->] by (clearbody r2 b2; by rewrite (sb_eq _ _ Hr2)).
  case_decide; [by eapply Flush_any|injection E as <-; by exists r2].
Qed.

Lemma finish_filter_any r b b' h : same_builder r b -> finish_filter b = Ret (b', h) -> exists r', finish_filter r = Ret (r', h) /\ same_builder r' b'.
Proof.
  intros Hrb E. unfold finish_filter, ok in *. assert (filter_block r = filter_block b /\ rep_status r = rep_status b) as [-> ->] by by rewrite (sb_eq _ _ Hrb).
  destruct (filter_block b); [|injection E as <- <-; by exists r]. destruct (Status.ok _); [|injection E as <- <-; by exists r].
  apply res_bind_Ret in E as (c & -> & E). cbn [mbind res_bind]. by eapply WriteRawBlock_any.
Qed.

Lemma finish_metaindex_any r b hf b' h : same_builder r b -> finish_metaindex b hf = Ret (b', h) ->
  exists r', finish_metaindex r hf = Ret (r', h) /\ same_builder r' b'.
Proof.
  intros Hrb E. unfold finish_metaindex, ok in *.
  assert (filter_block r = filter_block b /\ rep_status r = rep_status b /\ options r = options b) as (-> & -> & ->) by by rewrite (sb_eq _ _ Hrb).
  destruct (Status.ok _); [|injection E as <- <-; by exists r]. apply res_bind_Ret in E as (m & -> & E). cbn [mbind res_bind].
  apply res_bind_Ret in E as ([[b1 blk] h1] & E1 & E). injection E as <- <-.
  destruct (WriteBlock_any _ _ _ _ _ _ Hrb E1) as (r1 & -> & Hr1). cbn [mbind res_bind]. by exists r1.
Qed.

Lemma finish_index_any r b b' h : same_builder r b -> finish_index b = Ret (b', h) -> exists r', finish_index r = Ret (r', h) /\ same_builder r' b'.
Proof.
  intros Hrb E. unfold finish_index, ok in *. assert (rep_status r = rep_status b) as -> by by rewrite (sb_eq _ _ Hrb).
  destruct (Status.ok _); [|injection E as <- <-; by exists r]. apply res_bind_Ret in E as (b1 & E1 & E).
  destruct (add_pending_index_any _ r b b1 Hrb E1) as (r1 & -> & Hr1). cbn [mbind res_bind]. apply res_bind_Ret in E as ([[b2 blk] h1] & E2 & E).
  assert (index_block r1 = index_block b1) as -> by by rewrite (sb_eq _ _ Hr1).
  destruct (WriteBlock_any _ _ _ _ _ _ Hr1 E2) as (r2 & -> & Hr2). cbn [mbind res_bind]. injection E as <- <-. eexists. split; [done|].
  destruct Hr2 as [Hr2 -> Ho2]. by split.
Qed.

Lemma finish_footer_any r b hm hi : same_builder r b -> same_builder (finish_footer r hm hi) (finish_footer b hm hi).
Proof.
  intros [Hr -> Ho]. unfold finish_footer, ok. cbn [with_builder_file rep_status TableBuilder.file]. destruct (Status.ok _); [|by split].
  destruct (Happend _ _ (footer_EncodeTo (mkFooter hm hi) []) Hr) as (f1 & -> & Hr1). split; [exact Hr1|done|].
  cbn [set_file TableBuilder.offset TableBuilder.file file_append string_writable Status.ok Status.OK]. rewrite Ho, length_app. unfold u64. rewrite Zplus_mod_idemp_l. f_equal. lia.
Qed.

Lemma Finish_any r b b' s : same_builder r b -> Finish b = Ret (b', s) -> exists r', Finish r = Ret (r', s) /\ same_builder r' b'.
Proof.
  intros Hrb E. unfold Finish in *. apply res_bind_Ret in E as (b1 & E1 & E). destruct (Flush_any _ _ _ Hrb E1) as (r1 & -> & Hr1).
  cbn [mbind res_bind]. assert (same_builder (close r1) (close b1)) as Hc by (destruct Hr1 as [Hr1 -> Ho1]; by split).
  apply res_bind_Ret in E as ([b2 hf] & E2 & E). destruct (finish_filter_any _ _ _ _ Hc E2) as (r2 & -> & Hr2). cbn [mbind res_bind].
  apply res_bind_Ret in E as ([b3 hm] & E3 & E). destruct (finish_metaindex_any _ _ _ _ _ Hr2 E3) as (r3 & -> & Hr3). cbn [mbind res_bind].
  apply res_bind_Ret in E as ([b4 hi] & E4 & E). destruct (finish_index_any _ _ _ _ Hr3 E4) as (r4 & -> & Hr4). cbn [mbind res_bind].
  injection E as <- <-. pose proof (finish_footer_any _ _ hm hi Hr4) as Hf. eexists. split; [|exact Hf]. do 2 f_equal. by rewrite (sb_eq _ _ Hf).
Qed.

Lemma new_TableBuilder_any opt f b : R f [] -> new_TableBuilder opt [] = Ret b -> exists r, new_TableBuilder opt f = Ret r /\ same_builder r b.
Proof.
  intros Hr E. unfold new_TableBuilder in *. apply res_bind_Ret in E as (fb & -> & E). cbn [mbind res_bind]. injection E as <-.
  eexists. split; [done|]. by split.
Qed.
End any_builder.

(** ** A table built in a file of the environment *)

Section build_file.
Context `{!KeyOrder} `{!Snappy} `{!Address} `{!FilterPolicy} {W Wf Sf : Type} `{!Env W Wf Sf} `{!EnvSpec W Wf Sf}.
Context (w0 : W) (name : bytes) (h : Wf).

(** The file [name] has the data [d], and the other files are those of [w0]. *)
Definition building (f : W * Wf) (d : bytes) : Prop :=
  f.2 = h /\ env_ok f.1 /\ contents f.1 = <[name := d]> (contents w0) /\ writes f.1 h name /\ kept_uses w0 f.1 [name].

Lemma building_append f c d : building f c -> exists f', file_append d f = (Status.OK, f') /\ building f' (c ++ d).
Proof.
  destruct f as [w k]. intros (Ek & Hw & Hc & Hh & Hk). cbn [fst snd] in *. subst k. destruct (env_append w h name c d Hw Hh) as (w' & E & Hw' & Hc' & Hk1 & Hk').
  { by rewrite Hc, lookup_insert_eq. }
  exists (w', h). cbn [file_append env_writable fst snd]. rewrite E. split; [done|]. split; [done|]. split; [done|]. cbn [fst snd].
  split; [by rewrite Hc', Hc, insert_insert_eq|]. split; [by apply Hk1|]. intros k n Hn Hkn. apply Hk'; [|by apply Hk].
  by rewrite list_elem_of_singleton in Hn.
Qed.

Lemma building_flush f c : building f c -> exists f', file_flush f = (Status.OK, f') /\ building f' c.
Proof.
  destruct f as [w k]. intros (Ek & Hw & Hc & Hh & Hk). cbn [fst snd] in *. subst k. destruct (env_flush w h name Hw Hh) as (w' & E & Hw' & Hc' & Hk').
  exists (w', h). cbn [file_flush env_writable fst snd]. rewrite E. split; [done|]. split; [done|]. split; [done|]. cbn [fst snd].
  split; [by rewrite Hc'|]. split; [by apply Hk'|]. intros k n Hn Hkn. by apply Hk', Hk.
Qed.

Abbreviation building_rep := (same_builder (F := W * Wf) building).

Definition with_largest (meta : FileMetaData) (kvs : entries) : FileMetaData :=
  match list.last kvs with Some e => set_largest meta e.1 | None => meta end.

(** The loop adds what the iterator has left. *)
Lemma build_loop_spec {I} `{!Iterator I} {valid cmp kvs rep} `{!IteratorSpec I valid cmp kvs rep} fuel it i meta r b b' :
  rep it (index kvs i) -> (length kvs - i < fuel)%nat -> building_rep r b -> add_all b (drop i kvs) = Ret b' ->
  exists it' o r', build_loop fuel it meta r = Ret (it', with_largest meta (drop i kvs), r') /\ rep it' o /\ building_rep r' b'.
Proof.
  revert it i meta r b. induction fuel as [|fuel IH]; intros it i meta r b Hr Hf Hb E; [lia|]. cbn [build_loop].
  rewrite (spec_Valid _ _ Hr). destruct (decide (i < length kvs)%nat) as [Hi|Hi].
  - rewrite (index_some _ _ Hi) in *. rewrite bool_decide_true by done.
    destruct (spec_at _ _ Hr) as (k & v & Hkv & -> & ->). cbn [mbind res_bind]. rewrite (drop_S _ _ _ Hkv) in *.
    cbn [add_all] in E. apply res_bind_Ret in E as (b1 & E1 & E).
    destruct (Add_any building building_append building_flush r b k v b1 Hb E1) as (r1 & -> & Hb1). cbn [mbind res_bind].
    destruct (spec_Next _ _ Hr) as (it1 & -> & Hr1). cbn [mbind res_bind].
    destruct (IH it1 (S i) (set_largest meta k) r1 b1 Hr1 ltac:(lia) Hb1 E) as (it' & o & r' & -> & Hr' & Hb'). exists it', o, r'.
    split; [|done]. do 3 f_equal. unfold with_largest. rewrite last_cons. by destruct (list.last (drop (S i) kvs)).
  - rewrite index_none in * by lia. rewrite bool_decide_false by (by intros [? ?]). rewrite drop_ge in * by lia. cbn [add_all] in E. injection E as <-.
    by exists it, None, r.
Qed.
End build_file.

Section build_spec.
Context `{!KeyOrder} `{!Snappy} `{!SnappyLaw} `{!Address} `{!FilterPolicy} {W Wf Sf T I : Type}.
Context `{!Env W Wf Sf} `{!EnvSpec W Wf Sf} `{!Tables W T} `{!Iterator I}.
Context (opt : Options) (HR : 1 <= block_restart_interval opt).
Context (Hname : forall name, filter_policy opt = Some name -> Z.of_nat (length name) < 2^31).

Lemma build_table_any kvs : in_order kvs -> small kvs ->
  (forall r, build_table opt [] kvs = Ret (r, Status.OK) -> Z.of_nat (length (file r)) < 2^64) ->
  exists b0 b r, build_table opt [] kvs = Ret (r, Status.OK) /\ new_TableBuilder opt [] = Ret b0 /\ add_all b0 kvs = Ret b /\ Finish b = Ret (r, Status.OK)
  /\ Z.of_nat (length (file r)) < 2^64 /\ exists seps ws hm hi, table_file opt (file r) kvs seps ws hm hi.
Proof.
  intros Ho Hs Hfit. destruct (build_table_spec opt HR kvs Ho Hs Hname) as (r & E & Ht). specialize (Hfit r E). specialize (Ht Hfit).
  pose proof E as E'. unfold build_table in E'. apply res_bind_Ret in E' as (b0 & E0 & E'). apply res_bind_Ret in E' as (b & E1 & E'). by exists b0, b, r.
Qed.

Lemma table_file_size d kvs seps ws hm hi : table_file opt d kvs seps ws hm hi -> 0 < Z.of_nat (length d).
Proof.
  intros Ht. destruct (tf_footer _ _ _ _ _ _ _ Ht) as [body ->]. rewrite length_app.
  enough (footer_EncodeTo (mkFooter hm hi) [] <> []) as He by (destruct (footer_EncodeTo _ _); [done|cbn; lia]).
  intros E. pose proof (f_equal length E) as El. revert El. unfold footer_EncodeTo, PutFixed32. rewrite !length_app, length_EncodeFixed32. cbn [length]. lia.
Qed.

(** What [write_table] does, up to the check. *)
Lemma write_table_spec fuel w w0 name h tables it meta k v kvs valid (rep : I -> option nat -> Prop) `{!IteratorSpec I valid key_cmp ((k, v) :: kvs) rep} :
  building w0 name h (w, h) [] -> rep it (Some 0%nat) -> in_order ((k, v) :: kvs) -> small ((k, v) :: kvs) -> (length kvs + 1 < fuel)%nat ->
  (forall r, build_table opt [] ((k, v) :: kvs) = Ret (r, Status.OK) -> Z.of_nat (length (file r)) < 2^64) ->
  exists r w1 it' o, let d := file r in let meta' := set_file_size (with_largest (set_smallest meta k) ((k, v) :: kvs)) (Z.of_nat (length d)) in
  write_table fuel w tables h opt it meta
    = ('(s, tables) ← tables_status w1 tables (number meta) (Z.of_nat (length d)); Ret (s, w1, tables, it', meta'))
  /\ rep it' o /\ env_ok w1 /\ contents w1 = <[name := d]> (contents w0) /\ kept_uses w0 w1 [name]
  /\ build_table opt [] ((k, v) :: kvs) = Ret (r, Status.OK) /\ exists seps ws hm hi, table_file opt d ((k, v) :: kvs) seps ws hm hi.
Proof.
  intros Hb Hr Ho Hs Hf Hfit. set (es := (k, v) :: kvs) in *.
  destruct (build_table_any es Ho Hs Hfit) as (b0 & b & m & Em & E0 & Ea & Ef & Hd & Ht). unfold write_table.
  pose proof (building_append w0 name h) as Happ. pose proof (building_flush w0 name h) as Hfl.
  destruct (new_TableBuilder_any (building w0 name h) opt (w, h) b0 Hb E0) as (r0 & -> & Hr0). cbn [mbind res_bind].
  destruct (spec_at _ _ Hr) as (k' & v' & Ekv & -> & _). injection Ekv as <- <-. cbn [mbind res_bind].
  destruct (build_loop_spec w0 name h fuel it 0 (set_smallest meta k) r0 b0 b) as (it' & o & r1 & -> & Hr' & Hr1);
    [exact Hr|cbn; lia|exact Hr0|exact Ea|]. cbn [mbind res_bind].
  destruct (Finish_any _ Happ Hfl r1 b m Status.OK Hr1 Ef) as (r2 & -> & [Hr2 Er2 Ho2]). cbn [mbind res_bind Status.ok Status.OK].
  exists m. destruct (TableBuilder.file r2) as [w2 h2] eqn:Efile. destruct Hr2 as (Eh & Hw2 & Hc2 & Hh2 & Hk2). cbn [fst snd] in *. subst h2.
  destruct (env_sync w2 h name Hw2 Hh2) as (w3 & -> & Hw3 & Hc3 & Hk3). cbn [Status.ok Status.OK].
  destruct (env_close w3 h name Hw3 (Hk3 _ _ Hh2)) as (w4 & -> & Hw4 & Hc4 & Hk4). cbn [Status.ok Status.OK].
  exists w4, it', o. cbv zeta. assert (FileSize r2 = Z.of_nat (length (file m))) as ->.
  { unfold FileSize. rewrite Er2. cbn [with_builder_file TableBuilder.offset]. rewrite Ho2. unfold u64. apply Z.mod_small. lia. }
  assert (number (set_file_size (with_largest (set_smallest meta k) (drop 0 es)) (Z.of_nat (length (file m)))) = number meta) as ->.
  { unfold with_largest. by destruct (list.last _). }
  split; [done|]. split; [done|]. split; [done|]. split; [by rewrite Hc4, Hc3|]. split; [|done].
  intros x n Hn Hx. apply Hk4; [intros ->; apply Hn; by constructor|]. by apply Hk3, Hk2.
Qed.

(** The file stays, or is gone; the status is the check's. *)
Lemma finish_table_spec w0 (w : W) fname s (tables : T) (it : I) o meta kvs valid d : cursor I valid key_cmp kvs it o -> env_ok w ->
  contents w = <[fname := d]> (contents w0) -> kept_uses w0 w [fname] -> 0 < file_size meta ->
  exists w', finish_table s w tables fname it meta = Ret (s, w', tables, it, meta) /\ env_ok w' /\ kept_uses w0 w' [fname]
  /\ contents w' = (if Status.ok s then <[fname := d]> (contents w0) else delete fname (contents w0)).
Proof.
  intros Hit Hw Hc Hk Hsz. unfold finish_table. rewrite (spec_status _ _ Hit). cbn [Status.ok Status.OK].
  assert ((0 <? file_size meta) = true) as -> by lia. rewrite andb_true_r. destruct (Status.ok s); [by exists w|].
  destruct (env_delete_any w fname Hw) as (s' & w' & -> & Hw' & Hc' & Hk'). cbn [mbind res_bind]. exists w'. split; [done|]. split; [done|]. split.
  - intros k n Hn Hx. by apply Hk', Hk.
  - by rewrite Hc', Hc, delete_insert_eq.
Qed.

(** ** [BuildTable] with no entries and with some *)

Lemma BuildTable_empty fuel (w : W) (tables : T) dbname (iter : I) o meta valid :
  env_ok w -> cursor I valid key_cmp [] iter o ->
  let fname := TableFileName dbname (number meta) in
  exists w' it', BuildTable fuel w tables dbname opt iter meta = Ret (Status.OK, w', tables, it', set_file_size meta 0)
  /\ env_ok w' /\ contents w' = delete fname (contents w) /\ kept_uses w w' [fname].
Proof.
  intros Hw Hit fname. unfold BuildTable.
  destruct (spec_SeekToFirst _ _ Hit) as (it1 & -> & Hit1). cbn [mbind res_bind]. rewrite (spec_Valid _ _ Hit1).
  rewrite bool_decide_false by (by intros [? ?]). unfold finish_table. rewrite (spec_status _ _ Hit1). cbn [Status.ok Status.OK andb file_size set_file_size].
  destruct (env_delete_any w fname Hw) as (s & w' & E & Hw' & Hc' & Hk'). exists w', it1. change (number (set_file_size meta 0)) with (number meta). fold fname. by rewrite E.
Qed.

Lemma BuildTable_run fuel (w : W) (tables : T) dbname (iter : I) o meta valid first rest :
  let kvs := first :: rest in
  env_ok w -> cursor I valid key_cmp kvs iter o -> in_order kvs -> small kvs -> (length kvs < fuel)%nat ->
  (forall r, build_table opt [] kvs = Ret (r, Status.OK) -> Z.of_nat (length (file r)) < 2^64) ->
  let fname := TableFileName dbname (number meta) in
  exists r seps ws hm hi w1, let d := file r in
  build_table opt [] kvs = Ret (r, Status.OK) /\ table_file opt d kvs seps ws hm hi
  /\ env_ok w1 /\ contents w1 = <[fname := d]> (contents w)
  /\ forall s tables', tables_status w1 tables (number meta) (Z.of_nat (length d)) = Ret (s, tables') ->
     exists w' it', BuildTable fuel w tables dbname opt iter meta
       = Ret (s, w', tables', it', mkFileMetaData (refs meta) (allowed_seeks meta) (number meta) (Z.of_nat (length d)) first.1
           (match list.last kvs with Some e => e.1 | None => [] end))
     /\ env_ok w' /\ contents w' = (if Status.ok s then <[fname := d]> (contents w) else delete fname (contents w))
     /\ kept_uses w w' [fname].
Proof.
  destruct first as [k v]. intros kvs Hw Hit Ho Hs Hf Hfit fname. unfold BuildTable.
  destruct (spec_SeekToFirst _ _ Hit) as (it1 & -> & Hit1). cbn [mbind res_bind]. rewrite (spec_Valid _ _ Hit1).
  rewrite bool_decide_true by done. change (number (set_file_size meta 0)) with (number meta). fold fname.
  destruct (env_new w fname Hw) as (h & w0 & -> & Hw0 & Hc0 & Hh0 & Hk0). cbn [mbind res_bind Status.ok Status.OK negb of_option].
  assert (building w fname h (w0, h) []) as Hb.
  { repeat split; [done..|]. intros x n Hn. apply Hk0. intros ->. apply Hn. by constructor. }
  destruct (write_table_spec fuel w0 w fname h tables it1 (set_file_size meta 0) k v rest valid _ Hb Hit1 Ho Hs) as
    (r & w1 & it' & o' & E & Hit' & Hw1 & Hc1 & Hk1 & Er & seps & ws & hm & hi & Ht); [unfold kvs in Hf; cbn in Hf; lia|exact Hfit|].
  fold kvs in E, Er, Ht. exists r, seps, ws, hm, hi, w1. split; [done|]. split; [done|]. split; [done|]. split; [done|]. intros s tables' Es. rewrite E.
  change (number (set_file_size meta 0)) with (number meta). rewrite Es. cbn [mbind res_bind].
  destruct (finish_table_spec w w1 fname s tables' it' o' (set_file_size (with_largest (set_smallest (set_file_size meta 0) k) kvs) (Z.of_nat (length (file r))))
    _ _ (file r) Hit' Hw1 Hc1 Hk1) as (w' & -> & Hw' & Hk' & Hc'); [by apply (table_file_size (file r) _ _ _ _ _ Ht)|].
  exists w', it'. split; [|done]. do 2 f_equal. unfold with_largest. destruct (list.last kvs) as [e|] eqn:El; [done|].
  unfold kvs in El. by apply last_None in El.
Qed.

(** ** Properties *)

(** C12: [BuildTable] writes the entries of its iterator to a table file under
    the number of the metadata, and nothing else of the environment changes.
    With no entries there is no file afterwards, and the size is zero.
    Otherwise the file is what the builder makes of the entries in memory; the
    metadata has its size, the first key and the last; the status is that of
    the check of the finished file in the table cache, and when the check fails
    the file is deleted. *)
Theorem build_table_file fuel (w : W) (tables : T) dbname (iter : I) o meta valid kvs :
  env_ok w -> cursor I valid key_cmp kvs iter o -> in_order kvs -> small kvs -> (length kvs < fuel)%nat ->
  (forall r, build_table opt [] kvs = Ret (r, Status.OK) -> Z.of_nat (length (file r)) < 2^64) ->
  let fname := TableFileName dbname (number meta) in
  match kvs with
  | [] => exists w' it', BuildTable fuel w tables dbname opt iter meta = Ret (Status.OK, w', tables, it', set_file_size meta 0)
      /\ env_ok w' /\ contents w' = delete fname (contents w) /\ kept_uses w w' [fname]
  | first :: _ => exists r seps ws hm hi w1, let d := file r in
      build_table opt [] kvs = Ret (r, Status.OK) /\ table_file opt d kvs seps ws hm hi
      /\ env_ok w1 /\ contents w1 = <[fname := d]> (contents w)
      /\ forall s tables', tables_status w1 tables (number meta) (Z.of_nat (length d)) = Ret (s, tables') ->
         exists w' it', BuildTable fuel w tables dbname opt iter meta
           = Ret (s, w', tables', it', mkFileMetaData (refs meta) (allowed_seeks meta) (number meta) (Z.of_nat (length d)) first.1
               (match list.last kvs with Some e => e.1 | None => [] end))
         /\ env_ok w' /\ contents w' = (if Status.ok s then <[fname := d]> (contents w) else delete fname (contents w))
         /\ kept_uses w w' [fname]
  end.
Proof.
  intros Hw Hit Ho Hs Hf Hfit fname. destruct kvs as [|first kvs].
  - by eapply BuildTable_empty.
  - by eapply (BuildTable_run fuel w tables dbname iter o meta valid first kvs).
Qed.
End build_spec.

(** ** A run written to the memory environment *)

(** Tables that are opened for every check. *)
#[local] Instance zero_address : Address := fun _ => 0.
#[local] Existing Instances BytewiseComparator no_snappy no_snappy_law sample_policy.
Definition direct_options : Options := mkOptions 0 20 2 kSnappyCompression (Some (lit "bloom")).
#[local] Instance direct_tables : Tables InMemoryEnv unit := {
  tables_status w t n size :=
    data ← of_option (contents w !! TableFileName (lit "db") n);
    '(s, _) ← Open direct_options 0 data size; Ret (s, t);
  tables_Evict t _ := Ret t;
}.

(** The entries of a block, written to table 7. *)
Definition new_file : FileMetaData := mkFileMetaData 0 0 7 0 [] [].
Lemma build_table_file_witness : exists bl it w' it' d,
  new_Block (snd (BlockBuilder.Finish (add_entries 2 new_BlockBuilder sample_entries))) = Ret bl /\ NewIterator bl = Ret (inr it)
  /\ BuildTable 20 new_InMemoryEnv tt (lit "db") direct_options (inr it : block_iterator) new_file
     = Ret (Status.OK, w', tt, it', mkFileMetaData 0 0 7 (Z.of_nat (length d)) (lit "apple") (lit "banana"))
  /\ contents w' !! TableFileName (lit "db") 7 = Some d.
Proof.
  destruct (block_iterates (compare_ := user_Compare) (cmp := ucmp) (valid := fun _ => True) 2 sample_entries)
    as (bl & it & rep & Hb & Hi & HS & Hr & _); [lia|exact sample_sorted|vm_compute; reflexivity|].
  assert (cursor block_iterator (fun _ => True) ucmp sample_entries (inr it) None) as Hc.
  { apply (cursor_inr (H0 := Iter_iterator user_Compare)). by exists rep. }
  destruct (build_table_file (W := InMemoryEnv) (T := unit) (I := block_iterator) direct_options ltac:(discriminate) ltac:(intros name [= <-]; vm_compute; reflexivity)
    20 new_InMemoryEnv tt (lit "db") (inr it : block_iterator) None new_file (fun _ => True) sample_entries)
    as (r & seps & ws & hm & hi & w1 & Er & Ht & Hw1 & Hc1 & Hrun).
  - vm_compute. done.
  - exact Hc.
  - exact sample_in_order.
  - vm_compute. reflexivity.
  - vm_compute. lia.
  - intros r Er. assert (match build_table direct_options [] sample_entries with Ret (r, _) => Z.of_nat (length (file r)) < 2^64 | _ => True end) as Hl
      by (vm_compute; reflexivity). by rewrite Er in Hl.
  - assert (match build_table direct_options [] sample_entries with Ret (r, _) => Z.of_nat (length (file r)) < 2^32 | _ => True end) as Hl
      by (vm_compute; reflexivity). rewrite Er in Hl.
    destruct (Open_spec direct_options (file r) Hl sample_entries seps ws hm hi Ht 0) as (t & Et & _).
    destruct (Hrun Status.OK tt) as (w' & it' & E & _ & Hc' & _).
    { cbn [tables_status direct_tables]. rewrite Hc1, lookup_insert_eq. cbn [of_option mbind res_bind]. by rewrite Et. }
    exists bl, it, w', it', (file r). split; [exact Hb|]. split; [exact Hi|]. split; [exact E|]. rewrite Hc'. cbn [Status.ok Status.OK]. by rewrite lookup_insert_eq.
Defined.
