(* ===== verification/VersionBuilder.v ===== *)
(** * VersionBuilder: db/version_set.cc, class VersionSet::Builder

    A builder collects the edits that follow a version, and saves the version
    that they lead to: the files of each level that are left or added, sorted
    by their smallest keys.  [builder_saves] shows that a builder of many edits
    saves what the edits lead to one after the other. *)

From S2P Require Import Prelude CLib Coding Status DbFormat SkipList KeyOrder VersionEdit Version.

(** ** Sets of files *)

Section builder.
Context `{Comparator}.

Definition BySmallestKey (f1 f2 : FileMetaData) : res bool :=
  r ← InternalCompare (smallest f1) (smallest f2);
  Ret (if decide (r <> 0) then r <? 0 else number f1 <? number f2).

(** [std::set::insert] of a [FileSet]: a file equal to one there is dropped. *)
Fixpoint fileset_insert (f : FileMetaData) (added : files) : res files :=
  match added with
  | [] => Ret [f]
  | g :: rest =>
      b ← BySmallestKey f g;
      if (b : bool) then Ret (f :: added)
      else
        b ← BySmallestKey g f;
        if (b : bool) then rest ← fileset_insert f rest; Ret (g :: rest) else Ret added
  end.

(** [std::upper_bound] over [length] elements from [first]. *)
Fixpoint upper_bound_loop (fuel : nat) (fs : files) (f : FileMetaData) (first len : nat) : res nat :=
  match fuel with
  | O => NoFuel
  | S fuel =>
      if decide (0 < len)%nat then
        let half := (len / 2)%nat in
        g ← of_option (fs !! (first + half)%nat);
        b ← BySmallestKey f g;
        if (b : bool) then upper_bound_loop fuel fs f first half
        else upper_bound_loop fuel fs f (S (first + half)) (len - half - 1)
      else Ret first
  end.

Definition upper_bound (fs : files) (f : FileMetaData) : res nat :=
  upper_bound_loop (S (length fs)) fs f 0 (length fs).

(** ** The builder

    The version set's compaction pointers, which [Apply] changes, are passed
    through. *)

Record LevelState := mkLevelState { deleted_files : gset Z; added_files : files }.

Record Builder := mkBuilder { base_ : Version; levels_ : list LevelState }.

Definition new_Builder (base : Version) : Builder :=
  mkBuilder base (replicate (Z.to_nat config.kNumLevels) (mkLevelState ∅ [])).

(** A change of the state of one level: a level is an index of an array. *)
Definition on_level (b : Builder) (level : Z) (f : LevelState -> res LevelState) : res Builder :=
  l ← of_option (levels_ b !! Z.to_nat level);
  l ← f l;
  Ret (mkBuilder (base_ b) (<[Z.to_nat level := l]> (levels_ b))).

Definition set_pointer (pointers : list bytes) (p : Z * bytes) : res (list bytes) :=
  _ ← of_option (pointers !! Z.to_nat p.1);
  Ret (<[Z.to_nat p.1 := InternalKey_Encode p.2]> pointers).

Fixpoint fold_res {A B} (f : A -> B -> res A) (l : list B) (a : A) : res A :=
  match l with [] => Ret a | x :: l => a ← f a x; fold_res f l a end.

Definition apply_deleted (b : Builder) (p : Z * Z) : res Builder :=
  on_level b p.1 (fun l => Ret (mkLevelState ({[p.2]} ∪ deleted_files l) (added_files l))).

(** The seeks that a new file allows. *)
Definition initial_seeks (size : Z) : Z := let n := i32 (size / 16384) in if n <? 100 then 100 else n.
Definition added_file (f : FileMetaData) : FileMetaData :=
  mkFileMetaData 1 (initial_seeks (file_size f)) (number f) (file_size f) (smallest f) (largest f).

Definition apply_added (b : Builder) (p : Z * FileMetaData) : res Builder :=
  let f := added_file p.2 in
  on_level b p.1 (fun l =>
    added ← fileset_insert f (added_files l);
    Ret (mkLevelState (deleted_files l ∖ {[number f]}) added)).

Definition Apply (pointers : list bytes) (b : Builder) (edit : VersionEdit) : res (list bytes * Builder) :=
  pointers ← fold_res set_pointer (compact_pointers_ edit) pointers;
  b ← fold_res apply_deleted (deleted_files_ edit) b;
  b ← fold_res apply_added (new_files_ edit) b;
  Ret (pointers, b).

Definition MaybeAddFile (l : LevelState) (out : files) (f : FileMetaData) : files :=
  if decide (number f ∈ deleted_files l) then out else out ++ [f].

(** The merge of a level; [base] are the files from [base_iter] on. *)
Fixpoint save_loop (l : LevelState) (added base out : files) : res files :=
  match added with
  | [] => Ret (fold_left (MaybeAddFile l) base out)
  | f :: added =>
      n ← upper_bound base f;
      let out := MaybeAddFile l (fold_left (MaybeAddFile l) (take n base) out) f in
      save_loop l added (drop n base) out
  end.

Fixpoint save_levels (ls : list LevelState) (base v : Version) (level : Z) : res (list files) :=
  match ls with
  | [] => Ret []
  | l :: ls =>
      fs ← save_loop l (added_files l) (level_files base level) (level_files v level);
      rest ← save_levels ls base v (level + 1);
      Ret (fs :: rest)
  end.

(** The merged files, behind those that the version [v] has. *)
Definition SaveTo (b : Builder) (v : Version) : res Version :=
  fl ← save_levels (levels_ b) (base_ b) v 0;
  Ret (with_files_ v fl).
End builder.

(** ** The order of the files *)

Section order.
Context `{Comparator}.

Definition file_cmp : FileMetaData -> FileMetaData -> comparison :=
  cmp_then (cmp_on smallest internal_cmp) (cmp_on number Z.compare).
#[export] Instance file_cmp_order : CmpOrder file_cmp := _.

Definition file_valid (f : FileMetaData) : Prop := internal_valid (smallest f).

Abbreviation sorted_files := (StronglySorted (cmp_lt file_cmp)).

Lemma BySmallestKey_spec f g : file_valid f -> file_valid g ->
  BySmallestKey f g = Ret (bool_decide (cmp_lt file_cmp f g)).
Proof.
  intros Hf Hg. unfold BySmallestKey.
  destruct (compares (compare_:=InternalCompare) (valid:=internal_valid) (smallest f) (smallest g)) as (c & -> & Hc); [done..|].
  cbn [mbind res_bind]. f_equal.
  assert (cmp_lt file_cmp f g <-> if decide (c <> 0) then c < 0 else number f < number g) as Hlt.
  { unfold cmp_lt, file_cmp, cmp_then, cmp_on. rewrite <- Hc. clear Hc. destruct (Z.compare_spec c 0) as [E|Hlt|Hlt].
    - by rewrite decide_False by lia.
    - rewrite decide_True by lia. done.
    - rewrite decide_True by lia. split; [done|lia]. }
  case_decide; case_bool_decide as Hb; rewrite Hlt in Hb; (by apply Z.ltb_lt) || (apply Z.ltb_ge; lia).
Qed.

(** Files of other numbers are apart. *)
Lemma file_cmp_apart f g : number f <> number g -> file_cmp f g <> Eq.
Proof.
  intros Hn E. unfold file_cmp, cmp_then, cmp_on in E. destruct (internal_cmp _ _); try done. by apply Z.compare_eq in E.
Qed.

Lemma file_lt_flip f g : file_cmp f g <> Eq -> ~ cmp_lt file_cmp f g -> cmp_lt file_cmp g f.
Proof. unfold cmp_lt. intros Hn Hl. rewrite (cmp_antisym (cmp:=file_cmp) f g). by destruct (file_cmp f g). Qed.

Lemma Forall_perm {A} (P : A -> Prop) l k : l ≡ₚ k -> Forall P l -> Forall P k.
Proof. by intros ->. Qed.

Lemma fileset_insert_spec f l : file_valid f -> Forall file_valid l -> sorted_files l ->
  Forall (fun g => number f <> number g) l ->
  exists l', fileset_insert f l = Ret l' /\ sorted_files l' /\ l' ≡ₚ f :: l.
Proof.
  intros Hf Hv Hs Hn. induction Hs as [|g l Hs IH Hg]; [exists [f]; split; [done|]; split; [repeat constructor|done]|].
  apply Forall_cons_1 in Hv as [Hvg Hv]. apply Forall_cons_1 in Hn as [Hng Hn]. cbn [fileset_insert].
  rewrite !BySmallestKey_spec by done. cbn [mbind res_bind]. case_bool_decide as Hlt.
  { exists (f :: g :: l). split; [done|]. split; [|done]. constructor; [by constructor|]. constructor; [done|].
    eapply list.Forall_impl; [exact Hg|]. intros x Hx. by transitivity g. }
  assert (cmp_lt file_cmp g f) as Hgf by (apply file_lt_flip; [by apply file_cmp_apart|done]).
  rewrite bool_decide_true by done. cbn [mbind res_bind].
  destruct (IH Hv Hn) as (l' & -> & Hs' & Hp). cbn [mbind res_bind]. exists (g :: l'). split; [done|]. split.
  - constructor; [done|]. eapply Forall_perm; [by symmetry|]. by constructor.
  - rewrite Hp. apply Permutation_swap.
Qed.

(** ** Merging *)

Section upper_bound.
Context (fs : files) (f : FileMetaData) (Hf : file_valid f) (Hv : Forall file_valid fs) (Hs : sorted_files fs).

Lemma upper_bound_loop_spec fuel first len : (len < fuel)%nat -> (first + len <= length fs)%nat ->
  (forall i g, (i < first)%nat -> fs !! i = Some g -> ~ cmp_lt file_cmp f g) ->
  (forall i g, (first + len <= i)%nat -> fs !! i = Some g -> cmp_lt file_cmp f g) ->
  exists n, upper_bound_loop fuel fs f first len = Ret n /\ (n <= length fs)%nat /\
    (forall i g, (i < n)%nat -> fs !! i = Some g -> ~ cmp_lt file_cmp f g) /\
    (forall i g, (n <= i)%nat -> fs !! i = Some g -> cmp_lt file_cmp f g).
Proof.
  revert first len. induction fuel as [|fuel IH]; intros first len Hfu Hl Hb Ha; [lia|]. cbn [upper_bound_loop].
  case_decide as H0.
  2:{ exists first. split; [done|]. split; [lia|]. split; [done|]. intros i g Hi. apply Ha. lia. }
  pose proof (Nat.div_lt len 2 ltac:(lia) ltac:(lia)) as Hh. set (half := (len / 2)%nat) in *.
  destruct (lookup_lt_is_Some_2 fs (first + half)%nat) as [g Eg]; [lia|]. rewrite Eg. cbn [of_option mbind res_bind].
  pose proof (Forall_lookup_1 _ _ _ _ Hv Eg) as Hg. rewrite BySmallestKey_spec by done. cbn [mbind res_bind].
  assert (forall i j x y, (i < j)%nat -> fs !! i = Some x -> fs !! j = Some y -> cmp_lt file_cmp x y) as Hso
    by (intros; by eapply (StronglySorted_at (cmp_lt file_cmp))).
  case_bool_decide as Hlt.
  - apply IH; [lia|lia|done|]. intros i x Hi Ex. destruct (decide (i = first + half)%nat) as [->|].
    + rewrite Eg in Ex. by injection Ex as <-.
    + transitivity g; [done|]. by apply (Hso (first + half)%nat i); [lia|..].
  - apply IH; [lia|lia| |].
    + intros i x Hi Ex Hfx. apply Hlt. destruct (decide (i = first + half)%nat) as [->|].
      * rewrite Eg in Ex. by injection Ex as <-.
      * transitivity x; [done|]. by apply (Hso i (first + half)%nat); [lia|..].
    + intros i x Hi. apply Ha. lia.
Qed.

Lemma upper_bound_spec : exists n, upper_bound fs f = Ret n /\ (n <= length fs)%nat /\
  (forall i g, (i < n)%nat -> fs !! i = Some g -> ~ cmp_lt file_cmp f g) /\
  (forall i g, (n <= i)%nat -> fs !! i = Some g -> cmp_lt file_cmp f g).
Proof.
  apply upper_bound_loop_spec; [lia|lia|intros; lia|]. intros i g Hi E. apply lookup_lt_Some in E. lia.
Qed.
End upper_bound.

Definition kept (deleted : gset Z) (f : FileMetaData) : Prop := number f ∉ deleted.
#[export] Instance kept_dec deleted f : Decision (kept deleted f).
Proof. unfold kept. apply _. Defined.

Lemma MaybeAddFile_one l out f : MaybeAddFile l out f = out ++ filter (kept (deleted_files l)) [f].
Proof.
  unfold MaybeAddFile. rewrite filter_cons, filter_nil. destruct (decide (kept (deleted_files l) f)) as [Hk|Hk].
  - by rewrite decide_False.
  - rewrite decide_True by (by apply dec_stable). by rewrite app_nil_r.
Qed.

Lemma MaybeAddFile_kept l out fs : fold_left (MaybeAddFile l) fs out = out ++ filter (kept (deleted_files l)) fs.
Proof.
  revert out. induction fs as [|f fs IH]; intros out; [by rewrite app_nil_r|]. cbn [fold_left].
  rewrite IH, MaybeAddFile_one, <- app_assoc. f_equal. rewrite <- list.filter_app. done.
Qed.

Lemma save_loop_spec l added : forall base out, Forall file_valid added -> Forall file_valid base ->
  sorted_files added -> sorted_files base -> NoDup (map number (base ++ added)) ->
  exists m, save_loop l added base out = Ret (out ++ filter (kept (deleted_files l)) m)
  /\ sorted_files m /\ m ≡ₚ base ++ added.
Proof.
  induction added as [|f added IH]; intros base out Hva Hvb Hsa Hsb Hnd.
  { exists base. cbn [save_loop]. rewrite MaybeAddFile_kept, app_nil_r. done. }
  apply Forall_cons_1 in Hva as [Hvf Hva]. apply StronglySorted_inv in Hsa as [Hsa Hfa]. cbn [save_loop].
  destruct (upper_bound_spec base f Hvf Hvb Hsb) as (n & -> & Hn & Hlow & Hhigh). cbn [mbind res_bind].
  rewrite <- (take_drop n base) in Hsb, Hnd, Hvb. apply Forall_app in Hvb as [Hvt Hvd].
  apply StronglySorted_app in Hsb as (Htd & Hst & Hsd).
  assert (Forall (fun g => cmp_lt file_cmp g f) (take n base)) as Htf.
  { apply Forall_forall. intros g Hg%list_elem_of_In. apply list_elem_of_lookup in Hg as [i Ei].
    apply lookup_take_Some in Ei as [Ei Hi]. apply file_lt_flip; [|by eapply Hlow]. apply file_cmp_apart. intros E.
    rewrite map_app, list.NoDup_app in Hnd. destruct Hnd as (_ & Hnd & _).
    apply (Hnd (number g)); [|cbn [map]; rewrite <- E; left].
    rewrite take_drop. apply list_elem_of_fmap. exists g. split; [done|by eapply list_elem_of_lookup_2]. }
  assert (Forall (cmp_lt file_cmp f) (drop n base)) as Hfd.
  { apply Forall_forall. intros g Hg%list_elem_of_In. apply list_elem_of_lookup in Hg as [i Ei].
    rewrite lookup_drop in Ei. by apply (Hhigh (n + i)%nat g); [lia|]. }
  rewrite MaybeAddFile_kept, MaybeAddFile_one. set (out' := _ ++ filter _ [f]).
  destruct (IH (drop n base) out') as (m & E & Hsm & Hpm); [done..| |].
  { apply (sublist_NoDup _ (map number ((take n base ++ drop n base) ++ f :: added))); [done|].
    apply (fmap_sublist number). rewrite <- app_assoc. apply sublist_inserts_l, sublist_app; [done|by constructor]. }
  exists (take n base ++ f :: m). split; [|split].
  - rewrite E. unfold out'. rewrite (list.filter_app _ (take n base)), (list.filter_app _ [f] m). by rewrite <- !app_assoc.
  - assert (Forall (cmp_lt file_cmp f) m) as Hfm.
    { eapply Forall_perm; [by symmetry|]. by apply Forall_app. }
    apply StronglySorted_app. split; [|split; [done|by constructor]].
    intros a b Ha Hb. rewrite Forall_forall in Htf, Hfm. apply list_elem_of_In in Ha. specialize (Htf a Ha).
    apply elem_of_cons in Hb as [->|Hb]; [done|]. transitivity f; [done|]. by apply Hfm, list_elem_of_In.
  - rewrite Hpm. transitivity ((take n base ++ drop n base) ++ f :: added); [|by rewrite take_drop].
    rewrite <- app_assoc. f_equiv. apply Permutation_middle.
Qed.
End order.

(** ** What edits lead to *)

Section edits.
Context `{Comparator}.

Definition adds (level : Z) (p : Z * FileMetaData) : files := if decide (p.1 = level) then [added_file p.2] else [].
Definition edit_adds (level : Z) (e : VersionEdit) : files := concat (map (adds level) (new_files_ e)).

(** The files of a level after an edit, in some order. *)
Definition level_edit (level : Z) (fs : files) (e : VersionEdit) : files :=
  filter (fun f => (level, number f) ∉ deleted_files_ e) fs ++ edit_adds level e.

Definition edit_pointers (pointers : list bytes) (e : VersionEdit) : list bytes :=
  fold_left (fun ps p => <[Z.to_nat p.1 := p.2]> ps) (compact_pointers_ e) pointers.

Record edit_ok (e : VersionEdit) : Prop := {
  eo_pointers : Forall (fun p => is_level p.1) (compact_pointers_ e);
  eo_deleted : Forall (fun p => is_level p.1) (deleted_files_ e);
  eo_new : Forall (fun p => is_level p.1 /\ file_valid p.2) (new_files_ e);
}.

Definition files_sorted (fs : files) : Prop := Forall file_valid fs /\ StronglySorted (cmp_lt file_cmp) fs.
Definition version_sorted (v : Version) : Prop :=
  length (files_ v) = Z.to_nat config.kNumLevels /\ forall level, is_level level -> files_sorted (level_files v level).

(** The edits add files of numbers that are new to their level. *)
Definition fresh_adds (v : Version) (es : list VersionEdit) : Prop :=
  forall level, is_level level -> NoDup (map number (level_files v level ++ concat (map (edit_adds level) es))).

(** *** One level *)

Record level_inv (fs A cur : files) (l : LevelState) : Prop := {
  li_added : added_files l ≡ₚ A;
  li_sorted : files_sorted (added_files l);
  li_cur : filter (kept (deleted_files l)) (fs ++ added_files l) ≡ₚ cur;
}.

Lemma filter_same {A} (P Q : A -> Prop) `{forall x, Decision (P x)} `{forall x, Decision (Q x)} (l : list A) :
  (forall x, x ∈ l -> P x <-> Q x) -> filter P l = filter Q l.
Proof.
  induction l as [|x l IH]; intros Hl; [done|]. rewrite !filter_cons. rewrite (IH ltac:(intros; apply Hl; by right)).
  destruct (decide (P x)) as [HP|HP], (decide (Q x)) as [HQ|HQ]; try done; exfalso.
  - by apply HQ, (Hl x ltac:(left)).
  - by apply HP, (Hl x ltac:(left)).
Qed.

Lemma level_delete fs A cur l n : level_inv fs A cur l ->
  level_inv fs A (filter (fun f => number f <> n) cur) (mkLevelState ({[n]} ∪ deleted_files l) (added_files l)).
Proof.
  intros [Ha Hs Hc]. split; [done|done|]. cbn [deleted_files added_files]. rewrite <- Hc, list_filter_filter.
  rewrite (filter_same (kept _) (fun f => number f <> n /\ kept (deleted_files l) f)); [done|].
  intros f _. unfold kept. set_solver.
Qed.

Lemma level_add fs A cur l f : level_inv fs A cur l -> file_valid f -> number f ∉ map number (fs ++ A) ->
  exists added, fileset_insert f (added_files l) = Ret added
  /\ level_inv fs (A ++ [f]) (cur ++ [f]) (mkLevelState (deleted_files l ∖ {[number f]}) added).
Proof.
  intros [Ha [Hv Hs] Hc] Hf Hn. rewrite map_app, not_elem_of_app in Hn. destruct Hn as [Hnf Hna].
  assert (forall g, g ∈ fs ++ added_files l -> number g <> number f) as Hne.
  { intros g Hg E. apply elem_of_app in Hg as [Hg|Hg].
    - apply Hnf. rewrite <- E. by apply list_elem_of_fmap_2.
    - apply Hna. rewrite <- E, <- Ha. by apply list_elem_of_fmap_2. }
  destruct (fileset_insert_spec f (added_files l)) as (added & E & Hsa & Hp); [done..| |].
  { apply Forall_forall. intros g Hg%list_elem_of_In E. symmetry in E. revert E. apply Hne. set_solver. }
  exists added. split; [exact E|]. split; cbn [deleted_files added_files].
  - rewrite Hp, <- Ha. apply Permutation_cons_append.
  - split; [|done]. eapply Forall_perm; [by symmetry|by constructor].
  - rewrite <- Hc. rewrite Hp. rewrite <- (Permutation_middle fs). rewrite filter_cons. rewrite decide_True by (unfold kept; rewrite not_elem_of_difference, elem_of_singleton; by right).
    rewrite Permutation_cons_append. f_equiv. rewrite (filter_same _ (kept (deleted_files l))); [done|].
    intros g Hg. specialize (Hne g Hg). unfold kept. rewrite not_elem_of_difference, elem_of_singleton. tauto.
Qed.

(** *** All levels *)

Definition builder_inv (base : Version) (b : Builder) (A cur : Z -> files) : Prop :=
  base_ b = base /\ length (levels_ b) = Z.to_nat config.kNumLevels
  /\ forall level, is_level level -> exists l, levels_ b !! Z.to_nat level = Some l
     /\ level_inv (level_files base level) (A level) (cur level) l.

Lemma level_inv_perm fs A A' cur cur' l : A ≡ₚ A' -> cur ≡ₚ cur' -> level_inv fs A cur l -> level_inv fs A' cur' l.
Proof. intros HA Hc [H1 H2 H3]. split; [by rewrite H1|done|by rewrite H3]. Qed.

(** An operation on one level. *)
Lemma on_level_inv base b A cur A' cur' level f : is_level level -> builder_inv base b A cur ->
  (forall l, level_inv (level_files base level) (A level) (cur level) l ->
    exists l', f l = Ret l' /\ level_inv (level_files base level) (A' level) (cur' level) l') ->
  (forall k, is_level k -> k <> level -> A k = A' k /\ cur k = cur' k) ->
  exists b', on_level b level f = Ret b' /\ builder_inv base b' A' cur'.
Proof.
  intros Hl (Hb & Hlen & Hinv) Hf Hother. unfold on_level. destruct (Hinv level Hl) as (l & E & Hi). rewrite E.
  cbn [of_option mbind res_bind]. destruct (Hf l Hi) as (l' & -> & Hi'). cbn [mbind res_bind]. eexists. split; [done|].
  apply lookup_lt_Some in E as Hlt. split; [done|]. split; [by cbn [levels_]; rewrite length_insert|]. intros k Hk. cbn [levels_].
  destruct (decide (k = level)) as [->|Hne]; [exists l'; by rewrite list_lookup_insert_eq|].
  destruct (Hinv k Hk) as (lk & Ek & Hik). exists lk. unfold is_level in *. rewrite list_lookup_insert_ne by lia.
  destruct (Hother k Hk Hne) as [<- <-]. done.
Qed.

Lemma apply_deleted_spec base b A cur p : is_level p.1 -> builder_inv base b A cur ->
  exists b', apply_deleted b p = Ret b' /\ builder_inv base b' A (fun level => filter (fun f => (level, number f) <> p) (cur level)).
Proof.
  intros Hp Hb. apply (on_level_inv base b A cur); [done|done| |].
  - intros l Hl. eexists. split; [done|]. rewrite (filter_same _ (fun f => number f <> p.2)); [by apply level_delete|].
    intros f _. destruct p as [lv n]. cbn. split; [intros Hne E; apply Hne; by rewrite E|intros Hne [= E]; done].
  - intros k _ Hk. split; [done|]. rewrite filter_all; [done|]. intros f _ E. apply Hk. by rewrite <- E.
Qed.

Lemma apply_deleted_all base b A cur ds : Forall (fun p => is_level p.1) ds -> builder_inv base b A cur ->
  exists b', fold_res apply_deleted ds b = Ret b'
  /\ builder_inv base b' A (fun level => filter (fun f => (level, number f) ∉ ds) (cur level)).
Proof.
  intros Hds. revert b cur. induction Hds as [|p ds Hp _ IH]; intros b cur Hb.
  - exists b. split; [done|]. destruct Hb as (? & ? & Hi). split; [done|]. split; [done|]. intros level Hl.
    rewrite filter_all; [by apply Hi|]. intros f _. apply not_elem_of_nil.
  - cbn [fold_res]. destruct (apply_deleted_spec _ _ _ _ p Hp Hb) as (b1 & -> & Hb1). cbn [mbind res_bind].
    destruct (IH _ _ Hb1) as (b' & -> & ? & ? & Hi). exists b'. split; [done|]. split; [done|]. split; [done|]. intros level Hl.
    destruct (Hi level Hl) as (l & El & Hl'). exists l. split; [done|]. rewrite list_filter_filter in Hl'.
    erewrite filter_same; [exact Hl'|]. intros f _. cbn. rewrite not_elem_of_cons. tauto.
Qed.

Lemma apply_added_spec base b A cur p : is_level p.1 -> file_valid p.2 -> builder_inv base b A cur ->
  number p.2 ∉ map number (level_files base p.1 ++ A p.1) ->
  exists b', apply_added b p = Ret b'
  /\ builder_inv base b' (fun level => A level ++ adds level p) (fun level => cur level ++ adds level p).
Proof.
  intros Hp Hv Hb Hn. apply (on_level_inv base b A cur); [done|done| |].
  - intros l Hl. unfold adds. rewrite decide_True by done.
    destruct (level_add _ _ _ _ (added_file p.2) Hl Hv Hn) as (added & -> & Hl'). cbn [mbind res_bind]. by eexists.
  - intros k _ Hk. unfold adds. rewrite decide_False by done. by rewrite !app_nil_r.
Qed.

Lemma apply_added_all base ps : forall b A cur, Forall (fun p => is_level p.1 /\ file_valid p.2) ps ->
  builder_inv base b A cur ->
  (forall level, is_level level -> NoDup (map number (level_files base level ++ A level ++ concat (map (adds level) ps)))) ->
  exists b', fold_res apply_added ps b = Ret b'
  /\ builder_inv base b' (fun level => A level ++ concat (map (adds level) ps))
       (fun level => cur level ++ concat (map (adds level) ps)).
Proof.
  induction ps as [|p ps IH]; intros b A cur Hps Hb Hnd.
  - exists b. split; [done|]. destruct Hb as (? & ? & Hi). split; [done|]. split; [done|]. intros level Hl.
    cbn [map concat]. rewrite !app_nil_r. by apply Hi.
  - apply Forall_cons_1 in Hps as [[Hp Hv] Hps]. cbn [fold_res].
    destruct (apply_added_spec base b A cur p Hp Hv Hb) as (b1 & -> & Hb1).
    { specialize (Hnd p.1 Hp). cbn [map concat] in Hnd. unfold adds in Hnd at 1. rewrite decide_True in Hnd by done.
      rewrite app_assoc, map_app, list.NoDup_app in Hnd. destruct Hnd as (_ & Hnd & _). intros Hin. apply (Hnd _ Hin). left. }
    cbn [mbind res_bind]. destruct (IH _ _ _ Hps Hb1) as (b' & -> & ? & ? & Hi).
    { intros level Hl. rewrite <- (app_assoc (A level)). by apply Hnd. }
    exists b'. split; [done|]. split; [done|]. split; [done|]. intros level Hl. cbn [map concat]. rewrite !app_assoc. by apply Hi.
Qed.

Lemma set_pointers_spec ps : forall pointers, Forall (fun p : Z * bytes => is_level p.1) ps ->
  length pointers = Z.to_nat config.kNumLevels ->
  fold_res set_pointer ps pointers = Ret (fold_left (fun ps p => <[Z.to_nat p.1 := p.2]> ps) ps pointers)
  /\ length (fold_left (fun ps p => <[Z.to_nat p.1 := p.2]> ps) ps pointers) = Z.to_nat config.kNumLevels.
Proof.
  induction ps as [|p ps IH]; intros pointers Hps Hl; [done|]. apply Forall_cons_1 in Hps as [Hp Hps].
  cbn [fold_res fold_left].
  assert (set_pointer pointers p = Ret (<[Z.to_nat p.1 := p.2]> pointers)) as ->.
  { unfold set_pointer. destruct (lookup_lt_is_Some_2 pointers (Z.to_nat p.1)) as [x ->]; [|done].
    rewrite Hl. unfold is_level in Hp. lia. }
  cbn [mbind res_bind]. apply IH; [done|by rewrite length_insert].
Qed.

Lemma Apply_spec base b A cur pointers e : edit_ok e -> builder_inv base b A cur ->
  length pointers = Z.to_nat config.kNumLevels ->
  (forall level, is_level level -> NoDup (map number (level_files base level ++ A level ++ edit_adds level e))) ->
  exists b', Apply pointers b e = Ret (edit_pointers pointers e, b')
  /\ builder_inv base b' (fun level => A level ++ edit_adds level e) (fun level => level_edit level (cur level) e)
  /\ length (edit_pointers pointers e) = Z.to_nat config.kNumLevels.
Proof.
  intros [Hp Hd Hn] Hb Hl Hnd. unfold Apply. destruct (set_pointers_spec _ _ Hp Hl) as [-> Hl']. cbn [mbind res_bind].
  destruct (apply_deleted_all _ _ _ _ _ Hd Hb) as (b1 & -> & Hb1). cbn [mbind res_bind].
  destruct (apply_added_all _ _ _ _ _ Hn Hb1 Hnd) as (b2 & -> & Hb2). cbn [mbind res_bind]. by exists b2.
Qed.

(** *** Saving *)

Lemma Forall_filter {A} (Q P : A -> Prop) `{forall x, Decision (P x)} (l : list A) : Forall Q l -> Forall Q (filter P l).
Proof. induction 1 as [|x l Hx _ IH]; [constructor|]. rewrite filter_cons. case_decide; [by constructor|done]. Qed.

Lemma StronglySorted_filter {A} (R : A -> A -> Prop) (P : A -> Prop) `{forall x, Decision (P x)} (l : list A) :
  StronglySorted R l -> StronglySorted R (filter P l).
Proof.
  induction 1 as [|x l Hs IH Hx]; [constructor|]. rewrite filter_cons. case_decide; [|done].
  constructor; [done|]. by apply Forall_filter.
Qed.

Lemma level_files_new level : level_files new_Version level = [].
Proof.
  unfold level_files. cbn [new_Version files_]. change (Z.to_nat config.kNumLevels) with 7%nat.
  destruct (Z.to_nat level) as [|[|[|[|[|[|[|k]]]]]]]; try done. by destruct k.
Qed.

(** The files saved into a version go behind those that it has. *)
Lemma save_loop_behind l added : forall base out fs, save_loop l added base [] = Ret fs -> save_loop l added base out = Ret (out ++ fs).
Proof.
  assert (forall base out out', save_loop l added base (out ++ out') = (fs ← save_loop l added base out'; Ret (out ++ fs))) as Hgen.
  { induction added as [|f added IH]; intros base out out'; cbn [save_loop].
    - by rewrite !MaybeAddFile_kept, <- app_assoc.
    - destruct (upper_bound base f) as [n| | |]; [|done..]. cbn [mbind res_bind]. rewrite !MaybeAddFile_kept, !MaybeAddFile_one, <- !app_assoc.
      by rewrite IH. }
  intros base out fs E. rewrite <- (app_nil_r out), Hgen, E. cbn [mbind res_bind]. by rewrite app_nil_r.
Qed.

Fixpoint behind (v : Version) (level : Z) (fl : list files) : list files :=
  match fl with [] => [] | fs :: fl => (level_files v level ++ fs) :: behind v (level + 1) fl end.

Lemma save_levels_behind ls base v : forall level fl, save_levels ls base new_Version level = Ret fl ->
  save_levels ls base v level = Ret (behind v level fl).
Proof.
  induction ls as [|l ls IH]; intros level fl; cbn [save_levels]; [by intros [= <-]|]. rewrite level_files_new. intros E.
  apply res_bind_Ret in E as (fs & E & E'). apply res_bind_Ret in E' as (rest & E' & [= <-]).
  rewrite (save_loop_behind _ _ _ _ _ E). cbn [mbind res_bind]. by rewrite (IH _ _ E').
Qed.

Lemma behind_level v fl : forall n level, 0 <= level -> (n < length fl)%nat ->
  nth n (behind v level fl) [] = level_files v (level + Z.of_nat n) ++ nth n fl [].
Proof.
  induction fl as [|fs fl IH]; intros n level Hl Hn; cbn [length] in Hn; [lia|]. destruct n as [|n]; cbn [behind nth].
  - by rewrite Z.add_0_r.
  - rewrite IH by lia. do 2 f_equal. lia.
Qed.

Lemma save_levels_spec v ls : forall level, 0 <= level ->
  (forall i l, ls !! i = Some l -> exists fs, save_loop l (added_files l) (level_files v (level + Z.of_nat i)) [] = Ret fs) ->
  exists fl, save_levels ls v new_Version level = Ret fl /\ length fl = length ls
  /\ forall i l fs, ls !! i = Some l -> fl !! i = Some fs ->
     save_loop l (added_files l) (level_files v (level + Z.of_nat i)) [] = Ret fs.
Proof.
  induction ls as [|l ls IH]; intros level Hl Hs; [by exists []|]. cbn [save_levels]. rewrite level_files_new.
  destruct (Hs 0%nat l eq_refl) as (fs & E). rewrite Z.add_0_r in E. rewrite E. cbn [mbind res_bind].
  destruct (IH (level + 1) ltac:(lia)) as (fl & -> & Hlen & Hfl).
  { intros i k Ei. destruct (Hs (S i) k Ei) as (g & Eg). exists g. rewrite <- Eg. do 2 f_equal. lia. }
  cbn [mbind res_bind]. exists (fs :: fl). split; [done|]. split; [by cbn; rewrite Hlen|].
  intros [|i] k g; cbn [lookup list_lookup].
  - intros [= <-] [= <-]. by rewrite Z.add_0_r.
  - intros Ei Eg. rewrite <- (Hfl i k g Ei Eg). do 2 f_equal. lia.
Qed.

Lemma SaveTo_spec base b A cur : version_sorted base -> builder_inv base b A cur ->
  (forall level, is_level level -> NoDup (map number (level_files base level ++ A level))) ->
  exists fl, SaveTo b new_Version = Ret (with_files_ new_Version fl) /\ version_sorted (with_files_ new_Version fl)
  /\ forall level, is_level level -> level_files (with_files_ new_Version fl) level ≡ₚ cur level.
Proof.
  intros [_ Hbase] (Hb & Hlen & Hinv) Hnd. unfold SaveTo. rewrite Hb.
  assert (forall level l, is_level level -> levels_ b !! Z.to_nat level = Some l -> exists fs,
    save_loop l (added_files l) (level_files base level) [] = Ret fs /\ files_sorted fs /\ fs ≡ₚ cur level) as Hsave.
  { intros level l Hl E. destruct (Hinv level Hl) as (l' & E' & [Ha [Hva Hsa] Hc]). rewrite E in E'. injection E' as <-.
    destruct (Hbase level Hl) as [Hvb Hsb].
    destruct (save_loop_spec l (added_files l) (level_files base level) []) as (m & -> & Hm & Hp); [done..| |].
    { by rewrite Ha; apply Hnd. }
    eexists. split; [done|]. cbn [app]. split; [split|].
    - apply Forall_filter. eapply Forall_perm; [by symmetry|]. by apply Forall_app.
    - by apply StronglySorted_filter.
    - by rewrite <- Hc, Hp. }
  assert (forall i, (i < length (levels_ b))%nat -> is_level (Z.of_nat i)) as Hlev by (unfold is_level; intros; lia).
  destruct (save_levels_spec base (levels_ b) 0 ltac:(lia)) as (fl & -> & Hfl & Hsp).
  { intros i l E. destruct (Hsave (Z.of_nat i) l) as (fs & Hs & _); [eapply Hlev, lookup_lt_Some, E|by rewrite Nat2Z.id|by exists fs]. }
  cbn [mbind res_bind]. exists fl. split; [done|].
  assert (forall level, is_level level -> files_sorted (level_files (with_files_ new_Version fl) level) /\ level_files (with_files_ new_Version fl) level ≡ₚ cur level) as Hlv.
  { intros level Hl. destruct (Hinv level Hl) as (l & E & _). destruct (Hsave level l Hl E) as (fs & Es & Hs & Hp).
    destruct (lookup_lt_is_Some_2 fl (Z.to_nat level)) as [g Eg]; [rewrite Hfl; by eapply lookup_lt_Some|].
    specialize (Hsp _ _ _ E Eg). unfold is_level in Hl. rewrite Z2Nat.id, Z.add_0_l, Es in Hsp by lia. injection Hsp as ->.
    unfold level_files, with_files_. cbn [files_]. by rewrite (nth_lookup_Some _ _ _ _ Eg). }
  split; [split; [cbn [files_ with_files_]; by rewrite Hfl|]|]; intros level Hl; by apply Hlv.
Qed.

Lemma new_Builder_inv base : builder_inv base (new_Builder base) (fun _ => []) (level_files base).
Proof.
  split; [done|]. split; [done|]. intros level Hl. exists (mkLevelState ∅ []). split.
  - cbn [new_Builder levels_]. apply lookup_replicate_2. unfold is_level in Hl. lia.
  - split; [done|split; constructor|]. cbn [deleted_files added_files]. rewrite app_nil_r. rewrite filter_all; [done|].
    intros f _. unfold kept. set_solver.
Qed.

Fixpoint apply_edits (pointers : list bytes) (b : Builder) (es : list VersionEdit) : res (list bytes * Builder) :=
  match es with
  | [] => Ret (pointers, b)
  | e :: es => '(pointers, b) ← Apply pointers b e; apply_edits pointers b es
  end.

Lemma apply_edits_spec base es : forall b A cur pointers, Forall edit_ok es -> builder_inv base b A cur ->
  length pointers = Z.to_nat config.kNumLevels ->
  (forall level, is_level level ->
    NoDup (map number (level_files base level ++ A level ++ concat (map (edit_adds level) es)))) ->
  exists b', apply_edits pointers b es = Ret (fold_left edit_pointers es pointers, b')
  /\ builder_inv base b' (fun level => A level ++ concat (map (edit_adds level) es))
       (fun level => fold_left (level_edit level) es (cur level)).
Proof.
  induction es as [|e es IH]; intros b A cur pointers Hes Hb Hl Hnd.
  - exists b. split; [done|]. destruct Hb as (? & ? & Hi). split; [done|]. split; [done|]. intros level Hlv.
    cbn [map concat]. rewrite app_nil_r. by apply Hi.
  - apply Forall_cons_1 in Hes as [He Hes]. cbn [apply_edits].
    destruct (Apply_spec base b A cur pointers e He Hb Hl) as (b1 & -> & Hb1 & Hl1).
    { intros level Hlv. specialize (Hnd level Hlv). cbn [map concat] in Hnd. rewrite !app_assoc, map_app, list.NoDup_app in Hnd.
      rewrite app_assoc. tauto. }
    cbn [mbind res_bind]. destruct (IH b1 _ _ _ Hes Hb1 Hl1) as (b' & -> & ? & ? & Hi).
    { intros level Hlv. rewrite <- (app_assoc (A level)). by apply Hnd. }
    exists b'. split; [done|]. split; [done|]. split; [done|]. intros level Hlv. cbn [map concat]. rewrite app_assoc. by apply Hi.
Qed.
End edits.

(** ** One builder for many edits *)

(** The version after an edit, as [LogAndApply] makes it. *)
Definition save_one `{Comparator} (pointers : list bytes) (base : Version) (e : VersionEdit) : res (list bytes * Version) :=
  '(pointers, b) ← Apply pointers (new_Builder base) e;
  v ← SaveTo b new_Version;
  Ret (pointers, v).

Fixpoint save_each `{Comparator} (pointers : list bytes) (base : Version) (es : list VersionEdit) : res (list bytes * Version) :=
  match es with
  | [] => Ret (pointers, base)
  | e :: es => '(pointers, v) ← save_one pointers base e; save_each pointers v es
  end.

Section one_by_one.
Context `{Comparator}.

Lemma sorted_perm (fs gs : files) : StronglySorted (cmp_lt file_cmp) fs -> StronglySorted (cmp_lt file_cmp) gs -> fs ≡ₚ gs -> fs = gs.
Proof.
  intros Hf. revert gs. induction Hf as [|f fs Hf IH Hff]; intros gs Hg Hp; [by apply Permutation_nil_l in Hp|].
  destruct gs as [|g gs]; [by symmetry in Hp; apply Permutation_nil_l in Hp|].
  apply StronglySorted_inv in Hg as [Hg Hgg]. rewrite Forall_forall in Hff, Hgg.
  assert (f = g) as ->.
  { assert (f ∈ g :: gs) as [->|Hfg]%elem_of_cons by (rewrite <- Hp; left); [done|].
    assert (g ∈ f :: fs) as [->|Hgf]%elem_of_cons by (rewrite Hp; left); [done|]. exfalso.
    apply (irreflexivity (cmp_lt file_cmp) f). transitivity g; [apply Hff|apply Hgg]; by apply list_elem_of_In. }
  f_equal. apply IH; [done|]. by apply Permutation_cons_inv in Hp.
Qed.

(** The same files in every level. *)
Lemma same_levels v w : version_sorted v -> version_sorted w ->
  (forall level, is_level level -> level_files v level ≡ₚ level_files w level) -> files_ v = files_ w.
Proof.
  intros [Hlv Hv] [Hlw Hw] Hp. apply list_eq_same_length with (Z.to_nat config.kNumLevels); [by rewrite Hlw|done|].
  intros i x y Hi Ex Ey. assert (is_level (Z.of_nat i)) as Hl by (unfold is_level; lia).
  specialize (Hp _ Hl). destruct (Hv _ Hl) as [_ Hsv], (Hw _ Hl) as [_ Hsw]. unfold level_files in Hp, Hsv, Hsw.
  rewrite Nat2Z.id, (nth_lookup_Some _ _ _ _ Ex) in Hsv. rewrite Nat2Z.id, (nth_lookup_Some _ _ _ _ Ey) in Hsw.
  rewrite Nat2Z.id, (nth_lookup_Some _ _ _ _ Ex), (nth_lookup_Some _ _ _ _ Ey) in Hp. by apply sorted_perm.
Qed.

Lemma level_edit_perm level fs gs e : fs ≡ₚ gs -> level_edit level fs e ≡ₚ level_edit level gs e.
Proof. intros Hp. unfold level_edit. by rewrite Hp. Qed.

Lemma level_edits_perm level es : forall fs gs, fs ≡ₚ gs ->
  fold_left (level_edit level) es fs ≡ₚ fold_left (level_edit level) es gs.
Proof. induction es as [|e es IH]; intros fs gs Hp; [done|]. cbn [fold_left]. apply IH. by apply level_edit_perm. Qed.

Lemma builder_save base pointers es : version_sorted base -> Forall edit_ok es -> fresh_adds base es ->
  length pointers = Z.to_nat config.kNumLevels ->
  exists b fl, apply_edits pointers (new_Builder base) es = Ret (fold_left edit_pointers es pointers, b)
  /\ SaveTo b new_Version = Ret (with_files_ new_Version fl) /\ version_sorted (with_files_ new_Version fl)
  /\ forall level, is_level level -> level_files (with_files_ new_Version fl) level ≡ₚ fold_left (level_edit level) es (level_files base level).
Proof.
  intros Hbase Hes Hf Hl.
  destruct (apply_edits_spec base es _ _ _ pointers Hes (new_Builder_inv base) Hl Hf) as (b & E & Hb).
  destruct (SaveTo_spec base b _ _ Hbase Hb Hf) as (fl & Es & Hs & Hlv). by exists b, fl.
Qed.

(** Into a version that has files. *)
Lemma SaveTo_behind b v0 fl : SaveTo b new_Version = Ret (with_files_ new_Version fl) -> SaveTo b v0 = Ret (with_files_ v0 (behind v0 0 fl)).
Proof.
  unfold SaveTo. intros E. apply res_bind_Ret in E as (fl' & E & [= <-]). by rewrite (save_levels_behind _ _ _ _ _ E).
Qed.

Lemma fresh_step base e es v : fresh_adds base (e :: es) ->
  (forall level, is_level level -> level_files v level ≡ₚ level_edit level (level_files base level) e) -> fresh_adds v es.
Proof.
  intros Hf Hp level Hl. specialize (Hf level Hl). rewrite (Hp level Hl). cbn [map concat] in Hf. unfold level_edit.
  apply (sublist_NoDup _ _ Hf). apply (fmap_sublist number). rewrite <- app_assoc. apply sublist_app; [|done].
  apply sublist_filter.
Qed.

Lemma save_each_spec es : forall base pointers, version_sorted base -> Forall edit_ok es -> fresh_adds base es ->
  length pointers = Z.to_nat config.kNumLevels ->
  exists v, save_each pointers base es = Ret (fold_left edit_pointers es pointers, v) /\ version_sorted v
  /\ forall level, is_level level -> level_files v level ≡ₚ fold_left (level_edit level) es (level_files base level).
Proof.
  induction es as [|e es IH]; intros base pointers Hbase Hes Hf Hl; [by exists base|].
  apply Forall_cons_1 in Hes as [He Hes]. cbn [save_each]. unfold save_one.
  assert (fresh_adds base [e]) as Hfe.
  { intros level Hlv. apply (sublist_NoDup _ _ (Hf level Hlv)). apply (fmap_sublist number). apply sublist_app; [done|].
    cbn [map concat]. rewrite app_nil_r. by apply sublist_inserts_r. }
  destruct (builder_save base pointers [e] Hbase ltac:(by constructor) Hfe Hl) as (b & fl & E & Es & Hs & Hp).
  cbn [apply_edits] in E. destruct (Apply pointers (new_Builder base) e) as [[p' b']| | |]; try discriminate E.
  cbn [mbind res_bind] in E |- *. injection E as -> ->. rewrite Es. cbn [mbind res_bind].
  destruct (IH (with_files_ new_Version fl) (fold_left edit_pointers [e] pointers)) as (v & Ev & Hv & Hpv); [done|done|by eapply fresh_step| |].
  { cbn [fold_left]. unfold edit_pointers. destruct (set_pointers_spec _ pointers (eo_pointers _ He) Hl) as [_ ->]. done. }
  exists v. split; [exact Ev|]. split; [done|]. intros level Hlv. rewrite Hpv by done. cbn [fold_left].
  apply level_edits_perm. by apply Hp.
Qed.
End one_by_one.

(** ** Properties *)

(** C30: a builder that was given many edits saves the version that they lead to
    one after the other: every level has the files that were there or were
    added and not deleted since, strictly sorted by their smallest keys and
    numbers, behind the files that the version it saves to has (it is always a
    new one), and the compaction pointers are the last ones set; and that
    version has the same files as the versions that a builder of its own for
    each edit makes.  No level is given a file of a number that it had. *)
Theorem builder_saves `{Comparator} base pointers es v0 : version_sorted base -> Forall edit_ok es -> fresh_adds base es ->
  length pointers = Z.to_nat config.kNumLevels ->
  exists b v w v', apply_edits pointers (new_Builder base) es = Ret (fold_left edit_pointers es pointers, b)
  /\ SaveTo b v0 = Ret w /\ (forall level, is_level level -> level_files w level = level_files v0 level ++ level_files v level)
  /\ SaveTo b new_Version = Ret v /\ version_sorted v
  /\ (forall level, is_level level -> level_files v level ≡ₚ fold_left (level_edit level) es (level_files base level))
  /\ save_each pointers base es = Ret (fold_left edit_pointers es pointers, v') /\ files_ v' = files_ v.
Proof.
  intros Hbase Hes Hf Hl. destruct (builder_save base pointers es Hbase Hes Hf Hl) as (b & fl & E & Es & Hs & Hp).
  destruct (save_each_spec es base pointers Hbase Hes Hf Hl) as (v' & Ev & Hv & Hpv).
  exists b, (with_files_ new_Version fl), (with_files_ v0 (behind v0 0 fl)), v'. split; [done|]. split; [by apply SaveTo_behind|]. split.
  { intros level Hlv. unfold level_files at 1 3. cbn [files_ with_files_]. rewrite behind_level; [|lia|].
    - do 2 f_equal. unfold is_level in Hlv. lia.
    - destruct Hs as [Hlen _]. cbn [files_ with_files_] in Hlen. rewrite Hlen. unfold is_level in Hlv. lia. }
  repeat (split; [done|]). apply same_levels; [done|done|]. intros level Hlv. by rewrite Hpv, Hp.
Qed.

(** A compaction moves file 7 down and replaces two files. *)
#[local] Existing Instance BytewiseComparator.

Definition sample_keys (a b : string) : bytes * bytes :=
  (encode_key (mkParsed (lit a) 5 kTypeValue), encode_key (mkParsed (lit b) 3 kTypeValue)).
Definition sample_add (e : VersionEdit) (level n : Z) (a b : string) : VersionEdit :=
  AddFile e level n 100 (sample_keys a b).1 (sample_keys a b).2.
Definition sample_edits : list VersionEdit :=
  [ sample_add (sample_add new_VersionEdit 0 7 "c" "d") 1 5 "a" "b";
    sample_add (DeleteFile (DeleteFile new_VersionEdit 0 7) 1 5) 1 8 "a" "d";
    SetCompactPointer (sample_add new_VersionEdit 1 9 "e" "f") 1 (sample_keys "e" "f").2 ].

Lemma builder_saves_witness : exists b v v',
  apply_edits (replicate 7 []) (new_Builder new_Version) sample_edits
    = Ret (fold_left edit_pointers sample_edits (replicate 7 []), b)
  /\ SaveTo b new_Version = Ret v /\ map (map number) (files_ v) = [[]; [8; 9]; []; []; []; []; []]
  /\ save_each (replicate 7 []) new_Version sample_edits
    = Ret (fold_left edit_pointers sample_edits (replicate 7 []), v') /\ files_ v' = files_ v.
Proof.
  destruct (builder_saves new_Version (replicate 7 []) sample_edits new_Version) as (b & v & w & v' & E & _ & _ & Es & _ & _ & Ev & Ef).
  - split; [done|]. intros level Hl. unfold level_files. cbn [new_Version files_].
    assert (nth (Z.to_nat level) (replicate (Z.to_nat config.kNumLevels) []) [] = @nil FileMetaData) as ->; [|by repeat constructor].
    destruct (Z.to_nat level) as [|[|[|[|[|[|[|k]]]]]]]; try done. by destruct k.
  - repeat constructor; vm_compute; (done || lia).
  - intros level Hl. apply (bool_decide_unpack _). unfold is_level, config.kNumLevels in Hl.
    assert (level = 0 \/ level = 1 \/ level = 2 \/ level = 3 \/ level = 4 \/ level = 5 \/ level = 6) as Hc by lia.
    destruct Hc as [->|[->|[->|[->|[->|[->| ->]]]]]]; vm_compute; exact I.
  - done.
  - exists b, v, v'. split; [exact E|]. split; [exact Es|]. split; [|by split].
    clear Ev Ef v'. vm_compute in E. injection E as <-. vm_compute in Es. injection Es as <-. reflexivity.
Defined.
