(* ===== verification/VersionSet.v ===== *)
(** * VersionSet: db/version_set.h and db/version_set.cc, class VersionSet

    The current version and the descriptor that its history is logged to:
    [LogAndApply] logs an edit and makes the version after it current, and
    [Recover] reads the descriptor that the file CURRENT names.  [NewDB]
    (db/db_impl.cc) writes the first descriptor.  Descriptor.v shows
    that after any run of these operations, over an environment that keeps its
    promises, a new version set recovers what was logged last. *)

From S2P Require Import Prelude CLib Double Coding Status DbFormat SkipList KeyOrder Filename Env MemEnv Log VersionEdit Version VersionBuilder.

(** [icmp_.user_comparator()->Name()] *)
Class ComparatorName := comparator_name : bytes.

(** ** The size of the levels *)

Fixpoint max_bytes_loop (n : nat) (result : double) : double :=
  match n with O => result | S n => max_bytes_loop n (double_mul result (double_of_Z 10)) end.
Definition MaxBytesForLevel (level : Z) : double :=
  max_bytes_loop (Z.to_nat (level - 1)) (double_mul (double_of_Z 10) (double_of_Z 1048576)).

(** The score of a level. *)
Definition level_score (v : Version) (level : Z) : double :=
  if decide (level = 0)
  then double_div (double_of_Z (NumFiles v 0)) (double_of_Z config.kL0_CompactionTrigger)
  else double_div (double_of_Z (u64 (TotalFileSize (level_files v level)))) (MaxBytesForLevel level).

Fixpoint finalize_loop (n : nat) (v : Version) (level best_level : Z) (best_score : double) : Z * double :=
  match n with
  | O => (best_level, best_score)
  | S n =>
      let score := level_score v level in
      if double_lt best_score score then finalize_loop n v (level + 1) level score
      else finalize_loop n v (level + 1) best_level best_score
  end.

Definition Finalize (v : Version) : Version :=
  let '(best_level, best_score) := finalize_loop (Z.to_nat (config.kNumLevels - 1)) v 0 (-1) (double_of_Z (-1)) in
  mkVersion (files_ v) (file_to_compact_ v) (file_to_compact_level_ v) best_score best_level.

(** ** The version set

    [descriptor_log_] with its file; the links of the list of versions are left
    out. *)

Record VersionSet (H : Type) := mkVersionSet {
  vs_next_file_number_ : Z;
  vs_manifest_file_number_ : Z;
  vs_last_sequence_ : Z;
  vs_log_number_ : Z;
  vs_prev_log_number_ : Z;
  vs_descriptor_log_ : option (Writer H);
  vs_current_ : Version;
  vs_compact_pointer_ : list bytes;
}.
#[global] Arguments mkVersionSet {H}.
#[global] Arguments vs_next_file_number_ {H}.
#[global] Arguments vs_manifest_file_number_ {H}.
#[global] Arguments vs_last_sequence_ {H}.
#[global] Arguments vs_log_number_ {H}.
#[global] Arguments vs_prev_log_number_ {H}.
#[global] Arguments vs_descriptor_log_ {H}.
#[global] Arguments vs_current_ {H}.
#[global] Arguments vs_compact_pointer_ {H}.

Section numbers.
Context {H : Type}.

Definition new_VersionSet : VersionSet H :=
  mkVersionSet 2 0 0 0 0 None new_Version (replicate (Z.to_nat config.kNumLevels) []).

Definition with_next (vs : VersionSet H) (n : Z) : VersionSet H :=
  mkVersionSet n (vs_manifest_file_number_ vs) (vs_last_sequence_ vs) (vs_log_number_ vs) (vs_prev_log_number_ vs)
    (vs_descriptor_log_ vs) (vs_current_ vs) (vs_compact_pointer_ vs).

Definition NewFileNumber (vs : VersionSet H) : Z * VersionSet H :=
  (vs_next_file_number_ vs, with_next vs (u64 (vs_next_file_number_ vs + 1))).
Definition ReuseFileNumber (vs : VersionSet H) (file_number : Z) : VersionSet H :=
  if decide (vs_next_file_number_ vs = u64 (file_number + 1)) then with_next vs file_number else vs.
Definition MarkFileNumberUsed (vs : VersionSet H) (number : Z) : VersionSet H :=
  if vs_next_file_number_ vs <=? number then with_next vs (u64 (number + 1)) else vs.
Definition SetLastSequence (vs : VersionSet H) (s : Z) : VersionSet H :=
  mkVersionSet (vs_next_file_number_ vs) (vs_manifest_file_number_ vs) s (vs_log_number_ vs) (vs_prev_log_number_ vs)
    (vs_descriptor_log_ vs) (vs_current_ vs) (vs_compact_pointer_ vs).
Definition with_compact_pointer (vs : VersionSet H) (pointers : list bytes) : VersionSet H :=
  mkVersionSet (vs_next_file_number_ vs) (vs_manifest_file_number_ vs) (vs_last_sequence_ vs) (vs_log_number_ vs)
    (vs_prev_log_number_ vs) (vs_descriptor_log_ vs) (vs_current_ vs) pointers.
Definition with_descriptor (vs : VersionSet H) (log : option (Writer H)) : VersionSet H :=
  mkVersionSet (vs_next_file_number_ vs) (vs_manifest_file_number_ vs) (vs_last_sequence_ vs) (vs_log_number_ vs)
    (vs_prev_log_number_ vs) log (vs_current_ vs) (vs_compact_pointer_ vs).

(** [AppendVersion] with the numbers that are installed with the version. *)
Definition AppendVersion (vs : VersionSet H) (v : Version) (log_number prev_log_number : Z) : VersionSet H :=
  mkVersionSet (vs_next_file_number_ vs) (vs_manifest_file_number_ vs) (vs_last_sequence_ vs) log_number prev_log_number
    (vs_descriptor_log_ vs) v (vs_compact_pointer_ vs).

Definition NumLevelFiles (vs : VersionSet H) (level : Z) : Z := NumFiles (vs_current_ vs) level.
Definition NumLevelBytes (vs : VersionSet H) (level : Z) : Z := TotalFileSize (level_files (vs_current_ vs) level).
Definition NeedsCompaction (vs : VersionSet H) : bool :=
  double_le (double_of_Z 1) (compaction_score_ (vs_current_ vs)) || bool_decide (is_Some (file_to_compact_ (vs_current_ vs))).

(** The files of the versions that are still referenced to. *)
Definition AddLiveFiles (versions : list Version) (live : gset Z) : gset Z :=
  fold_left (fun live v => fold_left (fun live fs => fold_left (fun live f => {[number f]} ∪ live) fs live) (files_ v) live)
    versions live.

Definition LevelSummary (vs : VersionSet H) : bytes :=
  take 99 (lit "files[ " ++ concat (map (fun fs => decimal (Z.of_nat (length fs)) ++ lit " ") (files_ (vs_current_ vs))) ++ lit "]").
End numbers.

(** ** The descriptor *)

Section descriptor.
Context `{Comparator} `{ComparatorName} `{Address} {W Wf Sf : Type} `{!Env W Wf Sf}.
Abbreviation VSet := (VersionSet Wf).

(** A record added to a log whose file is in the world. *)
Definition add_record (w : W) (log : Writer Wf) (record : bytes) : res (Status.t * W * Writer Wf) :=
  '(s, l) ← AddRecord (mkWriter (w, dest_ log) (block_offset_ log) (type_crc_ log)) record;
  Ret (s, (dest_ l).1, mkWriter (dest_ l).2 (block_offset_ l) (type_crc_ l)).
Definition open_log (w : W) (file : Wf) : res (Writer Wf) :=
  l ← new_Writer (w, file);
  Ret (mkWriter file (block_offset_ l) (type_crc_ l)).

(** The compaction pointers that are set, by level. *)
Fixpoint snapshot_pointers (pointers : list bytes) (level : Z) (edit : VersionEdit) : VersionEdit :=
  match pointers with
  | [] => edit
  | p :: pointers =>
      let edit := if decide (p = []) then edit else SetCompactPointer edit level (InternalKey_DecodeFrom p) in
      snapshot_pointers pointers (level + 1) edit
  end.
Definition snapshot_files (level : Z) (fs : files) (edit : VersionEdit) : VersionEdit :=
  fold_left (fun e f => AddFile e level (number f) (file_size f) (smallest f) (largest f)) fs edit.
Fixpoint snapshot_levels (fl : list files) (level : Z) (edit : VersionEdit) : VersionEdit :=
  match fl with [] => edit | fs :: fl => snapshot_levels fl (level + 1) (snapshot_files level fs edit) end.

Definition snapshot_edit (vs : VSet) : VersionEdit :=
  let edit := SetComparatorName new_VersionEdit comparator_name in
  let edit := snapshot_pointers (vs_compact_pointer_ vs) 0 edit in
  snapshot_levels (files_ (vs_current_ vs)) 0 edit.

Definition WriteSnapshot (w : W) (vs : VSet) (log : Writer Wf) : res (Status.t * W * Writer Wf) :=
  add_record w log (VersionEdit.EncodeTo (snapshot_edit vs) []).

(** The numbers that an edit is completed with. *)
Definition complete_edit (vs : VSet) (edit : VersionEdit) : VersionEdit :=
  let edit := if has_log_number_ edit then edit else SetLogNumber edit (vs_log_number_ vs) in
  let edit := if has_prev_log_number_ edit then edit else SetPrevLogNumber edit (vs_prev_log_number_ vs) in
  VersionEdit.SetLastSequence (SetNextFile edit (vs_next_file_number_ vs)) (vs_last_sequence_ vs).

(** The descriptor's file and log, made when there is none: whether it was
    made, and the log. *)
Definition open_descriptor (w : W) (vs : VSet) (dbname : bytes) : res (Status.t * W * bool * option (Writer Wf)) :=
  match vs_descriptor_log_ vs with
  | Some log => Ret (Status.OK, w, false, Some log)
  | None =>
      '(s, file, w) ← env_NewWritableFile w (DescriptorFileName dbname (vs_manifest_file_number_ vs));
      if Status.ok s then
        file ← of_option file;
        log ← open_log w file;
        '(s, w, log) ← WriteSnapshot w vs log;
        Ret (s, w, true, Some log)
      else Ret (s, w, true, None)
  end.

(** The edit's record, and the sync. *)
Definition log_edit (w : W) (log : Writer Wf) (edit : VersionEdit) : res (Status.t * W * Writer Wf) :=
  '(s, w, log) ← add_record w log (VersionEdit.EncodeTo edit []);
  let '(s, w) := if Status.ok s then env_Sync w (dest_ log) else (s, w) in
  Ret (s, w, log).

Definition LogAndApply (w : W) (vs : VSet) (dbname : bytes) (edit : VersionEdit) : res (Status.t * W * VSet) :=
  let edit := complete_edit vs edit in
  '(pointers, builder) ← Apply (vs_compact_pointer_ vs) (new_Builder (vs_current_ vs)) edit;
  v ← SaveTo builder new_Version;
  let v := Finalize v in
  let vs := with_compact_pointer vs pointers in
  '(s, w, created, log) ← open_descriptor w vs dbname;
  '(s, w, log) ← (if Status.ok s then
                    l ← of_option log;
                    '(s, w, l) ← log_edit w l edit;
                    Ret (s, w, Some l)
                  else Ret (s, w, log));
  '(s, w) ← (if Status.ok s && (created : bool) then SetCurrentFile w dbname (vs_manifest_file_number_ vs) else Ret (s, w));
  if Status.ok s then
    Ret (s, w, AppendVersion (with_descriptor vs log) v (log_number_ edit) (prev_log_number_ edit))
  else if (created : bool) then
    '(_, w) ← env_DeleteFile w (DescriptorFileName dbname (vs_manifest_file_number_ vs));
    Ret (s, w, with_descriptor vs None)
  else Ret (s, w, with_descriptor vs log).

(** ** Recovery *)

(** The numbers found: [None] for those that no record had. *)
Record Found := mkFound {
  log_number : option Z;
  prev_log_number : option Z;
  next_file : option Z;
  last_sequence : option Z;
}.
Definition nothing_found : Found := mkFound None None None None.
Definition found (f : Found) (e : VersionEdit) : Found :=
  mkFound (if has_log_number_ e then Some (log_number_ e) else log_number f)
    (if has_prev_log_number_ e then Some (prev_log_number_ e) else prev_log_number f)
    (if has_next_file_number_ e then Some (next_file_number_ e) else next_file f)
    (if has_last_sequence_ e then Some (last_sequence_ e) else last_sequence f).

(** [LogReporter]: the first report of a reader, when the status is still
    good.  Reports are the latest first. *)
Definition reported (s : Status.t) (before : nat) (reports : list (Z * Status.t)) : Status.t :=
  if Status.ok s then
    match list.last (take (length reports - before) reports) with Some (_, s) => s | None => s end
  else s.

Definition check_comparator (edit : VersionEdit) (s : Status.t) : Status.t :=
  if Status.ok s && has_comparator_ edit && negb (bool_decide (comparator_ edit = comparator_name))
  then Status.InvalidArgument (comparator_ edit ++ lit " does not match existing comparator ") comparator_name
  else s.

Fixpoint recover_loop (fuel : nat) (reader : Reader (W * Sf)) (s : Status.t) (pointers : list bytes) (builder : Builder)
    (f : Found) : res (Status.t * list bytes * Builder * Found) :=
  match fuel with
  | O => NoFuel
  | S n =>
      let before := length (reports_ reader) in
      '(record, reader) ← ReadRecord fuel reader;
      let s := reported s before (reports_ reader) in
      match record with
      | None => Ret (s, pointers, builder, f)
      | Some record =>
          if negb (Status.ok s) then Ret (s, pointers, builder, f)
          else
            '(edit, s) ← VersionEdit.DecodeFrom new_VersionEdit record;
            let s := check_comparator edit s in
            '(pointers, builder) ← (if Status.ok s then Apply pointers builder edit else Ret (pointers, builder));
            recover_loop n reader s pointers builder (found f edit)
      end
  end.

Definition missing_number (f : Found) (s : Status.t) : Status.t :=
  match next_file f, log_number f, last_sequence f with
  | None, _, _ => Status.Corruption (lit "no meta-nextfile entry in descriptor") []
  | _, None, _ => Status.Corruption (lit "no meta-lognumber entry in descriptor") []
  | _, _, None => Status.Corruption (lit "no last-sequence-number entry in descriptor") []
  | _, _, _ => s
  end.

(** The numbers, once the records are read. *)
Definition install (vs : VSet) (f : Found) (v : Version) : VSet :=
  mkVersionSet (u64 (default 0 (next_file f) + 1)) (default 0 (next_file f)) (default 0 (last_sequence f))
    (default 0 (log_number f)) (default 0 (prev_log_number f)) (vs_descriptor_log_ vs) v (vs_compact_pointer_ vs).

(** More fuel than the bytes of CURRENT and of the descriptor is enough. *)
Definition Recover (fuel : nat) (w : W) (vs : VSet) (dbname : bytes) : res (Status.t * VSet) :=
  '(s, current) ← ReadFileToString fuel w (CurrentFileName dbname);
  if negb (Status.ok s) then Ret (s, vs)
  else if decide (current = [] \/ list.last current <> Some (zb 10)) then
    Ret (Status.Corruption (lit "CURRENT file does not end with newline") [], vs)
  else
    let current := take (length current - 1) current in
    let dscname := dbname ++ lit "/" ++ current in
    '(s, file) ← env_NewSequentialFile w dscname;
    if negb (Status.ok s) then Ret (s, vs)
    else
      file ← of_option file;
      '(s, pointers, builder, f) ← recover_loop fuel (new_Reader (w, file) true 0) s (vs_compact_pointer_ vs)
                                     (new_Builder (vs_current_ vs)) nothing_found;
      let vs := with_compact_pointer vs pointers in
      if negb (Status.ok s) then Ret (s, vs)
      else
        let s := missing_number f s in
        let vs := MarkFileNumberUsed vs (default 0 (prev_log_number f)) in
        let vs := MarkFileNumberUsed vs (default 0 (log_number f)) in
        if negb (Status.ok s) then Ret (s, vs)
        else
          v ← SaveTo builder new_Version;
          Ret (s, install vs f (Finalize v)).

(** ** A new database (db/db_impl.cc) *)

Definition NewDB (w : W) (dbname : bytes) : res (Status.t * W) :=
  let new_db := SetComparatorName new_VersionEdit comparator_name in
  let new_db := SetLogNumber new_db 0 in
  let new_db := SetNextFile new_db 2 in
  let new_db := VersionEdit.SetLastSequence new_db 0 in
  let manifest := DescriptorFileName dbname 1 in
  '(s, file, w) ← env_NewWritableFile w manifest;
  if negb (Status.ok s) then Ret (s, w)
  else
    file ← of_option file;
    log ← open_log w file;
    '(s, w, log) ← add_record w log (VersionEdit.EncodeTo new_db []);
    let '(s, w) := if Status.ok s then env_Close w file else (s, w) in
    if Status.ok s then SetCurrentFile w dbname 1
    else '(_, w) ← env_DeleteFile w manifest; Ret (s, w).
End descriptor.

(** ** Properties *)

(** C38: an edit is installed as a whole or not at all.  Over any environment,
    when [LogAndApply] reports success the version that the builder saved, with
    its scores, is current with the log numbers of the edit; when it reports a
    failure, of whichever of its steps, the version and the log numbers are
    those before, and a descriptor that it opened itself is given up.  No other
    number changes; but the compaction pointers of the edit are set in both
    cases. *)
Theorem log_and_apply_installs `{Comparator} `{ComparatorName} `{Address} {W Wf Sf : Type} `{!Env W Wf Sf} (w : W) (vs : VersionSet Wf) dbname edit s w' vs' :
  LogAndApply w vs dbname edit = Ret (s, w', vs') ->
  exists pointers b v, Apply (vs_compact_pointer_ vs) (new_Builder (vs_current_ vs)) (complete_edit vs edit) = Ret (pointers, b)
  /\ SaveTo b new_Version = Ret v /\ vs_compact_pointer_ vs' = pointers
  /\ (vs_next_file_number_ vs', vs_manifest_file_number_ vs', vs_last_sequence_ vs')
     = (vs_next_file_number_ vs, vs_manifest_file_number_ vs, vs_last_sequence_ vs)
  /\ (vs_current_ vs', vs_log_number_ vs', vs_prev_log_number_ vs')
     = (if Status.ok s then (Finalize v, log_number_ (complete_edit vs edit), prev_log_number_ (complete_edit vs edit))
        else (vs_current_ vs, vs_log_number_ vs, vs_prev_log_number_ vs))
  /\ (Status.ok s = true -> is_Some (vs_descriptor_log_ vs'))
  /\ (Status.ok s = false -> vs_descriptor_log_ vs = None -> vs_descriptor_log_ vs' = None).
Proof.
  intros E. unfold LogAndApply in E. set (e := complete_edit vs edit) in *.
  apply res_bind_Ret in E as ([pointers b] & EA & E). apply res_bind_Ret in E as (v & ES & E).
  apply res_bind_Ret in E as ([[[s1 w1] created] log1] & EO & E). apply res_bind_Ret in E as ([[s2 w2] log2] & EL & E).
  apply res_bind_Ret in E as ([s3 w3] & EC & E). exists pointers, b, v. split; [done|]. split; [done|].
  assert (Status.ok s3 = true -> is_Some log2) as Hlog.
  { intros H3. destruct (Status.ok s1) eqn:E1.
    - apply res_bind_Ret in EL as (l & _ & EL). apply res_bind_Ret in EL as ([[s4 w4] l4] & _ & EL). by injection EL as _ _ <-.
    - injection EL as <- _ _. rewrite E1 in EC. cbn [andb] in EC. injection EC as <- _. congruence. }
  assert (vs_descriptor_log_ vs = None -> created = true) as Hcreated.
  { intros Hn. unfold open_descriptor in EO. cbn [with_compact_pointer vs_descriptor_log_] in EO. rewrite Hn in EO.
    apply res_bind_Ret in EO as ([[s4 f4] w4] & _ & EO). destruct (Status.ok s4); [|by injection EO as _ _ <- _].
    apply res_bind_Ret in EO as (f & _ & EO). apply res_bind_Ret in EO as (l & _ & EO).
    apply res_bind_Ret in EO as ([[s5 w5] l5] & _ & EO). by injection EO as _ _ <- _. }
  destruct (Status.ok s3) eqn:E3.
  - injection E as <- _ <-. rewrite E3. by split_and!; auto.
  - destruct created.
    + apply res_bind_Ret in E as ([? w4] & _ & E). injection E as <- _ <-. rewrite E3. by split_and!.
    + injection E as <- _ <-. rewrite E3. split_and!; try done. intros _ Hn. by specialize (Hcreated Hn).
Qed.

(** Files in memory whose sync fails. *)
#[local] Existing Instance BytewiseComparator.
#[local] Instance sample_name : ComparatorName := lit "leveldb.BytewiseComparator".
#[local] Instance sample_address : Address := fun _ => 0.

Definition broken_env : Env InMemoryEnv nat SequentialFileImpl := {|
  env_NewWritableFile := NewWritableFile; env_Append := WritableAppend; env_Flush w _ := (Status.OK, w);
  env_Sync w _ := (Status.IOError (lit "sync") [], w); env_Close w _ := (Status.OK, w);
  env_NewSequentialFile := NewSequentialFile; env_Read := SequentialRead; env_Skip := SequentialSkip;
  env_FileExists := FileExists; env_GetChildren := GetChildren; env_DeleteFile := MemEnv.DeleteFile;
  env_RenameFile := RenameFile;
  env_CreateDir w _ := (Status.OK, w); env_GetFileSize := GetFileSize; env_LockFile w _ := (Status.OK, w) |}.

Definition sample_move : VersionEdit := SetCompactPointer (sample_add (SetLogNumber new_VersionEdit 9) 2 5 "a" "b") 2 (sample_keys "a" "b").2.

Lemma log_and_apply_installs_witness : exists s w' (vs' : VersionSet nat),
  LogAndApply (Env0 := broken_env) new_InMemoryEnv new_VersionSet (lit "db") sample_move = Ret (s, w', vs')
  /\ (vs_current_ vs', vs_log_number_ vs') = (new_Version, 0) /\ vs_compact_pointer_ vs' !! 2%nat = Some (sample_keys "a" "b").2.
Proof.
  destruct (LogAndApply (Env0 := broken_env) new_InMemoryEnv new_VersionSet (lit "db") sample_move) as [[[s w'] vs']| | |] eqn:E;
    [|vm_compute in E; discriminate E..].
  exists s, w', vs'. split; [done|].
  destruct (log_and_apply_installs (Env0 := broken_env) _ _ _ _ _ _ _ E) as (p & b & v & EA & _ & Ep & _ & Ec & _).
  assert (Status.ok s = false) as Es by (vm_compute in E; by injection E as <- _ _).
  rewrite Es in Ec. injection Ec as -> -> _. split; [done|]. rewrite Ep.
  vm_compute in EA. injection EA as <- _. done.
Defined.
