(* ===== verification/Descriptor.v ===== *)
(** * Descriptor: what is logged is what is recovered

    The proofs about VersionSet.v.  [session] is a run of a database's version
    sets over an environment that keeps its promises: it begins with [NewDB]
    and [Recover], and goes on with numbers handed out, edits logged, other
    files written, and version sets recovered again. *)

From S2P Require Import Prelude CLib Double Coding Status DbFormat SkipList KeyOrder Filename Env MemEnv Log VersionEdit Version VersionBuilder VersionSet.

(** ** Logging through the environment *)

Section logging.
Context `{Address} {W Wf Sf : Type} `{!Env W Wf Sf} `{!EnvSpec W Wf Sf}.

(** The file [name] of the world [w0], open, with the data [c] now. *)
Definition open_file (w0 : W) (name : bytes) (file : Wf) (f : W * Wf) (c : bytes) : Prop :=
  f.2 = file /\ env_ok f.1 /\ contents f.1 = <[name := c]> (contents w0)
  /\ writes f.1 file name /\ forall k n, writes w0 k n -> writes f.1 k n.

Lemma open_file_append w0 name file f c d : open_file w0 name file f c ->
  exists f', file_append d f = (Status.OK, f') /\ open_file w0 name file f' (c ++ d).
Proof.
  intros (Ef & Hw & Hc & Hwr & Hk). destruct f as [w fl]. cbn [fst snd] in *. subst fl. cbn [file_append env_writable fst snd].
  destruct (env_append w file name c d Hw Hwr) as (w' & -> & Hw' & Hc' & Hk' & _); [by rewrite Hc, lookup_insert_eq|].
  eexists. split; [done|]. split_and!; cbn [fst snd]; [done|done|by rewrite Hc', Hc, insert_insert_eq|by apply Hk'|intros k n Hx; by apply Hk', Hk].
Qed.

Lemma open_file_flush w0 name file f c : open_file w0 name file f c ->
  exists f', file_flush f = (Status.OK, f') /\ open_file w0 name file f' c.
Proof.
  intros (Ef & Hw & Hc & Hwr & Hk). destruct f as [w fl]. cbn [fst snd] in *. subst fl. cbn [file_flush env_writable fst snd].
  destruct (env_flush w file name Hw Hwr) as (w' & -> & Hw' & Hc' & Hk').
  eexists. split; [done|]. split_and!; cbn [fst snd]; [done|done|by rewrite Hc'|by apply Hk'|intros k n Hx; by apply Hk', Hk].
Qed.

(** A log's file is the whole records [raw], up to the offset of the writer. *)
Definition log_good (w : W) (log : Writer Wf) (name : bytes) (raw : bytes) (records : list bytes) : Prop :=
  writes w (dest_ log) name /\ contents w !! name = Some raw /\ good_crcs (type_crc_ log)
  /\ 0 <= block_offset_ log <= kBlockSize
  /\ exists prss, stream 0 (concat prss) raw (block_offset_ log) /\ Forall2 fragments records prss.

Lemma add_record_spec w log name raw records d : env_ok w -> log_good w log name raw records ->
  exists raw' w' log', add_record w log d = Ret (Status.OK, w', log') /\ env_ok w' /\ dest_ log' = dest_ log
  /\ contents w' = <[name := raw']> (contents w) /\ (forall k n, writes w k n -> writes w' k n)
  /\ log_good w' log' name raw' (records ++ [d]).
Proof.
  intros Hw (Hwr & Hraw & Hcrc & Hbo & prss & Hs & HF).
  set (wb := mkWriter raw (block_offset_ log) (type_crc_ log)).
  destruct (AddRecord_spec wb d Hcrc Hbo) as (raw1 & prs & bo' & E & Hbo' & Hs1 & Hfr).
  assert (open_file w name (dest_ log) (w, dest_ log) raw) as Hopen by (unfold open_file; rewrite insert_id by done; split_and!; cbn [fst snd]; auto).
  destruct (AddRecord_any (open_file w name (dest_ log)) (open_file_append w name (dest_ log)) (open_file_flush w name (dest_ log))
    (mkWriter (w, dest_ log) (block_offset_ log) (type_crc_ log)) wb d _ _ (conj Hopen (conj eq_refl eq_refl)) E)
    as (l & El & (Ed & Hw' & Hc' & Hwr' & Hk') & Eb & Et).
  unfold add_record. rewrite El. cbn [mbind res_bind]. eexists (raw ++ raw1), _, _. split; [done|]. split; [done|].
  cbn [dest_ block_offset_ type_crc_ wb] in *. split; [done|]. split; [done|]. split; [done|].
  split_and!; cbn [dest_ block_offset_ type_crc_]; [by rewrite Ed|by rewrite Hc', lookup_insert_eq|by rewrite Et|rewrite Eb; lia|rewrite Eb; lia|].
  exists (prss ++ [prs]). rewrite concat_app, Eb. cbn [concat]. rewrite app_nil_r. split; [by eapply stream_app|].
  apply Forall2_app; [done|by constructor].
Qed.

Lemma open_log_spec w file name : writes w file name -> contents w !! name = Some [] ->
  exists log, open_log w file = Ret log /\ dest_ log = file /\ log_good w log name [] [].
Proof.
  intros Hwr Hc. destruct (new_Writer_spec []) as (l & E & Hl).
  destruct (new_Writer_any (fun _ _ => True) (w, file) [] _ I E) as (v & Ev & _ & Eb & Et).
  unfold open_log. rewrite Ev. cbn [mbind res_bind]. eexists. split; [done|]. split; [done|].
  cbn [block_offset_ type_crc_] in Eb, Et. split_and!; cbn [dest_ block_offset_ type_crc_]; [done|done|by rewrite Et|rewrite Eb; lia|rewrite Eb; unfold kBlockSize; lia|].

  exists []. rewrite Eb. split; constructor.
Qed.
End logging.

(** ** Recovering the records *)

Section reading.
Context `{Comparator} `{ComparatorName} `{Address} {W Wf Sf : Type} `{!Env W Wf Sf} `{!EnvSpec W Wf Sf}.

Definition enc (e : VersionEdit) : bytes := VersionEdit.EncodeTo e [].

(** An edit that a version set logs. *)
Definition loggable (e : VersionEdit) : Prop :=
  typed e /\ (has_comparator_ e = true -> comparator_ e = comparator_name).

Lemma check_comparator_ok e : loggable e -> check_comparator e Status.OK = Status.OK.
Proof.
  intros [_ He]. unfold check_comparator. cbn [Status.ok Status.OK andb]. destruct (has_comparator_ e); [|done].
  by rewrite bool_decide_true by auto.
Qed.

Definition open_reader (w : W) (name : bytes) (f : W * Sf) (c : bytes) : Prop := f.1 = w /\ reads w f.2 c name.

Lemma open_reader_read w name f c n : env_ok w -> open_reader w name f c ->
  exists f', file_read n f = (Status.OK, take n c, f') /\ open_reader w name f' (drop n c).
Proof.
  intros Hw [E Hr]. destruct f as [w' r]. cbn [fst snd] in *. subst w'. cbn [file_read env_sequential fst snd].
  destruct (env_read w r name c n Hw Hr) as (r' & -> & Hr'). eexists. by split.
Qed.

Lemma fragments_some d prs : fragments d prs -> (0 < length prs)%nat.
Proof. intros []; cbn; lia. Qed.

(** A record read through the environment, and the end of the file. *)
Lemma read_end w name fuel v (r : Reader bytes) bo : env_ok w -> reader_at r bo [] -> same_reader (open_reader w name) v r ->
  0 <= last_record_offset_ r -> exists v', ReadRecord (S fuel) v = Ret (None, v') /\ reports_ v' = reports_ v.
Proof.
  intros Hw Hat Hsim Hlast.
  assert (exists r', ReadRecord (S fuel) r = Ret (None, r') /\ reports_ r' = reports_ r) as (r' & Er & Hr').
  { unfold ReadRecord. rewrite (at_initial _ _ _ Hat), decide_False by lia. cbn [read_record_loop].
    destruct (ReadPhysicalRecord_end r bo [] Hat) as (r' & -> & Hr'). cbn [mbind res_bind].
    rewrite !decide_False, decide_True by done. by exists r'. }
  pose proof Hsim as (_ & _ & _ & _ & _ & _ & _ & Hrep).
  destruct (ReadRecord_any (open_reader w name) (fun f c n => open_reader_read w name f c n Hw) _ _ _ _ _ Hsim (at_initial _ _ _ Hat) Hlast Er)
    as (v' & Ev & Hsim'). pose proof Hsim' as (_ & _ & _ & _ & _ & _ & _ & Hrep'). exists v'. split; [done|]. by rewrite Hrep', Hr', Hrep.
Qed.

Lemma read_one w name d prs fuel v (r : Reader bytes) bo ps raw bo' : env_ok w -> fragments d prs -> stream bo (prs ++ ps) raw bo' ->
  reader_at r bo raw -> same_reader (open_reader w name) v r -> (length prs <= fuel)%nat -> 0 <= last_record_offset_ r ->
  exists v' r' bo1 raw1, ReadRecord fuel v = Ret (Some d, v') /\ reports_ v' = reports_ v /\ same_reader (open_reader w name) v' r'
  /\ 0 <= last_record_offset_ r' /\ stream bo1 ps raw1 bo' /\ reader_at r' bo1 raw1.
Proof.
  intros Hw Hfr Hs Hat Hsim Hf Hlast.
  destruct (ReadRecord_fragments d prs fuel r bo ps raw bo' [] Hfr Hs) as (r1 & bo1 & raw1 & Er & Hl1 & Hr1 & Hs1 & Hat1);
    [by rewrite app_nil_r|done|done|]. rewrite app_nil_r in Hat1.
  pose proof Hsim as (_ & _ & _ & _ & _ & _ & _ & Hrep).
  destruct (ReadRecord_any (open_reader w name) (fun f c n => open_reader_read w name f c n Hw) _ _ _ _ _ Hsim (at_initial _ _ _ Hat) Hlast Er)
    as (v' & Ev & Hsim'). pose proof Hsim' as (_ & _ & _ & _ & _ & _ & _ & Hrep').
  exists v', r1, bo1, raw1. split; [done|]. split; [by rewrite Hrep', Hr1, Hrep|done].
Qed.

Lemma nothing_reported reports : reported Status.OK (length reports) reports = Status.OK.
Proof. unfold reported. cbn [Status.ok Status.OK]. by rewrite Nat.sub_diag. Qed.

Lemma recover_loop_spec w name es : env_ok w -> forall prss fuel v (r : Reader bytes) bo raw bo' pointers b f pointers' b',
  Forall2 fragments (map enc es) prss -> stream bo (concat prss) raw bo' -> reader_at r bo raw ->
  same_reader (open_reader w name) v r -> (length (concat prss) + 1 < fuel)%nat -> 0 <= last_record_offset_ r ->
  Forall loggable es -> apply_edits pointers b es = Ret (pointers', b') ->
  recover_loop fuel v Status.OK pointers b f = Ret (Status.OK, pointers', b', fold_left found es f).
Proof.
  intros Hw. induction es as [|e es IH]; intros prss fuel v r bo raw bo' pointers b f pointers' b' HF Hs Hat Hsim Hfu Hlast Hes E.
  - apply Forall2_nil_inv_l in HF as ->. inversion Hs; subst. destruct fuel as [|fuel]; [cbn in Hfu; lia|]. cbn [recover_loop].
    destruct (read_end w name fuel v r bo' Hw Hat Hsim Hlast) as (v' & -> & Hrep). cbn [mbind res_bind]. rewrite Hrep, nothing_reported.
    cbn [apply_edits] in E. by injection E as <- <-.
  - apply Forall2_cons_inv_l in HF as (prs & prss' & Hfr & HF & ->). cbn [concat] in Hs, Hfu. rewrite length_app in Hfu.
    pose proof (fragments_some _ _ Hfr) as Hpos. destruct fuel as [|fuel]; [lia|]. cbn [recover_loop].
    apply Forall_cons_1 in Hes as [He Hes].
    destruct (read_one w name (enc e) prs (S fuel) v r bo (concat prss') raw bo' Hw Hfr Hs Hat Hsim) as (v' & r1 & bo1 & raw1 & -> & Hrep & Hsim' & Hl1 & Hs1 & Hat1);
      [lia|done|].
    cbn [mbind res_bind]. rewrite Hrep, nothing_reported.
    cbn [Status.ok Status.OK negb]. unfold enc. rewrite Decode_Encode by apply He. cbn [new_VersionEdit Clear compact_pointers_ app].
    rewrite with_files_same. cbn [mbind res_bind]. rewrite check_comparator_ok by done. cbn [Status.ok Status.OK].
    cbn [apply_edits] in E. apply res_bind_Ret in E as ([p1 b1] & -> & E). cbn [mbind res_bind fold_left].
    apply (IH prss' fuel v' r1 bo1 raw1 bo'); [done..|lia|done|done|done].
Qed.
End reading.

(** ** What the records say *)

(** What was logged last: the version, the numbers and the pointers. *)
Record Durable := mkDurable {
  d_current : Version;
  d_log_number : Z;
  d_prev_log_number : Z;
  d_next_file : Z;
  d_last_sequence : Z;
  d_pointers : list bytes;
}.
Definition durable {Wf} (vs : VersionSet Wf) : Durable :=
  mkDurable (vs_current_ vs) (vs_log_number_ vs) (vs_prev_log_number_ vs) (vs_next_file_number_ vs)
    (vs_last_sequence_ vs) (vs_compact_pointer_ vs).

(** The version set that recovers it. *)
Definition recovered {Wf} (D : Durable) : VersionSet Wf :=
  mkVersionSet (u64 (d_next_file D + 1)) (d_next_file D) (d_last_sequence D) (d_log_number D) (d_prev_log_number D) None
    (d_current D) (d_pointers D).

Definition pointers0 : list bytes := replicate (Z.to_nat config.kNumLevels) [].

Lemma new_sorted `{Comparator} : version_sorted new_Version.
Proof. split; [done|]. intros level _. rewrite level_files_new. split; constructor. Qed.

(** The level and the number of a file, which are used once in a database. *)
Definition file_key (p : Z * FileMetaData) : Z * Z := (p.1, number p.2).

Section history.
Context `{Comparator} `{ComparatorName}.

Record history (es : list VersionEdit) (D : Durable) (U : list (Z * Z)) : Prop := {
  h_loggable : Forall loggable es;
  h_ok : Forall edit_ok es;
  h_fresh : fresh_adds new_Version es;
  h_used level n : is_level level -> n ∈ map number (concat (map (edit_adds level) es)) -> (level, n) ∈ U;
  h_numbers : exists p, fold_left found es nothing_found
    = mkFound (Some (d_log_number D)) p (Some (d_next_file D)) (Some (d_last_sequence D)) /\ default 0 p = d_prev_log_number D;
  h_pointers : fold_left edit_pointers es pointers0 = d_pointers D;
  h_files level : is_level level -> level_files (d_current D) level ≡ₚ fold_left (level_edit level) es [];
  h_sorted : version_sorted (d_current D);
  h_final : d_current D = Finalize (with_files_ new_Version (files_ (d_current D)));
}.

Lemma Finalize_files v : files_ (Finalize v) = files_ v.
Proof. unfold Finalize. by destruct (finalize_loop _ _ _ _ _). Qed.

Lemma Finalize_level_files v level : level_files (Finalize v) level = level_files v level.
Proof. unfold level_files. by rewrite Finalize_files. Qed.

Lemma Finalize_sorted v : version_sorted v -> version_sorted (Finalize v).
Proof. intros [Hl Hv]. split; [by rewrite Finalize_files|]. intros level Hlv. rewrite Finalize_level_files. auto. Qed.

Lemma edit_pointers_length e pointers : length (edit_pointers pointers e) = length pointers.
Proof. unfold edit_pointers. revert pointers. induction (compact_pointers_ e) as [|p l IH]; intros ps; [done|]. cbn [fold_left]. by rewrite IH, length_insert. Qed.

Lemma edits_pointers_length es pointers : length (fold_left edit_pointers es pointers) = length pointers.
Proof. revert pointers. induction es as [|e es IH]; intros ps; [done|]. cbn [fold_left]. by rewrite IH, edit_pointers_length. Qed.

(** The builder of [Recover] saves the version. *)
Lemma history_saves es D U : history es D U -> exists b,
  apply_edits pointers0 (new_Builder new_Version) es = Ret (d_pointers D, b)
  /\ SaveTo b new_Version = Ret (with_files_ new_Version (files_ (d_current D))).
Proof.
  intros Hh. destruct (builder_save new_Version pointers0 es new_sorted (h_ok _ _ _ Hh) (h_fresh _ _ _ Hh) eq_refl)
    as (b & fl & E & Es & Hs & Hp).
  exists b. rewrite E, (h_pointers _ _ _ Hh). split; [done|]. rewrite Es. do 2 f_equal.
  apply (same_levels (with_files_ new_Version fl) (d_current D)); [done|apply (h_sorted _ _ _ Hh)|].
  intros level Hl. rewrite Hp, (h_files _ _ _ Hh) by done. by rewrite level_files_new.
Qed.

(** *** The files logged *)

Definition stored (f : FileMetaData) : Prop :=
  added_file f = f /\ is_u64 (number f) /\ is_u64 (file_size f) /\ is_slice (smallest f) /\ is_slice (largest f).

Lemma edit_adds_stored level e : typed e -> Forall stored (edit_adds level e).
Proof.
  intros He. unfold edit_adds. pose proof (t_files _ He) as Hf. induction Hf as [|p l [_ Hp] _ IH]; [constructor|]. cbn [map concat].
  apply Forall_app. split; [|done]. unfold adds. case_decide; [|constructor]. constructor; [|constructor].
  split; [done|]. cbn. unfold file_typed in Hp. tauto.
Qed.

Lemma level_edits_stored level es : forall fs, Forall loggable es -> Forall stored fs -> Forall stored (fold_left (level_edit level) es fs).
Proof.
  induction es as [|e es IH]; intros fs Hes Hfs; [done|]. apply Forall_cons_1 in Hes as [[He _] Hes]. cbn [fold_left]. apply IH; [done|].
  unfold level_edit. apply Forall_app. split; [by apply Forall_filter|by apply edit_adds_stored].
Qed.

Lemma history_stored es D U level : history es D U -> is_level level -> Forall stored (level_files (d_current D) level).
Proof.
  intros Hh Hl. eapply Forall_perm; [symmetry; by apply (h_files _ _ _ Hh)|]. apply level_edits_stored; [apply Hh|constructor].
Qed.

Lemma edits_pointers_slices es : forall ps, Forall loggable es -> Forall is_slice ps -> Forall is_slice (fold_left edit_pointers es ps).
Proof.
  induction es as [|e es IH]; intros ps Hes Hps; [done|]. apply Forall_cons_1 in Hes as [[He _] Hes]. cbn [fold_left]. apply IH; [done|].
  unfold edit_pointers. pose proof (t_pointers _ He) as Hp. revert ps Hps. induction Hp as [|p l [_ Hp] _ IHl]; intros ps Hps; [done|].
  cbn [fold_left]. apply IHl. by apply Forall_insert.
Qed.

(** A file of the version is one that some edit added. *)
Lemma level_edits_sublist level es : forall fs, sublist (fold_left (level_edit level) es fs) (fs ++ concat (map (edit_adds level) es)).
Proof.
  induction es as [|e es IH]; intros fs; [by rewrite app_nil_r|]. cbn [fold_left map concat].
  etransitivity; [apply IH|]. unfold level_edit. rewrite app_assoc. apply sublist_app; [|done].
  apply sublist_app; [apply sublist_filter|done].
Qed.

Lemma history_used es D U level f : history es D U -> is_level level -> f ∈ level_files (d_current D) level -> (level, number f) ∈ U.
Proof.
  intros Hh Hl Hf. rewrite (h_files _ _ _ Hh) in Hf by done. apply (h_used _ _ _ Hh); [done|]. apply list_elem_of_fmap_2.
  eapply elem_of_sublist; [exact Hf|]. apply (level_edits_sublist level es []).
Qed.

Lemma history_numbers_nodup es D U level : history es D U -> is_level level -> NoDup (map number (level_files (d_current D) level)).
Proof.
  intros Hh Hl. rewrite (h_files _ _ _ Hh) by done. pose proof (h_fresh _ _ _ Hh level Hl) as Hf. rewrite level_files_new in Hf. cbn [app] in Hf.
  apply (sublist_NoDup _ _ Hf). apply (fmap_sublist number). apply (level_edits_sublist level es []).
Qed.

(** *** One more record *)

(** An edit that the database logs: its files are new to their levels. *)
Record good_edit (U : list (Z * Z)) (e : VersionEdit) : Prop := {
  ge_typed : typed e;
  ge_comparator : has_comparator_ e = true -> comparator_ e = comparator_name;
  ge_valid : Forall (fun p => file_valid p.2) (new_files_ e);
  ge_new : Forall (fun p => file_key p ∉ U) (new_files_ e);
  ge_once : NoDup (map file_key (new_files_ e));
}.

Lemma good_edit_ok U e : good_edit U e -> edit_ok e.
Proof.
  intros [He _ Hv _ _]. split.
  - eapply list.Forall_impl; [apply (t_pointers _ He)|]. by intros p [].
  - eapply list.Forall_impl; [apply (t_deleted _ He)|]. by intros p [].
  - pose proof (t_files _ He) as Hf. rewrite Forall_forall in Hf, Hv. apply Forall_forall. intros p Hp.
    split; [by destruct (Hf p Hp)|auto].
Qed.

Lemma edit_adds_elem level e n : n ∈ map number (edit_adds level e) <-> (level, n) ∈ map file_key (new_files_ e).
Proof.
  unfold edit_adds. induction (new_files_ e) as [|p l IH]; cbn [map concat]; [by rewrite !elem_of_nil|].
  rewrite map_app, elem_of_app, IH, elem_of_cons. f_equiv. unfold adds, file_key. case_decide as Hp; cbn.
  - rewrite list_elem_of_singleton. subst level. split; [by intros ->|by intros [= ->]].
  - rewrite elem_of_nil. split; [done|]. intros [= E _]. by symmetry in E.
Qed.

Lemma edit_adds_once level l : NoDup (map file_key l) -> NoDup (map number (concat (map (adds level) l))).
Proof.
  induction l as [|p l IH]; cbn [map concat]; [constructor|]. intros [Hp Hl]%list.NoDup_cons. rewrite map_app. apply list.NoDup_app.
  split; [unfold adds; case_decide; cbn; [by apply NoDup_singleton|constructor]|]. split; [|by apply IH].
  intros n Hn Hin. apply Hp. unfold adds in Hn. case_decide as Hlv; [|by apply elem_of_nil in Hn].
  apply list_elem_of_singleton in Hn as ->. cbn [number added_file] in Hin.
  pose proof (edit_adds_elem level (with_files new_VersionEdit [] [] l) (number p.2)) as He. unfold edit_adds in He.
  cbn [new_files_ with_files] in He. apply He in Hin. unfold file_key at 1. by rewrite Hlv.
Qed.

Lemma fresh_new U e level fs : good_edit U e -> NoDup (map number fs) -> (forall f, f ∈ fs -> (level, number f) ∈ U) ->
  NoDup (map number (fs ++ edit_adds level e)).
Proof.
  intros Hg Hn HU. rewrite map_app. apply list.NoDup_app. split; [done|]. split; [|apply edit_adds_once, (ge_once _ _ Hg)].
  intros n (f & -> & Hf)%list_elem_of_fmap Hin%edit_adds_elem. apply list_elem_of_fmap in Hin as (p & Ep & Hp).
  pose proof (ge_new _ _ Hg) as Hnew. rewrite Forall_forall in Hnew. apply list_elem_of_In in Hp. apply (Hnew p Hp). rewrite <- Ep. auto.
Qed.

Definition used (U : list (Z * Z)) (e : VersionEdit) : list (Z * Z) := U ++ map file_key (new_files_ e).

(** The version after an edit that was logged after [es]. *)
Lemma history_step es D U e fl : history es D U -> good_edit U e ->
  has_log_number_ e = true -> has_prev_log_number_ e = true -> has_next_file_number_ e = true -> has_last_sequence_ e = true ->
  version_sorted (with_files_ new_Version fl) ->
  (forall level, is_level level -> level_files (with_files_ new_Version fl) level ≡ₚ level_edit level (level_files (d_current D) level) e) ->
  history (es ++ [e]) (mkDurable (Finalize (with_files_ new_Version fl)) (log_number_ e) (prev_log_number_ e)
    (next_file_number_ e) (last_sequence_ e) (edit_pointers (d_pointers D) e)) (used U e).
Proof.
  intros Hh Hg H1 H2 H3 H4 Hs Hp. split; cbn [d_current d_log_number d_prev_log_number d_next_file d_last_sequence d_pointers].
  - apply Forall_snoc; [apply Hh|]. split; apply Hg.
  - apply Forall_snoc; [apply Hh|]. by eapply good_edit_ok.
  - intros level Hl. rewrite level_files_new. cbn [app]. rewrite (map_app (edit_adds level)), concat_app. cbn [map concat]. rewrite app_nil_r.
    apply (fresh_new U e level); [done| |].
    + pose proof (h_fresh _ _ _ Hh level Hl) as Hf. by rewrite level_files_new in Hf.
    + intros f Hf. apply (h_used _ _ _ Hh); [done|]. by apply list_elem_of_fmap_2.
  - intros level n Hl. rewrite (map_app (edit_adds level)), concat_app, map_app, elem_of_app. cbn [map concat]. rewrite app_nil_r. unfold used. rewrite elem_of_app.
    intros [Hn|Hn]; [left; by apply (h_used _ _ _ Hh)|right; by apply edit_adds_elem].
  - rewrite fold_left_app. cbn [fold_left]. unfold found at 1. rewrite H1, H2, H3, H4. eexists. split; [done|]. done.
  - rewrite fold_left_app. cbn [fold_left]. by rewrite (h_pointers _ _ _ Hh).
  - intros level Hl. rewrite Finalize_level_files, Hp, fold_left_app by done. cbn [fold_left].
    apply level_edit_perm. by apply (h_files _ _ _ Hh).
  - by apply Finalize_sorted.
  - by rewrite Finalize_files.
Qed.
End history.

(** ** The snapshot that a new descriptor begins with *)

Section snapshot.
Context `{Comparator} `{ComparatorName} (Hname : is_slice comparator_name).

Definition plain_file (f : FileMetaData) : FileMetaData :=
  mkFileMetaData 0 (Z.shiftl 1 30) (number f) (file_size f) (smallest f) (largest f).

Lemma snapshot_files_new level fs e : new_files_ (snapshot_files level fs e) = new_files_ e ++ map (fun f => (level, plain_file f)) fs.
Proof.
  unfold snapshot_files. revert e. induction fs as [|f fs IH]; intros e; cbn [fold_left map]; [by rewrite app_nil_r|].
  rewrite IH. cbn [AddFile with_files new_files_]. by rewrite <- app_assoc.
Qed.

Lemma concat_adds level k fs : Forall stored fs ->
  concat (map (adds level) (map (fun f => (k, plain_file f)) fs)) = if decide (k = level) then fs else [].
Proof.
  induction 1 as [|f fs [Hf _] _ IH]; [by case_decide|]. cbn [map concat]. rewrite IH. unfold adds. cbn [fst snd].
  case_decide; [|done]. cbn [app]. f_equal. exact Hf.
Qed.

Lemma snapshot_levels_adds fl : forall k e level, 0 <= k -> Forall (Forall stored) fl ->
  edit_adds level (snapshot_levels fl k e) = edit_adds level e ++ (if decide (k <= level) then nth (Z.to_nat (level - k)) fl [] else []).
Proof.
  induction fl as [|fs fl IH]; intros k e level Hk Hfl; cbn [snapshot_levels].
  - case_decide; rewrite ?app_nil_r; [|done]. destruct (Z.to_nat _); by rewrite app_nil_r.
  - apply Forall_cons_1 in Hfl as [Hfs Hfl]. rewrite IH by (done || lia). unfold edit_adds at 1. rewrite snapshot_files_new, map_app, concat_app.
    rewrite concat_adds by done. fold (edit_adds level e). rewrite <- app_assoc. f_equal. destruct (decide (k = level)) as [->|Hne].
    + rewrite decide_False, decide_True by lia. by rewrite Z.sub_diag, app_nil_r.
    + destruct (decide (k <= level)) as [Hl|Hl]; [rewrite decide_True by lia|by rewrite decide_False by lia].
      replace (Z.to_nat (level - k)) with (S (Z.to_nat (level - (k + 1)))) by lia. done.
Qed.

(** What a step of the snapshot leaves. *)
Definition same_head (e e' : VersionEdit) : Prop :=
  comparator_ e' = comparator_ e /\ has_comparator_ e' = has_comparator_ e /\ has_log_number_ e' = has_log_number_ e
  /\ has_prev_log_number_ e' = has_prev_log_number_ e /\ has_next_file_number_ e' = has_next_file_number_ e
  /\ has_last_sequence_ e' = has_last_sequence_ e /\ deleted_files_ e' = deleted_files_ e.

Lemma same_head_refl e : same_head e e.
Proof. by repeat split. Qed.

Lemma snapshot_files_rest level fs : is_level level -> Forall stored fs -> forall e, typed e ->
  typed (snapshot_files level fs e) /\ compact_pointers_ (snapshot_files level fs e) = compact_pointers_ e
  /\ same_head e (snapshot_files level fs e).
Proof.
  intros Hl. unfold snapshot_files. induction 1 as [|f fs Hf _ IH]; intros e He; [split_and!; [done|done|apply same_head_refl]|]. cbn [fold_left].
  destruct Hf as (_ & Hn & Hsz & Hs & Hg). destruct (IH (AddFile e level (number f) (file_size f) (smallest f) (largest f))) as (Ht & Hc & Hh);
    [by apply AddFile_typed|]. split; [done|]. split; [exact Hc|exact Hh].
Qed.

Lemma snapshot_levels_rest fl : forall k, 0 <= k -> k + Z.of_nat (length fl) <= config.kNumLevels -> Forall (Forall stored) fl ->
  forall e, typed e -> typed (snapshot_levels fl k e) /\ compact_pointers_ (snapshot_levels fl k e) = compact_pointers_ e
  /\ same_head e (snapshot_levels fl k e).
Proof.
  induction fl as [|fs fl IH]; intros k Hk Hlen Hfl e He; [split_and!; [done|done|apply same_head_refl]|]. cbn [snapshot_levels length] in *.
  apply Forall_cons_1 in Hfl as [Hfs Hfl]. destruct (snapshot_files_rest k fs ltac:(unfold is_level; lia) Hfs e He) as (Ht & Hc & Hh).
  destruct (IH (k + 1) ltac:(lia) ltac:(lia) Hfl _ Ht) as (Ht' & Hc' & Hh'). split; [done|]. split; [by rewrite Hc'|].
  unfold same_head in *. destruct Hh as (? & ? & ? & ? & ? & ? & ?), Hh' as (? & ? & ? & ? & ? & ? & ?). split_and!; congruence.
Qed.

Lemma snapshot_pointers_spec l : forall pre k e, k = Z.of_nat (length pre) -> Z.of_nat (length (pre ++ l)) <= config.kNumLevels ->
  Forall is_slice l -> typed e ->
  typed (snapshot_pointers l k e) /\ new_files_ (snapshot_pointers l k e) = new_files_ e /\ same_head e (snapshot_pointers l k e)
  /\ exists ps, compact_pointers_ (snapshot_pointers l k e) = compact_pointers_ e ++ ps
     /\ fold_left (fun ps p => <[Z.to_nat p.1 := p.2]> ps) ps (pre ++ replicate (length l) []) = pre ++ l.
Proof.
  induction l as [|p l IH]; intros pre k e Hk Hlen Hl He; cbn [snapshot_pointers].
  { split; [done|]. split; [done|]. split; [by repeat split|]. exists []. by rewrite app_nil_r. }
  apply Forall_cons_1 in Hl as [Hp Hl]. rewrite length_app in Hlen. cbn [length] in Hlen.
  assert (Hk' : k + 1 = Z.of_nat (length (pre ++ [p]))) by (rewrite length_app; cbn; lia).
  assert (Hlen' : Z.of_nat (length ((pre ++ [p]) ++ l)) <= config.kNumLevels) by (rewrite !length_app; cbn; lia).
  case_decide as Ep.
  - destruct (IH (pre ++ [p]) (k + 1) e Hk' Hlen' Hl He) as (Ht & Hn & Hh & ps & Hc & Hf). split; [done|]. split; [done|]. split; [done|].
    exists ps. split; [done|]. subst p. cbn [length replicate]. rewrite <- !app_assoc in Hf. exact Hf.
  - change (InternalKey_DecodeFrom p) with p. destruct (IH (pre ++ [p]) (k + 1) (SetCompactPointer e k p) Hk' Hlen' Hl) as (Ht & Hn & Hh & ps & Hc & Hf).
    { apply SetCompactPointer_typed; [done|unfold is_level; lia|done]. }
    split; [done|]. split; [done|]. split; [exact Hh|]. exists ((k, p) :: ps). split; [rewrite Hc; cbn; by rewrite <- app_assoc|].
    cbn [fold_left fst snd length replicate]. rewrite Hk, Nat2Z.id, insert_app_r_alt, Nat.sub_diag by lia. cbn [insert list_insert].
    rewrite <- !app_assoc in Hf. exact Hf.
Qed.

(** The snapshot, as an edit to nothing. *)
Lemma snapshot_edit_spec {Wf} (vs : VersionSet Wf) : length (files_ (vs_current_ vs)) = Z.to_nat config.kNumLevels ->
  (forall level, is_level level -> Forall stored (level_files (vs_current_ vs) level)) ->
  Forall is_slice (vs_compact_pointer_ vs) -> length (vs_compact_pointer_ vs) = Z.to_nat config.kNumLevels ->
  let e := snapshot_edit vs in
  loggable e /\ deleted_files_ e = [] /\ edit_pointers pointers0 e = vs_compact_pointer_ vs /\ found nothing_found e = nothing_found
  /\ forall level, is_level level -> edit_adds level e = level_files (vs_current_ vs) level.
Proof.
  intros Hlen Hst Hp Hpl e. unfold e, snapshot_edit. set (e0 := SetComparatorName new_VersionEdit comparator_name).
  assert (typed e0) as He0 by (apply SetComparatorName_typed; [apply new_typed|done]).
  destruct (snapshot_pointers_spec (vs_compact_pointer_ vs) [] 0 e0) as (Ht1 & Hn1 & Hh1 & ps & Hc1 & Hf1); [done|cbn [app]; rewrite Hpl; done|done|done|].
  set (e1 := snapshot_pointers _ 0 e0) in *.
  assert (Forall (Forall stored) (files_ (vs_current_ vs))) as Hfl.
  { apply Forall_lookup_2. intros i fs Ei. apply lookup_lt_Some in Ei as Hi. rewrite Hlen in Hi.
    specialize (Hst (Z.of_nat i) ltac:(unfold is_level; lia)). unfold level_files in Hst. rewrite Nat2Z.id in Hst.
    by rewrite (nth_lookup_Some _ _ _ _ Ei) in Hst. }
  destruct (snapshot_levels_rest (files_ (vs_current_ vs)) 0 ltac:(lia) ltac:(rewrite Hlen; done) Hfl e1 Ht1) as (Ht2 & Hc2 & Hh2).
  unfold same_head in Hh1, Hh2. destruct Hh1 as (? & ? & ? & ? & ? & ? & ?), Hh2 as (? & ? & ? & ? & ? & ? & ?).
  set (e2 := snapshot_levels _ 0 e1) in *.
  split; [split; [done|intros _; by transitivity (comparator_ e1); [|transitivity (comparator_ e0)]]|].
  split; [by transitivity (deleted_files_ e1); [|transitivity (deleted_files_ e0)]|]. split; [|split].
  - unfold edit_pointers. rewrite Hc2, Hc1. cbn [compact_pointers_ e0 SetComparatorName new_VersionEdit Clear app].
    cbn [app] in Hf1. rewrite Hpl in Hf1. exact Hf1.
  - unfold found, nothing_found. repeat match goal with |- context [if ?b then _ else _] => assert (b = false) as -> by (by etransitivity; [eassumption|]; etransitivity; [eassumption|]) end.
    done.
  - intros level Hl. unfold e2. rewrite snapshot_levels_adds by done. unfold edit_adds at 1. rewrite Hn1.
    cbn [new_files_ e0 SetComparatorName new_VersionEdit Clear map concat app]. unfold is_level in Hl. rewrite decide_True by lia.
    by rewrite Z.sub_0_r.
Qed.

(** Setting the pointers of an edit once more changes nothing. *)
Lemma pointers_again l : forall ps qs : list bytes, length ps = length qs ->
  (forall i, ps !! i = qs !! i \/ exists p : Z * bytes, p ∈ l /\ Z.to_nat p.1 = i) ->
  fold_left (fun ps p => <[Z.to_nat p.1 := p.2]> ps) l ps = fold_left (fun ps p => <[Z.to_nat p.1 := p.2]> ps) l qs.
Proof.
  induction l as [|p l IH]; intros ps qs Hlen Hi; cbn [fold_left].
  - apply list_eq. intros i. destruct (Hi i) as [?|(p & Hp & _)]; [done|by apply elem_of_nil in Hp].
  - apply IH; [by rewrite !length_insert|]. intros i. destruct (decide (i = Z.to_nat p.1)) as [->|Hne].
    + left. destruct (decide (Z.to_nat p.1 < length ps)%nat); [by rewrite !list_lookup_insert_eq by lia|].
      by rewrite !lookup_ge_None_2 by (rewrite length_insert; lia).
    + rewrite !list_lookup_insert_ne by done. destruct (Hi i) as [?|(q & [->|Hq]%elem_of_cons & Eq)]; [by left|done|right; eauto].
Qed.

Lemma edit_pointers_twice ps e : edit_pointers (edit_pointers ps e) e = edit_pointers ps e.
Proof.
  apply pointers_again; [by rewrite edit_pointers_length|]. intros i. unfold edit_pointers.
  generalize ps. induction (compact_pointers_ e) as [|p l IH]; intros qs; [by left|]. cbn [fold_left].
  destruct (IH (<[Z.to_nat p.1 := p.2]> qs)) as [E|(q & Hq & Eq)]; [|right; exists q; split; [by right|done]].
  destruct (decide (i = Z.to_nat p.1)) as [->|Hne]; [right; exists p; split; [left|done]|]. left.
  by rewrite E, list_lookup_insert_ne.
Qed.
End snapshot.

(** ** A run of version sets *)

Section sessions.
Context `{Comparator} `{ComparatorName} `{Address} {W Wf Sf : Type} `{!Env W Wf Sf} `{!EnvSpec W Wf Sf}.
Context (Hname : is_slice comparator_name) (dbname : bytes).
Abbreviation VSet := (VersionSet Wf).
Abbreviation current := (CurrentFileName dbname).
Abbreviation descriptor := (DescriptorFileName dbname).

(** CURRENT names the descriptor of number [n], which holds [records]. *)
Definition on_disk (w : W) (n : Z) (records : list bytes) : Prop :=
  0 <= n <= kMaxUint64 /\ contents w !! current = Some (current_text n)
  /\ exists raw prss bo, contents w !! descriptor n = Some raw /\ stream 0 (concat prss) raw bo /\ Forall2 fragments records prss.

Record inv (w : W) (vs : VSet) (D : Durable) (U : list (Z * Z)) (n : Z) (es : list VersionEdit) : Prop := {
  i_ok : env_ok w;
  i_disk : on_disk w n (map enc es);
  i_history : history es D U;
  i_current : vs_current_ vs = d_current D;
  i_log : vs_log_number_ vs = d_log_number D;
  i_prev : vs_prev_log_number_ vs = d_prev_log_number D;
  i_pointers : vs_compact_pointer_ vs = d_pointers D;
  i_next64 : is_u64 (vs_next_file_number_ vs);
  i_manifest64 : is_u64 (vs_manifest_file_number_ vs);
  i_last64 : is_u64 (vs_last_sequence_ vs);
  i_log64 : is_u64 (vs_log_number_ vs);
  i_prev64 : is_u64 (vs_prev_log_number_ vs);
  i_next_d : is_u64 (d_next_file D);
  i_last_d : is_u64 (d_last_sequence D);
  i_descriptor : match vs_descriptor_log_ vs with
    | Some log => exists raw, log_good w log (descriptor n) raw (map enc es)
    | None => True
    end;
  i_manifest : vs_descriptor_log_ vs <> None -> n = vs_manifest_file_number_ vs;
}.

Lemma current_not_descriptor n : 0 <= n <= kMaxUint64 -> current <> descriptor n.
Proof. unfold CurrentFileName, DescriptorFileName. intros _ E%name_suffix.
  apply (f_equal (fun l : bytes => l !! 1%nat)) in E. change (Some (zb 67) = Some (zb 77)) in E. discriminate E.
Qed.

Lemma temp_not_descriptor n m : 0 <= n <= kMaxUint64 -> TempFileName dbname n <> descriptor m.
Proof.
  intros Hn. unfold TempFileName, DescriptorFileName. rewrite MakeFileName_eq by (done || cbn; lia). intros E%name_suffix.
  destruct (pad6_digits n Hn) as (Hne & Hd & _). destruct (pad6 n) as [|x l]; [done|]. apply Forall_cons_1 in Hd as [Hd _].
  apply (f_equal (fun l : bytes => l !! 1%nat)) in E. change (Some x = Some (zb 77)) in E. injection E as ->.
  vm_compute in Hd. discriminate Hd.
Qed.

Lemma u64_bounds n : is_u64 n -> 0 <= n <= kMaxUint64.
Proof. unfold is_u64, kMaxUint64. lia. Qed.

(** *** [Recover] *)

Lemma Recover_spec w n es D U : env_ok w -> on_disk w n (map enc es) -> history es D U ->
  exists k, forall fuel, (k <= fuel)%nat -> Recover fuel w new_VersionSet dbname = Ret (Status.OK, recovered D).
Proof.
  intros Hw (Hn & Hcur & raw & prss & bo & Hraw & Hs & HF) Hh. exists (length (current_text n) + length raw + 2)%nat. intros fuel Hf.
  unfold Recover. rewrite (ReadFileToString_spec _ _ _ _ Hw Hcur) by lia. cbn [mbind res_bind Status.ok Status.OK negb].
  assert (exists text, current_text n = text ++ [zb 10] /\ dbname ++ lit "/" ++ text = descriptor n) as (text & Et & Ed).
  { eexists. split; [done|]. unfold DescriptorFileName. f_equal. }
  rewrite Et, decide_False by (rewrite last_snoc; intros [E|E]; [by destruct text|done]).
  rewrite length_app. cbn [length]. rewrite Nat.add_sub, take_app_length, Ed.
  destruct (env_open w _ _ Hw Hraw) as (r & -> & Hr). cbn [mbind res_bind Status.ok Status.OK negb of_option].
  destruct (history_saves es D U Hh) as (b & Eb & Es).
  pose proof (stream_length _ _ _ _ Hs) as Hl. destruct (stream_from_start _ _ _ Hs) as [bo'' Hs'].
  rewrite (recover_loop_spec w (descriptor n) es Hw prss fuel (new_Reader (w, r) true 0) (new_Reader raw true 0) kBlockSize raw bo''
    _ _ _ (d_pointers D) b); [|done|done|apply new_Reader_at|by apply new_Reader_any|lia|done|apply Hh|done].
  destruct (h_numbers _ _ _ Hh) as (p & -> & Ep). cbn [mbind res_bind Status.ok Status.OK negb missing_number next_file log_number last_sequence].
  rewrite Es. cbn [mbind res_bind]. do 2 f_equal. rewrite <- (h_final _ _ _ Hh). unfold install, recovered.
  cbn [next_file prev_log_number log_number last_sequence default]. rewrite Ep.
  unfold MarkFileNumberUsed. destruct (_ <=? _), (_ <=? _); done.
Qed.

Lemma Recover_inv w vs D U n es : inv w vs D U n es -> inv w (recovered D) D U n es.
Proof.
  intros Hi. pose proof (i_history _ _ _ _ _ _ Hi) as Hh. split; try done; try apply Hi; cbn [recovered vs_next_file_number_ vs_log_number_ vs_prev_log_number_].
  - apply u64_range.
  - rewrite <- (i_log _ _ _ _ _ _ Hi). apply Hi.
  - rewrite <- (i_prev _ _ _ _ _ _ Hi). apply Hi.
Qed.

(** *** [LogAndApply] *)

Lemma complete_edit_good U (vs : VSet) e : good_edit U e -> is_u64 (vs_log_number_ vs) -> is_u64 (vs_prev_log_number_ vs) ->
  is_u64 (vs_next_file_number_ vs) -> is_u64 (vs_last_sequence_ vs) ->
  let e' := complete_edit vs e in good_edit U e' /\ new_files_ e' = new_files_ e /\ deleted_files_ e' = deleted_files_ e
  /\ has_log_number_ e' = true /\ has_prev_log_number_ e' = true /\ has_next_file_number_ e' = true /\ has_last_sequence_ e' = true
  /\ next_file_number_ e' = vs_next_file_number_ vs /\ last_sequence_ e' = vs_last_sequence_ vs.
Proof.
  intros [Ht Hc Hv Hn Ho] L1 L2 L3 L4 e'. unfold e', complete_edit.
  set (e1 := if has_log_number_ e then e else SetLogNumber e (vs_log_number_ vs)).
  assert (typed e1 /\ has_log_number_ e1 = true /\ has_comparator_ e1 = has_comparator_ e /\ comparator_ e1 = comparator_ e
    /\ new_files_ e1 = new_files_ e /\ deleted_files_ e1 = deleted_files_ e) as (Ht1 & ? & ? & ? & ? & ?).
  { unfold e1. destruct (has_log_number_ e) eqn:E; [by repeat (split; [done|])|]. split; [by apply SetLogNumber_typed|done]. }
  clearbody e1. set (e2 := if has_prev_log_number_ e1 then e1 else SetPrevLogNumber e1 (vs_prev_log_number_ vs)).
  assert (typed e2 /\ has_log_number_ e2 = true /\ has_prev_log_number_ e2 = true /\ has_comparator_ e2 = has_comparator_ e
    /\ comparator_ e2 = comparator_ e /\ new_files_ e2 = new_files_ e /\ deleted_files_ e2 = deleted_files_ e) as (Ht2 & ? & ? & ? & ? & Hn2 & ?).
  { unfold e2. destruct (has_prev_log_number_ e1) eqn:E; [by repeat (split; [done|])|]. split; [by apply SetPrevLogNumber_typed|done]. }
  clearbody e2. split; [|done]. split.
  - apply SetLastSequence_typed; [|done]. by apply SetNextFile_typed.
  - cbn. intros Hh. transitivity (comparator_ e); [done|]. apply Hc. by transitivity (has_comparator_ e2).
  - cbn. by rewrite Hn2.
  - cbn. by rewrite Hn2.
  - cbn. by rewrite Hn2.
Qed.

(** The version that an edit makes. *)
Lemma edit_version w vs D U n es e : inv w vs D U n es -> good_edit U e -> exists b fl,
  Apply (vs_compact_pointer_ vs) (new_Builder (vs_current_ vs)) e = Ret (edit_pointers (d_pointers D) e, b)
  /\ SaveTo b new_Version = Ret (with_files_ new_Version fl) /\ version_sorted (with_files_ new_Version fl)
  /\ forall level, is_level level -> level_files (with_files_ new_Version fl) level ≡ₚ level_edit level (level_files (d_current D) level) e.
Proof.
  intros Hi Hg. pose proof (i_history _ _ _ _ _ _ Hi) as Hh. rewrite (i_current _ _ _ _ _ _ Hi), (i_pointers _ _ _ _ _ _ Hi).
  destruct (builder_save (d_current D) (d_pointers D) [e] (h_sorted _ _ _ Hh)) as (b & fl & E & Es & Hs & Hp).
  - constructor; [by eapply good_edit_ok|constructor].
  - intros level Hl. cbn [map concat]. rewrite app_nil_r. apply (fresh_new U); [done|by eapply history_numbers_nodup|].
    intros f Hf. by eapply history_used.
  - rewrite <- (h_pointers _ _ _ Hh), edits_pointers_length. done.
  - exists b, fl. cbn [apply_edits fold_left] in E. apply res_bind_Ret in E as ([p b'] & -> & E). injection E as -> ->. by split_and!.
Qed.

Lemma log_edit_spec w log name raw records e : env_ok w -> log_good w log name raw records ->
  exists raw' w' log', log_edit w log e = Ret (Status.OK, w', log') /\ env_ok w' /\ contents w' = <[name := raw']> (contents w)
  /\ (forall k n, writes w k n -> writes w' k n) /\ log_good w' log' name raw' (records ++ [enc e]).
Proof.
  intros Hw Hl. unfold log_edit. destruct (add_record_spec w log name raw records (enc e) Hw Hl) as (raw' & w1 & log' & E & Hw1 & _ & C1 & K1 & Hl1).
  unfold enc in E. rewrite E. cbn [mbind res_bind Status.ok Status.OK]. pose proof Hl1 as (Hwr & Hc & Hcr & Hbo & Hrec).
  destruct (env_sync w1 (dest_ log') name Hw1 Hwr) as (w2 & -> & Hw2 & C2 & K2). exists raw', w2, log'.
  split; [done|]. split; [done|]. split; [by rewrite C2|]. split; [intros k n Hx; by apply K2, K1|]. split; [by apply K2|]. by rewrite C2.
Qed.

Lemma log_good_disk w log n raw records : log_good w log (descriptor n) raw records ->
  exists raw prss bo, contents w !! descriptor n = Some raw /\ stream 0 (concat prss) raw bo /\ Forall2 fragments records prss.
Proof. intros (_ & Hc & _ & _ & prss & Hs & HF). by exists raw, prss, (block_offset_ log). Qed.

(** A snapshot is a history of its own. *)
Lemma snapshot_history (vs : VSet) es D U ps (log : option (Writer Wf)) : history es D U -> vs_current_ vs = d_current D -> length ps = Z.to_nat config.kNumLevels ->
  Forall is_slice ps ->
  let e := snapshot_edit (mkVersionSet (vs_next_file_number_ vs) (vs_manifest_file_number_ vs) (vs_last_sequence_ vs)
    (vs_log_number_ vs) (vs_prev_log_number_ vs) log (vs_current_ vs) ps) in
  forall e' fl, good_edit U e' ->
  has_log_number_ e' = true -> has_prev_log_number_ e' = true -> has_next_file_number_ e' = true -> has_last_sequence_ e' = true ->
  version_sorted (with_files_ new_Version fl) -> edit_pointers ps e' = ps ->
  (forall level, is_level level -> level_files (with_files_ new_Version fl) level ≡ₚ level_edit level (level_files (d_current D) level) e') ->
  history [e; e'] (mkDurable (Finalize (with_files_ new_Version fl)) (log_number_ e') (prev_log_number_ e')
    (next_file_number_ e') (last_sequence_ e') ps) (used U e').
Proof.
  intros Hh Hc Hl Hps e e' fl Hg L1 L2 L3 L4 Hs Hpt Hp.
  destruct (snapshot_edit_spec Hname (mkVersionSet (vs_next_file_number_ vs) (vs_manifest_file_number_ vs) (vs_last_sequence_ vs)
    (vs_log_number_ vs) (vs_prev_log_number_ vs) log (vs_current_ vs) ps)) as (Hlog & Hdel & Hpo & Hfo & Hadds);
    [cbn [vs_current_]; rewrite Hc; apply (h_sorted _ _ _ Hh)|cbn [vs_current_]; rewrite Hc; intros level Hlv; by eapply history_stored|done|done|].
  fold e in Hlog, Hdel, Hpo, Hfo, Hadds. cbn [vs_current_ vs_compact_pointer_] in Hadds, Hpo. rewrite Hc in Hadds.
  assert (edit_ok e) as Heo.
  { destruct Hlog as [Ht _]. split.
    - eapply list.Forall_impl; [apply (t_pointers _ Ht)|]. by intros p [].
    - eapply list.Forall_impl; [apply (t_deleted _ Ht)|]. by intros p [].
    - pose proof (t_files _ Ht) as Hfs. rewrite Forall_forall in Hfs. apply Forall_forall. intros p Hpin.
      destruct (Hfs p Hpin) as [Hlv _]. split; [done|].
      destruct (h_sorted _ _ _ Hh) as [_ Hsorted]. destruct (Hsorted p.1 Hlv) as [Hv _]. rewrite <- Hadds in Hv by done.
      rewrite Forall_forall in Hv. apply (Hv (added_file p.2)). apply in_concat. exists (adds p.1 p). split; [by apply in_map|].
      unfold adds. rewrite decide_True by done. by left. }
  split; cbn [d_current d_log_number d_prev_log_number d_next_file d_last_sequence d_pointers].
  - repeat constructor; try apply Hlog; apply Hg.
  - constructor; [done|]. constructor; [by eapply good_edit_ok|constructor].
  - intros level Hlv. rewrite level_files_new. cbn [app map concat]. rewrite app_nil_r, Hadds by done.
    apply (fresh_new U); [done|by eapply history_numbers_nodup|]. intros f Hf. by eapply history_used.
  - intros level n Hlv. cbn [map concat]. rewrite app_nil_r, Hadds, map_app, elem_of_app by done. unfold used. rewrite elem_of_app.
    intros [Hn|Hn]; [left; apply list_elem_of_fmap in Hn as (f & -> & Hf); by eapply history_used|right; by apply edit_adds_elem].
  - cbn [fold_left]. rewrite Hfo. unfold found. rewrite L1, L2, L3, L4. eexists. by split.
  - cbn [fold_left]. by rewrite Hpo.
  - intros level Hlv. rewrite Finalize_level_files, Hp by done. cbn [fold_left]. apply level_edit_perm.
    unfold level_edit. rewrite Hadds by done. done.
  - by apply Finalize_sorted.
  - by rewrite Finalize_files.
Qed.
(** The names that logging an edit does not use. *)
Definition not_descriptor (x : bytes) : Prop :=
  x <> current /\ forall m, 0 <= m <= kMaxUint64 -> x <> descriptor m /\ x <> TempFileName dbname m.

(** The state after [LogAndApply]. *)
Definition applied (vs : VSet) (e : VersionEdit) (v : Version) (log : option (Writer Wf)) : VSet :=
  AppendVersion (with_descriptor (with_compact_pointer vs (edit_pointers (vs_compact_pointer_ vs) e)) log) v
    (log_number_ e) (prev_log_number_ e).

Lemma LogAndApply_spec w vs D U n es edit : inv w vs D U n es -> good_edit U edit ->
  exists w' vs' n' es' v, LogAndApply w vs dbname edit = Ret (Status.OK, w', vs')
  /\ (exists log, vs' = applied vs (complete_edit vs edit) v (Some log)) /\ inv w' vs' (durable vs') (used U edit) n' es'
  /\ (forall x, not_descriptor x -> contents w' !! x = contents w !! x)
  /\ forall level, is_level level -> level_files v level ≡ₚ level_edit level (level_files (vs_current_ vs) level) edit.
Proof.
  intros Hi Hge. pose proof (i_history _ _ _ _ _ _ Hi) as Hh.
  destruct (complete_edit_good U vs edit Hge) as (Hg & Hnew & Hdel & L1 & L2 & L3 & L4 & En & El); [apply Hi..|].
  unfold LogAndApply. set (e := complete_edit vs edit) in *.
  destruct (edit_version w vs D U n es e Hi Hg) as (b & fl & EA & ES & Hs & Hp). rewrite EA. cbn [mbind res_bind]. rewrite ES. cbn [mbind res_bind].
  set (ps := edit_pointers (d_pointers D) e) in *. set (v := Finalize (with_files_ new_Version fl)).
  assert (used U edit = used U e) as EU by (unfold used; by rewrite Hnew).
  assert (edit_pointers (vs_compact_pointer_ vs) e = ps) as Eps by (by rewrite (i_pointers _ _ _ _ _ _ Hi)).
  assert (is_u64 (log_number_ e) /\ is_u64 (prev_log_number_ e)) as [Hl64 Hp64] by (split; apply Hg).
  assert (forall log, durable (applied vs e v log) = mkDurable v (log_number_ e) (prev_log_number_ e) (next_file_number_ e) (last_sequence_ e) ps) as Edur
    by (intros log; rewrite En, El, <- Eps; done).
  assert (forall level, is_level level -> level_files v level ≡ₚ level_edit level (level_files (vs_current_ vs) level) edit) as Hfiles.
  { intros level Hl. unfold v. rewrite Finalize_level_files, (i_current _ _ _ _ _ _ Hi), Hp by done.
    unfold level_edit, edit_adds. by rewrite Hnew, Hdel. }
  unfold open_descriptor. cbn [with_compact_pointer vs_descriptor_log_ vs_manifest_file_number_].
  destruct (vs_descriptor_log_ vs) as [log|] eqn:Elog.
  - pose proof (i_descriptor _ _ _ _ _ _ Hi) as Hd. rewrite Elog in Hd. destruct Hd as [raw Hlog].
    cbn [mbind res_bind Status.ok Status.OK of_option].
    destruct (log_edit_spec w log _ raw _ e (i_ok _ _ _ _ _ _ Hi) Hlog) as (raw' & w1 & log' & -> & Hw1 & C1 & K1 & Hlog').
    cbn [mbind res_bind Status.ok Status.OK andb].
    assert (inv w1 (applied vs e v (Some log')) (durable (applied vs e v (Some log'))) (used U edit) n (es ++ [e])) as Hinv.
    { destruct (i_disk _ _ _ _ _ _ Hi) as (Hn & Hcur & _). split; try done; try apply Hi.
      - split; [done|]. split; [rewrite C1, lookup_insert_ne by (apply not_eq_sym; by apply current_not_descriptor); done|].
        rewrite map_app. by eapply log_good_disk.
      - rewrite Edur, EU. by apply (history_step es D).
      - cbn. exists raw'. by rewrite map_app.
      - intros _. apply (i_manifest _ _ _ _ _ _ Hi). by rewrite Elog. }
    do 5 eexists. split; [|split; [|split; [exact Hinv|split; [|exact Hfiles]]]]; [unfold applied; by rewrite Eps|by exists log'|].
    intros x [_ Hx]. destruct (i_disk _ _ _ _ _ _ Hi) as (Hn & _). by rewrite C1, lookup_insert_ne by (apply not_eq_sym; by apply Hx).
  - destruct (env_new w (descriptor (vs_manifest_file_number_ vs)) (i_ok _ _ _ _ _ _ Hi)) as (file & w1 & -> & Hw1 & C1 & Wr1 & _).
    cbn [mbind res_bind Status.ok Status.OK of_option]. set (m := vs_manifest_file_number_ vs) in *.
    destruct (open_log_spec w1 file (descriptor m) Wr1) as (log & -> & Ef & Hl0); [by rewrite C1, lookup_insert_eq|]. cbn [mbind res_bind].
    unfold WriteSnapshot. set (es0 := snapshot_edit _).
    destruct (add_record_spec w1 log _ _ _ (enc es0) Hw1 Hl0) as (raw2 & w2 & log2 & E2 & Hw2 & _ & C2 & K2 & Hl2). unfold enc in E2. rewrite E2.
    cbn [mbind res_bind Status.ok Status.OK of_option].
    destruct (log_edit_spec w2 log2 _ raw2 _ e Hw2 Hl2) as (raw3 & w3 & log3 & -> & Hw3 & C3 & K3 & Hl3). cbn [mbind res_bind Status.ok Status.OK andb].
    assert (0 <= m <= kMaxUint64) as Hm by (apply u64_bounds, Hi).
    destruct (SetCurrentFile_spec w3 dbname m Hw3 Hm) as (w4 & -> & Hw4 & C4 & K4). cbn [mbind res_bind Status.ok Status.OK].
    assert (contents w4 !! descriptor m = Some raw3) as Hraw4.
    { rewrite C4, lookup_insert_ne by (by apply current_not_descriptor). rewrite lookup_delete_ne by (by apply temp_not_descriptor).
      by rewrite C3, lookup_insert_eq. }
    assert (log_good w4 log3 (descriptor m) raw3 (map enc [es0; e])) as Hl4.
    { destruct Hl3 as (Hwr3 & Hc3 & Hcr3 & Hbo3 & Hrec3). split; [|by split].
      apply K4; [|done]. rewrite !not_elem_of_cons. split_and!; [apply not_eq_sym; by apply temp_not_descriptor| |apply not_elem_of_nil].
      apply not_eq_sym; by apply current_not_descriptor. }
    assert (inv w4 (applied vs e v (Some log3)) (durable (applied vs e v (Some log3))) (used U edit) m [es0; e]) as Hinv.
    { split; try done; try apply Hi.
      - split; [done|]. split; [by rewrite C4, lookup_insert_eq|]. by eapply log_good_disk.
      - rewrite Edur, EU. apply (snapshot_history vs es D U ps (vs_descriptor_log_ vs)); try done; [apply Hi| | |].
        + unfold ps. rewrite edit_pointers_length, <- (h_pointers _ _ _ Hh), edits_pointers_length. done.
        + unfold ps. pose proof (edits_pointers_slices (es ++ [e]) pointers0) as Hsl. rewrite fold_left_app, (h_pointers _ _ _ Hh) in Hsl.
          apply Hsl; [|by apply Forall_replicate]. apply Forall_snoc; [apply Hh|]. split; apply Hg.
        + apply edit_pointers_twice.
      - cbn. by exists raw3. }
    do 5 eexists. split; [|split; [|split; [exact Hinv|split; [|exact Hfiles]]]]; [unfold applied; by rewrite Eps|by exists log3|].
    intros x [Hxc Hx]. destruct (Hx m Hm) as [Hxd Hxt]. rewrite C4, lookup_insert_ne, lookup_delete_ne by done. by rewrite C3, C2, C1, !lookup_insert_ne by done.
Qed.

(** *** [NewDB] *)

Definition durable0 : Durable := mkDurable (Finalize new_Version) 0 0 2 0 pointers0.

Lemma NewDB_spec w : env_ok w -> exists w' n es, NewDB w dbname = Ret (Status.OK, w') /\ inv w' (recovered durable0) durable0 [] n es.
Proof.
  intros Hw. unfold NewDB.
  destruct (env_new w (descriptor 1) Hw) as (file & w1 & -> & Hw1 & C1 & Wr1 & _). cbn [mbind res_bind Status.ok Status.OK negb of_option].
  destruct (open_log_spec w1 file (descriptor 1) Wr1) as (log & -> & Ef & Hl0); [by rewrite C1, lookup_insert_eq|]. cbn [mbind res_bind].
  set (e := VersionEdit.SetLastSequence _ 0).
  destruct (add_record_spec w1 log _ _ _ (enc e) Hw1 Hl0) as (raw2 & w2 & log2 & E2 & Hw2 & Ed2 & C2 & K2 & Hl2). unfold enc in E2. rewrite E2.
  cbn [mbind res_bind Status.ok Status.OK].
  destruct (env_close w2 file (descriptor 1) Hw2) as (w3 & -> & Hw3 & C3 & K3).
  { rewrite <- Ef. rewrite <- Ed2. apply Hl2. }
  cbn [Status.ok Status.OK]. destruct (SetCurrentFile_spec w3 dbname 1 Hw3 ltac:(done)) as (w4 & -> & Hw4 & C4 & K4).
  assert (typed e) as Ht by (repeat first [apply SetLastSequence_typed|apply SetNextFile_typed|apply SetLogNumber_typed|apply SetComparatorName_typed|apply new_typed]; done).
  exists w4, 1, [e]. split; [done|]. split; try done.
  - split; [done|]. split; [by rewrite C4, lookup_insert_eq|].
    destruct (log_good_disk w2 log2 1 raw2 _ Hl2) as (raw & prss & bo & Hraw & Hs & HF). exists raw, prss, bo. split; [|by split].
    rewrite C4, lookup_insert_ne by (by apply current_not_descriptor). rewrite lookup_delete_ne by (by apply temp_not_descriptor). by rewrite C3.
  - split; try done.
    + by repeat constructor.
    + repeat constructor.
    + intros level Hl. rewrite level_files_new. constructor.
    + intros level k Hl Hk. cbn in Hk. by apply elem_of_nil in Hk.
    + eexists. by split.
    + intros level Hl. cbn [durable0 d_current]. rewrite Finalize_level_files, level_files_new. done.
    + apply Finalize_sorted, new_sorted.
Qed.
(** *** Sessions *)

(** Numbers handed out and sequence numbers used, which are not logged yet. *)
Inductive counts (vs : VSet) : VSet -> Prop :=
  | counts_new : counts vs (NewFileNumber vs).2
  | counts_reuse n : is_u64 n -> counts vs (ReuseFileNumber vs n)
  | counts_mark n : is_u64 n -> counts vs (MarkFileNumberUsed vs n)
  | counts_sequence s : is_u64 s -> counts vs (SetLastSequence vs s).

(** Other files written: CURRENT and the descriptors, from the one that is open
    on, are as they were. *)
Definition elsewhere (vs : VSet) (w w' : W) : Prop :=
  env_ok w' /\ contents w' !! current = contents w !! current
  /\ forall n, 0 <= n <= kMaxUint64 -> (vs_descriptor_log_ vs <> None -> vs_manifest_file_number_ vs <= n) -> contents w' !! descriptor n = contents w !! descriptor n
     /\ forall k, writes w k (descriptor n) -> writes w' k (descriptor n).

(** A new version set recovers [vs], with fuel enough. *)
Definition recovers (w : W) (vs : VSet) : Prop :=
  exists k, forall fuel, (k <= fuel)%nat -> Recover fuel w new_VersionSet dbname = Ret (Status.OK, vs).

(** [D] is what was logged last, and [U] the files that the levels had. *)
Inductive session : W -> VSet -> Durable -> list (Z * Z) -> Prop :=
  | s_open w0 w vs : env_ok w0 -> NewDB w0 dbname = Ret (Status.OK, w) -> recovers w vs -> session w vs durable0 []
  | s_count w vs D U vs' : session w vs D U -> counts vs vs' -> session w vs' D U
  | s_log w vs D U edit w' vs' : session w vs D U -> good_edit U edit ->
      LogAndApply w vs dbname edit = Ret (Status.OK, w', vs') -> session w' vs' (durable vs') (used U edit)
  | s_elsewhere w vs D U w' : session w vs D U -> elsewhere vs w w' -> session w' vs D U
  | s_reopen w vs D U vs' : session w vs D U -> recovers w vs' -> session w vs' D U.

Lemma recovers_recovered w vs D U n es : inv w vs D U n es -> recovers w (recovered D).
Proof. intros Hi. by apply (Recover_spec w n es D U); apply Hi. Qed.

Lemma recovers_unique w vs vs' : recovers w vs -> recovers w vs' -> vs = vs'.
Proof. intros [k Hk] [k' Hk']. specialize (Hk (Nat.max k k') ltac:(lia)). rewrite Hk' in Hk by lia. by injection Hk. Qed.

Lemma counts_inv w vs D U n es vs' : inv w vs D U n es -> counts vs vs' -> inv w vs' D U n es.
Proof.
  intros Hi Hc.
  assert (forall k, is_u64 k -> inv w (with_next vs k) D U n es) as Hnext by (intros k Hk; destruct Hi; by split).
  destruct Hc as [|k Hk|k Hk|s Hs].
  - apply Hnext, u64_range.
  - unfold ReuseFileNumber. case_decide; [by apply Hnext|done].
  - unfold MarkFileNumberUsed. destruct (_ <=? _); [apply Hnext, u64_range|done].
  - destruct Hi; by split.
Qed.

Lemma elsewhere_inv w vs D U n es w' : inv w vs D U n es -> elsewhere vs w w' -> inv w' vs D U n es.
Proof.
  intros Hi (Hw & Hc & Hd). split; try apply Hi; [done| |].
  - destruct (i_disk _ _ _ _ _ _ Hi) as (Hn & Hcur & Hraw). split; [done|]. split; [by rewrite Hc|].
    destruct (Hd n) as [E _]; [done|intros Hl; by rewrite (i_manifest _ _ _ _ _ _ Hi Hl)|]. by rewrite E.
  - pose proof (i_descriptor _ _ _ _ _ _ Hi) as Hdesc. pose proof (i_manifest _ _ _ _ _ _ Hi) as Hman.
    destruct (vs_descriptor_log_ vs) as [log|]; [|done]. destruct (i_disk _ _ _ _ _ _ Hi) as (Hn & _).
    destruct Hdesc as (raw & Hwr & Hraw & Hrest). exists raw. destruct (Hd n) as [E K]; [done|intros Hl; by rewrite (Hman Hl)|]. split; [by apply K|]. split; [by rewrite E|done].
Qed.

Lemma session_inv w vs D U : session w vs D U -> exists n es, inv w vs D U n es.
Proof.
  induction 1 as [w0 w vs Hw E Hr|w vs D U vs' _ (n & es & Hi) Hc|w vs D U edit w' vs' _ (n & es & Hi) Hg E
    |w vs D U w' _ (n & es & Hi) He|w vs D U vs' _ (n & es & Hi) Hr].
  - destruct (NewDB_spec w0 Hw) as (w1 & n & es & E1 & Hi). rewrite E in E1. injection E1 as <-.
    rewrite (recovers_unique w vs (recovered durable0) Hr (recovers_recovered _ _ _ _ _ _ Hi)). by exists n, es.
  - exists n, es. by eapply counts_inv.
  - destruct (LogAndApply_spec w vs D U n es edit Hi Hg) as (w1 & vs1 & n' & es' & v & E1 & _ & Hi' & _ & _).
    rewrite E in E1. injection E1 as <- <-. by exists n', es'.
  - exists n, es. by eapply elsewhere_inv.
  - rewrite (recovers_unique w vs' (recovered D) Hr (recovers_recovered _ _ _ _ _ _ Hi)). exists n, es. by eapply Recover_inv.
Qed.
End sessions.

(** ** Properties *)

(** C17: the descriptor is durable.  From the creation of a database, through any
    run of numbers handed out, edits logged, other files written and version
    sets recovered, a new version set recovers exactly what was logged last:
    the version with its scores, the log numbers, the last sequence number and
    the compaction pointers, and hands out file numbers above the one logged;
    and an edit whose files are new to their levels is logged, and leads to the
    files that it says, over any environment that keeps its promises. *)
Theorem descriptor_recovers `{Comparator} `{ComparatorName} `{Address} {W Wf Sf : Type} `{!Env W Wf Sf} `{!EnvSpec W Wf Sf} dbname w
    (vs : VersionSet Wf) D U : is_slice comparator_name -> session dbname w vs D U ->
  vs_current_ vs = d_current D
  /\ (exists k, forall fuel, (k <= fuel)%nat -> Recover fuel w new_VersionSet dbname = Ret (Status.OK, recovered D))
  /\ forall edit, good_edit U edit -> exists w' vs', LogAndApply w vs dbname edit = Ret (Status.OK, w', vs')
     /\ forall level, is_level level ->
        level_files (vs_current_ vs') level ≡ₚ level_edit level (level_files (vs_current_ vs) level) edit.
Proof.
  intros Hname Hs. destruct (session_inv Hname dbname w vs D U Hs) as (n & es & Hi). split; [apply Hi|]. split.
  - by eapply recovers_recovered.
  - intros edit Hg. destruct (LogAndApply_spec Hname dbname w vs D U n es edit Hi Hg) as (w' & vs' & _ & _ & v & E & [log ->] & _ & _ & Hv).
    by exists w', (applied vs (complete_edit vs edit) v (Some log)).
Qed.

(** ** A database in memory *)

#[local] Existing Instance BytewiseComparator.
#[local] Instance sample_name : ComparatorName := lit "leveldb.BytewiseComparator".
#[local] Instance sample_address : Address := fun _ => 0.

Definition sample_logged : VersionEdit := sample_add (SetLogNumber new_VersionEdit 6) 1 5 "a" "b".

Lemma sample_logged_good : good_edit [] sample_logged.
Proof.
  split.
  - apply AddFile_typed; [apply SetLogNumber_typed; [apply new_typed|done]|done..].
  - done.
  - constructor; [vm_compute; lia|constructor].
  - constructor; [apply not_elem_of_nil|constructor].
  - apply NoDup_singleton.
Qed.

(** An edit logged to a new database in memory is recovered. *)
Lemma descriptor_recovers_witness : exists w w' vs', NewDB new_InMemoryEnv (lit "db") = Ret (Status.OK, w)
  /\ LogAndApply w (recovered durable0) (lit "db") sample_logged = Ret (Status.OK, w', vs')
  /\ map number (level_files (vs_current_ vs') 1) = [5] /\ vs_log_number_ vs' = 6
  /\ exists k, forall fuel, (k <= fuel)%nat -> Recover fuel w' new_VersionSet (lit "db") = Ret (Status.OK, recovered (durable vs')).
Proof.
  assert (is_slice comparator_name) as Hname by done. assert (is_level 1) as Hl1 by (unfold is_level; vm_compute; split; congruence).
  pose proof (new_mem_ok : env_ok (EnvSpec := mem_env_spec) new_InMemoryEnv) as Hok.
  destruct (NewDB_spec Hname (lit "db") new_InMemoryEnv Hok) as (w & n & es & E & Hi).
  assert (session (lit "db") w (recovered durable0) durable0 []) as Hs
    by (apply (s_open _ new_InMemoryEnv); [exact Hok|exact E|by eapply recovers_recovered]).
  destruct (descriptor_recovers (lit "db") w (recovered durable0) durable0 [] Hname Hs) as (_ & _ & Hlog).
  destruct (Hlog sample_logged sample_logged_good) as (w' & vs' & El & Hf).
  pose proof (s_log _ _ _ _ _ _ _ _ Hs sample_logged_good El) as Hs'.
  destruct (descriptor_recovers (lit "db") w' vs' _ _ Hname Hs') as (_ & Hr & _).
  exists w, w', vs'. split; [exact E|]. split; [exact El|]. split; [|split; [|exact Hr]].
  - specialize (Hf 1 Hl1). clear -Hf. change (vs_current_ (recovered durable0)) with (Finalize new_Version) in Hf.
    rewrite Finalize_level_files, level_files_new in Hf. apply (fmap_Permutation number) in Hf. change (number <$> level_edit 1 [] sample_logged) with [5] in Hf.
    symmetry in Hf. by apply Permutation_length_1_inv in Hf.
  - destruct (LogAndApply_spec Hname (lit "db") w (recovered durable0) durable0 [] n es sample_logged Hi sample_logged_good)
      as (w1 & vs1 & _ & _ & v & E1 & [log ->] & _). rewrite El in E1. injection E1 as _ ->. done.
Defined.
