(* ===== verification/Compaction.v ===== *)
(** * Compaction: db/version_set.h and db/version_set.cc, the picking of compactions

    Which files a compaction reads: [PickCompaction] and [CompactRange] choose
    the files of a level, [SetupOtherInputs] those of the next one, and a
    [Compaction] says where its outputs end and whether a key has data below.
    The iterator over the inputs is not modelled. *)

From S2P Require Import Prelude CLib Double Coding Status DbFormat SkipList MemTable KeyOrder Iterator Log VersionEdit Version VersionBuilder VersionSet.

(** ** class Compaction *)

Record Compaction := mkCompaction {
  level_ : Z;
  max_output_file_size_ : Z;
  input_version_ : option Version;
  edit_ : VersionEdit;
  inputs_ : files * files;
  grandparents_ : files;
  grandparent_index_ : nat;
  seen_key_ : bool;
  overlapped_bytes_ : Z;
  level_ptrs_ : list nat;
}.

Definition new_Compaction (level : Z) : Compaction :=
  mkCompaction level (MaxFileSizeForLevel level) None new_VersionEdit ([], []) [] 0 false 0
    (replicate (Z.to_nat config.kNumLevels) 0%nat).

Definition with_input_version (c : Compaction) (v : option Version) : Compaction :=
  mkCompaction (level_ c) (max_output_file_size_ c) v (edit_ c) (inputs_ c) (grandparents_ c)
    (grandparent_index_ c) (seen_key_ c) (overlapped_bytes_ c) (level_ptrs_ c).
Definition with_edit (c : Compaction) (e : VersionEdit) : Compaction :=
  mkCompaction (level_ c) (max_output_file_size_ c) (input_version_ c) e (inputs_ c) (grandparents_ c)
    (grandparent_index_ c) (seen_key_ c) (overlapped_bytes_ c) (level_ptrs_ c).
Definition with_inputs (c : Compaction) (inputs : files * files) : Compaction :=
  mkCompaction (level_ c) (max_output_file_size_ c) (input_version_ c) (edit_ c) inputs (grandparents_ c)
    (grandparent_index_ c) (seen_key_ c) (overlapped_bytes_ c) (level_ptrs_ c).
Definition with_grandparents (c : Compaction) (fs : files) : Compaction :=
  mkCompaction (level_ c) (max_output_file_size_ c) (input_version_ c) (edit_ c) (inputs_ c) fs
    (grandparent_index_ c) (seen_key_ c) (overlapped_bytes_ c) (level_ptrs_ c).
Definition with_overlap (c : Compaction) (i : nat) (seen : bool) (overlapped : Z) : Compaction :=
  mkCompaction (level_ c) (max_output_file_size_ c) (input_version_ c) (edit_ c) (inputs_ c) (grandparents_ c)
    i seen overlapped (level_ptrs_ c).
Definition with_level_ptrs (c : Compaction) (ptrs : list nat) : Compaction :=
  mkCompaction (level_ c) (max_output_file_size_ c) (input_version_ c) (edit_ c) (inputs_ c) (grandparents_ c)
    (grandparent_index_ c) (seen_key_ c) (overlapped_bytes_ c) ptrs.

(** [inputs_[which]]. *)
Definition inputs_of (c : Compaction) (which : Z) : files := if decide (which = 0) then (inputs_ c).1 else (inputs_ c).2.
Definition num_input_files (c : Compaction) (which : Z) : Z := Z.of_nat (length (inputs_of c which)).
Definition input (c : Compaction) (which i : Z) : res FileMetaData := nth_res (inputs_of c which) i.
Definition MaxOutputFileSize (c : Compaction) : Z := max_output_file_size_ c.
Definition ReleaseInputs (c : Compaction) : Compaction := with_input_version c None.

Definition IsTrivialMove (c : Compaction) : bool :=
  bool_decide (num_input_files c 0 = 1) && bool_decide (num_input_files c 1 = 0)
    && (TotalFileSize (grandparents_ c) <=? kMaxGrandParentOverlapBytes).

Definition AddInputDeletions (c : Compaction) (edit : VersionEdit) : VersionEdit :=
  let edit := fold_left (fun e f => DeleteFile e (level_ c) (number f)) (inputs_of c 0) edit in
  fold_left (fun e f => DeleteFile e (level_ c + 1) (number f)) (inputs_of c 1) edit.

(** The sum of two [int64_t]. *)
Definition i64_add (a b : Z) : res Z :=
  let z := a + b in if decide (-(2^63) <= z < 2^63) then Ret z else Undef.

Section compaction.
Context `{Comparator}.

(** The files of one level from its pointer on: the pointer, and whether no
    file holds the key. *)
Fixpoint base_level_loop (fs : files) (ptr : nat) (user_key : bytes) : res (nat * bool) :=
  match fs with
  | [] => Ret (ptr, true)
  | f :: fs =>
      l ← largest_user f;
      if Compare user_key l <=? 0 then
        s ← smallest_user f;
        Ret (ptr, negb (Compare user_key s >=? 0))
      else base_level_loop fs (S ptr) user_key
  end.
Fixpoint base_levels_loop (n : nat) (v : Version) (lvl : Z) (ptrs : list nat) (user_key : bytes) : res (list nat * bool) :=
  match n with
  | O => Ret (ptrs, true)
  | S n =>
      ptr ← nth_res ptrs lvl;
      '(ptr, base) ← base_level_loop (drop ptr (level_files v lvl)) ptr user_key;
      let ptrs := <[Z.to_nat lvl := ptr]> ptrs in
      if (base : bool) then base_levels_loop n v (lvl + 1) ptrs user_key else Ret (ptrs, false)
  end.

Definition IsBaseLevelForKey (c : Compaction) (user_key : bytes) : res (Compaction * bool) :=
  v ← of_option (input_version_ c);
  '(ptrs, base) ← base_levels_loop (Z.to_nat (config.kNumLevels - (level_ c + 2))) v (level_ c + 2) (level_ptrs_ c) user_key;
  Ret (with_level_ptrs c ptrs, base).

(** The grandparents passed: the index and the bytes overlapped. *)
Fixpoint stop_loop (fs : files) (i : nat) (seen : bool) (overlapped : Z) (internal_key : bytes) : res (nat * Z) :=
  match fs with
  | [] => Ret (i, overlapped)
  | f :: fs =>
      r ← InternalCompare internal_key (largest f);
      if r >? 0 then stop_loop fs (S i) seen (if seen then i64 (overlapped + file_size f) else overlapped) internal_key
      else Ret (i, overlapped)
  end.
Definition ShouldStopBefore (c : Compaction) (internal_key : bytes) : res (Compaction * bool) :=
  '(i, overlapped) ← stop_loop (drop (grandparent_index_ c) (grandparents_ c)) (grandparent_index_ c) (seen_key_ c)
                       (overlapped_bytes_ c) internal_key;
  if overlapped >? kMaxGrandParentOverlapBytes then Ret (with_overlap c i true 0, true)
  else Ret (with_overlap c i true overlapped, false).

(** ** class VersionSet, continued *)

Fixpoint range_loop (inputs : files) (smallest_ largest_ : bytes) : res (bytes * bytes) :=
  match inputs with
  | [] => Ret (smallest_, largest_)
  | f :: inputs =>
      r ← InternalCompare (smallest f) smallest_;
      let smallest_ := if r <? 0 then smallest f else smallest_ in
      r ← InternalCompare (largest f) largest_;
      let largest_ := if r >? 0 then largest f else largest_ in
      range_loop inputs smallest_ largest_
  end.
Definition GetRange (inputs : files) : res (bytes * bytes) :=
  match inputs with [] => Ret ([], []) | f :: inputs => range_loop inputs (smallest f) (largest f) end.
Definition GetRange2 (inputs1 inputs2 : files) : res (bytes * bytes) := GetRange (inputs1 ++ inputs2).

Fixpoint next_level_loop (fs : files) (v : Version) (level result : Z) : res Z :=
  match fs with
  | [] => Ret result
  | f :: fs =>
      overlaps ← GetOverlappingInputs v (level + 1) (Some (smallest f)) (Some (largest f));
      let sum := TotalFileSize overlaps in
      next_level_loop fs v level (if sum >? result then sum else result)
  end.
Fixpoint max_overlap_loop (n : nat) (v : Version) (level result : Z) : res Z :=
  match n with
  | O => Ret result
  | S n => result ← next_level_loop (level_files v level) v level result; max_overlap_loop n v (level + 1) result
  end.
Definition MaxNextLevelOverlappingBytes (v : Version) : res Z :=
  max_overlap_loop (Z.to_nat (config.kNumLevels - 2)) v 1 0.

(** The wider set of inputs, when there is one: its range and files. *)
Definition expanded_inputs (v : Version) (level : Z) (inputs : files * files) (all_start all_limit : bytes)
    : res (option (bytes * bytes * (files * files))) :=
  expanded0 ← GetOverlappingInputs v level (Some all_start) (Some all_limit);
  let inputs1_size := TotalFileSize inputs.2 in
  let expanded0_size := TotalFileSize expanded0 in
  if (length inputs.1 <? length expanded0)%nat then
    total ← i64_add inputs1_size expanded0_size;
    if total <? kExpandedCompactionByteSizeLimit then
      '(new_start, new_limit) ← GetRange expanded0;
      expanded1 ← GetOverlappingInputs v (level + 1) (Some new_start) (Some new_limit);
      Ret (if decide (length expanded1 = length inputs.2) then Some (new_start, new_limit, (expanded0, expanded1)) else None)
    else Ret None
  else Ret None.

(** The compaction with its second inputs and grandparents, and the key where
    the next compaction of the level begins. *)
Definition SetupOtherInputs (v : Version) (c : Compaction) : res (Compaction * bytes) :=
  let level := level_ c in
  '(smallest_, largest_) ← GetRange (inputs_of c 0);
  inputs1 ← GetOverlappingInputs v (level + 1) (Some smallest_) (Some largest_);
  let inputs := (inputs_of c 0, inputs1) in
  '(all_start, all_limit) ← GetRange2 inputs.1 inputs.2;
  expanded ← (if decide (inputs1 = []) then Ret None else expanded_inputs v level inputs all_start all_limit);
  '(largest_, inputs, all_start, all_limit) ←
    match expanded with
    | Some (_, new_limit, inputs) =>
        '(all_start, all_limit) ← GetRange2 inputs.1 inputs.2;
        Ret (new_limit, inputs, all_start, all_limit)
    | None => Ret (largest_, inputs, all_start, all_limit)
    end;
  grandparents ← (if level + 2 <? config.kNumLevels
                  then GetOverlappingInputs v (level + 2) (Some all_start) (Some all_limit) else Ret (grandparents_ c));
  let c := with_grandparents (with_inputs c inputs) grandparents in
  Ret (with_edit c (SetCompactPointer (edit_ c) level largest_), largest_).

(** The first file past the pointer. *)
Fixpoint pick_after (fs : files) (pointer : bytes) : res (option FileMetaData) :=
  match fs with
  | [] => Ret None
  | f :: fs =>
      past ← (if decide (pointer = []) then Ret true else r ← InternalCompare (largest f) pointer; Ret (r >? 0));
      if (past : bool) then Ret (Some f) else pick_after fs pointer
  end.
Definition pick_file (v : Version) (level : Z) (pointer : bytes) : res FileMetaData :=
  f ← pick_after (level_files v level) pointer;
  match f with Some f => Ret f | None => of_option (head (level_files v level)) end.

Section version_set.
Context {W : Type}.

Definition set_compact_pointer (vs : VersionSet W) (level : Z) (key : bytes) : VersionSet W :=
  with_compact_pointer vs (<[Z.to_nat level := key]> (vs_compact_pointer_ vs)).

(** A compaction of these files of the current version. *)
Definition set_up (vs : VersionSet W) (c : Compaction) : res (Compaction * VersionSet W) :=
  '(c, pointer) ← SetupOtherInputs (vs_current_ vs) c;
  Ret (c, set_compact_pointer vs (level_ c) pointer).

Definition PickCompaction (vs : VersionSet W) : res (option Compaction * VersionSet W) :=
  let v := vs_current_ vs in
  let size_compaction := double_le (double_of_Z 1) (compaction_score_ v) in
  picked ← (if size_compaction then
              pointer ← nth_res (vs_compact_pointer_ vs) (compaction_level_ v);
              f ← pick_file v (compaction_level_ v) pointer;
              Ret (Some (compaction_level_ v, f))
            else Ret ((fun f => (file_to_compact_level_ v, f)) <$> file_to_compact_ v));
  match picked with
  | None => Ret (None, vs)
  | Some (level, f) =>
      let c := with_input_version (with_inputs (new_Compaction level) ([f], [])) (Some v) in
      c ← (if decide (level = 0) then
             '(smallest_, largest_) ← GetRange (inputs_of c 0);
             inputs0 ← GetOverlappingInputs v 0 (Some smallest_) (Some largest_);
             Ret (with_inputs c (inputs0, []))
           else Ret c);
      '(c, vs) ← set_up vs c;
      Ret (Some c, vs)
  end.

(** The inputs up to the file that reaches the limit. *)
Fixpoint resize_loop (fs : files) (total limit : Z) : files :=
  match fs with
  | [] => []
  | f :: fs =>
      let total := u64 (total + file_size f) in
      if total >=? limit then [f] else f :: resize_loop fs total limit
  end.

Definition CompactRange (vs : VersionSet W) (level : Z) (begin end_ : option bytes) : res (option Compaction * VersionSet W) :=
  let v := vs_current_ vs in
  inputs ← GetOverlappingInputs v level begin end_;
  if decide (inputs = []) then Ret (None, vs)
  else
    let inputs := if 0 <? level then resize_loop inputs 0 (MaxFileSizeForLevel level) else inputs in
    '(c, vs) ← set_up vs (with_inputs (with_input_version (new_Compaction level) (Some v)) (inputs, []));
    Ret (Some c, vs).
End version_set.
End compaction.

(** ** Ranges *)

Section ranges.
Context `{Comparator}.

Lemma internal_le_user a b : cmp_le internal_cmp a b -> cmp_le ucmp (raw_user a) (raw_user b).
Proof. unfold cmp_le, internal_cmp, cmp_then, cmp_on. by destruct (ucmp (raw_user a) (raw_user b)). Qed.

Lemma overlaps_le b e f : overlaps (Some b) (Some e) f <-> cmp_le ucmp b (limit_user f) /\ cmp_le ucmp (start_user f) e.
Proof.
  unfold overlaps, cmp_le. rewrite <- !Compare_le. pose proof (Compare_flip b (limit_user f)). lia.
Qed.

Lemma elem_of_files_writes C fs x : x ∈ files_writes C fs <-> exists f, f ∈ fs /\ x ∈ C (number f).
Proof.
  unfold files_writes. rewrite list_elem_of_In, in_concat. split.
  - intros (ws & (f & <- & Hf)%in_map_iff & Hx). exists f. split; by apply list_elem_of_In.
  - intros (f & Hf & Hx). exists (C (number f)). apply list_elem_of_In in Hf, Hx. split; [|done]. apply in_map_iff. by exists f.
Qed.

(** The least range of internal keys that holds the files. *)
Record is_range (fs : files) (s l : bytes) : Prop := {
  ir_first : exists f, f ∈ fs /\ s = smallest f;
  ir_last : exists f, f ∈ fs /\ l = largest f;
  ir_bounds f : f ∈ fs -> cmp_le internal_cmp s (smallest f) /\ cmp_le internal_cmp (largest f) l;
}.

Lemma compare_keys a b : internal_valid a -> internal_valid b ->
  exists c, InternalCompare a b = Ret c /\ (c < 0 <-> cmp_lt internal_cmp a b) /\ (c > 0 <-> cmp_lt internal_cmp b a).
Proof.
  intros Ha Hb. destruct (compares (compare_:=InternalCompare) (cmp:=internal_cmp) (valid:=internal_valid) a b Ha Hb) as (c & E & Hc). exists c. split; [done|].
  unfold cmp_lt. rewrite (cmp_antisym (cmp:=internal_cmp) a b), <- Hc.
  destruct (Z.compare_spec c 0); cbn; split; split; try done; lia.
Qed.

Lemma range_loop_spec fs : Forall ranged fs -> forall s l done_, Forall ranged done_ -> is_range done_ s l ->
  exists s' l', range_loop fs s l = Ret (s', l') /\ is_range (done_ ++ fs) s' l'.
Proof.
  induction 1 as [|f fs Hf Hfs IH]; intros s l d Hd Hr.
  { exists s, l. by rewrite app_nil_r. }
  cbn [range_loop]. destruct Hr as [(fa & Hfa & Es) (fb & Hfb & El) Hb].
  pose proof (proj1 (list.Forall_forall _ _) Hd) as Hd'.
  assert (internal_valid s) as Hs by (rewrite Es; apply (Hd' _ Hfa)).
  assert (internal_valid l) as Hl by (rewrite El; apply (Hd' _ Hfb)).
  destruct (compare_keys (smallest f) s (rg_smallest _ Hf) Hs) as (c1 & -> & Hc1 & _). cbn [mbind res_bind].
  destruct (compare_keys (largest f) l (rg_largest _ Hf) Hl) as (c2 & -> & _ & Hc2). cbn [mbind res_bind].
  replace (d ++ f :: fs) with ((d ++ [f]) ++ fs) by (by rewrite <- app_assoc).
  apply IH; [apply Forall_app; split; [done|by constructor]|]. split.
  - destruct (Z.ltb_spec c1 0); [exists f|exists fa]; split; try done; apply elem_of_app; [right; left|by left].
  - destruct (Z.gtb_spec c2 0); [exists f|exists fb]; split; try done; apply elem_of_app; [right; left|by left].
  - intros g [Hg|Hg%list_elem_of_singleton]%elem_of_app.
    + destruct (Hb g Hg) as [H1 H2]. split.
      * destruct (Z.ltb_spec c1 0) as [Hlt|_]; [|done]. transitivity s; [by apply cmp_lt_le, Hc1|done].
      * destruct (Z.gtb_spec c2 0) as [Hgt|_]; [|done]. transitivity l; [done|apply cmp_lt_le, Hc2; lia].
    + subst g. split.
      * destruct (Z.ltb_spec c1 0) as [Hlt|Hge]; [by unfold cmp_le; rewrite cmp_refl|].
        destruct (cmp_le_total internal_cmp s (smallest f)) as [Hle|Hle]; [done|].
        apply dec_stable. intros Hn. apply (cmp_lt_not_ge internal_cmp) in Hn. apply Hc1 in Hn. lia.
      * destruct (Z.gtb_spec c2 0) as [Hlt|Hge]; [by unfold cmp_le; rewrite cmp_refl|].
        apply dec_stable. intros Hn. apply (cmp_lt_not_ge internal_cmp) in Hn. apply Hc2 in Hn. lia.
Qed.

Lemma GetRange_spec fs : Forall ranged fs -> fs <> [] ->
  exists s l, GetRange fs = Ret (s, l) /\ is_range fs s l.
Proof.
  intros Hfs Hne. destruct Hfs as [|f fs Hf Hfs]; [done|]. apply (range_loop_spec fs Hfs _ _ [f]);
    [by constructor|].
  split; [by exists f; split; [apply list_elem_of_singleton|]|by exists f; split; [apply list_elem_of_singleton|]|]. intros g ->%list_elem_of_singleton. unfold cmp_le. by rewrite !cmp_refl.
Qed.

Lemma range_valid fs s l : Forall ranged fs -> is_range fs s l -> internal_valid s /\ internal_valid l.
Proof. rewrite list.Forall_forall. intros Hfs [(f & Hf & ->) (g & Hg & ->) _]. split; [apply (Hfs f Hf)|apply (Hfs g Hg)]. Qed.

(** In user keys. *)
Lemma range_users fs s l f : is_range fs s l -> f ∈ fs ->
  cmp_le ucmp (raw_user s) (start_user f) /\ cmp_le ucmp (limit_user f) (raw_user l).
Proof. intros Hr Hf. destruct (ir_bounds _ _ _ Hr f Hf). split; by apply internal_le_user. Qed.

Lemma range_overlaps fs s l f b e : ranged f -> is_range fs s l -> f ∈ fs ->
  bound_le b (Some (raw_user s)) -> bound_le (Some (raw_user l)) e -> overlaps b e f.
Proof.
  intros Hf Hr Hin Hb He. destruct (range_users _ _ _ _ Hr Hin) as [H1 H2]. pose proof (rg_order _ Hf) as Ho.
  destruct b as [b|]; [|done]. destruct e as [e|]; [|done]. cbn in Hb, He. apply overlaps_le.
  split; (etransitivity; [|first [exact He|exact Ho]]).
  - by transitivity (raw_user s).
  - transitivity (limit_user f); [done|]. done.
Qed.

Lemma sublist_ranged (fs gs : files) : sublist fs gs -> Forall ranged gs -> Forall ranged fs.
Proof. intros Hs. rewrite !list.Forall_forall. intros Hg f Hf. apply Hg. by apply (sublist_subseteq _ _ Hs). Qed.
End ranges.

(** ** The inputs of a compaction *)

Section inputs.
Context `{Comparator}.

(** Sizes whose sums are far from the bounds of [int64_t]. *)
Definition sizes_small (v : Version) : Prop := forall level f, f ∈ level_files v level -> 0 <= file_size f < 2^31.

Lemma total_size_small fs : Forall (fun f => 0 <= file_size f < 2^31) fs -> Z.of_nat (length fs) < 2^31 ->
  0 <= TotalFileSize fs < 2^62.
Proof.
  intros Hf Hl. unfold TotalFileSize.
  assert (forall n acc, Z.of_nat n + Z.of_nat (length fs) < 2^31 -> 0 <= acc <= Z.of_nat n * 2^31 ->
    0 <= fold_left (fun sum f => i64 (sum + file_size f)) fs acc <= (Z.of_nat n + Z.of_nat (length fs)) * 2^31) as Hgen.
  { clear Hl. induction Hf as [|f fs Hf Hfs IH]; intros n acc Hn Ha; [cbn; lia|]. cbn [fold_left length] in *.
    rewrite i64_small by lia. specialize (IH (S n) (acc + file_size f)). rewrite !Nat2Z.inj_succ in *. lia. }
  specialize (Hgen 0%nat 0). cbn in Hgen. lia.
Qed.

(** No file left out of level 0 overlaps one taken. *)
Definition level0_closed (v : Version) (level : Z) (fs : files) : Prop :=
  level = 0 -> forall f g, f ∈ fs -> g ∈ level_files v 0 -> overlaps (Some (start_user f)) (Some (limit_user f)) g -> g ∈ fs.

Lemma overlapping_closed v level b e : (forall f, f ∈ level_files v level -> ranged f) ->
  (level = 0 -> forall f, f ∈ level_files v level -> overlaps b e f -> within b e f) ->
  level0_closed v level (filter (overlaps b e) (level_files v level)).
Proof.
  intros Hr Hw ->. intros f g [Hf Hfin]%list_elem_of_filter Hg Ho. apply list_elem_of_filter. split; [|done].
  destruct (Hw eq_refl f Hfin Hf) as [Hs He]. apply overlaps_le in Ho as [H1 H2]. split.
  - destruct b as [b|]; [|done]. cbn in Hs. pose proof (Compare_flip b (limit_user g)).
    assert (Compare b (limit_user g) <= 0); [|lia]. apply Compare_le. change (cmp_le ucmp b (limit_user g)).
    transitivity (start_user f); [|done]. unfold cmp_le. rewrite <- Compare_le. pose proof (Compare_flip b (start_user f)). lia.
  - destruct e as [e|]; [|done]. cbn in He. apply Compare_le. change (cmp_le ucmp (start_user g) e).
    transitivity (limit_user f); [done|]. unfold cmp_le. rewrite <- Compare_le. lia.
Qed.

(** The files of level 0 that a range of user keys pulls in: those that overlap
    it, and those that overlap one that is pulled in. *)
Inductive pulled (fs : files) (b e : option bytes) : FileMetaData -> Prop :=
  | pulled_range f : f ∈ fs -> overlaps b e f -> pulled fs b e f
  | pulled_file f g : pulled fs b e f -> g ∈ fs -> overlaps (Some (start_user f)) (Some (limit_user f)) g -> pulled fs b e g.

(** [fs] are the level's files of a range of user keys, in the level's order:
    those that overlap it, and in level 0 all that it pulls in. *)
Definition of_range (v : Version) (level : Z) (b e : option bytes) (fs : files) : Prop :=
  sublist fs (level_files v level)
  /\ forall f, f ∈ fs <-> if decide (level = 0) then pulled (level_files v level) b e f
                        else f ∈ level_files v level /\ overlaps b e f.

Lemma overlaps_wider b b' e e' f : bound_le b' b -> bound_le e e' -> overlaps b e f -> overlaps b' e' f.
Proof.
  intros Hb He [H1 H2]. split.
  - destruct b' as [b'|], b as [b|]; try done. cbn in Hb. pose proof (Compare_flip b' (limit_user f)).
    assert (Compare b' (limit_user f) <= 0); [|lia]. apply Compare_le. change (cmp_le ucmp b' (limit_user f)). transitivity b; [done|].
    unfold cmp_le. rewrite <- Compare_le. pose proof (Compare_flip b (limit_user f)). lia.
  - destruct e' as [e'|], e as [e|]; try done. cbn in He. apply Compare_le. change (cmp_le ucmp (start_user f) e').
    transitivity e; [|done]. unfold cmp_le. by rewrite <- Compare_le.
Qed.

(** A file that overlaps a range that has been widened to a file in it. *)
Lemma widened_start b e f g : ranged g -> overlaps (Some b) e f -> overlaps (Some (start_user f)) e g ->
  overlaps (Some b) e g \/ overlaps (Some (start_user f)) (Some (limit_user f)) g.
Proof.
  intros Hg [Hf _] [H1 H2]. destruct (decide (0 <= Compare (limit_user g) b)) as [Hle|Hlt]; [by left|right]. split; [done|].
  apply Compare_le. change (cmp_le ucmp (start_user g) (limit_user f)). transitivity (limit_user g); [apply Hg|]. transitivity b.
  - unfold cmp_le. rewrite <- Compare_le. lia.
  - unfold cmp_le. rewrite <- Compare_le. pose proof (Compare_flip b (limit_user f)). lia.
Qed.
Lemma widened_limit b e f g : ranged g -> overlaps b (Some e) f -> overlaps b (Some (limit_user f)) g ->
  overlaps b (Some e) g \/ overlaps (Some (start_user f)) (Some (limit_user f)) g.
Proof.
  intros Hg [_ Hf] [H1 H2]. destruct (decide (Compare (start_user g) e <= 0)) as [Hle|Hlt]; [by left|right]. split; [|done].
  pose proof (Compare_flip (start_user f) (limit_user g)). assert (Compare (start_user f) (limit_user g) <= 0); [|lia].
  apply Compare_le. change (cmp_le ucmp (start_user f) (limit_user g)). transitivity e; [unfold cmp_le; by rewrite <- Compare_le|].
  transitivity (start_user g); [|apply Hg]. unfold cmp_le. rewrite <- Compare_le. pose proof (Compare_flip (start_user g) e). lia.
Qed.

Lemma overlapping_loop_pulled fs b0 e0 : Forall ranged fs -> forall fuel i b e inputs r,
  (forall f, f ∈ fs -> overlaps b e f -> pulled fs b0 e0 f) -> (forall f, f ∈ inputs -> pulled fs b0 e0 f) ->
  overlapping_loop fuel true fs i b e inputs = Ret r -> forall f, f ∈ r -> pulled fs b0 e0 f.
Proof.
  intros Hfs fuel. pose proof (proj1 (list.Forall_forall _ _) Hfs) as Hr. induction fuel as [|fuel IH]; intros i b e inputs r Hcov Hin E; [done|].
  cbn [overlapping_loop] in E. destruct (fs !! i) as [f|] eqn:Ef; [|by injection E as <-].
  apply list_elem_of_lookup_2 in Ef. rewrite smallest_user_eq, largest_user_eq in E by auto. cbn [mbind res_bind] in E.
  destruct (_ || _) eqn:Eo in E; [by eapply IH|]. assert (overlaps b e f) as Hof.
  { apply orb_false_iff in Eo. unfold overlaps. destruct b, e; split; try done; lia. }
  assert (forall g, g ∈ inputs ++ [f] -> pulled fs b0 e0 g) as Hin'.
  { intros g [Hg|Hg%list_elem_of_singleton]%elem_of_app; [auto|subst g; auto]. }
  destruct (match b with Some _ => _ | None => _ end) eqn:Eb in E.
  { destruct b as [b|]; [|done]. eapply IH; [| |exact E]; [|intros g Hg; by apply elem_of_nil in Hg]. intros g Hg Hog.
    destruct (widened_start b e f g (Hr g Hg) Hof Hog); [auto|]. apply (pulled_file _ _ _ f); auto. }
  destruct (match e with Some _ => _ | None => _ end) eqn:Ee in E; [|by eapply IH].
  destruct e as [e|]; [|done]. eapply IH; [| |exact E]; [|intros g Hg; by apply elem_of_nil in Hg]. intros g Hg Hog.
  destruct (widened_limit b e f g (Hr g Hg) Hof Hog); [auto|]. apply (pulled_file _ _ _ f); auto.
Qed.

Lemma GetOverlappingInputs_range v level begin end_ : Forall ranged (level_files v level) ->
  (forall x, begin = Some x -> internal_valid x) -> (forall x, end_ = Some x -> internal_valid x) -> exists fs,
  GetOverlappingInputs v level begin end_ = Ret fs /\ of_range v level (raw_user <$> begin) (raw_user <$> end_) fs
  /\ level0_closed v level fs.
Proof.
  intros Hfs Hb He. destruct (GetOverlappingInputs_spec v level begin end_ Hfs Hb He) as (b & e & Hbb & Hee & Hne & E & Hw).
  exists (filter (overlaps b e) (level_files v level)). split; [exact E|].
  assert (level0_closed v level (filter (overlaps b e) (level_files v level))) as Hcl
    by (apply overlapping_closed; [by rewrite list.Forall_forall in Hfs|done]).
  split; [|exact Hcl]. split; [apply sublist_filter|]. intros f. case_decide as Hl.
  - split.
    + intros Hf. unfold GetOverlappingInputs in E. rewrite !user_bound in E by done. cbn [mbind res_bind] in E.
      rewrite (bool_decide_true _ Hl) in E. eapply (overlapping_loop_pulled _ _ _ Hfs); [|..|exact E|exact Hf]; [by constructor|].
      intros g Hg. by apply elem_of_nil in Hg.
    + induction 1 as [f Hf Ho|f g _ IH Hg Ho]; [apply list_elem_of_filter; split; [by eapply overlaps_wider|done]|].
      subst level. by apply (Hcl eq_refl f).
  - destruct (Hne Hl) as [-> ->]. rewrite list_elem_of_filter. tauto.
Qed.

(** What the code promises of a set of first inputs. *)
Record inputs_ok (v : Version) (level : Z) (fs : files) : Prop := {
  io_some : fs <> [];
  io_level : sublist fs (level_files v level);
  io_closed : level0_closed v level fs;
}.

(** What a compaction that is set up reads: the first inputs with their range
    of keys, all files of the next level that overlap the range of user keys,
    and as grandparents all files that overlap the range of both. *)
Record compaction_ok (v : Version) (c : Compaction) (s l : bytes) : Prop := {
  co_level : 0 <= level_ c < config.kNumLevels - 1;
  co_version : input_version_ c = Some v;
  co_first : inputs_ok v (level_ c) (inputs_of c 0);
  co_range : is_range (inputs_of c 0) s l;
  co_second : inputs_of c 1 = filter (overlaps (Some (raw_user s)) (Some (raw_user l))) (level_files v (level_ c + 1));
  co_grandparents : exists all_s all_l, is_range (inputs_of c 0 ++ inputs_of c 1) all_s all_l
    /\ (level_ c + 2 < config.kNumLevels ->
        grandparents_ c = filter (overlaps (Some (raw_user all_s)) (Some (raw_user all_l))) (level_files v (level_ c + 2)));
  co_edit : edit_ c = SetCompactPointer new_VersionEdit (level_ c) l;
  co_fresh : grandparent_index_ c = 0%nat /\ seen_key_ c = false /\ overlapped_bytes_ c = 0
    /\ level_ptrs_ c = replicate (Z.to_nat config.kNumLevels) 0%nat;
}.

(** How the first inputs [fs] may have grown to [i0]: to the files of the range
    of all inputs, if there are more of them, if all are small enough together,
    and if they need no more second inputs, [i1]. *)
Definition grown (v : Version) (level : Z) (fs i0 i1 : files) : Prop :=
  i0 = fs \/ exists s l s2 l2, is_range fs s l
  /\ let second := filter (overlaps (Some (raw_user s)) (Some (raw_user l))) (level_files v (level + 1)) in
     second <> [] /\ is_range (fs ++ second) s2 l2 /\ of_range v level (Some (raw_user s2)) (Some (raw_user l2)) i0
  /\ (length fs < length i0)%nat /\ TotalFileSize second + TotalFileSize i0 < kExpandedCompactionByteSizeLimit
  /\ length i1 = length second.

Context (v : Version) (Hv : version_ranged v) (Hsizes : sizes_small v).

Lemma level_files_ranged level : Forall ranged (level_files v level).
Proof. apply (vr_levels _ Hv level). Qed.
Lemma inputs_ranged level fs : sublist fs (level_files v level) -> Forall ranged fs.
Proof. intros Hs. by eapply sublist_ranged; [|apply level_files_ranged]. Qed.

(** The files that overlap a range of internal keys. *)
Lemma overlapping_of level s l : internal_valid s -> internal_valid l -> exists b e,
  bound_le b (Some (raw_user s)) /\ bound_le (Some (raw_user l)) e
  /\ (level <> 0 -> b = Some (raw_user s) /\ e = Some (raw_user l))
  /\ GetOverlappingInputs v level (Some s) (Some l) = Ret (filter (overlaps b e) (level_files v level))
  /\ (level = 0 -> forall f, f ∈ level_files v level -> overlaps b e f -> within b e f).
Proof. intros Hs Hl. apply (GetOverlappingInputs_spec v level (Some s) (Some l)); [apply level_files_ranged|by intros ? [= <-]..]. Qed.

Lemma overlapping_below level s l : 0 < level -> internal_valid s -> internal_valid l ->
  GetOverlappingInputs v level (Some s) (Some l)
  = Ret (filter (overlaps (Some (raw_user s)) (Some (raw_user l))) (level_files v level)).
Proof. intros Hlv Hs Hl. destruct (overlapping_of level s l Hs Hl) as (b & e & _ & _ & Hbe & E & _). by destruct (Hbe ltac:(lia)) as [-> ->]. Qed.

(** The files that overlap the range of some of the level's files hold those. *)
Lemma overlapping_inputs level fs gs s l : fs <> [] -> sublist fs (level_files v level) -> is_range gs s l -> (forall f, f ∈ fs -> f ∈ gs) ->
  Forall ranged gs -> exists fs', GetOverlappingInputs v level (Some s) (Some l) = Ret fs'
  /\ inputs_ok v level fs' /\ of_range v level (Some (raw_user s)) (Some (raw_user l)) fs'.
Proof.
  intros Hne Hsub Hr Hin Hgs. destruct (range_valid _ _ _ Hgs Hr) as [Hs Hl].
  destruct (GetOverlappingInputs_range v level (Some s) (Some l)) as (fs' & -> & Hof & Hcl); [apply level_files_ranged|by intros ? [= <-]..|].
  exists fs'. split; [done|]. split; [|done]. split; [|apply Hof|done].
  destruct fs as [|f fs]; [done|]. assert (f ∈ level_files v level) as Hf by (eapply sublist_subseteq; [exact Hsub|left]).
  assert (overlaps (Some (raw_user s)) (Some (raw_user l)) f) as Ho.
  { rewrite list.Forall_forall in Hgs. eapply range_overlaps; [|exact Hr| | |]; [by apply Hgs, Hin; left|by apply Hin; left|..];
      cbn; unfold cmp_le; by rewrite cmp_refl. }
  intros ->. apply (not_elem_of_nil f). apply Hof. case_decide; [by constructor|done].
Qed.

Lemma sublist_size level fs : sublist fs (level_files v level) -> 0 <= TotalFileSize fs < 2^62.
Proof.
  intros Hs. apply total_size_small.
  - apply list.Forall_forall. intros f Hf. apply (Hsizes level). by apply (sublist_subseteq _ _ Hs).
  - apply sublist_length in Hs. pose proof (lr_bound _ (vr_levels _ Hv level)). lia.
Qed.

Lemma expanded_inputs_spec level inputs s l : 0 <= level -> inputs_ok v level inputs.1 ->
  sublist inputs.2 (level_files v (level + 1)) -> is_range (inputs.1 ++ inputs.2) s l ->
  exists r, expanded_inputs v level inputs s l = Ret r /\ forall s' l' i', r = Some (s', l', i') ->
    inputs_ok v level i'.1 /\ is_range i'.1 s' l'
    /\ i'.2 = filter (overlaps (Some (raw_user s')) (Some (raw_user l'))) (level_files v (level + 1))
    /\ of_range v level (Some (raw_user s)) (Some (raw_user l)) i'.1 /\ (length inputs.1 < length i'.1)%nat
    /\ TotalFileSize inputs.2 + TotalFileSize i'.1 < kExpandedCompactionByteSizeLimit /\ length i'.2 = length inputs.2.
Proof.
  intros Hlv Hok H2 Hr. unfold expanded_inputs. pose proof (inputs_ranged _ _ (io_level _ _ _ Hok)) as R1.
  pose proof (inputs_ranged _ _ H2) as R2.
  destruct (overlapping_inputs level inputs.1 (inputs.1 ++ inputs.2) s l (io_some _ _ _ Hok) (io_level _ _ _ Hok) Hr) as (e0 & -> & Hok0 & Hof);
    [intros f Hf; apply elem_of_app; by left|by apply Forall_app|].
  cbn [mbind res_bind]. destruct (Nat.ltb_spec (length inputs.1) (length e0)); [|by exists None].
  pose proof (sublist_size _ _ H2) as S2. pose proof (sublist_size _ _ (io_level _ _ _ Hok0)) as S0.
  unfold i64_add. rewrite decide_True by lia. cbn [mbind res_bind]. destruct (Z.ltb_spec (TotalFileSize inputs.2 + TotalFileSize e0) kExpandedCompactionByteSizeLimit); [|by exists None].
  destruct (GetRange_spec e0) as (s' & l' & -> & Hr0); [by eapply inputs_ranged, Hok0|apply Hok0|]. cbn [mbind res_bind].
  destruct (range_valid e0 s' l') as [Hvs Hvl]; [by eapply inputs_ranged, Hok0|done|].
  rewrite overlapping_below by (done || lia). cbn [mbind res_bind]. case_decide; [|by exists None].
  eexists. split; [done|]. by intros ? ? ? [= <- <- <-].
Qed.

Lemma SetupOtherInputs_spec c : 0 <= level_ c < config.kNumLevels - 1 -> inputs_ok v (level_ c) (inputs_of c 0) ->
  input_version_ c = Some v -> edit_ c = new_VersionEdit ->
  (grandparent_index_ c = 0%nat /\ seen_key_ c = false /\ overlapped_bytes_ c = 0
    /\ level_ptrs_ c = replicate (Z.to_nat config.kNumLevels) 0%nat) ->
  exists c' s l, SetupOtherInputs v c = Ret (c', l) /\ compaction_ok v c' s l
  /\ level_ c' = level_ c /\ grown v (level_ c) (inputs_of c 0) (inputs_of c' 0) (inputs_of c' 1).
Proof.
  intros Hlv Hok Hver Hed Hfresh. unfold SetupOtherInputs. pose proof (inputs_ranged _ _ (io_level _ _ _ Hok)) as R0.
  destruct (GetRange_spec (inputs_of c 0)) as (s & l & -> & Hr); [done|apply Hok|]. cbn [mbind res_bind].
  destruct (range_valid _ s l R0 Hr) as [Hvs Hvl]. rewrite overlapping_below by (done || lia). cbn [mbind res_bind].
  set (i1 := filter _ (level_files v (level_ c + 1))). assert (sublist i1 (level_files v (level_ c + 1))) as Hs1 by apply sublist_filter.
  assert (forall i0 i1, inputs_ok v (level_ c) i0 -> sublist i1 (level_files v (level_ c + 1)) ->
    exists s l, GetRange2 i0 i1 = Ret (s, l) /\ is_range (i0 ++ i1) s l) as Hr2.
  { intros i0 j1 H0 H1. apply GetRange_spec; [apply Forall_app; split; [by eapply inputs_ranged, H0|by eapply inputs_ranged]|].
    intros E. apply app_nil in E as [E _]. by apply (io_some _ _ _ H0). }
  destruct (Hr2 _ _ Hok Hs1) as (s2 & l2 & E2 & Hr2'). cbn [fst snd]. rewrite E2. cbn [mbind res_bind].
  assert (exists r, (if decide (i1 = []) then Ret None else expanded_inputs v (level_ c) (inputs_of c 0, i1) s2 l2) = Ret r
    /\ forall s' l' i', r = Some (s', l', i') -> inputs_ok v (level_ c) i'.1 /\ grown v (level_ c) (inputs_of c 0) i'.1 i'.2
      /\ is_range i'.1 s' l' /\ i'.2 = filter (overlaps (Some (raw_user s')) (Some (raw_user l'))) (level_files v (level_ c + 1)))
    as (r & -> & Hexp).
  { case_decide as Hi1; [by exists None|]. destruct (expanded_inputs_spec (level_ c) (inputs_of c 0, i1) s2 l2) as (r & E & Hr'); [lia|done..|].
    exists r. split; [exact E|]. intros s' l' i' Ei. destruct (Hr' s' l' i' Ei) as (H1 & H2 & H3 & H4 & H5 & H6 & H7).
    split; [done|]. split; [|done]. right. by exists s, l, s2, l2. }
  cbn [mbind res_bind].
  assert (exists s' l' i' as' al', match r with
      | Some (_, new_limit, inputs) => '(all_start, all_limit) ← GetRange2 inputs.1 inputs.2; Ret (new_limit, inputs, all_start, all_limit)
      | None => Ret (l, (inputs_of c 0, i1), s2, l2) end = Ret (l', i', as', al')
    /\ inputs_ok v (level_ c) i'.1 /\ grown v (level_ c) (inputs_of c 0) i'.1 i'.2 /\ is_range i'.1 s' l'
    /\ i'.2 = filter (overlaps (Some (raw_user s')) (Some (raw_user l'))) (level_files v (level_ c + 1))
    /\ is_range (i'.1 ++ i'.2) as' al') as (s' & l' & i' & as' & al' & -> & Hok' & Hsup & Hr' & Hi2 & Hra).
  { destruct r as [[[s' l'] i']|].
    - destruct (Hexp s' l' i' eq_refl) as (H1 & H2 & H3 & H4).
      destruct (Hr2 i'.1 i'.2 H1) as (as' & al' & -> & Ha); [rewrite H4; apply sublist_filter|].
      by exists s', l', i', as', al'.
    - exists s, l, (inputs_of c 0, i1), s2, l2. split; [done|]. split; [done|]. split; [by left|]. done. }
  cbn [mbind res_bind].
  assert (internal_valid as' /\ internal_valid al') as [Hva Hvb].
  { eapply range_valid; [|exact Hra]. apply Forall_app. split; [by eapply inputs_ranged, Hok'|].
    eapply inputs_ranged. rewrite Hi2. apply sublist_filter. }
  assert (exists gp, (if level_ c + 2 <? config.kNumLevels then GetOverlappingInputs v (level_ c + 2) (Some as') (Some al')
    else Ret (grandparents_ c)) = Ret gp
    /\ (level_ c + 2 < config.kNumLevels -> gp = filter (overlaps (Some (raw_user as')) (Some (raw_user al'))) (level_files v (level_ c + 2))))
    as (gp & -> & Hgp).
  { destruct (Z.ltb_spec (level_ c + 2) config.kNumLevels); [|by exists (grandparents_ c); split; [|lia]].
    rewrite overlapping_below by (done || lia). by eexists. }
  cbn [mbind res_bind]. eexists _, s', l'. split; [done|]. split; [|by split].
  split; try done; [by exists as', al'|cbn; by rewrite Hed].
Qed.
End inputs.

(** ** Picking *)

Section picking.
Context `{Comparator} {W : Type}.

(** The file after the compaction pointer: the first one that ends past it,
    or the level's first one if there is none or no pointer. *)
Definition past (pointer : bytes) (f : FileMetaData) : Prop := pointer = [] \/ cmp_lt internal_cmp pointer (largest f).
Definition next_file (fs : files) (pointer : bytes) (f : FileMetaData) : Prop :=
  (exists fs1 fs2, fs = fs1 ++ f :: fs2 /\ past pointer f /\ Forall (fun g => ~ past pointer g) fs1)
  \/ (head fs = Some f /\ Forall (fun g => ~ past pointer g) fs).

Lemma pick_after_spec fs pointer : Forall ranged fs -> pointer = [] \/ internal_valid pointer ->
  exists o, pick_after fs pointer = Ret o /\ match o with
    | Some f => exists fs1 fs2, fs = fs1 ++ f :: fs2 /\ past pointer f /\ Forall (fun g => ~ past pointer g) fs1
    | None => Forall (fun g => ~ past pointer g) fs end.
Proof.
  intros Hfs Hp. induction Hfs as [|f fs Hf Hfs IH]; [by exists None|]. cbn [pick_after].
  assert (exists b : bool, (if decide (pointer = []) then Ret true else r ← InternalCompare (largest f) pointer; Ret (r >? 0)) = Ret b
    /\ if b then past pointer f else ~ past pointer f) as (b & -> & Hb).
  { unfold past. case_decide as E; [exists true; by split; [|left]|]. destruct Hp as [|Hp]; [done|].
    destruct (compare_keys (largest f) pointer (rg_largest _ Hf) Hp) as (c & -> & _ & Hc). exists (c >? 0). split; [done|].
    destruct (Z.gtb_spec c 0); [right; apply Hc; lia|]. intros [|Hlt]; [done|]. apply Hc in Hlt. lia. }
  cbn [mbind res_bind]. destruct b.
  - exists (Some f). split; [done|]. by exists [], fs.
  - destruct IH as (o & -> & Ho). exists o. split; [done|]. destruct o as [g|]; [|by constructor].
    destruct Ho as (fs1 & fs2 & -> & Hg & H1). exists (f :: fs1), fs2. split; [done|]. split; [done|]. by constructor.
Qed.

Lemma pick_file_spec v level pointer : Forall ranged (level_files v level) -> level_files v level <> [] ->
  pointer = [] \/ internal_valid pointer -> exists f, pick_file v level pointer = Ret f /\ next_file (level_files v level) pointer f.
Proof.
  intros Hr Hne Hp. unfold pick_file. destruct (pick_after_spec _ _ Hr Hp) as ([f|] & -> & Ho); cbn [mbind res_bind].
  - exists f. split; [done|by left].
  - destruct (level_files v level) as [|f fs]; [done|]. exists f. split; [done|by right].
Qed.

Lemma next_file_in fs pointer f : next_file fs pointer f -> f ∈ fs.
Proof.
  intros [(fs1 & fs2 & -> & _)|[Hh _]]; [apply elem_of_app; right; left|]. destruct fs as [|g fs]; [done|]. injection Hh as ->. left.
Qed.

(** The level that [Finalize] finds to be too large is not the last and has
    files. *)
Lemma finalize_loop_level v n : forall level best_level best_score, 0 <= level ->
  finalize_loop n v level best_level best_score = (best_level, best_score)
  \/ exists l, finalize_loop n v level best_level best_score = (l, level_score v l) /\ level <= l < level + Z.of_nat n.
Proof.
  induction n as [|n IH]; intros level bl bs Hl; [by left|]. cbn [finalize_loop]. destruct (double_lt _ _).
  - destruct (IH (level + 1) level (level_score v level)) as [->|(l & -> & Hr)]; [lia| |]; right; [exists level|exists l]; (split; [done|lia]).
  - destruct (IH (level + 1) bl bs) as [->|(l & -> & Hr)]; [lia|by left|]. right. exists l. split; [done|lia].
Qed.

Lemma empty_level_score v level : 0 <= level < config.kNumLevels - 1 -> level_files v level = [] ->
  double_le (double_of_Z 1) (level_score v level) = false.
Proof.
  unfold config.kNumLevels, level_score, NumFiles. intros Hl E.
  assert (level = 0 \/ level = 1 \/ level = 2 \/ level = 3 \/ level = 4 \/ level = 5) as Hc by lia.
  repeat destruct Hc as [->|Hc]; try subst level; rewrite E; by vm_compute.
Qed.

Lemma Finalize_level v : double_le (double_of_Z 1) (compaction_score_ (Finalize v)) = true ->
  0 <= compaction_level_ (Finalize v) < config.kNumLevels - 1 /\ level_files v (compaction_level_ (Finalize v)) <> [].
Proof.
  unfold Finalize. destruct (finalize_loop_level v (Z.to_nat (config.kNumLevels - 1)) 0 (-1) (double_of_Z (-1))) as [->|(l & -> & Hl)];
    [done|by vm_compute|]. cbn [compaction_score_ compaction_level_]. intros Hs.
  assert (0 <= l < config.kNumLevels - 1) as Hl' by (unfold config.kNumLevels in *; lia). split; [done|].
  intros E. by rewrite (empty_level_score v l Hl' E) in Hs.
Qed.

(** What the current version must be for a compaction to be picked: the file
    asked for by the statistics is one of its files, and so on. *)
Record picks_ok (vs : VersionSet W) : Prop := {
  po_ranged : version_ranged (vs_current_ vs);
  po_sizes : sizes_small (vs_current_ vs);
  po_final : exists v, compaction_score_ (vs_current_ vs) = compaction_score_ (Finalize v)
    /\ compaction_level_ (vs_current_ vs) = compaction_level_ (Finalize v) /\ forall level, level_files (vs_current_ vs) level = [] -> level_files v level = [];
  po_seek f : file_to_compact_ (vs_current_ vs) = Some f ->
    0 <= file_to_compact_level_ (vs_current_ vs) < config.kNumLevels - 1
    /\ f ∈ level_files (vs_current_ vs) (file_to_compact_level_ (vs_current_ vs));
  po_pointers : length (vs_compact_pointer_ vs) = Z.to_nat config.kNumLevels;
  po_keys : Forall (fun p => p = [] \/ internal_valid p) (vs_compact_pointer_ vs);
}.

(** The outcome of setting up a compaction of the files [fs] of a level of the
    current version. *)
Definition set_up_of (vs : VersionSet W) (level : Z) (fs : files) (r : option Compaction * VersionSet W) : Prop :=
  exists c s l, r = (Some c, set_compact_pointer vs level l) /\ compaction_ok (vs_current_ vs) c s l
  /\ level_ c = level /\ grown (vs_current_ vs) level fs (inputs_of c 0) (inputs_of c 1).

(** The file that [PickCompaction] begins with: by size, the next one of the
    level with the best score; otherwise the one that was sought too often. *)
Definition picked (vs : VersionSet W) (level : Z) (f : FileMetaData) : Prop :=
  let v := vs_current_ vs in
  if double_le (double_of_Z 1) (compaction_score_ v) then
    level = compaction_level_ v
    /\ exists pointer, vs_compact_pointer_ vs !! Z.to_nat level = Some pointer /\ next_file (level_files v level) pointer f
  else level = file_to_compact_level_ v /\ file_to_compact_ v = Some f.

(** The first inputs for it: in level 0, with the files that it pulls in. *)
Definition first_inputs (v : Version) (level : Z) (f : FileMetaData) (fs : files) : Prop :=
  if decide (level = 0) then of_range v level (Some (start_user f)) (Some (limit_user f)) fs else fs = [f].

Lemma set_up_spec vs level fs : version_ranged (vs_current_ vs) -> sizes_small (vs_current_ vs) ->
  0 <= level < config.kNumLevels - 1 -> inputs_ok (vs_current_ vs) level fs ->
  exists r, ('(c, vs) ← set_up vs (with_inputs (with_input_version (new_Compaction level) (Some (vs_current_ vs))) (fs, []));
             Ret (Some c, vs)) = Ret r /\ set_up_of vs level fs r.
Proof.
  intros Hr Hs Hl Hok. unfold set_up.
  destruct (SetupOtherInputs_spec (vs_current_ vs) Hr Hs (with_inputs (with_input_version (new_Compaction level) (Some (vs_current_ vs))) (fs, [])))
    as (c & s & l & -> & Hc & Hlc & Hsup); [done..|]. cbn [mbind res_bind]. eexists. split; [done|].
  exists c, s, l. by rewrite Hlc.
Qed.

Lemma range_one f : ranged f -> is_range [f] (smallest f) (largest f).
Proof.
  intros Hf. split; [exists f|exists f|]; try by split; [apply list_elem_of_singleton|].
  intros g ->%list_elem_of_singleton. unfold cmp_le. by rewrite !cmp_refl.
Qed.

(** The compaction of a file, once it is picked. *)
Lemma pick_first vs level f : picks_ok vs -> 0 <= level < config.kNumLevels - 1 -> f ∈ level_files (vs_current_ vs) level ->
  let c := with_input_version (with_inputs (new_Compaction level) ([f], [])) (Some (vs_current_ vs)) in
  exists fs r, (c ← (if decide (level = 0) then
               '(smallest_, largest_) ← GetRange (inputs_of c 0);
               inputs0 ← GetOverlappingInputs (vs_current_ vs) 0 (Some smallest_) (Some largest_);
               Ret (with_inputs c (inputs0, []))
             else Ret c);
        '(c, vs) ← set_up vs c;
        Ret (Some c, vs)) = Ret r /\ first_inputs (vs_current_ vs) level f fs /\ set_up_of vs level fs r.
Proof.
  intros Hp Hl Hf. set (v := vs_current_ vs) in *. pose proof (level_files_ranged v (po_ranged _ Hp) level) as Hrl.
  assert (ranged f) as Hrf by (rewrite list.Forall_forall in Hrl; by apply Hrl). cbn zeta. unfold first_inputs. case_decide as H0.
  - subst level. change (inputs_of _ 0) with [f]. cbn [GetRange range_loop mbind res_bind].
    destruct (overlapping_inputs v (po_ranged _ Hp) 0 [f] [f] (smallest f) (largest f)) as (fs & -> & Hok & Hof);
      [done|by apply singleton_sublist_l|by apply range_one|done|by constructor|].
    cbn [mbind res_bind]. exists fs. destruct (set_up_spec vs 0 fs (po_ranged _ Hp) (po_sizes _ Hp) Hl Hok) as (r & E & Hs). by exists r.
  - exists [f]. destruct (set_up_spec vs level [f] (po_ranged _ Hp) (po_sizes _ Hp) Hl) as (r & E & Hs); [|by exists r].
    split; [done|by apply singleton_sublist_l|by intros E].
Qed.

Lemma PickCompaction_spec vs : picks_ok vs ->
  if NeedsCompaction vs then exists level f fs r, picked vs level f /\ first_inputs (vs_current_ vs) level f fs
    /\ PickCompaction vs = Ret r /\ set_up_of vs level fs r
  else PickCompaction vs = Ret (None, vs).
Proof.
  intros Hp. unfold NeedsCompaction, PickCompaction, picked. set (v := vs_current_ vs).
  destruct (double_le _ _) eqn:Esc; cbn [orb].
  - destruct (po_final _ Hp) as (v' & E1 & E2 & E3). fold v in E1, E2, E3. rewrite E1 in Esc. destruct (Finalize_level v' Esc) as [Hl Hne].
    rewrite <- E2 in Hl, Hne. assert (level_files v (compaction_level_ v) <> []) as Hne' by (intros E; by apply Hne, E3).
    destruct (lookup_lt_is_Some_2 (vs_compact_pointer_ vs) (Z.to_nat (compaction_level_ v))) as [pt Ept].
    { rewrite (po_pointers _ Hp). lia. }
    unfold nth_res. rewrite decide_True by lia. rewrite Ept. cbn [of_option mbind res_bind].
    destruct (pick_file_spec v (compaction_level_ v) pt) as (f & -> & Hf); [apply (level_files_ranged v (po_ranged _ Hp))|done|by apply (Forall_lookup_1 _ _ _ _ (po_keys _ Hp) Ept)|].
    cbn [mbind res_bind]. destruct (pick_first vs (compaction_level_ v) f Hp Hl (next_file_in _ _ _ Hf)) as (fs & r & E & Hfi & Hset).
    exists (compaction_level_ v), f, fs, r. split; [split; [done|by exists pt]|done].
  - destruct (file_to_compact_ v) as [f|] eqn:Ef; [|by rewrite bool_decide_false by (by intros [? ?])].
    rewrite bool_decide_true by done. cbn [fmap option_fmap option_map mbind res_bind]. destruct (po_seek _ Hp f Ef) as [Hl Hf].
    destruct (pick_first vs (file_to_compact_level_ v) f Hp Hl Hf) as (fs & r & E & Hfi & Hset).
    by exists (file_to_compact_level_ v), f, fs, r.
Qed.
End picking.

Section ranges_of_keys.
Context `{Comparator} {W : Type}.

(** The files up to the one with which their sizes reach the limit. *)
Definition sizes (fs : files) : Z := foldr (fun f n => file_size f + n) 0 fs.
Definition up_to_limit (limit : Z) (fs first : files) : Prop :=
  exists rest, fs = first ++ rest /\ (rest = [] \/ limit <= sizes first)
  /\ forall fs1 fs2, first = fs1 ++ fs2 -> fs1 <> [] -> fs2 <> [] -> sizes fs1 < limit.

Lemma sizes_cons f fs : sizes (f :: fs) = file_size f + sizes fs.
Proof. reflexivity. Qed.

Lemma resize_loop_spec limit fs : Forall (fun f => 0 <= file_size f < 2^31) fs -> forall total,
  0 <= total -> total + Z.of_nat (length fs) * 2^31 < 2^64 -> up_to_limit (limit - total) fs (resize_loop fs total limit)
  /\ (fs <> [] -> resize_loop fs total limit <> []).
Proof.
  induction 1 as [|f fs Hf Hfs IH]; intros total Ht Hb; cbn [resize_loop length] in *.
  { split; [|done]. exists []. split; [done|]. split; [by left|]. intros [|g fs1] fs2 E; done. }
  rewrite u64_small by lia. destruct (Z.geb_spec (total + file_size f) limit) as [Hge|Hlt]; (split; [|done]).
  - exists fs. split; [done|]. split; [right; rewrite sizes_cons; cbn; lia|]. intros [|g [|g' fs1]] fs2 E; [done| |done]. by injection E as _ <-.
  - destruct (IH (total + file_size f)) as [(rest & E & Hr & Hl) _]; [lia..|]. exists rest. split; [cbn; by rewrite E at 1|].
    split; [destruct Hr; [by left|right; rewrite sizes_cons; lia]|]. intros [|g fs1] fs2 E2 H1 H2; [done|]. injection E2 as <- E2.
    rewrite sizes_cons. destruct fs1 as [|h fs1]; [cbn; lia|]. specialize (Hl (h :: fs1) fs2 E2 ltac:(done) H2). lia.
Qed.

Lemma CompactRange_spec (vs : VersionSet W) level begin end_ : version_ranged (vs_current_ vs) -> sizes_small (vs_current_ vs) ->
  0 <= level < config.kNumLevels - 1 ->
  (forall x, begin = Some x -> internal_valid x) -> (forall x, end_ = Some x -> internal_valid x) ->
  exists fs, of_range (vs_current_ vs) level (raw_user <$> begin) (raw_user <$> end_) fs
  /\ if decide (fs = []) then CompactRange vs level begin end_ = Ret (None, vs)
     else exists first r, (if 0 <? level then up_to_limit (MaxFileSizeForLevel level) fs first else first = fs) /\ first <> []
       /\ CompactRange vs level begin end_ = Ret r /\ set_up_of vs level first r.
Proof.
  intros Hr Hs Hl Hb He. unfold CompactRange. set (v := vs_current_ vs) in *.
  destruct (GetOverlappingInputs_range v level begin end_ (level_files_ranged v Hr level) Hb He) as (fs & -> & Hof & Hcl).
  exists fs. split; [done|]. cbn [mbind res_bind]. case_decide as Hne; [done|].
  destruct (resize_loop_spec (MaxFileSizeForLevel level) fs) with (total := 0) as [Hup Hn0]; [|lia|..].
  { apply list.Forall_forall. intros f Hf. apply (Hs level). by apply (sublist_subseteq _ _ (proj1 Hof)). }
  { pose proof (sublist_length _ _ (proj1 Hof)). pose proof (lr_bound _ (vr_levels _ Hr level)). lia. }
  rewrite Z.sub_0_r in Hup.
  assert (inputs_ok v level (if 0 <? level then resize_loop fs 0 (MaxFileSizeForLevel level) else fs)) as Hok.
  { destruct (Z.ltb_spec 0 level); [|by split; [|apply Hof|]]. split; [by apply Hn0| |intros E; lia].
    destruct Hup as (rest & E & _). etrans; [|apply Hof]. rewrite E at 2. by apply sublist_inserts_r. }
  destruct (set_up_spec vs level _ Hr Hs Hl Hok) as (r & E & Hset). eexists _, r. split; [|split; [apply Hok|by split]].
  by destruct (0 <? level).
Qed.
End ranges_of_keys.

(** ** Whether there is data below *)

Section base_level.
Context `{Comparator} (v : Version) (Hv : version_ranged v).

Definition holds_key (k : bytes) (f : FileMetaData) : Prop := overlaps (Some k) (Some k) f.
#[export] Instance holds_key_dec k f : Decision (holds_key k f) := _.

(** The files before the pointer end before the key. *)
Definition passed (fs : files) (p : nat) (k : bytes) : Prop :=
  forall i f, (i < p)%nat -> fs !! i = Some f -> Compare k (limit_user f) > 0.

Lemma holds_key_compare k f : holds_key k f <-> Compare k (limit_user f) <= 0 /\ 0 <= Compare k (start_user f).
Proof.
  unfold holds_key, overlaps. pose proof (Compare_flip k (limit_user f)). pose proof (Compare_flip (start_user f) k).
  pose proof (Compare_flip (limit_user f) k). pose proof (Compare_flip k (start_user f)). lia.
Qed.

Lemma base_level_loop_spec fs k n : Forall ranged fs -> StronglySorted file_before fs -> forall p, (length fs - p <= n)%nat -> passed fs p k ->
  exists p', base_level_loop (drop p fs) p k = Ret (p', bool_decide (~ Exists (holds_key k) fs)) /\ passed fs p' k.
Proof.
  intros Hr Hso. induction n as [|n IH]; intros p Hn Hp.
  all: destruct (fs !! p) as [f|] eqn:E.
  1: apply lookup_lt_Some in E; lia.
  2: rewrite (drop_S _ _ _ E).
  1, 3: apply lookup_ge_None in E; rewrite drop_ge by done; cbn [base_level_loop]; exists p; split; [|done];
        do 2 f_equal; symmetry; apply bool_decide_true; intros (g & Hg & Hk)%Exists_exists;
        apply list_elem_of_In, list_elem_of_lookup in Hg as [i Ei]; apply lookup_lt_Some in Ei as Hi;
        specialize (Hp i g ltac:(lia) Ei); apply holds_key_compare in Hk; lia.
  pose proof (Forall_lookup_1 _ _ _ _ Hr E) as Hf. cbn [base_level_loop]. rewrite largest_user_eq by done. cbn [mbind res_bind].
  destruct (Z.leb_spec (Compare k (limit_user f)) 0) as [Hle|Hgt].
  - rewrite smallest_user_eq by done. cbn [mbind res_bind]. exists p. split; [|done]. do 2 f_equal.
    pose proof (list_elem_of_lookup_2 _ _ _ E) as Hin.
    destruct (Z.geb_spec (Compare k (start_user f)) 0) as [Hge|Hlt]; cbn [negb].
    + symmetry. apply bool_decide_false. intros Hn'. apply Hn', Exists_exists. exists f. split; [by apply list_elem_of_In|].
      by apply holds_key_compare.
    + symmetry. apply bool_decide_true. intros (g & Hg & Hk)%Exists_exists. apply holds_key_compare in Hk as [H1 H2].
      apply list_elem_of_In, list_elem_of_lookup in Hg as [i Ei]. destruct (decide (i < p)%nat) as [Hi|Hi]; [specialize (Hp i g Hi Ei); lia|].
      pose proof (start_mono fs p i f g Hr Hso ltac:(lia) E Ei) as Hst. unfold cmp_le in Hst. rewrite <- Compare_le in Hst.
      assert (Compare k (start_user g) < 0); [|lia]. apply Compare_lt. change (cmp_lt ucmp k (start_user g)).
      apply (cmp_lt_le_trans ucmp _ (start_user f)); [by apply Compare_lt|by apply Compare_le].
  - apply IH; [lia|]. intros i g Hi Ei. destruct (decide (i = p)) as [->|]; [|apply (Hp i); [lia|done]].
    rewrite E in Ei. injection Ei as <-. lia.
Qed.

(** Every level from [lvl] on. *)
Definition passed_from (lvl : Z) (ptrs : list nat) (k : bytes) : Prop :=
  forall l, lvl <= l < config.kNumLevels -> exists p, ptrs !! Z.to_nat l = Some p /\ passed (level_files v l) p k.

Lemma passed_mono fs p k k' : cmp_le ucmp k k' -> passed fs p k -> passed fs p k'.
Proof.
  intros Hk Hp i f Hi Ef. specialize (Hp i f Hi Ef). apply Z.lt_gt, Compare_flip. apply Z.gt_lt, Compare_flip in Hp.
  apply Compare_lt. apply Compare_lt in Hp. change (cmp_lt ucmp (limit_user f) k'). by apply (cmp_lt_le_trans ucmp _ k).
Qed.

Lemma base_levels_loop_spec k n : forall lvl ptrs, 0 < lvl -> lvl + Z.of_nat n = config.kNumLevels -> length ptrs = Z.to_nat config.kNumLevels ->
  passed_from lvl ptrs k -> exists ptrs' b, base_levels_loop n v lvl ptrs k = Ret (ptrs', b)
  /\ (b = true <-> forall l f, lvl <= l < config.kNumLevels -> f ∈ level_files v l -> ~ holds_key k f)
  /\ length ptrs' = Z.to_nat config.kNumLevels /\ passed_from lvl ptrs' k
  /\ forall i, (i < Z.to_nat lvl)%nat -> ptrs' !! i = ptrs !! i.
Proof.
  induction n as [|n IH]; intros lvl ptrs Hl Hn Hlen Hp.
  { exists ptrs, true. split; [done|]. split; [split; [intros _ l f ?; lia|done]|done]. }
  cbn [base_levels_loop]. destruct (Hp lvl) as (p & Ep & Hpp); [lia|].
  unfold nth_res. rewrite decide_True, Ep by lia. cbn [of_option mbind res_bind].
  destruct (base_level_loop_spec (level_files v lvl) k (length (level_files v lvl)) (level_files_ranged v Hv lvl) (vr_disjoint _ Hv lvl Hl) p)
    as (p' & -> & Hp'); [lia|done|]. cbn [mbind res_bind].
  assert (passed_from lvl (<[Z.to_nat lvl := p']> ptrs) k) as Hpf.
  { intros l Hll. destruct (decide (l = lvl)) as [->|].
    - exists p'. split; [|done]. apply list_lookup_insert_eq. lia.
    - destruct (Hp l Hll) as (q & Eq & Hq). exists q. split; [|done]. rewrite list_lookup_insert_ne by lia. done. }
  case_bool_decide as Hno.
  - destruct (IH (lvl + 1) (<[Z.to_nat lvl := p']> ptrs)) as (ptrs' & b & -> & Hb & Hlen' & Hps & Hsame); [lia|lia|by rewrite length_insert| |].
    { intros l Hll. apply Hpf. lia. }
    exists ptrs', b. split; [done|]. split; [|split; [done|split]].
    + rewrite Hb. split; intros Ha l f Hll Hf; [|apply (Ha l f); [lia|done]]. destruct (decide (l = lvl)) as [->|]; [|apply (Ha l f); [lia|done]].
      intros Hk. apply Hno, Exists_exists. exists f. split; [by apply list_elem_of_In|done].
    + intros l Hll. destruct (decide (l = lvl)) as [->|]; [|apply Hps; lia]. exists p'. split; [|done].
      rewrite Hsame by lia. apply list_lookup_insert_eq. lia.
    + intros i Hi. rewrite Hsame by lia. apply list_lookup_insert_ne. lia.
  - exists (<[Z.to_nat lvl := p']> ptrs), false. split; [done|]. split; [|split; [by rewrite length_insert|split; [done|]]].
    + split; [done|]. intros Ha. exfalso. apply Exists_exists in Hno as (f & Hf & Hk). apply (Ha lvl f); [lia|by apply list_elem_of_In|done].
    + intros i Hi. apply list_lookup_insert_ne. lia.
Qed.
End base_level.

(** ** Properties *)


(** ** A user key at a boundary

    Two files of level 1 that share a user key: the picked one moves down and
    leaves the older write above it. *)
#[local] Existing Instance BytewiseComparator.

Definition boundary_tables (n : Z) : list write :=
  if n =? 4 then [sample_write "a" 9 "x"; sample_write "b" 7 "new"]
  else if n =? 5 then [sample_write "b" 3 "old"; sample_write "c" 2 "y"] else [].

Definition boundary_file (n : Z) : FileMetaData :=
  let ws := boundary_tables n in
  mkFileMetaData 1 100 n 1000 (default [] (encode_key ∘ fst <$> head ws)) (default [] (encode_key ∘ fst <$> list.last ws)).

Definition boundary_version : Version :=
  with_file_to_compact (Finalize (with_files_ new_Version [[]; [boundary_file 4; boundary_file 5]; []; []; []; []; []]))
    (Some (boundary_file 4)) 1.
Definition boundary_set : VersionSet unit :=
  mkVersionSet 9 2 9 0 0 None boundary_version (replicate 7 []).

Lemma boundary_levels level f : f ∈ level_files boundary_version level ->
  level = 1 /\ (f = boundary_file 4 \/ f = boundary_file 5).
Proof.
  unfold level_files. change (files_ boundary_version) with [[]; [boundary_file 4; boundary_file 5]; []; []; []; []; []].
  destruct (Z.to_nat level) as [|[|[|[|[|[|[|[|k]]]]]]]] eqn:E; cbn [nth];
    intros Hf; rewrite ?elem_of_cons, ?elem_of_nil in Hf; naive_solver lia.
Qed.

Lemma boundary_wf : version_wf boundary_tables boundary_version.
Proof.
  split.
  - reflexivity.
  - intros level f [_ [->| ->]]%boundary_levels;
      (split; [repeat constructor; discriminate|repeat constructor|eexists; split; reflexivity|eexists; split; reflexivity]).
  - intros level. unfold level_files. change (files_ boundary_version) with [[]; [boundary_file 4; boundary_file 5]; []; []; []; []; []].
    by destruct (Z.to_nat level) as [|[|[|[|[|[|[|[|k]]]]]]]].
  - intros level _. unfold level_files. change (files_ boundary_version) with [[]; [boundary_file 4; boundary_file 5]; []; []; []; []; []].
    destruct (Z.to_nat level) as [|[|[|[|[|[|[|[|k]]]]]]]]; repeat constructor.
  - constructor.
  - intros f g Hf. apply boundary_levels in Hf as [? _]. done.
  - intros l l' Hl a b Ha Hb. exfalso.
    assert (forall k x, x ∈ files_writes boundary_tables (level_files boundary_version k) -> k = 1) as Hone
      by (intros k x (f & Hf & _)%elem_of_files_writes; by apply boundary_levels in Hf as [? _]).
    pose proof (Hone l a Ha). pose proof (Hone l' b Hb). lia.
Qed.

Lemma boundary_picks : picks_ok boundary_set.
Proof.
  split.
  - apply (wf_ranged boundary_tables), boundary_wf.
  - by intros level f [_ [->| ->]]%boundary_levels.
  - exists (with_files_ new_Version [[]; [boundary_file 4; boundary_file 5]; []; []; []; []; []]). split; [done|]. split; [done|].
    intros level E. exact E.
  - intros f [= <-]. split; [done|].
    change (level_files boundary_version _) with [boundary_file 4; boundary_file 5]. apply list_elem_of_here.
  - done.
  - repeat constructor.
Qed.


(** The move of a file down, as the code logs it. *)
Definition move_edit (c : Compaction) (f : FileMetaData) : VersionEdit :=
  AddFile (DeleteFile (edit_ c) (level_ c) (number f)) (level_ c + 1) (number f) (file_size f) (smallest f) (largest f).

(** A compaction is picked and, when it is a trivial move, done: whether it was
    one, and what a get finds before and after. *)
Definition pick_move_get (C : Z -> list write) (vs : VersionSet unit) (k : LookupKey)
    : res (bool * (Status.t * bytes) * (Status.t * bytes)) :=
  '(c, vs') ← PickCompaction vs;
  c ← of_option c;
  f ← input c 0 0;
  '(_, b) ← Apply (vs_compact_pointer_ vs') (new_Builder (vs_current_ vs)) (move_edit c f);
  v' ← SaveTo b new_Version;
  '(s, value, _) ← @Version_Get _ (list_cache C) (vs_current_ vs) k [];
  '(s', value', _) ← @Version_Get _ (list_cache C) v' k [];
  Ret (IsTrivialMove c, (s, value), (s', value')).

(** The picking of a compaction may split the writes of a user key: over a
    version that keeps all its invariants it picks a file that ends in a user
    key that the next file of the level begins with, and the trivial move of
    that file makes a read find the older write. *)
Theorem boundary_hides_newest : version_wf boundary_tables boundary_version
  /\ pick_move_get boundary_tables boundary_set (LookupKey_make (lit "b") 9)
     = Ret (true, (Status.OK, lit "new"), (Status.OK, lit "old")).
Proof. split; [exact boundary_wf|]. vm_compute. reflexivity. Qed.
