(* ===== verification/CompactionView.v ===== *)
(** * CompactionView: what a compaction drops (db/db_impl.cc, DoCompactionWork)

    The rule that drops entries, as the loop of [DoCompactionWork] applies it to
    the merged inputs, and what it leaves of the views of the snapshots: a
    version whose inputs are replaced by the entries kept keeps its invariants
    and answers every snapshot from the smallest one on as before, when the
    inputs from levels other than 0 split no user key ([user_closed];
    [Compaction.boundary_hides_newest] shows that the code does not ensure
    it). *)

From S2P Require Import Prelude CLib Coding Status DbFormat SkipList MemTable KeyOrder Iterator VersionEdit Version VersionBuilder VersionSet Compaction.

(** ** The rule *)

(** [has_current_user_key] with [current_user_key], [last_sequence_for_key]
    and the compaction, whose pointers move. *)
Record DropState := mkDropState {
  current_user_key : option bytes;
  last_sequence_for_key : Z;
  drop_compaction : Compaction;
}.
Definition new_DropState (c : Compaction) : DropState := mkDropState None kMaxSequenceNumber c.
Definition with_compaction (d : DropState) (c : Compaction) : DropState :=
  mkDropState (current_user_key d) (last_sequence_for_key d) c.

Section rule.
Context `{Comparator} (smallest_snapshot : Z).

(** Whether the entry is dropped. *)
Definition drop_entry (d : DropState) (key : bytes) : res (DropState * bool) :=
  match ParseInternalKey key with
  | None => Ret (mkDropState None kMaxSequenceNumber (drop_compaction d), false)
  | Some ikey =>
      let first := match current_user_key d with
                   | None => true
                   | Some k => negb (bool_decide (Compare (user_key ikey) k = 0))
                   end in
      let current := if first then Some (user_key ikey) else current_user_key d in
      let last := if first then kMaxSequenceNumber else last_sequence_for_key d in
      '(c, drop) ← (if last <=? smallest_snapshot then Ret (drop_compaction d, true)
                    else if bool_decide (type ikey = kTypeDeletion) && (sequence ikey <=? smallest_snapshot)
                    then IsBaseLevelForKey (drop_compaction d) (user_key ikey)
                    else Ret (drop_compaction d, false));
      Ret (mkDropState current (sequence ikey) c, drop)
  end.

(** ** The entries kept, as a function of the writes *)

Context (base : bytes -> bool).

(** The last write seen, by its user key and sequence number. *)
Definition hidden (last : option (bytes * Z)) (e : write) : bool :=
  match last with
  | Some (k, q) => bool_decide (Compare (user_key e.1) k = 0) && (q <=? smallest_snapshot)
  | None => false
  end.
(** A deletion that nothing is left to be deleted by. *)
Definition obsolete (e : write) : bool :=
  bool_decide (type e.1 = kTypeDeletion) && (sequence e.1 <=? smallest_snapshot) && base (user_key e.1).
Definition seen (e : write) : option (bytes * Z) := Some (user_key e.1, sequence e.1).

Fixpoint survivors (last : option (bytes * Z)) (ws : list write) : list write :=
  match ws with
  | [] => []
  | e :: ws => if hidden last e || obsolete e then survivors (seen e) ws else e :: survivors (seen e) ws
  end.

Lemma survivors_sublist last ws : sublist (survivors last ws) ws.
Proof. revert last. induction ws as [|e ws IH]; intros last; [done|]. cbn. case_match; [by apply sublist_cons|by apply sublist_skip]. Qed.

Lemma survivors_elem last ws e : e ∈ survivors last ws -> e ∈ ws.
Proof. apply sublist_subseteq, survivors_sublist. Qed.

(** A snapshot from the smallest on sees the same first write, unless it is an
    obsolete deletion: then it sees nothing. *)
Definition left_of (o : option write) : option write :=
  match o with Some e => if obsolete e then None else Some e | None => None end.

Lemma hidden_eq last e u : ucmp (user_key e.1) u = Eq ->
  hidden last e = match last with Some (k, q) => bool_decide (ucmp k u = Eq) && (q <=? smallest_snapshot) | None => false end.
Proof.
  intros He. unfold hidden. destruct last as [[k q]|]; [|done]. f_equal. apply bool_decide_ext. rewrite Compare_eq.
  rewrite (cmp_eq_l (cmp:=ucmp) _ _ _ He). rewrite (cmp_antisym (cmp:=ucmp) k u). by destruct (ucmp k u).
Qed.

Lemma first_visible_cons u s e ws : first_visible u s (e :: ws) = if decide (visible u s e) then Some e else first_visible u s ws.
Proof. unfold first_visible. rewrite filter_cons. by case_decide. Qed.

Lemma write_users (a b : write) : cmp_lt write_cmp a b -> cmp_le ucmp (user_key a.1) (user_key b.1).
Proof. unfold cmp_lt, write_cmp, ikey_cmp, cmp_then, cmp_on, cmp_le. by destruct (ucmp (user_key a.1) (user_key b.1)). Qed.

(** [last] may precede the writes. *)
Definition precedes (last : option (bytes * Z)) (ws : list write) : Prop :=
  match last with Some (k, q) => forall e, e ∈ ws -> cmp_le ucmp k (user_key e.1) /\ (ucmp (user_key e.1) k = Eq -> sequence e.1 <= q) | None => True end.

Lemma seen_precedes e ws : StronglySorted (cmp_lt write_cmp) (e :: ws) -> precedes (seen e) ws.
Proof.
  intros [_ Hf]%StronglySorted_inv x Hx. rewrite Forall_forall in Hf. specialize (Hf x (proj1 (list_elem_of_In _ _) Hx)). split.
  - by apply write_users.
  - intros Hu. apply key_order_newest; [done|]. by rewrite (cmp_antisym (cmp:=ucmp)), Hu.
Qed.

Lemma survivors_view u s ws : StronglySorted (cmp_lt write_cmp) ws -> smallest_snapshot <= s ->
  forall last, precedes last ws ->
  first_visible u s (survivors last ws)
  = match last with
    | Some (k, q) => if bool_decide (ucmp k u = Eq) && (q <=? smallest_snapshot) then None else left_of (first_visible u s ws)
    | None => left_of (first_visible u s ws)
    end.
Proof.
  intros Hso Hs. induction ws as [|e ws IH]; intros last Hp.
  { cbn. destruct last as [[k q]|]; [by case_match|done]. }
  pose proof (seen_precedes _ _ Hso) as Hpe. apply StronglySorted_inv in Hso as [Hso Hf]. specialize (IH Hso (seen e) Hpe). cbn [seen] in IH.
  set (gone := match last with Some (k, q) => bool_decide (ucmp k u = Eq) && (q <=? smallest_snapshot) | None => false end).
  assert (forall o : option write, match last with Some (k, q) => if bool_decide (ucmp k u = Eq) && (q <=? smallest_snapshot) then None else o | None => o end
    = (if gone then None else o)) as -> by (intros o; unfold gone; by destruct last as [[k q]|]).
  cbn [survivors]. destruct (decide (ucmp (user_key e.1) u = Eq)) as [Hu|Hu].
  - rewrite (hidden_eq _ _ _ Hu). fold gone. rewrite bool_decide_true in IH by done. cbn [andb] in IH.
    destruct gone eqn:Eg; cbn [orb].
    + rewrite IH. assert ((sequence e.1 <=? smallest_snapshot) = true) as ->; [|done]. apply Z.leb_le.
      unfold gone in Eg. destruct last as [[k q]|]; [|done]. apply andb_true_iff in Eg as [Ek Eq]. apply bool_decide_eq_true in Ek.
      apply Z.leb_le in Eq. cbn in Hp. assert (sequence e.1 <= q); [|lia]. apply (Hp e ltac:(left)).
      rewrite (cmp_eq_l (cmp:=ucmp) _ _ _ Hu). by rewrite (cmp_antisym (cmp:=ucmp)), Ek.
    + rewrite first_visible_cons. destruct (decide (visible u s e)) as [Hv|Hv].
      * cbn [left_of]. destruct (obsolete e) eqn:Eo; [|by rewrite first_visible_cons, decide_True].
        rewrite IH. unfold obsolete in Eo. rewrite !andb_true_iff in Eo. destruct Eo as [[_ ->] _]. done.
      * assert (s < sequence e.1) as Hgt by (destruct (decide (sequence e.1 <= s)); [by destruct Hv|lia]).
        assert ((sequence e.1 <=? smallest_snapshot) = false) as El by (apply Z.leb_gt; lia).
        unfold obsolete. rewrite El, andb_false_r. cbn [andb]. rewrite first_visible_cons, decide_False by done.
        by rewrite El in IH.
  - rewrite bool_decide_false in IH by done. cbn [andb] in IH.
    assert (first_visible u s (e :: ws) = first_visible u s ws) as Enot.
    { rewrite first_visible_cons, decide_False; [done|]. by intros [? _]. }
    assert (first_visible u s (if hidden last e || obsolete e then survivors (seen e) ws else e :: survivors (seen e) ws) = first_visible u s (survivors (seen e) ws)) as ->.
    { case_match; [done|]. rewrite first_visible_cons, decide_False; [done|]. by intros [? _]. }
    rewrite IH, Enot. destruct gone eqn:Eg; [|done].
    (* the key has been passed: nothing to it comes after *)
    assert (first_visible u s ws = None) as ->; [|done].
    unfold gone in Eg. destruct last as [[k q]|]; [|done]. apply andb_true_iff in Eg as [Ek _]. apply bool_decide_eq_true in Ek.
    apply first_visible_none. intros x Hx [Hxu _]. destruct (Hp e) as [Hke _]; [left|].
    rewrite Forall_forall in Hf. pose proof (write_users _ _ (Hf x (proj1 (list_elem_of_In _ _) Hx))) as Hex.
    apply Hu. unfold cmp_le in Hke, Hex. rewrite (cmp_eq_r ucmp (user_key e.1) _ _ Hxu) in Hex.
    rewrite (cmp_eq_l (cmp:=ucmp) _ _ _ Ek), (cmp_antisym (cmp:=ucmp) (user_key e.1) u) in Hke. by destruct (ucmp (user_key e.1) u).
Qed.
End rule.

(** ** The rule as the loop applies it *)

Section rule_spec.
Context `{Comparator} (smallest_snapshot : Z) (v : Version) (level : Z).
Context (Hv : version_ranged v) (Hlevel : 0 <= level < config.kNumLevels - 1) (Hsmallest : smallest_snapshot < kMaxSequenceNumber).

(** No file below the output level holds the key. *)
Definition base_level (k : bytes) : bool :=
  forallb (fun l => bool_decide (~ Exists (holds_key k) (level_files v l))) (seqZ (level + 2) (config.kNumLevels - (level + 2))).

Lemma base_level_true k : base_level k = true <-> forall l f, level + 2 <= l < config.kNumLevels -> f ∈ level_files v l -> ~ holds_key k f.
Proof.
  unfold base_level. rewrite forallb_forall. split.
  - intros Hb l f Hl Hf Hk. specialize (Hb l). rewrite <- list_elem_of_In, elem_of_seqZ in Hb. specialize (Hb ltac:(lia)).
    apply bool_decide_eq_true in Hb. apply Hb, Exists_exists. exists f. by rewrite <- list_elem_of_In.
  - intros Hb l Hl. rewrite <- list_elem_of_In, elem_of_seqZ in Hl. apply bool_decide_true.
    intros (f & Hf & Hk)%Exists_exists. apply (Hb l f); [lia|by apply list_elem_of_In|done].
Qed.

Record drop_inv (last : option (bytes * Z)) (d : DropState) : Prop := {
  di_last : match last with
            | Some (k, q) => exists k', current_user_key d = Some k' /\ ucmp k' k = Eq /\ last_sequence_for_key d = q
            | None => current_user_key d = None
            end;
  di_version : input_version_ (drop_compaction d) = Some v;
  di_level : level_ (drop_compaction d) = level;
  di_ptrs : length (level_ptrs_ (drop_compaction d)) = Z.to_nat config.kNumLevels;
  di_passed k : match last with Some (k', _) => cmp_le ucmp k' k | None => True end ->
    passed_from v (level + 2) (level_ptrs_ (drop_compaction d)) k;
}.

Lemma drop_inv_start c : input_version_ c = Some v -> level_ c = level ->
  level_ptrs_ c = replicate (Z.to_nat config.kNumLevels) 0%nat -> drop_inv None (new_DropState c).
Proof.
  intros Hver Hl Hp. split; try done.
  - cbn. by rewrite Hp, length_replicate.
  - cbn. intros k _ l Hll. exists 0%nat. rewrite Hp. split; [apply lookup_replicate_2; lia|]. intros i f Hi. lia.
Qed.

(** The part of the compaction that says where outputs end. *)
Lemma drop_inv_overlap last d c : drop_inv last d -> input_version_ c = input_version_ (drop_compaction d) ->
  level_ c = level_ (drop_compaction d) -> level_ptrs_ c = level_ptrs_ (drop_compaction d) -> drop_inv last (with_compaction d c).
Proof. intros [H1 H2 H3 H4 H5] E1 E2 E3. split; cbn; rewrite ?E1, ?E2, ?E3; done. Qed.

Lemma IsBaseLevelForKey_spec last d u : drop_inv last d -> match last with Some (k, _) => cmp_le ucmp k u | None => True end ->
  exists c', IsBaseLevelForKey (drop_compaction d) u = Ret (c', base_level u)
  /\ c' = with_level_ptrs (drop_compaction d) (level_ptrs_ c') /\ length (level_ptrs_ c') = Z.to_nat config.kNumLevels
  /\ forall k, cmp_le ucmp u k -> passed_from v (level + 2) (level_ptrs_ c') k.
Proof.
  intros [Hlast Hver Hl Hlen Hpass] Hu. unfold IsBaseLevelForKey. rewrite Hver, Hl. cbn [of_option mbind res_bind].
  destruct (base_levels_loop_spec v Hv u (Z.to_nat (config.kNumLevels - (level + 2))) (level + 2) (level_ptrs_ (drop_compaction d)))
    as (ptrs & b & -> & Hb & Hlen' & Hp & _); [lia|lia|done|by apply Hpass|]. cbn [mbind res_bind].
  exists (with_level_ptrs (drop_compaction d) ptrs). split; [|split; [done|split; [done|]]].
  - do 2 f_equal. apply Bool.eq_iff_eq_true. by rewrite base_level_true.
  - intros k Hk l Hll. destruct (Hp l Hll) as (p & Ep & Hpp). exists p. split; [done|]. by eapply passed_mono.
Qed.

Lemma drop_entry_spec last d e : drop_inv last d -> valid_seq (sequence e.1) ->
  match last with Some (k, _) => cmp_le ucmp k (user_key e.1) | None => True end ->
  exists d', drop_entry smallest_snapshot d (encode_key e.1)
    = Ret (d', hidden smallest_snapshot last e || obsolete smallest_snapshot base_level e) /\ drop_inv (seen e) d'.
Proof.
  intros Hd Hs Hle. pose proof Hd as [Hlast Hver Hl Hlen Hpass]. unfold drop_entry. rewrite ParseInternalKey_encode by done.
  set (first := match current_user_key d with None => true | Some k => _ end).
  assert (first = match last with Some (k, _) => negb (bool_decide (Compare (user_key e.1) k = 0)) | None => true end) as Ef.
  { unfold first. destruct last as [[k q]|]; [|by rewrite Hlast]. destruct Hlast as (k' & -> & Hk' & _). f_equal. apply bool_decide_ext.
    rewrite !Compare_eq. by rewrite (cmp_eq_r ucmp _ _ _ Hk'). }
  set (l := if first then kMaxSequenceNumber else last_sequence_for_key d).
  assert ((l <=? smallest_snapshot) = hidden smallest_snapshot last e) as ->.
  { unfold l, hidden. rewrite Ef. destruct last as [[k q]|]; [|apply Z.leb_gt; lia]. destruct Hlast as (k' & _ & _ & ->).
    case_bool_decide; cbn [negb andb]; [done|apply Z.leb_gt; lia]. }
  set (current := if first then Some (user_key e.1) else current_user_key d).
  assert (exists k, current = Some k /\ ucmp k (user_key e.1) = Eq) as Hcur.
  { unfold current. rewrite Ef. destruct last as [[k q]|]; [|exists (user_key e.1); split; [done|apply cmp_refl]].
    destruct Hlast as (k' & -> & Hk' & _). case_bool_decide as Hc; cbn [negb]; [|exists (user_key e.1); split; [done|apply cmp_refl]].
    exists k'. split; [done|]. rewrite (cmp_eq_l (cmp:=ucmp) _ _ _ Hk'), (cmp_antisym (cmp:=ucmp) (user_key e.1) k). by rewrite (proj1 (Compare_eq _ _) Hc). }
  assert (forall k, cmp_le ucmp (user_key e.1) k -> match last with Some (k', _) => cmp_le ucmp k' k | None => True end) as Hmono.
  { intros k Hk. destruct last as [[k' q]|]; [|done]. by transitivity (user_key e.1). }
  assert (forall c, input_version_ c = Some v -> level_ c = level -> length (level_ptrs_ c) = Z.to_nat config.kNumLevels ->
    (forall k, cmp_le ucmp (user_key e.1) k -> passed_from v (level + 2) (level_ptrs_ c) k) ->
    drop_inv (seen e) (mkDropState current (sequence e.1) c)) as Hinv.
  { intros c E1 E2 E3 E4. split; try done. destruct Hcur as (k & -> & Hk). by exists k. }
  destruct (hidden smallest_snapshot last e); cbn [orb mbind res_bind].
  { eexists. split; [done|]. apply Hinv; try done. intros k Hk. by apply Hpass, Hmono. }
  unfold obsolete. destruct (_ && _) eqn:E; cbn [andb].
  - destruct (IsBaseLevelForKey_spec last d (user_key e.1) Hd Hle) as (c' & -> & Ec & Hlen' & Hp). cbn [mbind res_bind].
    eexists. split; [done|]. apply Hinv; [by rewrite Ec|by rewrite Ec|done|done].
  - cbn [mbind res_bind]. eexists. split; [done|]. apply Hinv; try done. intros k Hk. by apply Hpass, Hmono.
Qed.
End rule_spec.

(** ** A version after a compaction *)

Lemma StronglySorted_sublist {A} (R : relation A) (l k : list A) : sublist l k -> StronglySorted R k -> StronglySorted R l.
Proof.
  induction 1 as [|x l k Hs IH|x l k Hs IH]; intros Hk; [constructor| |].
  - apply StronglySorted_inv in Hk as [Hk Hx]. constructor; [by apply IH|]. rewrite Forall_forall in Hx |- *.
    intros y Hy%list_elem_of_In. by apply Hx, list_elem_of_In, (sublist_subseteq _ _ Hs).
  - apply StronglySorted_inv in Hk as [Hk _]. by apply IH.
Qed.

Lemma file_ok_ranged `{Comparator} {C} f : file_ok C f -> ranged f.
Proof.
  intros Hok.
  destruct (file_first C f Hok) as (a & Ha & Hva & Ea & Hle). destruct (file_last C f Hok) as (b & Hb & Hvb & Eb & _).
  destruct (raw_encode a.1 Hva) as (Ua & _ & Va), (raw_encode b.1 Hvb) as (Ub & _ & Vb). specialize (Hle b Hb).
  split; unfold start_user, limit_user; rewrite ?Ea, ?Eb; [done|done| |].
  - rewrite Ua, Ub. unfold cmp_le, ikey_cmp, cmp_then, cmp_on in *. by destruct (ucmp (user_key a.1) (user_key b.1)).
  - unfold cmp_le. by rewrite internal_cmp_encode.
Qed.

Section replaced.
Context `{Comparator} (C C' : Z -> list write) (v v' : Version) (c : Compaction) (s l : bytes) (outs : files) (smallest_snapshot : Z).
Abbreviation L := (level_ c).

(** The inputs from a level other than 0 hold every file of their level that
    shares a user key with them.  In level 0 the code sees to it. *)
Definition user_closed : Prop := forall which f g, which = 0 \/ which = 1 -> 0 < L + which -> f ∈ inputs_of c which ->
  g ∈ level_files v (L + which) -> overlaps (Some (start_user f)) (Some (limit_user f)) g -> g ∈ inputs_of c which.

Definition input_writes : list write := files_writes C (inputs_of c 0 ++ inputs_of c 1).

(** The merged inputs, in order. *)
Definition merged (ms : list write) : Prop :=
  StronglySorted (cmp_lt write_cmp) ms /\ forall e, e ∈ ms <-> e ∈ input_writes.

(** What is left of the files of a level. *)
Definition remaining (level : Z) : files :=
  if decide (level = L) then filter (fun f => number f ∉ map number (inputs_of c 0)) (level_files v level)
  else if decide (level = L + 1) then filter (fun f => number f ∉ map number (inputs_of c 1)) (level_files v level)
  else level_files v level.

(** The outputs are files of their own, cut from the entries kept; the other
    tables are as they were. *)
Record outputs_ok (ms : list write) : Prop := {
  oo_writes : files_writes C' outs = survivors smallest_snapshot (base_level v L) None ms;
  oo_first f : f ∈ outs -> exists e, head (C' (number f)) = Some e /\ smallest f = encode_key e.1;
  oo_last f : f ∈ outs -> exists e, list.last (C' (number f)) = Some e /\ largest f = encode_key e.1;
  oo_old level f : f ∈ level_files v level -> C' (number f) = C (number f);
}.

(** The version that the edit of the compaction leads to. *)
Record replaced : Prop := {
  rp_levels : length (files_ v') = Z.to_nat config.kNumLevels;
  rp_files level : 0 <= level < config.kNumLevels ->
    level_files v' level ≡ₚ (if decide (level = L + 1) then outs else []) ++ remaining level;
  rp_sorted level : 0 < level < config.kNumLevels -> StronglySorted (cmp_lt file_cmp) (level_files v' level);
  rp_bound level : Z.of_nat (length (level_files v' level)) < 2^31;
}.

(** The files of a level other than 0 share no user keys: then the condition
    holds, whatever files are picked. *)
Definition users_apart : Prop := forall level f g, 0 < level -> f ∈ level_files v level -> g ∈ level_files v level ->
  overlaps (Some (start_user f)) (Some (limit_user f)) g -> f = g.

Lemma apart_closed : compaction_ok v c s l -> users_apart -> user_closed.
Proof.
  intros Hc Ha which f g Hw Hp Hf Hg Ho. assert (f ∈ level_files v (L + which)) as Hfl.
  { destruct Hw as [-> | ->]; [rewrite Z.add_0_r; by eapply sublist_subseteq; [apply (co_first _ _ _ _ Hc)|]|].
    rewrite (co_second _ _ _ _ Hc) in Hf. by apply list_elem_of_filter in Hf as [_ ?]. }
  by rewrite <- (Ha _ f g Hp Hfl Hg Ho).
Qed.

(** No two writes to a user key have one sequence number. *)
Definition sequences_differ (ws : list write) : Prop :=
  forall a b, a ∈ ws -> b ∈ ws -> ucmp (user_key a.1) (user_key b.1) = Eq -> sequence a.1 = sequence b.1 -> a = b.

Context (Hwf : version_wf C v) (Hc : compaction_ok v c s l) (Hclosed : user_closed).

Lemma inputs_closed which f g : which = 0 \/ which = 1 -> f ∈ inputs_of c which -> g ∈ level_files v (L + which) ->
  overlaps (Some (start_user f)) (Some (limit_user f)) g -> g ∈ inputs_of c which.
Proof.
  intros Hw Hf Hg Ho. destruct (co_level _ _ _ _ Hc) as [Hl _]. destruct (decide (0 < L + which)) as [Hp|Hp]; [by eapply Hclosed|].
  assert (L = 0 /\ which = 0) as [E ->] by lia. rewrite Z.add_0_r, E in Hg. by apply (io_closed _ _ _ (co_first _ _ _ _ Hc) E f).
Qed.

Context (ms : list write) (Hms : merged ms) (Hout : outputs_ok ms) (Hrep : replaced).

Lemma input_level which f : which = 0 \/ which = 1 -> f ∈ inputs_of c which -> f ∈ level_files v (L + which).
Proof.
  intros [-> | ->] Hf.
  - rewrite Z.add_0_r. apply (sublist_subseteq _ _ (io_level _ _ _ (co_first _ _ _ _ Hc)) _ Hf).
  - rewrite (co_second _ _ _ _ Hc) in Hf. by apply list_elem_of_filter in Hf as [_ Hf].
Qed.

Lemma input_write e : e ∈ ms <-> exists which f, (which = 0 \/ which = 1) /\ f ∈ inputs_of c which /\ e ∈ C (number f).
Proof.
  rewrite (proj2 Hms e). unfold input_writes. rewrite elem_of_files_writes. split.
  - intros (f & [Hf|Hf]%elem_of_app & He); [exists 0, f|exists 1, f]; auto.
  - intros (which & f & [-> | ->] & Hf & He); exists f; (split; [apply elem_of_app; auto|done]).
Qed.

Lemma kept_write e : e ∈ files_writes C' outs -> e ∈ ms.
Proof. rewrite (oo_writes _ Hout). apply survivors_elem. Qed.

(** Two files of a level that hold a user key overlap. *)
Lemma write_in_range f e : file_ok C f -> e ∈ C (number f) ->
  cmp_le ucmp (start_user f) (user_key e.1) /\ cmp_le ucmp (user_key e.1) (limit_user f)
  /\ cmp_le internal_cmp (smallest f) (encode_key e.1) /\ cmp_le internal_cmp (encode_key e.1) (largest f).
Proof.
  intros Hok He. pose proof (file_seq C f e Hok He) as Hve.
  destruct (file_first C f Hok) as (a & Ha & Hva & Ea & Hle). destruct (file_last C f Hok) as (b & Hb & Hvb & Eb & Hge).
  specialize (Hle e He). specialize (Hge e He).
  assert (cmp_le internal_cmp (smallest f) (encode_key e.1)) as H1 by (rewrite Ea; unfold cmp_le; by rewrite internal_cmp_encode).
  assert (cmp_le internal_cmp (encode_key e.1) (largest f)) as H2 by (rewrite Eb; unfold cmp_le; by rewrite internal_cmp_encode).
  pose proof (internal_le_user _ _ H1) as U1. pose proof (internal_le_user _ _ H2) as U2.
  destruct (raw_encode e.1 Hve) as (Eu & _ & _). rewrite Eu in U1, U2. done.
Qed.

Lemma shared_key f g a b : file_ok C f -> file_ok C g -> a ∈ C (number f) -> b ∈ C (number g) ->
  ucmp (user_key a.1) (user_key b.1) = Eq -> overlaps (Some (start_user f)) (Some (limit_user f)) g.
Proof.
  intros Hf Hg Ha Hb Heq. destruct (write_in_range f a Hf Ha) as (A1 & A2 & _). destruct (write_in_range g b Hg Hb) as (B1 & B2 & _).
  assert (cmp_le ucmp (user_key a.1) (user_key b.1)) as Hab by (unfold cmp_le; by rewrite Heq).
  assert (cmp_le ucmp (user_key b.1) (user_key a.1)) as Hba by (unfold cmp_le; by rewrite (cmp_antisym (cmp:=ucmp) (user_key a.1)), Heq).
  apply overlaps_le. split.
  - transitivity (user_key a.1); [done|]. by transitivity (user_key b.1).
  - transitivity (user_key b.1); [done|]. by transitivity (user_key a.1).
Qed.

(** A write that is left shares no user key with the inputs of its level. *)
Lemma remaining_apart which f g a b : which = 0 \/ which = 1 -> f ∈ inputs_of c which -> a ∈ C (number f) ->
  g ∈ remaining (L + which) -> b ∈ C (number g) -> ucmp (user_key a.1) (user_key b.1) = Eq -> False.
Proof.
  intros Hw Hf Ha Hg Hb Heq.
  assert (g ∈ level_files v (L + which) /\ g ∉ inputs_of c which) as [Hgl Hn].
  { unfold remaining in Hg. destruct Hw as [-> | ->].
    - rewrite decide_True in Hg by lia. apply list_elem_of_filter in Hg as [Hn Hg]. split; [done|]. intros Hin. by apply Hn, list_elem_of_fmap_2.
    - rewrite decide_False, decide_True in Hg by lia. apply list_elem_of_filter in Hg as [Hn Hg]. split; [done|]. intros Hin. by apply Hn, list_elem_of_fmap_2. }
  apply Hn. apply (inputs_closed which f g Hw Hf Hgl).
  by apply (shared_key f g a b); [apply (vw_files _ _ Hwf (L + which)), input_level|apply (vw_files _ _ Hwf (L + which))|..].
Qed.

Lemma remaining_level level g : g ∈ remaining level -> g ∈ level_files v level.
Proof. unfold remaining. repeat case_decide; [by intros [_ ?]%list_elem_of_filter..|done]. Qed.

(** Nor does one of the next level with the first inputs. *)
Lemma remaining_below f g a b : f ∈ inputs_of c 0 -> a ∈ C (number f) -> g ∈ remaining (L + 1) -> b ∈ C (number g) ->
  ucmp (user_key a.1) (user_key b.1) = Eq -> False.
Proof.
  intros Hf Ha Hg Hb Heq. unfold remaining in Hg. rewrite decide_False, decide_True in Hg by lia.
  apply list_elem_of_filter in Hg as [Hn Hg]. apply Hn, list_elem_of_fmap_2. rewrite (co_second _ _ _ _ Hc). apply list_elem_of_filter. split; [|done].
  pose proof (vw_files _ _ Hwf _ _ (input_level 0 f (or_introl eq_refl) Hf)) as Okf.
  pose proof (vw_files _ _ Hwf _ _ Hg) as Okg. pose proof (shared_key f g a b Okf Okg Ha Hb Heq) as Ho.
  destruct (range_users _ _ _ _ (co_range _ _ _ _ Hc) Hf) as [U1 U2]. apply overlaps_le in Ho as [O1 O2]. apply overlaps_le.
  split; [by transitivity (start_user f)|by transitivity (limit_user f)].
Qed.

(** ** The writes of the new version *)

Lemma elem_replaced level f : 0 <= level < config.kNumLevels ->
  f ∈ level_files v' level <-> (level = L + 1 /\ f ∈ outs) \/ f ∈ remaining level.
Proof.
  intros Hl. rewrite (rp_files Hrep level Hl), elem_of_app. case_decide; [tauto|]. rewrite elem_of_nil. tauto.
Qed.

Lemma remaining_same level g : g ∈ remaining level -> C' (number g) = C (number g).
Proof. intros Hg. apply (oo_old _ Hout level). by apply remaining_level. Qed.

Lemma replaced_write level e : 0 <= level < config.kNumLevels ->
  e ∈ files_writes C' (level_files v' level) <-> (level = L + 1 /\ e ∈ files_writes C' outs) \/ exists g, g ∈ remaining level /\ e ∈ C (number g).
Proof.
  intros Hl. rewrite !elem_of_files_writes. setoid_rewrite (elem_replaced level _ Hl). split.
  - intros (f & [[-> Hf]|Hf] & He); [left; split; [done|by exists f]|right]. exists f. split; [done|]. by rewrite <- (remaining_same level).
  - intros [[-> (f & Hf & He)]|(g & Hg & He)]; [exists f; split; [by left; split|done]|].
    exists g. split; [by right|]. by rewrite (remaining_same level).
Qed.

Lemma remaining_write level g e : g ∈ remaining level -> e ∈ C (number g) -> e ∈ files_writes C (level_files v level).
Proof. intros Hg He. apply elem_of_files_writes. exists g. split; [by apply remaining_level|done]. Qed.

Lemma input_in_level e : e ∈ ms -> exists which f, (which = 0 \/ which = 1) /\ f ∈ inputs_of c which /\ e ∈ C (number f)
  /\ e ∈ files_writes C (level_files v (L + which)).
Proof.
  intros (which & f & Hw & Hf & He)%input_write. exists which, f. split_and!; try done.
  apply elem_of_files_writes. exists f. split; [by apply input_level|done].
Qed.

Lemma L_bounds : 0 <= L < config.kNumLevels - 1.
Proof. apply Hc. Qed.

Lemma replaced_recency i j : 0 <= i < j -> j < config.kNumLevels -> run_newer (files_writes C' (level_files v' i)) (files_writes C' (level_files v' j)).
Proof.
  intros Hi Hj a b Ha Hb Heq. pose proof L_bounds as HL.
  apply replaced_write in Ha; [|lia]. apply replaced_write in Hb; [|lia].
  destruct Ha as [[-> Ha]|(g & Hg & Ha)].
  - apply kept_write, input_in_level in Ha as (which & f & Hw & Hf & Ha & Hal).
    destruct Hb as [[? _]|(h & Hh & Hb)]; [lia|].
    apply (vw_recency _ _ Hwf (L + which) j); [destruct Hw; lia|done|by eapply remaining_write|done].
  - destruct Hb as [[-> Hb]|(h & Hh & Hb)].
    + apply kept_write, input_in_level in Hb as (which & f & Hw & Hf & Hb & Hbl).
      destruct (decide (i = L + which)) as [->|Hne].
      * exfalso. apply (remaining_apart which f g b a Hw Hf Hb Hg Ha). by rewrite (cmp_antisym (cmp:=ucmp)), Heq.
      * apply (vw_recency _ _ Hwf i (L + which)); [destruct Hw; lia|by eapply remaining_write|done|done].
    + apply (vw_recency _ _ Hwf i j); [lia|by eapply remaining_write|by eapply remaining_write|done].
Qed.

(** ** The order of the output level *)

Lemma outputs_concat pre f post : outs = pre ++ f :: post ->
  files_writes C' outs = files_writes C' pre ++ C' (number f) ++ files_writes C' post.
Proof. intros ->. unfold files_writes. by rewrite map_app, concat_app. Qed.

Lemma outputs_sorted : StronglySorted (cmp_lt write_cmp) (files_writes C' outs).
Proof. rewrite (oo_writes _ Hout). eapply StronglySorted_sublist; [|apply Hms]. apply survivors_sublist. Qed.

Lemma ms_valid e : e ∈ ms -> valid_seq (sequence e.1).
Proof.
  intros (which & f & Hw & Hf & He)%input_write. apply (file_seq C f); [|done].
  apply (vw_files _ _ Hwf (L + which)). by apply input_level.
Qed.

Lemma out_writes f e : f ∈ outs -> e ∈ C' (number f) -> e ∈ ms.
Proof. intros Hf He. apply kept_write, elem_of_files_writes. by exists f. Qed.

Lemma out_ok f : f ∈ outs -> file_ok C' f.
Proof.
  intros Hf. split; [| |by apply (oo_first _ Hout)|by apply (oo_last _ Hout)].
  - apply list.Forall_forall. intros e He. by eapply ms_valid, out_writes.
  - apply list_elem_of_split in Hf as (pre & post & E). pose proof outputs_sorted as Hs. rewrite (outputs_concat _ _ _ E) in Hs.
    eapply StronglySorted_sublist; [|exact Hs]. apply sublist_inserts_l, sublist_inserts_r. done.
Qed.

Lemma outs_in_order : StronglySorted file_before outs.
Proof.
  pose proof outputs_sorted as Hs. pose proof out_ok as Hok. revert Hs Hok. clear. induction outs as [|f fs IH]; intros Hs Hok; [constructor|].
  change (files_writes C' (f :: fs)) with (C' (number f) ++ files_writes C' fs) in Hs.
  apply StronglySorted_app in Hs as (Hlt & _ & Hs). constructor; [apply IH; [done|intros g Hg; apply Hok; by right]|].
  apply List.Forall_forall. intros g Hg%list_elem_of_In.
  destruct (file_last C' f (Hok f ltac:(left))) as (b & Hb & Hvb & Eb & _).
  destruct (file_first C' g (Hok g ltac:(by right))) as (a & Ha & Hva & Ea & _).
  unfold file_before. rewrite Eb, Ea. unfold cmp_lt. rewrite internal_cmp_encode by done.
  apply (Hlt b a); [done|]. apply elem_of_files_writes. by exists g.
Qed.

Lemma user_lt_internal a b : cmp_lt ucmp (raw_user a) (raw_user b) -> cmp_lt internal_cmp a b.
Proof. unfold cmp_lt, internal_cmp, cmp_then, cmp_on. by intros ->. Qed.

Lemma sorted_either {A} (R : relation A) (fs : list A) f g : StronglySorted R fs -> f ∈ fs -> g ∈ fs -> f <> g -> R f g \/ R g f.
Proof.
  intros Hs [i Hi]%list_elem_of_lookup [j Hj]%list_elem_of_lookup Hne. destruct (decide (i < j)%nat) as [Hij|Hij].
  - left. by eapply (StronglySorted_at R fs i j).
  - destruct (decide (i = j)) as [->|]; [congruence|]. right. eapply (StronglySorted_at R fs j i); [done|lia|done|done].
Qed.

(** A file of the output level that is left lies before all entries of the
    inputs or after them. *)
Lemma outsider g : g ∈ remaining (L + 1) ->
  (forall e, e ∈ ms -> cmp_lt internal_cmp (largest g) (encode_key e.1))
  \/ (forall e, e ∈ ms -> cmp_lt internal_cmp (encode_key e.1) (smallest g)).
Proof.
  intros Hg. pose proof L_bounds as HL. pose proof (remaining_level _ _ Hg) as Hgl. pose proof (vw_files _ _ Hwf _ _ Hgl) as Okg.
  pose proof (file_ok_ranged _ Okg) as Rg.
  assert (g ∉ inputs_of c 1) as Hn.
  { unfold remaining in Hg. rewrite decide_False, decide_True in Hg by lia. apply list_elem_of_filter in Hg as [Hn _].
    intros Hin. by apply Hn, list_elem_of_fmap_2. }
  assert (~ (cmp_le ucmp (raw_user s) (limit_user g) /\ cmp_le ucmp (start_user g) (raw_user l))) as Hno.
  { intros Ho. apply Hn. rewrite (co_second _ _ _ _ Hc). apply list_elem_of_filter. split; [by apply overlaps_le|done]. }
  assert (forall e, e ∈ ms -> (cmp_le ucmp (raw_user s) (user_key e.1) /\ cmp_le ucmp (user_key e.1) (raw_user l))
    \/ exists f, f ∈ level_files v (L + 1) /\ f <> g /\ cmp_le ucmp (raw_user s) (limit_user f) /\ cmp_le ucmp (start_user f) (raw_user l)
       /\ cmp_le internal_cmp (smallest f) (encode_key e.1) /\ cmp_le internal_cmp (encode_key e.1) (largest f)) as Hcase.
  { intros e (which & f & Hw & Hf & He)%input_write.
    pose proof (vw_files _ _ Hwf _ _ (input_level which f Hw Hf)) as Okf. destruct (write_in_range f e Okf He) as (W1 & W2 & W3 & W4).
    destruct Hw as [-> | ->].
    - left. destruct (range_users _ _ _ _ (co_range _ _ _ _ Hc) Hf) as [U1 U2].
      split; [by transitivity (start_user f)|by transitivity (limit_user f)].
    - right. exists f. split; [by apply (input_level 1); [right|]|]. split; [by intros ->|].
      rewrite (co_second _ _ _ _ Hc) in Hf. apply list_elem_of_filter in Hf as [[? ?]%overlaps_le _]. done. }
  assert (StronglySorted file_before (level_files v (L + 1))) as Hso by (apply (vw_disjoint _ _ Hwf); lia).
  assert (forall f, f ∈ level_files v (L + 1) -> cmp_le ucmp (start_user f) (limit_user f)) as Hrange
    by (intros f Hf; apply (rg_order f), (file_ok_ranged (C:=C)), (vw_files _ _ Hwf _ _ Hf)).
  destruct (decide (cmp_le ucmp (raw_user s) (limit_user g))) as [Hsl|Hsl].
  - assert (cmp_lt ucmp (raw_user l) (start_user g)) as Hlt by (apply (cmp_lt_not_ge ucmp); tauto).
    right. intros e He. pose proof (ms_valid e He) as Hve. destruct (raw_encode e.1 Hve) as (Eu & _ & _).
    destruct (Hcase e He) as [[_ U]|(f & Hf & Hne & F1 & F2 & F3 & F4)].
    + apply user_lt_internal. rewrite Eu. by apply (cmp_le_lt_trans ucmp _ (raw_user l)).
    + destruct (sorted_either _ _ f g Hso Hf Hgl Hne) as [Hb|Hb]; [by apply (cmp_le_lt_trans internal_cmp _ (largest f))|].
      exfalso. apply before_users in Hb. apply (cmp_lt_not_ge ucmp) in Hlt. apply Hlt.
      transitivity (limit_user g); [by apply (rg_order g)|]. by transitivity (start_user f).
  - assert (cmp_lt ucmp (limit_user g) (raw_user s)) as Hlt by by apply (cmp_lt_not_ge ucmp).
    left. intros e He. pose proof (ms_valid e He) as Hve. destruct (raw_encode e.1 Hve) as (Eu & _ & _).
    destruct (Hcase e He) as [[U _]|(f & Hf & Hne & F1 & F2 & F3 & F4)].
    + apply user_lt_internal. rewrite Eu. by apply (cmp_lt_le_trans ucmp _ (raw_user s)).
    + destruct (sorted_either _ _ f g Hso Hf Hgl Hne) as [Hb|Hb]; [|by apply (cmp_lt_le_trans internal_cmp _ (smallest f))].
      exfalso. apply before_users in Hb. apply Hsl. transitivity (limit_user f); [done|].
      transitivity (start_user g); [done|]. by apply (rg_order g).
Qed.

Lemma output_apart f g : f ∈ outs -> g ∈ remaining (L + 1) -> file_before f g \/ file_before g f.
Proof.
  intros Hf Hg. pose proof (out_ok f Hf) as Okf.
  destruct (file_first C' f Okf) as (a & Ha & _ & Ea & _). destruct (file_last C' f Okf) as (b & Hb & _ & Eb & _).
  unfold file_before. rewrite Ea, Eb. destruct (outsider g Hg) as [Ho|Ho]; [right|left]; by eapply Ho, out_writes.
Qed.

Lemma sorted_disjoint fs : Forall ranged fs -> StronglySorted (cmp_lt file_cmp) fs ->
  (forall f g, f ∈ fs -> g ∈ fs -> f <> g -> file_before f g \/ file_before g f) -> StronglySorted file_before fs.
Proof.
  intros Hr Hs Hp. apply StronglySorted_from. intros i j f g Hij Ef Eg.
  pose proof (StronglySorted_at _ _ i j f g Hs Hij Ef Eg) as Hlt.
  assert (f <> g) as Hne by (intros ->; by apply (irreflexivity (cmp_lt file_cmp) g)).
  destruct (Hp f g) as [Hb|Hb]; [by eapply list_elem_of_lookup_2|by eapply list_elem_of_lookup_2|done|done|]. exfalso.
  assert (cmp_le internal_cmp (smallest f) (smallest g)) as Hle.
  { unfold cmp_lt, file_cmp, cmp_then, cmp_on in Hlt. unfold cmp_le. by destruct (internal_cmp (smallest f) (smallest g)). }
  apply (cmp_lt_not_ge internal_cmp) in Hb. apply Hb. transitivity (smallest g); [done|].
  apply (rg_bounds g), (Forall_lookup_1 _ _ _ _ Hr Eg).
Qed.

Lemma replaced_file_ok level f : 0 <= level < config.kNumLevels -> f ∈ level_files v' level -> file_ok C' f.
Proof.
  intros Hl [[_ Hf]|Hf]%elem_replaced; [by apply out_ok| |done].
  pose proof (vw_files _ _ Hwf _ _ (remaining_level _ _ Hf)) as [F1 F2 F3 F4]. pose proof (remaining_same _ _ Hf) as E.
  split; by rewrite E.
Qed.

(** ** The new version is well formed *)

Lemma level_files_beyond (w : Version) level : length (files_ w) = Z.to_nat config.kNumLevels ->
  level_files w level = [] \/ exists level', 0 <= level' < config.kNumLevels /\ level_files w level = level_files w level'
    /\ (0 <= level -> level' = level).
Proof.
  intros Hl. destruct (decide (level < 0)) as [Hn|Hn].
  - right. exists 0. split; [done|]. split; [|lia]. unfold level_files. by destruct level.
  - destruct (decide (level < config.kNumLevels)); [right; exists level; split; [lia|done]|]. left. unfold level_files.
    apply nth_overflow. lia.
Qed.

Lemma replaced_wf : version_wf C' v'.
Proof.
  pose proof L_bounds as HL. pose proof (rp_levels Hrep) as Hlen. split.
  - exact Hlen.
  - intros level f Hf. destruct (level_files_beyond v' level Hlen) as [E|(k & Hk & E & _)]; rewrite E in Hf.
    + by apply elem_of_nil in Hf.
    + by apply (replaced_file_ok k).
  - apply (rp_bound Hrep).
  - intros level Hl. destruct (level_files_beyond v' level Hlen) as [->|(k & Hk & E & Hsame)]; [constructor|].
    rewrite (Hsame ltac:(lia)) in *. clear E Hsame k. apply sorted_disjoint; [|apply (rp_sorted Hrep); lia|].
    + apply list.Forall_forall. intros f Hf. by eapply (file_ok_ranged (C:=C')), replaced_file_ok.
    + intros f g Hf Hg Hne. apply elem_replaced in Hf, Hg; [|done..].
      destruct Hf as [[-> Hf]|Hf], Hg as [[? Hg]|Hg].
      * by apply (sorted_either file_before outs); [apply outs_in_order|..].
      * by apply output_apart.
      * subst level. destruct (output_apart g f Hg Hf); [by right|by left].
      * apply (sorted_either file_before (level_files v level)); [apply (vw_disjoint _ _ Hwf); lia|by apply remaining_level|by apply remaining_level|done].
  - rewrite (rp_files Hrep 0) by done. rewrite decide_False by lia. cbn [app].
    unfold remaining. repeat case_decide; [|lia|apply Hwf].
    eapply sublist_NoDup; [apply (vw_numbers _ _ Hwf)|]. apply (fmap_sublist number), sublist_filter.
  - intros f g Hf Hg Hlt. apply elem_replaced in Hf, Hg; [|done..].
    destruct Hf as [[? _]|Hf]; [lia|]. destruct Hg as [[? _]|Hg]; [lia|].
    rewrite (remaining_same 0 f Hf), (remaining_same 0 g Hg).
    apply (vw_recency0 _ _ Hwf); [by apply remaining_level..|done].
  - intros i j Hij. destruct (level_files_beyond v' j Hlen) as [->|(k & Hk & _ & Hsame)].
    + intros a b _ Hb. by apply elem_of_nil in Hb.
    + rewrite <- (Hsame ltac:(lia)) in *. apply replaced_recency; lia.
Qed.

(** ** The views *)

Lemma elem_of_version_writes (D : Z -> list write) (w : Version) e : length (files_ w) = Z.to_nat config.kNumLevels ->
  e ∈ version_writes D w <-> exists level, 0 <= level < config.kNumLevels /\ e ∈ files_writes D (level_files w level).
Proof.
  intros Hl. unfold version_writes. rewrite list_elem_of_In, in_concat. split.
  - intros (ws & Hws & He). apply in_map_iff in Hws as (fs & <- & Hfs). apply list_elem_of_In, list_elem_of_lookup in Hfs as [i Hi].
    exists (Z.of_nat i). apply lookup_lt_Some in Hi as Hlt. split; [lia|]. unfold level_files. rewrite Nat2Z.id.
    rewrite (nth_lookup_Some _ _ _ _ Hi). by apply list_elem_of_In.
  - intros (level & Hlv & He). exists (files_writes D (level_files w level)). split; [|by apply list_elem_of_In].
    apply in_map_iff. exists (level_files w level). split; [done|]. apply nth_In. lia.
Qed.

Definition rest (e : write) : Prop := exists level g, 0 <= level < config.kNumLevels /\ g ∈ remaining level /\ e ∈ C (number g).

Lemma old_writes e : e ∈ version_writes C v <-> e ∈ ms \/ rest e.
Proof.
  pose proof L_bounds as HL. rewrite elem_of_version_writes by apply Hwf. split.
  - intros (level & Hl & (f & Hf & He)%elem_of_files_writes).
    assert (f ∈ remaining level \/ exists which, (which = 0 \/ which = 1) /\ number f ∈ map number (inputs_of c which)) as [Hr|(which & Hw & Hn)].
    { unfold remaining. repeat case_decide; [| |by left].
      - destruct (decide (number f ∈ map number (inputs_of c 0))) as [Hn|Hn]; [right; exists 0; auto|left; by apply list_elem_of_filter].
      - destruct (decide (number f ∈ map number (inputs_of c 1))) as [Hn|Hn]; [right; exists 1; auto|left; by apply list_elem_of_filter]. }
    + right. by exists level, f.
    + left. apply input_write. apply list_elem_of_fmap in Hn as (f' & E & Hf'). exists which, f'. by rewrite <- E.
  - intros [(which & f & Hw & Hf & He)%input_write|(level & g & Hl & Hg & He)].
    + exists (L + which). split; [destruct Hw; lia|]. apply elem_of_files_writes. exists f. split; [by apply input_level|done].
    + exists level. split; [done|]. by eapply remaining_write.
Qed.

Abbreviation kept_ms := (survivors smallest_snapshot (base_level v L) None ms).

Lemma new_writes e : e ∈ version_writes C' v' <-> e ∈ kept_ms \/ rest e.
Proof.
  pose proof L_bounds as HL. rewrite elem_of_version_writes by apply Hrep. rewrite <- (oo_writes _ Hout). split.
  - intros (level & Hl & He). apply replaced_write in He as [[_ He]|(g & Hg & He)]; [by left| |done]. right. by exists level, g.
  - intros [He|(level & g & Hl & Hg & He)].
    + exists (L + 1). split; [lia|]. apply replaced_write; [lia|]. by left.
    + exists level. split; [done|]. apply replaced_write; [done|]. right. by exists g.
Qed.

(** Writes that are left and share the user key of an obsolete deletion are
    newer. *)
Lemma rest_newer e r : e ∈ ms -> obsolete smallest_snapshot (base_level v L) e = true -> rest r ->
  ucmp (user_key e.1) (user_key r.1) = Eq -> sequence e.1 < sequence r.1.
Proof.
  intros He Ho (level & g & Hl & Hg & Hr) Heq. pose proof L_bounds as HL.
  destruct (input_in_level e He) as (which & f & Hw & Hf & Hef & Hel).
  destruct (Z.lt_trichotomy level (L + which)) as [Hlt|[->|Hgt]].
  - apply (vw_recency _ _ Hwf level (L + which)); [lia|by eapply remaining_write|done|].
    by rewrite (cmp_antisym (cmp:=ucmp)), Heq.
  - by destruct (remaining_apart which f g e r Hw Hf Hef Hg Hr Heq).
  - exfalso. destruct (decide (level = L + 1)) as [->|Hne].
    + destruct Hw as [-> | ->]; [|lia]. by apply (remaining_below f g e r).
    + unfold obsolete in Ho. rewrite !andb_true_iff in Ho. destruct Ho as [_ Hb].
      apply (proj1 (base_level_true v L (user_key e.1)) Hb level g); [destruct Hw; lia|by apply remaining_level|].
      destruct (write_in_range g r (vw_files _ _ Hwf _ _ (remaining_level _ _ Hg)) Hr) as (R1 & R2 & _).
      apply overlaps_le. unfold cmp_le in *. rewrite (cmp_eq_l (cmp:=ucmp) _ _ _ Heq). split; [done|].
      by rewrite (cmp_eq_r ucmp (start_user g) _ _ Heq).
Qed.

Lemma is_newest_unique u sn ws o o' : sequences_differ ws -> is_newest u sn ws o -> is_newest u sn ws o' -> o = o'.
Proof.
  intros Hd Ho Ho'. destruct o as [a|], o' as [b|]; [|by destruct Ho as (Ha & Hv & _); destruct (Ho' a)|by destruct Ho' as (Hb & Hv & _); destruct (Ho b)|done].
  destruct Ho as (Ha & Va & Ma), Ho' as (Hb & Vb & Mb). f_equal. apply Hd; [done|done|by eapply visible_same|].
  pose proof (Ma b Hb Vb). pose proof (Mb a Ha Va). lia.
Qed.

Lemma replaced_newest u sn o o' : smallest_snapshot <= sn -> sequences_differ (version_writes C v) ->
  is_newest u sn (version_writes C v) o -> is_newest u sn (version_writes C' v') o' -> forall value, get_answer o value = get_answer o' value.
Proof.
  intros Hsn Hd Ho Ho' value.
  pose proof (first_visible_sorted u sn ms (proj1 Hms)) as Hfv.
  pose proof (survivors_view smallest_snapshot (base_level v L) u sn ms (proj1 Hms) Hsn None I) as Ek.
  assert (forall x, x ∈ kept_ms -> x ∈ ms) as Hsub by (intros x; apply survivors_elem).
  (* when no visible write of the inputs is newer than the new answer, it is the old answer *)
  assert ((forall x, x ∈ ms -> visible u sn x -> match o' with Some r => sequence x.1 <= sequence r.1 | None => False end) -> o = o') as Hsame.
  { intros Hx. eapply is_newest_unique; [exact Hd|exact Ho|]. destruct o' as [r|].
    - destruct Ho' as (Hr & Vr & Mr). split; [apply old_writes; apply new_writes in Hr as [Hr|Hr]; auto|]. split; [done|].
      intros x [Hxm|Hxr]%old_writes Vx; [by apply Hx|]. apply Mr; [|done]. apply new_writes. by right.
    - intros x [Hxm|Hxr]%old_writes Vx; [by apply (Hx x)|]. apply (Ho' x); [|done]. apply new_writes. by right. }
  destruct (first_visible u sn ms) as [e|]; [|by rewrite Hsame; [|intros x Hx Vx; by destruct (Hfv x)]].
  destruct Hfv as (He & Ve & Me). cbn [left_of] in Ek. destruct (obsolete _ _ e) eqn:Eo.
  - pose proof (proj1 (first_visible_none u sn kept_ms) Ek) as Hno.
    assert (forall r, rest r -> visible u sn r -> sequence e.1 < sequence r.1) as Hnew
      by (intros r Hr Vr; apply rest_newer; try done; by eapply visible_same).
    destruct o' as [r|].
    + rewrite Hsame; [done|]. intros x Hx Vx. destruct Ho' as (Hr & Vr & _). apply new_writes in Hr as [Hr|Hr]; [by destruct (Hno r)|].
      pose proof (Me x Hx Vx). pose proof (Hnew r Hr Vr). lia.
    + assert (o = Some e) as ->.
      { eapply is_newest_unique; [exact Hd|exact Ho|]. split; [apply old_writes; by left|]. split; [done|].
        intros x [Hx|Hx]%old_writes Vx; [by apply Me|]. destruct (Ho' x); [apply new_writes; by right|done]. }
      unfold obsolete in Eo. rewrite !andb_true_iff, bool_decide_eq_true in Eo. destruct Eo as [[Et _] _].
      destruct e as [[uk sq ty] ev]. cbn in Et. by subst ty.
  - rewrite Hsame; [done|]. intros x Hx Vx. apply first_visible_elem in Ek as [Hek _].
    destruct o' as [r|].
    + destruct Ho' as (_ & _ & Mr). transitivity (sequence e.1); [by apply Me|]. apply Mr; [|done]. apply new_writes. by left.
    + apply (Ho' e); [|done]. apply new_writes. by left.
Qed.
End replaced.

(** ** The rule over all entries *)

Section all_entries.
Context `{Comparator} (smallest_snapshot : Z).

Fixpoint drop_all (d : DropState) (es : entries) : res (DropState * entries) :=
  match es with
  | [] => Ret (d, [])
  | e :: es =>
      '(d, drop) ← drop_entry smallest_snapshot d e.1;
      '(d, out) ← drop_all d es;
      Ret (d, if (drop : bool) then out else e :: out)
  end.

Lemma drop_all_spec v level ws : version_ranged v -> 0 <= level < config.kNumLevels - 1 -> smallest_snapshot < kMaxSequenceNumber ->
  Forall (fun e : write => valid_seq (sequence e.1)) ws -> StronglySorted (cmp_lt write_cmp) ws -> forall last d,
  drop_inv v level last d -> match last with Some (k, _) => forall e, e ∈ ws -> cmp_le ucmp k (user_key e.1) | None => True end ->
  exists d', drop_all d (map raw_write ws) = Ret (d', map raw_write (survivors smallest_snapshot (base_level v level) last ws)).
Proof.
  intros Hv Hl Hs Hws. induction Hws as [|e ws He Hws IH]; intros Hso last d Hd Hle; [by exists d|].
  apply StronglySorted_inv in Hso as [Hso Hf]. cbn [map drop_all raw_write fst snd].
  destruct (drop_entry_spec smallest_snapshot v level Hv Hl Hs last d e Hd He) as (d1 & -> & Hd1).
  { destruct last as [[k q]|]; [|done]. apply Hle. left. }
  cbn [mbind res_bind]. destruct (IH Hso (seen e) d1 Hd1) as (d2 & ->).
  { cbn. intros x Hx. rewrite Forall_forall in Hf. by apply write_users, Hf, list_elem_of_In. }
  cbn [mbind res_bind]. exists d2. cbn [survivors]. by destruct (_ || _).
Qed.
End all_entries.

(** ** Properties *)

(** C9: a compaction whose inputs split no user key leaves the database as its
    readers see it.  The rule that drops entries, applied to the merged inputs,
    keeps the entries that the outputs hold, and the version in which outputs of
    these entries replace the inputs keeps its invariants.  If no two writes to
    a user key have one sequence number, a get at any snapshot from the smallest
    one on has the status and the value that it had before.

    The condition is [user_closed]: inputs from a level other than 0 hold every
    file of their level that shares a user key with one of them.  It holds when
    no user key is in two files of one such level ([apart_closed]); the picking
    of inputs does not ensure it ([Compaction.boundary_hides_newest]). *)
Theorem compaction_keeps_view `{Comparator} C C' v v' c s l outs smallest ms :
  version_wf C v -> compaction_ok v c s l -> user_closed v c -> merged C c ms ->
  outputs_ok C C' v c outs smallest ms -> replaced v v' c outs -> smallest < kMaxSequenceNumber ->
  (exists d, drop_all smallest (new_DropState c) (map raw_write ms) = Ret (d, map raw_write (files_writes C' outs)))
  /\ version_wf C' v'
  /\ (sequences_differ (version_writes C v) -> forall u sn value (cache cache' : TableCache) good good',
      TableCacheSpec C (H0:=cache) good -> TableCacheSpec C' (H0:=cache') good' ->
      (forall level f, f ∈ level_files v level -> good f) -> (forall level f, f ∈ level_files v' level -> good' f) ->
      smallest <= sn -> valid_seq sn -> exists st val charged charged',
        Version_Get (H0:=cache) v (LookupKey_make u sn) value = Ret (st, val, charged)
        /\ Version_Get (H0:=cache') v' (LookupKey_make u sn) value = Ret (st, val, charged')).
Proof.
  intros Hwf Hc Hcl Hms Hout Hrep Hs.
  assert (version_wf C' v') as Hwf' by (by eapply replaced_wf). split; [|split; [exact Hwf'|]].
  - rewrite (oo_writes _ _ _ _ _ _ _ Hout).
    destruct (drop_all_spec smallest v (level_ c) ms (proj1 (conj (wf_ranged C v Hwf) I)) (co_level _ _ _ _ Hc) Hs) with (last := @None (bytes * Z)) (d := new_DropState c)
      as (d' & E); [|apply Hms| |done|by exists d'].
    + apply list.Forall_forall. intros e He. eapply ms_valid; [exact Hwf|exact Hc|exact Hms|done].
    + destruct (co_fresh _ _ _ _ Hc) as (_ & _ & _ & Hp). apply drop_inv_start; [apply Hc|exact (co_version _ _ _ _ Hc)|reflexivity|exact Hp].
  - intros Hd u sn value cache cache' good good' Hcache Hcache' Hg Hg' Hle Hsn.
    destruct (Version_Get_newest C good v u sn value Hcache Hwf Hg Hsn) as (o & ch & Ho & -> & _).
    destruct (Version_Get_newest C' good' v' u sn value Hcache' Hwf' Hg' Hsn) as (o' & ch' & Ho' & -> & _).
    rewrite (replaced_newest C C' v v' c s l outs smallest Hwf Hc Hcl ms Hms Hout Hrep u sn o o' Hle Hd Ho Ho' value).
    by exists (get_answer o' value).1, (get_answer o' value).2, ch, ch'.
Qed.

(** ** The compaction of level 0 of the sample version *)

#[local] Existing Instance BytewiseComparator.

Definition sample_set : VersionSet unit := mkVersionSet 6 2 9 0 0 None sample_version (replicate 7 []).
Definition merged_writes : list write :=
  [(mkParsed (lit "a") 9 kTypeDeletion, []); sample_write "a" 2 "x"; sample_write "b" 8 "new"; sample_write "b" 5 "mid";
   sample_write "c" 1 "y"; sample_write "d" 4 "w"].
(** The table 6 that it leaves, for the snapshots from 9 on. *)
Definition tables_after (n : Z) : list write :=
  if n =? 6 then [sample_write "b" 8 "new"; sample_write "c" 1 "y"; sample_write "d" 4 "w"] else sample_tables n.
Definition file_after : FileMetaData :=
  mkFileMetaData 1 100 6 1000 (encode_key (mkParsed (lit "b") 8 kTypeValue)) (encode_key (mkParsed (lit "d") 4 kTypeValue)).
Definition version_after : Version := with_files_ new_Version [[]; [file_after]; []; []; []; []; []].

Lemma sample_compaction : exists c s l, compaction_ok sample_version c s l /\ level_ c = 0
  /\ inputs_of c 0 = level_files sample_version 0 /\ inputs_of c 1 = level_files sample_version 1.
Proof.
  destruct (CompactRange_spec sample_set 0 None None) as (fs & _ & Hr).
  - apply (wf_ranged sample_tables), sample_wf.
  - intros level f Hf. apply sample_levels in Hf. by destruct Hf as [[_ [->| ->]]|[_ ->]].
  - done.
  - done.
  - done.
  - assert (match CompactRange sample_set 0 None None with
            | Ret (Some c, _) => inputs_of c 0 = level_files sample_version 0 /\ inputs_of c 1 = level_files sample_version 1
            | _ => False end) as Hx by (vm_compute; by split).
    case_decide; [by rewrite Hr in Hx|]. destruct Hr as (first & r & _ & _ & E & c & s & l & -> & Hc & Hl & _).
    exists c, s, l. split; [exact Hc|]. split; [exact Hl|]. by rewrite E in Hx.
Qed.

Lemma sequences_nodup (ws : list write) : NoDup (map (fun e : write => sequence e.1) ws) -> sequences_differ ws.
Proof.
  intros Hn a b [i Hi]%list_elem_of_lookup [j Hj]%list_elem_of_lookup _ E.
  assert (i = j) as ->; [|congruence]. apply (NoDup_lookup _ i j (sequence a.1) Hn); rewrite list_lookup_fmap.
  - by rewrite Hi.
  - by rewrite Hj, E.
Qed.

Lemma after_levels level f : f ∈ level_files version_after level -> level = 1 /\ f = file_after.
Proof.
  unfold level_files. destruct (Z.to_nat level) as [|[|[|[|[|[|[|[|k]]]]]]]] eqn:E; cbn [nth files_ with_files_ version_after];
    intros Hf; rewrite ?elem_of_cons, ?elem_of_nil in Hf; naive_solver lia.
Qed.

Lemma sample_replaced c : level_ c = 0 -> inputs_of c 0 = level_files sample_version 0 -> inputs_of c 1 = level_files sample_version 1 ->
  replaced sample_version version_after c [file_after].
Proof.
  intros El E0 E1. split.
  - reflexivity.
  - intros level Hl. unfold remaining. rewrite El, E0, E1. unfold config.kNumLevels in Hl.
    assert (level = 0 \/ level = 1 \/ level = 2 \/ level = 3 \/ level = 4 \/ level = 5 \/ level = 6) as Hcs by lia.
    repeat destruct Hcs as [->|Hcs]; try subst level; vm_compute; reflexivity.
  - intros level Hl. unfold level_files. destruct (Z.to_nat level) as [|[|[|[|[|[|[|[|k]]]]]]]]; repeat constructor.
  - intros level. unfold level_files. destruct (Z.to_nat level) as [|[|[|[|[|[|[|[|k]]]]]]]]; reflexivity.
Qed.

Lemma sample_outputs c : level_ c = 0 -> outputs_ok sample_tables tables_after sample_version c [file_after] 9 merged_writes.
Proof.
  intros El. split.
  - rewrite El. vm_compute. reflexivity.
  - intros f ->%list_elem_of_singleton. eexists. split; reflexivity.
  - intros f ->%list_elem_of_singleton. eexists. split; reflexivity.
  - intros level f Hf. apply sample_levels in Hf. by destruct Hf as [[_ [->| ->]]|[_ ->]].
Qed.

Lemma sample_merged c : inputs_of c 0 = level_files sample_version 0 -> inputs_of c 1 = level_files sample_version 1 ->
  merged sample_tables c merged_writes.
Proof.
  intros E0 E1. split; [repeat constructor|]. intros e. unfold input_writes. rewrite E0, E1. vm_compute (files_writes _ _).
  unfold merged_writes. rewrite !elem_of_cons. tauto.
Qed.

Lemma compaction_keeps_view_witness : exists c s l,
  compaction_ok sample_version c s l /\ version_wf tables_after version_after
  /\ (exists d, drop_all 9 (new_DropState c) (map raw_write merged_writes) = Ret (d, map raw_write (tables_after 6)))
  /\ exists st val charged charged',
      Version_Get (H0:=list_cache sample_tables) sample_version (LookupKey_make (lit "a") 9) [] = Ret (st, val, charged)
      /\ Version_Get (H0:=list_cache tables_after) version_after (LookupKey_make (lit "a") 9) [] = Ret (st, val, charged').
Proof.
  destruct sample_compaction as (c & s & l & Hc & El & E0 & E1). exists c, s, l.
  destruct (compaction_keeps_view sample_tables tables_after sample_version version_after c s l [file_after] 9 merged_writes) as (Hd & Hwf & Hget).
  - exact sample_wf.
  - exact Hc.
  - intros which f g Hw _ _ Hg _. rewrite El in Hg. destruct Hw as [-> | ->]; [by rewrite E0|by rewrite E1].
  - by apply sample_merged.
  - by apply sample_outputs.
  - by apply sample_replaced.
  - done.
  - split; [exact Hc|]. split; [exact Hwf|]. split; [exact Hd|].
    assert (NoDup (map (fun e : write => sequence e.1) (version_writes sample_tables sample_version))) as Hnd
      by (apply (bool_decide_unpack _); vm_compute; exact I).
    apply (Hget (sequences_nodup _ Hnd) (lit "a") 9 [] (list_cache sample_tables) (list_cache tables_after) (file_ok sample_tables) (file_ok tables_after));
      [apply list_cache_spec|apply list_cache_spec|apply (vw_files _ _ sample_wf)|apply (vw_files _ _ Hwf)|done|split; [done|vm_compute; done]].
Defined.
