(* ===== verification/DbImpl.v ===== *)
(** * DbImpl: the state of the open database (db/db_impl.h, db/db_impl.cc, db/snapshot.h)

    The memtables, the version set, the snapshots and the files that the
    database keeps: reads over all of them, the list of snapshots, and the deletion
    of obsolete files; a memtable becomes a table in DbFlush.v.  The queue of
    writers is in DbWrite.v, the steps of a compaction are in Compaction.v.  The
    mutex is held where the code holds it; where it is released, an operation
    is what it does when nobody else comes in between. *)

From S2P Require Import Prelude CLib Double Coding Crc32c Status DbFormat SkipList MemTable KeyOrder Iterator MemIterator Filename Log Bloom FilterBlock MemEnv.
From S2P Require Import BlockBuilder Block TableFormat TableBuilder Table TableLookup Env VersionEdit Version TableCache BuildTable VersionBuilder VersionSet Descriptor.

(** ** db/snapshot.h

    The circular list, from [list_.next_] on; [sn_id] stands for the address of
    a snapshot. *)
Record SnapshotImpl := mkSnapshot { sn_id : nat; number_ : Z }.
Record SnapshotList := mkSnapshots { next_id : nat; list_ : list SnapshotImpl }.
Definition new_SnapshotList : SnapshotList := mkSnapshots 0 [].
Definition snapshots_empty (l : SnapshotList) : bool := bool_decide (list_ l = []).
Definition oldest (l : SnapshotList) : res SnapshotImpl := of_option (head (list_ l)).
Definition newest_snapshot (l : SnapshotList) : res SnapshotImpl := of_option (list.last (list_ l)).
Definition snapshots_New (l : SnapshotList) (seq : Z) : SnapshotImpl * SnapshotList :=
  let s := mkSnapshot (next_id l) seq in (s, mkSnapshots (S (next_id l)) (list_ l ++ [s])).
Definition snapshots_Delete (l : SnapshotList) (s : SnapshotImpl) : SnapshotList :=
  mkSnapshots (next_id l) (base.filter (fun x => sn_id x <> sn_id s) (list_ l)).

(** ** class DBImpl *)

Record ManualCompaction := mkManual {
  mc_level : Z;
  mc_done : bool;
  mc_begin : option bytes;
  mc_end : option bytes;
}.

(** [referenced_] are the versions besides the current one that readers and
    compactions hold on to; statistics and the info log are left out. *)
Record DBImpl (Wf T : Type) := mkDBImpl {
  mem_ : MemTable;
  imm_ : option MemTable;
  logfile_number_ : Z;
  versions_ : VersionSet Wf;
  referenced_ : list Version;
  snapshots_ : SnapshotList;
  pending_outputs_ : gset Z;
  table_cache_ : T;
  bg_error_ : Status.t;
  shutting_down_ : bool;
  bg_compaction_scheduled_ : bool;
  manual_compaction_ : option ManualCompaction;
}.
#[global] Arguments mkDBImpl {Wf T}.
#[global] Arguments mem_ {Wf T}.
#[global] Arguments imm_ {Wf T}.
#[global] Arguments logfile_number_ {Wf T}.
#[global] Arguments versions_ {Wf T}.
#[global] Arguments referenced_ {Wf T}.
#[global] Arguments snapshots_ {Wf T}.
#[global] Arguments pending_outputs_ {Wf T}.
#[global] Arguments table_cache_ {Wf T}.
#[global] Arguments bg_error_ {Wf T}.
#[global] Arguments shutting_down_ {Wf T}.
#[global] Arguments bg_compaction_scheduled_ {Wf T}.
#[global] Arguments manual_compaction_ {Wf T}.

Section fields.
Context {Wf T : Type}.
Implicit Type d : DBImpl Wf T.

Definition current d : Version := vs_current_ (versions_ d).
Definition with_imm d (m : option MemTable) : DBImpl Wf T :=
  mkDBImpl (mem_ d) m (logfile_number_ d) (versions_ d) (referenced_ d) (snapshots_ d) (pending_outputs_ d) (table_cache_ d)
    (bg_error_ d) (shutting_down_ d) (bg_compaction_scheduled_ d) (manual_compaction_ d).
Definition with_versions d (vs : VersionSet Wf) : DBImpl Wf T :=
  mkDBImpl (mem_ d) (imm_ d) (logfile_number_ d) vs (referenced_ d) (snapshots_ d) (pending_outputs_ d) (table_cache_ d)
    (bg_error_ d) (shutting_down_ d) (bg_compaction_scheduled_ d) (manual_compaction_ d).
Definition with_snapshots d (l : SnapshotList) : DBImpl Wf T :=
  mkDBImpl (mem_ d) (imm_ d) (logfile_number_ d) (versions_ d) (referenced_ d) l (pending_outputs_ d) (table_cache_ d)
    (bg_error_ d) (shutting_down_ d) (bg_compaction_scheduled_ d) (manual_compaction_ d).
Definition with_pending d (p : gset Z) : DBImpl Wf T :=
  mkDBImpl (mem_ d) (imm_ d) (logfile_number_ d) (versions_ d) (referenced_ d) (snapshots_ d) p (table_cache_ d)
    (bg_error_ d) (shutting_down_ d) (bg_compaction_scheduled_ d) (manual_compaction_ d).
Definition with_tables d (t : T) : DBImpl Wf T :=
  mkDBImpl (mem_ d) (imm_ d) (logfile_number_ d) (versions_ d) (referenced_ d) (snapshots_ d) (pending_outputs_ d) t
    (bg_error_ d) (shutting_down_ d) (bg_compaction_scheduled_ d) (manual_compaction_ d).
Definition with_bg_error d (s : Status.t) : DBImpl Wf T :=
  mkDBImpl (mem_ d) (imm_ d) (logfile_number_ d) (versions_ d) (referenced_ d) (snapshots_ d) (pending_outputs_ d) (table_cache_ d)
    s (shutting_down_ d) (bg_compaction_scheduled_ d) (manual_compaction_ d).
Definition with_scheduled d (b : bool) : DBImpl Wf T :=
  mkDBImpl (mem_ d) (imm_ d) (logfile_number_ d) (versions_ d) (referenced_ d) (snapshots_ d) (pending_outputs_ d) (table_cache_ d)
    (bg_error_ d) (shutting_down_ d) b (manual_compaction_ d).

Definition RecordBackgroundError d (s : Status.t) : DBImpl Wf T :=
  if Status.ok (bg_error_ d) then with_bg_error d s else d.

Definition MaybeScheduleCompaction d : DBImpl Wf T :=
  if bg_compaction_scheduled_ d then d
  else if shutting_down_ d then d
  else if negb (Status.ok (bg_error_ d)) then d
  else if bool_decide (imm_ d = None) && bool_decide (manual_compaction_ d = None) && negb (NeedsCompaction (versions_ d)) then d
  else with_scheduled d true.

(** ** Snapshots *)

Definition GetSnapshot d : SnapshotImpl * DBImpl Wf T :=
  let '(s, l) := snapshots_New (snapshots_ d) (vs_last_sequence_ (versions_ d)) in (s, with_snapshots d l).
Definition ReleaseSnapshot d (s : SnapshotImpl) : DBImpl Wf T := with_snapshots d (snapshots_Delete (snapshots_ d) s).

(** What a compaction takes for [smallest_snapshot]. *)
Definition smallest_snapshot d : res Z :=
  if snapshots_empty (snapshots_ d) then Ret (vs_last_sequence_ (versions_ d))
  else s ← oldest (snapshots_ d); Ret (number_ s).

(** ** Reads *)

Definition with_current d (v : Version) : DBImpl Wf T :=
  with_versions d (AppendVersion (versions_ d) v (vs_log_number_ (versions_ d)) (vs_prev_log_number_ (versions_ d))).

Context `{Comparator} `{!Version.TableCache}.

(** [Version::Get] in the middle is what takes the mutex again. *)
Definition DBImpl_Get d (snapshot : option SnapshotImpl) (key value : bytes) : res (Status.t * bytes * DBImpl Wf T) :=
  let snapshot := match snapshot with Some s => number_ s | None => vs_last_sequence_ (versions_ d) end in
  let lkey := LookupKey_make key snapshot in
  '(found, value, s) ← Get (mem_ d) lkey value Status.OK;
  if (found : bool) then Ret (s, value, d)
  else
    '(found, value, s) ← match imm_ d with Some imm => Get imm lkey value s | None => Ret (false, value, s) end;
    if (found : bool) then Ret (s, value, d)
    else
      '(s, value, stats) ← Version_Get (current d) lkey value;
      '(seek, v) ← UpdateStats (current d) stats;
      let d := with_current d v in
      Ret (s, value, if (seek : bool) then MaybeScheduleCompaction d else d).

Definition DBImpl_RecordReadSample d (key : bytes) : res (DBImpl Wf T) :=
  '(seek, v) ← RecordReadSample (current d) key;
  let d := with_current d v in
  Ret (if (seek : bool) then MaybeScheduleCompaction d else d).
End fields.

(** ** Obsolete files *)

Section obsolete.
Context {W Wf Sf T : Type} `{!Env W Wf Sf} `{!Tables W T} (dbname_ : bytes).
Implicit Type d : DBImpl Wf T.

Definition live_files d : gset Z := AddLiveFiles (current d :: referenced_ d) (pending_outputs_ d).

Definition keep_file d (live : gset Z) (number : Z) (type : FileType) : bool :=
  match type with
  | kLogFile => (vs_log_number_ (versions_ d) <=? number) || (number =? vs_prev_log_number_ (versions_ d))
  | kDescriptorFile => vs_manifest_file_number_ (versions_ d) <=? number
  | kTableFile => bool_decide (number ∈ live)
  | kTempFile => bool_decide (number ∈ live)
  | kCurrentFile | kDBLockFile | kInfoLogFile => true
  end.

Fixpoint obsolete_loop d (live : gset Z) (filenames : list bytes) (w : W) (tables : T) : res (W * T) :=
  match filenames with
  | [] => Ret (w, tables)
  | f :: filenames =>
      match ParseFileName f with
      | Some (number, type) =>
          if keep_file d live number type then obsolete_loop d live filenames w tables
          else
            tables ← (if decide (type = kTableFile) then tables_Evict tables number else Ret tables);
            '(_, w) ← env_DeleteFile w (dbname_ ++ lit "/" ++ f);
            obsolete_loop d live filenames w tables
      | None => obsolete_loop d live filenames w tables
      end
  end.

Definition DeleteObsoleteFiles (w : W) d : res (W * DBImpl Wf T) :=
  if negb (Status.ok (bg_error_ d)) then Ret (w, d)
  else
    let live := live_files d in
    let '(_, filenames) := env_GetChildren w dbname_ in
    '(w, tables) ← obsolete_loop d live filenames w (table_cache_ d);
    Ret (w, with_tables d tables).
End obsolete.

(** ** What the database holds *)

Section newest.
Context `{Comparator} (u : bytes) (s : Z).

Lemma newest_is_newest h : MemTable.in_order h -> is_newest u s h (newest u s h).
Proof.
  intros Ho. unfold newest. destruct (list.last _) as [e|] eqn:E.
  - destruct (last_filter_max _ _ _ Ho E) as (Hv & Hin & Hmax). by split.
  - apply last_None in E. intros e He Hv. apply (not_elem_of_nil e). rewrite <- E. by apply list_elem_of_filter.
Qed.

Lemma is_newest_exists ws : exists o, is_newest u s ws o.
Proof.
  induction ws as [|e ws [o Ho]]; [by exists None; intros e He%elem_of_nil|]. destruct (decide (visible u s e)) as [Hv|Hv].
  - destruct o as [x|].
    + destruct Ho as (Hx & Hvx & Hmax). destruct (decide (sequence x.1 <= sequence e.1)).
      * exists (Some e). split; [left|]. split; [done|]. intros e' [->|He']%elem_of_cons Hv'; [done|]. specialize (Hmax e' He' Hv'). lia.
      * exists (Some x). split; [by right|]. split; [done|]. intros e' [->|He']%elem_of_cons Hv'; [lia|by apply Hmax].
    + exists (Some e). split; [left|]. split; [done|]. intros e' [->|He']%elem_of_cons Hv'; [done|by destruct (Ho e')].
  - exists o. destruct o as [x|].
    + destruct Ho as (Hx & Hvx & Hmax). split; [by right|]. split; [done|]. intros e' [->|He']%elem_of_cons Hv'; [done|by apply Hmax].
    + intros e' [->|He']%elem_of_cons; [done|by apply Ho].
Qed.

Lemma is_newest_app g h o o' : run_newer g h -> is_newest u s g o -> is_newest u s h o' ->
  is_newest u s (g ++ h) (match o with Some e => Some e | None => o' end).
Proof.
  intros Hgh Hg Hh. destruct o as [e|].
  - destruct Hg as (He & Hv & Hmax). split; [set_solver|]. split; [done|]. intros e' [He'|He']%elem_of_app Hv'; [by apply Hmax|].
    pose proof (Hgh e e' He He' (visible_same u s e e' Hv Hv')). lia.
  - destruct o' as [e|].
    + destruct Hh as (He & Hv & Hmax). split; [set_solver|]. split; [done|]. intros e' [He'|He']%elem_of_app Hv'; [by destruct (Hg e')|by apply Hmax].
    + intros e [He|He]%elem_of_app; [by apply Hg|by apply Hh].
Qed.
End newest.

(** Statistics change the counters of files only. *)
Section seeks.
Context `{Comparator} (C : Z -> list write).

Definition same_tables (v v' : Version) : Prop :=
  length (files_ v') = length (files_ v)
  /\ forall level, Forall2 (fun f f' => number f' = number f /\ file_size f' = file_size f /\ smallest f' = smallest f /\ largest f' = largest f)
       (level_files v level) (level_files v' level).

Lemma same_tables_refl v : same_tables v v.
Proof. split; [done|]. intros level. apply Forall2_same_length_lookup. split; [done|]. intros i f f' -> [= ->]. done. Qed.

Lemma set_seeks_same n k f : let f' := set_seeks n k f in
  number f' = number f /\ file_size f' = file_size f /\ smallest f' = smallest f /\ largest f' = largest f.
Proof. cbv zeta. unfold set_seeks. by case_decide. Qed.

Lemma seeks_same_tables v n k : same_tables v (with_files_ v (map (map (set_seeks n k)) (files_ v))).
Proof.
  split; [cbn; by rewrite length_map|]. intros level. unfold level_files. cbn [files_ with_files_].
  change (@nil FileMetaData) with (map (set_seeks n k) []) at 2. rewrite map_nth. apply Forall2_fmap_r, Forall2_same_length_lookup.
  split; [done|]. intros i f f' -> [= ->]. apply set_seeks_same.
Qed.

Lemma same_tables_in v v' level f' : same_tables v v' -> f' ∈ level_files v' level ->
  exists f, f ∈ level_files v level /\ number f' = number f /\ file_size f' = file_size f /\ smallest f' = smallest f /\ largest f' = largest f.
Proof.
  intros [_ Hs] [i Hi]%list_elem_of_lookup. destruct (Forall2_lookup_r _ _ _ _ _ (Hs level) Hi) as (f & Hf & HR). exists f.
  split; [by apply list_elem_of_lookup_2 in Hf|done].
Qed.

Lemma same_tables_writes v v' level : same_tables v v' -> files_writes C (level_files v' level) = files_writes C (level_files v level).
Proof.
  intros [_ Hs]. unfold files_writes. f_equal. specialize (Hs level). induction Hs as [|f f' l l' (E & _) _ IH]; [done|]. cbn [map]. by rewrite E, IH.
Qed.

Lemma same_tables_version_writes v v' : version_wf C v -> version_wf C v' -> same_tables v v' -> version_writes C v' = version_writes C v.
Proof.
  intros Hv Hv' Hs. rewrite <- (levels_from_all C v Hv), <- (levels_from_all C v' Hv'). unfold levels_from. f_equal. apply map_ext. intros i.
  by apply same_tables_writes.
Qed.

Lemma same_tables_wf v v' : same_tables v v' -> version_wf C v -> version_wf C v'.
Proof.
  intros Hs Hv. pose proof Hs as [Hlen Hl]. split.
  - by rewrite Hlen, (vw_levels _ _ Hv).
  - intros level f' (f & Hf & En & _ & Es & El)%(same_tables_in v v' level f' Hs).
    destruct (vw_files _ _ Hv level f Hf) as [H1 H2 H3 H4]. split; rewrite ?En, ?Es, ?El; done.
  - intros level. rewrite <- (list.Forall2_length _ _ _ (Hl level)). apply (vw_bound _ _ Hv).
  - intros level Hlevel. pose proof (vw_disjoint _ _ Hv level Hlevel) as Hd. specialize (Hl level). revert Hd.
    induction Hl as [|f f' l l' (_ & _ & Es & El) Hl IH]; intros Hd; [constructor|]. apply StronglySorted_inv in Hd as [Hd Hf]. constructor; [by apply IH|].
    rewrite Forall_forall in Hf |- *. intros g' Hg'%list_elem_of_In. apply list_elem_of_lookup in Hg' as [i Hi].
    destruct (Forall2_lookup_r _ _ _ _ _ Hl Hi) as (g & Hg & _ & _ & Es' & _). unfold file_before. rewrite El, Es'.
    apply Hf, list_elem_of_In. by apply list_elem_of_lookup_2 in Hg.
  - assert (map number (level_files v' 0) = map number (level_files v 0)) as ->; [|apply (vw_numbers _ _ Hv)].
    specialize (Hl 0). induction Hl as [|f f' l l' (En & _) _ IH]; [done|]. cbn [map]. by rewrite En, IH.
  - intros f' g' (f & Hf & En & _)%(same_tables_in v v' 0 f' Hs) (g & Hg & En' & _)%(same_tables_in v v' 0 g' Hs). rewrite En, En'.
    by apply (vw_recency0 _ _ Hv).
  - intros l l' Hll. rewrite !(same_tables_writes v v') by done. by apply (vw_recency _ _ Hv).
Qed.

Lemma UpdateStats_spec v stats : (forall f level, stats = Some (f, level) -> -2^31 < allowed_seeks f < 2^31) ->
  exists b v', UpdateStats v stats = Ret (b, v') /\ same_tables v v'.
Proof.
  intros Hst. unfold UpdateStats. destruct stats as [[f level]|]; [|exists false, v; split; [done|apply same_tables_refl]].
  specialize (Hst f level eq_refl). unfold int_add. rewrite decide_True by lia. cbn [mbind res_bind].
  pose proof (seeks_same_tables v (number f) (allowed_seeks f + -1)) as Hs.
  destruct (file_to_compact_ v); [eexists _, _; split; [done|exact Hs]|].
  destruct (_ <=? _); (eexists _, _; split; [done|exact Hs]).
Qed.
End seeks.

Section reads.
Context `{Comparator} {Wf T : Type} (C : Z -> list write).
Implicit Type d : DBImpl Wf T.

(** The writes in the memtable, [hm], in the immutable one, [hi], and in the
    tables of the current version: to a user key, newer ones come first. *)
Record db_holds d (hm hi : list write) : Prop := {
  dh_mem : represents (mem_ d) hm;
  dh_imm : match imm_ d with Some m => represents m hi | None => hi = [] end;
  dh_version : version_wf C (current d);
  dh_mem_newer : run_newer hm (hi ++ version_writes C (current d));
  dh_imm_newer : run_newer hi (version_writes C (current d));
}.
Definition db_writes d (hm hi : list write) : list write := hm ++ hi ++ version_writes C (current d).

Lemma db_holds_current d v hm hi : db_holds d hm hi -> same_tables (current d) v ->
  db_holds (with_current d v) hm hi /\ db_writes (with_current d v) hm hi = db_writes d hm hi.
Proof.
  intros [Hm Hi Hv Hnm Hni] Hs. pose proof (same_tables_wf C _ _ Hs Hv) as Hv'.
  pose proof (same_tables_version_writes C _ _ Hv Hv' Hs) as E. split; [split|]; unfold db_writes; cbn; rewrite ?E; done.
Qed.

Lemma MaybeScheduleCompaction_eq d : MaybeScheduleCompaction d = d \/ MaybeScheduleCompaction d = with_scheduled d true.
Proof. unfold MaybeScheduleCompaction. repeat (case_match; [by left|]). by right. Qed.

(** ** Properties *)

(** C14: a get from the open database finds the newest write that the snapshot
    sees, or the last sequence number when there is none: of the memtable, the
    immutable memtable and all tables of the current version, over any table
    cache that answers as the files do.  The value is that of the write; a
    deletion and no write at all are [NotFound], and leave the caller's string
    as it was.  What the database holds is the same afterwards: only the
    counters that ask for compactions change. *)
Theorem database_get `{!Version.TableCache} good d hm hi snapshot u value :
  TableCacheSpec C good -> db_holds d hm hi ->
  (forall level f, f ∈ level_files (current d) level -> good f /\ -2^31 < allowed_seeks f < 2^31) ->
  Z.of_nat (length u) + 8 < 2^32 ->
  let s := match snapshot with Some s => number_ s | None => vs_last_sequence_ (versions_ d) end in
  valid_seq s ->
  exists o d', is_newest u s (db_writes d hm hi) o
  /\ DBImpl_Get d snapshot u value = Ret ((get_answer o value).1, (get_answer o value).2, d')
  /\ db_holds d' hm hi /\ db_writes d' hm hi = db_writes d hm hi.
Proof.
  intros Hcache Hd Hgood Hu s Hs. pose proof Hd as [Hm Hi Hv Hnm Hni]. unfold DBImpl_Get, db_writes. fold s.
  pose proof (newest_is_newest u s hm (rep_order _ _ Hm)) as Hnewm. rewrite (Get_represents _ _ _ _ _ _ Hm Hs Hu). unfold lookup_result.
  destruct (Version_Get_newest C good (current d) u s value) as (o & charged & Ho & Eg & Hc); [done|done|by intros; eapply Hgood|done|].
  destruct (newest u s hm) as [[k x]|] eqn:Em.
  { destruct (is_newest_exists u s (hi ++ version_writes C (current d))) as [o' Ho']. exists (Some (k, x)), d.
    split; [exact (is_newest_app u s hm _ _ _ Hnm Hnewm Ho')|]. cbn [mbind res_bind]. destruct (type k) eqn:Ek; cbn; by rewrite Ek. }
  cbn [mbind res_bind].
  assert (is_newest u s hi (match imm_ d with Some _ => newest u s hi | None => None end)) as Hnewi.
  { destruct (imm_ d); [apply newest_is_newest, (rep_order _ _ Hi)|]. subst hi. intros e He. by apply elem_of_nil in He. }
  pose proof (is_newest_app u s hm _ _ _ Hnm Hnewm (is_newest_app u s hi _ _ _ Hni Hnewi Ho)) as Hall. cbn beta iota in Hall.
  assert (exists d', ('(s, value, stats) ← Version_Get (current d) (LookupKey_make u s) value; '(seek, v) ← UpdateStats (current d) stats;
      let d := with_current d v in Ret (s, value, if (seek : bool) then MaybeScheduleCompaction d else d))
    = Ret ((get_answer o value).1, (get_answer o value).2, d') /\ db_holds d' hm hi /\ db_writes d' hm hi = db_writes d hm hi) as (d1 & Ed & Hd1).
  { rewrite Eg. cbn [mbind res_bind].
    destruct (UpdateStats_spec (current d) charged) as (b & v' & -> & Hsame).
    { intros f level E. by destruct (Hgood level f (Hc f level E)). }
    cbn [mbind res_bind]. destruct (db_holds_current d v' hm hi Hd Hsame) as [Hd' Ew]. eexists. split; [done|]. destruct b; [|done].
    destruct (MaybeScheduleCompaction_eq (with_current d v')) as [-> | ->]; [done|]. split; [by destruct Hd'; split|exact Ew]. }
  destruct (imm_ d) as [m|] eqn:Eimm.
  - rewrite (Get_represents _ _ _ _ _ _ Hi Hs Hu). unfold lookup_result.
    destruct (newest u s hi) as [[k x]|]; [exists (Some (k, x)), d; cbn [mbind res_bind]; split; [exact Hall|destruct (type k) eqn:Ek; cbn; by rewrite Ek]|].
    exists o, d1. split; [exact Hall|]. split; [exact Ed|exact Hd1].
  - exists o, d1. split; [exact Hall|]. split; [exact Ed|exact Hd1].
Qed.
End reads.

(** ** Which files are deleted *)

(** The names that the parser takes: no slash, and a number of 64 bits. *)
Lemma consume_loop_parts input v n : 0 <= v < 2^64 -> match consume_loop input v n with
  | (Some (x, _), rest) => 0 <= x < 2^64 /\ exists l, input = l ++ rest /\ zb 47 ∉ l
  | _ => True
  end.
Proof.
  revert v n. induction input as [|c input IH]; intros v n Hv; cbn [consume_loop]; [split; [done|]; exists []; split; [done|]; apply not_elem_of_nil|].
  destruct (_ && _) eqn:Ed.
  - destruct (_ || _) eqn:Eo; [done|]. specialize (IH (u64 (u64 (v * 10) + (bz c - 48))) (n + 1)).
    destruct (consume_loop input _ _) as [[[x k]|] rest]; [|done]. destruct IH as [Hx (l & -> & Hl)]; [by apply Z.mod_pos_bound|].
    split; [done|]. exists (c :: l). split; [done|]. intros [E|Hin]%elem_of_cons; [|done]. rewrite <- E in Ed. vm_compute in Ed. done.
  - split; [done|]. exists []. split; [done|]. apply not_elem_of_nil.
Qed.

Lemma equal_true x y : Slice.equal x y = true -> x = y.
Proof. rewrite Slice.equal_spec. apply bool_decide_eq_true. Qed.

Lemma no_slash (l : bytes) : bool_decide (zb 47 ∉ l) = true -> zb 47 ∉ l.
Proof. apply bool_decide_eq_true. Qed.

Lemma ParseFileName_name f number type : ParseFileName f = Some (number, type) -> 0 <= number < 2^64 /\ zb 47 ∉ f.
Proof.
  assert (forall x y : bytes, Slice.equal x y = true -> zb 47 ∉ y -> zb 47 ∉ x) as Heq by (by intros x y ->%equal_true).
  assert (forall l suffix : bytes, zb 47 ∉ l -> zb 47 ∉ suffix -> zb 47 ∉ l ++ suffix) as Happ by (intros; set_solver).
  unfold ParseFileName.
  destruct (Slice.equal f (lit "CURRENT")) eqn:E1; [intros [= <- <-]; split; [done|by apply (Heq _ _ E1), no_slash]|].
  destruct (Slice.equal f (lit "LOCK")) eqn:E2; [intros [= <- <-]; split; [done|by apply (Heq _ _ E2), no_slash]|].
  destruct (Slice.equal f (lit "LOG")) eqn:E3; [intros [= <- <-]; split; [done|by apply (Heq _ _ E3), no_slash]|].
  destruct (Slice.equal f (lit "LOG.old")) eqn:E4; [intros [= <- <-]; split; [done|by apply (Heq _ _ E4), no_slash]|]. cbn [orb].
  unfold ConsumeDecimalNumber. destruct (Slice.starts_with f (lit "MANIFEST-")) eqn:E5.
  - apply Slice.starts_with_spec in E5 as [rest ->]. rewrite drop_app_length. pose proof (consume_loop_parts rest 0 0 ltac:(done)) as Hl.
    destruct (consume_loop rest 0 0) as [[[x k]|] r]; [|done]. destruct Hl as [Hx (l & -> & Hl)]. destruct (0 <? k); [|done].
    destruct r; [|done]. intros [= <- <-]. split; [done|]. apply Happ; [by apply no_slash|]. by rewrite app_nil_r.
  - pose proof (consume_loop_parts f 0 0 ltac:(done)) as Hl. destruct (consume_loop f 0 0) as [[[x k]|] r]; [|done].
    destruct Hl as [Hx (l & -> & Hl)]. destruct (0 <? k); [|done].
    destruct (Slice.equal r (lit ".log")) eqn:R1; [intros [= <- <-]; split; [done|]; apply Happ; [done|by apply (Heq _ _ R1), no_slash]|].
    destruct (Slice.equal r (lit ".sst")) eqn:R2; [intros [= <- <-]; split; [done|]; apply Happ; [done|by apply (Heq _ _ R2), no_slash]|].
    destruct (Slice.equal r (lit ".ldb")) eqn:R3; [intros [= <- <-]; split; [done|]; apply Happ; [done|by apply (Heq _ _ R3), no_slash]|]. cbn [orb].
    destruct (Slice.equal r (lit ".dbtmp")) eqn:R4; [intros [= <- <-]; split; [done|]; apply Happ; [done|by apply (Heq _ _ R4), no_slash]|done].
Qed.

Lemma elem_of_AddLiveFiles versions live n : n ∈ AddLiveFiles versions live <->
  n ∈ live \/ exists v fs f, v ∈ versions /\ fs ∈ files_ v /\ f ∈ fs /\ n = number f.
Proof.
  assert (forall fs (live : gset Z), n ∈ fold_left (fun live f => {[number f]} ∪ live) fs live <-> n ∈ live \/ exists f, f ∈ fs /\ n = number f) as H1.
  { induction fs as [|f fs IH]; intros l; cbn [fold_left]; [set_solver|]. rewrite IH. set_solver. }
  assert (forall fl (live : gset Z), n ∈ fold_left (fun live fs => fold_left (fun live f => {[number f]} ∪ live) fs live) fl live
    <-> n ∈ live \/ exists fs f, fs ∈ fl /\ f ∈ fs /\ n = number f) as H2.
  { induction fl as [|fs fl IH]; intros l; cbn [fold_left]; [set_solver|]. rewrite IH, H1. set_solver. }
  unfold AddLiveFiles. revert live. induction versions as [|v vs IH]; intros l; cbn [fold_left]; [set_solver|]. rewrite IH, H2. set_solver.
Qed.

Section obsolete_files.
Context {W Wf Sf T : Type} `{!Env W Wf Sf} `{!EnvSpec W Wf Sf} `{!Tables W T} (dbname : bytes).
(** What is asked of the table cache: it can evict. *)
Context (tables_good : T -> Prop).
Context (Hevict : forall t n, tables_good t -> 0 <= n < 2^64 -> exists t', tables_Evict t n = Ret t' /\ tables_good t').
Implicit Type d : DBImpl Wf T.

Definition in_dir (f : bytes) : bytes := dbname ++ lit "/" ++ f.

Definition obsolete d (live : gset Z) (f : bytes) : bool :=
  match ParseFileName f with Some (number, type) => negb (keep_file d live number type) | None => false end.

Lemma in_dir_inj f g : in_dir f = in_dir g -> f = g.
Proof. unfold in_dir. intros E%app_inv_head. by injection E. Qed.

Lemma made_in_dir x : in_dir (drop (length dbname + 1) (dbname ++ zb 47 :: x)) = dbname ++ zb 47 :: x.
Proof.
  unfold in_dir. f_equal. rewrite drop_app. replace (length dbname + 1 - length dbname)%nat with 1%nat by lia.
  rewrite drop_ge by lia. done.
Qed.

(** The loop deletes the obsolete files of the list. *)
Lemma obsolete_loop_spec d live fs : forall w t, env_ok w -> tables_good t ->
  exists w' t', obsolete_loop dbname d live fs w t = Ret (w', t') /\ env_ok w' /\ tables_good t'
  /\ (forall k n, (forall f, obsolete d live f = true -> n <> in_dir f) -> writes w k n -> writes w' k n)
  /\ forall n, contents w' !! n = if bool_decide (Exists (fun f => obsolete d live f = true /\ n = in_dir f) fs) then None else contents w !! n.
Proof.
  induction fs as [|f fs IH]; intros w t Hw Ht.
  { exists w, t. split; [done|]. split; [done|]. split; [done|]. split; [done|]. intros n. by rewrite bool_decide_false by (by intros ?%Exists_nil). }
  cbn [obsolete_loop].
  assert (obsolete d live f = false -> exists w' t', obsolete_loop dbname d live fs w t = Ret (w', t') /\ env_ok w' /\ tables_good t'
    /\ (forall k n, (forall f, obsolete d live f = true -> n <> in_dir f) -> writes w k n -> writes w' k n)
    /\ forall n, contents w' !! n = if bool_decide (Exists (fun f => obsolete d live f = true /\ n = in_dir f) (f :: fs)) then None else contents w !! n) as Hskip.
  { intros Hf. destruct (IH w t Hw Ht) as (w' & t' & E & Hw' & Ht' & Hk & Hc). exists w', t'. repeat (split; [done|]). intros n. rewrite Hc.
    erewrite bool_decide_ext; [done|]. rewrite List.Exists_cons, Hf. naive_solver. }
  destruct (ParseFileName f) as [[number type]|] eqn:Ef; [|apply Hskip; unfold obsolete; by rewrite Ef].
  destruct (keep_file d live number type) eqn:Ek; [apply Hskip; unfold obsolete; by rewrite Ef, Ek|]. clear Hskip.
  destruct (ParseFileName_name _ _ _ Ef) as [Hn _].
  assert (exists t1, (if decide (type = kTableFile) then tables_Evict t number else Ret t) = Ret t1 /\ tables_good t1) as (t1 & -> & Ht1)
    by (case_decide; [by apply Hevict|by exists t]).
  cbn [mbind res_bind]. fold (in_dir f). destruct (env_delete_any w (in_dir f) Hw) as (s & w1 & -> & Hw1 & Hc1 & Hk1). cbn [mbind res_bind].
  destruct (IH w1 t1 Hw1 Ht1) as (w' & t' & E & Hw' & Ht' & Hk & Hc). exists w', t'. split; [done|]. split; [done|]. split; [done|].
  assert (obsolete d live f = true) as Ho by (unfold obsolete; by rewrite Ef, Ek). split.
  - intros k n Hne Hx. apply Hk; [done|]. apply Hk1; [|done]. intros ->%list_elem_of_singleton. by apply (Hne f).
  - intros n. rewrite Hc, Hc1. destruct (decide (n = in_dir f)) as [->|Hne].
    + rewrite lookup_delete_eq, (bool_decide_true (Exists _ (f :: fs))) by (by left). by case_bool_decide.
    + rewrite lookup_delete_ne by done. erewrite bool_decide_ext; [done|]. rewrite List.Exists_cons. naive_solver.
Qed.

(** The names that are left alone. *)
Definition needed d (x : bytes) : Prop := forall f, obsolete d (live_files d) f = true -> x <> in_dir f.

Lemma DeleteObsoleteFiles_spec w d : env_ok w -> tables_good (table_cache_ d) -> exists w' t',
  DeleteObsoleteFiles dbname w d = Ret (w', with_tables d t') /\ env_ok w' /\ tables_good t'
  /\ (forall x, needed d x -> contents w' !! x = contents w !! x /\ forall k, writes w k x -> writes w' k x)
  /\ (Status.ok (bg_error_ d) = false -> contents w' = contents w)
  /\ (Status.ok (bg_error_ d) = true -> forall f, obsolete d (live_files d) f = true -> contents w' !! in_dir f = None).
Proof.
  intros Hw Ht. unfold DeleteObsoleteFiles. destruct (Status.ok (bg_error_ d)) eqn:Ebg; cbn [negb].
  2:{ exists w, (table_cache_ d). repeat (split; [by destruct d || done|]). done. }
  destruct (env_children w dbname Hw) as (l & -> & Hl).
  destruct (obsolete_loop_spec d (live_files d) l w (table_cache_ d) Hw Ht) as (w' & t' & -> & Hw' & Ht' & Hk & Hc). cbn [mbind res_bind].
  exists w', t'. split; [done|]. split; [done|]. split; [done|]. split; [|split; [done|]].
  - intros x Hx. split; [|intros k; by apply Hk]. rewrite Hc, bool_decide_false; [done|]. rewrite Exists_exists. intros (f & _ & Hf & ->). by apply (Hx f).
  - intros _ f Eo. rewrite Hc. case_bool_decide as Hex; [done|]. destruct (contents w !! in_dir f) as [c|] eqn:Ec; [|done]. destruct Hex. apply Exists_exists.
    exists f. split; [|done]. apply list_elem_of_In, Hl; [|by exists c]. unfold obsolete in Eo.
    destruct (ParseFileName f) as [[number type]|] eqn:Ef; [|done]. by destruct (ParseFileName_name _ _ _ Ef).
Qed.

Lemma needed_made d name x number type : name = dbname ++ zb 47 :: x -> ParseFileName (drop (length dbname + 1) name) = Some (number, type) ->
  keep_file d (live_files d) number type = true -> needed d name.
Proof.
  intros E Ep Ek f Ho Ef. rewrite E, <- made_in_dir in Ef. apply in_dir_inj in Ef. rewrite <- E in Ef. subst f. unfold obsolete in Ho.
  by rewrite Ep, Ek in Ho.
Qed.

Lemma needed_live d n : n ∈ live_files d -> 0 <= n <= kMaxUint64 ->
  needed d (TableFileName dbname n) /\ needed d (SSTTableFileName dbname n) /\ needed d (TempFileName dbname n).
Proof.
  intros Hn Hb. destruct (ParseFileName_made dbname n Hb) as (_ & P1 & P2 & P3 & _).
  split; [|split]; (eapply needed_made; [reflexivity|eassumption|]); cbn; by apply bool_decide_eq_true.
Qed.

Lemma live_current d v level f : v ∈ current d :: referenced_ d -> f ∈ level_files v level -> number f ∈ live_files d.
Proof.
  intros Hv Hf. apply elem_of_AddLiveFiles. right.
  exists v, (level_files v level), f. split; [done|]. split; [|done]. unfold level_files in *.
  destruct (nth_in_or_default (Z.to_nat level) (files_ v) []) as [?%list_elem_of_In|E]; [done|]. rewrite E in Hf. by apply elem_of_nil in Hf.
Qed.

Lemma needed_log d n : 0 <= n <= kMaxUint64 -> vs_log_number_ (versions_ d) <= n \/ n = vs_prev_log_number_ (versions_ d) -> needed d (LogFileName dbname n).
Proof.
  intros Hb Hn. destruct (ParseFileName_made dbname n Hb) as (P & _). eapply needed_made; [reflexivity|eassumption|]. cbn. lia.
Qed.

Lemma needed_descriptor d n : 0 <= n <= kMaxUint64 -> vs_manifest_file_number_ (versions_ d) <= n -> needed d (DescriptorFileName dbname n).
Proof.
  intros Hb Hn. destruct (ParseFileName_made dbname n Hb) as (_ & _ & _ & _ & P & _). eapply needed_made; [reflexivity|eassumption|]. cbn. lia.
Qed.

Lemma needed_current d : needed d (CurrentFileName dbname).
Proof. destruct (ParseFileName_made dbname 0 ltac:(done)) as (_ & _ & _ & _ & _ & P & _). eapply needed_made; [reflexivity|eassumption|done]. Qed.

End obsolete_files.

(** ** A database with a memtable and three tables *)

#[local] Existing Instance BytewiseComparator.
#[local] Instance no_tables : Tables InMemoryEnv unit := {
  tables_status w t _ _ := Ret (Status.OK, t);
  tables_Evict t _ := Ret t;
}.

Definition sample_db (m : MemTable) : DBImpl nat unit :=
  mkDBImpl m None 8 (mkVersionSet 9 2 9 8 0 None sample_version []) [] new_SnapshotList ∅ tt Status.OK false false None.

Lemma sample_db_holds m : represents m sample -> db_holds sample_tables (sample_db m) sample [].
Proof.
  intros Hm. split; [exact Hm|done|exact sample_wf|by apply run_newer_b|intros a b Ha; by apply elem_of_nil in Ha].
Qed.

Lemma sample_db_get : (m ← MemTable.add_all new_MemTable sample;
    '(s, v, _) ← @DBImpl_Get nat unit _ (list_cache sample_tables) (sample_db m) None (lit "b") (lit "old"); Ret (s, v)) = Ret (Status.OK, lit "new").
Proof. vm_compute. reflexivity. Qed.

Lemma database_get_witness : exists m o d', MemTable.add_all new_MemTable sample = Ret m
  /\ is_newest (lit "b") 9 (db_writes sample_tables (sample_db m) sample []) o
  /\ @DBImpl_Get nat unit _ (list_cache sample_tables) (sample_db m) None (lit "b") (lit "old")
     = Ret ((get_answer o (lit "old")).1, (get_answer o (lit "old")).2, d')
  /\ get_answer o (lit "old") = (Status.OK, lit "new").
Proof.
  destruct (add_all_represents sample new_MemTable [] new_represents (proj1 sample_good) (proj2 sample_good)) as (m & Em & Hm).
  destruct (@database_get _ nat unit sample_tables (list_cache sample_tables) (file_ok sample_tables) (sample_db m) sample [] None (lit "b") (lit "old"))
    as (o & d' & Ho & Eg & _).
  - apply list_cache_spec.
  - by apply sample_db_holds.
  - intros level f Hf. split; [by apply (vw_files _ _ sample_wf level)|].
    apply sample_levels in Hf as [[_ [->| ->]]|[_ ->]]; split; reflexivity.
  - reflexivity.
  - split; [done|vm_compute; done].
  - exists m, o, d'. split; [exact Em|]. split; [exact Ho|]. split; [exact Eg|].
    pose proof sample_db_get as Es. rewrite Em in Es. cbn [mbind res_bind] in Es. rewrite Eg in Es. cbn [mbind res_bind] in Es.
    injection Es as E1 E2. by rewrite <- E1, <- E2, <- surjective_pairing.
Defined.

