(* ===== verification/DbFlush.v ===== *)
(** * DbFlush: a memtable becomes a table (db/db_impl.cc)

    [WriteLevel0Table] and [CompactMemTable]: the immutable memtable is written
    to a table file, which an edit adds to a level, and the log that it was
    recovered from is not needed any more.  [memtable_flushed] follows the
    writes through the iterator of the memtable, the table builder, the
    environment, the descriptor and the deletion of obsolete files. *)

From S2P Require Import Prelude CLib Double Coding Crc32c Status DbFormat SkipList MemTable KeyOrder Iterator MemIterator Filename Log Bloom FilterBlock.
From S2P Require Import BlockBuilder Block TableFormat TableBuilder TableLookup Env VersionEdit Version TableCache BuildTable VersionBuilder VersionSet Descriptor.
From S2P Require Import MemEnv Table Compaction CompactionView DbImpl.

(** ** The operations *)

Section flush.
Context `{!Comparator} (Hsame : forall u v, Compare u v = 0 -> ~ Compare u (FindShortestSeparator u v) < 0).
Context `{!ComparatorName} `{!Snappy} `{!Address} (user_policy : FilterPolicy).
Context {W Wf Sf T : Type} `{!Env W Wf Sf} `{!Tables W T} (dbname_ : bytes) (options_ : Options).
Implicit Type d : DBImpl Wf T.

(** The edit with the new file, if there is one, and the level it goes to. *)
Definition add_level0 (s : Status.t) (meta : FileMetaData) (base : option Version) (edit : VersionEdit) : res VersionEdit :=
  if Status.ok s && (0 <? file_size meta) then
    min_user_key ← ExtractUserKey (smallest meta);
    max_user_key ← ExtractUserKey (largest meta);
    level ← match base with Some v => PickLevelForMemTableOutput v min_user_key max_user_key | None => Ret 0 end;
    Ret (AddFile edit level (number meta) (file_size meta) (smallest meta) (largest meta))
  else Ret edit.

(** The mutex is released while the table is built. *)
Definition WriteLevel0Table (fuel : nat) (w : W) d (mem : MemTable) (edit : VersionEdit) (base : option Version)
    : res (Status.t * W * DBImpl Wf T * VersionEdit) :=
  let '(n, vs) := NewFileNumber (versions_ d) in
  let d := with_pending (with_versions d vs) ({[n]} ∪ pending_outputs_ d) in
  '(s, w, tables, _, meta) ← BuildTable (H := table_order Hsame) (H2 := table_policy user_policy)
                               fuel w (table_cache_ d) dbname_ options_ (MemTable_NewIterator mem) (new_FileMetaData n);
  let d := with_pending (with_tables d tables) (pending_outputs_ d ∖ {[n]}) in
  edit ← add_level0 s meta base edit;
  Ret (s, w, d, edit).

Definition CompactMemTable (fuel : nat) (w : W) d : res (W * DBImpl Wf T) :=
  imm ← of_option (imm_ d);
  '(s, w, d, edit) ← WriteLevel0Table fuel w d imm new_VersionEdit (Some (current d));
  let s := if Status.ok s && shutting_down_ d then Status.IOError (lit "Deleting DB during memtable compaction") [] else s in
  '(s, w, d) ← (if Status.ok s then
                  let edit := SetLogNumber (SetPrevLogNumber edit 0) (logfile_number_ d) in
                  '(s, w, vs) ← LogAndApply w (versions_ d) dbname_ edit;
                  Ret (s, w, with_versions d vs)
                else Ret (s, w, d));
  if Status.ok s then DeleteObsoleteFiles dbname_ w (with_imm d None)
  else Ret (w, RecordBackgroundError d s).
End flush.

(** ** A version with one more table *)

Section added.
Context `{Comparator} (C : Z -> list write) (v v' : Version) (level : Z) (f : FileMetaData) (es : list write).
Context (Hwf : version_wf C v) (Hlevel : 0 <= level < config.kNumLevels).

(** The table of the new file. *)
Definition with_table (n : Z) (k : Z) : list write := if decide (k = n) then es else C k.
Abbreviation C' := (with_table (number f)).

(** The file has the writes [es], which are newer than all others, under a
    number above all others; the levels from its own up hold nothing in its
    range, unless it goes to the first. *)
Record new_table : Prop := {
  nt_file : file_ok C' f;
  nt_newer : run_newer es (version_writes C v);
  nt_number l g : g ∈ level_files v l -> number g < number f;
  nt_apart : 0 < level -> forall l, 0 <= l <= level -> ~ Exists (overlaps (Some (start_user f)) (Some (limit_user f))) (level_files v l);
}.

(** The version that has it. *)
Record added : Prop := {
  ad_levels : length (files_ v') = Z.to_nat config.kNumLevels;
  ad_files l : 0 <= l < config.kNumLevels -> level_files v' l ≡ₚ level_files v l ++ (if decide (l = level) then [f] else []);
  ad_sorted l : 0 < l < config.kNumLevels -> StronglySorted (cmp_lt file_cmp) (level_files v' l);
  ad_bound l : Z.of_nat (length (level_files v' l)) < 2^31;
}.
Context (Hf : new_table) (Ha : added).

Lemma elem_added l g : 0 <= l < config.kNumLevels -> g ∈ level_files v' l <-> g ∈ level_files v l \/ (l = level /\ g = f).
Proof.
  intros Hl. rewrite (ad_files Ha l Hl), elem_of_app. case_decide as E; [|rewrite elem_of_nil; naive_solver].
  rewrite list_elem_of_singleton. naive_solver.
Qed.

Lemma old_table l g : g ∈ level_files v l -> C' (number g) = C (number g).
Proof. intros Hg. pose proof (nt_number Hf l g Hg). unfold with_table. by rewrite decide_False by lia. Qed.

Lemma new_writes_of : C' (number f) = es.
Proof. unfold with_table. by rewrite decide_True. Qed.

Lemma added_file_ok l g : 0 <= l < config.kNumLevels -> g ∈ level_files v' l -> file_ok C' g.
Proof.
  intros Hl [Hg|[-> ->]]%elem_added; [|apply Hf|done].
  pose proof (vw_files _ _ Hwf _ _ Hg) as [F1 F2 F3 F4]. pose proof (old_table _ _ Hg) as E. split; by rewrite E.
Qed.

(** A file that does not overlap lies before or after. *)
Lemma apart_before g : file_ok C' g -> ~ overlaps (Some (start_user f)) (Some (limit_user f)) g -> file_before f g \/ file_before g f.
Proof.
  intros Hg Hno. unfold overlaps in Hno. unfold file_before.
  destruct (decide (Compare (limit_user g) (start_user f) < 0)) as [Hlt|Hge].
  - right. apply user_lt_internal. by apply Compare_lt.
  - left. apply user_lt_internal. destruct (decide (Compare (start_user g) (limit_user f) <= 0)) as [Hle|Hgt]; [exfalso; apply Hno; lia|].
    assert (~ cmp_le ucmp (start_user g) (limit_user f)) as Hn by (unfold cmp_le; by rewrite <- Compare_le).
    unfold cmp_le, cmp_lt in *. rewrite (cmp_antisym (cmp:=ucmp)). unfold start_user, limit_user in Hn. destruct (ucmp (raw_user (smallest g)) _); [exfalso; by apply Hn..|done].
Qed.

Lemma added_disjoint l : 0 < l < config.kNumLevels -> StronglySorted file_before (level_files v' l).
Proof.
  intros Hl. apply sorted_disjoint; [|by apply (ad_sorted Ha)|].
  - apply list.Forall_forall. intros g Hg. eapply (file_ok_ranged (C:=C')), added_file_ok; [|exact Hg]. lia.
  - intros g1 g2 H1 H2 Hne. pose proof (added_file_ok l g1 ltac:(lia) H1) as Ok1. pose proof (added_file_ok l g2 ltac:(lia) H2) as Ok2.
    apply elem_added in H1, H2; [|lia..].
    assert (l = level -> forall g, g ∈ level_files v l -> ~ overlaps (Some (start_user f)) (Some (limit_user f)) g) as Hap.
    { intros -> g Hg Hov. eapply (nt_apart Hf ltac:(lia) level); [lia|]. apply list.Exists_exists. by exists g. }
    destruct H1 as [H1|[-> ->]], H2 as [H2|[E ->]]; try done.
    + apply (sorted_either file_before (level_files v l)); [apply (vw_disjoint _ _ Hwf); lia|done..].
    + destruct (apart_before g1 Ok1); [by apply Hap|by right|by left].
    + by apply apart_before; [|apply Hap].
Qed.

(** No write of the new table's user keys is in the levels above its own. *)
Lemma apart_writes l g a b : 0 < level -> 0 <= l <= level -> g ∈ level_files v l -> a ∈ es -> b ∈ C (number g) ->
  ucmp (user_key a.1) (user_key b.1) = Eq -> False.
Proof.
  intros Hpos Hl Hg Hia Hib E. eapply (nt_apart Hf Hpos l Hl). apply list.Exists_exists. exists g. split; [done|].
  apply (shared_key C' f g a b); [apply Hf| |by rewrite new_writes_of|by rewrite (old_table l)|done].
  eapply added_file_ok; [|apply elem_added; [|by left]]; lia.
Qed.

Lemma added_level_writes l e : 0 <= l < config.kNumLevels ->
  e ∈ files_writes C' (level_files v' l) <-> e ∈ files_writes C (level_files v l) \/ (l = level /\ e ∈ es).
Proof.
  intros Hl. rewrite !elem_of_files_writes. split.
  - intros (g & Hg & He). apply elem_added in Hg as [Hg|[-> ->]]; [|right; by rewrite new_writes_of in He|done].
    left. exists g. by rewrite (old_table l g Hg) in He.
  - intros [(g & Hg & He)|[-> He]].
    + exists g. split; [apply elem_added; [done|by left]|]. by rewrite (old_table l g Hg).
    + exists f. split; [apply elem_added; [done|by right]|]. by rewrite new_writes_of.
Qed.

Lemma added_recency i j : 0 <= i < j -> j < config.kNumLevels ->
  run_newer (files_writes C' (level_files v' i)) (files_writes C' (level_files v' j)).
Proof.
  intros Hij Hj a b Hia Hib Eu. apply added_level_writes in Hia, Hib; [|lia..].
  destruct Hia as [Hia|[-> Hia]], Hib as [Hib|[E Hib]]; try lia.
  - by apply (vw_recency _ _ Hwf i j).
  - exfalso. subst j. apply elem_of_files_writes in Hia as (g & Hg & Hia).
    apply (apart_writes i g b a); try done; try lia. by rewrite (cmp_antisym (cmp:=ucmp)), Eu.
  - apply (nt_newer Hf a b); [done| |done]. apply elem_of_version_writes; [apply Hwf|]. exists j. split; [lia|done].
Qed.

Lemma added_wf : version_wf C' v'.
Proof.
  pose proof (ad_levels Ha) as Hlen. split.
  - exact Hlen.
  - intros l g Hg. destruct (level_files_beyond v' l Hlen) as [E|(k & Hk & E & _)]; rewrite E in Hg.
    + by apply elem_of_nil in Hg.
    + by apply (added_file_ok k).
  - apply (ad_bound Ha).
  - intros l Hl. destruct (level_files_beyond v' l Hlen) as [->|(k & Hk & _ & Hsame)]; [constructor|].
    rewrite <- (Hsame ltac:(lia)) in *. by apply added_disjoint; lia.
  - rewrite (ad_files Ha 0) by done. rewrite map_app. apply list.NoDup_app. split; [apply (vw_numbers _ _ Hwf)|].
    case_decide; [|split; [intros n _; apply not_elem_of_nil|constructor]]. split; [|by apply NoDup_singleton].
    intros n (g & -> & Hg)%list_elem_of_fmap E%list_elem_of_singleton. pose proof (nt_number Hf 0 g Hg). cbn in E. lia.
  - intros g1 g2 H1 H2 Hlt. apply elem_added in H1, H2; [|done..]. destruct H1 as [H1|[E ->]], H2 as [H2|[E' ->]].
    + rewrite (old_table 0 g1 H1), (old_table 0 g2 H2). by apply (vw_recency0 _ _ Hwf).
    + rewrite new_writes_of, (old_table 0 g1 H1). intros a b Hia Hib. apply (nt_newer Hf); [done|].
      apply elem_of_version_writes; [apply Hwf|]. exists 0. split; [done|]. apply elem_of_files_writes. by exists g1.
    + pose proof (nt_number Hf 0 g2 H2). lia.
    + lia.
  - intros i j Hij. destruct (level_files_beyond v' j Hlen) as [->|(k & Hk & _ & Hsame)].
    + intros a b _ Hb. by apply elem_of_nil in Hb.
    + rewrite <- (Hsame ltac:(lia)) in *. apply added_recency; lia.
Qed.

Lemma added_writes e : e ∈ version_writes C' v' <-> e ∈ es \/ e ∈ version_writes C v.
Proof.
  rewrite !elem_of_version_writes by first [apply Hwf|apply Ha]. split.
  - intros (l & Hl & [He|[-> He]]%added_level_writes); [right; by exists l|by left|done].
  - intros [He|(l & Hl & He)]; [exists level|exists l]; (split; [done|]); apply added_level_writes; naive_solver.
Qed.
End added.

(** The files of a version in another order. *)
Lemma permuted_wf `{Comparator} C v v' : version_wf C v -> length (files_ v') = Z.to_nat config.kNumLevels ->
  (forall l, 0 <= l < config.kNumLevels -> level_files v' l ≡ₚ level_files v l) ->
  (forall l, 0 < l < config.kNumLevels -> StronglySorted (cmp_lt file_cmp) (level_files v' l)) ->
  version_wf C v' /\ forall e, e ∈ version_writes C v' <-> e ∈ version_writes C v.
Proof.
  intros Hwf Hlen Hp Hs.
  assert (forall l, level_files v' l = [] \/ level_files v' l ≡ₚ level_files v l /\ (0 <= l -> l < config.kNumLevels)) as Hall.
  { intros l. destruct (level_files_beyond v' l Hlen) as [E|(k & Hk & E & Hl)]; [by left|]. right. rewrite E.
    destruct (decide (0 <= l)) as [Hl0|Hl0]; [rewrite (Hl Hl0) in *; split; [by apply Hp|lia]|]. split; [|lia].
    rewrite (Hp k Hk). unfold level_files in *. replace (Z.to_nat l) with 0%nat in * by lia.
    assert (nth 0 (files_ v') [] ≡ₚ nth 0 (files_ v) []) as H0 by (apply (Hp 0); done). rewrite <- H0, E. by rewrite (Hp k Hk). }
  split; [split|].
  - exact Hlen.
  - intros l f Hf. destruct (Hall l) as [E|[E _]]; rewrite E in Hf; [by apply elem_of_nil in Hf|by apply (vw_files _ _ Hwf l)].
  - intros l. destruct (Hall l) as [->|[-> _]]; [done|apply (vw_bound _ _ Hwf)].
  - intros l Hl. destruct (Hall l) as [->|[E Hb]]; [constructor|]. specialize (Hb ltac:(lia)). apply sorted_disjoint; [|by apply Hs|].
    + apply list.Forall_forall. intros f Hf. rewrite E in Hf. eapply file_ok_ranged, (vw_files _ _ Hwf l), Hf.
    + intros f g Hf Hg Hne. rewrite E in Hf, Hg. by apply (sorted_either file_before (level_files v l)); [apply (vw_disjoint _ _ Hwf)|..].
  - rewrite (Hp 0) by done. apply (vw_numbers _ _ Hwf).
  - intros f g Hf Hg. rewrite (Hp 0) in Hf, Hg by done. by apply (vw_recency0 _ _ Hwf).
  - intros l l' Hl. assert (forall k e, e ∈ files_writes C (level_files v' k) -> e ∈ files_writes C (level_files v k)) as Hin.
    { intros k e (f & Hf & He)%elem_of_files_writes. apply elem_of_files_writes. exists f. split; [|done].
      destruct (Hall k) as [E|[E _]]; rewrite E in Hf; [by apply elem_of_nil in Hf|done]. }
    intros a b Ha Hb. apply (vw_recency _ _ Hwf l l'); [done|by apply Hin..].
  - intros e. rewrite !elem_of_version_writes by first [apply Hwf|done].
    split; intros (l & Hl & (f & Hf & He)%elem_of_files_writes); exists l; (split; [done|]); apply elem_of_files_writes; exists f; (split; [|done]);
      [rewrite (Hp l Hl) in Hf|rewrite (Hp l Hl)]; done.
Qed.

(** ** The table of a memtable *)

Lemma weight_perm es es' : es ≡ₚ es' -> weight es = weight es'.
Proof. induction 1; cbn [weight foldr] in *; unfold weight in *; lia. Qed.

(** The names of tables are neither CURRENT nor those of descriptors. *)
Lemma table_not_descriptor dbname n : 0 <= n <= kMaxUint64 -> not_descriptor dbname (TableFileName dbname n) /\ not_descriptor dbname (SSTTableFileName dbname n).
Proof.
  intros Hn. destruct (ParseFileName_made dbname n Hn) as (_ & P1 & P2 & _).
  destruct (ParseFileName_made dbname 0 ltac:(done)) as (_ & _ & _ & _ & _ & PC & _).
  split; (split; [intros E; rewrite <- E in PC; congruence|]); intros m Hm; destruct (ParseFileName_made dbname m Hm) as (_ & _ & _ & PT & PD & _);
    (split; intros E; [rewrite <- E in PD|rewrite <- E in PT]; congruence).
Qed.

Lemma table_names_differ dbname g n : 0 <= g < n -> n <= kMaxUint64 ->
  TableFileName dbname g <> TableFileName dbname n /\ SSTTableFileName dbname g <> TableFileName dbname n.
Proof.
  intros Hg Hn. destruct (ParseFileName_made dbname n ltac:(lia)) as (_ & P & _). destruct (ParseFileName_made dbname g ltac:(lia)) as (_ & P1 & P2 & _).
  split; intros E; rewrite <- E in P; [rewrite P1 in P|rewrite P2 in P]; injection P; lia.
Qed.

Section flush_spec.
Context `{!Comparator} (Hsame : forall u v, Compare u v = 0 -> ~ Compare u (FindShortestSeparator u v) < 0).
Context `{!ComparatorName} (Hname : is_slice comparator_name) `{!Snappy} `{!SnappyLaw} `{!Address} (user_policy : FilterPolicy).
Context {W Wf Sf T : Type} `{!Env W Wf Sf} `{!EnvSpec W Wf Sf} `{!Tables W T} (dbname : bytes) (opt : Options).
Context (HR : 1 <= block_restart_interval opt).
Context (Hfilter : forall name, filter_policy opt = Some name -> Z.of_nat (length name) < 2^31).
#[local] Hint Extern 0 KeyOrder => exact (table_order Hsame) : typeclass_instances.
#[local] Hint Extern 0 FilterPolicy => exact (table_policy user_policy) : typeclass_instances.
Abbreviation is_table := (table_of Hsame user_policy opt).

(** What is asked of the table cache: it can evict, and it opens good tables. *)
Context (tables_good : T -> Prop).
Context (Hevict : forall t n, tables_good t -> 0 <= n < 2^64 -> exists t', tables_Evict t n = Ret t' /\ tables_good t').
Context (Hcheck : forall w t n data wr, env_ok w -> tables_good t -> contents w !! TableFileName dbname n = Some data -> is_table data wr ->
  exists t', tables_status w t n (Z.of_nat (length data)) = Ret (Status.OK, t') /\ tables_good t').
Implicit Type d : DBImpl Wf T.

Lemma sorted_in_order es : StronglySorted (cmp_lt write_cmp) es -> Forall (fun e : write => valid_seq (sequence e.1)) es -> in_order (map raw_write es).
Proof.
  intros Hs Hv. split.
  - apply Forall_map, list.Forall_forall. intros e He. rewrite Forall_forall in Hv. destruct (raw_encode e.1) as (_ & _ & ?); [by apply Hv, list_elem_of_In|done].
  - induction Hs as [|e es Hs IH He]; [constructor|]. apply Forall_cons_1 in Hv as [Hve Hv]. cbn [map]. constructor; [by apply IH|].
    apply Forall_map. rewrite Forall_forall in He, Hv |- *. intros x Hx. unfold cmp_lt. cbn [key_cmp table_order internal_order raw_write fst].
    rewrite internal_cmp_encode; [by apply He|done|by apply Hv].
Qed.

Lemma memtable_run m h : represents m h -> exists es, es ≡ₚ h /\ StronglySorted (cmp_lt write_cmp) es
  /\ Forall (fun e : write => valid_seq (sequence e.1)) es /\ Forall good_write es /\ in_order (map raw_write es)
  /\ cursor MemTableIterator mem_valid key_cmp (map raw_write es) (MemTable_NewIterator m) None.
Proof.
  intros Hm. destruct (memtable_cursor m h Hm) as (es & Hp & Hs & Hg & Hc). exists es. split; [done|]. split; [exact Hs|].
  assert (Forall (fun e : write => valid_seq (sequence e.1)) es) as Hv by (eapply list.Forall_impl; [exact Hg|]; by intros e [[? _] _]).
  split; [done|]. split; [done|]. split; [by apply sorted_in_order|exact Hc].
Qed.

(** The state after the table is built. *)
Definition flush_state d (t : T) : DBImpl Wf T :=
  let '(n, vs) := NewFileNumber (versions_ d) in
  with_pending (with_tables (with_pending (with_versions d vs) ({[n]} ∪ pending_outputs_ d)) t) (({[n]} ∪ pending_outputs_ d) ∖ {[n]}).

Lemma pick_level v lo hi : version_ranged v -> exists level, PickLevelForMemTableOutput v lo hi = Ret level /\ 0 <= level <= 2
  /\ (0 < level -> forall l, 0 <= l <= level -> ~ Exists (overlaps (Some lo) (Some hi)) (level_files v l)).
Proof.
  intros Hv. unfold PickLevelForMemTableOutput. rewrite OverlapInLevel_spec by done. cbn [mbind res_bind].
  case_bool_decide as Ho; [exists 0; split; [done|]; split; [lia|]; lia|].
  destruct (pick_level_loop_spec (Z.to_nat config.kMaxMemCompactLevel) v lo hi Hv 0) as (l & -> & Hl & Hno); [done|].
  exists l. split; [done|]. split; [change (Z.of_nat (Z.to_nat config.kMaxMemCompactLevel)) with 2 in Hl; lia|]. intros _ k Hk. destruct (decide (k = 0)) as [->|]; [done|]. apply Hno. lia.
Qed.

Lemma WriteLevel0Table_spec fuel w d m h base edit : env_ok w -> tables_good (table_cache_ d) -> represents m h ->
  (forall v, base = Some v -> version_ranged v) ->
  small (map raw_write h) -> (length h < fuel)%nat ->
  (forall es r, es ≡ₚ h -> build_table opt [] (map raw_write es) = Ret (r, Status.OK) -> Z.of_nat (length (file r)) < 2^32) ->
  let n := vs_next_file_number_ (versions_ d) in let fname := TableFileName dbname n in
  exists es w' t' edit', es ≡ₚ h /\ StronglySorted (cmp_lt write_cmp) es /\ Forall (fun e : write => valid_seq (sequence e.1)) es /\ Forall good_write es
  /\ env_ok w' /\ tables_good t' /\ kept_uses w w' [fname]
  /\ WriteLevel0Table Hsame user_policy dbname opt fuel w d m edit base = Ret (Status.OK, w', flush_state d t', edit')
  /\ match es with
     | [] => edit' = edit /\ contents w' = delete fname (contents w)
     | first :: _ => exists data last level, list.last es = Some last
         /\ edit' = AddFile edit level n (Z.of_nat (length data)) (encode_key first.1) (encode_key last.1)
         /\ contents w' = <[fname := data]> (contents w) /\ is_table data es /\ 0 <= level <= 2
         /\ (0 < level -> exists v, base = Some v
              /\ forall l, 0 <= l <= level -> ~ Exists (overlaps (Some (user_key first.1)) (Some (user_key last.1))) (level_files v l))
     end.
Proof.
  intros Hw Ht Hm Hv Hsm Hf Hfit n fname. destruct (memtable_run m h Hm) as (es & Hp & Hs & Hseq & Hg & Ho & Hc).
  unfold WriteLevel0Table. unfold NewFileNumber at 1. cbn [NewFileNumber]. fold n.
  set (d0 := with_pending _ _).
  change (table_cache_ d0) with (table_cache_ d).
  assert (small (map raw_write es)) as Hsm'.
  { unfold small in *. rewrite length_map in *. by rewrite (weight_perm _ (map raw_write h)), (Permutation_length Hp) by by rewrite Hp. }
  pose proof (Permutation_length Hp) as Hlen. destruct es as [|first rest].
  - destruct (BuildTable_empty opt fuel w (table_cache_ d) dbname (MemTable_NewIterator m) None (new_FileMetaData n) mem_valid Hw Hc) as (w' & it' & -> & Hw' & Hc' & Hk').
    cbn [mbind res_bind add_level0 Status.ok Status.OK andb file_size set_file_size Z.ltb Z.compare].
    exists [], w', (table_cache_ d), edit. repeat (split; [done|]). done.
  - destruct (BuildTable_run opt HR Hfilter fuel w (table_cache_ d) dbname (MemTable_NewIterator m) None (new_FileMetaData n) mem_valid (raw_write first) (map raw_write rest))
      as (r & seps & ws & hm & hi & w1 & Er & Htf & Hw1 & Hc1 & Hrun); [done|exact Hc|exact Ho|exact Hsm'|cbn; rewrite length_map; cbn in Hlen; lia| |].
    { intros r Er. specialize (Hfit (first :: rest) r Hp Er). lia. }
    change (number (new_FileMetaData n)) with n in *. fold fname in Hc1, Hrun. cbv zeta in Hrun.
    specialize (Hfit (first :: rest) r Hp Er).
    assert (is_table (file r) (first :: rest)) as Htab by (split; [done|]; split; [exact Ho|]; split; [done|]; by exists seps, ws, hm, hi).
    destruct (Hcheck w1 (table_cache_ d) n (file r) (first :: rest)) as (t' & Et & Ht'); [done|done|by rewrite Hc1, lookup_insert_eq|done|].
    destruct (Hrun Status.OK t' Et) as (w' & it' & -> & Hw' & Hc' & Hk'). cbn [mbind res_bind].
    destruct (list.last (first :: rest)) as [last|] eqn:El; [|by apply last_None in El].
    assert (match list.last (raw_write first :: map raw_write rest) with Some e => e.1 | None => [] end = encode_key last.1) as ->.
    { change (raw_write first :: map raw_write rest) with (raw_write <$> (first :: rest)). by rewrite fmap_last, El. }
    unfold add_level0. cbn [Status.ok Status.OK file_size smallest largest number refs allowed_seeks fst raw_write].
    pose proof (table_file_size opt (file r) _ _ _ _ _ Htf) as Hpos. rewrite (proj2 (Z.ltb_lt _ _) Hpos). cbn [andb].
    rewrite !ExtractUserKey_encode. cbn [mbind res_bind].
    assert (exists level, match base with Some v => PickLevelForMemTableOutput v (user_key first.1) (user_key last.1) | None => Ret 0 end = Ret level
      /\ 0 <= level <= 2 /\ (0 < level -> exists v, base = Some v
           /\ forall l, 0 <= l <= level -> ~ Exists (overlaps (Some (user_key first.1)) (Some (user_key last.1))) (level_files v l))) as (level & -> & Hl & Hno).
    { destruct base as [v|]; [|by exists 0]. destruct (pick_level v (user_key first.1) (user_key last.1) (Hv v eq_refl)) as (level & E & Hl & Hno).
      exists level. split; [exact E|]. split; [exact Hl|]. intros Hup. exists v. split; [done|by apply Hno]. }
    cbn [mbind res_bind].
    eexists (first :: rest), w', t', _. repeat (split; [done|]). exists (file r), last, level. by repeat (split; [done|]).
Qed.

(** ** The edit is logged *)

Lemma LogAndApply_session w (vs : VersionSet Wf) D U edit : session dbname w vs D U -> good_edit U edit ->
  exists w' vs', LogAndApply w vs dbname edit = Ret (Status.OK, w', vs') /\ session dbname w' vs' (durable vs') (used U edit)
  /\ env_ok w' /\ vs_descriptor_log_ vs' <> None /\ vs_log_number_ vs' = (if has_log_number_ edit then log_number_ edit else vs_log_number_ vs)
  /\ (vs_last_sequence_ vs' = vs_last_sequence_ vs
       /\ vs_prev_log_number_ vs' = (if has_prev_log_number_ edit then prev_log_number_ edit else vs_prev_log_number_ vs))
  /\ version_sorted (vs_current_ vs') /\ (forall x, not_descriptor dbname x -> contents w' !! x = contents w !! x)
  /\ forall level, is_level level -> level_files (vs_current_ vs') level ≡ₚ level_edit level (level_files (vs_current_ vs) level) edit.
Proof.
  intros Hs Hg. destruct (session_inv Hname dbname w vs D U Hs) as (n & es & Hi).
  destruct (LogAndApply_spec Hname dbname w vs D U n es edit Hi Hg) as (w' & vs' & n' & es' & v & E & (log & Evs) & Hi' & Hframe & Hfiles).
  exists w', vs'. split; [exact E|]. split; [by eapply s_log|]. split; [apply Hi'|]. split; [by rewrite Evs|]. split.
  { rewrite Evs. cbn. unfold complete_edit. by destruct (has_log_number_ edit), (has_prev_log_number_ _). }
  split.
  { rewrite Evs. cbn. unfold complete_edit. destruct (has_log_number_ edit); cbn; by destruct (has_prev_log_number_ edit). }
  split; [apply (h_sorted _ _ _ (i_history _ _ _ _ _ _ _ Hi'))|]. split; [exact Hframe|]. intros level Hl. rewrite <- Hfiles by done. by rewrite Evs.
Qed.

(** An edit that adds one file, or none. *)
Lemma edit_adds_one level l n sz s t : edit_adds l (AddFile new_VersionEdit level n sz s t)
  = if decide (level = l) then [added_file (mkFileMetaData 0 (Z.shiftl 1 30) n sz s t)] else [].
Proof. unfold edit_adds. cbn. rewrite app_nil_r. unfold adds. cbn [fst snd]. done. Qed.

Definition flush_edit (edit : VersionEdit) (log : Z) : VersionEdit := SetLogNumber (SetPrevLogNumber edit 0) log.

Lemma flush_edit_files level fs edit log : deleted_files_ edit = [] -> level_edit level fs (flush_edit edit log) = fs ++ edit_adds level edit.
Proof.
  intros E. unfold level_edit, edit_adds. cbn [flush_edit SetLogNumber SetPrevLogNumber deleted_files_ new_files_]. f_equal.
  change (deleted_files_ (flush_edit edit log)) with (deleted_files_ edit). rewrite E. rewrite filter_all; [done|]. intros f _. apply not_elem_of_nil.
Qed.

Lemma flush_edit_good U level n sz s t log : is_u64 log -> is_level level -> is_u64 n -> is_u64 sz -> is_slice s -> is_slice t -> internal_valid s ->
  (level, n) ∉ U -> good_edit U (flush_edit (AddFile new_VersionEdit level n sz s t) log).
Proof.
  intros. split.
  - apply SetLogNumber_typed; [|done]. apply SetPrevLogNumber_typed; [|done]. apply AddFile_typed; [apply new_typed|done..].
  - done.
  - by constructor; [|constructor].
  - by constructor; [|constructor].
  - apply NoDup_singleton.
Qed.

Lemma flush_edit_empty U log : is_u64 log -> good_edit U (flush_edit new_VersionEdit log).
Proof.
  intros. split.
  - apply SetLogNumber_typed; [|done]. apply SetPrevLogNumber_typed; [|done]. apply new_typed.
  - done.
  - constructor.
  - constructor.
  - constructor.
Qed.

(** ** The version with the new table *)

Lemma length_insert_level (C : Z -> list write) v v' k : version_wf C v -> length (files_ v') = Z.to_nat config.kNumLevels ->
  (forall l, Z.of_nat (length (level_files v l)) + 1 < 2^31) ->
  (forall l, 0 <= l < config.kNumLevels -> exists fs, level_files v' l ≡ₚ level_files v l ++ fs /\ (length fs <= 1)%nat) ->
  Z.of_nat (length (level_files v' k)) < 2^31.
Proof.
  intros Hwf Hlen Hb Hp. destruct (level_files_beyond v' k Hlen) as [->|(l & Hl & -> & _)]; [done|].
  destruct (Hp l Hl) as (fs & E & Hfs). rewrite E, length_app. specialize (Hb l). lia.
Qed.

Lemma flushed_version (C : Z -> list write) v v' n (data : bytes) es first last level :
  let f := added_file (mkFileMetaData 0 (Z.shiftl 1 30) n (Z.of_nat (length data)) (encode_key first.1) (encode_key last.1)) in
  version_wf C v -> StronglySorted (cmp_lt write_cmp) es -> Forall (fun e : write => valid_seq (sequence e.1)) es ->
  head es = Some first -> list.last es = Some last -> run_newer es (version_writes C v) -> (forall l g, g ∈ level_files v l -> number g < n) ->
  0 <= level <= 2 -> (0 < level -> forall l, 0 <= l <= level -> ~ Exists (overlaps (Some (user_key first.1)) (Some (user_key last.1))) (level_files v l)) ->
  (forall l, Z.of_nat (length (level_files v l)) + 1 < 2^31) -> version_sorted v' ->
  (forall l, is_level l -> level_files v' l ≡ₚ level_files v l ++ (if decide (level = l) then [f] else [])) ->
  version_wf (with_table C es n) v' /\ (forall e, e ∈ version_writes (with_table C es n) v' <-> e ∈ es \/ e ∈ version_writes C v)
  /\ f ∈ level_files v' level.
Proof.
  intros f Hwf Hs Hseq Hhd Hlast Hnewer Hnum Hlevel Hno Hb [Hlen Hsorted] Hfiles.
  assert (valid_seq (sequence first.1) /\ valid_seq (sequence last.1)) as [Hv1 Hv2].
  { rewrite Forall_forall in Hseq. split; apply Hseq, list_elem_of_In; [by apply head_Some_elem_of|by apply last_Some_elem_of]. }
  destruct (raw_encode first.1 Hv1) as [Uf _], (raw_encode last.1 Hv2) as [Ul _].
  assert (new_table C v level f es) as Hnt.
  { split.
    - split; cbn [number f added_file smallest largest]; unfold with_table; rewrite decide_True by done; [done|done|by exists first|by exists last].
    - done.
    - exact Hnum.
    - unfold start_user, limit_user. cbn [f added_file smallest largest]. by rewrite Uf, Ul. }
  assert (added v v' level f) as Had.
  { split.
    - done.
    - intros l Hl. rewrite Hfiles by done. destruct (decide (l = level)) as [E|E], (decide (level = l)) as [E'|E']; try done; by subst.
    - intros l Hl. apply Hsorted. unfold is_level. lia.
    - intros k. apply (length_insert_level C v); [done..|]. intros l Hl. eexists. split; [by apply Hfiles|]. by case_decide; cbn; lia. }
  assert (0 <= level < config.kNumLevels) as Hlv by (unfold config.kNumLevels; lia).
  split; [by apply (added_wf C v v' level f es)|]. split; [by apply (added_writes C v v' level f es)|].
  rewrite Hfiles by done. rewrite decide_True by done. set_solver.
Qed.

(** The edit of a flush, and what a version that it leads to has, with tables
    that hold [C']. *)
Record flushed (C C' : Z -> list write) (v : Version) (n : Z) (es : list write) (U : list (Z * Z)) (e : VersionEdit) (size : Z) : Prop := {
  fl_edit : good_edit U e;
  fl_tables : (forall k, k <> n -> C' k = C k) /\ (es <> [] -> C' n = es);
  fl_version v' : version_sorted v' -> (forall l, is_level l -> level_files v' l ≡ₚ level_edit l (level_files v l) e) ->
    version_wf C' v' /\ (forall x, x ∈ version_writes C' v' <-> x ∈ es \/ x ∈ version_writes C v)
    /\ (forall l g, g ∈ level_files v l -> g ∈ level_files v' l)
    /\ (es <> [] -> exists level f, f ∈ level_files v' level /\ number f = n /\ file_size f = size);
}.

Lemma kept_files (C : Z -> list write) v v' (fs : Z -> files) : version_wf C v ->
  (forall l, is_level l -> level_files v' l ≡ₚ level_files v l ++ fs l) -> forall l g, g ∈ level_files v l -> g ∈ level_files v' l.
Proof.
  intros Hwf Hp l g Hg. destruct (decide (is_level l)) as [Hl|Hl]; [rewrite Hp by done; set_solver|].
  destruct (level_files_beyond v l (vw_levels _ _ Hwf)) as [E|(k & Hk & E & Hsm)]; [rewrite E in Hg; by apply elem_of_nil in Hg|].
  destruct (decide (0 <= l)) as [Hpos|Hneg]; [destruct Hl; rewrite <- (Hsm Hpos); done|].
  assert (forall w : Version, level_files w l = level_files w 0) as E0 by (intros w; unfold level_files; f_equal; lia).
  rewrite E0 in *. rewrite Hp by done. set_solver.
Qed.

Lemma flushed_empty (C : Z -> list write) v n U log size : version_wf C v -> is_u64 log -> flushed C C v n [] U (flush_edit new_VersionEdit log) size.
Proof.
  intros Hwf Hlog. split; [by apply flush_edit_empty|done|]. intros v' [Hlen Hsorted] Hp.
  assert (forall l, is_level l -> level_files v' l ≡ₚ level_files v l ++ []) as Hp'.
  { intros l Hl. rewrite Hp by done. by rewrite flush_edit_files. }
  destruct (permuted_wf C v v' Hwf Hlen) as [Hwf' Hw].
  { intros l Hl. rewrite Hp' by done. by rewrite app_nil_r. }
  { intros l Hl. apply Hsorted. unfold is_level. lia. }
  split; [done|]. split; [intros x; rewrite Hw, elem_of_nil; naive_solver|]. split; [by apply (kept_files C v v' (fun _ => []))|done].
Qed.

Lemma flushed_table (C : Z -> list write) v n (data : bytes) es U log first last level : version_wf C v -> is_u64 log -> is_u64 n ->
  StronglySorted (cmp_lt write_cmp) es -> Forall (fun e : write => valid_seq (sequence e.1)) es -> Forall good_write es ->
  head es = Some first -> list.last es = Some last -> run_newer es (version_writes C v) -> (forall l g, g ∈ level_files v l -> number g < n) ->
  0 <= level <= 2 -> (0 < level -> forall l, 0 <= l <= level -> ~ Exists (overlaps (Some (user_key first.1)) (Some (user_key last.1))) (level_files v l)) ->
  (forall l, Z.of_nat (length (level_files v l)) + 1 < 2^31) -> Z.of_nat (length data) < 2^32 -> (level, n) ∉ U ->
  flushed C (with_table C es n) v n es U
    (flush_edit (AddFile new_VersionEdit level n (Z.of_nat (length data)) (encode_key first.1) (encode_key last.1)) log) (Z.of_nat (length data)).
Proof.
  intros Hwf Hlog Hn Hs Hseq Hg Hhd Hlast Hnewer Hnum Hlevel Hno Hroom Hdata HU.
  assert (first ∈ es /\ last ∈ es) as [Hin1 Hin2] by (split; [by apply head_Some_elem_of|by apply last_Some_elem_of]).
  assert (forall e, e ∈ es -> is_slice (encode_key e.1) /\ internal_valid (encode_key e.1)) as Hkeys.
  { intros e He%list_elem_of_In. rewrite Forall_forall in Hg, Hseq. destruct (Hg e He) as [[Hv Hl] _]. split.
    - unfold is_slice. rewrite length_encode_key. unfold InternalKeyEncodingLength. lia.
    - by destruct (raw_encode e.1 (Hseq e He)) as (_ & _ & ?). }
  split.
  - apply flush_edit_good; try done; try by apply Hkeys. all: unfold is_level, is_u64, config.kNumLevels; lia.
  - unfold with_table. split; [intros k Hk; by rewrite decide_False|]. intros _. by rewrite decide_True.
  - intros v' Hs' Hp.
    assert (forall l, is_level l -> level_files v' l ≡ₚ level_files v l ++ (if decide (level = l) then
      [added_file (mkFileMetaData 0 (Z.shiftl 1 30) n (Z.of_nat (length data)) (encode_key first.1) (encode_key last.1))] else [])) as Hp'.
    { intros l Hl. rewrite Hp by done. by rewrite flush_edit_files, edit_adds_one. }
    destruct (flushed_version C v v' n data es first last level) as (Hwf' & Hw & Hin); [done..|].
    split; [done|]. split; [done|]. split; [exact (kept_files C v v' (fun l => if decide (level = l) then [_] else []) Hwf Hp')|]. intros _. by eexists _, _.
Qed.

(** ** Properties *)

(** C13: a memtable that is flushed becomes a table, and the database holds what
    it held.  When the immutable memtable is compacted, its writes, sorted, are
    in a table file of the number that was next; the new version has that file,
    on a level where no file above or beside it shares its range; there is no
    immutable memtable any more, and the writes of the memtables and tables
    together are the same ones, in the same order of recency, so that gets at
    any snapshot are answered as before.  The new version is logged with the
    number of the current log, so that a recovery finds the same; and the
    tables that the version had before are not touched by the deletion of
    obsolete files. *)
Theorem memtable_flushed (C : Z -> list write) fuel w d m hm hi D U :
  imm_ d = Some m -> db_holds C d hm hi -> shutting_down_ d = false -> session dbname w (versions_ d) D U ->
  tables_good (table_cache_ d) -> is_u64 (logfile_number_ d) ->
  (forall l, Z.of_nat (length (level_files (current d) l)) + 1 < 2^31) ->
  let n := vs_next_file_number_ (versions_ d) in
  (forall l, (l, n) ∉ U) -> (forall l g, g ∈ level_files (current d) l -> 0 <= number g < n) ->
  small (map raw_write hi) -> (length hi < fuel)%nat ->
  (forall es r, es ≡ₚ hi -> build_table opt [] (map raw_write es) = Ret (r, Status.OK) -> Z.of_nat (length (file r)) < 2^32) ->
  exists w' d' es C' U', CompactMemTable Hsame user_policy dbname opt fuel w d = Ret (w', d')
  /\ imm_ d' = None /\ mem_ d' = mem_ d /\ bg_error_ d' = bg_error_ d
  /\ es ≡ₚ hi /\ (forall k, k <> n -> C' k = C k) /\ (hi <> [] -> C' n = es)
  /\ db_holds C' d' hm [] /\ (forall e, e ∈ db_writes C' d' hm [] <-> e ∈ db_writes C d hm hi)
  /\ (hi <> [] -> exists data level f, contents w' !! TableFileName dbname n = Some data /\ is_table data es
       /\ f ∈ level_files (current d') level /\ number f = n /\ file_size f = Z.of_nat (length data))
  /\ session dbname w' (versions_ d') (durable (versions_ d')) U' /\ vs_log_number_ (versions_ d') = logfile_number_ d
  /\ (forall l g, g ∈ level_files (current d) l -> g ∈ level_files (current d') l
       /\ contents w' !! TableFileName dbname (number g) = contents w !! TableFileName dbname (number g)
       /\ contents w' !! SSTTableFileName dbname (number g) = contents w !! SSTTableFileName dbname (number g)).
Proof.
  intros Him Hd Hdown Hses Ht Hlog Hroom n Hfresh Hnum Hsm Hfuel Hfit. pose proof Hd as [Hrm Hri Hwf Hnm Hni]. rewrite Him in Hri.
  destruct (session_inv Hname dbname w _ D U Hses) as (k & es0 & Hi). pose proof (i_ok _ _ _ _ _ _ _ Hi) as Hw.
  pose proof (u64_bounds n (i_next64 _ _ _ _ _ _ _ Hi)) as Hn.
  unfold CompactMemTable. rewrite Him. cbn [of_option mbind res_bind].
  destruct (WriteLevel0Table_spec fuel w d m hi (Some (current d)) new_VersionEdit Hw Ht Hri
    ltac:(intros ? [= <-]; exact (wf_ranged C _ Hwf)) Hsm Hfuel Hfit)
    as (es & w1 & t1 & edit' & Hp & Hs & Hseq & Hg & Hw1 & Ht1 & Hk1 & -> & Hcase). cbn [mbind res_bind].
  fold n in Hk1, Hcase.
  assert (exists C' data, flushed C C' (current d) n es U (flush_edit edit' (logfile_number_ d)) (Z.of_nat (length data))
    /\ (forall x, x <> TableFileName dbname n -> contents w1 !! x = contents w !! x)
    /\ (es <> [] -> contents w1 !! TableFileName dbname n = Some data /\ is_table data es)) as (C' & data & Hfl & Hframe & Hdata).
  { destruct es as [|first rest].
    - destruct Hcase as [-> Hc1]. exists C, []. split; [by apply flushed_empty|]. split; [|done]. intros x Hx. by rewrite Hc1, lookup_delete_ne.
    - destruct Hcase as (data & last & level & El & -> & Hc1 & Htab & Hlv & Hno0).
      assert (0 < level -> forall l, 0 <= l <= level -> ~ Exists (overlaps (Some (user_key first.1)) (Some (user_key last.1))) (level_files (current d) l)) as Hno
        by (intros Hpos; by destruct (Hno0 Hpos) as (v & [= <-] & Hno)).
      exists (with_table C (first :: rest) n), data. split.
      + apply flushed_table; try done; [apply Hi| |by intros l g Hlg; apply (Hnum l g)|apply Htab].
        intros a b Ha Hb. apply Hni; [by rewrite <- Hp|done].
      + split; [intros x Hx; by rewrite Hc1, lookup_insert_ne|]. intros _. by rewrite Hc1, lookup_insert_eq. }
  assert (session dbname w1 (versions_ (flush_state d t1)) D U) as Hses1.
  { apply (s_elsewhere dbname w); [apply (s_count dbname w (versions_ d)); [done|constructor]|]. destruct (table_not_descriptor dbname n Hn) as [[Hc1 Hd1] _]. split; [done|].
    split; [apply Hframe; by apply not_eq_sym|]. intros m' Hm' _. destruct (Hd1 m' Hm') as [Hne _]. split; [apply Hframe; by apply not_eq_sym|].
    intros x Hx. apply Hk1; [|done]. intros E%list_elem_of_singleton. by apply Hne. }
  change (shutting_down_ (flush_state d t1)) with (shutting_down_ d). rewrite Hdown. cbn [Status.ok Status.OK andb].
  change (logfile_number_ (flush_state d t1)) with (logfile_number_ d). fold (flush_edit edit' (logfile_number_ d)).
  destruct (LogAndApply_session w1 _ D U _ Hses1 (fl_edit _ _ _ _ _ _ _ _ Hfl)) as (w2 & vs2 & -> & Hses2 & Hw2 & Hopen2 & Hlog2 & _ & Hsort2 & Hframe2 & Hfiles2).
  cbn [mbind res_bind Status.ok Status.OK].
  destruct (fl_version _ _ _ _ _ _ _ _ Hfl (vs_current_ vs2) Hsort2 Hfiles2) as (Hwf2 & Hw2' & Hkept & Hnew).
  set (d2 := with_imm _ None).
  destruct (DeleteObsoleteFiles_spec dbname tables_good Hevict w2 d2 Hw2 Ht1) as (w3 & t3 & -> & Hw3 & Ht3 & Hneed & _).
  exists w3, (with_tables d2 t3), es, C'. eexists. split; [done|]. split; [done|]. split; [done|]. split; [done|]. split; [done|].
  destruct (fl_tables _ _ _ _ _ _ _ _ Hfl) as [HC HCn].
  assert (hi <> [] -> es <> []) as Hne by (intros Hh ->; by apply Permutation_nil_l in Hp).
  split; [done|]. split; [by intros Hh; apply HCn, Hne|].
  assert (forall a b, a ∈ hm -> b ∈ version_writes C' (vs_current_ vs2) -> ucmp (user_key a.1) (user_key b.1) = Eq -> sequence b.1 < sequence a.1) as Hnm'.
  { intros a b Ha [Hb|Hb]%Hw2' E; apply Hnm; try done; apply elem_of_app; [left; by rewrite <- Hp|by right]. }
  split; [split; [exact Hrm|done|exact Hwf2|exact Hnm'|intros a b Ha; by apply elem_of_nil in Ha]|]. split; [intros e; unfold db_writes; rewrite !elem_of_app, elem_of_nil, <- Hp; change (current (with_tables d2 t3)) with (vs_current_ vs2); rewrite Hw2'; naive_solver|].
  split; [|split; [apply (s_elsewhere dbname w2); [exact Hses2|]|split; [done|]]].
  - intros Hh. destruct (Hnew (Hne Hh)) as (level & f & Hf & <- & Ef). destruct (Hdata (Hne Hh)) as [Hd1 Htab]. exists data, level, f.
    split; [|done]. destruct (needed_live dbname d2 (number f)) as (Hnd & _); [apply (live_current d2 (current d2) level); [by left|done]|done|].
    rewrite (proj1 (Hneed _ Hnd)), Hframe2; [done|by apply table_not_descriptor].
  - split; [done|]. split; [apply Hneed, needed_current|]. intros m' Hm' Hman. apply Hneed, needed_descriptor; [done|].
    by apply Hman.
  - intros l g Hg'. destruct (Hnum l g Hg') as [Hg0 Hgn]. pose proof (Hkept l g Hg') as Hg2. split; [done|].
    destruct (needed_live dbname d2 (number g)) as (Hn1 & Hn2 & _); [apply (live_current d2 (current d2) l); [by left|done]|lia|].
    destruct (table_not_descriptor dbname (number g) ltac:(lia)) as [Hx1 Hx2]. destruct (table_names_differ dbname (number g) n) as [Hd1 Hd2]; [lia..|].
    rewrite (proj1 (Hneed _ Hn1)), (proj1 (Hneed _ Hn2)), !Hframe2, !Hframe by done. done.
Qed.
End flush_spec.

(** ** A memtable of a new database in memory *)

#[local] Existing Instances BytewiseComparator no_snappy no_snappy_law.
#[local] Instance flush_name : ComparatorName := lit "leveldb.BytewiseComparator".
#[local] Instance flush_address : Address := fun _ => 0.
#[local] Hint Extern 0 KeyOrder => exact (table_order bytewise_same) : typeclass_instances.
#[local] Hint Extern 0 FilterPolicy => exact (table_policy sample_policy) : typeclass_instances.

(** Tables that are opened for every check. *)
Definition flush_options : Options := mkOptions 0 20 2 kSnappyCompression (Some (lit "bloom")).
#[local] Instance opened_tables : Tables InMemoryEnv unit := {
  tables_status w t n size :=
    data ← of_option (contents w !! TableFileName (lit "db") n);
    '(s, _) ← Table.Open flush_options 0 data size; Ret (s, t);
  tables_Evict t _ := Ret t;
}.

Lemma opened_tables_check (w : InMemoryEnv) (t : unit) n data wr : contents w !! TableFileName (lit "db") n = Some data ->
  table_of bytewise_same sample_policy flush_options data wr ->
  exists t', tables_status w t n (Z.of_nat (length data)) = Ret (Status.OK, t') /\ True.
Proof.
  intros Hc (Hl & _ & _ & seps & ws & hm & hi & Htf). cbn [tables_status opened_tables]. rewrite Hc. cbn [of_option mbind res_bind].
  destruct (Table.Open_spec flush_options data Hl (map raw_write wr) seps ws hm hi Htf 0) as (tb & -> & _). by exists t.
Qed.

Definition flush_db (m : MemTable) : DBImpl nat unit :=
  mkDBImpl new_MemTable (Some m) 5 (recovered durable0) [] new_SnapshotList ∅ tt Status.OK false true None.

Lemma new_level l : level_files (Finalize new_Version) l = [].
Proof. by rewrite Finalize_level_files, level_files_new. Qed.

Lemma new_version_wf C : version_wf C (Finalize new_Version) /\ version_writes C (Finalize new_Version) = [].
Proof.
  assert (version_wf C (Finalize new_Version)) as Hwf.
  { split; [by rewrite Finalize_files|..]; intros; rewrite ?new_level in *; try done; try constructor; try (by match goal with H : _ ∈ [] |- _ => apply elem_of_nil in H end).
    intros a b Ha. by apply elem_of_nil in Ha. }
  split; [done|]. apply elem_of_nil_inv. intros e (l & _ & He)%elem_of_version_writes; [|apply Hwf]. rewrite new_level in He. by apply elem_of_nil in He.
Qed.

Lemma flush_db_current m : current (flush_db m) = Finalize new_Version.
Proof. unfold current, flush_db. cbn [versions_]. unfold recovered, durable0. cbn [vs_current_ d_current]. reflexivity. Qed.

Lemma flush_db_holds m : represents m sample -> db_holds (fun _ => []) (flush_db m) [] sample.
Proof.
  intros Hm. destruct (new_version_wf (fun _ => [])) as [Hwf Hw]. split; rewrite ?flush_db_current.
  - exact new_represents.
  - exact Hm.
  - exact Hwf.
  - intros a b Ha. by apply elem_of_nil in Ha.
  - intros a b _ Hb. rewrite Hw in Hb. by apply elem_of_nil in Hb.
Qed.

Lemma flush_small : forall es r, es ≡ₚ sample -> build_table flush_options [] (map raw_write es) = Ret (r, Status.OK) -> Z.of_nat (length (file r)) < 2^32.
Proof.
  intros es r Hp E.
  assert (forallb (fun es => match build_table flush_options [] (map raw_write es) with Ret (r, _) => Z.of_nat (length (file r)) <? 2^32 | _ => true end)
    (permutations sample) = true) as Hall by (vm_compute; reflexivity).
  rewrite forallb_forall in Hall. specialize (Hall es). rewrite E in Hall. apply Z.ltb_lt, Hall, list_elem_of_In. by apply permutations_Permutation.
Qed.

Lemma flush_filter : forall name, filter_policy flush_options = Some name -> Z.of_nat (length name) < 2^31.
Proof. intros name [= <-]. vm_compute. reflexivity. Qed.

Lemma flush_restart : 1 <= block_restart_interval flush_options.
Proof. discriminate. Qed.

Lemma flush_slice : is_slice comparator_name.
Proof. done. Qed.

Lemma flush_db_level m l : level_files (current (flush_db m)) l = [].
Proof. rewrite flush_db_current. apply new_level. Qed.

Definition any_table (_ : unit) : Prop := True.

Lemma flush_evict : forall (t : unit) n, any_table t -> 0 <= n < 2^64 -> exists t', tables_Evict t n = Ret t' /\ any_table t'.
Proof. intros t k _ _. by exists t. Qed.

Lemma flush_check : forall (w : InMemoryEnv) t n data wr, env_ok w -> any_table t -> contents w !! TableFileName (lit "db") n = Some data -> table_of bytewise_same sample_policy flush_options data wr ->
  exists t', tables_status w t n (Z.of_nat (length data)) = Ret (Status.OK, t') /\ any_table t'.
Proof. intros w t n data wr _ _. apply opened_tables_check. Qed.

Lemma memtable_flushed_witness : exists w m w' d' data,
  NewDB new_InMemoryEnv (lit "db") = Ret (Status.OK, w) /\ MemTable.add_all new_MemTable sample = Ret m
  /\ CompactMemTable bytewise_same sample_policy (lit "db") flush_options 10 w (flush_db m) = Ret (w', d')
  /\ imm_ d' = None /\ contents w' !! TableFileName (lit "db") 3 = Some data /\ vs_log_number_ (versions_ d') = 5.
Proof.
  pose proof (new_mem_ok : env_ok (EnvSpec := mem_env_spec) new_InMemoryEnv) as Hok.
  destruct (NewDB_spec flush_slice (lit "db") new_InMemoryEnv Hok) as (w & n & es & E & Hi).
  assert (session (lit "db") w (recovered durable0) durable0 []) as Hs
    by (apply (s_open _ new_InMemoryEnv); [exact Hok|exact E|by eapply recovers_recovered]).
  destruct (add_all_represents sample new_MemTable [] new_represents (proj1 sample_good) (proj2 sample_good)) as (m & Em & Hm).
  pose proof (flush_db_holds m Hm) as Hd.
  pose proof (memtable_flushed bytewise_same flush_slice sample_policy (lit "db") flush_options flush_restart flush_filter any_table flush_evict flush_check
    (fun _ => []) 10 w (flush_db m) m [] sample durable0 [] eq_refl Hd eq_refl Hs I) as Hall.
  cbv zeta in Hall.
  assert (is_u64 (logfile_number_ (flush_db m))) as H1 by (cbn [logfile_number_ flush_db]; unfold is_u64; lia).
  specialize (Hall H1).
  assert (forall l, Z.of_nat (length (level_files (current (flush_db m)) l)) + 1 < 2^31) as H2 by (intros l; by rewrite flush_db_level).
  specialize (Hall H2 (fun l => not_elem_of_nil _)).
  assert (vs_next_file_number_ (versions_ (flush_db m)) = 3) as Hn by reflexivity. rewrite Hn in Hall.
  assert (forall l g, g ∈ level_files (current (flush_db m)) l -> 0 <= number g < 3) as H3
    by (intros l g Hg; rewrite flush_db_level in Hg; by destruct (not_elem_of_nil g)).
  specialize (Hall H3).
  assert (small (map raw_write sample)) as H4 by (vm_compute; reflexivity).
  assert (length sample < 10)%nat as H5 by (vm_compute; lia).
  specialize (Hall H4 H5 flush_small).
  destruct Hall as (w' & d' & es' & C' & U' & Er & Hnone & _ & _ & _ & _ & _ & _ & _ & Hdata & _ & Hlog & _).
  destruct Hdata as (data & level & f & Hdata & _); [discriminate|].
  exists w, m, w', d', data. split; [exact E|]. split; [exact Em|]. split; [exact Er|]. split; [exact Hnone|]. split; [exact Hdata|exact Hlog].
Defined.
