(* ===== verification/DbRecover.v ===== *)
(** * DbRecover: the opening of a database (db/db_impl.cc)

    [DBImpl::RecoverLogFile], [DBImpl::Recover] and [DB::Open]: the version set
    is recovered from the descriptor, and the logs that the descriptor does not
    cover are replayed into memtables, which become tables of level 0; a new
    log is begun and the version with the tables is logged.
    [database_recovered] shows that what the tables and logs on disk hold is
    what the opened database holds. *)

From S2P Require Import Prelude CLib Double Coding Crc32c Status DbFormat SkipList MemTable WriteBatch KeyOrder Iterator MemIterator Filename MemEnv Log Bloom FilterBlock.
From S2P Require Import BlockBuilder Block TableFormat TableBuilder Table TableLookup Env VersionEdit Version TableCache BuildTable VersionBuilder VersionSet Descriptor.
From S2P Require Import Compaction CompactionView DbImpl DbFlush.

(** What opening a database looks at in [Options]. *)
Record OpenOptions := mkOpenOptions {
  create_if_missing : bool;
  error_if_exists : bool;
  paranoid_checks : bool;
  write_buffer_size : Z;
}.

(** ** The operations *)

Section recover.
Context `{!Comparator} (Hsame : forall u v, Compare u v = 0 -> ~ Compare u (FindShortestSeparator u v) < 0).
Context `{!ComparatorName} `{!Snappy} `{!Address} (user_policy : FilterPolicy).
Context {W Wf Sf T : Type} `{!Env W Wf Sf} `{!Tables W T} (dbname_ : bytes) (options_ : Options) (opts : OpenOptions).
(** [MemTable::ApproximateMemoryUsage], which counts the blocks of the arena. *)
Context (ApproximateMemoryUsage : MemTable -> Z).
Implicit Type d : DBImpl Wf T.

Definition MaybeIgnoreError (s : Status.t) : Status.t :=
  if Status.ok s || paranoid_checks opts then s else Status.OK.

(** [LogReporter], which has the status only when checks are paranoid: what the
    reports of a read make of it, and one report. *)
Definition log_reported (s : Status.t) (before : nat) (reports : list (Z * Status.t)) : Status.t :=
  if paranoid_checks opts then reported s before reports else s.
Definition log_corruption (s reason : Status.t) : Status.t :=
  if paranoid_checks opts && Status.ok s then reason else s.

(** The reader, in a world where other files have been written. *)
Definition in_world (w : W) (r : Reader (W * Sf)) : Reader (W * Sf) :=
  Log.mkReader (w, (Log.file_ r).2) (Log.checksum_ r) (Log.buffer_ r) (Log.eof_ r) (Log.last_record_offset_ r) (Log.end_of_buffer_offset_ r)
    (Log.initial_offset_ r) (Log.reports_ r).

(** The loop of [RecoverLogFile]; a memtable is written with [flush_fuel]. *)
Fixpoint recover_records (fuel flush_fuel : nat) (reader : Reader (W * Sf)) (s : Status.t) (mem : option MemTable) (w : W) d (edit : VersionEdit)
    (max_sequence : Z) : res (Status.t * option MemTable * W * DBImpl Wf T * VersionEdit * Z) :=
  match fuel with
  | O => NoFuel
  | S n =>
      let before := length (reports_ reader) in
      '(record, reader) ← ReadRecord fuel reader;
      let s := log_reported s before (reports_ reader) in
      match record with
      | None => Ret (s, mem, w, d, edit, max_sequence)
      | Some record =>
          if negb (Status.ok s) then Ret (s, mem, w, d, edit, max_sequence)
          else if decide (length record < 12)%nat then
            let s := log_corruption s (Status.Corruption (lit "log record too small") []) in
            recover_records n flush_fuel reader s mem w d edit max_sequence
          else
            let batch := SetContents WriteBatch.Clear record in
            '(s, inserter) ← InsertInto batch (default new_MemTable mem);
            let m := WriteBatch.mem_ inserter in
            let s := MaybeIgnoreError s in
            if negb (Status.ok s) then Ret (s, Some m, w, d, edit, max_sequence)
            else
              seq ← WriteBatch.Sequence batch;
              count ← WriteBatch.Count batch;
              let last_seq := u64 (seq + count - 1) in
              let max_sequence := if last_seq >? max_sequence then last_seq else max_sequence in
              if ApproximateMemoryUsage m >? write_buffer_size opts then
                '(s, w, d, edit) ← WriteLevel0Table Hsame user_policy dbname_ options_ flush_fuel w d m edit None;
                if negb (Status.ok s) then Ret (s, Some m, w, d, edit, max_sequence)
                else recover_records n flush_fuel (in_world w reader) s None w d edit max_sequence
              else recover_records n flush_fuel reader s (Some m) w d edit max_sequence
      end
  end.

Definition RecoverLogFile (fuel : nat) (w : W) d (log_number : Z) (edit : VersionEdit) (max_sequence : Z)
    : res (Status.t * W * DBImpl Wf T * VersionEdit * Z) :=
  '(s, file) ← env_NewSequentialFile w (LogFileName dbname_ log_number);
  if negb (Status.ok s) then Ret (MaybeIgnoreError s, w, d, edit, max_sequence)
  else
    file ← of_option file;
    '(s, mem, w, d, edit, max_sequence) ← recover_records fuel fuel (new_Reader (w, file) true 0) s None w d edit max_sequence;
    match mem with
    | Some m =>
        if Status.ok s then
          '(s, w, d, edit) ← WriteLevel0Table Hsame user_policy dbname_ options_ fuel w d m edit None;
          Ret (s, w, d, edit, max_sequence)
        else Ret (s, w, d, edit, max_sequence)
    | None => Ret (s, w, d, edit, max_sequence)
    end.

(** The files of the directory: the numbers not found of those expected, and
    the logs to replay. *)
Fixpoint scan_files (filenames : list bytes) (min_log prev_log : Z) (expected : gset Z) (logs : list Z) : gset Z * list Z :=
  match filenames with
  | [] => (expected, logs)
  | f :: filenames =>
      match ParseFileName f with
      | Some (number, type) =>
          let logs := if bool_decide (type = kLogFile) && ((min_log <=? number) || (number =? prev_log)) then logs ++ [number] else logs in
          scan_files filenames min_log prev_log (expected ∖ {[number]}) logs
      | None => scan_files filenames min_log prev_log expected logs
      end
  end.

(** The status of a log is overwritten with that of the next. *)
Fixpoint recover_logs (fuel : nat) (logs : list Z) (s : Status.t) (w : W) d (edit : VersionEdit) (max_sequence : Z)
    : res (Status.t * W * DBImpl Wf T * VersionEdit * Z) :=
  match logs with
  | [] => Ret (s, w, d, edit, max_sequence)
  | n :: logs =>
      '(s, w, d, edit, max_sequence) ← RecoverLogFile fuel w d n edit max_sequence;
      recover_logs fuel logs s w (with_versions d (MarkFileNumberUsed (versions_ d) n)) edit max_sequence
  end.

Definition set_order (l : list Z) : list Z := merge_sort Z.le l.
Definition missing_files (expected : gset Z) : Status.t :=
  Status.Corruption (take 49 (decimal (i32 (Z.of_nat (size expected))) ++ lit " missing files; e.g."))
    (TableFileName dbname_ (default 0 (head (set_order (elements expected))))).

(** A database that is not there is made, when that is asked for. *)
Definition create_or_check (w : W) : res (Status.t * W) :=
  if negb (env_FileExists w (CurrentFileName dbname_)) then
    if create_if_missing opts then NewDB w dbname_
    else Ret (Status.InvalidArgument dbname_ (lit "does not exist (create_if_missing is false)"), w)
  else if error_if_exists opts then Ret (Status.InvalidArgument dbname_ (lit "exists (error_if_exists is true)"), w)
  else Ret (Status.OK, w).

Definition DBImpl_Recover (fuel : nat) (w : W) d (edit : VersionEdit) : res (Status.t * W * DBImpl Wf T * VersionEdit) :=
  let '(_, w) := env_CreateDir w dbname_ in
  let '(s, w) := env_LockFile w (LockFileName dbname_) in
  if negb (Status.ok s) then Ret (s, w, d, edit)
  else
    '(s, w) ← create_or_check w;
    if negb (Status.ok s) then Ret (s, w, d, edit)
    else
      '(s, vs) ← Recover fuel w (versions_ d) dbname_;
      let d := with_versions d vs in
      if negb (Status.ok s) then Ret (s, w, d, edit)
      else
        let '(s, filenames) := env_GetChildren w dbname_ in
        if negb (Status.ok s) then Ret (s, w, d, edit)
        else
          let live := AddLiveFiles (current d :: referenced_ d) ∅ in
          let '(expected, logs) := scan_files filenames (vs_log_number_ vs) (vs_prev_log_number_ vs) live [] in
          if decide (expected <> ∅) then Ret (missing_files expected, w, d, edit)
          else
            '(s, w, d, edit, max_sequence) ← recover_logs fuel (set_order logs) s w d edit 0;
            let d := if Status.ok s && (vs_last_sequence_ (versions_ d) <? max_sequence)
                     then with_versions d (SetLastSequence (versions_ d) max_sequence) else d in
            Ret (s, w, d, edit).

(** The constructor, with the table cache that it makes. *)
Definition DBImpl_new (tables : T) : DBImpl Wf T :=
  mkDBImpl new_MemTable None 0 new_VersionSet [] new_SnapshotList ∅ tables Status.OK false false None.
Definition with_logfile_number d (n : Z) : DBImpl Wf T :=
  mkDBImpl (mem_ d) (imm_ d) n (versions_ d) (referenced_ d) (snapshots_ d) (pending_outputs_ d) (table_cache_ d)
    (bg_error_ d) (shutting_down_ d) (bg_compaction_scheduled_ d) (manual_compaction_ d).

(** The new log and the edit that says that the older ones are not needed. *)
Definition begin_log (w : W) d (edit : VersionEdit) : res (Status.t * W * DBImpl Wf T * option (Writer Wf)) :=
  let '(new_log_number, vs) := NewFileNumber (versions_ d) in
  let d := with_versions d vs in
  '(s, lfile, w) ← env_NewWritableFile w (LogFileName dbname_ new_log_number);
  if Status.ok s then
    let edit := SetLogNumber edit new_log_number in
    lfile ← of_option lfile;
    let d := with_logfile_number d new_log_number in
    log ← open_log w lfile;
    '(s, w, vs) ← LogAndApply w (versions_ d) dbname_ edit;
    Ret (s, w, with_versions d vs, Some log)
  else Ret (s, w, d, None).

(** [DB::Open]: the status and, when it is OK, the database and its log. *)
Definition Open (fuel : nat) (w : W) (tables : T) : res (Status.t * W * option (DBImpl Wf T * option (Writer Wf))) :=
  '(s, w, d, edit) ← DBImpl_Recover fuel w (DBImpl_new tables) new_VersionEdit;
  if negb (Status.ok s) then Ret (s, w, None)
  else
    '(s, w, d, log) ← begin_log w d edit;
    if negb (Status.ok s) then Ret (s, w, None)
    else
      '(w, d) ← DeleteObsoleteFiles dbname_ w d;
      Ret (s, w, Some (MaybeScheduleCompaction d, log)).
End recover.

(** ** What logs hold *)

(** The batches of a log: the number of the first operation, and the operations. *)
Abbreviation group := (Z * list op)%type.
Definition group_record (g : group) : bytes := batch g.1 g.2.
Definition groups_writes (gs : list group) : list write := concat (map (fun g => writes_of g.1 g.2) gs).

(** Numbered from [s] on, upwards. *)
Fixpoint numbered (s : Z) (gs : list group) : Prop :=
  match gs with
  | [] => True
  | g :: gs => s <= g.1 /\ g.1 + Z.of_nat (length g.2) <= kMaxSequenceNumber /\ Z.of_nat (length g.2) < 2^31 /\ Forall small_op g.2
      /\ numbered (g.1 + Z.of_nat (length g.2)) gs
  end.

Fixpoint last_of (m : Z) (gs : list group) : Z :=
  match gs with [] => m | g :: gs => last_of (Z.max m (g.1 + Z.of_nat (length g.2) - 1)) gs end.

Lemma numbered_app s gs gs' : numbered s (gs ++ gs') -> numbered s gs /\ exists s', s <= s' /\ numbered s' gs'
  /\ Forall (fun e : write => sequence e.1 < s') (groups_writes gs).
Proof.
  revert s. induction gs as [|g gs IH]; intros s; cbn [app numbered]; [intros Hn; split; [done|]; exists s; repeat split; [lia|done|constructor]|].
  intros (Hs & Hm & Hl & Ho & (Hn & s' & Hs' & Hn' & HF)%IH). split; [done|]. exists s'. split; [lia|]. split; [done|].
  unfold groups_writes. cbn [map concat]. apply Forall_app. split; [|done].
  eapply list.Forall_impl; [apply writes_of_sequence|]. cbn. intros e. lia.
Qed.

Lemma last_of_ge m gs : m <= last_of m gs.
Proof. revert m. induction gs as [|g gs IH]; intros m; cbn [last_of]; [lia|]. specialize (IH (Z.max m (g.1 + Z.of_nat (length g.2) - 1))). lia. Qed.

Lemma last_of_writes m gs e : e ∈ groups_writes gs -> sequence e.1 <= last_of m gs.
Proof.
  revert m. induction gs as [|g gs IH]; intros m; cbn [last_of]; [by intros ?%elem_of_nil|].
  unfold groups_writes. cbn [map concat]. intros [He|He]%elem_of_app; [|by apply IH].
  pose proof (writes_of_sequence g.1 g.2) as Hs. rewrite list.Forall_forall in Hs. specialize (Hs e He). cbn in Hs.
  pose proof (last_of_ge (Z.max m (g.1 + Z.of_nat (length g.2) - 1)) gs). lia.
Qed.

Lemma last_of_app m gs gs' : last_of m (gs ++ gs') = last_of (last_of m gs) gs'.
Proof. revert m. induction gs as [|g gs IH]; intros m; [done|]. cbn [app last_of]. apply IH. Qed.

Lemma last_of_u64 m s gs : numbered s gs -> 0 <= m < 2^64 -> 0 <= last_of m gs < 2^64.
Proof.
  revert m s. induction gs as [|g gs IH]; intros m s; cbn [numbered last_of]; [done|]. intros (Hs & Hm & _ & _ & Hn) Hr.
  eapply IH; [exact Hn|]. unfold kMaxSequenceNumber in Hm. change (Z.shiftl 1 56) with (2^56) in Hm. lia.
Qed.

Lemma groups_writes_app gs gs' : groups_writes (gs ++ gs') = groups_writes gs ++ groups_writes gs'.
Proof. unfold groups_writes. by rewrite map_app, concat_app. Qed.

(** Writes in the order of their numbers. *)
Definition below (g h : list write) : Prop := forall a b, a ∈ g -> b ∈ h -> sequence a.1 < sequence b.1.

Lemma below_newer g h : below g h -> run_newer h g.
Proof. intros Hb a b Ha Hb' _. by apply Hb. Qed.

Lemma writes_in_order_app g h : MemTable.in_order (g ++ h) <-> MemTable.in_order g /\ MemTable.in_order h /\ below g h.
Proof.
  unfold MemTable.in_order, below. induction g as [|e g IH]; cbn [app].
  - split; [intros Hh; repeat split; [constructor|done|by intros a b ?%elem_of_nil]|by intros (_ & ? & _)].
  - split.
    + intros [Ho Hf]%StronglySorted_inv. apply IH in Ho as (Hg & Hh & Hb). apply Forall_app in Hf as [Hf1 Hf2]. split; [by constructor|]. split; [done|].
      intros a b [->|Ha]%elem_of_cons Hb'; [|by apply Hb]. rewrite list.Forall_forall in Hf2. by apply Hf2.
    + intros ([Hg Hf]%StronglySorted_inv & Hh & Hb). constructor.
      * apply IH. repeat split; [done|done|]. intros a b Ha. apply Hb. by right.
      * apply Forall_app. split; [done|]. apply list.Forall_forall. intros b Hb'. apply Hb; [left|done].
Qed.

Lemma writes_of_in_order s os : MemTable.in_order (writes_of s os).
Proof.
  revert s. induction os as [|o os IH]; intros s; [constructor|]. cbn [writes_of]. constructor; [apply IH|].
  eapply list.Forall_impl; [apply writes_of_sequence|]. cbn. intros e. destruct o; cbn; lia.
Qed.

(** ** Logs that become tables *)

Section recover_spec.
Context `{!Comparator} (Hsame : forall u v, Compare u v = 0 -> ~ Compare u (FindShortestSeparator u v) < 0).
Context `{!ComparatorName} (Hname : is_slice comparator_name) `{!Snappy} `{!SnappyLaw} `{!Address} (user_policy : FilterPolicy).
Context {W Wf Sf T : Type} `{!Env W Wf Sf} `{!EnvSpec W Wf Sf} `{!Tables W T} (dbname : bytes) (opt : Options) (opts : OpenOptions).
Context (ApproximateMemoryUsage : MemTable -> Z).
Context (HR : 1 <= block_restart_interval opt).
Context (Hfilter : forall name, filter_policy opt = Some name -> Z.of_nat (length name) < 2^31).
#[local] Hint Extern 0 KeyOrder => exact (table_order Hsame) : typeclass_instances.
#[local] Hint Extern 0 FilterPolicy => exact (table_policy user_policy) : typeclass_instances.
Abbreviation is_table := (table_of Hsame user_policy opt).

(** What is asked of the table cache, as in DbFlush.v. *)
Context (tables_good : T -> Prop).
Context (Hevict : forall t n, tables_good t -> 0 <= n < 2^64 -> exists t', tables_Evict t n = Ret t' /\ tables_good t').
Context (Hcheck : forall w t n data wr, env_ok w -> tables_good t -> contents w !! TableFileName dbname n = Some data -> is_table data wr ->
  exists t', tables_status w t n (Z.of_nat (length data)) = Ret (Status.OK, t') /\ tables_good t').
Implicit Type d : DBImpl Wf T.

(** All writes of the logs, in order; no table of some of them is too large. *)
Context (total : list write).
Context (Hsmall : small (map raw_write total)).
Context (Hfit : forall es r, es ⊆+ total -> build_table opt [] (map raw_write es) = Ret (r, Status.OK) -> Z.of_nat (length (file r)) < 2^32).

Lemma small_submseteq es : es ⊆+ total -> small (map raw_write es).
Proof.
  intros [k E]%submseteq_Permutation. pose proof Hsmall as Hs.
  assert (map raw_write total ≡ₚ map raw_write es ++ map raw_write k) as Ep by (by rewrite E, map_app).
  unfold small in Hs. rewrite (weight_perm _ _ Ep), (Permutation_length Ep) in Hs. by apply (small_app _ (map raw_write k)).
Qed.

(** The database while its logs are replayed: the next file number is [k]. *)
Definition opening (vs : VersionSet Wf) (k : Z) (t : T) : DBImpl Wf T :=
  mkDBImpl new_MemTable None 0 (with_next vs k) [] new_SnapshotList ∅ t Status.OK false false None.

Lemma flush_opening vs k t t' : flush_state (opening vs k t) t' = opening vs (u64 (k + 1)) t'.
Proof. unfold flush_state, opening. cbn. unfold with_pending, with_tables, with_versions. cbn. f_equal. set_solver. Qed.

(** A table that was written: its file as the edit has it, and its writes. *)
Abbreviation table := (FileMetaData * list write)%type.
Record table_written (w : W) (t : table) : Prop := {
  tw_data : exists data first last, contents w !! TableFileName dbname (number t.1) = Some data /\ is_table data t.2
    /\ head t.2 = Some first /\ list.last t.2 = Some last
    /\ t.1 = mkFileMetaData 0 (Z.shiftl 1 30) (number t.1) (Z.of_nat (length data)) (encode_key first.1) (encode_key last.1);
  tw_sorted : StronglySorted (cmp_lt write_cmp) t.2;
  tw_seq : Forall (fun e : write => valid_seq (sequence e.1)) t.2;
  tw_good : Forall good_write t.2;
}.
Definition recovery_edit (ts : list table) : VersionEdit :=
  fold_left (fun e (t : table) => AddFile e 0 (number t.1) (file_size t.1) (smallest t.1) (largest t.1)) ts new_VersionEdit.

(** From the world [w0] and the number [k0], the tables [ts] have been written,
    which hold the writes [done]; no file of another name has changed. *)
Definition other_name (k0 : Z) (x : bytes) : Prop := forall n, k0 <= n <= kMaxUint64 -> x <> TableFileName dbname n.
Record progress (w0 : W) (k0 : Z) (w : W) (k : Z) (ts : list table) (done : list write) : Prop := {
  pg_ok : env_ok w;
  pg_frame x : other_name k0 x -> contents w !! x = contents w0 !! x /\ forall u, uses w0 u x -> uses w u x;
  pg_written : Forall (table_written w) ts;
  pg_numbers : StronglySorted (fun t t' : table => number t.1 < number t'.1) ts;
  pg_range : Forall (fun t : table => k0 <= number t.1 < k) ts;
  pg_next : 0 <= k0 <= k;
  pg_writes : concat (map snd ts) ≡ₚ done;
  pg_below : StronglySorted (fun t t' : table => below t.2 t'.2) ts;
}.

Lemma progress_start w k : env_ok w -> 0 <= k -> progress w k w k [] [].
Proof. intros Hw Hk. split; try done; constructor. Qed.

Lemma table_name_inj n m : 0 <= n <= kMaxUint64 -> 0 <= m <= kMaxUint64 -> TableFileName dbname n = TableFileName dbname m -> n = m.
Proof.
  intros Hn Hm E. destruct (ParseFileName_made dbname n Hn) as (_ & P & _). destruct (ParseFileName_made dbname m Hm) as (_ & P' & _).
  rewrite E, P' in P. by injection P.
Qed.

Lemma table_written_kept w w' t : contents w' !! TableFileName dbname (number t.1) = contents w !! TableFileName dbname (number t.1) ->
  table_written w t -> table_written w' t.
Proof. intros E [Hd Hs Hq Hg]. split; [by rewrite E|done..]. Qed.

(** A memtable that is written to the table of the next number. *)
Lemma progress_flush w0 k0 w k ts done w' : progress w0 k0 w k ts done -> k < kMaxUint64 -> env_ok w' ->
  (forall x, x <> TableFileName dbname k -> contents w' !! x = contents w !! x) -> kept_uses w w' [TableFileName dbname k] ->
  progress w0 k0 w' (k + 1) ts done
  /\ forall t h, number t.1 = k -> table_written w' t -> t.2 ≡ₚ h -> below done h -> progress w0 k0 w' (k + 1) (ts ++ [t]) (done ++ h).
Proof.
  intros [Hok Hfr Hwr Hnum Hrg Hnx Hws Hb] Hk Hw' Hc Hu.
  assert (forall x, other_name k0 x -> contents w' !! x = contents w0 !! x /\ forall u, uses w0 u x -> uses w' u x) as Hfr'.
  { intros x Hx. destruct (Hfr x Hx) as [E Hux]. assert (x <> TableFileName dbname k) as Hne by (apply Hx; lia). split; [by rewrite Hc|].
    intros u Hxu. apply Hu; [by rewrite list_elem_of_singleton|by apply Hux]. }
  assert (Forall (table_written w') ts) as Hwr'.
  { apply list.Forall_forall. intros t Ht. rewrite list.Forall_forall in Hwr, Hrg. specialize (Hwr t Ht). specialize (Hrg t Ht). cbn in Hrg.
    apply (table_written_kept w); [|done]. apply Hc. intros E. apply table_name_inj in E; lia. }
  assert (Forall (fun t : table => k0 <= number t.1 < k + 1) ts) as Hrg' by (eapply list.Forall_impl; [exact Hrg|]; cbn; intros; lia).
  split; [by split; try done; lia|]. intros t h Hn Ht Hp Hbl. split; try done; [| | |lia| |].
  - apply Forall_app. split; [done|]. by constructor.
  - apply StronglySorted_app. split; [|split; [done|repeat constructor]]. intros x y Hx ->%list_elem_of_singleton.
    rewrite list.Forall_forall in Hrg. specialize (Hrg x Hx). cbn in Hrg. lia.
  - apply Forall_app. split; [done|]. constructor; [lia|constructor].
  - rewrite map_app, concat_app, Hws. cbn [map concat]. by rewrite app_nil_r, Hp.
  - apply StronglySorted_app. split; [|split; [done|repeat constructor]]. intros x y Hx ->%list_elem_of_singleton.
    intros a b Ha Hb'. apply Hbl; [|by rewrite <- Hp]. rewrite <- Hws. apply list_elem_of_In, in_concat. exists x.2.
    split; apply list_elem_of_In; [by apply list_elem_of_fmap_2|done].
Qed.

Lemma recovery_edit_snoc ts t : recovery_edit (ts ++ [t]) = AddFile (recovery_edit ts) 0 (number t.1) (file_size t.1) (smallest t.1) (largest t.1).
Proof. unfold recovery_edit. by rewrite fold_left_app. Qed.

Lemma flush_one fuel vs w0 k0 w k t m ts done h : progress w0 k0 w k ts done -> tables_good t -> represents m h -> below done h -> h ⊆+ total ->
  (length h < fuel)%nat -> k < kMaxUint64 ->
  exists w' t' ts', WriteLevel0Table Hsame user_policy dbname opt fuel w (opening vs k t) m (recovery_edit ts) None
    = Ret (Status.OK, w', opening vs (k + 1) t', recovery_edit ts')
  /\ tables_good t' /\ progress w0 k0 w' (k + 1) ts' (done ++ h) /\ kept_uses w w' [TableFileName dbname k].
Proof.
  intros Hpg Ht Hm Hb Htot Hf Hk. pose proof (pg_next _ _ _ _ _ _ Hpg) as Hnx.
  destruct (WriteLevel0Table_spec Hsame user_policy dbname opt HR Hfilter tables_good Hcheck fuel w (opening vs k t) m h None (recovery_edit ts))
    as (es & w' & t' & edit' & Hp & Hs & Hseq & Hg & Hw' & Ht' & Hu & E & Hcase); [apply Hpg|done|done|done|by apply small_submseteq|done| |].
  { intros es r Hp. apply Hfit. by rewrite Hp. }
  change (vs_next_file_number_ (versions_ (opening vs k t))) with k in *. rewrite flush_opening, u64_small in E by (unfold kMaxUint64 in *; lia).
  exists w', t'. assert (forall x, x <> TableFileName dbname k -> contents w' !! x = contents w !! x) as Hc.
  { intros x Hx. destruct es as [|first rest].
    - destruct Hcase as [_ ->]. by rewrite lookup_delete_ne.
    - destruct Hcase as (data & last & level & _ & _ & -> & _). by rewrite lookup_insert_ne. }
  destruct (progress_flush w0 k0 w k ts done w' Hpg Hk Hw' Hc Hu) as [Hsame' Hmore].
  destruct es as [|first rest].
  - apply Permutation_nil_l in Hp. subst h. destruct Hcase as [-> _]. exists ts. rewrite app_nil_r. split; [exact E|]. split; [done|]. split; [exact Hsame'|done].
  - destruct Hcase as (data & last & level & El & Ed & Hcd & Htab & Hl & Hup). assert (level = 0) as ->.
    { destruct (decide (level = 0)) as [|Hne]; [done|]. destruct Hup as (v & [=] & _). lia. }
    exists (ts ++ [(mkFileMetaData 0 (Z.shiftl 1 30) k (Z.of_nat (length data)) (encode_key first.1) (encode_key last.1), first :: rest)]).
    rewrite recovery_edit_snoc. cbn [fst number file_size smallest largest]. rewrite Ed in E. split; [exact E|]. split; [done|]. split; [|done].
    apply Hmore; [done| |done|done]. split; [|done..]. exists data, first, last. cbn [fst snd number]. split; [by rewrite Hcd, lookup_insert_eq|done].
Qed.

(** The memtable that is being filled, if there is one. *)
Definition mem_holds (mem : option MemTable) (h : list write) : Prop :=
  match mem with Some m => represents m h | None => h = [] end.

Lemma mem_holds_default mem h : mem_holds mem h -> represents (default new_MemTable mem) h.
Proof. destruct mem; [done|]. intros ->. apply new_represents. Qed.

Lemma extend_order l s (g : group) : MemTable.in_order l -> Forall (fun e : write => sequence e.1 < s) l -> s <= g.1 ->
  MemTable.in_order (l ++ writes_of g.1 g.2) /\ Forall (fun e : write => sequence e.1 < g.1 + Z.of_nat (length g.2)) (l ++ writes_of g.1 g.2).
Proof.
  intros Ho Hl Hs. pose proof (writes_of_sequence g.1 g.2) as Hw. split.
  - apply writes_in_order_app. split; [done|]. split; [apply writes_of_in_order|]. intros a b Ha Hb.
    rewrite list.Forall_forall in Hl, Hw. specialize (Hl a Ha). specialize (Hw b Hb). cbn in *. lia.
  - apply Forall_app. split; (eapply list.Forall_impl; [eassumption|]); cbn; lia.
Qed.

Lemma in_world_reader w w' name (v : Reader (W * Sf)) r : same_reader (open_reader w name) v r -> (forall u, uses w u name -> uses w' u name) ->
  same_reader (open_reader w' name) (in_world w' v) r.
Proof. intros ([E Hr] & Hrest) Hu. split; [|done]. split; [done|]. cbn. by apply Hu. Qed.

Lemma last_sequence_of s (g : group) : 0 < s -> s <= g.1 -> g.1 + Z.of_nat (length g.2) <= kMaxSequenceNumber ->
  u64 (g.1 + Z.of_nat (length g.2) - 1) = g.1 + Z.of_nat (length g.2) - 1.
Proof. intros. apply u64_small. unfold kMaxSequenceNumber in *. change (Z.shiftl 1 56) with (2^56) in *. lia. Qed.

Lemma nothing_logged reports : log_reported opts Status.OK (length reports) reports = Status.OK.
Proof. unfold log_reported. destruct (paranoid_checks opts); [apply nothing_reported|done]. Qed.

Lemma submseteq_middle {A} (a b c : list A) : b ⊆+ a ++ b ++ c.
Proof. apply submseteq_inserts_l, submseteq_inserts_r, reflexivity. Qed.

Lemma recover_records_spec ff vs w0 k0 name : other_name k0 name -> (length total < ff)%nat ->
  forall gs fuel w k t mem ts done h s mx prss v r bo raw bo' rest,
  progress w0 k0 w k ts done -> tables_good t -> mem_holds mem h ->
  MemTable.in_order (done ++ h) -> Forall (fun e : write => sequence e.1 < s) (done ++ h) -> 0 < s -> numbered s gs ->
  total = (done ++ h) ++ groups_writes gs ++ rest -> k + Z.of_nat (length gs) < kMaxUint64 ->
  Forall2 fragments (map group_record gs) prss -> stream bo (concat prss) raw bo' -> reader_at r bo raw ->
  same_reader (open_reader w name) v r -> (length (concat prss) + 1 < fuel)%nat -> 0 <= last_record_offset_ r ->
  exists mem' w' k' t' ts' done' h',
    recover_records Hsame user_policy dbname opt opts ApproximateMemoryUsage fuel ff v Status.OK mem w (opening vs k t) (recovery_edit ts) mx
    = Ret (Status.OK, mem', w', opening vs k' t', recovery_edit ts', last_of mx gs)
  /\ tables_good t' /\ progress w0 k0 w' k' ts' done' /\ mem_holds mem' h' /\ done' ++ h' = (done ++ h) ++ groups_writes gs
  /\ MemTable.in_order (done' ++ h') /\ k <= k' <= k + Z.of_nat (length gs).
Proof.
  intros Hname' Hff. induction gs as [|g gs IH]; intros fuel w k t mem ts done h s mx prss v r bo raw bo' rest Hpg Ht Hm Ho Hlt Hs0 Hn Etot Hk HF Hs Hat Hsim Hfu Hlast;
    (destruct fuel as [|fuel]; [lia|]); cbn [recover_records].
  - apply Forall2_nil_inv_l in HF as ->. inversion Hs; subst.
    destruct (read_end w name fuel v r bo' (pg_ok _ _ _ _ _ _ Hpg) Hat Hsim Hlast) as (v' & -> & Hrep). cbn [mbind res_bind].
    rewrite Hrep, nothing_logged. exists mem, w, k, t, ts, done, h. change (groups_writes []) with (@nil write). rewrite app_nil_r. cbn [last_of length]. repeat (split; [done|]). lia.
  - apply Forall2_cons_inv_l in HF as (prs & prss' & Hfr & HF & ->). cbn [concat] in Hs, Hfu. rewrite length_app in Hfu.
    pose proof (fragments_some _ _ Hfr) as Hpos. cbn [numbered length] in *. destruct Hn as (Hsg & Hmax & Hlen & Hops & Hn).
    destruct (read_one w name _ prs (S fuel) v r bo (concat prss') raw bo' (pg_ok _ _ _ _ _ _ Hpg) Hfr Hs Hat Hsim) as (v' & r1 & bo1 & raw1 & -> & Hrep & Hsim' & Hl1 & Hs1 & Hat1);
      [lia|done|].
    cbn [mbind res_bind]. rewrite Hrep, nothing_logged. cbn [Status.ok Status.OK negb].
    pose proof (batch_length g.1 g.2) as Hbl. unfold kHeader in Hbl. rewrite decide_False by (unfold group_record; lia).
    assert (Forall (fun x : ParsedInternalKey * bytes => sequence (fst x) < g.1) h) as Hh.
    { apply Forall_app in Hlt as [_ Hlt]. eapply list.Forall_impl; [exact Hlt|]. cbn. lia. }
    destruct (InsertInto_batch g.2 g.1 (default new_MemTable mem) h (mem_holds_default _ _ Hm) Hops ltac:(lia) Hmax Hlen Hh) as (m' & Em & Hm').
    unfold SetContents, group_record. rewrite Em. cbn [mbind res_bind WriteBatch.mem_]. unfold MaybeIgnoreError. cbn [Status.ok Status.OK negb orb].
    rewrite batch_Sequence by (unfold kMaxSequenceNumber in Hmax; change (Z.shiftl 1 56) with (2^56) in Hmax; lia). cbn [mbind res_bind].
    rewrite batch_Count by done. cbn [mbind res_bind]. rewrite (last_sequence_of s) by done.
    assert ((if g.1 + Z.of_nat (length g.2) - 1 >? mx then g.1 + Z.of_nat (length g.2) - 1 else mx) = Z.max mx (g.1 + Z.of_nat (length g.2) - 1)) as ->
      by (destruct (Z.gtb_spec (g.1 + Z.of_nat (length g.2) - 1) mx); lia).
    destruct (extend_order (done ++ h) s g Ho Hlt Hsg) as [Ho' Hlt']. rewrite <- app_assoc in Ho', Hlt'.
    assert (total = (done ++ h ++ writes_of g.1 g.2) ++ groups_writes gs ++ rest) as Etot'
      by (rewrite Etot; unfold groups_writes; cbn [map concat]; by rewrite <- !app_assoc).
    assert (groups_writes (g :: gs) = writes_of g.1 g.2 ++ groups_writes gs) as -> by done. cbn [last_of].
    destruct (_ >? write_buffer_size opts).
    + destruct (flush_one ff vs w0 k0 w k t m' ts done (h ++ writes_of g.1 g.2) Hpg Ht Hm') as (w' & t' & ts' & -> & Ht' & Hpg' & Hu);
        [apply writes_in_order_app, Ho'|rewrite Etot', <- app_assoc; apply submseteq_middle| |lia|].
      { rewrite Etot', !length_app in Hff. rewrite length_app. lia. }
      cbn [mbind res_bind Status.ok Status.OK negb].
      destruct (IH fuel w' (k + 1) t' None ts' (done ++ h ++ writes_of g.1 g.2) [] (g.1 + Z.of_nat (length g.2)) (Z.max mx (g.1 + Z.of_nat (length g.2) - 1))
        prss' (in_world w' v') r1 bo1 raw1 bo' rest) as (mem1 & w1 & k1 & t1 & ts1 & done1 & h1 & -> & Ht1 & Hpg1 & Hm1 & Eh & Ho1 & Hk1);
        rewrite ?app_nil_r; try done; try lia.
      { apply (in_world_reader w); [done|]. intros u. apply Hu. rewrite list_elem_of_singleton. apply Hname'. pose proof (pg_next _ _ _ _ _ _ Hpg). lia. }
      rewrite app_nil_r in Eh. exists mem1, w1, k1, t1, ts1, done1, h1. repeat (split; [done|]). split; [by rewrite Eh, <- !app_assoc|]. split; [done|lia].
    + destruct (IH fuel w k t (Some m') ts done (h ++ writes_of g.1 g.2) (g.1 + Z.of_nat (length g.2)) (Z.max mx (g.1 + Z.of_nat (length g.2) - 1))
        prss' v' r1 bo1 raw1 bo' rest) as (mem1 & w1 & k1 & t1 & ts1 & done1 & h1 & -> & Ht1 & Hpg1 & Hm1 & Eh & Ho1 & Hk1); try done; try lia.
      exists mem1, w1, k1, t1, ts1, done1, h1. repeat (split; [done|]). split; [by rewrite Eh, <- !app_assoc|]. split; [done|lia].
Qed.

(** A log on disk, with the batches that it has. *)
Definition log_holds (w : W) (n : Z) (gs : list group) : Prop :=
  exists raw prss bo, contents w !! LogFileName dbname n = Some raw /\ stream 0 (concat prss) raw bo /\ Forall2 fragments (map group_record gs) prss.

(** The names that no new table has. *)
Lemma other_names k0 n : 0 <= n <= kMaxUint64 -> 0 <= k0 ->
  other_name k0 (LogFileName dbname n) /\ other_name k0 (SSTTableFileName dbname n) /\ other_name k0 (DescriptorFileName dbname n)
  /\ other_name k0 (CurrentFileName dbname) /\ other_name k0 (LockFileName dbname) /\ (n < k0 -> other_name k0 (TableFileName dbname n)).
Proof.
  intros Hn Hk. destruct (ParseFileName_made dbname n Hn) as (PL & PT & PS & _ & PD & PC & PK & _).
  assert (forall x t, ParseFileName (drop (length dbname + 1) x) = t -> (forall m, k0 <= m <= kMaxUint64 -> t <> Some (m, kTableFile)) -> other_name k0 x) as Hall.
  { intros x t Hx Hne m Hm E. destruct (ParseFileName_made dbname m ltac:(lia)) as (_ & P & _). apply (Hne m Hm). by rewrite <- Hx, E. }
  split; [by eapply Hall|]. split.
  { intros m Hm E. apply (f_equal (fun l => list.last l)) in E. unfold SSTTableFileName, TableFileName in E.
    rewrite !MakeFileName_eq, !list.last_app in E by (done || cbn; lia). cbn in E. discriminate E. }
  split; [by eapply Hall|]. split; [by eapply Hall|]. split; [by eapply Hall|].
  intros Hlt. eapply Hall; [exact PT|]. intros m Hm [= E]. lia.
Qed.

Lemma RecoverLogFile_spec fuel vs w0 k0 w k t ts done s mx n gs rest : progress w0 k0 w k ts done -> tables_good t ->
  other_name k0 (LogFileName dbname n) ->
  MemTable.in_order done -> Forall (fun e : write => sequence e.1 < s) done -> 0 < s -> numbered s gs ->
  total = done ++ groups_writes gs ++ rest -> k + Z.of_nat (length gs) < kMaxUint64 -> log_holds w0 n gs ->
  (length total < fuel)%nat -> (forall raw, contents w0 !! LogFileName dbname n = Some raw -> (length raw + 1 < fuel)%nat) ->
  exists w' k' t' ts', RecoverLogFile Hsame user_policy dbname opt opts ApproximateMemoryUsage fuel w (opening vs k t) n (recovery_edit ts) mx
    = Ret (Status.OK, w', opening vs k' t', recovery_edit ts', last_of mx gs)
  /\ tables_good t' /\ progress w0 k0 w' k' ts' (done ++ groups_writes gs) /\ MemTable.in_order (done ++ groups_writes gs)
  /\ k <= k' <= k + Z.of_nat (length gs) + 1.
Proof.
  intros Hpg Ht Hname' Ho Hlt Hs0 Hn Etot Hk (raw & prss & bo & Hraw & Hs & HF) Htot Hfu. specialize (Hfu raw Hraw).
  unfold RecoverLogFile. destruct (pg_frame _ _ _ _ _ _ Hpg _ Hname') as [Ec _]. rewrite Hraw in Ec.
  destruct (env_open w _ _ (pg_ok _ _ _ _ _ _ Hpg) Ec) as (rd & -> & Hrd). cbn [mbind res_bind Status.ok Status.OK negb of_option].
  destruct (stream_from_start _ _ _ Hs) as [bo' Hs']. pose proof (stream_length _ _ _ _ Hs) as Hl.
  destruct (recover_records_spec fuel vs w0 k0 _ Hname' Htot gs fuel w k t None ts done [] s mx prss (new_Reader (w, rd) true 0) (new_Reader raw true 0)
    kBlockSize raw bo' rest) as (mem & w1 & k1 & t1 & ts1 & done1 & h1 & -> & Ht1 & Hpg1 & Hm1 & Eh & Ho1 & Hk1);
    rewrite ?app_nil_r; try done; try lia; [apply new_Reader_at|].
  rewrite app_nil_r in Eh. cbn [mbind res_bind]. destruct mem as [m|]; cbn [mem_holds Status.ok Status.OK] in *.
  - destruct (flush_one fuel vs w0 k0 w1 k1 t1 m ts1 done1 h1 Hpg1 Ht1 Hm1) as (w2 & t2 & ts2 & -> & Ht2 & Hpg2 & _).
    + by apply writes_in_order_app, Ho1.
    + rewrite Etot, app_assoc, <- Eh, <- app_assoc. apply submseteq_middle.
    + rewrite Etot, app_assoc, <- Eh, !length_app in Htot. lia.
    + lia.
    + cbn [mbind res_bind]. exists w2, (k1 + 1), t2, ts2. rewrite Eh in *. repeat (split; [done|]). lia.
  - subst h1. rewrite app_nil_r in *. subst done1. exists w1, k1, t1, ts1. repeat (split; [done|]). lia.
Qed.

(** All logs, by their numbers; [room] is what they may take of the numbers. *)
Definition room (logs : list (Z * list group)) : Z := Z.of_nat (length (concat (map snd logs))) + Z.of_nat (length logs).

Lemma mark_opening vs k t n : 0 <= n < kMaxUint64 -> exists k', with_versions (opening vs k t) (MarkFileNumberUsed (versions_ (opening vs k t)) n) = opening vs k' t
  /\ k <= k' <= Z.max k (n + 1) /\ n < k'.
Proof.
  intros Hn. unfold MarkFileNumberUsed, opening. cbn [versions_ vs_next_file_number_ with_next]. destruct (Z.leb_spec k n) as [Hle|Hgt].
  - exists (n + 1). rewrite u64_small by (unfold kMaxUint64 in Hn; lia). split; [done|lia].
  - exists k. split; [done|lia].
Qed.

Lemma progress_later w0 k0 w k k' ts done : progress w0 k0 w k ts done -> k <= k' -> progress w0 k0 w k' ts done.
Proof.
  intros [Hok Hfr Hwr Hnum Hrg Hnx Hws Hb] Hk. split; try done; [|lia]. eapply list.Forall_impl; [exact Hrg|]. cbn. lia.
Qed.

Lemma recover_logs_spec fuel vs w0 k0 B : (length total < fuel)%nat -> B <= kMaxUint64 -> forall logs w k t ts done s mx,
  progress w0 k0 w k ts done -> tables_good t -> MemTable.in_order done -> Forall (fun e : write => sequence e.1 < s) done -> 0 < s ->
  numbered s (concat (map snd logs)) -> total = done ++ groups_writes (concat (map snd logs)) ->
  k + room logs <= B -> Forall (fun l : Z * list group => 0 <= l.1 /\ l.1 + 1 + room logs <= B
    /\ other_name k0 (LogFileName dbname l.1) /\ log_holds w0 l.1 l.2
    /\ forall raw, contents w0 !! LogFileName dbname l.1 = Some raw -> (length raw + 1 < fuel)%nat) logs ->
  exists w' k' t' ts', recover_logs Hsame user_policy dbname opt opts ApproximateMemoryUsage fuel (map fst logs) Status.OK w (opening vs k t) (recovery_edit ts) mx
    = Ret (Status.OK, w', opening vs k' t', recovery_edit ts', last_of mx (concat (map snd logs)))
  /\ tables_good t' /\ progress w0 k0 w' k' ts' total /\ MemTable.in_order total /\ k <= k' <= B
  /\ Forall (fun l : Z * list group => l.1 < k') logs.
Proof.
  intros Htot HB. induction logs as [|[n gs] logs IH]; intros w k t ts done s mx Hpg Ht Ho Hlt Hs0 Hn Etot Hk Hlogs; cbn [map recover_logs concat snd fst] in *.
  - change (groups_writes []) with (@nil write) in Etot. rewrite app_nil_r in Etot. subst done. exists w, k, t, ts. cbn [last_of].
    repeat (split; [done|]). unfold room in Hk. cbn in Hk. split; [lia|constructor].
  - apply Forall_cons_1 in Hlogs as [(Hn0 & Hnk & Hnm & Hlog & Hfu) Hlogs]. cbn [fst snd] in *.
    apply numbered_app in Hn as [Hn (s' & Hs' & Hn' & Hlt')]. rewrite groups_writes_app in Etot.
    assert (room ((n, gs) :: logs) = Z.of_nat (length gs) + 1 + room logs) as Eroom by (unfold room; cbn [map concat snd length]; rewrite length_app; lia).
    rewrite Eroom in *. assert (0 <= room logs) as Hroom by (unfold room; lia).
    destruct (RecoverLogFile_spec fuel vs w0 k0 w k t ts done s mx n gs (groups_writes (concat (map snd logs)))) as (w1 & k1 & t1 & ts1 & -> & Ht1 & Hpg1 & Ho1 & Hk1); try done; try lia.
    cbn [mbind res_bind]. destruct (mark_opening vs k1 t1 n ltac:(lia)) as (k2 & -> & Hk2 & Hn2). rewrite last_of_app.
    destruct (IH w1 k2 t1 ts1 (done ++ groups_writes gs) s' (last_of mx gs)) as (w' & k' & t' & ts' & E & Ht' & Hpg' & Ho' & Hk' & Hall); try done; try lia.
    + apply (progress_later _ _ _ k1); [done|lia].
    + apply Forall_app. split; [|done]. eapply list.Forall_impl; [exact Hlt|]. cbn. lia.
    + by rewrite Etot, <- app_assoc.
    + eapply list.Forall_impl; [exact Hlogs|]. intros l (Hl0 & Hl1 & Hl2). split; [done|]. split; [lia|done].
    + exists w', k', t', ts'. repeat (split; [done|]). split; [lia|]. by constructor; [cbn [fst]; lia|].
Qed.

(** ** The files of the directory *)

(** The log to replay that a name is of. *)
Definition replayed (min_log prev_log : Z) (f : bytes) : option Z :=
  match ParseFileName f with
  | Some (number, type) => if bool_decide (type = kLogFile) && ((min_log <=? number) || (number =? prev_log)) then Some number else None
  | None => None
  end.
Definition parsed_number (f : bytes) : option Z := fst <$> ParseFileName f.

Lemma scan_files_spec l min_log prev_log : forall expected logs,
  scan_files l min_log prev_log expected logs = (expected ∖ list_to_set (omap parsed_number l), logs ++ omap (replayed min_log prev_log) l).
Proof.
  induction l as [|f l IH]; intros expected logs; cbn [scan_files omap list_omap].
  { rewrite app_nil_r. f_equal. set_solver. }
  unfold parsed_number at 1, replayed at 1. destruct (ParseFileName f) as [[number type]|]; [|exact (IH expected logs)].
  cbn [fmap option_fmap option_map fst]. rewrite IH. f_equal; [rewrite list_to_set_cons; set_solver|].
  destruct (_ && _); [by rewrite <- app_assoc|done].
Qed.

Lemma base_name name x : name = dbname ++ zb 47 :: x -> in_dir dbname (drop (length dbname + 1) name) = name.
Proof. intros ->. apply made_in_dir. Qed.

Lemma dots_parse : ParseFileName (lit ".") = None /\ ParseFileName (lit "..") = None.
Proof. split; reflexivity. Qed.

(** The files listed of those that are there. *)
Lemma listed (w : W) (l : list bytes) name x n type : (forall f : bytes, zb 47 ∉ f -> is_Some (contents w !! (dbname ++ lit "/" ++ f)) -> f ∈ l) ->
  name = dbname ++ zb 47 :: x -> ParseFileName (drop (length dbname + 1) name) = Some (n, type) -> is_Some (contents w !! name) ->
  drop (length dbname + 1) name ∈ l.
Proof.
  intros Hl E Hp Hc. apply Hl; [by destruct (ParseFileName_name _ _ _ Hp)|].
  change (is_Some (contents w !! in_dir dbname (drop (length dbname + 1) name))). by rewrite (base_name name x).
Qed.

Lemma scan_expected (w : W) (l : list bytes) (live : gset Z) : (forall f : bytes, zb 47 ∉ f -> is_Some (contents w !! (dbname ++ lit "/" ++ f)) -> f ∈ l) ->
  (forall n, n ∈ live -> 0 <= n <= kMaxUint64 /\ (is_Some (contents w !! TableFileName dbname n) \/ is_Some (contents w !! SSTTableFileName dbname n))) ->
  live ∖ list_to_set (omap parsed_number l) = ∅.
Proof.
  intros Hl Hlive. apply set_eq. intros n. rewrite elem_of_difference, elem_of_list_to_set, list_elem_of_omap. split; [|set_solver].
  intros [Hn []]. destruct (Hlive n Hn) as [Hb Hc]. destruct (ParseFileName_made dbname n Hb) as (_ & P1 & P2 & _).
  destruct Hc as [Hc|Hc]; [exists (drop (length dbname + 1) (TableFileName dbname n))|exists (drop (length dbname + 1) (SSTTableFileName dbname n))];
    (split; [eapply listed; [done|reflexivity|eassumption|done]|]); unfold parsed_number; [by rewrite P1|by rewrite P2].
Qed.

Lemma set_order_unique (l l' : list Z) : l ≡ₚ l' -> StronglySorted Z.lt l' -> set_order l = l'.
Proof.
  intros Hp Hs. apply (Sorted_unique Z.le).
  - apply (Sorted_merge_sort Z.le).
  - apply StronglySorted_Sorted. clear -Hs. induction Hs as [|x k Hk IH Hx]; [constructor|]. constructor; [done|]. eapply list.Forall_impl; [exact Hx|]. intros y Hy. cbn in Hy. lia.
  - unfold set_order. by rewrite merge_sort_Permutation.
Qed.

Lemma scan_logs (w : W) (l : list bytes) min_log prev_log (logs : list (Z * list group)) : NoDup l ->
  (forall f : bytes, zb 47 ∉ f -> is_Some (contents w !! (dbname ++ lit "/" ++ f)) -> f ∈ l) ->
  (forall f, f ∈ l -> f = lit "." \/ f = lit ".." \/ is_Some (contents w !! (dbname ++ lit "/" ++ f))) ->
  StronglySorted Z.lt (map fst logs) ->
  Forall (fun l : Z * list group => 0 <= l.1 <= kMaxUint64 /\ (min_log <= l.1 \/ l.1 = prev_log) /\ log_holds w l.1 l.2) logs ->
  (forall f n, is_Some (contents w !! in_dir dbname f) -> replayed min_log prev_log f = Some n -> n ∈ map fst logs /\ in_dir dbname f = LogFileName dbname n) ->
  set_order (omap (replayed min_log prev_log) l) = map fst logs.
Proof.
  intros Hnd Hin Hout Hs Hlogs Hall. apply set_order_unique; [|done].
  assert (forall f n, f ∈ l -> replayed min_log prev_log f = Some n -> n ∈ map fst logs /\ in_dir dbname f = LogFileName dbname n) as Hl.
  { intros f n Hf Hr. destruct dots_parse as [D1 D2]. destruct (Hout f Hf) as [->|[->|Hc]]; [by unfold replayed in Hr; rewrite D1 in Hr|by unfold replayed in Hr; rewrite D2 in Hr|].
    by apply Hall. }
  apply NoDup_Permutation.
  - clear Hin Hout. induction Hnd as [|f l Hf _ IH]; [constructor|]. cbn [omap list_omap]. destruct (replayed min_log prev_log f) as [n|] eqn:E.
    + constructor; [|apply IH; intros g m Hg; apply Hl; by right]. intros (g & Hg & Eg)%list_elem_of_omap.
      destruct (Hl f n ltac:(left) E) as [_ E1]. destruct (Hl g n ltac:(by right) Eg) as [_ E2]. rewrite <- E2 in E1. apply in_dir_inj in E1. congruence.
    + apply IH. intros g m Hg. apply Hl. by right.
  - clear -Hs. induction Hs as [|x k Hk IH Hx]; constructor; [|done]. intros Hin. rewrite list.Forall_forall in Hx. specialize (Hx x Hin). lia.
  - intros n. rewrite list_elem_of_omap. split; [intros (f & Hf & E); by apply (Hl f)|].
    intros ([m gs] & -> & Hm)%list_elem_of_fmap. rewrite list.Forall_forall in Hlogs. destruct (Hlogs _ Hm) as (Hb & Hk & raw & prss & bo & Hc & _). cbn [fst snd] in *.
    destruct (ParseFileName_made dbname m Hb) as (P & _). exists (drop (length dbname + 1) (LogFileName dbname m)).
    split; [eapply listed; [done|reflexivity|exact P|by exists raw]|]. unfold replayed. rewrite P, bool_decide_true by done. cbn [andb].
    by replace ((min_log <=? m) || (m =? prev_log)) with true by lia.
Qed.

(** ** The version with the tables *)

(** What the version is told of a table. *)
Definition table_file (t : table) : FileMetaData := added_file t.1.

Lemma recovery_edit_new ts : new_files_ (recovery_edit ts)
  = map (fun t : table => (0, mkFileMetaData 0 (Z.shiftl 1 30) (number t.1) (file_size t.1) (smallest t.1) (largest t.1))) ts
  /\ deleted_files_ (recovery_edit ts) = [] /\ has_comparator_ (recovery_edit ts) = false.
Proof.
  induction ts as [|t ts IH] using rev_ind; [done|]. rewrite recovery_edit_snoc, map_app. destruct IH as (IH & Hd & Hc). cbn. by rewrite IH.
Qed.

Lemma recovery_edit_adds l ts n : level_edit l [] (SetLogNumber (recovery_edit ts) n) = if decide (l = 0) then map table_file ts else [].
Proof.
  unfold level_edit, edit_adds. cbn [SetLogNumber new_files_ filter base.filter list_filter app]. destruct (recovery_edit_new ts) as [-> _].
  induction ts as [|t ts IH]; [by case_decide|]. cbn [map concat]. rewrite IH. unfold adds. cbn [fst snd]. by destruct (decide (l = 0)) as [->|Hne]; case_decide.
Qed.

Lemma recovery_edit_level l fs ts n : level_edit l fs (SetLogNumber (recovery_edit ts) n) = fs ++ (if decide (l = 0) then map table_file ts else []).
Proof.
  rewrite <- (recovery_edit_adds l ts n). unfold level_edit. change (deleted_files_ (SetLogNumber (recovery_edit ts) n)) with (deleted_files_ (recovery_edit ts)).
  destruct (recovery_edit_new ts) as (_ & -> & _). cbn [filter base.filter list_filter app]. rewrite filter_all; [done|]. intros f _. apply not_elem_of_nil.
Qed.

(** A table as the version sees it, whatever the world. *)
Record table_ok (t : table) : Prop := {
  to_meta : exists first last, head t.2 = Some first /\ list.last t.2 = Some last /\ smallest t.1 = encode_key first.1 /\ largest t.1 = encode_key last.1;
  to_sorted : StronglySorted (cmp_lt write_cmp) t.2;
  to_seq : Forall (fun e : write => valid_seq (sequence e.1)) t.2;
}.
Lemma written_ok w t : table_written w t -> table_ok t.
Proof.
  intros [(data & first & last & _ & _ & Hh & Hl & E) Hs Hq _]. split; [|done..]. exists first, last. split; [done|]. split; [done|]. by split; rewrite E.
Qed.

(** The tables of a version and those of [ts]. *)
Definition with_tables_of (C : Z -> list write) (ts : list table) : Z -> list write :=
  fold_left (fun C (t : table) => with_table C t.2 (number t.1)) ts C.
Definition push (v : Version) (f : FileMetaData) : Version := with_files_ v (alter (fun fs => fs ++ [f]) 0%nat (files_ v)).

Lemma push_files v f l : length (files_ v) = Z.to_nat config.kNumLevels -> 0 <= l ->
  level_files (push v f) l = level_files v l ++ (if decide (l = 0) then [f] else []).
Proof.
  intros Hlen Hl. unfold level_files, push. cbn [files_ with_files_]. rewrite !nth_lookup.
  destruct (decide (l = 0)) as [->|Hne].
  - change (Z.to_nat 0) with 0%nat. rewrite list_lookup_alter_eq. destruct (files_ v !! 0%nat) eqn:E; [done|]. apply lookup_ge_None in E. rewrite Hlen in E. vm_compute in E. lia.
  - rewrite list_lookup_alter_ne by lia. by rewrite app_nil_r.
Qed.

Lemma with_tables_of_old C ts k : Forall (fun t : table => number t.1 <> k) ts -> with_tables_of C ts k = C k.
Proof.
  revert C. induction ts as [|t ts IH]; intros C; [done|]. intros [Ht Hts]%Forall_cons_1. unfold with_tables_of in *. cbn [fold_left]. rewrite IH by done.
  unfold with_table. by rewrite decide_False.
Qed.

Lemma with_tables_of_in C ts t : StronglySorted (fun t t' : table => number t.1 < number t'.1) ts -> t ∈ ts -> with_tables_of C ts (number t.1) = t.2.
Proof.
  revert C. induction ts as [|u ts IH]; intros C; [by intros _ ?%elem_of_nil|]. intros [Hs Hu]%StronglySorted_inv [->|Ht]%elem_of_cons.
  - unfold with_tables_of. cbn [fold_left]. fold (with_tables_of (with_table C u.2 (number u.1)) ts). rewrite with_tables_of_old.
    + unfold with_table. by rewrite decide_True.
    + eapply list.Forall_impl; [exact Hu|]. cbn. lia.
  - by apply IH.
Qed.

Lemma push_wf C v t : version_wf C v -> (forall l, 0 < l < config.kNumLevels -> StronglySorted (cmp_lt file_cmp) (level_files v l)) ->
  table_ok t -> run_newer t.2 (version_writes C v) -> (forall l g, g ∈ level_files v l -> number g < number t.1) ->
  Z.of_nat (length (level_files v 0)) + 1 < 2^31 ->
  let C' := with_table C t.2 (number t.1) in let v' := push v (table_file t) in
  version_wf C' v' /\ (forall l, 0 < l < config.kNumLevels -> StronglySorted (cmp_lt file_cmp) (level_files v' l))
  /\ forall e, e ∈ version_writes C' v' <-> e ∈ t.2 \/ e ∈ version_writes C v.
Proof.
  intros Hwf Hs [(first & last & Hh & Hla & Es & El) Hts Hseq] Hnew Hnum Hroom C' v'. pose proof (vw_levels _ _ Hwf) as Hlen.
  assert (forall l, 0 < l < config.kNumLevels -> StronglySorted (cmp_lt file_cmp) (level_files v' l)) as Hs'.
  { intros l Hl. unfold v'. rewrite push_files, decide_False, app_nil_r by lia. by apply Hs. }
  assert (new_table C v 0 (table_file t) t.2) as Hnt.
  { split; [|done|done|lia]. split; cbn [table_file number added_file smallest largest]; unfold with_table; rewrite decide_True by done;
      [done|done|by exists first|by exists last]. }
  assert (length (files_ v') = Z.to_nat config.kNumLevels) as Hlen' by (unfold v', push; cbn [files_ with_files_]; by rewrite length_alter).
  assert (added v v' 0 (table_file t)) as Had.
  { split; [done| |done|].
    - intros l Hl. unfold v'. by rewrite push_files by lia.
    - intros k. destruct (level_files_beyond v' k Hlen') as [->|(l & Hl & -> & _)]; [done|]. unfold v'. rewrite push_files, length_app by lia.
      pose proof (vw_bound _ _ Hwf l). case_decide as E; [subst l; cbn; lia|cbn; lia]. }
  split; [by apply (added_wf C v v' 0 (table_file t) t.2)|]. split; [done|]. by apply (added_writes C v v' 0 (table_file t) t.2).
Qed.

Lemma pushes ts : forall C v, version_wf C v -> (forall l, 0 < l < config.kNumLevels -> StronglySorted (cmp_lt file_cmp) (level_files v l)) ->
  Forall table_ok ts -> StronglySorted (fun t t' : table => number t.1 < number t'.1) ts -> StronglySorted (fun t t' : table => below t.2 t'.2) ts ->
  Forall (fun t : table => run_newer t.2 (version_writes C v) /\ forall l g, g ∈ level_files v l -> number g < number t.1) ts ->
  Z.of_nat (length (level_files v 0)) + Z.of_nat (length ts) < 2^31 ->
  let C' := with_tables_of C ts in let v' := fold_left push (map table_file ts) v in
  version_wf C' v' /\ (forall l, 0 <= l -> level_files v' l = level_files v l ++ (if decide (l = 0) then map table_file ts else []))
  /\ forall e, e ∈ version_writes C' v' <-> e ∈ concat (map snd ts) \/ e ∈ version_writes C v.
Proof.
  induction ts as [|t ts IH]; intros C v Hwf Hs Hok Hnum Hb Hnew Hroom; cbn [with_tables_of map fold_left].
  { split; [done|]. split; [intros l _; case_decide; by rewrite app_nil_r|]. intros e. cbn. rewrite elem_of_nil. naive_solver. }
  apply Forall_cons_1 in Hok as [Ht Hok], Hnew as [[Hnt Hng] Hnew]. apply StronglySorted_inv in Hnum as [Hnum Hnt'], Hb as [Hb Hbt]. cbn [length] in Hroom.
  destruct (push_wf C v t Hwf Hs Ht Hnt Hng) as (Hwf1 & Hs1 & Hw1); [lia|].
  assert (forall l g, g ∈ level_files (push v (table_file t)) l -> g ∈ level_files v l \/ g = table_file t) as Hin.
  { intros l g Hg. destruct (decide (0 <= l)) as [Hl|Hl].
    - rewrite push_files in Hg by (done || apply Hwf). apply elem_of_app in Hg as [Hg|Hg]; [by left|]. case_decide; set_solver.
    - assert (forall w, level_files w l = level_files w 0) as E0 by (intros w; unfold level_files; f_equal; lia).
      rewrite E0 in *. rewrite push_files in Hg by (done || apply Hwf). set_solver. }
  destruct (IH (with_table C t.2 (number t.1)) (push v (table_file t)) Hwf1 Hs1 Hok Hnum Hb) as (Hwf' & Hf' & Hw').
  - rewrite list.Forall_forall in *. intros u Hu. destruct (Hnew u Hu) as [Hu1 Hu2]. specialize (Hnt' u Hu). specialize (Hbt u Hu). cbn in Hnt', Hbt. split.
    + intros a b Ha [Hb'|Hb']%Hw1; [intros _; by apply Hbt|by apply Hu1].
    + intros l g [Hg| ->]%Hin; [by eapply Hu2|done].
  - rewrite push_files by (done || apply Hwf). rewrite decide_True, length_app by done. cbn [length]. lia.
  - split; [exact Hwf'|]. split.
    + intros l Hl. rewrite Hf', push_files by (done || apply Hwf). rewrite <- app_assoc. by case_decide.
    + intros e. rewrite Hw', Hw1. cbn [map concat]. rewrite elem_of_app. naive_solver.
Qed.

Lemma recovered_version (C : Z -> list write) v v' ts n : version_wf C v -> version_sorted v -> Forall table_ok ts ->
  StronglySorted (fun t t' : table => number t.1 < number t'.1) ts -> StronglySorted (fun t t' : table => below t.2 t'.2) ts ->
  Forall (fun t : table => run_newer t.2 (version_writes C v) /\ forall l g, g ∈ level_files v l -> number g < number t.1) ts ->
  Z.of_nat (length (level_files v 0)) + Z.of_nat (length ts) < 2^31 -> version_sorted v' ->
  (forall l, is_level l -> level_files v' l ≡ₚ level_edit l (level_files v l) (SetLogNumber (recovery_edit ts) n)) ->
  version_wf (with_tables_of C ts) v' /\ (forall e, e ∈ version_writes (with_tables_of C ts) v' <-> e ∈ concat (map snd ts) \/ e ∈ version_writes C v)
  /\ (forall l g, g ∈ level_files v' l -> g ∈ level_files v l \/ g ∈ map table_file ts)
  /\ forall t, t ∈ ts -> table_file t ∈ level_files v' 0.
Proof.
  intros Hwf [Hlen Hs] Hok Hnum Hb Hnew Hroom [Hlen' Hs'] Hp.
  destruct (pushes ts C v Hwf) as (Hwf1 & Hf1 & Hw1); [intros l Hl; apply Hs; unfold is_level; lia|done..|].
  assert (forall l, 0 <= l < config.kNumLevels -> level_files v' l ≡ₚ level_files v l ++ (if decide (l = 0) then map table_file ts else [])) as Hp'.
  { intros l Hl. by rewrite Hp, recovery_edit_level. }
  destruct (permuted_wf (with_tables_of C ts) (fold_left push (map table_file ts) v) v' Hwf1 Hlen') as [Hwf' Hw'].
  { intros l Hl. by rewrite Hf1, Hp' by lia. }
  { intros l Hl. apply Hs'. unfold is_level. lia. }
  split; [done|]. split; [intros e; by rewrite Hw', Hw1|]. split.
  - intros l g Hg. destruct (level_files_beyond v' l Hlen') as [E|(k & Hk & E & Hsm)]; rewrite E in Hg; [by apply elem_of_nil in Hg|].
    rewrite Hp' in Hg by done. destruct (decide (0 <= l)) as [Hl|Hl].
    + rewrite (Hsm Hl) in Hg. apply elem_of_app in Hg as [Hg|Hg]; [by left|]. case_decide; [by right|by apply elem_of_nil in Hg].
    + assert (level_files v' l = level_files v' 0) as E0 by (unfold level_files; f_equal; lia).
      rewrite E0 in E. assert (g ∈ level_files v' 0) as Hg0 by (rewrite E, Hp'; done). rewrite Hp' in Hg0 by done.
      rewrite decide_True in Hg0 by done. apply elem_of_app in Hg0 as [Hg0|Hg0]; [left|by right].
      by assert (level_files v l = level_files v 0) as -> by (unfold level_files; f_equal; lia).
  - intros t Ht. rewrite Hp', decide_True by done. apply elem_of_app. right. by apply list_elem_of_fmap_2.
Qed.

Lemma written_typed w t : table_written w t -> is_u64 (number t.1) ->
  is_u64 (file_size t.1) /\ is_slice (smallest t.1) /\ is_slice (largest t.1) /\ internal_valid (smallest t.1).
Proof.
  intros [(data & first & last & _ & (Hd & _) & Hh & Hl & E) Hs Hq Hg] Hn.
  assert (forall e, e ∈ t.2 -> is_slice (encode_key e.1) /\ internal_valid (encode_key e.1)) as Hkeys.
  { intros e He%list_elem_of_In. rewrite Forall_forall in Hg, Hq. destruct (Hg e He) as [[Hv Hle] _]. split.
    - unfold is_slice. rewrite length_encode_key. unfold InternalKeyEncodingLength. lia.
    - by destruct (raw_encode e.1 (Hq e He)) as (_ & _ & ?). }
  assert (first ∈ t.2 /\ last ∈ t.2) as [H1' H2'] by (split; [by apply head_Some_elem_of|by apply last_Some_elem_of]).
  rewrite E. cbn [file_size smallest largest]. split; [unfold is_u64; lia|]. split; [by apply Hkeys|]. split; by apply Hkeys.
Qed.

Lemma recovery_edit_good U w ts n k0 k : Forall (table_written w) ts -> StronglySorted (fun t t' : table => number t.1 < number t'.1) ts ->
  Forall (fun t : table => k0 <= number t.1 < k) ts -> 0 <= k0 -> k <= kMaxUint64 -> is_u64 n -> (forall m, k0 <= m -> (0, m) ∉ U) ->
  good_edit U (SetLogNumber (recovery_edit ts) n).
Proof.
  intros Hwr Hnum Hrg Hk0 Hk Hn HU. destruct (recovery_edit_new ts) as (Enew & _ & Ecmp).
  assert (forall t, t ∈ ts -> is_u64 (number t.1) /\ table_written w t /\ k0 <= number t.1) as Hall.
  { intros t Ht. rewrite list.Forall_forall in Hwr, Hrg. specialize (Hrg t Ht). cbn in Hrg. unfold is_u64, kMaxUint64 in *. split; [lia|]. split; [by apply Hwr|lia]. }
  split; cbn [SetLogNumber new_files_ has_comparator_].
  - apply SetLogNumber_typed; [|done]. clear -Hall. induction ts as [|t ts IH] using rev_ind; [apply new_typed|]. rewrite recovery_edit_snoc.
    destruct (Hall t ltac:(set_solver)) as (Hu & Hw & _). destruct (written_typed w t Hw Hu) as (? & ? & ? & _).
    apply AddFile_typed; try done. apply IH. intros u Hu'. apply Hall. set_solver.
  - by rewrite Ecmp.
  - rewrite Enew. apply Forall_map, list.Forall_forall. intros t Ht. destruct (Hall t Ht) as (Hu & Hw & _). by destruct (written_typed w t Hw Hu) as (_ & _ & _ & ?).
  - rewrite Enew. apply Forall_map, list.Forall_forall. intros t Ht. destruct (Hall t Ht) as (_ & _ & Hm). by apply HU.
  - rewrite Enew, map_map. cbn. clear -Hnum. induction Hnum as [|t ts _ IH Ht]; cbn [map]; constructor; [|done].
    intros (u & E & Hu)%list_elem_of_fmap. rewrite list.Forall_forall in Ht. specialize (Ht u Hu). unfold file_key in E. cbn in E, Ht. injection E. lia.
Qed.

(** ** A database on disk *)

Definition has_table (w : W) (n : Z) : Prop := is_Some (contents w !! TableFileName dbname n) \/ is_Some (contents w !! SSTTableFileName dbname n).

(** What was logged last is [D]: a version with tables that hold [C], and
    [logs] are the logs that are newer, from the first on.  They are all those
    of the directory that the descriptor does not cover, and what they hold is
    numbered upwards and newer than what the tables hold. *)
Record recoverable (w : W) (D : Durable) (U : list (Z * Z)) (C : Z -> list write) (logs : list (Z * list group)) : Prop := {
  rc_version : version_wf C (d_current D);
  rc_files l g : g ∈ level_files (d_current D) l -> 0 <= number g <= d_next_file D /\ has_table w (number g);
  rc_fresh m : d_next_file D < m -> (0, m) ∉ U;
  rc_sorted : StronglySorted Z.lt (map fst logs);
  rc_logs : Forall (fun l : Z * list group => 0 <= l.1 /\ l.1 + room logs + 2 <= kMaxUint64
    /\ (d_log_number D <= l.1 \/ l.1 = d_prev_log_number D) /\ log_holds w l.1 l.2) logs;
  rc_all f n : is_Some (contents w !! in_dir dbname f) -> replayed (d_log_number D) (d_prev_log_number D) f = Some n ->
    n ∈ map fst logs /\ in_dir dbname f = LogFileName dbname n;
  rc_numbered : exists s, 0 < s /\ numbered s (concat (map snd logs));
  rc_total : total = groups_writes (concat (map snd logs));
  rc_newer : run_newer total (version_writes C (d_current D));
  rc_next : 0 <= d_next_file D /\ d_next_file D + room logs + 2 <= kMaxUint64;
  rc_level0 : Z.of_nat (length (level_files (d_current D) 0)) + Z.of_nat (length total) < 2^31;
}.

(** CreateDir and LockFile: only the lock's file may change. *)
Lemma enter_dir w : env_ok w -> exists s w1 w2, env_CreateDir w dbname = (s, w1) /\ env_LockFile w1 (LockFileName dbname) = (Status.OK, w2) /\ env_ok w2
  /\ forall x, x <> LockFileName dbname -> contents w2 !! x = contents w !! x /\ forall u, uses w u x -> uses w2 u x.
Proof.
  intros Hw. destruct (env_create w dbname Hw) as (s & w1 & E1 & Hw1 & C1 & U1).
  destruct (env_lock w1 (LockFileName dbname) Hw1) as (w2 & E2 & Hw2 & C2 & U2). exists s, w1, w2. split; [done|]. split; [done|]. split; [done|].
  intros x Hx. split; [by rewrite C2, C1|]. intros u Hu. by apply U2, U1.
Qed.

Lemma not_lock n : 0 <= n <= kMaxUint64 -> LogFileName dbname n <> LockFileName dbname /\ TableFileName dbname n <> LockFileName dbname
  /\ SSTTableFileName dbname n <> LockFileName dbname /\ DescriptorFileName dbname n <> LockFileName dbname /\ CurrentFileName dbname <> LockFileName dbname.
Proof.
  intros Hn. destruct (ParseFileName_made dbname n Hn) as (PL & PT & PS & _ & PD & PC & PK & _).
  repeat split; intros E; rewrite E in *; congruence.
Qed.

Lemma lock_recoverable w w' D U C logs : (forall x, x <> LockFileName dbname -> contents w' !! x = contents w !! x) ->
  recoverable w D U C logs -> recoverable w' D U C logs.
Proof.
  intros Hc [Hv Hf Hu Hs Hl Ha Hn Ht Hnw Hnx H0']. assert (0 <= room logs) as Hroom by (unfold room; lia). split; try done.
  - intros l g Hg. destruct (Hf l g Hg) as [Hb Hg']. split; [done|]. destruct (not_lock (number g)) as (_ & N1 & N2 & _); [lia|].
    destruct Hg' as [Hg'|Hg']; [left|right]; by rewrite Hc.
  - eapply list.Forall_impl; [exact Hl|]. intros l (Hl0 & Hlm & Hlk & raw & prss & bo & Hraw & Hrest). split; [done|]. split; [done|]. split; [done|].
    exists raw, prss, bo. split; [|done]. destruct (not_lock l.1) as (N & _); [lia|]. by rewrite Hc.
  - intros f n Hf' Hr. apply Ha; [|done]. rewrite <- Hc; [done|]. intros E. unfold replayed in Hr.
    assert (f = drop (length dbname + 1) (LockFileName dbname)) as ->.
    { apply (in_dir_inj dbname). rewrite E. symmetry. by eapply base_name. }
    destruct (ParseFileName_made dbname 0 ltac:(done)) as (_ & _ & _ & _ & _ & _ & PK & _). by rewrite PK in Hr.
Qed.

Lemma elsewhere_frame w w' (vs : VersionSet Wf) : env_ok w' ->
  (forall x, x = CurrentFileName dbname \/ (exists n, 0 <= n <= kMaxUint64 /\ x = DescriptorFileName dbname n) ->
    contents w' !! x = contents w !! x /\ forall u, uses w u x -> uses w' u x) -> elsewhere dbname vs w w'.
Proof.
  intros Hw Hx. split; [done|]. split; [apply Hx; by left|]. intros n Hn _. destruct (Hx (DescriptorFileName dbname n)) as [Hc Hu]; [right; by exists n|].
  split; [done|]. intros k. apply Hu.
Qed.

(** ** [DBImpl::Recover] *)

Abbreviation recovered_set D := (@recovered Wf D).
Abbreviation first_number D := (d_next_file D + 1).

Lemma opening_start D t : 0 <= d_next_file D < kMaxUint64 -> with_versions (DBImpl_new t) (recovered_set D) = opening (recovered_set D) (first_number D) t.
Proof.
  intros Hn. unfold opening, with_versions, DBImpl_new, recovered, with_next. cbn.
  by rewrite u64_small by (unfold kMaxUint64 in Hn; lia).
Qed.

(** Enough fuel for the logs. *)
Lemma log_fuel w (logs : list (Z * list group)) : Forall (fun l : Z * list group => log_holds w l.1 l.2) logs ->
  exists k, forall fuel, (k <= fuel)%nat -> Forall (fun l : Z * list group =>
    forall raw, contents w !! LogFileName dbname l.1 = Some raw -> (length raw + 1 < fuel)%nat) logs.
Proof.
  induction 1 as [|l logs (raw & _ & _ & Hraw & _) _ [k IH]]; [exists 0%nat; constructor|]. exists (Nat.max k (length raw + 2)). intros fuel Hf.
  constructor; [|apply IH; lia]. intros raw' E. rewrite Hraw in E. injection E as <-. lia.
Qed.

Lemma recover_all_logs w D U C logs t : env_ok w -> tables_good t -> recoverable w D U C logs ->
  exists K, forall fuel, (K <= fuel)%nat -> exists w' k' t' ts,
    recover_logs Hsame user_policy dbname opt opts ApproximateMemoryUsage fuel (map fst logs) Status.OK w (opening (recovered_set D) (first_number D) t) new_VersionEdit 0
    = Ret (Status.OK, w', opening (recovered_set D) k' t', recovery_edit ts, last_of 0 (concat (map snd logs)))
  /\ tables_good t' /\ progress w (first_number D) w' k' ts total /\ MemTable.in_order total /\ first_number D <= k' <= kMaxUint64 - 1
  /\ Forall (fun l : Z * list group => l.1 < k') logs.
Proof.
  intros Hw Ht [Hv Hf Hu Hs Hl Ha (s & Hs0 & Hn) Htot Hnw Hnx H0'].
  assert (0 <= room logs) as Hroom by (unfold room; lia).
  destruct (log_fuel w logs) as [K HK]; [eapply list.Forall_impl; [exact Hl|]; by intros l (_ & _ & _ & ?)|].
  exists (Nat.max K (S (length total))). intros fuel Hfuel. specialize (HK fuel ltac:(lia)).
  destruct (recover_logs_spec fuel (recovered_set D) w (first_number D) (kMaxUint64 - 1) ltac:(lia) ltac:(lia) logs w (first_number D) t [] [] s 0)
    as (w' & k' & t' & ts & E & Ht' & Hpg & Ho & Hk & Hall); try done; try lia.
  - apply progress_start; [done|lia].
  - constructor.
  - rewrite list.Forall_forall in *. intros l Hin. destruct (Hl l Hin) as (Hl0 & Hlm & _ & Hh). split; [done|]. split; [lia|].
    split; [apply other_names; lia|]. split; [done|by apply HK].
  - exists w', k', t', ts. split; [exact E|]. repeat (split; [done|]). done.
Qed.

Definition recovered_last (D : Durable) (logs : list (Z * list group)) : Z := Z.max (d_last_sequence D) (last_of 0 (concat (map snd logs))).
Definition recovered_to (D : Durable) (logs : list (Z * list group)) : VersionSet Wf := SetLastSequence (recovered_set D) (recovered_last D logs).

Lemma recovered_session w D U k logs : session dbname w (recovered_set D) D U -> first_number D <= k <= kMaxUint64 ->
  0 <= d_next_file D < kMaxUint64 -> is_u64 (recovered_last D logs) -> session dbname w (with_next (recovered_to D logs) k) D U.
Proof.
  intros Hs1 Hk Hn Hl.
  assert (session dbname w (with_next (recovered_set D) k) D U) as Hs2.
  { assert (u64 (d_next_file D + 1) = first_number D) as Eu by (apply u64_small; unfold kMaxUint64 in *; lia).
    destruct (decide (k = first_number D)) as [->|Hne].
    - replace (with_next (recovered_set D) (first_number D)) with (recovered_set D); [done|]. unfold recovered, with_next. cbn. by rewrite Eu.
    - replace (with_next (recovered_set D) k) with (MarkFileNumberUsed (recovered_set D) (k - 1)).
      + eapply s_count; [exact Hs1|]. apply counts_mark. unfold is_u64, kMaxUint64 in *. lia.
      + unfold MarkFileNumberUsed. cbn [vs_next_file_number_ recovered]. rewrite Eu. destruct (Z.leb_spec (first_number D) (k - 1)); [|lia].
        replace (k - 1 + 1) with k by lia. by rewrite u64_small by (unfold kMaxUint64 in *; lia). }
  exact (s_count dbname w _ D U _ Hs2 (counts_sequence _ (recovered_last D logs) Hl)).
Qed.

Lemma set_last_opening D logs k t : (if Status.ok Status.OK && (vs_last_sequence_ (versions_ (opening (recovered_set D) k t)) <? last_of 0 (concat (map snd logs)))
    then with_versions (opening (recovered_set D) k t) (SetLastSequence (versions_ (opening (recovered_set D) k t)) (last_of 0 (concat (map snd logs))))
    else opening (recovered_set D) k t) = opening (recovered_to D logs) k t.
Proof.
  unfold recovered_to, recovered_last. cbn [Status.ok Status.OK andb versions_ opening vs_last_sequence_ with_next recovered].
  destruct (Z.ltb_spec (d_last_sequence D) (last_of 0 (concat (map snd logs)))); [by rewrite Z.max_r by lia|by rewrite Z.max_l by lia].
Qed.

Lemma DBImpl_Recover_spec w vs0 D U C logs t : session dbname w vs0 D U -> error_if_exists opts = false -> tables_good t -> recoverable w D U C logs ->
  exists K, forall fuel, (K <= fuel)%nat -> exists w2 w' k' t' ts,
    DBImpl_Recover Hsame user_policy dbname opt opts ApproximateMemoryUsage fuel w (DBImpl_new t) new_VersionEdit
    = Ret (Status.OK, w', opening (recovered_to D logs) k' t', recovery_edit ts)
  /\ session dbname w' (with_next (recovered_to D logs) k') D U /\ tables_good t'
  /\ (forall x, x <> LockFileName dbname -> contents w2 !! x = contents w !! x)
  /\ progress w2 (first_number D) w' k' ts total /\ MemTable.in_order total /\ first_number D <= k' <= kMaxUint64 - 1
  /\ Forall (fun l : Z * list group => l.1 < k') logs.
Proof.
  intros Hses Hexists Ht Hrc. destruct (session_inv Hname dbname w vs0 D U Hses) as (n & es & Hi).
  destruct (enter_dir w (i_ok _ _ _ _ _ _ _ Hi)) as (s0 & w1 & w2 & E1 & E2 & Hw2 & Hlock).
  assert (session dbname w2 vs0 D U) as Hses2.
  { eapply s_elsewhere; [exact Hses|]. apply elsewhere_frame; [done|]. intros x [->|(m & Hm & ->)]; apply Hlock; [by apply (not_lock 0)|by apply not_lock]. }
  destruct (session_inv Hname dbname w2 vs0 D U Hses2) as (n2 & es2 & Hi2).
  pose proof (recovers_recovered dbname _ _ _ _ _ _ Hi2) as Hrec. pose proof Hrec as [K1 HK1].
  pose proof (lock_recoverable w w2 D U C logs (fun x Hx => proj1 (Hlock x Hx)) Hrc) as Hrc2.
  destruct (recover_all_logs w2 D U C logs t Hw2 Ht Hrc2) as [K2 HK2]. exists (Nat.max K1 K2). intros fuel Hf.
  destruct (HK2 fuel ltac:(lia)) as (w' & k' & t' & ts & Elogs & Ht' & Hpg & Ho & Hk & Hall).
  exists w2, w', k', t', ts. pose proof Hrc2 as [Hv Hfi Hu Hs Hl Ha (sq & Hsq & Hnum) Htot Hnw Hnx H0']. assert (0 <= room logs) as Hroom by (unfold room; lia).
  assert (is_u64 (recovered_last D logs)) as Hlast.
  { pose proof (i_last_d _ _ _ _ _ _ _ Hi2) as Hld. pose proof (last_of_u64 0 sq _ Hnum ltac:(lia)). unfold is_u64, recovered_last in *. lia. }
  split; [|split; [|split; [done|split; [by intros; apply Hlock|done]]]].
  - unfold DBImpl_Recover. rewrite E1, E2. cbn [Status.ok Status.OK negb]. unfold create_or_check.
    destruct (i_disk _ _ _ _ _ _ _ Hi2) as (_ & Hcur & _). rewrite (env_exists w2 _ Hw2), bool_decide_true by (by eexists). cbn [negb].
    rewrite Hexists. cbn [mbind res_bind Status.ok Status.OK negb]. change (versions_ (DBImpl_new t)) with (@new_VersionSet Wf).
    rewrite (HK1 fuel) by lia. cbn [mbind res_bind Status.ok Status.OK negb].
    destruct (env_children w2 dbname Hw2) as (l & -> & Hnd & Hin & Hout). cbn [Status.ok Status.OK negb].
    rewrite scan_files_spec. cbn [app]. rewrite (scan_expected w2 l _ Hin).
    2:{ intros m [Hm|(v & fs & f & Hv' & Hfs & Hff & ->)]%elem_of_AddLiveFiles; [set_solver|].
        assert (v = d_current D) as -> by (cbn in Hv'; by apply list_elem_of_singleton in Hv').
        apply list_elem_of_lookup in Hfs as [i Efs]. destruct (Hfi (Z.of_nat i) f) as [Hb Hc].
        { unfold level_files. rewrite Nat2Z.id. by rewrite (nth_lookup_Some _ _ _ _ Efs). }
        split; [lia|exact Hc]. }
    rewrite decide_False by (intros Hx; by apply Hx). rewrite opening_start by lia. cbn [vs_log_number_ vs_prev_log_number_ recovered].
    rewrite (scan_logs w2 l _ _ logs Hnd Hin Hout Hs); [|eapply list.Forall_impl; [exact Hl|]; intros x (? & ? & ? & ?); split; [lia|done]|exact Ha].
    rewrite Elogs. cbn [mbind res_bind]. by rewrite set_last_opening.
  - apply (recovered_session w' D U); [|lia|lia|done].
    eapply s_elsewhere; [by eapply s_reopen|]. apply elsewhere_frame; [apply Hpg|].
    intros x [->|(m & Hm & ->)]; apply Hpg; [apply (other_names _ 0)|apply other_names]; lia.
Qed.

(** ** [DB::Open] *)

Lemma log_not_descriptor n : 0 <= n <= kMaxUint64 -> not_descriptor dbname (LogFileName dbname n).
Proof.
  intros Hn. destruct (ParseFileName_made dbname n Hn) as (P & _). destruct (ParseFileName_made dbname 0 ltac:(done)) as (_ & _ & _ & _ & _ & PC & _).
  split; [intros E; rewrite <- E in PC; congruence|]. intros m Hm. destruct (ParseFileName_made dbname m Hm) as (_ & _ & _ & PT & PD & _).
  split; intros E; [rewrite <- E in PD|rewrite <- E in PT]; congruence.
Qed.

Lemma log_not_table k n : 0 <= k <= kMaxUint64 -> 0 <= n <= kMaxUint64 ->
  TableFileName dbname n <> LogFileName dbname k /\ SSTTableFileName dbname n <> LogFileName dbname k.
Proof.
  intros Hk Hn. destruct (ParseFileName_made dbname k Hk) as (P & _). destruct (ParseFileName_made dbname n Hn) as (_ & P1 & P2 & _).
  split; intros E; rewrite E in *; congruence.
Qed.

(** The database with its new log. *)
Definition opened (vs : VersionSet Wf) (log : Z) (t : T) : DBImpl Wf T :=
  mkDBImpl new_MemTable None log vs [] new_SnapshotList ∅ t Status.OK false false None.

Lemma begin_log_spec w (vs : VersionSet Wf) k t ts D U : session dbname w (with_next vs k) D U -> 0 <= k < kMaxUint64 ->
  good_edit U (SetLogNumber (recovery_edit ts) k) -> has_prev_log_number_ (recovery_edit ts) = false ->
  exists w' vs' log, begin_log dbname w (opening vs k t) (recovery_edit ts) = Ret (Status.OK, w', opened vs' k t, Some log)
  /\ session dbname w' vs' (durable vs') (used U (SetLogNumber (recovery_edit ts) k)) /\ env_ok w' /\ vs_descriptor_log_ vs' <> None
  /\ vs_log_number_ vs' = k /\ vs_last_sequence_ vs' = vs_last_sequence_ vs /\ vs_prev_log_number_ vs' = vs_prev_log_number_ vs
  /\ version_sorted (vs_current_ vs')
  /\ (forall l, is_level l -> level_files (vs_current_ vs') l ≡ₚ level_edit l (level_files (vs_current_ vs) l) (SetLogNumber (recovery_edit ts) k))
  /\ (forall x, not_descriptor dbname x -> x <> LogFileName dbname k -> contents w' !! x = contents w !! x)
  /\ contents w' !! LogFileName dbname k = Some [].
Proof.
  intros Hs Hk Hg Hprev. destruct (session_inv Hname dbname w _ D U Hs) as (n & es & Hi). unfold begin_log.
  change (NewFileNumber (versions_ (opening vs k t))) with (k, with_next vs (u64 (k + 1))).
  destruct (env_new w (LogFileName dbname k) (i_ok _ _ _ _ _ _ _ Hi)) as (h & w1 & -> & Hw1 & C1 & Wr1 & U1). cbn [mbind res_bind Status.ok Status.OK of_option].
  destruct (open_log_spec w1 h (LogFileName dbname k) Wr1) as (log & -> & _ & _); [by rewrite C1, lookup_insert_eq|]. cbn [mbind res_bind].
  destruct (log_not_descriptor k ltac:(lia)) as [Nc Nd].
  assert (session dbname w1 (with_next vs (u64 (k + 1))) D U) as Hs1.
  { apply (s_elsewhere dbname w); [exact (s_count dbname w _ D U _ Hs (counts_new _))|]. apply elsewhere_frame; [done|].
    intros x Hx. assert (x <> LogFileName dbname k) as Hne by (destruct Hx as [->|(m & Hm & ->)]; [done|by apply not_eq_sym, Nd]).
    split; [by rewrite C1, lookup_insert_ne by by apply not_eq_sym|]. intros u. by apply U1. }
  change (versions_ (with_logfile_number (with_versions (opening vs k t) (with_next vs (u64 (k + 1)))) k)) with (with_next vs (u64 (k + 1))).
  destruct (LogAndApply_session Hname dbname w1 _ D U _ Hs1 Hg) as (w2 & vs2 & -> & Hs2 & Hw2 & Hopen & Hlog & (Hlast & Hpr) & Hsort & Hframe & Hfiles).
  cbn [mbind res_bind]. exists w2, vs2, log. split; [done|]. split; [exact Hs2|]. split; [done|]. split; [exact Hopen|]. split; [exact Hlog|]. split; [exact Hlast|].
  cbn [has_prev_log_number_ SetLogNumber] in Hpr. rewrite Hprev in Hpr. split; [exact Hpr|]. split; [done|]. split; [exact Hfiles|]. split.
  - intros x Hx Hne. by rewrite Hframe, C1, lookup_insert_ne by (done || by apply not_eq_sym).
  - rewrite Hframe by by split. by rewrite C1, lookup_insert_eq.
Qed.

Lemma recovery_edit_prev ts : has_prev_log_number_ (recovery_edit ts) = false.
Proof. induction ts as [|t ts IH] using rev_ind; [done|]. by rewrite recovery_edit_snoc. Qed.

(** The number of tables is bounded by what they hold. *)
Lemma tables_bound (ts : list table) : Forall table_ok ts -> (length ts <= length (concat (map snd ts)))%nat.
Proof.
  induction 1 as [|t ts [(first & _ & Hh & _) _ _] _ IH]; [done|]. cbn [map concat length] in *; rewrite length_app. destruct t.2; [done|]. cbn. lia.
Qed.

Lemma total_newer (ts : list table) v C t : concat (map snd ts) ≡ₚ total -> run_newer total (version_writes C v) -> t ∈ ts -> run_newer t.2 (version_writes C v).
Proof.
  intros Hp Hn Ht a b Ha. apply Hn. rewrite <- Hp. apply list_elem_of_In, in_concat. exists t.2. split; apply list_elem_of_In; [by apply list_elem_of_fmap_2|done].
Qed.

(** What the recovered version has, in the world where it was logged. *)
Lemma recovered_tables w w2 w' D U C logs ts k v' : recoverable w D U C logs -> progress w2 (first_number D) w' k ts total -> version_sorted (d_current D) ->
  version_sorted v' -> (forall l, is_level l -> level_files v' l ≡ₚ level_edit l (level_files (d_current D) l) (SetLogNumber (recovery_edit ts) k)) ->
  version_wf (with_tables_of C ts) v' /\ (forall e, e ∈ version_writes (with_tables_of C ts) v' <-> e ∈ total \/ e ∈ version_writes C (d_current D))
  /\ (forall n, n <= d_next_file D -> with_tables_of C ts n = C n)
  /\ forall l g, g ∈ level_files v' l -> g ∈ level_files (d_current D) l \/ exists t data, t ∈ ts /\ g = table_file t
       /\ contents w' !! TableFileName dbname (number g) = Some data /\ is_table data (with_tables_of C ts (number g)) /\ file_size g = Z.of_nat (length data).
Proof.
  intros Hrc Hpg Hs Hs' Hp. pose proof (rc_next _ _ _ _ _ Hrc) as Hnx.
  assert (Forall table_ok ts) as Hok by (eapply list.Forall_impl; [apply Hpg|]; apply written_ok).
  pose proof (tables_bound ts Hok) as Hb. rewrite (Permutation_length (pg_writes _ _ _ _ _ _ Hpg)) in Hb. pose proof (rc_level0 _ _ _ _ _ Hrc) as H0'.
  assert (forall t, t ∈ ts -> d_next_file D < number t.1) as Hnum.
  { intros t Ht. pose proof (pg_range _ _ _ _ _ _ Hpg) as Hr. rewrite list.Forall_forall in Hr. specialize (Hr t Ht). cbn in Hr. lia. }
  destruct (recovered_version C (d_current D) v' ts k (rc_version _ _ _ _ _ Hrc) Hs Hok (pg_numbers _ _ _ _ _ _ Hpg) (pg_below _ _ _ _ _ _ Hpg))
    as (Hwf & Hw & Hin & _); [|lia|done|done|].
  { apply list.Forall_forall. intros t Ht. split; [eapply total_newer; [apply Hpg|apply Hrc|done]|].
    intros l g Hg. destruct (rc_files _ _ _ _ _ Hrc l g Hg) as [Hb' _]. specialize (Hnum t Ht). lia. }
  split; [done|]. split; [intros e; by rewrite Hw, (pg_writes _ _ _ _ _ _ Hpg)|]. split.
  - intros n Hn. apply with_tables_of_old, list.Forall_forall. intros t Ht. specialize (Hnum t Ht). lia.
  - intros l g [Hg|(t & -> & Ht)%list_elem_of_fmap]%Hin; [by left|]. right. pose proof (pg_written _ _ _ _ _ _ Hpg) as Hwr. rewrite list.Forall_forall in Hwr.
    destruct (tw_data _ _ (Hwr t Ht)) as (data & first & last & Hd & Htab & _ & _ & E). exists t, data. split; [done|]. split; [done|].
    cbn [table_file added_file number file_size]. split; [done|]. split; [by rewrite with_tables_of_in by (done || apply Hpg)|by rewrite E].
Qed.

(** The files of the opened version: those that the version had are untouched,
    and those that were built are still there. *)
Lemma opened_files w w2 w3 w4 w5 D U C logs ts k d (Ct : Z -> list write) : recoverable w D U C logs -> progress w2 (first_number D) w3 k ts total ->
  0 <= k < kMaxUint64 -> (forall x, x <> LockFileName dbname -> contents w2 !! x = contents w !! x) ->
  (forall x, not_descriptor dbname x -> x <> LogFileName dbname k -> contents w4 !! x = contents w3 !! x) ->
  (forall x, needed dbname d x -> contents w5 !! x = contents w4 !! x) ->
  forall l g, number g ∈ live_files d ->
  g ∈ level_files (d_current D) l \/ (exists t data, t ∈ ts /\ g = table_file t
       /\ contents w3 !! TableFileName dbname (number g) = Some data /\ is_table data (Ct (number g)) /\ file_size g = Z.of_nat (length data)) ->
  (g ∈ level_files (d_current D) l /\ contents w5 !! TableFileName dbname (number g) = contents w !! TableFileName dbname (number g)
     /\ contents w5 !! SSTTableFileName dbname (number g) = contents w !! SSTTableFileName dbname (number g))
  \/ exists data, contents w5 !! TableFileName dbname (number g) = Some data /\ is_table data (Ct (number g)) /\ file_size g = Z.of_nat (length data).
Proof.
  intros Hrc Hpg Hk Hlock Hframe Hneed l g Hlive Hg. pose proof (rc_next _ _ _ _ _ Hrc) as [Hnx0 Hnx]. assert (0 <= room logs) as Hroom by (unfold room; lia).
  assert (0 <= number g < kMaxUint64) as Hb.
  { destruct Hg as [Hold|(u & data & Hu & -> & _)]; [destruct (rc_files _ _ _ _ _ Hrc l g Hold); lia|].
    pose proof (pg_range _ _ _ _ _ _ Hpg) as Hr. rewrite list.Forall_forall in Hr. specialize (Hr u Hu). change (number (table_file u)) with (number u.1). cbn in Hr. lia. }
  destruct (needed_live dbname d (number g) Hlive ltac:(lia)) as (N1 & N2 & _).
  destruct (table_not_descriptor dbname (number g) ltac:(lia)) as [D1 D2]. destruct (log_not_table k (number g)) as [T1 T2]; [lia..|].
  rewrite (Hneed _ N1), (Hneed _ N2), !Hframe by done. destruct Hg as [Hold|(u & data & _ & _ & Hd)]; [left|right; by exists data].
  destruct (rc_files _ _ _ _ _ Hrc l g Hold) as [Hb' _]. destruct (not_lock (number g) ltac:(lia)) as (_ & L1 & L2 & _).
  destruct (other_names (first_number D) (number g) ltac:(lia) ltac:(lia)) as (_ & O2 & _ & _ & _ & O1).
  rewrite (proj1 (pg_frame _ _ _ _ _ _ Hpg _ (O1 ltac:(lia)))), (proj1 (pg_frame _ _ _ _ _ _ Hpg _ O2)), !Hlock by done. done.
Qed.

(** The replayed logs are not kept. *)
Lemma opened_logs w w5 D U C logs d : recoverable w D U C logs ->
  (forall f, obsolete d (live_files d) f = true -> contents w5 !! in_dir dbname f = None) ->
  vs_log_number_ (versions_ d) = logfile_number_ d -> vs_prev_log_number_ (versions_ d) = d_prev_log_number D ->
  forall n, n ∈ map fst logs -> n <> d_prev_log_number D -> Forall (fun l : Z * list group => l.1 < logfile_number_ d) logs ->
  contents w5 !! LogFileName dbname n = None.
Proof.
  intros Hrc Hgone Hlog Hprev n (x & -> & Hx)%list_elem_of_fmap Hne Hlogs. rewrite list.Forall_forall in Hlogs. specialize (Hlogs x Hx). cbn in Hlogs.
  pose proof (rc_logs _ _ _ _ _ Hrc) as Hl. rewrite list.Forall_forall in Hl. destruct (Hl x Hx) as (Hx0 & Hxk & _). assert (0 <= room logs) as Hroom by (unfold room; lia).
  destruct (ParseFileName_made dbname x.1 ltac:(lia)) as (P & _).
  replace (LogFileName dbname x.1) with (in_dir dbname (drop (length dbname + 1) (LogFileName dbname x.1))) by (by eapply base_name).
  apply Hgone. unfold obsolete. rewrite P. unfold keep_file. rewrite Hlog, Hprev. lia.
Qed.

(** ** Properties *)

End recover_spec.

(** ** A new database with one write in its log *)

#[local] Existing Instances BytewiseComparator no_snappy no_snappy_law flush_name flush_address opened_tables.
#[local] Hint Extern 0 KeyOrder => exact (table_order bytewise_same) : typeclass_instances.
#[local] Hint Extern 0 FilterPolicy => exact (table_policy sample_policy) : typeclass_instances.

Definition open_options : OpenOptions := mkOpenOptions false false true 4096.
Definition one_group : group := (1, [OpPut (lit "k") (lit "v")]).
Definition one_write : list write := groups_writes [one_group].

(** The log of number 3, after a record. *)
Definition write_log (w : InMemoryEnv) : res InMemoryEnv :=
  '(_, h, w) ← env_NewWritableFile w (LogFileName (lit "db") 3);
  h ← of_option h;
  log ← open_log w h;
  '(_, w, _) ← add_record w log (group_record one_group);
  Ret w.

Lemma log_names : ('(_, w) ← NewDB new_InMemoryEnv (lit "db"); w ← write_log w; Ret (names w))
  = Ret [lit "db/000003.log"; lit "db/CURRENT"; lit "db/MANIFEST-000001"].
Proof. vm_compute. reflexivity. Qed.

Lemma write_log_spec w : env_ok w -> exists w', write_log w = Ret w' /\ env_ok w' /\ log_holds (lit "db") w' 3 [one_group]
  /\ forall x, x <> LogFileName (lit "db") 3 -> contents w' !! x = contents w !! x /\ forall k, writes w k x -> writes w' k x.
Proof.
  intros Hw. unfold write_log. destruct (env_new w (LogFileName (lit "db") 3) Hw) as (h & w1 & -> & Hw1 & C1 & Wr1 & U1). cbn [mbind res_bind of_option].
  destruct (open_log_spec w1 h (LogFileName (lit "db") 3) Wr1) as (log & -> & _ & Hl); [by rewrite C1, lookup_insert_eq|]. cbn [mbind res_bind].
  destruct (add_record_spec w1 log _ _ _ (group_record one_group) Hw1 Hl) as (raw & w2 & log2 & -> & Hw2 & _ & C2 & U2 & (_ & Hraw & _ & _ & prss & Hs & HF)).
  cbn [mbind res_bind]. exists w2. split; [done|]. split; [done|]. split; [by exists raw, prss, (block_offset_ log2)|].
  intros x Hx. split; [by rewrite C2, C1, !lookup_insert_ne by by apply not_eq_sym|]. intros k Hk. apply U2. by apply U1.
Qed.

Lemma one_fit : forall es r, es ⊆+ one_write -> build_table flush_options [] (map raw_write es) = Ret (r, Status.OK) -> Z.of_nat (length (file r)) < 2^32.
Proof.
  intros es r Hes E. assert (es = [] \/ es = one_write) as Hcases.
  { destruct es as [|e [|e' es]]; [by left|right|apply submseteq_length in Hes; cbn in Hes; lia].
    assert (e ∈ one_write) as He by (eapply elem_of_submseteq; [|exact Hes]; left). by apply list_elem_of_singleton in He as ->. }
  assert (forallb (fun es => match build_table flush_options [] (map raw_write es) with Ret (r, _) => Z.of_nat (length (file r)) <? 2^32 | _ => true end)
    [[]; one_write] = true) as Hall by (vm_compute; reflexivity).
  rewrite forallb_forall in Hall. specialize (Hall es). rewrite E in Hall. apply Z.ltb_lt, Hall. destruct Hcases as [->| ->]; [by left|by right; left].
Qed.

Lemma durable0_version : d_current durable0 = Finalize new_Version.
Proof. reflexivity. Qed.

Lemma durable0_writes e : e ∈ version_writes (fun _ => []) (d_current durable0) -> False.
Proof. rewrite durable0_version. destruct (new_version_wf (fun _ => [])) as [_ Hnone]. rewrite Hnone. apply not_elem_of_nil. Qed.

Lemma durable0_level l : level_files (d_current durable0) l = [].
Proof. rewrite durable0_version. apply new_level. Qed.

Lemma one_recoverable w w' : env_ok w -> NewDB new_InMemoryEnv (lit "db") = Ret (Status.OK, w) -> write_log w = Ret w' -> log_holds (lit "db") w' 3 [one_group] ->
  recoverable (lit "db") one_write w' durable0 [] (fun _ => []) [(3, [one_group])].
Proof.
  intros Hw E Ew Hlog. split.
  - rewrite durable0_version. apply new_version_wf.
  - intros l g Hg. rewrite durable0_level in Hg. by destruct (not_elem_of_nil g).
  - intros m _. apply not_elem_of_nil.
  - repeat constructor.
  - constructor; [|constructor]. split; [done|]. split; [vm_compute; discriminate|]. split; [by left|done].
  - intros f n Hf Hr. pose proof log_names as Hnames. rewrite E in Hnames. cbn [mbind res_bind] in Hnames. rewrite Ew in Hnames. cbn [mbind res_bind] in Hnames.
    injection Hnames as Hnames. cbn [contents mem_env_spec] in Hf. unfold mem_contents in Hf. rewrite lookup_fmap, fmap_is_Some, <- elem_of_names, Hnames in Hf.
    assert (in_dir (lit "db") f ∈ map (in_dir (lit "db")) [lit "000003.log"; lit "CURRENT"; lit "MANIFEST-000001"]) as (g & Eg%in_dir_inj & Hg)%list_elem_of_fmap by exact Hf.
    subst g. apply elem_of_cons in Hg as [->|Hg].
    + vm_compute in Hr. injection Hr as <-. split; [by left|]. vm_compute. reflexivity.
    + apply elem_of_cons in Hg as [->|Hg%list_elem_of_singleton]; [vm_compute in Hr; discriminate|]. subst f. vm_compute in Hr. discriminate.
  - exists 1. split; [done|]. split; [done|]. split; [vm_compute; discriminate|]. split; [done|]. split; [|done]. repeat constructor.
  - done.
  - intros a b _ Hb. destruct (durable0_writes b Hb).
  - split; vm_compute; discriminate.
  - rewrite durable0_level. reflexivity.
Qed.

